(* ===== verification/_CoqProject ===== *)
-Q . S2P
Prelude.v
Float64.v
Hash.v
Nanbox.v
HashMap.v
Pool.v
InlineCache.v
HotReload.v
Value.v
Array.v
Strings.v
Serialize.v
MapValue.v
Mailbox.v
Mpsc.v
PidVec.v
Block.v
Timer.v
ProcGroup.v
Supervisor.v
Deque.v
Registry.v
RunQueue.v
Scheduler.v
Lexer.v
Bytecode.v
VM.v
Gc.v
Ast.v
Modules.v
Compiler.v
Semantics.v
TypeChecker.v
Codegen.v
Simulation.v
Programs.v
Parser.v
Driver.v
