(* ===== verification/Prelude.v ===== *)
(** * A verification library for Agim

    Agim is a language and its actor runtime, written in C: a lexer, a parser, a type
    checker and a compiler to bytecode, a stack interpreter over NaN-boxed values with
    reference counts, copy-on-write containers and a garbage collector, and
    lightweight processes called blocks, with mailboxes, timers, groups and
    supervisors, on a scheduler with work-stealing workers.  The names of source files
    below are relative to the directory src/ of the repository.

    ** The parts of the program and the files that model them

    Data.
    - [Prelude] (this file): machine-width integers as [Z] with the wrap-around
      written out, notations for bit operations, tactics, hint databases, and the
      lemmas on lists, bucket arrays and doubling buffers that the parts share.
    - [Float64]: the doubles of C as 64-bit words, through the Standard Library's IEEE
      754 model.  [Hash] (util/hash.c): FNV-1a.  [Nanbox] (vm/nanbox.h).
    - [HashMap] (types/map.c): the chained hash map; [InlineCache] (vm/ic.c): the
      caches in front of it.  [Pool] (util/pool.c, util/worker_alloc.c): memory pools.
    - [Value] (vm/value.c, vm/value.h, vm/nanbox_convert.h, the write barrier of
      vm/gc.c): cells in a shared store, reference counts, freeing, sharing.
    - [Array] (types/array.c), [MapValue] (types/map.c, vm/value.c), [Strings]
      (types/string.c): the containers on that store.
    - [Serialize] (runtime/serialize.c): the binary format.

    Runtime.
    - [Mailbox] (runtime/mailbox.c) as one thread runs it; [Mpsc], the same queue at
      the grain of its atomic accesses, with interleaving threads.
    - [PidVec], [Block] (runtime/block.c, runtime/capability.c): processes.
    - [Timer] (runtime/timer.c), [ProcGroup] (runtime/procgroup.c), [Supervisor]
      (runtime/supervisor.c), [HotReload] (runtime/hotreload.c).
    - [Deque] (runtime/worker.c): the work-stealing deque at the grain of its atomic
      accesses.  [Registry], [RunQueue], [Scheduler] (runtime/scheduler.c): the
      registry of blocks and the run queue as pointer structures, and the scheduler
      over a finite map and a list, which they refine.

    Language.
    - [Lexer] (lang/lexer.c), [Ast] (lang/ast.h), [Parser] (lang/parser.c),
      [TypeChecker] (lang/typechecker.c), [Modules] (lang/module.c), [Compiler]
      (lang/compiler.c), [Bytecode] (vm/bytecode.c), [VM] (vm/vm.c), [Gc] (vm/gc.c),
      [Driver] (lang/agim.c).
    - [Semantics] is an evaluator over syntax trees, the specification of the compiler
      and the interpreter; [Codegen], [Simulation] and [Programs] prove that compiled
      code computes what it says.

    A source goes through lexer, parser, type checker (in strict mode), compiler and
    interpreter ([Driver]).  A block runs an interpreter and owns a mailbox; sending
    puts a message on the receiver's queue whose value is shared through the store's
    reference counts.  The scheduler runs the blocks of its queue one time slice each,
    propagates exits along links and tells monitors and supervisors; supervisors
    start, stop and link blocks through the scheduler.

    ** How code corresponds to definitions

    Definitions keep the names of the C functions.  A pure function is a Rocq
    function; code that updates a structure takes and returns it; code on shared
    values runs in the state monad [Value.M] over [Value.Store], in which [None] is
    undefined behaviour (a dangling or null access); the interpreter, the parser, the
    compiler and the type checker have monads of their own with their errors as
    values.  A pointer is an address; [NULL] is 0.  The result of an allocation, a
    clock reading, a freshly allocated address, the contents of files and what other
    threads do while a lock is not held are arguments, so theorems hold whatever they
    are; an argument named [.._ok] says whether an allocation succeeds.  Guards
    against null arguments are left out where the argument is a structure.

    Loops are structural recursion over the list they walk; others have fuel, and
    running out of it is a value of its own (undefined, [NoResult], [None], [Unknown],
    [fault]), never a result:
    - [double_until] and [bytes_grow] double a capacity of at least one, which takes
      fewer than 64 steps ([double_until_total]);
    - [value_free], [value_equals], [serialize_value] and [value_copy] have fuel for
      the depth of a value; [deserialize_value_internal] recurses on the depth that
      the code limits; [mark_value] has as much fuel as there are cells;
    - [gc_complete] takes at most twice the number of objects and two steps more,
      which the theorem about incremental collections proves;
    - [lex] has one unit for each character and one more, which is enough
      ([lexer_partition]); [split_loop] one for each byte;
    - [parse] has fuel for its recursion and its loops: more than the number of tokens
      is enough for expressions ([parse_written]), and no fuel is enough where the
      code does not terminate ([parser_never_returns]);
    - [run_instructions] needs no more than [slice_end] of the limit
      ([vm_run_preempts]);
    - [propagate_from] has [exit_fuel], enough for the links of all live blocks
      ([scheduler_kill_exact]); the chains of [HotReload] have one unit for each
      version;
    - [drop_until_fits] has one unit more than there are messages; [Mpsc] and [Deque]
      have no fuel: they are step relations ([mpsc_pop_wait_free] bounds a pop).

    ** Interfaces

    - [Block.Interpreter] and [Block.InterpreterContract]: what [block_run] needs of
      an interpreter; the witnesses have instances.
    - [Supervisor.SchedulerOps] and [Supervisor.SchedulerLaws]: what a supervisor
      needs of the scheduler; [Scheduler.scheduler_laws] proves the laws of the
      modelled scheduler, [Supervisor.Numbered_laws] of a small one.
    - [Scheduler.SystemInterpreter] and [Scheduler.SystemContract]: what the run loop
      needs of running a block; [Scheduler.program_contract] proves it for every
      choice of system calls, with [OP_SEND] and [OP_SPAWN] modelled from vm/vm.c.
    - [VM.OtherInstructions]: what is assumed of the instructions that are not
      modelled, namely that they do not look at the counters of the time slice and
      leave the machine with a frame.  The theorems on time slices and the one on the
      driver have this assumption; [no_other] is an instance.

    ** What the theorems show

    - Language: tokens and gaps partition every source, and printed tokens are lexed
      back; the parser returns the tree that was written, and where it does not
      return; the types that the checker infers hold, for a fragment; the compiler and
      the interpreter refine the reference semantics, functions and recursion
      included, and the driver returns what the semantics says; jumps land where they
      should; bytecode files are read back, and reading any bytes is safe; time slices
      end and do not change what a program computes.
    - Memory: full and incremental collections take from the heap exactly what is
      neither reachable nor referenced from elsewhere; the heap's counters and lists
      stay sound; pools hand out disjoint blocks; the versions of hot-reloaded modules
      are neither leaked nor used after they are freed.
    - Data: the hash map refines a finite map for every outcome of its allocations;
      lookups through inline caches are lookups; array writers are copy-on-write
      updates; splitting and joining strings are inverse; deserializing a serialized
      value gives it back, and deserializing any bytes stays inside the buffer.
    - Concurrency: with any number of producers interleaving with the consumer of a
      mailbox no message is lost, duplicated or reordered, no freed node is touched, a
      pop ends after a bounded number of its own steps and messages are delivered; the
      deque is linearizable and touches no freed buffer.
    - Processes: the life cycle of a block, sending by reference, bounded mailboxes as
      queues, the timer wheel, the three strategies of supervisors and their limits,
      the registry and the run queue as a finite map and a list, spawning, exactly
      which blocks a kill crashes, and the order in which blocks are served.

    Lemmas that are named in the list of findings exhibit deviations of the code, such
    as [Programs.compiled_meaning_differs], [Gc.gc_loses_objects],
    [TypeChecker.typechecker_flaws] and [Driver.agim_run_flaws].

    ** Simplifications

    - Atomic accesses are sequentially consistent.  Compare-and-swap loops outside of
      [Mpsc] and [Deque], such as that of [value_retain], run without interruption;
      functions that hold a lock are one step.
    - Where an allocation has no [.._ok] argument it succeeds: in [deserialize_value],
      [scheduler_spawn_ex] and the string functions other than [string_split] and
      [string_join].  [scheduler_spawn_ex] does not register the tools of the
      bytecode.
    - Sizes of structures are those of 64-bit machines.
    - [run_code] leaves out the frees at the end of a run; functions that only release
      memory, print or log are left out.
    - The reference semantics covers functions of numbers, truth values and functions;
      strings, containers and builtin calls have no answer in it ([Unknown]), and the
      theorems about it say nothing of programs without an answer.

    ** What is not modelled

    The register machine and its compiler; the instructions of vm/vm.c for closures,
    structs, enums, slices and the builtin functions, and for messages, links and
    groups inside the interpreter, which are the parameter [other] of [VM]; vectors
    and upvalue objects; checkpoints; telemetry, logs and metrics; the sandbox; the
    builtin tools and the primitives around external services; distribution between
    nodes; the command line; weak memory orders. *)

From Stdlib Require Import ZArith Lia.
From stdpp Require Import base list numbers sorting fin_maps gmap strings.

(** ** Machine integers *)

Module Word.
Local Open Scope Z_scope.

Definition wrap (w x : Z) : Z := x mod 2 ^ w.
Definition u8 (x : Z) : Z := wrap 8 x.
Definition u16 (x : Z) : Z := wrap 16 x.
Definition u32 (x : Z) : Z := wrap 32 x.
Definition u64 (x : Z) : Z := wrap 64 x.

(** Two's-complement reading of a 64-bit and of a 32-bit pattern:
    C's [(int64_t)u] and [(int)u]. *)
Definition s64 (x : Z) : Z := if u64 x <? 2 ^ 63 then u64 x else u64 x - 2 ^ 64.
Definition s32 (x : Z) : Z := if u32 x <? 2 ^ 31 then u32 x else u32 x - 2 ^ 32.

Definition SIZE_MAX : Z := 2 ^ 64 - 1.
Definition UINT64_MAX : Z := 2 ^ 64 - 1.
Definition UINT32_MAX : Z := 2 ^ 32 - 1.

Definition is_u8 (x : Z) : Prop := 0 <= x < 2 ^ 8.
Definition is_u32 (x : Z) : Prop := 0 <= x < 2 ^ 32.
Definition is_u64 (x : Z) : Prop := 0 <= x < 2 ^ 64.
Definition is_s64 (x : Z) : Prop := - 2 ^ 63 <= x < 2 ^ 63.

Lemma wrap_range w x : 0 <= w -> 0 <= wrap w x < 2 ^ w.
Proof. intros. apply Z.mod_pos_bound. lia. Qed.

Lemma u64_range x : is_u64 (u64 x).
Proof. apply wrap_range. lia. Qed.

Lemma u32_range x : is_u32 (u32 x).
Proof. apply wrap_range. lia. Qed.

Lemma u8_range x : is_u8 (u8 x).
Proof. apply wrap_range. lia. Qed.

Lemma wrap_small w x : 0 <= x < 2 ^ w -> wrap w x = x.
Proof. intros. apply Z.mod_small. lia. Qed.

Lemma u64_small x : is_u64 x -> u64 x = x.
Proof. apply wrap_small. Qed.

Lemma u32_small x : is_u32 x -> u32 x = x.
Proof. apply wrap_small. Qed.

Lemma u8_small x : is_u8 x -> u8 x = x.
Proof. apply wrap_small. Qed.

Lemma s64_range x : is_s64 (s64 x).
Proof.
  unfold s64, is_s64. pose proof (u64_range x) as [H1 H2].
  destruct (Z.ltb_spec (u64 x) (2 ^ 63)); lia.
Qed.

Lemma s32_small x : - 2 ^ 31 <= x < 2 ^ 31 -> s32 x = x.
Proof.
  unfold s32, u32, wrap. intros H. destruct (Z.lt_ge_cases x 0).
  - replace (x mod 2 ^ 32) with (x + 2 ^ 32).
    + destruct (Z.ltb_spec (x + 2 ^ 32) (2 ^ 31)); lia.
    + symmetry. rewrite <- (Z.mod_add x 1 (2 ^ 32)) by lia. apply Z.mod_small. lia.
  - rewrite Z.mod_small by lia. destruct (Z.ltb_spec x (2 ^ 31)); lia.
Qed.

Lemma s64_u64 x : is_s64 x -> s64 (u64 x) = x.
Proof.
  unfold s64, is_s64, u64, wrap. intros H. rewrite Z.mod_mod by lia.
  destruct (Z.lt_ge_cases x 0).
  - replace (x mod 2 ^ 64) with (x + 2 ^ 64).
    + destruct (Z.ltb_spec (x + 2 ^ 64) (2 ^ 63)); lia.
    + symmetry. rewrite <- (Z.mod_add x 1 (2 ^ 64)) by lia.
      apply Z.mod_small. lia.
  - rewrite Z.mod_small by lia. destruct (Z.ltb_spec x (2 ^ 63)); lia.
Qed.

End Word.
Export Word.

(** ** Notations *)

Declare Scope agim_scope.
Delimit Scope agim_scope with agim.
Notation "a .& b" := (Z.land a b) (at level 40, left associativity) : agim_scope.
Notation "a .| b" := (Z.lor a b) (at level 50, left associativity) : agim_scope.
Notation "a .^ b" := (Z.lxor a b) (at level 45, left associativity) : agim_scope.
Notation "a .<< b" := (Z.shiftl a b) (at level 33, left associativity) : agim_scope.
Notation "a .>> b" := (Z.shiftr a b) (at level 33, left associativity) : agim_scope.

(** ** Hint databases and tactics *)

Create HintDb word discriminated.
#[export] Hint Resolve u64_range u32_range u8_range s64_range : word.
Create HintDb agim.

(** Turns the boolean tests of the translated code into propositions. *)
Ltac bool_prop :=
  repeat match goal with
  | H : (_ && _)%bool = true |- _ => apply andb_true_iff in H; destruct H
  | H : (_ && _)%bool = false |- _ => apply andb_false_iff in H
  | H : (_ || _)%bool = true |- _ => apply orb_true_iff in H
  | H : (_ || _)%bool = false |- _ => apply orb_false_iff in H; destruct H
  | H : negb _ = true |- _ => apply negb_true_iff in H
  | H : negb _ = false |- _ => apply negb_false_iff in H
  | H : (_ <? _)%Z = true |- _ => apply Z.ltb_lt in H
  | H : (_ <? _)%Z = false |- _ => apply Z.ltb_ge in H
  | H : (_ <=? _)%Z = true |- _ => apply Z.leb_le in H
  | H : (_ <=? _)%Z = false |- _ => apply Z.leb_gt in H
  | H : (_ =? _)%Z = true |- _ => apply Z.eqb_eq in H
  | H : (_ =? _)%Z = false |- _ => apply Z.eqb_neq in H
  | H : (_ =? _)%nat = true |- _ => apply Nat.eqb_eq in H
  | H : (_ =? _)%nat = false |- _ => apply Nat.eqb_neq in H
  | H : (_ <? _)%nat = true |- _ => apply Nat.ltb_lt in H
  | H : (_ <? _)%nat = false |- _ => apply Nat.ltb_ge in H
  | H : (_ <=? _)%nat = true |- _ => apply Nat.leb_le in H
  | H : (_ <=? _)%nat = false |- _ => apply Nat.leb_gt in H
  end.

(** Case analysis on the next test of the goal or of a hypothesis. *)
Ltac case_if :=
  match goal with
  | |- context [if ?b then _ else _] => destruct b eqn:?
  | H : context [if ?b then _ else _] |- _ => destruct b eqn:?
  end; bool_prop.

(** [lia] after writing out quotients and remainders. *)
Ltac dlia := Z.to_euclidean_division_equations; lia.

Ltac case_if_goal :=
  match goal with |- context [if ?b then _ else _] => destruct b eqn:? end; bool_prop.

(** ** Bits *)

Lemma testbit_small a w i :
  (0 <= a < 2 ^ w -> 0 <= w -> w <= i -> Z.testbit a i = false)%Z.
Proof.
  intros Ha Hw Hi. rewrite <- (Z.mod_small a (2 ^ w)) by done.
  by apply Z.mod_pow2_bits_high.
Qed.

(** Two numbers whose bit ranges do not meet add up under [lor]. *)
Lemma lor_shift_add a b w :
  (0 <= w -> 0 <= b < 2 ^ w -> Z.lor (Z.shiftl a w) b = a * 2 ^ w + b)%Z.
Proof.
  intros Hw Hb. rewrite Z.shiftl_mul_pow2 by done.
  rewrite <- Z.lxor_lor, <- Z.add_nocarry_lxor; try done.
  all: apply Z.bits_inj'; intros i Hi; rewrite Z.land_spec, Z.bits_0.
  all: destruct (Z.lt_ge_cases i w);
    [rewrite Z.mul_pow2_bits_low by lia; done
    |rewrite (testbit_small b w i) by lia; apply andb_false_r].
Qed.

(** ** Lists *)

Section lists.
Context {A : Type}.
Implicit Types l : list A.

Lemma lookup_last_Some l x : last l = Some x -> exists l', l = l' ++ [x].
Proof. intros H. apply last_Some in H. naive_solver. Qed.

Lemma NoDup_snoc l x : NoDup l -> x ∉ l -> NoDup (l ++ [x]).
Proof.
  intros Hl Hx. apply NoDup_app. split; [done|]. split; [|apply NoDup_singleton].
  intros y Hy ->%list_elem_of_singleton. done.
Qed.

Lemma Forall_snoc (P : A -> Prop) l x : Forall P l -> P x -> Forall P (l ++ [x]).
Proof. intros. apply Forall_app. by rewrite Forall_singleton. Qed.

(** Position of the first element that satisfies a test: the
    [for (i = 0; i < n; i++) if (p(a[i])) ...] loops of the sources. *)
Fixpoint find_index (p : A -> bool) l : option nat :=
  match l with
  | [] => None
  | x :: l' => if p x then Some O else S <$> find_index p l'
  end.

Lemma find_index_Some p l i :
  find_index p l = Some i -> exists x, l !! i = Some x /\ p x = true.
Proof.
  revert i. induction l as [|y l IH]; simpl; intros i H; [done|].
  destruct (p y) eqn:Hp.
  - simplify_eq. by exists y.
  - destruct (find_index p l); simplify_eq/=. by apply IH.
Qed.

Lemma find_index_first p l i j y :
  find_index p l = Some i -> (j < i)%nat -> l !! j = Some y -> p y = false.
Proof.
  revert i j. induction l as [|z l IH]; simpl; intros i j H Hj Hl; [done|].
  destruct (p z) eqn:Hp; simplify_eq; [lia|].
  destruct (find_index p l) eqn:E; simplify_eq/=.
  destruct j; simplify_eq/=; [done|]. eapply IH; eauto. lia.
Qed.

Lemma find_index_None p l : find_index p l = None -> Forall (fun x => p x = false) l.
Proof.
  induction l as [|y l IH]; simpl; intros H; constructor.
  - by destruct (p y).
  - destruct (p y); [done|]. destruct (find_index p l); [done|auto].
Qed.

Lemma find_index_lt p l i : find_index p l = Some i -> (i < length l)%nat.
Proof. intros (x & Hx & _)%find_index_Some. by eapply lookup_lt_Some. Qed.

Lemma list_delete_insert_eq l i x : delete i (<[i := x]> l) = delete i l.
Proof. revert i. induction l as [|y l IH]; intros [|i]; simpl; [done..|]. by rewrite IH. Qed.

(** [a[i] = a[--n]]: remove index [i] by moving the last element into it. *)
Definition swap_remove (i : nat) l : list A :=
  match last l with
  | Some x => take (length l - 1) (<[i := x]> l)
  | None => l
  end.

Lemma length_swap_remove i l : length (swap_remove i l) = (length l - 1)%nat.
Proof.
  unfold swap_remove. destruct (last l) as [x|] eqn:E.
  - rewrite length_take, length_insert. lia.
  - apply last_None in E as ->. done.
Qed.

Lemma swap_remove_perm i l x : l !! i = Some x -> l ≡ₚ x :: swap_remove i l.
Proof.
  intros Hi. unfold swap_remove.
  destruct (last l) as [z|] eqn:E; [|apply last_None in E as ->; done].
  apply lookup_last_Some in E as [l' ->].
  rewrite length_app. simpl.
  replace (length l' + 1 - 1)%nat with (length l') by lia.
  destruct (decide (i = length l')) as [->|Hne].
  - rewrite lookup_app_r in Hi by lia. rewrite Nat.sub_diag in Hi. simplify_eq/=.
    rewrite insert_app_r_alt by lia. rewrite take_app_length. by rewrite Permutation_app_comm.
  - apply lookup_lt_Some in Hi as Hlt. rewrite length_app in Hlt. simpl in Hlt.
    rewrite lookup_app_l in Hi by lia. rewrite insert_app_l by lia.
    rewrite take_app_length' by (by rewrite length_insert).
    rewrite <- (take_drop_middle l' i x Hi) at 1.
    rewrite insert_take_drop by lia. solve_Permutation.
Qed.

End lists.

Lemma NoDup_fmap_unique {B C} (f : B -> C) (l : list B) x y :
  NoDup (f <$> l) -> x ∈ l -> y ∈ l -> f x = f y -> x = y.
Proof.
  intros Hnd [i Hi]%list_elem_of_lookup [j Hj]%list_elem_of_lookup Hf.
  assert (i = j) as ->; [|congruence].
  eapply NoDup_lookup; [exact Hnd| |]; rewrite list_lookup_fmap.
  - by rewrite Hi.
  - by rewrite Hj, Hf.
Qed.

(** ** Arrays of chains: hash buckets, timer slots *)

Section chains.
Context {A : Type}.
Implicit Types bs : list (list A).

Lemma concat_focus bs i c :
  bs !! i = Some c -> concat bs ≡ₚ c ++ concat (delete i bs).
Proof.
  revert i. induction bs as [|b bs IH]; intros [|i] H; simplify_eq/=; [done|].
  rewrite (IH i) by done. solve_Permutation.
Qed.

Lemma concat_insert bs i c c' :
  bs !! i = Some c -> concat (<[i := c']> bs) ≡ₚ c' ++ concat (delete i bs).
Proof.
  intros H. rewrite (concat_focus (<[i:=c']> bs) i c').
  - apply Permutation_app_head. revert i H.
    induction bs as [|b bs IH]; intros [|i] H; simplify_eq/=; [done|].
    by rewrite (IH i).
  - apply list_lookup_insert_eq. by eapply lookup_lt_Some.
Qed.

Lemma list_alter_insert bs i (f : list A -> list A) c :
  bs !! i = Some c -> alter f i bs = <[i := f c]> bs.
Proof.
  revert i. induction bs as [|b bs IH]; intros [|i] H; simplify_eq/=; [done|].
  by rewrite <- (IH i H).
Qed.

Lemma concat_alter_perm bs i (f : list A -> list A) c :
  bs !! i = Some c -> concat (alter f i bs) ≡ₚ f c ++ concat (delete i bs).
Proof.
  intros H. rewrite (list_alter_insert bs i f c H). by eapply concat_insert.
Qed.

Lemma elem_of_concat bs x : x ∈ concat bs <-> exists i c, bs !! i = Some c /\ x ∈ c.
Proof.
  rewrite list_elem_of_In, in_concat. setoid_rewrite <- list_elem_of_In.
  split.
  - intros (c & [i Hi]%list_elem_of_lookup & Hx). eauto.
  - intros (i & c & Hi & Hx). exists c. split; [|done]. by eapply list_elem_of_lookup_2.
Qed.

(** Chains without repetition that share no element. *)
Lemma NoDup_concat bs :
  (forall i c, bs !! i = Some c -> NoDup c) ->
  (forall i j c d x, bs !! i = Some c -> bs !! j = Some d -> x ∈ c -> x ∈ d -> i = j) ->
  NoDup (concat bs).
Proof.
  induction bs as [|b bs IH]; intros Hnd Hsep; [constructor|]. simpl. apply NoDup_app. split_and!.
  - by apply (Hnd 0%nat).
  - intros x Hx (j & d & Hj & Hd)%elem_of_concat. by pose proof (Hsep 0%nat (S j) b d x eq_refl Hj Hx Hd).
  - apply IH.
    + intros i c. apply (Hnd (S i)).
    + intros i j c d x Hi Hj Hc Hd. by injection (Hsep (S i) (S j) c d x Hi Hj Hc Hd).
Qed.

End chains.

(** ** Growing a buffer by doubling

    [while (cap < needed) { if (cap > SIZE_MAX / 2) return false; cap *= 2; }],
    the growth loop of the arrays, the byte buffers and the serial buffers.
    A capacity of at least one doubles at most 63 times before it passes
    [SIZE_MAX / 2], so 64 iterations are enough. *)

Local Open Scope Z_scope.

Fixpoint double_until (fuel : nat) (cap needed : Z) : option Z :=
  if needed <=? cap then Some cap
  else if SIZE_MAX / 2 <? cap then None
  else match fuel with
       | O => None
       | S fuel' => double_until fuel' (cap * 2) needed
       end.

Lemma double_until_Some fuel cap needed c :
  1 <= cap -> double_until fuel cap needed = Some c ->
  needed <= c /\ cap <= c /\ (c = cap \/ c < 2 * needed).
Proof.
  revert cap. induction fuel as [|fuel IH]; intros cap Hc H; simpl in H.
  - repeat case_if; simplify_eq. lia.
  - repeat case_if; simplify_eq; [lia|]. apply IH in H; [|lia]. lia.
Qed.

Lemma double_until_enough fuel cap needed :
  1 <= cap -> needed <= cap * 2 ^ Z.of_nat fuel -> needed <= 2 ^ 63 ->
  exists c, double_until fuel cap needed = Some c.
Proof.
  assert (Hmax : SIZE_MAX / 2 = 2 ^ 63 - 1) by reflexivity.
  revert cap. induction fuel as [|fuel IH]; intros cap Hc Hf Hn; cbn [double_until];
    rewrite Hmax.
  - change (2 ^ Z.of_nat 0) with 1 in Hf. case_if_goal; [eauto|lia].
  - case_if_goal; [eauto|]. case_if_goal; [lia|]. apply IH; [lia| |lia].
    rewrite Nat2Z.inj_succ, Z.pow_succ_r in Hf by lia. lia.
Qed.

(** Terminates for every capacity of at least one; the only failure is a
    request the capacity type cannot double up to. *)
Lemma double_until_total cap needed :
  1 <= cap -> needed <= 2 ^ 63 ->
  exists c, double_until 64 cap needed = Some c /\ needed <= c /\ cap <= c.
Proof.
  intros Hc Hn. destruct (double_until_enough 64 cap needed) as [c H]; [lia| |done|].
  - change (2 ^ Z.of_nat 64) with (2 ^ 64). lia.
  - exists c. split; [done|]. apply double_until_Some in H; lia.
Qed.

(** ** Threads by what they are doing *)

Section count_where.
Context {A : Type} (P : A -> Prop) `{forall a, Decision (P a)}.
Implicit Types m : gmap Z A.

(** The number of threads whose state satisfies [P]. *)
Definition count_where m : Z := Z.of_nat (base.size (filter (fun ta => P ta.2) m)).

Lemma count_where_delete m t a :
  m !! t = Some a -> count_where m = count_where (delete t m) + (if decide (P a) then 1 else 0).
Proof.
  intros Ht. unfold count_where. rewrite map_filter_delete.
  set (f := filter _ m). destruct (decide (P a)) as [Hu|Hu].
  - assert (f !! t = Some a) by (by apply map_lookup_filter_Some).
    pose proof (map_size_delete_Some t f ltac:(eauto)) as E.
    assert (base.size f <> 0%nat) by (intros ->%map_size_empty_inv; done). lia.
  - rewrite delete_id; [lia|]. apply map_lookup_filter_None. right. intros x ?; simplify_eq; done.
Qed.

Lemma count_where_insert m t a :
  count_where (<[t := a]> m) = count_where (delete t m) + (if decide (P a) then 1 else 0).
Proof. rewrite (count_where_delete _ t a) by apply lookup_insert_eq. by rewrite delete_insert_eq. Qed.

Lemma count_where_none m t : m !! t = None -> count_where (delete t m) = count_where m.
Proof. intros. by rewrite delete_id. Qed.

Lemma count_where_0 m : (forall t a, m !! t = Some a -> ~ P a) -> count_where m = 0.
Proof. intros Hm. unfold count_where. rewrite map_empty_filter_2; [done|]. intros t a Ht. by eapply Hm. Qed.

End count_where.
