(* ===== verification/Float64.v ===== *)
(** * IEEE 754 doubles as bit patterns

    A C [double] is modelled by its 64-bit pattern, the form in which the
    sources move it around ([memcpy] in vm/nanbox.h, unions in
    runtime/serialize.c and vm/value.c).  Arithmetic, comparison, conversion from [int64_t]
    and conversion to [int64_t] go through the Standard Library's executable
    specification floats (precision 53, maximal exponent 1024). *)

From Stdlib Require Import ZArith Lia SpecFloat.
From stdpp Require Import base numbers.
From S2P Require Import Prelude.
Local Open Scope Z_scope.

Definition f64 : Type := Z.

Definition f64_sign (b : f64) : bool := Z.testbit b 63.
Definition f64_exponent (b : f64) : Z := (b / 2 ^ 52) mod 2 ^ 11.
Definition f64_mantissa (b : f64) : Z := b mod 2 ^ 52.

(** Reading a pattern. *)
Definition f64_decode (b : f64) : spec_float :=
  let s := f64_sign b in
  let e := f64_exponent b in
  let m := f64_mantissa b in
  if e =? 0 then
    match m with
    | Z.pos p => S754_finite s p (-1074)
    | _ => S754_zero s
    end
  else if e =? 2047 then
    if m =? 0 then S754_infinity s else S754_nan
  else
    match m + 2 ^ 52 with
    | Z.pos p => S754_finite s p (e - 1075)
    | _ => S754_nan
    end.

(** Writing one (the quiet NaN pattern is the default one of the hardware). *)
Definition f64_encode (x : spec_float) : f64 :=
  match x with
  | S754_zero s => if s then 2 ^ 63 else 0
  | S754_infinity s => (if s then 2 ^ 63 else 0) + 2047 * 2 ^ 52
  | S754_nan => 2047 * 2 ^ 52 + 2 ^ 51
  | S754_finite s m e =>
      (if s then 2 ^ 63 else 0) +
      (if Z.pos m <? 2 ^ 52 then Z.pos m else (e + 1075) * 2 ^ 52 + (Z.pos m - 2 ^ 52))
  end.

Definition f64_is_nan (b : f64) : bool :=
  match f64_decode b with S754_nan => true | _ => false end.

(** C's [a == b], [a < b], [a > b] on doubles. *)
Definition f64_eqb (a b : f64) : bool := SFeqb (f64_decode a) (f64_decode b).
Definition f64_ltb (a b : f64) : bool := SFltb (f64_decode a) (f64_decode b).

Definition f64_leb (a b : f64) : bool := SFleb (f64_decode a) (f64_decode b).

(** C's [a + b], [a - b], [a * b], [a / b] and [-a], rounding to nearest. *)
Definition f64_add (a b : f64) : f64 := f64_encode (SFadd 53 1024 (f64_decode a) (f64_decode b)).
Definition f64_sub (a b : f64) : f64 := f64_encode (SFsub 53 1024 (f64_decode a) (f64_decode b)).
Definition f64_mul (a b : f64) : f64 := f64_encode (SFmul 53 1024 (f64_decode a) (f64_decode b)).
Definition f64_div (a b : f64) : f64 := f64_encode (SFdiv 53 1024 (f64_decode a) (f64_decode b)).
Definition f64_neg (a : f64) : f64 := Z.lxor a (2 ^ 63).

Definition f64_zero : f64 := 0.
Definition f64_one : f64 := 0x3FF0000000000000.

(** C's [(double)i]: round to nearest, ties to even. *)
Definition f64_of_int (i : Z) : f64 := f64_encode (binary_normalize 53 1024 i 0 false).

(** C's [(int64_t)d]: truncation towards zero; [None] where the conversion is
    undefined (NaN, infinities, values outside [int64_t]). *)
Definition f64_to_int (b : f64) : option Z :=
  match f64_decode b with
  | S754_zero _ => Some 0
  | S754_finite s m e =>
      let a := if 0 <=? e then Z.pos m * 2 ^ e else Z.pos m / 2 ^ (- e) in
      let r := if s then - a else a in
      if (- 2 ^ 63 <=? r) && (r <? 2 ^ 63) then Some r else None
  | _ => None
  end.

Lemma SFeqb_sym x y : SFeqb x y = SFeqb y x.
Proof.
  destruct x as [[]|[]| |[] mx ex], y as [[]|[]| |[] my ey]; try reflexivity;
    unfold SFeqb; simpl; rewrite (Z.compare_antisym ex ey);
    destruct (Z.compare ex ey) eqn:E; try reflexivity;
    change (Pos.compare_cont Eq mx my) with (Pos.compare mx my);
    change (Pos.compare_cont Eq my mx) with (Pos.compare my mx);
    rewrite (Pos.compare_antisym mx my); by destruct (Pos.compare mx my).
Qed.

Lemma SFeqb_refl x : x <> S754_nan -> SFeqb x x = true.
Proof.
  destruct x as [[]|[]| |[] m e]; try reflexivity; intros H; [done| |];
    unfold SFeqb; simpl; rewrite Z.compare_refl;
    change (Pos.compare_cont Eq m m) with (Pos.compare m m);
    by rewrite Pos.compare_refl.
Qed.

Lemma f64_eqb_sym a b : f64_eqb a b = f64_eqb b a.
Proof. apply SFeqb_sym. Qed.

Lemma f64_eqb_refl a : f64_eqb a a = negb (f64_is_nan a).
Proof.
  unfold f64_eqb, f64_is_nan. destruct (f64_decode a) eqn:E; try done; rewrite SFeqb_refl; done.
Qed.

(** A NaN has all exponent bits set: its pattern without the sign is at least
    [0x7FF0000000000001]. *)
Lemma f64_is_nan_spec b :
  is_u64 b ->
  f64_is_nan b = true <-> 2047 * 2 ^ 52 < b mod 2 ^ 63.
Proof.
  unfold is_u64, f64_is_nan, f64_decode, f64_exponent, f64_mantissa. intros Hb.
  assert (Hsplit : b mod 2 ^ 63 = (b / 2 ^ 52) mod 2 ^ 11 * 2 ^ 52 + b mod 2 ^ 52).
  { pose proof (Z.div_mod b (2 ^ 63)). pose proof (Z.mod_pos_bound b (2 ^ 63)).
    pose proof (Z.div_mod b (2 ^ 52)). pose proof (Z.mod_pos_bound b (2 ^ 52)).
    pose proof (Z.div_mod (b / 2 ^ 52) (2 ^ 11)).
    pose proof (Z.mod_pos_bound (b / 2 ^ 52) (2 ^ 11)).
    rewrite Z.div_div in * by lia. change (2 ^ 52 * 2 ^ 11) with (2 ^ 63) in *. lia. }
  pose proof (Z.mod_pos_bound b (2 ^ 52)).
  pose proof (Z.mod_pos_bound (b / 2 ^ 52) (2 ^ 11)).
  rewrite Hsplit. clear Hsplit.
  generalize dependent ((b / 2 ^ 52) mod 2 ^ 11). intros e He.
  generalize dependent (b mod 2 ^ 52). intros m Hm.
  destruct (Z.eqb_spec e 0) as [->|He0].
  { split; [|lia]. destruct m; done. }
  destruct (Z.eqb_spec e 2047) as [->|Hne].
  { destruct (Z.eqb_spec m 0); split; try done; lia. }
  destruct (m + 2 ^ 52) eqn:E; split; try done; lia.
Qed.
