(* ===== verification/Hash.v ===== *)
(** * Hash functions (src/util/hash.c)

    FNV-1a over a byte string, in its counted and its NUL-terminated form, and
    the hash combiner.  [size_t] is 64 bits wide. *)

From Stdlib Require Import ZArith Lia.
From stdpp Require Import base list numbers.
From S2P Require Import Prelude.
Local Open Scope Z_scope.
Local Open Scope agim_scope.

Definition FNV_OFFSET_BASIS : Z := 2166136261.
Definition FNV_PRIME : Z := 16777619.

(** One iteration of either loop. *)
Definition fnv_step (hash c : Z) : Z := u64 ((hash .^ u8 c) * FNV_PRIME).

(** [for (i = 0; i < length; i++)]: [str] is the memory from the pointer on. *)
Definition agim_hash_string (str : list Z) (length : nat) : Z :=
  foldl fnv_step FNV_OFFSET_BASIS (take length str).

(** [while ( *str)]: stops at the first NUL. *)
Fixpoint hash_cstring_loop (hash : Z) (str : list Z) : Z :=
  match str with
  | [] => hash
  | c :: str' => if c =? 0 then hash else hash_cstring_loop (fnv_step hash c) str'
  end.
Definition agim_hash_cstring (str : list Z) : Z := hash_cstring_loop FNV_OFFSET_BASIS str.

Definition agim_hash_combine (h1 h2 : Z) : Z :=
  h1 .^ u64 (u64 (u64 (h2 + 0x9e3779b9) + u64 (h1 .<< 6)) + (h1 .>> 2)).

(** C's [strlen] of the memory from a pointer on. *)
Fixpoint strlen (str : list Z) : nat :=
  match str with
  | [] => O
  | c :: str' => if c =? 0 then O else S (strlen str')
  end.

(** The characters of a C string: what [strcmp] and [strlen] see. *)
Definition cstr (str : list Z) : list Z := take (strlen str) str.

(** A key as the maps store it: bytes, none of them NUL. *)
Definition is_cstr (str : list Z) : Prop := Forall (fun c => 0 < c < 256) str.

Lemma is_cstr_decide (k : list Z) :
  forallb (fun c => (0 <? c) && (c <? 256)) k = true -> is_cstr k.
Proof.
  induction k as [|c k IH]; intros H; [constructor|]. simpl in H. bool_prop.
  constructor; [lia|]. apply IH. done.
Qed.

Lemma is_cstr_strlen str : is_cstr str -> strlen str = length str.
Proof.
  induction 1 as [|c str Hc _ IH]; [done|]. simpl.
  destruct (Z.eqb_spec c 0); [lia|]. by rewrite IH.
Qed.

Lemma is_cstr_cstr str : is_cstr str -> cstr str = str.
Proof. intros H. unfold cstr. rewrite is_cstr_strlen by done. apply take_ge. lia. Qed.

Lemma fnv_step_range h c : is_u64 (fnv_step h c).
Proof. apply u64_range. Qed.

Lemma foldl_fnv_range l h : is_u64 h -> is_u64 (foldl fnv_step h l).
Proof. revert h. induction l; intros h Hh; [done|]. apply IHl, fnv_step_range. Qed.

Lemma agim_hash_string_range str n : is_u64 (agim_hash_string str n).
Proof. apply foldl_fnv_range. done. Qed.

Lemma hash_cstring_loop_foldl h str :
  hash_cstring_loop h str = foldl fnv_step h (take (strlen str) str).
Proof.
  revert h. induction str as [|c str IH]; intros h; [done|]. simpl.
  destruct (Z.eqb_spec c 0); [done|]. apply IH.
Qed.

(** The two entry points agree: maps look a key up with the NUL-terminated
    one and store it with the counted one. *)
Lemma agim_hash_cstring_string str :
  agim_hash_cstring str = agim_hash_string str (strlen str).
Proof. apply hash_cstring_loop_foldl. Qed.

Lemma agim_hash_combine_range h1 h2 : is_u64 h1 -> is_u64 (agim_hash_combine h1 h2).
Proof.
  intros H1. unfold agim_hash_combine.
  set (x := u64 (_ + _)). assert (is_u64 x) as H2 by apply u64_range.
  unfold is_u64 in *. split; [apply Z.lxor_nonneg; lia|].
  destruct (Z.eq_dec (Z.lxor h1 x) 0) as [->|]; [lia|].
  assert (0 <= Z.lxor h1 x) by (apply Z.lxor_nonneg; lia).
  apply Z.log2_lt_pow2; [lia|].
  assert (Hlog : forall y, 0 <= y < 2 ^ 64 -> Z.log2 y < 64).
  { intros y Hy. destruct (Z.eq_dec y 0) as [->|]; [done|]. apply Z.log2_lt_pow2; lia. }
  pose proof (Z.log2_lxor h1 x). pose proof (Hlog h1). pose proof (Hlog x). lia.
Qed.
