(* ===== verification/Nanbox.v ===== *)
(** * NaN boxing (src/vm/nanbox.h)

    A [NanValue] is a 64-bit word.  Every inline function of the header is
    translated on [Z]; the arithmetic lemmas [tag_eq] and [prefix_eq] turn the
    mask tests into facts about the top 16 and the top 14 bits. *)

From Stdlib Require Import ZArith Lia.
From stdpp Require Import base numbers.
From S2P Require Import Prelude Float64.
Local Open Scope Z_scope.
Local Open Scope agim_scope.

Definition NanValue : Type := Z.

Definition NANBOX_QNAN : Z := 0x7FFC000000000000.
Definition NANBOX_PAYLOAD : Z := 0x0000FFFFFFFFFFFF.
Definition NANBOX_TAG_INT : Z := 0x7FFC000000000000.
Definition NANBOX_TAG_OBJ : Z := 0x7FFD000000000000.
Definition NANBOX_TAG_SPECIAL : Z := 0x7FFE000000000000.
Definition NANBOX_TAG_PID : Z := 0x7FFF000000000000.
Definition NANBOX_TAG_MASK : Z := 0xFFFF000000000000.
Definition NANBOX_NIL : Z := NANBOX_TAG_SPECIAL .| 1.
Definition NANBOX_TRUE : Z := NANBOX_TAG_SPECIAL .| 2.
Definition NANBOX_FALSE : Z := NANBOX_TAG_SPECIAL .| 3.

Definition nanbox_is_double (v : NanValue) : bool :=
  negb ((v .& 0xFFFC000000000000) =? 0x7FFC000000000000).
Definition nanbox_is_int (v : NanValue) : bool := (v .& NANBOX_TAG_MASK) =? NANBOX_TAG_INT.
Definition nanbox_is_obj (v : NanValue) : bool := (v .& NANBOX_TAG_MASK) =? NANBOX_TAG_OBJ.
Definition nanbox_is_special (v : NanValue) : bool := (v .& NANBOX_TAG_MASK) =? NANBOX_TAG_SPECIAL.
Definition nanbox_is_pid (v : NanValue) : bool := (v .& NANBOX_TAG_MASK) =? NANBOX_TAG_PID.
Definition nanbox_is_nil (v : NanValue) : bool := v =? NANBOX_NIL.
Definition nanbox_is_true (v : NanValue) : bool := v =? NANBOX_TRUE.
Definition nanbox_is_false (v : NanValue) : bool := v =? NANBOX_FALSE.
Definition nanbox_is_bool (v : NanValue) : bool := (v =? NANBOX_TRUE) || (v =? NANBOX_FALSE).
Definition nanbox_is_number (v : NanValue) : bool := nanbox_is_double v || nanbox_is_int v.

Definition nanbox_double (d : f64) : NanValue := d.
Definition nanbox_int (i : Z) : NanValue := NANBOX_TAG_INT .| (u64 i .& NANBOX_PAYLOAD).
Definition nanbox_obj (ptr : Z) : NanValue := NANBOX_TAG_OBJ .| (ptr .& NANBOX_PAYLOAD).
Definition nanbox_pid (pid : Z) : NanValue := NANBOX_TAG_PID .| (pid .& NANBOX_PAYLOAD).
Definition nanbox_bool (b : bool) : NanValue := if b then NANBOX_TRUE else NANBOX_FALSE.

Definition nanbox_as_double (v : NanValue) : f64 := v.
Definition nanbox_as_int (v : NanValue) : Z :=
  let payload := v .& NANBOX_PAYLOAD in
  s64 (if negb ((payload .& 0x800000000000) =? 0)
       then payload .| 0xFFFF000000000000 else payload).
Definition nanbox_as_obj (v : NanValue) : Z := v .& NANBOX_PAYLOAD.
Definition nanbox_as_pid (v : NanValue) : Z := v .& NANBOX_PAYLOAD.
Definition nanbox_as_bool (v : NanValue) : bool := v =? NANBOX_TRUE.

Definition nanbox_to_float (v : NanValue) : f64 :=
  if nanbox_is_double v then nanbox_as_double v
  else if nanbox_is_int v then f64_of_int (nanbox_as_int v)
  else f64_zero.
(** [None]: the conversion of a double outside [int64_t] is undefined. *)
Definition nanbox_to_int (v : NanValue) : option Z :=
  if nanbox_is_int v then Some (nanbox_as_int v)
  else if nanbox_is_double v then f64_to_int (nanbox_as_double v)
  else Some 0.

Definition nanbox_is_truthy (v : NanValue) : bool :=
  if (v =? NANBOX_NIL) || (v =? NANBOX_FALSE) then false
  else if nanbox_is_int v then negb (nanbox_as_int v =? 0)
  else if nanbox_is_double v then negb (f64_eqb (nanbox_as_double v) f64_zero)
  else true.

Definition nanbox_equal (a b : NanValue) : bool :=
  if nanbox_is_double a && nanbox_is_double b
  then f64_eqb (nanbox_as_double a) (nanbox_as_double b)
  else if a =? b then true
  else if nanbox_is_number a && nanbox_is_number b
  then f64_eqb (nanbox_to_float a) (nanbox_to_float b)
  else false.

(** ** Masks as arithmetic *)

Lemma land_high_mask v k n :
  0 <= k -> 0 <= n -> 0 <= v < 2 ^ (k + n) ->
  Z.land v (Z.shiftl (Z.ones n) k) = v / 2 ^ k * 2 ^ k.
Proof.
  intros Hk Hn Hv. rewrite <- Z.shiftr_div_pow2, <- Z.shiftl_mul_pow2 by done.
  apply Z.bits_inj'. intros i Hi.
  rewrite Z.land_spec, !Z.shiftl_spec by done.
  destruct (Z.lt_ge_cases i k).
  - rewrite !(Z.testbit_neg_r _ (i - k)) by lia. apply andb_false_r.
  - rewrite Z.shiftr_spec by lia. replace (i - k + k) with i by lia.
    destruct (Z.lt_ge_cases i (k + n)).
    + rewrite Z.ones_spec_low by lia. apply andb_true_r.
    + rewrite (testbit_small v (k + n) i) by lia. done.
Qed.

Lemma land_payload v : Z.land v NANBOX_PAYLOAD = v mod 2 ^ 48.
Proof. change NANBOX_PAYLOAD with (Z.ones 48). apply Z.land_ones. lia. Qed.

Lemma tag_land v : is_u64 v -> Z.land v NANBOX_TAG_MASK = v / 2 ^ 48 * 2 ^ 48.
Proof.
  intros Hv. change NANBOX_TAG_MASK with (Z.shiftl (Z.ones 16) 48).
  apply land_high_mask; try lia. done.
Qed.

Lemma tag_eq v t : is_u64 v -> (Z.land v NANBOX_TAG_MASK =? t * 2 ^ 48) = (v / 2 ^ 48 =? t).
Proof.
  intros Hv. rewrite tag_land by done.
  destruct (Z.eqb_spec (v / 2 ^ 48) t), (Z.eqb_spec (v / 2 ^ 48 * 2 ^ 48) (t * 2 ^ 48)); try lia; done.
Qed.

Lemma prefix_eq v :
  is_u64 v -> nanbox_is_double v = negb ((0x7FFC <=? v / 2 ^ 48) && (v / 2 ^ 48 <? 0x8000)).
Proof.
  intros Hv. unfold nanbox_is_double.
  change 0xFFFC000000000000 with (Z.shiftl (Z.ones 14) 50).
  rewrite land_high_mask by (try lia; done).
  assert (H : v / 2 ^ 50 = v / 2 ^ 48 / 4).
  { rewrite Z.div_div by lia. done. }
  rewrite H. f_equal.
  pose proof (Z.div_mod (v / 2 ^ 48) 4). pose proof (Z.mod_pos_bound (v / 2 ^ 48) 4).
  generalize dependent (v / 2 ^ 48). intros q. intros.
  destruct (Z.eqb_spec (q / 4 * 2 ^ 50) 9222246136947933184),
    (Z.leb_spec 0x7FFC q), (Z.ltb_spec q 0x8000); simpl; try done; lia.
Qed.

Lemma is_int_tag v : is_u64 v -> nanbox_is_int v = (v / 2 ^ 48 =? 0x7FFC).
Proof. apply (tag_eq v 0x7FFC). Qed.
Lemma is_obj_tag v : is_u64 v -> nanbox_is_obj v = (v / 2 ^ 48 =? 0x7FFD).
Proof. apply (tag_eq v 0x7FFD). Qed.
Lemma is_special_tag v : is_u64 v -> nanbox_is_special v = (v / 2 ^ 48 =? 0x7FFE).
Proof. apply (tag_eq v 0x7FFE). Qed.
Lemma is_pid_tag v : is_u64 v -> nanbox_is_pid v = (v / 2 ^ 48 =? 0x7FFF).
Proof. apply (tag_eq v 0x7FFF). Qed.

(** A tagged word: 16-bit tag above a 48-bit payload. *)
Lemma lor_tag t p : 0 <= p < 2 ^ 48 -> Z.lor (t * 2 ^ 48) p = t * 2 ^ 48 + p.
Proof. intros. rewrite <- lor_shift_add by lia. by rewrite Z.shiftl_mul_pow2 by lia. Qed.

Lemma div_tagged t p : 0 <= p < 2 ^ 48 -> (t * 2 ^ 48 + p) / 2 ^ 48 = t.
Proof. intros. rewrite Z.div_add_l by lia. rewrite Z.div_small by lia. lia. Qed.

Lemma mod_tagged t p : 0 <= p < 2 ^ 48 -> (t * 2 ^ 48 + p) mod 2 ^ 48 = p.
Proof. intros. rewrite Z.add_comm, Z.mod_add by lia. by apply Z.mod_small. Qed.

Lemma nanbox_int_word i : nanbox_int i = 0x7FFC * 2 ^ 48 + i mod 2 ^ 48.
Proof.
  unfold nanbox_int. rewrite land_payload. unfold u64, wrap.
  assert (Hm : (i mod 2 ^ 64) mod 2 ^ 48 = i mod 2 ^ 48).
  { apply Z.mod_mod_divide. exists (2 ^ 16). lia. }
  rewrite Hm. apply (lor_tag 0x7FFC). apply Z.mod_pos_bound. lia.
Qed.

Lemma nanbox_obj_word p : nanbox_obj p = 0x7FFD * 2 ^ 48 + p mod 2 ^ 48.
Proof.
  unfold nanbox_obj. rewrite land_payload. apply (lor_tag 0x7FFD). apply Z.mod_pos_bound. lia.
Qed.

Lemma nanbox_pid_word p : nanbox_pid p = 0x7FFF * 2 ^ 48 + p mod 2 ^ 48.
Proof.
  unfold nanbox_pid. rewrite land_payload. apply (lor_tag 0x7FFF). apply Z.mod_pos_bound. lia.
Qed.

(** The 48-bit two's-complement value the decoder computes. *)
Definition sext48 (p : Z) : Z := if p <? 2 ^ 47 then p else p - 2 ^ 48.

Lemma nanbox_as_int_word v : nanbox_as_int v = sext48 (v mod 2 ^ 48).
Proof.
  unfold nanbox_as_int. rewrite land_payload.
  pose proof (Z.mod_pos_bound v (2 ^ 48) ltac:(lia)) as Hp.
  generalize dependent (v mod 2 ^ 48). intros p Hp. unfold sext48.
  assert (Hbit : Z.land p 0x800000000000 = if p <? 2 ^ 47 then 0 else 2 ^ 47).
  { change 0x800000000000 with (Z.shiftl (Z.ones 1) 47).
    rewrite land_high_mask by (try lia; done).
    destruct (Z.ltb_spec p (2 ^ 47)).
    - rewrite Z.div_small by lia. done.
    - replace (p / 2 ^ 47) with 1; [done|]. apply (Z.div_unique _ _ _ (p - 2 ^ 47)); lia. }
  rewrite Hbit. destruct (Z.ltb_spec p (2 ^ 47)); simpl.
  - unfold s64. rewrite u64_small by (unfold is_u64; lia).
    destruct (Z.ltb_spec p (2 ^ 63)); lia.
  - rewrite Z.lor_comm. change 0xFFFF000000000000 with (0xFFFF * 2 ^ 48).
    rewrite lor_tag by done. unfold s64. rewrite u64_small by (unfold is_u64; lia).
    destruct (Z.ltb_spec (65535 * 2 ^ 48 + p) (2 ^ 63)); lia.
Qed.

(** A double's pattern reads back as an int, object, special or PID only when
    it is a NaN of the reserved space. *)
Definition boxed_nan (d : f64) : Prop := 0x7FFC * 2 ^ 48 <= d < 0x8000 * 2 ^ 48.

Lemma is_double_boxed d : is_u64 d -> nanbox_is_double d = true <-> ~ boxed_nan d.
Proof.
  intros Hd. rewrite prefix_eq by done. unfold boxed_nan, is_u64 in *.
  pose proof (Z.div_mod d (2 ^ 48)). pose proof (Z.mod_pos_bound d (2 ^ 48)).
  destruct (Z.leb_spec 0x7FFC (d / 2 ^ 48)), (Z.ltb_spec (d / 2 ^ 48) 0x8000); simpl;
    split; intros; try done; lia.
Qed.

Lemma boxed_nan_is_nan d : is_u64 d -> boxed_nan d -> f64_is_nan d = true.
Proof.
  intros Hd Hb. apply f64_is_nan_spec; [done|]. unfold boxed_nan in Hb.
  rewrite Z.mod_small by lia. lia.
Qed.

Create Rewrite HintDb nanbox.
#[export] Hint Rewrite nanbox_int_word nanbox_obj_word nanbox_pid_word : nanbox.

(** ** Properties *)

(** The answers of the header's five type tests. *)
Definition nanbox_kinds (v : NanValue) : list bool :=
  [nanbox_is_double v; nanbox_is_int v; nanbox_is_obj v; nanbox_is_special v; nanbox_is_pid v].

(** Every 64-bit word has exactly one of the five kinds (double, integer,
    object, special, PID); nil, true and false are of the special kind, and a
    number is a double or an integer. *)
Theorem nanbox_type_partition (v : NanValue) (Hv : is_u64 v) :
  length (filter (fun b => b = true) (nanbox_kinds v)) = 1%nat /\
  (nanbox_is_nil v || nanbox_is_bool v = true -> nanbox_is_special v = true) /\
  (nanbox_is_number v = true <-> nanbox_is_obj v || nanbox_is_special v || nanbox_is_pid v = false).
Proof.
  split; [|split].
  - unfold nanbox_kinds.
    rewrite prefix_eq, is_int_tag, is_obj_tag, is_special_tag, is_pid_tag by done.
    generalize (v / 2 ^ 48). intros q.
    destruct (Z.leb_spec 0x7FFC q), (Z.ltb_spec q 0x8000), (Z.eqb_spec q 0x7FFC),
      (Z.eqb_spec q 0x7FFD), (Z.eqb_spec q 0x7FFE), (Z.eqb_spec q 0x7FFF); simpl; try lia; done.
  - unfold nanbox_is_nil, nanbox_is_bool. intros H. bool_prop.
    destruct H as [->%Z.eqb_eq|[->%Z.eqb_eq| ->%Z.eqb_eq]%orb_true_iff]; done.
  - unfold nanbox_is_number.
    rewrite prefix_eq, is_int_tag, is_obj_tag, is_special_tag, is_pid_tag by done.
    generalize (v / 2 ^ 48). intros q.
    destruct (Z.leb_spec 0x7FFC q), (Z.ltb_spec q 0x8000), (Z.eqb_spec q 0x7FFC),
      (Z.eqb_spec q 0x7FFD), (Z.eqb_spec q 0x7FFE), (Z.eqb_spec q 0x7FFF); simpl;
      split; intros; try done; lia.
Qed.

Lemma nanbox_type_partition_witness :
  nanbox_kinds 0x7FFC00000000002A = [false; true; false; false; false] /\
  length (filter (fun b => b = true) (nanbox_kinds 0x7FFC00000000002A)) = 1%nat.
Proof.
  split; [vm_compute; reflexivity|].
  apply (nanbox_type_partition 0x7FFC00000000002A). unfold is_u64. lia.
Defined.

(** Boxing an [int64_t] always yields a word of integer kind, and reading
    it back gives the integer reduced to 48-bit two's complement: the round
    trip is the identity exactly on the integers between -2^47 and 2^47 - 1. *)
Theorem nanbox_int_roundtrip (i : Z) (Hi : is_s64 i) :
  is_u64 (nanbox_int i) /\
  nanbox_is_int (nanbox_int i) = true /\
  nanbox_as_int (nanbox_int i) = sext48 (i mod 2 ^ 48) /\
  (nanbox_as_int (nanbox_int i) = i <-> - 2 ^ 47 <= i < 2 ^ 47).
Proof.
  pose proof (Z.mod_pos_bound i (2 ^ 48) ltac:(lia)) as Hp.
  assert (Hr : is_u64 (nanbox_int i)).
  { rewrite nanbox_int_word. unfold is_u64. lia. }
  assert (Has : nanbox_as_int (nanbox_int i) = sext48 (i mod 2 ^ 48)).
  { rewrite nanbox_as_int_word, nanbox_int_word, mod_tagged by done. done. }
  split; [done|]. split.
  { rewrite is_int_tag, nanbox_int_word, div_tagged by done. done. }
  split; [done|]. rewrite Has. unfold sext48.
  pose proof (Z.div_mod i (2 ^ 48) ltac:(lia)) as Hdm.
  destruct (Z.ltb_spec (i mod 2 ^ 48) (2 ^ 47)); split; intros; try lia.
Qed.

Lemma nanbox_int_roundtrip_witness :
  nanbox_as_int (nanbox_int (-42)) = -42 /\
  nanbox_as_int (nanbox_int (2 ^ 47)) = - 2 ^ 47.
Proof.
  split.
  - apply (nanbox_int_roundtrip (-42)); unfold is_s64; lia.
  - destruct (nanbox_int_roundtrip (2 ^ 47)) as (_ & _ & H & _); [unfold is_s64; lia|].
    exact H.
Defined.

(** Boxing a double is the identity on its pattern and the word is
    recognised as a double unless the pattern is a NaN whose bits lie in the
    reserved space; in particular every double that is not a NaN, and both
    default quiet NaNs of the hardware, survive boxing. *)
Theorem nanbox_double_safe (d : f64) (Hd : is_u64 d) :
  (nanbox_is_double (nanbox_double d) = true <-> ~ boxed_nan d) /\
  (f64_is_nan d = false -> nanbox_is_double (nanbox_double d) = true) /\
  (d = 0x7FF8000000000000 \/ d = 0xFFF8000000000000 -> nanbox_is_double (nanbox_double d) = true) /\
  nanbox_as_double (nanbox_double d) = d.
Proof.
  unfold nanbox_double, nanbox_as_double. split; [by apply is_double_boxed|].
  split; [|split; [|done]].
  - intros Hn. apply is_double_boxed; [done|]. intros Hb.
    apply boxed_nan_is_nan in Hb; [congruence|done].
  - intros [-> | ->]; reflexivity.
Qed.

Lemma nanbox_double_safe_witness :
  nanbox_is_double (nanbox_double 0x400921FB54442D18) = true /\
  nanbox_is_double (nanbox_double 0x7FFC000000000001) = false.
Proof.
  split; [|reflexivity].
  destruct (nanbox_double_safe 0x400921FB54442D18) as (_ & H & _); [unfold is_u64; lia|].
  apply H. reflexivity.
Defined.

(** Object pointers below 2^48 and process ids below 2^48 survive boxing,
    with their own kind; anything above the payload is cut off. *)
Theorem nanbox_obj_pid_roundtrip (p : Z) (Hp : is_u64 p) :
  nanbox_is_obj (nanbox_obj p) = true /\ nanbox_is_pid (nanbox_pid p) = true /\
  nanbox_as_obj (nanbox_obj p) = p mod 2 ^ 48 /\ nanbox_as_pid (nanbox_pid p) = p mod 2 ^ 48 /\
  (nanbox_as_obj (nanbox_obj p) = p <-> p < 2 ^ 48) /\
  (nanbox_as_pid (nanbox_pid p) = p <-> p < 2 ^ 48).
Proof.
  pose proof (Z.mod_pos_bound p (2 ^ 48) ltac:(lia)) as Hm.
  unfold nanbox_as_obj, nanbox_as_pid. rewrite !land_payload. unfold is_u64 in Hp.
  rewrite is_obj_tag, is_pid_tag by (autorewrite with nanbox; unfold is_u64; lia).
  autorewrite with nanbox. rewrite !div_tagged, !mod_tagged by done.
  pose proof (Z.mod_small p (2 ^ 48)).
  split_and!; try done; split; intros; lia.
Qed.

Lemma nanbox_obj_pid_roundtrip_witness :
  nanbox_as_obj (nanbox_obj 0x7F0012345678) = 0x7F0012345678.
Proof. apply (nanbox_obj_pid_roundtrip 0x7F0012345678); unfold is_u64; lia. Defined.

(** Equality of boxed values is symmetric, and it is reflexive on every
    word except the NaN patterns of double kind. *)
Theorem nanbox_equal_sym_refl (a b : NanValue) :
  nanbox_equal a b = nanbox_equal b a /\
  nanbox_equal a a = negb (nanbox_is_double a && f64_is_nan a).
Proof.
  unfold nanbox_equal. split.
  - rewrite (andb_comm (nanbox_is_double b)), (andb_comm (nanbox_is_number b)).
    unfold nanbox_as_double. rewrite (f64_eqb_sym b a), (Z.eqb_sym b a).
    by rewrite (f64_eqb_sym (nanbox_to_float b)).
  - rewrite andb_diag, Z.eqb_refl. unfold nanbox_as_double. rewrite f64_eqb_refl.
    by destruct (nanbox_is_double a), (f64_is_nan a).
Qed.
