(* ===== verification/HashMap.v ===== *)
(** * The string-keyed hash map (src/types/map.c, src/types/map.h)

    The [Map] structure with its bucket array and its chains, polymorphic in
    the values.  Keys are C strings: the list of their bytes without the
    terminating NUL.  Allocation results are arguments of the operations that
    allocate.  The buffers the map allocates are 8 bytes per bucket, so
    [capacity * 2], [capacity * 7] and [size * 10] stay below [SIZE_MAX]. *)

From Stdlib Require Import ZArith Lia.
From stdpp Require Import base list numbers gmap.
From S2P Require Import Prelude Hash.
Local Open Scope Z_scope.

(** [MapEntry]: the key [String] keeps its characters and their hash. *)
Record MapEntry (A : Type) := mkEntry { e_key : list Z; e_hash : Z; e_value : A }.
Arguments mkEntry {A}. Arguments e_key {A}. Arguments e_hash {A}. Arguments e_value {A}.

Record Map (A : Type) := mkMap { size : nat; capacity : nat; buckets : list (list (MapEntry A)) }.
Arguments mkMap {A}. Arguments size {A}. Arguments capacity {A}. Arguments buckets {A}.

Definition MAP_MAX_CHAIN_DEPTH : nat := 16.

(** Outcomes of the allocations of one [map_set]: the load-factor resize, the
    chain-depth resize, and the entry with its key string. *)
Record set_allocs := mkAllocs { load_resize_ok : bool; depth_resize_ok : bool; entry_ok : bool }.
Definition allocs_ok : set_allocs := mkAllocs true true true.

Section map.
Context {A : Type}.
Implicit Types m : Map A.
Implicit Types e : MapEntry A.

Definition map_with_capacity (cap : nat) : Map A :=
  let c := if (0 <? cap)%nat then cap else 16%nat in mkMap 0 c (replicate c []).
Definition map_new : Map A := map_with_capacity 16.

Definition map_size m : nat := size m.
Definition map_capacity m : nat := capacity m.

(** [hash % capacity]. *)
Definition bucket_index (h : Z) (cap : nat) : nat := Z.to_nat (h mod Z.of_nat cap).

Definition chain m (i : nat) : list (MapEntry A) := default [] (buckets m !! i).

(** [entry->key->hash == key_hash && strcmp(entry->key->data, key) == 0] *)
Definition entry_matches (key : list Z) (key_hash : Z) e : bool :=
  (e_hash e =? key_hash) && bool_decide (cstr (e_key e) = cstr key).

(** The position of the entry: its bucket and its depth in the chain. *)
Definition find_entry_internal m (key : list Z) (key_hash : Z) : option (nat * nat) :=
  let index := bucket_index key_hash (capacity m) in
  pair index <$> find_index (entry_matches key key_hash) (take MAP_MAX_CHAIN_DEPTH (chain m index)).

Definition entry_at m (pos : nat * nat) : option (MapEntry A) := chain m pos.1 !! pos.2.

Definition chain_depth_at m (index : nat) : nat := length (chain m index).

Definition resize_link (new_capacity : nat) (bs : list (list (MapEntry A))) e :=
  alter (cons e) (bucket_index (e_hash e) new_capacity) bs.

Definition map_resize (ok : bool) m (new_capacity : nat) : Map A :=
  if ok then
    mkMap (size m) new_capacity
      (foldl (resize_link new_capacity) (replicate new_capacity []) (concat (buckets m)))
  else m.

Definition map_find_entry m (key : list Z) : option (MapEntry A) :=
  find_entry_internal m key (agim_hash_cstring key) ≫= entry_at m.

Definition map_get m (key : list Z) : option A := e_value <$> map_find_entry m key.
Definition map_has m (key : list Z) : bool := bool_decide (is_Some (map_find_entry m key)).

Definition set_value (value : A) e : MapEntry A := mkEntry (e_key e) (e_hash e) value.

Definition map_set (ok : set_allocs) m (key : list Z) (value : A) : Map A :=
  let key_len := strlen key in
  let key_hash := agim_hash_string key key_len in
  match find_entry_internal m key key_hash with
  | Some (i, d) => mkMap (size m) (capacity m) (alter (alter (set_value value) d) i (buckets m))
  | None =>
      let m1 := if (capacity m * 7 <? size m * 10)%nat
                then map_resize (load_resize_ok ok) m (capacity m * 2) else m in
      let index := bucket_index key_hash (capacity m1) in
      let m2 := if (MAP_MAX_CHAIN_DEPTH <=? chain_depth_at m1 index)%nat
                then map_resize (depth_resize_ok ok) m1 (capacity m1 * 2) else m1 in
      let index := bucket_index key_hash (capacity m2) in
      if entry_ok ok then
        mkMap (S (size m2)) (capacity m2)
          (alter (cons (mkEntry (take key_len key) key_hash value)) index (buckets m2))
      else m2
  end.

Definition map_delete m (key : list Z) : Map A :=
  let key_hash := agim_hash_string key (strlen key) in
  let index := bucket_index key_hash (capacity m) in
  match find_index (entry_matches key key_hash) (chain m index) with
  | Some d => mkMap (size m - 1) (capacity m) (alter (delete d) index (buckets m))
  | None => m
  end.

Definition map_clear m : Map A := mkMap 0 (capacity m) ((fun _ => []) <$> buckets m).

Definition map_keys m : list (list Z) := (fun e => cstr (e_key e)) <$> concat (buckets m).
Definition map_values m : list A := e_value <$> concat (buckets m).
Definition map_entries m : list (list Z * A) :=
  (fun e => (cstr (e_key e), e_value e)) <$> concat (buckets m).

(** ** Representation invariant and abstraction *)

Definition entry_wf e : Prop :=
  is_cstr (e_key e) /\ e_hash e = agim_hash_string (e_key e) (length (e_key e)).

Definition buckets_wf (cap : nat) (bs : list (list (MapEntry A))) : Prop :=
  length bs = cap /\
  forall i c e, bs !! i = Some c -> e ∈ c -> entry_wf e /\ bucket_index (e_hash e) cap = i.

Record map_wf m : Prop := {
  wf_capacity : (0 < capacity m)%nat;
  wf_buckets : buckets_wf (capacity m) (buckets m);
  wf_size : size m = length (concat (buckets m));
  wf_nodup : NoDup (e_key <$> concat (buckets m));
}.

(** The finite map a bucket array stands for. *)
Definition entry_pair e : list Z * A := (e_key e, e_value e).
Definition contents (es : list (MapEntry A)) : gmap (list Z) A := list_to_map (entry_pair <$> es).
Definition to_gmap m : gmap (list Z) A := contents (concat (buckets m)).

Definition key_hash (k : list Z) : Z := agim_hash_string k (length k).

(** The chain a key lives in is within the lookup's depth limit. *)
Definition reachable m (k : list Z) : Prop :=
  (chain_depth_at m (bucket_index (key_hash k) (capacity m)) <= MAP_MAX_CHAIN_DEPTH)%nat.

(** ** Lemmas *)

Lemma bucket_index_lt h cap : (0 < cap)%nat -> (bucket_index h cap < cap)%nat.
Proof.
  intros H. unfold bucket_index. pose proof (Z.mod_pos_bound h (Z.of_nat cap)). lia.
Qed.

Lemma key_hash_string k : is_cstr k -> agim_hash_string k (strlen k) = key_hash k.
Proof. intros H. by rewrite is_cstr_strlen. Qed.

Lemma key_hash_cstring k : is_cstr k -> agim_hash_cstring k = key_hash k.
Proof. intros H. rewrite agim_hash_cstring_string. by apply key_hash_string. Qed.

Lemma entry_matches_spec k e :
  entry_wf e -> is_cstr k -> entry_matches k (key_hash k) e = true <-> e_key e = k.
Proof.
  intros [He Hh] Hk. unfold entry_matches. rewrite Hh.
  rewrite !is_cstr_cstr by done.
  destruct (bool_decide_reflect (e_key e = k)) as [->|Hne].
  - unfold key_hash. by rewrite Z.eqb_refl.
  - rewrite andb_false_r. naive_solver.
Qed.

Lemma contents_perm es es' :
  NoDup (e_key <$> es) -> es ≡ₚ es' -> contents es = contents es'.
Proof.
  intros Hnd Hp. unfold contents. apply list_to_map_proper.
  - rewrite <- list_fmap_compose. done.
  - by rewrite Hp.
Qed.

Lemma contents_lookup es k v :
  NoDup (e_key <$> es) ->
  contents es !! k = Some v <-> exists e, e ∈ es /\ e_key e = k /\ e_value e = v.
Proof.
  intros Hnd. unfold contents. rewrite <- elem_of_list_to_map.
  - rewrite list_elem_of_fmap. unfold entry_pair. split.
    + intros (e & [=] & ?). subst. eauto.
    + intros (e & ? & <- & <-). eauto.
  - rewrite <- list_fmap_compose. done.
Qed.

Lemma contents_lookup_None es k :
  contents es !! k = None <-> Forall (fun e => e_key e <> k) es.
Proof.
  unfold contents. rewrite <- not_elem_of_list_to_map, <- list_fmap_compose.
  rewrite list_elem_of_fmap, Forall_forall. unfold entry_pair. simpl. naive_solver.
Qed.

Lemma chain_lookup m i : map_wf m -> (i < capacity m)%nat -> buckets m !! i = Some (chain m i).
Proof.
  intros [_ [Hl _] _ _] Hi. unfold chain. rewrite <- Hl in Hi.
  apply lookup_lt_is_Some in Hi as [c Hc]. by rewrite Hc.
Qed.

Lemma chain_entries m i e : map_wf m -> e ∈ chain m i -> e ∈ concat (buckets m) /\ entry_wf e.
Proof.
  intros Hwf He. unfold chain in He. destruct (buckets m !! i) as [c|] eqn:E; simpl in He.
  - destruct (wf_buckets _ Hwf) as [_ Hb]. split; [|by eapply Hb].
    apply elem_of_concat. eauto.
  - set_solver.
Qed.

(** An entry with key [k] is in the bucket the hash of [k] selects. *)
Lemma entry_in_chain m e :
  map_wf m -> e ∈ concat (buckets m) -> e ∈ chain m (bucket_index (key_hash (e_key e)) (capacity m)).
Proof.
  intros Hwf (i & c & Hi & He)%elem_of_concat.
  destruct (wf_buckets _ Hwf) as [_ Hb]. destruct (Hb _ _ _ Hi He) as [[_ Hh] <-].
  unfold chain, key_hash. rewrite <- Hh. by rewrite Hi.
Qed.

(** Searching a whole chain decides membership. *)
Lemma chain_search m k :
  map_wf m -> is_cstr k ->
  let i := bucket_index (key_hash k) (capacity m) in
  match find_index (entry_matches k (key_hash k)) (chain m i) with
  | Some d => exists e, chain m i !! d = Some e /\ e_key e = k /\
                        to_gmap m !! k = Some (e_value e)
  | None => to_gmap m !! k = None
  end.
Proof.
  intros Hwf Hk i. destruct (find_index _ _) as [d|] eqn:E.
  - apply find_index_Some in E as (e & Hd & Hm). exists e. split; [done|].
    assert (He : e ∈ chain m i) by (by eapply list_elem_of_lookup_2).
    apply chain_entries in He as [Hin Hewf]; [|done].
    apply entry_matches_spec in Hm; [|done..]. split; [done|].
    apply contents_lookup; [apply Hwf|]. eauto.
  - apply find_index_None in E. rewrite Forall_forall in E.
    apply contents_lookup_None. rewrite Forall_forall. intros e He Hek.
    assert (Hc : e ∈ chain m i). { subst i. rewrite <- Hek. by apply entry_in_chain. }
    pose proof (E e Hc) as Hf. apply chain_entries in Hc as [_ Hewf]; [|done].
    apply (entry_matches_spec k) in Hek; [congruence|done..].
Qed.

Lemma find_index_take p (l : list (MapEntry A)) n d :
  find_index p (take n l) = Some d -> find_index p l = Some d.
Proof.
  revert n d. induction l as [|x l IH]; intros [|n] d H; simplify_eq/=.
  destruct (p x); [done|]. destruct (find_index p (take n l)) eqn:E; simplify_eq/=.
  by rewrite (IH _ _ E).
Qed.

Lemma find_entry_spec m k :
  map_wf m -> is_cstr k ->
  match find_entry_internal m k (key_hash k) with
  | Some (i, d) => i = bucket_index (key_hash k) (capacity m) /\
      exists e, chain m i !! d = Some e /\ e_key e = k /\ to_gmap m !! k = Some (e_value e)
  | None => reachable m k -> to_gmap m !! k = None
  end.
Proof.
  intros Hwf Hk. unfold find_entry_internal.
  pose proof (chain_search m k Hwf Hk) as Hs. simpl in Hs.
  destruct (find_index _ (take _ _)) as [d|] eqn:E; simpl.
  - apply find_index_take in E. rewrite E in Hs. done.
  - intros Hr. unfold reachable, chain_depth_at in Hr.
    rewrite take_ge in E by done. by rewrite E in Hs.
Qed.

(** *** Pushing an entry on the front of a chain *)

Lemma buckets_wf_replicate n : buckets_wf n (replicate n []).
Proof.
  split; [by rewrite length_replicate|]. intros i c e Hc He.
  apply lookup_replicate in Hc as [-> _]. set_solver.
Qed.

Lemma buckets_wf_cons n bs e :
  buckets_wf n bs -> entry_wf e ->
  buckets_wf n (alter (cons e) (bucket_index (e_hash e) n) bs).
Proof.
  intros [Hl Hb] He. split; [by rewrite length_alter|]. intros i c e' Hc Hin.
  destruct (decide (i = bucket_index (e_hash e) n)) as [->|Hne].
  - rewrite list_lookup_alter_eq in Hc. destruct (bs !! _) as [c0|] eqn:E; simplify_eq/=.
    apply elem_of_cons in Hin as [->|Hin]; [done|]. by eapply Hb.
  - rewrite list_lookup_alter_ne in Hc by done. by eapply Hb.
Qed.

Lemma buckets_wf_alter n bs i (f : list (MapEntry A) -> list (MapEntry A)) :
  buckets_wf n bs ->
  (forall c e, bs !! i = Some c -> e ∈ f c -> entry_wf e /\ bucket_index (e_hash e) n = i) ->
  buckets_wf n (alter f i bs).
Proof.
  intros [Hl Hb] Hf. split; [by rewrite length_alter|]. intros j c e Hc Hin.
  destruct (decide (j = i)) as [->|Hne].
  - rewrite list_lookup_alter_eq in Hc. destruct (bs !! _) as [c0|] eqn:E; simplify_eq/=.
    by eapply Hf.
  - rewrite list_lookup_alter_ne in Hc by done. by eapply Hb.
Qed.

Lemma concat_cons_perm n bs e :
  (0 < n)%nat -> length bs = n ->
  concat (alter (cons e) (bucket_index (e_hash e) n) bs) ≡ₚ e :: concat bs.
Proof.
  intros Hn Hl. pose proof (bucket_index_lt (e_hash e) n Hn) as Hi.
  rewrite <- Hl in Hi at 2. apply lookup_lt_is_Some in Hi as [c Hc].
  rewrite (concat_alter_perm _ _ _ _ Hc), (concat_focus _ _ _ Hc). done.
Qed.

Lemma foldl_resize n es bs :
  (0 < n)%nat -> buckets_wf n bs -> Forall entry_wf es ->
  let bs' := foldl (resize_link n) bs es in
  buckets_wf n bs' /\ concat bs' ≡ₚ es ++ concat bs.
Proof.
  intros Hn. revert bs. induction es as [|e es IH]; intros bs Hb Hes; simpl; [done|].
  inversion_clear Hes as [|? ? He Hes'].
  destruct (IH (resize_link n bs e)) as [Hb' Hp].
  - by apply buckets_wf_cons.
  - done.
  - split; [done|]. rewrite Hp. unfold resize_link.
    rewrite concat_cons_perm by (try done; apply Hb). solve_Permutation.
Qed.

Lemma concat_replicate_nil n : concat (replicate n ([] : list (MapEntry A))) = [].
Proof. induction n; done. Qed.

Lemma map_wf_entries m : map_wf m -> Forall entry_wf (concat (buckets m)).
Proof.
  intros Hwf. rewrite Forall_forall. intros e (i & c & Hi & He)%elem_of_concat.
  by eapply (wf_buckets _ Hwf).
Qed.

Lemma map_resize_spec ok m n :
  map_wf m -> (0 < n)%nat ->
  map_wf (map_resize ok m n) /\ to_gmap (map_resize ok m n) = to_gmap m /\
  concat (buckets (map_resize ok m n)) ≡ₚ concat (buckets m).
Proof.
  intros Hwf Hn. unfold map_resize. destruct ok; [|done].
  destruct (foldl_resize n (concat (buckets m)) (replicate n []) Hn) as [Hb Hp].
  { apply buckets_wf_replicate. }
  { by apply map_wf_entries. }
  rewrite concat_replicate_nil, app_nil_r in Hp.
  split; [|split; [|done]].
  - split; simpl; [done|done| |].
    + rewrite Hp. apply Hwf.
    + rewrite Hp. apply Hwf.
  - unfold to_gmap. simpl. symmetry. apply contents_perm; [apply Hwf|done].
Qed.

Lemma map_push_spec m e :
  map_wf m -> entry_wf e -> to_gmap m !! e_key e = None ->
  let m' := mkMap (S (size m)) (capacity m)
              (alter (cons e) (bucket_index (e_hash e) (capacity m)) (buckets m)) in
  map_wf m' /\ to_gmap m' = <[e_key e := e_value e]> (to_gmap m).
Proof.
  intros Hwf He Hnew m'.
  assert (Hp : concat (buckets m') ≡ₚ e :: concat (buckets m)).
  { apply concat_cons_perm; [apply Hwf|]. apply (wf_buckets _ Hwf). }
  assert (Hnd : NoDup (e_key <$> concat (buckets m'))).
  { rewrite Hp. simpl. apply NoDup_cons. split; [|apply Hwf].
    apply contents_lookup_None in Hnew. rewrite Forall_forall in Hnew.
    rewrite list_elem_of_fmap. naive_solver. }
  split.
  - split; [apply Hwf| | |done].
    + apply buckets_wf_cons; [apply Hwf|done].
    + rewrite Hp. simpl. by rewrite (wf_size _ Hwf).
  - unfold to_gmap. rewrite (contents_perm _ _ Hnd Hp). done.
Qed.

(** Replacing the value of the entry at a position. *)
Lemma map_update_spec m i d e v :
  map_wf m -> buckets m !! i = Some (chain m i) -> chain m i !! d = Some e ->
  let m' := mkMap (size m) (capacity m) (alter (alter (set_value v) d) i (buckets m)) in
  map_wf m' /\ to_gmap m' = <[e_key e := v]> (to_gmap m).
Proof.
  intros Hwf Hi Hd m'. set (c := chain m i) in *. set (e' := set_value v e).
  assert (Hc : alter (set_value v) d c = <[d := e']> c).
  { apply list_eq. intros j. destruct (decide (j = d)) as [->|].
    - rewrite list_lookup_alter_eq, Hd. simpl. symmetry. apply list_lookup_insert_eq.
      by eapply lookup_lt_Some.
    - by rewrite list_lookup_alter_ne, list_lookup_insert_ne by done. }
  set (rest := delete d c ++ concat (delete i (buckets m))).
  assert (Hp : concat (buckets m) ≡ₚ e :: rest).
  { rewrite (concat_focus _ _ _ Hi), (delete_Permutation c d e Hd). done. }
  assert (Hp' : concat (buckets m') ≡ₚ e' :: rest).
  { simpl. rewrite (concat_alter_perm _ _ _ _ Hi), Hc.
    rewrite (delete_Permutation (<[d:=e']> c) d e').
    - rewrite (list_delete_insert_eq c). done.
    - apply list_lookup_insert_eq. by eapply lookup_lt_Some. }
  assert (Hk : e_key <$> concat (buckets m') ≡ₚ e_key <$> concat (buckets m)).
  { rewrite Hp, Hp'. done. }
  assert (Hnd : NoDup (e_key <$> concat (buckets m'))).
  { rewrite Hk. apply Hwf. }
  split.
  - split; [apply Hwf| | |done].
    + apply buckets_wf_alter; [apply Hwf|]. intros c0 x Hc0 Hx. simplify_eq.
      destruct (wf_buckets _ Hwf) as [_ Hb]. rewrite Hc in Hx.
      apply list_elem_of_lookup in Hx as [j Hj].
      destruct (decide (j = d)) as [->|].
      * rewrite list_lookup_insert_eq in Hj by (by eapply lookup_lt_Some). simplify_eq.
        apply (Hb i c e Hi). by eapply list_elem_of_lookup_2.
      * rewrite list_lookup_insert_ne in Hj by done.
        apply (Hb i c x Hi). by eapply list_elem_of_lookup_2.
    + change (size m') with (size m). by rewrite (wf_size _ Hwf), Hp, Hp'.
  - unfold to_gmap. rewrite (contents_perm _ _ Hnd Hp').
    rewrite (contents_perm _ _ (wf_nodup _ Hwf) Hp). unfold contents. simpl.
    by rewrite insert_insert_eq.
Qed.

Lemma map_delete_at m i d e :
  map_wf m -> buckets m !! i = Some (chain m i) -> chain m i !! d = Some e ->
  let m' := mkMap (size m - 1) (capacity m) (alter (delete d) i (buckets m)) in
  map_wf m' /\ to_gmap m' = delete (e_key e) (to_gmap m).
Proof.
  intros Hwf Hi Hd m'. set (c := chain m i) in *.
  set (rest := delete d c ++ concat (delete i (buckets m))).
  assert (Hp : concat (buckets m) ≡ₚ e :: rest).
  { rewrite (concat_focus _ _ _ Hi), (delete_Permutation c d e Hd). done. }
  assert (Hp' : concat (buckets m') ≡ₚ rest).
  { simpl. by rewrite (concat_alter_perm _ _ _ _ Hi). }
  pose proof (wf_nodup _ Hwf) as Hnd. pose proof Hnd as Hnd'. rewrite Hp in Hnd'.
  simpl in Hnd'. apply NoDup_cons in Hnd' as [Hne Hnd'].
  split.
  - split; [apply Hwf| | |by rewrite Hp'].
    + apply buckets_wf_alter; [apply Hwf|]. intros c0 x Hc0 Hx. simplify_eq.
      apply (wf_buckets _ Hwf) with c; [done|].
      rewrite (delete_Permutation c d e Hd). by right.
    + change (size m') with (size m - 1)%nat. rewrite Hp', (wf_size _ Hwf), Hp. simpl. lia.
  - unfold to_gmap. rewrite (contents_perm _ _ (wf_nodup _ Hwf) Hp).
    rewrite (contents_perm (concat (buckets m')) rest); [|by rewrite Hp'|done].
    unfold contents at 2. simpl. rewrite delete_insert_id; [done|].
    apply contents_lookup_None. rewrite Forall_forall. intros x Hx Hek. apply Hne.
    rewrite list_elem_of_fmap. by exists x.
Qed.

(** ** Properties *)

Lemma map_get_pos m k :
  map_get m k = find_entry_internal m k (agim_hash_cstring k) ≫= fun p => e_value <$> entry_at m p.
Proof. unfold map_get, map_find_entry. by destruct (find_entry_internal _ _ _). Qed.

(** A lookup never invents a binding, and on a key whose chain is within the
    depth limit it returns exactly the binding of the finite map the buckets
    stand for (and [map_has] says whether there is one). *)
Theorem map_get_refines m k (Hwf : map_wf m) (Hk : is_cstr k) :
  (forall v, map_get m k = Some v -> to_gmap m !! k = Some v) /\
  (reachable m k -> map_get m k = to_gmap m !! k) /\
  (reachable m k -> map_has m k = bool_decide (k ∈ dom (to_gmap m))).
Proof.
  pose proof (find_entry_spec m k Hwf Hk) as Hs.
  assert (Hg : match find_entry_internal m k (key_hash k) with
               | Some _ => map_get m k = to_gmap m !! k /\ is_Some (map_find_entry m k)
               | None => map_get m k = None /\ map_find_entry m k = None end).
  { unfold map_get, map_find_entry. rewrite key_hash_cstring by done.
    destruct (find_entry_internal m k (key_hash k)) as [[i d]|]; [|done].
    destruct Hs as (-> & e & Hd & _ & Hv). simpl. unfold entry_at. simpl.
    rewrite Hd. simpl. by rewrite Hv. }
  destruct (find_entry_internal m k (key_hash k)) as [[i d]|].
  - destruct Hs as (_ & e & _ & _ & Hv). destruct Hg as [Hg Hf].
    split_and!; [by rewrite Hg|done|]. intros _. unfold map_has.
    apply bool_decide_ext. rewrite elem_of_dom, Hv. split; [eauto|done].
  - destruct Hg as [Hg Hf]. split_and!; [by rewrite Hg| |].
    + intros Hr. by rewrite Hg, Hs.
    + intros Hr. unfold map_has. apply bool_decide_ext.
      rewrite elem_of_dom, Hs, Hf by done. done.
Qed.

Lemma map_set_fresh ok m k v :
  map_wf m -> is_cstr k -> to_gmap m !! k = None ->
  find_entry_internal m k (key_hash k) = None ->
  map_wf (map_set ok m k v) /\
  to_gmap (map_set ok m k v) = if entry_ok ok then <[k := v]> (to_gmap m) else to_gmap m.
Proof.
  intros Hwf Hk Hnew Hf. unfold map_set. rewrite key_hash_string, Hf by done.
  set (m1 := if (_ <? _)%nat then _ else m).
  assert (H1 : map_wf m1 /\ to_gmap m1 = to_gmap m).
  { subst m1. case_if_goal; [|done].
    destruct (map_resize_spec (load_resize_ok ok) m (capacity m * 2) Hwf) as (? & ? & _); [|done].
    pose proof (wf_capacity _ Hwf). lia. }
  set (m2 := if (_ <=? _)%nat then _ else m1).
  assert (H2 : map_wf m2 /\ to_gmap m2 = to_gmap m).
  { subst m2. destruct H1 as [Hw1 Hg1]. case_if_goal; [|done].
    destruct (map_resize_spec (depth_resize_ok ok) m1 (capacity m1 * 2) Hw1) as (? & Hg & _).
    - pose proof (wf_capacity _ Hw1). lia.
    - by rewrite Hg, Hg1. }
  clearbody m1 m2. destruct H2 as [Hw2 Hg2]. destruct (entry_ok ok); [|done].
  rewrite is_cstr_strlen, (take_ge k) by (try done; lia). rewrite <- Hg2.
  apply (map_push_spec m2 (mkEntry k (key_hash k) v)); [done|done|].
  simpl. by rewrite Hg2.
Qed.

(** The key list, for clients: distinct C strings, those of the domain. *)
Lemma to_gmap_cstr m k v : map_wf m -> to_gmap m !! k = Some v -> is_cstr k.
Proof.
  intros Hwf Hv. apply contents_lookup in Hv as (e & He & <- & _); [|apply Hwf].
  pose proof (map_wf_entries m Hwf) as Hf. rewrite Forall_forall in Hf. by apply Hf.
Qed.

Lemma map_keys_eq m : map_wf m -> map_keys m = e_key <$> concat (buckets m).
Proof.
  intros Hwf. unfold map_keys. apply list_fmap_ext. intros i e Hi.
  apply list_elem_of_lookup_2 in Hi.
  pose proof (map_wf_entries m Hwf) as Hf. rewrite Forall_forall in Hf.
  destruct (Hf e Hi) as [Hk _]. by rewrite is_cstr_cstr.
Qed.

Lemma map_keys_spec m :
  map_wf m ->
  NoDup (map_keys m) /\ Forall is_cstr (map_keys m) /\
  (forall k, k ∈ map_keys m <-> is_Some (to_gmap m !! k)).
Proof.
  intros Hwf. rewrite map_keys_eq by done.
  assert (Hd : forall k, k ∈ e_key <$> concat (buckets m) <-> is_Some (to_gmap m !! k)).
  { intros k. rewrite list_elem_of_fmap. split.
    - intros (e & -> & Hin). exists (e_value e). apply contents_lookup; [apply Hwf|]. eauto.
    - intros [v Hv]. apply contents_lookup in Hv as (e & ? & <- & _); [eauto|apply Hwf]. }
  split_and!; [apply Hwf| |done].
  apply Forall_forall. intros k [v Hv]%Hd. by eapply to_gmap_cstr.
Qed.

Lemma map_get_found m k v :
  map_wf m -> is_cstr k -> reachable m k -> to_gmap m !! k = Some v -> map_get m k = Some v.
Proof.
  intros Hwf Hk Hr Hv. pose proof (find_entry_spec m k Hwf Hk) as Hs.
  unfold map_get, map_find_entry. rewrite key_hash_cstring by done.
  destruct (find_entry_internal m k (key_hash k)) as [[i d]|].
  - destruct Hs as (-> & e & Hd & _ & Hv'). simpl. unfold entry_at. simpl. rewrite Hd.
    simpl. congruence.
  - rewrite Hs in Hv by done. done.
Qed.

(** C6: setting a key whose chain is within the depth limit keeps the
    representation invariant, whichever of its allocations fail, and inserts
    the binding; when the entry of a new key cannot be allocated the contents
    are unchanged. *)
Theorem map_set_refines ok m k v (Hwf : map_wf m) (Hk : is_cstr k) (Hr : reachable m k) :
  map_wf (map_set ok m k v) /\
  to_gmap (map_set ok m k v) =
    if bool_decide (is_Some (to_gmap m !! k)) || entry_ok ok
    then <[k := v]> (to_gmap m) else to_gmap m.
Proof.
  pose proof (find_entry_spec m k Hwf Hk) as Hs.
  destruct (find_entry_internal m k (key_hash k)) as [[i d]|] eqn:E.
  - destruct Hs as (-> & e & Hd & <- & Hv).
    rewrite bool_decide_true by (rewrite Hv; done). simpl.
    unfold map_set. rewrite key_hash_string, E by done.
    apply map_update_spec; [done| |done].
    apply chain_lookup; [done|]. apply bucket_index_lt, Hwf.
  - specialize (Hs Hr). rewrite bool_decide_false by (rewrite Hs; by intros []).
    by apply map_set_fresh.
Qed.

(** Deleting a key keeps the invariant and removes exactly its binding, with
    no condition on chain depths; clearing leaves a well-formed empty map. *)
Theorem map_delete_refines m k (Hwf : map_wf m) (Hk : is_cstr k) :
  map_wf (map_delete m k) /\ to_gmap (map_delete m k) = delete k (to_gmap m) /\
  map_wf (map_clear m) /\ to_gmap (map_clear m) = ∅.
Proof.
  assert (Hc : concat ((fun _ => []) <$> buckets m) = ([] : list (MapEntry A))).
  { clear Hwf. by induction (buckets m). }
  pose proof (chain_search m k Hwf Hk) as Hs. simpl in Hs.
  assert (map_wf (map_clear m) /\ to_gmap (map_clear m) = ∅).
  { split; [|unfold to_gmap, map_clear; simpl; by rewrite Hc].
    split; simpl; [apply Hwf| | |]; rewrite ?Hc; [|done|by constructor].
    split; [rewrite length_fmap; apply (wf_buckets _ Hwf)|].
    intros i c e Hi He. rewrite list_lookup_fmap in Hi.
    destruct (buckets m !! i); simplify_eq/=. set_solver. }
  unfold map_delete. rewrite key_hash_string by done.
  set (i := bucket_index (key_hash k) (capacity m)) in *.
  destruct (find_index _ _) as [d|] eqn:E.
  - destruct Hs as (e & Hd & <- & _).
    destruct (map_delete_at m i d e Hwf) as [? ?]; [|done|done].
    apply chain_lookup; [done|]. apply bucket_index_lt, Hwf.
  - split; [done|]. split; [|done]. by rewrite delete_id.
Qed.

Lemma map_new_wf cap : map_wf (map_with_capacity cap) /\ to_gmap (map_with_capacity cap) = ∅.
Proof.
  unfold map_with_capacity.
  assert (Hc : (0 < if (0 <? cap)%nat then cap else 16)%nat) by (case_if_goal; lia).
  generalize dependent (if (0 <? cap)%nat then cap else 16)%nat. intros c Hc.
  split; [|unfold to_gmap; simpl; by rewrite concat_replicate_nil].
  split; simpl; rewrite ?concat_replicate_nil; [done|apply buckets_wf_replicate|done|by constructor].
Qed.

(** The iterators enumerate the contents: no key is listed twice, the keys
    are the domain, the pairs are the bindings, and the stored size is their
    number. *)
Theorem map_iteration_complete m (Hwf : map_wf m) :
  NoDup (map_keys m) /\ (forall k, k ∈ map_keys m <-> k ∈ dom (to_gmap m)) /\
  map_entries m ≡ₚ map_to_list (to_gmap m) /\
  map_values m = (map_entries m).*2 /\ map_size m = length (map_keys m).
Proof.
  destruct (map_keys_spec m Hwf) as (Hnd & _ & Hd).
  assert (He : map_entries m = entry_pair <$> concat (buckets m)).
  { pose proof (map_keys_eq m Hwf) as Hk. unfold map_keys in Hk. unfold map_entries, entry_pair.
    clear -Hk. induction (concat (buckets m)) as [|e es IH]; [done|].
    simpl in *. injection Hk as -> Hk. f_equal. by apply IH. }
  split_and!; [done| | | |].
  - intros k. by rewrite elem_of_dom.
  - rewrite He. unfold to_gmap, contents. rewrite map_to_list_to_map; [done|].
    rewrite <- list_fmap_compose. apply Hwf.
  - unfold map_values, map_entries. rewrite <- list_fmap_compose. done.
  - unfold map_keys. rewrite length_fmap. apply Hwf.
Qed.

End map.

(** ** Concrete instances *)

Section instances.

Definition key_a : list Z := [97].
Definition key_b : list Z := [98; 99].

(** [{"a": 1}] *)
Definition sample : Map Z := map_set allocs_ok map_new key_a 1.

Lemma sample_wf : map_wf sample /\ to_gmap sample = {[key_a := 1]}.
Proof.
  destruct (map_new_wf (A := Z) 16) as [Hw Hg].
  destruct (map_set_fresh allocs_ok (map_new (A := Z)) key_a 1) as [Hw' Hg'].
  - exact Hw.
  - by apply is_cstr_decide.
  - unfold map_new. rewrite Hg. apply lookup_empty.
  - reflexivity.
  - split; [exact Hw'|]. unfold sample. rewrite Hg'. unfold map_new. simpl. by rewrite Hg.
Qed.

Lemma map_get_refines_witness : map_get sample key_a = Some 1 /\ to_gmap sample !! key_a = Some 1.
Proof.
  assert (H : map_get sample key_a = Some 1) by reflexivity.
  split; [exact H|].
  destruct (map_get_refines sample key_a) as [Hs _];
    [apply sample_wf|by apply is_cstr_decide|]. exact (Hs 1 H).
Defined.

Lemma map_set_refines_witness :
  to_gmap (map_set allocs_ok sample key_b 7) = <[key_b := 7]> (to_gmap sample).
Proof.
  destruct (map_set_refines allocs_ok sample key_b 7) as [_ H].
  - apply sample_wf.
  - by apply is_cstr_decide.
  - apply Nat.leb_le. reflexivity.
  - rewrite H. by rewrite orb_true_r.
Defined.

Lemma map_delete_refines_witness : to_gmap (map_delete sample key_a) = delete key_a (to_gmap sample).
Proof.
  apply (map_delete_refines sample key_a); [apply sample_wf|by apply is_cstr_decide].
Defined.

Lemma map_iteration_complete_witness :
  map_keys sample = [key_a] /\ NoDup (map_keys sample).
Proof. split; [reflexivity|]. apply (map_iteration_complete sample), sample_wf. Defined.

(** Seventeen two-letter keys whose hashes agree modulo 64. *)
Definition colliding_keys : list (list Z) :=
  [[97; 107]; [98; 98]; [99; 85]; [100; 52]; [100; 116]; [101; 103];
   [103; 65]; [104; 80]; [105; 67]; [106; 122]; [107; 109]; [108; 76];
   [110; 54]; [110; 118]; [111; 89]; [112; 104]; [114; 82]].

Definition crowded : Map Z := foldl (fun m k => map_set allocs_ok m k 1) map_new colliding_keys.

(** The key the last resize left at the end of the chain. *)
Definition lost_key : list Z := [112; 104].

(** The depth limit makes lookups incomplete: after seventeen insertions of
    distinct keys, all successful, into a new map, one of the keys is still
    stored but [map_get] no longer finds it, and setting it again stores it a
    second time instead of replacing its value. *)
Theorem map_chain_limit_loses_key :
  map_size crowded = 17%nat /\
  bool_decide (NoDup (map_keys crowded)) = true /\
  bool_decide (lost_key ∈ map_keys crowded) = true /\
  map_get crowded lost_key = None /\
  length (filter (fun k => k = lost_key) (map_keys (map_set allocs_ok crowded lost_key 2))) = 2%nat.
Proof. vm_compute. repeat split. Qed.

End instances.
