(* ===== verification/Pool.v ===== *)
(** * Memory pools (src/util/pool.c, src/util/worker_alloc.c)

    Blocks of one size, cut from chunks that [malloc] gives.  The blocks that are
    free form a list through their own first words, so what a client writes into
    a block it still uses after giving it back ends up in the list.  [links] is
    the first word of every block.  The address that [malloc] gives for the next
    chunk is an argument; [NULL] is a failure.  Release builds are modelled, in
    which blocks have no headers.  A pool of [pool.c] is only used under its lock,
    one of [worker_alloc.c] by one thread. *)

From Stdlib Require Import ZArith Lia.
From stdpp Require Import base numbers list gmap sorting.
From S2P Require Import Prelude.
Local Open Scope Z_scope.
Local Open Scope agim_scope.

Definition NULL : Z := 0.
Definition POOL_DEFAULT_CHUNK_SIZE : Z := 4096.
Definition POOL_DEFAULT_ALIGNMENT : Z := 8.
(** [sizeof(PoolChunk)], the link in front of the blocks, and
    [sizeof(PoolFreeBlock)]. *)
Definition sizeof_chunk : Z := 8.
Definition sizeof_link : Z := 8.

Definition align_size (size alignment : Z) : Z := u64 (size + alignment - 1) .& u64 (Z.lnot (alignment - 1)).

Record MemoryPool := mkPool {
  block_size : Z;
  blocks_per_chunk : nat;
  chunk_size : Z;
  free_list : Z;
  chunks : list Z;
  links : gmap Z Z;
  allocated_count : Z;
  free_count : Z;
  chunk_count : Z
}.

Definition pool_of_size (chunk_size block : Z) : MemoryPool :=
  let block := align_size (if block <? sizeof_link then sizeof_link else block) POOL_DEFAULT_ALIGNMENT in
  mkPool block (Z.to_nat ((chunk_size - sizeof_chunk) / block)) chunk_size NULL [] empty 0 0 0.
Definition pool_init (block : Z) : MemoryPool := pool_of_size POOL_DEFAULT_CHUNK_SIZE block.

(** Cutting [n] blocks and putting each in front of the list. *)
Fixpoint carve (n : nat) (block size : Z) (ls : gmap Z Z) (free : Z) : gmap Z Z * Z :=
  match n with
  | O => (ls, free)
  | S n => carve n (block + size) size (<[block := free]> ls) block
  end.
Definition pool_grow (chunk : Z) (p : MemoryPool) : bool * MemoryPool :=
  if chunk =? NULL then (false, p)
  else
    let '(ls, free) := carve (blocks_per_chunk p) (chunk + sizeof_chunk) (block_size p) (links p) (free_list p) in
    (true, mkPool (block_size p) (blocks_per_chunk p) (chunk_size p) free (chunk :: chunks p) ls (allocated_count p)
             (u64 (free_count p + Z.of_nat (blocks_per_chunk p))) (u64 (chunk_count p + 1))).

(** [None]: the list is followed through a null or a dangling pointer. *)
Definition pool_alloc (chunk : Z) (p : MemoryPool) : option (Z * MemoryPool) :=
  let '(ok, p) := if free_list p =? NULL then pool_grow chunk p else (true, p) in
  if negb ok then Some (NULL, p)
  else
    next ← links p !! free_list p;
    Some (free_list p, mkPool (block_size p) (blocks_per_chunk p) (chunk_size p) next (chunks p) (links p)
                         (u64 (allocated_count p + 1)) (u64 (free_count p - 1)) (chunk_count p)).

Definition pool_owns_ptr (p : MemoryPool) (ptr : Z) : bool :=
  existsb (fun c =>
    let start := c + sizeof_chunk in
    (start <=? ptr) && (ptr <? start + block_size p * Z.of_nat (blocks_per_chunk p)) && ((ptr - start) mod block_size p =? 0)) (chunks p).
(** Putting a block in front of the list. *)
Definition put_block (ptr : Z) (p : MemoryPool) : MemoryPool :=
  mkPool (block_size p) (blocks_per_chunk p) (chunk_size p) ptr (chunks p) (<[ptr := free_list p]> (links p))
    (u64 (allocated_count p - 1)) (u64 (free_count p + 1)) (chunk_count p).
Definition pool_dealloc (ptr : Z) (p : MemoryPool) : MemoryPool :=
  if ptr =? NULL then p else if negb (pool_owns_ptr p ptr) then p else put_block ptr p.

Record PoolStats := mkStats { st_block_size : Z; st_allocated : Z; st_free : Z; st_chunks : Z; st_total_memory : Z }.
Definition pool_stats (p : MemoryPool) : PoolStats :=
  mkStats (block_size p) (allocated_count p) (free_count p) (chunk_count p) (u64 (chunk_count p * chunk_size p)).

(** ** Pools of several sizes *)

Definition pool_sizes : list Z := [24; 48; 64; 96; 128; 256; 512].
Fixpoint find_index_in (sizes : list Z) (size : Z) : option nat :=
  match sizes with [] => None | s :: ss => if size <=? s then Some 0%nat else S <$> find_index_in ss size end.
Definition find_pool_index (size : Z) : option nat := find_index_in pool_sizes size.
Definition pools_init : list MemoryPool := pool_init <$> pool_sizes.

(** [fresh]: what [malloc] gives, for a chunk or for a large block. *)
Definition pools_alloc (fresh size : Z) (ps : list MemoryPool) : option (Z * list MemoryPool) :=
  match find_pool_index size with
  | Some i => p ← ps !! i; '(b, p) ← pool_alloc fresh p; Some (b, <[i := p]> ps)
  | None => Some (fresh, ps)
  end.
(** Whether the block goes back to [malloc] instead. *)
Definition pools_dealloc (ptr size : Z) (ps : list MemoryPool) : bool * list MemoryPool :=
  if ptr =? NULL then (false, ps)
  else match find_pool_index size with
       | Some i => (false, alter (pool_dealloc ptr) i ps)
       | None => (true, ps)
       end.

(** *** The allocator of a worker: no lock, no check of the pointers *)

Definition worker_pool_sizes : list Z := [16; 32; 64; 128; 256; 512].
Definition WORKER_ALLOC_CHUNK_SIZE : Z := 4096.
Definition worker_alloc_init : list MemoryPool := pool_of_size WORKER_ALLOC_CHUNK_SIZE <$> worker_pool_sizes.
Definition worker_alloc_alloc (fresh size : Z) (ps : list MemoryPool) : option (Z * list MemoryPool) :=
  if size =? 0 then Some (fresh, ps)
  else match find_index_in worker_pool_sizes size with
       | Some i => p ← ps !! i; '(b, p) ← pool_alloc fresh p; Some (b, <[i := p]> ps)
       | None => Some (fresh, ps)
       end.
Definition worker_alloc_dealloc (ptr size : Z) (ps : list MemoryPool) : bool * list MemoryPool :=
  if ptr =? NULL then (false, ps)
  else match find_index_in worker_pool_sizes size with
       | Some i => (false, alter (put_block ptr) i ps)
       | None => (true, ps)
       end.

(** ** The free list *)

Fixpoint linked (ls : gmap Z Z) (p : Z) (fs : list Z) : Prop :=
  match fs with
  | [] => p = NULL
  | f :: fs => p = f /\ f <> NULL /\ exists next, ls !! f = Some next /\ linked ls next fs
  end.
Lemma linked_insert ls p fs b w : b ∉ fs -> linked ls p fs -> linked (<[b := w]> ls) p fs.
Proof.
  revert p. induction fs as [|f fs IH]; intros p Hb H; [done|]. destruct H as (-> & Hf & next & Hn & H).
  apply not_elem_of_cons in Hb as [Hbf Hb]. split_and!; [done|done|]. exists next. split; [by rewrite lookup_insert_ne|auto].
Qed.
Lemma linked_cons ls p fs : p <> NULL -> linked ls p fs -> exists next fs', fs = p :: fs' /\ ls !! p = Some next /\ linked ls next fs'.
Proof. intros Hp H. destruct fs as [|f fs]; [done|]. destruct H as (-> & _ & next & Hn & H). by exists next, fs. Qed.

(** The blocks of a piece of memory, from its start on. *)
Fixpoint blocks_from (n : nat) (block size : Z) : list Z :=
  match n with O => [] | S n => block :: blocks_from n (block + size) size end.
Lemma blocks_from_elem n : forall block size b, b ∈ blocks_from n block size <-> exists i, (i < n)%nat /\ b = block + Z.of_nat i * size.
Proof.
  induction n as [|n IH]; intros block size b; simpl.
  - split; [by intros ?%not_elem_of_nil|intros (i & Hi & _); lia].
  - rewrite elem_of_cons, IH. split.
    + intros [->|(i & Hi & ->)]; [exists 0%nat; lia|exists (S i); lia].
    + intros ([|i] & Hi & ->); [left; lia|right; exists i; lia].
Qed.
Lemma blocks_from_nodup n : forall block size, 0 < size -> NoDup (blocks_from n block size).
Proof.
  induction n as [|n IH]; intros block size Hs; constructor; [|auto]. rewrite blocks_from_elem. intros (i & _ & E). nia.
Qed.
Lemma blocks_from_length n block size : length (blocks_from n block size) = n.
Proof. revert block. induction n as [|n IH]; intros block; simpl; [done|]. by rewrite IH. Qed.

Lemma carve_linked n : forall block size ls free fs, 0 < block -> 0 < size ->
  linked ls free fs -> Forall (fun b => b ∉ fs) (blocks_from n block size) ->
  let '(ls', free') := carve n block size ls free in linked ls' free' (rev (blocks_from n block size) ++ fs).
Proof.
  induction n as [|n IH]; intros block size ls free fs Hb Hs H Hf; simpl; [done|]. inversion Hf as [|? ? Hb' Hf']; subst.
  specialize (IH (block + size) size (<[block := free]> ls) block (block :: fs)).
  destruct (carve n (block + size) size (<[block := free]> ls) block) as [ls' free']. rewrite <- app_assoc. apply IH; [lia|done| |].
  - split_and!; [done|unfold NULL; lia|]. exists free. split; [apply lookup_insert_eq|by apply linked_insert].
  - rewrite Forall_forall in *. intros b Hin. apply not_elem_of_cons. split; [|auto].
    apply blocks_from_elem in Hin as (i & _ & ->). nia.
Qed.

(** ** The blocks of a pool *)

Definition chunk_blocks (p : MemoryPool) (c : Z) : list Z := blocks_from (blocks_per_chunk p) (c + sizeof_chunk) (block_size p).
Definition blocks (p : MemoryPool) : list Z := concat (chunk_blocks p <$> chunks p).
(** What a chunk asks [malloc] for. *)
Definition chunk_bytes (p : MemoryPool) : Z := sizeof_chunk + block_size p * Z.of_nat (blocks_per_chunk p).
(** Two pieces of memory of [len] bytes do not overlap. *)
Definition apart (len a b : Z) : Prop := a + len <= b \/ b + len <= a.
Fixpoint all_apart (len : Z) (l : list Z) : Prop := match l with [] => True | a :: l => Forall (apart len a) l /\ all_apart len l end.

(** What [malloc] promises: nothing, or memory that is not in use. *)
Definition fresh_chunk (p : MemoryPool) (c : Z) : Prop := c = NULL \/ 0 < c /\ Forall (apart (chunk_bytes p) c) (chunks p).

Record geometry (p : MemoryPool) : Prop := {
  geo_size : 0 < block_size p;
  geo_some : (0 < blocks_per_chunk p)%nat;
  geo_chunks : Forall (fun c => 0 < c) (chunks p);
  geo_apart : all_apart (chunk_bytes p) (chunks p)
}.

Lemma elem_of_blocks p b : b ∈ blocks p <-> exists c i, c ∈ chunks p /\ (i < blocks_per_chunk p)%nat /\ b = c + sizeof_chunk + Z.of_nat i * block_size p.
Proof.
  unfold blocks. rewrite elem_of_concat. split.
  - intros (k & l & Hl & Hb). apply list_elem_of_lookup_2, list_elem_of_fmap in Hl as (c & -> & Hc).
    apply blocks_from_elem in Hb as (i & Hi & ->). eauto.
  - intros (c & i & Hc & Hi & ->). apply list_elem_of_lookup in Hc as [k Hk]. exists k, (chunk_blocks p c).
    split; [by rewrite list_lookup_fmap, Hk|]. apply blocks_from_elem. eauto.
Qed.

Lemma apart_sym len a b : apart len a b -> apart len b a.
Proof. unfold apart. lia. Qed.
Lemma all_apart_elem len l a b : all_apart len l -> a ∈ l -> b ∈ l -> a = b \/ apart len a b.
Proof.
  induction l as [|x l IH]; [by intros _ ?%not_elem_of_nil|]. intros [Hx Hl] Ha Hb. rewrite Forall_forall in Hx.
  apply elem_of_cons in Ha as [->|Ha]; apply elem_of_cons in Hb as [->|Hb]; auto using apart_sym.
Qed.
(** Blocks of a pool do not overlap. *)
Lemma blocks_apart p a b : geometry p -> a ∈ blocks p -> b ∈ blocks p -> a = b \/ apart (block_size p) a b.
Proof.
  intros [Hs _ _ Hap] (c & i & Hc & Hi & ->)%elem_of_blocks (c' & j & Hc' & Hj & ->)%elem_of_blocks.
  destruct (all_apart_elem _ _ _ _ Hap Hc Hc') as [<-|H]; unfold apart, chunk_bytes, sizeof_chunk in *.
  - destruct (lt_eq_lt_dec i j) as [[?| ->]|?]; [right; left; nia|by left|right; right; nia].
  - right. destruct H; [left|right]; nia.
Qed.
Lemma blocks_nonnull p b : geometry p -> b ∈ blocks p -> 0 < b.
Proof.
  intros [Hs _ Hc _] (c & i & Hin & _ & ->)%elem_of_blocks. rewrite Forall_forall in Hc. specialize (Hc c Hin). unfold sizeof_chunk. nia.
Qed.
Lemma blocks_nodup p : geometry p -> NoDup (blocks p).
Proof.
  intros [Hs _ Hc Hap]. unfold blocks. induction (chunks p) as [|c cs IH]; simpl; [constructor|]. destruct Hap as [Hx Hap].
  inversion Hc; subst. apply NoDup_app. split_and!; [by apply blocks_from_nodup| |by apply IH].
  intros b (i & Hi & ->)%blocks_from_elem (k & l & Hl & Hb)%elem_of_concat.
  apply list_elem_of_lookup_2, list_elem_of_fmap in Hl as (c' & -> & Hc'). apply blocks_from_elem in Hb as (j & Hj & E). rewrite Forall_forall in Hx.
  specialize (Hx c' Hc'). unfold apart, chunk_bytes, sizeof_chunk in Hx. nia.
Qed.

Lemma pool_owns_blocks p b : geometry p -> pool_owns_ptr p b = true <-> b ∈ blocks p.
Proof.
  intros [Hs _ _ _]. unfold pool_owns_ptr. rewrite existsb_exists, elem_of_blocks. split.
  - intros (c & Hc & H). rewrite !andb_true_iff, Z.leb_le, Z.ltb_lt, Z.eqb_eq in H. destruct H as [[H1 H2] H3].
    apply Z.mod_divide in H3 as [q Hq]; [|lia]. exists c, (Z.to_nat q). rewrite list_elem_of_In. split_and!; [done|nia|nia].
  - intros (c & i & Hc & Hi & ->). exists c. rewrite <- list_elem_of_In. split; [done|].
    rewrite !andb_true_iff, Z.leb_le, Z.ltb_lt, Z.eqb_eq. split_and!; [nia|nia|].
    replace (c + sizeof_chunk + Z.of_nat i * block_size p - (c + sizeof_chunk)) with (Z.of_nat i * block_size p) by lia.
    apply Z_mod_mult.
Qed.

(** ** The invariant *)

(** [live] are the blocks that clients hold. *)
Record pool_ok (p : MemoryPool) (live : list Z) : Prop := {
  ok_geometry : geometry p;
  ok_list : exists fs, linked (links p) (free_list p) fs /\ fs ++ live ≡ₚ blocks p /\ free_count p = u64 (Z.of_nat (length fs));
  ok_count : allocated_count p = u64 (Z.of_nat (length live))
}.

Lemma u64_absorbs x y : u64 (u64 x + y) = u64 (x + y).
Proof. unfold u64, wrap. apply Zplus_mod_idemp_l. Qed.

Lemma pool_grow_ok p live chunk : pool_ok p live -> fresh_chunk p chunk -> chunk <> NULL -> exists p',
  pool_grow chunk p = (true, p') /\ pool_ok p' live /\ block_size p' = block_size p /\ blocks_per_chunk p' = blocks_per_chunk p /\
  chunks p' = chunk :: chunks p /\ free_list p' <> NULL.
Proof.
  intros [Hg (fs & Hl & Hp & Hf) Hc] [?|[H0 Hap]] Hn; [done|]. pose proof Hg as [Hs Hb Hch Hall]. unfold pool_grow.
  destruct (Z.eqb_spec chunk NULL); [done|]. set (bs := blocks_from (blocks_per_chunk p) (chunk + sizeof_chunk) (block_size p)).
  set (p' := mkPool (block_size p) (blocks_per_chunk p) (chunk_size p) 0 (chunk :: chunks p) empty 0 0 0).
  assert (Hg' : geometry p') by (split; [done|done|by constructor|by split]).
  pose proof (blocks_nodup p' Hg') as Hnd. change (blocks p') with (bs ++ blocks p) in Hnd. apply NoDup_app in Hnd as (_ & Hdis & _).
  assert (Hfresh : Forall (fun b => b ∉ fs) bs).
  { apply Forall_forall. intros b Hin Hfs. apply (Hdis b Hin). rewrite <- Hp. apply elem_of_app. by left. }
  pose proof (carve_linked (blocks_per_chunk p) (chunk + sizeof_chunk) (block_size p) (links p) (free_list p) fs
    ltac:(unfold sizeof_chunk; lia) Hs Hl Hfresh) as Hcarve. fold bs in Hcarve.
  destruct (carve _ _ _ _ _) as [ls free]. eexists. split; [done|]. split_and!; try done.
  - split; [by destruct Hg'; split| |done]. exists (rev bs ++ fs). split_and!; [done| |].
    + change (blocks _) with (bs ++ blocks p). rewrite <- Hp, <- app_assoc. apply Permutation_app_tail. symmetry. apply Permutation_rev.
    + simpl. rewrite Hf, u64_absorbs, length_app, length_rev. unfold bs. rewrite blocks_from_length. f_equal. lia.
  - simpl. intros ->. destruct (rev bs) as [|b bs'] eqn:E; [|by destruct Hcarve as (<- & ? & _)].
    apply (f_equal length) in E. rewrite length_rev in E. unfold bs in E. rewrite blocks_from_length in E. simpl in E. lia.
Qed.

Lemma pool_take_ok p live : pool_ok p live -> free_list p <> NULL -> exists next,
  links p !! free_list p = Some next /\ free_list p ∈ blocks p /\
  pool_ok (mkPool (block_size p) (blocks_per_chunk p) (chunk_size p) next (chunks p) (links p)
             (u64 (allocated_count p + 1)) (u64 (free_count p - 1)) (chunk_count p)) (free_list p :: live).
Proof.
  intros [Hg (fs & Hl & Hp & Hf) Hc] Hn. destruct (linked_cons _ _ _ Hn Hl) as (next & fs' & -> & Hnext & Hl'). exists next.
  split_and!; [done|rewrite <- Hp; set_solver|]. split; [by destruct Hg; split| |].
  - exists fs'. split_and!; [done| |].
    + change (blocks _) with (blocks p). rewrite <- Hp. simpl. symmetry. apply Permutation_middle.
    + simpl. rewrite Hf. unfold Z.sub. rewrite u64_absorbs. f_equal. simpl. lia.
  - simpl. rewrite Hc, u64_absorbs. f_equal. lia.
Qed.

Lemma pool_alloc_ok p live chunk : pool_ok p live -> fresh_chunk p chunk -> exists b p',
  pool_alloc chunk p = Some (b, p') /\ block_size p' = block_size p /\ blocks_per_chunk p' = blocks_per_chunk p /\
  (b = NULL <-> free_list p = NULL /\ chunk = NULL) /\
  if b =? NULL then p' = p else b ∈ blocks p' /\ pool_ok p' (b :: live).
Proof.
  intros H Hf. unfold pool_alloc. destruct (Z.eqb_spec (free_list p) NULL) as [E|E].
  - destruct (decide (chunk = NULL)) as [->|Hn].
    { exists NULL, p. by split_and!. }
    destruct (pool_grow_ok p live chunk H Hf Hn) as (p1 & -> & H1 & S1 & N1 & _ & F1). simpl.
    destruct (pool_take_ok p1 live H1 F1) as (next & Hnext & Hin & H2). rewrite Hnext. simpl. eexists _, _. split; [done|].
    destruct (Z.eqb_spec (free_list p1) NULL); [done|]. split_and!; [done..|tauto|done|done].
  - simpl. destruct (pool_take_ok p live H E) as (next & Hnext & Hin & H2). rewrite Hnext. simpl. eexists _, _. split; [done|].
    destruct (Z.eqb_spec (free_list p) NULL); [done|]. split_and!; [done..|tauto|done|done].
Qed.

Lemma put_block_ok p live b : pool_ok p (b :: live) -> pool_ok (put_block b p) live.
Proof.
  intros [Hg (fs & Hl & Hp & Hf) Hc]. assert (Hb : b ∈ blocks p) by (rewrite <- Hp; set_solver).
  assert (Hnf : b ∉ fs). { pose proof (blocks_nodup p Hg) as Hnd. rewrite <- Hp in Hnd. apply NoDup_app in Hnd as (_ & Hd & _). intros ?. by apply (Hd b); [|left]. }
  split; [by destruct Hg; split| |].
  - exists (b :: fs). split_and!; [| |].
    + simpl. split_and!; [done|pose proof (blocks_nonnull p b Hg Hb); unfold NULL; lia|]. exists (free_list p).
      split; [apply lookup_insert_eq|by apply linked_insert].
    + change (blocks _) with (blocks p). rewrite <- Hp. simpl. apply Permutation_middle.
    + simpl. rewrite Hf, u64_absorbs. f_equal. simpl. lia.
  - simpl. rewrite Hc. unfold Z.sub. rewrite u64_absorbs. f_equal. simpl. lia.
Qed.
Lemma pool_ok_perm p live live' : live ≡ₚ live' -> pool_ok p live -> pool_ok p live'.
Proof.
  intros Hp [Hg (fs & Hl & Hb & Hf) Hc]. split; [done| |by rewrite <- Hp]. exists fs. split_and!; [done| |done]. by rewrite <- Hp.
Qed.

(** ** Clients *)

(** A client writes into the first word of a block. *)
Definition client_write (b w : Z) (p : MemoryPool) : MemoryPool :=
  mkPool (block_size p) (blocks_per_chunk p) (chunk_size p) (free_list p) (chunks p) (<[b := w]> (links p))
    (allocated_count p) (free_count p) (chunk_count p).

(** What clients may do: ask for blocks, write into those they hold, give each
    back once; pointers that are no blocks of the pool may be given back too. *)
Inductive pool_step : MemoryPool * list Z -> MemoryPool * list Z -> Prop :=
  | step_alloc p live chunk b p' : fresh_chunk p chunk -> pool_alloc chunk p = Some (b, p') ->
      pool_step (p, live) (p', if b =? NULL then live else b :: live)
  | step_write p live b w : b ∈ live -> pool_step (p, live) (client_write b w p, live)
  | step_dealloc p l1 b l2 : pool_step (p, l1 ++ b :: l2) (pool_dealloc b p, l1 ++ l2)
  | step_foreign p live b : b ∉ blocks p -> pool_step (p, live) (pool_dealloc b p, live).

Lemma pool_step_ok p live p' live' : pool_step (p, live) (p', live') -> pool_ok p live -> pool_ok p' live' /\ block_size p' = block_size p.
Proof.
  intros Hs H. inversion Hs; subst.
  - destruct (pool_alloc_ok p live chunk H ltac:(done)) as (b' & p'' & E & Hb & _ & _ & Hok). simplify_eq.
    split; [|done]. destruct (b =? NULL); [by subst|tauto].
  - split; [|done]. destruct H as [Hg (fs & Hl & Hp & Hf) Hc]. split; [by destruct Hg; split| |done].
    exists fs. split_and!; [|done|done]. apply linked_insert; [|done]. pose proof (blocks_nodup p Hg) as Hnd. rewrite <- Hp in Hnd.
    apply NoDup_app in Hnd as (_ & Hd & _). intros ?. by apply (Hd b).
  - apply (pool_ok_perm _ _ (b :: l1 ++ l2)) in H; [|symmetry; apply Permutation_middle].
    assert (Hb : b ∈ blocks p) by (destruct H as [_ (fs & _ & Hp & _) _]; rewrite <- Hp; set_solver).
    pose proof (ok_geometry _ _ H) as Hg. unfold pool_dealloc. rewrite (proj2 (pool_owns_blocks p b Hg) Hb).
    pose proof (blocks_nonnull p b Hg Hb). destruct (Z.eqb_spec b NULL); [unfold NULL in *; lia|]. simpl. split; [by apply put_block_ok|done].
  - unfold pool_dealloc. destruct (b =? NULL); [done|]. destruct (pool_owns_ptr p b) eqn:E; [|done].
    by apply pool_owns_blocks in E; [|apply H].
Qed.
Lemma pool_steps_ok s s' : rtc pool_step s s' -> pool_ok s.1 s.2 -> pool_ok s'.1 s'.2 /\ block_size s'.1 = block_size s.1.
Proof.
  induction 1 as [s|[p live] [p1 live1] [p2 live2] H _ IH]; intros Hok; [done|]. destruct (pool_step_ok _ _ _ _ H Hok) as [H1 E1].
  destruct (IH H1) as [H2 E2]. split; [done|]. simpl in *. congruence.
Qed.

Lemma align_8 size : 0 <= size < 2 ^ 32 -> align_size size 8 = 8 * ((size + 7) / 8).
Proof.
  intros H. unfold align_size. change (u64 (Z.lnot (8 - 1))) with (Z.lnot (Z.ones 3) mod 2 ^ 64). unfold u64, wrap.
  replace (size + 8 - 1) with (size + 7) by lia. rewrite (Z.mod_small (size + 7)) by lia.
  rewrite <- (Z.land_ones (Z.lnot _)) by lia. rewrite Z.land_assoc, (Z.land_comm _ (Z.ones 64)), Z.land_assoc.
  rewrite (Z.land_comm (Z.ones 64)), Z.land_ones by lia. rewrite (Z.mod_small (size + 7)) by lia.
  rewrite <- Z.ldiff_land, Z.ldiff_ones_r by lia. rewrite Z.shiftr_div_pow2, Z.shiftl_mul_pow2 by lia. change (2 ^ 3) with 8. lia.
Qed.

(** A new pool, for blocks that fit in a chunk. *)
Lemma pool_init_ok size : 0 <= size <= 4088 -> pool_ok (pool_init size) [] /\ size <= block_size (pool_init size) < size + 16.
Proof.
  intros H. assert (E : block_size (pool_init size) = 8 * (((if size <? 8 then 8 else size) + 7) / 8)).
  { apply align_8. unfold sizeof_link. destruct (size <? 8); lia. }
  assert (Hb : 0 < block_size (pool_init size) <= 4088 /\ size <= block_size (pool_init size) < size + 16).
  { rewrite E. set (x := if size <? 8 then 8 else size). assert (8 <= x <= 4088 /\ size <= x <= Z.max 8 size) by (unfold x; destruct (Z.ltb_spec size 8); lia).
    pose proof (Z.div_mod (x + 7) 8 ltac:(lia)). pose proof (Z.mod_pos_bound (x + 7) 8 ltac:(lia)). lia. }
  split; [|tauto]. split; [split; [lia| |constructor|done]|exists []; by split_and!|done].
  change (blocks_per_chunk (pool_init size)) with (Z.to_nat ((4096 - 8) / block_size (pool_init size))).
  pose proof (Z.div_str_pos (4096 - 8) (block_size (pool_init size)) ltac:(lia)). lia.
Qed.

(** C23: pools hand out memory that nobody else uses.  After any sequence of
    allocations, writes into held blocks and deallocations, where each block is
    given back at most once and [malloc] gives fresh memory, an allocation never
    follows a bad pointer; it fails only when no block is free and [malloc] fails;
    and a block it gives has the size asked for, lies inside of a chunk of the
    pool, behind the chunk's header, and does not overlap any block that a
    client holds.  The count of allocated blocks is exact. *)
Theorem pool_alloc_safe size p live chunk : 0 <= size <= 4088 -> rtc pool_step (pool_init size, []) (p, live) -> fresh_chunk p chunk ->
  allocated_count p = u64 (Z.of_nat (length live)) /\
  exists b p', pool_alloc chunk p = Some (b, p') /\ (b = NULL <-> free_list p = NULL /\ chunk = NULL) /\
    (b <> NULL -> size <= block_size p /\ Forall (apart (block_size p) b) live /\
       exists c, c ∈ chunks p' /\ c + sizeof_chunk <= b /\ b + block_size p <= c + chunk_bytes p').
Proof.
  intros Hs Hr Hf. destruct (pool_init_ok size Hs) as [Hi Hsz]. destruct (pool_steps_ok _ _ Hr Hi) as [Hok Hb]. cbn [fst snd] in Hok, Hb.
  split; [apply Hok|]. destruct (pool_alloc_ok p live chunk Hok Hf) as (b & p' & E & Hs' & Hn' & Hnull & H).
  exists b, p'. split_and!; [done|done|]. intros Hb0. destruct (Z.eqb_spec b NULL); [done|]. destruct H as [Hin Hok'].
  split_and!; [lia| |].
  - apply Forall_forall. intros q Hq. pose proof (ok_geometry _ _ Hok') as Hg'. destruct (ok_list _ _ Hok') as (fs & _ & Hp & _).
    assert (Hq' : q ∈ blocks p') by (rewrite <- Hp; set_solver).
    destruct (blocks_apart p' b q Hg' Hin Hq') as [<-|Ha]; [|by rewrite <- Hs'].
    pose proof (blocks_nodup p' Hg') as Hnd. rewrite <- Hp in Hnd. apply NoDup_app in Hnd as (_ & _ & Hnd). by apply NoDup_cons in Hnd as [? _].
  - apply elem_of_blocks in Hin as (c & i & Hc & Hi' & ->). exists c. unfold chunk_bytes, sizeof_chunk. rewrite Hs'. split_and!; [done|nia|nia].
Qed.

(** A pool of 24 bytes with one chunk and one block in use. *)
Definition one_block : MemoryPool := default (pool_init 24) (snd <$> pool_alloc 1000 (pool_init 24)).
Definition first_block : Z := 5064.
Lemma pool_alloc_safe_witness : exists p', pool_alloc NULL one_block = Some (5040, p') /\ apart 24 5040 first_block.
Proof.
  assert (Hr : rtc pool_step (pool_init 24, []) (one_block, [first_block])).
  { eapply rtc_l; [|apply rtc_refl]. apply (step_alloc (pool_init 24) [] 1000 first_block one_block); [right; split; [done|constructor]|].
    vm_compute. reflexivity. }
  destruct (pool_alloc_safe 24 one_block [first_block] NULL ltac:(lia) Hr (or_introl eq_refl)) as (_ & b & p' & E & _ & H).
  assert (Hb : b = 5040) by (vm_compute in E; by injection E). subst b. exists p'. split; [exact E|].
  destruct (H ltac:(discriminate)) as (_ & Ha & _). by apply Forall_cons in Ha as [Ha _].
Defined.

(** The pool of the global pools is the smallest whose blocks are large enough. *)
Lemma find_index_in_spec sizes size : match find_index_in sizes size with
  | Some i => exists s, sizes !! i = Some s /\ size <= s /\ forall j s', (j < i)%nat -> sizes !! j = Some s' -> s' < size
  | None => Forall (fun s => s < size) sizes
  end.
Proof.
  induction sizes as [|s ss IH]; simpl; [constructor|]. destruct (Z.leb_spec size s) as [Hs|Hs].
  - exists s. split_and!; [done|done|]. intros j s' Hj. lia.
  - destruct (find_index_in ss size) as [i|]; simpl; [|by constructor]. destruct IH as (s1 & H1 & H2 & H3). exists s1.
    split_and!; [done|done|]. intros [|j] s' Hj H; [simpl in H; by simplify_eq|]. apply (H3 j); [lia|done].
Qed.

(** ** Where pools fail *)

Definition alloc_twice (p : MemoryPool) : option (Z * Z) :=
  '(a, p) ← pool_alloc NULL p; '(b, _) ← pool_alloc NULL p; Some (a, b).
(** A block that is given back twice is handed out twice; a pool whose blocks do
    not fit in a chunk follows a null pointer; and memory of size zero that a
    worker got from [malloc] goes to its pool of 16 bytes when it is given back, and is
    handed out as such. *)
Lemma pool_misuse :
  alloc_twice (pool_dealloc first_block (pool_dealloc first_block one_block)) = Some (first_block, first_block) /\
  pool_alloc 1000 (pool_init 4089) = None /\
  (forall m, m <> NULL -> exists ps, worker_alloc_alloc m 0 worker_alloc_init = Some (m, worker_alloc_init) /\
     worker_alloc_dealloc m 0 worker_alloc_init = (false, ps) /\ fst <$> worker_alloc_alloc NULL 16 ps = Some m).
Proof.
  split_and!; [vm_compute; reflexivity..|]. intros m Hm. eexists. split; [done|]. unfold worker_alloc_dealloc.
  destruct (Z.eqb_spec m NULL); [done|]. split; [reflexivity|]. unfold worker_alloc_alloc. simpl. unfold pool_alloc, put_block. simpl.
  destruct (Z.eqb_spec m NULL); [done|]. simpl. by rewrite lookup_insert_eq.
Qed.
