(* ===== verification/InlineCache.v ===== *)
(** * Inline caches (src/vm/ic.c, src/vm/ic.h)

    A member access in the code has a slot with a small direct-mapped cache from
    maps, identified by their addresses, to buckets.  A hit searches the bucket
    that was right when the entry was made. *)

From Stdlib Require Import ZArith Lia.
From stdpp Require Import base numbers list gmap.
From S2P Require Import Prelude Hash HashMap.
Local Open Scope Z_scope.
Local Open Scope agim_scope.

Inductive ICState := IC_UNINITIALIZED | IC_MONO | IC_POLY | IC_MEGA.
#[global] Instance ICState_eq_dec : EqDecision ICState.
Proof. solve_decision. Defined.
Definition IC_MAX_ENTRIES : Z := 8.
Definition IC_CACHE_MASK : Z := IC_MAX_ENTRIES - 1.

Record ICEntry := mkICEntry { shape_id : Z; ic_bucket : nat }.
(** [entries] has [IC_MAX_ENTRIES] elements. *)
Record InlineCache := mkIC { ic_state : ICState; ic_count : Z; entries : list ICEntry }.

Definition ic_init : InlineCache := mkIC IC_UNINITIALIZED 0 (replicate (Z.to_nat IC_MAX_ENTRIES) (mkICEntry 0 0)).
Definition ic_hash (shape : Z) : Z :=
  let h := u64 (shape * 0x9E3779B97F4A7C15) in Z.lxor (Z.shiftr h 61) (h .& (IC_MAX_ENTRIES - 1)).
(** The slot of a shape. *)
Definition ic_index (shape : Z) : nat := Z.to_nat (ic_hash shape .& IC_CACHE_MASK).
Definition ic_is_mega (ic : InlineCache) : bool := bool_decide (ic_state ic = IC_MEGA).

Section cache.
Context {A : Type}.
Implicit Types (m : Map A) (ic : InlineCache).

(** The whole chain is searched, by the key alone. *)
Definition search_chain (key : list Z) (es : list (MapEntry A)) : option A :=
  e_value <$> List.find (fun e => bool_decide (cstr (e_key e) = cstr key)) es.
(** [shape]: the address of the map. *)
Definition ic_lookup ic (shape : Z) m (key : list Z) : option A :=
  match ic_state ic with
  | IC_MEGA | IC_UNINITIALIZED => None
  | _ =>
      e ← entries ic !! ic_index shape;
      if negb (shape_id e =? shape) then None
      else if negb (ic_bucket e <? capacity m)%nat then None
      else search_chain key (chain m (ic_bucket e))
  end.

Definition ic_update ic (shape : Z) (bucket : nat) : InlineCache :=
  match ic_state ic with
  | IC_MEGA => ic
  | _ =>
      let idx := ic_index shape in
      if shape_id (default (mkICEntry 0 0) (entries ic !! idx)) =? shape
      then mkIC (ic_state ic) (ic_count ic) (<[idx := mkICEntry shape bucket]> (entries ic))
      else
        let count := u8 (ic_count ic + 1) in
        if count =? 1 then mkIC IC_MONO count (<[idx := mkICEntry shape bucket]> (entries ic))
        else if count <=? IC_MAX_ENTRIES then mkIC IC_POLY count (<[idx := mkICEntry shape bucket]> (entries ic))
        else mkIC IC_MEGA count (entries ic)
  end.

(** The lookup of [OP_MAP_GET_IC] in a map; [slots] are the caches of the chunk. *)
Definition map_get_ic (slots : list InlineCache) (slot : nat) (shape : Z) m (key : list Z) : option A * list InlineCache :=
  match slots !! slot with
  | None => (map_get m key, slots)
  | Some ic =>
      match ic_lookup ic shape m key with
      | Some v => (Some v, slots)
      | None =>
          let bucket := bucket_index (agim_hash_string key (strlen key)) (capacity m) in
          let result := map_get m key in
          (result, match result with Some _ => <[slot := ic_update ic shape bucket]> slots | None => slots end)
      end
  end.

(** ** A hit is right, whatever the cache holds *)

Lemma search_chain_right m i key v : map_wf m -> is_cstr key -> search_chain key (chain m i) = Some v -> to_gmap m !! key = Some v.
Proof.
  intros Hwf Hk H. unfold search_chain in H. apply fmap_Some in H as (e & He & ->). apply List.find_some in He as [Hin He].
  apply bool_decide_eq_true in He. rewrite <- list_elem_of_In in Hin. destruct (chain_entries m i e Hwf Hin) as [Hin' [Hc _]].
  rewrite !is_cstr_cstr in He by done. apply contents_lookup; [apply Hwf|]. eauto.
Qed.
Lemma ic_lookup_right ic shape m key v : map_wf m -> is_cstr key -> ic_lookup ic shape m key = Some v -> to_gmap m !! key = Some v.
Proof.
  intros Hwf Hk. unfold ic_lookup.
  destruct (ic_state ic); try done; (destruct (entries ic !! ic_index shape) as [e|]; [|done]); simpl;
    (destruct (negb _); [done|]); (destruct (negb _); [done|]); by apply search_chain_right.
Qed.

(** C25: caches only make lookups faster.  Whatever the caches of a chunk hold -
    entries made before the map was resized, for another key, or for another map
    that had the same address - a lookup through a cache returns a binding of the
    map, or what the lookup without a cache returns.  So, for keys whose chain is
    within the limit of a lookup, it returns exactly what [map_get] does. *)
Theorem map_get_ic_transparent slots slot shape m key : map_wf m -> is_cstr key ->
  (forall v, (map_get_ic slots slot shape m key).1 = Some v -> to_gmap m !! key = Some v) /\
  (forall v, map_get m key = Some v -> (map_get_ic slots slot shape m key).1 = Some v) /\
  (reachable m key -> (map_get_ic slots slot shape m key).1 = map_get m key).
Proof.
  intros Hwf Hk. destruct (map_get_refines m key Hwf Hk) as (Hs & Hr & _). unfold map_get_ic.
  destruct (slots !! slot) as [ic|]; [|done]. destruct (ic_lookup ic shape m key) as [w|] eqn:E; [|by simpl].
  pose proof (ic_lookup_right ic shape m key w Hwf Hk E) as Hw. simpl. split_and!.
  - by intros v [= <-].
  - intros v Hv%Hs. congruence.
  - intros H. by rewrite (Hr H).
Qed.
End cache.

(** ** The states of a cache *)

(** The state follows from the count, which never wraps around. *)
Definition state_of (count : Z) : ICState :=
  if count =? 0 then IC_UNINITIALIZED else if count =? 1 then IC_MONO else if count <=? IC_MAX_ENTRIES then IC_POLY else IC_MEGA.
Record ic_ok (ic : InlineCache) : Prop := {
  ic_count_ok : 0 <= ic_count ic <= IC_MAX_ENTRIES + 1;
  ic_state_ok : ic_state ic = state_of (ic_count ic);
  ic_entries_ok : length (entries ic) = Z.to_nat IC_MAX_ENTRIES
}.
Lemma ic_init_ok : ic_ok ic_init.
Proof. by split. Qed.
Lemma ic_update_ok ic shape bucket : ic_ok ic -> ic_ok (ic_update ic shape bucket).
Proof.
  intros Hok. pose proof Hok as [Hc Hs Hl]. unfold IC_MAX_ENTRIES in *.
  destruct (decide (ic_state ic = IC_MEGA)) as [E|E]; [unfold ic_update; by rewrite E|].
  assert (Hb : ic_count ic <= 8).
  { rewrite Hs in E. unfold state_of, IC_MAX_ENTRIES in E. destruct (Z.leb_spec (ic_count ic) 8); [done|].
    destruct (Z.eqb_spec (ic_count ic) 0), (Z.eqb_spec (ic_count ic) 1); [lia..|done]. }
  assert (Hu : u8 (ic_count ic + 1) = ic_count ic + 1) by (apply Z.mod_small; lia).
  set (es := <[ic_index shape := mkICEntry shape bucket]> (entries ic)). assert (Hes : length es = 8%nat) by (unfold es; by rewrite length_insert).
  assert (H1 : ic_ok (mkIC (ic_state ic) (ic_count ic) es)) by (split; cbn [ic_count ic_state entries]; [unfold IC_MAX_ENTRIES; lia|exact Hs|exact Hes]).
  assert (H2 : ic_ok (if ic_count ic + 1 =? 1 then mkIC IC_MONO (ic_count ic + 1) es
    else if ic_count ic + 1 <=? IC_MAX_ENTRIES then mkIC IC_POLY (ic_count ic + 1) es else mkIC IC_MEGA (ic_count ic + 1) (entries ic))).
  { destruct (ic_count ic + 1 =? 1) eqn:E1; [|destruct (ic_count ic + 1 <=? IC_MAX_ENTRIES) eqn:E2];
      (split; cbn [ic_count ic_state entries]; [unfold IC_MAX_ENTRIES; lia| |assumption]);
      unfold state_of; rewrite E1, ?E2; (destruct (Z.eqb_spec (ic_count ic + 1) 0); [lia|reflexivity]). }
  unfold ic_update. rewrite Hu. fold es. destruct (ic_state ic); [..|done]; (destruct (_ =? shape); [exact H1|exact H2]).
Qed.

Definition shapes_seen (ic : InlineCache) (shapes : list Z) : InlineCache := foldl (fun ic s => ic_update ic s 0) ic shapes.
Lemma shapes_seen_ok shapes ic : ic_ok ic -> ic_ok (shapes_seen ic shapes).
Proof. revert ic. induction shapes as [|s ss IH]; intros ic H; [done|]. apply IH. by apply ic_update_ok. Qed.

(** Two maps that share a slot evict each other and are counted each time: after
    nine misses the cache gives up, as if it had seen nine maps. *)
Lemma two_shapes_megamorphic : ic_index 64 = ic_index 208 /\
  ic_state (shapes_seen ic_init [64; 208; 64; 208; 64; 208; 64; 208; 64]) = IC_MEGA.
Proof. by vm_compute. Qed.

Lemma map_get_ic_transparent_witness :
  (map_get_ic [shapes_seen ic_init [64]] 0 64 sample key_a).1 = Some 1 /\ to_gmap sample !! key_a = Some 1.
Proof.
  assert (E : (map_get_ic [shapes_seen ic_init [64]] 0 64 sample key_a).1 = Some 1) by (vm_compute; reflexivity).
  split; [exact E|]. destruct (map_get_ic_transparent [shapes_seen ic_init [64]] 0 64 sample key_a) as [H _];
    [apply sample_wf|by apply is_cstr_decide|]. exact (H 1 E).
Defined.
