(* ===== verification/HotReload.v ===== *)
(** * Hot code reloading (src/runtime/hotreload.c, src/runtime/module.h)

    Modules with a chain of versions, newest first, and the blocks that run them.
    A version is a counted object: the module owns a reference to every version of
    its chain, each block to the version it runs, and callers to what they were
    given.  Versions live at addresses; reading or releasing one that was freed is
    undefined, [None].  Operations run under the locks of the code and are one step
    each.  The bytecode of a version is an address with a reference count of its
    own; running a migration is an argument. *)

From Stdlib Require Import ZArith Lia String.
From stdpp Require Import base numbers list gmap.
From S2P Require Import Prelude.
Local Open Scope Z_scope.

Definition NULL : Z := 0.

(** [migrate]: the index of the function, [SIZE_MAX] as [None]. *)
Record ModuleVersion := mkVersion {
  v_name : list Z; version : Z; code : Z; ref_count : Z; migrate : option Z; prev_version : Z
}.
Record ModuleBlock := mkModuleBlock { block_pid : Z; block_version : Z; pending_upgrade : bool }.
Record Module_ := mkModule { m_name : list Z; current : Z; old : Z; blocks : list ModuleBlock; block_count : Z }.

(** The registry with the memory its versions live in; [codes] are the reference
    counts of the bytecodes. *)
Record World := mkWorld { modules : list Module_; capacity : Z; versions : gmap Z ModuleVersion; codes : gmap Z Z }.

Definition H (A : Type) : Type := World -> option (A * World).
#[global] Instance H_ret : MRet H := fun A x w => Some (x, w).
#[global] Instance H_bind : MBind H := fun A B k m w => match m w with Some (x, w) => k x w | None => None end.

Definition set_modules (w : World) (ms : list Module_) : World := mkWorld ms (capacity w) (versions w) (codes w).
Definition set_versions (w : World) (vs : gmap Z ModuleVersion) : World := mkWorld (modules w) (capacity w) vs (codes w).
Definition read_version (v : Z) : H ModuleVersion := fun w => x ← versions w !! v; Some (x, w).
Definition write_version (v : Z) (x : ModuleVersion) : H unit := fun w => Some (tt, set_versions w (<[v := x]> (versions w))).
Definition drop_version (v : Z) : H unit := fun w => Some (tt, set_versions w (delete v (versions w))).
(** Enough fuel for a chain: one more than there are versions. *)
Definition chain_fuel : H nat := fun w => Some (S (size (versions w)), w).
Definition with_refs (x : ModuleVersion) (n : Z) : ModuleVersion :=
  mkVersion (v_name x) (version x) (code x) n (migrate x) (prev_version x).

(** *** Bytecode: a 32-bit count; the last release frees it *)

Definition bytecode_retain (c : Z) : H unit := fun w =>
  if c =? NULL then Some (tt, w)
  else n ← codes w !! c; Some (tt, mkWorld (modules w) (capacity w) (versions w) (<[c := u32 (n + 1)]> (codes w))).
Definition bytecode_release (c : Z) : H unit := fun w =>
  if c =? NULL then Some (tt, w)
  else n ← codes w !! c;
       Some (tt, mkWorld (modules w) (capacity w) (versions w) (if n =? 1 then delete c (codes w) else <[c := u32 (n - 1)]> (codes w))).

(** ** Versions *)

(** [addr]: what [calloc] gives. *)
Definition module_version_new (addr : Z) (name : list Z) (c : Z) (ver : Z) (mig : option Z) (prev : Z) : H Z :=
  if addr =? NULL then mret NULL
  else bytecode_retain c ;; write_version addr (mkVersion name ver c 1 mig prev) ;; mret addr.
Definition module_version_free (v : Z) : H unit :=
  x ← read_version v; bytecode_release (code x) ;; drop_version v.
Definition module_version_retain (v : Z) : H unit :=
  if v =? NULL then mret tt else x ← read_version v; write_version v (with_refs x (u64 (ref_count x + 1))).
Definition module_version_release (v : Z) : H unit :=
  if v =? NULL then mret tt
  else x ← read_version v; write_version v (with_refs x (u64 (ref_count x - 1))) ;;
       if ref_count x =? 1 then module_version_free v else mret tt.
Definition module_version_has_migrate (x : ModuleVersion) : bool := bool_decide (is_Some (migrate x)).

(** ** The registry *)

Definition module_registry_new : World := mkWorld [] 0 empty empty.

Fixpoint find_module (name : list Z) (ms : list Module_) : option nat :=
  match ms with [] => None | m :: ms => if bool_decide (m_name m = name) then Some 0%nat else S <$> find_module name ms end.
Definition registry_find (name : list Z) : H (option nat) := fun w => Some (find_module name (modules w), w).
Definition get_module (i : nat) : H Module_ := fun w => m ← modules w !! i; Some (m, w).
Definition put_module (i : nat) (m : Module_) : H unit := fun w => Some (tt, set_modules w (<[i := m]> (modules w))).

Definition update_modules (f : list Module_ -> list Module_) : H unit := fun w => Some (tt, set_modules w (f (modules w))).

Definition add_module (grow_ok : bool) (name : list Z) : H (option nat) := fun w =>
  let n := Z.of_nat (length (modules w)) in
  if (capacity w <=? n) && negb grow_ok then Some (None, w)
  else
    let cap := if capacity w <=? n then (if capacity w =? 0 then 8 else capacity w * 2) else capacity w in
    Some (Some (length (modules w)), mkWorld (modules w ++ [mkModule name NULL NULL [] 0]) cap (versions w) (codes w)).
(** The module, made if needed; [None] when its allocations fail. *)
Definition module_of (new_ok grow_ok : bool) (name : list Z) : H (option nat) :=
  found ← registry_find name;
  match found with
  | Some i => mret (Some i)
  | None => if negb new_ok then mret None else add_module grow_ok name
  end.

Definition is_migrate : list Z := [109; 105; 103; 114; 97; 116; 101].
(** The index of the first tool called [migrate]. *)
Fixpoint migrate_index (tools : list (list Z * Z)) : option Z :=
  match tools with [] => None | (n, i) :: ts => if bool_decide (n = is_migrate) then Some i else migrate_index ts end.

Definition module_load (new_ok grow_ok : bool) (addr : Z) (name : list Z) (c : Z) (tools : list (list Z * Z)) : H Z :=
  if c =? NULL then mret NULL else
  found ← module_of new_ok grow_ok name;
  match found with
  | None => mret NULL
  | Some i =>
      m ← get_module i;
      ver ← (if current m =? NULL then mret 1 else x ← read_version (current m); mret (u32 (version x + 1)));
      v ← module_version_new addr name c ver (migrate_index tools) (current m);
      if v =? NULL then mret NULL
      else put_module i (mkModule (m_name m) v (if current m =? NULL then old m else current m) (blocks m) (block_count m)) ;; mret v
  end.

Definition module_get (name : list Z) : H Z :=
  found ← registry_find name;
  match found with
  | None => mret NULL
  | Some i => m ← get_module i; module_version_retain (current m) ;; mret (current m)
  end.

(** The first version with a number, along the chain from [v]; the fuel bounds its
    length. *)
Fixpoint find_version (fuel : nat) (v ver : Z) : H Z :=
  match fuel with
  | O => fun _ => None
  | S fuel =>
      if v =? NULL then mret NULL
      else x ← read_version v; if version x =? ver then mret v else find_version fuel (prev_version x) ver
  end.
Definition module_get_version (name : list Z) (ver : Z) : H Z :=
  found ← registry_find name;
  match found with
  | None => mret NULL
  | Some i =>
      m ← get_module i;
      is_current ← (if current m =? NULL then mret false else x ← read_version (current m); mret (version x =? ver));
      v ← (if is_current : bool then mret (current m) else n ← chain_fuel; find_version n (old m) ver);
      module_version_retain v ;; mret v
  end.

(** Releasing a chain: the link is read before the release. *)
Fixpoint release_chain (fuel : nat) (v : Z) : H unit :=
  match fuel with
  | O => fun _ => None
  | S fuel => if v =? NULL then mret tt else x ← read_version v; module_version_release v ;; release_chain fuel (prev_version x)
  end.
Definition module_free (m : Module_) : H unit :=
  module_version_release (current m) ;; n ← chain_fuel; release_chain n (old m).

(** The last module takes the place of the removed one. *)
Definition remove_at {A} (i : nat) (ms : list A) : list A :=
  match ms !! (length ms - 1)%nat with Some l => take (length ms - 1) (<[i := l]> ms) | None => ms end.
Definition module_unload (name : list Z) : H bool :=
  found ← registry_find name;
  match found with
  | None => mret false
  | Some i =>
      m ← get_module i;
      if 0 <? block_count m then mret false
      else update_modules (remove_at i) ;; module_free m ;; mret true
  end.
Fixpoint free_modules (ms : list Module_) : H unit := match ms with [] => mret tt | m :: ms => module_free m ;; free_modules ms end.
Definition module_registry_free : H unit := fun w => (free_modules (modules w) ;; update_modules (fun _ => [])) w.

(** ** Blocks and upgrades *)

(** An operation on a module that exists. *)
Definition on_module {A} (dflt : A) (name : list Z) (f : nat -> Module_ -> H A) : H A :=
  found ← registry_find name; match found with None => mret dflt | Some i => m ← get_module i; f i m end.
Definition set_blocks (m : Module_) (bs : list ModuleBlock) (n : Z) : Module_ := mkModule (m_name m) (current m) (old m) bs n.
Definition mark_pending (b : ModuleBlock) : ModuleBlock := mkModuleBlock (block_pid b) (block_version b) true.
Fixpoint find_block (pid : Z) (bs : list ModuleBlock) : option nat :=
  match bs with [] => None | b :: bs => if block_pid b =? pid then Some 0%nat else S <$> find_block pid bs end.

(** Of the configuration only [require_migrate] is looked at. *)
Definition module_trigger_upgrade (require_migrate : bool) (name : list Z) : H bool :=
  on_module false name (fun i m =>
    refused ← (if require_migrate && negb (current m =? NULL)
               then x ← read_version (current m); mret (negb (module_version_has_migrate x)) else mret false);
    if refused : bool then mret false
    else put_module i (set_blocks m (mark_pending <$> blocks m) (block_count m)) ;; mret true).

Definition module_register_block (alloc_ok : bool) (name : list Z) (pid : Z) : H bool :=
  on_module false name (fun i m =>
    if bool_decide (is_Some (find_block pid (blocks m))) then mret true
    else if negb alloc_ok then mret false
    else put_module i (set_blocks m (mkModuleBlock pid (current m) false :: blocks m) (block_count m + 1)) ;;
         module_version_retain (current m) ;; mret true).

Definition module_unregister_block (name : list Z) (pid : Z) : H unit :=
  on_module tt name (fun i m =>
    match find_block pid (blocks m) with
    | None => mret tt
    | Some j =>
        put_module i (set_blocks m (delete j (blocks m)) (block_count m - 1)) ;;
        module_version_release (default NULL (block_version <$> blocks m !! j))
    end).

Definition module_has_pending_upgrade (name : list Z) (pid : Z) : H bool :=
  on_module false name (fun i m =>
    mret (match find_block pid (blocks m) with Some j => default false (pending_upgrade <$> blocks m !! j) | None => false end)).

(** [run_migrate code state version] is what the migration makes of the state. *)
Section migration.
Context {S : Type} (run_migrate : Z -> S -> Z -> S).
Definition module_version_migrate (x : ModuleVersion) (old_state : S) (from_version : Z) : S :=
  if negb (module_version_has_migrate x) || (code x =? NULL) then old_state else run_migrate (code x) old_state from_version.

(** The new state, when there was something to upgrade. *)
Definition module_apply_upgrade (name : list Z) (pid : Z) (old_state : S) : H (option S) :=
  on_module None name (fun i m =>
    match find_block pid (blocks m) ≫= fun j => pair j <$> blocks m !! j with
    | None => mret None
    | Some (j, mb) =>
        if negb (pending_upgrade mb) then mret None
        else
          let old_ver := block_version mb in let new_ver := current m in
          if (new_ver =? NULL) || (old_ver =? new_ver)
          then put_module i (set_blocks m (<[j := mkModuleBlock pid old_ver false]> (blocks m)) (block_count m)) ;; mret None
          else
            from ← (if old_ver =? NULL then mret 0 else x ← read_version old_ver; mret (version x));
            x ← read_version new_ver;
            module_version_release old_ver ;;
            module_version_retain new_ver ;;
            put_module i (set_blocks m (<[j := mkModuleBlock pid new_ver false]> (blocks m)) (block_count m)) ;;
            mret (Some (module_version_migrate x old_state from))
    end).
End migration.

Definition module_rollback (name : list Z) : H bool :=
  on_module false name (fun i m =>
    if current m =? NULL then mret false
    else
      x ← read_version (current m);
      if prev_version x =? NULL then mret false
      else put_module i (mkModule (m_name m) (prev_version x) (current m) (mark_pending <$> blocks m) (block_count m)) ;; mret true).

(** ** Lists of references *)

Lemma concat_perm {A} (l l' : list (list A)) : l ≡ₚ l' -> concat l ≡ₚ concat l'.
Proof.
  induction 1; simpl; [done|by apply Permutation_app_head| |by etrans].
  rewrite !app_assoc. apply Permutation_app_tail, Permutation_app_comm.
Qed.
Lemma concat_replace {A} (l : list (list A)) i a : l !! i = Some a -> exists r, concat l ≡ₚ a ++ r /\ forall b, concat (<[i := b]> l) ≡ₚ b ++ r.
Proof.
  intros Hl. exists (concat (take i l ++ drop (S i) l)). split.
  - rewrite <- (take_drop_middle l i a Hl) at 1. rewrite (concat_perm _ (a :: take i l ++ drop (S i) l)); [done|symmetry; apply Permutation_middle].
  - intros b. rewrite insert_take_drop by (by eapply lookup_lt_Some).
    rewrite (concat_perm _ (b :: take i l ++ drop (S i) l)); [done|symmetry; apply Permutation_middle].
Qed.
Lemma insert_perm {A} (l : list A) i a b : l !! i = Some a -> exists r, l ≡ₚ a :: r /\ <[i := b]> l ≡ₚ b :: r.
Proof.
  intros Hi. exists (take i l ++ drop (S i) l). split.
  - rewrite <- (take_drop_middle l i a Hi) at 1. symmetry. apply Permutation_middle.
  - rewrite insert_take_drop by (by eapply lookup_lt_Some). symmetry. apply Permutation_middle.
Qed.
Lemma remove_at_perm {A} (l : list A) i a : l !! i = Some a -> l ≡ₚ a :: remove_at i l.
Proof.
  intros Hi. destruct l as [|x l _] using rev_ind; [done|]. unfold remove_at. rewrite length_app, Nat.add_sub. simpl.
  rewrite lookup_app_r, Nat.sub_diag by lia. simpl. destruct (decide (i = length l)) as [->|Hne].
  - rewrite lookup_app_r, Nat.sub_diag in Hi by lia. injection Hi as ->. rewrite insert_app_r_alt, Nat.sub_diag by lia. simpl.
    rewrite take_app_length. symmetry. apply Permutation_cons_append.
  - assert (i < length l)%nat. { apply lookup_lt_Some in Hi. rewrite length_app in Hi. simpl in Hi. lia. }
    rewrite insert_app_l by done. rewrite <- (length_insert l i x), take_app_length. rewrite lookup_app_l in Hi by done.
    destruct (insert_perm l i a x Hi) as (r & H1 & H2). rewrite H2, H1, <- Permutation_cons_append. apply Permutation_swap.
Qed.
Lemma Forall2_remove_at {A B} (P : A -> B -> Prop) l k i : Forall2 P l k -> Forall2 P (remove_at i l) (remove_at i k).
Proof.
  intros HF. pose proof (Forall2_length _ _ _ HF) as Hl. unfold remove_at. rewrite Hl.
  destruct (l !! (length k - 1)%nat) as [x|] eqn:E.
  - destruct (Forall2_lookup_l _ _ _ _ _ HF E) as (y & -> & Hxy). by apply Forall2_take, Forall2_insert.
  - apply lookup_ge_None in E. rewrite lookup_ge_None_2 by lia. done.
Qed.

Definition count (l : list Z) (v : Z) : Z := Z.of_nat (count_occ Z.eq_dec l v).
Lemma count_cons l v x : count (x :: l) v = (if decide (x = v) then 1 else 0) + count l v.
Proof. unfold count. simpl. destruct (Z.eq_dec x v), (decide (x = v)); (done || lia). Qed.
Lemma count_perm l l' v : l ≡ₚ l' -> count l v = count l' v.
Proof. intros H. unfold count. f_equal. by apply Permutation_count_occ. Qed.
Lemma count_pos l v : v ∈ l <-> 0 < count l v.
Proof. unfold count. rewrite list_elem_of_In, (count_occ_In Z.eq_dec). lia. Qed.
Lemma count_bound l v : 0 <= count l v <= Z.of_nat (length l).
Proof. unfold count. pose proof (count_occ_bound Z.eq_dec v l). lia. Qed.

(** ** Reference counts *)

(** [refs] are all the references there are; the null pointer does not count. *)
Definition few (l : list Z) : Prop := Z.of_nat (length l) < 2 ^ 32 - 1.
Record refs_ok (vs : gmap Z ModuleVersion) (refs : list Z) : Prop := {
  ro_count : forall v x, vs !! v = Some x -> v <> NULL /\ ref_count x = count refs v /\ 0 < count refs v;
  ro_live : forall v, v ∈ refs -> v <> NULL -> is_Some (vs !! v)
}.
(** Each live version holds a reference to its code, other parts hold [ext]. *)
Definition code_refs (vs : gmap Z ModuleVersion) (ext : list Z) : list Z := ((fun p => code p.2) <$> map_to_list vs) ++ ext.
Definition codes_ok (vs : gmap Z ModuleVersion) (cs : gmap Z Z) (ext : list Z) : Prop :=
  few (code_refs vs ext) /\ forall c, c <> NULL -> 0 < count (code_refs vs ext) c -> cs !! c = Some (count (code_refs vs ext) c).

Lemma refs_perm vs l l' : l ≡ₚ l' -> refs_ok vs l -> refs_ok vs l'.
Proof.
  intros Hp [H1 H2]. split.
  - intros v x Hv. rewrite <- !(count_perm _ _ _ Hp). by apply H1.
  - intros v Hv. apply H2. by rewrite Hp.
Qed.

Lemma refs_null vs refs : refs_ok vs (NULL :: refs) <-> refs_ok vs refs.
Proof.
  assert (E : forall v, v <> NULL -> count (NULL :: refs) v = count refs v).
  { intros v Hv. rewrite count_cons. destruct (decide (NULL = v)); [congruence|lia]. }
  split; intros [H1 H2]; split.
  - intros v x Hv. destruct (H1 v x Hv) as (? & ? & ?). rewrite E in * by done. done.
  - intros v Hv. apply H2. by right.
  - intros v x Hv. destruct (H1 v x Hv) as (? & ? & ?). by rewrite E.
  - intros v Hv Hn. apply H2; [|done]. by apply elem_of_cons in Hv as [->|Hv].
Qed.

Lemma code_refs_same vs v x x' ext : vs !! v = Some x -> code x' = code x -> code_refs (<[v := x']> vs) ext ≡ₚ code_refs vs ext.
Proof.
  intros Hv Hc. unfold code_refs. apply Permutation_app_tail. rewrite <- (map_to_list_delete vs v x Hv).
  rewrite <- (map_to_list_delete (<[v := x']> vs) v x') by apply lookup_insert_eq. rewrite delete_insert_eq. simpl. by rewrite Hc.
Qed.
Lemma code_refs_delete vs v x ext : vs !! v = Some x -> code_refs vs ext ≡ₚ code x :: code_refs (delete v vs) ext.
Proof. intros Hv. unfold code_refs. by rewrite <- (map_to_list_delete vs v x Hv). Qed.
Lemma code_refs_insert vs v x ext : vs !! v = None -> code_refs (<[v := x]> vs) ext ≡ₚ code x :: code_refs vs ext.
Proof. intros Hv. unfold code_refs. by rewrite (map_to_list_insert vs v x Hv). Qed.
Lemma codes_perm vs vs' cs ext : code_refs vs' ext ≡ₚ code_refs vs ext -> codes_ok vs cs ext -> codes_ok vs' cs ext.
Proof.
  intros Hp [Hf H]. split; [unfold few; by rewrite Hp|]. intros c Hc. rewrite (count_perm _ _ c Hp). by apply H.
Qed.

(** The links of the versions in [l] are as before. *)
Definition links_kept (vs vs' : gmap Z ModuleVersion) (l : list Z) : Prop :=
  forall v x, v ∈ l -> vs !! v = Some x -> exists x', vs' !! v = Some x' /\ prev_version x' = prev_version x.

(** What an operation on references leaves alone and keeps right. *)
Record rerefers (w w' : World) (refs' ext : list Z) : Prop := {
  rr_modules : modules w' = modules w;
  rr_refs : refs_ok (versions w') refs';
  rr_codes : codes_ok (versions w') (codes w') ext;
  rr_links : links_kept (versions w) (versions w') refs'
}.

Lemma links_write vs v x n l : vs !! v = Some x -> links_kept vs (<[v := with_refs x n]> vs) l.
Proof.
  intros Hx u y _ Hu. destruct (decide (v = u)) as [->|Hne]; [|exists y; by rewrite lookup_insert_ne].
  exists (with_refs x n). rewrite lookup_insert_eq. split; [done|]. by simplify_eq.
Qed.

Lemma retain_ok w v refs ext : refs_ok (versions w) refs -> codes_ok (versions w) (codes w) ext -> few refs -> (v <> NULL -> v ∈ refs) ->
  exists w', module_version_retain v w = Some (tt, w') /\ rerefers w w' (v :: refs) ext.
Proof.
  intros Hr Hc Hf Hv. unfold module_version_retain. destruct (Z.eqb_spec v NULL) as [->|Hn].
  - exists w. split; [done|]. split; [done|by apply refs_null|done|]. intros u x _ Hu. eauto.
  - pose proof Hr as [Hr1 Hr2]. destruct (Hr2 v (Hv Hn) Hn) as [x Hx]. destruct (Hr1 v x Hx) as (_ & Hcnt & Hpos). unfold read_version, mbind, H_bind.
    rewrite Hx. simpl. eexists. split; [done|]. split; [done| | |by apply links_write]; simpl.
    + split.
      * intros u y Hu. rewrite count_cons. destruct (decide (v = u)) as [->|Hne].
        -- rewrite lookup_insert_eq in Hu. injection Hu as <-. simpl. rewrite Hcnt. pose proof (count_bound refs u). unfold few in Hf.
           split_and!; [done| |lia]. rewrite u64_small; [lia|unfold is_u64; lia].
        -- rewrite lookup_insert_ne in Hu by done. destruct (Hr1 u y Hu) as (? & ? & ?). split_and!; [done|lia|lia].
      * intros u Hu Hun. destruct (decide (v = u)) as [->|Hne]; [rewrite lookup_insert_eq; eauto|]. rewrite lookup_insert_ne by done.
        apply Hr2; [|done]. by apply elem_of_cons in Hu as [->|Hu].
    + by eapply codes_perm; [eapply code_refs_same|].
Qed.

(** The count of the code goes down with the version. *)
Lemma bytecode_release_ok w vs v x ext : vs !! v = Some x -> codes_ok vs (codes w) ext ->
  exists cs, bytecode_release (code x) w = Some (tt, mkWorld (modules w) (capacity w) (versions w) cs) /\ codes_ok (delete v vs) cs ext.
Proof.
  intros Hx [Hf Hc]. pose proof (code_refs_delete vs v x ext Hx) as Hp. unfold bytecode_release.
  assert (Hf' : few (code_refs (delete v vs) ext)) by (unfold few in *; rewrite Hp in Hf; simpl in Hf; lia).
  assert (Hcnt : forall c, count (code_refs vs ext) c = (if decide (code x = c) then 1 else 0) + count (code_refs (delete v vs) ext) c)
    by (intros c; rewrite (count_perm _ _ c Hp); apply count_cons).
  pose proof (count_bound (code_refs (delete v vs) ext)) as Hb.
  destruct (Z.eqb_spec (code x) NULL) as [E|E].
  - exists (codes w). destruct w. split; [done|]. split; [done|]. intros c Hcn H0. specialize (Hc c Hcn). rewrite (Hcnt c) in Hc.
    destruct (decide (code x = c)); [congruence|]. by apply Hc.
  - specialize (Hb (code x)) as Hbx. rewrite (Hc _ E) by (rewrite Hcnt; destruct (decide _); [lia|done]). simpl. eexists. split; [done|].
    split; [done|]. intros c Hcn H0. specialize (Hc c Hcn). rewrite (Hcnt c) in Hc. rewrite (Hcnt (code x)).
    destruct (decide (code x = code x)) as [_|]; [|done]. destruct (decide (code x = c)) as [<-|Hne].
    + destruct (Z.eqb_spec (1 + count (code_refs (delete v vs) ext) (code x)) 1); [lia|]. rewrite lookup_insert_eq. f_equal.
      unfold u32, wrap. rewrite Z.mod_small; [lia|]. unfold few in Hf'. lia.
    + destruct (_ =? 1); [rewrite lookup_delete_ne by done|rewrite lookup_insert_ne by done]; by apply Hc.
Qed.

Lemma release_ok w v refs ext : refs_ok (versions w) (v :: refs) -> codes_ok (versions w) (codes w) ext -> few refs ->
  exists w', module_version_release v w = Some (tt, w') /\ rerefers w w' refs ext.
Proof.
  intros Hr Hc Hf. unfold module_version_release. destruct (Z.eqb_spec v NULL) as [->|Hn].
  { exists w. split; [done|]. split; [done|by apply refs_null|done|]. intros u x _ Hu. eauto. }
  pose proof Hr as [Hr1 Hr2]. destruct (Hr2 v ltac:(by left) Hn) as [x Hx]. destruct (Hr1 v x Hx) as (_ & Hcnt & _). rewrite count_cons in Hcnt.
  destruct (decide (v = v)) as [_|]; [|done]. pose proof (count_bound refs v) as Hb. unfold read_version, mbind, H_bind. rewrite Hx. simpl.
  set (w1 := set_versions w _). assert (Hx1 : versions w1 !! v = Some (with_refs x (u64 (ref_count x - 1)))) by apply lookup_insert_eq.
  assert (Hother : forall u y, u <> v -> versions w !! u = Some y -> u <> NULL /\ ref_count y = count refs u /\ 0 < count refs u).
  { intros u y Hu Hy. destruct (Hr1 u y Hy) as (? & ? & ?). rewrite count_cons in *. destruct (decide (v = u)); [congruence|]. done. }
  assert (Hc1 : codes_ok (versions w1) (codes w1) ext) by (by eapply codes_perm; [eapply code_refs_same|]).
  destruct (Z.eqb_spec (ref_count x) 1) as [E1|E1].
  - unfold module_version_free, read_version, mbind, H_bind. rewrite Hx1. simpl.
    destruct (bytecode_release_ok w1 _ _ _ _ Hx1 Hc1) as (cs & Er & Hcs). cbn [code with_refs] in Er. rewrite Er. unfold drop_version.
    eexists. split; [done|]. unfold w1 in *. cbn [versions codes set_versions modules] in *. rewrite delete_insert_eq in *. split; [done| |done|]; unfold set_versions; cbn [versions].
    + split; [intros u y Hu; apply lookup_delete_Some in Hu as [? Hu]; by apply Hother|]. intros u Hu Hun.
      destruct (decide (v = u)) as [->|Hne]; [apply count_pos in Hu; lia|]. rewrite lookup_delete_ne by done. apply Hr2; [by right|done].
    + intros u y Hu Hy. destruct (decide (v = u)) as [->|Hne]; [apply count_pos in Hu; lia|]. exists y. by rewrite lookup_delete_ne.
  - eexists. split; [done|]. split; [done| |done|by apply links_write]. split.
    + intros u y Hu. destruct (decide (v = u)) as [->|Hne].
      * rewrite Hx1 in Hu. injection Hu as <-. simpl. split_and!; [done| |lia]. rewrite u64_small; [lia|]. unfold few in Hf. unfold is_u64. lia.
      * simpl in Hu. rewrite lookup_insert_ne in Hu by done. by apply Hother.
    + intros u Hu Hun. simpl. destruct (decide (v = u)) as [->|Hne]; [rewrite lookup_insert_eq; eauto|]. rewrite lookup_insert_ne by done.
      apply Hr2; [by right|done].
Qed.

(** ** Chains of versions *)

Fixpoint chained (vs : gmap Z ModuleVersion) (v : Z) (cs : list Z) : Prop :=
  match cs with
  | [] => v = NULL
  | c :: cs => v = c /\ c <> NULL /\ exists x, vs !! c = Some x /\ chained vs (prev_version x) cs
  end.
Lemma chained_kept vs vs' l cs : links_kept vs vs' l -> (forall c, c ∈ cs -> c ∈ l) -> forall v, chained vs v cs -> chained vs' v cs.
Proof.
  intros Hk. induction cs as [|c cs IH]; intros Hin v Hv; [done|]. destruct Hv as (-> & Hn & x & Hx & Hc).
  destruct (Hk c x (Hin c ltac:(by left)) Hx) as (x' & Hx' & E). split_and!; [done|done|]. exists x'. split; [done|]. rewrite E.
  apply IH; [|done]. intros c' Hc'. apply Hin. by right.
Qed.
Lemma chained_null vs cs : chained vs NULL cs -> cs = [].
Proof. destruct cs; [done|]. by intros (<- & ? & _). Qed.
Lemma chained_head vs v cs : chained vs v cs -> v <> NULL -> exists cs', cs = v :: cs'.
Proof. destruct cs as [|c cs]; [done|]. intros (-> & _) _. eauto. Qed.
Lemma chained_live vs cs : forall v, chained vs v cs -> forall c, c ∈ cs -> is_Some (vs !! c).
Proof.
  induction cs as [|c cs IH]; intros v Hv c' Hc'; [by apply not_elem_of_nil in Hc'|]. destruct Hv as (_ & _ & x & Hx & Hc).
  apply elem_of_cons in Hc' as [->|Hc']; [eauto|by eapply IH].
Qed.
(** Live versions without repetition are not more than there are versions. *)
Lemma live_length (vs : gmap Z ModuleVersion) (l : list Z) : NoDup l -> (forall c, c ∈ l -> is_Some (vs !! c)) -> (length l <= size vs)%nat.
Proof.
  intros Hnd Hl. rewrite <- (size_dom vs), <- (size_list_to_set (C := gset Z) l Hnd). apply subseteq_size. intros c Hc%elem_of_list_to_set.
  by apply elem_of_dom, Hl.
Qed.

Lemma release_chain_ok cs : forall fuel w v refs ext, (length cs < fuel)%nat -> chained (versions w) v cs ->
  refs_ok (versions w) (cs ++ refs) -> codes_ok (versions w) (codes w) ext -> few (cs ++ refs) ->
  exists w', release_chain fuel v w = Some (tt, w') /\ rerefers w w' refs ext.
Proof.
  induction cs as [|c cs IH]; intros [|fuel] w v refs ext Hf Hv Hr Hc Hfew; try (simpl in Hf; lia); simpl.
  - simpl in Hv. subst v. exists w. split; [done|]. split; [done|done|done|]. intros u x _ Hu. eauto.
  - destruct Hv as (-> & Hn & x & Hx & Hch). destruct (Z.eqb_spec c NULL); [done|]. unfold read_version, mbind, H_bind. rewrite Hx. simpl.
    assert (Hfew' : few (cs ++ refs)) by (unfold few in *; simpl in Hfew; lia).
    destruct (release_ok w c (cs ++ refs) ext Hr Hc Hfew') as (w1 & -> & [M1 R1 C1 L1]).
    assert (Hch1 : chained (versions w1) (prev_version x) cs) by (eapply chained_kept; [exact L1|set_solver|done]).
    destruct (IH fuel w1 (prev_version x) refs ext ltac:(simpl in Hf; lia) Hch1 R1 C1 Hfew') as (w2 & E2 & [M2 R2 C2 L2]).
    exists w2. split; [done|]. split; [congruence|done|done|]. intros u y Hu Hy. destruct (L1 u y ltac:(set_solver) Hy) as (y1 & Hy1 & E1).
    destruct (L2 u y1 Hu Hy1) as (y2 & Hy2 & E2'). exists y2. split; [done|congruence].
Qed.

(** ** The invariant *)

Definition block_refs (m : Module_) : list Z := block_version <$> blocks m.
Record module_ok (vs : gmap Z ModuleVersion) (m : Module_) (cs : list Z) : Prop := {
  mo_chain : chained vs (current m) cs;
  mo_old : old m = default NULL (cs !! 1%nat);
  mo_count : block_count m = Z.of_nat (length (blocks m))
}.
Definition module_refs (ms : list Module_) (css : list (list Z)) : list Z := concat css ++ concat (block_refs <$> ms).

(** [css] are the chains of the modules, [held] what callers hold. *)
Record hot_ok (w : World) (css : list (list Z)) (held ext : list Z) : Prop := {
  ho_modules : Forall2 (module_ok (versions w)) (modules w) css;
  ho_refs : refs_ok (versions w) (module_refs (modules w) css ++ held);
  ho_codes : codes_ok (versions w) (codes w) ext;
  ho_nodup : NoDup (concat css)
}.

Lemma modules_kept vs vs' ms css l : Forall2 (module_ok vs) ms css -> links_kept vs vs' l -> (forall c, c ∈ concat css -> c ∈ l) ->
  Forall2 (module_ok vs') ms css.
Proof.
  intros HF Hk. induction HF as [|m cs ms css [H1 H2 H3] HF IH]; intros Hin; constructor.
  - split; [|done|done]. eapply chained_kept; [exact Hk| |done]. intros c Hc. apply Hin. simpl. apply elem_of_app. by left.
  - apply IH. intros c Hc. apply Hin. simpl. apply elem_of_app. by right.
Qed.

(** One module of the registry and the references of the others. *)
Lemma module_at vs ms css i m : Forall2 (module_ok vs) ms css -> ms !! i = Some m -> exists cs rest,
  css !! i = Some cs /\ module_ok vs m cs /\ module_refs ms css ≡ₚ (cs ++ block_refs m) ++ rest /\
  forall m' cs', module_refs (<[i := m']> ms) (<[i := cs']> css) ≡ₚ (cs' ++ block_refs m') ++ rest.
Proof.
  intros HF Hm. destruct (Forall2_lookup_l _ _ _ _ _ HF Hm) as (cs & Hcs & Hok).
  assert (Hb : (block_refs <$> ms) !! i = Some (block_refs m)) by (by rewrite list_lookup_fmap, Hm).
  destruct (concat_replace css i cs Hcs) as (r1 & P1 & Q1). destruct (concat_replace _ _ _ Hb) as (r2 & P2 & Q2). exists cs, (r1 ++ r2).
  split_and!; [done|done| |].
  - unfold module_refs. rewrite P1, P2, <- !app_assoc. apply Permutation_app_head. rewrite !app_assoc. apply Permutation_app_tail, Permutation_app_comm.
  - intros m' cs'. unfold module_refs. rewrite list_fmap_insert, Q1, Q2, <- !app_assoc. apply Permutation_app_head.
    rewrite !app_assoc. apply Permutation_app_tail, Permutation_app_comm.
Qed.

(** ** Running operations *)

(** The operation is defined and ends in a state with [P]. *)
Definition runs {A} (m : H A) (w : World) (P : A -> World -> Prop) : Prop := exists a w', m w = Some (a, w') /\ P a w'.
Lemma runs_ret {A} (a : A) w (P : A -> World -> Prop) : P a w -> runs (mret a) w P.
Proof. intros HP. by exists a, w. Qed.
Lemma runs_bind {A B} (m : H A) (k : A -> H B) w Q (P : B -> World -> Prop) :
  runs m w Q -> (forall a w', Q a w' -> runs (k a) w' P) -> runs (mbind k m) w P.
Proof. intros (a & w' & E & HQ) Hk. destruct (Hk a w' HQ) as (b & w2 & E2 & HP). exists b, w2. unfold mbind, H_bind. by rewrite E. Qed.
Lemma runs_step {A B} (m : H A) (k : A -> H B) w a w' (P : B -> World -> Prop) : m w = Some (a, w') -> runs (k a) w' P -> runs (mbind k m) w P.
Proof. intros E Hk. eapply (runs_bind _ _ _ (fun b v => b = a /\ v = w')); [by exists a, w'|]. by intros ? ? [-> ->]. Qed.
Lemma runs_weaken {A} (m : H A) w (P Q : A -> World -> Prop) : runs m w P -> (forall a w', P a w' -> Q a w') -> runs m w Q.
Proof. intros (a & w' & E & HP) HQ. exists a, w'. auto. Qed.

Lemma find_module_in name ms i : find_module name ms = Some i -> is_Some (ms !! i).
Proof.
  revert i. induction ms as [|m ms IH]; intros i; [done|]. simpl. case_bool_decide; [by intros [= <-]; eexists|].
  destruct (find_module name ms) as [j|]; [|done]. intros [= <-]. by apply IH.
Qed.
Lemma runs_on_module {A} (dflt : A) name f w (P : A -> World -> Prop) :
  P dflt w -> (forall i m, modules w !! i = Some m -> runs (f i m) w P) -> runs (on_module dflt name f) w P.
Proof.
  intros Hd Hf. unfold on_module. eapply runs_step; [done|]. destruct (find_module name (modules w)) as [i|] eqn:E; [|by apply runs_ret].
  destruct (find_module_in _ _ _ E) as [m Hm]. eapply runs_step; [unfold get_module; by rewrite Hm|]. by apply Hf.
Qed.
Lemma runs_read w v x : versions w !! v = Some x -> read_version v w = Some (x, w).
Proof. intros E. unfold read_version. by rewrite E. Qed.

(** The registry is right with [n] references at most. *)
Definition kept (held ext : list Z) (n : nat) (w : World) : Prop :=
  exists css, hot_ok w css held ext /\ (length (module_refs (modules w) css ++ held) <= n)%nat.
Definition bounded (ext : list Z) (n : nat) : Prop := Z.of_nat n + Z.of_nat (length ext) + 1 < 2 ^ 32 - 1.

Lemma kept_more held ext n n' w : kept held ext n w -> (n <= n')%nat -> kept held ext n' w.
Proof. intros (css & H1 & H2) Hn. exists css. split; [done|lia]. Qed.
Lemma bounded_few ext n (l : list Z) : bounded ext n -> (length l <= S n)%nat -> few l.
Proof. unfold bounded, few. lia. Qed.

(** A step on references, seen from the registry. *)
Lemma hot_from w w' css R held' ext : Forall2 (module_ok (versions w)) (modules w') css -> NoDup (concat css) -> refs_ok (versions w') R ->
  codes_ok (versions w') (codes w') ext -> links_kept (versions w) (versions w') R -> R ≡ₚ module_refs (modules w') css ++ held' ->
  hot_ok w' css held' ext.
Proof.
  intros HF Hnd HR HC HL HP. split; [|by eapply refs_perm|done|done]. eapply modules_kept; [exact HF|exact HL|].
  intros c Hc. rewrite HP. apply elem_of_app. left. apply elem_of_app. by left.
Qed.

(** The current version of a module is one of its references. *)
Lemma current_ref vs m cs : module_ok vs m cs -> current m <> NULL -> current m ∈ cs.
Proof. intros [Hc _ _] Hn. destruct (chained_head _ _ _ Hc Hn) as [cs' ->]. by left. Qed.
Lemma old_chain vs m cs : module_ok vs m cs -> chained vs (old m) (tail cs).
Proof.
  intros [Hc Ho _]. rewrite Ho. destruct cs as [|c [|c' cs]]; [done|done|]. simpl in *. destruct Hc as (_ & _ & x & _ & _ & Hr). done.
Qed.
Lemma module_in_refs ms css i cs c : css !! i = Some cs -> c ∈ cs -> c ∈ module_refs ms css.
Proof.
  intros Hi Hc. unfold module_refs. apply elem_of_app. left. rewrite list_elem_of_In. apply in_concat. exists cs.
  split; apply list_elem_of_In; [by eapply list_elem_of_lookup_2|done].
Qed.

Lemma runs_retain w css held ext n v : hot_ok w css held ext -> (length (module_refs (modules w) css ++ held) <= n)%nat -> bounded ext n ->
  (v <> NULL -> v ∈ module_refs (modules w) css ++ held) -> runs (module_version_retain v) w (fun _ => kept (v :: held) ext (S n)).
Proof.
  intros [HM HR HC HN] Hn Hb Hv. destruct (retain_ok w v _ ext HR HC ltac:(eapply bounded_few; [done|lia]) Hv) as (w' & E & [M1 R1 C1 L1]).
  exists tt, w'. split; [done|]. exists css. split.
  - eapply hot_from; [rewrite M1; exact HM|done|exact R1|done|exact L1|]. rewrite M1. apply Permutation_middle.
  - rewrite M1. rewrite !length_app in *. simpl. lia.
Qed.

Fixpoint drop_first (v : Z) (l : list Z) : list Z := match l with [] => [] | x :: l => if x =? v then l else x :: drop_first v l end.
Lemma drop_first_perm v l : v ∈ l -> l ≡ₚ v :: drop_first v l.
Proof.
  induction l as [|x l IH]; intros Hv; [by apply not_elem_of_nil in Hv|]. simpl. destruct (Z.eqb_spec x v) as [->|Hne]; [done|].
  rewrite IH at 1; [apply Permutation_swap|]. by apply elem_of_cons in Hv as [->|Hv].
Qed.
Lemma runs_release w held ext n v : kept held ext n w -> bounded ext n -> v ∈ held ->
  runs (module_version_release v) w (fun _ => kept (drop_first v held) ext n).
Proof.
  intros (css & [HM HR HC HN] & Hn) Hb Hv. pose proof (drop_first_perm v held Hv) as HP.
  assert (HP' : module_refs (modules w) css ++ held ≡ₚ v :: module_refs (modules w) css ++ drop_first v held)
    by (rewrite HP at 1; symmetry; apply Permutation_middle).
  destruct (release_ok w v (module_refs (modules w) css ++ drop_first v held) ext) as (w' & E & [M1 R1 C1 L1]); [by eapply refs_perm|done| |].
  { eapply bounded_few; [done|]. rewrite HP' in Hn. simpl in Hn. lia. }
  exists tt, w'. split; [done|]. exists css. rewrite M1. split.
  - eapply hot_from; [rewrite M1; exact HM|done|exact R1|done|exact L1|]. by rewrite M1.
  - rewrite HP' in Hn. simpl in Hn. lia.
Qed.

(** ** Each operation keeps the registry right *)

Section operations.
Context (ext : list Z) (n : nat) (Hb : bounded ext n).

(** Changing what a module says of its blocks, with the same references. *)
Lemma kept_put w held i m m' : kept held ext n w -> modules w !! i = Some m -> current m' = current m -> old m' = old m ->
  block_count m' = Z.of_nat (length (blocks m')) -> block_refs m' = block_refs m -> kept held ext n (set_modules w (<[i := m']> (modules w))).
Proof.
  intros (css & [HM HR HC HN] & Hn) Hm Hcur Hold Hcnt Href. destruct (module_at _ _ _ _ _ HM Hm) as (cs & rest & Hcs & [O1 O2 O3] & P1 & P2).
  specialize (P2 m' cs). rewrite (list_insert_id css) in P2 by done. rewrite Href, <- P1 in P2. exists css. simpl. split; [split|]; simpl.
  - replace css with (<[i := cs]> css) by (by apply list_insert_id). apply Forall2_insert; [done|]. split; [by rewrite Hcur|by rewrite Hold|done].
  - eapply refs_perm; [|exact HR]. by rewrite P2.
  - done.
  - done.
  - rewrite (Permutation_length (Permutation_app_tail held P2)). done.
Qed.

Lemma module_counts w held i m : kept held ext n w -> modules w !! i = Some m -> block_count m = Z.of_nat (length (blocks m)).
Proof. intros (css & [HM _ _ _] & _) Hm. by destruct (module_at _ _ _ _ _ HM Hm) as (? & ? & _ & [_ _ ?] & _). Qed.
Lemma current_live w held i m : kept held ext n w -> modules w !! i = Some m -> current m <> NULL -> is_Some (versions w !! current m).
Proof.
  intros (css & [HM HR _ _] & _) Hm Hn. destruct (module_at _ _ _ _ _ HM Hm) as (cs & rest & Hcs & Hok & _). apply (ro_live _ _ HR); [|done].
  apply elem_of_app. left. eapply module_in_refs; [done|by eapply current_ref].
Qed.
Lemma block_live w held i m j b : kept held ext n w -> modules w !! i = Some m -> blocks m !! j = Some b -> block_version b <> NULL ->
  is_Some (versions w !! block_version b).
Proof.
  intros (css & [HM HR _ _] & _) Hm Hj Hn. destruct (module_at _ _ _ _ _ HM Hm) as (cs & rest & Hcs & Hok & P1 & _). apply (ro_live _ _ HR); [|done].
  apply elem_of_app. left. rewrite P1. apply elem_of_app. left. apply elem_of_app. right. unfold block_refs. apply list_elem_of_fmap. exists b.
  split; [done|by eapply list_elem_of_lookup_2].
Qed.

Lemma mark_pending_refs m : block_version <$> (mark_pending <$> blocks m) = block_refs m.
Proof. unfold block_refs. rewrite <- list_fmap_compose. by apply list_fmap_ext. Qed.

Lemma module_get_ok name w held : kept held ext n w -> runs (module_get name) w (fun v => kept (v :: held) ext (S n)).
Proof.
  intros HK. apply runs_on_module.
  - destruct HK as (css & [HM HR HC HN] & Hn). exists css. split; [split; try done|].
    + eapply refs_perm; [apply Permutation_middle|]. by apply refs_null.
    + rewrite length_app in *. simpl. lia.
  - intros i m Hm. destruct HK as (css & HO & Hn). destruct (module_at _ _ _ _ _ (ho_modules _ _ _ _ HO) Hm) as (cs & rest & Hcs & Hok & _).
    eapply runs_bind; [eapply runs_retain; [exact HO|done|done|]|].
    + intros Hc. apply elem_of_app. left. eapply module_in_refs; [done|by eapply current_ref].
    + intros [] w' HK. by apply runs_ret.
Qed.

Lemma find_version_ok cs : forall fuel w v ver, (length cs < fuel)%nat -> chained (versions w) v cs ->
  runs (find_version fuel v ver) w (fun r w' => w' = w /\ (r <> NULL -> r ∈ cs)).
Proof.
  induction cs as [|c cs IH]; intros [|fuel] w v ver Hf Hv; try (simpl in Hf; lia); simpl.
  - simpl in Hv. subst v. by apply runs_ret.
  - destruct Hv as (-> & Hn & x & Hx & Hch). destruct (Z.eqb_spec c NULL); [done|]. eapply runs_step; [by apply runs_read|].
    destruct (version x =? ver); [apply runs_ret; split; [done|by left]|]. eapply runs_weaken; [apply IH; [simpl in Hf; lia|done]|].
    intros r w' [-> Hr]. split; [done|]. intros H0. right. by apply Hr.
Qed.
Lemma chain_nodup (css : list (list Z)) i cs : NoDup (concat css) -> css !! i = Some cs -> NoDup cs.
Proof. intros HN Hi. destruct (concat_replace css i cs Hi) as (r & P & _). rewrite P in HN. by apply NoDup_app in HN as (? & _). Qed.
Lemma tail_length w held css i cs : hot_ok w css held ext -> css !! i = Some cs -> (length (tail cs) < S (size (versions w)))%nat.
Proof.
  intros [HM HR _ HN] Hi. destruct (Forall2_lookup_r _ _ _ _ _ HM Hi) as (m & _ & [Hc _ _]).
  pose proof (chain_nodup _ _ _ HN Hi) as Hd.
  pose proof (live_length (versions w) cs Hd (chained_live _ _ _ Hc)). destruct cs; simpl in *; lia.
Qed.

Lemma module_get_version_ok name ver w held : kept held ext n w -> runs (module_get_version name ver) w (fun v => kept (v :: held) ext (S n)).
Proof.
  intros HK. apply runs_on_module.
  - destruct HK as (css & [HM HR HC HN] & Hn). exists css. split; [split; try done|].
    + eapply refs_perm; [apply Permutation_middle|]. by apply refs_null.
    + rewrite length_app in *. simpl. lia.
  - intros i m Hm. pose proof (current_live _ _ _ _ HK Hm) as Hlive. destruct HK as (css & HO & Hn).
    destruct (module_at _ _ _ _ _ (ho_modules _ _ _ _ HO) Hm) as (cs & rest & Hcs & Hok & _).
    eapply (runs_bind _ _ _ (fun _ w' => w' = w)).
    { destruct (Z.eqb_spec (current m) NULL) as [E|E]; [by apply runs_ret|]. destruct (Hlive E) as [x Hx].
      eapply runs_step; [by apply runs_read|]. by apply runs_ret. }
    intros is_current w' ->. eapply (runs_bind _ _ _ (fun r w' => w' = w /\ (r <> NULL -> r ∈ cs))).
    { destruct is_current; [apply runs_ret; split; [done|by eapply current_ref]|]. eapply runs_step; [done|].
      eapply runs_weaken; [eapply find_version_ok; [by eapply tail_length|by apply old_chain]|]. intros r w' [-> Hr].
      split; [done|]. intros H0. specialize (Hr H0). destruct cs; [done|by right]. }
    intros v w' [-> Hv]. eapply runs_bind; [eapply runs_retain; [exact HO|done|done|]|].
    + intros Hc. apply elem_of_app. left. eapply module_in_refs; [done|by apply Hv].
    + intros [] w' HK. by apply runs_ret.
Qed.

Lemma module_trigger_upgrade_ok rm name w held : kept held ext n w -> runs (module_trigger_upgrade rm name) w (fun _ => kept held ext n).
Proof.
  intros HK. apply runs_on_module; [done|]. intros i m Hm. pose proof (current_live _ _ _ _ HK Hm) as Hlive.
  eapply (runs_bind _ _ _ (fun _ w' => w' = w)).
  { destruct rm, (Z.eqb_spec (current m) NULL) as [E|E]; try (by apply runs_ret). destruct (Hlive E) as [x Hx].
    eapply runs_step; [by apply runs_read|]. by apply runs_ret. }
  intros refused w' ->. destruct refused; [by apply runs_ret|]. eapply runs_step; [done|]. apply runs_ret.
  eapply kept_put; [done|exact Hm|done|done| |apply mark_pending_refs]. simpl. rewrite length_fmap. by eapply module_counts.
Qed.

Lemma module_register_block_ok ok name pid w held : kept held ext n w -> runs (module_register_block ok name pid) w (fun _ => kept held ext (S n)).
Proof.
  intros HK. pose proof (kept_more _ _ _ (S n) _ HK ltac:(lia)) as HK'. apply runs_on_module; [done|]. intros i m Hm.
  case_bool_decide; [by apply runs_ret|]. destruct ok; [|by apply runs_ret]. simpl. eapply runs_step; [done|].
  destruct HK as (css & [HM HR HC HN] & Hn). destruct (module_at _ _ _ _ _ HM Hm) as (cs & rest & Hcs & Hok & P1 & P2).
  set (m' := set_blocks m _ _). specialize (P2 m' cs). rewrite (list_insert_id css) in P2 by done. set (w1 := set_modules w _).
  assert (P3 : module_refs (modules w1) css ++ held ≡ₚ current m :: module_refs (modules w) css ++ held).
  { change (modules w1) with (<[i := m']> (modules w)). rewrite P2, P1. unfold m', block_refs. simpl. rewrite <- Permutation_middle. done. }
  destruct (retain_ok w1 (current m) (module_refs (modules w) css ++ held) ext) as (w2 & E & [M1 R1 C1 L1]).
  - exact HR.
  - exact HC.
  - eapply bounded_few; [done|lia].
  - intros Hc. apply elem_of_app. left. eapply module_in_refs; [done|by eapply current_ref].
  - eapply runs_step; [exact E|]. apply runs_ret. exists css. rewrite M1. split; [|rewrite P3; simpl; lia].
    eapply (hot_from w1); [|done|exact R1|done|exact L1|by rewrite M1, P3]. rewrite M1.
    replace css with (<[i := cs]> css) by (by apply list_insert_id). apply Forall2_insert; [done|].
    destruct Hok as [O1 O2 O3]. split; [done|done|]. simpl. lia.
Qed.

Lemma find_block_in pid bs j : find_block pid bs = Some j -> exists b, bs !! j = Some b /\ block_pid b = pid.
Proof.
  revert j. induction bs as [|b bs IH]; intros j; [done|]. simpl. destruct (Z.eqb_spec (block_pid b) pid); [by intros [= <-]; eexists|].
  destruct (find_block pid bs) as [k|]; [|done]. intros [= <-]. by apply IH.
Qed.

Lemma module_unregister_block_ok name pid w held : kept held ext n w -> runs (module_unregister_block name pid) w (fun _ => kept held ext n).
Proof.
  intros HK. apply runs_on_module; [done|]. intros i m Hm. destruct (find_block pid (blocks m)) as [j|] eqn:Ej; [|by apply runs_ret].
  destruct (find_block_in _ _ _ Ej) as (b & Hj & _). rewrite Hj. simpl. eapply runs_step; [done|].
  destruct HK as (css & [HM HR HC HN] & Hn). destruct (module_at _ _ _ _ _ HM Hm) as (cs & rest & Hcs & Hok & P1 & P2).
  set (m' := set_blocks m _ _). specialize (P2 m' cs). rewrite (list_insert_id css) in P2 by done. set (w1 := set_modules w _).
  assert (P3 : module_refs (modules w) css ++ held ≡ₚ block_version b :: module_refs (modules w1) css ++ held).
  { change (modules w1) with (<[i := m']> (modules w)). rewrite P2, P1. unfold m', block_refs. simpl.
    rewrite (delete_Permutation (blocks m) j b Hj) at 1. simpl. rewrite <- Permutation_middle. done. }
  rewrite P3 in Hn. cbn [length] in Hn. destruct (release_ok w1 (block_version b) (module_refs (modules w1) css ++ held) ext) as (w2 & E & [M1 R1 C1 L1]).
  - by eapply refs_perm.
  - exact HC.
  - eapply bounded_few; [done|lia].
  - exists tt, w2. split; [exact E|]. exists css. rewrite M1. split; [|lia]. eapply (hot_from w1); [|done|exact R1|done|exact L1|by rewrite M1].
    rewrite M1. replace css with (<[i := cs]> css) by (by apply list_insert_id). apply Forall2_insert; [done|].
    destruct Hok as [O1 O2 O3]. split; [done|done|]. simpl. rewrite length_delete by eauto. apply lookup_lt_Some in Hj. lia.
Qed.

Lemma links_trans vs1 vs2 vs3 l l' : links_kept vs1 vs2 l -> links_kept vs2 vs3 l' -> (forall v, v ∈ l' -> v ∈ l) -> links_kept vs1 vs3 l'.
Proof.
  intros H1 H2 Hl v x Hv Hx. destruct (H1 v x (Hl v Hv) Hx) as (y & Hy & E1). destruct (H2 v y Hv Hy) as (z & Hz & E2).
  exists z. split; [done|congruence].
Qed.

Lemma module_apply_upgrade_ok {S : Type} (run_migrate : Z -> S -> Z -> S) name pid st w held :
  kept held ext n w -> runs (module_apply_upgrade run_migrate name pid st) w (fun _ => kept held ext n).
Proof.
  intros HK. apply runs_on_module; [done|]. intros i m Hm. destruct (find_block pid (blocks m)) as [j|] eqn:Ej; [|by apply runs_ret].
  destruct (find_block_in _ _ _ Ej) as (b & Hj & Hpid). simpl. rewrite Hj. simpl. destruct (pending_upgrade b); [|by apply runs_ret]. simpl.
  pose proof (module_counts _ _ _ _ HK Hm) as Hcnt.
  destruct ((current m =? NULL) || (block_version b =? current m)) eqn:E.
  { eapply runs_step; [done|]. apply runs_ret. eapply kept_put; [done|exact Hm|done|done|simpl; by rewrite length_insert|].
    unfold block_refs. simpl. rewrite list_fmap_insert. simpl. apply list_insert_id. by rewrite list_lookup_fmap, Hj. }
  apply orb_false_iff in E as [E1%Z.eqb_neq _]. eapply (runs_bind _ _ _ (fun _ w' => w' = w)).
  { destruct (Z.eqb_spec (block_version b) NULL) as [E|E]; [by apply runs_ret|]. destruct (block_live _ _ _ _ _ _ HK Hm Hj E) as [x Hx].
    eapply runs_step; [by apply runs_read|]. by apply runs_ret. }
  intros from w' ->. destruct (current_live _ _ _ _ HK Hm E1) as [x Hx]. eapply runs_step; [by apply runs_read|].
  destruct HK as (css & [HM HR HC HN] & Hn). destruct (module_at _ _ _ _ _ HM Hm) as (cs & rest & Hcs & Hok & P1 & P2).
  set (m' := set_blocks m _ _). specialize (P2 m' cs). rewrite (list_insert_id css) in P2 by done.
  assert (Hbj : block_refs m !! j = Some (block_version b)) by (unfold block_refs; by rewrite list_lookup_fmap, Hj).
  destruct (insert_perm _ _ _ (current m) Hbj) as (r & Q1 & Q2).
  assert (P3 : module_refs (modules w) css ++ held ≡ₚ block_version b :: (cs ++ r) ++ rest ++ held).
  { rewrite P1, Q1, <- (Permutation_middle cs r). simpl. by rewrite <- !app_assoc. }
  assert (P4 : current m :: (cs ++ r) ++ rest ++ held ≡ₚ module_refs (<[i := m']> (modules w)) css ++ held).
  { rewrite P2. unfold m', block_refs at 1. simpl. rewrite list_fmap_insert. simpl. fold (block_refs m). rewrite Q2, <- (Permutation_middle cs r). simpl. by rewrite <- !app_assoc. }
  rewrite P3 in Hn. cbn [length] in Hn. assert (Hin : current m ∈ (cs ++ r) ++ rest ++ held) by (pose proof (current_ref _ _ _ Hok E1); set_solver).
  destruct (release_ok w (block_version b) ((cs ++ r) ++ rest ++ held) ext) as (w1 & R1 & [M1 V1 C1 L1]);
    [by eapply refs_perm|done|eapply bounded_few; [done|lia]|]. eapply runs_step; [exact R1|].
  destruct (retain_ok w1 (current m) ((cs ++ r) ++ rest ++ held) ext V1 C1) as (w2 & R2 & [M2 V2 C2 L2]);
    [eapply bounded_few; [done|lia]|done|]. eapply runs_step; [exact R2|]. eapply runs_step; [done|]. apply runs_ret.
  exists css. simpl. rewrite M2, M1. split; [|rewrite <- P4; done].
  eapply (hot_from w); [|done|exact V2|done| |done]; simpl.
  - replace css with (<[i := cs]> css) by (by apply list_insert_id). apply Forall2_insert; [done|].
    destruct Hok as [O1 O2 O3]. split; [done|done|]. simpl. by rewrite length_insert.
  - eapply links_trans; [exact L1|exact L2|]. set_solver.
Qed.

(** Freeing a module gives up the references of its chain. *)
Lemma module_free_ok w m cs R : module_ok (versions w) m cs -> refs_ok (versions w) (cs ++ R) -> codes_ok (versions w) (codes w) ext ->
  few (cs ++ R) -> NoDup cs -> exists w', module_free m w = Some (tt, w') /\ rerefers w w' R ext.
Proof.
  intros Hok HR HC Hf Hd. pose proof (old_chain _ _ _ Hok) as Ht. destruct Hok as [Hc _ _]. unfold module_free, mbind, H_bind, chain_fuel.
  destruct cs as [|c cs].
  - simpl in Hc, Ht. rewrite Hc, Ht. simpl. exists w. split; [done|]. split; [done|done|done|]. intros u x _ Hu. eauto.
  - destruct Hc as (Hc & Hn & _). rewrite Hc. assert (Hf' : few (cs ++ R)) by (unfold few in *; simpl in Hf; lia).
    destruct (release_ok w c (cs ++ R) ext HR HC Hf') as (w1 & -> & [M1 R1 C1 L1]). simpl in Ht.
    assert (Ht1 : chained (versions w1) (old m) cs) by (eapply chained_kept; [exact L1|set_solver|done]).
    apply NoDup_cons in Hd as [_ Hd]. pose proof (live_length _ _ Hd (chained_live _ _ _ Ht1)).
    destruct (release_chain_ok cs (S (size (versions w1))) w1 (old m) R ext) as (w2 & E2 & [M2 R2 C2 L2]); [lia|done|done|done|done|].
    exists w2. split; [done|]. split; [congruence|done|done|]. eapply links_trans; [exact L1|exact L2|set_solver].
Qed.

Lemma module_unload_ok name w held : kept held ext n w -> runs (module_unload name) w (fun _ => kept held ext n).
Proof.
  intros HK. apply runs_on_module; [done|]. intros i m Hm. pose proof (module_counts _ _ _ _ HK Hm) as Hcnt.
  destruct (0 <? block_count m) eqn:Eb; [by apply runs_ret|]. apply Z.ltb_ge in Eb. assert (Hbs : block_refs m = []).
  { unfold block_refs. destruct (blocks m); [done|simpl in Hcnt; lia]. }
  destruct HK as (css & [HM HR HC HN] & Hn). destruct (Forall2_lookup_l _ _ _ _ _ HM Hm) as (cs & Hcs & Hok).
  eapply runs_step; [done|]. set (w1 := set_modules w _). pose proof (concat_perm _ _ (remove_at_perm css i cs Hcs)) as Pc. simpl in Pc.
  assert (P : module_refs (modules w) css ++ held ≡ₚ cs ++ module_refs (modules w1) (remove_at i css) ++ held).
  { unfold module_refs. rewrite Pc. simpl. rewrite (concat_perm _ _ (fmap_Permutation block_refs _ _ (remove_at_perm (modules w) i m Hm))). simpl.
    rewrite Hbs. by rewrite <- !app_assoc. }
  rewrite P in Hn. destruct (module_free_ok w1 m cs (module_refs (modules w1) (remove_at i css) ++ held)) as (w2 & E & [M1 R1 C1 L1]).
  - done.
  - by eapply refs_perm.
  - done.
  - eapply bounded_few; [done|lia].
  - by eapply chain_nodup.
  - eapply runs_step; [exact E|]. apply runs_ret. exists (remove_at i css). rewrite M1. split; [|rewrite length_app in Hn; lia].
    eapply (hot_from w1); [|rewrite Pc in HN; by apply NoDup_app in HN as (_ & _ & ?)|exact R1|done|exact L1|by rewrite M1].
    rewrite M1. by apply Forall2_remove_at.
Qed.

Lemma free_modules_ok ms : forall w css R, Forall2 (module_ok (versions w)) ms css -> NoDup (concat css) -> refs_ok (versions w) (concat css ++ R) ->
  codes_ok (versions w) (codes w) ext -> few (concat css ++ R) -> exists w', free_modules ms w = Some (tt, w') /\ rerefers w w' R ext.
Proof.
  induction ms as [|m ms IH]; intros w css R HM HN HR HC Hf.
  - apply Forall2_nil_inv_l in HM as ->. exists w. split; [done|]. split; [done|done|done|]. intros u x _ Hu. eauto.
  - apply Forall2_cons_inv_l in HM as (cs & css' & Hok & HM & ->). simpl in *. apply NoDup_app in HN as (N1 & _ & N2). rewrite <- app_assoc in HR, Hf.
    destruct (module_free_ok w m cs (concat css' ++ R) Hok HR HC Hf N1) as (w1 & E1 & [M1 R1 C1 L1]). unfold mbind, H_bind. rewrite E1.
    destruct (IH w1 css' R) as (w2 & E2 & [M2 R2 C2 L2]); [|done|done|done|unfold few in *; rewrite length_app in Hf; lia|].
    + eapply modules_kept; [exact HM|exact L1|]. intros c Hc. apply elem_of_app. by left.
    + exists w2. split; [done|]. split; [congruence|done|done|]. eapply links_trans; [exact L1|exact L2|set_solver].
Qed.

(** Without registered blocks, freeing the registry leaves what callers hold. *)
Lemma module_registry_free_ok w held : kept held ext n w -> (forall m, m ∈ modules w -> blocks m = []) ->
  runs module_registry_free w (fun _ => kept held ext n).
Proof.
  intros (css & [HM HR HC HN] & Hn) Hbs. assert (Hnil : concat (block_refs <$> modules w) = []).
  { clear - Hbs. induction (modules w) as [|m ms IH]; [done|]. simpl. unfold block_refs at 1. rewrite (Hbs m ltac:(by left)). simpl.
    apply IH. intros m' Hm'. apply Hbs. by right. }
  unfold module_refs in *. rewrite Hnil, app_nil_r in *.
  destruct (free_modules_ok (modules w) w css held HM HN HR HC ltac:(eapply bounded_few; [done|lia])) as (w1 & E & [M1 R1 C1 L1]).
  exists tt, (set_modules w1 []). split; [unfold module_registry_free, mbind, H_bind; by rewrite E|]. exists []. split.
  - split; [constructor|done|done|constructor].
  - simpl. rewrite length_app in Hn. lia.
Qed.

(** Every version is referred to, so there are not more versions than references. *)
Lemma versions_few vs refs : refs_ok vs refs -> (size vs <= length refs)%nat.
Proof.
  intros [H1 _]. rewrite <- (size_dom vs). unfold size, set_size. simpl. apply submseteq_length, NoDup_submseteq; [apply NoDup_elements|].
  intros v Hv. apply elem_of_elements, elem_of_dom in Hv as [x Hx]. apply count_pos. by apply (H1 v x).
Qed.

(** A new version of a code that somebody refers to. *)
Lemma new_version_ok w refs addr name c ver mig prev : refs_ok (versions w) refs -> codes_ok (versions w) (codes w) ext ->
  (length refs <= n)%nat -> c ∈ ext -> c <> NULL -> addr <> NULL -> versions w !! addr = None ->
  let x := mkVersion name ver c 1 mig prev in
  exists w', module_version_new addr name c ver mig prev w = Some (addr, w') /\ versions w' = <[addr := x]> (versions w) /\
  rerefers w w' (addr :: refs) ext.
Proof.
  intros HR [Hf HC] Hn Hc Hcn Ha Hfresh x. unfold module_version_new. apply Z.eqb_neq in Ha as Ha'. rewrite Ha'. unfold mbind, H_bind, bytecode_retain.
  pose proof (versions_few _ _ HR) as Hsize. assert (Hlen : length (code_refs (versions w) ext) = (size (versions w) + length ext)%nat)
    by (unfold code_refs; by rewrite length_app, length_fmap, length_map_to_list).
  assert (Hpos : 0 < count (code_refs (versions w) ext) c) by (apply count_pos, elem_of_app; by right).
  pose proof (count_bound (code_refs (versions w) ext) c) as Hcb. apply Z.eqb_neq in Hcn as Hcn'. rewrite Hcn', (HC c Hcn Hpos). simpl.
  eexists. split_and!; [done|done|]. pose proof (code_refs_insert (versions w) addr x ext Hfresh) as Pc.
  assert (Hnot : addr ∉ refs) by (intros Hin; destruct (ro_live _ _ HR addr Hin Ha); congruence). split; simpl; [done| | |].
  - destruct HR as [H1 H2]. split.
    + intros v y Hv. rewrite count_cons. destruct (decide (addr = v)) as [<-|Hne].
      * rewrite lookup_insert_eq in Hv. injection Hv as <-. assert (count refs addr = 0) as ->.
        { rewrite count_pos in Hnot. pose proof (count_bound refs addr). lia. } done.
      * rewrite lookup_insert_ne in Hv by done. by apply H1.
    + intros v Hv Hvn. destruct (decide (addr = v)) as [<-|Hne]; [rewrite lookup_insert_eq; eauto|]. rewrite lookup_insert_ne by done.
      apply H2; [|done]. by apply elem_of_cons in Hv as [->|Hv].
  - fold x. split; [unfold few in *; rewrite Pc; simpl; unfold bounded in Hb; lia|]. intros c' Hc' H0. rewrite (count_perm _ _ c' Pc) in *.
    rewrite count_cons in *. simpl in *. destruct (decide (c = c')) as [<-|Hne]; [|rewrite lookup_insert_ne by done; by apply HC].
    rewrite lookup_insert_eq. f_equal. unfold u32, wrap. rewrite Z.mod_small; [lia|]. unfold bounded in Hb. lia.
  - intros v y Hv Hy. exists y. rewrite lookup_insert_ne; [done|congruence].
Qed.

Lemma module_of_ok new_ok grow_ok name w held : kept held ext n w -> runs (module_of new_ok grow_ok name) w (fun r w' =>
  kept held ext n w' /\ versions w' = versions w /\ forall i, r = Some i -> is_Some (modules w' !! i)).
Proof.
  intros HK. unfold module_of. eapply runs_step; [done|]. destruct (find_module name (modules w)) as [i|] eqn:E.
  { apply runs_ret. split_and!; [done|done|]. intros ? [= <-]. by eapply find_module_in. }
  destruct new_ok; [|by apply runs_ret]. simpl. unfold add_module, runs. destruct (_ && _); [by exists None, w|].
  eexists _, _. split; [done|]. simpl. split_and!; [|done|intros ? [= <-]; by rewrite lookup_app_r, Nat.sub_diag by lia].
  destruct HK as (css & [HM HR HC HN] & Hn). exists (css ++ [[]]).
  assert (E1 : module_refs (modules w ++ [mkModule name NULL NULL [] 0]) (css ++ [[]]) = module_refs (modules w) css)
    by (unfold module_refs; rewrite fmap_app, !concat_app; simpl; by rewrite !app_nil_r).
  simpl. rewrite E1. split; [|done]. split; simpl; [|by rewrite E1|done|rewrite concat_app; simpl; by rewrite app_nil_r].
  apply Forall2_app; [done|]. by constructor.
Qed.

Lemma module_load_ok new_ok grow_ok addr name c tools w held : kept held ext n w -> c ∈ ext -> (addr <> NULL -> versions w !! addr = None) ->
  runs (module_load new_ok grow_ok addr name c tools) w (fun _ => kept held ext (S n)).
Proof.
  intros HK Hc Hfresh. unfold module_load. assert (HS : forall w', kept held ext n w' -> kept held ext (S n) w') by (intros w' H'; eapply kept_more; [done|lia]).
  destruct (Z.eqb_spec c NULL) as [|Hcn]; [by apply runs_ret, HS|]. eapply runs_bind; [by apply module_of_ok|]. clear HK.
  intros [i|] w1 (HK & Hvs & Hin); [|by apply runs_ret, HS]. destruct (Hin i eq_refl) as [m Hm]. rewrite <- Hvs in Hfresh. clear Hin Hvs w.
  eapply runs_step; [unfold get_module; by rewrite Hm|]. eapply (runs_bind _ _ _ (fun _ w' => w' = w1)).
  { destruct (Z.eqb_spec (current m) NULL) as [E|E]; [by apply runs_ret|]. destruct (current_live _ _ _ _ HK Hm E) as [x Hx].
    eapply runs_step; [by apply runs_read|]. by apply runs_ret. }
  intros ver w' ->. destruct (Z.eqb_spec addr NULL) as [->|Ha]; [eapply runs_step; [done|]; by apply runs_ret, HS|]. specialize (Hfresh Ha).
  destruct HK as (css & [HM HR HC HN] & Hn). destruct (module_at _ _ _ _ _ HM Hm) as (cs & rest & Hcs & Hok & P1 & P2).
  destruct (new_version_ok w1 _ addr name c ver (migrate_index tools) (current m) HR HC Hn Hc Hcn Ha Hfresh) as (w2 & E & Hv2 & [M1 R1 C1 L1]).
  eapply runs_step; [exact E|]. apply Z.eqb_neq in Ha as Ha'. rewrite Ha'. eapply runs_step; [done|]. apply runs_ret. set (m' := mkModule _ _ _ _ _).
  specialize (P2 m' (addr :: cs)). change (block_refs m') with (block_refs m) in P2. simpl in P2. rewrite <- P1 in P2.
  exists (<[i := addr :: cs]> css). simpl. rewrite M1.
  assert (HM2 : Forall2 (module_ok (versions w2)) (modules w1) css).
  { eapply modules_kept; [exact HM|exact L1|]. intros c' Hc'. right. apply elem_of_app. left. apply elem_of_app. by left. }
  split; [split; simpl|].
  - apply Forall2_insert; [done|]. destruct (Forall2_lookup_l _ _ _ _ _ HM2 Hm) as (cs' & Hcs' & [O1 O2 O3]). replace cs' with cs in * by congruence.
    split; [|simpl|done].
    + simpl. split_and!; [done|done|]. rewrite Hv2, lookup_insert_eq. eexists. split; [done|]. simpl. by rewrite Hv2 in O1.
    + destruct (Z.eqb_spec (current m) NULL) as [E0|E0]; [rewrite E0 in O1; apply chained_null in O1; by subst cs|].
      by destruct (chained_head _ _ _ O1 E0) as [cs'' ->].
  - eapply refs_perm; [|exact R1]. by rewrite P2.
  - done.
  - destruct (concat_replace css i cs Hcs) as (r & Q1 & Q2). rewrite Q2. simpl. rewrite <- Q1. apply NoDup_cons. split; [|done].
    intros Hin. destruct (ro_live _ _ HR addr) as [x Hx]; [|done|congruence]. apply elem_of_app. left. apply elem_of_app. by left.
  - rewrite P2. simpl. lia.
Qed.
End operations.

(** ** Sequences of operations *)

Inductive hot_op :=
| Load (new_ok grow_ok : bool) (addr : Z) (name : list Z) (c : Z) (tools : list (list Z * Z))
| Get (name : list Z) | GetVersion (name : list Z) (ver : Z) | Retain (v : Z) | Release (v : Z)
| Unload (name : list Z) | FreeRegistry
| Trigger (require_migrate : bool) (name : list Z)
| Register (alloc_ok : bool) (name : list Z) (pid : Z) | Unregister (name : list Z) (pid : Z)
| Pending (name : list Z) (pid : Z) | Apply (name : list Z) (pid : Z).

Section sequences.
Context {S : Type} (run_migrate : Z -> S -> Z -> S) (st : S) (ext : list Z).

(** An operation, and what callers hold after it. *)
Definition hot_do (op : hot_op) (held : list Z) : H (list Z) :=
  match op with
  | Load new_ok grow_ok addr name c tools => module_load new_ok grow_ok addr name c tools ;; mret held
  | Get name => v ← module_get name; mret (v :: held)
  | GetVersion name ver => v ← module_get_version name ver; mret (v :: held)
  | Retain v => module_version_retain v ;; mret (v :: held)
  | Release v => module_version_release v ;; mret (drop_first v held)
  | Unload name => module_unload name ;; mret held
  | FreeRegistry => module_registry_free ;; mret held
  | Trigger rm name => module_trigger_upgrade rm name ;; mret held
  | Register ok name pid => module_register_block ok name pid ;; mret held
  | Unregister name pid => module_unregister_block name pid ;; mret held
  | Pending name pid => module_has_pending_upgrade name pid ;; mret held
  | Apply name pid => module_apply_upgrade run_migrate name pid st ;; mret held
  end.

(** What callers have to respect: memory for a new version is fresh and its code is
    referred to by the caller, references that are given back were held, only what
    exists is retained, and a registry is freed after its blocks have left. *)
Definition may (op : hot_op) (w : World) (held : list Z) : Prop :=
  match op with
  | Load _ _ addr _ c _ => c ∈ ext /\ (addr <> NULL -> versions w !! addr = None)
  | Retain v => v <> NULL -> is_Some (versions w !! v)
  | Release v => v ∈ held
  | FreeRegistry => forall m, m ∈ modules w -> blocks m = []
  | _ => True
  end.

Inductive reaches (cs : gmap Z Z) : nat -> World -> list Z -> Prop :=
| reaches_start : reaches cs 0 (mkWorld [] 0 empty cs) []
| reaches_step n w held op w' held' : reaches cs n w held -> may op w held -> hot_do op held w = Some (held', w') ->
    reaches cs (1 + n) w' held'.

Lemma hot_do_ok n op w held : bounded ext n -> kept held ext n w -> may op w held -> runs (hot_do op held) w (fun held' => kept held' ext (1 + n)).
Proof.
  intros Hb HK Hm. assert (HS : forall A (m : H A), runs m w (fun _ => kept held ext n) -> runs m w (fun _ => kept held ext (1 + n))).
  { intros A m Hr. eapply runs_weaken; [exact Hr|]. intros a w' HK'. eapply kept_more; [exact HK'|lia]. }
  destruct op; simpl in *; (eapply runs_bind; [|intros a w' HK'; apply runs_ret; exact HK']).
  - destruct Hm. by apply module_load_ok.
  - by apply module_get_ok.
  - by apply module_get_version_ok.
  - destruct HK as (css & HO & Hn). eapply runs_retain; [exact HO|done|done|]. intros Hv. destruct (Hm Hv) as [x Hx].
    apply count_pos. by apply (ro_count _ _ (ho_refs _ _ _ _ HO) v x).
  - eapply runs_weaken; [by eapply runs_release|]. intros a w' HK'. eapply kept_more; [exact HK'|lia].
  - by apply HS, module_unload_ok.
  - by apply HS, module_registry_free_ok.
  - by apply HS, module_trigger_upgrade_ok.
  - by apply module_register_block_ok.
  - by apply HS, module_unregister_block_ok.
  - apply HS, runs_on_module; [done|]. intros i m _. by apply runs_ret.
  - by apply HS, module_apply_upgrade_ok.
Qed.

Definition counted (cs : gmap Z Z) : Prop := forall c, c <> NULL -> 0 < count ext c -> cs !! c = Some (count ext c).
Lemma reaches_ok cs n w held : counted cs -> bounded ext n -> reaches cs n w held -> kept held ext n w.
Proof.
  intros Hcs. intros Hb HR. revert Hb. induction HR as [|n w held op w' held' HR IH Hm E]; intros Hb.
  - exists []. split; [|done]. split; [constructor| |split; [|done]|constructor].
    + split; [done|]. intros v Hv. by apply not_elem_of_nil in Hv.
    + unfold few, code_refs, bounded in *. simpl. rewrite map_to_list_empty. simpl. lia.
  - assert (Hb' : bounded ext n) by (unfold bounded in *; lia). destruct (hot_do_ok n op w held Hb' (IH Hb') Hm) as (h & w2 & E2 & HK).
    rewrite E2 in E. by simplify_eq.
Qed.
End sequences.

(** A version on the chain that starts at another. *)
Inductive on_chain (vs : gmap Z ModuleVersion) : Z -> Z -> Prop :=
| on_chain_here v : on_chain vs v v
| on_chain_prev v x u : vs !! v = Some x -> on_chain vs (prev_version x) u -> on_chain vs v u.
Lemma chained_on_chain vs cs : forall v, chained vs v cs -> forall c, c ∈ cs -> on_chain vs v c.
Proof.
  induction cs as [|c cs IH]; intros v Hv c' Hc'; [by apply not_elem_of_nil in Hc'|]. destruct Hv as (-> & _ & x & Hx & Hc).
  apply elem_of_cons in Hc' as [->|Hc']; [constructor|]. econstructor; [done|]. by eapply IH.
Qed.

(** Somebody refers to the version: a caller, a block, or a module through its chain. *)
Definition referred (w : World) (held : list Z) (v : Z) : Prop :=
  v ∈ held \/ exists m, m ∈ modules w /\ (v ∈ block_refs m \/ on_chain (versions w) (current m) v).
Lemma kept_referred held ext n w v : kept held ext n w -> is_Some (versions w !! v) -> referred w held v.
Proof.
  intros (css & [HM HR _ _] & _) [x Hx]. destruct (ro_count _ _ HR v x Hx) as (_ & _ & Hp). apply count_pos in Hp.
  apply elem_of_app in Hp as [Hp|Hp]; [|by left]. right. apply elem_of_app in Hp as [Hp|Hp]; apply list_elem_of_In, in_concat in Hp as (l & Hl & Hv%list_elem_of_In).
  - apply list_elem_of_In, list_elem_of_lookup in Hl as [i Hi]. destruct (Forall2_lookup_r _ _ _ _ _ HM Hi) as (m & Hm & [Hc _ _]).
    exists m. split; [by eapply list_elem_of_lookup_2|]. right. by eapply chained_on_chain.
  - apply list_elem_of_In, list_elem_of_fmap in Hl as (m & -> & Hm). eauto.
Qed.

(** C24: reloading code never touches a version that is gone, leaks none and keeps those in
    use: after any sequence of fewer than 2^32 operations of the registry (loading
    versions, looking them up, retaining and releasing, registering and removing blocks,
    triggering and applying upgrades, unloading and freeing, in any order but without
    rollback) in which callers respect [may], the next operation is defined, which also
    says that walks along version chains end; the version of every block and of every
    caller is alive, and every version in memory is referred to by somebody. *)
Theorem hot_reload_safe {S : Type} (run_migrate : Z -> S -> Z -> S) (st : S) (ext : list Z) (cs : gmap Z Z) n w held :
  counted ext cs -> bounded ext n -> reaches run_migrate st ext cs n w held ->
  (forall op, may ext op w held -> exists held' w', hot_do run_migrate st op held w = Some (held', w')) /\
  (forall m b, m ∈ modules w -> b ∈ blocks m -> block_version b <> NULL -> is_Some (versions w !! block_version b)) /\
  (forall v, v ∈ held -> v <> NULL -> is_Some (versions w !! v)) /\
  (forall v, is_Some (versions w !! v) -> referred w held v).
Proof.
  intros Hcs Hb HR. pose proof (reaches_ok _ _ _ _ _ _ _ Hcs Hb HR) as HK. split_and!.
  - intros op Hm. destruct (hot_do_ok run_migrate st ext n op w held Hb HK Hm) as (h & w' & E & _). eauto.
  - intros m b Hm Hbl. apply list_elem_of_lookup in Hm as [i Hi], Hbl as [j Hj]. by eapply block_live.
  - intros v Hv. destruct HK as (css & [_ HR' _ _] & _). apply (ro_live _ _ HR'). apply elem_of_app. by right.
  - intros v. by eapply kept_referred.
Qed.

(** Two versions are loaded, a block that runs the first is upgraded to the second. *)
Lemma hot_reload_safe_witness :
  let name := [97] in let ext := [40; 40] in let cs := {[40 := 2]} in let mig := fun (c : Z) (s : Z) (from : Z) => s + from in
  exists w, reaches mig 7 ext cs 6 w [] /\ (forall op, may ext op w [] -> exists held' w', hot_do mig 7 op [] w = Some (held', w')).
Proof.
  intros name ext cs mig. assert (Hcs : counted ext cs).
  { intros c Hc H0. apply count_pos in H0. unfold ext in H0. assert (c = 40) as -> by set_solver. reflexivity. }
  pose proof (reaches_start mig 7 ext cs) as R.
  eapply (reaches_step mig 7 ext cs _ _ _ (Load true true 100 name 40 [])) in R; [|by split; [left|]|vm_compute; reflexivity].
  eapply (reaches_step mig 7 ext cs _ _ _ (Register true name 1)) in R; [|done|vm_compute; reflexivity].
  eapply (reaches_step mig 7 ext cs _ _ _ (Load true true 200 name 40 [(is_migrate, 3)])) in R; [|by split; [left|]|vm_compute; reflexivity].
  eapply (reaches_step mig 7 ext cs _ _ _ (Trigger true name)) in R; [|done|vm_compute; reflexivity].
  eapply (reaches_step mig 7 ext cs _ _ _ (Apply name 1)) in R; [|done|vm_compute; reflexivity].
  eapply (reaches_step mig 7 ext cs _ _ _ (Unregister name 1)) in R; [|done|vm_compute; reflexivity].
  eexists. split; [exact R|]. exact (proj1 (hot_reload_safe mig 7 ext cs 6 _ [] Hcs ltac:(done) R)).
Defined.

(** With a rollback the chains no longer agree with the references.  After two loads and
    a rollback, unloading releases the version it went back to a second time, after it
    was freed; a load instead forgets the version that was rolled back without freeing
    it, and gives its number to another version.  Freeing a registry with registered
    blocks leaks the version they run. *)
Lemma hot_reload_flaws :
  let name := [97] in let start := mkWorld [] 0 empty {[40 := 3]} in
  let load a := module_load true true a name 40 [] in
  (load 100 ;; load 200 ;; module_rollback name ;; module_unload name) start = None /\
  (exists w, (load 100 ;; load 200 ;; module_rollback name ;; load 300) start = Some (300, w) /\
    (version <$> versions w !! 200) = Some 2 /\ (version <$> versions w !! 300) = Some 2 /\
    module_unload name w = Some (true, mkWorld [] 8 {[200 := mkVersion name 2 40 1 None 100]} {[40 := 4]})) /\
  (load 100 ;; module_register_block true name 1 ;; module_registry_free) start =
    Some (tt, mkWorld [] 8 {[100 := mkVersion name 1 40 1 None NULL]} {[40 := 4]}).
Proof. intros name start load. split; [reflexivity|]. split; [eexists; split_and!; reflexivity|reflexivity]. Qed.
