(* ===== verification/Value.v ===== *)
(** * Values in the shared store (src/vm/value.h, src/vm/value.c, and the write
    barrier of src/vm/gc.c)

    A [Value] is a heap cell with a reference count, flags and GC state; its
    children are pointers.  The store maps addresses to cells, so two
    references to one array are one cell.  Operations run in a small state
    monad whose failure is undefined behaviour: a read through an address that
    is not (any more) a cell. *)

From Stdlib Require Import ZArith Lia.
From stdpp Require Import base list numbers gmap.
From S2P Require Import Prelude Float64 Hash HashMap Nanbox.
Local Open Scope Z_scope.
Local Open Scope agim_scope.

Inductive ValueType :=
  | VAL_NIL | VAL_BOOL | VAL_INT | VAL_FLOAT | VAL_STRING | VAL_ARRAY | VAL_MAP | VAL_PID
  | VAL_FUNCTION | VAL_BYTES | VAL_VECTOR | VAL_CLOSURE | VAL_RESULT | VAL_OPTION
  | VAL_STRUCT | VAL_ENUM.

#[global] Instance ValueType_eq_dec : EqDecision ValueType.
Proof. solve_decision. Defined.

Record Function_ := mkFunction {
  fn_name : list Z; fn_arity : Z; fn_code_offset : Z; fn_locals_count : Z; fn_parent : Z
}.

(** [Closure]: its function and the addresses of its upvalues. *)
Record Closure := mkClosure { cl_function : Function_; cl_upvalues : list Z }.

(** The union of [Value], over the type [R] of references to child values. *)
Inductive vdata (R : Type) :=
  | VNil
  | VBool (b : bool)
  | VInt (i : Z)
  | VFloat (d : f64)
  | VString (s : list Z)
  | VArray (cap : Z) (items : list R)
  | VMap (m : Map R)
  | VPid (p : Z)
  | VFunction (f : Function_)
  | VBytes (cap : Z) (bytes : list Z)
  | VVector (v : list f64)
  | VClosure (c : Closure)
  | VResult (is_ok : bool) (v : R)
  | VOption (is_some : bool) (v : R)
  | VStruct (type_name : list Z) (fields : list (list Z * R))
  | VEnum (type_name variant_name : list Z) (payload : R).
Arguments VNil {R}. Arguments VBool {R}. Arguments VInt {R}. Arguments VFloat {R}.
Arguments VString {R}. Arguments VArray {R}. Arguments VMap {R}. Arguments VPid {R}.
Arguments VFunction {R}. Arguments VBytes {R}. Arguments VVector {R}. Arguments VClosure {R}.
Arguments VResult {R}. Arguments VOption {R}. Arguments VStruct {R}. Arguments VEnum {R}.

Definition type_of {R} (d : vdata R) : ValueType :=
  match d with
  | VNil => VAL_NIL | VBool _ => VAL_BOOL | VInt _ => VAL_INT | VFloat _ => VAL_FLOAT
  | VString _ => VAL_STRING | VArray _ _ => VAL_ARRAY | VMap _ => VAL_MAP | VPid _ => VAL_PID
  | VFunction _ => VAL_FUNCTION | VBytes _ _ => VAL_BYTES | VVector _ => VAL_VECTOR
  | VClosure _ => VAL_CLOSURE | VResult _ _ => VAL_RESULT | VOption _ _ => VAL_OPTION
  | VStruct _ _ => VAL_STRUCT | VEnum _ _ _ => VAL_ENUM
  end.

(** ** Cells and the store *)

(** An address; [NULL] is 0. *)
Abbreviation ptr := Z (only parsing).
Definition NULL : ptr := 0.

Definition VALUE_COW_SHARED : Z := 0x01.
Definition VALUE_IMMUTABLE : Z := 0x02.
Definition REFCOUNT_FREEING : Z := UINT32_MAX.
Definition REFCOUNT_SATURATED : Z := UINT32_MAX - 1.
Definition GC_MARKED : Z := 0x01.
Definition GC_OLD_GEN : Z := 0x02.
Definition GC_SURVIVAL_MASK : Z := 0x1C.
Definition GC_SURVIVAL_SHIFT : Z := 2.
Definition GC_REMEMBERED : Z := 0x20.

Record Value := mkValue { data : vdata ptr; refcount : Z; flags : Z; gc_state : Z }.

(** What the write barrier uses of the current thread's [Heap]. *)
Record GcHeap := mkGcHeap {
  generational_enabled : bool;
  remember_set : list ptr;
  remember_capacity : Z;
  max_remember_size : Z;
  needs_full_gc : bool
}.

Record Store := mkStore {
  cells : gmap Z Value;
  next_addr : Z;
  current_heap : option GcHeap   (** [gc_get_current_heap()] *)
}.

(** ** The store monad: [None] is undefined behaviour *)

Definition M (A : Type) : Type := Store -> option (A * Store).
#[global] Instance M_ret : MRet M := fun A x st => Some (x, st).
#[global] Instance M_bind : MBind M := fun A B k m st =>
  match m st with Some (x, st') => k x st' | None => None end.

Lemma M_bind_run {A B} (m : M A) (k : A -> M B) st x st' :
  m st = Some (x, st') -> (m ≫= k) st = k x st'.
Proof. intros H. unfold mbind, M_bind. by rewrite H. Qed.

(** Executes the first action of a monadic goal, given its result. *)
Ltac mstep H := rewrite (M_bind_run _ _ _ _ _ H); cbv beta iota.

Definition ub {A} : M A := fun _ => None.
Definition load (p : ptr) : M Value := fun st => (fun c => (c, st)) <$> cells st !! p.
Definition write (p : ptr) (c : Value) : M unit := fun st =>
  match cells st !! p with
  | Some _ => Some (tt, mkStore (<[p := c]> (cells st)) (next_addr st) (current_heap st))
  | None => None
  end.
Definition dealloc (p : ptr) : M unit := fun st =>
  match cells st !! p with
  | Some _ => Some (tt, mkStore (delete p (cells st)) (next_addr st) (current_heap st))
  | None => None
  end.
(** Strings and vectors are made immutable. *)
Definition initial_flags (d : vdata ptr) : Z :=
  match d with VString _ | VVector _ => VALUE_IMMUTABLE | _ => 0 end.

(** A successful [agim_alloc] of a value, initialised as the constructors do:
    one reference, no GC state. *)
Definition value_new (d : vdata ptr) : M ptr := fun st =>
  Some (next_addr st,
        mkStore (<[next_addr st := mkValue d 1 (initial_flags d) 0]> (cells st)) (next_addr st + 1) (current_heap st)).
Definition get_heap : M (option GcHeap) := fun st => Some (current_heap st, st).
Definition put_heap (h : GcHeap) : M unit := fun st =>
  Some (tt, mkStore (cells st) (next_addr st) (Some h)).

Definition set_refcount (c : Value) (n : Z) : Value := mkValue (data c) n (flags c) (gc_state c).
Definition set_data (c : Value) (d : vdata ptr) : Value :=
  mkValue d (refcount c) (flags c) (gc_state c).
Definition set_flags (c : Value) (f : Z) : Value := mkValue (data c) (refcount c) f (gc_state c).
Definition set_gc_state (c : Value) (g : Z) : Value := mkValue (data c) (refcount c) (flags c) g.

(** ** GC state bits (value.h) *)

Definition value_is_marked (c : Value) : bool := negb (gc_state c .& GC_MARKED =? 0).
Definition value_set_marked (c : Value) (marked : bool) : Value :=
  set_gc_state c (if marked then gc_state c .| GC_MARKED else gc_state c .& u8 (Z.lnot GC_MARKED)).
Definition value_is_old_gen (c : Value) : bool := negb (gc_state c .& GC_OLD_GEN =? 0).
Definition value_set_old_gen (c : Value) : Value := set_gc_state c (gc_state c .| GC_OLD_GEN).
Definition value_survival_count (c : Value) : Z :=
  (gc_state c .& GC_SURVIVAL_MASK) .>> GC_SURVIVAL_SHIFT.
Definition value_inc_survival (c : Value) : Value :=
  let count := value_survival_count c in
  if count <? 7 then
    set_gc_state c ((gc_state c .& u8 (Z.lnot GC_SURVIVAL_MASK)) .| ((count + 1) .<< GC_SURVIVAL_SHIFT))
  else c.
Definition value_is_remembered (c : Value) : bool := negb (gc_state c .& GC_REMEMBERED =? 0).
Definition value_set_remembered (c : Value) (remembered : bool) : Value :=
  set_gc_state c
    (if remembered then gc_state c .| GC_REMEMBERED else gc_state c .& u8 (Z.lnot GC_REMEMBERED)).

(** ** Reference counts

    The compare-and-swap loops of value.c run here without interference: the
    first exchange succeeds. *)

(** The count [value_retain] installs; [None] when the value is being freed. *)
Definition retain_count (current : Z) : option Z :=
  if (current =? REFCOUNT_FREEING) || (current =? 0) then None
  else if REFCOUNT_SATURATED <=? current then Some current
  else let new_count := current + 1 in
       Some (if REFCOUNT_SATURATED <=? new_count then REFCOUNT_SATURATED else new_count).

Definition release_count (current : Z) : Z :=
  if (current =? REFCOUNT_FREEING) || (current =? REFCOUNT_SATURATED) then current
  else if current =? 0 then current
  else current - 1.

Definition value_retain (v : ptr) : M ptr :=
  if v =? NULL then mret NULL else
  c ← load v;
  match retain_count (refcount c) with
  | None => mret NULL
  | Some n => write v (set_refcount c n) ;; mret v
  end.

Definition value_release (v : ptr) : M unit :=
  if v =? NULL then mret tt else
  c ← load v; write v (set_refcount c (release_count (refcount c))).

Definition value_needs_cow (v : ptr) : M bool :=
  if v =? NULL then mret false else c ← load v; mret (1 <? refcount c).

Definition value_can_share (t : ValueType) : bool :=
  match t with
  | VAL_NIL | VAL_BOOL | VAL_INT | VAL_FLOAT | VAL_STRING | VAL_PID | VAL_FUNCTION | VAL_VECTOR
  | VAL_ARRAY | VAL_MAP | VAL_BYTES => true
  | VAL_CLOSURE => false
  | _ => false
  end.

Definition value_mark_shared (v : ptr) : M unit :=
  if v =? NULL then mret tt else
  c ← load v; write v (set_flags c (flags c .| VALUE_COW_SHARED)).

Definition value_is_immutable (c : Value) : bool :=
  match type_of (data c) with
  | VAL_NIL | VAL_BOOL | VAL_INT | VAL_FLOAT | VAL_STRING | VAL_PID | VAL_FUNCTION | VAL_VECTOR => true
  | VAL_ARRAY | VAL_MAP | VAL_BYTES | VAL_CLOSURE => negb (flags c .& VALUE_IMMUTABLE =? 0)
  | _ => false
  end.

Definition value_cow_share (v : ptr) : M ptr :=
  if v =? NULL then mret NULL else
  c ← load v;
  if value_is_immutable c then value_retain v
  else write v (set_flags c (flags c .| VALUE_COW_SHARED)) ;; value_retain v.

(** What [value_free] does to the count of a value it is given: leave it,
    drop one reference, or start freeing. *)
Inductive free_action := FreeIgnore | FreeDecrement (n : Z) | FreeNow.
Definition free_count (current : Z) : free_action :=
  if (current =? REFCOUNT_FREEING) || (current =? 0) then FreeIgnore
  else if current =? REFCOUNT_SATURATED then FreeIgnore
  else if current =? 1 then FreeNow
  else FreeDecrement (current - 1).

(** The children [value_free] visits, in its order. *)
Definition owned_children (d : vdata ptr) : list ptr :=
  match d with
  | VArray _ items => items
  | VMap m => e_value <$> concat (buckets m)
  | VResult _ v => [v]
  | VOption is_some v => if is_some then [v] else []
  | VStruct _ fields => fields.*2
  | VEnum _ _ payload => [payload]
  | _ => []
  end.

(** Each level of the recursion that continues marks one more cell as being
    freed, so the number of cells bounds the depth. *)
Fixpoint value_free (fuel : nat) (v : ptr) : M unit :=
  if v =? NULL then mret tt else
  c ← load v;
  match free_count (refcount c) with
  | FreeIgnore => mret tt
  | FreeDecrement n => write v (set_refcount c n)
  | FreeNow =>
      write v (set_refcount c REFCOUNT_FREEING) ;;
      match fuel with
      | O => ub
      | S fuel' =>
          mapM (fun child => if child =? NULL then mret tt else value_free fuel' child)
               (owned_children (data c)) ;;
          dealloc v
      end
  end.

(** Enough fuel for any value of a store. *)
Definition free_fuel (st : Store) : nat := S (base.size (cells st)).
Definition value_free_all (v : ptr) : M unit := fun st => value_free (free_fuel st) v st.

(** ** Write barrier (gc.c) *)

Definition remember_set_add (realloc_ok : bool) (h : GcHeap) (value : ptr) : M unit :=
  if value =? NULL then mret tt else
  c ← load value;
  if value_is_remembered c then mret tt
  else if max_remember_size h <=? Z.of_nat (length (remember_set h)) then
    put_heap (mkGcHeap (generational_enabled h) (remember_set h) (remember_capacity h)
                (max_remember_size h) true)
  else
    let grow := remember_capacity h <=? Z.of_nat (length (remember_set h)) in
    if grow && negb realloc_ok then mret tt else
    let new_cap := if grow
                   then Z.min (if remember_capacity h =? 0 then 64 else remember_capacity h * 2)
                              (max_remember_size h)
                   else remember_capacity h in
    put_heap (mkGcHeap (generational_enabled h) (remember_set h ++ [value]) new_cap
                (max_remember_size h) (needs_full_gc h)) ;;
    write value (value_set_remembered c true).

Definition gc_write_barrier (realloc_ok : bool) (container value : ptr) : M unit :=
  h ← get_heap;
  match h with
  | None => mret tt
  | Some h =>
      if negb (generational_enabled h) then mret tt
      else if (container =? NULL) || (value =? NULL) then mret tt
      else
        c ← load container; v ← load value;
        if value_is_old_gen c && negb (value_is_old_gen v)
        then remember_set_add realloc_ok h container else mret tt
  end.

(** ** Values at large: conversions, truth, comparison *)

(** Flat view used by nanbox_convert.h: the payload of a value that fits a
    [NanValue], or the address of one that does not. *)
Inductive unboxed := UNil | UBool (b : bool) | UInt (i : Z) | UFloat (d : f64) | UPid (p : Z) | UObj (p : ptr).

Definition nanbox_to_value (v : NanValue) : unboxed :=
  if nanbox_is_nil v then UNil
  else if nanbox_is_bool v then UBool (nanbox_as_bool v)
  else if nanbox_is_int v then UInt (nanbox_as_int v)
  else if nanbox_is_double v then UFloat (nanbox_as_double v)
  else if nanbox_is_pid v then UPid (nanbox_as_pid v)
  else if nanbox_is_obj v then UObj (nanbox_as_obj v)
  else UNil.

(** [val] is an address and, unless it is [NULL], the data stored there. *)
Definition value_to_nanbox (val : ptr) (d : vdata ptr) : NanValue :=
  if val =? NULL then NANBOX_NIL else
  match d with
  | VNil => NANBOX_NIL
  | VBool b => nanbox_bool b
  | VInt i => nanbox_int i
  | VFloat f => nanbox_double f
  | VPid p => nanbox_pid p
  | _ => nanbox_obj val
  end.

Definition value_is_truthy (val : ptr) (d : vdata ptr) : bool :=
  if val =? NULL then false else
  match d with
  | VNil => false
  | VBool b => b
  | VInt i => negb (i =? 0)
  | VFloat f => negb (f64_eqb f f64_zero)
  | VString s => (0 <? length s)%nat
  | VArray _ items => (0 <? length items)%nat
  | VMap m => (0 <? size m)%nat
  | VOption is_some _ => is_some
  | VResult is_ok _ => is_ok
  | _ => true
  end.

Definition value_hash (val : ptr) (d : vdata ptr) : Z :=
  if val =? NULL then 0 else
  match d with
  | VNil => 0
  | VBool b => if b then 1 else 0
  | VInt i => u64 i
  | VFloat f => f
  | VString s => agim_hash_string s (length s)
  | VPid p => p
  | _ => val
  end.

Definition value_to_int (val : ptr) (d : vdata ptr) : option Z :=
  if val =? NULL then Some 0 else
  match d with
  | VInt i => Some i
  | VFloat f => f64_to_int f
  | VBool b => Some (if b then 1 else 0)
  | _ => Some 0
  end.

Definition value_to_float (val : ptr) (d : vdata ptr) : f64 :=
  if val =? NULL then f64_zero else
  match d with
  | VFloat f => f
  | VInt i => f64_of_int i
  | VBool b => if b then f64_one else f64_zero
  | _ => f64_zero
  end.

(** [bytes_append]: grows by doubling, with one [realloc] per doubling whose
    outcome [ok] gives; a failure leaves the capacity reached so far. *)
Fixpoint bytes_grow (fuel : nat) (ok : nat -> bool) (cap needed : Z) : bool * Z :=
  if needed <=? cap then (true, cap)
  else if SIZE_MAX / 2 <? cap then (false, cap)
  else match fuel with
       | O => (false, cap)
       | S fuel' => if ok fuel' then bytes_grow fuel' ok (cap * 2) needed else (false, cap)
       end.

Definition bytes_append (ok : nat -> bool) (cap : Z) (bytes extra : list Z) : bool * (Z * list Z) :=
  let len := Z.of_nat (length bytes) in
  let n := Z.of_nat (length extra) in
  if SIZE_MAX - n <? len then (false, (cap, bytes))
  else match bytes_grow 64 ok cap (len + n) with
       | (true, cap') => (true, (cap', bytes ++ extra))
       | (false, cap') => (false, (cap', bytes))
       end.

(** ** Stores *)

Definition store_wf (st : Store) : Prop :=
  0 < next_addr st /\ forall p c, cells st !! p = Some c -> 0 < p < next_addr st.

Definition data_of (st : Store) (p : ptr) : option (vdata ptr) := data <$> cells st !! p.

(** A reference that may be retained: [NULL], or a cell that is not being freed. *)
Definition live (st : Store) (p : ptr) : Prop :=
  p = NULL \/ exists c, cells st !! p = Some c /\ 0 < refcount c < REFCOUNT_FREEING.

(** Same cells with the same data; counts, flags and GC bits may differ. *)
Definition same_data (st st' : Store) : Prop := forall p, data_of st p = data_of st' p.

#[global] Instance same_data_equiv : Equivalence same_data.
Proof.
  split.
  - intros st p. done.
  - intros st st' H p. by rewrite H.
  - intros st1 st2 st3 H1 H2 p. by rewrite H1, H2.
Qed.

#[global] Instance data_of_proper : Proper (same_data ==> eq ==> eq) data_of.
Proof. intros st st' H p q ->. apply H. Qed.

Lemma retain_count_spec n :
  0 <= n <= REFCOUNT_FREEING ->
  match retain_count n with
  | None => n = 0 \/ n = REFCOUNT_FREEING
  | Some n' => 0 < n < REFCOUNT_FREEING /\ n <= n' <= REFCOUNT_SATURATED /\
               (n < REFCOUNT_SATURATED -> n' = n + 1)
  end.
Proof.
  unfold retain_count, REFCOUNT_SATURATED, REFCOUNT_FREEING, UINT32_MAX. intros H.
  repeat case_if_goal; lia.
Qed.

Lemma retain_count_live n :
  0 < n < REFCOUNT_FREEING -> exists n', retain_count n = Some n' /\ 0 < n' < REFCOUNT_FREEING.
Proof.
  unfold retain_count, REFCOUNT_SATURATED, REFCOUNT_FREEING, UINT32_MAX. intros H.
  repeat case_if_goal; try lia; eexists; (split; [done|lia]).
Qed.

Lemma load_run st p c : cells st !! p = Some c -> load p st = Some (c, st).
Proof. intros H. unfold load. by rewrite H. Qed.

Lemma write_run st p c c' :
  cells st !! p = Some c ->
  write p c' st = Some (tt, mkStore (<[p := c']> (cells st)) (next_addr st) (current_heap st)).
Proof. intros H. unfold write. by rewrite H. Qed.

(** Rewriting one cell with the same data keeps [same_data] and the shape of
    the store. *)
Lemma write_same_data st p c c' :
  cells st !! p = Some c -> data c' = data c ->
  exists st', write p c' st = Some (tt, st') /\ same_data st st' /\
    cells st' = <[p := c']> (cells st) /\ next_addr st' = next_addr st /\
    current_heap st' = current_heap st.
Proof.
  intros Hc Hd. eexists. unfold write. rewrite Hc. split_and!; try done.
  intros q. unfold data_of. simpl. rewrite lookup_insert. case_decide; [|done].
  subst. by rewrite Hc; simpl; rewrite Hd.
Qed.

Lemma store_wf_insert st p c c' h :
  store_wf st -> cells st !! p = Some c ->
  store_wf (mkStore (<[p := c']> (cells st)) (next_addr st) h).
Proof.
  intros [Hn Hw] Hc. split; [done|]. intros q d. simpl. rewrite lookup_insert.
  case_decide; [subst; intros _; by eapply Hw|apply Hw].
Qed.

(** ** Properties *)

(** Reference counts saturate and never wrap: retaining a live value adds
    one until the saturation count and then stays there, a value that is being
    freed is never revived, releasing subtracts at most one and never changes
    a saturated or freed count, and only the last reference starts freeing. *)
Theorem refcount_discipline (n : Z) (Hn : 0 <= n <= REFCOUNT_FREEING) :
  match retain_count n with
  | None => n = 0 \/ n = REFCOUNT_FREEING
  | Some n' => 0 < n' <= REFCOUNT_SATURATED /\ (n < REFCOUNT_SATURATED -> n' = n + 1) /\
               (n = REFCOUNT_SATURATED -> n' = n)
  end /\
  0 <= release_count n <= n /\ n - 1 <= release_count n /\
  (n = REFCOUNT_SATURATED \/ n = REFCOUNT_FREEING -> release_count n = n) /\
  (free_count n = FreeNow <-> n = 1) /\
  (forall n', retain_count n = Some n' -> n < REFCOUNT_SATURATED - 1 -> release_count n' = n).
Proof.
  unfold retain_count, release_count, free_count, REFCOUNT_SATURATED, REFCOUNT_FREEING, UINT32_MAX in *.
  split_and!; try (repeat case_if_goal; try done; try lia; split_and!; intros; done || lia).
  intros n' H Hlt. repeat case_if; simplify_eq; try done; lia.
Qed.

Lemma refcount_discipline_witness :
  release_count 2 = 1 /\ 0 <= release_count 2 <= 2.
Proof.
  split; [reflexivity|].
  apply (refcount_discipline 2). unfold REFCOUNT_FREEING, UINT32_MAX. lia.
Defined.

(** What boxing keeps of a value at address [val]. *)
Definition boxed_view (val : ptr) (d : vdata ptr) : unboxed :=
  match d with
  | VNil => UNil
  | VBool b => UBool b
  | VInt i => UInt (sext48 (i mod 2 ^ 48))
  | VFloat f => UFloat f
  | VPid p => UPid (p mod 2 ^ 48)
  | _ => UObj (val mod 2 ^ 48)
  end.

Lemma special_words :
  NANBOX_NIL = 0x7FFE * 2 ^ 48 + 1 /\ NANBOX_TRUE = 0x7FFE * 2 ^ 48 + 2 /\
  NANBOX_FALSE = 0x7FFE * 2 ^ 48 + 3.
Proof. done. Qed.

(** Decoding a word from its tag and payload. *)
Lemma unbox_tagged t p :
  0 <= p < 2 ^ 48 -> t = 0x7FFC \/ t = 0x7FFD \/ t = 0x7FFF ->
  nanbox_to_value (t * 2 ^ 48 + p) =
    if t =? 0x7FFC then UInt (sext48 p) else if t =? 0x7FFF then UPid p else UObj p.
Proof.
  intros Hp Ht. destruct special_words as (Hn & Htr & Hf).
  assert (Hu : is_u64 (t * 2 ^ 48 + p)) by (unfold is_u64; lia).
  unfold nanbox_to_value, nanbox_is_nil, nanbox_is_bool, nanbox_as_obj, nanbox_as_pid.
  rewrite nanbox_as_int_word, !land_payload, is_int_tag, prefix_eq, is_pid_tag, is_obj_tag by done.
  rewrite div_tagged, mod_tagged by done. rewrite Hn, Htr, Hf.
  destruct Ht as [->|[->| ->]]; by repeat (case_if_goal; try lia).
Qed.

Lemma unbox_double f :
  is_u64 f -> ~ boxed_nan f -> nanbox_to_value (nanbox_double f) = UFloat f.
Proof.
  intros Hu Hb. destruct special_words as (Hn & Htr & Hf).
  unfold nanbox_to_value, nanbox_double, nanbox_is_nil, nanbox_is_bool.
  rewrite is_int_tag, (proj2 (is_double_boxed f Hu) Hb), Hn, Htr, Hf by done. unfold boxed_nan in Hb.
  pose proof (Z.div_mod f (2 ^ 48) ltac:(lia)). pose proof (Z.mod_pos_bound f (2 ^ 48) ltac:(lia)).
  repeat (case_if_goal; try lia); try done; destruct Heqb0; bool_prop; lia.
Qed.

(** Converting a heap value to a [NanValue] and back keeps nil, booleans,
    every double outside the reserved NaN space, and the low 48 bits of
    integers, process ids and addresses; no value changes its type. *)
Theorem value_nanbox_roundtrip (val : ptr) (d : vdata ptr)
    (Hval : val <> NULL)
    (Hfloat : forall f, d = VFloat f -> is_u64 f /\ ~ boxed_nan f) :
  nanbox_to_value (value_to_nanbox val d) = boxed_view val d.
Proof.
  assert (Hm : forall x, 0 <= x mod 2 ^ 48 < 2 ^ 48) by (intros; apply Z.mod_pos_bound; lia).
  assert (Hobj : nanbox_to_value (nanbox_obj val) = UObj (val mod 2 ^ 48)).
  { rewrite nanbox_obj_word, unbox_tagged by auto. done. }
  unfold value_to_nanbox. case_if_goal; [done|].
  destruct d; simpl; try apply Hobj; try done.
  - by destruct b.
  - rewrite nanbox_int_word, unbox_tagged by auto. done.
  - destruct (Hfloat d eq_refl). by apply unbox_double.
  - rewrite nanbox_pid_word, unbox_tagged by auto. done.
Qed.

Lemma value_nanbox_roundtrip_witness :
  nanbox_to_value (value_to_nanbox 16 (VFloat 0x4008000000000000)) = UFloat 0x4008000000000000.
Proof.
  apply (value_nanbox_roundtrip 16 (VFloat 0x4008000000000000)); [done|].
  intros f [= <-]. unfold is_u64, boxed_nan. lia.
Defined.
