(* ===== verification/Array.v ===== *)
(** * Copy-on-write arrays (src/types/array.c)

    The operations act on the shared store of [Value]: a writer that holds the
    only reference updates the cell in place, any other writer first clones it.
    Arguments named [.._ok] are outcomes of allocations: [clone_ok] of the
    three allocations of the clone (all failures have the same effect),
    [grow_ok] of the growth of the items buffer, [rem_ok] of the growth of the
    collector's remembered set. *)

From Stdlib Require Import ZArith Lia.
From stdpp Require Import base list numbers gmap.
From S2P Require Import Prelude Value.
Local Open Scope Z_scope.

Section operations.
Context (clone_ok grow_ok rem_ok : bool).

Definition value_array_with_capacity (alloc_ok : bool) (capacity : Z) : M ptr :=
  if alloc_ok then value_new (VArray (if 0 <? capacity then capacity else 8) []) else mret NULL.
Definition value_array (alloc_ok : bool) : M ptr := value_array_with_capacity alloc_ok 8.

(** [!v || v->type != VAL_ARRAY] is the [None] case. *)
Definition load_array (v : ptr) : M (option (Value * Z * list ptr)) :=
  if v =? NULL then mret None else
  c ← load v;
  mret (match data c with VArray cap items => Some (c, cap, items) | _ => None end).

Definition array_length (v : ptr) : M Z :=
  a ← load_array v;
  mret (match a with Some (_, _, items) => Z.of_nat (length items) | None => 0 end).

Definition array_capacity (v : ptr) : M Z :=
  a ← load_array v; mret (match a with Some (_, cap, _) => cap | None => 0 end).

Definition array_get (v : ptr) (index : Z) : M ptr :=
  a ← load_array v;
  mret (match a with
        | Some (_, _, items) =>
            if Z.of_nat (length items) <=? index then NULL
            else default NULL (items !! Z.to_nat index)
        | None => NULL
        end).

Definition array_ensure_capacity (cap needed : Z) : option Z :=
  if needed <=? cap then Some cap
  else match double_until 64 cap needed with
       | None => None
       | Some new_cap =>
           if SIZE_MAX / 8 <? new_cap then None
           else if grow_ok then Some new_cap else None
       end.

Definition array_ensure_writable (v : ptr) : M ptr :=
  a ← load_array v;
  match a with
  | None => mret v
  | Some (_, cap, items) =>
      cow ← value_needs_cow v;
      if negb cow then mret v
      else if clone_ok then
        new_v ← value_new (VArray cap []);
        items' ← mapM value_retain items;
        n ← load new_v;
        write new_v (set_data n (VArray cap items')) ;;
        value_release v ;;
        mret new_v
      else mret NULL
  end.

(** The frame every writer shares: check the type, make the array writable,
    and run [k] on the cell; [k] also returns the operation's result. *)
Definition with_writable {B} (v : ptr) (dflt : B) (k : ptr -> Value -> Z -> list ptr -> M B) : M (ptr * B) :=
  a ← load_array v;
  match a with
  | None => mret (v, dflt)
  | Some _ =>
      writable ← array_ensure_writable v;
      w ← load_array writable;
      match w with
      | None => mret (writable, dflt)
      | Some (c, cap, items) => r ← k writable c cap items; mret (writable, r)
      end
  end.

(** The operations that return only the array. *)
Definition array_only {B} (m : M (ptr * B)) : M ptr := r ← m; mret r.1.

Definition array_set (v : ptr) (index : Z) (item : ptr) : M ptr :=
  array_only (with_writable v tt (fun w c cap items =>
    if Z.of_nat (length items) <=? index then mret tt else
    gc_write_barrier rem_ok w item ;;
    (let old := default NULL (items !! Z.to_nat index) in
     if old =? NULL then mret tt else value_free_all old) ;;
    c' ← load w;
    write w (set_data c' (VArray cap (<[Z.to_nat index := item]> items))))).

Definition array_push (v item : ptr) : M ptr :=
  array_only (with_writable v tt (fun w c cap items =>
    gc_write_barrier rem_ok w item ;;
    match array_ensure_capacity cap (Z.of_nat (length items) + 1) with
    | None => mret tt
    | Some cap' => c' ← load w; write w (set_data c' (VArray cap' (items ++ [item])))
    end)).

(** The popped item, and the array in [arr_out]. *)
Definition array_pop (v : ptr) : M (ptr * ptr) :=
  with_writable v NULL (fun w c cap items =>
    match last items with
    | None => mret NULL
    | Some x =>
        write w (set_data c (VArray cap (take (length items - 1) items))) ;; mret x
    end).

Definition array_insert (v : ptr) (index : Z) (item : ptr) : M ptr :=
  array_only (with_writable v tt (fun w c cap items =>
    gc_write_barrier rem_ok w item ;;
    let len := Z.of_nat (length items) in
    let index := if len <? index then len else index in
    match array_ensure_capacity cap (len + 1) with
    | None => mret tt
    | Some cap' =>
        c' ← load w;
        write w (set_data c' (VArray cap'
          (take (Z.to_nat index) items ++ [item] ++ drop (Z.to_nat index) items)))
    end)).

Definition array_remove (v : ptr) (index : Z) : M (ptr * ptr) :=
  with_writable v NULL (fun w c cap items =>
    if Z.of_nat (length items) <=? index then mret NULL else
    let removed := default NULL (items !! Z.to_nat index) in
    write w (set_data c (VArray cap
      (take (Z.to_nat index) items ++ drop (S (Z.to_nat index)) items))) ;;
    mret removed).

Definition array_clear (v : ptr) : M ptr :=
  array_only (with_writable v tt (fun w c cap items =>
    mapM (fun x => if x =? NULL then mret tt else value_free_all x) items ;;
    c' ← load w;
    write w (set_data c' (VArray cap [])))).

(** [while (left < right) swap]: [fuel] bounds the iterations; half the length
    is enough. *)
Fixpoint reverse_loop (fuel : nat) (left right : nat) (items : list ptr) : list ptr :=
  match fuel with
  | O => items
  | S fuel' =>
      if (left <? right)%nat then
        match items !! left, items !! right with
        | Some a, Some b => reverse_loop fuel' (S left) (right - 1) (<[right := a]> (<[left := b]> items))
        | _, _ => items
        end
      else items
  end.

Definition array_reverse (v : ptr) : M ptr :=
  array_only (with_writable v tt (fun w c cap items =>
    let right := if (0 <? length items)%nat then (length items - 1)%nat else O in
    write w (set_data c (VArray cap (reverse_loop (length items) 0 right items))))).

(** [for (...) array_push(result, value_retain(items[i]))] *)
Definition push_retained (result : ptr) (items : list ptr) : M unit :=
  mapM (fun x => x' ← value_retain x; array_push result x') items ;; mret tt.

Definition array_slice (alloc_ok : bool) (v : ptr) (start end_ : Z) : M ptr :=
  a ← load_array v;
  match a with
  | None => value_new VNil
  | Some (_, _, items) =>
      let len := Z.of_nat (length items) in
      let start := if len <? start then len else start in
      let end_ := if len <? end_ then len else end_ in
      let start := if end_ <? start then end_ else start in
      result ← value_array_with_capacity alloc_ok (end_ - start);
      push_retained result (take (Z.to_nat (end_ - start)) (drop (Z.to_nat start) items)) ;;
      mret result
  end.

Definition array_concat (alloc_ok : bool) (a b : ptr) : M ptr :=
  x ← load_array a; y ← load_array b;
  match x, y with
  | Some (_, _, ia), Some (_, _, ib) =>
      result ← value_array_with_capacity alloc_ok (Z.of_nat (length ia) + Z.of_nat (length ib));
      push_retained result ia ;; push_retained result ib ;; mret result
  | _, _ => value_array alloc_ok
  end.

End operations.

(** ** Retaining and releasing *)

(** What a sequence of retains of [l] may change: reference counts of cells of
    [l] only, and it keeps live cells live. *)
Record retained (l : list ptr) (st st' : Store) : Prop := {
  ret_data : same_data st st';
  ret_next : next_addr st' = next_addr st;
  ret_heap : current_heap st' = current_heap st;
  ret_frame : forall p, p ∉ l -> cells st' !! p = cells st !! p;
  ret_live : forall p, live st p -> live st' p;
}.

Lemma retained_refl l st : retained l st st.
Proof. by split. Qed.

Lemma retained_trans l1 l2 st1 st2 st3 :
  retained l1 st1 st2 -> retained l2 st2 st3 -> retained (l1 ++ l2) st1 st3.
Proof.
  intros [D1 N1 H1 F1 L1] [D2 N2 H2 F2 L2]. split.
  - by rewrite D1.
  - by rewrite N2.
  - by rewrite H2.
  - intros p Hp. apply not_elem_of_app in Hp as [? ?]. rewrite F2 by done. by apply F1.
  - auto.
Qed.

Lemma value_retain_live st p :
  live st p -> exists st', value_retain p st = Some (p, st') /\ retained [p] st st'.
Proof.
  intros [->|(c & Hc & Hr)]; [eexists; split; [reflexivity|apply retained_refl]|].
  unfold value_retain. case_if_goal; [subst; eexists; split; [reflexivity|apply retained_refl]|].
  mstep (load_run _ _ _ Hc).
  destruct (retain_count_live _ Hr) as (n' & Hn & Hn'). rewrite Hn.
  destruct (write_same_data st p c (set_refcount c n') Hc) as (st' & Hw & Hd & Hcells & Hnx & Hh); [done|].
  mstep Hw. eexists. split; [reflexivity|]. split; try done.
  - intros q Hq. rewrite Hcells, lookup_insert_ne; [done|]. set_solver.
  - intros q [->|(d & Hq & Hrq)]; [by left|]. right. rewrite Hcells.
    destruct (decide (q = p)) as [->|].
    + rewrite lookup_insert_eq. eexists. by split.
    + rewrite lookup_insert_ne by done. eauto.
Qed.

Lemma mapM_retain_live l st :
  Forall (live st) l -> exists st', mapM value_retain l st = Some (l, st') /\ retained l st st'.
Proof.
  revert st. induction l as [|p l IH]; intros st Hl.
  - eexists. split; [reflexivity|apply retained_refl].
  - inversion_clear Hl as [|? ? Hp Hl'].
    destruct (value_retain_live st p Hp) as (st1 & H1 & R1).
    destruct (IH st1) as (st2 & H2 & R2).
    { eapply Forall_impl; [exact Hl'|]. intros q. apply (ret_live _ _ _ R1). }
    exists st2. split; [|apply (retained_trans [p] l _ _ _ R1 R2)].
    cbn [mapM]. mstep H1. by mstep H2.
Qed.

Lemma value_release_frame st p c :
  cells st !! p = Some c -> p <> NULL ->
  exists st', value_release p st = Some (tt, st') /\ same_data st st' /\
    cells st' = <[p := set_refcount c (release_count (refcount c))]> (cells st) /\
    next_addr st' = next_addr st /\ current_heap st' = current_heap st.
Proof.
  intros Hc Hp. unfold value_release. case_if_goal; [done|].
  mstep (load_run _ _ _ Hc). by apply write_same_data with c.
Qed.

Lemma store_wf_same st st' :
  store_wf st -> same_data st st' -> next_addr st' = next_addr st -> store_wf st'.
Proof.
  intros [Hn Hw] Hd Hnx. split; [by rewrite Hnx|]. intros p c Hc. rewrite Hnx.
  assert (Hp : data_of st p = data_of st' p) by apply Hd. unfold data_of in Hp.
  rewrite Hc in Hp. destruct (cells st !! p) eqn:E; [|done]. by eapply Hw.
Qed.

(** ** Copy on write *)

(** What making [v], a cell [c] of [st], writable promises: a cell with the same
    data [d] that nobody else refers to, every older cell keeping its data;
    [kids] are the references the data holds. *)
Record writable_at (st : Store) (v : ptr) (c : Value) (d : vdata ptr) (kids : list ptr)
    (w : ptr) (st' : Store) : Prop := {
  wr_wf : store_wf st';
  wr_data : data_of st' w = Some d;
  wr_frame : forall p, p <> next_addr st -> data_of st' p = data_of st p;
  wr_heap : current_heap st' = current_heap st;
  wr_unshared : refcount c <= 1 -> w = v /\ st' = st;
  wr_shared : 1 < refcount c ->
    w = next_addr st /\
    (refcount <$> cells st' !! w) = Some 1 /\
    (v ∉ kids ->
     cells st' !! v = Some (set_refcount c (release_count (refcount c))));
}.

Section clone.
Context (st : Store) (v : ptr) (c : Value).
Context (Hwf : store_wf st) (Hv : cells st !! v = Some c).

Lemma v_not_null : v <> NULL.
Proof. destruct Hwf as [_ Hw]. apply Hw in Hv. unfold NULL. lia. Qed.

Lemma needs_cow_hit : value_needs_cow v st = Some (1 <? refcount c, st).
Proof.
  pose proof v_not_null. unfold value_needs_cow. case_if_goal; [done|]. by mstep (load_run _ _ _ Hv).
Qed.

Lemma unshared_writable d kids :
  data c = d -> refcount c <= 1 -> writable_at st v c d kids v st.
Proof.
  intros Hd Hr. split; try done; [by unfold data_of; rewrite Hv; simpl; rewrite Hd|lia].
Qed.

Lemma next_addr_None : cells st !! next_addr st = None.
Proof.
  destruct Hwf as [_ Hlt]. destruct (cells st !! next_addr st) eqn:E; [|done]. apply Hlt in E. lia.
Qed.

(** The clone: a new cell, the references retained, the data filled in, the old
    cell released. *)
Lemma clone_spec {A} (d0 : vdata ptr) (fill : M A) (a : A) (build : A -> vdata ptr) kids :
  1 < refcount c -> Forall (live st) kids ->
  (forall st1, Forall (live st1) kids -> exists st2, fill st1 = Some (a, st2) /\ retained kids st1 st2) ->
  exists w st',
    (new_v ← value_new d0; x ← fill; n ← load new_v;
     write new_v (set_data n (build x)) ;; value_release v ;; mret new_v) st = Some (w, st') /\
    writable_at st v c (build a) kids w st'.
Proof.
  intros Hsh Hlive Hfill. pose proof v_not_null as Hnn. pose proof next_addr_None as Ha.
  set (w := next_addr st) in *.
  set (st1 := mkStore (<[w := mkValue d0 1 (initial_flags d0) 0]> (cells st)) (w + 1) (current_heap st)).
  mstep (eq_refl : value_new d0 st = Some (w, st1)).
  destruct Hwf as [Hnext Hlt].
  assert (Hva : v <> w) by (apply Hlt in Hv; subst w; lia).
  assert (Hold : forall p, p <> w -> cells st1 !! p = cells st !! p).
  { intros p Hp. simpl. by rewrite lookup_insert_ne by done. }
  assert (Hl1 : Forall (live st1) kids).
  { eapply Forall_impl; [exact Hlive|]. intros p [->|(d & Hp & Hr)]; [by left|].
    right. exists d. split; [|done]. rewrite Hold; [done|]. intros ->. congruence. }
  destruct (Hfill st1 Hl1) as (st2 & Hm & [D2 N2 H2 F2 L2]). mstep Hm.
  assert (Hna : w ∉ kids).
  { intros Hin. rewrite Forall_forall in Hlive. destruct (Hlive w Hin) as [Hz|(d & Hp & _)].
    - unfold NULL in Hz. subst w. lia.
    - congruence. }
  assert (Ha2 : cells st2 !! w = Some (mkValue d0 1 (initial_flags d0) 0)).
  { rewrite F2 by done. simpl. apply lookup_insert_eq. }
  mstep (load_run _ _ _ Ha2). mstep (write_run _ _ _ (mkValue (build a) 1 (initial_flags d0) 0) Ha2).
  set (st3 := mkStore _ _ _).
  assert (Hd3 : forall p, p <> w -> data_of st3 p = data_of st p).
  { intros p Hp. transitivity (data_of st2 p).
    - unfold data_of. simpl. by rewrite lookup_insert_ne.
    - rewrite <- D2. unfold data_of. by rewrite Hold. }
  assert (exists c3, cells st3 !! v = Some c3 /\ (v ∉ kids -> c3 = c)) as (c3 & Hc3 & Hc3').
  { specialize (Hd3 v Hva). unfold data_of in Hd3. rewrite Hv in Hd3.
    destruct (cells st3 !! v) as [c2|] eqn:E; [|done]. exists c2. split; [done|].
    intros Hn. simpl in E. rewrite lookup_insert_ne, F2, Hold, Hv in E by done. by simplify_eq. }
  destruct (value_release_frame st3 v c3 Hc3 Hnn) as (st4 & Hr & D4 & C4 & N4 & H4).
  mstep Hr. exists w, st4. split; [done|]. split.
  - eapply store_wf_same; [|exact D4|exact N4].
    assert (HN : next_addr st3 = w + 1) by apply N2. split; rewrite HN; [lia|].
    intros p d Hp. assert (data_of st3 p <> None) by (unfold data_of; rewrite Hp; done).
    destruct (decide (p = w)) as [->|Hpa]; [lia|].
    rewrite Hd3 in H by done. unfold data_of in H. destruct (cells st !! p) eqn:E; [|done].
    apply Hlt in E. subst w. lia.
  - rewrite <- D4. unfold data_of. simpl. by rewrite lookup_insert_eq.
  - intros p Hp. rewrite <- D4. by apply Hd3.
  - rewrite H4. exact H2.
  - lia.
  - intros _. split; [done|]. split.
    + rewrite C4, lookup_insert_ne by done. simpl. by rewrite lookup_insert_eq.
    + intros Hn. rewrite C4, lookup_insert_eq, Hc3' by done. done.
Qed.

End clone.

Section cow.
Context (st : Store) (v : ptr) (c : Value) (cap : Z) (items : list ptr).
Context (Hwf : store_wf st) (Hv : cells st !! v = Some c) (Hd : data c = VArray cap items).

Lemma load_array_hit : load_array v st = Some (Some (c, cap, items), st).
Proof.
  unfold load_array. pose proof (v_not_null st v c Hwf Hv). case_if_goal; [done|].
  mstep (load_run _ _ _ Hv). by rewrite Hd.
Qed.

Lemma array_ensure_writable_spec :
  (1 < refcount c -> Forall (live st) items) ->
  exists w st', array_ensure_writable true v st = Some (w, st') /\
    writable_at st v c (VArray cap items) items w st'.
Proof.
  intros Hlive. unfold array_ensure_writable. mstep load_array_hit.
  mstep (needs_cow_hit st v c Hwf Hv). destruct (Z.ltb_spec 1 (refcount c)) as [Hsh|Hns]; simpl.
  - apply (clone_spec st v c Hwf Hv (VArray cap []) (mapM value_retain items) items (VArray cap)); auto.
    intros st1 H1. by apply mapM_retain_live.
  - exists v, st. split; [done|]. by apply unshared_writable.
Qed.

End cow.

(** ** The write barrier keeps every cell's data *)

Lemma put_heap_run h st : put_heap h st = Some (tt, mkStore (cells st) (next_addr st) (Some h)).
Proof. done. Qed.

Lemma remember_set_add_data ok h st w c :
  cells st !! w = Some c ->
  exists st', remember_set_add ok h w st = Some (tt, st') /\ same_data st st' /\
    next_addr st' = next_addr st.
Proof.
  intros Hc. unfold remember_set_add.
  case_if_goal; [by exists st|]. mstep (load_run _ _ _ Hc).
  case_if_goal; [exists st; done|].
  case_if_goal; [eexists; split; [reflexivity|done]|].
  case_if_goal; [exists st; done|].
  match goal with |- context [put_heap ?h'] => mstep (put_heap_run h' st);
    destruct (write_same_data (mkStore (cells st) (next_addr st) (Some h')) w c
                (value_set_remembered c true) Hc) as (st' & Hw & Hd & _ & Hn & _); [done|] end.
  rewrite Hw. exists st'. split; [done|]. split; [|done]. rewrite <- Hd. done.
Qed.

Lemma gc_write_barrier_data ok st w c item :
  cells st !! w = Some c -> item = NULL \/ is_Some (cells st !! item) ->
  exists st', gc_write_barrier ok w item st = Some (tt, st') /\ same_data st st' /\
    next_addr st' = next_addr st.
Proof.
  intros Hc Hi. unfold gc_write_barrier. mstep (eq_refl (Some (current_heap st, st))).
  destruct (current_heap st) as [h|] eqn:Hh; [|by exists st].
  case_if_goal; [by exists st|]. case_if_goal; [by exists st|].
  destruct Hi as [->|[ci Hci]]; [done|].
  mstep (load_run _ _ _ Hc). mstep (load_run _ _ _ Hci).
  case_if_goal; [|by exists st]. by apply remember_set_add_data with c.
Qed.

(** ** Writers *)

(** The effect of a writer on an array [v] of [st]: the array it returns holds
    [new]; every other cell that existed keeps its data; the returned array is
    [v] itself when [v] had one reference, and a fresh cell otherwise. *)
Record cow_write (st : Store) (v : ptr) (rc : Z) (new : list ptr) (w : ptr) (st' : Store) : Prop := {
  cw_new : exists cap', data_of st' w = Some (VArray cap' new);
  cw_frame : forall p, p ∈ dom (cells st) -> p <> w -> data_of st' p = data_of st p;
  cw_unshared : rc <= 1 -> w = v;
  cw_shared : 1 < rc -> w ∉ dom (cells st);
}.

Section writers.
Context (st : Store) (v : ptr) (c : Value) (cap : Z) (items : list ptr).
Context (Hwf : store_wf st) (Hv : cells st !! v = Some c) (Hd : data c = VArray cap items).
Context (Hlive : 1 < refcount c -> Forall (live st) items).

Lemma next_addr_fresh : next_addr st ∉ dom (cells st).
Proof.
  rewrite elem_of_dom. intros [d Hc]. destruct Hwf as [_ Hw]. apply Hw in Hc. lia.
Qed.

(** [k] runs on a writable cell; if all it changes is that cell's items, the
    operation is a copy-on-write update. *)
Lemma with_writable_cow {B} (dflt : B) (k : ptr -> Value -> Z -> list ptr -> M B) new r :
  (forall w cw st1, cells st1 !! w = Some cw -> data cw = VArray cap items ->
     (forall p, p ∈ dom (cells st) -> data_of st1 p = data_of st p) ->
     exists st2, k w cw cap items st1 = Some (r, st2) /\
       (exists cap', data_of st2 w = Some (VArray cap' new)) /\
       (forall p, p <> w -> data_of st2 p = data_of st1 p)) ->
  exists w st', with_writable true v dflt k st = Some ((w, r), st') /\
    cow_write st v (refcount c) new w st'.
Proof.
  intros Hk.
  destruct (array_ensure_writable_spec st v c cap items Hwf Hv Hd Hlive) as (w & st1 & He & [W1 W2 W3 W4 W5 W6]).
  unfold with_writable. mstep (load_array_hit st v c cap items Hwf Hv Hd). mstep He.
  assert (exists cw, cells st1 !! w = Some cw /\ data cw = VArray cap items) as (cw & Hcw & Hdw).
  { unfold data_of in W2. destruct (cells st1 !! w) as [cw|]; simplify_eq/=. eauto. }
  mstep (load_array_hit st1 w cw cap items W1 Hcw Hdw).
  assert (Hold : forall p, p ∈ dom (cells st) -> data_of st1 p = data_of st p).
  { intros p Hp. apply W3. intros ->. by apply next_addr_fresh in Hp. }
  destruct (Hk w cw st1 Hcw Hdw Hold) as (st2 & Hrun & Hnew & Hframe).
  mstep Hrun. exists w, st2. split; [done|]. split; [done| | |].
  - intros p Hp Hne. rewrite Hframe by done. by apply Hold.
  - intros Hrc. by apply W5.
  - intros Hrc. destruct (W6 Hrc) as [-> _]. apply next_addr_fresh.
Qed.

(** Overwriting the items of the writable cell. *)
Lemma write_items_run st1 w cw cap' new :
  cells st1 !! w = Some cw ->
  exists st2, write w (set_data cw (VArray cap' new)) st1 = Some (tt, st2) /\
    data_of st2 w = Some (VArray cap' new) /\ (forall p, p <> w -> data_of st2 p = data_of st1 p).
Proof.
  intros Hc. eexists. split; [by apply write_run with cw|]. unfold data_of. simpl. split.
  - by rewrite lookup_insert_eq.
  - intros p Hp. by rewrite lookup_insert_ne.
Qed.

(** The barrier, then overwriting the items. *)
Lemma barrier_write_run ok st1 w cw cap' new item :
  cells st1 !! w = Some cw -> item = NULL \/ is_Some (cells st1 !! item) ->
  exists st2,
    (gc_write_barrier ok w item ;; (c' ← load w; write w (set_data c' (VArray cap' new)))) st1
      = Some (tt, st2) /\
    data_of st2 w = Some (VArray cap' new) /\ (forall p, p <> w -> data_of st2 p = data_of st1 p).
Proof.
  intros Hc Hi. destruct (gc_write_barrier_data ok st1 w cw item Hc Hi) as (st2 & Hb & Hs & _).
  mstep Hb. assert (exists c2, cells st2 !! w = Some c2) as [c2 Hc2].
  { specialize (Hs w). unfold data_of in Hs. rewrite Hc in Hs.
    destruct (cells st2 !! w); [eauto|done]. }
  mstep (load_run _ _ _ Hc2). destruct (write_items_run st2 w c2 cap' new Hc2) as (st3 & Hw & Hn & Hf).
  exists st3. split; [done|]. split; [done|]. intros p Hp. rewrite Hf by done. by rewrite Hs.
Qed.

Lemma ensure_capacity_ok n :
  1 <= cap -> 0 <= n -> n < 2 ^ 60 ->
  exists cap', array_ensure_capacity true cap n = Some cap' /\ n <= cap' /\ cap <= cap'.
Proof.
  intros Hc H0 Hn. unfold array_ensure_capacity. case_if_goal; [exists cap; split; [done|lia]|].
  destruct (double_until_total cap n) as (c' & Hdu & ? & ?); [lia..|].
  rewrite Hdu. apply double_until_Some in Hdu; [|done].
  assert (SIZE_MAX / 8 = 2 ^ 61 - 1) as -> by reflexivity.
  case_if_goal; [lia|]. exists c'. split; [done|lia].
Qed.

End writers.

(** *** The reversal loop *)

Lemma reverse_loop_spec fuel a m b :
  length a = length b -> (length m <= fuel)%nat ->
  reverse_loop fuel (length a) (length a + length m - 1) (a ++ m ++ b) = a ++ rev m ++ b.
Proof.
  revert a m b. induction fuel as [|fuel IH]; intros a m b Hab Hf.
  { destruct m; simpl in *; [done|lia]. }
  destruct m as [|x m]; [simpl; case_if_goal; [lia|done]|].
  destruct m as [|y m' _] using rev_ind; [simpl; case_if_goal; [lia|done]|].
  cbn [reverse_loop]. rewrite length_cons, length_app. simpl length.
  rewrite length_cons, length_app in Hf. simpl in Hf.
  case_if_goal; [|lia].
  assert (HL : (a ++ (x :: m' ++ [y]) ++ b) !! length a = Some x).
  { rewrite lookup_app_r by lia. by rewrite Nat.sub_diag. }
  assert (HR : (a ++ (x :: m' ++ [y]) ++ b) !! (length a + S (length m' + 1) - 1)%nat = Some y).
  { rewrite lookup_app_r by lia. rewrite lookup_app_l by (simpl; rewrite length_app; simpl; lia).
    replace (length a + S (length m' + 1) - 1 - length a)%nat with (S (length m')) by lia.
    simpl. rewrite lookup_app_r by lia. by rewrite Nat.sub_diag. }
  rewrite HL, HR.
  assert (Hsw : <[(length a + S (length m' + 1) - 1)%nat := x]>
                  (<[length a := y]> (a ++ (x :: m' ++ [y]) ++ b)) = (a ++ [y]) ++ m' ++ (x :: b)).
  { rewrite <- (app_assoc a [y]). rewrite insert_app_r_alt by lia. rewrite Nat.sub_diag. simpl.
    rewrite insert_app_r_alt by lia. f_equal.
    replace (length a + S (length m' + 1) - 1 - length a)%nat with (S (length m')) by lia. simpl.
    f_equal. rewrite <- app_assoc. rewrite insert_app_r_alt by lia. by rewrite Nat.sub_diag. }
  rewrite Hsw. specialize (IH (a ++ [y]) m' (x :: b)).
  rewrite length_app in IH. simpl in IH.
  replace (length a + 1)%nat with (S (length a)) in IH by lia.
  replace (length a + S (length m' + 1) - 1 - 1)%nat with (S (length a) + length m' - 1)%nat by lia.
  rewrite IH by lia. simpl. rewrite rev_app_distr. simpl. rewrite <- !app_assoc. done.
Qed.

Lemma reverse_loop_rev l :
  reverse_loop (length l) 0 (if (0 <? length l)%nat then (length l - 1)%nat else O) l = rev l.
Proof.
  pose proof (reverse_loop_spec (length l) [] l [] eq_refl ltac:(lia)) as H.
  rewrite !app_nil_r in H. by destruct l; [|exact H].
Qed.

(** ** Properties *)

Section properties.
Context (rem_ok : bool) (st : Store) (v : ptr) (c : Value) (cap : Z) (items : list ptr).
Context (Hwf : store_wf st) (Hv : cells st !! v = Some c) (Hd : data c = VArray cap items).
Context (Hlive : 1 < refcount c -> Forall (live st) items).

Lemma known_item st1 item :
  item = NULL \/ item ∈ dom (cells st) ->
  (forall p, p ∈ dom (cells st) -> data_of st1 p = data_of st p) ->
  item = NULL \/ is_Some (cells st1 !! item).
Proof.
  intros [->|Hi] Hold; [by left|]. right. specialize (Hold item Hi). unfold data_of in Hold.
  apply elem_of_dom in Hi as [d Hi]. rewrite Hi in Hold. by destruct (cells st1 !! item).
Qed.

(** Pushing and inserting: the barrier, room for one more, the new items. *)
Definition extend (item : ptr) (new : list ptr -> list ptr) : M ptr :=
  array_only (with_writable true v tt (fun w c cap items =>
    gc_write_barrier rem_ok w item ;;
    match array_ensure_capacity true cap (Z.of_nat (length items) + 1) with
    | None => mret tt
    | Some cap' => c' ← load w; write w (set_data c' (VArray cap' (new items)))
    end)).

Lemma extend_cow (item : ptr) new
    (Hcap : 1 <= cap) (Hlen : Z.of_nat (length items) + 1 < 2 ^ 60)
    (Hitem : item = NULL \/ item ∈ dom (cells st)) :
  exists w st', extend item new st = Some (w, st') /\
    cow_write st v (refcount c) (new items) w st'.
Proof.
  destruct (ensure_capacity_ok cap (Z.of_nat (length items) + 1)) as (cap' & Hec & _ & _); [lia..|].
  unfold extend, array_only.
  match goal with |- context [with_writable true v tt ?k] =>
    destruct (with_writable_cow st v c cap items Hwf Hv Hd Hlive tt k (new items) tt)
      as (w & st' & Hrun & Hcow) end.
  - intros w cw st1 Hw Hdw Hold. rewrite Hec.
    destruct (barrier_write_run rem_ok st1 w cw cap' (new items) item Hw) as (st2 & Hr & Hn & Hf).
    { by apply known_item. }
    rewrite Hr. eauto 10.
  - exists w, st'. split; [|done]. by mstep Hrun.
Qed.

(** C39: copy on write.  Pushing onto an array returns an array that holds the old
    items followed by the new one and inserting at [index] (clamped to the length)
    puts the item there; the write happens in place when the array has one reference,
    and otherwise in a fresh copy, so that every array, map or other value
    that existed before keeps its contents.  The array has fewer than 2^60 - 1 items,
    which are not being freed if it is shared, and a capacity other than 0; the new
    item is a null pointer or an object of the heap; the allocations of the copy and
    of a larger buffer succeed, that of the remembered set may fail. *)
Theorem array_push_insert_cow (item : ptr) (index : Z)
    (Hcap : 1 <= cap) (Hlen : Z.of_nat (length items) + 1 < 2 ^ 60)
    (Hitem : item = NULL \/ item ∈ dom (cells st)) (Hindex : 0 <= index) :
  (exists w st', array_push true true rem_ok v item st = Some (w, st') /\
     cow_write st v (refcount c) (items ++ [item]) w st') /\
  (exists w st', array_insert true true rem_ok v index item st = Some (w, st') /\
     cow_write st v (refcount c)
       (take (Z.to_nat index) items ++ [item] ++ drop (Z.to_nat index) items) w st').
Proof.
  split.
  - by apply (extend_cow item (fun l => l ++ [item])).
  - set (ins := fun l : list ptr => let len := Z.of_nat (length l) in
      let i := Z.to_nat (if len <? index then len else index) in take i l ++ [item] ++ drop i l).
    assert (ins items = take (Z.to_nat index) items ++ [item] ++ drop (Z.to_nat index) items) as <-.
    { subst ins. simpl. case_if_goal; [|done].
      rewrite (take_ge items (Z.to_nat index)), (drop_ge items (Z.to_nat index)) by lia.
      by rewrite Nat2Z.id, firstn_all, drop_all. }
    by apply (extend_cow item ins).
Qed.

(** Popping returns the last item and an array without it ([NULL] and an
    unchanged array when it is empty), and removing an index in range returns
    that item and closes the gap; both copy first when the array is shared. *)
Theorem array_pop_remove_cow (index : Z) (Hindex : 0 <= index < Z.of_nat (length items)) :
  (exists w st', array_pop true v st = Some ((w, default NULL (last items)), st') /\
     cow_write st v (refcount c) (take (length items - 1) items) w st') /\
  (exists w st', array_remove true v index st
       = Some ((w, default NULL (items !! Z.to_nat index)), st') /\
     cow_write st v (refcount c)
       (take (Z.to_nat index) items ++ drop (S (Z.to_nat index)) items) w st').
Proof.
  split.
  - apply (with_writable_cow st v c cap items Hwf Hv Hd Hlive).
    intros w cw st1 Hw Hdw _. destruct (last items) as [x|] eqn:E.
    2:{ apply last_None in E. subst. simpl in Hindex. lia. }
    destruct (write_items_run st1 w cw cap (take (length items - 1) items) Hw) as (st2 & Hr & Hn & Hf).
    mstep Hr. exists st2. eauto.
  - apply (with_writable_cow st v c cap items Hwf Hv Hd Hlive).
    intros w cw st1 Hw Hdw _. case_if_goal; [lia|].
    destruct (write_items_run st1 w cw cap
      (take (Z.to_nat index) items ++ drop (S (Z.to_nat index)) items) Hw) as (st2 & Hr & Hn & Hf).
    mstep Hr. exists st2. eauto.
Qed.

(** The in-place reversal loop terminates and reverses the items, copying
    first when the array is shared. *)
Theorem array_reverse_cow :
  exists w st', array_reverse true v st = Some (w, st') /\
    cow_write st v (refcount c) (rev items) w st'.
Proof.
  destruct (with_writable_cow st v c cap items Hwf Hv Hd Hlive tt
    (fun w c cap items =>
      let right := if (0 <? length items)%nat then (length items - 1)%nat else O in
      write w (set_data c (VArray cap (reverse_loop (length items) 0 right items)))) (rev items) tt)
    as (w & st' & Hrun & Hcow).
  - intros w cw st1 Hw Hdw _. cbv zeta. rewrite reverse_loop_rev.
    destruct (write_items_run st1 w cw cap (rev items) Hw) as (st2 & Hr & Hn & Hf). eauto 10.
  - exists w, st'. split; [|done]. unfold array_reverse, array_only. by mstep Hrun.
Qed.

End properties.

(** ** Concrete instances: two integers and an array of both with two owners *)

Section instances.

Definition shared_array : Value := mkValue (VArray 8 [2; 3]) 2 0 0.
Definition shared_store : Store :=
  mkStore (<[1 := shared_array]> (<[2 := mkValue (VInt 5) 1 0 0]>
            (<[3 := mkValue (VInt 6) 1 0 0]> ∅))) 4 None.

Lemma store_wf_check st :
  (0 <? next_addr st) && forallb (fun pc => (0 <? pc.1) && (pc.1 <? next_addr st))
     (map_to_list (cells st)) = true -> store_wf st.
Proof.
  intros H. apply andb_true_iff in H as [Hn Hf]. apply Z.ltb_lt in Hn. split; [done|].
  intros p c Hc. rewrite forallb_forall in Hf. specialize (Hf (p, c)).
  rewrite <- list_elem_of_In, elem_of_map_to_list in Hf. specialize (Hf Hc). simpl in Hf. bool_prop. lia.
Qed.

Lemma shared_live : Forall (live shared_store) [2; 3].
Proof.
  assert (Hl : forall n p, cells shared_store !! p = Some (mkValue (VInt n) 1 0 0) -> live shared_store p).
  { intros n p Hp. right. eexists. split; [exact Hp|].
    simpl. unfold REFCOUNT_FREEING, UINT32_MAX. lia. }
  apply Forall_cons. split; [by apply (Hl 5)|]. apply Forall_singleton. by apply (Hl 6).
Qed.

Lemma array_push_insert_cow_witness :
  exists w st', array_push true true true 1 2 shared_store = Some (w, st') /\
    cow_write shared_store 1 2 ([2; 3] ++ [2]) w st'.
Proof.
  apply (array_push_insert_cow true shared_store 1 shared_array 8 [2; 3]
           ltac:(by apply store_wf_check) eq_refl eq_refl (fun _ => shared_live) 2 0);
    [lia|simpl; lia| |lia].
  right. apply elem_of_dom. by eexists.
Defined.

Lemma array_pop_remove_cow_witness :
  exists w st', array_pop true 1 shared_store = Some ((w, 3), st') /\
    cow_write shared_store 1 2 [2] w st'.
Proof.
  apply (array_pop_remove_cow shared_store 1 shared_array 8 [2; 3]
           ltac:(by apply store_wf_check) eq_refl eq_refl (fun _ => shared_live) 0).
  simpl. lia.
Defined.

Lemma array_reverse_cow_witness :
  exists w st', array_reverse true 1 shared_store = Some (w, st') /\
    cow_write shared_store 1 2 [3; 2] w st'.
Proof.
  apply (array_reverse_cow shared_store 1 shared_array 8 [2; 3]
           ltac:(by apply store_wf_check) eq_refl eq_refl (fun _ => shared_live)).
Defined.

End instances.
