(* ===== verification/Strings.v ===== *)
(** * Strings (src/types/string.c)

    Strings are immutable cells that hold their bytes; the bytes of a source
    string may contain NUL only when it was made with an explicit length, and
    the functions that call the C library see it up to the first one ([cstr]).
    The interning cache is a table of 1024 sets of 4 entries; it is modelled as
    one thread uses it. *)

From Stdlib Require Import ZArith Lia.
From stdpp Require Import base numbers list gmap.
From S2P Require Import Prelude Hash Value Array.
Local Open Scope Z_scope.
Local Open Scope agim_scope.

(** ** The C library's string functions *)

Fixpoint starts (needle str : list Z) : bool :=
  match needle, str with
  | [], _ => true
  | c :: needle', d :: str' => (c =? d) && starts needle' str'
  | _ :: _, [] => false
  end.

(** [strstr]: the offset of the first occurrence. *)
Fixpoint strstr (str needle : list Z) : option nat :=
  if starts needle str then Some O
  else match str with
       | [] => None
       | _ :: str' => S <$> strstr str' needle
       end.

(** [strcmp]: the sign of its result. *)
Fixpoint strcmp (a b : list Z) : Z :=
  match a, b with
  | [], [] => 0
  | [], _ :: _ => -1
  | _ :: _, [] => 1
  | c :: a', d :: b' => if c <? d then -1 else if d <? c then 1 else strcmp a' b'
  end.

Definition isspace (c : Z) : bool := (c =? 32) || ((9 <=? c) && (c <=? 13)).
Definition toupper (c : Z) : Z := if (97 <=? c) && (c <=? 122) then c - 32 else c.
Definition tolower (c : Z) : Z := if (65 <=? c) && (c <=? 90) then c + 32 else c.

(** ** Creation and properties *)

Definition value_string_n (str : list Z) (length : nat) : M ptr := value_new (VString (take length str)).
Definition value_string (str : list Z) : M ptr := value_string_n str (strlen str).
Definition value_nil : M ptr := value_new VNil.

(** [!v || v->type != VAL_STRING] is the [None] case. *)
Definition load_string (v : ptr) : M (option (list Z)) :=
  if v =? NULL then mret None else
  c ← load v; mret (match data c with VString s => Some s | _ => None end).

(** Runs [k] on the bytes of a string; anything else gives [dflt]. *)
Definition with_string {A} (v : ptr) (dflt : M A) (k : list Z -> M A) : M A :=
  s ← load_string v; match s with Some s => k s | None => dflt end.

Definition string_length (v : ptr) : M Z := with_string v (mret 0) (fun s => mret (Z.of_nat (length s))).
Definition string_chars (v : ptr) : M Z :=
  with_string v (mret 0) (fun s => mret (Z.of_nat (length (filter (fun c => c .& 0xC0 <> 0x80) s)))).
Definition string_hash (v : ptr) : M Z :=
  with_string v (mret 0) (fun s => mret (agim_hash_string s (length s))).

(** ** Operations *)

Definition string_concat (a b : ptr) : M ptr :=
  with_string a value_nil (fun x => with_string b value_nil (fun y =>
    if SIZE_MAX - Z.of_nat (length y) - 1 <? Z.of_nat (length x) then value_nil else value_new (VString (x ++ y)))).

Definition string_slice (v : ptr) (start end_ : nat) : M ptr :=
  with_string v value_nil (fun s =>
    let start := Nat.min start (length s) in
    let end_ := Nat.min end_ (length s) in
    let start := Nat.min start end_ in
    value_string_n (drop start s) (end_ - start)).

Definition string_index (v : ptr) (index : nat) : M ptr :=
  with_string v value_nil (fun s =>
    if (length s <=? index)%nat then value_nil else value_string_n (drop index s) 1).

Definition string_find (v : ptr) (needle : list Z) : M Z :=
  with_string v (mret (-1)) (fun s =>
    mret (match strstr (cstr s) (cstr needle) with Some i => Z.of_nat i | None => -1 end)).

Definition string_equals (a b : ptr) : M bool :=
  with_string a (mret false) (fun x => with_string b (mret false) (fun y => mret (bool_decide (x = y)))).

Definition string_compare (a b : ptr) : M Z :=
  with_string a (mret 0) (fun x => with_string b (mret 0) (fun y => mret (strcmp (cstr x) (cstr y)))).

(** [value_string_n], whose allocations may fail. *)
Definition try_string (ok : bool) (str : list Z) : M ptr := if ok then value_new (VString str) else mret NULL.

Section splitting.
(** Whether the array can be made, and the string and the slot for each piece. *)
Context (rem_ok array_ok : bool) (item_ok slot_ok : nat -> bool).

(** [while ((pos = strstr(start, delimiter)) != NULL)]: the pieces before each
    delimiter and the rest. *)
Fixpoint split_loop (fuel : nat) (start delim : list Z) : list (list Z) :=
  match fuel, strstr start delim with
  | S fuel', Some pos => take pos start :: split_loop fuel' (drop (pos + length delim) start) delim
  | _, _ => [start]
  end.

(** A piece whose string cannot be made is pushed as a null pointer; one for which
    there is no slot is lost. *)
Definition push_string (k : nat) (result : ptr) (str : list Z) : M ptr :=
  item ← try_string (item_ok k) str; array_push true (slot_ok k) rem_ok result item.

Fixpoint push_strings (k : nat) (result : ptr) (pieces : list (list Z)) : M ptr :=
  match pieces with
  | [] => mret result
  | s :: pieces => result ← push_string k result s; push_strings (S k) result pieces
  end.

Definition string_split (v : ptr) (delimiter : list Z) : M ptr :=
  with_string v (value_array array_ok) (fun s =>
    result ← value_array array_ok;
    let delim := cstr delimiter in
    if (length delim =? 0)%nat then push_strings 0 result ((fun c => [c]) <$> s)
    else push_strings 0 result (split_loop (S (length (cstr s))) (cstr s) delim)).

End splitting.

(** The bytes of an item that is a string. *)
Definition item_bytes (item : ptr) : M (list Z) := with_string item (mret []) mret.

Definition join_bytes (sep : list Z) (pieces : list (list Z)) : list Z :=
  match pieces with
  | [] => []
  | p :: ps => p ++ concat ((fun q => sep ++ q) <$> ps)
  end.

(** The buffer has [total + 1] bytes, computed with wrap-around, and is written without
    a check whether it could be allocated. *)
Definition string_join (buf_ok ok : bool) (arr : ptr) (separator : list Z) : M ptr :=
  a ← load_array arr;
  match a with
  | None => try_string ok []
  | Some (_, _, items) =>
      if (length items =? 0)%nat then try_string ok []
      else
        pieces ← mapM item_bytes items;
        let bytes := join_bytes (cstr separator) pieces in let total := u64 (Z.of_nat (length bytes)) in
        if negb buf_ok || (u64 (total + 1) <=? Z.of_nat (length bytes)) then ub
        else try_string ok (take (Z.to_nat total) bytes)
  end.

Fixpoint skip_space (s : list Z) : list Z :=
  match s with c :: s' => if isspace c then skip_space s' else s | [] => [] end.
Definition trim (s : list Z) : list Z := rev (skip_space (rev (skip_space s))).
Definition string_trim (v : ptr) : M ptr := with_string v value_nil (fun s => value_new (VString (trim s))).
Definition string_upper (v : ptr) : M ptr := with_string v value_nil (fun s => value_new (VString (toupper <$> s))).
Definition string_lower (v : ptr) : M ptr := with_string v value_nil (fun s => value_new (VString (tolower <$> s))).

(** [count] of [string_replace]. *)
Fixpoint count_loop (fuel : nat) (pos old : list Z) : nat :=
  match fuel, strstr pos old with
  | S fuel', Some i => S (count_loop fuel' (drop (i + length old) pos) old)
  | _, _ => O
  end.

(** The bytes the copying loop leaves in the buffer, the NUL included. *)
Fixpoint replace_loop (fuel : nat) (src old new : list Z) : list Z :=
  match fuel, strstr src old with
  | S fuel', Some i => take i src ++ new ++ replace_loop fuel' (drop (i + length old) src) old new
  | _, _ => src ++ [0]
  end.

(** [result_len]; [None] when it would overflow. *)
Definition replace_length (len count old_len new_len : Z) : option Z :=
  if old_len <=? new_len then
    let diff := new_len - old_len in
    if (0 <? diff) && (SIZE_MAX / diff <? count) then None
    else if SIZE_MAX - len <? u64 (count * diff) then None
    else Some (len + u64 (count * diff))
  else Some (u64 (len - u64 (count * (old_len - new_len)))).

(** Reading the buffer behind what the loop has written is undefined. *)
Definition string_replace (v : ptr) (old_str new_str : list Z) : M ptr :=
  with_string v value_nil (fun s =>
    let str := cstr s in let old := cstr old_str in let new := cstr new_str in
    if (length old =? 0)%nat then value_string_n s (length s) else
    let count := count_loop (S (length str)) str old in
    if (count =? 0)%nat then value_string_n s (length s) else
    match replace_length (Z.of_nat (length s)) (Z.of_nat count) (Z.of_nat (length old)) (Z.of_nat (length new)) with
    | None => value_nil
    | Some len =>
        let buf := replace_loop (S (length str)) str old new in
        if Z.of_nat (length buf) <? len then ub else value_string_n buf (Z.to_nat len)
    end).

Definition string_starts_with (v : ptr) (prefix : list Z) : M bool :=
  with_string v (mret false) (fun s => mret (starts (cstr prefix) s)).
Definition string_ends_with (v : ptr) (suffix : list Z) : M bool :=
  with_string v (mret false) (fun s =>
    let n := length (cstr suffix) in
    if (length s <? n)%nat then mret false else mret (starts (cstr suffix) (drop (length s - n) s))).

(** ** Interning *)

Definition INTERN_CACHE_SETS : Z := 1024.
Definition INTERN_CACHE_WAYS : nat := 4.

(** [intern_cache]: the entries of each set. *)
Definition InternCache : Type := list (list ptr).
Definition intern_cache_init : InternCache := replicate (Z.to_nat INTERN_CACHE_SETS) (replicate INTERN_CACHE_WAYS NULL).

(** The search through the ways of a set. *)
Fixpoint find_way (entries : list ptr) (str : list Z) : M (option ptr) :=
  match entries with
  | [] => mret None
  | cached :: rest =>
      s ← load_string cached;
      if bool_decide (s = Some str) then
        retained ← value_retain cached;
        if retained =? NULL then find_way rest str else mret (Some retained)
      else find_way rest str
  end.

Definition string_intern (cache : InternCache) (str : list Z) : M (ptr * InternCache) :=
  let hash := agim_hash_string str (length str) in
  let set_idx := Z.to_nat (hash mod INTERN_CACHE_SETS) in
  let entries := default [] (cache !! set_idx) in
  found ← find_way entries str;
  match found with
  | Some v => mret (v, cache)
  | None =>
      v ← value_string_n str (length str);
      value_retain v ;;
      (let way := Z.to_nat ((hash .>> 8) mod Z.of_nat INTERN_CACHE_WAYS) in
       let expected := default NULL (entries !! way) in
       value_release expected ;;
       mret (v, <[set_idx := <[way := v]> entries]> cache))
  end.

(** ** Searching and splitting bytes *)

Lemma starts_spec needle str : starts needle str = true <-> exists rest, str = needle ++ rest.
Proof.
  revert str. induction needle as [|c needle IH]; intros [|d str]; simpl.
  1,2: split; eauto.
  - split; [done|]. by intros [rest [=]].
  - rewrite andb_true_iff, Z.eqb_eq, IH. split.
    + intros [-> [rest ->]]. by exists rest.
    + intros [rest [= -> ->]]. eauto.
Qed.

(** [strstr] finds an occurrence, and none starts earlier. *)
Lemma strstr_Some str needle i : strstr str needle = Some i ->
  exists rest, str = take i str ++ needle ++ rest /\ (i <= length str)%nat /\
    forall j, (j < i)%nat -> starts needle (drop j str) = false.
Proof.
  revert i. induction str as [|c str IH]; intros i; simpl.
  - destruct (starts needle []) eqn:E; [|done]. intros [= <-]. apply starts_spec in E as [rest ->].
    exists rest. split_and!; [done|simpl; lia|lia].
  - destruct (starts needle (c :: str)) eqn:E.
    { intros [= <-]. apply starts_spec in E as [rest E]. exists rest. split_and!; [by rewrite take_0|lia|lia]. }
    destruct (strstr str needle) as [k|] eqn:Ek; simpl; [|done]. intros [= <-].
    destruct (IH k eq_refl) as (rest & Hs & Hk & Hj). exists rest. simpl. split_and!; [by f_equal|lia|].
    intros [|j] Hlt; [done|]. simpl. apply Hj. lia.
Qed.

Lemma strstr_None str needle : strstr str needle = None <-> forall a b, str <> a ++ needle ++ b.
Proof.
  induction str as [|c str IH]; simpl.
  - destruct (starts needle []) eqn:E; split; try done.
    + intros H. apply starts_spec in E as [rest E]. by destruct (H [] rest).
    + intros _ a b H. symmetry in H. apply app_eq_nil in H as [-> H].
      assert (starts needle [] = true) by (apply starts_spec; eauto). congruence.
  - destruct (starts needle (c :: str)) eqn:E.
    { split; [done|]. intros H. apply starts_spec in E as [rest E]. by destruct (H [] rest). }
    rewrite fmap_None, IH. split.
    + intros H [|d a] b; simpl; intros Hc.
      * assert (starts needle (c :: str) = true) by (apply starts_spec; eauto). congruence.
      * injection Hc as -> ->. by eapply H.
    + intros H a b ->. by apply (H (c :: a) b).
Qed.

Lemma split_step str delim i : strstr str delim = Some i -> delim <> [] ->
  str = take i str ++ delim ++ drop (i + length delim) str /\
  (length (drop (i + length delim) str) < length str)%nat.
Proof.
  intros H Hd. destruct (strstr_Some _ _ _ H) as (rest & Hs & Hi & _).
  assert (drop (i + length delim) str = rest) as ->.
  { rewrite Hs at 1. rewrite app_assoc, drop_app_length'; [done|].
    rewrite length_app, length_take. lia. }
  split; [done|]. assert (length str = (i + length delim + length rest)%nat) as ->.
  { rewrite Hs at 1. rewrite !length_app, length_take. lia. }
  destruct delim; [done|simpl; lia].
Qed.

Lemma split_loop_cons fuel str delim : exists p ps, split_loop fuel str delim = p :: ps.
Proof. destruct fuel; simpl; [eauto|]. destruct (strstr str delim); eauto. Qed.

Lemma join_cons sep p q ps : join_bytes sep (p :: q :: ps) = p ++ sep ++ join_bytes sep (q :: ps).
Proof. simpl. by rewrite <- !app_assoc. Qed.

(** With fuel for every character the loop ends by itself: the pieces joined
    give the text back and none of them contains the delimiter. *)
Lemma split_loop_spec delim : delim <> [] -> forall fuel str, (length str < fuel)%nat ->
  join_bytes delim (split_loop fuel str delim) = str /\
  Forall (fun p => strstr p delim = None) (split_loop fuel str delim).
Proof.
  intros Hd. induction fuel as [|fuel IH]; intros str Hf; [lia|]. simpl.
  destruct (strstr str delim) as [i|] eqn:E.
  2:{ simpl. rewrite app_nil_r. split; [done|]. by repeat constructor. }
  destruct (split_step _ _ _ E Hd) as [Hs Hlt].
  destruct (IH (drop (i + length delim) str)) as (H1 & H2); [lia|].
  destruct (split_loop_cons fuel (drop (i + length delim) str) delim) as (p & ps & Eq).
  rewrite Eq in *. rewrite join_cons, H1. split; [done|]. constructor; [|done].
  apply strstr_None. intros a b Ht. destruct (strstr_Some _ _ _ E) as (rest & Hs' & Hi & Hj).
  assert (Hlen : (length a + length delim + length b = i)%nat).
  { apply (f_equal length) in Ht. rewrite length_take, !length_app in Ht. lia. }
  assert (Hne : (0 < length delim)%nat) by (destruct delim; [done|simpl; lia]).
  specialize (Hj (length a)). rewrite Hs', Ht, <- !app_assoc, drop_app_length in Hj.
  assert (starts delim (delim ++ b ++ delim ++ rest) = true) by (apply starts_spec; eauto).
  rewrite Hj in *; [done|lia].
Qed.

(** Counting and replacing walk the same pieces. *)
Lemma count_loop_split fuel str old :
  length (split_loop fuel str old) = S (count_loop fuel str old).
Proof.
  revert str. induction fuel as [|fuel IH]; intros str; simpl; [done|].
  destruct (strstr str old); simpl; [by rewrite IH|done].
Qed.

Lemma replace_loop_split fuel str old new :
  replace_loop fuel str old new = join_bytes new (split_loop fuel str old) ++ [0].
Proof.
  revert str. induction fuel as [|fuel IH]; intros str; simpl; [by rewrite app_nil_r|].
  destruct (strstr str old) as [i|]; [|by simpl; rewrite app_nil_r]. rewrite IH.
  destruct (split_loop_cons fuel (drop (i + length old) str) old) as (p & ps & ->).
  rewrite join_cons. by rewrite <- !app_assoc.
Qed.

Lemma join_length sep p ps :
  Z.of_nat (length (join_bytes sep (p :: ps))) =
  Z.of_nat (length (concat (p :: ps))) + Z.of_nat (length ps) * Z.of_nat (length sep).
Proof.
  simpl. rewrite !length_app. induction ps as [|q ps IH]; [simpl; lia|].
  cbn [fmap list_fmap concat length]. rewrite !length_app. rewrite Nat2Z.inj_succ, Z.mul_succ_l. lia.
Qed.

(** ** Building arrays of strings *)

Lemma barrier_skips_young ok w item c ci st :
  cells st !! w = Some c -> cells st !! item = Some ci -> value_is_old_gen c = false ->
  gc_write_barrier ok w item st = Some (tt, st).
Proof.
  intros Hw Hi Ho. unfold gc_write_barrier, mbind, M_bind. unfold get_heap at 1.
  destruct (current_heap st) as [h|]; [|done]. destruct (generational_enabled h); [|done]. simpl.
  destruct (w =? NULL), (item =? NULL); try done. simpl.
  rewrite (load_run _ _ _ Hw), (load_run _ _ _ Hi). by rewrite Ho.
Qed.

(** The cells of a store with one rewritten. *)
Definition put_cell (st : Store) (p : ptr) (c : Value) : Store :=
  mkStore (<[p := c]> (cells st)) (next_addr st) (current_heap st).

(** Pushing onto a young array that is not shared rewrites its cell only. *)
Lemma array_push_own ok st v c cap items item ci :
  store_wf st -> cells st !! v = Some c -> data c = VArray cap items -> refcount c <= 1 ->
  value_is_old_gen c = false -> cells st !! item = Some ci ->
  1 <= cap -> Z.of_nat (length items) + 1 < 2 ^ 60 ->
  exists cap', 1 <= cap' /\
    array_push true true ok v item st = Some (v, put_cell st v (set_data c (VArray cap' (items ++ [item])))).
Proof.
  intros Hwf Hv Hd Hrc Ho Hi Hcap Hlen.
  destruct (ensure_capacity_ok cap (Z.of_nat (length items) + 1)) as (cap' & Hec & _ & Hge); [lia..|].
  exists cap'. split; [lia|]. unfold array_push, array_only, with_writable, array_ensure_writable, value_needs_cow.
  assert (v =? NULL = false) as En by (destruct Hwf as [_ Hw]; apply Hw in Hv; unfold NULL; lia).
  pose proof (load_array_hit st v c cap items Hwf Hv Hd) as Hla.
  unfold mbind, M_bind. rewrite !Hla, En, (load_run _ _ _ Hv). cbn.
  destruct (Z.ltb_spec 1 (refcount c)); [lia|]. cbn. rewrite Hla, (barrier_skips_young _ _ _ _ _ _ Hv Hi Ho), Hec.
  rewrite (load_run _ _ _ Hv), (write_run _ _ _ _ Hv). done.
Qed.

Definition strings_at (st : Store) (items : list ptr) (pieces : list (list Z)) : Prop :=
  Forall2 (fun p s => data_of st p = Some (VString s)) items pieces.

Lemma value_new_fresh st : store_wf st -> cells st !! next_addr st = None.
Proof.
  intros [_ Hw]. destruct (cells st !! next_addr st) eqn:E; [|done]. apply Hw in E. lia.
Qed.

Lemma value_new_keeps_wf st d p st' : store_wf st -> value_new d st = Some (p, st') -> store_wf st'.
Proof.
  intros [Hn Hw] [= <- <-]. split; simpl; [lia|]. intros q c. rewrite lookup_insert.
  case_decide; [subst; intros _; lia|]. intros Hq. apply Hw in Hq. lia.
Qed.

Lemma push_strings_run ok pieces : forall k st v c cap items,
  store_wf st -> cells st !! v = Some c -> data c = VArray cap items -> refcount c <= 1 ->
  value_is_old_gen c = false -> 1 <= cap -> Z.of_nat (length items + length pieces) < 2 ^ 60 ->
  exists st' cap' new, push_strings ok (fun _ => true) (fun _ => true) k v pieces st = Some (v, st') /\ store_wf st' /\
    data_of st' v = Some (VArray cap' (items ++ new)) /\ strings_at st' new pieces /\
    (dom (cells st) ⊆ dom (cells st') /\ NoDup new /\ forall p, p ∈ new -> p ∉ dom (cells st)) /\
    (forall p, p ∈ dom (cells st) -> p <> v -> data_of st' p = data_of st p).
Proof.
  induction pieces as [|s pieces IH]; intros k st v c cap items Hwf Hv Hd Hrc Ho Hcap Hlen; simpl in *.
  { exists st, cap, []. split_and!; [done|done| |constructor|done|constructor|by intros p ?%not_elem_of_nil|done].
    unfold data_of. rewrite Hv. simpl. by rewrite Hd, app_nil_r. }
  unfold push_string, try_string. set (st1 := mkStore (<[next_addr st := mkValue (VString s) 1 VALUE_IMMUTABLE 0]> (cells st))
    (next_addr st + 1) (current_heap st)).
  assert (Hnew : value_new (VString s) st = Some (next_addr st, st1)) by done.
  pose proof (value_new_keeps_wf _ _ _ _ Hwf Hnew) as Hwf1. pose proof (value_new_fresh st Hwf) as Hfr.
  assert (Hv1 : cells st1 !! v = Some c) by (simpl; rewrite lookup_insert_ne; congruence).
  destruct (array_push_own ok st1 v c cap items (next_addr st) _ Hwf1 Hv1 Hd Hrc Ho (lookup_insert_eq _ _ _))
    as (cap1 & Hcap1 & Hpush); [lia..|].
  assert (Hstep : (item ← value_new (VString s); array_push true true ok v item) st =
    Some (v, put_cell st1 v (set_data c (VArray cap1 (items ++ [next_addr st]))))).
  { by mstep Hnew. }
  mstep Hstep. set (st2 := put_cell st1 v _).
  assert (Hwf2 : store_wf st2) by (by eapply store_wf_insert).
  destruct (IH (S k) st2 v (set_data c (VArray cap1 (items ++ [next_addr st]))) cap1 (items ++ [next_addr st]))
    as (st' & cap' & new & Hrun & Hwf' & Hdv & Hs & (Hdom & Hnd & Hnew') & Hf); [done| |done..| |].
  { simpl. by rewrite lookup_insert_eq. }
  { rewrite length_app. simpl. lia. }
  assert (Hne : next_addr st <> v) by congruence.
  assert (Hd2 : forall p, p <> v -> data_of st2 p = data_of st1 p).
  { intros p Hp. unfold data_of. simpl. by rewrite lookup_insert_ne. }
  assert (Hdom2 : dom (cells st2) = {[next_addr st]} ∪ dom (cells st)).
  { simpl. rewrite !dom_insert_L. assert (v ∈ dom (cells st)) by (apply elem_of_dom; eauto). set_solver. }
  exists st', cap', (next_addr st :: new). split_and!; [done|done|by rewrite Hdv, <- app_assoc| |set_solver| | |].
  2:{ constructor; [|done]. intros Hin%Hnew'. set_solver. }
  2:{ intros p [->|Hp]%elem_of_cons; [by apply not_elem_of_dom|]. apply Hnew' in Hp. set_solver. }
  - constructor; [|done]. rewrite Hf; [|simpl; set_solver|done]. rewrite Hd2 by done.
    unfold data_of. simpl. by rewrite lookup_insert_eq.
  - intros p Hp Hpv. rewrite Hf; [|simpl; set_solver|done]. rewrite Hd2 by done.
    unfold data_of. simpl. rewrite lookup_insert_ne; [done|]. intros <-. apply elem_of_dom in Hp as [? Hp]. congruence.
Qed.

Lemma load_string_hit st v s : store_wf st -> data_of st v = Some (VString s) -> load_string v st = Some (Some s, st).
Proof.
  intros [_ Hw] H. unfold data_of in H. apply fmap_Some in H as (c & Hc & Hd). unfold load_string.
  destruct (Z.eqb_spec v NULL) as [->|]; [apply Hw in Hc; unfold NULL in Hc; lia|].
  mstep (load_run _ _ _ Hc). by rewrite <- Hd.
Qed.

Lemma with_string_hit {A} st v s (dflt : M A) k :
  store_wf st -> data_of st v = Some (VString s) -> with_string v dflt k st = k s st.
Proof. intros Hwf H. unfold with_string. by mstep (load_string_hit _ _ _ Hwf H). Qed.

Lemma item_bytes_run st items pieces :
  store_wf st -> strings_at st items pieces -> mapM item_bytes items st = Some (pieces, st).
Proof.
  intros Hwf. induction 1 as [|p s items pieces H _ IH]; [done|]. simpl.
  assert (item_bytes p st = Some (s, st)) as Hp by (unfold item_bytes; by rewrite (with_string_hit _ _ _ _ _ Hwf H)).
  mstep Hp. by mstep IH.
Qed.

Lemma string_join_run st arr cap items pieces sep :
  store_wf st -> data_of st arr = Some (VArray cap items) -> strings_at st items pieces -> is_cstr sep ->
  Z.of_nat (length (join_bytes sep pieces)) < 2 ^ 59 ->
  exists r st', string_join true true arr sep st = Some (r, st') /\ r ∉ dom (cells st) /\
    data_of st' r = Some (VString (join_bytes sep pieces)).
Proof.
  intros Hwf Ha Hs Hsep Hlen. unfold data_of in Ha. apply fmap_Some in Ha as (c & Hc & Hd). symmetry in Hd.
  assert (Hfresh : next_addr st ∉ dom (cells st)) by (by apply not_elem_of_dom, value_new_fresh).
  unfold string_join. mstep (load_array_hit st arr c cap items Hwf Hc Hd). rewrite (is_cstr_cstr sep Hsep).
  destruct items as [|p items]; simpl.
  - inversion Hs; subst. eexists _, _. split; [done|]. split; [done|]. unfold data_of. simpl. by rewrite lookup_insert_eq.
  - mstep (item_bytes_run _ _ _ Hwf Hs). rewrite (u64_small (Z.of_nat _)), u64_small by (unfold is_u64; lia).
    destruct (Z.leb_spec (Z.of_nat (length (join_bytes sep pieces)) + 1) (Z.of_nat (length (join_bytes sep pieces)))); [lia|].
    rewrite Nat2Z.id, firstn_all. eexists _, _. split; [done|]. split; [done|]. unfold data_of. simpl. by rewrite lookup_insert_eq.
Qed.

Lemma split_loop_length fuel str delim : delim <> [] -> (length str < fuel)%nat ->
  (length (split_loop fuel str delim) <= S (length str))%nat.
Proof.
  intros Hd. revert str. induction fuel as [|fuel IH]; intros str Hf; [lia|]. simpl.
  destruct (strstr str delim) as [i|] eqn:E; simpl; [|lia].
  destruct (split_step _ _ _ E Hd) as [_ Hlt]. specialize (IH (drop (i + length delim) str)). lia.
Qed.

Lemma join_singletons s : join_bytes [] ((fun c => [c]) <$> s) = s.
Proof.
  destruct s as [|c s]; [done|]. simpl. f_equal. induction s as [|d s IH]; [done|]. simpl. by f_equal.
Qed.

(** ** Properties *)

(** C17: splitting a string without NUL bytes, shorter than 2^59 bytes, at a delimiter
    without NUL bytes and joining the pieces gives the string back, when every
    allocation succeeds.  The array, its items and the result are new values, each
    item another one; no piece contains the delimiter (with an empty delimiter they
    are the single characters); every value that existed keeps its contents; and
    joining the pieces with the delimiter makes a string with the original bytes. *)
Theorem string_split_join ok st v s delim :
  store_wf st -> data_of st v = Some (VString s) -> is_cstr s -> is_cstr delim -> Z.of_nat (length s) < 2 ^ 59 ->
  exists arr st1 cap items pieces r st2,
    string_split ok true (fun _ => true) (fun _ => true) v delim st = Some (arr, st1) /\
    data_of st1 arr = Some (VArray cap items) /\ strings_at st1 items pieces /\
    arr ∉ dom (cells st) /\ NoDup items /\ (forall p, p ∈ items -> p ∉ dom (cells st) /\ p <> arr) /\
    Forall (fun p => if decide (delim = []) then length p = 1%nat else strstr p delim = None) pieces /\
    (forall p, p ∈ dom (cells st) -> data_of st1 p = data_of st p) /\
    string_join true true arr delim st1 = Some (r, st2) /\ r ∉ dom (cells st1) /\ data_of st2 r = Some (VString s).
Proof.
  intros Hwf Hv Hs Hdl Hlen. unfold string_split. rewrite (with_string_hit _ _ _ _ _ Hwf Hv).
  set (pieces := if (length delim =? 0)%nat then (fun c => [c]) <$> s else split_loop (S (length s)) s delim).
  assert (Hp : join_bytes delim pieces = s /\
    Forall (fun p => if decide (delim = []) then length p = 1%nat else strstr p delim = None) pieces /\
    (length pieces <= S (length s))%nat).
  { subst pieces. destruct delim as [|d delim].
    - simpl. rewrite join_singletons, length_fmap. split_and!; [done| |lia]. by apply Forall_fmap, Forall_true.
    - destruct (split_loop_spec (d :: delim) ltac:(done) (S (length s)) s) as [H1 H2]; [lia|].
      change (length (d :: delim) =? 0)%nat with false. cbv iota.
      split_and!; [done|done|]. apply split_loop_length; [done|lia]. }
  destruct Hp as (Hj & Hpieces & Hcount).
  set (st0 := mkStore (<[next_addr st := mkValue (VArray 8 []) 1 0 0]> (cells st)) (next_addr st + 1) (current_heap st)).
  assert (Hnew : value_array true st = Some (next_addr st, st0)) by done.
  pose proof (value_new_keeps_wf st (VArray 8 []) _ _ Hwf Hnew) as Hwf0.
  destruct (push_strings_run ok pieces 0 st0 (next_addr st) (mkValue (VArray 8 []) 1 0 0) 8 [])
    as (st1 & cap & items & Hrun & Hwf1 & Hd1 & Hs1 & (_ & Hnd & Hnew') & Hf1); [done|apply lookup_insert_eq|done..|simpl; lia|].
  destruct (string_join_run st1 (next_addr st) cap items pieces delim Hwf1 Hd1 Hs1 Hdl) as (r & st2 & Hr & Hrf & Hr2); [by rewrite Hj|].
  rewrite Hj in Hr2. exists (next_addr st), st1, cap, items, pieces, r, st2. split_and!; try done.
  - mstep Hnew. rewrite (is_cstr_cstr _ Hdl), (is_cstr_cstr _ Hs). subst pieces. by destruct (length delim =? 0)%nat.
  - by apply not_elem_of_dom, value_new_fresh.
  - intros p Hin%Hnew'. simpl in Hin. set_solver.
  - intros p Hpd. assert (p <> next_addr st) as Hne.
    { intros ->. apply elem_of_dom in Hpd as [? Hpd]. by rewrite (value_new_fresh _ Hwf) in Hpd. }
    rewrite Hf1; [|simpl; set_solver|done]. unfold data_of. simpl. by rewrite lookup_insert_ne.
Qed.

Lemma replace_length_exact (text count old new : Z) :
  0 <= text -> 0 <= count -> 0 <= old -> 0 <= new -> text + count * old <= SIZE_MAX -> text + count * new <= SIZE_MAX ->
  replace_length (text + count * old) count old new = Some (text + count * new).
Proof.
  unfold replace_length. intros Ht Hc Ho Hn Hmax1 Hmax2.
  assert (Hmul : 0 <= count * old /\ 0 <= count * new) by nia.
  destruct (Z.leb_spec old new) as [Hle|Hlt].
  - assert (Hsub : count * (new - old) = count * new - count * old) by ring.
    assert (Hd : 0 <= count * (new - old)) by nia. unfold SIZE_MAX in *.
    destruct (Z.ltb_spec 0 (new - old)) as [Hpos|Hzero]; simpl.
    + destruct (Z.ltb_spec ((2 ^ 64 - 1) / (new - old)) count) as [Hdiv|_].
      { exfalso. pose proof (Z.div_lt_upper_bound (2 ^ 64 - 1) (new - old) count). 
        assert (count <= (2 ^ 64 - 1) / (new - old)) by (apply Z.div_le_lower_bound; lia). lia. }
      rewrite u64_small by (unfold is_u64; lia). destruct (Z.ltb_spec (2 ^ 64 - 1 - (text + count * old)) (count * (new - old))); [lia|].
      f_equal. lia.
    + rewrite u64_small by (unfold is_u64; lia). destruct (Z.ltb_spec (2 ^ 64 - 1 - (text + count * old)) (count * (new - old))); [lia|].
      f_equal. lia.
  - assert (Hsub : count * (old - new) = count * old - count * new) by ring. unfold SIZE_MAX in *.
    rewrite (u64_small (count * _)) by (unfold is_u64; nia). rewrite u64_small by (unfold is_u64; nia). f_equal. lia.
Qed.

(** Replacing is splitting at the old text and joining with the new one: the
    lengths that [string_replace] computes beforehand, with their overflow
    checks, are those of the bytes its copying loop writes, so the loop stays
    inside the buffer and the result is complete. *)
Theorem string_replace_splits st v s old new :
  let result := join_bytes new (split_loop (S (length s)) s old) in
  store_wf st -> data_of st v = Some (VString s) -> is_cstr s -> is_cstr old -> is_cstr new -> old <> [] ->
  Z.of_nat (length s) <= SIZE_MAX -> Z.of_nat (length result) <= SIZE_MAX ->
  exists r st', string_replace v old new st = Some (r, st') /\ data_of st' r = Some (VString result).
Proof.
  intros result Hwf Hv Hs Ho Hn Hne Hl1 Hl2. unfold string_replace. rewrite (with_string_hit _ _ _ _ _ Hwf Hv).
  cbv zeta. rewrite (is_cstr_cstr _ Hs), (is_cstr_cstr _ Ho), (is_cstr_cstr _ Hn).
  destruct (split_loop_spec old Hne (S (length s)) s) as [Hjoin _]; [lia|].
  pose proof (count_loop_split (S (length s)) s old) as Hcount.
  pose proof (replace_loop_split (S (length s)) s old new) as Hrep.
  set (n := count_loop (S (length s)) s old) in *. destruct (Nat.eqb_spec (length old) 0); [by destruct old|].
  subst result. destruct (split_loop (S (length s)) s old) as [|p ps] eqn:Es; [done|]. simpl in Hcount.
  assert (n = length ps) as Hn' by lia. clearbody n. subst n. clear Hcount.
  pose proof (join_length old p ps) as L1. pose proof (join_length new p ps) as L2. rewrite Hjoin in L1.
  destruct (Nat.eqb_spec (length ps) 0) as [E0|Hps].
  { destruct ps; [|done]. simpl in Hjoin |- *. rewrite !app_nil_r in *. subst p.
    eexists _, _. split; [done|]. unfold data_of. simpl. by rewrite lookup_insert_eq, firstn_all. }
  rewrite L1, replace_length_exact; [|try lia..]. rewrite <- L2, Hrep.
  rewrite length_app. destruct (Z.ltb_spec (Z.of_nat (length (join_bytes new (p :: ps)) + length [0])) (Z.of_nat (length (join_bytes new (p :: ps))))); [lia|].
  eexists _, _. split; [done|]. unfold data_of. cbn [cells]. rewrite lookup_insert_eq, Nat2Z.id. cbn [fmap option_fmap option_map data].
  by rewrite take_app_length.
Qed.

(** The caches a program reaches by interning strings. *)
Inductive interned : InternCache -> Prop :=
  | interned_init : interned intern_cache_init
  | interned_step cache str st v cache' st' :
      interned cache -> string_intern cache str st = Some ((v, cache'), st') -> interned cache'.

Lemma string_intern_cache cache str st v cache' st' :
  string_intern cache str st = Some ((v, cache'), st') ->
  cache' = cache \/ exists set_idx es p, cache !! set_idx = Some es /\
    cache' = <[set_idx := <[(set_idx / 256)%nat := p]> es]> cache.
Proof.
  unfold string_intern. set (hash := agim_hash_string str (length str)). intros H.
  pose proof (agim_hash_string_range str (length str)) as Hh. fold hash in Hh. clearbody hash.
  set (i := Z.to_nat (hash mod INTERN_CACHE_SETS)) in *.
  assert (Hway : Z.to_nat ((hash .>> 8) mod Z.of_nat INTERN_CACHE_WAYS) = (i / 256)%nat).
  { subst i. unfold INTERN_CACHE_SETS. change (Z.of_nat INTERN_CACHE_WAYS) with 4.
    rewrite Z.shiftr_div_pow2 by lia. change (2 ^ 8) with 256. apply Nat2Z.inj.
    rewrite Nat2Z.inj_div. rewrite !Z2Nat.id by (apply Z.mod_pos_bound; lia). change (Z.of_nat 256) with 256.
    replace 1024 with (256 * 4) by lia. rewrite Z.rem_mul_r by lia. rewrite Z.add_comm, Z.mul_comm, Z.div_add_l by lia.
    rewrite (Z.div_small (hash mod 256)) by (apply Z.mod_pos_bound; lia). lia. }
  rewrite Hway in H. clear Hway. unfold mbind, M_bind in H.
  destruct (find_way (default [] (cache !! i)) str st) as [[[w|] s1]|]; [injection H as -> -> _; by left| |done].
  destruct (value_string_n str (length str) s1) as [[w s2]|]; [|done].
  destruct (value_retain w s2) as [[r s3]|]; [|done].
  destruct (value_release (default NULL (default [] (cache !! i) !! (i / 256)%nat)) s3) as [[u s4]|]; [|done].
  injection H as -> <- _. destruct (cache !! i) as [es|] eqn:Ei.
  - right. exists i, es, v. by simpl.
  - left. apply list_insert_ge. by apply lookup_ge_None.
Qed.

(** The interning cache is direct-mapped.  Its sets have four entries and
    its comment speaks of a four-way cache of 4096 strings, but the entry a string goes into is
    chosen by two bits of the hash that also choose the set: whatever strings
    a program interns, each set only ever uses one of its four entries. *)
Theorem intern_cache_direct_mapped cache set_idx entries way p :
  interned cache -> cache !! set_idx = Some entries -> entries !! way = Some p ->
  way <> (set_idx / 256)%nat -> p = NULL.
Proof.
  intros H. revert set_idx entries way p. induction H as [|cache str st v cache' st' _ IH Hrun]; intros i es w p Hi Hw Hne.
  - apply lookup_replicate_1 in Hi as [-> _]. by apply lookup_replicate_1 in Hw as [-> _].
  - apply string_intern_cache in Hrun as [->|(j & es0 & q & Hj & ->)]; [by eapply IH|].
    unfold InternCache in *. destruct (decide (i = j)) as [->|Hij].
    + rewrite list_lookup_insert_eq in Hi by (by eapply lookup_lt_Some). simplify_eq.
      rewrite list_lookup_insert_ne in Hw by done. by eapply IH.
    + rewrite list_lookup_insert_ne in Hi by done. by eapply IH.
Qed.

(** ** Instances: the string ["a-b--c"] *)

Definition text_store : Store := mkStore {[ 1 := mkValue (VString [97; 45; 98; 45; 45; 99]) 1 VALUE_IMMUTABLE 0 ]} 2 None.

Lemma text_store_wf : store_wf text_store.
Proof. split; [done|]. intros p c H. simpl in H. apply lookup_singleton_Some in H as [<- _]. simpl. lia. Qed.

Lemma string_split_join_witness : exists arr st1 r st2,
  string_split true true (fun _ => true) (fun _ => true) 1 [45] text_store = Some (arr, st1) /\ string_join true true arr [45] st1 = Some (r, st2) /\
  data_of st2 r = Some (VString [97; 45; 98; 45; 45; 99]).
Proof.
  destruct (string_split_join true text_store 1 [97; 45; 98; 45; 45; 99] [45] text_store_wf eq_refl
    ltac:(by apply is_cstr_decide) ltac:(by apply is_cstr_decide) ltac:(simpl; lia))
    as (arr & st1 & _ & _ & _ & r & st2 & H1 & _ & _ & _ & _ & _ & _ & _ & H2 & _ & H3).
  by exists arr, st1, r, st2.
Defined.

Lemma string_replace_splits_witness : exists r st',
  string_replace 1 [45] [43; 43] text_store = Some (r, st') /\
  data_of st' r = Some (VString [97; 43; 43; 98; 43; 43; 43; 43; 99]).
Proof.
  apply (string_replace_splits text_store 1 [97; 45; 98; 45; 45; 99] [45] [43; 43]);
    [apply text_store_wf|reflexivity|by apply is_cstr_decide..|done|by vm_compute|by vm_compute].
Defined.

(** After interning ["a"], in an empty store. *)
Lemma intern_cache_direct_mapped_witness : exists v cache st,
  string_intern intern_cache_init [97] (mkStore empty 1 None) = Some ((v, cache), st) /\
  (forall set_idx entries way p, cache !! set_idx = Some entries -> entries !! way = Some p ->
     way <> (set_idx / 256)%nat -> p = NULL).
Proof.
  destruct (string_intern intern_cache_init [97] (mkStore empty 1 None)) as [[[v cache] st]|] eqn:E.
  2:{ exfalso. vm_compute in E. discriminate. }
  exists v, cache, st. split; [reflexivity|]. intros i es w p. apply intern_cache_direct_mapped.
  eapply interned_step; [apply interned_init|exact E].
Defined.
