(* ===== verification/Serialize.v ===== *)
(** * Value serialization (src/runtime/serialize.c, src/runtime/serialize.h)

    The serial buffer, the big-endian primitives, [serialize_value] and
    [deserialize_value].  A value is read here together with everything it
    reaches, as a tree whose children may be [NULL].  Buffers are smaller than
    2^63 bytes, so [read_pos + len] and [size + needed] do not wrap. *)

From Stdlib Require Import ZArith Lia.
From stdpp Require Import base list numbers gmap.
From S2P Require Import Prelude Float64 Hash HashMap Value.
Local Open Scope Z_scope.
Local Open Scope agim_scope.

(** A value with its children; [None] is a [NULL] child. *)
#[warnings="-register-all"]
Inductive tree := T (d : vdata (option tree)).

(** ** Serial buffer *)

Record SerialBuffer := mkBuffer { buf_data : list Z; buf_capacity : Z; read_pos : nat }.
Definition buf_size (buf : SerialBuffer) : nat := length (buf_data buf).

Inductive SerializeResult :=
  | SERIALIZE_OK | SERIALIZE_ERROR_BUFFER | SERIALIZE_ERROR_UNSUPPORTED
  | SERIALIZE_ERROR_CORRUPT | SERIALIZE_ERROR_VERSION | SERIALIZE_ERROR_OVERFLOW.

#[global] Instance SerializeResult_eq_dec : EqDecision SerializeResult.
Proof. solve_decision. Defined.

Definition INITIAL_CAPACITY : Z := 256.
Definition MAX_SERIALIZE_DEPTH : nat := 100.

Definition serial_buffer_init : SerialBuffer := mkBuffer [] 0 0.
Definition serial_buffer_init_data (data : list Z) : SerialBuffer :=
  mkBuffer data (Z.of_nat (length data)) 0.
Definition serial_buffer_position (buf : SerialBuffer) : nat := read_pos buf.
Definition serial_buffer_remaining (buf : SerialBuffer) : nat :=
  if (read_pos buf <? buf_size buf)%nat then (buf_size buf - read_pos buf)%nat else O.

Definition SERIAL_TAG_NIL : Z := 0x00.
Definition SERIAL_TAG_BOOL : Z := 0x01.
Definition SERIAL_TAG_INT : Z := 0x02.
Definition SERIAL_TAG_FLOAT : Z := 0x03.
Definition SERIAL_TAG_STRING : Z := 0x04.
Definition SERIAL_TAG_ARRAY : Z := 0x05.
Definition SERIAL_TAG_MAP : Z := 0x06.
Definition SERIAL_TAG_PID : Z := 0x07.
Definition SERIAL_TAG_BYTES : Z := 0x09.
Definition SERIAL_TAG_RESULT : Z := 0x0A.
Definition SERIAL_TAG_OPTION : Z := 0x0B.
Definition SERIAL_TAG_STRUCT : Z := 0x0C.
Definition SERIAL_TAG_ENUM : Z := 0x0D.

(** ** Writing *)

(** A writer extends the buffer and reports a result code; [None] means the
    recursion bound given to [serialize_value] was too small. *)
Definition writer : Type := SerialBuffer -> option (SerializeResult * SerialBuffer).

(** [if (!w) return ...; k] *)
Definition wseq (w k : writer) : writer := fun buf =>
  match w buf with
  | Some (SERIALIZE_OK, buf') => k buf'
  | r => r
  end.
Notation "w ;;; k" := (wseq w k) (at level 100, right associativity) : agim_scope.
Definition wret (r : SerializeResult) : writer := fun buf => Some (r, buf).

Fixpoint wfor {A} (f : A -> writer) (l : list A) : writer :=
  match l with
  | [] => wret SERIALIZE_OK
  | x :: l' => wseq (f x) (wfor f l')
  end.

Section writing.
(** Whether [realloc] to a given size succeeds. *)
Context (realloc_ok : Z -> bool).

Definition serial_buffer_ensure (buf : SerialBuffer) (needed : Z) : option SerialBuffer :=
  let required := Z.of_nat (buf_size buf) + needed in
  if required <=? buf_capacity buf then Some buf else
  let start := if buf_capacity buf =? 0 then INITIAL_CAPACITY else buf_capacity buf in
  match double_until 64 start required with
  | None => None
  | Some new_capacity =>
      if realloc_ok new_capacity
      then Some (mkBuffer (buf_data buf) new_capacity (read_pos buf)) else None
  end.

(** Make room for the bytes and append them; a failure of the primitive is the
    caller's [SERIALIZE_ERROR_BUFFER]. *)
Definition append_bytes (bs : list Z) : writer := fun buf =>
  match serial_buffer_ensure buf (Z.of_nat (length bs)) with
  | None => Some (SERIALIZE_ERROR_BUFFER, buf)
  | Some buf' => Some (SERIALIZE_OK, mkBuffer (buf_data buf' ++ bs) (buf_capacity buf') (read_pos buf'))
  end.

Definition serial_write_u8 (value : Z) : writer := append_bytes [u8 value].
Definition serial_write_u16 (value : Z) : writer :=
  append_bytes [(value .>> 8) .& 0xFF; value .& 0xFF].
Definition serial_write_u32 (value : Z) : writer :=
  append_bytes [(value .>> 24) .& 0xFF; (value .>> 16) .& 0xFF; (value .>> 8) .& 0xFF; value .& 0xFF].
Definition serial_write_u64 (value : Z) : writer :=
  append_bytes [(value .>> 56) .& 0xFF; (value .>> 48) .& 0xFF; (value .>> 40) .& 0xFF;
                (value .>> 32) .& 0xFF; (value .>> 24) .& 0xFF; (value .>> 16) .& 0xFF;
                (value .>> 8) .& 0xFF; value .& 0xFF].
Definition serial_write_i64 (value : Z) : writer := serial_write_u64 (u64 value).
Definition serial_write_f64 (value : f64) : writer := serial_write_u64 value.
Definition serial_write_bytes (data : list Z) : writer := append_bytes data.
(** [str] is a C string: only the bytes before its NUL are written. *)
Definition serial_write_string (str : list Z) : writer :=
  let len := strlen str in
  wseq (serial_write_u32 (u32 (Z.of_nat len))) (serial_write_bytes (take len str)).

Fixpoint serialize_value (fuel : nat) (value : option tree) : writer :=
  match value with
  | None => serial_write_u8 SERIAL_TAG_NIL
  | Some (T d) =>
    match fuel with
    | O => fun _ => None
    | S fuel' =>
      match d with
      | VNil => serial_write_u8 SERIAL_TAG_NIL
      | VBool b => serial_write_u8 SERIAL_TAG_BOOL ;;; serial_write_u8 (if b then 1 else 0)
      | VInt i => serial_write_u8 SERIAL_TAG_INT ;;; serial_write_i64 i
      | VFloat f => serial_write_u8 SERIAL_TAG_FLOAT ;;; serial_write_f64 f
      | VString s =>
          serial_write_u8 SERIAL_TAG_STRING ;;;
          serial_write_u32 (u32 (Z.of_nat (length s))) ;;; serial_write_bytes s
      | VPid p => serial_write_u8 SERIAL_TAG_PID ;;; serial_write_u64 p
      | VArray _ items =>
          serial_write_u8 SERIAL_TAG_ARRAY ;;;
          serial_write_u32 (u32 (Z.of_nat (length items))) ;;;
          wfor (serialize_value fuel') items
      | VMap m =>
          serial_write_u8 SERIAL_TAG_MAP ;;;
          let keys := map_keys m in
          serial_write_u32 (u32 (Z.of_nat (length keys))) ;;;
          wfor (fun key =>
                  serial_write_string key ;;;
                  serialize_value fuel' (default None (map_get m key))) keys
      | VBytes _ bs =>
          serial_write_u8 SERIAL_TAG_BYTES ;;;
          serial_write_u32 (u32 (Z.of_nat (length bs))) ;;;
          (if (0 <? length bs)%nat then serial_write_bytes bs else wret SERIALIZE_OK)
      | VResult is_ok v =>
          serial_write_u8 SERIAL_TAG_RESULT ;;; serial_write_u8 (if is_ok then 1 else 0) ;;;
          serialize_value fuel' v
      | VOption _ v =>
          let is_some := match v with Some _ => true | None => false end in
          serial_write_u8 SERIAL_TAG_OPTION ;;; serial_write_u8 (if is_some then 1 else 0) ;;;
          (if is_some then serialize_value fuel' v else wret SERIALIZE_OK)
      | VFunction _ | VClosure _ | VVector _ => wret SERIALIZE_ERROR_UNSUPPORTED
      | VStruct type_name fields =>
          serial_write_u8 SERIAL_TAG_STRUCT ;;;
          serial_write_string type_name ;;;
          serial_write_u32 (u32 (Z.of_nat (length fields))) ;;;
          wfor (fun f => serial_write_string f.1 ;;; serialize_value fuel' f.2) fields
      | VEnum type_name variant_name payload =>
          let has_payload := match payload with Some _ => true | None => false end in
          serial_write_u8 SERIAL_TAG_ENUM ;;;
          serial_write_string type_name ;;; serial_write_string variant_name ;;;
          serial_write_u8 (if has_payload then 1 else 0) ;;;
          (if has_payload then serialize_value fuel' payload else wret SERIALIZE_OK)
      end
    end
  end.

End writing.

(** ** Reading *)

(** A reader consumes from the read position; it returns a value or the error
    code the caller stores in its [result]. *)
Definition reader (A : Type) : Type := SerialBuffer -> (A + SerializeResult) * SerialBuffer.

Definition rret {A} (x : A) : reader A := fun buf => (inl x, buf).
Definition rfail {A} (e : SerializeResult) : reader A := fun buf => (inr e, buf).
Definition rbind {A B} (r : reader A) (k : A -> reader B) : reader B := fun buf =>
  match r buf with
  | (inl x, buf') => k x buf'
  | (inr e, buf') => (inr e, buf')
  end.
Notation "x <~ r ; k" := (rbind r (fun x => k)) (at level 100, r at next level, right associativity) : agim_scope.

Definition byte_at (buf : SerialBuffer) (i : nat) : Z := default 0 (buf_data buf !! (read_pos buf + i)%nat).
Definition advance (buf : SerialBuffer) (n : nat) : SerialBuffer :=
  mkBuffer (buf_data buf) (buf_capacity buf) (read_pos buf + n).

(** [if (!buf || buf->read_pos + n > buf->size) return false], with the error
    code every caller of the primitives reports. *)
Definition need {A} (n : nat) (f : SerialBuffer -> A) : reader A := fun buf =>
  if (buf_size buf <? read_pos buf + n)%nat then (inr SERIALIZE_ERROR_CORRUPT, buf)
  else (inl (f buf), advance buf n).

Definition serial_read_u8 : reader Z := need 1 (fun buf => byte_at buf 0).
Definition serial_read_u16 : reader Z :=
  need 2 (fun buf => (byte_at buf 0 .<< 8) .| byte_at buf 1).
Definition serial_read_u32 : reader Z :=
  need 4 (fun buf => (byte_at buf 0 .<< 24) .| (byte_at buf 1 .<< 16) .| (byte_at buf 2 .<< 8) .| byte_at buf 3).
Definition serial_read_u64 : reader Z :=
  need 8 (fun buf => (byte_at buf 0 .<< 56) .| (byte_at buf 1 .<< 48) .| (byte_at buf 2 .<< 40) .|
                     (byte_at buf 3 .<< 32) .| (byte_at buf 4 .<< 24) .| (byte_at buf 5 .<< 16) .|
                     (byte_at buf 6 .<< 8) .| byte_at buf 7).
Definition serial_read_i64 : reader Z := u <~ serial_read_u64 ; rret (s64 u).
Definition serial_read_f64 : reader f64 := serial_read_u64.
Definition serial_read_bytes (len : nat) : reader (list Z) :=
  need len (fun buf => take len (drop (read_pos buf) (buf_data buf))).
Definition serial_read_string : reader (list Z) :=
  len <~ serial_read_u32 ;
  if len =? 0 then rret [] else serial_read_bytes (Z.to_nat len).

(** [for (i = 0; i < n; i++)] with an accumulator. *)
Fixpoint rfor {A} (n : nat) (step : A -> reader A) (acc : A) : reader A :=
  match n with
  | O => rret acc
  | S n' => acc' <~ step acc ; rfor n' step acc'
  end.

(** The capacity an array grown by [array_push] reaches. *)
Definition pushed_capacity (cap : Z) (len : nat) : Z :=
  default cap (double_until 64 cap (Z.of_nat len + 1)).

(** [levels] is [MAX_SERIALIZE_DEPTH + 1 - depth]: none left means
    [depth > MAX_SERIALIZE_DEPTH].  The values built here are fresh, and their
    allocations succeed. *)
Fixpoint deserialize_value_internal (levels : nat) : reader tree :=
  match levels with
  | O => rfail SERIALIZE_ERROR_OVERFLOW
  | S levels' =>
    tag <~ serial_read_u8 ;
    if tag =? SERIAL_TAG_NIL then rret (T VNil)
    else if tag =? SERIAL_TAG_BOOL then
      b <~ serial_read_u8 ; rret (T (VBool (negb (b =? 0))))
    else if tag =? SERIAL_TAG_INT then
      v <~ serial_read_i64 ; rret (T (VInt v))
    else if tag =? SERIAL_TAG_FLOAT then
      v <~ serial_read_f64 ; rret (T (VFloat v))
    else if tag =? SERIAL_TAG_STRING then
      len <~ serial_read_u32 ;
      if len =? 0 then rret (T (VString [])) else
      s <~ serial_read_bytes (Z.to_nat len) ; rret (T (VString s))
    else if tag =? SERIAL_TAG_PID then
      p <~ serial_read_u64 ; rret (T (VPid p))
    else if tag =? SERIAL_TAG_ARRAY then
      len <~ serial_read_u32 ;
      arr <~ rfor (Z.to_nat len) (fun '(cap, items) =>
               elem <~ deserialize_value_internal levels' ;
               rret (pushed_capacity cap (length items), items ++ [Some elem])) (8, []) ;
      rret (T (VArray arr.1 arr.2))
    else if tag =? SERIAL_TAG_MAP then
      len <~ serial_read_u32 ;
      m <~ rfor (Z.to_nat len) (fun m =>
             key <~ serial_read_string ;
             val <~ deserialize_value_internal levels' ;
             rret (map_set allocs_ok m key (Some val))) map_new ;
      rret (T (VMap m))
    else if tag =? SERIAL_TAG_BYTES then
      len <~ serial_read_u32 ;
      bs <~ serial_read_bytes (Z.to_nat len) ;
      rret (T (VBytes (if 0 <? len then len else 64) bs))
    else if tag =? SERIAL_TAG_RESULT then
      is_ok <~ serial_read_u8 ;
      val <~ deserialize_value_internal levels' ;
      rret (T (VResult (negb (is_ok =? 0)) (Some val)))
    else if tag =? SERIAL_TAG_OPTION then
      is_some <~ serial_read_u8 ;
      if is_some =? 0 then rret (T (VOption false None)) else
      val <~ deserialize_value_internal levels' ; rret (T (VOption true (Some val)))
    else if tag =? SERIAL_TAG_STRUCT then
      type_name <~ serial_read_string ;
      field_count <~ serial_read_u32 ;
      fields <~ rfor (Z.to_nat field_count) (fun fields =>
                  field_name <~ serial_read_string ;
                  field_val <~ deserialize_value_internal levels' ;
                  rret (fields ++ [(cstr field_name, Some field_val)])) [] ;
      rret (T (VStruct (cstr type_name) fields))
    else if tag =? SERIAL_TAG_ENUM then
      type_name <~ serial_read_string ;
      variant_name <~ serial_read_string ;
      has_payload <~ serial_read_u8 ;
      if has_payload =? 0 then rret (T (VEnum (cstr type_name) (cstr variant_name) None)) else
      payload <~ deserialize_value_internal levels' ;
      rret (T (VEnum (cstr type_name) (cstr variant_name) (Some payload)))
    else rfail SERIALIZE_ERROR_UNSUPPORTED
  end.

Definition deserialize_value : reader tree := deserialize_value_internal (S MAX_SERIALIZE_DEPTH).

Example serialize_demo :
  (r ← serialize_value (fun _ => true) 9
         (Some (T (VArray 8 [Some (T (VInt (-2))); None; Some (T (VString [104; 105]))]))) serial_buffer_init;
   Some (deserialize_value r.2).1)
  = Some (inl (T (VArray 8 [Some (T (VInt (-2))); Some (T VNil); Some (T (VString [104; 105]))]))).
Proof. vm_compute. reflexivity. Qed.

(** ** Big-endian integers *)

Lemma land_0xFF x : Z.land x 0xFF = x mod 2 ^ 8.
Proof. change 0xFF with (Z.ones 8). by apply Z.land_ones. Qed.

Lemma lor_add_disjoint w x y :
  0 <= w -> x mod 2 ^ w = 0 -> 0 <= y < 2 ^ w -> Z.lor x y = x + y.
Proof.
  intros Hw Hx Hy. pose proof (Z.div_mod x (2 ^ w) ltac:(lia)) as Hd.
  replace x with (x / 2 ^ w * 2 ^ w) by lia.
  rewrite <- lor_shift_add by done. by rewrite Z.shiftl_mul_pow2.
Qed.

(** Appending one byte to a big-endian accumulator. *)
Lemma be_push k w x b :
  0 <= k -> w = k + 8 -> 0 <= b < 2 ^ 8 -> x mod 2 ^ w = 0 ->
  Z.lor x (Z.shiftl b k) = x + b * 2 ^ k.
Proof.
  intros Hk -> Hb Hx. rewrite Z.shiftl_mul_pow2 by done. apply (lor_add_disjoint (k + 8)); [lia|done|].
  rewrite Z.pow_add_r by lia. nia.
Qed.

Lemma byte_range x : 0 <= Z.land x 0xFF < 2 ^ 8.
Proof. rewrite land_0xFF. apply Z.mod_pos_bound. lia. Qed.

Lemma byte_digit v k : 0 <= k -> Z.land (Z.shiftr v k) 0xFF = v / 2 ^ k mod 2 ^ 8.
Proof. intros. by rewrite land_0xFF, Z.shiftr_div_pow2. Qed.

Lemma be32_sum b0 b1 b2 b3 :
  0 <= b0 < 2 ^ 8 -> 0 <= b1 < 2 ^ 8 -> 0 <= b2 < 2 ^ 8 -> 0 <= b3 < 2 ^ 8 ->
  Z.lor (Z.lor (Z.lor (Z.shiftl b0 24) (Z.shiftl b1 16)) (Z.shiftl b2 8)) b3
  = b0 * 2 ^ 24 + b1 * 2 ^ 16 + b2 * 2 ^ 8 + b3.
Proof.
  intros. rewrite (Z.shiftl_mul_pow2 b0) by lia.
  rewrite (be_push 16 24 (b0 * 2 ^ 24)), (be_push 8 16 (b0 * 2 ^ 24 + b1 * 2 ^ 16)) by dlia.
  rewrite (lor_add_disjoint 8) by dlia. done.
Qed.

Lemma be64_sum b0 b1 b2 b3 b4 b5 b6 b7 :
  0 <= b0 < 2 ^ 8 -> 0 <= b1 < 2 ^ 8 -> 0 <= b2 < 2 ^ 8 -> 0 <= b3 < 2 ^ 8 ->
  0 <= b4 < 2 ^ 8 -> 0 <= b5 < 2 ^ 8 -> 0 <= b6 < 2 ^ 8 -> 0 <= b7 < 2 ^ 8 ->
  Z.lor (Z.lor (Z.lor (Z.lor (Z.lor (Z.lor (Z.lor (Z.shiftl b0 56) (Z.shiftl b1 48))
    (Z.shiftl b2 40)) (Z.shiftl b3 32)) (Z.shiftl b4 24)) (Z.shiftl b5 16)) (Z.shiftl b6 8)) b7
  = b0 * 2 ^ 56 + b1 * 2 ^ 48 + b2 * 2 ^ 40 + b3 * 2 ^ 32
    + b4 * 2 ^ 24 + b5 * 2 ^ 16 + b6 * 2 ^ 8 + b7.
Proof.
  intros. rewrite (Z.shiftl_mul_pow2 b0) by lia.
  rewrite (be_push 48 56 (b0 * 2 ^ 56)) by dlia.
  rewrite (be_push 40 48 (b0 * 2 ^ 56 + _)) by dlia.
  rewrite (be_push 32 40 (_ + _ + _)), (be_push 24 32 (_ + _ + _ + _)),
    (be_push 16 24 (_ + _ + _ + _ + _)), (be_push 8 16 (_ + _ + _ + _ + _ + _)) by dlia.
  rewrite (lor_add_disjoint 8) by dlia. done.
Qed.

Lemma be32_value v :
  is_u32 v ->
  Z.lor (Z.lor (Z.lor (Z.shiftl (Z.land (Z.shiftr v 24) 0xFF) 24)
    (Z.shiftl (Z.land (Z.shiftr v 16) 0xFF) 16)) (Z.shiftl (Z.land (Z.shiftr v 8) 0xFF) 8))
    (Z.land v 0xFF) = v.
Proof.
  unfold is_u32. intros Hv. rewrite be32_sum by apply byte_range.
  rewrite !byte_digit, land_0xFF by lia. dlia.
Qed.

Lemma be64_value v :
  is_u64 v ->
  Z.lor (Z.lor (Z.lor (Z.lor (Z.lor (Z.lor (Z.lor
    (Z.shiftl (Z.land (Z.shiftr v 56) 0xFF) 56) (Z.shiftl (Z.land (Z.shiftr v 48) 0xFF) 48))
    (Z.shiftl (Z.land (Z.shiftr v 40) 0xFF) 40)) (Z.shiftl (Z.land (Z.shiftr v 32) 0xFF) 32))
    (Z.shiftl (Z.land (Z.shiftr v 24) 0xFF) 24)) (Z.shiftl (Z.land (Z.shiftr v 16) 0xFF) 16))
    (Z.shiftl (Z.land (Z.shiftr v 8) 0xFF) 8)) (Z.land v 0xFF) = v.
Proof.
  unfold is_u64. intros Hv. rewrite be64_sum by apply byte_range.
  rewrite !byte_digit, land_0xFF by lia. dlia.
Qed.

(** ** What a writer appends and what a reader consumes *)

Section roundtrip.
Context (realloc_ok : Z -> bool) (Halloc : forall n, n <= 2 ^ 63 -> realloc_ok n = true).

(** [w] appends exactly [bs] to any buffer that stays below 2^62 bytes. *)
Definition writes (w : writer) (bs : list Z) : Prop := forall buf,
  0 <= buf_capacity buf <= 2 ^ 63 -> Z.of_nat (buf_size buf + length bs) <= 2 ^ 62 ->
  exists cap', 0 <= cap' <= 2 ^ 63 /\
    w buf = Some (SERIALIZE_OK, mkBuffer (buf_data buf ++ bs) cap' (read_pos buf)).

(** [r] reads [x] from [bs], wherever [bs] stands in the input, and stops
    right after it. *)
Definition reads {A} (r : reader A) (bs : list Z) (x : A) : Prop := forall pre post cap,
  r (mkBuffer (pre ++ bs ++ post) cap (length pre)) =
  (inl x, mkBuffer (pre ++ bs ++ post) cap (length pre + length bs)).

Lemma writes_append bs : writes (append_bytes realloc_ok bs) bs.
Proof using Halloc.
  intros buf Hcap Hsz. unfold append_bytes, serial_buffer_ensure, buf_size in *.
  case_if_goal; [eauto|].
  set (start := if buf_capacity buf =? 0 then INITIAL_CAPACITY else buf_capacity buf).
  assert (Hs : 1 <= start <= 2 ^ 63) by (subst start; unfold INITIAL_CAPACITY; case_if_goal; lia).
  destruct (double_until_total start (Z.of_nat (length (buf_data buf)) + Z.of_nat (length bs)))
    as (c & Hc & Hn & _); [lia|lia|].
  rewrite Hc. apply double_until_Some in Hc; [|lia].
  assert (c <= 2 ^ 63) by (destruct Hc as (_ & _ & [->|?]); lia).
  rewrite Halloc by done. exists c. split; [lia|done].
Qed.

Lemma writes_seq w k a b : writes w a -> writes k b -> writes (wseq w k) (a ++ b).
Proof.
  intros Hw Hk buf Hcap Hsz. rewrite length_app in Hsz. unfold wseq.
  destruct (Hw buf Hcap) as (c1 & Hc1 & ->); [lia|].
  destruct (Hk (mkBuffer (buf_data buf ++ a) c1 (read_pos buf))) as (c2 & Hc2 & ->).
  - done.
  - unfold buf_size in *. simpl. rewrite length_app. lia.
  - exists c2. split; [done|]. simpl. by rewrite <- app_assoc.
Qed.

Lemma writes_ok : writes (wret SERIALIZE_OK) [].
Proof.
  intros [d c q] Hcap _. simpl in *. exists c. split; [done|]. unfold wret. by rewrite app_nil_r.
Qed.

Lemma reads_ret {A} (x : A) : reads (rret x) [] x.
Proof. intros pre post cap. unfold rret. simpl. by rewrite Nat.add_0_r. Qed.

Lemma reads_bind {A B} (r : reader A) (k : A -> reader B) a b x y :
  reads r a x -> reads (k x) b y -> reads (rbind r k) (a ++ b) y.
Proof.
  intros Hr Hk pre post cap. unfold rbind.
  specialize (Hr pre (b ++ post) cap). rewrite <- (app_assoc a), Hr.
  specialize (Hk (pre ++ a) post cap). rewrite <- app_assoc, length_app in Hk.
  rewrite Hk, length_app. by rewrite Nat.add_assoc.
Qed.

(** A last step that only wraps the result. *)
Lemma reads_bind_ret {A B} (r : reader A) (f : A -> B) a x :
  reads r a x -> reads (rbind r (fun x => rret (f x))) a (f x).
Proof. intros Hr. rewrite <- (app_nil_r a). eapply reads_bind; [exact Hr|apply reads_ret]. Qed.

Lemma reads_need {A} n (f : SerialBuffer -> A) bs x :
  length bs = n -> (forall pre post cap, f (mkBuffer (pre ++ bs ++ post) cap (length pre)) = x) ->
  reads (need n f) bs x.
Proof.
  intros Hl Hf pre post cap. unfold need, buf_size, advance. simpl.
  rewrite !length_app. case_if_goal; [lia|]. by rewrite Hf, Hl.
Qed.

Lemma byte_at_mid pre bs post cap i :
  (i < length bs)%nat ->
  byte_at (mkBuffer (pre ++ bs ++ post) cap (length pre)) i = default 0 (bs !! i).
Proof.
  intros Hi. unfold byte_at. simpl. rewrite lookup_app_r by lia.
  replace (length pre + i - length pre)%nat with i by lia. by rewrite lookup_app_l.
Qed.

Lemma reads_u8 v : is_u8 v -> reads serial_read_u8 [u8 v] v.
Proof.
  intros Hv. apply reads_need; [done|]. intros. rewrite byte_at_mid by (simpl; lia).
  simpl. by apply u8_small.
Qed.

Definition u32_bytes (v : Z) : list Z :=
  [Z.land (Z.shiftr v 24) 0xFF; Z.land (Z.shiftr v 16) 0xFF; Z.land (Z.shiftr v 8) 0xFF; Z.land v 0xFF].
Definition u64_bytes (v : Z) : list Z :=
  [Z.land (Z.shiftr v 56) 0xFF; Z.land (Z.shiftr v 48) 0xFF; Z.land (Z.shiftr v 40) 0xFF;
   Z.land (Z.shiftr v 32) 0xFF; Z.land (Z.shiftr v 24) 0xFF; Z.land (Z.shiftr v 16) 0xFF;
   Z.land (Z.shiftr v 8) 0xFF; Z.land v 0xFF].

Lemma reads_u32 v : is_u32 v -> reads serial_read_u32 (u32_bytes v) v.
Proof.
  intros Hv. apply reads_need; [done|]. intros. rewrite !byte_at_mid by (simpl; lia).
  by apply be32_value.
Qed.

Lemma reads_u64 v : is_u64 v -> reads serial_read_u64 (u64_bytes v) v.
Proof.
  intros Hv. apply reads_need; [done|]. intros. rewrite !byte_at_mid by (simpl; lia).
  by apply be64_value.
Qed.

Lemma reads_bytes bs : reads (serial_read_bytes (length bs)) bs bs.
Proof.
  apply reads_need; [done|]. intros. simpl. rewrite drop_app_length. by rewrite take_app_length.
Qed.

(** A length that fits its field survives. *)
Lemma len_u32 {A} (l : list A) :
  Z.of_nat (length l) < 2 ^ 32 -> is_u32 (u32 (Z.of_nat (length l))) /\
  u32 (Z.of_nat (length l)) = Z.of_nat (length l).
Proof. intros H. split; [apply u32_range|]. apply u32_small. unfold is_u32. lia. Qed.

(** Length-prefixed bytes. *)
Definition block_bytes (s : list Z) : list Z := u32_bytes (u32 (Z.of_nat (length s))) ++ s.

Lemma writes_string s :
  is_cstr s -> writes (serial_write_string realloc_ok s) (block_bytes s).
Proof using Halloc.
  intros Hs. unfold serial_write_string. rewrite is_cstr_strlen by done. rewrite firstn_all.
  apply writes_seq; apply writes_append.
Qed.

Lemma reads_string s :
  Z.of_nat (length s) < 2 ^ 32 -> reads serial_read_string (block_bytes s) s.
Proof.
  intros Hl. destruct (len_u32 s Hl) as [Hu He].
  unfold serial_read_string. eapply reads_bind; [by apply reads_u32|]. rewrite He.
  case_if_goal.
  - assert (s = []) as -> by (destruct s; simpl in *; [done|lia]). apply reads_ret.
  - rewrite Nat2Z.id. apply reads_bytes.
Qed.

(** A loop that writes items one after the other, and the loop that reads them
    back with an accumulator. *)
Lemma loop_roundtrip {X A} (w : X -> writer) (step : A -> reader A)
    (rel : X -> tree -> Prop) (upd : A -> X -> tree -> A) items :
  Forall (fun x => exists bs t, writes (w x) bs /\ rel x t /\
            forall acc, reads (step acc) bs (upd acc x t)) items ->
  exists bs ts, writes (wfor w items) bs /\ Forall2 rel items ts /\
    forall acc, reads (rfor (length items) step acc) bs
                  (foldl (fun a xt => upd a xt.1 xt.2) acc (zip items ts)).
Proof.
  induction 1 as [|x items (b & t & Hw & Hrel & Hr) _ (bs & ts & Hws & Hrels & Hrs)].
  - exists [], []. split; [apply writes_ok|]. split; [done|]. intros acc. apply reads_ret.
  - exists (b ++ bs), (t :: ts). split; [by apply writes_seq|]. split; [by constructor|].
    intros acc. simpl. eapply reads_bind; [apply Hr|]. apply Hrs.
Qed.

End roundtrip.

(** ** Values that denote the same data

    Left the value that was written, right the one that was read: capacities
    and the layout of maps may differ, [NULL] children come back as nil, and
    maps agree as finite maps. *)

Definition scalar {R} (d : vdata R) : bool :=
  match type_of d with
  | VAL_NIL | VAL_BOOL | VAL_INT | VAL_FLOAT | VAL_STRING | VAL_PID => true
  | _ => false
  end.

#[warnings="-register-all"]
Inductive value_sim : option tree -> tree -> Prop :=
  | sim_null : value_sim None (T VNil)
  | sim_scalar d : scalar d = true -> value_sim (Some (T d)) (T d)
  | sim_bytes cap cap' bs : value_sim (Some (T (VBytes cap bs))) (T (VBytes cap' bs))
  | sim_array cap cap' xs ys :
      Forall2 value_sim xs ys ->
      value_sim (Some (T (VArray cap xs))) (T (VArray cap' (Some <$> ys)))
  | sim_map m m' :
      map_wf m' ->
      (forall k, to_gmap m !! k = None -> to_gmap m' !! k = None) ->
      (forall k x, to_gmap m !! k = Some x ->
         exists y, to_gmap m' !! k = Some (Some y) /\ value_sim x y) ->
      value_sim (Some (T (VMap m))) (T (VMap m'))
  | sim_result b x y : value_sim x y -> value_sim (Some (T (VResult b x))) (T (VResult b (Some y)))
  | sim_none b : value_sim (Some (T (VOption b None))) (T (VOption false None))
  | sim_some b x y :
      value_sim (Some x) y -> value_sim (Some (T (VOption b (Some x)))) (T (VOption true (Some y)))
  | sim_struct n fs gs :
      Forall2 (fun f g => f.1 = g.1 /\ value_sim f.2 g.2) fs gs ->
      value_sim (Some (T (VStruct n fs))) (T (VStruct n ((fun g => (g.1, Some g.2)) <$> gs)))
  | sim_unit_variant n v : value_sim (Some (T (VEnum n v None))) (T (VEnum n v None))
  | sim_variant n v x y :
      value_sim (Some x) y -> value_sim (Some (T (VEnum n v (Some x)))) (T (VEnum n v (Some y))).

(** The values the format can hold, nested at most [levels] deep: machine
    integers in range, lengths below 2^32, C-string names, well-formed maps
    whose keys are within lookup depth, and no functions, closures, vectors. *)
Definition short {A} (l : list A) : Prop := Z.of_nat (length l) < 2 ^ 32.

Definition storable_data (P : option tree -> Prop) (d : vdata (option tree)) : Prop :=
  match d with
  | VNil | VBool _ => True
  | VInt i => is_s64 i
  | VFloat f => is_u64 f
  | VString s => short s
  | VPid p => is_u64 p
  | VArray _ items => short items /\ Forall P items
  | VMap m => map_wf m /\ short (map_keys m) /\ Forall short (map_keys m) /\
              (forall k x, to_gmap m !! k = Some x -> reachable m k /\ P x)
  | VBytes _ bs => short bs
  | VResult _ v => P v
  | VOption _ v => match v with Some _ => P v | None => True end
  | VStruct n fs => is_cstr n /\ short n /\ short fs /\
                    Forall (fun f => is_cstr f.1 /\ short f.1 /\ P f.2) fs
  | VEnum n v p => is_cstr n /\ short n /\ is_cstr v /\ short v /\
                   match p with Some _ => P p | None => True end
  | VFunction _ | VClosure _ | VVector _ => False
  end.

Fixpoint storable (levels : nat) (v : option tree) : Prop :=
  match levels with
  | O => False
  | S levels' => match v with None => True | Some (T d) => storable_data (storable levels') d end
  end.

(** Rebuilding a map key by key. *)
Lemma rebuild_map (keys : list (list Z)) (ts : list tree) (m0 : Map (option tree)) :
  length keys = length ts -> NoDup keys -> Forall is_cstr keys -> map_wf m0 ->
  Forall (fun k => to_gmap m0 !! k = None) keys ->
  let m' := foldl (fun m kt => map_set allocs_ok m kt.1 (Some kt.2)) m0 (zip keys ts) in
  map_wf m' /\
  (forall k, k ∉ keys -> to_gmap m' !! k = to_gmap m0 !! k) /\
  (forall i k t, keys !! i = Some k -> ts !! i = Some t -> to_gmap m' !! k = Some (Some t)).
Proof.
  revert ts m0. induction keys as [|k keys IH]; intros [|t ts] m0 Hlen Hnd Hcs Hwf Hnew; simplify_eq/=.
  - done.
  - inversion_clear Hcs as [|? ? Hk Hcs']. inversion_clear Hnew as [|? ? Hk0 Hnew'].
    apply NoDup_cons in Hnd as [Hnk Hnd].
    assert (Hf : find_entry_internal m0 k (key_hash k) = None).
    { pose proof (find_entry_spec m0 k Hwf Hk) as Hs.
      destruct (find_entry_internal m0 k (key_hash k)) as [[i d]|]; [|done].
      destruct Hs as (_ & e & _ & _ & Hv). congruence. }
    destruct (map_set_fresh allocs_ok m0 k (Some t) Hwf Hk Hk0 Hf) as [Hw1 Hg1]. simpl in Hg1.
    destruct (IH ts (map_set allocs_ok m0 k (Some t))) as (Hw & Hout & Hin); [done..| |].
    { apply Forall_forall. intros k' Hk'. rewrite Hg1, lookup_insert_ne by set_solver.
      rewrite Forall_forall in Hnew'. auto. }
    split; [done|]. split.
    + intros k' Hk'. apply not_elem_of_cons in Hk' as [Hne Hk'].
      rewrite Hout, Hg1, lookup_insert_ne by done. done.
    + intros [|i] k' t' Hi Ht; simplify_eq/=; [|by eapply Hin].
      rewrite Hout, Hg1 by done. by rewrite lookup_insert_eq.
Qed.

Section main.
Context (realloc_ok : Z -> bool) (Halloc : forall n, n <= 2 ^ 63 -> realloc_ok n = true).

(** What the induction carries for one value. *)
Definition roundtrips (levels : nat) (v : option tree) : Prop :=
  exists bs t, writes (serialize_value realloc_ok levels v) bs /\
    reads (deserialize_value_internal levels) bs t /\ value_sim v t.

Lemma wr bs : writes (append_bytes realloc_ok bs) bs.
Proof using Halloc. by apply writes_append. Qed.

(** A value is a tag byte followed by its body. *)
Lemma tagged_roundtrip levels (tag : Z) d w body r t :
  is_u8 tag ->
  serialize_value realloc_ok (S levels) (Some (T d)) = wseq (serial_write_u8 realloc_ok tag) w ->
  (forall buf buf', serial_read_u8 buf = (inl tag, buf') ->
     deserialize_value_internal (S levels) buf = r buf') ->
  writes w body -> reads r body t -> value_sim (Some (T d)) t ->
  roundtrips (S levels) (Some (T d)).
Proof using Halloc.
  intros Htag Hw Hr Hbody Hread Hsim. exists ([u8 tag] ++ body), t. split; [|split; [|done]].
  - rewrite Hw. apply writes_seq; [apply wr|done].
  - intros pre post cap. pose proof (reads_u8 tag Htag pre (body ++ post) cap) as H1.
    rewrite <- app_assoc. erewrite Hr by exact H1.
    specialize (Hread (pre ++ [u8 tag]) post cap).
    rewrite <- app_assoc, length_app in Hread.
    change (length [u8 tag]) with 1%nat in *. rewrite Hread.
    rewrite length_app. simpl. f_equal. f_equal. lia.
Qed.


Ltac read_tag :=
  intros ? ? Htag; cbn [deserialize_value_internal]; unfold rbind at 1; rewrite Htag; reflexivity.
Ltac tagged tag_ r_ := eapply (tagged_roundtrip _ tag_ _ _ _ r_); [done|reflexivity|read_tag|..].

Lemma roundtrip_nil levels : roundtrips (S levels) None /\ roundtrips (S levels) (Some (T VNil)).
Proof using Halloc.
  assert (Hr : reads (deserialize_value_internal (S levels)) [u8 SERIAL_TAG_NIL] (T VNil)).
  { intros pre post cap. pose proof (reads_u8 SERIAL_TAG_NIL ltac:(done) pre post cap) as H1.
    cbn [deserialize_value_internal]. unfold rbind. by rewrite H1. }
  split; exists [u8 SERIAL_TAG_NIL], (T VNil); (split; [apply wr|]; split; [done|by constructor]).
Qed.

Lemma roundtrip_scalar levels d P :
  scalar d = true -> storable_data P d -> roundtrips (S levels) (Some (T d)).
Proof using Halloc.
  intros Hs Hd. destruct d; try done; simpl in Hd.
  - apply roundtrip_nil.
  - tagged SERIAL_TAG_BOOL (b <~ serial_read_u8 ; rret (T (VBool (negb (b =? 0))))).
    + apply wr.
    + apply (reads_bind_ret serial_read_u8 (fun v => T (VBool (negb (v =? 0)))) _ (if b then 1 else 0)).
      apply reads_u8. by destruct b.
    + destruct b; by constructor.
  - tagged SERIAL_TAG_INT (v <~ serial_read_i64 ; rret (T (VInt v))).
    + apply wr.
    + apply (reads_bind_ret serial_read_i64 (fun v => T (VInt v))).
      apply (reads_bind_ret serial_read_u64 s64 _ (u64 i)), reads_u64, u64_range.
    + rewrite s64_u64 by done. by constructor.
  - tagged SERIAL_TAG_FLOAT (v <~ serial_read_f64 ; rret (T (VFloat v))).
    + apply wr.
    + apply (reads_bind_ret serial_read_u64 (fun v => T (VFloat v))). by apply reads_u64.
    + by constructor.
  - tagged SERIAL_TAG_STRING (len <~ serial_read_u32 ;
      if len =? 0 then rret (T (VString [])) else
      s <~ serial_read_bytes (Z.to_nat len) ; rret (T (VString s))).
    + apply writes_seq; apply wr.
    + destruct (len_u32 s Hd) as [Hu He]. eapply reads_bind; [by apply reads_u32|]. rewrite He.
      case_if_goal.
      * assert (s = []) as -> by (destruct s; simpl in *; [done|lia]). apply reads_ret.
      * rewrite Nat2Z.id. apply (reads_bind_ret _ (fun s => T (VString s))), reads_bytes.
    + by constructor.
  - tagged SERIAL_TAG_PID (p <~ serial_read_u64 ; rret (T (VPid p))).
    + apply wr.
    + apply (reads_bind_ret serial_read_u64 (fun p => T (VPid p))). by apply reads_u64.
    + by constructor.
Qed.

Lemma roundtrip_bytes levels cap bs : short bs -> roundtrips (S levels) (Some (T (VBytes cap bs))).
Proof using Halloc.
  intros Hs. destruct (len_u32 bs Hs) as [Hu He].
  tagged SERIAL_TAG_BYTES (len <~ serial_read_u32 ;
      bs <~ serial_read_bytes (Z.to_nat len) ;
      rret (T (VBytes (if 0 <? len then len else 64) bs))).
  - apply writes_seq; [apply wr|].
    instantiate (1 := bs). destruct bs; [apply writes_ok|apply wr].
  - eapply reads_bind; [by apply reads_u32|]. rewrite He, Nat2Z.id.
    apply (reads_bind_ret _ (fun bs0 => T (VBytes (if 0 <? Z.of_nat (length bs) then
      Z.of_nat (length bs) else 64) bs0))), reads_bytes.
  - constructor.
Qed.

Lemma roundtrip_array levels cap items :
  short items -> Forall (roundtrips levels) items -> roundtrips (S levels) (Some (T (VArray cap items))).
Proof using Halloc.
  intros Hs Hitems. destruct (len_u32 items Hs) as [Hu He].
  destruct (loop_roundtrip (serialize_value realloc_ok levels)
    (fun '(cap, items) => elem <~ deserialize_value_internal levels ;
       rret (pushed_capacity cap (length items), items ++ [Some elem]))
    value_sim (fun a _ t => (pushed_capacity a.1 (length a.2), a.2 ++ [Some t])) items)
    as (bs & ts & Hw & Hsim & Hr).
  { eapply Forall_impl; [exact Hitems|]. intros v (b & t & Hw & Hr & Hsim).
    exists b, t. split; [done|]. split; [done|]. intros [c l].
    by apply (reads_bind_ret _ (fun t => (pushed_capacity c (length l), l ++ [Some t]))). }
  assert (Hfin : forall acc, (foldl (fun a (xt : option tree * tree) =>
            (pushed_capacity a.1 (length a.2), a.2 ++ [Some xt.2])) acc (zip items ts)).2
          = acc.2 ++ (Some <$> ts)).
  { clear -Hsim. induction Hsim as [|x t xs ts _ _ IH]; intros [c l]; simpl.
    - by rewrite app_nil_r.
    - rewrite IH. simpl. by rewrite <- app_assoc. }
  tagged SERIAL_TAG_ARRAY (len <~ serial_read_u32 ;
      arr <~ rfor (Z.to_nat len) (fun '(cap, items) =>
               elem <~ deserialize_value_internal levels ;
               rret (pushed_capacity cap (length items), items ++ [Some elem])) (8, []) ;
      rret (T (VArray arr.1 arr.2))).
  - apply writes_seq; [apply wr|exact Hw].
  - eapply reads_bind; [by apply reads_u32|]. rewrite He, Nat2Z.id.
    apply (reads_bind_ret _ (fun arr => T (VArray arr.1 arr.2))), Hr.
  - rewrite Hfin. by constructor.
Qed.

Lemma roundtrip_result levels b v : roundtrips levels v -> roundtrips (S levels) (Some (T (VResult b v))).
Proof using Halloc.
  intros (bs & t & Hw & Hr & Hsim).
  tagged SERIAL_TAG_RESULT (is_ok <~ serial_read_u8 ; val <~ deserialize_value_internal levels ;
      rret (T (VResult (negb (is_ok =? 0)) (Some val)))).
  - apply writes_seq; [apply wr|exact Hw].
  - eapply reads_bind; [apply (reads_u8 (if b then 1 else 0)); by destruct b|].
    by apply (reads_bind_ret _ (fun val => T (VResult (negb ((if b then 1 else 0) =? 0)) (Some val)))).
  - destruct b; by constructor.
Qed.

Lemma roundtrip_option levels b v :
  match v with Some _ => roundtrips levels v | None => True end ->
  roundtrips (S levels) (Some (T (VOption b v))).
Proof using Halloc.
  intros Hv. destruct v as [x|].
  - destruct Hv as (bs & t & Hw & Hr & Hsim).
    tagged SERIAL_TAG_OPTION (is_some <~ serial_read_u8 ;
      if is_some =? 0 then rret (T (VOption false None)) else
      val <~ deserialize_value_internal levels ; rret (T (VOption true (Some val)))).
    + apply writes_seq; [apply wr|exact Hw].
    + eapply reads_bind; [by apply (reads_u8 1)|]. simpl.
      by apply (reads_bind_ret _ (fun val => T (VOption true (Some val)))).
    + by constructor.
  - tagged SERIAL_TAG_OPTION (is_some <~ serial_read_u8 ;
      if is_some =? 0 then rret (T (VOption false None)) else
      val <~ deserialize_value_internal levels ; rret (T (VOption true (Some val)))).
    + apply writes_seq; [apply wr|apply writes_ok].
    + eapply reads_bind; [by apply (reads_u8 0)|]. apply reads_ret.
    + constructor.
Qed.

Lemma roundtrip_enum levels n v p :
  is_cstr n -> short n -> is_cstr v -> short v ->
  match p with Some _ => roundtrips levels p | None => True end ->
  roundtrips (S levels) (Some (T (VEnum n v p))).
Proof using Halloc.
  intros Hn Hns Hv Hvs Hp.
  set (rest := fun (n v : list Z) => has_payload <~ serial_read_u8 ;
      if has_payload =? 0 then rret (T (VEnum (cstr n) (cstr v) None)) else
      payload <~ deserialize_value_internal levels ;
      rret (T (VEnum (cstr n) (cstr v) (Some payload)))).
  assert (exists bs t, writes (wseq (serial_write_u8 realloc_ok (if p is Some _ then 1 else 0))
            (if p is Some _ then serialize_value realloc_ok levels p else wret SERIALIZE_OK)) bs /\
          reads (rest n v) bs t /\ value_sim (Some (T (VEnum n v p))) t) as (bs & t & Hw & Hr & Hsim).
  { subst rest. simpl. rewrite !is_cstr_cstr by done. destruct p as [x|].
    - destruct Hp as (b & t & Hw & Hr & Hsim). exists ([u8 1] ++ b), (T (VEnum n v (Some t))).
      split; [apply writes_seq; [apply wr|done]|]. split; [|by constructor].
      eapply reads_bind; [by apply (reads_u8 1)|].
      by apply (reads_bind_ret _ (fun payload => T (VEnum n v (Some payload)))).
    - exists ([u8 0] ++ []), (T (VEnum n v None)).
      split; [apply writes_seq; [apply wr|apply writes_ok]|]. split; [|by constructor].
      eapply reads_bind; [by apply (reads_u8 0)|apply reads_ret]. }
  tagged SERIAL_TAG_ENUM (type_name <~ serial_read_string ; variant_name <~ serial_read_string ;
      rest type_name variant_name).
  - repeat (apply writes_seq; [by apply writes_string|]). destruct p; exact Hw.
  - eapply reads_bind; [by apply reads_string|]. eapply reads_bind; [by apply reads_string|exact Hr].
  - done.
Qed.

Lemma roundtrip_struct levels n (fs : list (list Z * option tree)) :
  is_cstr n -> short n -> short fs ->
  Forall (fun f => is_cstr f.1 /\ short f.1 /\ roundtrips levels f.2) fs ->
  roundtrips (S levels) (Some (T (VStruct n fs))).
Proof using Halloc.
  intros Hn Hns Hfs Hall. destruct (len_u32 fs Hfs) as [Hu He].
  destruct (loop_roundtrip
    (fun f => wseq (serial_write_string realloc_ok f.1) (serialize_value realloc_ok levels f.2))
    (fun fields => field_name <~ serial_read_string ;
                   field_val <~ deserialize_value_internal levels ;
                   rret (fields ++ [(cstr field_name, Some field_val)]))
    (fun (f : list Z * option tree) t => value_sim f.2 t)
    (fun fields f t => fields ++ [(f.1, Some t)]) fs) as (bs & ts & Hw & Hsim & Hr).
  { eapply Forall_impl; [exact Hall|]. intros [name v] (Hc & Hsn & b & t & Hw & Hr & Hsim).
    simpl in *. exists (block_bytes name ++ b), t.
    split; [by apply writes_seq; [apply writes_string|]|]. split; [done|]. intros acc.
    eapply reads_bind; [by apply reads_string|]. rewrite is_cstr_cstr by done.
    by apply (reads_bind_ret _ (fun t => acc ++ [(name, Some t)])). }
  assert (exists gs, Forall2 (fun f g => f.1 = g.1 /\ value_sim f.2 g.2) fs gs /\
          forall acc, foldl (fun a xt => a ++ [(xt.1.1, Some xt.2)]) acc (zip fs ts)
                      = acc ++ ((fun g : list Z * tree => (g.1, Some g.2)) <$> gs)) as (gs & Hgs & Hfin).
  { clear -Hsim. induction Hsim as [|f t fs ts Hft _ (gs & Hgs & IH)].
    - exists []. split; [done|]. intros acc. simpl. by rewrite app_nil_r.
    - exists ((f.1, t) :: gs). split; [by constructor|]. intros acc. simpl.
      rewrite IH, <- app_assoc. done. }
  tagged SERIAL_TAG_STRUCT (type_name <~ serial_read_string ; field_count <~ serial_read_u32 ;
      fields <~ rfor (Z.to_nat field_count) (fun fields =>
                  field_name <~ serial_read_string ;
                  field_val <~ deserialize_value_internal levels ;
                  rret (fields ++ [(cstr field_name, Some field_val)])) [] ;
      rret (T (VStruct (cstr type_name) fields))).
  - apply writes_seq; [by apply writes_string|]. apply writes_seq; [apply wr|exact Hw].
  - eapply reads_bind; [by apply reads_string|]. eapply reads_bind; [by apply reads_u32|].
    rewrite He, Nat2Z.id. apply (reads_bind_ret _ (fun fields => T (VStruct (cstr n) fields))), Hr.
  - rewrite Hfin, is_cstr_cstr by done. by constructor.
Qed.

Lemma roundtrip_map levels m :
  map_wf m -> short (map_keys m) -> Forall short (map_keys m) ->
  (forall k x, to_gmap m !! k = Some x -> reachable m k /\ roundtrips levels x) ->
  roundtrips (S levels) (Some (T (VMap m))).
Proof using Halloc.
  intros Hwf Hs Hks Hall. destruct (len_u32 (map_keys m) Hs) as [Hu He].
  pose proof (map_keys_spec m Hwf) as (Hnd & Hcs & Hdom).
  assert (Hget : forall k, k ∈ map_keys m -> exists x, to_gmap m !! k = Some x /\ map_get m k = Some x).
  { intros k Hk. apply Hdom in Hk as [x Hx]. exists x. split; [done|].
    apply (map_get_found m k x); try done; [by eapply to_gmap_cstr|]. by apply (Hall k x). }
  destruct (loop_roundtrip
    (fun key => wseq (serial_write_string realloc_ok key)
                  (serialize_value realloc_ok levels (default None (map_get m key))))
    (fun m' => key <~ serial_read_string ; val <~ deserialize_value_internal levels ;
               rret (map_set allocs_ok m' key (Some val)))
    (fun k t => value_sim (default None (map_get m k)) t)
    (fun m' k t => map_set allocs_ok m' k (Some t)) (map_keys m)) as (bs & ts & Hw & Hsim & Hr).
  { apply Forall_forall. intros k Hk. destruct (Hget k Hk) as (x & Hx & ->). simpl.
    destruct (Hall k x Hx) as (_ & b & t & Hw & Hr & Hst).
    rewrite Forall_forall in Hcs, Hks. exists (block_bytes k ++ b), t.
    split; [by apply writes_seq; [apply writes_string; auto|]|]. split; [done|]. intros acc.
    eapply reads_bind; [apply reads_string, Hks, Hk|].
    by apply (reads_bind_ret _ (fun t => map_set allocs_ok acc k (Some t))). }
  destruct (map_new_wf (A := option tree) 16) as [Hw0 Hg0].
  destruct (rebuild_map (map_keys m) ts map_new) as (Hw' & Hout & Hin); [by eapply Forall2_length|done..| |].
  { apply Forall_forall. intros k _. unfold map_new. rewrite Hg0. apply lookup_empty. }
  tagged SERIAL_TAG_MAP (len <~ serial_read_u32 ;
      m <~ rfor (Z.to_nat len) (fun m =>
             key <~ serial_read_string ; val <~ deserialize_value_internal levels ;
             rret (map_set allocs_ok m key (Some val))) map_new ;
      rret (T (VMap m))).
  - apply writes_seq; [apply wr|exact Hw].
  - eapply reads_bind; [by apply reads_u32|]. rewrite He, Nat2Z.id.
    apply (reads_bind_ret _ (fun m' => T (VMap m'))), Hr.
  - constructor; [done| |].
    + intros k Hk. rewrite Hout; [unfold map_new; rewrite Hg0; apply lookup_empty|].
      rewrite Hdom, Hk. by intros [].
    + intros k x Hx. assert (k ∈ map_keys m) as Hk by (rewrite Hdom; eauto).
      pose proof (Hget k Hk) as (x' & Hx' & Hg). simplify_eq.
      apply list_elem_of_lookup in Hk as [i Hi].
      destruct (Forall2_lookup_l _ _ _ _ _ Hsim Hi) as (t & Ht & Hkt).
      exists t. split; [by eapply Hin|]. by rewrite Hg in Hkt.
Qed.

(** Every storable value round-trips. *)
Lemma storable_roundtrips levels v : storable levels v -> roundtrips levels v.
Proof using Halloc.
  revert v. induction levels as [|levels IH]; intros v Hv; [done|].
  destruct v as [[d]|]; [|apply roundtrip_nil]. simpl in Hv.
  destruct (scalar d) eqn:Hs; [by eapply roundtrip_scalar|].
  destruct d; try done; simpl in Hv.
  - destruct Hv as [? ?]. apply roundtrip_array; [done|]. by eapply Forall_impl; [|exact IH].
  - destruct Hv as (? & ? & ? & Hall). apply roundtrip_map; [done..|].
    intros k x Hx. destruct (Hall k x Hx). auto.
  - by apply roundtrip_bytes.
  - by apply roundtrip_result, IH.
  - apply roundtrip_option. destruct v; auto.
  - destruct Hv as (? & ? & ? & Hall). apply roundtrip_struct; [done..|].
    eapply Forall_impl; [exact Hall|]. intros f (? & ? & ?). auto.
  - destruct Hv as (? & ? & ? & ? & ?). apply roundtrip_enum; [done..|]. destruct payload; auto.
Qed.

End main.

(** ** Reads stay inside the buffer *)

(** A reader that starts inside the input stays inside it, moves forward and
    changes nothing else. *)
Definition in_bounds {A} (r : reader A) : Prop := forall buf,
  (read_pos buf <= buf_size buf)%nat ->
  let buf' := (r buf).2 in
  buf_data buf' = buf_data buf /\ buf_capacity buf' = buf_capacity buf /\
  (read_pos buf <= read_pos buf' <= buf_size buf)%nat.

Lemma in_bounds_ret {A} (x : A) : in_bounds (rret x).
Proof. intros buf H. simpl. split_and!; done || lia. Qed.

Lemma in_bounds_fail {A} e : in_bounds (@rfail A e).
Proof. intros buf H. simpl. split_and!; done || lia. Qed.

Lemma in_bounds_need {A} n (f : SerialBuffer -> A) : in_bounds (need n f).
Proof.
  intros buf H. unfold need. case_if_goal; simpl; split_and!; done || lia.
Qed.

Lemma in_bounds_bind {A B} (r : reader A) (k : A -> reader B) :
  in_bounds r -> (forall x, in_bounds (k x)) -> in_bounds (rbind r k).
Proof.
  intros Hr Hk buf H. unfold rbind. specialize (Hr buf H). destruct (r buf) as [[x|e] buf']; simpl in *.
  - destruct Hr as (Hd & Hc & Hp). specialize (Hk x buf'). unfold buf_size in *. rewrite Hd in Hk.
    destruct Hk as (Hd' & Hc' & Hp'); [lia|]. rewrite Hd', Hc'. split_and!; try done; lia.
  - done.
Qed.

Lemma in_bounds_for {A} n (step : A -> reader A) acc :
  (forall a, in_bounds (step a)) -> in_bounds (rfor n step acc).
Proof.
  intros Hs. revert acc. induction n; intros acc; simpl; [apply in_bounds_ret|].
  by apply in_bounds_bind.
Qed.

Create HintDb bounds.
#[export] Hint Resolve in_bounds_ret in_bounds_fail in_bounds_need in_bounds_bind in_bounds_for : bounds.

Lemma in_bounds_string : in_bounds serial_read_string.
Proof.
  unfold serial_read_string, serial_read_u32, serial_read_bytes.
  apply in_bounds_bind; [auto with bounds|]. intros len. case_if_goal; auto with bounds.
Qed.
#[export] Hint Resolve in_bounds_string : bounds.

(** One step through the structure of a reader. *)
Ltac in_bounds_step IH :=
  match goal with
  | |- in_bounds (rbind _ _) => apply in_bounds_bind; [|intros ?]
  | |- in_bounds (if _ then _ else _) => case_if_goal
  | |- in_bounds (rfor _ _ _) => apply in_bounds_for; intros ?
  | |- in_bounds (let '(_, _) := ?x in _) => destruct x
  | |- in_bounds (deserialize_value_internal _) => apply IH
  | |- in_bounds _ => solve [auto with bounds]
  end.

Lemma deserialize_in_bounds levels : in_bounds (deserialize_value_internal levels).
Proof.
  induction levels as [|levels IH]; [apply in_bounds_fail|].
  cbn [deserialize_value_internal].
  unfold serial_read_i64, serial_read_f64, serial_read_u8, serial_read_u32, serial_read_u64, serial_read_bytes.
  repeat in_bounds_step IH.
Qed.

(** ** Properties *)


(** [{"a": 1}] inside an array, beside a negative integer and a [NULL]. *)
Definition sample_tree : tree :=
  T (VArray 8 [Some (T (VInt (-7))); None;
               Some (T (VMap (map_set allocs_ok map_new [97] (Some (T (VInt 1))))))]).

Lemma sample_tree_storable levels : storable (S (S (S levels))) (Some sample_tree).
Proof.
  assert (Hk : is_cstr [97]) by (repeat constructor; lia).
  destruct (map_new_wf (A := option tree) 16) as [Hw0 Hg0].
  destruct (map_set_fresh allocs_ok map_new [97] (Some (T (VInt 1))) Hw0 Hk) as [Hw Hg].
  { unfold map_new. rewrite Hg0. apply lookup_empty. }
  { reflexivity. }
  simpl in Hg. unfold map_new in Hg. rewrite Hg0 in Hg.
  assert (Hs : forall n : nat, (n <=? 9)%nat = true -> Z.of_nat n < 2 ^ 32) by (intros n Hn%Nat.leb_le; lia).
  cbn [storable sample_tree storable_data]. split; [by apply Hs|].
  repeat apply Forall_cons_2; [simpl; unfold is_s64; lia|done| |constructor].
  cbn [storable storable_data]. split_and!; [done|by apply Hs| |].
  - replace (map_keys _) with [[97]] by reflexivity. apply Forall_singleton. by apply Hs.
  - intros k x Hx. unfold map_new in Hx. rewrite Hg in Hx.
    apply lookup_singleton_Some in Hx as [<- <-].
    split; [apply Nat.leb_le; reflexivity|]. simpl. unfold is_s64. lia.
Qed.




(** A value wrapped in [levels] options. *)
Definition some_prefix (levels : nat) : list Z := concat (replicate levels [SERIAL_TAG_OPTION; 1]).

Lemma some_prefix_overflow levels pre post cap :
  (deserialize_value_internal levels
     (mkBuffer (pre ++ some_prefix levels ++ post) cap (length pre))).1 = inr SERIALIZE_ERROR_OVERFLOW.
Proof.
  revert pre. induction levels as [|levels IH]; intros pre; [done|].
  assert (Hstep : forall buf b1 b2, serial_read_u8 buf = (inl SERIAL_TAG_OPTION, b1) ->
            serial_read_u8 b1 = (inl 1, b2) ->
            (deserialize_value_internal levels b2).1 = inr SERIALIZE_ERROR_OVERFLOW ->
            (deserialize_value_internal (S levels) buf).1 = inr SERIALIZE_ERROR_OVERFLOW).
  { intros buf b1 b2 H1 H2 H3. cbn [deserialize_value_internal]. unfold rbind at 1. rewrite H1.
    transitivity ((val <~ deserialize_value_internal levels ; rret (T (VOption true (Some val)))) b2).1.
    - change ((rbind serial_read_u8 (fun is_some => if is_some =? 0 then rret (T (VOption false None))
        else val <~ deserialize_value_internal levels ; rret (T (VOption true (Some val)))) b1).1
        = (rbind (deserialize_value_internal levels) (fun val => rret (T (VOption true (Some val)))) b2).1).
      unfold rbind at 1. by rewrite H2.
    - unfold rbind. destruct (deserialize_value_internal levels b2) as [[x|e] b]; [done|].
      simpl in *. by simplify_eq. }
  eapply Hstep.
  - exact (reads_u8 SERIAL_TAG_OPTION ltac:(done) pre ([1] ++ some_prefix levels ++ post) cap).
  - pose proof (reads_u8 1 ltac:(done) (pre ++ [SERIAL_TAG_OPTION]) (some_prefix levels ++ post) cap) as H2.
    rewrite <- app_assoc, length_app in H2. exact H2.
  - specialize (IH (pre ++ [SERIAL_TAG_OPTION; 1])). rewrite <- app_assoc, length_app in IH.
    rewrite <- Nat.add_assoc. exact IH.
Qed.

(** Nesting is bounded: input that opens more than [MAX_SERIALIZE_DEPTH]
    levels is refused with the overflow error, whatever follows. *)
Theorem deserialize_depth_limit (rest : list Z) :
  (deserialize_value (serial_buffer_init_data (some_prefix (S MAX_SERIALIZE_DEPTH) ++ rest))).1
  = inr SERIALIZE_ERROR_OVERFLOW.
Proof.
  unfold deserialize_value, serial_buffer_init_data. generalize (S MAX_SERIALIZE_DEPTH). intros levels.
  apply (some_prefix_overflow levels []).
Qed.
