(* ===== verification/MapValue.v ===== *)
(** * Map values in the store and deep copies (src/types/map.c, src/vm/value.c)

    The copy-on-write layer of the map operations, over the structure of
    [HashMap]; struct, enum, result and option values; [value_copy].
    Allocations succeed, except where an argument [.._ok] says otherwise. *)

From Stdlib Require Import ZArith Lia.
From stdpp Require Import base list numbers gmap.
From S2P Require Import Prelude Hash HashMap Value Array.
Local Open Scope Z_scope.

Definition load_map (v : ptr) : M (option (Value * Map ptr)) :=
  if v =? NULL then mret None else
  c ← load v;
  mret (match data c with VMap m => Some (c, m) | _ => None end).

Definition retain_entry (e : MapEntry ptr) : M (MapEntry ptr) :=
  x ← value_retain (e_value e); mret (mkEntry (e_key e) (e_hash e) x).

Section operations.
(** [clone_ok]: the allocations of the clone; when one of them fails the entries
    copied so far are freed, which takes back their references. *)
Context (clone_ok rem_ok : bool) (set_ok : set_allocs).

Definition map_ensure_writable (v : ptr) : M ptr :=
  a ← load_map v;
  match a with
  | None => mret v
  | Some (_, old) =>
      cow ← value_needs_cow v;
      if negb cow then mret v
      else if clone_ok then
        new_v ← value_new (VMap (mkMap (HashMap.size old) (HashMap.capacity old) []));
        bs ← mapM (fun chain => mapM retain_entry chain) (buckets old);
        n ← load new_v;
        write new_v (set_data n (VMap (mkMap (HashMap.size old) (HashMap.capacity old) bs))) ;;
        value_release v ;;
        mret new_v
      else mret NULL
  end.

(** The frame the writers share. *)
Definition with_writable_map (v : ptr) (k : ptr -> Map ptr -> M unit) : M ptr :=
  a ← load_map v;
  match a with
  | None => mret v
  | Some _ =>
      writable ← map_ensure_writable v;
      w ← load_map writable;
      match w with
      | None => mret writable
      | Some (_, m) => k writable m ;; mret writable
      end
  end.

Definition free_value (x : ptr) : M unit := if x =? NULL then mret tt else value_free_all x.

Definition put_map (w : ptr) (m : Map ptr) : M unit :=
  c ← load w; write w (set_data c (VMap m)).

Definition value_map_set (v : ptr) (key : list Z) (value : ptr) : M ptr :=
  with_writable_map v (fun w m =>
    gc_write_barrier rem_ok w value ;;
    (match find_entry_internal m key (agim_hash_string key (strlen key)) ≫= entry_at m with
     | Some e => free_value (e_value e)
     | None => mret tt
     end) ;;
    put_map w (map_set set_ok m key value)).

Definition value_map_delete (v : ptr) (key : list Z) : M ptr :=
  with_writable_map v (fun w m =>
    let h := agim_hash_string key (strlen key) in
    (match find_index (entry_matches key h) (chain m (bucket_index h (HashMap.capacity m))) with
     | Some d =>
         match chain m (bucket_index h (HashMap.capacity m)) !! d with
         | Some e => free_value (e_value e)
         | None => mret tt
         end
     | None => mret tt
     end) ;;
    put_map w (map_delete m key)).

Definition value_map_clear (v : ptr) : M ptr :=
  with_writable_map v (fun w m =>
    mapM (fun e => free_value (e_value e)) (concat (buckets m)) ;;
    put_map w (map_clear m)).

End operations.

(** ** Results, options, structs and enums *)

Definition value_result_ok (value : ptr) : M ptr := value_new (VResult true value).
Definition value_result_err (error : ptr) : M ptr := value_new (VResult false error).
Definition value_some (value : ptr) : M ptr := value_new (VOption true value).
Definition value_none : M ptr := value_new (VOption false NULL).

Definition value_result_is_ok {R} (d : vdata R) : bool :=
  match d with VResult is_ok _ => is_ok | _ => false end.
Definition value_result_is_err {R} (d : vdata R) : bool :=
  match d with VResult is_ok _ => negb is_ok | _ => false end.
Definition value_result_unwrap (d : vdata ptr) : ptr :=
  match d with VResult true v => v | _ => NULL end.
Definition value_result_unwrap_or (d : vdata ptr) (default_val : ptr) : ptr :=
  match d with VResult true v => v | _ => default_val end.
Definition value_result_unwrap_err (d : vdata ptr) : ptr :=
  match d with VResult false v => v | _ => NULL end.
Definition value_option_is_some {R} (d : vdata R) : bool :=
  match d with VOption is_some _ => is_some | _ => false end.
Definition value_option_is_none {R} (d : vdata R) : bool :=
  match d with VOption is_some _ => negb is_some | _ => false end.
Definition value_option_unwrap (d : vdata ptr) : ptr :=
  match d with VOption true v => v | _ => NULL end.
Definition value_option_unwrap_or (d : vdata ptr) (default_val : ptr) : ptr :=
  match d with VOption true v => v | _ => default_val end.

(** Fields without a name yet have the empty name. *)
Definition value_struct_new (type_name : list Z) (field_count : nat) : M ptr :=
  value_new (VStruct type_name (replicate field_count ([], NULL))).
Definition value_struct_set_field (v : ptr) (index : nat) (name : list Z) (value : ptr) : M unit :=
  if v =? NULL then mret tt else
  c ← load v;
  match data c with
  | VStruct tn fields =>
      if (length fields <=? index)%nat then mret tt
      else write v (set_data c (VStruct tn (<[index := (cstr name, value)]> fields)))
  | _ => mret tt
  end.

Definition value_enum_unit (type_name variant_name : list Z) : M ptr :=
  value_new (VEnum type_name variant_name NULL).
Definition value_enum_with_payload (type_name variant_name : list Z) (payload : ptr) : M ptr :=
  value_new (VEnum type_name variant_name payload).

(** ** Deep copies *)

(** [value_copy] recurses along the references, which form no cycle; [fuel]
    bounds the depth of the value. *)
Fixpoint value_copy (fuel : nat) (v : ptr) : M ptr :=
  match fuel with
  | O => ub
  | S fuel' =>
      if v =? NULL then mret NULL else
      c ← load v;
      match data c with
      | VNil => value_new VNil
      | VBool b => value_new (VBool b)
      | VInt i => value_new (VInt i)
      | VFloat d => value_new (VFloat d)
      | VString s => value_new (VString s)
      | VArray cap items =>
          copy ← value_array_with_capacity true cap;
          foldl (fun acc item =>
                   copy ← acc; x ← value_copy fuel' item; array_push true true true copy x)
                (mret copy) items
      | VMap m =>
          copy ← value_new (VMap (map_with_capacity (HashMap.capacity m)));
          foldl (fun acc e =>
                   copy ← acc; x ← value_copy fuel' (e_value e);
                   value_map_set true true allocs_ok copy (e_key e) x)
                (mret copy) (concat (buckets m))
      | VPid p => value_new (VPid p)
      | VFunction f => value_new (VFunction f)
      | VVector l => value_new (VVector l)
      | VClosure _ => value_new VNil
      | VResult is_ok x =>
          x' ← value_copy fuel' x; if is_ok then value_result_ok x' else value_result_err x'
      | VOption is_some x =>
          if is_some then x' ← value_copy fuel' x; value_some x' else value_none
      | VStruct tn fields =>
          copy ← value_struct_new tn (length fields);
          foldl (fun acc f =>
                   i ← acc; x ← value_copy fuel' f.2;
                   value_struct_set_field copy i f.1 x ;; mret (S i))
                (mret O) fields ;;
          mret copy
      | VEnum tn vn payload =>
          if payload =? NULL then value_enum_unit tn vn
          else x ← value_copy fuel' payload; value_enum_with_payload tn vn x
      | VBytes _ _ => value_new VNil
      end
  end.

(** ** Copy on write *)

Definition map_kids (m : Map ptr) : list ptr := e_value <$> concat (buckets m).

Lemma mapM_retain_entry_live es st :
  Forall (live st) (e_value <$> es) ->
  exists st', mapM retain_entry es st = Some (es, st') /\ retained (e_value <$> es) st st'.
Proof.
  revert st. induction es as [|e es IH]; intros st Hl.
  - eexists. split; [reflexivity|apply retained_refl].
  - rewrite fmap_cons in Hl. inversion_clear Hl as [|? ? Hp Hl'].
    destruct (value_retain_live st _ Hp) as (st1 & H1 & R1).
    destruct (IH st1) as (st2 & H2 & R2).
    { eapply Forall_impl; [exact Hl'|]. intros p. apply R1. }
    exists st2. split; [|by eapply (retained_trans [e_value e])].
    simpl. unfold retain_entry at 1.
    assert (Hr : (x ← value_retain (e_value e); mret (mkEntry (e_key e) (e_hash e) x)) st = Some (e, st1)).
    { mstep H1. by destruct e. }
    mstep Hr. mstep H2. done.
Qed.

Lemma mapM_retain_buckets_live bs st :
  Forall (live st) (e_value <$> concat bs) ->
  exists st', mapM (fun chain => mapM retain_entry chain) bs st = Some (bs, st') /\
    retained (e_value <$> concat bs) st st'.
Proof.
  revert st. induction bs as [|b bs IH]; intros st Hl.
  - eexists. split; [reflexivity|apply retained_refl].
  - simpl in *. rewrite fmap_app in *. apply Forall_app in Hl as [Hb Hl].
    destruct (mapM_retain_entry_live b st Hb) as (st1 & H1 & R1).
    destruct (IH st1) as (st2 & H2 & R2).
    { eapply Forall_impl; [exact Hl|]. intros p. apply R1. }
    exists st2. split; [|by eapply retained_trans]. mstep H1. mstep H2. done.
Qed.

Section cow.
Context (st : Store) (v : ptr) (c : Value) (m : Map ptr).
Context (Hwf : store_wf st) (Hv : cells st !! v = Some c) (Hd : data c = VMap m).

Lemma load_map_hit : load_map v st = Some (Some (c, m), st).
Proof.
  unfold load_map. pose proof (v_not_null st v c Hwf Hv). case_if_goal; [done|].
  mstep (load_run _ _ _ Hv). by rewrite Hd.
Qed.

Lemma map_ensure_writable_spec :
  (1 < refcount c -> Forall (live st) (map_kids m)) ->
  exists w st', map_ensure_writable true v st = Some (w, st') /\
    writable_at st v c (VMap m) (map_kids m) w st'.
Proof.
  intros Hlive. unfold map_ensure_writable. mstep load_map_hit.
  mstep (needs_cow_hit st v c Hwf Hv). destruct (Z.ltb_spec 1 (refcount c)) as [Hsh|Hns]; simpl.
  - destruct (clone_spec st v c Hwf Hv (VMap (mkMap (HashMap.size m) (HashMap.capacity m) []))
      (mapM (fun chain => mapM retain_entry chain) (buckets m)) (buckets m)
      (fun bs => VMap (mkMap (HashMap.size m) (HashMap.capacity m) bs)) (map_kids m))
      as (w & st' & Hr & Hw); auto.
    { intros st1 H1. by apply mapM_retain_buckets_live. }
    exists w, st'. split; [exact Hr|]. by destruct m.
  - exists v, st. split; [done|]. by apply unshared_writable.
Qed.

End cow.

(** The effect of a writer on a map value [v] of [st], as for arrays. *)
Record cow_map_write (st : Store) (v : ptr) (rc : Z) (new : Map ptr) (w : ptr) (st' : Store) : Prop := {
  cmw_new : data_of st' w = Some (VMap new);
  cmw_frame : forall p, p ∈ dom (cells st) -> p <> w -> data_of st' p = data_of st p;
  cmw_unshared : rc <= 1 -> w = v;
  cmw_shared : 1 < rc -> w ∉ dom (cells st);
}.

Section writers.
Context (st : Store) (v : ptr) (c : Value) (m : Map ptr).
Context (Hwf : store_wf st) (Hv : cells st !! v = Some c) (Hd : data c = VMap m).
Context (Hlive : 1 < refcount c -> Forall (live st) (map_kids m)).

Lemma with_writable_map_cow (k : ptr -> Map ptr -> M unit) new :
  (forall w cw st1, cells st1 !! w = Some cw -> data cw = VMap m ->
     (forall p, p ∈ dom (cells st) -> data_of st1 p = data_of st p) ->
     exists st2, k w m st1 = Some (tt, st2) /\ data_of st2 w = Some (VMap new) /\
       (forall p, p <> w -> data_of st2 p = data_of st1 p)) ->
  exists w st', with_writable_map true v k st = Some (w, st') /\
    cow_map_write st v (refcount c) new w st'.
Proof.
  intros Hk.
  destruct (map_ensure_writable_spec st v c m Hwf Hv Hd Hlive) as (w & st1 & He & [W1 W2 W3 W4 W5 W6]).
  unfold with_writable_map. mstep (load_map_hit st v c m Hwf Hv Hd). mstep He.
  assert (exists cw, cells st1 !! w = Some cw /\ data cw = VMap m) as (cw & Hcw & Hdw).
  { unfold data_of in W2. destruct (cells st1 !! w) as [cw|]; simplify_eq/=. eauto. }
  mstep (load_map_hit st1 w cw m W1 Hcw Hdw).
  assert (Hold : forall p, p ∈ dom (cells st) -> data_of st1 p = data_of st p).
  { intros p Hp. apply W3. intros ->. by apply next_addr_fresh in Hp. }
  destruct (Hk w cw st1 Hcw Hdw Hold) as (st2 & Hrun & Hnew & Hframe).
  mstep Hrun. exists w, st2. split; [done|]. split; [done| | |].
  - intros p Hp Hne. rewrite Hframe by done. by apply Hold.
  - intros Hrc. by apply W5.
  - intros Hrc. destruct (W6 Hrc) as [-> _]. by apply next_addr_fresh.
Qed.

Lemma put_map_run st1 w cw new :
  cells st1 !! w = Some cw ->
  exists st2, put_map w new st1 = Some (tt, st2) /\ data_of st2 w = Some (VMap new) /\
    (forall p, p <> w -> data_of st2 p = data_of st1 p).
Proof.
  intros Hc. unfold put_map. mstep (load_run _ _ _ Hc). eexists. split; [by apply write_run with cw|].
  unfold data_of. simpl. split; [by rewrite lookup_insert_eq|]. intros p Hp. by rewrite lookup_insert_ne.
Qed.

(** Adding a key to a map value is copy-on-write: the map returned is [v]
    itself when [v] has one reference and a fresh cell otherwise, it stands for
    the old contents with the new binding, and every other cell that existed,
    the old map included when it is shared, keeps its data.  Whether the
    resizes succeed makes no difference to the contents. *)
Theorem map_value_insert_cow (rem_ok : bool) (ok : set_allocs) (key : list Z) (value : ptr)
    (Hmap : map_wf m) (Hkey : is_cstr key) (Hentry : entry_ok ok = true)
    (Hnew : to_gmap m !! key = None) (Hvalue : value = NULL \/ value ∈ dom (cells st)) :
  exists w st' m', value_map_set true rem_ok ok v key value st = Some (w, st') /\
    cow_map_write st v (refcount c) m' w st' /\
    map_wf m' /\ to_gmap m' = <[key := value]> (to_gmap m).
Proof.
  assert (Hf : find_entry_internal m key (key_hash key) = None).
  { pose proof (find_entry_spec m key Hmap Hkey) as Hs.
    destruct (find_entry_internal m key (key_hash key)) as [[i d]|]; [|done].
    destruct Hs as (_ & e & _ & _ & Hc). congruence. }
  destruct (map_set_fresh ok m key value Hmap Hkey Hnew Hf) as [Hw Hg]. rewrite Hentry in Hg.
  destruct (with_writable_map_cow (fun w m =>
    gc_write_barrier rem_ok w value ;;
    (match find_entry_internal m key (agim_hash_string key (strlen key)) ≫= entry_at m with
     | Some e => free_value (e_value e) | None => mret tt end) ;;
    put_map w (map_set ok m key value)) (map_set ok m key value)) as (w & st' & Hr & Hcow).
  - intros w cw st1 Hcw Hdw Hold. pose proof (known_item st st1 value Hvalue Hold) as Hi.
    destruct (gc_write_barrier_data rem_ok st1 w cw value Hcw Hi) as (st2 & Hb & Hs & _). mstep Hb.
    rewrite key_hash_string, Hf by done. simpl. mstep (eq_refl (Some (tt, st2))).
    assert (exists cw2, cells st2 !! w = Some cw2) as [cw2 Hcw2].
    { pose proof (Hs w) as Hsw. unfold data_of in Hsw. rewrite Hcw in Hsw.
      destruct (cells st2 !! w); [eauto|done]. }
    destruct (put_map_run st2 w cw2 (map_set ok m key value) Hcw2) as (st3 & Hp & Hn & Hfr).
    exists st3. split; [exact Hp|]. split; [exact Hn|]. intros p Hpw. rewrite Hfr by done. symmetry. apply Hs.
  - exists w, st', (map_set ok m key value). done.
Qed.

End writers.

(** A map with two owners. *)
Definition shared_map : Value := mkValue (VMap (map_with_capacity 4)) 2 0 0.
Definition shared_map_store : Store :=
  mkStore (<[1 := shared_map]> (<[2 := mkValue (VInt 5) 1 0 0]> ∅)) 3 None.

Lemma map_value_insert_cow_witness :
  exists w st' m', value_map_set true true allocs_ok 1 [97; 98] 2 shared_map_store = Some (w, st') /\
    cow_map_write shared_map_store 1 2 m' w st' /\
    map_wf m' /\ to_gmap m' = <[[97; 98] := 2]> ∅.
Proof.
  destruct (map_new_wf (A := ptr) 4) as [Hw Hg].
  destruct (map_value_insert_cow shared_map_store 1 shared_map (map_with_capacity 4)
           ltac:(by apply store_wf_check) eq_refl eq_refl (fun _ => Forall_nil_2 _) true allocs_ok [97; 98] 2)
    as (w & st' & m' & H).
  - exact Hw.
  - repeat constructor; done.
  - reflexivity.
  - by rewrite Hg.
  - right. apply elem_of_dom. by eexists.
  - exists w, st', m'. rewrite Hg in H. exact H.
Defined.
