(* ===== verification/Mailbox.v ===== *)
(** * Mailboxes (src/runtime/mailbox.c, src/runtime/mailbox.h)

    [Mailbox] and the functions on it translate the operations of the
    multi-producer single-consumer queue as one thread runs them: pushing
    with and without overflow policy, popping, limits. *)

From Stdlib Require Import ZArith Lia.
From stdpp Require Import base list numbers gmap.
From S2P Require Import Prelude Value.
Local Open Scope Z_scope.

Definition Pid : Type := Z.
Definition PID_INVALID : Z := 0.

Inductive OverflowPolicy :=
  | OVERFLOW_DROP_NEW | OVERFLOW_DROP_OLD | OVERFLOW_BLOCK_SENDER | OVERFLOW_CRASH.

Inductive SendResult := SEND_OK | SEND_FULL | SEND_WOULD_BLOCK | SEND_DEAD | SEND_ERROR.

#[global] Instance OverflowPolicy_eq_dec : EqDecision OverflowPolicy.
Proof. solve_decision. Defined.
#[global] Instance SendResult_eq_dec : EqDecision SendResult.
Proof. solve_decision. Defined.

(** A message without its link: who sent it and the value it carries. *)
Record Message := mkMessage { msg_sender : Z; msg_value : ptr }.

(** The address of [mailbox->stub]; messages live at other addresses. *)
Definition STUB : ptr := 1.

Record Mailbox := mkMailbox {
  links : gmap Z Z;              (** the [next] field of every node *)
  bodies : gmap Z Message;       (** the rest of every queued message *)
  head : ptr;
  tail : ptr;
  count : Z;
  max_messages : Z;
  max_bytes : Z;
  overflow_policy : OverflowPolicy;
  current_bytes : Z;
  dropped_count : Z;
  total_received : Z
}.

Definition mailbox_init : Mailbox :=
  mkMailbox {[STUB := NULL]} ∅ STUB STUB 0 0 0 OVERFLOW_DROP_NEW 0 0 0.

Definition next_of (ls : gmap Z Z) (a : ptr) : ptr := default NULL (ls !! a).

Definition with_queue (mb : Mailbox) (ls : gmap Z Z) (bs : gmap Z Message) (h t : ptr) (n : Z) : Mailbox :=
  mkMailbox ls bs h t n (max_messages mb) (max_bytes mb) (overflow_policy mb)
    (current_bytes mb) (dropped_count mb) (total_received mb).
Definition with_stats (mb : Mailbox) (bytes dropped received : Z) : Mailbox :=
  mkMailbox (links mb) (bodies mb) (head mb) (tail mb) (count mb) (max_messages mb) (max_bytes mb)
    (overflow_policy mb) bytes dropped received.

(** [msg->next = NULL; prev = exchange(tail, msg); prev->next = msg; count++] *)
Definition enqueue (mb : Mailbox) (msg : ptr) (m : Message) : Mailbox :=
  let prev := tail mb in
  with_queue mb (<[prev := msg]> (<[msg := NULL]> (links mb))) (<[msg := m]> (bodies mb))
    (head mb) msg (u64 (count mb + 1)).

Definition mailbox_push (mb : Mailbox) (msg : ptr) (m : Message) (max_size : Z) : bool * Mailbox :=
  if (0 <? max_size) && (max_size <=? count mb) then (false, mb)
  else (true, enqueue mb msg m).

(** [head = next; count--; head->next = NULL; return head] *)
Definition take_head (mb : Mailbox) (h next : ptr) : ptr * Mailbox :=
  (h, with_queue mb (<[h := NULL]> (links mb)) (delete h (bodies mb)) next (tail mb) (u64 (count mb - 1))).

(** The second half of [mailbox_pop], with [head] past the stub.  Without other
    threads the spin loop reads the same [NULL] a hundred times and gives up. *)
Definition pop_from (mb : Mailbox) (h next : ptr) : ptr * Mailbox :=
  if negb (next =? NULL) then take_head mb h next
  else if negb (h =? tail mb) then (NULL, mb)
  else
    let ls := <[STUB := NULL]> (links mb) in
    let prev_tail := tail mb in
    let ls := <[prev_tail := STUB]> ls in
    let mb := with_queue mb ls (bodies mb) h STUB (count mb) in
    let next := next_of ls h in
    if negb (next =? NULL) then take_head mb h next else (NULL, mb).

(** The popped message's address, or [NULL]. *)
Definition mailbox_pop (mb : Mailbox) : ptr * Mailbox :=
  let h := head mb in
  let next := next_of (links mb) h in
  if h =? STUB then
    if next =? NULL then (NULL, mb)
    else pop_from (with_queue mb (links mb) (bodies mb) next (tail mb) (count mb))
           next (next_of (links mb) next)
  else pop_from mb h next.

(** The nodes [mailbox_free] walks from [msg] on and frees, the stub skipped.
    One more than the number of nodes is enough fuel. *)
Fixpoint free_walk (fuel : nat) (ls : gmap Z Z) (msg : ptr) : list ptr :=
  match fuel with
  | O => []
  | S fuel' =>
      if msg =? NULL then []
      else (if msg =? STUB then [] else [msg]) ++ free_walk fuel' ls (next_of ls msg)
  end.

(** The freed messages and the mailbox left behind; the limits, the policy and
    the other statistics stay. *)
Definition mailbox_free (mb : Mailbox) : list ptr * Mailbox :=
  (free_walk (S (S (base.size (bodies mb)))) (links mb) (head mb),
   mkMailbox {[STUB := NULL]} ∅ STUB STUB 0 (max_messages mb) (max_bytes mb)
     (overflow_policy mb) 0 (dropped_count mb) (total_received mb)).

(** [mailbox_receive]: pop, and on an empty queue wait until the condition is
    signalled ([rc = 0]) or the wait ends otherwise.  [waits] is what the
    environment does: for every wait its return code and what the other threads
    made of the mailbox meanwhile; a wait that never returns ends the list. *)
Fixpoint receive_wait (waits : list (Z * (Mailbox -> Mailbox))) (mb : Mailbox) : ptr * Mailbox :=
  match mailbox_pop mb with
  | (p, mb1) =>
      if negb (p =? NULL) then (p, mb1)
      else match waits with
           | [] => (NULL, mb1)
           | (rc, env) :: waits' =>
               if negb (rc =? 0) then (NULL, env mb1) else receive_wait waits' (env mb1)
           end
  end.
Definition mailbox_receive (waits : list (Z * (Mailbox -> Mailbox))) (mb : Mailbox) : ptr * Mailbox :=
  match mailbox_pop mb with
  | (p, mb1) => if negb (p =? NULL) then (p, mb1) else receive_wait waits mb1
  end.

Definition mailbox_empty (mb : Mailbox) : bool := count mb =? 0.
Definition mailbox_count (mb : Mailbox) : Z := count mb.

Definition SIZEOF_MESSAGE : Z := 24.
Definition SIZEOF_VALUE : Z := 32.

Section sizes.
(** The length of the string at an address, [None] for values of other types. *)
Context (string_length : ptr -> option Z).

Definition estimate_message_size (m : Message) : Z :=
  SIZEOF_MESSAGE +
  (if msg_value m =? NULL then 0
   else SIZEOF_VALUE + default 0 (string_length (msg_value m))).

(** The body of a popped message is still readable until it is freed. *)
Definition mailbox_drop_oldest (mb : Mailbox) : bool * Mailbox :=
  match mailbox_pop mb with
  | (p, mb') =>
      if p =? NULL then (false, mb')
      else
        let size := default 0 (estimate_message_size <$> bodies mb !! p) in
        (true, with_stats mb' (u64 (current_bytes mb' - size)) (dropped_count mb') (total_received mb'))
  end.

Definition count_drop (mb : Mailbox) : Mailbox :=
  with_stats mb (current_bytes mb) (u64 (dropped_count mb + 1)) (total_received mb).

(** [while (current_bytes + msg_size > max_bytes) drop the oldest]: every
    iteration removes a queued message, so one more than their number is
    enough fuel. *)
Fixpoint drop_until_fits (fuel : nat) (msg_size : Z) (mb : Mailbox) : Mailbox :=
  match fuel with
  | O => mb
  | S fuel' =>
      if max_bytes mb <? u64 (current_bytes mb + msg_size) then
        match mailbox_drop_oldest mb with
        | (false, mb') => mb'
        | (true, mb') => drop_until_fits fuel' msg_size (count_drop mb')
        end
      else mb
  end.

(** The limit checks: [None] to go on with the mailbox they leave, or the
    result they return. *)
Definition check_messages (mb : Mailbox) : option SendResult * Mailbox :=
  if (0 <? max_messages mb) && (max_messages mb <=? count mb) then
    match overflow_policy mb with
    | OVERFLOW_DROP_NEW => (Some SEND_FULL, count_drop mb)
    | OVERFLOW_DROP_OLD =>
        match mailbox_drop_oldest mb with
        | (true, mb') => (None, count_drop mb')
        | (false, mb') => (Some SEND_FULL, mb')
        end
    | OVERFLOW_BLOCK_SENDER => (Some SEND_WOULD_BLOCK, mb)
    | OVERFLOW_CRASH => (Some SEND_FULL, mb)
    end
  else (None, mb).

Definition check_bytes (msg_size : Z) (mb : Mailbox) : option SendResult * Mailbox :=
  if (0 <? max_bytes mb) && (max_bytes mb <? u64 (current_bytes mb + msg_size)) then
    match overflow_policy mb with
    | OVERFLOW_DROP_NEW => (Some SEND_FULL, count_drop mb)
    | OVERFLOW_DROP_OLD => (None, drop_until_fits (S (base.size (bodies mb))) msg_size mb)
    | OVERFLOW_BLOCK_SENDER => (Some SEND_WOULD_BLOCK, mb)
    | OVERFLOW_CRASH => (Some SEND_FULL, mb)
    end
  else (None, mb).

Definition mailbox_push_ex (mb : Mailbox) (msg : ptr) (m : Message) : SendResult * Mailbox :=
  let msg_size := estimate_message_size m in
  match check_messages mb with
  | (Some r, mb1) => (r, mb1)
  | (None, mb1) =>
      match check_bytes msg_size mb1 with
      | (Some r, mb2) => (r, mb2)
      | (None, mb2) =>
          let mb3 := enqueue mb2 msg m in
          (SEND_OK, with_stats mb3 (u64 (current_bytes mb3 + msg_size)) (dropped_count mb3)
                      (u64 (total_received mb3 + 1)))
      end
  end.

End sizes.

Definition mailbox_set_limits (mb : Mailbox) (m b : Z) : Mailbox :=
  mkMailbox (links mb) (bodies mb) (head mb) (tail mb) (count mb) m b (overflow_policy mb)
    (current_bytes mb) (dropped_count mb) (total_received mb).
Definition mailbox_set_overflow_policy (mb : Mailbox) (p : OverflowPolicy) : Mailbox :=
  mkMailbox (links mb) (bodies mb) (head mb) (tail mb) (count mb) (max_messages mb) (max_bytes mb) p
    (current_bytes mb) (dropped_count mb) (total_received mb).
Definition mailbox_get_overflow_policy (mb : Mailbox) : OverflowPolicy := overflow_policy mb.
Definition mailbox_dropped_count (mb : Mailbox) : Z := dropped_count mb.
Definition mailbox_bytes_used (mb : Mailbox) : Z := current_bytes mb.

(** ** Linked chains *)

(** [chain ls P l]: the nodes of [l] are linked in order, up to the pairs [P]
    whose link has not been stored yet; the last node's link is [NULL]. *)
Fixpoint chain (ls : gmap Z Z) (P : ptr -> ptr -> Prop) (l : list ptr) : Prop :=
  match l with
  | [] => True
  | a :: l' =>
      match l' with
      | [] => next_of ls a = NULL
      | b :: _ => (next_of ls a = b \/ (next_of ls a = NULL /\ P a b)) /\ chain ls P l'
      end
  end.

Definition no_pending (a b : ptr) : Prop := False.

Lemma next_of_insert_eq ls a b : next_of (<[a := b]> ls) a = b.
Proof. unfold next_of. by rewrite lookup_insert_eq. Qed.

Lemma next_of_insert_ne ls a b c : a <> c -> next_of (<[a := b]> ls) c = next_of ls c.
Proof. intros. unfold next_of. by rewrite lookup_insert_ne. Qed.

Lemma chain_ext ls ls' P P' l :
  (forall a, a ∈ l -> next_of ls' a = next_of ls a) ->
  (forall a b, a ∈ l -> P a b -> P' a b) -> chain ls P l -> chain ls' P' l.
Proof.
  induction l as [|a [|b l] IH]; intros Hn HP H; [done| |].
  - simpl in *. rewrite Hn by left. done.
  - destruct H as [H1 H2]. split.
    + rewrite Hn by left. destruct H1 as [?|[? ?]]; [by left|right]. split; [done|]. by apply HP; [left|].
    + apply IH; [..|exact H2]; intros; [apply Hn|eapply HP]; eauto; by right.
Qed.

Lemma chain_tail ls P a l : chain ls P (a :: l) -> chain ls P l.
Proof. destruct l; [done|]. by intros [_ ?]. Qed.

(** The node after the head, when its link is already there. *)
Lemma chain_next ls P a l n :
  chain ls P (a :: l) -> next_of ls a = n -> n <> NULL -> exists l', l = n :: l'.
Proof.
  destruct l as [|b l]; simpl; intros H Hn Hnn; [congruence|].
  destruct H as [[H|[H _]] _]; [|congruence]. exists l. congruence.
Qed.

Lemma chain_snoc ls P l a b :
  chain ls P (l ++ [a]) -> a <> b -> b ∉ l -> NoDup (l ++ [a]) ->
  chain (<[a := b]> (<[b := NULL]> ls)) P (l ++ [a; b]).
Proof.
  induction l as [|c l IH]; intros H Hab Hb Hnd.
  - simpl. rewrite next_of_insert_eq, next_of_insert_ne, next_of_insert_eq by congruence. auto.
  - apply not_elem_of_cons in Hb as [Hcb Hb]. rewrite <- !app_comm_cons in *.
    apply NoDup_cons in Hnd as [Hc Hnd].
    assert (c <> a) by (intros ->; apply Hc; set_solver).
    specialize (IH (chain_tail _ _ _ _ H) Hab Hb Hnd).
    destruct l as [|d l]; simpl in *; (split; [|exact IH]);
      rewrite !next_of_insert_ne by congruence; tauto.
Qed.

(** Writing the link of a node outside the chain changes nothing. *)
Lemma chain_outside ls P l a n : a ∉ l -> chain ls P l -> chain (<[a := n]> ls) P l.
Proof.
  intros Ha. apply chain_ext; [|done]. intros c Hc. apply next_of_insert_ne. by intros ->.
Qed.

(** ** The mailbox as a queue *)

(** [queued mb q]: the mailbox holds the messages [q], oldest first.  The nodes
    from [head] to [tail] are [q], with the stub in front or, when [q] is not
    empty, without it. *)
Record queued (mb : Mailbox) (q : list ptr) : Prop := {
  q_stub : STUB ∉ q;
  q_null : NULL ∉ q;
  q_nodup : NoDup q;
  q_nodes : exists l, (l = STUB :: q \/ (l = q /\ q <> [])) /\
              list.head l = Some (head mb) /\ last l = Some (tail mb) /\
              chain (links mb) no_pending l;
  q_count : count mb = u64 (Z.of_nat (length q));
  q_bodies : forall a, is_Some (bodies mb !! a) <-> a ∈ q
}.

Lemma mailbox_init_queued : queued mailbox_init [].
Proof.
  split; [set_solver..|constructor| |reflexivity|].
  - exists [STUB]. split; [by left|]. repeat split.
  - intros a. simpl. rewrite lookup_empty. split; [intros [? [=]]|set_solver].
Qed.

Lemma u64_succ a : u64 (u64 a + 1) = u64 (a + 1).
Proof. unfold u64, wrap. apply Zplus_mod_idemp_l. Qed.
Lemma u64_pred a : u64 (u64 (a + 1) - 1) = u64 a.
Proof. unfold u64, wrap. rewrite Zminus_mod_idemp_l. f_equal. lia. Qed.

Lemma last_snoc_inv {A} (l : list A) a : last l = Some a -> exists l', l = l' ++ [a].
Proof. apply last_Some. Qed.

Lemma enqueue_queued mb q msg m :
  queued mb q -> msg ∉ q -> msg <> STUB -> msg <> NULL ->
  queued (enqueue mb msg m) (q ++ [msg]).
Proof.
  intros [Hs Hn Hd (l & Hl & Hh & Ht & Hc) Hk Hb] Hmq Hms Hmn.
  assert (Hnd : NoDup l /\ msg ∉ l).
  { destruct Hl as [->|[-> _]]; [|done]. split; [by constructor|set_solver]. }
  destruct Hnd as [Hnd Hml].
  destruct (last_snoc_inv _ _ Ht) as [l' ->].
  apply not_elem_of_app in Hml as [Hml1 Hml2].
  split; simpl.
  - set_solver.
  - set_solver.
  - by apply NoDup_snoc.
  - exists (l' ++ [tail mb; msg]). split; [|split; [|split]].
    + assert (E : l' ++ [tail mb; msg] = (l' ++ [tail mb]) ++ [msg]) by (by rewrite <- app_assoc).
      rewrite E. destruct Hl as [->|[-> ?]]; [by left|right]. split; [done|]. by destruct q.
    + destruct l'; done.
    + rewrite last_app. done.
    + apply chain_snoc; [done|set_solver..|done].
  - rewrite Hk, u64_succ, length_app. simpl. do 2 f_equal. lia.
  - intros a. rewrite lookup_insert_is_Some, Hb, elem_of_app, list_elem_of_singleton.
    destruct (decide (a = msg)); intuition congruence.
Qed.

(** Taking the head node off a chain whose next node is known. *)
Lemma take_head_queued mb h n q l :
  STUB ∉ q -> NULL ∉ q -> NoDup (h :: q) -> h <> STUB ->
  (l = STUB :: q \/ (l = q /\ q <> [])) ->
  list.head l = Some n -> last l = Some (tail mb) -> chain (links mb) no_pending l ->
  count mb = u64 (Z.of_nat (length q) + 1) ->
  (forall a, is_Some (bodies mb !! a) <-> a ∈ h :: q) ->
  exists mb', take_head mb h n = (h, mb') /\ queued mb' q /\ bodies mb' = delete h (bodies mb).
Proof.
  intros Hs Hn [Hh Hd]%NoDup_cons Hhs Hl Hhd Hlast Hc Hk Hb.
  eexists. split; [reflexivity|]. split; [|reflexivity]. split; try done; simpl.
  - exists l. split; [done|]. split; [done|]. split; [done|].
    apply chain_outside; [|done]. destruct Hl as [->|[-> _]]; set_solver.
  - rewrite Hk. apply u64_pred.
  - intros a. rewrite lookup_delete_is_Some, Hb, elem_of_cons.
    destruct (decide (a = h)) as [->|]; intuition congruence.
Qed.

(** [pop_from] at the oldest message: the stub is behind us. *)
Lemma pop_from_queued mb a q :
  STUB ∉ a :: q -> NULL ∉ a :: q -> NoDup (a :: q) ->
  head mb = a -> last (a :: q) = Some (tail mb) -> chain (links mb) no_pending (a :: q) ->
  count mb = u64 (Z.of_nat (length (a :: q))) ->
  (forall x, is_Some (bodies mb !! x) <-> x ∈ a :: q) ->
  exists mb', pop_from mb a (next_of (links mb) a) = (a, mb') /\ queued mb' q /\
    bodies mb' = delete a (bodies mb).
Proof.
  intros Hs Hn Hd Hh Ht Hc Hk Hb.
  apply not_elem_of_cons in Hs as [Has Hs]. apply not_elem_of_cons in Hn as [Han Hn].
  assert (Hk' : count mb = u64 (Z.of_nat (length q) + 1)) by (rewrite Hk; f_equal; simpl; lia).
  unfold pop_from. destruct q as [|b q].
  - simpl in Hc, Ht. rewrite Hc. injection Ht as Ht. rewrite <- Ht, (Z.eqb_refl a). simpl.
    rewrite next_of_insert_eq. simpl.
    set (mb1 := with_queue _ _ _ _ _ _). change (bodies mb) with (bodies mb1).
    apply (take_head_queued mb1 a STUB [] [STUB]); simpl; auto.
    rewrite next_of_insert_ne, next_of_insert_eq by congruence. done.
  - destruct Hc as [[Hab|[? []]] Hc]. rewrite Hab.
    replace (b =? NULL) with false by (symmetry; apply Z.eqb_neq; set_solver). simpl.
    eapply take_head_queued with (l := b :: q); simpl in *; eauto.
Qed.

Lemma mailbox_pop_nil mb : queued mb [] -> mailbox_pop mb = (NULL, mb).
Proof.
  intros [_ _ _ (l & [->|[_ ?]] & Hh & _ & Hc) _ _]; [|done].
  injection Hh as Hh. simpl in Hc. unfold mailbox_pop. rewrite <- Hh, Hc. done.
Qed.

Lemma mailbox_pop_cons mb a q :
  queued mb (a :: q) ->
  exists mb', mailbox_pop mb = (a, mb') /\ queued mb' q /\ bodies mb' = delete a (bodies mb).
Proof.
  intros [Hs Hn Hd (l & Hl & Hh & Ht & Hc) Hk Hb]. unfold mailbox_pop.
  destruct Hl as [->|[-> _]]; injection Hh as Hh; rewrite <- Hh.
  - rewrite Z.eqb_refl. destruct Hc as [[Hab|[? []]] Hc]. rewrite Hab.
    replace (a =? NULL) with false by (symmetry; apply Z.eqb_neq; set_solver).
    set (mb1 := with_queue _ _ _ _ _ _). apply (pop_from_queued mb1 a q); done.
  - replace (a =? STUB) with false by (symmetry; apply Z.eqb_neq; set_solver).
    apply pop_from_queued; done.
Qed.

(** Popping does not touch limits or statistics. *)
Lemma mailbox_pop_config mb :
  let mb' := (mailbox_pop mb).2 in
  max_messages mb' = max_messages mb /\ max_bytes mb' = max_bytes mb /\
  overflow_policy mb' = overflow_policy mb /\ current_bytes mb' = current_bytes mb /\
  dropped_count mb' = dropped_count mb /\ total_received mb' = total_received mb.
Proof. unfold mailbox_pop, pop_from, take_head. repeat case_match; done. Qed.

(** ** Refinement of a bounded queue *)

(** The queue with the contents of its messages. *)
Definition queued_as (mb : Mailbox) (q : list (ptr * Message)) : Prop :=
  queued mb q.*1 /\ forall a m, (a, m) ∈ q -> bodies mb !! a = Some m.

Definition fresh_msg (a : ptr) (q : list (ptr * Message)) : Prop :=
  a <> NULL /\ a <> STUB /\ a ∉ q.*1.

Lemma enqueue_queued_as mb q msg m :
  queued_as mb q -> fresh_msg msg q -> queued_as (enqueue mb msg m) (q ++ [(msg, m)]).
Proof.
  intros [Hq Hb] (Hn & Hs & Hf). split.
  - rewrite fmap_app. by apply enqueue_queued.
  - intros a m'. rewrite elem_of_app, list_elem_of_singleton. simpl. intros [Hin|[= -> ->]].
    + rewrite lookup_insert_ne; [by apply Hb|]. intros ->. apply Hf.
      apply list_elem_of_fmap. by exists (a, m').
    + by rewrite lookup_insert_eq.
Qed.

Lemma mailbox_pop_queued_as mb a m q :
  queued_as mb ((a, m) :: q) ->
  exists mb', mailbox_pop mb = (a, mb') /\ queued_as mb' q /\ bodies mb !! a = Some m /\ a <> NULL.
Proof.
  intros [Hq Hb]. destruct (mailbox_pop_cons _ _ _ Hq) as (mb' & E & Hq' & Hbb).
  exists mb'. split; [done|]. split; [split; [done|]|split].
  - intros x mx Hx. rewrite Hbb, lookup_delete_ne; [apply Hb; by right|].
    intros Hxa. apply q_nodup, NoDup_cons in Hq as [Hni _]. apply Hni.
    apply list_elem_of_fmap. exists (x, mx). split; [by simpl in *|done].
  - apply Hb. left.
  - intros ->. apply (q_null _ _ Hq). left.
Qed.

Lemma queued_as_count mb q :
  queued_as mb q -> Z.of_nat (length q) <= UINT64_MAX -> count mb = Z.of_nat (length q).
Proof.
  intros [Hq _] Hl. rewrite (q_count _ _ Hq), length_fmap. apply u64_small.
  unfold is_u64, UINT64_MAX in *. lia.
Qed.

(** Clients' operations, their results, and a plain list as the specification. *)
Inductive MbOp :=
  | OpPush (msg : ptr) (m : Message) (max_size : Z)
  | OpPop.
Inductive MbResult :=
  | RPush (accepted : bool)
  | RPop (popped : option (ptr * Message)).

Fixpoint run_mailbox (ops : list MbOp) (mb : Mailbox) : list MbResult :=
  match ops with
  | [] => []
  | OpPush msg m max_size :: ops' =>
      let (ok, mb') := mailbox_push mb msg m max_size in RPush ok :: run_mailbox ops' mb'
  | OpPop :: ops' =>
      let (p, mb') := mailbox_pop mb in
      RPop (if p =? NULL then None else (p,.) <$> bodies mb !! p) :: run_mailbox ops' mb'
  end.

Fixpoint run_queue (ops : list MbOp) (q : list (ptr * Message)) : list MbResult :=
  match ops with
  | [] => []
  | OpPush msg m max_size :: ops' =>
      if (max_size =? 0) || (Z.of_nat (length q) <? max_size)
      then RPush true :: run_queue ops' (q ++ [(msg, m)])
      else RPush false :: run_queue ops' q
  | OpPop :: ops' =>
      match q with
      | [] => RPop None :: run_queue ops' []
      | x :: q' => RPop (Some x) :: run_queue ops' q'
      end
  end.

(** No message is pushed while it is already queued. *)
Fixpoint fresh_ops (ops : list MbOp) (q : list (ptr * Message)) : Prop :=
  match ops with
  | [] => True
  | OpPush msg m max_size :: ops' =>
      0 <= max_size /\ fresh_msg msg q /\
      fresh_ops ops' (if (max_size =? 0) || (Z.of_nat (length q) <? max_size) then q ++ [(msg, m)] else q)
  | OpPop :: ops' => fresh_ops ops' (list.tail q)
  end.

Lemma run_mailbox_refines ops : forall mb q,
  queued_as mb q -> fresh_ops ops q -> Z.of_nat (length q + length ops) <= UINT64_MAX ->
  run_mailbox ops mb = run_queue ops q.
Proof.
  induction ops as [|[msg m mx|] ops IH]; intros mb q Hq Hf Hl; [done|..]; cbn [length] in Hl.
  - simpl. unfold mailbox_push. destruct Hf as (Hmx & Hfr & Hf).
    rewrite (queued_as_count _ _ Hq) by lia.
    destruct (Z.eqb_spec mx 0) as [->|Hne]; simpl in *.
    + f_equal. apply IH; [by apply enqueue_queued_as|done|]. rewrite length_app. simpl. lia.
    + replace (0 <? mx) with true by lia. simpl in *.
      destruct (Z.ltb_spec (Z.of_nat (length q)) mx), (Z.leb_spec mx (Z.of_nat (length q))); try lia;
        f_equal; apply IH; try done; try lia.
      * by apply enqueue_queued_as.
      * rewrite length_app. simpl. lia.
  - simpl. destruct q as [|[a m] q].
    + rewrite mailbox_pop_nil by apply Hq. simpl. f_equal. by apply IH; [..|lia].
    + destruct (mailbox_pop_queued_as _ _ _ _ Hq) as (mb' & -> & Hq' & -> & Ha).
      rewrite (proj2 (Z.eqb_neq _ _) Ha). simpl. f_equal.
      apply IH; [done..|]. cbn [length] in Hl. lia.
Qed.

(** C7: A mailbox used by one thread is a bounded first-in first-out queue: for
    every sequence of [mailbox_push] and [mailbox_pop] from [mailbox_init], in
    which no message is pushed while it is still queued, the results (accepted
    or refused, the message popped or none) are those of a plain list to which
    accepted messages are appended and from whose front they are taken; a push
    is refused exactly when the list has reached a non-zero [max_size].  The
    stub node and its re-insertion never show. *)
Theorem mailbox_fifo ops :
  fresh_ops ops [] -> Z.of_nat (length ops) <= UINT64_MAX ->
  run_mailbox ops mailbox_init = run_queue ops [].
Proof.
  intros Hf Hl. apply run_mailbox_refines; [|done|done].
  split; [apply mailbox_init_queued|]. intros a m []%not_elem_of_nil.
Qed.

Lemma mailbox_fifo_witness :
  let ops := [OpPush 16 (mkMessage 1 160) 2; OpPush 32 (mkMessage 2 0) 2; OpPush 48 (mkMessage 1 0) 2;
              OpPop; OpPop; OpPush 16 (mkMessage 7 0) 2; OpPop; OpPop] in
  run_mailbox ops mailbox_init = run_queue ops [] /\
  run_queue ops [] =
    [RPush true; RPush true; RPush false; RPop (Some (16, mkMessage 1 160));
     RPop (Some (32, mkMessage 2 0)); RPush true; RPop (Some (16, mkMessage 7 0)); RPop None].
Proof.
  split; [|reflexivity]. apply mailbox_fifo; [|vm_compute; discriminate].
  simpl. unfold fresh_msg, NULL, STUB. simpl. repeat split; try lia; set_solver by lia.
Defined.

(** ** Overflow policies *)

Section overflow.
Context (string_length : ptr -> option Z).
Context (string_length_nonneg : forall p n, string_length p = Some n -> 0 <= n).

Notation msize := (estimate_message_size string_length).

(** The bytes the queued messages account for. *)
Fixpoint total_size (q : list (ptr * Message)) : Z :=
  match q with
  | [] => 0
  | (_, m) :: q' => msize m + total_size q'
  end.

(** [current_bytes] is exact. *)
Definition accounted (mb : Mailbox) (q : list (ptr * Message)) : Prop :=
  queued_as mb q /\ current_bytes mb = u64 (total_size q).

Lemma msize_pos m : 0 < msize m.
Proof.
  unfold estimate_message_size, SIZEOF_MESSAGE, SIZEOF_VALUE. case_match; [lia|].
  destruct (string_length _) eqn:E; simpl; [apply string_length_nonneg in E|]; lia.
Qed.

Lemma total_size_nonneg q : 0 <= total_size q.
Proof. induction q as [|[a m] q IH]; simpl; [lia|]. pose proof (msize_pos m). lia. Qed.

Lemma total_size_app q1 q2 : total_size (q1 ++ q2) = total_size q1 + total_size q2.
Proof. induction q1 as [|[a m] q1 IH]; simpl; lia. Qed.

Lemma total_size_drop k q : total_size (drop k q) <= total_size q.
Proof.
  rewrite <- (take_drop k q) at 2. rewrite total_size_app.
  pose proof (total_size_nonneg (take k q)). lia.
Qed.

Lemma with_stats_queued_as mb q b d r :
  queued_as mb q -> queued_as (with_stats mb b d r) q.
Proof. intros [[H1 H2 H3 H4 H5 H6] Hb]. split; [by split|done]. Qed.

Lemma u64_sub a b : u64 (u64 a - b) = u64 (a - b).
Proof. unfold u64, wrap. apply Zminus_mod_idemp_l. Qed.
Lemma u64_add a b : u64 (u64 a + b) = u64 (a + b).
Proof. unfold u64, wrap. apply Zplus_mod_idemp_l. Qed.

(** Same limits, same policy. *)
Definition same_config (mb mb' : Mailbox) : Prop :=
  max_messages mb' = max_messages mb /\ max_bytes mb' = max_bytes mb /\
  overflow_policy mb' = overflow_policy mb /\ total_received mb' = total_received mb.

Lemma drop_oldest_cons mb a m q :
  accounted mb ((a, m) :: q) ->
  exists mb', mailbox_drop_oldest string_length mb = (true, mb') /\ accounted mb' q /\
    same_config mb mb' /\ dropped_count mb' = dropped_count mb.
Proof.
  intros [Hq Hb]. destruct (mailbox_pop_queued_as _ _ _ _ Hq) as (mb1 & E & Hq1 & Hm & Ha).
  pose proof (mailbox_pop_config mb) as (C1 & C2 & C3 & C4 & C5 & C6).
  unfold mailbox_drop_oldest. rewrite E in *. simpl in *.
  rewrite (proj2 (Z.eqb_neq _ _) Ha), Hm. eexists. split; [reflexivity|]. simpl.
  split; [split; [by apply with_stats_queued_as|]|done].
  simpl. rewrite C4, Hb, u64_sub. simpl. f_equal. lia.
Qed.

Lemma drop_oldest_nil mb :
  accounted mb [] -> mailbox_drop_oldest string_length mb = (false, mb).
Proof. intros [[Hq _] _]. unfold mailbox_drop_oldest. by rewrite mailbox_pop_nil. Qed.

(** The dropping loop removes a prefix of the queue, no longer than needed. *)
Lemma drop_until_fits_spec n : forall fuel q mb,
  accounted mb q -> (length q < fuel)%nat -> 0 <= n -> total_size q + n <= UINT64_MAX ->
  exists k, let mb' := drop_until_fits string_length fuel n mb in
    accounted mb' (drop k q) /\ same_config mb mb' /\ (k <= length q)%nat /\
    u64 (dropped_count mb') = u64 (dropped_count mb + Z.of_nat k) /\
    (k = length q \/ total_size (drop k q) + n <= max_bytes mb) /\
    (forall j, (j < k)%nat -> max_bytes mb < total_size (drop j q) + n).
Proof.
  induction fuel as [|fuel IH]; intros q mb Hq Hf Hn Hs; [lia|].
  assert (Hc : current_bytes mb = total_size q).
  { rewrite (proj2 Hq). apply u64_small. pose proof (total_size_nonneg q).
    unfold is_u64, UINT64_MAX in *. lia. }
  assert (Hcn : u64 (current_bytes mb + n) = total_size q + n).
  { rewrite Hc. apply u64_small. pose proof (total_size_nonneg q). unfold is_u64, UINT64_MAX in *. lia. }
  cbn [drop_until_fits]. rewrite Hcn.
  destruct (Z.ltb_spec (max_bytes mb) (total_size q + n)) as [Hlt|Hge].
  - destruct q as [|[a m] q].
    + rewrite drop_oldest_nil by done. exists 0%nat. simpl. rewrite Z.add_0_r. split_and!; try done; [by left|lia].
    + destruct (drop_oldest_cons _ _ _ _ Hq) as (mb1 & -> & Hq1 & (C1 & C2 & C3 & C4) & C5).
      pose proof (msize_pos m) as Hm. cbn [total_size length] in *.
      destruct (IH q (count_drop mb1)) as (k & Hk); [|lia|lia|lia|].
      { destruct Hq1. split; [by apply with_stats_queued_as|done]. }
      destruct Hk as (K1 & (D1 & D2 & D3 & D4) & K2 & K4 & K5 & K6). simpl in *.
      exists (S k). cbn [drop]. split; [done|]. split; [by split_and!; congruence|].
      split; [lia|]. split; [|split].
      * rewrite K4, C5, u64_add. f_equal. lia.
      * rewrite <- C2. destruct K5; [left; lia|by right].
      * intros [|j] Hj; simpl; [lia|]. rewrite <- C2. apply K6. lia.
  - exists 0%nat. simpl. rewrite Z.add_0_r. split_and!; try done; [lia|by right|lia].
Qed.

Lemma bodies_size mb q : queued_as mb q -> base.size (bodies mb) = length q.
Proof.
  intros [Hq _]. rewrite <- size_dom. replace (dom (bodies mb)) with (list_to_set (C := gset Z) q.*1).
  - rewrite size_list_to_set by apply Hq. apply length_fmap.
  - apply set_eq. intros a. rewrite elem_of_list_to_set, elem_of_dom. symmetry. apply Hq.
Qed.

Lemma accounted_bytes mb q n :
  accounted mb q -> 0 <= n -> total_size q + n <= UINT64_MAX ->
  u64 (current_bytes mb + n) = total_size q + n.
Proof.
  intros [_ ->] Hn Hs. rewrite u64_add. apply u64_small. pose proof (total_size_nonneg q).
  unfold is_u64, UINT64_MAX in *. lia.
Qed.

Lemma count_drop_accounted mb q : accounted mb q -> accounted (count_drop mb) q.
Proof. intros [H1 H2]. split; [by apply with_stats_queued_as|done]. Qed.

(** The store at the end of [mailbox_push_ex]. *)
Definition accept (mb : Mailbox) (msg : ptr) (m : Message) : Mailbox :=
  let mb3 := enqueue mb msg m in
  with_stats mb3 (u64 (current_bytes mb3 + msize m)) (dropped_count mb3) (u64 (total_received mb3 + 1)).

Lemma accept_accounted mb q msg m :
  accounted mb q -> fresh_msg msg q -> accounted (accept mb msg m) (q ++ [(msg, m)]).
Proof.
  intros [Hq Hb] Hf. split; [by apply with_stats_queued_as, enqueue_queued_as|].
  simpl. rewrite Hb, u64_add, total_size_app. simpl. f_equal. lia.
Qed.

(** The queue is over a limit with one more message [m]. *)
Definition over_messages (mb : Mailbox) (q : list (ptr * Message)) : bool :=
  (0 <? max_messages mb) && (max_messages mb <=? Z.of_nat (length q)).
Definition over_bytes (mb : Mailbox) (q : list (ptr * Message)) (m : Message) : bool :=
  (0 <? max_bytes mb) && (max_bytes mb <? total_size q + msize m).

Definition refusal (p : OverflowPolicy) : SendResult :=
  match p with OVERFLOW_BLOCK_SENDER => SEND_WOULD_BLOCK | _ => SEND_FULL end.

(** The refusing overflow policies.  While [current_bytes] accounts for the
    queue, [mailbox_push_ex] under [OVERFLOW_DROP_NEW], [OVERFLOW_BLOCK_SENDER]
    and [OVERFLOW_CRASH] refuses a message exactly when the queue has reached a
    non-zero [max_messages] or the message would exceed a non-zero [max_bytes];
    the result is [SEND_WOULD_BLOCK] for the blocking policy and [SEND_FULL] for
    the others, the queue is unchanged, and only [OVERFLOW_DROP_NEW] counts a
    dropped message.  Otherwise the message is appended, its bytes are accounted
    for and [total_received] grows by one. *)
Theorem push_ex_refusing_policies mb q msg m :
  overflow_policy mb <> OVERFLOW_DROP_OLD -> accounted mb q -> fresh_msg msg q ->
  total_size q + msize m <= UINT64_MAX -> Z.of_nat (length q) <= UINT64_MAX ->
  exists r mb', mailbox_push_ex string_length mb msg m = (r, mb') /\
    if over_messages mb q || over_bytes mb q m then
      r = refusal (overflow_policy mb) /\ accounted mb' q /\ total_received mb' = total_received mb /\
      dropped_count mb' = (if decide (overflow_policy mb = OVERFLOW_DROP_NEW)
                           then u64 (dropped_count mb + 1) else dropped_count mb)
    else
      r = SEND_OK /\ accounted mb' (q ++ [(msg, m)]) /\ dropped_count mb' = dropped_count mb /\
      total_received mb' = u64 (total_received mb + 1).
Proof.
  intros Hp Hq Hf Hs Hl. pose proof (msize_pos m) as Hm.
  pose proof (count_drop_accounted _ _ Hq) as Hd. pose proof (accept_accounted _ _ _ m Hq Hf) as Ha.
  unfold mailbox_push_ex, check_messages, check_bytes, over_messages, over_bytes.
  rewrite (queued_as_count _ _ (proj1 Hq)) by done.
  destruct ((0 <? max_messages mb) && _) eqn:E1; simpl.
  - destruct (overflow_policy mb) eqn:Ep; try done; eexists _, _; (split; [reflexivity|]); simpl;
      rewrite ?decide_True, ?decide_False by done; done.
  - rewrite (accounted_bytes _ _ _ Hq) by lia.
    destruct ((0 <? max_bytes mb) && _) eqn:E2; simpl.
    + destruct (overflow_policy mb) eqn:Ep; try done; eexists _, _; (split; [reflexivity|]); simpl;
        rewrite ?decide_True, ?decide_False by done; done.
    + eexists _, _. split; [reflexivity|]. done.
Qed.

Lemma check_messages_drop_old mb q :
  overflow_policy mb = OVERFLOW_DROP_OLD -> accounted mb q -> Z.of_nat (length q) <= UINT64_MAX ->
  exists mb1, check_messages string_length mb = (None, mb1) /\ same_config mb mb1 /\
    let k := if over_messages mb q then 1%nat else 0%nat in
    (k <= length q)%nat /\ accounted mb1 (drop k q) /\
    u64 (dropped_count mb1) = u64 (dropped_count mb + Z.of_nat k).
Proof.
  intros Hp Hq Hl. unfold check_messages, over_messages. rewrite (queued_as_count _ _ (proj1 Hq)) by done.
  destruct ((0 <? max_messages mb) && _) eqn:E; simpl.
  - rewrite Hp. destruct q as [|[a m] q]; [simpl in E; bool_prop; lia|].
    destruct (drop_oldest_cons _ _ _ _ Hq) as (mb1 & -> & Hq1 & Hc & Hd).
    eexists. split; [reflexivity|]. split; [done|]. split; [simpl; lia|].
    split; [by apply count_drop_accounted|]. simpl. rewrite Hd. unfold u64, wrap. apply Zmod_mod.
  - exists mb. split; [done|]. split; [done|]. split; [lia|]. split; [done|]. f_equal. lia.
Qed.

Lemma check_bytes_drop_old mb q n :
  overflow_policy mb = OVERFLOW_DROP_OLD -> accounted mb q -> 0 <= n ->
  total_size q + n <= UINT64_MAX ->
  exists mb1 k, check_bytes string_length n mb = (None, mb1) /\ same_config mb mb1 /\
    (k <= length q)%nat /\ accounted mb1 (drop k q) /\
    u64 (dropped_count mb1) = u64 (dropped_count mb + Z.of_nat k) /\
    (0 < max_bytes mb -> k = length q \/ total_size (drop k q) + n <= max_bytes mb) /\
    (forall j, (j < k)%nat -> 0 < max_bytes mb < total_size (drop j q) + n).
Proof.
  intros Hp Hq Hn Hs. unfold check_bytes. rewrite (accounted_bytes _ _ _ Hq) by done.
  destruct ((0 <? max_bytes mb) && _) eqn:E; rewrite ?Hp.
  - destruct (drop_until_fits_spec n (S (base.size (bodies mb))) q mb) as (k & K1 & K2 & K3 & K4 & K5 & K6);
      [done|rewrite (bodies_size _ _ (proj1 Hq)); lia|done..|].
    eexists _, k. split; [reflexivity|]. do 5 (split; [done|]).
    intros j Hj. specialize (K6 j Hj). lia.
  - exists mb, 0%nat. split; [done|]. split; [done|]. split; [lia|]. split; [done|].
    rewrite drop_0. split; [f_equal; lia|]. split; [intros; right; lia|lia].
Qed.

(** Dropping the oldest.  Under [OVERFLOW_DROP_OLD] and while
    [current_bytes] accounts for the queue, [mailbox_push_ex] always accepts:
    it removes some number [k] of messages from the front, appends the new one,
    keeps [current_bytes] exact, counts [k] dropped messages and one received.
    Afterwards the queue respects [max_messages] if it did before, and
    [max_bytes] unless the new message is the only one left; and no message is
    dropped without need: before each drop the queue was over one of the limits. *)
Theorem push_ex_drop_old mb q msg m :
  overflow_policy mb = OVERFLOW_DROP_OLD -> accounted mb q -> fresh_msg msg q ->
  total_size q + msize m <= UINT64_MAX -> Z.of_nat (length q) <= UINT64_MAX ->
  exists mb' k, mailbox_push_ex string_length mb msg m = (SEND_OK, mb') /\
    accounted mb' (drop k q ++ [(msg, m)]) /\ (k <= length q)%nat /\
    u64 (dropped_count mb') = u64 (dropped_count mb + Z.of_nat k) /\
    total_received mb' = u64 (total_received mb + 1) /\
    (0 < max_messages mb -> Z.of_nat (length q) <= max_messages mb ->
       Z.of_nat (length (drop k q ++ [(msg, m)])) <= max_messages mb) /\
    (0 < max_bytes mb -> k = length q \/ total_size (drop k q ++ [(msg, m)]) <= max_bytes mb) /\
    (forall j, (j < k)%nat -> (j = 0%nat /\ over_messages mb q) \/ over_bytes mb (drop j q) m).
Proof.
  intros Hp Hq Hf Hs Hl. pose proof (msize_pos m) as Hm. unfold mailbox_push_ex.
  destruct (check_messages_drop_old _ _ Hp Hq Hl) as (mb1 & -> & (A1 & A2 & A3 & A4) & Hk1 & Hq1 & Hd1).
  set (k1 := if over_messages mb q then 1%nat else 0%nat) in *.
  pose proof (total_size_drop k1 q) as Hle.
  destruct (check_bytes_drop_old mb1 (drop k1 q) (msize m))
    as (mb2 & k2 & -> & (B1 & B2 & B3 & B4) & Hk2 & Hq2 & Hd2 & Hfit & Hneed); [congruence|done|lia|lia|].
  rewrite drop_drop in *. rewrite length_drop in *.
  exists (accept mb2 msg m), (k1 + k2)%nat. split; [done|].
  split. { apply accept_accounted; [done|]. destruct Hf as (? & ? & Hf). split_and!; try done.
           intros Hin. apply Hf. apply list_elem_of_fmap in Hin as (x & -> & Hx).
           apply list_elem_of_fmap_2. rewrite <- (take_drop (k1 + k2) q). set_solver. }
  split; [lia|]. split. { simpl. rewrite Hd2, <- u64_add, Hd1, u64_add. f_equal. lia. }
  split; [simpl; congruence|]. split; [|split].
  - intros H0 Hmx. rewrite length_app, length_drop. simpl. subst k1. unfold over_messages in *.
    case_match; lia.
  - rewrite <- A2. intros H0. destruct (Hfit H0) as [|]; [left; lia|right].
    rewrite total_size_app. simpl. lia.
  - intros j Hj. destruct (decide (j < k1)%nat) as [Hj1|Hj1].
    + left. subst k1. destruct (over_messages mb q); [split; [lia|done]|lia].
    + right. specialize (Hneed (j - k1)%nat). rewrite drop_drop in Hneed.
      replace (k1 + (j - k1))%nat with j in Hneed by lia. unfold over_bytes.
      apply andb_prop_intro. split; apply Is_true_true; lia.
Qed.

(** A new mailbox with any limits and policy. *)
Definition configured (mx bytes : Z) (p : OverflowPolicy) : Mailbox :=
  mailbox_set_overflow_policy (mailbox_set_limits mailbox_init mx bytes) p.

Lemma configured_accounted mx bytes p : accounted (configured mx bytes p) [].
Proof.
  split; [split|done]; [|by intros a m ?%not_elem_of_nil].
  destruct mailbox_init_queued as [H1 H2 H3 H4 H5 H6]. by split.
Qed.

End overflow.

Definition sample_length (p : ptr) : option Z := if p =? 160 then Some 10 else None.

Lemma push_ex_refusing_policies_witness :
  let mb := accept sample_length (configured 1 0 OVERFLOW_BLOCK_SENDER) 16 (mkMessage 1 160) in
  exists r mb', mailbox_push_ex sample_length mb 32 (mkMessage 2 0) = (r, mb') /\
    r = SEND_WOULD_BLOCK /\ accounted sample_length mb' [(16, mkMessage 1 160)].
Proof.
  intros mb.
  destruct (push_ex_refusing_policies sample_length) with
    (mb := mb) (q := [(16, mkMessage 1 160)]) (msg := 32) (m := mkMessage 2 0) as (r & mb' & E & H).
  - intros p n. unfold sample_length. case_match; [intros [= <-]; lia|done].
  - done.
  - apply (accept_accounted sample_length _ []); [apply configured_accounted|].
    by split_and!; [..|apply not_elem_of_nil].
  - split_and!; [done..|]. simpl. intros H%list_elem_of_singleton. done.
  - vm_compute. discriminate.
  - vm_compute. discriminate.
  - exists r, mb'. split; [exact E|]. split; apply H.
Defined.

Lemma push_ex_drop_old_witness :
  let mb := accept sample_length (configured 0 70 OVERFLOW_DROP_OLD) 16 (mkMessage 1 160) in
  exists mb' k, mailbox_push_ex sample_length mb 32 (mkMessage 2 0) = (SEND_OK, mb') /\
    accounted sample_length mb' (drop k [(16, mkMessage 1 160)] ++ [(32, mkMessage 2 0)]) /\ k = 1%nat.
Proof.
  intros mb.
  destruct (push_ex_drop_old sample_length) with
    (mb := mb) (q := [(16, mkMessage 1 160)]) (msg := 32) (m := mkMessage 2 0)
    as (mb' & k & E & Ha & Hk & _ & _ & _ & Hb & _).
  - intros p n. unfold sample_length. case_match; [intros [= <-]; lia|done].
  - done.
  - apply (accept_accounted sample_length _ []); [apply configured_accounted|].
    by split_and!; [..|apply not_elem_of_nil].
  - split_and!; [done..|]. simpl. intros H%list_elem_of_singleton. done.
  - vm_compute. discriminate.
  - vm_compute. discriminate.
  - exists mb', k. split; [exact E|]. split; [exact Ha|].
    destruct (Hb eq_refl) as [->|Hs]; [done|]. destruct k as [|k]; [|simpl in Hk; lia].
    exfalso. revert Hs. vm_compute. intros H. by apply H.
Defined.

(** The receiver's pops are not accounted for.  [mailbox_pop] leaves
    [current_bytes] as it was, so a mailbox with a byte limit fills up for good:
    once a message of more than half of [max_bytes] has been sent with
    [mailbox_push_ex] and received, the mailbox is empty, yet the next such
    message is refused with [SEND_FULL]. *)
Theorem pop_leaves_bytes_charged string_length a b m bytes :
  a <> NULL -> a <> STUB -> estimate_message_size string_length m <= bytes <= UINT64_MAX ->
  0 < estimate_message_size string_length m ->
  bytes < 2 * estimate_message_size string_length m <= UINT64_MAX ->
  exists mb1 mb2 mb3,
    mailbox_push_ex string_length (configured 0 bytes OVERFLOW_DROP_NEW) a m = (SEND_OK, mb1) /\
    mailbox_pop mb1 = (a, mb2) /\ mailbox_empty mb2 = true /\
    mailbox_bytes_used mb2 = estimate_message_size string_length m /\
    mailbox_push_ex string_length mb2 b m = (SEND_FULL, mb3).
Proof.
  intros Ha Hs Hle Hpos Hlt. set (n := estimate_message_size string_length m) in *.
  assert (En : u64 n = n) by (apply u64_small; unfold is_u64, UINT64_MAX in *; lia).
  assert (E2 : u64 (n + n) = n + n) by (apply u64_small; unfold is_u64, UINT64_MAX in *; lia).
  unfold mailbox_push_ex at 1. unfold check_messages, check_bytes. simpl. fold n. rewrite Z.add_0_l, En.
  replace (bytes <? n) with false by lia. rewrite andb_false_r.
  eexists _, _, _. split; [reflexivity|]. split.
  - unfold mailbox_pop, pop_from, take_head. simpl. rewrite next_of_insert_eq.
    rewrite (proj2 (Z.eqb_neq a NULL) Ha), next_of_insert_ne, next_of_insert_eq by congruence. simpl.
    rewrite Z.eqb_refl. simpl. rewrite next_of_insert_eq. reflexivity.
  - split; [reflexivity|]. split; [exact En|].
    unfold mailbox_push_ex, check_messages, check_bytes. simpl. fold n. rewrite Z.add_0_l, En, E2.
    replace (0 <? bytes) with true by lia. replace (bytes <? n + n) with true by lia. reflexivity.
Qed.

Lemma pop_leaves_bytes_charged_witness :
  exists mb1 mb2 mb3,
    mailbox_push_ex sample_length (configured 0 100 OVERFLOW_DROP_NEW) 16 (mkMessage 1 160) = (SEND_OK, mb1) /\
    mailbox_pop mb1 = (16, mb2) /\ mailbox_empty mb2 = true /\ mailbox_bytes_used mb2 = 66 /\
    mailbox_push_ex sample_length mb2 16 (mkMessage 1 160) = (SEND_FULL, mb3).
Proof.
  apply (pop_leaves_bytes_charged sample_length 16 16 (mkMessage 1 160) 100); try discriminate;
    vm_compute; repeat split; discriminate.
Defined.
