(* ===== verification/Mpsc.v ===== *)
(** * The lock-free queue under concurrency (src/runtime/mailbox.c)

    [mailbox_push] by any number of producer threads against [mailbox_pop] by
    the one consumer, at the grain of the atomic accesses of the C code: every
    atomic load, store, exchange or fetch-and-add is one step, and the steps of
    the threads interleave arbitrarily (sequentially consistent memory: the
    weaker orders the code asks for are not modelled). *)

From Stdlib Require Import ZArith Lia.
From stdpp Require Import base list numbers gmap fin_maps.
From S2P Require Import Prelude Value Mailbox.
Local Open Scope Z_scope.

(** Where a producer is inside [mailbox_push(mailbox, msg, max_size)]. *)
Inductive producer :=
  | PStart (msg : ptr) (max_size : Z)  (** about to read [count] against [max_size] *)
  | PInit (msg : ptr)                  (** about to store [msg->next = NULL] *)
  | PXchg (msg : ptr)                  (** about to exchange [tail] with [msg] *)
  | PLink (msg prev : ptr)             (** about to store [prev->next = msg] *)
  | PCount.                            (** about to increment [count] *)

(** Where the consumer is inside [mailbox_pop(mailbox)]. *)
Inductive consumer :=
  | CIdle                              (** not in a call *)
  | CNext (head : ptr)                 (** about to load [head->next] *)
  | CAdvance (next : ptr)              (** at the stub, about to store [mailbox->head = next] *)
  | CNext2 (head : ptr)                (** past the stub, about to load [head->next] *)
  | CTail (head : ptr)                 (** about to load [tail] *)
  | CSpin (head : ptr) (spin_count : nat) (** about to load [head->next] in the spin loop *)
  | CStub (head : ptr)                 (** about to store [stub.next = NULL] *)
  | CXchg (head : ptr)                 (** about to exchange [tail] with the stub *)
  | CLink (head prev_tail : ptr)       (** about to store [prev_tail->next = stub] *)
  | CCheck (head : ptr)                (** about to load [head->next] for the last time *)
  | CTake (head next : ptr)            (** about to store [mailbox->head = next] *)
  | CCount (head : ptr)                (** about to decrement [count] *)
  | CClear (head : ptr).               (** about to store [head->next = NULL] and return [head] *)

Definition max_spins : nat := 100.

(** The shared memory, the threads, and two histories: the messages in the
    order of their exchanges with [tail], and in the order they are taken. *)
Record state := mkState {
  s_links : gmap Z Z;
  s_head : ptr;
  s_tail : ptr;
  s_count : Z;
  s_live : gset Z;             (** message nodes that are allocated *)
  s_producers : gmap Z producer;
  s_consumer : consumer;
  s_pushed : list ptr;
  s_popped : list ptr
}.

Definition initial : state := mkState {[STUB := NULL]} STUB STUB 0 ∅ ∅ CIdle [] [].

Inductive event :=
  | EPush (t : Z) (msg : ptr) (max_size : Z)  (** thread [t] calls [mailbox_push] *)
  | EProducer (t : Z)                         (** thread [t] makes its next step *)
  | EPop                                      (** the consumer calls [mailbox_pop] *)
  | EConsumer.                                (** the consumer makes its next step *)

Definition set_producer (st : state) (t : Z) (p : option producer) : state :=
  mkState (s_links st) (s_head st) (s_tail st) (s_count st) (s_live st)
    (match p with Some p => <[t := p]> (s_producers st) | None => delete t (s_producers st) end)
    (s_consumer st) (s_pushed st) (s_popped st).
Definition set_consumer (st : state) (c : consumer) : state :=
  mkState (s_links st) (s_head st) (s_tail st) (s_count st) (s_live st) (s_producers st) c
    (s_pushed st) (s_popped st).
Definition store_next (st : state) (a n : ptr) : state :=
  mkState (<[a := n]> (s_links st)) (s_head st) (s_tail st) (s_count st) (s_live st) (s_producers st)
    (s_consumer st) (s_pushed st) (s_popped st).
Definition store_tail (st : state) (a : ptr) (pushed : list ptr) : state :=
  mkState (s_links st) (s_head st) a (s_count st) (s_live st) (s_producers st) (s_consumer st)
    pushed (s_popped st).
Definition store_head (st : state) (a : ptr) (popped : list ptr) : state :=
  mkState (s_links st) a (s_tail st) (s_count st) (s_live st) (s_producers st) (s_consumer st)
    (s_pushed st) popped.
Definition add_count (st : state) (d : Z) : state :=
  mkState (s_links st) (s_head st) (s_tail st) (u64 (s_count st + d)) (s_live st) (s_producers st)
    (s_consumer st) (s_pushed st) (s_popped st).
Definition set_live (st : state) (live : gset Z) : state :=
  mkState (s_links st) (s_head st) (s_tail st) (s_count st) live (s_producers st) (s_consumer st)
    (s_pushed st) (s_popped st).

(** One step of producer [t]: the body of [mailbox_push].  A refused message is
    the caller's again and counts as freed. *)
Definition producer_step (st : state) (t : Z) (p : producer) : state :=
  match p with
  | PStart msg max_size =>
      if (0 <? max_size) && (max_size <=? s_count st)
      then set_producer (set_live st (s_live st ∖ {[msg]})) t None
      else set_producer st t (Some (PInit msg))
  | PInit msg => set_producer (store_next st msg NULL) t (Some (PXchg msg))
  | PXchg msg =>
      set_producer (store_tail st msg (s_pushed st ++ [msg])) t (Some (PLink msg (s_tail st)))
  | PLink msg prev => set_producer (store_next st prev msg) t (Some PCount)
  | PCount => set_producer (add_count st 1) t None
  end.

(** After a load of [head->next] that decides whether to take [head]. *)
Definition took (h n : ptr) (otherwise : consumer) : consumer :=
  if n =? NULL then otherwise else CTake h n.

(** One step of the consumer: the body of [mailbox_pop].  A returned message
    can be freed by the receiver from then on. *)
Definition consumer_step (st : state) : option state :=
  let next a := next_of (s_links st) a in
  match s_consumer st with
  | CIdle => None
  | CNext h =>
      Some (set_consumer st
        (if h =? STUB then if next h =? NULL then CIdle else CAdvance (next h)
         else took h (next h) (CTail h)))
  | CAdvance n => Some (set_consumer (store_head st n (s_popped st)) (CNext2 n))
  | CNext2 h => Some (set_consumer st (took h (next h) (CTail h)))
  | CTail h => Some (set_consumer st (if h =? s_tail st then CStub h else CSpin h 0))
  | CSpin h k =>
      Some (set_consumer st
        (took h (next h) (if bool_decide (S k < max_spins)%nat then CSpin h (S k) else CIdle)))
  | CStub h => Some (set_consumer (store_next st STUB NULL) (CXchg h))
  | CXchg h => Some (set_consumer (store_tail st STUB (s_pushed st)) (CLink h (s_tail st)))
  | CLink h prev => Some (set_consumer (store_next st prev STUB) (CCheck h))
  | CCheck h => Some (set_consumer st (took h (next h) CIdle))
  | CTake h n => Some (set_consumer (store_head st n (s_popped st ++ [h])) (CCount h))
  | CCount h => Some (set_consumer (add_count st (-1)) (CClear h))
  | CClear h => Some (set_consumer (set_live (store_next st h NULL) (s_live st ∖ {[h]})) CIdle)
  end.

(** [None]: the event cannot happen.  [mailbox_push] is called with a message
    that [message_new] has just allocated. *)
Definition step (st : state) (e : event) : option state :=
  match e with
  | EPush t msg max_size =>
      if bool_decide (s_producers st !! t = None) && bool_decide (msg ∉ s_live st) &&
         negb (msg =? NULL) && negb (msg =? STUB)
      then Some (set_producer (set_live st ({[msg]} ∪ s_live st)) t (Some (PStart msg max_size)))
      else None
  | EProducer t => producer_step st t <$> s_producers st !! t
  | EPop => match s_consumer st with
            | CIdle => Some (set_consumer st (CNext (s_head st)))
            | _ => None
            end
  | EConsumer => consumer_step st
  end.

Fixpoint run (st : state) (es : list event) : option state :=
  match es with
  | [] => Some st
  | e :: es' => match step st e with Some st' => run st' es' | None => None end
  end.

Inductive reachable : state -> Prop :=
  | reachable_initial : reachable initial
  | reachable_step st e st' : reachable st -> step st e = Some st' -> reachable st'.

(** ** Adjacent nodes *)

Definition adjacent (l : list ptr) (a b : ptr) : Prop := exists l1 l2, l = l1 ++ a :: b :: l2.

Lemma adjacent_cons l a b c : adjacent l a b -> adjacent (c :: l) a b.
Proof. intros (l1 & l2 & ->). by exists (c :: l1), l2. Qed.

Lemma adjacent_app l l' a b : adjacent l a b -> adjacent (l ++ l') a b.
Proof. intros (l1 & l2 & ->). exists l1, (l2 ++ l'). by rewrite <- app_assoc. Qed.

Lemma adjacent_last l a b : adjacent (l ++ [a; b]) a b.
Proof. by exists l, []. Qed.

Lemma adjacent_elem l a b : adjacent l a b -> a ∈ l /\ b ∈ l.
Proof. intros (l1 & l2 & ->). set_solver. Qed.

(** In a chain without repetition the pair is determined by its first node, and
    the first node of the chain is the second of no pair. *)
Lemma adjacent_uncons c l a b :
  NoDup (c :: l) -> adjacent (c :: l) a b -> (a = c /\ list.head l = Some b) \/ (a <> c /\ adjacent l a b).
Proof.
  intros [Hc _]%NoDup_cons (l1 & l2 & E). destruct l1 as [|d l1]; injection E as -> ->.
  - left. done.
  - right. split; [set_solver|]. by exists l1, l2.
Qed.

Lemma adjacent_not_head c l a : NoDup (c :: l) -> ~ adjacent (c :: l) a c.
Proof.
  intros [Hc _]%NoDup_cons (l1 & l2 & E). destruct l1 as [|d l1]; injection E as -> ->; set_solver.
Qed.

Lemma adjacent_fst l a b c : NoDup l -> adjacent l a b -> adjacent l a c -> b = c.
Proof.
  induction l as [|d l IH]; intros Hnd H1 H2.
  - destruct H1 as ([|? ?] & ? & [=]).
  - destruct (adjacent_uncons _ _ _ _ Hnd H1) as [[? E1]|[? ?]],
      (adjacent_uncons _ _ _ _ Hnd H2) as [[? E2]|[? ?]]; try done; [congruence|].
    apply NoDup_cons in Hnd as [_ Hnd]. auto.
Qed.

Lemma adjacent_not_last l a b : NoDup (l ++ [a]) -> ~ adjacent (l ++ [a]) a b.
Proof.
  induction l as [|c l IH]; intros Hnd H.
  - destruct H as (l1 & l2 & E%(f_equal length)). rewrite !length_app in E. simpl in E. lia.
  - rewrite <- app_comm_cons in *.
    destruct (adjacent_uncons _ _ _ _ Hnd H) as [[-> _]|[_ H']].
    + apply NoDup_cons in Hnd as [Hc _]. set_solver.
    + apply NoDup_cons in Hnd as [_ Hnd]. exact (IH Hnd H').
Qed.

(** ** Chains with links still to be stored *)

Lemma chain_push ls (P : ptr -> ptr -> Prop) l a b :
  chain ls P (l ++ [a]) -> P a b -> next_of ls b = NULL -> chain ls P (l ++ [a; b]).
Proof.
  induction l as [|c l IH]; intros H HP Hb.
  - simpl in *. auto.
  - specialize (IH (chain_tail _ _ _ _ H) HP Hb).
    destruct l; simpl in *; (split; [tauto|exact IH]).
Qed.

(** Storing the link of a pending pair. *)
Lemma chain_link ls (P P' : ptr -> ptr -> Prop) l p m :
  NoDup l -> chain ls P l -> adjacent l p m ->
  (forall a b, a <> p -> P a b -> P' a b) -> chain (<[p := m]> ls) P' l.
Proof.
  induction l as [|c l IH]; intros Hnd H Ha HP; [done|].
  pose proof Hnd as [Hc Hnd']%NoDup_cons.
  destruct (adjacent_uncons _ _ _ _ Hnd Ha) as [[-> Hh]|[Hpc Ha']].
  - destruct l as [|d l]; [done|]. injection Hh as ->. destruct H as [_ H]. split.
    + left. apply next_of_insert_eq.
    + eapply chain_ext; [| |exact H].
      * intros a Hin. apply next_of_insert_ne. by intros ->.
      * intros a b Hin. apply HP. by intros ->.
  - destruct l as [|d l]; [destruct Ha' as ([|? ?] & ? & [=])|].
    specialize (IH Hnd' (proj2 H) Ha' HP). split; [|exact IH].
    rewrite next_of_insert_ne by done. destruct (proj1 H) as [?|[? ?]]; [by left|right; auto].
Qed.

(** ** The invariant *)

(** The message a producer still refers to. *)
Definition pmsg (p : producer) : option ptr :=
  match p with PStart m _ | PInit m | PXchg m | PLink m _ => Some m | PCount => None end.

Definition producer_ok (ls : gmap Z Z) (live : gset Z) (l : list ptr) (p : producer) : Prop :=
  match p with
  | PStart m _ | PInit m => m ∉ l /\ m ∈ live
  | PXchg m => m ∉ l /\ m ∈ live /\ next_of ls m = NULL
  | PLink m prev => adjacent l prev m /\ next_of ls prev = NULL /\ m ∈ live
  | PCount => True
  end.

(** No producer refers to [h]; no two producers refer to the same message. *)
Definition unreferenced (ps : gmap Z producer) (h : ptr) : Prop :=
  forall t p, ps !! t = Some p -> pmsg p <> Some h.
Definition distinct_msgs (ps : gmap Z producer) : Prop :=
  forall t1 t2 p1 p2 m, ps !! t1 = Some p1 -> ps !! t2 = Some p2 ->
    pmsg p1 = Some m -> pmsg p2 = Some m -> t1 = t2.

(** A node the consumer has unlinked and not returned yet. *)
Definition detached (st : state) (l : list ptr) (h : ptr) : Prop :=
  h ∉ l /\ h ∈ s_live st /\ unreferenced (s_producers st) h.

Definition consumer_ok (st : state) (l : list ptr) : Prop :=
  match s_consumer st with
  | CIdle => True
  | CNext h => s_head st = h
  | CAdvance n => s_head st = STUB /\ next_of (s_links st) STUB = n /\ n <> NULL
  | CNext2 h | CTail h | CSpin h _ | CCheck h => s_head st = h /\ h <> STUB
  | CStub h => s_head st = h /\ h <> STUB /\ STUB ∉ l
  | CXchg h => s_head st = h /\ h <> STUB /\ STUB ∉ l /\ next_of (s_links st) STUB = NULL
  | CLink h prev => s_head st = h /\ h <> STUB /\ adjacent l prev STUB /\ next_of (s_links st) prev = NULL
  | CTake h n => s_head st = h /\ h <> STUB /\ next_of (s_links st) h = n /\ n <> NULL
  | CCount h | CClear h => detached st l h
  end.

(** The pairs of nodes some thread is about to link. *)
Definition pending (st : state) (a b : ptr) : Prop :=
  (exists t, s_producers st !! t = Some (PLink b a)) \/
  (b = STUB /\ exists h, s_consumer st = CLink h a).

(** Producers between their exchange and their increment of [count]. *)
Definition uncounted (p : producer) : Prop :=
  match p with PLink _ _ | PCount => True | _ => False end.
#[global] Instance uncounted_dec p : Decision (uncounted p).
Proof. destruct p; apply _. Defined.

Definition in_flight (m : gmap Z producer) : Z := count_where uncounted m.

Definition messages (l : list ptr) : list ptr := filter (fun a => a <> STUB) l.

(** [Inv st l]: the nodes from [head] to [tail] are [l]. *)
Record Inv (st : state) (l : list ptr) : Prop := {
  i_nodup : NoDup l;
  i_null : NULL ∉ l;
  i_head : list.head l = Some (s_head st);
  i_last : last l = Some (s_tail st);
  i_chain : chain (s_links st) (pending st) l;
  i_live : forall a, a ∈ l -> a = STUB \/ a ∈ s_live st;
  i_reserved : STUB ∉ s_live st /\ NULL ∉ s_live st;
  i_producers : forall t p, s_producers st !! t = Some p -> producer_ok (s_links st) (s_live st) l p;
  i_inj : distinct_msgs (s_producers st);
  i_consumer : consumer_ok st l;
  i_fifo : s_pushed st = s_popped st ++ messages l;
  i_count : s_count st =
    u64 (Z.of_nat (length (messages l)) - in_flight (s_producers st) +
         match s_consumer st with CCount _ => 1 | _ => 0 end)
}.

Lemma Inv_initial : Inv initial [STUB].
Proof.
  split; simpl.
  - apply NoDup_singleton.
  - intros H%list_elem_of_singleton. done.
  - done.
  - done.
  - reflexivity.
  - intros a ->%list_elem_of_singleton. by left.
  - set_solver.
  - intros t p. by rewrite lookup_empty.
  - intros t1 t2 p1 p2 m. by rewrite lookup_empty.
  - done.
  - done.
  - reflexivity.
Qed.

(** ** Frame lemmas *)

Lemma producer_ok_store ls live l p a n :
  a ∉ l -> pmsg p <> Some a -> producer_ok ls live l p -> producer_ok (<[a := n]> ls) live l p.
Proof.
  intros Ha Hp. destruct p; simpl in *; try done.
  - intros (? & ? & ?). rewrite next_of_insert_ne by congruence. done.
  - intros (Hadj & ? & ?). pose proof (adjacent_elem _ _ _ Hadj) as [? _].
    rewrite next_of_insert_ne by (intros ->; done). done.
Qed.

Lemma producer_ok_grow ls live l p b :
  pmsg p <> Some b -> producer_ok ls live l p -> producer_ok ls live (l ++ [b]) p.
Proof.
  intros Hp. destruct p; simpl in *; try done.
  1-3: intros [Hm ?]; split; [|done]; intros [?|?%list_elem_of_singleton]%elem_of_app; congruence.
  intros (? & ? & ?). split; [by apply adjacent_app|done].
Qed.

Lemma producer_ok_uncons ls live a l p :
  NoDup (a :: l) -> next_of ls a <> NULL -> producer_ok ls live (a :: l) p -> producer_ok ls live l p.
Proof.
  intros Hnd Hn. destruct p; simpl; try done.
  1-3: intros [Hm ?]; split; [|done]; intros Hin; apply Hm; by right.
  intros (Ha & ? & ?). destruct (adjacent_uncons _ _ _ _ Hnd Ha) as [[-> _]|[_ ?]]; done.
Qed.

Lemma producer_ok_live ls live l p a :
  pmsg p <> Some a -> producer_ok ls live l p -> producer_ok ls (live ∖ {[a]}) l p.
Proof.
  intros Hp. destruct p; simpl in *; try done; intros; destruct_and?; split_and?; try done;
    apply elem_of_difference; (split; [done|]); intros ?%elem_of_singleton; congruence.
Qed.

Lemma producer_ok_more_live ls live l p a :
  producer_ok ls live l p -> producer_ok ls ({[a]} ∪ live) l p.
Proof. destruct p; simpl; set_solver. Qed.

Lemma producer_ok_msg_live ls live l p m : producer_ok ls live l p -> pmsg p = Some m -> m ∈ live.
Proof. destruct p; simpl; intros ? [= <-]; tauto. Qed.

(** *** The number of producers still to count *)

Lemma in_flight_delete m t p :
  m !! t = Some p -> in_flight m = in_flight (delete t m) + (if decide (uncounted p) then 1 else 0).
Proof. apply count_where_delete. Qed.

Lemma in_flight_insert m t p' :
  in_flight (<[t := p']> m) = in_flight (delete t m) + (if decide (uncounted p') then 1 else 0).
Proof. apply count_where_insert. Qed.

Lemma in_flight_none m t : m !! t = None -> in_flight (delete t m) = in_flight m.
Proof. apply count_where_none. Qed.

(** *** Facts at the two ends of the chain *)

Ltac upd_cases :=
  repeat match goal with
  | H : <[?t := _]> _ !! ?u = Some _ |- _ => apply lookup_insert_Some in H as [[? ?]|[? H]]
  | H : delete ?t _ !! ?u = Some _ |- _ => apply lookup_delete_Some in H as [? H]
  end; simplify_eq/=.

Lemma Inv_head st l : Inv st l -> exists l', l = s_head st :: l'.
Proof. intros HI. pose proof (i_head _ _ HI). destruct l; simplify_eq/=. eauto. Qed.

Lemma Inv_last st l : Inv st l -> exists l', l = l' ++ [s_tail st].
Proof. intros HI. apply last_snoc_inv, (i_last _ _ HI). Qed.

Lemma Inv_live_ne st l m : Inv st l -> m ∈ s_live st -> m <> STUB /\ m <> NULL.
Proof. intros HI Hm. destruct (i_reserved _ _ HI). split; by intros ->. Qed.

(** The pending pairs of the others stay when [t] changes from a state that is
    not about to link. *)
Lemma pending_frame st st' t :
  (forall m prev, s_producers st !! t <> Some (PLink m prev)) ->
  (forall t', t' <> t -> s_producers st' !! t' = s_producers st !! t') ->
  s_consumer st' = s_consumer st ->
  forall a b, pending st a b -> pending st' a b.
Proof.
  intros Hn Hf Hc a b [[t' H]|[-> [h H]]].
  - left. exists t'. rewrite Hf; [done|]. intros ->. by eapply Hn.
  - right. split; [done|]. exists h. congruence.
Qed.

Lemma unreferenced_insert ps t p h :
  pmsg p <> Some h -> unreferenced ps h -> unreferenced (<[t := p]> ps) h.
Proof. intros Hp Hu t' p' H. upd_cases; [done|by eapply Hu]. Qed.

Lemma unreferenced_delete ps t h : unreferenced ps h -> unreferenced (delete t ps) h.
Proof. intros Hu t' p' H. upd_cases. by eapply Hu. Qed.

Lemma distinct_insert ps t p :
  (forall m, pmsg p = Some m -> unreferenced (delete t ps) m) ->
  distinct_msgs ps -> distinct_msgs (<[t := p]> ps).
Proof.
  intros Hp Hd t1 t2 p1 p2 m H1 H2 E1 E2.
  destruct (decide (t1 = t)) as [->|N1], (decide (t2 = t)) as [->|N2]; [done|..].
  - rewrite lookup_insert_eq in H1. rewrite lookup_insert_ne in H2 by done. simplify_eq.
    destruct (Hp _ E1 t2 p2); [|done]. by rewrite lookup_delete_ne.
  - rewrite lookup_insert_eq in H2. rewrite lookup_insert_ne in H1 by done. simplify_eq.
    destruct (Hp _ E2 t1 p1); [|done]. by rewrite lookup_delete_ne.
  - rewrite lookup_insert_ne in H1, H2 by done. by eapply Hd.
Qed.

Lemma distinct_delete ps t : distinct_msgs ps -> distinct_msgs (delete t ps).
Proof. intros Hd t1 t2 p1 p2 m H1 H2. upd_cases. by eapply Hd. Qed.

(** The consumer's facts only depend on the links of the chain and the stub. *)
Lemma consumer_ok_frame st st' l :
  s_consumer st' = s_consumer st -> s_head st' = s_head st -> s_head st ∈ l ->
  (forall a, a ∈ l \/ a = STUB -> next_of (s_links st') a = next_of (s_links st) a) ->
  (forall h, detached st l h -> detached st' l h) ->
  consumer_ok st l -> consumer_ok st' l.
Proof.
  intros Ec Eh Hl Hn Hd. unfold consumer_ok. rewrite Ec, Eh.
  destruct (s_consumer st); try done; intros H; destruct_and?; subst; split_and?; eauto;
    rewrite Hn; auto.
  left. by apply (adjacent_elem _ _ STUB).
Qed.

Lemma Inv_head_in st l : Inv st l -> s_head st ∈ l.
Proof. intros HI. destruct (Inv_head _ _ HI) as [l' ->]. left. Qed.

(** *** Steps of a producer *)

(** What follows for [t]'s message, and the frame of a step that leaves the
    chain, the ends and the consumer alone. *)
Lemma Inv_producer_ne st l t p m :
  Inv st l -> s_producers st !! t = Some p -> pmsg p = Some m ->
  m ∈ s_live st /\ m <> STUB /\ m <> NULL /\ unreferenced (delete t (s_producers st)) m.
Proof.
  intros HI Ht Hm.
  pose proof (producer_ok_msg_live _ _ _ _ _ (i_producers _ _ HI _ _ Ht) Hm) as Hl.
  destruct (Inv_live_ne _ _ _ HI Hl) as [Hs Hn]. split_and!; [done..|].
  intros t' p' [Hne H]%lookup_delete_Some Hp'. apply Hne. by eapply (i_inj _ _ HI).
Qed.

Lemma Inv_push st l t msg max_size :
  Inv st l -> s_producers st !! t = None -> msg ∉ s_live st -> msg <> NULL -> msg <> STUB ->
  Inv (set_producer (set_live st ({[msg]} ∪ s_live st)) t (Some (PStart msg max_size))) l.
Proof.
  intros HI Ht Hm Hn Hs. pose proof HI as [].
  assert (Hml : msg ∉ l). { intros Hin. destruct (i_live0 _ Hin); done. }
  split; simpl; try done.
  - eapply chain_ext; [done| |exact i_chain0]. intros a b _.
    apply (pending_frame _ _ t); [congruence| |done]. intros t' ?. simpl. by rewrite lookup_insert_ne.
  - set_solver.
  - set_solver.
  - intros t' p H. upd_cases; [set_solver|]. by eapply producer_ok_more_live, i_producers0.
  - apply distinct_insert; [|done]. intros ? [= <-]. apply unreferenced_delete.
    intros t' p' H' E. eapply Hm, producer_ok_msg_live; eauto.
  - eapply consumer_ok_frame; [..|exact i_consumer0]; eauto using Inv_head_in. simpl.
    intros h (? & ? & ?). split_and!; simpl; [done|set_solver|]. apply unreferenced_insert; [simpl|done].
    congruence.
  - rewrite in_flight_insert, in_flight_none by done. simpl. by rewrite Z.add_0_r.
Qed.

Lemma Inv_refuse st l t msg max_size :
  Inv st l -> s_producers st !! t = Some (PStart msg max_size) ->
  Inv (set_producer (set_live st (s_live st ∖ {[msg]})) t None) l.
Proof.
  intros HI Ht. destruct (Inv_producer_ne _ _ _ _ msg HI Ht eq_refl) as (Hm & _ & _ & Ho).
  pose proof HI as []. pose proof (i_producers0 _ _ Ht) as [Hml _].
  split; simpl; try done.
  - eapply chain_ext; [done| |exact i_chain0]. intros a b _.
    apply (pending_frame _ _ t); [congruence| |done]. intros t' ?. simpl. by rewrite lookup_delete_ne.
  - intros a Ha. destruct (i_live0 _ Ha); [by left|right]. set_solver.
  - set_solver.
  - intros t' p H. pose proof (Ho _ _ H). upd_cases. apply producer_ok_live; eauto.
  - by apply distinct_delete.
  - eapply consumer_ok_frame; [..|exact i_consumer0]; eauto using Inv_head_in. simpl.
    intros h (? & ? & Hu). split_and!; simpl; [done| |by apply unreferenced_delete].
    apply elem_of_difference; split; [done|]; intros ->%elem_of_singleton. by eapply Hu.
  - rewrite i_count0, (in_flight_delete _ _ _ Ht). simpl. by rewrite Z.add_0_r.
Qed.

Lemma Inv_start st l t msg max_size :
  Inv st l -> s_producers st !! t = Some (PStart msg max_size) ->
  Inv (set_producer st t (Some (PInit msg))) l.
Proof.
  intros HI Ht. destruct (Inv_producer_ne _ _ _ _ msg HI Ht eq_refl) as (Hm & _ & _ & Ho).
  pose proof HI as []. pose proof (i_producers0 _ _ Ht) as [Hml _].
  split; simpl; try done.
  - eapply chain_ext; [done| |exact i_chain0]. intros a b _.
    apply (pending_frame _ _ t); [congruence| |done]. intros t' ?. simpl. by rewrite lookup_insert_ne.
  - intros t' p H. upd_cases; eauto.
  - apply distinct_insert; [|done]. by intros ? [= <-].
  - eapply consumer_ok_frame; [..|exact i_consumer0]; eauto using Inv_head_in. simpl.
    intros h (? & ? & Hu). split_and!; simpl; [done..|]. apply unreferenced_insert; [|done].
    apply (Hu _ _ Ht).
  - rewrite i_count0, in_flight_insert, (in_flight_delete _ _ _ Ht). simpl. done.
Qed.

Lemma Inv_init_next st l t msg :
  Inv st l -> s_producers st !! t = Some (PInit msg) ->
  Inv (set_producer (store_next st msg NULL) t (Some (PXchg msg))) l.
Proof.
  intros HI Ht. destruct (Inv_producer_ne _ _ _ _ msg HI Ht eq_refl) as (Hm & Hs & _ & Ho).
  pose proof HI as []. pose proof (i_producers0 _ _ Ht) as [Hml _].
  assert (Hne : forall a, a ∈ l \/ a = STUB -> next_of (<[msg := NULL]> (s_links st)) a = next_of (s_links st) a).
  { intros a Ha. apply next_of_insert_ne. intros <-. destruct Ha; done. }
  split; simpl; try done.
  - eapply chain_ext; [| |exact i_chain0].
    + intros a Ha. auto.
    + intros a b _. apply (pending_frame _ _ t); [congruence| |done]. intros t' ?. simpl.
      by rewrite lookup_insert_ne.
  - intros t' p H. upd_cases; [by rewrite next_of_insert_eq|].
    apply producer_ok_store; [done| |by eauto]. eapply (Ho t'). by rewrite lookup_delete_ne.
  - apply distinct_insert; [|done]. by intros ? [= <-].
  - eapply consumer_ok_frame; [..|exact i_consumer0]; eauto using Inv_head_in. simpl.
    intros h (? & ? & Hu). split_and!; simpl; [done..|]. apply unreferenced_insert; [|done].
    apply (Hu _ _ Ht).
  - rewrite i_count0, in_flight_insert, (in_flight_delete _ _ _ Ht). simpl. done.
Qed.

Lemma messages_snoc l a : a <> STUB -> messages (l ++ [a]) = messages l ++ [a].
Proof. intros. unfold messages. rewrite filter_app, filter_cons_True by done. done. Qed.

(** Appending a node that no one in the middle of the chain refers to. *)
Lemma consumer_ok_grow st st' l b :
  s_consumer st' = s_consumer st -> s_head st' = s_head st -> s_links st' = s_links st ->
  b <> STUB ->
  (forall h, detached st l h -> detached st' (l ++ [b]) h) ->
  consumer_ok st l -> consumer_ok st' (l ++ [b]).
Proof.
  intros Ec Eh El Hb Hd. unfold consumer_ok. rewrite Ec, Eh, El.
  assert (Hs : STUB ∉ l -> STUB ∉ l ++ [b]) by set_solver.
  destruct (s_consumer st); try done; intros H; destruct_and?; split_and?; eauto using adjacent_app.
Qed.

Lemma Inv_xchg st l t msg :
  Inv st l -> s_producers st !! t = Some (PXchg msg) ->
  Inv (set_producer (store_tail st msg (s_pushed st ++ [msg])) t (Some (PLink msg (s_tail st)))) (l ++ [msg]).
Proof.
  intros HI Ht. destruct (Inv_producer_ne _ _ _ _ msg HI Ht eq_refl) as (Hm & Hs & Hn & Ho).
  destruct (Inv_last _ _ HI) as [l' El].
  pose proof HI as []. pose proof (i_producers0 _ _ Ht) as (Hml & _ & Hnx).
  assert (Htail : next_of (s_links st) (s_tail st) = NULL).
  { rewrite El in i_chain0. clear -i_chain0. induction l'; [done|]. eauto using chain_tail. }
  split; simpl; try done.
  - by apply NoDup_snoc.
  - set_solver.
  - destruct l; [done|]. done.
  - by rewrite last_app.
  - rewrite El, <- app_assoc. simpl. apply chain_push; [|left; exists t; simpl; by rewrite lookup_insert_eq|done].
    rewrite <- El. eapply chain_ext; [done| |exact i_chain0]. intros a b _.
    apply (pending_frame _ _ t); [congruence| |done]. intros t' ?. simpl. by rewrite lookup_insert_ne.
  - intros a Ha. apply elem_of_app in Ha as [Ha|Ha]; [auto|].
    apply list_elem_of_singleton in Ha as ->. by right.
  - intros t' p H. upd_cases.
    + split; [|done]. rewrite <- app_assoc. apply adjacent_last.
    + apply producer_ok_grow; [|by eauto]. eapply (Ho t'). by rewrite lookup_delete_ne.
  - apply distinct_insert; [|done]. by intros ? [= <-].
  - eapply consumer_ok_grow; [..|exact i_consumer0]; try done. simpl.
    intros h (? & ? & Hu). assert (h <> msg) by (intros ->; by eapply Hu).
    split_and!; simpl; [set_solver|done|]. apply unreferenced_insert; [|done]. simpl. congruence.
  - by rewrite messages_snoc, i_fifo0, app_assoc.
  - rewrite i_count0, in_flight_insert, (in_flight_delete _ _ _ Ht), messages_snoc, length_app by done.
    simpl. f_equal. lia.
Qed.

Lemma Inv_link st l t msg prev :
  Inv st l -> s_producers st !! t = Some (PLink msg prev) ->
  Inv (set_producer (store_next st prev msg) t (Some PCount)) l.
Proof.
  intros HI Ht. destruct (Inv_producer_ne _ _ _ _ msg HI Ht eq_refl) as (Hm & Hs & Hn & Ho).
  pose proof HI as []. pose proof (i_producers0 _ _ Ht) as (Hadj & Hpn & _).
  destruct (adjacent_elem _ _ _ Hadj) as [Hprev Hmsg].
  assert (Hne : forall a b, adjacent l a b -> b <> msg -> a <> prev).
  { intros a b Hab Hb ->. by eapply Hb, adjacent_fst. }
  split; simpl; try done.
  - eapply chain_link; [done|exact i_chain0|done|]. intros a b Ha [[t' H]|H]; [left|by right].
    exists t'. simpl. rewrite lookup_insert_ne; [done|]. intros <-. congruence.
  - intros t' p H. upd_cases; [done|]. pose proof (i_producers0 _ _ H) as Hp.
    assert (Hpm : pmsg p <> Some msg) by (eapply (Ho t'); by rewrite lookup_delete_ne).
    destruct p; simpl in *; try done.
    + destruct Hp as (? & ? & ?). rewrite next_of_insert_ne by set_solver. done.
    + destruct Hp as (Ha & ? & ?). rewrite next_of_insert_ne; [done|].
      apply not_eq_sym. eapply Hne; [exact Ha|congruence].
  - apply distinct_insert; done.
  - unfold consumer_ok in *. simpl. destruct (s_consumer st); try done.
    all: try (destruct i_consumer0 as (? & ? & Hu); split_and!; simpl; try done; by apply unreferenced_insert).
    all: destruct_and?; split_and?; try done; rewrite next_of_insert_ne; try done; try congruence.
    apply not_eq_sym. eapply Hne; [eassumption|congruence].
  - rewrite i_count0, in_flight_insert, (in_flight_delete _ _ _ Ht). simpl. done.
Qed.

Lemma Inv_counted st l t :
  Inv st l -> s_producers st !! t = Some PCount -> Inv (set_producer (add_count st 1) t None) l.
Proof.
  intros HI Ht. pose proof HI as [].
  split; simpl; try done.
  - eapply chain_ext; [done| |exact i_chain0]. intros a b _.
    apply (pending_frame _ _ t); [congruence| |done]. intros t' ?. simpl. by rewrite lookup_delete_ne.
  - intros t' p H. upd_cases. eauto.
  - by apply distinct_delete.
  - eapply consumer_ok_frame; [..|exact i_consumer0]; eauto using Inv_head_in. simpl.
    intros h (? & ? & Hu). split_and!; simpl; [done..|]. by apply unreferenced_delete.
  - rewrite i_count0, (in_flight_delete _ _ _ Ht), u64_succ. simpl. f_equal. lia.
Qed.

(** *** Steps of the consumer *)

(** Neither storing a link nor about to decrement: only its position changes. *)
Definition quiet (c : consumer) : Prop :=
  match c with CLink _ _ | CCount _ => False | _ => True end.

Lemma pending_consumer st st' :
  s_producers st' = s_producers st -> (forall h a, s_consumer st <> CLink h a) ->
  forall a b, pending st a b -> pending st' a b.
Proof. intros Ep Hc a b [[t H]|[_ [h H]]]; [left; exists t; by rewrite Ep|by destruct (Hc h a)]. Qed.

Lemma quiet_not_link c h a : quiet c -> c <> CLink h a.
Proof. by intros ? ->. Qed.

Lemma quiet_count c : quiet c -> match c with CCount _ => 1 | _ => 0 end = 0.
Proof. by destruct c. Qed.

Lemma Inv_goto st l c :
  Inv st l -> quiet (s_consumer st) -> quiet c -> consumer_ok (set_consumer st c) l ->
  Inv (set_consumer st c) l.
Proof.
  intros HI Hq Hq' Hc. pose proof HI as []. split; simpl; try done.
  - eapply chain_ext; [done| |exact i_chain0]. intros a b _. apply pending_consumer; [done|].
    intros. by apply quiet_not_link.
  - by rewrite i_count0, !quiet_count.
Qed.

(** The consumer's decision after loading [head->next]. *)
Lemma Inv_took st l h c :
  Inv st l -> quiet (s_consumer st) -> quiet c -> s_head st = h -> h <> STUB ->
  consumer_ok (set_consumer st c) l ->
  Inv (set_consumer st (took h (next_of (s_links st) h) c)) l.
Proof.
  intros HI Hq Hq' Eh Hs Hc. unfold took. destruct (Z.eqb_spec (next_of (s_links st) h) NULL).
  - by apply Inv_goto.
  - apply Inv_goto; done.
Qed.

(** Moving [head] to the next node, when the link is there. *)
Lemma Inv_second st l n :
  Inv st l -> next_of (s_links st) (s_head st) = n -> n <> NULL ->
  exists l', l = s_head st :: n :: l'.
Proof.
  intros HI Hn Hnn. destruct (Inv_head _ _ HI) as [l' El]. pose proof (i_chain _ _ HI) as Hc.
  rewrite El in Hc. destruct (chain_next _ _ _ _ _ Hc Hn Hnn) as [l'' ->]. eauto.
Qed.

Lemma Inv_advance st l n :
  Inv st l -> s_consumer st = CAdvance n ->
  exists l', Inv (set_consumer (store_head st n (s_popped st)) (CNext2 n)) l'.
Proof.
  intros HI Hc. pose proof (i_consumer _ _ HI) as Hok. unfold consumer_ok in Hok. rewrite Hc in Hok.
  destruct Hok as (Hh & Hn & Hnn). destruct (Inv_second st l n HI) as [l' ->]; [congruence|done|].
  rewrite Hh in *. exists (n :: l'). pose proof HI as []. apply NoDup_cons in i_nodup0 as [Hns Hnd].
  split; cbn -[chain messages last]; try done.
  - set_solver.
  - apply chain_tail in i_chain0. eapply chain_ext; [done| |exact i_chain0].
    intros a b _. apply pending_consumer; [done|]. congruence.
  - intros a Ha. apply i_live0. by right.
  - intros t p H. eapply producer_ok_uncons; [apply HI| |by eapply i_producers0]. by rewrite Hn.
  - split; [done|]. simpl. set_solver.
  - rewrite i_count0, Hc. done.
Qed.

Lemma Inv_take st l h n :
  Inv st l -> s_consumer st = CTake h n ->
  exists l', Inv (set_consumer (store_head st n (s_popped st ++ [h])) (CCount h)) l'.
Proof.
  intros HI Hc. pose proof (i_consumer _ _ HI) as Hok. unfold consumer_ok in Hok. rewrite Hc in Hok.
  destruct Hok as (Hh & Hs & Hn & Hnn). destruct (Inv_second st l n HI) as [l' ->]; [congruence|done|].
  rewrite Hh in *. exists (n :: l'). pose proof HI as []. pose proof i_nodup0 as [Hns Hnd]%NoDup_cons.
  assert (Em : messages (h :: n :: l') = h :: messages (n :: l')) by (by apply filter_cons_True).
  split; cbn -[chain messages last]; try done.
  - set_solver.
  - apply chain_tail in i_chain0. eapply chain_ext; [done| |exact i_chain0].
    intros a b _. apply pending_consumer; [done|]. congruence.
  - intros a Ha. apply i_live0. by right.
  - intros t p H. eapply producer_ok_uncons; [apply HI| |by eapply i_producers0]. by rewrite Hn.
  - split; [done|]. split; [by destruct (i_live0 h) as [?|?]; [left|..]|]. intros t p H Hp.
    pose proof (i_producers0 _ _ H) as Hok. simpl in H. destruct p; simplify_eq/=; [set_solver..|].
    destruct Hok as (Ha & _). exact (adjacent_not_head _ _ _ i_nodup0 Ha).
  - rewrite i_fifo0, Em, <- app_assoc. done.
  - rewrite i_count0, Hc, Em. simpl. f_equal. lia.
Qed.

Lemma Inv_counted_pop st l h :
  Inv st l -> s_consumer st = CCount h -> Inv (set_consumer (add_count st (-1)) (CClear h)) l.
Proof.
  intros HI Hc. pose proof HI as []. unfold consumer_ok in *. rewrite Hc in *.
  split; simpl; try done.
  - eapply chain_ext; [done| |exact i_chain0]. intros a b _. apply pending_consumer; [done|]. congruence.
  - rewrite i_count0, u64_add. f_equal. lia.
Qed.

Lemma Inv_clear st l h :
  Inv st l -> s_consumer st = CClear h ->
  Inv (set_consumer (set_live (store_next st h NULL) (s_live st ∖ {[h]})) CIdle) l.
Proof.
  intros HI Hc. pose proof HI as []. unfold consumer_ok in *. rewrite Hc in *.
  destruct i_consumer0 as (Hh & Hl & Hu).
  split; simpl; try done.
  - apply chain_outside; [done|]. eapply chain_ext; [done| |exact i_chain0].
    intros a b _. apply pending_consumer; [done|]. congruence.
  - intros a Ha. destruct (i_live0 _ Ha); [by left|right]. set_solver.
  - set_solver.
  - intros t p H. apply producer_ok_live, producer_ok_store; eauto; by eapply Hu.
Qed.

Lemma Inv_stub st l h :
  Inv st l -> s_consumer st = CStub h -> Inv (set_consumer (store_next st STUB NULL) (CXchg h)) l.
Proof.
  intros HI Hc. pose proof HI as []. unfold consumer_ok in *. rewrite Hc in *.
  destruct i_consumer0 as (Hh & Hs & Hl).
  split; simpl; try done.
  - apply chain_outside; [done|]. eapply chain_ext; [done| |exact i_chain0].
    intros a b _. apply pending_consumer; [done|]. congruence.
  - intros t p H. apply producer_ok_store; eauto. intros Hp.
    by destruct (Inv_producer_ne _ _ _ _ _ HI H Hp) as (_ & ? & _).
  - split_and!; [done..|]. apply next_of_insert_eq.
Qed.

(** The consumer re-inserts the stub behind whatever [tail] is by now. *)
Lemma Inv_xchg_stub st l h :
  Inv st l -> s_consumer st = CXchg h ->
  Inv (set_consumer (store_tail st STUB (s_pushed st)) (CLink h (s_tail st))) (l ++ [STUB]).
Proof.
  intros HI Hc. destruct (Inv_last _ _ HI) as [l' El].
  pose proof HI as []. unfold consumer_ok in *. rewrite Hc in *.
  destruct i_consumer0 as (Hh & Hs & Hl & Hn).
  assert (Htail : next_of (s_links st) (s_tail st) = NULL).
  { rewrite El in i_chain0. clear -i_chain0. induction l'; [done|]. eauto using chain_tail. }
  assert (Em : messages (l ++ [STUB]) = messages l).
  { unfold messages. rewrite filter_app, filter_cons_False by (by intros []). apply app_nil_r. }
  split; simpl; try done.
  - by apply NoDup_snoc.
  - intros Hin. apply elem_of_app in Hin as [Hin|Hin]; [done|]. by apply list_elem_of_singleton in Hin.
  - destruct l; done.
  - by rewrite last_app.
  - rewrite El, <- app_assoc. simpl. apply chain_push; [|right; simpl; eauto|done].
    rewrite <- El. eapply chain_ext; [done| |exact i_chain0]. intros a b _.
    apply pending_consumer; [done|]. congruence.
  - intros a Ha. apply elem_of_app in Ha as [Ha|Ha]; [auto|]. apply list_elem_of_singleton in Ha. by left.
  - intros t p H. apply producer_ok_grow; eauto. intros Hp.
    by destruct (Inv_producer_ne _ _ _ _ _ HI H Hp) as (_ & ? & _).
  - split_and!; [done..| |done]. rewrite El, <- app_assoc. apply adjacent_last.
  - by rewrite Em.
  - by rewrite Em, i_count0.
Qed.

Lemma Inv_link_stub st l h prev :
  Inv st l -> s_consumer st = CLink h prev -> Inv (set_consumer (store_next st prev STUB) (CCheck h)) l.
Proof.
  intros HI Hc. pose proof HI as []. unfold consumer_ok in *. rewrite Hc in *.
  destruct i_consumer0 as (Hh & Hs & Hadj & Hn).
  destruct (adjacent_elem _ _ _ Hadj) as [Hprev _].
  split; simpl; try done.
  - eapply chain_link; [done|exact i_chain0|done|]. intros a b Ha [H|[_ [h' H]]]; [by left|congruence].
  - intros t p H. pose proof (i_producers0 _ _ H) as Hp.
    destruct p; simpl in *; try done.
    + destruct Hp as (? & ? & ?). rewrite next_of_insert_ne by (intros ->; done). done.
    + destruct Hp as (Ha & ? & Hlive). rewrite next_of_insert_ne; [done|]. intros ->.
      pose proof (adjacent_fst _ _ _ _ i_nodup0 Ha Hadj) as ->. by destruct i_reserved0.
Qed.

(** The chain is just [head] when [tail] is [head]. *)
Lemma Inv_single st l : Inv st l -> s_head st = s_tail st -> l = [s_head st].
Proof.
  intros HI E. destruct (Inv_head _ _ HI) as [l1 ->]. destruct l1 as [|a l1] using rev_ind; [done|].
  pose proof (i_last _ _ HI) as Hl. rewrite app_comm_cons, last_app in Hl. simplify_eq/=.
  pose proof (i_nodup _ _ HI) as [Hn _]%NoDup_cons. rewrite E in Hn. set_solver.
Qed.

(** *** Every step keeps the invariant *)

Lemma Inv_consumer_step st l st' :
  Inv st l -> consumer_step st = Some st' -> exists l', Inv st' l'.
Proof.
  intros HI. pose proof (i_consumer _ _ HI) as Hok. unfold consumer_ok in Hok. unfold consumer_step.
  destruct (s_consumer st) eqn:Ec; intros [= <-].
  - destruct (Z.eqb_spec head STUB) as [->|Hne].
    + exists l. destruct (Z.eqb_spec (next_of (s_links st) STUB) NULL); apply Inv_goto; rewrite ?Ec; done.
    + exists l. apply Inv_took; rewrite ?Ec; done.
  - by eapply Inv_advance.
  - exists l. destruct Hok. apply Inv_took; rewrite ?Ec; done.
  - exists l. destruct Hok as [Hh Hs]. destruct (Z.eqb_spec head (s_tail st)) as [E|E];
      apply Inv_goto; rewrite ?Ec; try done.
    unfold consumer_ok. simpl. rewrite (Inv_single _ _ HI) by congruence.
    split_and!; [done..|]. rewrite list_elem_of_singleton. congruence.
  - exists l. destruct Hok. apply Inv_took; rewrite ?Ec; try done; case_match; done.
  - exists l. by apply Inv_stub.
  - exists (l ++ [STUB]). by apply Inv_xchg_stub.
  - exists l. by apply Inv_link_stub.
  - exists l. destruct Hok. apply Inv_took; rewrite ?Ec; done.
  - by eapply Inv_take.
  - exists l. by apply Inv_counted_pop.
  - exists l. by apply Inv_clear.
Qed.

Lemma Inv_step st l e st' : Inv st l -> step st e = Some st' -> exists l', Inv st' l'.
Proof.
  intros HI. destruct e as [t msg mx|t| |]; simpl.
  - case_match eqn:E; intros [= <-]. bool_prop.
    exists l. rewrite !bool_decide_eq_true in *. apply Inv_push; try done; lia.
  - destruct (s_producers st !! t) as [p|] eqn:Et; intros [= <-].
    destruct p; simpl; [|eauto using Inv_init_next, Inv_xchg, Inv_link, Inv_counted..].
    case_match; eauto using Inv_refuse, Inv_start.
  - destruct (s_consumer st) eqn:Ec; intros [= <-]. exists l. apply Inv_goto; rewrite ?Ec; done.
  - by eapply Inv_consumer_step.
Qed.

Lemma reachable_Inv st : reachable st -> exists l, Inv st l.
Proof.
  induction 1 as [|st e st' _ [l HI] Hs]; [exists [STUB]; apply Inv_initial|].
  by eapply Inv_step.
Qed.

Lemma run_reachable es : forall st st', reachable st -> run st es = Some st' -> reachable st'.
Proof.
  induction es as [|e es IH]; simpl; intros st st' Hr; [by intros [= <-]|].
  destruct (step st e) eqn:E; [|done]. apply IH. by eapply reachable_step.
Qed.

(** ** What the queue guarantees *)

(** C3: The concurrent queue neither loses, duplicates nor reorders messages.  In
    every state any number of producers and the consumer can reach, however
    their atomic accesses interleave, the messages in the order of their
    exchanges with [tail] are the messages taken so far, in the order they were
    taken, followed by the messages of a duplicate-free list of nodes from
    [head] to [tail], each linked to its successor or about to be linked by the
    thread that inserted the successor. *)
Theorem mpsc_fifo st :
  reachable st ->
  exists l, s_pushed st = s_popped st ++ messages l /\ NoDup l /\
    list.head l = Some (s_head st) /\ last l = Some (s_tail st) /\
    chain (s_links st) (pending st) l.
Proof. intros [l []]%reachable_Inv. exists l. done. Qed.

(** Two producers between exchange and link, in the opposite order of their calls. *)
Definition race : list event :=
  [EPush 1 16 0; EPush 2 32 0; EProducer 2; EProducer 1; EProducer 1; EProducer 2;
   EProducer 2; EProducer 1; EProducer 1; EPop; EConsumer].

Lemma mpsc_fifo_witness :
  exists st, run initial race = Some st /\ s_pushed st = [32; 16] /\
  exists l, s_pushed st = s_popped st ++ messages l /\ NoDup l /\
    list.head l = Some (s_head st) /\ last l = Some (s_tail st) /\ chain (s_links st) (pending st) l.
Proof.
  destruct (run initial race) as [st|] eqn:E; [|vm_compute in E; discriminate].
  exists st. split; [done|]. split.
  - vm_compute in E. injection E as <-. reflexivity.
  - apply mpsc_fifo. eapply run_reachable; [constructor|exact E].
Defined.

(** The nodes a step reads or writes. *)
Definition derefs (st : state) (e : event) : list ptr :=
  match e with
  | EProducer t =>
      match s_producers st !! t with
      | Some (PInit msg) => [msg]
      | Some (PLink _ prev) => [prev]
      | _ => []
      end
  | EConsumer =>
      match s_consumer st with
      | CNext h | CNext2 h | CSpin h _ | CCheck h | CClear h => [h]
      | CStub _ => [STUB]
      | CLink _ prev => [prev]
      | _ => []
      end
  | _ => []
  end.

(** C30: No use after free.  However the threads interleave, every node that a
    step of [mailbox_push] or [mailbox_pop] reads or writes is the stub or a
    message that is allocated, although the receiver may free every message as
    soon as it has been returned: the predecessor a producer links to cannot be
    taken before the link is stored. *)
Theorem mpsc_memory_safe st e a :
  reachable st -> a ∈ derefs st e -> a = STUB \/ a ∈ s_live st.
Proof.
  intros [l HI]%reachable_Inv Ha. pose proof (Inv_head_in _ _ HI) as Hh. pose proof HI as [].
  destruct e as [| t| |]; simpl in Ha; try by apply not_elem_of_nil in Ha.
  - destruct (s_producers st !! t) as [p|] eqn:Et; [|by apply not_elem_of_nil in Ha].
    pose proof (i_producers0 _ _ Et) as Hp. destruct p; try (by apply not_elem_of_nil in Ha);
      apply list_elem_of_singleton in Ha as ->; simpl in Hp.
    + right. apply Hp.
    + apply i_live0. by apply (adjacent_elem l prev msg), Hp.
  - unfold consumer_ok in *. destruct (s_consumer st); try (by apply not_elem_of_nil in Ha);
      apply list_elem_of_singleton in Ha as ->; destruct_and?; subst; auto.
    + apply i_live0. by apply (adjacent_elem l prev_tail STUB).
    + right. apply i_consumer0.
Qed.


Lemma mpsc_memory_safe_witness :
  exists st, run initial (take 8 race) = Some st /\
    32 ∈ derefs st (EProducer 1) /\ (32 = STUB \/ 32 ∈ s_live st).
Proof.
  destruct (run initial (take 8 race)) as [st|] eqn:E; [|vm_compute in E; discriminate].
  exists st. split; [done|].
  assert (Hd : 32 ∈ derefs st (EProducer 1)).
  { vm_compute in E. injection E as <-. vm_compute. left. }
  split; [exact Hd|]. apply (mpsc_memory_safe st (EProducer 1)); [|exact Hd].
  eapply run_reachable; [constructor|exact E].
Defined.

(** The steps the consumer has left in its call. *)
Definition consumer_rank (c : consumer) : nat :=
  match c with
  | CIdle => 0 | CClear _ => 1 | CCount _ => 2 | CTake _ _ => 3 | CCheck _ => 4
  | CLink _ _ => 5 | CXchg _ => 6 | CStub _ => 7
  | CSpin _ k => 4 + (max_spins - k)
  | CTail _ => 5 + max_spins | CNext2 _ => 6 + max_spins | CAdvance _ => 7 + max_spins
  | CNext _ => 8 + max_spins
  end.

#[global] Instance event_eq_dec : EqDecision event.
Proof. solve_decision. Defined.

Lemma consumer_step_rank st st' :
  consumer_step st = Some st' ->
  (consumer_rank (s_consumer st') < consumer_rank (s_consumer st))%nat.
Proof.
  unfold consumer_step, took. destruct (s_consumer st); intros [= <-]; simpl;
    repeat case_match; simpl; try lia; unfold max_spins; try lia.
  match goal with H : bool_decide _ = true |- _ => apply bool_decide_eq_true in H end.
  unfold max_spins in *. lia.
Qed.

Lemma other_step_consumer st e st' :
  step st e = Some st' -> e <> EPop -> e <> EConsumer -> s_consumer st' = s_consumer st.
Proof.
  destruct e as [t msg mx|t| |]; simpl; try done.
  - case_match; by intros [= <-].
  - destruct (_ !! t) as [p|]; intros [= <-]. destruct p; simpl; try done. by case_match.
Qed.

(** C37: [mailbox_pop] is wait-free.  Whatever the producers do in between, a
    call that is not finished can always make a step, and it returns after at
    most [consumer_rank] further steps of its own: 108 from the start of the
    call, of which the spin loop takes at most 100. *)
Theorem mpsc_pop_wait_free es : forall st st',
  run st es = Some st' -> EPop ∉ es ->
  (length (filter (fun e => e = EConsumer) es) + consumer_rank (s_consumer st') <=
     consumer_rank (s_consumer st) <= 108)%nat /\
  (s_consumer st' <> CIdle -> is_Some (step st' EConsumer)).
Proof.
  induction es as [|e es IH]; intros st st' Hr Hp.
  - injection Hr as <-. split; [|simpl; unfold consumer_step; destruct (s_consumer st); eauto; done].
    simpl. split; [lia|]. destruct (s_consumer st); simpl; unfold max_spins; lia.
  - simpl in Hr. destruct (step st e) as [st1|] eqn:E; [|done].
    apply not_elem_of_cons in Hp as [Hpe Hp]. destruct (IH _ _ Hr Hp) as [[H1 H2] H3]. split; [|done].
    assert (consumer_rank (s_consumer st) <= 108)%nat.
    { destruct (s_consumer st); simpl; unfold max_spins; lia. }
    rewrite filter_cons. destruct (decide (e = EConsumer)) as [->|Hne].
    + apply consumer_step_rank in E. simpl. lia.
    + rewrite (other_step_consumer _ _ _ E ltac:(congruence) Hne) in H1. lia.
Qed.

Lemma mpsc_pop_wait_free_witness :
  exists st st', run initial [EPush 1 16 0; EPop] = Some st /\ run st [EConsumer; EProducer 1] = Some st' /\
  (1 + consumer_rank (s_consumer st') <= consumer_rank (s_consumer st) <= 108)%nat /\
  (s_consumer st' <> CIdle -> is_Some (step st' EConsumer)).
Proof.
  destruct (run initial [EPush 1 16 0; EPop]) as [st|] eqn:E; [|vm_compute in E; discriminate].
  destruct (run st [EConsumer; EProducer 1]) as [st'|] eqn:E';
    [|vm_compute in E; injection E as <-; vm_compute in E'; discriminate].
  exists st, st'. split; [done|]. split; [done|].
  apply (mpsc_pop_wait_free [EConsumer; EProducer 1] st st' E'). set_solver.
Defined.

(** ** Delivery *)

(** The consumer running alone. *)
Definition solo (n : nat) : list event := EPop :: replicate n EConsumer.

Lemma Inv_quiet_chain st l :
  Inv st l -> s_producers st = ∅ -> s_consumer st = CIdle -> chain (s_links st) no_pending l.
Proof.
  intros HI Hp Hc. eapply chain_ext; [done| |apply HI].
  intros a b _ [[t H]|[_ [h H]]]; [by rewrite Hp, lookup_empty in H|congruence].
Qed.

Lemma run_app es1 es2 : forall st st1,
  run st es1 = Some st1 -> run st (es1 ++ es2) = run st1 es2.
Proof.
  induction es1 as [|e es1 IH]; simpl; intros st st1; [by intros [= <-]|].
  destruct (step st e); [apply IH|done].
Qed.

(** [c] steps of the consumer lead from [st] to an idle state with [popped]. *)
Definition pops (st : state) (popped : list ptr) : Prop :=
  exists n st', run st (replicate n EConsumer) = Some st' /\ s_consumer st' = CIdle /\ s_popped st' = popped.

Lemma pops_step st st1 popped : consumer_step st = Some st1 -> pops st1 popped -> pops st popped.
Proof. intros E (n & st' & H). exists (S n), st'. simpl. by rewrite E. Qed.

Lemma pops_take st h n pp : s_consumer st = CTake h n -> s_popped st = pp -> pops st (pp ++ [h]).
Proof.
  intros E <-. exists 3%nat. destruct st. simpl in *. subst. unfold consumer_step. simpl.
  eexists. split; [reflexivity|done].
Qed.

(** The last message: the stub is put back behind it. *)
Lemma pops_tail st h pp :
  s_consumer st = CTail h -> s_tail st = h -> h <> STUB -> s_popped st = pp -> pops st (pp ++ [h]).
Proof.
  intros E <- Hs <-. eapply pops_step. { unfold consumer_step. rewrite E. by rewrite Z.eqb_refl. }
  do 3 (eapply pops_step; [reflexivity|]).
  eapply pops_step. { unfold consumer_step, took. simpl. rewrite next_of_insert_eq. reflexivity. }
  by apply (pops_take _ (s_tail st) STUB).
Qed.

(** From the load of [head->next] past the stub. *)
Lemma pops_next2 st h l pp :
  s_consumer st = CNext2 h \/ s_consumer st = CNext h -> h <> STUB -> NULL ∉ h :: l ->
  chain (s_links st) no_pending (h :: l) -> last (h :: l) = Some (s_tail st) ->
  s_popped st = pp -> pops st (pp ++ [h]).
Proof.
  intros E Hs Hn Hc Hl <-.
  assert (Es : consumer_step st = Some (set_consumer st (took h (next_of (s_links st) h) (CTail h)))).
  { unfold consumer_step. destruct E as [->| ->]; [done|]. by rewrite (proj2 (Z.eqb_neq _ _) Hs). }
  eapply pops_step; [exact Es|]. unfold took. destruct l as [|b l].
  - simpl in Hc. rewrite Hc. simpl in Hl. injection Hl as Hl. by apply (pops_tail _ h).
  - destruct Hc as [[->|[? []]] _].
    rewrite (proj2 (Z.eqb_neq b NULL)) by set_solver. by apply (pops_take _ h b).
Qed.

(** C31: Messages are delivered.  Whenever no producer is inside [mailbox_push] and
    the consumer is not inside [mailbox_pop], a call of [mailbox_pop] run on its
    own finishes; it takes the oldest message that was pushed and not taken yet,
    and takes nothing exactly when every pushed message has been taken. *)
Theorem mpsc_delivers st q :
  reachable st -> s_producers st = ∅ -> s_consumer st = CIdle -> s_pushed st = s_popped st ++ q ->
  exists n st', run st (solo n) = Some st' /\ s_consumer st' = CIdle /\
    s_popped st' = s_popped st ++ take 1 q.
Proof.
  intros [l HI]%reachable_Inv Hp Hc Hq. rewrite (i_fifo _ _ HI) in Hq.
  apply app_inv_head in Hq. subst q. pose proof (Inv_quiet_chain _ _ HI Hp Hc) as Hch.
  assert (Hgoal : pops (set_consumer st (CNext (s_head st))) (s_popped st ++ take 1 (messages l)));
    [|by destruct Hgoal as (n & st' & H); exists n, st'; simpl; rewrite Hc].
  destruct (Inv_head _ _ HI) as [l' El]. pose proof (i_null _ _ HI) as Hn. pose proof (i_last _ _ HI) as Hl.
  pose proof (i_nodup _ _ HI) as Hnd. rewrite El in *. apply NoDup_cons in Hnd as [Hh _].
  destruct (decide (s_head st = STUB)) as [Es|Es].
  - rewrite Es in *. unfold messages. rewrite filter_cons_False by (by intros []).
    destruct l' as [|a l'].
    + simpl in Hch. exists 1%nat. simpl. unfold consumer_step. simpl. rewrite Hch.
      rewrite app_nil_r. eexists. split; [reflexivity|done].
    + destruct Hch as [[Hna|[? []]] Hch]. assert (a <> STUB /\ a <> NULL) as [Has Han] by set_solver.
      rewrite filter_cons_True by done. simpl. rewrite take_0.
      eapply pops_step. { unfold consumer_step. simpl. rewrite Hna, (proj2 (Z.eqb_neq a NULL) Han). reflexivity. }
      eapply pops_step; [reflexivity|]. simpl.
      apply (pops_next2 (set_consumer (store_head st a (s_popped st)) (CNext2 a)) a l'); try done;
        [by left|set_solver].
  - unfold messages. rewrite filter_cons_True by done. simpl. rewrite take_0.
    apply (pops_next2 (set_consumer st (CNext (s_head st))) (s_head st) l'); try done. by right.
Qed.

(** Two messages pushed, one taken. *)
Definition delivery : list event :=
  [EPush 1 16 0] ++ replicate 5 (EProducer 1) ++ [EPush 2 32 0] ++ replicate 5 (EProducer 2) ++
  EPop :: replicate 6 EConsumer.

Lemma mpsc_delivers_witness :
  exists st, run initial delivery = Some st /\ s_pushed st = [16; 32] /\ s_popped st = [16] /\
  exists n st', run st (solo n) = Some st' /\ s_consumer st' = CIdle /\ s_popped st' = s_popped st ++ [32].
Proof.
  destruct (run initial delivery) as [st|] eqn:E; [|vm_compute in E; discriminate].
  exists st. split; [done|]. assert (Hr : reachable st) by (eapply run_reachable; [constructor|exact E]).
  vm_compute in E. injection E as <-. split; [reflexivity|]. split; [reflexivity|].
  apply (mpsc_delivers _ [32] Hr); reflexivity.
Defined.

(** The message counter.  In every reachable state in which no producer is
    between its exchange and its increment and the consumer is not about to
    decrement, [count] is the number of messages pushed and not taken. *)
Theorem mpsc_count st q :
  reachable st -> (forall t p, s_producers st !! t = Some p -> ~ uncounted p) ->
  (forall h, s_consumer st <> CCount h) -> s_pushed st = s_popped st ++ q ->
  s_count st = u64 (Z.of_nat (length q)).
Proof.
  intros [l HI]%reachable_Inv Hp Hc Hq. rewrite (i_fifo _ _ HI) in Hq. apply app_inv_head in Hq. subst q.
  rewrite (i_count _ _ HI).
  assert (Hf : in_flight (s_producers st) = 0).
  { apply count_where_0. exact Hp. }
  rewrite Hf. destruct (s_consumer st) eqn:E; try (f_equal; lia). by destruct (Hc head).
Qed.

Lemma mpsc_count_witness :
  exists st, run initial delivery = Some st /\ s_count st = u64 (Z.of_nat (length [32])).
Proof.
  destruct (run initial delivery) as [st|] eqn:E; [|vm_compute in E; discriminate].
  exists st. split; [done|]. assert (Hr : reachable st) by (eapply run_reachable; [constructor|exact E]).
  vm_compute in E. injection E as <-. apply (mpsc_count _ [32] Hr); [|discriminate|reflexivity].
  intros t p H. exfalso. exact (lookup_empty_Some (M := gmap Z) t p H).
Defined.

(** A message taken before its producer has counted it. *)
Definition early_pop : list event :=
  [EPush 1 16 0] ++ replicate 4 (EProducer 1) ++ EPop :: replicate 11 EConsumer.

(** The counter underflows for a while.  A message is visible to the consumer
    before its producer increments [count]; when it is taken in between, [count]
    wraps to 2^64 - 1 although the queue is empty, and until the producer goes
    on every [mailbox_push] with a limit is refused as if the mailbox were full. *)
Theorem mpsc_count_underflow :
  exists st, run initial early_pop = Some st /\ reachable st /\
    s_pushed st = [16] /\ s_popped st = [16] /\ s_count st = UINT64_MAX /\
    forall st', run st [EPush 2 32 1000; EProducer 2] = Some st' ->
      s_producers st' !! 2 = None /\ s_pushed st' = [16].
Proof.
  destruct (run initial early_pop) as [st|] eqn:E; [|vm_compute in E; discriminate].
  exists st. split; [done|]. split; [eapply run_reachable; [constructor|exact E]|].
  vm_compute in E. injection E as <-. repeat (split; [reflexivity|]).
  intros st' H. vm_compute in H. injection H as <-. split; reflexivity.
Qed.
