(* ===== verification/PidVec.v ===== *)
(** * Growing arrays of process identifiers

    A block's [links], [monitors] and [monitored_by] (src/runtime/block.c) and
    a process group's [members] (src/runtime/procgroup.c) are arrays with a
    count and a capacity, handled by the same code: look for the identifier,
    double the capacity when full, append; remove by moving the last element
    into the hole.  The operations are written once, parameterised by the first
    capacity and by the wrap-around of the capacity's type. *)

From Stdlib Require Import ZArith Lia.
From stdpp Require Import base list numbers gmap.
From S2P Require Import Prelude Mailbox.
Local Open Scope Z_scope.

Record PidVec := mkPidVec { items : list Z; capacity : Z }.

Definition vec_empty : PidVec := mkPidVec [] 0.

Definition vec_mem (v : PidVec) (pid : Z) : bool := bool_decide (pid ∈ items v).

(** [wrap] is the capacity's type: [u32] for blocks, [u64] for groups. *)
Definition vec_new_cap (wrap : Z -> Z) (first : Z) (cap : Z) : Z :=
  if cap =? 0 then first else wrap (cap * 2).

(** [realloc_ok]: whether [realloc] succeeds, should it be called. *)
Definition vec_add (wrap : Z -> Z) (first : Z) (realloc_ok : bool) (v : PidVec) (pid : Z) : bool * PidVec :=
  if vec_mem v pid then (true, v)
  else if capacity v <=? Z.of_nat (length (items v)) then
    if realloc_ok then (true, mkPidVec (items v ++ [pid]) (vec_new_cap wrap first (capacity v)))
    else (false, v)
  else (true, mkPidVec (items v ++ [pid]) (capacity v)).

(** [items[i] = items[--count]] at the first occurrence. *)
Definition vec_remove (v : PidVec) (pid : Z) : bool * PidVec :=
  match find_index (Z.eqb pid) (items v) with
  | Some i => (true, mkPidVec (swap_remove i (items v)) (capacity v))
  | None => (false, v)
  end.

(** ** The array as a finite set *)

(** No writes past the allocation, no duplicates. *)
Record vec_wf (v : PidVec) : Prop := {
  vec_fits : Z.of_nat (length (items v)) <= capacity v;
  vec_nodup : NoDup (items v)
}.

Definition vec_set (v : PidVec) : gset Z := list_to_set (items v).

Lemma vec_empty_wf : vec_wf vec_empty.
Proof. split; simpl; [lia|constructor]. Qed.

Lemma vec_mem_spec v pid : vec_mem v pid = true <-> pid ∈ vec_set v.
Proof. unfold vec_mem, vec_set. rewrite bool_decide_eq_true. set_solver. Qed.

(** Below 2^31 elements the doubled capacity does not wrap. *)
Lemma vec_new_cap_grows wrap first cap :
  (forall x, is_u32 x -> wrap x = x) -> 0 < first -> 0 <= cap < 2 ^ 31 -> cap < vec_new_cap wrap first cap.
Proof.
  intros Hw Hf Hc. unfold vec_new_cap. case_if_goal; [lia|]. rewrite Hw; unfold is_u32; lia.
Qed.

Lemma vec_add_spec wrap first ok v pid :
  (forall x, is_u32 x -> wrap x = x) ->
  vec_wf v -> 0 < first -> Z.of_nat (length (items v)) < 2 ^ 31 ->
  let (r, v') := vec_add wrap first ok v pid in
  vec_wf v' /\
  (r = true -> vec_set v' = {[pid]} ∪ vec_set v) /\
  (r = false -> ok = false /\ v' = v) /\
  (ok = true -> r = true).
Proof.
  intros Hwrap [Hfit Hnd] Hf Hl. unfold vec_add, vec_mem. case_bool_decide as Hin.
  - split; [by split|]. split; [|done]. intros _. unfold vec_set. set_solver.
  - assert (Hset : forall c, vec_set (mkPidVec (items v ++ [pid]) c) = {[pid]} ∪ vec_set v).
    { intros c. unfold vec_set. simpl. rewrite list_to_set_app_L. set_solver. }
    assert (Hwf : forall c, Z.of_nat (length (items v)) < c -> vec_wf (mkPidVec (items v ++ [pid]) c)).
    { intros c Hc. split; simpl; [rewrite length_app; simpl; lia|by apply NoDup_snoc]. }
    destruct (Z.leb_spec (capacity v) (Z.of_nat (length (items v)))) as [Hfull|Hroom].
    + destruct ok; [|split; [by split|done]].
      split; [|done]. apply Hwf. pose proof (vec_new_cap_grows wrap first (capacity v) Hwrap). lia.
    + split; [by apply Hwf|done].
Qed.

Lemma vec_remove_spec v pid :
  vec_wf v ->
  let (r, v') := vec_remove v pid in
  vec_wf v' /\ vec_set v' = vec_set v ∖ {[pid]} /\ (r = true <-> pid ∈ vec_set v).
Proof.
  intros [Hfit Hnd]. unfold vec_remove. destruct (find_index _ _) as [i|] eqn:E.
  - apply find_index_Some in E as (x & Hx & Hp). apply Z.eqb_eq in Hp as <-.
    pose proof (swap_remove_perm _ _ _ Hx) as HP.
    assert (Hnd' : NoDup (pid :: swap_remove i (items v))) by (by rewrite <- HP).
    apply NoDup_cons in Hnd' as [Hni Hnd'].
    assert (Hin : forall y, y ∈ items v <-> y = pid \/ y ∈ swap_remove i (items v)).
    { intros y. rewrite HP at 1. apply elem_of_cons. }
    split; [split; simpl|split].
    + pose proof (Permutation_length HP) as HL. simpl in HL. lia.
    + done.
    + unfold vec_set. simpl. apply set_eq. intros y.
      rewrite elem_of_difference, !elem_of_list_to_set, elem_of_singleton, Hin. set_solver.
    + unfold vec_set. rewrite elem_of_list_to_set, Hin. tauto.
  - assert (Hn : pid ∉ items v).
    { intros H. apply find_index_None in E. rewrite Forall_forall in E.
      specialize (E _ H). simpl in E. lia. }
    split; [by split|]. unfold vec_set. split; [set_solver|]. rewrite elem_of_list_to_set. done.
Qed.
