(* ===== verification/Block.v ===== *)
(** * Blocks: the process model (src/runtime/block.c, src/runtime/block.h,
    src/runtime/capability.h)

    A block's life cycle, its capabilities, links and monitors, and message
    sending over the shared value store.  The interpreter that [block_run]
    calls is an interface, [Interpreter]. *)

From Stdlib Require Import ZArith Lia String.
From stdpp Require Import base list numbers gmap.
From S2P Require Import Prelude Hash HashMap Value Array MapValue Mailbox PidVec.
Local Open Scope Z_scope.
Local Open Scope agim_scope.

(** ** Capabilities *)

Definition CAP_NONE : Z := 0.
Definition CAP_SPAWN : Z := 1 .<< 0.
Definition CAP_SEND : Z := 1 .<< 1.
Definition CAP_RECEIVE : Z := 1 .<< 2.
Definition CAP_INFER : Z := 1 .<< 3.
Definition CAP_HTTP : Z := 1 .<< 4.
Definition CAP_FILE_READ : Z := 1 .<< 5.
Definition CAP_FILE_WRITE : Z := 1 .<< 6.
Definition CAP_DB : Z := 1 .<< 7.
Definition CAP_MEMORY : Z := 1 .<< 8.
Definition CAP_LINK : Z := 1 .<< 9.
Definition CAP_SHELL : Z := 1 .<< 10.
Definition CAP_EXEC : Z := 1 .<< 11.
Definition CAP_TRAP_EXIT : Z := 1 .<< 12.
Definition CAP_MONITOR : Z := 1 .<< 13.
Definition CAP_SUPERVISE : Z := 1 .<< 14.
Definition CAP_ENV : Z := 1 .<< 15.
Definition CAP_WEBSOCKET : Z := 1 .<< 16.
Definition CAP_ALL : Z := 0x7FFFFFFF.

Definition capability_table : list (Z * string) :=
  [(CAP_NONE, "NONE"); (CAP_SPAWN, "SPAWN"); (CAP_SEND, "SEND"); (CAP_RECEIVE, "RECEIVE");
   (CAP_INFER, "INFER"); (CAP_HTTP, "HTTP"); (CAP_FILE_READ, "FILE_READ");
   (CAP_FILE_WRITE, "FILE_WRITE"); (CAP_DB, "DB"); (CAP_MEMORY, "MEMORY"); (CAP_LINK, "LINK");
   (CAP_SHELL, "SHELL"); (CAP_EXEC, "EXEC"); (CAP_TRAP_EXIT, "TRAP_EXIT");
   (CAP_MONITOR, "MONITOR"); (CAP_SUPERVISE, "SUPERVISE"); (CAP_ENV, "ENV");
   (CAP_WEBSOCKET, "WEBSOCKET"); (CAP_ALL, "ALL")]%string.

Definition capability_name (cap : Z) : string :=
  match List.find (fun p => p.1 =? cap) capability_table with
  | Some p => p.2
  | None => "UNKNOWN"
  end.

(** ** Blocks *)

Inductive BlockState := BLOCK_RUNNABLE | BLOCK_RUNNING | BLOCK_WAITING | BLOCK_DEAD.
#[global] Instance BlockState_eq_dec : EqDecision BlockState.
Proof. solve_decision. Defined.

Inductive BlockRunResult :=
  | BLOCK_RUN_OK | BLOCK_RUN_YIELD | BLOCK_RUN_WAITING | BLOCK_RUN_ERROR | BLOCK_RUN_HALTED.

Inductive VMResult :=
  | VM_OK | VM_ERROR_RUNTIME | VM_ERROR_STACK_OVERFLOW | VM_ERROR_STACK_UNDERFLOW | VM_ERROR_TYPE
  | VM_ERROR_DIVISION_BY_ZERO | VM_ERROR_OUT_OF_BOUNDS | VM_ERROR_UNDEFINED_VARIABLE
  | VM_ERROR_ARITY | VM_ERROR_CAPABILITY | VM_ERROR_SEND_FAILED | VM_ERROR_NOT_IMPLEMENTED
  | VM_YIELD | VM_WAITING | VM_HALT.

Record BlockLimits := mkLimits {
  max_heap_size : Z; max_stack_depth : Z; max_call_depth : Z; max_reductions : Z; max_mailbox_size : Z
}.

Record BlockCounters := mkCounters {
  reductions : Z; messages_sent : Z; messages_received : Z; gc_collections : Z; gc_bytes_collected : Z
}.

(** The fields of the block's VM that [block_run] sets and reads. *)
Record VMState := mkVM { vm_reduction_limit : Z; vm_reductions : Z; vm_error : option string }.

Record Block := mkBlock {
  pid : Z;
  name : option string;
  state : BlockState;
  exit_code : Z;
  exit_reason : option string;
  vm : VMState;
  code : option Z;             (** identity of the loaded bytecode *)
  mailbox : Mailbox;
  capabilities : Z;
  limits : BlockLimits;
  counters : BlockCounters;
  links : PidVec;
  parent : Z;
  monitors : PidVec;
  monitored_by : PidVec;
  save_queue : list ptr;       (** selectively skipped messages, oldest first *)
  timeout_fired : bool;
  module_name : option string;
  pending_upgrade : bool
}.

Definition set_state (b : Block) (s : BlockState) : Block :=
  mkBlock (pid b) (name b) s (exit_code b) (exit_reason b) (vm b) (code b) (mailbox b) (capabilities b)
    (limits b) (counters b) (links b) (parent b) (monitors b) (monitored_by b) (save_queue b)
    (timeout_fired b) (module_name b) (pending_upgrade b).
Definition set_exit (b : Block) (c : Z) (r : option string) : Block :=
  mkBlock (pid b) (name b) (state b) c r (vm b) (code b) (mailbox b) (capabilities b)
    (limits b) (counters b) (links b) (parent b) (monitors b) (monitored_by b) (save_queue b)
    (timeout_fired b) (module_name b) (pending_upgrade b).
Definition set_vm (b : Block) (v : VMState) : Block :=
  mkBlock (pid b) (name b) (state b) (exit_code b) (exit_reason b) v (code b) (mailbox b) (capabilities b)
    (limits b) (counters b) (links b) (parent b) (monitors b) (monitored_by b) (save_queue b)
    (timeout_fired b) (module_name b) (pending_upgrade b).
Definition set_code (b : Block) (c : option Z) : Block :=
  mkBlock (pid b) (name b) (state b) (exit_code b) (exit_reason b) (vm b) c (mailbox b) (capabilities b)
    (limits b) (counters b) (links b) (parent b) (monitors b) (monitored_by b) (save_queue b)
    (timeout_fired b) (module_name b) (pending_upgrade b).
Definition set_mailbox (b : Block) (mb : Mailbox) : Block :=
  mkBlock (pid b) (name b) (state b) (exit_code b) (exit_reason b) (vm b) (code b) mb (capabilities b)
    (limits b) (counters b) (links b) (parent b) (monitors b) (monitored_by b) (save_queue b)
    (timeout_fired b) (module_name b) (pending_upgrade b).
Definition set_capabilities (b : Block) (c : Z) : Block :=
  mkBlock (pid b) (name b) (state b) (exit_code b) (exit_reason b) (vm b) (code b) (mailbox b) c
    (limits b) (counters b) (links b) (parent b) (monitors b) (monitored_by b) (save_queue b)
    (timeout_fired b) (module_name b) (pending_upgrade b).
Definition set_counters (b : Block) (c : BlockCounters) : Block :=
  mkBlock (pid b) (name b) (state b) (exit_code b) (exit_reason b) (vm b) (code b) (mailbox b) (capabilities b)
    (limits b) c (links b) (parent b) (monitors b) (monitored_by b) (save_queue b)
    (timeout_fired b) (module_name b) (pending_upgrade b).
Definition set_relations (b : Block) (l m mby : PidVec) : Block :=
  mkBlock (pid b) (name b) (state b) (exit_code b) (exit_reason b) (vm b) (code b) (mailbox b) (capabilities b)
    (limits b) (counters b) l (parent b) m mby (save_queue b)
    (timeout_fired b) (module_name b) (pending_upgrade b).

Definition set_parent (b : Block) (p : Z) : Block :=
  mkBlock (pid b) (name b) (state b) (exit_code b) (exit_reason b) (vm b) (code b) (mailbox b) (capabilities b)
    (limits b) (counters b) (links b) p (monitors b) (monitored_by b) (save_queue b)
    (timeout_fired b) (module_name b) (pending_upgrade b).

Definition block_limits_default : BlockLimits :=
  mkLimits (1 * 1024 * 1024) 256 64 10000 100.

(** [vm_new] and [heap_new] succeeded. *)
Definition block_new (pid : Z) (name : option string) (limits : option BlockLimits) : Block :=
  mkBlock pid name BLOCK_RUNNABLE 0 None (mkVM 0 0 None) None mailbox_init CAP_NONE
    (default block_limits_default limits) (mkCounters 0 0 0 0 0) vec_empty PID_INVALID
    vec_empty vec_empty [] false None false.

Definition block_load (b : Block) (c : Z) : bool * Block :=
  (true, set_state (set_code b (Some c)) BLOCK_RUNNABLE).

Definition block_state (b : Block) : BlockState := state b.
Definition block_set_state (b : Block) (s : BlockState) : Block := set_state b s.
Definition block_try_transition (b : Block) (from to : BlockState) : bool * Block :=
  if decide (state b = from) then (true, set_state b to) else (false, b).
Definition block_is_alive (b : Block) : bool := bool_decide (state b <> BLOCK_DEAD).

Definition block_exit (b : Block) (code : Z) : Block := set_exit (set_state b BLOCK_DEAD) code None.
Definition block_crash (b : Block) (reason : option string) : Block :=
  set_exit (set_state b BLOCK_DEAD) (-1) reason.

Definition block_state_name (s : BlockState) : string :=
  match s with
  | BLOCK_RUNNABLE => "RUNNABLE" | BLOCK_RUNNING => "RUNNING"
  | BLOCK_WAITING => "WAITING" | BLOCK_DEAD => "DEAD"
  end.

(** *** Running *)

(** What [vm_run] does to the block whose VM it runs. *)
Class Interpreter := vm_run : Block -> VMResult * Block.

Definition add_reductions (b : Block) : Block :=
  let c := counters b in
  set_counters b (mkCounters (u64 (reductions c + vm_reductions (vm b))) (messages_sent c)
                    (messages_received c) (gc_collections c) (gc_bytes_collected c)).

(** [block_run] before it calls [vm_run]: the block is refused with a result, or
    it is running with its reductions reset. *)
Definition block_enter (b : Block) : (BlockRunResult * Block) + Block :=
  match state b with
  | BLOCK_DEAD => inl (BLOCK_RUN_HALTED, b)
  | BLOCK_WAITING => inl (BLOCK_RUN_WAITING, b)
  | _ =>
      match block_try_transition b BLOCK_RUNNABLE BLOCK_RUNNING with
      | (false, b) => inl (BLOCK_RUN_ERROR, b)
      | (true, b) => inr (set_vm b (mkVM (max_reductions (limits b)) 0 (vm_error (vm b))))
      end
  end.

(** [block_run] after [vm_run] has returned [result]. *)
Definition block_leave (result : VMResult) (b : Block) : BlockRunResult * Block :=
  let b := add_reductions b in
  match result with
  | VM_OK => (BLOCK_RUN_OK, set_exit (set_state b BLOCK_DEAD) 0 (exit_reason b))
  | VM_HALT => (BLOCK_RUN_HALTED, set_exit (set_state b BLOCK_DEAD) 0 (exit_reason b))
  | VM_YIELD => (BLOCK_RUN_YIELD, set_state b BLOCK_RUNNABLE)
  | VM_WAITING => (BLOCK_RUN_WAITING, b)
  | VM_ERROR_NOT_IMPLEMENTED => (BLOCK_RUN_ERROR, block_crash b (Some "unknown VM error"%string))
  | _ => (BLOCK_RUN_ERROR, block_crash b (vm_error (vm b)))
  end.

Definition block_run `{Interpreter} (b : Block) : BlockRunResult * Block :=
  match block_enter b with
  | inl r => r
  | inr b => let '(result, b) := vm_run b in block_leave result b
  end.

(** *** Capabilities of a block *)

Definition block_grant (b : Block) (caps : Z) : Block := set_capabilities b (capabilities b .| caps).
Definition block_revoke (b : Block) (caps : Z) : Block :=
  set_capabilities b (capabilities b .& (caps .^ UINT32_MAX)).
Definition block_has_cap (b : Block) (cap : Z) : bool := capabilities b .& cap =? cap.
Definition block_check_cap (b : Block) (cap : Z) : bool * Block :=
  if block_has_cap b cap then (true, b) else (false, block_crash b (Some "capability denied"%string)).

(** *** Links and monitors *)

Definition block_link (ok : bool) (b : Block) (other : Z) : bool * Block :=
  if other =? PID_INVALID then (false, b)
  else let (r, v) := vec_add u32 4 ok (links b) other in
       (r, set_relations b v (monitors b) (monitored_by b)).
Definition block_unlink (b : Block) (other : Z) : Block :=
  set_relations b (vec_remove (links b) other).2 (monitors b) (monitored_by b).
Definition block_get_links (b : Block) : list Z := items (links b).

Definition block_monitor (ok : bool) (b : Block) (target : Z) : bool * Block :=
  if target =? PID_INVALID then (false, b)
  else let (r, v) := vec_add u32 4 ok (monitors b) target in
       (r, set_relations b (links b) v (monitored_by b)).
Definition block_demonitor (b : Block) (target : Z) : Block :=
  set_relations b (links b) (vec_remove (monitors b) target).2 (monitored_by b).
Definition block_add_monitored_by (ok : bool) (b : Block) (monitor_pid : Z) : bool * Block :=
  if monitor_pid =? PID_INVALID then (false, b)
  else let (r, v) := vec_add u32 4 ok (monitored_by b) monitor_pid in
       (r, set_relations b (links b) (monitors b) v).
Definition block_remove_monitored_by (b : Block) (monitor_pid : Z) : Block :=
  set_relations b (links b) (monitors b) (vec_remove (monitored_by b) monitor_pid).2.
Definition block_get_monitors (b : Block) : list Z := items (monitors b).

(** *** Messages *)

(** The value a message carries: shared when the type allows, copied otherwise.
    [depth] bounds the depth of a copied value. *)
Definition share_for_send (depth : nat) (value : ptr) : M ptr :=
  if value =? NULL then value_new VNil else
  c ← load value;
  match type_of (data c) with
  | VAL_NIL | VAL_BOOL | VAL_INT | VAL_FLOAT | VAL_STRING | VAL_PID | VAL_FUNCTION | VAL_VECTOR =>
      value_retain value
  | VAL_ARRAY | VAL_MAP => value_cow_share value
  | VAL_BYTES => value_copy depth value
  | _ => value_copy depth value
  end.

Definition count_received (b : Block) : Block :=
  let c := counters b in
  set_counters b (mkCounters (reductions c) (messages_sent c) (u64 (messages_received c + 1))
                    (gc_collections c) (gc_bytes_collected c)).

(** [msg] is what [message_new] allocates: the address of the message node, or
    [NULL]. *)
Definition block_send (depth : nat) (msg : ptr) (target : Block) (sender : Z) (value : ptr) : M (bool * Block) :=
  if negb (block_is_alive target) then mret (false, target) else
  msg_value ← share_for_send depth value;
  if msg_value =? NULL then mret (false, target)
  else if msg =? NULL then value_release msg_value ;; mret (false, target)
  else match mailbox_push (mailbox target) msg (mkMessage sender msg_value)
               (max_mailbox_size (limits target)) with
       | (false, mb) => value_free_all msg_value ;; mret (false, set_mailbox target mb)
       | (true, mb) => mret (true, count_received (set_mailbox target mb))
       end.

Definition block_receive (b : Block) : ptr * Block :=
  let (p, mb) := mailbox_pop (mailbox b) in (p, set_mailbox b mb).
Definition block_has_messages (b : Block) : bool := negb (mailbox_empty (mailbox b)).

(** ** Capabilities as sets of bits *)

Lemma land_eq_subset a b :
  a .& b = b <-> forall i, 0 <= i -> Z.testbit b i = true -> Z.testbit a i = true.
Proof.
  split.
  - intros E i _ Hb. rewrite <- E, Z.land_spec in Hb. by apply andb_true_iff in Hb as [? _].
  - intros H. apply Z.bits_inj'. intros i Hi. rewrite Z.land_spec.
    specialize (H i Hi). destruct (Z.testbit b i); [by rewrite H|by rewrite andb_false_r].
Qed.

Lemma testbit_UINT32_MAX i : 0 <= i -> Z.testbit UINT32_MAX i = (i <? 32).
Proof.
  intros Hi. change UINT32_MAX with (Z.ones 32).
  destruct (Z.ltb_spec i 32); [apply Z.ones_spec_low|apply Z.ones_spec_high]; lia.
Qed.

Lemma testbit_u32_high a i : is_u32 a -> 32 <= i -> Z.testbit a i = false.
Proof. intros Ha Hi. apply (testbit_small a 32); unfold is_u32 in Ha; lia. Qed.

Lemma is_u32_bits a : (forall i, 32 <= i -> Z.testbit a i = false) -> is_u32 a.
Proof.
  intros H. assert (a mod 2 ^ 32 = a) as <-; [|apply Z.mod_pos_bound; lia].
  apply Z.bits_inj'. intros i Hi. destruct (Z.ltb_spec i 32).
  - by apply Z.mod_pow2_bits_low.
  - rewrite Z.mod_pow2_bits_high by lia. by rewrite H.
Qed.

(** Capabilities form a set.  A block has a capability exactly when it has all
    its bits; after granting [caps] it has those bits and the ones it had, after
    revoking [caps] it has the ones it had except those, and the set stays a
    32-bit word.  A capability check leaves the block alone when it passes, and
    otherwise the block is dead with exit code -1. *)
Theorem capability_algebra b caps cap :
  is_u32 (capabilities b) -> is_u32 caps ->
  (block_has_cap (block_grant b caps) cap = true <->
     forall i, 0 <= i -> Z.testbit cap i = true ->
       Z.testbit (capabilities b) i = true \/ Z.testbit caps i = true) /\
  (block_has_cap (block_revoke b caps) cap = true <->
     forall i, 0 <= i -> Z.testbit cap i = true ->
       Z.testbit (capabilities b) i = true /\ Z.testbit caps i = false) /\
  is_u32 (capabilities (block_grant b caps)) /\ is_u32 (capabilities (block_revoke b caps)) /\
  (let (r, b') := block_check_cap b cap in
   if r then b' = b /\ block_has_cap b cap = true
   else block_has_cap b cap = false /\ block_is_alive b' = false /\ exit_code b' = -1).
Proof.
  intros Hb Hc. unfold block_has_cap, block_grant, block_revoke. simpl. split; [|split].
  - rewrite Z.eqb_eq, land_eq_subset. split; intros H i Hi Hbit; specialize (H i Hi Hbit);
      rewrite Z.lor_spec, orb_true_iff in *; done.
  - rewrite Z.eqb_eq, land_eq_subset.
    split; intros H i Hi Hbit; specialize (H i Hi Hbit);
      rewrite Z.land_spec, Z.lxor_spec, testbit_UINT32_MAX in * by done.
    + apply andb_true_iff in H as [H1 H2]. split; [done|]. destruct (Z.ltb_spec i 32).
      * by destruct (Z.testbit caps i).
      * by apply testbit_u32_high.
    + destruct H as [H1 H2]. rewrite H1, H2. destruct (Z.ltb_spec i 32); [done|].
      by rewrite testbit_u32_high in H1.
  - split; [|split].
    + apply is_u32_bits. intros i Hi. by rewrite Z.lor_spec, !testbit_u32_high.
    + apply is_u32_bits. intros i Hi. by rewrite Z.land_spec, testbit_u32_high.
    + unfold block_check_cap, block_has_cap. destruct (_ =? cap) eqn:E; [done|]. done.
Qed.

Definition sample_block : Block := block_grant (block_new 7 None None) (CAP_SEND .| CAP_RECEIVE).

Lemma capability_algebra_witness :
  block_has_cap (block_revoke sample_block CAP_SEND) CAP_SEND = false /\
  (block_has_cap (block_revoke sample_block CAP_SEND) CAP_RECEIVE = true <->
     forall i, 0 <= i -> Z.testbit CAP_RECEIVE i = true ->
       Z.testbit (capabilities sample_block) i = true /\ Z.testbit CAP_SEND i = false).
Proof.
  split; [reflexivity|].
  apply (capability_algebra sample_block CAP_SEND CAP_RECEIVE); split; vm_compute; congruence.
Defined.

(** ** Life cycle *)

(** What the interpreter promises to [block_run]: it reports [VM_WAITING] only
    after it has put the block into the waiting state. *)
Class InterpreterContract `{Interpreter} : Prop :=
  waits_in_waiting_state : forall b, state b = BLOCK_RUNNING ->
    (vm_run b).1 = VM_WAITING -> state (vm_run b).2 = BLOCK_WAITING.

(** The state a block is left in for each result. *)
Definition state_after (r : BlockRunResult) : BlockState :=
  match r with
  | BLOCK_RUN_YIELD => BLOCK_RUNNABLE
  | BLOCK_RUN_WAITING => BLOCK_WAITING
  | BLOCK_RUN_OK | BLOCK_RUN_ERROR | BLOCK_RUN_HALTED => BLOCK_DEAD
  end.

(** C33: The life cycle of a block.  For every interpreter that waits only in the
    waiting state, running a block that no other thread is running leaves it
    runnable exactly when the result is a yield, waiting exactly when it is a
    wait, and dead otherwise; a waiting or dead block is not touched, so a dead
    block never runs again; a normal end has exit code 0 and an error exit
    code -1; and a block that is already running is refused untouched. *)
Theorem block_run_lifecycle `{InterpreterContract} b :
  let (r, b') := block_run b in
  (state b <> BLOCK_RUNNING -> state b' = state_after r) /\
  (state b = BLOCK_RUNNING -> r = BLOCK_RUN_ERROR /\ b' = b) /\
  (state b = BLOCK_WAITING -> r = BLOCK_RUN_WAITING /\ b' = b) /\
  (state b = BLOCK_DEAD -> r = BLOCK_RUN_HALTED /\ b' = b) /\
  (state b = BLOCK_RUNNABLE ->
     (r = BLOCK_RUN_OK \/ r = BLOCK_RUN_HALTED -> exit_code b' = 0) /\
     (r = BLOCK_RUN_ERROR -> exit_code b' = -1)).
Proof.
  unfold block_run, block_enter, block_try_transition. destruct (state b) eqn:Eb; simpl; try by split_and!.
  set (b0 := set_vm _ _). pose proof (waits_in_waiting_state b0 eq_refl) as Hw.
  destruct (vm_run b0) as [res b1]. simpl in Hw.
  destruct res; simpl; try (split_and!; try done; naive_solver).
Qed.

(** An interpreter that yields once its reductions are used up. *)
Definition yielding : Interpreter := fun b =>
  (VM_YIELD, set_vm b (mkVM (vm_reduction_limit (vm b)) (vm_reduction_limit (vm b)) None)).

Lemma yielding_contract : @InterpreterContract yielding.
Proof. intros b _. done. Defined.

Lemma block_run_lifecycle_witness :
  let (r, b') := @block_run yielding sample_block in
  r = BLOCK_RUN_YIELD /\ (state sample_block <> BLOCK_RUNNING -> state b' = state_after r) /\
  reductions (counters b') = 10000.
Proof.
  pose proof (@block_run_lifecycle yielding yielding_contract sample_block) as H.
  destruct (@block_run yielding sample_block) as [r b'] eqn:E.
  destruct H as [H _]. vm_compute in E. injection E as <- <-. split; [done|]. split; [exact H|done].
Defined.

(** Death is final.  No operation of a block except loading new code or a
    direct store of the state brings a dead block back: not running it, checking
    or changing capabilities, linking, monitoring, receiving, or a transition
    from a live state; and no message enters its mailbox. *)
Theorem block_death_final `{Interpreter} b depth msg sender value st :
  block_is_alive b = false ->
  block_run b = (BLOCK_RUN_HALTED, b) /\
  block_send depth msg b sender value st = Some ((false, b), st) /\
  (forall from to, from <> BLOCK_DEAD -> block_try_transition b from to = (false, b)) /\
  (forall caps, block_is_alive (block_grant b caps) = false /\
                block_is_alive (block_revoke b caps) = false /\
                block_is_alive (block_check_cap b caps).2 = false) /\
  (forall ok p, block_is_alive (block_link ok b p).2 = false /\ block_is_alive (block_unlink b p) = false /\
                block_is_alive (block_monitor ok b p).2 = false /\
                block_is_alive (block_add_monitored_by ok b p).2 = false) /\
  block_is_alive (block_receive b).2 = false.
Proof.
  intros Hd. assert (Es : state b = BLOCK_DEAD).
  { unfold block_is_alive in Hd. apply bool_decide_eq_false in Hd. by apply dec_stable in Hd. }
  split_and!.
  - unfold block_run, block_enter. by rewrite Es.
  - unfold block_send. by rewrite Hd.
  - intros from to Hf. unfold block_try_transition. rewrite Es. by rewrite decide_False by congruence.
  - intros caps. split_and!; [exact Hd..|]. unfold block_check_cap. by case_match.
  - intros ok p. unfold block_link, block_monitor, block_add_monitored_by. repeat case_match; done.
  - unfold block_receive. by case_match.
Qed.

Lemma block_death_final_witness :
  block_is_alive (block_exit sample_block 0) = false /\
  @block_run yielding (block_exit sample_block 0) = (BLOCK_RUN_HALTED, block_exit sample_block 0).
Proof.
  split; [reflexivity|].
  apply (@block_death_final yielding (block_exit sample_block 0) 0 0 0 0 shared_store). reflexivity.
Defined.

(** ** Links and monitors *)

(** [p] has been added to the set [get] of a block, or nothing has changed. *)
Definition added (get : Block -> PidVec) (ok : bool) (p : Z) (b : Block) (rb : bool * Block) : Prop :=
  let (r, b') := rb in
  vec_wf (get b') /\ (ok = true -> r = true) /\
  vec_set (get b') = (if r then {[p]} ∪ vec_set (get b) else vec_set (get b)).
Definition removed (get : Block -> PidVec) (p : Z) (b b' : Block) : Prop :=
  vec_wf (get b') /\ vec_set (get b') = vec_set (get b) ∖ {[p]}.

Lemma vec_add_added ok v p :
  vec_wf v -> Z.of_nat (length (items v)) < 2 ^ 31 ->
  vec_wf (vec_add u32 4 ok v p).2 /\ (ok = true -> (vec_add u32 4 ok v p).1 = true) /\
  vec_set (vec_add u32 4 ok v p).2 = (if (vec_add u32 4 ok v p).1 then {[p]} ∪ vec_set v else vec_set v).
Proof.
  intros Hw Hl. pose proof (vec_add_spec u32 4 ok v p u32_small Hw ltac:(lia) Hl) as H.
  destruct (vec_add u32 4 ok v p) as [r v']. destruct H as (H1 & H2 & H3 & H4).
  split; [done|]. split; [done|]. simpl. destruct r; [by apply H2|]. by destruct (H3 eq_refl) as [_ ->].
Qed.

(** The link and monitor arrays are sets.  Adding a valid process identifier
    to a block's links, monitors or observers adds exactly it (once: adding it
    again changes nothing), succeeds whenever the reallocation does and leaves
    the set alone otherwise; removing it removes exactly it; and no operation
    writes past the allocated capacity or touches the other two sets.  The
    invalid identifier is refused. *)
Theorem block_relations_are_sets ok b p :
  vec_wf (links b) -> vec_wf (monitors b) -> vec_wf (monitored_by b) -> p <> PID_INVALID ->
  Z.of_nat (length (items (links b))) < 2 ^ 31 -> Z.of_nat (length (items (monitors b))) < 2 ^ 31 ->
  Z.of_nat (length (items (monitored_by b))) < 2 ^ 31 ->
  (added links ok p b (block_link ok b p) /\ removed links p b (block_unlink b p) /\
   monitors (block_link ok b p).2 = monitors b /\ monitors (block_unlink b p) = monitors b) /\
  (added monitors ok p b (block_monitor ok b p) /\ removed monitors p b (block_demonitor b p) /\
   links (block_monitor ok b p).2 = links b /\ links (block_demonitor b p) = links b) /\
  (added monitored_by ok p b (block_add_monitored_by ok b p) /\
   removed monitored_by p b (block_remove_monitored_by b p) /\
   links (block_add_monitored_by ok b p).2 = links b) /\
  block_link ok b PID_INVALID = (false, b) /\ block_monitor ok b PID_INVALID = (false, b) /\
  block_add_monitored_by ok b PID_INVALID = (false, b).
Proof.
  intros W1 W2 W3 Hp L1 L2 L3. apply Z.eqb_neq in Hp as Hpe.
  unfold block_link, block_monitor, block_add_monitored_by, block_unlink, block_demonitor,
    block_remove_monitored_by, added, removed. rewrite Hpe. simpl.
  pose proof (vec_add_added ok _ p W1 L1) as A1. pose proof (vec_add_added ok _ p W2 L2) as A2.
  pose proof (vec_add_added ok _ p W3 L3) as A3.
  pose proof (vec_remove_spec (links b) p W1) as R1. pose proof (vec_remove_spec (monitors b) p W2) as R2.
  pose proof (vec_remove_spec (monitored_by b) p W3) as R3.
  destruct (vec_add u32 4 ok (links b) p), (vec_add u32 4 ok (monitors b) p), (vec_add u32 4 ok (monitored_by b) p),
    (vec_remove (links b) p), (vec_remove (monitors b) p), (vec_remove (monitored_by b) p). simpl in *.
  destruct_and!. split_and!; done.
Qed.

Lemma block_relations_are_sets_witness :
  let b := (block_link true (block_link true sample_block 3).2 5).2 in
  added links true 9 b (block_link true b 9) /\ block_get_links (block_unlink b 3) = [5].
Proof.
  split; [|reflexivity].
  assert (Hw : vec_wf (mkPidVec [3; 5] 4)).
  { split; [simpl; lia|]. apply NoDup_cons. split; [set_solver|apply NoDup_singleton]. }
  apply (block_relations_are_sets true (block_link true (block_link true sample_block 3).2 5).2 9);
    try exact Hw; try apply vec_empty_wf; try (simpl; lia); discriminate.
Defined.

(** ** Sending *)

(** The types whose values are sent by reference. *)
Definition sent_by_reference (t : ValueType) : bool :=
  match t with
  | VAL_NIL | VAL_BOOL | VAL_INT | VAL_FLOAT | VAL_STRING | VAL_PID | VAL_FUNCTION | VAL_VECTOR
  | VAL_ARRAY | VAL_MAP => true
  | _ => false
  end.

Lemma retain_hit st v c :
  cells st !! v = Some c -> v <> NULL -> 0 < refcount c < REFCOUNT_SATURATED - 1 ->
  value_retain v st =
    Some (v, mkStore (<[v := set_refcount c (refcount c + 1)]> (cells st)) (next_addr st) (current_heap st)).
Proof.
  intros Hc Hv Hr. unfold value_retain. rewrite (proj2 (Z.eqb_neq _ _) Hv). mstep (load_run _ _ _ Hc).
  assert (retain_count (refcount c) = Some (refcount c + 1)) as ->.
  { unfold retain_count, REFCOUNT_SATURATED, REFCOUNT_FREEING, UINT32_MAX in *.
    repeat case_if_goal; try lia; done. }
  by mstep (write_run _ _ _ (set_refcount c (refcount c + 1)) Hc).
Qed.

(** A shared value keeps its address and its data and gains one reference. *)
Lemma share_by_reference depth st v c :
  store_wf st -> cells st !! v = Some c -> sent_by_reference (type_of (data c)) = true ->
  0 < refcount c < REFCOUNT_SATURATED - 1 ->
  exists c' st', share_for_send depth v st = Some (v, st') /\
    cells st' = <[v := c']> (cells st) /\ data c' = data c /\ refcount c' = refcount c + 1 /\
    next_addr st' = next_addr st.
Proof.
  intros Hwf Hc Ht Hr. pose proof (v_not_null st v c Hwf Hc) as Hv.
  assert (Hnn : (v =? NULL) = false) by (by apply Z.eqb_neq).
  assert (Hcow : exists c' st', value_cow_share v st = Some (v, st') /\
    cells st' = <[v := c']> (cells st) /\ data c' = data c /\ refcount c' = refcount c + 1 /\
    next_addr st' = next_addr st).
  { unfold value_cow_share. rewrite Hnn. mstep (load_run _ _ _ Hc). case_match.
    - rewrite (retain_hit _ _ _ Hc Hv Hr). by eexists _, _.
    - set (c1 := set_flags c _). mstep (write_run _ _ _ c1 Hc). set (st1 := mkStore _ _ _).
      assert (Hc1 : cells st1 !! v = Some c1) by apply lookup_insert_eq.
      rewrite (retain_hit _ _ _ Hc1 Hv Hr). eexists _, _. split; [reflexivity|]. simpl.
      by rewrite insert_insert_eq. }
  unfold share_for_send. rewrite Hnn. mstep (load_run _ _ _ Hc).
  destruct (type_of (data c)); try done; rewrite (retain_hit _ _ _ Hc Hv Hr); by eexists _, _.
Qed.

(** A reference that is not the last one is given back. *)
Lemma free_shared st v c :
  cells st !! v = Some c -> v <> NULL -> 1 < refcount c < REFCOUNT_SATURATED ->
  value_free_all v st =
    Some (tt, mkStore (<[v := set_refcount c (refcount c - 1)]> (cells st)) (next_addr st) (current_heap st)).
Proof.
  intros Hc Hv Hr. unfold value_free_all, free_fuel. cbn [value_free].
  rewrite (proj2 (Z.eqb_neq _ _) Hv). mstep (load_run _ _ _ Hc).
  assert (free_count (refcount c) = FreeDecrement (refcount c - 1)) as ->.
  { unfold free_count, REFCOUNT_SATURATED, REFCOUNT_FREEING, UINT32_MAX in *.
    repeat case_if_goal; try lia; done. }
  by rewrite (write_run _ _ _ _ Hc).
Qed.

(** C32: sending by reference.  Sending an immutable value, an array or a map whose
    reference count is positive and more than one below saturation to a live block
    whose mailbox has room, with memory for the message, appends a message with the
    sender and the same value: the value is not copied, its data is unchanged, it has
    exactly one more reference, and no other cell changes, so sender and receiver
    share the value.  When the mailbox is full the send fails, the queue is unchanged
    and every value, the one sent included, has the data and the reference count it
    had. *)
Theorem block_send_by_reference depth msg b sender v c st q :
  store_wf st -> cells st !! v = Some c -> sent_by_reference (type_of (data c)) = true ->
  0 < refcount c < REFCOUNT_SATURATED - 1 -> block_is_alive b = true ->
  queued_as (mailbox b) q -> fresh_msg msg q -> Z.of_nat (length q) <= UINT64_MAX ->
  0 <= max_mailbox_size (limits b) ->
  exists b' st', 
    if (0 <? max_mailbox_size (limits b)) && (max_mailbox_size (limits b) <=? Z.of_nat (length q)) then
      block_send depth msg b sender v st = Some ((false, b'), st') /\ queued_as (mailbox b') q /\
      forall p, (fun c => (data c, refcount c)) <$> cells st' !! p =
                (fun c => (data c, refcount c)) <$> cells st !! p
    else
      block_send depth msg b sender v st = Some ((true, b'), st') /\
      queued_as (mailbox b') (q ++ [(msg, mkMessage sender v)]) /\
      messages_received (counters b') = u64 (messages_received (counters b) + 1) /\
      exists c', cells st' = <[v := c']> (cells st) /\ data c' = data c /\ refcount c' = refcount c + 1.
Proof.
  intros Hwf Hc Ht Hr Ha Hq Hf Hl Hmx. pose proof (v_not_null st v c Hwf Hc) as Hv.
  destruct (share_by_reference depth st v c Hwf Hc Ht Hr) as (c' & st1 & Hs & Hc1 & Hd & Hrc & _).
  unfold block_send. rewrite Ha. simpl. unfold mailbox_push.
  rewrite (queued_as_count _ _ Hq Hl). pose proof Hf as [Hmn _].
  destruct (_ && _) eqn:E.
  - eexists _, _. split; [|split].
    + mstep Hs. rewrite (proj2 (Z.eqb_neq _ _) Hv), (proj2 (Z.eqb_neq _ _) Hmn).
      assert (Hcv : cells st1 !! v = Some c') by (by rewrite Hc1, lookup_insert_eq).
      mstep (free_shared st1 v c' Hcv Hv ltac:(lia)). reflexivity.
    + done.
    + intros p. simpl. rewrite Hc1, insert_insert_eq. destruct (decide (p = v)) as [->|Hp].
      * rewrite lookup_insert_eq, Hc. simpl. rewrite Hd, Hrc. do 2 f_equal. lia.
      * by rewrite lookup_insert_ne.
  - eexists _, _. split; [|split; [|split]].
    + mstep Hs. rewrite (proj2 (Z.eqb_neq _ _) Hv), (proj2 (Z.eqb_neq _ _) Hmn). reflexivity.
    + by apply enqueue_queued_as.
    + done.
    + eauto.
Qed.

Lemma block_send_by_reference_witness :
  exists b' st', block_send 1 16 sample_block 9 1 shared_store = Some ((true, b'), st') /\
    queued_as (mailbox b') [(16, mkMessage 9 1)].
Proof.
  destruct (block_send_by_reference 1 16 sample_block 9 1 shared_array shared_store []) as (b' & st' & H).
  - by apply store_wf_check.
  - reflexivity.
  - reflexivity.
  - simpl. unfold REFCOUNT_SATURATED, UINT32_MAX. lia.
  - reflexivity.
  - split; [apply mailbox_init_queued|]. by intros a m ?%not_elem_of_nil.
  - split_and!; try discriminate. apply not_elem_of_nil.
  - vm_compute. discriminate.
  - vm_compute. discriminate.
  - exists b', st'. split; apply H.
Defined.

(** Byte strings and closures do not survive sending: whatever they hold, the
    message a live block with an empty mailbox receives carries nil, although
    the comment in [block_send] announces a deep copy of unsafe types. *)
Theorem block_send_loses_bytes depth msg limits sender v c st :
  store_wf st -> cells st !! v = Some c ->
  type_of (data c) = VAL_BYTES \/ type_of (data c) = VAL_CLOSURE ->
  msg <> NULL -> msg <> STUB -> 0 < max_mailbox_size limits ->
  exists b' st' x, block_send (S depth) msg (block_new 7 None (Some limits)) sender v st = Some ((true, b'), st') /\
    queued_as (mailbox b') [(msg, mkMessage sender x)] /\ data_of st' x = Some VNil.
Proof.
  intros Hwf Hc Ht Hm Hms Hmx. pose proof (v_not_null st v c Hwf Hc) as Hv.
  assert (Hcopy : share_for_send (S depth) v st = value_new VNil st).
  { unfold share_for_send. rewrite (proj2 (Z.eqb_neq _ _) Hv). mstep (load_run _ _ _ Hc).
    cbn [value_copy]. rewrite (proj2 (Z.eqb_neq _ _) Hv).
    destruct Ht as [Ht|Ht]; rewrite Ht; mstep (load_run _ _ _ Hc); by destruct (data c). }
  eexists _, _, (next_addr st). unfold block_send. simpl.
  split; [|split].
  - unfold value_new in Hcopy. mstep Hcopy. destruct Hwf as [Hn _].
    rewrite (proj2 (Z.eqb_neq (next_addr st) NULL)) by (unfold NULL; lia).
    rewrite (proj2 (Z.eqb_neq _ _) Hm). unfold mailbox_push. simpl.
    replace (max_mailbox_size limits <=? 0) with false by lia. rewrite andb_false_r. reflexivity.
  - apply (enqueue_queued_as mailbox_init []); [|by split_and!; [..|apply not_elem_of_nil]].
    split; [apply mailbox_init_queued|]. by intros a m ?%not_elem_of_nil.
  - unfold data_of. simpl. by rewrite lookup_insert_eq.
Qed.

Lemma block_send_loses_bytes_witness :
  let st := mkStore (<[1 := mkValue (VBytes 8 [1; 2; 3]) 1 0 0]> ∅) 2 None in
  exists b' st' x, block_send 1 16 (block_new 7 None (Some block_limits_default)) 9 1 st = Some ((true, b'), st') /\
    queued_as (mailbox b') [(16, mkMessage 9 x)] /\ data_of st' x = Some VNil.
Proof.
  intros st. apply (block_send_loses_bytes 0 16 block_limits_default 9 1 (mkValue (VBytes 8 [1; 2; 3]) 1 0 0));
    try discriminate; [by apply store_wf_check|reflexivity|by left|reflexivity].
Defined.
