(* ===== verification/Timer.v ===== *)
(** * Timer wheel (src/runtime/timer.c, src/runtime/timer.h)

    The wheel's buckets are doubly linked lists of entries in the C code and
    lists of entries here; an entry is identified by its address.  The clock is
    an argument.  Operations run under the wheel's lock, one at a time. *)

From Stdlib Require Import ZArith Lia.
From stdpp Require Import base list numbers gmap.
From S2P Require Import Prelude Value.
Local Open Scope Z_scope.

Record TimerEntry := mkTimer {
  te_addr : ptr;
  te_pid : Z;              (** [block_pid] *)
  te_callback : Z;         (** [callback] and [callback_ctx] *)
  deadline_ms : Z;
  cancelled : bool;
  slot : nat
}.

Record TimerConfig := mkConfig { cfg_wheel_size : nat; cfg_tick_ms : Z }.

Record TimerWheel := mkWheel {
  wheel_size : nat;
  tick_ms : Z;
  buckets : list (list TimerEntry);
  current_slot : nat;
  current_time_ms : Z;
  free_list : list ptr;
  allocated : Z;
  min_deadline : Z         (** 0 when there is none *)
}.

Definition timer_config_default : TimerConfig := mkConfig 256 10.

(** [malloc] and [calloc] succeeded; [now] is [timer_current_time_ms()]. *)
Definition timer_wheel_new (config : option TimerConfig) (now : Z) : TimerWheel :=
  let cfg := default timer_config_default config in
  mkWheel (cfg_wheel_size cfg) (cfg_tick_ms cfg) (replicate (cfg_wheel_size cfg) []) 0 now [] 0 0.

(** ** Buckets and entries *)

Definition bucket (bs : list (list TimerEntry)) (i : nat) : list TimerEntry := default [] (bs !! i).

Definition bucket_add (e : TimerEntry) (b : list TimerEntry) : list TimerEntry := b ++ [e].
Definition bucket_remove (a : ptr) (b : list TimerEntry) : list TimerEntry :=
  filter (fun e => te_addr e <> a) b.

(** From the free list, or a fresh address [malloced] ([NULL] on failure). *)
Definition timer_entry_alloc (w : TimerWheel) (malloced : ptr) : ptr * TimerWheel :=
  match free_list w with
  | a :: fl => (a, mkWheel (wheel_size w) (tick_ms w) (buckets w) (current_slot w) (current_time_ms w)
                     fl (allocated w) (min_deadline w))
  | [] =>
      if malloced =? NULL then (NULL, w)
      else (malloced, mkWheel (wheel_size w) (tick_ms w) (buckets w) (current_slot w) (current_time_ms w)
                        [] (u64 (allocated w + 1)) (min_deadline w))
  end.
Definition timer_entry_free (a : ptr) (fl : list ptr) : list ptr := a :: fl.

Definition set_buckets (w : TimerWheel) (bs : list (list TimerEntry)) (fl : list ptr) (m : Z) : TimerWheel :=
  mkWheel (wheel_size w) (tick_ms w) bs (current_slot w) (current_time_ms w) fl (allocated w) m.

(** [n % wheel_size] of a 64-bit sum. *)
Definition wheel_mod (size : nat) (n : Z) : nat := Z.to_nat (u64 n mod Z.of_nat size).

(** ** Adding *)

Definition timer_add (w : TimerWheel) (malloced : ptr) (now : Z) (block_pid timeout_ms callback : Z)
    : option TimerEntry * TimerWheel :=
  match timer_entry_alloc w malloced with
  | (a, w) =>
      if a =? NULL then (None, w)
      else
        let deadline := if UINT64_MAX - now <? timeout_ms then UINT64_MAX else now + timeout_ms in
        let ticks := timeout_ms / tick_ms w in
        let ticks := if ticks =? 0 then 1 else ticks in
        let s := wheel_mod (wheel_size w) (Z.of_nat (current_slot w) + ticks) in
        let e := mkTimer a block_pid callback deadline false s in
        let m := min_deadline w in
        let m := if (m =? 0) || (deadline <? m) then deadline else m in
        (Some e, set_buckets w (alter (bucket_add e) s (buckets w)) (free_list w) m)
  end.

(** ** Cancelling *)

Definition find_entry (w : TimerWheel) (a : ptr) : option TimerEntry :=
  List.find (fun e => te_addr e =? a) (concat (buckets w)).

Definition mark_cancelled (a : ptr) (e : TimerEntry) : TimerEntry :=
  if te_addr e =? a then mkTimer (te_addr e) (te_pid e) (te_callback e) (deadline_ms e) true (slot e) else e.

(** [None]: undefined, the entry is not in the wheel any more.  An entry whose slot
    is outside of the wheel would stay where it is, marked. *)
Definition timer_cancel (w : TimerWheel) (a : ptr) : option (bool * TimerWheel) :=
  match find_entry w a with
  | None => None
  | Some e =>
      if cancelled e then Some (false, w)
      else if (slot e <? wheel_size w)%nat then
        Some (true, set_buckets w (alter (bucket_remove a) (slot e) (buckets w))
                      (timer_entry_free a (free_list w)) (min_deadline w))
      else Some (true, set_buckets w (map (map (mark_cancelled a)) (buckets w)) (free_list w) (min_deadline w))
  end.

(** ** Ticking *)

(** What the walk over the buckets accumulates: the buckets, the fired entries
    in order, the smallest pending deadline seen, the free list. *)
Record walk := mkWalk {
  w_buckets : list (list TimerEntry);
  w_fired : list TimerEntry;
  w_min : option Z;
  w_free : list ptr
}.

Definition min_with (m : option Z) (d : Z) : option Z :=
  match m with Some m => Some (if d <? m then d else m) | None => Some d end.

Definition set_slot (e : TimerEntry) (s : nat) : TimerEntry :=
  mkTimer (te_addr e) (te_pid e) (te_callback e) (deadline_ms e) (cancelled e) s.

(** One entry of the bucket [cur]. *)
Definition visit (size : nat) (tick : Z) (cur : nat) (now : Z) (a : walk) (e : TimerEntry) : walk :=
  if negb (cancelled e) && (deadline_ms e <=? now) then
    mkWalk (alter (bucket_remove (te_addr e)) cur (w_buckets a)) (w_fired a ++ [e]) (w_min a) (w_free a)
  else if negb (cancelled e) then
    let remaining := deadline_ms e - now in
    let ticks_remaining := remaining / tick in
    let ticks_remaining := if ticks_remaining =? 0 then 1 else ticks_remaining in
    let new_slot := wheel_mod size (Z.of_nat cur + ticks_remaining) in
    let bs := if (new_slot =? cur)%nat then w_buckets a
              else alter (bucket_add (set_slot e new_slot)) new_slot
                     (alter (bucket_remove (te_addr e)) cur (w_buckets a)) in
    mkWalk bs (w_fired a) (min_with (w_min a) (deadline_ms e)) (w_free a)
  else
    mkWalk (alter (bucket_remove (te_addr e)) cur (w_buckets a)) (w_fired a) (w_min a)
      (timer_entry_free (te_addr e) (w_free a)).

(** The next slot: advance and visit every entry its bucket has now. *)
Definition visit_slot (size : nat) (tick : Z) (now : Z) (sa : nat * walk) : nat * walk :=
  let cur := ((sa.1 + 1) mod size)%nat in
  (cur, foldl (visit size tick cur now) sa.2 (bucket (w_buckets sa.2) cur)).

Fixpoint visit_slots (ticks : nat) (size : nat) (tick : Z) (now : Z) (sa : nat * walk) : nat * walk :=
  match ticks with
  | O => sa
  | S ticks' => visit_slots ticks' size tick now (visit_slot size tick now sa)
  end.

(** How many slots a tick at [now] advances. *)
Definition tick_slots (w : TimerWheel) (now : Z) : nat :=
  let elapsed := u64 (now - current_time_ms w) in
  let ticks := elapsed / tick_ms w in
  let ticks := if (ticks =? 0) && (0 <? elapsed) then 1 else ticks in
  Z.to_nat (if Z.of_nat (wheel_size w) <? ticks then Z.of_nat (wheel_size w) else ticks).

Definition scan_min (m : option Z) (es : list TimerEntry) : option Z :=
  foldl (fun m e => if cancelled e then m else min_with m (deadline_ms e)) m es.

(** The fired entries, in order; [*fired_count] is their number. *)
Definition timer_tick (w : TimerWheel) (now : Z) : list TimerEntry * TimerWheel :=
  let '(cur, a) := visit_slots (tick_slots w now) (wheel_size w) (tick_ms w) now
                     (current_slot w, mkWalk (buckets w) [] None (free_list w)) in
  let m := if (0 <? length (w_fired a))%nat
           then default 0 (scan_min (w_min a) (concat (w_buckets a)))
           else min_deadline w in
  (w_fired a, mkWheel (wheel_size w) (tick_ms w) (w_buckets a) cur now (w_free a) (allocated w) m).

Definition timer_next_deadline (w : TimerWheel) : Z := min_deadline w.
Definition timer_has_pending (w : TimerWheel) : bool :=
  existsb (fun b => negb (bool_decide (b = []))) (buckets w).

(** ** Invariant *)

Record buckets_ok (size : nat) (bs : list (list TimerEntry)) : Prop := {
  bk_length : length bs = size;
  bk_slot : forall i b e, bs !! i = Some b -> e ∈ b -> slot e = i /\ cancelled e = false;
  bk_nodup : NoDup (te_addr <$> concat bs)
}.

Record wheel_wf (w : TimerWheel) : Prop := {
  wf_size : (0 < wheel_size w)%nat;
  wf_tick : 0 < tick_ms w;
  wf_slot : (current_slot w < wheel_size w)%nat;
  wf_buckets : buckets_ok (wheel_size w) (buckets w);
}.

(** An entry apart from its place in the wheel. *)
Definition te_key (e : TimerEntry) : ptr * Z * Z * Z := (te_addr e, te_pid e, te_callback e, deadline_ms e).

Definition due (now : Z) (e : TimerEntry) : Prop := deadline_ms e <= now.
#[global] Instance due_dec now e : Decision (due now e).
Proof. apply Z.le_dec. Defined.

Lemma wheel_mod_lt size n : (0 < size)%nat -> (wheel_mod size n < size)%nat.
Proof.
  intros H. unfold wheel_mod. pose proof (Z.mod_pos_bound (u64 n) (Z.of_nat size)). lia.
Qed.

Lemma buckets_ok_replicate n : buckets_ok n (replicate n []).
Proof.
  split.
  - apply length_replicate.
  - intros i b e [-> _]%lookup_replicate ?%not_elem_of_nil. done.
  - replace (concat (replicate n [])) with (@nil TimerEntry); [constructor|]. by induction n.
Qed.

Lemma bucket_lookup bs i b : bs !! i = Some b -> bucket bs i = b.
Proof. intros H. unfold bucket. by rewrite H. Qed.

(** *** Taking an entry out, putting one in *)

Lemma bucket_remove_other a b : (forall e, e ∈ b -> te_addr e <> a) -> bucket_remove a b = b.
Proof.
  unfold bucket_remove. induction b as [|e b IH]; intros H; [done|].
  rewrite filter_cons_True by (apply H; left). f_equal. apply IH. intros x Hx. apply H. by right.
Qed.

Lemma remove_entry size bs cur kept e rest :
  buckets_ok size bs -> bs !! cur = Some (kept ++ e :: rest) ->
  alter (bucket_remove (te_addr e)) cur bs = <[cur := kept ++ rest]> bs.
Proof.
  intros [_ _ Hnd] Hc. rewrite (list_alter_insert _ _ _ _ Hc). f_equal.
  rewrite (concat_focus _ _ _ Hc), fmap_app, fmap_app in Hnd. simpl in Hnd.
  apply NoDup_app in Hnd as (Hnd & _ & _). apply NoDup_app in Hnd as (_ & Hk & Hr).
  apply NoDup_cons in Hr as [Hr _].
  assert (Hs : bucket_remove (te_addr e) (kept ++ e :: rest) =
    bucket_remove (te_addr e) kept ++ bucket_remove (te_addr e) rest).
  { unfold bucket_remove. by rewrite filter_app, filter_cons_False by (by intros []). }
  rewrite Hs, !bucket_remove_other; [done| |].
  - intros x Hx E. apply Hr. rewrite <- E. by apply list_elem_of_fmap_2.
  - intros x Hx E. apply (Hk (te_addr x)); [by apply list_elem_of_fmap_2|]. rewrite E. left.
Qed.

Lemma take_out size bs cur kept e rest :
  buckets_ok size bs -> bs !! cur = Some (kept ++ e :: rest) ->
  buckets_ok size (<[cur := kept ++ rest]> bs) /\
  concat bs ≡ₚ e :: concat (<[cur := kept ++ rest]> bs).
Proof.
  intros [Hl Hs Hnd] Hc.
  assert (HP : concat bs ≡ₚ e :: concat (<[cur := kept ++ rest]> bs)).
  { rewrite (concat_focus _ _ _ Hc), (concat_insert _ _ _ (kept ++ rest) Hc). solve_Permutation. }
  split; [|done]. split.
  - by rewrite length_insert.
  - intros i b x Hi Hx. destruct (decide (i = cur)) as [->|Hne].
    + rewrite list_lookup_insert_eq in Hi by (by eapply lookup_lt_Some). simplify_eq.
      apply (Hs cur (kept ++ e :: rest) x); [done|]. set_solver.
    + rewrite list_lookup_insert_ne in Hi by done. by apply (Hs i b x).
  - rewrite HP in Hnd. by apply NoDup_cons in Hnd as [_ Hnd].
Qed.

Lemma put_in size bs s e :
  buckets_ok size bs -> (s < size)%nat -> slot e = s -> cancelled e = false ->
  te_addr e ∉ te_addr <$> concat bs ->
  buckets_ok size (alter (bucket_add e) s bs) /\ concat (alter (bucket_add e) s bs) ≡ₚ e :: concat bs.
Proof.
  intros [Hl Hs Hnd] Hlt He Hc Hn.
  destruct (lookup_lt_is_Some_2 bs s) as [b Hb]; [lia|].
  assert (HP : concat (alter (bucket_add e) s bs) ≡ₚ e :: concat bs).
  { rewrite (concat_alter_perm _ _ _ _ Hb), (concat_focus _ _ _ Hb). unfold bucket_add. solve_Permutation. }
  split; [|done]. split.
  - by rewrite length_alter.
  - intros i b' x Hi Hx. rewrite (list_alter_insert _ _ _ _ Hb) in Hi.
    destruct (decide (i = s)) as [->|Hne].
    + rewrite list_lookup_insert_eq in Hi by (by eapply lookup_lt_Some). simplify_eq.
      unfold bucket_add in Hx. apply elem_of_app in Hx as [Hx|Hx]; [by apply (Hs _ b)|].
      by apply list_elem_of_singleton in Hx as ->.
    + rewrite list_lookup_insert_ne in Hi by done. by apply (Hs i b' x).
  - rewrite HP. simpl. by apply NoDup_cons.
Qed.

(** *** Visiting a bucket *)

Section visit.
Context (size : nat) (tick : Z) (cur : nat) (now : Z) (Hsize : (0 < size)%nat).

(** What visiting the entries [es] of the bucket [cur] does to the walk. *)
Record visited (es : list TimerEntry) (a a' : walk) : Prop := {
  v_ok : buckets_ok size (w_buckets a');
  v_fired : w_fired a' = w_fired a ++ filter (due now) es;
  v_due : forall i, filter (due now) (bucket (w_buckets a') i) =
            if decide (i = cur) then [] else filter (due now) (bucket (w_buckets a) i);
  v_keys : te_key <$> concat (w_buckets a) ≡ₚ
             (te_key <$> filter (due now) es) ++ (te_key <$> concat (w_buckets a'));
  v_free : w_free a' = w_free a;
}.

Lemma filter_not_due l : Forall (fun e => ~ due now e) l -> filter (due now) l = [].
Proof. induction 1; [done|]. by rewrite filter_cons_False. Qed.

(** The due entries of each bucket after the entry [e] has left [cur]. *)
Lemma due_take_out bs kept e rest i :
  bs !! cur = Some (kept ++ e :: rest) ->
  filter (due now) (bucket (<[cur := kept ++ rest]> bs) i) =
    if decide (i = cur) then filter (due now) (kept ++ rest) else filter (due now) (bucket bs i).
Proof.
  intros Hc. unfold bucket. case_decide as E.
  - subst. rewrite list_lookup_insert_eq; [done|]. by eapply lookup_lt_Some.
  - by rewrite list_lookup_insert_ne.
Qed.

Lemma due_put_in bs s e i :
  ~ due now e -> filter (due now) (bucket (alter (bucket_add e) s bs) i) = filter (due now) (bucket bs i).
Proof.
  intros Hd. unfold bucket. destruct (decide (i = s)) as [->|Hne].
  - rewrite list_lookup_alter_eq. destruct (bs !! s); simpl; [|done].
    unfold bucket_add. rewrite filter_app, filter_cons_False by done. by rewrite filter_nil, app_nil_r.
  - by rewrite list_lookup_alter_ne.
Qed.

Lemma bucket_put_in_other (bs : list (list TimerEntry)) s e b :
  s <> cur -> bs !! cur = Some b -> alter (bucket_add e) s bs !! cur = Some b.
Proof. intros Hs Hb. by rewrite list_lookup_alter_ne. Qed.

Lemma visit_entries es : forall kept a,
  buckets_ok size (w_buckets a) -> w_buckets a !! cur = Some (kept ++ es) ->
  Forall (fun e => ~ due now e) kept ->
  visited es a (foldl (visit size tick cur now) a es).
Proof.
  induction es as [|e es IH]; intros kept a Hok Hc Hk.
  { rewrite app_nil_r in Hc. simpl. split; try done; [by rewrite app_nil_r|].
    intros i. case_decide as E; [|done]. subst. rewrite (bucket_lookup _ _ _ Hc). by apply filter_not_due. }
  assert (He : slot e = cur /\ cancelled e = false) by (apply (bk_slot _ _ Hok cur _ e Hc); set_solver).
  destruct He as [Hsl Hca].
  destruct (take_out _ _ _ _ _ _ Hok Hc) as [Hok1 HP1].
  assert (Hlt : (cur < length (w_buckets a))%nat) by (by eapply lookup_lt_Some).
  assert (Hc1 : <[cur := kept ++ es]> (w_buckets a) !! cur = Some (kept ++ es)) by (by apply list_lookup_insert_eq).
  cbn [foldl]. unfold visit at 2. rewrite Hca. simpl.
  destruct (Z.leb_spec (deadline_ms e) now) as [Hd|Hd].
  - rewrite (remove_entry _ _ _ _ _ _ Hok Hc).
    destruct (IH kept (mkWalk (<[cur := kept ++ es]> (w_buckets a)) (w_fired a ++ [e]) (w_min a) (w_free a)))
      as [V1 V2 V3 V4 V5]; [done..|]. simpl in *.
    split; try done; rewrite ?filter_cons_True by done.
    + by rewrite V2, <- app_assoc.
    + intros i. rewrite V3, (due_take_out _ _ _ _ _ Hc). by case_decide.
    + rewrite HP1. simpl. by rewrite V4.
  - assert (Hnd : ~ due now e) by (unfold due; lia).
    set (ns := wheel_mod size _). destruct (Nat.eqb_spec ns cur) as [Ens|Ens].
    + destruct (IH (kept ++ [e]) (mkWalk (w_buckets a) (w_fired a) (min_with (w_min a) (deadline_ms e)) (w_free a)))
        as [V1 V2 V3 V4 V5]; [done|simpl; by rewrite <- app_assoc|by apply Forall_snoc|]. simpl in *.
      split; try done; rewrite ?filter_cons_False by done; done.
    + rewrite (remove_entry _ _ _ _ _ _ Hok Hc).
      set (bs1 := <[cur := kept ++ es]> (w_buckets a)) in *. set (e' := set_slot e ns).
      assert (Hfresh : te_addr e' ∉ te_addr <$> concat bs1).
      { pose proof (bk_nodup _ _ Hok) as Hn. rewrite HP1 in Hn. by apply NoDup_cons in Hn as [Hn _]. }
      destruct (put_in size bs1 ns e') as [Hok2 HP2]; [done|by apply wheel_mod_lt|done..|].
      destruct (IH kept (mkWalk (alter (bucket_add e') ns bs1) (w_fired a) (min_with (w_min a) (deadline_ms e)) (w_free a)))
        as [V1 V2 V3 V4 V5]; [done|by apply bucket_put_in_other|done|]. simpl in *.
      split; try done; rewrite ?filter_cons_False by done; try done.
      * intros i. rewrite V3, due_put_in by done. subst bs1. rewrite (due_take_out _ _ _ _ _ Hc). by case_decide.
      * rewrite HP2 in V4. rewrite HP1. simpl in *. exact V4.
Qed.

End visit.

(** *** Visiting the slots of a tick *)

Section tick.
Context (size : nat) (tick now : Z) (Hsize : (0 < size)%nat).

Record walked (n : nat) (cur : nat) (a : walk) (cur' : nat) (a' : walk) : Prop := {
  wk_ok : buckets_ok size (w_buckets a');
  wk_cur : cur' = ((cur + n) mod size)%nat;
  wk_fired : exists fs, w_fired a' = w_fired a ++ fs /\ Forall (due now) fs /\
    te_key <$> concat (w_buckets a) ≡ₚ (te_key <$> fs) ++ (te_key <$> concat (w_buckets a'));
  wk_passed : forall t, (1 <= t <= n)%nat -> filter (due now) (bucket (w_buckets a') ((cur + t) mod size)) = [];
  wk_due : forall i, filter (due now) (bucket (w_buckets a') i) = [] \/
    filter (due now) (bucket (w_buckets a') i) = filter (due now) (bucket (w_buckets a) i)
}.

Lemma visit_slots_spec n : forall cur a, (cur < size)%nat -> buckets_ok size (w_buckets a) ->
  walked n cur a (visit_slots n size tick now (cur, a)).1 (visit_slots n size tick now (cur, a)).2.
Proof.
  induction n as [|n IH]; intros cur a Hcur Hok; cbn [visit_slots].
  - split; try done; try lia; [by rewrite Nat.add_0_r, Nat.mod_small| |by right].
    exists []. by rewrite app_nil_r.
  - unfold visit_slot. simpl. set (c1 := ((cur + 1) mod size)%nat).
    assert (Hc1 : (c1 < size)%nat) by (apply Nat.mod_upper_bound; lia).
    destruct (lookup_lt_is_Some_2 (w_buckets a) c1) as [b Hb]; [rewrite (bk_length _ _ Hok); lia|].
    rewrite (bucket_lookup _ _ _ Hb).
    destruct (visit_entries size tick c1 now Hsize b [] a Hok Hb ltac:(constructor)) as [V1 V2 V3 V4 V5].
    set (a1 := foldl _ a b) in *.
    destruct (IH c1 a1 Hc1 V1) as [K1 K2 (fs & K3 & K4 & K5) K6 K7].
    assert (Hmod : forall t, ((c1 + t) mod size = (cur + S t) mod size)%nat).
    { intros t. subst c1. rewrite Nat.Div0.add_mod_idemp_l. f_equal. lia. }
    split; [done| | | |].
    + rewrite K2. apply Hmod.
    + exists (filter (due now) b ++ fs). rewrite K3, V2, <- app_assoc. split; [done|]. split.
      * apply Forall_app. split; [|done]. apply Forall_forall. intros x Hx.
        by apply list_elem_of_filter in Hx as [? _].
      * rewrite V4, K5, fmap_app. by rewrite <- app_assoc.
    + intros [|t] Ht; [lia|]. destruct (decide (t = 0)%nat) as [->|Hne].
      * destruct (K7 c1) as [E|E]; fold c1; [done|]. rewrite E, V3. by rewrite decide_True.
      * rewrite <- Hmod. apply K6. lia.
    + intros i. destruct (K7 i) as [E|E]; [by left|]. rewrite E, V3. case_decide; [by left|by right].
Qed.

End tick.

(** ** Ticks fire what is due *)

Lemma tick_walked w now :
  wheel_wf w ->
  exists a', walked (wheel_size w) now (tick_slots w now) (current_slot w)
    (mkWalk (buckets w) [] None (free_list w)) (current_slot (timer_tick w now).2) a' /\
    (timer_tick w now).1 = w_fired a' /\ buckets (timer_tick w now).2 = w_buckets a' /\
    wheel_size (timer_tick w now).2 = wheel_size w /\ tick_ms (timer_tick w now).2 = tick_ms w /\
    current_time_ms (timer_tick w now).2 = now /\
    a' = (visit_slots (tick_slots w now) (wheel_size w) (tick_ms w) now
            (current_slot w, mkWalk (buckets w) [] None (free_list w))).2.
Proof.
  intros [H1 H2 H3 H4]. unfold timer_tick.
  pose proof (visit_slots_spec (wheel_size w) (tick_ms w) now H1 (tick_slots w now) (current_slot w)
    (mkWalk (buckets w) [] None (free_list w)) H3 H4) as Hw.
  destruct (visit_slots _ _ _ _ _) as [cur a']. exists a'. done.
Qed.

(** A tick loses nothing and fires nothing early.  Whatever the time, the
    timers in the wheel before the tick are, each exactly once and with address,
    process, callback and deadline unchanged, the fired ones together with the
    ones still in the wheel; every fired timer's deadline has passed; and the
    wheel stays well formed, so that every pending timer is in the bucket its
    [slot] names, where [timer_cancel] will look for it. *)
Theorem timer_tick_conserves w now :
  wheel_wf w ->
  let (fired, w') := timer_tick w now in
  wheel_wf w' /\ Forall (due now) fired /\
  te_key <$> concat (buckets w) ≡ₚ (te_key <$> fired) ++ (te_key <$> concat (buckets w')).
Proof.
  intros Hw. destruct (tick_walked w now Hw) as (a' & [K1 K2 (fs & K3 & K4 & K5) _ _] & E1 & E2 & E3 & E4 & _).
  destruct (timer_tick w now) as [fired w']. simpl in *. subst fired. rewrite K3. simpl.
  rewrite E2. split; [|done]. destruct Hw. split; rewrite ?E2, ?E3, ?E4; try done.
  rewrite K2. apply Nat.mod_upper_bound. lia.
Qed.

Lemma elem_of_bucket bs i e : e ∈ bucket bs i <-> exists b, bs !! i = Some b /\ e ∈ b.
Proof.
  unfold bucket. destruct (bs !! i) as [b|]; simpl; [naive_solver|].
  split; [by intros ?%not_elem_of_nil|naive_solver].
Qed.

Lemma no_due_left now bs i e :
  filter (due now) (bucket bs i) = [] -> e ∈ bucket bs i -> ~ due now e.
Proof. intros E He Hd. apply (not_elem_of_nil e). rewrite <- E. by apply list_elem_of_filter. Qed.

(** A timer is in one bucket only. *)
Lemma one_bucket size bs i j e e' :
  buckets_ok size bs -> e ∈ bucket bs i -> e' ∈ bucket bs j -> te_addr e' = te_addr e -> e' = e /\ j = i.
Proof.
  intros Hok (b & Hb & He)%elem_of_bucket (b' & Hb' & He')%elem_of_bucket Ha.
  assert (e' = e) as ->.
  { apply (NoDup_fmap_unique te_addr (concat bs)); [apply Hok| | |done]; apply elem_of_concat; eauto. }
  split; [done|]. destruct (bk_slot _ _ Hok _ _ _ Hb He) as [<- _].
  by destruct (bk_slot _ _ Hok _ _ _ Hb' He') as [<- _].
Qed.

(** Every slot is at most one rotation ahead. *)
Lemma slot_ahead c n i :
  (c < n)%nat -> (i < n)%nat -> exists t, (1 <= t <= n)%nat /\ ((c + t) mod n = i)%nat.
Proof.
  intros Hc Hi. destruct (decide (i <= c)%nat).
  - exists (i + n - c)%nat. split; [lia|].
    replace (c + (i + n - c))%nat with (i + 1 * n)%nat by lia. rewrite Nat.Div0.mod_add. by apply Nat.mod_small.
  - exists (i - c)%nat. split; [lia|]. replace (c + (i - c))%nat with i by lia. by apply Nat.mod_small.
Qed.

Lemma tick_slots_rotation w now :
  wheel_wf w -> Z.of_nat (wheel_size w) * tick_ms w <= u64 (now - current_time_ms w) ->
  tick_slots w now = wheel_size w.
Proof.
  intros [Hs Ht _ _] Hel. unfold tick_slots.
  assert (Z.of_nat (wheel_size w) <= u64 (now - current_time_ms w) / tick_ms w)
    by (apply Z.div_le_lower_bound; lia).
  replace (u64 (now - current_time_ms w) / tick_ms w =? 0) with false by lia. simpl.
  destruct (Z.ltb_spec (Z.of_nat (wheel_size w)) (u64 (now - current_time_ms w) / tick_ms w)); lia.
Qed.

(** C38: a tick fires every due timer it passes.  A timer whose deadline has passed
    and whose bucket is among the slots the tick advances over is fired by that
    tick.  In particular, when a whole rotation or more has elapsed since the
    last tick, no timer that remains is due.  The wheel is a well-formed one
    ([wheel_wf]), as every sequence of operations leaves it. *)
Theorem timer_tick_fires_due w now :
  wheel_wf w ->
  let (fired, w') := timer_tick w now in
  (forall t e, (1 <= t <= tick_slots w now)%nat ->
     e ∈ bucket (buckets w) ((current_slot w + t) mod wheel_size w) -> due now e ->
     te_key e ∈ te_key <$> fired) /\
  (Z.of_nat (wheel_size w) * tick_ms w <= u64 (now - current_time_ms w) ->
     Forall (fun e => ~ due now e) (concat (buckets w'))).
Proof.
  intros Hw. pose proof Hw as [_ _ Hc Hok].
  destruct (tick_walked w now Hw) as (a' & [K1 K2 (fs & K3 & K4 & K5) K6 K7] & E1 & E2 & _).
  destruct (timer_tick w now) as [fired w']. simpl in *. subst fired. rewrite K3, E2. simpl. split.
  - intros t e Ht He Hd.
    assert (Hk : te_key e ∈ te_key <$> concat (buckets w)).
    { apply list_elem_of_fmap_2, elem_of_concat. apply elem_of_bucket in He as (b & ? & ?). eauto. }
    rewrite K5 in Hk. apply elem_of_app in Hk as [Hk|Hk]; [done|exfalso].
    apply list_elem_of_fmap in Hk as (e' & Hkey & (i & b & Hi & Hb)%elem_of_concat).
    injection Hkey as Ha _ _ Hdl. rewrite <- (bucket_lookup _ _ _ Hi) in Hb.
    assert (Hd' : due now e') by (unfold due in *; congruence).
    destruct (K7 i) as [E|E]; [by eapply (no_due_left now _ i e')|].
    assert (Hf : e' ∈ filter (due now) (bucket (buckets w) i)) by (rewrite <- E; by apply list_elem_of_filter).
    apply list_elem_of_filter in Hf as [_ Hf].
    destruct (one_bucket _ _ _ _ _ _ Hok He Hf (eq_sym Ha)) as [-> ->].
    by eapply (no_due_left now _ _ e); [by apply K6|..].
  - intros Hel%tick_slots_rotation; [|done].
    apply Forall_forall. intros e (i & b & Hi & He)%elem_of_concat.
    assert (Hil : (i < wheel_size w)%nat) by (rewrite <- (bk_length _ _ K1); by eapply lookup_lt_Some).
    destruct (slot_ahead _ _ _ Hc Hil) as (t & Ht & <-). rewrite <- (bucket_lookup _ _ _ Hi) in He.
    eapply no_due_left; [|exact He]. apply K6. lia.
Qed.

(** ** The cached deadline *)

(** [min_deadline] is a lower bound of the pending deadlines, and 0 only when
    nothing is pending. *)
Definition min_ok (w : TimerWheel) : Prop :=
  0 <= min_deadline w /\
  forall e, e ∈ concat (buckets w) -> 0 < min_deadline w <= deadline_ms e.

Lemma min_with_le m d x : min_with m d = Some x -> x <= d /\ forall y, m = Some y -> x <= y.
Proof.
  unfold min_with. destruct m as [y|]; intros [= <-].
  - destruct (Z.ltb_spec d y); (split; [lia|]); intros ? [= <-]; lia.
  - split; [lia|done].
Qed.

Lemma scan_min_spec es : forall m,
  Forall (fun e => cancelled e = false /\ 0 < deadline_ms e) es -> (forall y, m = Some y -> 0 < y) ->
  (forall e, e ∈ es -> exists x, scan_min m es = Some x /\ 0 < x <= deadline_ms e) /\
  (forall y, m = Some y -> exists x, scan_min m es = Some x /\ 0 < x <= y) /\
  0 <= default 0 (scan_min m es).
Proof.
  induction es as [|e es IH]; intros m Hes Hm.
  - split; [by intros e ?%not_elem_of_nil|]. simpl. split.
    + intros y ->. exists y. split; [done|]. specialize (Hm y eq_refl). lia.
    + destruct m as [y|]; simpl; [|done]. specialize (Hm y eq_refl). lia.
  - apply Forall_cons in Hes as [[Hc Hd] Hes]. unfold scan_min in *. simpl. rewrite Hc.
    destruct (min_with m (deadline_ms e)) as [z|] eqn:Ez; [|by destruct m].
    destruct (min_with_le _ _ _ Ez) as [Hzd Hzm].
    assert (Hz : 0 < z).
    { destruct m as [y|]; injection Ez as <-; [|done]. specialize (Hm y eq_refl). case_match; lia. }
    destruct (IH (Some z) Hes) as (IH1 & IH2 & IH3); [by intros y [= <-]|].
    destruct (IH2 z eq_refl) as (x & Hx & Hxz). split_and!; [| |exact IH3].
    + intros e' [->|He']%elem_of_cons; [|by apply IH1]. exists x. split; [done|]. lia.
    + intros y Hy. exists x. split; [done|]. specialize (Hzm y Hy). lia.
Qed.

Lemma buckets_ok_active size bs e : buckets_ok size bs -> e ∈ concat bs -> cancelled e = false.
Proof. intros Hok (i & b & Hi & He)%elem_of_concat. by apply (bk_slot _ _ Hok i b e). Qed.

Lemma visit_min_pos size tick cur now es : forall a,
  Forall (fun e => 0 < deadline_ms e) es -> (forall y, w_min a = Some y -> 0 < y) ->
  forall y, w_min (foldl (visit size tick cur now) a es) = Some y -> 0 < y.
Proof.
  induction es as [|e es IH]; intros a Hes Ha; [exact Ha|].
  apply Forall_cons in Hes as [He Hes]. simpl. apply IH; [done|].
  unfold visit. repeat case_match; simpl; try exact Ha; intros y Hy;
    destruct (w_min a) as [z|]; simplify_eq/=; try lia; specialize (Ha z eq_refl); case_match; lia.
Qed.

(** Deadlines only depend on the keys. *)
Lemma keys_deadline es es' e :
  te_key <$> es ≡ₚ te_key <$> es' -> e ∈ es -> exists e', e' ∈ es' /\ deadline_ms e' = deadline_ms e.
Proof.
  intros HP He. assert (Hk : te_key e ∈ te_key <$> es') by (rewrite <- HP; by apply list_elem_of_fmap_2).
  apply list_elem_of_fmap in Hk as (e' & Hk & He'). exists e'. split; [done|]. by injection Hk.
Qed.

Lemma visit_slots_min_pos n size tick now : (0 < size)%nat -> forall cur a,
  (cur < size)%nat -> buckets_ok size (w_buckets a) ->
  (forall e, e ∈ concat (w_buckets a) -> 0 < deadline_ms e) -> (forall y, w_min a = Some y -> 0 < y) ->
  forall y, w_min (visit_slots n size tick now (cur, a)).2 = Some y -> 0 < y.
Proof.
  intros Hs. induction n as [|n IH]; intros cur a Hcur Hok Hpos Ha; cbn [visit_slots]; [exact Ha|].
  unfold visit_slot. simpl. set (c1 := ((cur + 1) mod size)%nat).
  assert (Hc1 : (c1 < size)%nat) by (apply Nat.mod_upper_bound; lia).
  destruct (lookup_lt_is_Some_2 (w_buckets a) c1) as [b Hb]; [rewrite (bk_length _ _ Hok); lia|].
  rewrite (bucket_lookup _ _ _ Hb).
  destruct (visit_entries size tick c1 now Hs b [] a Hok Hb ltac:(constructor)) as [V1 _ _ V4 _].
  apply IH; [done|done| |].
  - intros e He. assert (Hk : te_key e ∈ te_key <$> concat (w_buckets a)).
    { rewrite V4. apply elem_of_app. right. by apply list_elem_of_fmap_2. }
    apply list_elem_of_fmap in Hk as (e' & Hk & He'). injection Hk as _ _ _ ->. by apply Hpos.
  - apply visit_min_pos; [|done]. apply Forall_forall. intros e He. apply Hpos, elem_of_concat. eauto.
Qed.

Lemma timer_tick_min_ok w now : wheel_wf w -> min_ok w -> min_ok (timer_tick w now).2.
Proof.
  intros Hw Hm. pose proof Hw as [Hs Ht Hc Hok].
  assert (Hpos : forall e, e ∈ concat (buckets w) -> 0 < deadline_ms e).
  { intros e He. destruct Hm as [_ Hm]. specialize (Hm e He). lia. }
  destruct (tick_walked w now Hw) as (a' & [K1 _ (fs & K3 & _ & K5) _ _] & _ & _ & _ & _ & _ & Ea).
  pose proof (visit_slots_min_pos (tick_slots w now) _ (tick_ms w) now Hs (current_slot w)
    (mkWalk (buckets w) [] None (free_list w)) Hc Hok Hpos ltac:(done)) as Hmp.
  unfold timer_tick in *. destruct (visit_slots _ _ _ _ _) as [cur a]. simpl in *. subst a'.
  assert (Hkeep : forall e, e ∈ concat (w_buckets a) -> exists e', e' ∈ concat (buckets w) /\ deadline_ms e' = deadline_ms e).
  { intros e He. destruct (keys_deadline (fs ++ concat (w_buckets a)) (concat (buckets w)) e) as (e' & H1 & H2).
    - by rewrite K5, fmap_app.
    - apply elem_of_app. by right.
    - eauto. }
  destruct (scan_min_spec (concat (w_buckets a)) (w_min a)) as (Hsc & _ & Hsn); [|exact Hmp|].
  { apply Forall_forall. intros x Hx. split; [by eapply buckets_ok_active|].
    destruct (Hkeep x Hx) as (x0 & Hx0 & <-). by apply Hpos. }
  unfold min_ok. simpl. destruct (0 <? length (w_fired a))%nat.
  - split; [done|]. intros e He. destruct (Hsc e He) as (x & -> & Hx). done.
  - split; [apply Hm|]. intros e He. destruct (Hkeep e He) as (e0 & He0 & Hd0). rewrite <- Hd0. by apply Hm.
Qed.

(** ** Adding and cancelling *)

Lemma timer_alloc_keeps w m :
  let w' := (timer_entry_alloc w m).2 in
  buckets w' = buckets w /\ wheel_size w' = wheel_size w /\ tick_ms w' = tick_ms w /\
  current_slot w' = current_slot w /\ min_deadline w' = min_deadline w.
Proof. unfold timer_entry_alloc. repeat case_match; done. Qed.

Lemma timer_add_spec w m now p timeout cb :
  wheel_wf w -> min_ok w -> 0 < now <= UINT64_MAX -> 0 <= timeout ->
  (timer_entry_alloc w m).1 <> NULL -> (timer_entry_alloc w m).1 ∉ te_addr <$> concat (buckets w) ->
  exists e w', timer_add w m now p timeout cb = (Some e, w') /\
    te_key e = ((timer_entry_alloc w m).1, p, cb, Z.min (now + timeout) UINT64_MAX) /\
    wheel_wf w' /\ min_ok w' /\ concat (buckets w') ≡ₚ e :: concat (buckets w).
Proof.
  intros [Hs Ht Hc Hok] Hm Hnow Hto Hnn Hfr. pose proof (timer_alloc_keeps w m) as (B1 & B2 & B3 & B4 & B5).
  unfold timer_add. destruct (timer_entry_alloc w m) as [a w1]. simpl in *.
  rewrite (proj2 (Z.eqb_neq _ _) Hnn), B1, B2, B3, B4, B5.
  set (s := wheel_mod _ _). set (d := if UINT64_MAX - now <? timeout then _ else _).
  assert (Hd : d = Z.min (now + timeout) UINT64_MAX).
  { subst d. destruct (Z.ltb_spec (UINT64_MAX - now) timeout); lia. }
  set (e := mkTimer a p cb d false s).
  destruct (put_in (wheel_size w) (buckets w) s e Hok) as [Hok' HP]; [by apply wheel_mod_lt|done..|].
  eexists e, _. split; [reflexivity|]. split; [unfold te_key; simpl; by rewrite Hd|]. split; [|split].
  - split; simpl; rewrite ?B2, ?B3, ?B4; done.
  - assert (Hd0 : 0 < d) by (unfold UINT64_MAX in *; lia). destruct Hm as [Hm0 Hm].
    unfold min_ok. simpl. destruct (Z.eqb_spec (min_deadline w) 0), (Z.ltb_spec d (min_deadline w)); simpl;
      (split; [lia|]); intros x Hx; rewrite HP in Hx;
      (apply elem_of_cons in Hx as [->|Hx]; [simpl; lia|specialize (Hm x Hx); lia]).
  - exact HP.
Qed.

Lemma find_entry_hit w e :
  wheel_wf w -> e ∈ concat (buckets w) -> find_entry w (te_addr e) = Some e.
Proof.
  intros [_ _ _ [_ _ Hnd]] He. unfold find_entry. induction (concat (buckets w)) as [|x l IH].
  - by apply not_elem_of_nil in He.
  - simpl in *. apply NoDup_cons in Hnd as [Hx Hnd]. apply elem_of_cons in He as [->|He].
    + by rewrite Z.eqb_refl.
    + destruct (Z.eqb_spec (te_addr x) (te_addr e)) as [E|E]; [|by apply IH].
      exfalso. apply Hx. rewrite E. by apply list_elem_of_fmap_2.
Qed.

Lemma timer_cancel_spec w e :
  wheel_wf w -> min_ok w -> e ∈ concat (buckets w) ->
  exists w', timer_cancel w (te_addr e) = Some (true, w') /\ wheel_wf w' /\ min_ok w' /\
    concat (buckets w) ≡ₚ e :: concat (buckets w').
Proof.
  intros Hw Hm He. pose proof Hw as [Hs Ht Hc Hok]. unfold timer_cancel.
  rewrite (find_entry_hit w e Hw He), (buckets_ok_active _ _ _ Hok He).
  apply elem_of_concat in He as (i & b & Hi & Hb).
  destruct (bk_slot _ _ Hok i b e Hi Hb) as [-> _].
  assert (Hlt : (i < wheel_size w)%nat) by (rewrite <- (bk_length _ _ Hok); by eapply lookup_lt_Some).
  apply Nat.ltb_lt in Hlt as ->. eexists. split; [reflexivity|].
  apply list_elem_of_split in Hb as (kept & rest & ->).
  destruct (take_out _ _ _ _ _ _ Hok Hi) as [Hok' HP].
  rewrite (remove_entry _ _ _ _ _ _ Hok Hi). split; [by split|]. split; [|exact HP].
  split; [apply Hm|]. intros x Hx. simpl in *. apply Hm. rewrite HP. by right.
Qed.

(** C8: The timer wheel's contract.  In a wheel that is well formed and whose cached
    minimum is a lower bound of the pending deadlines, adding a timer that could
    be allocated adds exactly that timer, with the deadline [now + timeout]
    saturated at the largest 64-bit number; a tick and a cancellation keep both
    conditions, so that a scheduler that sleeps until [timer_next_deadline]
    never sleeps past a deadline; and cancelling any pending timer succeeds and
    removes exactly that timer. *)
Theorem timer_wheel_contract w m now p timeout cb :
  wheel_wf w -> min_ok w -> 0 < now <= UINT64_MAX -> 0 <= timeout ->
  (timer_entry_alloc w m).1 <> NULL -> (timer_entry_alloc w m).1 ∉ te_addr <$> concat (buckets w) ->
  (exists e w', timer_add w m now p timeout cb = (Some e, w') /\
     te_key e = ((timer_entry_alloc w m).1, p, cb, Z.min (now + timeout) UINT64_MAX) /\
     wheel_wf w' /\ min_ok w' /\ concat (buckets w') ≡ₚ e :: concat (buckets w) /\
     timer_next_deadline w' <= deadline_ms e) /\
  (forall t, wheel_wf (timer_tick w t).2 /\ min_ok (timer_tick w t).2) /\
  (forall e, e ∈ concat (buckets w) ->
     exists w', timer_cancel w (te_addr e) = Some (true, w') /\ wheel_wf w' /\ min_ok w' /\
       concat (buckets w) ≡ₚ e :: concat (buckets w')).
Proof.
  intros Hw Hm Hnow Hto Hnn Hfr. split; [|split].
  - destruct (timer_add_spec w m now p timeout cb Hw Hm Hnow Hto Hnn Hfr) as (e & w' & E & K & W & M & P).
    exists e, w'. do 5 (split; [done|]). apply M. rewrite P. left.
  - intros t. split; [|by apply timer_tick_min_ok].
    destruct (tick_walked w t Hw) as (a' & [K1 K2 _ _ _] & _ & E2 & E3 & E4 & _). destruct Hw.
    split; rewrite ?E2, ?E3, ?E4; try done. rewrite K2. apply Nat.mod_upper_bound. lia.
  - intros e He. by apply timer_cancel_spec.
Qed.

(** ** A concrete wheel *)

Lemma timer_wheel_new_ok size tick now :
  (0 < size)%nat -> 0 < tick ->
  wheel_wf (timer_wheel_new (Some (mkConfig size tick)) now) /\
  min_ok (timer_wheel_new (Some (mkConfig size tick)) now) /\
  concat (buckets (timer_wheel_new (Some (mkConfig size tick)) now)) = [].
Proof.
  intros Hs Ht. assert (E : concat (replicate size []) = @nil TimerEntry) by (clear; by induction size).
  split; [|split].
  - split; simpl; try done. apply buckets_ok_replicate.
  - split; [done|]. intros e He. simpl in He. rewrite E in He. by apply not_elem_of_nil in He.
  - exact E.
Qed.

(** Eight slots of 10 ms at time 1000, a timer for 30 ms. *)
Definition wheel0 : TimerWheel := timer_wheel_new (Some (mkConfig 8 10)) 1000.
Definition wheel1 : TimerWheel := (timer_add wheel0 64 1000 7 30 0).2.

Lemma wheel1_ok : wheel_wf wheel1 /\ min_ok wheel1.
Proof.
  destruct (timer_wheel_new_ok 8 10 1000 ltac:(lia) ltac:(lia)) as (H1 & H2 & H3).
  destruct (timer_add_spec wheel0 64 1000 7 30 0) as (e & w' & E & _ & W & M & _).
  - exact H1.
  - exact H2.
  - unfold UINT64_MAX. lia.
  - lia.
  - discriminate.
  - replace (concat (buckets wheel0)) with (@nil TimerEntry) by done. apply not_elem_of_nil.
  - unfold wheel1. rewrite E. done.
Qed.

Lemma timer_wheel_contract_witness :
  exists e w', timer_add wheel1 80 1005 9 100 0 = (Some e, w') /\ wheel_wf w' /\
    deadline_ms e = 1105 /\ timer_next_deadline w' <= 1105.
Proof.
  destruct wheel1_ok as [W M].
  destruct (timer_wheel_contract wheel1 80 1005 9 100 0 W M) as ((e & w' & E & K & W' & _ & _ & Hn) & _).
  - unfold UINT64_MAX. lia.
  - lia.
  - discriminate.
  - vm_compute. intros H. apply elem_of_cons in H as [H|H]; [discriminate|]. by apply not_elem_of_nil in H.
  - injection K as _ _ _ Kd. change (deadline_ms e = 1105) in Kd.
    exists e, w'. split; [exact E|]. split; [exact W'|]. split; [exact Kd|]. by rewrite <- Kd.
Defined.

Lemma timer_tick_conserves_witness :
  let (fired, w') := timer_tick wheel1 1030 in
  (wheel_wf w' /\ Forall (due 1030) fired /\
   te_key <$> concat (buckets wheel1) ≡ₚ (te_key <$> fired) ++ (te_key <$> concat (buckets w'))) /\
  te_key <$> fired = [(64, 7, 0, 1030)] /\ timer_has_pending w' = false.
Proof.
  pose proof (timer_tick_conserves wheel1 1030 (proj1 wheel1_ok)) as H.
  destruct (timer_tick wheel1 1030) as [fired w'] eqn:E. split; [exact H|].
  vm_compute in E. injection E as <- <-. split; reflexivity.
Defined.

Lemma timer_tick_fires_due_witness :
  let (fired, w') := timer_tick wheel1 1080 in
  Forall (fun e => ~ due 1080 e) (concat (buckets w')) /\ te_key <$> fired = [(64, 7, 0, 1030)].
Proof.
  pose proof (timer_tick_fires_due wheel1 1080 (proj1 wheel1_ok)) as H.
  destruct (timer_tick wheel1 1080) as [fired w'] eqn:E. split.
  - apply H. vm_compute. discriminate.
  - vm_compute in E. injection E as <- <-. reflexivity.
Defined.

(** The cached minimum outlives its timer.  [timer_cancel] does not recompute
    [min_deadline]: when the only timer is cancelled nothing is pending, yet
    [timer_next_deadline] still reports the cancelled deadline, and no later
    tick corrects it as long as no timer fires. *)
Theorem timer_cancel_stale_deadline now p timeout cb size tick a :
  (0 < size)%nat -> 0 < tick -> 0 < now <= UINT64_MAX -> 0 <= timeout -> a <> NULL ->
  exists w1 w2, timer_add (timer_wheel_new (Some (mkConfig size tick)) now) a now p timeout cb = w1 /\
    timer_cancel w1.2 a = Some (true, w2) /\
    concat (buckets w2) = [] /\ timer_next_deadline w2 = Z.min (now + timeout) UINT64_MAX /\
    forall t, concat (buckets (timer_tick w2 t).2) = [] /\
      timer_next_deadline (timer_tick w2 t).2 = Z.min (now + timeout) UINT64_MAX.
Proof.
  intros Hs Ht Hnow Hto Ha. destruct (timer_wheel_new_ok size tick now Hs Ht) as (W0 & M0 & C0).
  set (w0 := timer_wheel_new _ _) in *.
  destruct (timer_add_spec w0 a now p timeout cb W0 M0 Hnow Hto) as (e & w1 & E & K & W1 & M1 & P1).
  { unfold timer_entry_alloc. simpl. by rewrite (proj2 (Z.eqb_neq _ _) Ha). }
  { rewrite C0. apply not_elem_of_nil. }
  rewrite C0 in P1. apply Permutation_singleton_r in P1.
  destruct (timer_cancel_spec w1 e W1 M1) as (w2 & E2 & W2 & M2 & P2); [rewrite P1; left|].
  injection K as Ka _ _ Kd. unfold timer_entry_alloc in Ka. simpl in Ka.
  rewrite (proj2 (Z.eqb_neq _ _) Ha) in Ka. simpl in Ka.
  assert (Hmin : min_deadline w2 = Z.min (now + timeout) UINT64_MAX).
  { rewrite <- Kd. unfold timer_add, timer_entry_alloc in E. simpl in E.
    rewrite !(proj2 (Z.eqb_neq _ _) Ha) in E.
    injection E as <- <-. unfold timer_cancel in E2. repeat case_match; by simplify_eq/=. }
  assert (Hnil : concat (buckets w2) = []).
  { rewrite P1 in P2. apply Permutation_length in P2. simpl in P2. by destruct (concat (buckets w2)). }
  exists (Some e, w1), w2. split; [done|]. split; [by rewrite <- Ka|]. split; [done|]. split; [done|].
  intros t. destruct (tick_walked w2 t W2) as (a' & [_ _ (fs & K3 & _ & K5) _ _] & F1 & F2 & _).
  simpl in K3, K5. rewrite Hnil in K5. apply Permutation_nil_l in K5. symmetry in K5.
  apply app_eq_nil in K5 as [Kf Kb]. apply fmap_nil_inv in Kf, Kb. rewrite Kf in K3. split; [by rewrite F2|].
  unfold timer_next_deadline, timer_tick in *. destruct (visit_slots _ _ _ _ _) as [cur b]. simpl in *.
  by rewrite F1, K3.
Qed.

Lemma timer_cancel_stale_deadline_witness :
  exists w1 w2, timer_add wheel0 64 1000 7 30 0 = w1 /\ timer_cancel w1.2 64 = Some (true, w2) /\
    concat (buckets w2) = [] /\ timer_next_deadline w2 = 1030.
Proof.
  destruct (timer_cancel_stale_deadline 1000 7 30 0 8 10 64) as (w1 & w2 & E1 & E2 & E3 & E4 & _);
    [lia|lia|unfold UINT64_MAX; lia|lia|discriminate|].
  exists w1, w2. split; [exact E1|]. split; [exact E2|]. split; [exact E3|exact E4].
Defined.
