(* ===== verification/ProcGroup.v ===== *)
(** * Process groups (src/runtime/procgroup.c, src/runtime/procgroup.h)

    The registry of named groups and their members.  Names are C strings; a
    group keeps its name in an array of [GROUP_NAME_MAX] bytes. *)

From Stdlib Require Import ZArith Lia.
From stdpp Require Import base list numbers gmap.
From S2P Require Import Prelude Hash HashMap Value Array MapValue Mailbox PidVec Block.
Local Open Scope Z_scope.

Definition GROUP_NAME_MAX : nat := 64.

Record ProcessGroup := mkGroup { g_name : list Z; g_members : PidVec }.
Record ProcessGroupRegistry := mkRegistry { groups : list ProcessGroup; g_count : Z }.

Definition procgroup_registry_new : ProcessGroupRegistry := mkRegistry [] 0.

(** [strncpy(group->name, name, 63); group->name[63] = 0] *)
Definition group_new (name : list Z) : ProcessGroup :=
  mkGroup (take (GROUP_NAME_MAX - 1) (cstr name)) vec_empty.

(** [strcmp(group->name, name) == 0] *)
Definition group_matches (name : list Z) (g : ProcessGroup) : bool := bool_decide (g_name g = cstr name).

Definition find_group (reg : ProcessGroupRegistry) (name : list Z) : option nat :=
  find_index (group_matches name) (groups reg).

(** [between]: what other threads do to the registry after the read lock is
    released and before the write lock is taken.  The result is the position of
    the group. *)
Definition procgroup_get_or_create (between : ProcessGroupRegistry -> ProcessGroupRegistry) (alloc_ok : bool)
    (reg : ProcessGroupRegistry) (name : list Z) : option nat * ProcessGroupRegistry :=
  match find_group reg name with
  | Some i => (Some i, reg)
  | None =>
      let reg := between reg in
      match find_group reg name with
      | Some i => (Some i, reg)
      | None =>
          if alloc_ok
          then (Some O, mkRegistry (group_new name :: groups reg) (u64 (g_count reg + 1)))
          else (None, reg)
      end
  end.

Definition procgroup_get (reg : ProcessGroupRegistry) (name : list Z) : option nat := find_group reg name.

Definition procgroup_delete (reg : ProcessGroupRegistry) (name : list Z) : bool * ProcessGroupRegistry :=
  match find_group reg name with
  | Some i => (true, mkRegistry (delete i (groups reg)) (u64 (g_count reg - 1)))
  | None => (false, reg)
  end.

(** The names array, when it can be allocated. *)
Definition procgroup_list (malloc_ok : bool) (reg : ProcessGroupRegistry) : option (list (list Z)) :=
  if g_count reg =? 0 then None
  else if malloc_ok then Some (take (Z.to_nat (g_count reg)) (g_name <$> groups reg)) else None.

(** ** Membership *)

Definition set_members (reg : ProcessGroupRegistry) (i : nat) (f : PidVec -> PidVec) : ProcessGroupRegistry :=
  mkRegistry (alter (fun g => mkGroup (g_name g) (f (g_members g))) i (groups reg)) (g_count reg).

Definition members_at (reg : ProcessGroupRegistry) (i : nat) : PidVec :=
  default vec_empty (g_members <$> groups reg !! i).

Definition procgroup_join (between : ProcessGroupRegistry -> ProcessGroupRegistry) (alloc_ok realloc_ok : bool)
    (reg : ProcessGroupRegistry) (name : list Z) (pid : Z) : bool * ProcessGroupRegistry :=
  match procgroup_get_or_create between alloc_ok reg name with
  | (None, reg) => (false, reg)
  | (Some i, reg) =>
      let (r, v) := vec_add u64 8 realloc_ok (members_at reg i) pid in
      (r, set_members reg i (fun _ => v))
  end.

Definition procgroup_leave (reg : ProcessGroupRegistry) (name : list Z) (pid : Z) : ProcessGroupRegistry :=
  match procgroup_get reg name with
  | None => reg
  | Some i => set_members reg i (fun v => (vec_remove v pid).2)
  end.

Definition procgroup_leave_all (reg : ProcessGroupRegistry) (pid : Z) : ProcessGroupRegistry :=
  mkRegistry ((fun g => mkGroup (g_name g) (vec_remove (g_members g) pid).2) <$> groups reg) (g_count reg).

Definition procgroup_is_member (reg : ProcessGroupRegistry) (name : list Z) (pid : Z) : bool :=
  match procgroup_get reg name with
  | None => false
  | Some i => vec_mem (members_at reg i) pid
  end.

(** [None] for the [NULL] result. *)
Definition procgroup_members (malloc_ok : bool) (reg : ProcessGroupRegistry) (name : list Z) : option (list Z) :=
  match procgroup_get reg name with
  | None => None
  | Some i =>
      let ms := items (members_at reg i) in
      if bool_decide (ms = []) then None else if malloc_ok then Some ms else None
  end.

Definition procgroup_member_count (reg : ProcessGroupRegistry) (name : list Z) : Z :=
  match procgroup_get reg name with
  | None => 0
  | Some i => Z.of_nat (length (items (members_at reg i)))
  end.

(** ** Broadcasting *)

(** The loop over a snapshot of the members.  [blocks] is the scheduler's table
    of blocks, [node] the message nodes [block_send] allocates. *)
Fixpoint broadcast_loop (depth : nat) (node : Z -> ptr) (skip : Z -> bool) (sender : Z) (message : ptr)
    (members : list Z) (blocks : gmap Z Block) (sent : Z) : M (Z * gmap Z Block) :=
  match members with
  | [] => mret (sent, blocks)
  | p :: members' =>
      if skip p then broadcast_loop depth node skip sender message members' blocks sent
      else match blocks !! p with
           | Some target =>
               if block_is_alive target then
                 block_send depth (node p) target sender message ≫= fun r : bool * Block =>
                 broadcast_loop depth node skip sender message members' (<[p := r.2]> blocks)
                   (if r.1 then u64 (sent + 1) else sent)
               else broadcast_loop depth node skip sender message members' blocks sent
           | None => broadcast_loop depth node skip sender message members' blocks sent
           end
  end.

Definition procgroup_broadcast (malloc_ok : bool) (depth : nat) (node : Z -> ptr) (reg : ProcessGroupRegistry)
    (blocks : gmap Z Block) (name : list Z) (sender : Z) (message : ptr) : M (Z * gmap Z Block) :=
  if message =? NULL then mret (0, blocks) else
  match procgroup_members malloc_ok reg name with
  | None => mret (0, blocks)
  | Some ms => broadcast_loop depth node (fun _ => false) sender message ms blocks 0
  end.

Definition procgroup_broadcast_others (malloc_ok : bool) (depth : nat) (node : Z -> ptr)
    (reg : ProcessGroupRegistry) (blocks : gmap Z Block) (name : list Z) (sender : Z) (message : ptr)
    : M (Z * gmap Z Block) :=
  if message =? NULL then mret (0, blocks) else
  match procgroup_members malloc_ok reg name with
  | None => mret (0, blocks)
  | Some ms => broadcast_loop depth node (fun p => p =? sender) sender message ms blocks 0
  end.

(** ** The registry as a finite map from names to sets *)

Record reg_wf (reg : ProcessGroupRegistry) : Prop := {
  rw_names : NoDup (g_name <$> groups reg);
  rw_members : Forall (fun g => vec_wf (g_members g)) (groups reg);
  rw_count : g_count reg = u64 (Z.of_nat (length (groups reg)))
}.

Definition group_pair (g : ProcessGroup) : list Z * gset Z := (g_name g, vec_set (g_members g)).
Definition to_groups (reg : ProcessGroupRegistry) : gmap (list Z) (gset Z) :=
  list_to_map (group_pair <$> groups reg).

(** Names that fit the array. *)
Definition short_name (name : list Z) : Prop := is_cstr name /\ (length name < GROUP_NAME_MAX)%nat.

(** Replacing the value of one key of an association list. *)
Lemma list_to_map_insert_at {V} (l : list (list Z * V)) i k v v' :
  NoDup l.*1 -> l !! i = Some (k, v) ->
  list_to_map (M := gmap (list Z) V) (<[i := (k, v')]> l) = <[k := v']> (list_to_map l).
Proof.
  revert i. induction l as [|[k0 v0] l IH]; intros [|i] Hnd Hi; simplify_eq/=.
  - by rewrite insert_insert_eq.
  - apply NoDup_cons in Hnd as [Hk Hnd]. rewrite (IH i) by done. apply insert_insert_ne.
    intros ->. apply Hk. apply (list_elem_of_fmap_2' fst _ (k, v)); [by eapply list_elem_of_lookup_2|done].
Qed.

Lemma group_pair_names gs : (group_pair <$> gs).*1 = g_name <$> gs.
Proof. by rewrite <- list_fmap_compose. Qed.

Lemma find_group_Some reg name i :
  is_cstr name -> find_group reg name = Some i ->
  exists g, groups reg !! i = Some g /\ g_name g = name.
Proof.
  intros Hn (g & Hg & Hm)%find_index_Some. exists g. split; [done|].
  unfold group_matches in Hm. apply bool_decide_eq_true in Hm. by rewrite Hm, is_cstr_cstr.
Qed.

Lemma find_group_None reg name :
  is_cstr name -> find_group reg name = None -> name ∉ g_name <$> groups reg.
Proof.
  intros Hn Hf Hin. apply find_index_None in Hf. rewrite Forall_forall in Hf.
  apply list_elem_of_fmap in Hin as (g & -> & Hg). specialize (Hf g Hg). simpl in Hf.
  unfold group_matches in Hf. apply bool_decide_eq_false in Hf. apply Hf. by rewrite is_cstr_cstr.
Qed.

Lemma to_groups_lookup reg i g :
  reg_wf reg -> groups reg !! i = Some g -> to_groups reg !! g_name g = Some (vec_set (g_members g)).
Proof.
  intros [Hn _ _] Hg. apply elem_of_list_to_map_1; [by rewrite group_pair_names|].
  apply (list_elem_of_fmap_2' group_pair _ g); [by eapply list_elem_of_lookup_2|done].
Qed.

Lemma to_groups_None reg name : name ∉ g_name <$> groups reg -> to_groups reg !! name = None.
Proof. intros H. apply not_elem_of_list_to_map_1. by rewrite group_pair_names. Qed.

(** Changing the members of the group at a position. *)
Lemma set_members_spec reg i g f :
  reg_wf reg -> groups reg !! i = Some g -> vec_wf (f (g_members g)) ->
  reg_wf (set_members reg i f) /\
  to_groups (set_members reg i f) = <[g_name g := vec_set (f (g_members g))]> (to_groups reg).
Proof.
  intros [Hn Hm Hc] Hg Hf. set (g' := mkGroup (g_name g) (f (g_members g))).
  assert (E : groups (set_members reg i f) = <[i := g']> (groups reg)).
  { simpl. apply list_eq. intros j. destruct (decide (i = j)) as [<-|Hne].
    - rewrite list_lookup_alter_eq, list_lookup_insert_eq, Hg; [done|]. by eapply lookup_lt_Some.
    - by rewrite list_lookup_alter_ne, list_lookup_insert_ne. }
  assert (En : g_name <$> <[i := g']> (groups reg) = g_name <$> groups reg).
  { rewrite list_fmap_insert. apply list_insert_id. by rewrite list_lookup_fmap, Hg. }
  split.
  - split; rewrite E.
    + by rewrite En.
    + by apply Forall_insert.
    + rewrite length_insert. exact Hc.
  - unfold to_groups. rewrite E, list_fmap_insert.
    apply (list_to_map_insert_at _ _ _ (vec_set (g_members g))); [by rewrite group_pair_names|].
    by rewrite list_lookup_fmap, Hg.
Qed.

Definition small_groups (reg : ProcessGroupRegistry) : Prop :=
  Forall (fun g => Z.of_nat (length (items (g_members g))) < 2 ^ 31) (groups reg).

(** The position of a group whose name is there or has just been created. *)
Lemma get_or_create_spec between reg name :
  reg_wf reg -> small_groups reg -> reg_wf (between reg) -> small_groups (between reg) -> short_name name ->
  exists i g reg', procgroup_get_or_create between true reg name = (Some i, reg') /\
    reg_wf reg' /\ small_groups reg' /\ groups reg' !! i = Some g /\ g_name g = name /\
    let R := if bool_decide (name ∈ g_name <$> groups reg) then to_groups reg else to_groups (between reg) in
    to_groups reg' = <[name := default ∅ (R !! name)]> R.
Proof.
  intros Hw Hs Hw' Hs' [Hn Hl]. unfold procgroup_get_or_create.
  destruct (find_group reg name) as [i|] eqn:E.
  { destruct (find_group_Some _ _ _ Hn E) as (g & Hg & <-). exists i, g, reg. split_and!; try done.
    assert (Hin : g_name g ∈ g_name <$> groups reg) by (by eapply list_elem_of_fmap_2, list_elem_of_lookup_2).
    rewrite bool_decide_true by done. simpl. rewrite (to_groups_lookup _ _ _ Hw Hg).
    symmetry. apply insert_id. by apply (to_groups_lookup _ i). }
  rewrite (bool_decide_false (name ∈ _)) by (by apply find_group_None).
  destruct (find_group (between reg) name) as [i|] eqn:E'.
  { destruct (find_group_Some _ _ _ Hn E') as (g & Hg & <-). exists i, g, (between reg). split_and!; try done.
    simpl. rewrite (to_groups_lookup _ _ _ Hw' Hg). symmetry. apply insert_id. by apply (to_groups_lookup _ i). }
  pose proof (find_group_None _ _ Hn E') as Hno.
  assert (Hname : g_name (group_new name) = name).
  { simpl. rewrite is_cstr_cstr by done. apply take_ge. unfold GROUP_NAME_MAX in *. lia. }
  destruct Hw' as [W1 W2 W3].
  eexists O, (group_new name), _. split; [reflexivity|]. split; [|split; [|split; [done|split; [done|]]]].
  - split; simpl groups; rewrite ?fmap_cons, ?Hname.
    + by apply NoDup_cons.
    + constructor; [apply vec_empty_wf|done].
    + simpl. rewrite W3, u64_succ. f_equal. lia.
  - constructor; [simpl; lia|done].
  - cbn zeta. rewrite to_groups_None by done. unfold to_groups. simpl groups.
    rewrite fmap_cons. cbn [list_to_map foldr]. unfold group_pair at 1. by rewrite Hname.
Qed.

(** Joining a group.  With names that fit a group's name array, [procgroup_join]
    adds the process to the set of the named group, creating the group when it
    does not exist, and keeps the registry well formed, with one group per name
    even when another thread has created the group between the two searches. *)
Theorem procgroup_join_refines between reg name p :
  reg_wf reg -> small_groups reg -> reg_wf (between reg) -> small_groups (between reg) -> short_name name ->
  exists reg', procgroup_join between true true reg name p = (true, reg') /\ reg_wf reg' /\
    (let R := if bool_decide (name ∈ g_name <$> groups reg) then to_groups reg else to_groups (between reg) in
     to_groups reg' = <[name := {[p]} ∪ default ∅ (R !! name)]> R).
Proof.
  intros Hw Hs Hw' Hs' Hn.
  destruct (get_or_create_spec between reg name Hw Hs Hw' Hs' Hn) as (i & g & r1 & E & W1 & S1 & Hg & Hgn & HR).
  unfold procgroup_join. rewrite E. unfold members_at. rewrite Hg. simpl.
  assert (Hgw : vec_wf (g_members g)).
  { pose proof (rw_members _ W1) as Hf. rewrite Forall_forall in Hf. by eapply Hf, list_elem_of_lookup_2. }
  assert (Hgs : Z.of_nat (length (items (g_members g))) < 2 ^ 31).
  { unfold small_groups in S1. rewrite Forall_forall in S1. by eapply S1, list_elem_of_lookup_2. }
  pose proof (vec_add_spec u64 8 true (g_members g) p) as Hv.
  destruct (vec_add u64 8 true (g_members g) p) as [r v].
  destruct Hv as (V1 & V2 & _ & V4); [intros x Hx; apply u64_small; unfold is_u32, is_u64 in *; lia|done|lia|done|].
  specialize (V4 eq_refl). subst r. specialize (V2 eq_refl).
  destruct (set_members_spec r1 i g (fun _ => v) W1 Hg V1) as [W2 HG].
  eexists. split; [reflexivity|]. split; [done|]. rewrite HG, V2, HR, Hgn.
  pose proof (to_groups_lookup _ _ _ W1 Hg) as Hlk. rewrite Hgn, HR, lookup_insert_eq in Hlk. injection Hlk as <-.
  by rewrite insert_insert_eq.
Qed.

Lemma delete_group_spec reg i g :
  reg_wf reg -> groups reg !! i = Some g ->
  let reg' := mkRegistry (delete i (groups reg)) (u64 (g_count reg - 1)) in
  reg_wf reg' /\ to_groups reg' = delete (g_name g) (to_groups reg).
Proof.
  intros [W1 W2 W3] Hg. pose proof (delete_Permutation _ _ _ Hg) as HP. simpl.
  pose proof (Permutation_length HP) as HL. set (gs := delete i (groups reg)) in *. split.
  - split; simpl.
    + rewrite HP in W1. by apply NoDup_cons in W1 as [_ ?].
    + rewrite HP in W2. by apply Forall_cons in W2 as [_ ?].
    + rewrite W3, HL, <- (u64_pred (Z.of_nat (length gs))). do 3 f_equal. simpl. lia.
  - unfold to_groups. simpl.
    rewrite (list_to_map_proper (group_pair <$> groups reg) (group_pair <$> g :: gs));
      [|by rewrite group_pair_names|by rewrite HP].
    simpl. rewrite delete_insert_id; [done|]. apply not_elem_of_list_to_map_1. rewrite group_pair_names.
    rewrite HP in W1. by apply NoDup_cons in W1 as [? _].
Qed.

Lemma reg_wf_member reg i g : reg_wf reg -> groups reg !! i = Some g -> vec_wf (g_members g).
Proof.
  intros Hw Hg. pose proof (rw_members _ Hw) as Hf. rewrite Forall_forall in Hf.
  by eapply Hf, list_elem_of_lookup_2.
Qed.

Lemma leave_spec reg name p :
  reg_wf reg -> is_cstr name ->
  reg_wf (procgroup_leave reg name p) /\
  to_groups (procgroup_leave reg name p) = alter (fun s => s ∖ {[p]}) name (to_groups reg).
Proof.
  intros Hw Hn. unfold procgroup_leave, procgroup_get. destruct (find_group reg name) as [i|] eqn:E.
  - destruct (find_group_Some _ _ _ Hn E) as (g & Hg & <-).
    pose proof (vec_remove_spec (g_members g) p (reg_wf_member _ _ _ Hw Hg)) as Hv.
    destruct (vec_remove (g_members g) p) as [r v] eqn:Ev. destruct Hv as (V1 & V2 & _).
    destruct (set_members_spec reg i g (fun v => (vec_remove v p).2) Hw Hg) as [W HG]; [by rewrite Ev|].
    split; [done|]. rewrite HG, Ev. simpl. rewrite V2. apply map_eq. intros k.
    destruct (decide (k = g_name g)) as [->|Hk].
    + by rewrite lookup_insert_eq, lookup_alter_eq, (to_groups_lookup _ _ _ Hw Hg).
    + by rewrite lookup_insert_ne, lookup_alter_ne.
  - split; [done|]. apply map_eq. intros k. destruct (decide (k = name)) as [->|Hk].
    + rewrite lookup_alter_eq. by rewrite (to_groups_None reg name (find_group_None _ _ Hn E)).
    + by rewrite lookup_alter_ne.
Qed.

Lemma leave_all_spec reg p :
  reg_wf reg ->
  reg_wf (procgroup_leave_all reg p) /\
  to_groups (procgroup_leave_all reg p) = (fun s => s ∖ {[p]}) <$> to_groups reg.
Proof.
  intros [W1 W2 W3]. unfold procgroup_leave_all. split.
  - split; simpl.
    + rewrite <- list_fmap_compose. exact W1.
    + apply Forall_fmap. eapply Forall_impl; [exact W2|]. intros g Hg. simpl.
      pose proof (vec_remove_spec _ p Hg) as Hv. destruct (vec_remove (g_members g) p); apply Hv.
    + by rewrite length_fmap.
  - unfold to_groups. simpl. clear W1 W3. induction (groups reg) as [|g gs IH]; [symmetry; apply fmap_empty|].
    apply Forall_cons in W2 as [Hg W2]. rewrite !fmap_cons. cbn [list_to_map foldr]. rewrite IH by done.
    simpl. rewrite fmap_insert. f_equal.
    pose proof (vec_remove_spec _ p Hg) as Hv. destruct (vec_remove (g_members g) p). apply Hv.
Qed.

Lemma is_member_spec reg name p :
  reg_wf reg -> is_cstr name ->
  procgroup_is_member reg name p = true <-> exists s, to_groups reg !! name = Some s /\ p ∈ s.
Proof.
  intros Hw Hn. unfold procgroup_is_member, procgroup_get. destruct (find_group reg name) as [i|] eqn:E.
  - destruct (find_group_Some _ _ _ Hn E) as (g & Hg & <-). unfold members_at. rewrite Hg. simpl.
    rewrite vec_mem_spec, (to_groups_lookup _ _ _ Hw Hg). naive_solver.
  - rewrite (to_groups_None reg name (find_group_None _ _ Hn E)). naive_solver.
Qed.

(** The other group operations.  Leaving removes the process from the named
    group, leaving all groups removes it from every group, deleting a group
    removes the name and reports whether it was there, and the membership test
    is set membership; all keep the registry well formed. *)
Theorem procgroup_ops_refine reg name p :
  reg_wf reg -> is_cstr name ->
  (reg_wf (procgroup_leave reg name p) /\
   to_groups (procgroup_leave reg name p) = alter (fun s => s ∖ {[p]}) name (to_groups reg)) /\
  (reg_wf (procgroup_leave_all reg p) /\
   to_groups (procgroup_leave_all reg p) = (fun s => s ∖ {[p]}) <$> to_groups reg) /\
  (let (r, reg') := procgroup_delete reg name in
   reg_wf reg' /\ to_groups reg' = delete name (to_groups reg) /\ (r = true <-> is_Some (to_groups reg !! name))) /\
  (procgroup_is_member reg name p = true <-> exists s, to_groups reg !! name = Some s /\ p ∈ s).
Proof.
  intros Hw Hn. split; [by apply leave_spec|]. split; [by apply leave_all_spec|]. split; [|by apply is_member_spec].
  unfold procgroup_delete. destruct (find_group reg name) as [i|] eqn:E.
  - destruct (find_group_Some _ _ _ Hn E) as (g & Hg & <-).
    destruct (delete_group_spec reg i g Hw Hg) as [W HG]. split; [done|]. split; [done|].
    rewrite (to_groups_lookup _ _ _ Hw Hg). done.
  - pose proof (to_groups_None reg name (find_group_None _ _ Hn E)) as HN.
    split; [done|]. split; [by rewrite delete_id|]. rewrite HN. split; [done|by intros []].
Qed.

(** Long names are lost.  [group_new] keeps 63 bytes of the name, but the
    searches compare the whole name: joining a group with a name of 64 bytes or
    more in a registry that is otherwise empty reports success and leaves a
    process that is no member of the named group, the name cannot be deleted,
    and a second join creates a second group. *)
Theorem procgroup_long_name_lost name p :
  is_cstr name -> (GROUP_NAME_MAX <= length name)%nat ->
  exists reg, procgroup_join id true true procgroup_registry_new name p = (true, reg) /\
    procgroup_is_member reg name p = false /\ procgroup_member_count reg name = 0 /\
    procgroup_delete reg name = (false, reg) /\
    g_count (procgroup_join id true true reg name p).2 = 2.
Proof.
  intros Hn Hl. unfold GROUP_NAME_MAX in Hl.
  assert (Hne : take 63 (cstr name) <> cstr name).
  { rewrite is_cstr_cstr by done. intros E. apply (f_equal length) in E. rewrite length_take in E. lia. }
  eexists. split; [reflexivity|]. set (reg := set_members _ _ _).
  assert (Hf : find_group reg name = None).
  { unfold find_group. simpl. unfold group_matches. simpl. rewrite bool_decide_false; done. }
  unfold procgroup_is_member, procgroup_member_count, procgroup_delete, procgroup_get. rewrite Hf.
  do 3 (split; [done|]). unfold procgroup_join, procgroup_get_or_create. rewrite Hf. simpl.
  change (id reg) with reg. rewrite Hf. simpl. reflexivity.
Qed.

Lemma procgroup_long_name_lost_witness :
  let name := replicate 64 97 in
  exists reg, procgroup_join id true true procgroup_registry_new name 5 = (true, reg) /\
    procgroup_is_member reg name 5 = false.
Proof.
  destruct (procgroup_long_name_lost (replicate 64 97) 5) as (reg & H1 & H2 & _).
  - apply Forall_replicate. lia.
  - rewrite length_replicate. unfold GROUP_NAME_MAX. lia.
  - exists reg. split; assumption.
Defined.

Lemma registry_new_ok : reg_wf procgroup_registry_new /\ small_groups procgroup_registry_new.
Proof. split; [split; [constructor|constructor|done]|constructor]. Qed.

Lemma procgroup_join_refines_witness :
  exists reg', procgroup_join id true true procgroup_registry_new [119; 111; 114; 107] 5 = (true, reg') /\
    to_groups reg' = <[[119; 111; 114; 107] := {[5]} ∪ ∅]> ∅.
Proof.
  destruct registry_new_ok as [W S].
  destruct (procgroup_join_refines id procgroup_registry_new [119; 111; 114; 107] 5 W S W S) as (reg' & E & _ & HG).
  - split; [repeat constructor; lia|simpl; unfold GROUP_NAME_MAX; lia].
  - exists reg'. split; [exact E|]. exact HG.
Defined.

Lemma procgroup_ops_refine_witness :
  let reg := (procgroup_join id true true procgroup_registry_new [119] 5).2 in
  to_groups (procgroup_leave_all reg 5) = (fun s => s ∖ {[5]}) <$> to_groups reg.
Proof.
  apply (procgroup_ops_refine (procgroup_join id true true procgroup_registry_new [119] 5).2 [119] 5).
  - split; [apply NoDup_singleton| |reflexivity].
    apply Forall_singleton. split; [vm_compute; discriminate|apply NoDup_singleton].
  - repeat constructor; lia.
Defined.
