(* ===== verification/Supervisor.v ===== *)
(** * Supervisors (src/runtime/supervisor.c, src/runtime/supervisor.h)

    Child specifications, restart limits, restart strategies and exit signals.
    The scheduler is an interface: [SchedulerOps] are the calls a supervisor
    makes, [SchedulerLaws] what it relies on.  Clock readings are arguments. *)

From Stdlib Require Import ZArith Lia String.
From stdpp Require Import base list numbers gmap.
From S2P Require Import Prelude Hash HashMap Value Array MapValue Mailbox PidVec Block.
Local Open Scope Z_scope.

Inductive RestartStrategy := RESTART_PERMANENT | RESTART_TRANSIENT | RESTART_TEMPORARY.
Inductive SupervisorStrategy := SUP_ONE_FOR_ONE | SUP_ONE_FOR_ALL | SUP_REST_FOR_ONE.
Inductive ExitReason := EXIT_NORMAL | EXIT_CRASH | EXIT_KILLED | EXIT_SHUTDOWN | EXIT_TIMEOUT.

#[global] Instance RestartStrategy_eq_dec : EqDecision RestartStrategy.
Proof. solve_decision. Defined.
#[global] Instance ExitReason_eq_dec : EqDecision ExitReason.
Proof. solve_decision. Defined.

Record ChildSpec := mkChild {
  cs_name : option (list Z);
  cs_code : option Z;            (** [init_code], by identity *)
  cs_restart : RestartStrategy;
  cs_max_restarts : Z;
  cs_restart_window_ms : Z;
  cs_pid : Z;
  cs_restart_count : Z;
  cs_window_start_ms : Z;
  cs_started_at_ms : Z
}.

Record Supervisor := mkSupervisor {
  strategy : SupervisorStrategy;
  max_restarts : Z;
  restart_window_ms : Z;
  children : list ChildSpec;
  child_capacity : Z;
  total_restart_count : Z;
  window_start_ms : Z;
  shutting_down : bool
}.

(** ** Child specifications *)

Definition child_spec_new (name : option (list Z)) (code : option Z) (restart : RestartStrategy) : ChildSpec :=
  mkChild name code restart 3 5000 PID_INVALID 0 0 0.

Definition set_window (c : ChildSpec) (count start : Z) : ChildSpec :=
  mkChild (cs_name c) (cs_code c) (cs_restart c) (cs_max_restarts c) (cs_restart_window_ms c) (cs_pid c)
    count start (cs_started_at_ms c).
Definition set_pid (c : ChildSpec) (p : Z) : ChildSpec :=
  mkChild (cs_name c) (cs_code c) (cs_restart c) (cs_max_restarts c) (cs_restart_window_ms c) p
    (cs_restart_count c) (cs_window_start_ms c) (cs_started_at_ms c).
Definition set_started (c : ChildSpec) (t : Z) : ChildSpec :=
  mkChild (cs_name c) (cs_code c) (cs_restart c) (cs_max_restarts c) (cs_restart_window_ms c) (cs_pid c)
    (cs_restart_count c) (cs_window_start_ms c) t.

(** A counter with a sliding window: the part [child_spec_can_restart] and
    [supervisor_handle_exit] have in common.  The result is the count and the
    start of the window after the window has been renewed if it is over. *)
Definition renew_window (window now count start : Z) : Z * Z :=
  let '(count, start) :=
    if (0 <? window) && (window <=? u64 (now - start)) then (0, now) else (count, start) in
  (count, if start =? 0 then now else start).

Definition child_spec_can_restart (now : Z) (c : ChildSpec) (reason : ExitReason) : bool * ChildSpec :=
  if decide (cs_restart c = RESTART_TEMPORARY) then (false, c)
  else if decide (cs_restart c = RESTART_TRANSIENT /\ reason = EXIT_NORMAL) then (false, c)
  else if cs_max_restarts c =? 0 then (true, c)
  else
    let '(count, start) :=
      renew_window (cs_restart_window_ms c) now (cs_restart_count c) (cs_window_start_ms c) in
    if cs_max_restarts c <=? count then (false, set_window c count start)
    else (true, set_window c (u32 (count + 1)) start).

(** ** The scheduler a supervisor runs on *)

Class SchedulerOps (S : Type) := {
  spawn : S -> Z -> option (list Z) -> Z * S;          (** [scheduler_spawn] *)
  kill : S -> Z -> S;                                  (** [scheduler_kill] *)
  get_block : S -> Z -> option Block;                  (** [scheduler_get_block] *)
  update_block : S -> Z -> (Block -> Block) -> S;      (** writes to a block's fields *)
  issued : S -> gset Z                                 (** the process identifiers handed out so far *)
}.

(** The process does not run any more. *)
Definition stopped {S} `{SchedulerOps S} (s : S) (p : Z) : Prop := forall b, get_block s p = Some b -> block_is_alive b = false.

(** What a supervisor relies on, for a scheduler whose invariant holds and that has
    [n] identifiers left ([sane n]): identifiers are not handed out twice, a killed
    process is dead, and the dead stay dead; and with room for [n] more blocks
    ([roomy n]) spawning succeeds. *)
Class SchedulerLaws (S : Type) `{SchedulerOps S} := {
  sane : nat -> S -> Prop;
  roomy : nat -> S -> Prop;
  sane_less n s : sane (Datatypes.S n) s -> sane n s;
  roomy_less n s : roomy (Datatypes.S n) s -> roomy n s;
  spawn_sane n s code name : sane (Datatypes.S n) s -> sane n (spawn s code name).2;
  kill_sane n s p : sane n s -> sane n (kill s p);
  update_sane n s p f : sane n s -> sane n (update_block s p f);
  spawn_roomy n s code name : sane (Datatypes.S n) s -> roomy (Datatypes.S n) s ->
    (spawn s code name).1 <> PID_INVALID /\ is_Some (get_block (spawn s code name).2 (spawn s code name).1) /\
    roomy n (spawn s code name).2;
  kill_roomy m n s p : sane m s -> roomy n s -> roomy n (kill s p);
  update_roomy n s p f : roomy n s -> roomy n (update_block s p f);
  spawn_fresh n s code name p s' : sane (Datatypes.S n) s -> spawn s code name = (p, s') -> p <> PID_INVALID ->
    p ∉ issued s /\ p ∈ issued s';
  spawn_issued n s code name : sane (Datatypes.S n) s -> issued s ⊆ issued (spawn s code name).2;
  kill_issued n s p : sane n s -> issued s ⊆ issued (kill s p);
  update_issued s p f : issued (update_block s p f) = issued s;
  kill_stops n s p : sane n s -> stopped (kill s p) p;
  kill_stopped n s p q : sane n s -> stopped s q -> stopped (kill s p) q;
  spawn_stopped n s code name q : sane (Datatypes.S n) s -> q ∈ issued s -> stopped s q -> stopped (spawn s code name).2 q;
  update_get s p f q : get_block (update_block s p f) q = if decide (p = q) then f <$> get_block s q else get_block s q
}.

Section supervisor.
Context {S : Type} `{SchedulerOps S}.

Definition child_spec_start (now : Z) (c : ChildSpec) (s : S) (sup_pid : Z) : Z * ChildSpec * S :=
  match cs_code c with
  | None => (PID_INVALID, c, s)
  | Some code =>
      let '(p, s) := spawn s code (cs_name c) in
      if p =? PID_INVALID then (PID_INVALID, c, s)
      else match get_block s p with
           | None => (PID_INVALID, c, s)
           | Some _ =>
               let s := update_block s p (fun b => (block_link true (set_parent b sup_pid) sup_pid).2) in
               let s := update_block s sup_pid (fun b => (block_link true b p).2) in
               (p, set_started (set_pid c p) now, s)
           end
  end.

(** ** Life cycle *)

Definition supervisor_new (strategy : SupervisorStrategy) : Supervisor :=
  mkSupervisor strategy 5 60000 [] 0 0 0 false.

Definition supervisor_init_block (b : Block) (strategy : SupervisorStrategy) : Block * Supervisor :=
  (block_grant b CAP_TRAP_EXIT, supervisor_new strategy).

Definition set_children (sup : Supervisor) (cs : list ChildSpec) (cap : Z) : Supervisor :=
  mkSupervisor (strategy sup) (max_restarts sup) (restart_window_ms sup) cs cap
    (total_restart_count sup) (window_start_ms sup) (shutting_down sup).

(** [None] when the reallocation fails. *)
Definition grow_children_array (ok : bool) (cap : Z) : option Z :=
  if ok then Some (if cap =? 0 then 4 else u64 (cap * 2)) else None.

Definition supervisor_add_child_ex (ok : bool) (now : Z) (sup : Supervisor) (s : S) (sup_pid : Z)
    (name : option (list Z)) (code : Z) (restart : RestartStrategy) (max_r window : Z) : bool * Supervisor * S :=
  let cap := if child_capacity sup <=? Z.of_nat (length (children sup))
             then grow_children_array ok (child_capacity sup) else Some (child_capacity sup) in
  match cap with
  | None => (false, sup, s)
  | Some cap =>
      let sup := set_children sup (children sup) cap in
      let spec := mkChild name (Some code) restart max_r window PID_INVALID 0 0 0 in
      let '(p, spec, s) := child_spec_start now spec s sup_pid in
      if p =? PID_INVALID then (false, sup, s)
      else (true, set_children sup (children sup ++ [spec]) cap, s)
  end.

Definition supervisor_add_child (ok : bool) (now : Z) (sup : Supervisor) (s : S) (sup_pid : Z)
    (name : option (list Z)) (code : Z) (restart : RestartStrategy) : bool * Supervisor * S :=
  supervisor_add_child_ex ok now sup s sup_pid name code restart 3 5000.

Definition has_name (name : list Z) (c : ChildSpec) : bool :=
  match cs_name c with Some n => bool_decide (cstr n = cstr name) | None => false end.

Definition kill_child (s : S) (c : ChildSpec) : S :=
  if cs_pid c =? PID_INVALID then s else kill s (cs_pid c).

Definition supervisor_remove_child (sup : Supervisor) (s : S) (name : list Z) : bool * Supervisor * S :=
  match find_index (has_name name) (children sup) with
  | Some i =>
      let s := match children sup !! i with Some c => kill_child s c | None => s end in
      (true, set_children sup (swap_remove i (children sup)) (child_capacity sup), s)
  | None => (false, sup, s)
  end.

Definition supervisor_get_child (sup : Supervisor) (name : list Z) : option ChildSpec :=
  List.find (has_name name) (children sup).
Definition supervisor_get_child_by_pid (sup : Supervisor) (p : Z) : option ChildSpec :=
  if p =? PID_INVALID then None else List.find (fun c => cs_pid c =? p) (children sup).
Definition supervisor_which_children (sup : Supervisor) : list ChildSpec := children sup.

(** ** Exits *)

Definition find_child_index (sup : Supervisor) (p : Z) : option nat :=
  find_index (fun c => cs_pid c =? p) (children sup).

(** The first loop of [restart_all_children] and [restart_rest_for_one]. *)
Fixpoint stop_children (sup_pid : Z) (cs : list ChildSpec) (s : S) : list ChildSpec * S :=
  match cs with
  | [] => ([], s)
  | c :: cs' =>
      if cs_pid c =? PID_INVALID then
        let '(cs'', s) := stop_children sup_pid cs' s in (c :: cs'', s)
      else
        let s := kill s (cs_pid c) in
        let s := update_block s sup_pid (fun b => block_unlink b (cs_pid c)) in
        let '(cs'', s) := stop_children sup_pid cs' s in (set_pid c PID_INVALID :: cs'', s)
  end.

(** The second loop. *)
Fixpoint start_children (now : Z) (sup_pid : Z) (cs : list ChildSpec) (s : S) : bool * list ChildSpec * S :=
  match cs with
  | [] => (true, [], s)
  | c :: cs' =>
      let '(p, c, s) := child_spec_start now c s sup_pid in
      let '(ok, cs'', s) := start_children now sup_pid cs' s in
      (negb (p =? PID_INVALID) && ok, c :: cs'', s)
  end.

Definition restart_children (now : Z) (sup_pid : Z) (cs : list ChildSpec) (s : S) : bool * list ChildSpec * S :=
  let '(cs, s) := stop_children sup_pid cs s in start_children now sup_pid cs s.

Definition restart_all_children (now : Z) (sup : Supervisor) (s : S) (sup_pid : Z) : bool * Supervisor * S :=
  let '(ok, cs, s) := restart_children now sup_pid (children sup) s in
  (ok, set_children sup cs (child_capacity sup), s).

Definition restart_rest_for_one (now : Z) (sup : Supervisor) (s : S) (sup_pid : Z) (failed_index : nat)
    : bool * Supervisor * S :=
  let '(ok, cs, s) := restart_children now sup_pid (drop failed_index (children sup)) s in
  (ok, set_children sup (take failed_index (children sup) ++ cs) (child_capacity sup), s).

Definition supervisor_max_restarts_reached (sup : Supervisor) : bool :=
  if max_restarts sup =? 0 then false else max_restarts sup <=? total_restart_count sup.

Definition set_totals (sup : Supervisor) (count start : Z) : Supervisor :=
  mkSupervisor (strategy sup) (max_restarts sup) (restart_window_ms sup) (children sup) (child_capacity sup)
    count start (shutting_down sup).

(** [t1], [t2], [t3]: the clock as [child_spec_can_restart], the supervisor and
    [child_spec_start] read it. *)
Definition supervisor_handle_exit (t1 t2 t3 : Z) (sup : Supervisor) (s : S) (sup_pid child_pid : Z)
    (reason : ExitReason) : bool * Supervisor * S :=
  if shutting_down sup then (true, sup, s)
  else match find_child_index sup child_pid with
  | None => (true, sup, s)
  | Some i =>
      match children sup !! i with
      | None => (true, sup, s)
      | Some spec =>
          let s := update_block s sup_pid (fun b => block_unlink b child_pid) in
          let '(can, spec) := child_spec_can_restart t1 (set_pid spec PID_INVALID) reason in
          let sup := set_children sup (<[i := spec]> (children sup)) (child_capacity sup) in
          if negb can then
            if decide (reason = EXIT_NORMAL /\ cs_restart spec <> RESTART_PERMANENT) then (true, sup, s)
            else (negb (supervisor_max_restarts_reached sup), sup, s)
          else
            let '(count, start) :=
              renew_window (restart_window_ms sup) t2 (total_restart_count sup) (window_start_ms sup) in
            let sup := set_totals sup (u32 (count + 1)) start in
            if supervisor_max_restarts_reached sup then (false, sup, s)
            else match strategy sup with
                 | SUP_ONE_FOR_ONE =>
                     let '(_, spec, s) := child_spec_start t3 spec s sup_pid in
                     (true, set_children sup (<[i := spec]> (children sup)) (child_capacity sup), s)
                 | SUP_ONE_FOR_ALL =>
                     let '(_, sup, s) := restart_all_children t3 sup s sup_pid in (true, sup, s)
                 | SUP_REST_FOR_ONE =>
                     let '(_, sup, s) := restart_rest_for_one t3 sup s sup_pid i in (true, sup, s)
                 end
      end
  end.

(** The loop of [supervisor_shutdown] runs from the last child to the first. *)
Definition supervisor_shutdown (sup : Supervisor) (s : S) : Supervisor * S :=
  (mkSupervisor (strategy sup) (max_restarts sup) (restart_window_ms sup)
     ((fun c => set_pid c PID_INVALID) <$> children sup) (child_capacity sup)
     (total_restart_count sup) (window_start_ms sup) true,
   foldr (fun c s => kill_child s c) s (children sup)).

Definition supervisor_active_count (sup : Supervisor) : nat :=
  length (filter (fun c => cs_pid c <> PID_INVALID) (children sup)).

End supervisor.

(** ** Exit signals as values *)

Fixpoint bytes_of (s : string) : list Z :=
  match s with
  | EmptyString => []
  | String c s' => Z.of_nat (Ascii.nat_of_ascii c) :: bytes_of s'
  end.

Definition exit_reason_name (reason : ExitReason) : list Z :=
  bytes_of match reason with
           | EXIT_NORMAL => "normal" | EXIT_CRASH => "crash" | EXIT_KILLED => "killed"
           | EXIT_SHUTDOWN => "shutdown" | EXIT_TIMEOUT => "timeout"
           end.

Record ExitSignal := mkSignal {
  sig_from : Z; sig_reason : ExitReason; sig_exit_code : Z; sig_exit_message : option (list Z)
}.

(** The values in the map of an exit signal have no children. *)
Definition leaf : Type := vdata Empty_set.

Definition exit_signal_to_value (sig : ExitSignal) : Map leaf :=
  let put m k (v : leaf) := map_set allocs_ok m (bytes_of k) v in
  let m := map_new in
  let m := put m "type"%string (VString (bytes_of "exit")) in
  let m := put m "pid"%string (VPid (sig_from sig)) in
  let m := put m "reason"%string (VString (exit_reason_name (sig_reason sig))) in
  let m := put m "code"%string (VInt (sig_exit_code sig)) in
  match sig_exit_message sig with
  | Some msg => put m "message"%string (VString (cstr msg))
  | None => m
  end.

Definition reason_of_name (s : list Z) : ExitReason :=
  if bool_decide (cstr s = bytes_of "normal") then EXIT_NORMAL
  else if bool_decide (cstr s = bytes_of "crash") then EXIT_CRASH
  else if bool_decide (cstr s = bytes_of "killed") then EXIT_KILLED
  else if bool_decide (cstr s = bytes_of "shutdown") then EXIT_SHUTDOWN
  else if bool_decide (cstr s = bytes_of "timeout") then EXIT_TIMEOUT
  else EXIT_CRASH.

Definition exit_signal_from_value (m : Map leaf) : option ExitSignal :=
  let get k := map_get m (bytes_of k) in
  match get "type"%string with
  | Some (VString t) =>
      if bool_decide (cstr t = bytes_of "exit") then
        match get "pid"%string with
        | Some (VPid p) =>
            match get "reason"%string with
            | Some (VString r) =>
                Some (mkSignal p (reason_of_name r)
                        (match get "code"%string with Some (VInt i) => s32 i | _ => 0 end)
                        (match get "message"%string with Some (VString msg) => Some (cstr msg) | _ => None end))
            | _ => None
            end
        | _ => None
        end
      else None
  | _ => None
  end.

(** Exit signals survive the trip through a value: reading back the map made
    from a signal gives the signal, for every reason, every 32-bit exit code and
    every message without NUL bytes, or none. *)
Theorem exit_signal_roundtrip sig :
  - 2 ^ 31 <= sig_exit_code sig < 2 ^ 31 ->
  (forall msg, sig_exit_message sig = Some msg -> is_cstr msg) ->
  exit_signal_from_value (exit_signal_to_value sig) = Some sig.
Proof.
  intros Hc Hm. destruct sig as [p r c msg]. simpl in *.
  assert (Hs : s32 c = c) by (apply s32_small; lia).
  assert (Hcm : cstr <$> msg = msg).
  { destruct msg as [msg|]; [simpl|done]. by rewrite is_cstr_cstr by auto. }
  assert (E : exit_signal_from_value (exit_signal_to_value (mkSignal p r c msg)) =
    Some (mkSignal p r (s32 c) (cstr <$> (cstr <$> msg)))).
  { destruct r, msg; reflexivity. }
  by rewrite E, Hs, !Hcm.
Qed.

Lemma exit_signal_roundtrip_witness :
  let sig := mkSignal 42 EXIT_KILLED (-1) (Some [98; 111; 111; 109]) in
  exit_signal_from_value (exit_signal_to_value sig) = Some sig.
Proof.
  apply exit_signal_roundtrip; [simpl; lia|]. simpl. intros msg [= <-]. repeat constructor; lia.
Defined.

(** ** Restart intensity of a child *)

(** The answers to a sequence of exits at the times [ts]. *)
Fixpoint restart_answers (c : ChildSpec) (exits : list (Z * ExitReason)) : list bool :=
  match exits with
  | [] => []
  | (now, reason) :: exits' =>
      let '(r, c) := child_spec_can_restart now c reason in r :: restart_answers c exits'
  end.

(** [c] may be restarted after an exit for this reason at all. *)
Definition restartable (r : RestartStrategy) (reason : ExitReason) : Prop :=
  r = RESTART_PERMANENT \/ (r = RESTART_TRANSIENT /\ reason <> EXIT_NORMAL).

#[global] Instance restartable_dec r reason : Decision (restartable r reason).
Proof. unfold restartable. apply _. Defined.

Lemma can_restart_restartable now c reason :
  restartable (cs_restart c) reason -> cs_max_restarts c <> 0 ->
  child_spec_can_restart now c reason =
    let '(count, start) := renew_window (cs_restart_window_ms c) now (cs_restart_count c) (cs_window_start_ms c) in
    if cs_max_restarts c <=? count then (false, set_window c count start)
    else (true, set_window c (u32 (count + 1)) start).
Proof.
  intros Hr Hm. unfold child_spec_can_restart.
  rewrite decide_False by (destruct Hr as [->|[-> _]]; done).
  rewrite decide_False by (destruct Hr as [->|[_ ?]]; naive_solver).
  by rewrite (proj2 (Z.eqb_neq _ _) Hm).
Qed.

(** Inside the window nothing is reset. *)
Lemma renew_inside window now count start :
  0 < start -> start <= now < start + window -> start + window <= 2 ^ 64 ->
  renew_window window now count start = (count, start).
Proof.
  intros Hs Hn Hb. unfold renew_window. rewrite u64_small by (unfold is_u64; lia).
  replace (window <=? now - start) with false by lia. rewrite andb_false_r.
  by rewrite (proj2 (Z.eqb_neq start 0)) by lia.
Qed.

Lemma answers_in_window exits : forall c count start,
  cs_restart_count c = count -> cs_window_start_ms c = start ->
  0 < start -> start + cs_restart_window_ms c <= 2 ^ 64 -> 0 <= count <= cs_max_restarts c ->
  0 < cs_max_restarts c < 2 ^ 32 ->
  Forall (fun x => start <= x.1 < start + cs_restart_window_ms c /\ restartable (cs_restart c) x.2) exits ->
  let left := Z.to_nat (cs_max_restarts c - count) in
  restart_answers c exits =
    replicate (min (length exits) left) true ++ replicate (length exits - left) false.
Proof.
  induction exits as [|[now reason] exits IH]; intros c count start Ec Es Hs Hb Hcnt Hmx Hf; [done|].
  apply Forall_cons in Hf as [[Hn Hr] Hf]. simpl in Hn, Hr. cbn [restart_answers].
  rewrite can_restart_restartable by (done || lia). rewrite Ec, Es, renew_inside by lia.
  destruct (Z.leb_spec (cs_max_restarts c) count) as [Hge|Hlt].
  - rewrite (IH (set_window c count start) count start) by done. simpl.
    replace (Z.to_nat (cs_max_restarts c - count)) with O by lia. rewrite !Nat.min_0_r. simpl.
    by rewrite Nat.sub_0_r.
  - rewrite u32_small by (unfold is_u32; lia).
    rewrite (IH (set_window c (count + 1) start) (count + 1) start) by (done || simpl; lia). simpl.
    replace (Z.to_nat (cs_max_restarts c - count)) with (Datatypes.S (Z.to_nat (cs_max_restarts c - (count + 1)))) by lia.
    done.
Qed.

(** Restart intensity of a child.  From a child that has not been restarted,
    with a limit of [max] restarts in a window of [window] milliseconds, the
    first [max] exits within the window that call for a restart (any exit of a
    permanent child, an abnormal exit of a transient one) are answered with a
    restart and all further ones are refused; a temporary child is never
    restarted, a transient one not after a normal exit. *)
Theorem child_restart_intensity c t0 exits :
  cs_restart_count c = 0 -> cs_window_start_ms c = 0 -> 0 < cs_max_restarts c < 2 ^ 32 ->
  0 < cs_restart_window_ms c <= t0 -> t0 + cs_restart_window_ms c <= 2 ^ 64 ->
  Forall (fun x => t0 <= x.1 < t0 + cs_restart_window_ms c /\ restartable (cs_restart c) x.2) exits ->
  (exists reason, list.head exits = Some (t0, reason)) ->
  let max := Z.to_nat (cs_max_restarts c) in
  restart_answers c exits = replicate (min (length exits) max) true ++ replicate (length exits - max) false /\
  (forall now reason, ~ restartable (cs_restart c) reason -> child_spec_can_restart now c reason = (false, c)).
Proof.
  intros Hc Hs Hmx Hw Hb Hf [reason0 Hh]. split.
  - destruct exits as [|[now reason] exits]; [done|]. simpl in Hh. simplify_eq.
    apply Forall_cons in Hf as [[Hn Hr] Hf]. simpl in Hn, Hr. cbn [restart_answers].
    rewrite can_restart_restartable by (done || lia). rewrite Hc, Hs.
    assert (renew_window (cs_restart_window_ms c) t0 0 0 = (0, t0)) as ->.
    { unfold renew_window. rewrite Z.sub_0_r, u64_small by (unfold is_u64; lia).
      replace (0 <? cs_restart_window_ms c) with true by lia.
      replace (cs_restart_window_ms c <=? t0) with true by lia. simpl.
      by rewrite (proj2 (Z.eqb_neq t0 0)) by lia. }
    replace (cs_max_restarts c <=? 0) with false by lia.
    rewrite u32_small by (unfold is_u32; lia). change (0 + 1) with 1. cbv beta iota.
    rewrite (answers_in_window exits (set_window c 1 t0) 1 t0) by (done || simpl; lia). simpl.
    replace (Z.to_nat (cs_max_restarts c)) with (Datatypes.S (Z.to_nat (cs_max_restarts c - 1))) by lia. done.
  - intros now reason Hr. unfold child_spec_can_restart, restartable in *.
    destruct (cs_restart c); [destruct Hr; by left| |done].
    rewrite decide_False by done. rewrite decide_True; [done|]. split; [done|].
    destruct (decide (reason = EXIT_NORMAL)) as [|Hne]; [done|]. destruct Hr. by right.
Qed.

Lemma child_restart_intensity_witness :
  let c := child_spec_new None (Some 1) RESTART_TRANSIENT in
  let exits := [(10000, EXIT_CRASH); (10001, EXIT_CRASH); (10002, EXIT_KILLED); (14999, EXIT_CRASH)] in
  restart_answers c exits = [true; true; true] ++ [false].
Proof.
  refine (proj1 (child_restart_intensity (child_spec_new None (Some 1) RESTART_TRANSIENT) 10000
    [(10000, EXIT_CRASH); (10001, EXIT_CRASH); (10002, EXIT_KILLED); (14999, EXIT_CRASH)]
    eq_refl eq_refl _ _ _ _ _)).
  - simpl. lia.
  - simpl. lia.
  - simpl. lia.
  - repeat (constructor; [simpl; split; [lia|by right]|]). constructor.
  - by eexists.
Defined.

(** ** Strategies *)

Section strategies.
Context {S : Type} `{SchedulerLaws S}.

(** No two children have the same live process. *)
Definition distinct_pids (cs : list ChildSpec) : Prop :=
  forall j k c d, cs !! j = Some c -> cs !! k = Some d -> cs_pid c = cs_pid d ->
    cs_pid c <> PID_INVALID -> j = k.

(** Every live process of a child was handed out by the scheduler. *)
Definition issued_pids (s : S) (cs : list ChildSpec) : Prop :=
  forall j c, cs !! j = Some c -> cs_pid c = PID_INVALID \/ cs_pid c ∈ issued s.

Definition sup_ok (sup : Supervisor) (s : S) : Prop :=
  distinct_pids (children sup) /\ issued_pids s (children sup).

(** Processes handed out between [s] and [s']. *)
Definition fresh_pids (s s' : S) (cs : list ChildSpec) : Prop :=
  forall j c, cs !! j = Some c -> cs_pid c = PID_INVALID \/ (cs_pid c ∉ issued s /\ cs_pid c ∈ issued s').

Lemma sane_le m n s : (m <= n)%nat -> sane n s -> sane m s.
Proof. induction 1 as [|n _ IH]; [done|]. intros Hs%sane_less. by apply IH. Qed.
Lemma roomy_le m n s : (m <= n)%nat -> roomy n s -> roomy m s.
Proof. induction 1 as [|n _ IH]; [done|]. intros Hs%roomy_less. by apply IH. Qed.

Lemma child_spec_start_spec n now c s sup_pid p c' s' : sane (Datatypes.S n) s ->
  child_spec_start now c s sup_pid = (p, c', s') ->
  sane n s' /\ issued s ⊆ issued s' /\
  ((p = PID_INVALID /\ c' = c) \/ (cs_pid c' = p /\ p ∉ issued s /\ p ∈ issued s')).
Proof.
  intros Hs. unfold child_spec_start. destruct (cs_code c) as [code|]; [|intros [= <- <- <-]; split; [by apply sane_less|]; auto].
  pose proof (spawn_issued n s code (cs_name c) Hs) as Hi. pose proof (spawn_sane n s code (cs_name c) Hs) as Hs1.
  destruct (spawn s code (cs_name c)) as [q s1] eqn:E. simpl in Hi, Hs1.
  destruct (Z.eqb_spec q PID_INVALID) as [->|Hq]; [intros [= <- <- <-]; auto|].
  destruct (spawn_fresh _ _ _ _ _ _ Hs E Hq) as (F1 & F2).
  destruct (get_block s1 q); intros [= <- <- <-]; [|auto].
  rewrite !update_issued. split; [by apply update_sane, update_sane|]. split; [done|]. right. auto.
Qed.

Lemma stop_children_spec n sup_pid cs : forall s cs' s', sane n s ->
  stop_children sup_pid cs s = (cs', s') ->
  sane n s' /\ issued s ⊆ issued s' /\ length cs' = length cs /\ Forall (fun c => cs_pid c = PID_INVALID) cs'.
Proof.
  induction cs as [|c cs IH]; simpl; intros s cs' s' Hs E; [by injection E as <- <-|].
  destruct (Z.eqb_spec (cs_pid c) PID_INVALID) as [Hp|Hp].
  - destruct (stop_children sup_pid cs s) as [cs1 s1] eqn:E1. injection E as <- <-.
    destruct (IH _ _ _ Hs E1) as (Hs1 & H1 & H2 & H3). split_and!; [done|done|simpl; lia|by constructor].
  - destruct (stop_children sup_pid cs _) as [cs1 s1] eqn:E1 in E. injection E as <- <-.
    destruct (IH _ _ _ (update_sane _ _ _ _ (kill_sane _ _ _ Hs)) E1) as (Hs1 & H1 & H2 & H3). rewrite update_issued in H1.
    split; [done|]. split; [|split; [simpl; lia|by constructor]]. pose proof (kill_issued n s (cs_pid c) Hs). set_solver.
Qed.

Lemma start_children_spec now sup_pid cs : forall s ok cs' s', sane (length cs) s ->
  Forall (fun c => cs_pid c = PID_INVALID) cs ->
  start_children now sup_pid cs s = (ok, cs', s') ->
  issued s ⊆ issued s' /\ length cs' = length cs /\ distinct_pids cs' /\ fresh_pids s s' cs'.
Proof.
  induction cs as [|c cs IH]; simpl; intros s ok cs' s' Hs Hc E.
  { injection E as <- <- <-. split_and!; try done; intros ?; intros; simplify_eq/=. }
  apply Forall_cons in Hc as [Hp Hc].
  destruct (child_spec_start now c s sup_pid) as [[p c1] s1] eqn:E1.
  destruct (start_children now sup_pid cs s1) as [[ok2 cs2] s2] eqn:E2. injection E as <- <- <-.
  destruct (child_spec_start_spec _ _ _ _ _ _ _ _ Hs E1) as (Hs1 & I1 & D1).
  destruct (IH _ _ _ _ Hs1 Hc E2) as (I2 & L2 & N2 & F2).
  assert (Hc1 : cs_pid c1 = PID_INVALID \/ (cs_pid c1 ∉ issued s /\ cs_pid c1 ∈ issued s1)).
  { destruct D1 as [[_ ->]|(<- & ? & ?)]; [by left|by right]. }
  split; [set_solver|]. split; [simpl; lia|]. split.
  - assert (Hne : forall k d, cs2 !! k = Some d -> cs_pid c1 = cs_pid d -> cs_pid c1 <> PID_INVALID -> False).
    { intros k d Hk Heq Hv. destruct (F2 k d Hk) as [|[Hn _]]; [congruence|].
      destruct Hc1 as [|[_ Hin]]; [done|]. apply Hn. by rewrite <- Heq. }
    intros [|j] [|k] a b Ha Hb Heq Hv; simplify_eq/=; [done|by destruct (Hne k b)| |f_equal; by eapply N2].
    by destruct (Hne j a); [|congruence..].
  - intros [|j] d Hd; simplify_eq/=.
    + destruct Hc1 as [|[? ?]]; [by left|right]. set_solver.
    + destruct (F2 j d Hd) as [|[? ?]]; [by left|right]. set_solver.
Qed.

Lemma restart_children_spec now sup_pid cs s ok cs' s' : sane (length cs) s ->
  restart_children now sup_pid cs s = (ok, cs', s') ->
  issued s ⊆ issued s' /\ length cs' = length cs /\ distinct_pids cs' /\ fresh_pids s s' cs'.
Proof.
  intros Hs. unfold restart_children. destruct (stop_children sup_pid cs s) as [cs1 s1] eqn:E1. intros E2.
  destruct (stop_children_spec _ _ _ _ _ _ Hs E1) as (Hs1 & I1 & L1 & P1). rewrite <- L1 in Hs1.
  destruct (start_children_spec _ _ _ _ _ _ _ Hs1 P1 E2) as (I2 & L2 & N2 & F2).
  split; [set_solver|]. split; [lia|]. split; [done|].
  intros j c Hj. destruct (F2 j c Hj) as [|[? ?]]; [by left|right]. set_solver.
Qed.

Lemma issued_pids_mono s s' cs : issued s ⊆ issued s' -> issued_pids s cs -> issued_pids s' cs.
Proof. intros Hi Hc j c Hj. destruct (Hc j c Hj); [by left|right]. set_solver. Qed.

(** Replacing one child's process by none or a fresh one. *)
Lemma sup_ok_insert s s' cs i c' :
  distinct_pids cs -> issued_pids s cs -> issued s ⊆ issued s' ->
  cs_pid c' = PID_INVALID \/ (cs_pid c' ∉ issued s /\ cs_pid c' ∈ issued s') ->
  distinct_pids (<[i := c']> cs) /\ issued_pids s' (<[i := c']> cs).
Proof.
  intros Hd Hi Hs Hc'.
  assert (Hne : forall k d, cs !! k = Some d -> cs_pid c' = cs_pid d -> cs_pid c' <> PID_INVALID -> False).
  { intros k d Hk Heq Hv. destruct Hc' as [|[Hn _]]; [done|]. apply Hn. rewrite Heq.
    destruct (Hi k d Hk); [congruence|done]. }
  assert (Hl : forall j a, <[i := c']> cs !! j = Some a -> (j = i /\ a = c') \/ (j <> i /\ cs !! j = Some a)).
  { intros j a Ha. destruct (decide (j = i)) as [->|Hji].
    - left. split; [done|]. rewrite list_lookup_insert_eq in Ha; [congruence|].
      rewrite <- (length_insert cs i c'). by eapply lookup_lt_Some.
    - right. by rewrite list_lookup_insert_ne in Ha. }
  split.
  - intros j k a b [[-> ->]|[Hj Ha]]%Hl [[-> ->]|[Hk Hb]]%Hl Heq Hv; [done|..].
    + by destruct (Hne k b).
    + by destruct (Hne j a); [|congruence..].
    + by eapply Hd.
  - intros j a [[-> ->]|[Hj Ha]]%Hl.
    + destruct Hc' as [|[_ ?]]; [by left|by right].
    + destruct (Hi j a Ha); [by left|right; set_solver].
Qed.

(** Keeping a prefix and replacing the rest by fresh processes. *)
Lemma sup_ok_app s s' cs i cs' :
  distinct_pids cs -> issued_pids s cs -> issued s ⊆ issued s' -> distinct_pids cs' -> fresh_pids s s' cs' ->
  distinct_pids (take i cs ++ cs') /\ issued_pids s' (take i cs ++ cs').
Proof.
  intros Hd Hi Hs Hd' Hf. set (n := length (take i cs)).
  assert (Hl : forall j a, (take i cs ++ cs') !! j = Some a ->
    ((j < n)%nat /\ cs !! j = Some a) \/ ((n <= j)%nat /\ cs' !! (j - n)%nat = Some a)).
  { intros j a [Ha|[Hn Ha]]%lookup_app_Some; [left|by right].
    split; [by eapply lookup_lt_Some|]. by apply lookup_take_Some in Ha as [? _]. }
  assert (Hne : forall j k a b, cs !! j = Some a -> cs' !! k = Some b -> cs_pid a = cs_pid b ->
    cs_pid a <> PID_INVALID -> False).
  { intros j k a b Ha Hb Heq Hv. destruct (Hf k b Hb) as [|[Hn _]]; [congruence|]. apply Hn. rewrite <- Heq.
    by destruct (Hi j a Ha). }
  split.
  - intros j k a b [[Hj Ha]|[Hj Ha]]%Hl [[Hk Hb]|[Hk Hb]]%Hl Heq Hv.
    + by eapply Hd.
    + by destruct (Hne j (k - n)%nat a b).
    + by destruct (Hne k (j - n)%nat b a); [..|congruence|congruence].
    + assert (j - n = k - n)%nat by (by eapply Hd'). lia.
  - intros j a [[Hj Ha]|[Hj Ha]]%Hl.
    + destruct (Hi j a Ha); [by left|right; set_solver].
    + destruct (Hf _ a Ha) as [|[_ ?]]; [by left|by right].
Qed.

Lemma can_restart_pid now c reason : cs_pid (child_spec_can_restart now c reason).2 = cs_pid c.
Proof. unfold child_spec_can_restart. repeat case_match; done. Qed.

(** The children a strategy leaves alone when child [i] exits. *)
Definition kept (st : SupervisorStrategy) (i j : nat) : Prop :=
  match st with
  | SUP_ONE_FOR_ONE => j <> i
  | SUP_ONE_FOR_ALL => False
  | SUP_REST_FOR_ONE => (j < i)%nat
  end.

(** What handling the exit of child [i] does to the children. *)
Record handled (st : SupervisorStrategy) (i : nat) (s s' : S) (cs cs' : list ChildSpec) : Prop := {
  h_distinct : distinct_pids cs';
  h_issued : issued_pids s' cs';
  h_length : length cs' = length cs;
  h_kept : forall j c, kept st i j -> cs !! j = Some c -> cs' !! j = Some c;
  h_fresh : forall j c', cs' !! j = Some c' ->
    (j <> i /\ cs !! j = Some c') \/ cs_pid c' = PID_INVALID \/ cs_pid c' ∉ issued s
}.

Lemma kept_ne st i j : kept st i j -> j <> i.
Proof. destruct st; simpl; [done|done|lia]. Qed.

Lemma handled_insert st i s s' cs c' :
  distinct_pids cs -> issued_pids s cs -> issued s ⊆ issued s' ->
  cs_pid c' = PID_INVALID \/ (cs_pid c' ∉ issued s /\ cs_pid c' ∈ issued s') ->
  handled st i s s' cs (<[i := c']> cs).
Proof.
  intros Hd Hi Hs Hc. destruct (sup_ok_insert s s' cs i c' Hd Hi Hs Hc) as [D I]. split; try done.
  - apply length_insert.
  - intros j c Hk Hj. rewrite list_lookup_insert_ne; [done|]. intros ->. by eapply kept_ne.
  - intros j d Hj. destruct (decide (j = i)) as [->|Hne].
    + rewrite list_lookup_insert_eq in Hj; [simplify_eq; naive_solver|].
      rewrite <- (length_insert cs i c'). by eapply lookup_lt_Some.
    + rewrite list_lookup_insert_ne in Hj by done. by left.
Qed.

(** The children from position [n] on are replaced by fresh ones, after child [i]
    at or behind [n] has been marked. *)
Lemma handled_rest st i n s s' cs c0 cs' :
  distinct_pids cs -> issued_pids s cs -> issued s ⊆ issued s' -> cs_pid c0 = PID_INVALID ->
  (n <= i)%nat -> (forall j, kept st i j -> (j < n)%nat) ->
  length cs' = length (drop n (<[i := c0]> cs)) -> distinct_pids cs' -> fresh_pids s s' cs' ->
  handled st i s s' cs (take n (<[i := c0]> cs) ++ cs').
Proof.
  intros Hd Hi Hs Hc0 Hni Hk Hl Hd' Hf. rewrite take_insert_ge by done.
  destruct (sup_ok_app s s' cs n cs' Hd Hi Hs Hd' Hf) as [D I]. split; try done.
  - rewrite length_app, Hl, length_drop, length_insert, length_take. lia.
  - intros j c Hj%Hk Hc. rewrite lookup_app_l.
    + by rewrite lookup_take_lt.
    + rewrite length_take. apply lookup_lt_Some in Hc. lia.
  - intros j c' [Ha|[Hn Ha]]%lookup_app_Some.
    + apply lookup_take_Some in Ha as [Ha Hlt]. left. split; [lia|done].
    + right. destruct (Hf _ _ Ha) as [|[? _]]; auto.
Qed.

(** Spawning succeeds: there is room for another block. *)
Definition spawns : Prop :=
  forall (s : S) code name, (spawn s code name).1 <> PID_INVALID /\
    is_Some (get_block (spawn s code name).2 (spawn s code name).1).

Lemma child_spec_start_live now c (s : S) sup_pid p c' s' :
  spawns -> is_Some (cs_code c) -> child_spec_start now c s sup_pid = (p, c', s') ->
  p <> PID_INVALID /\ cs_pid c' = p /\ cs_code c' = cs_code c.
Proof.
  intros Hsp [code Hc]. unfold child_spec_start. rewrite Hc.
  destruct (Hsp s code (cs_name c)) as [Hp [b Hb]]. destruct (spawn s code (cs_name c)) as [q s1]. simpl in *.
  rewrite (proj2 (Z.eqb_neq _ _) Hp), Hb. by intros [= <- <- <-].
Qed.

Definition all_live (cs : list ChildSpec) : Prop := Forall (fun c => cs_pid c <> PID_INVALID) cs.

Lemma start_children_live now sup_pid cs : forall (s : S) ok cs' s',
  spawns -> Forall (fun c => is_Some (cs_code c)) cs ->
  start_children now sup_pid cs s = (ok, cs', s') -> ok = true /\ all_live cs'.
Proof.
  induction cs as [|c cs IH]; simpl; intros s ok cs' s' Hsp Hc E;
    [injection E as <- <- <-; split; [done|constructor]|].
  apply Forall_cons in Hc as [Hc Hcs].
  destruct (child_spec_start now c s sup_pid) as [[p c1] s1] eqn:E1.
  destruct (start_children now sup_pid cs s1) as [[ok2 cs2] s2] eqn:E2. injection E as <- <- <-.
  destruct (child_spec_start_live _ _ _ _ _ _ _ Hsp Hc E1) as (Hp & Hp1 & _).
  destruct (IH _ _ _ _ Hsp Hcs E2) as [-> Hl]. rewrite (proj2 (Z.eqb_neq _ _) Hp). split; [done|].
  constructor; [congruence|done].
Qed.

Lemma stop_children_code sup_pid cs : forall (s : S) cs' s',
  stop_children sup_pid cs s = (cs', s') ->
  Forall (fun c => is_Some (cs_code c)) cs -> Forall (fun c => is_Some (cs_code c)) cs'.
Proof.
  induction cs as [|c cs IH]; simpl; intros s cs' s' E Hc; [by injection E as <- <-|].
  apply Forall_cons in Hc as [Hc Hcs]. case_match.
  - destruct (stop_children sup_pid cs s) as [cs1 s1] eqn:E1. injection E as <- <-. constructor; eauto.
  - destruct (stop_children sup_pid cs _) as [cs1 s1] eqn:E1 in E. injection E as <- <-. constructor; eauto.
Qed.

Lemma restart_children_live now sup_pid cs (s : S) ok cs' s' :
  spawns -> Forall (fun c => is_Some (cs_code c)) cs ->
  restart_children now sup_pid cs s = (ok, cs', s') -> ok = true /\ all_live cs'.
Proof.
  intros Hsp Hc. unfold restart_children. destruct (stop_children sup_pid cs s) as [cs1 s1] eqn:E1.
  intros E2. eapply start_children_live; [done| |exact E2]. by eapply stop_children_code.
Qed.

(** *** What a restart does to each child *)

(** The same child but for its process, its counters and its start time. *)
Definition same_child (c d : ChildSpec) : Prop :=
  cs_name d = cs_name c /\ cs_code d = cs_code c /\ cs_restart d = cs_restart c /\ cs_max_restarts d = cs_max_restarts c /\
  cs_restart_window_ms d = cs_restart_window_ms c.
Lemma same_child_refl c : same_child c c.
Proof. by unfold same_child. Qed.
#[local] Hint Resolve same_child_refl : core.
Definition stays_stopped (s s' : S) : Prop := forall q, q ∈ issued s -> stopped s q -> stopped s' q.

Lemma update_stopped s p f q : (forall b, state (f b) = state b) -> stopped s q -> stopped (update_block s p f) q.
Proof.
  intros Hf Hq b. rewrite update_get. case_decide; [|apply Hq]. destruct (get_block s q) as [b0|] eqn:E; [|done]. simpl. intros [= <-].
  unfold block_is_alive. rewrite Hf. by apply Hq.
Qed.
Lemma link_state ok b p : state (block_link ok b p).2 = state b.
Proof. unfold block_link. destruct (_ =? _); [done|]. by destruct (vec_add _ _ _ _ _). Qed.

Lemma child_spec_start_keeps n now c s sup_pid p c' s' : sane (Datatypes.S n) s -> child_spec_start now c s sup_pid = (p, c', s') -> same_child c c' /\ stays_stopped s s'.
Proof.
  intros Hsane. unfold child_spec_start. destruct (cs_code c) as [code|] eqn:Ec; [|by intros [= <- <- <-]; split; [|intros ?]].
  pose proof (fun q => spawn_stopped n s code (cs_name c) q Hsane) as Hs. destruct (spawn s code (cs_name c)) as [q s1]. simpl in Hs.
  destruct (q =? PID_INVALID); [by intros [= <- <- <-]; split; [|intros ? ? ?; apply Hs]|].
  destruct (get_block s1 q); intros [= <- <- <-]; (split; [by unfold same_child|]); intros r Hr Hst; [|by apply Hs].
  apply update_stopped; [intros; apply link_state|]. apply update_stopped; [intros; by rewrite link_state|]. by apply Hs.
Qed.

Lemma stop_children_all n sup_pid cs : forall s cs' s', sane n s -> stop_children sup_pid cs s = (cs', s') ->
  (forall q, stopped s q -> stopped s' q) /\
  forall j d, cs !! j = Some d -> cs' !! j = Some (set_pid d PID_INVALID) /\ (cs_pid d <> PID_INVALID -> stopped s' (cs_pid d)).
Proof.
  induction cs as [|c cs IH]; simpl; intros s cs' s' Hs E; [by injection E as <- <-|].
  destruct (Z.eqb_spec (cs_pid c) PID_INVALID) as [Hp|Hp].
  - destruct (stop_children sup_pid cs s) as [cs1 s1] eqn:E1. injection E as <- <-. destruct (IH _ _ _ Hs E1) as (H1 & H2). split; [done|].
    intros [|j] d Hj; simplify_eq/=; [|by apply H2]. split; [|done]. destruct d. simpl in Hp. by rewrite Hp.
  - destruct (stop_children sup_pid cs _) as [cs1 s1] eqn:E1 in E. injection E as <- <-.
    destruct (IH _ _ _ (update_sane _ _ _ _ (kill_sane _ _ _ Hs)) E1) as (H1 & H2). split.
    + intros q Hq. apply H1, update_stopped; [done|]. by apply (kill_stopped n).
    + intros [|j] d Hj; simplify_eq/=; [|by apply H2]. split; [done|]. intros _. apply H1, update_stopped; [done|]. by apply (kill_stops n).
Qed.
Lemma start_children_all now sup_pid cs : forall s ok cs' s', sane (length cs) s -> start_children now sup_pid cs s = (ok, cs', s') ->
  stays_stopped s s' /\ forall j d, cs !! j = Some d -> exists d', cs' !! j = Some d' /\ same_child d d'.
Proof.
  induction cs as [|c cs IH]; simpl; intros s ok cs' s' Hs E; [injection E as <- <- <-; split; [by intros ?|done]|].
  destruct (child_spec_start now c s sup_pid) as [[p c1] s1] eqn:E1.
  destruct (start_children now sup_pid cs s1) as [[ok2 cs2] s2] eqn:E2. injection E as <- <- <-.
  destruct (child_spec_start_spec _ _ _ _ _ _ _ _ Hs E1) as (Hs1 & I1 & _). destruct (child_spec_start_keeps _ _ _ _ _ _ _ _ Hs E1) as [C1 S1].
  destruct (IH _ _ _ _ Hs1 E2) as [S2 A2]. split.
  - intros q Hi Hq. apply S2; [set_solver|by apply S1].
  - intros [|j] d Hj; simplify_eq/=; [by exists c1|by apply A2].
Qed.

(** With room for a block, a child that has code is started. *)
Lemma child_spec_start_roomy n now c s sup_pid p c' s' : sane (Datatypes.S n) s -> roomy (Datatypes.S n) s ->
  child_spec_start now c s sup_pid = (p, c', s') ->
  roomy n s' /\ (is_Some (cs_code c) -> cs_pid c' <> PID_INVALID).
Proof.
  intros Hs Hr. unfold child_spec_start. destruct (cs_code c) as [code|].
  2: { intros [= <- <- <-]. split; [by apply roomy_less|by intros [??]]. }
  destruct (spawn_roomy n s code (cs_name c) Hs Hr) as (Hp & [b Hb] & Hr1). destruct (spawn s code (cs_name c)) as [q s1]. simpl in *.
  rewrite (proj2 (Z.eqb_neq _ _) Hp), Hb. intros [= <- <- <-]. split; [by apply update_roomy, update_roomy|done].
Qed.
Lemma stop_children_roomy m n sup_pid cs : forall s cs' s', sane m s -> roomy n s -> stop_children sup_pid cs s = (cs', s') -> roomy n s'.
Proof.
  induction cs as [|c cs IH]; simpl; intros s cs' s' Hs Hr E; [by injection E as <- <-|]. destruct (_ =? _).
  - destruct (stop_children sup_pid cs s) as [cs1 s1] eqn:E1. injection E as <- <-. by eapply IH.
  - destruct (stop_children sup_pid cs _) as [cs1 s1] eqn:E1 in E. injection E as <- <-. eapply IH; [| |exact E1].
    + by apply update_sane, kill_sane.
    + by eapply update_roomy, kill_roomy.
Qed.

(** A child that was restarted: it has a process that did not exist before, or
    none when the scheduler has no room for [n] blocks. *)
Record restarted (n : nat) (s s' : S) (d d' : ChildSpec) : Prop := {
  rs_same : same_child d d';
  rs_fresh : cs_pid d' = PID_INVALID \/ (cs_pid d' ∉ issued s /\ cs_pid d' ∈ issued s');
  rs_live : roomy n s -> is_Some (cs_code d) -> cs_pid d' <> PID_INVALID
}.

Lemma start_children_live_at now sup_pid cs : forall (s : S) ok cs' s', sane (length cs) s -> roomy (length cs) s ->
  start_children now sup_pid cs s = (ok, cs', s') ->
  forall j d d', cs !! j = Some d -> cs' !! j = Some d' -> is_Some (cs_code d) -> cs_pid d' <> PID_INVALID.
Proof.
  induction cs as [|c cs IH]; simpl; intros s ok cs' s' Hs Hr E j d d' Hj Hj' Hc; [done|].
  destruct (child_spec_start now c s sup_pid) as [[p c1] s1] eqn:E1.
  destruct (start_children now sup_pid cs s1) as [[ok2 cs2] s2] eqn:E2. injection E as <- <- <-.
  destruct (child_spec_start_spec _ _ _ _ _ _ _ _ Hs E1) as (Hs1 & _ & _). destruct (child_spec_start_roomy _ _ _ _ _ _ _ _ Hs Hr E1) as [Hr1 Hl].
  destruct j as [|j]; simplify_eq/=; [by apply Hl|by eapply IH].
Qed.

Lemma restart_children_restarted now sup_pid cs s ok cs' s' : sane (length cs) s -> restart_children now sup_pid cs s = (ok, cs', s') ->
  forall j d, cs !! j = Some d -> exists d', cs' !! j = Some d' /\ restarted (length cs) s s' d d' /\
    (cs_pid d <> PID_INVALID -> cs_pid d ∈ issued s -> stopped s' (cs_pid d)).
Proof.
  intros Hs E. destruct (restart_children_spec _ _ _ _ _ _ _ Hs E) as (_ & _ & _ & F). unfold restart_children in E.
  destruct (stop_children sup_pid cs s) as [cs1 s1] eqn:E1. destruct (stop_children_all _ _ _ _ _ _ Hs E1) as [K1 A1].
  destruct (stop_children_spec _ _ _ _ _ _ Hs E1) as (Hs1 & I1 & L1 & _). rewrite <- L1 in Hs1.
  destruct (start_children_all _ _ _ _ _ _ _ Hs1 E) as [K2 A2].
  intros j d Hj. destruct (A1 j d Hj) as [Hj1 Hst]. destruct (A2 j _ Hj1) as (d' & Hj' & Hsame). exists d'. split; [done|]. split; [split; [done|by apply (F j)|]|].
  - intros Hr Hc. assert (Hr1 : roomy (length cs1) s1) by (rewrite L1; exact (stop_children_roomy _ _ _ _ _ _ _ Hs Hr E1)).
    by apply (start_children_live_at _ _ _ _ _ _ _ Hs1 Hr1 E j _ d' Hj1 Hj').
  - intros Hp Hi. apply K2; [set_solver|by apply Hst].
Qed.

(** *** When a restart is due *)

(** The restarts that count at [now]: none when the window is over. *)
Definition recent (window now start count : Z) : Z := if (0 <? window) && (window <=? u64 (now - start)) then 0 else count.
Definition child_allows (now : Z) (c : ChildSpec) : Prop :=
  cs_max_restarts c = 0 \/ recent (cs_restart_window_ms c) now (cs_window_start_ms c) (cs_restart_count c) < cs_max_restarts c.
(** The restart that is asked for counts too. *)
Definition supervisor_allows (now : Z) (sup : Supervisor) : Prop :=
  max_restarts sup = 0 \/ u32 (recent (restart_window_ms sup) now (window_start_ms sup) (total_restart_count sup) + 1) < max_restarts sup.
Definition restart_due (t1 t2 : Z) (sup : Supervisor) (c : ChildSpec) (reason : ExitReason) : Prop :=
  restartable (cs_restart c) reason /\ child_allows t1 c /\ supervisor_allows t2 sup.

#[global] Instance child_allows_dec now c : Decision (child_allows now c).
Proof. unfold child_allows. apply _. Defined.
#[global] Instance restart_due_dec t1 t2 sup c reason : Decision (restart_due t1 t2 sup c reason).
Proof. unfold restart_due, supervisor_allows. apply _. Defined.

Lemma renew_recent window now count start : (renew_window window now count start).1 = recent window now start count.
Proof. unfold renew_window, recent. by destruct (_ && _). Qed.
Lemma can_restart_spec now c reason : exists c', child_spec_can_restart now c reason = (bool_decide (restartable (cs_restart c) reason /\ child_allows now c), c') /\
  same_child c c' /\ cs_pid c' = cs_pid c.
Proof.
  destruct (decide (restartable (cs_restart c) reason)) as [Hr|Hr].
  - destruct (decide (cs_max_restarts c = 0)) as [Hm|Hm].
    + exists c. rewrite bool_decide_true by (split; [done|by left]). split; [|done]. unfold child_spec_can_restart.
      rewrite decide_False by (destruct Hr as [->|[-> _]]; done). rewrite decide_False by (destruct Hr as [->|[_ ?]]; naive_solver). by rewrite Hm.
    + rewrite can_restart_restartable by done. pose proof (renew_recent (cs_restart_window_ms c) now (cs_restart_count c) (cs_window_start_ms c)) as Hc.
      destruct (renew_window _ _ _ _) as [count start]. simpl in Hc. destruct (Z.leb_spec (cs_max_restarts c) count).
      * exists (set_window c count start). rewrite bool_decide_false; [done|]. intros [_ [?|?]]; [done|lia].
      * eexists. rewrite bool_decide_true; [done|]. split; [done|]. right. lia.
  - exists c. rewrite bool_decide_false by tauto. split; [|done]. unfold child_spec_can_restart, restartable in *.
    destruct (cs_restart c); [destruct Hr; by left| |done]. rewrite decide_False by done. rewrite decide_True; [done|].
    split; [done|]. destruct (decide (reason = EXIT_NORMAL)) as [|Hne]; [done|]. destruct Hr. by right.
Qed.
(** What the strategy does to child [j] when child [i] exits and is to be restarted. *)
Definition strategy_effect (sup : Supervisor) (i : nat) (s s' : S) (j : nat) (d d' : ChildSpec) : Prop :=
  (kept (strategy sup) i j -> d' = d) /\
  (~ kept (strategy sup) i j -> restarted (length (children sup)) s s' d d' /\ (j <> i -> cs_pid d <> PID_INVALID -> stopped s' (cs_pid d))).

(** The restarts of one-for-all and rest-for-one, from position [n] on. *)
Lemma rest_effect t3 sup s s0 sup_pid i n c c0 ok cs' s' :
  issued s0 = issued s -> sane (length (children sup)) s0 -> (forall n, roomy n s -> roomy n s0) -> issued_pids s (children sup) -> children sup !! i = Some c -> same_child c c0 -> cs_pid c0 = PID_INVALID -> (n <= i)%nat ->
  (forall j, kept (strategy sup) i j <-> (j < n)%nat) ->
  restart_children t3 sup_pid (drop n (<[i := c0]> (children sup))) s0 = (ok, cs', s') ->
  forall j d, children sup !! j = Some d -> exists d', (take n (<[i := c0]> (children sup)) ++ cs') !! j = Some d' /\ strategy_effect sup i s s' j d d'.
Proof.
  intros Hs0 Hsane Hroom Hi Hc Hsame Hp Hn Hk E j d Hj. assert (Hlen : (length (drop n (<[i := c0]> (children sup))) <= length (children sup))%nat)
    by (rewrite length_drop, length_insert; lia).
  pose proof (restart_children_restarted _ _ _ _ _ _ _ (sane_le _ _ _ Hlen Hsane) E) as A. rewrite take_insert_ge by done.
  pose proof (lookup_lt_Some _ _ _ Hj) as Hlt. specialize (Hk j). unfold strategy_effect. destruct (decide (j < n)%nat) as [Hjn|Hjn].
  - exists d. split; [rewrite lookup_app_l by (rewrite length_take; lia); by rewrite lookup_take_lt|]. split; [done|tauto].
  - assert (Hd : drop n (<[i := c0]> (children sup)) !! (j - n)%nat = Some (if decide (j = i) then c0 else d)).
    { rewrite lookup_drop. replace (n + (j - n))%nat with j by lia. destruct (decide (j = i)) as [->|Hne]; [by apply list_lookup_insert_eq|].
      by rewrite list_lookup_insert_ne. }
    destruct (A _ _ Hd) as (d' & Hd' & [R1 R2 R3] & Hst).
    assert (R4 : roomy (length (children sup)) s -> is_Some (cs_code (if decide (j = i) then c0 else d)) -> cs_pid d' <> PID_INVALID).
    { intros Hr%Hroom. apply R3. by eapply roomy_le. }
    clear R3. exists d'. rewrite lookup_app_r, length_take, Nat.min_l by (rewrite ?length_take; lia).
    split; [done|]. split; [tauto|]. intros _. rewrite Hs0 in *. destruct (decide (j = i)) as [->|Hne].
    + simplify_eq. split; [|done]. destruct Hsame as (? & ? & ? & ? & ?). split; [|done|intros Hsp Hcode; apply R4; [done|congruence]].
      destruct R1 as (? & ? & ? & ? & ?). unfold same_child. split_and!; congruence.
    + split; [by split|]. intros _ Hpd. apply Hst; [done|]. by destruct (Hi j d Hj).
Qed.

(** What handling the exit of child [i] amounts to: the result [r] and the state
    behind it. *)
Record exit_effect (t1 t2 : Z) (sup : Supervisor) (s : S) (sup_pid : Z) (reason : ExitReason) (i : nat) (c : ChildSpec)
    (r : bool) (sup' : Supervisor) (s' : S) : Prop := {
  ee_ok : sup_ok sup' s';
  ee_length : length (children sup') = length (children sup);
  ee_restart : restart_due t1 t2 sup c reason -> r = true /\
    forall j d, children sup !! j = Some d -> exists d', children sup' !! j = Some d' /\ strategy_effect sup i s s' j d d';
  ee_refused : ~ restart_due t1 t2 sup c reason ->
    s' = update_block s sup_pid (fun b => block_unlink b (cs_pid c)) /\
    (exists c', children sup' = <[i := c']> (children sup) /\ same_child c c' /\ cs_pid c' = PID_INVALID) /\
    (restartable (cs_restart c) reason -> child_allows t1 c -> r = false)
}.

Section effects.
Context (t1 t2 t3 : Z) (sup : Supervisor) (s : S) (sup_pid : Z) (reason : ExitReason) (i : nat) (c c0 : ChildSpec).
Context (Hok : sup_ok sup s) (Hsane : sane (length (children sup)) s) (Hc : children sup !! i = Some c) (Hsame : same_child c c0) (Hp0 : cs_pid c0 = PID_INVALID).
Let s0 := update_block s sup_pid (fun b => block_unlink b (cs_pid c)).

Lemma exit_refused r sup' : children sup' = <[i := c0]> (children sup) -> ~ restart_due t1 t2 sup c reason ->
  (restartable (cs_restart c) reason -> child_allows t1 c -> r = false) -> exit_effect t1 t2 sup s sup_pid reason i c r sup' s0.
Proof.
  intros Ec Hdue Hr. destruct Hok as [Hd Hi]. assert (Is0 : issued s0 = issued s) by apply update_issued.
  assert (Hstop : handled (strategy sup) i s s0 (children sup) (<[i := c0]> (children sup))) by (apply handled_insert; try done; [by rewrite Is0|by left]).
  split; unfold sup_ok; rewrite ?Ec; [split; apply Hstop|apply length_insert|done|].
  intros _. split; [done|]. split; [by exists c0|done].
Qed.

Lemma exit_restarts sup1 : restart_due t1 t2 sup c reason -> children sup1 = <[i := c0]> (children sup) -> strategy sup1 = strategy sup ->
  let '(r, sup', s') := match strategy sup1 with
    | SUP_ONE_FOR_ONE => let '(_, spec, s) := child_spec_start t3 c0 s0 sup_pid in
        (true, set_children sup1 (<[i := spec]> (children sup1)) (child_capacity sup1), s)
    | SUP_ONE_FOR_ALL => let '(_, sup, s) := restart_all_children t3 sup1 s0 sup_pid in (true, sup, s)
    | SUP_REST_FOR_ONE => let '(_, sup, s) := restart_rest_for_one t3 sup1 s0 sup_pid i in (true, sup, s)
    end in exit_effect t1 t2 sup s sup_pid reason i c r sup' s'.
Proof.
  intros Hdue Ec Est. destruct Hok as [Hd Hi]. assert (Is0 : issued s0 = issued s) by apply update_issued.
  assert (Hs0 : sane (length (children sup)) s0) by (by apply update_sane). assert (Hroom : forall n, roomy n s -> roomy n s0) by (intros; by apply update_roomy).
  assert (Hle : forall n, (length (drop n (<[i := c0]> (children sup))) <= length (children sup))%nat)
    by (intros; rewrite length_drop, length_insert; lia).
  assert (Hend : forall sup' s', handled (strategy sup) i s s' (children sup) (children sup') ->
    (forall j d, children sup !! j = Some d -> exists d', children sup' !! j = Some d' /\ strategy_effect sup i s s' j d d') ->
    exit_effect t1 t2 sup s sup_pid reason i c true sup' s').
  { intros sup' s' Hh He. split; [split; apply Hh|apply Hh|done|done]. }
  rewrite Est. destruct (strategy sup) eqn:Es.
  - destruct (child_spec_start t3 c0 s0 sup_pid) as [[p c1] s1] eqn:E1. assert (H1 : (1 <= length (children sup))%nat) by (apply lookup_lt_Some in Hc; lia).
    destruct (child_spec_start_spec 0 _ _ _ _ _ _ _ (sane_le 1 _ _ H1 Hs0) E1) as (_ & I1 & D1). rewrite Is0 in *. assert (Hf : cs_pid c1 = PID_INVALID \/ (cs_pid c1 ∉ issued s /\ cs_pid c1 ∈ issued s1))
      by (destruct D1 as [[_ ->]|(<- & ? & ?)]; auto). apply Hend; simpl; rewrite Ec, list_insert_insert_eq.
    + apply handled_insert; done.
    + intros j d Hj. unfold strategy_effect. rewrite Es. simpl. destruct (decide (j = i)) as [->|Hne].
      * exists c1. simplify_eq. split; [apply list_lookup_insert_eq; by eapply lookup_lt_Some|]. split; [done|]. intros _. split; [|done].
        destruct (child_spec_start_keeps 0 _ _ _ _ _ _ _ (sane_le 1 _ _ H1 Hs0) E1) as [C1 _]. destruct Hsame as (? & Hcode & ? & ? & ?), C1 as (? & ? & ? & ? & ?). split; [|done|].
        -- unfold same_child. split_and!; congruence.
        -- intros Hr%Hroom Hc1. rewrite <- Hcode in Hc1. by apply (child_spec_start_roomy 0 _ _ _ _ _ _ _ (sane_le 1 _ _ H1 Hs0) (roomy_le 1 _ _ H1 Hr) E1).
      * exists d. rewrite list_lookup_insert_ne by done. split; [done|]. split; [done|]. tauto.
  - unfold restart_all_children. rewrite Ec. destruct (restart_children t3 sup_pid (<[i := c0]> (children sup)) s0) as [[ok cs1] s1] eqn:E1.
    destruct (restart_children_spec _ _ _ _ _ _ _ (sane_le _ _ _ (Hle 0%nat) Hs0) E1) as (I1 & L1 & N1 & F1). unfold fresh_pids in F1. rewrite Is0 in *. apply Hend; simpl.
    + apply (handled_rest SUP_ONE_FOR_ALL i 0 s s1 (children sup) c0 cs1); try done. lia.
    + apply (rest_effect t3 sup s s0 sup_pid i 0 c c0 ok cs1 s1); try done; [lia|]. intros j. rewrite Es. simpl. lia.
  - unfold restart_rest_for_one. rewrite Ec. destruct (restart_children t3 sup_pid (drop i (<[i := c0]> (children sup))) s0) as [[ok cs1] s1] eqn:E1.
    destruct (restart_children_spec _ _ _ _ _ _ _ (sane_le _ _ _ (Hle i) Hs0) E1) as (I1 & L1 & N1 & F1). unfold fresh_pids in F1. rewrite Is0 in *. apply Hend; simpl.
    + by apply (handled_rest SUP_REST_FOR_ONE i i s s1 (children sup) c0 cs1).
    + apply (rest_effect t3 sup s s0 sup_pid i i c c0 ok cs1 s1); try done. intros j. by rewrite Es.
Qed.
End effects.

(** C9: restart strategies.  When a process that is a child of a supervisor exits, a
    restart is due if the kind of the child calls for it and neither the child's nor
    the supervisor's limit of restarts in a window is reached.  When it is due,
    one-for-one restarts that child and leaves every other alone, rest-for-one
    restarts it and all children behind it and leaves the ones before it alone, and
    one-for-all restarts every child: each restarted child keeps its specification,
    its old process is dead and its new one has an identifier that was never handed
    out before (no process at all only without code or when the scheduler has no room
    for as many blocks as there are children).  When it is
    not due, nothing is killed or started: the child is left without a process and
    all others are unchanged; the supervisor reports failure when its own limit is
    what forbids the restart.  In every case no process is supervised twice.  An exit
    of a process that is no child, or during shutdown, changes nothing.  Before, the
    children have different processes, which the scheduler has handed out ([sup_ok]),
    and the scheduler has as many identifiers left as there are children ([sane]; its
    laws, [SchedulerLaws], are proved of the modelled one in
    [Scheduler.scheduler_laws]). *)
Theorem supervisor_strategies t1 t2 t3 sup (s : S) sup_pid child_pid reason :
  sup_ok sup s -> sane (length (children sup)) s -> child_pid <> PID_INVALID ->
  let '(r, sup', s') := supervisor_handle_exit t1 t2 t3 sup s sup_pid child_pid reason in
  match find_child_index sup child_pid with
  | None => r = true /\ sup' = sup /\ s' = s
  | Some i =>
      if shutting_down sup then r = true /\ sup' = sup /\ s' = s
      else exists c, children sup !! i = Some c /\ cs_pid c = child_pid /\
             exit_effect t1 t2 sup s sup_pid reason i c r sup' s'
  end.
Proof.
  intros Hok Hsane Hcp. unfold supervisor_handle_exit. destruct (shutting_down sup) eqn:Esd; [by case_match|].
  destruct (find_child_index sup child_pid) as [i|] eqn:Ei; [|done].
  pose proof Ei as (c & Hc & Hpid)%find_index_Some. apply Z.eqb_eq in Hpid. subst child_pid. rewrite Hc.
  destruct (can_restart_spec t1 (set_pid c PID_INVALID) reason) as (c0 & -> & Hsame & Hp0).
  change (same_child c c0) in Hsame. change (cs_pid c0 = PID_INVALID) in Hp0.
  change (bool_decide _) with (bool_decide (restartable (cs_restart c) reason /\ child_allows t1 c)).
  destruct (bool_decide _) eqn:Hcan; [apply bool_decide_eq_true in Hcan as [Hr Ha]|apply bool_decide_eq_false in Hcan]; simpl.
  2: { case_decide; exists c; (split_and!; [done|done|]); (eapply exit_refused; [done..|unfold restart_due; tauto|tauto]). }
  pose proof (renew_recent (restart_window_ms sup) t2 (total_restart_count sup) (window_start_ms sup)) as Hrec.
  destruct (renew_window _ _ _ _) as [count start]. simpl in Hrec. subst count. set (sup1 := set_totals _ _ _).
  assert (Hlim : supervisor_max_restarts_reached sup1 = false <-> supervisor_allows t2 sup).
  { unfold supervisor_max_restarts_reached, supervisor_allows, sup1. simpl. destruct (Z.eqb_spec (max_restarts sup) 0); [naive_solver|]. rewrite Z.leb_gt. lia. }
  destruct (supervisor_max_restarts_reached sup1).
  - exists c. split_and!; [done|done|]. eapply exit_refused; [done..| |done]. intros (_ & _ & Hs). by apply Hlim in Hs.
  - pose proof (exit_restarts t1 t2 t3 sup s sup_pid reason i c c0 Hok Hsane Hc Hsame Hp0 sup1 ltac:(split_and!; [done|done|by apply Hlim]) eq_refl eq_refl) as He.
    destruct (match strategy sup1 with SUP_ONE_FOR_ONE => _ | SUP_ONE_FOR_ALL => _ | SUP_REST_FOR_ONE => _ end) as [[r sup'] s']. eauto.
Qed.

End strategies.

(** ** The supervisor's own limit *)

Section limit.
Context {S : Type} `{SchedulerLaws S}.

(** The restart that [supervisor_handle_exit] performs. *)
Definition perform_restart (t3 : Z) (sup : Supervisor) (s : S) (sup_pid : Z) (i : nat) (spec : ChildSpec) : Supervisor :=
  match strategy sup with
  | SUP_ONE_FOR_ONE =>
      let '(_, spec, _) := child_spec_start t3 spec s sup_pid in
      set_children sup (<[i := spec]> (children sup)) (child_capacity sup)
  | SUP_ONE_FOR_ALL => (restart_all_children t3 sup s sup_pid).1.2
  | SUP_REST_FOR_ONE => (restart_rest_for_one t3 sup s sup_pid i).1.2
  end.

Lemma perform_restart_live t3 sup (s : S) sup_pid i spec :
  spawns -> Forall (fun c => is_Some (cs_code c)) (children sup) -> children sup !! i = Some spec ->
  forall j c, children (perform_restart t3 sup s sup_pid i spec) !! j = Some c ->
    ~ kept (strategy sup) i j -> cs_pid c <> PID_INVALID.
Proof.
  intros Hsp Hc Hi j c Hj Hk. unfold perform_restart in Hj.
  assert (Hspec : is_Some (cs_code spec)) by (rewrite Forall_forall in Hc; by eapply Hc, list_elem_of_lookup_2).
  destruct (strategy sup); simpl in Hk.
  - assert (j = i) as -> by (destruct (decide (j = i)); [done|by destruct Hk]).
    destruct (child_spec_start t3 spec s sup_pid) as [[p c1] s1] eqn:E1. simpl in Hj.
    rewrite list_lookup_insert_eq in Hj by (by eapply lookup_lt_Some). simplify_eq.
    by destruct (child_spec_start_live _ _ _ _ _ _ _ Hsp Hspec E1) as (? & -> & _).
  - unfold restart_all_children in Hj.
    destruct (restart_children t3 sup_pid (children sup) s) as [[ok cs1] s1] eqn:E1.
    destruct (restart_children_live _ _ _ _ _ _ _ Hsp Hc E1) as [_ Hl]. unfold all_live in Hl.
    rewrite Forall_forall in Hl. by eapply Hl, list_elem_of_lookup_2.
  - unfold restart_rest_for_one in Hj.
    destruct (restart_children t3 sup_pid (drop i (children sup)) s) as [[ok cs1] s1] eqn:E1.
    destruct (restart_children_live _ _ _ _ _ _ _ Hsp (Forall_drop _ _ _ Hc) E1) as [_ Hl].
    unfold all_live in Hl. rewrite Forall_forall in Hl. simpl in Hj.
    rewrite lookup_app_r in Hj; [by eapply Hl, list_elem_of_lookup_2|]. rewrite length_take. lia.
Qed.

(** The restart limit of a supervisor, on a scheduler with room for blocks, for
    a child that calls for a restart and has no limit of its own.  Within the
    window, as long as fewer than [max_restarts - 1] restarts have been made, the
    exit is handled and every child the strategy does not leave alone has a
    process again.  The restart is counted before the count is compared with
    the limit, so the exit after [max_restarts - 1] restarts already makes the
    supervisor give up: it reports failure and starts nothing.  (A child's own
    limit of [max_restarts] allows that many.) *)
Theorem supervisor_restart_limit t1 t2 t3 sup (s : S) sup_pid child_pid reason i c :
  spawns -> Forall (fun c => is_Some (cs_code c)) (children sup) ->
  shutting_down sup = false -> find_child_index sup child_pid = Some i -> children sup !! i = Some c ->
  restartable (cs_restart c) reason -> cs_max_restarts c = 0 ->
  0 < window_start_ms sup <= t2 -> t2 < window_start_ms sup + restart_window_ms sup <= 2 ^ 64 ->
  0 < max_restarts sup < 2 ^ 32 -> 0 <= total_restart_count sup < max_restarts sup ->
  let '(r, sup', s') := supervisor_handle_exit t1 t2 t3 sup s sup_pid child_pid reason in
  total_restart_count sup' = total_restart_count sup + 1 /\
  (total_restart_count sup < max_restarts sup - 1 ->
     r = true /\ forall j c', children sup' !! j = Some c' -> ~ kept (strategy sup) i j -> cs_pid c' <> PID_INVALID) /\
  (total_restart_count sup = max_restarts sup - 1 ->
     r = false /\ s' = update_block s sup_pid (fun b => block_unlink b child_pid) /\
     children sup' = <[i := set_pid c PID_INVALID]> (children sup)).
Proof.
  intros Hsp Hcode Hsd Hi Hc Hr Hm Hw Hw2 Hmx Ht. unfold supervisor_handle_exit. rewrite Hsd, Hi, Hc.
  assert (Hcan : child_spec_can_restart t1 (set_pid c PID_INVALID) reason = (true, set_pid c PID_INVALID)).
  { unfold child_spec_can_restart. simpl.
    rewrite decide_False by (destruct Hr as [->|[-> _]]; done).
    rewrite decide_False by (destruct Hr as [->|[_ ?]]; naive_solver). by rewrite Hm. }
  rewrite Hcan. simpl. rewrite renew_inside by lia. rewrite u32_small by (unfold is_u32; lia).
  unfold supervisor_max_restarts_reached. simpl. rewrite (proj2 (Z.eqb_neq (max_restarts sup) 0)) by lia.
  destruct (Z.leb_spec (max_restarts sup) (total_restart_count sup + 1)).
  { split; [done|]. split; [lia|done]. }
  set (s0 := update_block s sup_pid _). set (sup1 := set_totals _ _ _). set (c0 := set_pid c PID_INVALID).
  assert (Hlen : (i < length (children sup))%nat) by (by eapply lookup_lt_Some).
  assert (Hcode1 : Forall (fun c => is_Some (cs_code c)) (children sup1)).
  { apply Forall_insert; [done|]. rewrite Forall_forall in Hcode. by eapply (Hcode c), list_elem_of_lookup_2. }
  assert (Hc1 : children sup1 !! i = Some c0) by (by apply list_lookup_insert_eq).
  pose proof (perform_restart_live t3 sup1 s0 sup_pid i c0 Hsp Hcode1 Hc1) as Hlive.
  unfold perform_restart, restart_all_children, restart_rest_for_one in *.
  change (strategy sup1) with (strategy sup) in Hlive.
  destruct (strategy sup); repeat case_match; simplify_eq/=;
    (split; [done|]; split; [by split|intros; exfalso; lia]).
Qed.

End limit.

(** ** A scheduler that numbers its blocks *)

(** [scheduler_spawn] without workers: the next identifier and a new block under
    it.  A killed block stays in the registry, dead. *)
Record Numbered := mkNumbered { next_pid : nat; registry : gmap Z Block }.

#[global] Instance Numbered_ops : SchedulerOps Numbered := {
  spawn s code name :=
    let p := Z.of_nat (next_pid s) + 1 in
    (p, mkNumbered (Datatypes.S (next_pid s)) (<[p := (block_load (block_new p None None) code).2]> (registry s)));
  kill s p := mkNumbered (next_pid s) (alter (fun b => block_crash b (Some "killed"%string)) p (registry s));
  get_block s p := registry s !! p;
  update_block s p f := mkNumbered (next_pid s) (alter f p (registry s));
  issued s := list_to_set ((fun n => Z.of_nat n + 1) <$> seq 0 (next_pid s))
}.

Lemma issued_numbered (s : Numbered) p : p ∈ issued s <-> 1 <= p <= Z.of_nat (next_pid s).
Proof.
  unfold issued, Numbered_ops. rewrite elem_of_list_to_set, list_elem_of_fmap. split.
  - intros (k & -> & Hk%elem_of_seq). lia.
  - intros Hp. exists (Z.to_nat (p - 1)). rewrite elem_of_seq. lia.
Qed.

#[global] Instance Numbered_laws : SchedulerLaws Numbered.
Proof.
  refine {| sane := fun _ _ => True; roomy := fun _ _ => True |}; try done.
  - intros n s code name _ _. unfold spawn, get_block, Numbered_ops, PID_INVALID. cbn [fst snd registry].
    split; [lia|]. by rewrite lookup_insert_eq.
  - intros n s code name p s' _ E _. unfold spawn, Numbered_ops in E. injection E as <- <-.
    rewrite !issued_numbered. cbn [next_pid]. lia.
  - intros n s code name _ q. rewrite !issued_numbered. unfold spawn, Numbered_ops. cbn [next_pid snd]. lia.
  - intros n s p _ b. unfold get_block, kill, Numbered_ops. cbn [registry]. rewrite lookup_alter_eq. by destruct (registry s !! p) as [?|]; [intros [= <-]|].
  - intros n s p q _ Hq b. unfold get_block, kill, Numbered_ops. cbn [registry]. destruct (decide (p = q)) as [->|Hne].
    + rewrite lookup_alter_eq. by destruct (registry s !! q) as [?|]; [intros [= <-]|].
    + rewrite lookup_alter_ne by done. apply Hq.
  - intros n s code name q _ Hi%issued_numbered Hq b. unfold get_block, spawn, Numbered_ops. cbn [registry snd]. rewrite lookup_insert_ne by lia. apply Hq.
  - intros s p f q. unfold get_block, update_block, Numbered_ops. cbn [registry]. case_decide as E; [subst; apply lookup_alter_eq|by apply lookup_alter_ne].
Defined.

(** A supervisor with two children on a fresh scheduler. *)
Definition two_children : Supervisor * Numbered :=
  let s0 := mkNumbered 1 {[1 := block_new 1 None None]} in
  let sup := mkSupervisor SUP_REST_FOR_ONE 5 60000 [] 0 4 70000 false in
  let '(_, sup, s) := supervisor_add_child_ex true 70000 sup s0 1 None 100 RESTART_PERMANENT 0 5000 in
  let '(_, sup, s) := supervisor_add_child_ex true 70000 sup s 1 None 101 RESTART_PERMANENT 0 5000 in
  (sup, s).

Lemma two_children_ok : sup_ok two_children.1 two_children.2.
Proof.
  split.
  - intros [|[|j]] [|[|k]] c d Hc Hd; vm_compute in Hc, Hd; simplify_eq; try done.
  - intros [|[|j]] c Hc; vm_compute in Hc; simplify_eq; right; apply issued_numbered; vm_compute; split; congruence.
Qed.

Lemma supervisor_strategies_witness :
  let '(r, sup', s') := supervisor_handle_exit 70001 200000 70001 two_children.1 two_children.2 1 2 EXIT_CRASH in
  r = true /\ sup_ok sup' s' /\ stopped s' 3 /\ cs_pid <$> children sup' = [4; 5].
Proof.
  pose proof (supervisor_strategies 70001 200000 70001 two_children.1 two_children.2 1 2 EXIT_CRASH
    two_children_ok I ltac:(discriminate)) as H.
  destruct (supervisor_handle_exit 70001 200000 70001 two_children.1 two_children.2 1 2 EXIT_CRASH)
    as [[r sup'] s'] eqn:E.
  destruct H as (c & Hc & _ & [Hok _ Hdue _]). vm_compute in Hc. injection Hc as <-.
  destruct Hdue as [Hr Hd]. { split_and!; [by left|by left|right; vm_compute; reflexivity]. }
  destruct (Hd 1%nat _ eq_refl) as (d' & _ & [_ He]). destruct He as [_ Hst]. { vm_compute. intros Hl. inversion Hl. }
  split_and!; [done|done|by apply Hst|]. vm_compute in E. injection E as <- <- <-. reflexivity.
Defined.

Lemma Numbered_spawns : spawns (S := Numbered).
Proof.
  intros s code name. unfold spawn, get_block, Numbered_ops, PID_INVALID. cbn [fst snd registry].
  split; [lia|]. by rewrite lookup_insert_eq.
Qed.

Lemma supervisor_restart_limit_witness :
  let '(r, sup', s') := supervisor_handle_exit 70001 70002 70003 two_children.1 two_children.2 1 2 EXIT_CRASH in
  total_restart_count two_children.1 = 4 /\ max_restarts two_children.1 = 5 /\ r = false.
Proof.
  pose proof (supervisor_restart_limit 70001 70002 70003 two_children.1 two_children.2 1 2 EXIT_CRASH 0
    (mkChild None (Some 100) RESTART_PERMANENT 0 5000 2 0 0 70000) Numbered_spawns
    ltac:(repeat constructor; eexists; reflexivity) eq_refl eq_refl eq_refl (or_introl eq_refl) eq_refl) as H.
  destruct (supervisor_handle_exit 70001 70002 70003 two_children.1 two_children.2 1 2 EXIT_CRASH)
    as [[r sup'] s'] eqn:E.
  split; [reflexivity|]. split; [reflexivity|]. apply H; vm_compute; repeat split; congruence.
Defined.
