(* ===== verification/Deque.v ===== *)
(** * The work-stealing deque (src/runtime/worker.c)

    The run queue of a worker: [deque_push], [deque_pop], [deque_steal] and the
    growth of the buffer, by any number of threads, at the grain of the accesses
    to shared memory (sequentially consistent: the weaker orders the code asks
    for are not modelled).  A step makes at most one access that another thread
    can observe or disturb when one thread at a time pushes or pops; loads of
    what only that thread writes are part of the step they precede.

    The history records every operation at the step where it takes effect, and
    [replay] runs a history on a plain list: the deque is correct when the list
    is what lies between [top] and [bottom]. *)

From Stdlib Require Import ZArith Lia.
From stdpp Require Import base list numbers gmap fin_maps.
From S2P Require Import Prelude Value.
Local Open Scope Z_scope.

(** ** Data *)

Definition DEQUE_INITIAL_CAPACITY : Z := 64.

(** A slot holds a block pointer, or nothing yet: [malloc]ed and not written. *)
Notation slot := (option ptr).

(** Where a thread is inside a call. *)
Inductive call :=
  (* deque_push(deque, block) *)
  | PushBottom (block : ptr)                 (** about to load [bottom] *)
  | PushTop (block : ptr) (bottom : Z)       (** about to load [top] and [capacity] *)
  | PushSlot (block : ptr) (bottom capacity : Z) (** about to load [buffer] and store into it *)
  | PushStore (block : ptr) (bottom : Z)     (** about to store [bottom + 1] *)
  (* deque_grow, inside deque_push *)
  | GrowAlloc (block : ptr) (bottom : Z)     (** about to load [capacity] and [buffer] and allocate *)
  | GrowCopy (block : ptr) (bottom old_cap : Z) (old_buf new_buf : ptr) (** about to load [top] and copy *)
  | GrowBuf (block : ptr) (bottom old_cap : Z) (old_buf new_buf : ptr)  (** about to store [buffer] *)
  | GrowCap (block : ptr) (bottom old_cap : Z) (old_buf : ptr)  (** about to store [capacity] *)
  | GrowEpoch (block : ptr) (bottom : Z) (old_buf : ptr)  (** about to increment [global_epoch] *)
  | GrowRetire (block : ptr) (bottom : Z) (old_buf : ptr) (** about to retire the old buffer *)
  | GrowReclaim (block : ptr) (bottom : Z)   (** about to free retired buffers, then to reload [capacity] *)
  (* deque_pop(deque) *)
  | PopBottom                                (** about to load [bottom] *)
  | PopStore (bottom : Z)                    (** about to store the decremented [bottom] *)
  | PopTop (bottom : Z)                      (** about to load [top], and the slot if there is one *)
  | PopCas (bottom : Z) (block : slot)       (** about to compare and exchange [top] *)
  | PopRestore (bottom : Z)                  (** about to store [bottom + 1] *)
  (* deque_steal(deque) *)
  | StealTop                                 (** about to load [top] *)
  | StealBottom (top : Z)                    (** about to load [bottom] *)
  | StealCap (top : Z)                       (** about to load [capacity] *)
  | StealBuf (top capacity : Z)              (** about to load [buffer] *)
  | StealSlot (top capacity : Z) (buffer : ptr) (epoch : Z) (** about to load the slot; [epoch]: growths when [buffer] was loaded *)
  | StealCas (top : Z) (block : slot).       (** about to compare and exchange [top] *)

(** Operations as they take effect. *)
Inductive op :=
  | Pushed (block : ptr)
  | Popped (block : slot)
  | PopEmpty
  | Stolen (block : slot).

Record WorkDeque := mkDeque {
  d_top : Z;
  d_bottom : Z;
  d_buffer : ptr;
  d_capacity : Z;
  d_epoch : Z;
  d_retired : list (ptr * Z);          (** retired buffers with their epochs *)
  d_bufs : gmap Z (list slot);         (** the allocated buffers *)
  d_calls : gmap Z call;               (** the threads inside a call *)
  d_log : list op
}.

Definition set_call (st : WorkDeque) (t : Z) (c : option call) : WorkDeque :=
  mkDeque (d_top st) (d_bottom st) (d_buffer st) (d_capacity st) (d_epoch st) (d_retired st) (d_bufs st)
    (match c with Some c => <[t := c]> (d_calls st) | None => delete t (d_calls st) end) (d_log st).
Definition store_top (st : WorkDeque) (top : Z) : WorkDeque :=
  mkDeque top (d_bottom st) (d_buffer st) (d_capacity st) (d_epoch st) (d_retired st) (d_bufs st)
    (d_calls st) (d_log st).
Definition store_bottom (st : WorkDeque) (bottom : Z) : WorkDeque :=
  mkDeque (d_top st) bottom (d_buffer st) (d_capacity st) (d_epoch st) (d_retired st) (d_bufs st)
    (d_calls st) (d_log st).
Definition store_buffer (st : WorkDeque) (buffer : ptr) : WorkDeque :=
  mkDeque (d_top st) (d_bottom st) buffer (d_capacity st) (d_epoch st) (d_retired st) (d_bufs st)
    (d_calls st) (d_log st).
Definition store_capacity (st : WorkDeque) (capacity : Z) : WorkDeque :=
  mkDeque (d_top st) (d_bottom st) (d_buffer st) capacity (d_epoch st) (d_retired st) (d_bufs st)
    (d_calls st) (d_log st).
Definition store_epoch (st : WorkDeque) (epoch : Z) : WorkDeque :=
  mkDeque (d_top st) (d_bottom st) (d_buffer st) (d_capacity st) epoch (d_retired st) (d_bufs st)
    (d_calls st) (d_log st).
Definition set_buffers (st : WorkDeque) (retired : list (ptr * Z)) (bufs : gmap Z (list slot)) : WorkDeque :=
  mkDeque (d_top st) (d_bottom st) (d_buffer st) (d_capacity st) (d_epoch st) retired bufs
    (d_calls st) (d_log st).
Definition log (st : WorkDeque) (o : op) : WorkDeque :=
  mkDeque (d_top st) (d_bottom st) (d_buffer st) (d_capacity st) (d_epoch st) (d_retired st) (d_bufs st)
    (d_calls st) (d_log st ++ [o]).

(** ** Operations *)

(** [i % capacity] as an index. *)
Definition slot_index (i capacity : Z) : nat := Z.to_nat (i mod capacity).

Definition deque_init (buffer : ptr) : WorkDeque :=
  mkDeque 0 0 buffer DEQUE_INITIAL_CAPACITY 0 []
    {[buffer := replicate (Z.to_nat DEQUE_INITIAL_CAPACITY) (Some NULL)]} ∅ [].

(** The loop of [deque_grow], [n] iterations from [i]; [None]: out of range. *)
Fixpoint copy_slots (n : nat) (i old_cap new_cap : Z) (old new : list slot) : option (list slot) :=
  match n with
  | O => Some new
  | S n =>
      match old !! slot_index i old_cap with
      | Some b =>
          if bool_decide (slot_index i new_cap < length new)%nat
          then copy_slots n (i + 1) old_cap new_cap old (<[slot_index i new_cap := b]> new)
          else None
      | None => None
      end
  end.

Definition deque_retire_buffer (st : WorkDeque) (malloc_ok : bool) (old_buf : ptr) : WorkDeque :=
  if malloc_ok then set_buffers st ((old_buf, d_epoch st) :: d_retired st) (d_bufs st) else st.

Definition expired (current_epoch : Z) (r : ptr * Z) : bool := 2 <=? u64 (current_epoch - r.2).

Definition deque_reclaim_buffers (st : WorkDeque) : WorkDeque :=
  let e := d_epoch st in
  set_buffers st (filter (fun r => expired e r = false) (d_retired st))
    (foldr (fun r bufs => if expired e r then delete r.1 bufs else bufs) (d_bufs st) (d_retired st)).

(** One step of a thread.  [malloced] is the buffer [malloc] returns in
    [deque_grow], NULL on failure, and [malloc_ok] whether the node for a retired
    buffer can be allocated.  [None]: undefined behaviour, an access to a buffer
    that is not allocated or outside its bounds. *)
Definition push_step (st : WorkDeque) (t : Z) (c : call) (malloced : ptr) (malloc_ok : bool) : option WorkDeque :=
  match c with
  | PushBottom x => Some (set_call st t (Some (PushTop x (d_bottom st))))
  | PushTop x b =>
      let capacity := d_capacity st in
      Some (set_call st t (Some
        (if u64 (capacity - 1) <=? u64 (b - d_top st) then GrowAlloc x b else PushSlot x b capacity)))
  | PushSlot x b capacity =>
      buf ← d_bufs st !! d_buffer st;
      if bool_decide (slot_index b capacity < length buf)%nat
      then Some (set_call (set_buffers st (d_retired st)
                   (<[d_buffer st := <[slot_index b capacity := Some x]> buf]> (d_bufs st)))
                   t (Some (PushStore x b)))
      else None
  | PushStore x b => Some (set_call (log (store_bottom st (u64 (b + 1))) (Pushed x)) t None)
  | GrowAlloc x b =>
      if malloced =? NULL then Some (set_call st t (Some (PushSlot x b (d_capacity st))))
      else if bool_decide (malloced ∈ dom (d_bufs st)) then None
      else Some (set_call (set_buffers st (d_retired st)
                   (<[malloced := replicate (Z.to_nat (u64 (d_capacity st * 2))) None]> (d_bufs st)))
                   t (Some (GrowCopy x b (d_capacity st) (d_buffer st) malloced)))
  | GrowCopy x b old_cap old_buf new_buf =>
      old ← d_bufs st !! old_buf;
      new ← d_bufs st !! new_buf;
      new ← copy_slots (Z.to_nat (d_bottom st - d_top st)) (d_top st) old_cap (u64 (old_cap * 2)) old new;
      Some (set_call (set_buffers st (d_retired st) (<[new_buf := new]> (d_bufs st)))
              t (Some (GrowBuf x b old_cap old_buf new_buf)))
  | GrowBuf x b old_cap old_buf new_buf =>
      Some (set_call (store_buffer st new_buf) t (Some (GrowCap x b old_cap old_buf)))
  | GrowCap x b old_cap old_buf =>
      Some (set_call (store_capacity st (u64 (old_cap * 2))) t (Some (GrowEpoch x b old_buf)))
  | GrowEpoch x b old_buf =>
      Some (set_call (store_epoch st (u64 (d_epoch st + 1))) t (Some (GrowRetire x b old_buf)))
  | GrowRetire x b old_buf =>
      Some (set_call (deque_retire_buffer st malloc_ok old_buf) t (Some (GrowReclaim x b)))
  | GrowReclaim x b =>
      Some (set_call (deque_reclaim_buffers st) t (Some (PushSlot x b (d_capacity st))))
  | _ => None
  end.

Definition pop_step (st : WorkDeque) (t : Z) (c : call) : option WorkDeque :=
  match c with
  | PopBottom =>
      if d_bottom st =? 0 then Some (set_call (log st PopEmpty) t None)
      else Some (set_call st t (Some (PopStore (u64 (d_bottom st - 1)))))
  | PopStore b => Some (set_call (store_bottom st b) t (Some (PopTop b)))
  | PopTop b =>
      if b <? d_top st then Some (set_call (log st PopEmpty) t (Some (PopRestore b)))
      else
        buf ← d_bufs st !! d_buffer st;
        x ← buf !! slot_index b (d_capacity st);
        Some (if d_top st =? b then set_call st t (Some (PopCas b x))
              else set_call (log st (Popped x)) t None)
  | PopCas b x =>
      Some (set_call
        (if d_top st =? b then log (store_top st (u64 (b + 1))) (Popped x) else log st PopEmpty)
        t (Some (PopRestore b)))
  | PopRestore b => Some (set_call (store_bottom st (u64 (b + 1))) t None)
  | _ => None
  end.

Definition steal_step (st : WorkDeque) (t : Z) (c : call) : option WorkDeque :=
  match c with
  | StealTop => Some (set_call st t (Some (StealBottom (d_top st))))
  | StealBottom top =>
      Some (set_call st t (if d_bottom st <=? top then None else Some (StealCap top)))
  | StealCap top => Some (set_call st t (Some (StealBuf top (d_capacity st))))
  | StealBuf top capacity => Some (set_call st t (Some (StealSlot top capacity (d_buffer st) (d_epoch st))))
  | StealSlot top capacity buffer _ =>
      buf ← d_bufs st !! buffer;
      x ← buf !! slot_index top capacity;
      Some (set_call st t (Some (StealCas top x)))
  | StealCas top x =>
      Some (set_call
        (if d_top st =? top then log (store_top st (u64 (top + 1))) (Stolen x) else st) t None)
  | _ => None
  end.

Definition is_push (c : call) : bool :=
  match c with
  | PushBottom _ | PushTop _ _ | PushSlot _ _ _ | PushStore _ _ | GrowAlloc _ _ | GrowCopy _ _ _ _ _
  | GrowBuf _ _ _ _ _ | GrowCap _ _ _ _ | GrowEpoch _ _ _ | GrowRetire _ _ _ | GrowReclaim _ _ => true
  | _ => false
  end.
Definition is_pop (c : call) : bool :=
  match c with
  | PopBottom | PopStore _ | PopTop _ | PopCas _ _ | PopRestore _ => true
  | _ => false
  end.

Inductive event :=
  | ECall (t : Z) (c : call)                            (** thread [t] enters a function *)
  | EStep (t : Z) (malloced : ptr) (malloc_ok : bool).  (** thread [t] makes its next step *)

(** The first step of each function; [worker_enqueue] does not push NULL. *)
Definition is_entry (c : call) : bool :=
  match c with
  | PushBottom x => negb (x =? NULL)
  | PopBottom | StealTop => true
  | _ => false
  end.

Definition deque_step (st : WorkDeque) (e : event) : option WorkDeque :=
  match e with
  | ECall t c =>
      if bool_decide (d_calls st !! t = None) && is_entry c then Some (set_call st t (Some c)) else None
  | EStep t malloced malloc_ok =>
      c ← d_calls st !! t;
      if is_push c then push_step st t c malloced malloc_ok
      else if is_pop c then pop_step st t c
      else steal_step st t c
  end.

Fixpoint deque_run (st : WorkDeque) (es : list event) : option WorkDeque :=
  match es with
  | [] => Some st
  | e :: es => st ← deque_step st e; deque_run st es
  end.

Definition deque_empty (st : WorkDeque) : bool := d_bottom st <=? d_top st.
Definition deque_size (st : WorkDeque) : Z :=
  if d_top st <? d_bottom st then u64 (d_bottom st - d_top st) else 0.

(** ** Specification *)

(** A deque is a list: the owner works at its end, thieves at its front. *)
Definition apply_op (q : option (list ptr)) (o : op) : option (list ptr) :=
  q ← q;
  match o with
  | Pushed x => Some (q ++ [x])
  | Popped x => if bool_decide (x = last q) && negb (bool_decide (q = [])) then Some (removelast q) else None
  | PopEmpty => if bool_decide (q = []) then Some [] else None
  | Stolen x => match q with y :: q => if bool_decide (x = Some y) then Some q else None | [] => None end
  end.

Definition replay (ops : list op) : option (list ptr) := foldl apply_op (Some []) ops.

(** The discipline the deque relies on.  One thread at a time pushes or pops; no
    thief is between its loads of [capacity] and [buffer] while the new buffer
    is published and its capacity is not; and no more than two growths happen
    between a thief's load of the buffer and of its slot. *)
Definition is_owner (c : call) : bool := is_push c || is_pop c.

Record disciplined (st : WorkDeque) : Prop := {
  one_owner t1 t2 c1 c2 : d_calls st !! t1 = Some c1 -> d_calls st !! t2 = Some c2 ->
    is_owner c1 -> is_owner c2 -> t1 = t2;
  growth_apart t1 t2 x b cap old top c :
    d_calls st !! t1 = Some (GrowCap x b cap old) -> d_calls st !! t2 <> Some (StealBuf top c);
  steal_brief t top c buf e : d_calls st !! t = Some (StealSlot top c buf e) -> d_epoch st < e + 3
}.

Definition alloc_ok (e : event) : Prop :=
  match e with EStep _ malloced _ => malloced <> NULL | ECall _ _ => True end.

Inductive calm (st0 : WorkDeque) : WorkDeque -> Prop :=
  | calm_initial : calm st0 st0
  | calm_step st e st' :
      calm st0 st -> alloc_ok e -> deque_step st e = Some st' -> disciplined st' -> calm st0 st'.

(** ** Indices and the copy loop *)

Lemma slot_index_lt i c (l : list slot) :
  0 < c -> Z.of_nat (length l) = c -> (slot_index i c < length l)%nat.
Proof. intros Hc Hl. unfold slot_index. pose proof (Z.mod_pos_bound i c Hc). lia. Qed.

Lemma slot_index_inj i j c : 0 < c -> slot_index i c = slot_index j c -> - c < i - j < c -> i = j.
Proof.
  intros Hc E Hd. unfold slot_index in E.
  pose proof (Z.mod_pos_bound i c Hc). pose proof (Z.mod_pos_bound j c Hc).
  pose proof (Z.div_mod i c ltac:(lia)). pose proof (Z.div_mod j c ltac:(lia)).
  assert (i - j = c * (i / c - j / c)) by lia. assert (i / c - j / c = 0) by nia. nia.
Qed.

Lemma slot_index_Some i c (l : list slot) :
  0 < c -> Z.of_nat (length l) = c -> is_Some (l !! slot_index i c).
Proof. intros Hc Hl. apply lookup_lt_is_Some_2. by apply slot_index_lt. Qed.

Lemma copy_slots_spec n : forall i oc nc old new,
  0 < oc <= nc -> Z.of_nat n <= oc -> Z.of_nat (length old) = oc -> Z.of_nat (length new) = nc ->
  exists l, copy_slots n i oc nc old new = Some l /\ length l = length new /\
    (forall j, i <= j < i + Z.of_nat n -> l !! slot_index j nc = old !! slot_index j oc) /\
    (forall j, i + Z.of_nat n - nc <= j < i -> l !! slot_index j nc = new !! slot_index j nc).
Proof.
  induction n as [|n IH]; intros i oc nc old new Hc Hn Ho Hl; simpl.
  { exists new. split_and!; try done. lia. }
  destruct (slot_index_Some i oc old) as [b Hb]; [lia|done|]. rewrite Hb.
  pose proof (slot_index_lt i nc new ltac:(lia) Hl) as Hlt. rewrite bool_decide_eq_true_2 by done.
  destruct (IH (i + 1) oc nc old (<[slot_index i nc := b]> new)) as (l & E & L & H1 & H2);
    try (rewrite ?length_insert; lia).
  exists l. rewrite length_insert in L. split_and!; [done|done| |].
  - intros j Hj. destruct (decide (j = i)) as [->|Hne]; [|apply H1; lia].
    rewrite H2 by lia. by rewrite list_lookup_insert_eq.
  - intros j Hj. rewrite H2 by lia. apply list_lookup_insert_ne.
    intros E'. apply slot_index_inj in E'; lia.
Qed.

(** ** The invariant *)

(** [buf] holds the blocks [q] from position [top] on. *)
Definition holds (buf : list slot) (cap top : Z) (q : list ptr) : Prop :=
  forall i x, q !! i = Some x -> buf !! slot_index (top + Z.of_nat i) cap = Some (Some x).

(** The end of the deque: a pop that has not decided yet has only lowered
    [bottom]. *)
Definition eff (st : WorkDeque) (o : option call) : Z :=
  match o with
  | Some (PopTop _ | PopCas _ _ | PopRestore _) => d_bottom st + 1
  | _ => d_bottom st
  end.

(** The capacity of the current buffer. *)
Definition ecap (st : WorkDeque) (o : option call) : Z :=
  match o with Some (GrowCap _ _ c _) => c * 2 | _ => d_capacity st end.

Definition owned (st : WorkDeque) (o : option call) : Prop :=
  match o with
  | Some c => exists t, d_calls st !! t = Some c /\ is_owner c = true /\
      forall t' c', d_calls st !! t' = Some c' -> is_owner c' = true -> t' = t
  | None => forall t c, d_calls st !! t = Some c -> is_owner c = false
  end.

(** A retired, or to be retired, buffer. *)
Definition replaced (st : WorkDeque) (a : ptr) : Prop :=
  is_Some (d_bufs st !! a) /\ a <> d_buffer st.
Definition unretired (st : WorkDeque) (a : ptr) : Prop := a ∉ (d_retired st).*1.

Definition owner_ok (st : WorkDeque) (q : list ptr) (c : call) : Prop :=
  match c with
  | PushTop _ b => b = d_bottom st
  | PushSlot _ b cap => b = d_bottom st /\ cap = d_capacity st /\ b - d_top st < cap
  | PushStore x b => b = d_bottom st /\ b - d_top st < d_capacity st /\
      exists l, d_bufs st !! d_buffer st = Some l /\ l !! slot_index b (d_capacity st) = Some (Some x)
  | GrowAlloc _ b => b = d_bottom st /\ d_capacity st <= b + 1
  | GrowCopy _ b cap old new =>
      b = d_bottom st /\ cap = d_capacity st /\ cap <= b + 1 /\ old = d_buffer st /\
      (exists l, d_bufs st !! new = Some l /\ Z.of_nat (length l) = cap * 2) /\
      new <> old /\ unretired st new /\
      (forall t top c e, d_calls st !! t <> Some (StealSlot top c new e))
  | GrowBuf _ b cap old new =>
      b = d_bottom st /\ cap = d_capacity st /\ cap <= b + 1 /\ old = d_buffer st /\
      (exists l, d_bufs st !! new = Some l /\ Z.of_nat (length l) = cap * 2 /\ holds l (cap * 2) (d_top st) q) /\
      new <> old /\ unretired st new
  | GrowCap _ b cap old =>
      b = d_bottom st /\ b - d_top st < cap * 2 /\ d_epoch st + 65 <= cap * 2 /\ replaced st old /\ unretired st old
  | GrowEpoch _ b old =>
      b = d_bottom st /\ b - d_top st < d_capacity st /\ d_epoch st + 65 <= d_capacity st /\
      replaced st old /\ unretired st old
  | GrowRetire _ b old =>
      b = d_bottom st /\ b - d_top st < d_capacity st /\ replaced st old /\ unretired st old
  | GrowReclaim _ b => b = d_bottom st /\ b - d_top st < d_capacity st
  | PopStore b => b = d_bottom st - 1 /\ 0 <= b
  | PopTop b => b = d_bottom st /\ 0 <= b
  | PopCas b x => b = d_bottom st /\ b <= d_top st /\ (d_top st = b -> q <> [] /\ x = list.head q)
  | PopRestore b => b = d_bottom st /\ d_top st = b + 1
  | _ => True
  end.

(** A thief that passed the test of [bottom] has a block to steal unless
    another thread has advanced [top]. *)
Definition thief_ok (st : WorkDeque) (o : option call) (q : list ptr) (c : call) : Prop :=
  match c with
  | StealBottom top => top <= d_top st
  | StealCap top => top <= d_top st /\ (d_top st = top -> q <> [])
  | StealBuf top cap => top <= d_top st /\ (d_top st = top -> q <> []) /\ cap = d_capacity st
  | StealSlot top cap buf e =>
      top <= d_top st /\ (d_top st = top -> q <> []) /\ 0 <= e <= d_epoch st /\
      (exists l, d_bufs st !! buf = Some l /\ Z.of_nat (length l) = cap /\ 0 < cap /\
         (d_top st = top -> l !! slot_index top cap = Some (list.head q))) /\
      (forall tag, (buf, tag) ∈ d_retired st -> e + 1 <= tag) /\
      (forall x b, o = Some (GrowRetire x b buf) -> e + 1 <= d_epoch st)
  | StealCas top x => top <= d_top st /\ (d_top st = top -> q <> [] /\ x = list.head q)
  | _ => True
  end.

(** What does not depend on the threads. *)
Record Core (st : WorkDeque) (o : option call) (q : list ptr) : Prop := {
  c_replay : replay (d_log st) = Some q;
  c_top : 0 <= d_top st;
  c_len : Z.of_nat (length q) = eff st o - d_top st;
  c_fit : eff st o - d_top st <= ecap st o;
  c_bottom : eff st o <= Z.of_nat (length (d_log st));
  c_cap : 64 <= ecap st o <= 64 + 2 * (Z.of_nat (length (d_log st)) + 1);
  c_epoch : 0 <= d_epoch st /\ d_epoch st + 64 <= ecap st o;
  c_buf : exists l, d_bufs st !! d_buffer st = Some l /\ Z.of_nat (length l) = ecap st o /\
    holds l (ecap st o) (d_top st) q;
  c_retired a tag : (a, tag) ∈ d_retired st -> replaced st a /\ 0 <= tag <= d_epoch st;
  c_nodup : NoDup (d_retired st).*1
}.

Record Inv (st : WorkDeque) (o : option call) (q : list ptr) : Prop := {
  i_core : Core st o q;
  i_owned : owned st o;
  i_owner c : o = Some c -> owner_ok st q c;
  i_thieves t c : d_calls st !! t = Some c -> is_owner c = false -> thief_ok st o q c
}.

(** ** Preservation *)

Lemma replay_snoc ops o : replay (ops ++ [o]) = apply_op (replay ops) o.
Proof. unfold replay. by rewrite foldl_app. Qed.

Lemma thief_ok_calls st t oc o q c : thief_ok (set_call st t oc) o q c <-> thief_ok st o q c.
Proof. by destruct c. Qed.

Lemma Core_calls st t oc o q : Core (set_call st t oc) o q <-> Core st o q.
Proof. split; intros []; split; auto. Qed.

Lemma calls_set_call st t oc t' :
  d_calls (set_call st t oc) !! t' = if decide (t' = t) then oc else d_calls st !! t'.
Proof.
  unfold set_call. destruct oc; simpl; case_decide; subst;
    by rewrite ?lookup_insert_eq, ?lookup_delete_eq, ?lookup_insert_ne, ?lookup_delete_ne.
Qed.

(** A step of the owner: its new state, the rest of the memory, and the thieves. *)
Lemma Inv_owner st t c st1 oc q q1 :
  Inv st (Some c) q -> d_calls st !! t = Some c -> is_owner c = true -> d_calls st1 = d_calls st ->
  (forall c', oc = Some c' -> is_owner c' = true) ->
  Core st1 oc q1 ->
  (forall c', oc = Some c' -> owner_ok (set_call st1 t oc) q1 c') ->
  (forall t' c', d_calls st !! t' = Some c' -> is_owner c' = false ->
     thief_ok st (Some c) q c' -> thief_ok st1 oc q1 c') ->
  Inv (set_call st1 t oc) oc q1.
Proof.
  intros [_ (t0 & _ & _ & Hu) _ Ht] Hc Ho Hcalls Hoc Hcore Hown Hth. rewrite <- Hcalls in *.
  pose proof (Hu _ _ Hc Ho) as <-. split.
  - by apply Core_calls.
  - destruct oc as [c1|]; unfold owned.
    + exists t. rewrite calls_set_call, decide_True by done. split_and!; auto.
      intros t' c'. rewrite calls_set_call. case_decide; [done|]. eauto.
    + intros t' c'. rewrite calls_set_call. case_decide; [done|]. intros Hc'.
      destruct (is_owner c') eqn:E; [|done]. by destruct (Hu _ _ Hc' E).
  - exact Hown.
  - intros t' c'. rewrite calls_set_call. case_decide; [intros E Hn|].
    + specialize (Hoc _ E). congruence.
    + intros Hc' Hn. apply thief_ok_calls. eauto.
Qed.

(** A step of a thief that changes its own state only. *)
Lemma Inv_thief st o q t c oc :
  Inv st o q -> d_calls st !! t = Some c -> is_owner c = false ->
  (forall c', oc = Some c' -> is_owner c' = false /\ thief_ok st o q c' /\
     forall top cap buf e, c' = StealSlot top cap buf e -> buf = d_buffer st) ->
  Inv (set_call st t oc) o q.
Proof.
  intros [Hcore Hown Ho Ht] Hc Hn Hoc. split.
  - by apply Core_calls.
  - destruct o as [c1|]; unfold owned in *.
    + destruct Hown as (t1 & H1 & H2 & H3). exists t1.
      assert (t1 <> t) by congruence. rewrite calls_set_call, decide_False by done. split_and!; auto.
      intros t' c'. rewrite calls_set_call. case_decide; [|eauto].
      intros E. destruct (Hoc _ E). congruence.
    + intros t' c'. rewrite calls_set_call. case_decide; [|eauto]. intros E. by destruct (Hoc _ E).
  - intros c1 ->. specialize (Ho _ eq_refl). destruct c1; try exact Ho. unfold owner_ok in *.
    destruct Ho as (-> & -> & ? & -> & ? & Hne & ? & Hfree). split_and!; auto.
    intros t' top c2 e. rewrite calls_set_call. case_decide; [|eauto].
    intros E. destruct (Hoc _ E) as (_ & _ & Hb). by destruct Hne, (Hb _ _ _ _ eq_refl).
  - intros t' c'. rewrite calls_set_call. case_decide; intros E Hn'; apply thief_ok_calls; [|eauto].
    by destruct (Hoc _ E) as (_ & ? & _).
Qed.

(** What a thief needs from a step of another thread. *)
Lemma thief_mono st o q st1 o1 q1 c :
  thief_ok st o q c ->
  d_top st <= d_top st1 ->
  (d_top st1 = d_top st -> q <> [] -> q1 <> [] /\ list.head q1 = list.head q) ->
  (forall top cap, c = StealBuf top cap -> d_capacity st1 = d_capacity st) ->
  d_epoch st <= d_epoch st1 ->
  (forall top cap buf e l, c = StealSlot top cap buf e -> d_bufs st !! buf = Some l -> Z.of_nat (length l) = cap ->
     (exists l', d_bufs st1 !! buf = Some l' /\ length l' = length l /\
        (d_top st = top -> q <> [] -> l' !! slot_index top cap = l !! slot_index top cap)) /\
     (forall tag, (buf, tag) ∈ d_retired st1 -> (buf, tag) ∈ d_retired st \/ e + 1 <= tag) /\
     (forall x b, o1 = Some (GrowRetire x b buf) -> o = o1 \/ e + 1 <= d_epoch st1)) ->
  thief_ok st1 o1 q1 c.
Proof.
  intros H Ht Hq Hcap He Hs.
  assert (Hd : forall top, top <= d_top st -> d_top st1 = top -> d_top st1 = d_top st /\ d_top st = top) by lia.
  assert (Hne : forall top, top <= d_top st -> (d_top st = top -> q <> []) -> d_top st1 = top -> q1 <> []).
  { intros top Hle Hq' E. destruct (Hd _ Hle E) as [E1 E2]. by apply Hq; [|apply Hq']. }
  destruct c; simpl in *; try done; try lia.
  - destruct H as [H1 H2]. split; [lia|]. eauto.
  - destruct H as (H1 & H2 & ->). split_and!; [lia|eauto|]. symmetry. eauto.
  - destruct H as (H1 & H2 & H3 & (l & Hl & Hlen & Hpos & Hslot) & Hret & Hgr).
    destruct (Hs _ _ _ _ _ eq_refl Hl Hlen) as ((l' & Hl' & Hlen' & Hsl) & Hr & Hg).
    split_and!; [lia|eauto|lia|lia| |naive_solver|].
    2: { intros x b Eo. destruct (Hg _ _ Eo) as [<-|?]; [|done]. specialize (Hgr _ _ Eo). lia. }
    exists l'. split_and!; [done|congruence|done|]. intros E. destruct (Hd _ H1 E) as [E1 E2].
    etrans; [by apply Hsl; auto|]. etrans; [by apply Hslot|]. by rewrite (proj2 (Hq E1 (H2 E2))).
  - destruct H as [H1 H2]. split; [lia|]. intros E. destruct (Hd _ H1 E) as [E1 E2].
    destruct (H2 E2) as [Hn ->]. by destruct (Hq E1 Hn) as [? ->].
Qed.

(** ... when the step does not touch the buffers. *)
Lemma thief_same st o q st1 o1 q1 c :
  thief_ok st o q c ->
  d_top st <= d_top st1 -> d_bufs st1 = d_bufs st -> d_retired st1 = d_retired st -> d_epoch st1 = d_epoch st ->
  (forall top cap, c = StealBuf top cap -> d_capacity st1 = d_capacity st) ->
  (d_top st1 = d_top st -> q <> [] -> q1 <> [] /\ list.head q1 = list.head q) ->
  (forall x b a, o1 = Some (GrowRetire x b a) -> o = o1) ->
  thief_ok st1 o1 q1 c.
Proof.
  intros H Ht Hb Hr He Hc Hq Ho. eapply thief_mono; [exact H|done|done|done|lia|].
  intros top cap buf e l -> Hl _. rewrite Hb, Hr. split_and!; [|auto|eauto].
  exists l. auto.
Qed.

(** *** Thieves *)

Lemma holds_tail l cap top y q : holds l cap top (y :: q) -> holds l cap (top + 1) q.
Proof.
  intros H i x Hi. replace (top + 1 + Z.of_nat i) with (top + Z.of_nat (S i)) by lia. by apply H.
Qed.

Lemma holds_head l cap top q : holds l cap top q -> q <> [] -> l !! slot_index top cap = Some (list.head q).
Proof.
  intros H Hq. destruct q as [|y q]; [done|]. rewrite <- (Z.add_0_r top) at 1. by apply (H 0%nat).
Qed.

Lemma Inv_stolen st o y q :
  Inv st o (y :: q) -> Z.of_nat (length (d_log st)) < 2 ^ 60 ->
  Inv (log (store_top st (u64 (d_top st + 1))) (Stolen (Some y))) o q.
Proof.
  intros [Hcore Hown Ho Ht] Hlog. pose proof Hcore as []. simpl in *.
  assert (Hu : u64 (d_top st + 1) = d_top st + 1) by (apply u64_small; unfold is_u64; lia).
  rewrite Hu. set (st1 := log _ _).
  assert (Hl : Z.of_nat (length (d_log st1)) = Z.of_nat (length (d_log st)) + 1).
  { simpl. rewrite length_app. simpl. lia. }
  split.
  - split; rewrite ?Hl; change (eff st1 o) with (eff st o); change (ecap st1 o) with (ecap st o);
      try done; simpl; try lia.
    + rewrite replay_snoc, c_replay0. simpl. by rewrite bool_decide_eq_true_2.
    + destruct c_buf0 as (l & H1 & H2 & H3%holds_tail). by exists l.
  - exact Hown.
  - intros c ->. specialize (Ho _ eq_refl). destruct c; simpl in *; try done; try lia.
    all: destruct_and! Ho; split_and!; try first [assumption|lia].
    clear c_buf0. match goal with H : exists l, _ /\ _ /\ holds _ _ _ _ |- _ => destruct H as (l & ? & ? & ?%holds_tail) end.
    by exists l.
  - intros t c Hc Hn. eapply thief_same; [by eapply Ht|simpl; try done; lia ..].
Qed.

Lemma Deque_steal st o q t c st' :
  Inv st o q -> disciplined st -> d_calls st !! t = Some c -> is_owner c = false ->
  Z.of_nat (length (d_log st)) < 2 ^ 60 -> steal_step st t c = Some st' -> exists q', Inv st' o q'.
Proof.
  intros HI Hd Hc Hn Hlog E. pose proof HI as [Hcore Hown Ho Ht]. pose proof (Ht _ _ Hc Hn) as Hok.
  destruct c; try done; simpl in *.
  - exists q. injection E as <-. apply (Inv_thief _ _ _ _ _ _ HI Hc Hn).
    intros c' [= <-]. split_and!; simpl; [done|lia|done].
  - exists q. injection E as <-. apply (Inv_thief _ _ _ _ _ _ HI Hc Hn). intros c'. case_if; [done|].
    intros [= <-]. split_and!; [done| |done]. split; [lia|]. intros <- ->. pose proof (c_len _ _ _ Hcore) as Hl.
    simpl in Hl. unfold eff in Hl. repeat case_match; lia.
  - exists q. injection E as <-. apply (Inv_thief _ _ _ _ _ _ HI Hc Hn).
    intros c' [= <-]. split_and!; simpl; try done; tauto.
  - exists q. injection E as <-. apply (Inv_thief _ _ _ _ _ _ HI Hc Hn).
    intros c' [= <-]. split_and!; simpl; [done| |congruence]. destruct Hok as (H1 & H2 & ->).
    destruct Hcore. destruct c_buf0 as (l & Hl & Hlen & Hh).
    assert (Hcap : ecap st o = d_capacity st).
    { destruct o as [[]|]; try done. destruct Hown as (t1 & Ht1 & _).
      by destruct (growth_apart _ Hd _ t _ _ _ _ top (d_capacity st) Ht1). }
    rewrite Hcap in *. split_and!; [done|done|lia|lia| | |].
    + exists l. split_and!; [done|done|lia|]. intros <-. apply holds_head; auto.
    + intros tag [[_ ?] _]%c_retired0. done.
    + intros x b ->. specialize (Ho _ eq_refl). simpl in Ho. unfold replaced in Ho. tauto.
  - exists q. destruct Hok as (H1 & H2 & _ & (l & Hl & _ & _ & Hs) & _). rewrite Hl in E. simpl in E.
    destruct (l !! _) as [x|] eqn:Ex; [|done]. injection E as <-.
    apply (Inv_thief _ _ _ _ _ _ HI Hc Hn). intros c' [= <-]. split_and!; [done| |done]. split; [done|].
    intros Et. split; [auto|]. specialize (Hs Et). congruence.
  - injection E as <-. destruct Hok as [H1 H2].
    assert (HI' : Inv (set_call st t None) o q) by (by apply (Inv_thief _ _ _ _ _ _ HI Hc Hn)).
    destruct (Z.eqb_spec (d_top st) top) as [Et|]; [|by exists q].
    destruct (H2 Et) as [Hq ->]. destruct q as [|y q]; [done|]. exists q. subst top.
    exact (Inv_stolen _ _ _ _ HI' Hlog).
Qed.

(** *** The owner *)

Lemma owned_owner st o t c : owned st o -> d_calls st !! t = Some c -> is_owner c = true -> o = Some c.
Proof.
  intros Ho Hc Hi. destruct o as [c'|]; simpl in Ho; [|by rewrite (Ho _ _ Hc) in Hi].
  destruct Ho as (t' & Hc' & _ & Hu). pose proof (Hu _ _ Hc Hi) as ->. congruence.
Qed.

(** A step that leaves the buffers alone and logs [ops]. *)
Lemma Core_change st o q st1 o1 q1 ops :
  Core st o q ->
  d_log st1 = d_log st ++ ops -> foldl apply_op (Some q) ops = Some q1 ->
  0 <= d_top st1 -> Z.of_nat (length q1) = eff st1 o1 - d_top st1 ->
  eff st1 o1 <= eff st o + Z.of_nat (length ops) ->
  ecap st1 o1 = ecap st o -> eff st1 o1 - d_top st1 <= ecap st o ->
  d_epoch st1 = d_epoch st -> d_buffer st1 = d_buffer st -> d_bufs st1 = d_bufs st ->
  d_retired st1 = d_retired st ->
  (forall l, d_bufs st !! d_buffer st = Some l ->
     holds l (ecap st o) (d_top st) q -> holds l (ecap st o) (d_top st1) q1) ->
  Core st1 o1 q1.
Proof.
  intros [] Hlog Hops Htop Hlen Heff Hcap Hfit Hep Hbuf Hbufs Hret Hh.
  assert (Hl : Z.of_nat (length (d_log st1)) = Z.of_nat (length (d_log st)) + Z.of_nat (length ops)).
  { rewrite Hlog, length_app. lia. }
  split; rewrite ?Hl, ?Hcap, ?Hep, ?Hbuf, ?Hbufs, ?Hret; try done; try lia.
  - rewrite Hlog. unfold replay in *. by rewrite foldl_app, c_replay0.
  - destruct c_buf0 as (l & H1 & H2 & H3). exists l. split_and!; auto.
  - intros a tag Ha. destruct (c_retired0 _ _ Ha) as [[? ?] ?]. split; [|done].
    split; [by rewrite Hbufs|by rewrite Hbuf].
Qed.

Lemma holds_app l cap top q x : holds l cap top (q ++ [x]) -> holds l cap top q.
Proof. intros H i y Hi. apply H. by apply lookup_app_l_Some. Qed.

Lemma holds_last l cap top q x :
  holds l cap top (q ++ [x]) -> l !! slot_index (top + Z.of_nat (length q)) cap = Some (Some x).
Proof. intros H. apply H. rewrite lookup_app_r, Nat.sub_diag by done. done. Qed.

Lemma holds_snoc l cap top q x :
  holds l cap top q -> l !! slot_index (top + Z.of_nat (length q)) cap = Some (Some x) ->
  holds l cap top (q ++ [x]).
Proof.
  intros H Hx i y [Hi|[Hle Hi]]%lookup_app_Some; [by apply H|].
  apply list_lookup_singleton_Some in Hi as [Hi <-]. by replace i with (length q) by lia.
Qed.

Lemma apply_popped q x : apply_op (Some (q ++ [x])) (Popped (Some x)) = Some q.
Proof.
  unfold apply_op. simpl. rewrite last_snoc, removelast_last.
  rewrite bool_decide_eq_true_2, bool_decide_eq_false_2 by (done || by destruct q). done.
Qed.

Definition owner_goal (st' : WorkDeque) : Prop := exists o q, Inv st' o q.

(** A step of the owner that leaves the buffers and the capacity alone. *)
Lemma Inv_owner_plain st t c st1 oc q q1 ops :
  Inv st (Some c) q -> d_calls st !! t = Some c -> is_owner c = true ->
  (forall c', oc = Some c' -> is_owner c' = true) ->
  d_calls st1 = d_calls st -> d_log st1 = d_log st ++ ops -> foldl apply_op (Some q) ops = Some q1 ->
  d_top st <= d_top st1 -> Z.of_nat (length q1) = eff st1 oc - d_top st1 ->
  eff st1 oc <= eff st (Some c) + Z.of_nat (length ops) ->
  ecap st1 oc = ecap st (Some c) -> eff st1 oc - d_top st1 <= ecap st (Some c) ->
  d_capacity st1 = d_capacity st ->
  d_epoch st1 = d_epoch st -> d_buffer st1 = d_buffer st -> d_bufs st1 = d_bufs st ->
  d_retired st1 = d_retired st ->
  (forall l, d_bufs st !! d_buffer st = Some l ->
     holds l (ecap st (Some c)) (d_top st) q -> holds l (ecap st (Some c)) (d_top st1) q1) ->
  (d_top st1 = d_top st -> q <> [] -> q1 <> [] /\ list.head q1 = list.head q) ->
  (forall x b a, oc <> Some (GrowRetire x b a)) ->
  (forall c', oc = Some c' -> owner_ok (set_call st1 t oc) q1 c') ->
  Inv (set_call st1 t oc) oc q1.
Proof.
  intros HI Hc Ho Hoc Hcalls Hlog Hops Htop Hlen Heff Hcap Hfit Hcp Hep Hbuf Hbufs Hret Hh Hq Hg Hok.
  pose proof (c_top _ _ _ (i_core _ _ _ HI)).
  eapply Inv_owner; try done.
  - eapply Core_change; try done; [by apply HI|lia].
  - intros t' c' _ _ Ht. eapply thief_same; try done. intros x b a E. by destruct (Hg x b a).
Qed.

Lemma Deque_pop st q t c st' :
  Inv st (Some c) q -> d_calls st !! t = Some c -> is_pop c = true ->
  Z.of_nat (length (d_log st)) < 2 ^ 60 -> pop_step st t c = Some st' -> owner_goal st'.
Proof.
  intros HI Hc Hp Hlog E. pose proof HI as [[] _ Ho _]. specialize (Ho _ eq_refl).
  assert (Hio : is_owner c = true) by (unfold is_owner; by rewrite Hp, orb_true_r).
  destruct c; try done; simpl in *.
  - destruct (Z.eqb_spec (d_bottom st) 0) as [Eb|Eb]; injection E as <-.
    + destruct q; [|simpl in *; lia]. exists None, [].
      apply (Inv_owner_plain st t PopBottom (log st PopEmpty) None [] [] [PopEmpty]); simpl; try done; lia.
    + rewrite u64_small by (unfold is_u64; lia). eexists _, q.
      apply (Inv_owner_plain st t PopBottom st _ q q []); simpl; rewrite ?app_nil_r; try done; try lia.
      * by intros ? [= <-].
      * intros c' [= <-]. simpl. lia.
  - injection E as <-. destruct Ho as [-> ?]. eexists _, q.
    apply (Inv_owner_plain st t _ (store_bottom st (d_bottom st - 1)) _ q q [] HI Hc);
      simpl; rewrite ?app_nil_r; try done; try lia.
    + by intros ? [= <-].
    + intros c' [= <-]. simpl. lia.
  - destruct Ho as [-> Hb]. destruct (Z.ltb_spec (d_bottom st) (d_top st)) as [Hlt|Hge].
    + injection E as <-. destruct q; [|simpl in *; lia]. eexists _, [].
      apply (Inv_owner_plain st t _ (log st PopEmpty) _ [] [] [PopEmpty] HI Hc); simpl; try done; try lia.
      * by intros ? [= <-].
      * intros c' [= <-]. simpl. lia.
    + destruct c_buf0 as (l & Hl & Hlen & Hh). rewrite Hl in E. simpl in E.
      destruct (Z.eqb_spec (d_top st) (d_bottom st)) as [Et|Et].
      * assert (Hq : q <> []) by (intros ->; simpl in *; lia).
        pose proof (holds_head _ _ _ _ Hh Hq) as Hx. rewrite Et in Hx. rewrite Hx in E. simpl in E.
        injection E as <-. eexists _, q.
        apply (Inv_owner_plain st t _ st _ q q [] HI Hc); simpl; rewrite ?app_nil_r; try done; try lia.
        -- by intros ? [= <-].
        -- intros c' [= <-]. simpl. split_and!; [lia|lia|done].
      * destruct (decide (q = [])) as [->|Hq]; [simpl in *; lia|].
        apply exists_last in Hq as (q' & y & ->). rewrite length_app in *. simpl in *.
        pose proof (holds_last _ _ _ _ _ Hh) as Hx.
        replace (d_top st + Z.of_nat (length q')) with (d_bottom st) in Hx by lia.
        rewrite Hx in E. simpl in E. injection E as <-. exists None, q'.
        apply (Inv_owner_plain st t _ (log st (Popped (Some y))) _ (q' ++ [y]) q' [Popped (Some y)] HI Hc);
          simpl; try done; try lia.
        -- apply apply_popped.
        -- intros l' _. apply holds_app.
        -- intros _ _. destruct q'; [simpl in *; lia|done].
  - destruct Ho as (-> & Hle & Hx). injection E as <-.
    destruct (Z.eqb_spec (d_top st) (d_bottom st)) as [Et|Et].
    + destruct (Hx Et) as [Hq ->]. destruct q as [|y [|]]; [done| |simpl in *; lia].
      rewrite u64_small by (unfold is_u64; lia). eexists _, [].
      apply (Inv_owner_plain st t _ (log (store_top st (d_bottom st + 1)) (Popped (Some y))) _ [y] []
        [Popped (Some y)] HI Hc); simpl; try done; try lia.
      * by intros ? [= <-].
      * exact (apply_popped [] y).
      * intros c' [= <-]. simpl. lia.
    + destruct q; [|simpl in *; lia]. eexists _, [].
      apply (Inv_owner_plain st t _ (log st PopEmpty) _ [] [] [PopEmpty] HI Hc); simpl; try done; try lia.
      * by intros ? [= <-].
      * intros c' [= <-]. simpl in *. lia.
  - injection E as <-. destruct Ho as [-> Ht]. rewrite u64_small by (unfold is_u64; lia). exists None, q.
    apply (Inv_owner_plain st t _ (store_bottom st (d_bottom st + 1)) _ q q [] HI Hc);
      simpl; rewrite ?app_nil_r; try done; lia.
Qed.

(** Writing a buffer that no thief can be reading at that place. *)
Lemma Core_write st o q a l o1 st1 :
  Core st o q -> d_bufs st1 = <[a := l]> (d_bufs st) ->
  d_top st1 = d_top st -> d_log st1 = d_log st -> d_buffer st1 = d_buffer st -> d_epoch st1 = d_epoch st ->
  d_retired st1 = d_retired st -> eff st1 o1 = eff st o -> ecap st1 o1 = ecap st o ->
  (a = d_buffer st -> Z.of_nat (length l) = ecap st o /\ holds l (ecap st o) (d_top st) q) ->
  Core st1 o1 q.
Proof.
  intros [] Hb Ht Hl Hbuf He Hr Heff Hcap Ha.
  split; rewrite ?Ht, ?Hl, ?He, ?Hr, ?Heff, ?Hcap, ?Hbuf, ?Hb; try done.
  - destruct (decide (a = d_buffer st)) as [->|Hne].
    + exists l. rewrite lookup_insert_eq. split_and!; try apply Ha; done.
    + destruct c_buf0 as (l' & ? & ?). exists l'. by rewrite lookup_insert_ne.
  - intros a' tag Hin. destruct (c_retired0 _ _ Hin) as [[H1 H2] ?]. split; [|done].
    split; [|by rewrite Hbuf]. rewrite Hb. destruct (decide (a = a')) as [->|Hne].
    + rewrite lookup_insert_eq. eauto.
    + by rewrite lookup_insert_ne.
Qed.

Lemma thief_write st o q a l o1 st1 c :
  thief_ok st o q c -> d_bufs st1 = <[a := l]> (d_bufs st) ->
  d_top st1 = d_top st -> d_capacity st1 = d_capacity st -> d_epoch st1 = d_epoch st ->
  d_retired st1 = d_retired st -> (forall x b a, o1 <> Some (GrowRetire x b a)) ->
  (forall top cap e l0, c = StealSlot top cap a e -> d_bufs st !! a = Some l0 -> Z.of_nat (length l0) = cap ->
     length l = length l0 /\
     (d_top st = top -> q <> [] -> l !! slot_index top cap = l0 !! slot_index top cap)) ->
  thief_ok st1 o1 q c.
Proof.
  intros H Hb Ht Hc He Hr Ho Ha. eapply thief_mono; [exact H|lia|done|done|lia|].
  intros top cap buf e l0 -> Hl Hlen. rewrite Hr, Hb.
  split_and!; [|auto|intros x b E; by destruct (Ho x b buf)].
  destruct (decide (a = buf)) as [->|Hne].
  - exists l. rewrite lookup_insert_eq. by destruct (Ha _ _ _ _ eq_refl Hl Hlen).
  - exists l0. rewrite lookup_insert_ne by done. auto.
Qed.

(** *** Reclaiming *)

Lemma reclaim_keeps e (rs : list (ptr * Z)) (bufs : gmap Z (list slot)) a :
  (forall tag, (a, tag) ∈ rs -> expired e (a, tag) = false) ->
  foldr (fun r bufs => if expired e r then delete r.1 bufs else bufs) bufs rs !! a = bufs !! a.
Proof.
  induction rs as [|[b tag] rs IH]; intros H; simpl; [done|].
  assert (IHa := IH ltac:(intros tag' ?; apply H; by right)).
  destruct (expired e (b, tag)) eqn:E; [|done].
  destruct (decide (a = b)) as [->|Hne].
  - rewrite (H tag) in E; [done|left].
  - by rewrite lookup_delete_ne.
Qed.

Lemma retired_tag (rs : list (ptr * Z)) a t1 t2 : NoDup rs.*1 -> (a, t1) ∈ rs -> (a, t2) ∈ rs -> t1 = t2.
Proof.
  intros Hnd H1 H2. pose proof (NoDup_fmap_unique fst rs (a, t1) (a, t2) Hnd H1 H2 eq_refl). congruence.
Qed.

Lemma Core_reclaim st o q o1 :
  Core st o q -> eff st o1 = eff st o -> ecap st o1 = ecap st o -> Core (deque_reclaim_buffers st) o1 q.
Proof.
  intros [] He Hc. unfold deque_reclaim_buffers.
  split; simpl; change (eff (set_buffers st _ _) o1) with (eff st o1);
    change (ecap (set_buffers st _ _) o1) with (ecap st o1); rewrite ?He, ?Hc; try done.
  - destruct c_buf0 as (l & ? & ?). exists l. rewrite reclaim_keeps; [done|].
    intros tag Hin. by destruct (c_retired0 _ _ Hin) as [[_ []] _].
  - intros a tag [Hx Hin]%list_elem_of_filter. destruct (c_retired0 _ _ Hin) as [[H1 H2] ?]. split; [|done].
    split; [|done]. simpl. rewrite reclaim_keeps; [done|].
    intros tag' Hin'. by rewrite (retired_tag _ _ _ _ c_nodup0 Hin' Hin).
  - clear -c_nodup0. induction (d_retired st) as [|r rs IH]; [done|]. simpl in *.
    apply NoDup_cons in c_nodup0 as [H1 H2]. rewrite filter_cons. case_decide; [|auto]. simpl.
    apply NoDup_cons. split; [|auto]. intros (r' & E & [_ Hin]%list_elem_of_filter)%list_elem_of_fmap.
    apply H1, list_elem_of_fmap. eauto.
Qed.

Lemma thief_reclaim st o q o1 c :
  thief_ok st o q c -> (forall top cap buf e, c = StealSlot top cap buf e -> d_epoch st < e + 3) ->
  (forall a tag, (a, tag) ∈ d_retired st -> 0 <= tag <= d_epoch st) -> d_epoch st < 2 ^ 64 ->
  (forall x b a, o1 <> Some (GrowRetire x b a)) -> thief_ok (deque_reclaim_buffers st) o1 q c.
Proof.
  intros H Hbr Hr He Ho. eapply thief_mono; [exact H|simpl; try done; lia ..|].
  intros top cap buf e l -> Hl _. simpl. destruct H as (_ & _ & _ & _ & Hret & _).
  specialize (Hbr _ _ _ _ eq_refl). split_and!.
  - exists l. rewrite reclaim_keeps; [done|]. intros tag Hin. unfold expired. simpl.
    pose proof (Hret _ Hin). pose proof (Hr _ _ Hin). rewrite u64_small by (unfold is_u64; lia).
    apply Z.leb_gt. lia.
  - intros tag [_ ?]%list_elem_of_filter. auto.
  - intros x b E. by destruct (Ho x b buf).
Qed.

(** *** Pushing *)

Lemma Deque_push st q t c st' a ok :
  Inv st (Some c) q -> d_calls st !! t = Some c -> Z.of_nat (length (d_log st)) < 2 ^ 60 ->
  match c with PushBottom _ | PushTop _ _ | PushSlot _ _ _ | PushStore _ _ => True | _ => False end ->
  push_step st t c a ok = Some st' -> owner_goal st'.
Proof.
  intros HI Hc Hlog Hp E. pose proof HI as [[] _ Ho _]. specialize (Ho _ eq_refl).
  destruct c; try done; clear Hp; simpl in *.
  - injection E as <-. eexists _, q.
    apply (Inv_owner_plain st t _ st _ q q [] HI Hc); simpl; rewrite ?app_nil_r; try done; try lia.
    + by intros ? [= <-].
    + by intros c' [= <-].
  - injection E as <-. subst bottom. rewrite !u64_small by (unfold is_u64; lia).
    destruct (Z.leb_spec (d_capacity st - 1) (d_bottom st - d_top st)); eexists _, q;
      apply (Inv_owner_plain st t _ st _ q q [] HI Hc); simpl; rewrite ?app_nil_r; try done; try lia.
    + by intros ? [= <-].
    + intros c' [= <-]. simpl. lia.
    + by intros ? [= <-].
    + intros c' [= <-]. simpl. lia.
  - destruct Ho as (-> & -> & Hfit). destruct c_buf0 as (l & Hl & Hlen & Hh). rewrite Hl in E. simpl in E.
    assert (Hlt : (slot_index (d_bottom st) (d_capacity st) < length l)%nat) by (apply slot_index_lt; lia).
    rewrite bool_decide_eq_true_2 in E by done. injection E as <-. eexists _, q.
    eapply Inv_owner; [exact HI|exact Hc|done|done|by intros ? [= <-]| | |].
    + eapply Core_write; [by apply HI|done..|]. intros _. rewrite length_insert. split; [done|].
      intros i y Hi. rewrite list_lookup_insert_ne; [by apply Hh|].
      apply lookup_lt_Some in Hi. intros E%slot_index_inj; simpl in *; lia.
    + intros c' [= <-]. simpl. split_and!; [done|done|]. eexists. rewrite lookup_insert_eq. split; [done|].
      by rewrite list_lookup_insert_eq.
    + intros t' c' _ _ Ht. eapply thief_write; [exact Ht|done..|].
      intros top cap e l0 -> Hl0 Hcap. rewrite length_insert. replace l0 with l in * by congruence.
      split; [done|]. intros Et Hq. apply list_lookup_insert_ne. destruct q; [done|].
      replace cap with (d_capacity st) by congruence. intros E%slot_index_inj; simpl in *; lia.
  - injection E as <-. destruct Ho as (-> & Hfit & l & Hl & Hx). rewrite u64_small by (unfold is_u64; lia).
    exists None, (q ++ [block]).
    apply (Inv_owner_plain st t _ (log (store_bottom st (d_bottom st + 1)) (Pushed block)) _ q _
      [Pushed block] HI Hc); simpl; try done; rewrite ?length_app; simpl; try lia.
    + intros l' Hl' Hh. assert (l' = l) as -> by congruence. apply holds_snoc; [done|].
      by replace (d_top st + Z.of_nat (length q)) with (d_bottom st) by lia.
    + intros _ Hq. by destruct q.
Qed.

Lemma Deque_grow st q t c st' a ok :
  Inv st (Some c) q -> disciplined st -> d_calls st !! t = Some c -> Z.of_nat (length (d_log st)) < 2 ^ 60 ->
  match c with GrowAlloc _ _ | GrowCopy _ _ _ _ _ | GrowBuf _ _ _ _ _ => True | _ => False end ->
  a <> NULL -> push_step st t c a ok = Some st' -> owner_goal st'.
Proof.
  intros HI Hd Hc Hlog Hp Ha E. pose proof HI as [[] _ Ho Hth]. specialize (Ho _ eq_refl).
  destruct c; try done; clear Hp; simpl in *.
  - rewrite (proj2 (Z.eqb_neq _ _) Ha) in E. destruct (bool_decide_reflect (a ∈ dom (d_bufs st))) as [|Hf]; [done|].
    injection E as <-. destruct Ho as [-> Hcap]. rewrite u64_small by (unfold is_u64; lia).
    apply not_elem_of_dom in Hf. destruct c_buf0 as (l & Hl & ? & ?). eexists _, q.
    assert (Hne : a <> d_buffer st) by congruence.
    eapply Inv_owner; [exact HI|exact Hc|done|done|by intros ? [= <-]| | |].
    + eapply Core_write; [by apply HI|done..].
    + intros c' [= <-]. simpl. split_and!; try done.
      * eexists. rewrite lookup_insert_eq, length_replicate. split; [done|lia].
      * intros ([a' tag] & -> & Hin)%list_elem_of_fmap. destruct (c_retired0 _ _ Hin) as [[[? ?] _] _]. simpl in *. congruence.
      * intros t' top cap e. destruct (decide (t' = t)) as [->|]; [by rewrite lookup_insert_eq|].
        rewrite lookup_insert_ne by done. intros Ht'. destruct (Hth _ _ Ht' eq_refl) as (_ & _ & _ & (? & ? & _) & _). congruence.
    + intros t' c' _ _ Ht. eapply thief_write; [exact Ht|done..|]. intros. congruence.
  - destruct Ho as (-> & -> & Hb & -> & (new & Hnew & Hnlen) & Hne & Hun & Hfree).
    destruct c_buf0 as (l & Hl & Hlen & Hh). rewrite Hl, Hnew in E. simpl in E.
    rewrite u64_small in E by (unfold is_u64; lia).
    destruct (copy_slots_spec (Z.to_nat (d_bottom st - d_top st)) (d_top st) (d_capacity st) (d_capacity st * 2) l new)
      as (new' & Ecp & Elen & Hcp & _); try lia.
    rewrite Ecp in E. simpl in E. injection E as <-. eexists _, q.
    eapply Inv_owner; [exact HI|exact Hc|done|done|by intros ? [= <-]| | |].
    + eapply Core_write; [by apply HI|done..].
    + intros c' [= <-]. simpl. split_and!; try done. eexists. rewrite lookup_insert_eq.
      split_and!; [done|lia|]. intros i x Hi. rewrite Hcp; [by apply Hh|]. apply lookup_lt_Some in Hi. lia.
    + intros t' c' Ht' _ Ht. eapply thief_write; [exact Ht|done..|]. intros top cap e l0 -> _ _. by destruct (Hfree t' top cap e).
  - injection E as <-. destruct Ho as (-> & -> & Hb & -> & (new & Hnew & Hnlen & Hnh) & Hne & Hun).
    destruct c_buf0 as (l & Hl & Hlen & Hh). eexists _, q.
    eapply Inv_owner; [exact HI|exact Hc|done|done|by intros ? [= <-]| | |].
    + split; simpl; try done; try lia.
      * by exists new.
      * intros a' tag Hin. destruct (c_retired0 _ _ Hin) as [[H1 H2] ?]. split; [|done]. split; [done|]. simpl.
        intros ->. apply Hun, list_elem_of_fmap. by exists (new_buf, tag).
    + intros c' [= <-]. simpl. split_and!; try lia.
      * split; [by exists l|]. simpl. congruence.
      * intros ([a' tag] & E & Hin)%list_elem_of_fmap. destruct (c_retired0 _ _ Hin) as [[_ H2] _]. by destruct H2.
    + intros t' c' _ _ Ht. eapply thief_same; done.
Qed.

Lemma Deque_publish st q t c st' a ok :
  Inv st (Some c) q -> disciplined st -> d_calls st !! t = Some c -> Z.of_nat (length (d_log st)) < 2 ^ 60 ->
  match c with GrowCap _ _ _ _ | GrowEpoch _ _ _ | GrowRetire _ _ _ | GrowReclaim _ _ => True | _ => False end ->
  push_step st t c a ok = Some st' -> owner_goal st'.
Proof.
  intros HI Hd Hc Hlog Hp E. pose proof HI as [Hcore _ Ho Hth]. pose proof Hcore as []. specialize (Ho _ eq_refl).
  destruct c; try done; clear Hp; simpl in *; injection E as <-.
  - destruct Ho as (-> & Hfit & He & Hrep & Hun). rewrite u64_small by (unfold is_u64; lia). eexists _, q.
    eapply Inv_owner; [exact HI|exact Hc|done|done|by intros ? [= <-]| | |].
    + by split.
    + by intros c' [= <-].
    + intros t' c' Ht' _ Ht. eapply thief_same; try done.
      intros top cap ->. by destruct (growth_apart _ Hd _ t' _ _ _ _ top cap Hc).
  - destruct Ho as (-> & Hfit & He & Hrep & Hun). rewrite u64_small by (unfold is_u64; lia). eexists _, q.
    eapply Inv_owner; [exact HI|exact Hc|done|done|by intros ? [= <-]| | |].
    + split; simpl; try done; try lia. intros a' tag Hin. destruct (c_retired0 _ _ Hin). split; [done|lia].
    + by intros c' [= <-].
    + intros t' c' Ht' _ Ht. eapply thief_mono; [exact Ht|simpl; done || lia..|]. simpl.
      intros top cap buf e l -> Hl _. destruct Ht as (_ & _ & ? & _).
      split_and!; [by exists l|auto|]. intros x b _. right. lia.
  - destruct Ho as (-> & Hfit & Hrep & Hun). eexists _, q.
    eapply Inv_owner; [exact HI|exact Hc|done|by destruct ok|by intros ? [= <-]| | |].
    + destruct ok; [|by split]. split; simpl; try done.
      * intros a' tag [[= -> ->]|Hin]%elem_of_cons; [split; [done|lia]|by apply c_retired0].
      * by apply NoDup_cons.
    + intros c' [= <-]. by destruct ok.
    + intros t' c' Ht' _ Ht. eapply thief_mono; [exact Ht|by destruct ok..|destruct ok; simpl; lia|].
      intros top cap buf e l -> Hl _. destruct Ht as (_ & _ & ? & _ & _ & Hg).
      split_and!; [exists l; by destruct ok| |done].
      intros tag Hin. destruct ok; [|by left]. simpl in Hin.
      apply elem_of_cons in Hin as [[= -> ->]|?]; [right; eauto|by left].
  - destruct Ho as (-> & Hfit). eexists _, q.
    eapply Inv_owner; [exact HI|exact Hc|done|done|by intros ? [= <-]| | |].
    + by eapply Core_reclaim.
    + by intros c' [= <-].
    + intros t' c' Ht' _ Ht. eapply thief_reclaim; [exact Ht| | |lia|done].
      * intros top cap buf e ->. by eapply steal_brief.
      * intros a' tag Hin. by apply (c_retired0 a' tag).
Qed.

(** *** Every step *)

Lemma Deque_call st o q t c :
  Inv st o q -> d_calls st !! t = None -> is_entry c = true -> disciplined (set_call st t (Some c)) ->
  owner_goal (set_call st t (Some c)).
Proof.
  intros HI Ht He Hd. pose proof HI as [Hcore Hown Ho Hth].
  assert (Hother : forall t' c', d_calls st !! t' = Some c' ->
    d_calls (set_call st t (Some c)) !! t' = Some c' /\ t' <> t).
  { intros t' c' Hc'. rewrite calls_set_call, decide_False by congruence. split; congruence. }
  assert (Hnew : d_calls (set_call st t (Some c)) !! t = Some c) by (by rewrite calls_set_call, decide_True).
  assert (Hths : forall o', thief_ok st o' q c).
  { intros o'. by destruct c. }
  destruct (is_owner c) eqn:Eo.
  - assert (Hno : forall t' c', d_calls st !! t' = Some c' -> is_owner c' = false).
    { intros t' c' [Hc' Hne]%Hother. destruct (is_owner c') eqn:E; [|done].
      destruct Hne. eapply (one_owner _ Hd); [exact Hc'|exact Hnew|by rewrite E|by rewrite Eo]. }
    assert (o = None) as -> by (destruct o; [destruct Hown as (? & ?%Hno & ? & _); congruence|done]).
    exists (Some c), q. split.
    + apply Core_calls. destruct Hcore. destruct c; try done; split; done.
    + exists t. split_and!; [done..|]. intros t' c'. rewrite calls_set_call. case_decide; [done|].
      intros ?%Hno. congruence.
    + intros c' [= <-]. by destruct c.
    + intros t' c'. rewrite calls_set_call. case_decide; [congruence|]. intros Hc' Hn. apply thief_ok_calls.
      eapply thief_same; [by eapply Hth|done..|]. intros x b a [= ->]. done.
  - exists o, q. split.
    + by apply Core_calls.
    + destruct o as [c1|]; unfold owned in *.
      * destruct Hown as (t1 & H1 & H2 & H3). exists t1. destruct (Hother _ _ H1). split_and!; [done..|].
        intros t' c'. rewrite calls_set_call. case_decide; [congruence|eauto].
      * intros t' c'. rewrite calls_set_call. case_decide; [congruence|eauto].
    + intros c1 ->. specialize (Ho _ eq_refl). destruct c1; try exact Ho. unfold owner_ok in *.
      destruct_and! Ho; split_and!; try assumption.
      intros t' top c2 e. rewrite calls_set_call. case_decide; [intros [= ->]; done|eauto].
    + intros t' c'. rewrite calls_set_call. case_decide; intros Hc' Hn; apply thief_ok_calls; [|eauto].
      injection Hc' as <-. auto.
Qed.

Lemma Deque_step st o q e st' :
  Inv st o q -> disciplined st -> disciplined st' -> alloc_ok e -> Z.of_nat (length (d_log st)) < 2 ^ 60 ->
  deque_step st e = Some st' -> owner_goal st'.
Proof.
  intros HI Hd Hd' Ha Hlog E. destruct e as [t c|t a ok]; simpl in E.
  - destruct (bool_decide_reflect (d_calls st !! t = None)); [|done]. simpl in E.
    destruct (is_entry c) eqn:Ee; [|done]. injection E as <-. by eapply Deque_call.
  - destruct (d_calls st !! t) as [c|] eqn:Ec; [|done]. simpl in E.
    destruct (is_owner c) eqn:Eo.
    + pose proof (owned_owner _ _ _ _ (i_owned _ _ _ HI) Ec Eo) as ->.
      destruct (is_push c) eqn:Ep.
      * destruct c; try done; first [by eapply Deque_push|by eapply Deque_grow|by eapply Deque_publish].
      * unfold is_owner in Eo. rewrite Ep in Eo. simpl in Eo. rewrite Eo in E. by eapply Deque_pop.
    + destruct (orb_false_elim _ _ Eo) as [E1 E2]. rewrite E1, E2 in E.
      destruct (Deque_steal _ _ _ _ _ _ HI Hd Ec Eo Hlog E) as [q' ?]. by exists o, q'.
Qed.

Ltac open_step E :=
  repeat match type of E with
  | context [match ?x with _ => _ end] => destruct x eqn:?; simpl in E; try done
  | mbind _ _ = Some _ => apply bind_Some in E as (? & ? & E); simpl in E
  end.

Lemma step_log st e st' : deque_step st e = Some st' -> exists ops, d_log st' = d_log st ++ ops.
Proof.
  assert (H0 : exists ops, d_log st = d_log st ++ ops) by (exists []; by rewrite app_nil_r).
  assert (H1 : forall o, exists ops, d_log st ++ [o] = d_log st ++ ops) by eauto.
  destruct e as [t c|t a ok]; intros E; simpl in E; [case_match; [by injection E as <-|done]|].
  destruct (d_calls st !! t) as [c|]; [|done]. simpl in E.
  destruct c; simpl in E; open_step E; injection E as <-; simpl; try done.
  all: by destruct ok || by case_match.
Qed.

Lemma calm_Inv a st :
  calm (deque_init a) st -> Z.of_nat (length (d_log st)) < 2 ^ 60 -> owner_goal st /\ disciplined st.
Proof.
  assert (Hn : forall t c, d_calls (deque_init a) !! t <> Some c).
  { intros t c. change (d_calls (deque_init a)) with (∅ : gmap Z call). by rewrite lookup_empty. }
  induction 1 as [|st e st' Hcalm IH Ha E Hd]; intros Hlog.
  - split.
    + exists None, []. split; [|by intros t c ?%Hn|done|by intros t c ?%Hn]. split; simpl; try done; try lia.
      * eexists. rewrite lookup_singleton_eq. done.
      * by intros ? ? ?%not_elem_of_nil.
      * constructor.
    + split; [intros t1 t2 c1 c2 []%Hn|by intros|intros t top c buf e []%Hn].
  - destruct (step_log _ _ _ E) as [ops Hops].
    destruct IH as [(o & q & HI) Hd0]; [rewrite Hops, length_app in Hlog; lia|].
    split; [|done]. eapply Deque_step; try done. rewrite Hops, length_app in Hlog. lia.
Qed.

(** ** What the deque guarantees *)

(** C21: The work-stealing deque under any interleaving of one owner and any
    number of thieves, growth included, on executions that keep the discipline:
    the operations, in the order in which they take effect, are a run of a plain
    list where the owner pushes and pops at the end and thieves take from the
    front, a pop reports an empty deque only when the list is empty, and the list
    is what the buffer holds from [top] on, up to [bottom] unless a pop is under
    way. *)
Theorem deque_linearizable a st :
  calm (deque_init a) st -> Z.of_nat (length (d_log st)) < 2 ^ 60 ->
  exists q l, replay (d_log st) = Some q /\
    d_bufs st !! d_buffer st = Some l /\ holds l (Z.of_nat (length l)) (d_top st) q /\
    ((forall t c, d_calls st !! t = Some c -> is_pop c = false) ->
       deque_size st = Z.of_nat (length q) /\ deque_empty st = bool_decide (q = [])).
Proof.
  intros Hcalm Hlog. destruct (calm_Inv _ _ Hcalm Hlog) as [(o & q & [[] Hown _ _]) _].
  destruct c_buf0 as (l & Hl & Hlen & Hh). exists q, l. rewrite Hlen. split_and!; try done.
  intros Hnp. assert (He : eff st o = d_bottom st).
  { destruct o as [c|]; [|done]. destruct Hown as (t & Ht & _). specialize (Hnp _ _ Ht). by destruct c. }
  rewrite He in *. unfold deque_size, deque_empty. split.
  - case_if; [rewrite u64_small by (unfold is_u64; lia)|]; lia.
  - case_bool_decide as Hq; [subst q; apply Z.leb_le; simpl in *; lia|].
    apply Z.leb_gt. destruct q; [done|simpl in *; lia].
Qed.

(** The blocks that went in and that came out. *)
Definition pushes (ops : list op) : list slot :=
  omap (fun o => match o with Pushed x => Some (Some x) | _ => None end) ops.
Definition takes (ops : list op) : list slot :=
  omap (fun o => match o with Popped x | Stolen x => Some x | _ => None end) ops.

Lemma replay_perm ops : forall q, replay ops = Some q -> pushes ops ≡ₚ takes ops ++ (Some <$> q).
Proof.
  induction ops as [|o ops IH] using rev_ind; intros q; [by intros [= <-]|].
  rewrite replay_snoc. destruct (replay ops) as [q0|] eqn:E0; [|done].
  unfold pushes, takes. rewrite !omap_app. fold (pushes ops) (takes ops). specialize (IH _ eq_refl).
  unfold apply_op. simpl. destruct o; simpl.
  - intros [= <-]. rewrite app_nil_r, fmap_app, app_assoc. by rewrite IH.
  - destruct (decide (q0 = [])) as [->|Hq]; [by rewrite andb_false_r|].
    apply exists_last in Hq as (q' & y & ->). rewrite last_snoc, removelast_last.
    case_bool_decide; [|done]. case_bool_decide; [by destruct q'|]. intros [= <-]. subst.
    rewrite app_nil_r, IH, fmap_app. simpl. solve_Permutation.
  - case_bool_decide; [|done]. intros [= <-]. subst. by rewrite !app_nil_r in *.
  - destruct q0 as [|y q0]; [done|]. case_bool_decide; [|done]. intros [= <-]. subst.
    rewrite app_nil_r, IH, <- app_assoc. done.
Qed.

(** No block is lost or run twice.  However owner and thieves interleave, as
    long as they keep the discipline, the blocks that were pushed are the blocks
    that pops and steals returned together with those still in the deque, each
    as often as it was pushed; no operation returns memory that was never
    written. *)
Theorem deque_conserves a st :
  calm (deque_init a) st -> Z.of_nat (length (d_log st)) < 2 ^ 60 ->
  exists q, replay (d_log st) = Some q /\ pushes (d_log st) ≡ₚ takes (d_log st) ++ (Some <$> q) /\
    (forall x, x ∈ takes (d_log st) -> exists b, x = Some b /\ Pushed b ∈ d_log st).
Proof.
  intros Hcalm Hlog. destruct (calm_Inv _ _ Hcalm Hlog) as [(o & q & [[] _ _ _]) _].
  exists q. pose proof (replay_perm _ _ c_replay0) as Hp. split_and!; [done|done|].
  intros x Hx. assert (Hin : x ∈ pushes (d_log st)) by (rewrite Hp; set_solver).
  apply list_elem_of_omap in Hin as (op & Hop & Eop). destruct op; try done. injection Eop as <-. eauto.
Qed.

(** C29: The deque's memory safety.  On executions that keep the discipline, no
    thread ever reads or writes a buffer that has been freed or a slot outside
    it: whatever its next step is, it can make it.  In particular reclaiming a
    retired buffer two epochs later is safe for a steal that at most two
    growths overtake. *)
Theorem deque_memory_safe a st t c malloced malloc_ok :
  calm (deque_init a) st -> Z.of_nat (length (d_log st)) < 2 ^ 60 ->
  d_calls st !! t = Some c -> malloced <> NULL -> d_bufs st !! malloced = None ->
  is_Some (deque_step st (EStep t malloced malloc_ok)).
Proof.
  intros Hcalm Hlog Hc Hm Hf. destruct (calm_Inv _ _ Hcalm Hlog) as [(o & q & HI) _]. pose proof HI as [Hcore Hown Ho Ht].
  simpl. rewrite Hc. simpl. destruct (is_owner c) eqn:Eo.
  - pose proof (owned_owner _ _ _ _ Hown Hc Eo) as ->. specialize (Ho _ eq_refl). destruct Hcore.
    destruct c_buf0 as (l & Hl & Hlen & Hh). destruct c; try done; simpl in *; eauto.
    + rewrite Hl. simpl. rewrite bool_decide_eq_true_2 by (apply slot_index_lt; lia). eauto.
    + rewrite (proj2 (Z.eqb_neq _ _) Hm), bool_decide_eq_false_2 by (by apply not_elem_of_dom). eauto.
    + destruct Ho as (-> & -> & Hb & -> & (new & Hnew & Hnlen) & _). rewrite Hl, Hnew. simpl.
      rewrite u64_small by (unfold is_u64; lia).
      destruct (copy_slots_spec (Z.to_nat (d_bottom st - d_top st)) (d_top st) (d_capacity st) (d_capacity st * 2) l new)
        as (new' & -> & _); try lia. eauto.
    + case_match; eauto.
    + case_match; [eauto|]. rewrite Hl. simpl.
      destruct (slot_index_Some bottom (d_capacity st) l) as [x ->]; [lia|lia|]. eauto.
  - destruct (orb_false_elim _ _ Eo) as [-> ->]. specialize (Ht _ _ Hc Eo). destruct c; try done; simpl in *; eauto.
    destruct Ht as (_ & _ & _ & (l & Hl & Hlen & Hpos & _) & _). rewrite Hl. simpl.
    destruct (slot_index_Some top capacity l) as [x ->]; [lia|lia|]. eauto.
Qed.

(** ** Executions *)

Definition disciplinedb (st : WorkDeque) : bool :=
  let cs := (map_to_list (d_calls st)).*2 in
  (length (filter (fun c => is_owner c = true) cs) <=? 1)%nat &&
  negb (existsb (fun c => match c with GrowCap _ _ _ _ => true | _ => false end) cs &&
        existsb (fun c => match c with StealBuf _ _ => true | _ => false end) cs) &&
  forallb (fun c => match c with StealSlot _ _ _ e => d_epoch st <? e + 3 | _ => true end) cs.

Lemma calls_elem st t c : d_calls st !! t = Some c -> c ∈ (map_to_list (d_calls st)).*2.
Proof. intros H. apply list_elem_of_fmap. exists (t, c). split; [done|]. by apply elem_of_map_to_list. Qed.

Lemma filter_one_owner (m : gmap Z call) t1 t2 c1 c2 :
  (length (filter (fun c => is_owner c = true) (map_to_list m).*2) <= 1)%nat ->
  m !! t1 = Some c1 -> m !! t2 = Some c2 -> is_owner c1 = true -> is_owner c2 = true -> t1 = t2.
Proof.
  intros Hlen H1 H2 O1 O2. destruct (decide (t1 = t2)) as [|Hne]; [done|exfalso].
  assert (Hm : m = <[t1 := c1]> (<[t2 := c2]> (delete t2 (delete t1 m)))).
  { rewrite (insert_delete_id (delete t1 m)) by (by rewrite lookup_delete_ne). by rewrite insert_delete_id. }
  revert Hlen. rewrite Hm.
  assert (E1 : <[t2 := c2]> (delete t2 (delete t1 m)) !! t1 = None).
  { rewrite lookup_insert_ne by done. rewrite lookup_delete_ne by done. by rewrite lookup_delete_eq. }
  rewrite (map_to_list_insert _ _ _ E1), (map_to_list_insert (delete t2 (delete t1 m)) t2 c2) by (by rewrite lookup_delete_eq).
  simpl. rewrite !filter_cons_True by done. simpl. lia.
Qed.

Lemma disciplinedb_true st : disciplinedb st = true -> disciplined st.
Proof.
  unfold disciplinedb. intros [[H1%Nat.leb_le H2]%andb_true_iff H3]%andb_true_iff. split.
  - intros t1 t2 c1 c2 E1 E2 O1%Is_true_true O2%Is_true_true. by eapply filter_one_owner.
  - intros t1 t2 x b cap old top c E1%calls_elem E2%calls_elem. apply negb_true_iff, andb_false_iff in H2.
    destruct H2 as [H2|H2]; apply not_true_iff_false in H2; apply H2, existsb_exists;
      [exists (GrowCap x b cap old)|exists (StealBuf top c)]; (split; [by apply list_elem_of_In|done]).
  - intros t top c buf e E%calls_elem. rewrite forallb_forall in H3.
    apply list_elem_of_In, H3 in E. simpl in E. lia.
Qed.

(** An execution whose every state is checked. *)
Fixpoint calm_run (st : WorkDeque) (es : list event) : option WorkDeque :=
  match es with
  | [] => Some st
  | e :: es =>
      st' ← deque_step st e;
      if disciplinedb st' && match e with EStep _ a _ => negb (a =? NULL) | _ => true end
      then calm_run st' es else None
  end.

Lemma calm_run_calm st0 es : forall st st', calm st0 st -> calm_run st es = Some st' -> calm st0 st'.
Proof.
  induction es as [|e es IH]; simpl; intros st st' Hc E; [by injection E as <-|].
  apply bind_Some in E as (st1 & E1 & E). destruct (disciplinedb st1) eqn:Ed; [|done]. simpl in E.
  destruct (match e with EStep _ a _ => negb (a =? NULL) | _ => true end) eqn:Ea; [|done].
  eapply IH; [|exact E]. eapply calm_step; [exact Hc| |exact E1|by apply disciplinedb_true].
  destruct e; simpl in *; [done|]. by apply negb_true_iff, Z.eqb_neq in Ea.
Qed.

(** The events of a whole call of thread [t] that makes [n] steps. *)
Definition whole (t : Z) (c : call) (a : ptr) (n : nat) : list event := ECall t c :: replicate n (EStep t a true).

(** The owner's pop of the last block against two thieves: one of them is faster. *)
Definition last_block : list event :=
  whole 1 (PushBottom 16) 9 4 ++ whole 1 (PushBottom 32) 9 4 ++ whole 3 StealTop 9 6 ++
  whole 2 StealTop 9 5 ++ whole 1 PopBottom 9 3 ++ [EStep 2 9 true; EStep 1 9 true; EStep 1 9 true].

Lemma deque_linearizable_witness :
  exists st, calm_run (deque_init 1) last_block = Some st /\
    d_log st = [Pushed 16; Pushed 32; Stolen (Some 16); Stolen (Some 32); PopEmpty] /\
  exists q l, replay (d_log st) = Some q /\
    d_bufs st !! d_buffer st = Some l /\ holds l (Z.of_nat (length l)) (d_top st) q /\
    ((forall t c, d_calls st !! t = Some c -> is_pop c = false) ->
       deque_size st = Z.of_nat (length q) /\ deque_empty st = bool_decide (q = [])).
Proof.
  destruct (calm_run (deque_init 1) last_block) as [st|] eqn:E; [|vm_compute in E; discriminate].
  exists st. split; [done|]. assert (Hlog : d_log st = [Pushed 16; Pushed 32; Stolen (Some 16); Stolen (Some 32); PopEmpty]).
  { vm_compute in E. injection E as <-. reflexivity. }
  split; [done|]. apply (deque_linearizable 1 st); [|rewrite Hlog; simpl; lia].
  eapply calm_run_calm; [constructor|exact E].
Defined.

(** [n] pushes of the blocks numbered from [b], without growth. *)
Fixpoint pushes_from (t b : Z) (n : nat) : list event :=
  match n with
  | O => []
  | S n => whole t (PushBottom b) 9 4 ++ pushes_from t (b + 1) n
  end.

(** A thief has read the buffer when the owner replaces it: it steals from the
    old one. *)
Definition overtaken : list event :=
  pushes_from 1 1 63 ++ whole 3 StealTop 9 4 ++ whole 1 (PushBottom 64) 9 11 ++ [EStep 3 9 true; EStep 3 9 true].

Lemma deque_conserves_witness :
  exists st, calm_run (deque_init 1) overtaken = Some st /\ takes (d_log st) = [Some 1] /\ d_capacity st = 128 /\
  exists q, replay (d_log st) = Some q /\ pushes (d_log st) ≡ₚ takes (d_log st) ++ (Some <$> q) /\
    (forall x, x ∈ takes (d_log st) -> exists b, x = Some b /\ Pushed b ∈ d_log st).
Proof.
  destruct (calm_run (deque_init 1) overtaken) as [st|] eqn:E; [|vm_compute in E; discriminate].
  exists st. split; [done|].
  assert (H : takes (d_log st) = [Some 1] /\ d_capacity st = 128 /\ Z.of_nat (length (d_log st)) = 65).
  { vm_compute in E. injection E as <-. repeat split. }
  destruct H as (H1 & H2 & H3). split; [done|]. split; [done|].
  apply (deque_conserves 1 st); [|rewrite H3; lia]. eapply calm_run_calm; [constructor|exact E].
Defined.

Lemma deque_memory_safe_witness :
  exists st, calm_run (deque_init 1) (take (length overtaken - 2) overtaken) = Some st /\
    d_buffer st = 9 /\ d_calls st !! 3 = Some (StealSlot 0 64 1 0) /\
    is_Some (deque_step st (EStep 3 10 true)).
Proof.
  destruct (calm_run (deque_init 1) (take (length overtaken - 2) overtaken)) as [st|] eqn:E;
    [|vm_compute in E; discriminate].
  exists st. split; [done|].
  assert (H : d_buffer st = 9 /\ d_calls st !! 3 = Some (StealSlot 0 64 1 0) /\
    Z.of_nat (length (d_log st)) = 64 /\ d_bufs st !! 10 = None).
  { vm_compute in E. injection E as <-. repeat split. }
  destruct H as (H1 & H2 & H3 & H4). split; [done|]. split; [done|].
  eapply (deque_memory_safe 1 st 3); [|rewrite H3; lia|exact H2|discriminate|exact H4].
  eapply calm_run_calm; [constructor|exact E].
Defined.

(** ** The discipline is needed *)

(** Two threads push at once: both read [bottom] before either writes it. *)
Definition two_pushers : list event :=
  [ECall 1 (PushBottom 16); ECall 2 (PushBottom 32); EStep 1 9 true; EStep 2 9 true;
   EStep 1 9 true; EStep 2 9 true; EStep 1 9 true; EStep 2 9 true; EStep 1 9 true; EStep 2 9 true].

(** [n] pushes of one block, each stolen at once: [top] is [n]. *)
Definition rounds (n : nat) : list event :=
  concat (replicate n (whole 1 (PushBottom 7) 9 4 ++ whole 3 StealTop 9 6)).

(** A thief reads the old capacity and the new buffer. *)
Definition mixed_growth : list event :=
  rounds 64 ++ pushes_from 1 1 63 ++ whole 3 StealTop 9 3 ++ whole 1 (PushBottom 64) 9 5 ++
  [EStep 3 9 true; EStep 3 9 true; EStep 3 9 true].

(** A thief sleeps through three growths. *)
Definition long_steal : list event :=
  pushes_from 1 1 63 ++ whole 3 StealTop 9 4 ++ whole 1 (PushBottom 64) 9 11 ++
  pushes_from 1 65 63 ++ whole 1 (PushBottom 128) 10 11 ++
  pushes_from 1 129 127 ++ whole 1 (PushBottom 256) 11 11.

(** No memory for a larger buffer. *)
Definition no_memory : list event :=
  pushes_from 1 1 63 ++ whole 1 (PushBottom 64) NULL 5 ++ whole 1 (PushBottom 65) NULL 5 ++ whole 3 StealTop 9 6.

Definition after (es : list event) : WorkDeque := default (deque_init 1) (deque_run (deque_init 1) es).

(** Every part of the discipline is needed, and the code does not keep it.  If
    two threads push at once, as [worker_enqueue] from any thread allows, one of
    two blocks is overwritten; a thief that loads the capacity before and the
    buffer after a growth returns a pointer that was never written; a thief
    overtaken by three growths reads a freed buffer; and when no larger buffer
    can be allocated, a push overwrites the oldest block. *)
Theorem deque_discipline_needed :
  (deque_run (deque_init 1) two_pushers = Some (after two_pushers) /\ d_calls (after two_pushers) = ∅ /\
   replay (d_log (after two_pushers)) = Some [16; 32] /\ deque_size (after two_pushers) = 1) /\
  (deque_run (deque_init 1) mixed_growth = Some (after mixed_growth) /\
   last (d_log (after mixed_growth)) = Some (Stolen None)) /\
  (deque_run (deque_init 1) long_steal = Some (after long_steal) /\
   d_calls (after long_steal) !! 3 = Some (StealSlot 0 64 1 0) /\
   deque_step (after long_steal) (EStep 3 12 true) = None) /\
  (deque_run (deque_init 1) no_memory = Some (after no_memory) /\
   last (d_log (after no_memory)) = Some (Stolen (Some 65)) /\ replay (d_log (after no_memory)) = None).
Proof. vm_compute. repeat split. Qed.
