(* ===== verification/Registry.v ===== *)
(** * The block registry (src/runtime/scheduler.c)

    The registry finds blocks by their identifiers: 64 shards, each a bucket array
    with chains under a lock of its own, and a total count that is also the
    admission control for new blocks.  Every operation on a shard runs under the
    shard's lock and is one step. *)

From Stdlib Require Import ZArith Lia.
From stdpp Require Import base list numbers gmap fin_maps.
From S2P Require Import Prelude Value Mailbox.
Local Open Scope Z_scope.

Definition REGISTRY_SHARDS : nat := 64.
Definition REGISTRY_INITIAL_CAPACITY : nat := 64.

(** ** Data *)

Record BlockEntry := mkBlockEntry { be_pid : Z; be_block : ptr }.
Record RegistryShard := mkShard { sh_buckets : list (list BlockEntry); sh_capacity : nat; sh_count : Z }.
Record BlockRegistry := mkRegistry { shards : list RegistryShard; total_count : Z }.

(** ** Operations *)

Definition registry_init : BlockRegistry :=
  mkRegistry (replicate REGISTRY_SHARDS
    (mkShard (replicate REGISTRY_INITIAL_CAPACITY []) REGISTRY_INITIAL_CAPACITY 0)) 0.

Definition registry_shard_index (pid : Z) : nat := Z.to_nat (pid mod Z.of_nat REGISTRY_SHARDS).
Definition registry_bucket_index (pid : Z) (capacity : nat) : nat :=
  Z.to_nat ((pid / Z.of_nat REGISTRY_SHARDS) mod Z.of_nat capacity).

(** Every entry, chain after chain, to the front of its new chain. *)
Definition relink (new_capacity : nat) (bs : list (list BlockEntry)) (e : BlockEntry) : list (list BlockEntry) :=
  alter (cons e) (registry_bucket_index (be_pid e) new_capacity) bs.

(** [calloc_ok]: the larger bucket array can be allocated. *)
Definition registry_grow_shard (calloc_ok : bool) (sh : RegistryShard) : bool * RegistryShard :=
  if calloc_ok then
    let new_capacity := (sh_capacity sh * 2)%nat in
    (true, mkShard (foldl (relink new_capacity) (replicate new_capacity []) (concat (sh_buckets sh)))
             new_capacity (sh_count sh))
  else (false, sh).

Definition shard_insert (calloc_ok malloc_ok : bool) (sh : RegistryShard) (pid : Z) (block : ptr)
    : bool * RegistryShard :=
  let sh := if u64 (Z.of_nat (sh_capacity sh) * 3) <=? u64 (sh_count sh * 4)
            then (registry_grow_shard calloc_ok sh).2 else sh in
  if malloc_ok then
    (true, mkShard (alter (cons (mkBlockEntry pid block)) (registry_bucket_index pid (sh_capacity sh)) (sh_buckets sh))
             (sh_capacity sh) (u64 (sh_count sh + 1)))
  else (false, sh).

Definition on_shard (reg : BlockRegistry) (pid : Z) (f : RegistryShard -> bool * RegistryShard)
    : bool * BlockRegistry :=
  match shards reg !! registry_shard_index pid with
  | Some sh => ((f sh).1, mkRegistry (<[registry_shard_index pid := (f sh).2]> (shards reg)) (total_count reg))
  | None => (false, reg)
  end.

Definition registry_insert_internal (calloc_ok malloc_ok : bool) (reg : BlockRegistry) (pid : Z) (block : ptr)
    : bool * BlockRegistry :=
  on_shard reg pid (fun sh => shard_insert calloc_ok malloc_ok sh pid block).

Definition add_total (reg : BlockRegistry) (d : Z) : BlockRegistry :=
  mkRegistry (shards reg) (u64 (total_count reg + d)).

Definition registry_insert (calloc_ok malloc_ok : bool) (reg : BlockRegistry) (pid : Z) (block : ptr)
    : bool * BlockRegistry :=
  match registry_insert_internal calloc_ok malloc_ok reg pid block with
  | (true, reg) => (true, add_total reg 1)
  | (false, reg) => (false, reg)
  end.

Definition sh_chain (sh : RegistryShard) (pid : Z) : list BlockEntry :=
  default [] (sh_buckets sh !! registry_bucket_index pid (sh_capacity sh)).

Definition shard_lookup (sh : RegistryShard) (pid : Z) : option ptr :=
  be_block <$> List.find (fun e => be_pid e =? pid) (sh_chain sh pid).

Definition registry_lookup (reg : BlockRegistry) (pid : Z) : option ptr :=
  shards reg !! registry_shard_index pid ≫= (fun sh => shard_lookup sh pid).

Definition shard_remove (sh : RegistryShard) (pid : Z) : bool * RegistryShard :=
  match find_index (fun e => be_pid e =? pid) (sh_chain sh pid) with
  | Some d => (true, mkShard (alter (delete d) (registry_bucket_index pid (sh_capacity sh)) (sh_buckets sh))
                       (sh_capacity sh) (u64 (sh_count sh - 1)))
  | None => (false, sh)
  end.

Definition registry_remove (reg : BlockRegistry) (pid : Z) : BlockRegistry :=
  match on_shard reg pid (fun sh => shard_remove sh pid) with
  | (true, reg) => add_total reg (-1)
  | (false, reg) => reg
  end.

(** The entries in the order [registry_iterate] visits them. *)
Definition registry_entries (reg : BlockRegistry) : list BlockEntry :=
  concat ((fun sh => concat (sh_buckets sh)) <$> shards reg).

Definition registry_iterate {C} (reg : BlockRegistry) (fn : ptr -> C -> C) (ctx : C) : C :=
  foldl (fun ctx e => if be_block e =? NULL then ctx else fn (be_block e) ctx) ctx (registry_entries reg).

(** ** The invariant *)

Definition placed (k capacity : nat) (bs : list (list BlockEntry)) : Prop :=
  length bs = capacity /\
  forall i c e, bs !! i = Some c -> e ∈ c ->
    registry_shard_index (be_pid e) = k /\ registry_bucket_index (be_pid e) capacity = i.

Record shard_ok (k : nat) (sh : RegistryShard) : Prop := {
  so_capacity : (0 < sh_capacity sh)%nat;
  so_placed : placed k (sh_capacity sh) (sh_buckets sh);
  so_nodup : NoDup (be_pid <$> concat (sh_buckets sh));
  so_count : sh_count sh = u64 (Z.of_nat (length (concat (sh_buckets sh))))
}.

Definition registry_ok (reg : BlockRegistry) : Prop :=
  length (shards reg) = REGISTRY_SHARDS /\ forall k sh, shards reg !! k = Some sh -> shard_ok k sh.

Lemma shard_index_lt pid : (registry_shard_index pid < REGISTRY_SHARDS)%nat.
Proof. unfold registry_shard_index, REGISTRY_SHARDS. pose proof (Z.mod_pos_bound pid (Z.of_nat 64)). lia. Qed.

Lemma registry_bucket_lt pid c : (0 < c)%nat -> (registry_bucket_index pid c < c)%nat.
Proof.
  intros H. unfold registry_bucket_index.
  pose proof (Z.mod_pos_bound (pid / Z.of_nat REGISTRY_SHARDS) (Z.of_nat c)). lia.
Qed.

(** The chain of a process holds its entry. *)
Lemma chain_placed k sh e :
  shard_ok k sh -> (e ∈ sh_chain sh (be_pid e) <-> e ∈ concat (sh_buckets sh)).
Proof.
  intros [Hc [Hl Hp] _ _]. rewrite elem_of_concat. unfold sh_chain. split.
  - destruct (sh_buckets sh !! _) as [c|] eqn:E; simpl; [|by intros ?%not_elem_of_nil]. eauto.
  - intros (i & c & Hi & He). destruct (Hp _ _ _ Hi He) as [_ ->]. by rewrite Hi.
Qed.

Lemma chain_lookup_bucket k sh pid :
  shard_ok k sh -> sh_buckets sh !! registry_bucket_index pid (sh_capacity sh) = Some (sh_chain sh pid).
Proof.
  intros [Hc [Hl _] _ _]. unfold sh_chain.
  destruct (lookup_lt_is_Some_2 (sh_buckets sh) (registry_bucket_index pid (sh_capacity sh))) as [c ->]; [|done].
  rewrite Hl. by apply registry_bucket_lt.
Qed.

Lemma shard_lookup_spec k sh pid b :
  shard_ok k sh -> (shard_lookup sh pid = Some b <-> mkBlockEntry pid b ∈ concat (sh_buckets sh)).
Proof.
  intros Hok. unfold shard_lookup. rewrite <- (chain_placed k sh (mkBlockEntry pid b) Hok). simpl.
  assert (Hin : forall e, e ∈ sh_chain sh pid -> e ∈ concat (sh_buckets sh)).
  { intros e He. apply elem_of_concat. exists (registry_bucket_index pid (sh_capacity sh)), (sh_chain sh pid).
    split; [by eapply chain_lookup_bucket|done]. }
  split.
  - intros ([p b'] & [He Hp]%find_some & ->)%fmap_Some. simpl in Hp. apply list_elem_of_In in He.
    apply Z.eqb_eq in Hp. by subst p.
  - intros He. destruct (List.find _ _) as [[p b']|] eqn:E; simpl.
    + apply find_some in E as [He' Hp]. apply list_elem_of_In in He'. simpl in Hp. apply Z.eqb_eq in Hp. subst p.
      pose proof (NoDup_fmap_unique be_pid _ _ _ (so_nodup _ _ Hok) (Hin _ He) (Hin _ He') eq_refl). congruence.
    + eapply find_none in E; [|by apply list_elem_of_In]. simpl in E. lia.
Qed.

Lemma registry_entries_elem reg e :
  registry_ok reg ->
  (e ∈ registry_entries reg <->
   exists sh, shards reg !! registry_shard_index (be_pid e) = Some sh /\ e ∈ concat (sh_buckets sh)).
Proof.
  intros [Hl Hok]. unfold registry_entries. rewrite elem_of_concat. split.
  - intros (k & c & Hk & He). rewrite list_lookup_fmap in Hk.
    apply fmap_Some in Hk as (sh & Hk & ->). exists sh. split; [|done].
    pose proof He as (i & c & Hi & Hc)%elem_of_concat.
    by destruct (proj2 (so_placed _ _ (Hok _ _ Hk)) _ _ _ Hi Hc) as [-> _].
  - intros (sh & Hk & He). exists (registry_shard_index (be_pid e)), (concat (sh_buckets sh)).
    by rewrite list_lookup_fmap, Hk.
Qed.

Lemma registry_lookup_spec reg pid b :
  registry_ok reg -> (registry_lookup reg pid = Some b <-> mkBlockEntry pid b ∈ registry_entries reg).
Proof.
  intros Hok. rewrite registry_entries_elem by done. unfold registry_lookup. simpl. rewrite bind_Some.
  split; intros (sh & Hk & Hb); exists sh; (split; [done|]);
    by apply (shard_lookup_spec _ _ _ _ (proj2 Hok _ _ Hk)).
Qed.

(** ** Shards *)

Lemma placed_cons k c bs e :
  placed k c bs -> (0 < c)%nat -> registry_shard_index (be_pid e) = k ->
  placed k c (relink c bs e) /\ concat (relink c bs e) ≡ₚ e :: concat bs.
Proof.
  intros [Hl Hp] Hc Hk. unfold relink. pose proof (registry_bucket_lt (be_pid e) c Hc) as Hlt.
  destruct (lookup_lt_is_Some_2 bs (registry_bucket_index (be_pid e) c)) as [ch Hch]; [by rewrite Hl|].
  split; [split; [by rewrite length_alter|]|].
  - intros i c' e' Hi He. destruct (decide (i = registry_bucket_index (be_pid e) c)) as [->|Hne].
    + rewrite list_lookup_alter_eq, Hch in Hi. injection Hi as <-.
      apply elem_of_cons in He as [->|He]; [done|by eapply Hp].
    + rewrite list_lookup_alter_ne in Hi by done. by eapply Hp.
  - rewrite (concat_alter_perm _ _ _ _ Hch), (concat_focus _ _ _ Hch). done.
Qed.

Lemma relink_all k c es : forall bs,
  placed k c bs -> (0 < c)%nat -> Forall (fun e => registry_shard_index (be_pid e) = k) es ->
  placed k c (foldl (relink c) bs es) /\ concat (foldl (relink c) bs es) ≡ₚ es ++ concat bs.
Proof.
  induction es as [|e es IH]; intros bs Hp Hc Hf; simpl; [done|].
  apply Forall_cons in Hf as [He Hes]. destruct (placed_cons k c bs e Hp Hc He) as [Hp1 Hp2].
  destruct (IH _ Hp1 Hc Hes) as [H1 H2]. split; [done|]. rewrite H2, Hp2. by rewrite Permutation_middle.
Qed.

Lemma placed_empty k c : placed k c (replicate c []).
Proof.
  split; [apply length_replicate|]. intros i ch e [-> _]%lookup_replicate He. by apply not_elem_of_nil in He.
Qed.

Lemma concat_empty c : concat (replicate c ([] : list BlockEntry)) = [].
Proof. by induction c. Qed.

Lemma shard_pids k sh : shard_ok k sh -> Forall (fun e => registry_shard_index (be_pid e) = k) (concat (sh_buckets sh)).
Proof.
  intros Hok. apply Forall_forall. intros e (i & c & Hi & He)%elem_of_concat.
  by destruct (proj2 (so_placed _ _ Hok) _ _ _ Hi He).
Qed.

Lemma shard_ok_perm k sh bs c :
  shard_ok k sh -> (0 < c)%nat -> placed k c bs -> concat bs ≡ₚ concat (sh_buckets sh) ->
  shard_ok k (mkShard bs c (sh_count sh)).
Proof.
  intros [] Hc Hp Hperm. split; simpl; [done|done|by rewrite Hperm|by rewrite Hperm].
Qed.

Lemma registry_grow_shard_spec ok k sh :
  shard_ok k sh -> shard_ok k (registry_grow_shard ok sh).2 /\
    concat (sh_buckets (registry_grow_shard ok sh).2) ≡ₚ concat (sh_buckets sh).
Proof.
  intros Hok. destruct ok; [|done]. simpl. pose proof (so_capacity _ _ Hok).
  destruct (relink_all k (sh_capacity sh * 2) (concat (sh_buckets sh)) (replicate (sh_capacity sh * 2) []))
    as [H1 H2]; [apply placed_empty|lia|by apply shard_pids|].
  rewrite concat_empty, app_nil_r in H2. split; [|done]. apply shard_ok_perm; auto. lia.
Qed.

Lemma shard_insert_spec ok1 ok2 k sh pid b :
  shard_ok k sh -> registry_shard_index pid = k -> shard_lookup sh pid = None ->
  (shard_insert ok1 ok2 sh pid b).1 = ok2 /\ shard_ok k (shard_insert ok1 ok2 sh pid b).2 /\
  concat (sh_buckets (shard_insert ok1 ok2 sh pid b).2) ≡ₚ
    (if ok2 then [mkBlockEntry pid b] else []) ++ concat (sh_buckets sh).
Proof.
  intros Hok Hk Hn. unfold shard_insert. set (sh1 := if _ <=? _ then _ else _).
  assert (Hg : shard_ok k sh1 /\ concat (sh_buckets sh1) ≡ₚ concat (sh_buckets sh)).
  { subst sh1. case_if; [by apply registry_grow_shard_spec|done]. }
  destruct Hg as [Hok1 Hperm]. destruct ok2; [|done]. simpl. split; [done|].
  destruct (placed_cons k (sh_capacity sh1) (sh_buckets sh1) (mkBlockEntry pid b)) as [Hp Hc];
    [apply Hok1|apply Hok1|done|]. unfold relink in *. simpl in *.
  split; [|by rewrite Hc, Hperm]. split; simpl; [apply Hok1|done| |].
  - rewrite Hc, Hperm. simpl. apply NoDup_cons. split; [|apply Hok].
    intros ([p b'] & -> & He)%list_elem_of_fmap. simpl in *.
    apply (shard_lookup_spec _ _ _ _ Hok) in He. congruence.
  - rewrite Hc. simpl. rewrite (so_count _ _ Hok1). unfold u64, wrap. rewrite Zplus_mod_idemp_l. f_equal. lia.
Qed.

Lemma shard_remove_spec k sh pid :
  shard_ok k sh ->
  shard_ok k (shard_remove sh pid).2 /\
  match shard_lookup sh pid with
  | Some b => (shard_remove sh pid).1 = true /\
      concat (sh_buckets sh) ≡ₚ mkBlockEntry pid b :: concat (sh_buckets (shard_remove sh pid).2)
  | None => shard_remove sh pid = (false, sh)
  end.
Proof.
  intros Hok. pose proof (chain_lookup_bucket _ _ pid Hok) as Hch. unfold shard_remove.
  destruct (find_index _ (sh_chain sh pid)) as [d|] eqn:E.
  - apply find_index_Some in E as ([p b] & Hd & Hp). simpl in Hp. apply Z.eqb_eq in Hp. subst p.
    assert (Hperm : concat (sh_buckets sh) ≡ₚ mkBlockEntry pid b ::
      concat (alter (delete d) (registry_bucket_index pid (sh_capacity sh)) (sh_buckets sh))).
    { rewrite (concat_alter_perm _ _ _ _ Hch), (concat_focus _ _ _ Hch).
      exact (Permutation_app_tail _ (delete_Permutation _ _ _ Hd)). }
    assert (Hl : shard_lookup sh pid = Some b).
    { apply (shard_lookup_spec _ _ _ _ Hok). rewrite Hperm. left. }
    rewrite Hl. simpl. split; [|done]. destruct Hok as [H1 [H2 H3] H4 H5]. rewrite Hperm in H4, H5.
    split; simpl; [done| |by apply NoDup_cons in H4 as [_ ?]|].
    + split; [by rewrite length_alter|]. intros i c e Hi He. destruct (decide (i = registry_bucket_index pid (sh_capacity sh))) as [->|Hne].
      * rewrite list_lookup_alter_eq, Hch in Hi. injection Hi as <-. eapply H3; [exact Hch|].
        apply (elem_of_Permutation_proper e _ _ (delete_Permutation _ _ _ Hd)). by right.
      * rewrite list_lookup_alter_ne in Hi by done. by eapply H3.
    + rewrite H5. simpl. unfold u64, wrap. rewrite Zminus_mod_idemp_l. f_equal. lia.
  - split; [done|]. apply find_index_None in E. destruct (shard_lookup sh pid) as [b|] eqn:El; [|done].
    apply (shard_lookup_spec _ _ _ _ Hok), (chain_placed _ _ (mkBlockEntry pid b) Hok) in El. simpl in El.
    rewrite Forall_forall in E. apply E in El. simpl in El. lia.
Qed.

(** ** The whole registry *)

Lemma on_shard_spec reg pid f :
  registry_ok reg ->
  exists sh rest, shards reg !! registry_shard_index pid = Some sh /\ shard_ok (registry_shard_index pid) sh /\
    registry_entries reg ≡ₚ concat (sh_buckets sh) ++ rest /\
    registry_lookup reg pid = shard_lookup sh pid /\
    (on_shard reg pid f).1 = (f sh).1 /\ total_count (on_shard reg pid f).2 = total_count reg /\
    registry_entries (on_shard reg pid f).2 ≡ₚ concat (sh_buckets (f sh).2) ++ rest /\
    (shard_ok (registry_shard_index pid) (f sh).2 -> registry_ok (on_shard reg pid f).2).
Proof.
  intros [Hl Hok]. pose proof (shard_index_lt pid) as Hlt. set (k := registry_shard_index pid) in *.
  destruct (lookup_lt_is_Some_2 (shards reg) k) as [sh Hk]; [by rewrite Hl|].
  set (g := fun sh => concat (sh_buckets sh)).
  assert (Hg : (g <$> shards reg) !! k = Some (g sh)) by (by rewrite list_lookup_fmap, Hk).
  exists sh, (concat (delete k (g <$> shards reg))). unfold on_shard, registry_lookup. fold k. rewrite Hk. simpl.
  split_and!; auto.
  - unfold registry_entries. fold g. by rewrite (concat_focus _ _ _ Hg).
  - unfold registry_entries. simpl. fold g. rewrite list_fmap_insert. by apply concat_insert with (c := g sh).
  - intros Hs. split; simpl; [by rewrite length_insert|]. intros k' sh'.
    destruct (decide (k' = k)) as [->|Hne].
    + rewrite list_lookup_insert_eq by (by eapply lookup_lt_Some). by intros [= <-].
    + rewrite list_lookup_insert_ne by done. apply Hok.
Qed.

Lemma registry_init_ok : registry_ok registry_init /\ registry_entries registry_init = [].
Proof.
  split; [|reflexivity]. split; [reflexivity|].
  intros k sh [-> _]%lookup_replicate. split; [unfold sh_capacity, REGISTRY_INITIAL_CAPACITY; lia|apply placed_empty|constructor|reflexivity].
Qed.

(** The keys of the registry. *)
Lemma registry_nodup reg : registry_ok reg -> NoDup (be_pid <$> registry_entries reg).
Proof.
  intros Hok. apply NoDup_fmap_2_strong.
  - intros [p b] [p' b'] H1 H2 Hp. simpl in Hp. subst p'.
    apply registry_lookup_spec in H1; [|done]. apply registry_lookup_spec in H2; [|done]. congruence.
  - destruct Hok as [_ Hok]. apply NoDup_concat.
    + intros k c (sh & -> & Hk)%list_lookup_fmap_Some. by apply (NoDup_fmap_1 be_pid), (Hok k).
    + intros i j c d e (s1 & -> & H1)%list_lookup_fmap_Some (s2 & -> & H2)%list_lookup_fmap_Some E1 E2.
      pose proof (shard_pids _ _ (Hok _ _ H1)) as F1. pose proof (shard_pids _ _ (Hok _ _ H2)) as F2.
      rewrite Forall_forall in F1, F2. rewrite <- (F1 _ E1). by apply F2.
Qed.

Lemma registry_insert_spec reg pid b calloc_ok malloc_ok :
  registry_ok reg -> registry_lookup reg pid = None ->
  let '(r, reg') := registry_insert_internal calloc_ok malloc_ok reg pid b in
  registry_ok reg' /\ r = malloc_ok /\ total_count reg' = total_count reg /\
  registry_entries reg' ≡ₚ (if malloc_ok then [mkBlockEntry pid b] else []) ++ registry_entries reg.
Proof.
  intros Hok Hn. unfold registry_insert_internal. set (f := fun sh => shard_insert calloc_ok malloc_ok sh pid b).
  destruct (on_shard_spec reg pid f Hok) as (sh & rest & Hk & Hs & He & Hl & Hr & Ht & He' & Hok').
  rewrite Hn in Hl. destruct (shard_insert_spec calloc_ok malloc_ok _ sh pid b Hs eq_refl (eq_sym Hl)) as (S1 & S2 & S3).
  subst f. simpl in *. destruct (on_shard reg pid _) as [r reg']. simpl in *. split_and!; auto; [congruence|].
  by rewrite He', He, S3, app_assoc.
Qed.

Lemma registry_remove_spec reg pid :
  registry_ok reg ->
  registry_ok (registry_remove reg pid) /\
  match registry_lookup reg pid with
  | Some b => total_count (registry_remove reg pid) = u64 (total_count reg - 1) /\
      registry_entries reg ≡ₚ mkBlockEntry pid b :: registry_entries (registry_remove reg pid)
  | None => total_count (registry_remove reg pid) = total_count reg /\
      registry_entries (registry_remove reg pid) ≡ₚ registry_entries reg
  end.
Proof.
  intros Hok. unfold registry_remove. set (f := fun sh => shard_remove sh pid).
  destruct (on_shard_spec reg pid f Hok) as (sh & rest & Hk & Hs & He & Hl & Hr & Ht & He' & Hok').
  destruct (shard_remove_spec _ sh pid Hs) as [S1 S2]. rewrite <- Hl in S2. subst f. simpl in *. specialize (Hok' S1).
  destruct (on_shard reg pid _) as [r reg']. simpl in *.
  destruct (registry_lookup reg pid) as [c|].
  - destruct S2 as [S2 S3]. rewrite S2 in Hr. subst r. split; [done|]. simpl. split; [by rewrite Ht|].
    change (registry_entries (add_total reg' (-1))) with (registry_entries reg'). by rewrite He, He', S3.
  - rewrite S2 in Hr, He'. simpl in *. subst r. split_and!; [done..|]. by rewrite He, He'.
Qed.

Lemma registry_insert_lookup reg pid b calloc_ok malloc_ok q :
  registry_ok reg -> registry_lookup reg pid = None ->
  registry_lookup (registry_insert_internal calloc_ok malloc_ok reg pid b).2 q =
    if decide (q = pid /\ malloc_ok = true) then Some b else registry_lookup reg q.
Proof.
  intros Hok Hn. pose proof (registry_insert_spec reg pid b calloc_ok malloc_ok Hok Hn) as H.
  destruct (registry_insert_internal calloc_ok malloc_ok reg pid b) as [r reg']. destruct H as (H1 & _ & _ & H3).
  simpl. apply option_eq. intros c.
  rewrite registry_lookup_spec, H3, elem_of_app, <- registry_lookup_spec by done.
  destruct malloc_ok; [rewrite list_elem_of_singleton|rewrite elem_of_nil]; case_decide; naive_solver.
Qed.

(** C26: The block registry is a finite map from process identifiers to blocks:
    lookup after insertion, removal and iteration behave as those of a map,
    through shard selection, collisions and the growth of a shard, also when an
    allocation fails.  Iteration visits every registered block once.  An inserted
    block has an identifier that is not registered yet. *)
Theorem registry_refines reg pid b calloc_ok malloc_ok :
  registry_ok reg ->
  (registry_lookup reg pid = None ->
   let '(r, reg') := registry_insert_internal calloc_ok malloc_ok reg pid b in
   registry_ok reg' /\ r = malloc_ok /\
   forall q, registry_lookup reg' q = if decide (q = pid /\ malloc_ok = true) then Some b else registry_lookup reg q) /\
  (let reg' := registry_remove reg pid in
   registry_ok reg' /\
   total_count reg' = (if registry_lookup reg pid then u64 (total_count reg - 1) else total_count reg) /\
   forall q, registry_lookup reg' q = if decide (q = pid) then None else registry_lookup reg q) /\
  NoDup (be_pid <$> registry_entries reg) /\
  forall q c, mkBlockEntry q c ∈ registry_entries reg <-> registry_lookup reg q = Some c.
Proof.
  intros Hok. split_and!.
  - intros Hn. pose proof (registry_insert_spec reg pid b calloc_ok malloc_ok Hok Hn) as H.
    pose proof (registry_insert_lookup reg pid b calloc_ok malloc_ok) as Hl.
    destruct (registry_insert_internal calloc_ok malloc_ok reg pid b) as [r reg']. split_and!; [apply H..|auto].
  - destruct (registry_remove_spec reg pid Hok) as [H1 H]. intros reg'. subst reg'.
    split_and!; [done|by destruct (registry_lookup reg pid); apply H|]. intros q. apply option_eq. intros c.
    pose proof (registry_nodup reg Hok) as Hnd.
    rewrite registry_lookup_spec by done. destruct (registry_lookup reg pid) as [d|] eqn:El; destruct H as [_ H].
    + rewrite H in Hnd. apply NoDup_cons in Hnd as [Hnd _]. case_decide as Hq.
      * subst q. split; [|done]. intros Hin. destruct Hnd. apply list_elem_of_fmap. by exists (mkBlockEntry pid c).
      * rewrite registry_lookup_spec, H, elem_of_cons by done. naive_solver.
    + rewrite H, <- registry_lookup_spec by done. case_decide; naive_solver.
  - by apply registry_nodup.
  - intros q c. by rewrite registry_lookup_spec.
Qed.

Lemma registry_refines_witness :
  let reg := (registry_insert_internal true true registry_init 3 48).2 in
  registry_lookup (registry_remove reg 3) 3 = None /\ registry_lookup reg 3 = Some 48.
Proof.
  destruct (registry_refines registry_init 3 48 true true (proj1 registry_init_ok)) as [H _].
  specialize (H eq_refl). destruct (registry_insert_internal true true registry_init 3 48) as [r reg]. simpl.
  destruct H as (Hok & -> & Hl). split; [|by rewrite Hl].
  destruct (registry_refines reg 3 48 true true Hok) as (_ & (_ & _ & H) & _). by rewrite H.
Defined.

(** ** Admission control

    [register_block] by any number of threads: the load of [total_count], the
    attempts to increment it by compare-and-exchange while it is below
    [max_blocks], the insertion under the shard's lock, and the decrement when
    the insertion fails. *)

Inductive register_call :=
  | RLoad (pid : Z) (block : ptr)                   (** about to load [total_count] *)
  | RCas (pid : Z) (block : ptr) (current : Z)      (** about to compare and exchange *)
  | RInsert (pid : Z) (block : ptr)                 (** a slot is reserved; about to insert *)
  | RRevert (pid : Z).                              (** the insertion failed; about to decrement *)

Record admission := mkAdmission { a_registry : BlockRegistry; a_calls : gmap Z register_call }.

Inductive register_event :=
  | ERegister (t : Z) (pid : Z) (block : ptr)
  | ERegisterStep (t : Z) (spurious calloc_ok malloc_ok : bool). (** [spurious]: a weak exchange fails *)

Definition rpid (c : register_call) : Z :=
  match c with RLoad p _ | RCas p _ _ | RInsert p _ | RRevert p => p end.

(** The head of the loop: [while (current < max)]. *)
Definition try_reserve (max : Z) (pid : Z) (block : ptr) (current : Z) : option register_call :=
  if current <? max then Some (RCas pid block current) else None.

Definition set_register (st : admission) (t : Z) (reg : BlockRegistry) (c : option register_call) : admission :=
  mkAdmission reg (match c with Some c => <[t := c]> (a_calls st) | None => delete t (a_calls st) end).

Definition register_step (max : Z) (st : admission) (e : register_event) : option admission :=
  let reg := a_registry st in
  match e with
  | ERegister t pid block =>
      (* the identifier is the next of the scheduler's counter *)
      if bool_decide (a_calls st !! t = None) && bool_decide (registry_lookup reg pid = None) &&
         forallb (fun c => negb (rpid c.2 =? pid)) (map_to_list (a_calls st))
      then Some (set_register st t reg (Some (RLoad pid block))) else None
  | ERegisterStep t spurious calloc_ok malloc_ok =>
      c ← a_calls st !! t;
      Some match c with
      | RLoad pid block => set_register st t reg (try_reserve max pid block (total_count reg))
      | RCas pid block current =>
          if negb spurious && (total_count reg =? current)
          then set_register st t (mkRegistry (shards reg) (u64 (current + 1))) (Some (RInsert pid block))
          else set_register st t reg (try_reserve max pid block (total_count reg))
      | RInsert pid block =>
          match registry_insert_internal calloc_ok malloc_ok reg pid block with
          | (true, reg) => set_register st t reg None
          | (false, reg) => set_register st t reg (Some (RRevert pid))
          end
      | RRevert _ => set_register st t (add_total reg (-1)) None
      end
  end.

Inductive admitted (max : Z) : admission -> Prop :=
  | admitted_initial : admitted max (mkAdmission registry_init ∅)
  | admitted_step st e st' : admitted max st -> register_step max st e = Some st' -> admitted max st'.

(** The same call when no other thread interferes. *)
Definition register_block (max : Z) (calloc_ok malloc_ok : bool) (reg : BlockRegistry) (pid : Z) (block : ptr)
    : bool * BlockRegistry :=
  if total_count reg <? max then
    match registry_insert_internal calloc_ok malloc_ok (add_total reg 1) pid block with
    | (true, reg) => (true, reg)
    | (false, reg) => (false, add_total reg (-1))
    end
  else (false, reg).

(** A slot is reserved and not filled. *)
Definition reserved (c : register_call) : Prop :=
  match c with RInsert _ _ | RRevert _ => True | _ => False end.
#[global] Instance reserved_dec c : Decision (reserved c).
Proof. destruct c; simpl; apply _. Defined.

Definition reservations (m : gmap Z register_call) : Z := count_where reserved m.

Record admission_ok (max : Z) (st : admission) : Prop := {
  ao_registry : registry_ok (a_registry st);
  ao_count : total_count (a_registry st) =
    Z.of_nat (length (registry_entries (a_registry st))) + reservations (a_calls st);
  ao_max : 0 <= total_count (a_registry st) <= max;
  ao_cas t p b cur : a_calls st !! t = Some (RCas p b cur) -> 0 <= cur < max;
  ao_fresh t c : a_calls st !! t = Some c -> registry_lookup (a_registry st) (rpid c) = None;
  ao_inj t1 t2 c1 c2 : a_calls st !! t1 = Some c1 -> a_calls st !! t2 = Some c2 -> rpid c1 = rpid c2 -> t1 = t2
}.

Lemma calls_set_register st t reg oc t' :
  a_calls (set_register st t reg oc) !! t' = if decide (t' = t) then oc else a_calls st !! t'.
Proof.
  unfold set_register. destruct oc; simpl; case_decide; subst;
    by rewrite ?lookup_insert_eq, ?lookup_delete_eq, ?lookup_insert_ne, ?lookup_delete_ne.
Qed.

Lemma reservations_set st t c reg oc :
  a_calls st !! t = Some c ->
  reservations (a_calls (set_register st t reg oc)) =
    reservations (a_calls st) - (if decide (reserved c) then 1 else 0) +
    match oc with Some c' => if decide (reserved c') then 1 else 0 | None => 0 end.
Proof.
  intros Hc. unfold reservations. rewrite (count_where_delete reserved _ _ _ Hc). destruct oc; simpl.
  - rewrite count_where_insert. lia.
  - lia.
Qed.

(** A step of thread [t] that keeps its identifier. *)
Lemma admission_step max st t c reg oc :
  admission_ok max st -> a_calls st !! t = Some c ->
  (forall c', oc = Some c' -> rpid c' = rpid c) ->
  (forall p b cur, oc = Some (RCas p b cur) -> 0 <= cur < max) ->
  registry_ok reg ->
  total_count reg = Z.of_nat (length (registry_entries reg)) + reservations (a_calls (set_register st t reg oc)) ->
  0 <= total_count reg <= max ->
  (forall q, registry_lookup reg q = registry_lookup (a_registry st) q \/ (q = rpid c /\ oc = None)) ->
  admission_ok max (set_register st t reg oc).
Proof.
  intros [] Hc Hp Hcas Hok Hcount Hmax Hl. split; try done.
  - intros t' p b cur. rewrite calls_set_register. case_decide; eauto.
  - intros t' c'. rewrite calls_set_register. simpl. case_decide as Ht; intros Hc'.
    + rewrite (Hp _ Hc'). destruct (Hl (rpid c)) as [->|[_ ?]]; [by eapply ao_fresh0|congruence].
    + destruct (Hl (rpid c')) as [->|[E _]]; [by eapply ao_fresh0|]. by destruct Ht, (ao_inj0 _ _ _ _ Hc' Hc E).
  - intros t1 t2 c1 c2. rewrite !calls_set_register.
    assert (Hother : forall t' c' c'', oc = Some c'' -> a_calls st !! t' = Some c' -> rpid c' = rpid c'' -> t' = t).
    { intros t' c' c'' Eo Hc' E. rewrite (Hp _ Eo) in E. by eapply ao_inj0. }
    case_decide; case_decide; subst; intros E1 E2 Er; [done| | |by eapply ao_inj0].
    + symmetry. eapply Hother; [exact E1|exact E2|done].
    + eapply Hother; [exact E2|exact E1|done].
Qed.

Lemma admission_register max st t pid b st' :
  admission_ok max st -> register_step max st (ERegister t pid b) = Some st' -> admission_ok max st'.
Proof.
  intros [] E. simpl in E.
  destruct (bool_decide_reflect (a_calls st !! t = None)) as [Ht|]; [|done].
  destruct (bool_decide_reflect (registry_lookup (a_registry st) pid = None)) as [Hl|]; [|done]. simpl in E.
  destruct (forallb _ _) eqn:Ef; [|done]. injection E as <-. rewrite forallb_forall in Ef.
  assert (Hne : forall t' c', a_calls st !! t' = Some c' -> rpid c' <> pid).
  { intros t' c' Hc'%elem_of_map_to_list%list_elem_of_In%Ef. simpl in Hc'. lia. }
  split; try done.
  - simpl. rewrite ao_count0. f_equal. unfold reservations. rewrite count_where_insert, count_where_none by done.
    rewrite decide_False by (by intros []). lia.
  - intros t' p b' cur. rewrite calls_set_register. case_decide; [done|eauto].
  - intros t' c'. rewrite calls_set_register. case_decide; [by intros [= <-]|eauto].
  - intros t1 t2 d1 d2. rewrite !calls_set_register. do 2 case_decide; subst; intros E1 E2 Er; simplify_eq/=;
      [done|by destruct (Hne _ _ E2)|by destruct (Hne _ _ E1)|by eapply ao_inj0].
Qed.

(** Entering the loop again, or giving up. *)
Lemma admission_retry max st t c b :
  admission_ok max st -> a_calls st !! t = Some c -> ~ reserved c ->
  admission_ok max (set_register st t (a_registry st) (try_reserve max (rpid c) b (total_count (a_registry st)))).
Proof.
  intros Hok Hc Hr. pose proof Hok as []. unfold try_reserve.
  pose proof (fun oc => reservations_set st t c (a_registry st) oc Hc) as Hres.
  destruct (Z.ltb_spec (total_count (a_registry st)) max);
    (eapply admission_step; [done|exact Hc|..]);
    rewrite ?Hres, ?(decide_False (P := reserved c)) by done; try done; try (by auto); simpl; try lia.
  - by intros c' [= <-].
  - intros ? ? ? [= <- <- <-]. lia.
Qed.

Lemma admission_insert max st t p b c1 c2 st' :
  admission_ok max st -> a_calls st !! t = Some (RInsert p b) ->
  register_step max st (ERegisterStep t false c1 c2) = Some st' -> admission_ok max st'.
Proof.
  intros Hst Ec E. pose proof Hst as []. simpl in E. rewrite Ec in E. simpl in E.
  pose proof (ao_fresh0 _ _ Ec) as Hf. simpl in Hf.
  pose proof (registry_insert_lookup (a_registry st) p b c1 c2) as Hl.
  pose proof (registry_insert_spec (a_registry st) p b c1 c2 ao_registry0 Hf) as Hi.
  destruct (registry_insert_internal c1 c2 (a_registry st) p b) as [r reg].
  assert (Hlq := fun q => Hl q ao_registry0 Hf). cbn [snd] in Hlq. clear Hl.
  destruct Hi as (Hok' & -> & Htot & Hperm).
  pose proof (fun oc => reservations_set st t _ reg oc Ec) as Hres.
  destruct c2; injection E as <-; (eapply admission_step; [done|exact Ec|..]);
    rewrite ?Hres, ?Htot, ?Hperm; try done; simpl; try lia; clear Hres.
  - intros q. rewrite Hlq. destruct (decide (q = p /\ true = true)) as [Hd|Hd]; [right; split; [apply Hd|done]|by left].
  - by intros c' [= <-].
  - intros q. left. rewrite Hlq. by rewrite decide_False by (by intros []).
Qed.

Lemma admitted_ok max st : 0 <= max < 2 ^ 64 -> admitted max st -> admission_ok max st.
Proof.
  intros Hm. induction 1 as [|st e st' _ IH E].
  { pose proof registry_init_ok as [H1 H2].
    split; cbn [a_registry a_calls]; try (by intros; simplify_map_eq); try done. split; [done|]. simpl. lia. }
  destruct e as [t pid b|t sp c1 c2]; [by eapply admission_register|].
  pose proof IH as []. pose proof E as E0. simpl in E.
  destruct (a_calls st !! t) as [c|] eqn:Ec; [|done]. simpl in E.
  pose proof (fun reg oc => reservations_set st t c reg oc Ec) as Hres.
  destruct c as [p b|p b cur|p b|p]; simpl; injection E as <-.
  - exact (admission_retry max st t _ b IH Ec (fun H => H)).
  - destruct (negb sp && _) eqn:Es; [|exact (admission_retry max st t _ b IH Ec (fun H => H))].
    apply andb_true_iff in Es as [_ Es%Z.eqb_eq]. pose proof (ao_cas0 _ _ _ _ Ec).
    rewrite u64_small by (unfold is_u64; lia).
    eapply admission_step; [done|exact Ec|..]; rewrite ?Hres; try done; simpl; try lia.
    + by intros c' [= <-].
    + change (registry_entries (mkRegistry _ _)) with (registry_entries (a_registry st)). lia.
    + auto.
  - eapply admission_insert; [done|exact Ec|]. simpl. by rewrite Ec.
  - assert (0 < reservations (a_calls st)).
    { unfold reservations. rewrite (count_where_delete reserved _ _ _ Ec). simpl. unfold count_where. lia. }
    unfold add_total. rewrite u64_small by (unfold is_u64; lia).
    eapply admission_step; [done|exact Ec|..]; rewrite ?Hres; try done; simpl; try lia.
    + change (registry_entries (mkRegistry _ _)) with (registry_entries (a_registry st)). lia.
    + auto.
Qed.

(** The limit on blocks holds under concurrency.  Whatever the interleaving of
    threads that register blocks, with failing allocations and spuriously failing
    exchanges, the count is the number of registered blocks and of slots
    reserved for blocks still to be inserted, and never exceeds [max_blocks]. *)
Theorem registry_capacity max st :
  0 <= max < 2 ^ 64 -> admitted max st ->
  registry_ok (a_registry st) /\
  total_count (a_registry st) = Z.of_nat (length (registry_entries (a_registry st))) + reservations (a_calls st) /\
  Z.of_nat (length (registry_entries (a_registry st))) <= total_count (a_registry st) <= max.
Proof.
  intros Hm [] %(admitted_ok max st Hm). split_and!; try done; [|lia].
  rewrite ao_count0. unfold reservations, count_where. lia.
Qed.

Fixpoint register_run (max : Z) (st : admission) (es : list register_event) : option admission :=
  match es with
  | [] => Some st
  | e :: es => st ← register_step max st e; register_run max st es
  end.

Lemma register_run_admitted max es : forall st st',
  admitted max st -> register_run max st es = Some st' -> admitted max st'.
Proof.
  induction es as [|e es IH]; simpl; intros st st' Ha E; [by injection E as <-|].
  apply bind_Some in E as (st1 & E1 & E). eapply IH; [by eapply admitted_step|exact E].
Qed.

(** Two threads compete for the last slot. *)
Definition last_slot : list register_event :=
  [ERegister 1 10 16; ERegister 2 11 32; ERegisterStep 1 false true true; ERegisterStep 2 false true true;
   ERegisterStep 2 false true true; ERegisterStep 1 false true true; ERegisterStep 2 false true true].

Lemma registry_capacity_witness :
  exists st, register_run 1 (mkAdmission registry_init ∅) last_slot = Some st /\
    a_calls st = ∅ /\ registry_lookup (a_registry st) 11 = Some 32 /\ registry_lookup (a_registry st) 10 = None /\
    Z.of_nat (length (registry_entries (a_registry st))) <= total_count (a_registry st) <= 1.
Proof.
  destruct (register_run 1 (mkAdmission registry_init ∅) last_slot) as [st|] eqn:E; [|vm_compute in E; discriminate].
  exists st. split; [done|]. assert (Ha : admitted 1 st) by (eapply register_run_admitted; [constructor|exact E]).
  assert (H : a_calls st = ∅ /\ registry_lookup (a_registry st) 11 = Some 32 /\ registry_lookup (a_registry st) 10 = None).
  { vm_compute in E. injection E as <-. repeat split. }
  destruct H as (H1 & H2 & H3). split; [done|]. split; [done|]. split; [done|].
  apply (registry_capacity 1 st); [lia|exact Ha].
Defined.
