(* ===== verification/RunQueue.v ===== *)
(** * The run queue (src/runtime/scheduler.c)

    The queue of runnable blocks of a scheduler without workers: a doubly linked
    list through the [next] and [prev] fields of the blocks themselves, with a
    count.  It implements a FIFO queue with removal from the middle. *)

From Stdlib Require Import ZArith Lia.
From stdpp Require Import base list numbers gmap fin_maps.
From S2P Require Import Prelude Value Mailbox.
Local Open Scope Z_scope.

(** The queue, and the [next] and [prev] fields of all blocks. *)
Record RunQueue := mkRunQueue {
  rq_head : ptr;
  rq_tail : ptr;
  rq_count : Z;
  rq_next : gmap Z Z;
  rq_prev : gmap Z Z
}.

(** The head, tail and count of an empty queue; new blocks have NULL links. *)
Definition runqueue_init : RunQueue := mkRunQueue NULL NULL 0 ∅ ∅.

Definition rq_set_next (q : RunQueue) (b n : ptr) : RunQueue :=
  mkRunQueue (rq_head q) (rq_tail q) (rq_count q) (<[b := n]> (rq_next q)) (rq_prev q).
Definition rq_set_prev (q : RunQueue) (b p : ptr) : RunQueue :=
  mkRunQueue (rq_head q) (rq_tail q) (rq_count q) (rq_next q) (<[b := p]> (rq_prev q)).
Definition rq_set_head (q : RunQueue) (b : ptr) : RunQueue :=
  mkRunQueue b (rq_tail q) (rq_count q) (rq_next q) (rq_prev q).
Definition rq_set_tail (q : RunQueue) (b : ptr) : RunQueue :=
  mkRunQueue (rq_head q) b (rq_count q) (rq_next q) (rq_prev q).
Definition rq_add (q : RunQueue) (d : Z) : RunQueue :=
  mkRunQueue (rq_head q) (rq_tail q) (u64 (rq_count q + d)) (rq_next q) (rq_prev q).

Definition runqueue_push (q : RunQueue) (block : ptr) : RunQueue :=
  let q := rq_set_prev (rq_set_next q block NULL) block (rq_tail q) in
  let q := if rq_tail q =? NULL then rq_set_head q block else rq_set_next q (rq_tail q) block in
  rq_add (rq_set_tail q block) 1.

Definition runqueue_pop (q : RunQueue) : ptr * RunQueue :=
  let block := rq_head q in
  if block =? NULL then (NULL, q)
  else
    let q := rq_set_head q (next_of (rq_next q) block) in
    let q := if rq_head q =? NULL then rq_set_tail q NULL else rq_set_prev q (rq_head q) NULL in
    (block, rq_add (rq_set_prev (rq_set_next q block NULL) block NULL) (-1)).

Definition runqueue_remove_internal (q : RunQueue) (block : ptr) : RunQueue :=
  let q := if next_of (rq_prev q) block =? NULL
           then rq_set_head q (next_of (rq_next q) block)
           else rq_set_next q (next_of (rq_prev q) block) (next_of (rq_next q) block) in
  let q := if next_of (rq_next q) block =? NULL
           then rq_set_tail q (next_of (rq_prev q) block)
           else rq_set_prev q (next_of (rq_next q) block) (next_of (rq_prev q) block) in
  rq_add (rq_set_prev (rq_set_next q block NULL) block NULL) (-1).

Definition runqueue_empty (q : RunQueue) : bool := rq_count q =? 0.

(** ** Representation *)

(** The block at position [i], NULL outside the list. *)
Definition at_pos (l : list ptr) (i : nat) : ptr := default NULL (l !! i).
Definition before (l : list ptr) (i : nat) : ptr := match i with O => NULL | S j => at_pos l j end.

Record rq_rep (q : RunQueue) (l : list ptr) : Prop := {
  rr_nodup : NoDup l;
  rr_null : NULL ∉ l;
  rr_head : rq_head q = at_pos l 0;
  rr_tail : rq_tail q = before l (length l);
  rr_count : rq_count q = u64 (Z.of_nat (length l));
  rr_links i b : l !! i = Some b ->
    next_of (rq_next q) b = at_pos l (S i) /\ next_of (rq_prev q) b = before l i;
  (** blocks outside the queue have no links *)
  rr_out b : b ∉ l -> b <> NULL -> next_of (rq_next q) b = NULL /\ next_of (rq_prev q) b = NULL
}.

Lemma at_pos_not_null l i b : NULL ∉ l -> l !! i = Some b -> at_pos l i = b /\ b <> NULL.
Proof.
  intros Hn Hi. unfold at_pos. rewrite Hi. split; [done|]. intros ->.
  by apply list_elem_of_lookup_2 in Hi.
Qed.

Lemma at_pos_null l i : NULL ∉ l -> (at_pos l i = NULL <-> (length l <= i)%nat).
Proof.
  intros Hn. unfold at_pos. split.
  - destruct (l !! i) eqn:E; simpl; [|by intros _; apply lookup_ge_None].
    intros ->. by apply list_elem_of_lookup_2 in E.
  - intros H. by rewrite (lookup_ge_None_2 _ _ H).
Qed.

Lemma at_pos_Some l i : (i < length l)%nat -> l !! i = Some (at_pos l i).
Proof. intros H. unfold at_pos. by destruct (lookup_lt_is_Some_2 l i H) as [b ->]. Qed.

Lemma before_Some l i : (0 < i <= length l)%nat -> l !! pred i = Some (before l i).
Proof. intros H. destruct i; [lia|]. simpl. apply at_pos_Some. lia. Qed.

Lemma before_null l i : NULL ∉ l -> (i <= length l)%nat -> (before l i = NULL <-> i = 0%nat).
Proof.
  intros Hn Hi. destruct i; simpl; [done|]. rewrite at_pos_null by done. lia.
Qed.

Lemma next_of_insert ls a b c : next_of (<[a := b]> ls) c = if decide (a = c) then b else next_of ls c.
Proof. case_decide; subst; [apply next_of_insert_eq|by apply next_of_insert_ne]. Qed.

Lemma at_pos_app l b i :
  at_pos (l ++ [b]) i = if decide (i < length l)%nat then at_pos l i else if decide (i = length l) then b else NULL.
Proof.
  unfold at_pos. case_decide; [by rewrite lookup_app_l|]. rewrite lookup_app_r by lia.
  case_decide as Hi; [subst; by rewrite Nat.sub_diag|].
  by rewrite lookup_ge_None_2 by (simpl; lia).
Qed.

Lemma before_app l b i : (i <= length l)%nat -> before (l ++ [b]) i = before l i.
Proof. destruct i; [done|]. intros H. simpl. rewrite at_pos_app. by rewrite decide_True by lia. Qed.

Lemma at_pos_delete l k i : at_pos (delete k l) i = at_pos l (if decide (i < k)%nat then i else S i).
Proof. unfold at_pos. case_decide; [by rewrite list_lookup_delete_lt|by rewrite list_lookup_delete_ge by lia]. Qed.

Lemma before_delete l k i : (i <= k)%nat -> before (delete k l) i = before l i.
Proof. destruct i; [done|]. intros H. simpl. rewrite at_pos_delete. by rewrite decide_True by lia. Qed.

Lemma runqueue_push_rep q l b :
  rq_rep q l -> b ∉ l -> b <> NULL -> rq_rep (runqueue_push q b) (l ++ [b]).
Proof.
  intros [] Hb Hn. unfold runqueue_push. simpl.
  assert (Ht : rq_tail q = NULL <-> length l = 0%nat) by (rewrite rr_tail0, before_null; done).
  assert (Htl : (0 < length l)%nat -> l !! pred (length l) = Some (rq_tail q)).
  { intros H. rewrite rr_tail0. apply before_Some. lia. }
  assert (Htn : forall i c, l !! i = Some c -> rq_tail q = c -> S i = length l).
  { intros i c Hi <-. pose proof (lookup_lt_Some _ _ _ Hi). assert (Hl := Htl ltac:(lia)).
    pose proof (NoDup_lookup _ _ _ _ rr_nodup0 Hi Hl). lia. }
  split.
  - by apply NoDup_snoc.
  - set_solver.
  - rewrite at_pos_app. destruct (Z.eqb_spec (rq_tail q) NULL) as [E|E]; simpl.
    + rewrite decide_False, decide_True by (apply Ht in E; lia). done.
    + rewrite decide_True; [done|]. assert (length l <> 0%nat) by (by intros ?%Ht). lia.
  - rewrite length_app, Nat.add_1_r. simpl. rewrite at_pos_app, decide_False, decide_True by lia. by destruct (rq_tail q =? NULL).
  - rewrite length_app. destruct (rq_tail q =? NULL); simpl; rewrite rr_count0; unfold u64, wrap; rewrite Zplus_mod_idemp_l; f_equal; lia.
  - intros i c [Hi|[Hle Hi]]%lookup_app_Some.
    + destruct (rr_links0 _ _ Hi) as [H1 H2]. pose proof (lookup_lt_Some _ _ _ Hi).
      assert (b <> c) by (intros ->; by apply Hb, (list_elem_of_lookup_2 _ i)).
      rewrite before_app, at_pos_app by lia. destruct (Z.eqb_spec (rq_tail q) NULL) as [E|E]; simpl.
      * apply Ht in E. lia.
      * rewrite !next_of_insert. rewrite !(decide_False (P := b = c)) by done. split; [|done].
        case_decide as Hc; [rewrite decide_False, decide_True by (pose proof (Htn _ _ Hi Hc); lia); done|].
        rewrite decide_True; [done|]. destruct (decide (S i = length l)) as [El|]; [|lia].
        assert (Hl := Htl ltac:(lia)). replace (pred (length l)) with i in Hl by lia. congruence.
    + apply list_lookup_singleton_Some in Hi as [Hi <-]. replace i with (length l) by lia.
      rewrite before_app, at_pos_app, !decide_False by lia.
      assert (rq_tail q <> b) by (intros <-; destruct (decide (length l = 0%nat)) as [?%Ht|]; [done|];
        by apply Hb, (list_elem_of_lookup_2 _ (pred (length l))), Htl; lia).
      destruct (rq_tail q =? NULL); simpl; rewrite !next_of_insert, ?(decide_True (P := b = b)) by done; [done|].
      by rewrite decide_False.
  - intros c [Hc1 Hc2]%not_elem_of_app Hcn. apply not_elem_of_cons in Hc2 as [Hc2 _].
    destruct (rr_out0 _ Hc1 Hcn) as [H1 H2]. destruct (Z.eqb_spec (rq_tail q) NULL) as [E|E]; simpl;
      rewrite !next_of_insert, !(decide_False (P := b = c)) by done; [done|].
    rewrite decide_False; [done|]. intros <-. apply Hc1, (list_elem_of_lookup_2 _ (pred (length l))), Htl.
    assert (length l <> 0%nat) by (by intros ?%Ht). lia.
Qed.

(** Positions are determined by their blocks. *)
Lemma before_pos l i j c : NoDup l -> NULL ∉ l -> (i <= length l)%nat -> l !! j = Some c ->
  (before l i = c <-> i = S j).
Proof.
  intros Hnd Hn Hi Hj. split; [intros Hb|intros ->; by apply at_pos_not_null].
  destruct i; simpl in Hb; [subst c; by apply list_elem_of_lookup_2 in Hj|].
  f_equal. eapply NoDup_lookup; [done| |exact Hj]. rewrite at_pos_Some by lia. by rewrite Hb.
Qed.

Lemma at_pos_pos l i j c : NoDup l -> NULL ∉ l -> l !! j = Some c -> (at_pos l i = c <-> i = j).
Proof.
  intros Hnd Hn Hj. split; [intros Hb|intros ->; by apply at_pos_not_null].
  eapply NoDup_lookup; [done| |exact Hj]. rewrite <- Hb. apply at_pos_Some.
  destruct (decide (i < length l)%nat); [done|]. exfalso. apply Hn.
  rewrite <- (proj2 (at_pos_null l i Hn)) by lia. rewrite Hb. by eapply list_elem_of_lookup_2.
Qed.

Lemma delete_out (l : list ptr) k b c : NoDup l -> l !! k = Some b -> (c ∉ delete k l <-> c ∉ l \/ c = b).
Proof.
  intros Hnd Hk. rewrite (delete_Permutation _ _ _ Hk) at 2. rewrite not_elem_of_cons.
  rewrite (delete_Permutation _ _ _ Hk) in Hnd. apply NoDup_cons in Hnd as [Hb _].
  destruct (decide (c = b)) as [->|]; naive_solver.
Qed.

(** The links after a removal, in one form for all cases. *)
Lemma remove_links q l k b c :
  rq_rep q l -> l !! k = Some b ->
  let q' := runqueue_remove_internal q b in
  (c <> NULL ->
   next_of (rq_next q') c = (if decide (c = b) then NULL
     else if decide (before l k = c) then at_pos l (S k) else next_of (rq_next q) c) /\
   next_of (rq_prev q') c = (if decide (c = b) then NULL
     else if decide (at_pos l (S k) = c) then before l k else next_of (rq_prev q) c)) /\
  rq_head q' = (if decide (k = 0)%nat then at_pos l 1 else rq_head q) /\
  rq_tail q' = (if decide (S k = length l) then before l k else rq_tail q) /\
  rq_count q' = u64 (rq_count q - 1).
Proof.
  intros [] Hk. destruct (rr_links0 _ _ Hk) as [Hnx Hpv]. pose proof (lookup_lt_Some _ _ _ Hk) as Hlt.
  unfold runqueue_remove_internal. cbv zeta. rewrite Hnx, Hpv.
  pose proof (before_null l k rr_null0 ltac:(lia)) as Hb0. pose proof (at_pos_null l (S k) rr_null0) as Ha0.
  pose proof (proj2 (at_pos_not_null _ _ _ rr_null0 Hk)) as Hbn.
  assert (Hpb : before l k <> b) by (intros E%(before_pos l k k b rr_nodup0 rr_null0 ltac:(lia) Hk); lia).
  assert (Hk0 : before l k = NULL -> k = 0%nat) by tauto.
  assert (Hkl : at_pos l (S k) = NULL -> S k = length l) by (intros ?%Ha0; lia).
  assert (Hkn : at_pos l (S k) <> NULL -> S k <> length l) by (intros H1 H2; apply H1, Ha0; lia).
  destruct (Z.eqb_spec (before l k) NULL) as [E1|E1]; simpl;
    rewrite ?(next_of_insert_ne (rq_next q) (before l k) (at_pos l (S k)) b), ?Hnx by done;
    destruct (Z.eqb_spec (at_pos l (S k)) NULL) as [E2|E2]; simpl; rewrite ?Hpv; split_and!; try done.
  all: try (intros Hcn; rewrite !next_of_insert; repeat case_decide; split; congruence).
  all: case_decide; try done; try (by subst k); exfalso; auto; tauto.
Qed.

Lemma runqueue_remove_rep q l k b :
  rq_rep q l -> l !! k = Some b -> rq_rep (runqueue_remove_internal q b) (delete k l).
Proof.
  intros Hrep Hk. pose proof Hrep as []. pose proof (lookup_lt_Some _ _ _ Hk) as Hlt.
  destruct (remove_links q l k b NULL Hrep Hk) as (_ & Hhead & Htail & Hcount).
  assert (Hin : forall c, c ∈ delete k l -> c ∈ l) by (intros c Hc; apply (elem_of_Permutation_proper c _ _ (delete_Permutation _ _ _ Hk)); by right).
  split.
  - rewrite (delete_Permutation _ _ _ Hk) in rr_nodup0. by apply NoDup_cons in rr_nodup0 as [_ ?].
  - intros ?%Hin. done.
  - rewrite Hhead, at_pos_delete. repeat case_decide; try done; lia.
  - rewrite Htail, length_delete by eauto. case_decide as E.
    + rewrite before_delete by lia. by replace (length l - 1)%nat with k by lia.
    + rewrite rr_tail0. destruct (length l) as [|[|n]]; [lia|lia|]. simpl. rewrite at_pos_delete.
      by rewrite decide_False by lia.
  - rewrite Hcount, rr_count0, length_delete by eauto. unfold u64, wrap. rewrite Zminus_mod_idemp_l. f_equal. lia.
  - intros j c Hj. assert (Hc : l !! (if decide (j < k)%nat then j else S j) = Some c).
    { destruct (decide (j < k)%nat); [by rewrite list_lookup_delete_lt in Hj|by rewrite list_lookup_delete_ge in Hj by lia]. }
    destruct (rr_links0 _ _ Hc) as [H1 H2].
    destruct (remove_links q l k b c Hrep Hk) as [Hl _].
    destruct Hl as [-> ->]; [by eapply (at_pos_not_null l _ c)|].
    rewrite H1, H2. pose proof (lookup_lt_Some _ _ _ Hc) as Hclt.
    assert (c <> b) by (intros ->; pose proof (NoDup_lookup _ _ _ _ rr_nodup0 Hc Hk); destruct (decide (j < k)%nat); lia).
    rewrite !(decide_False (P := c = b)) by done.
    pose proof (before_pos l k _ c rr_nodup0 rr_null0 ltac:(lia) Hc) as Hbp.
    pose proof (at_pos_pos l (S k) _ c rr_nodup0 rr_null0 Hc) as Hap.
    clear Hj Hc H1 H2. rewrite at_pos_delete. destruct (decide (j < k)%nat).
    + rewrite (decide_False (P := at_pos l (S k) = c)) by (rewrite Hap; lia). rewrite before_delete by lia. split; [|done].
      destruct (decide (S j < k)%nat); [by rewrite decide_False by (rewrite Hbp; lia)|].
      rewrite decide_True by (apply Hbp; lia). f_equal. lia.
    + rewrite (decide_False (P := before l k = c)) by (rewrite Hbp; lia). rewrite decide_False by lia. split; [done|].
      destruct j as [|j]; simpl.
      * rewrite decide_True by (apply Hap; lia). by replace k with 0%nat by lia.
      * rewrite at_pos_delete. destruct (decide (S j = k)) as [<-|].
        -- rewrite decide_True by (by apply Hap). by rewrite decide_True by lia.
        -- rewrite (decide_False (P := at_pos l (S k) = c)) by (rewrite Hap; lia). by rewrite decide_False by lia.
  - intros c Hc Hn. destruct (remove_links q l k b c Hrep Hk) as [Hl _]. destruct (Hl Hn) as [-> ->].
    apply (delete_out l k b c rr_nodup0 Hk) in Hc. case_decide; [done|]. destruct Hc as [Hc|]; [|done].
    assert (Hpos : forall i, at_pos l i <> c).
    { intros i <-. apply Hc, (list_elem_of_lookup_2 _ i), at_pos_Some.
      destruct (decide (i < length l)%nat); [done|]. destruct Hn. apply at_pos_null; [done|lia]. }
    rewrite !decide_False by (apply Hpos || (destruct k; simpl; [congruence|apply Hpos])). auto.
Qed.

Lemma pop_is_remove q b l : rq_rep q (b :: l) -> runqueue_pop q = (b, runqueue_remove_internal q b).
Proof.
  intros [] . unfold runqueue_pop. destruct (rr_links0 0%nat b eq_refl) as [Hn Hp].
  assert (Hb : b <> NULL) by (by eapply (at_pos_not_null (b :: l) 0)).
  change (at_pos (b :: l) 0) with b in rr_head0. change (before (b :: l) 0) with NULL in Hp.
  rewrite rr_head0, (proj2 (Z.eqb_neq b NULL) Hb). unfold runqueue_remove_internal. cbv zeta. rewrite Hp, Z.eqb_refl.
  simpl. rewrite Hp. done.
Qed.

(** C27: The run queue is a FIFO queue with removal: pushing a block that is not in
    it appends it, popping takes the oldest, a block can be unlinked from any
    position, and a queue with blocks is never taken for an empty one. *)
Theorem runqueue_refines q l :
  rq_rep q l -> Z.of_nat (length l) < 2 ^ 64 ->
  (forall b, b ∉ l -> b <> NULL -> rq_rep (runqueue_push q b) (l ++ [b])) /\
  match l with
  | [] => runqueue_pop q = (NULL, q)
  | b :: l' => (runqueue_pop q).1 = b /\ rq_rep (runqueue_pop q).2 l'
  end /\
  (forall i b, l !! i = Some b -> rq_rep (runqueue_remove_internal q b) (delete i l)) /\
  runqueue_empty q = bool_decide (l = []).
Proof.
  intros Hrep Hlen. split_and!.
  - intros b. by apply runqueue_push_rep.
  - destruct l as [|b l].
    + unfold runqueue_pop. by rewrite (rr_head _ _ Hrep).
    + rewrite (pop_is_remove _ _ _ Hrep). split; [done|]. exact (runqueue_remove_rep _ _ 0 b Hrep eq_refl).
  - intros i b. by apply runqueue_remove_rep.
  - unfold runqueue_empty. rewrite (rr_count _ _ Hrep), u64_small by (unfold is_u64; lia).
    case_bool_decide as E; [by subst|]. apply Z.eqb_neq. destruct l; [done|simpl; lia].
Qed.

Lemma runqueue_init_rep : rq_rep runqueue_init [].
Proof. split; try done; [apply NoDup_nil_2|set_solver]. Qed.

Lemma runqueue_refines_witness :
  let q := runqueue_push (runqueue_push (runqueue_push runqueue_init 16) 32) 48 in
  rq_rep (runqueue_remove_internal q 32) [16; 48].
Proof.
  intros q. subst q. set (q0 := runqueue_init).
  pose proof (proj1 (runqueue_refines q0 [] runqueue_init_rep ltac:(simpl; lia)) 16 ltac:(set_solver) ltac:(done)) as H1.
  generalize dependent (runqueue_push q0 16). intros q1 H1.
  pose proof (proj1 (runqueue_refines q1 [16] H1 ltac:(simpl; lia)) 32 ltac:(set_solver) ltac:(done)) as H2.
  generalize dependent (runqueue_push q1 32). intros q2 H2.
  pose proof (proj1 (runqueue_refines q2 [16; 32] H2 ltac:(simpl; lia)) 48 ltac:(set_solver) ltac:(done)) as H3.
  exact (proj1 (proj2 (proj2 (runqueue_refines _ [16; 32; 48] H3 ltac:(simpl; lia)))) 1%nat 32 eq_refl).
Defined.
