(* ===== verification/Scheduler.v ===== *)
(** * The scheduler (src/runtime/scheduler.c, src/runtime/scheduler.h)

    Spawning, killing, the propagation of exits along links, the run loop without
    workers, waking, statistics and health.  The registry is the finite map that
    [Registry] implements, the run queue the list that [RunQueue] implements, and
    a worker's deque the list that [Deque] implements.  [vm_run] may change every
    block, so the interpreter is an interface on the whole scheduler.

    [faulted] is set when an operation on the value store is undefined
    behaviour, or when the fuel of the exit propagation runs out; the theorems
    show that it stays clear.  Allocations succeed. *)

From Stdlib Require Import ZArith Lia String.
From stdpp Require Import base list numbers gmap fin_maps pretty.
From S2P Require Import Prelude Hash HashMap Value Array MapValue Mailbox PidVec Block Supervisor.
Local Open Scope Z_scope.

Record Scheduler := mkScheduler {
  max_blocks : Z;
  registry : gmap Z Block;
  total_count : Z;
  supervisors : gmap Z Supervisor;     (** [block->supervisor] *)
  next_pid : Z;
  run_queue : list Z;
  workers : list (list Z);             (** the workers' deques *)
  next_worker : Z;
  running : bool;
  total_spawned : Z;
  total_terminated : Z;
  total_reductions : Z;
  context_switches : Z;
  store : Store;
  next_msg : ptr;                      (** the next message node [message_new] allocates *)
  faulted : bool
}.

Definition set_registry (w : Scheduler) (r : gmap Z Block) : Scheduler :=
  mkScheduler (max_blocks w) r (total_count w) (supervisors w) (next_pid w) (run_queue w) (workers w)
    (next_worker w) (running w) (total_spawned w) (total_terminated w) (total_reductions w)
    (context_switches w) (store w) (next_msg w) (faulted w).
Definition set_admission (w : Scheduler) (r : gmap Z Block) (n p : Z) : Scheduler :=
  mkScheduler (max_blocks w) r n (supervisors w) p (run_queue w) (workers w)
    (next_worker w) (running w) (total_spawned w) (total_terminated w) (total_reductions w)
    (context_switches w) (store w) (next_msg w) (faulted w).
Definition set_supervisor (w : Scheduler) (p : Z) (sup : Supervisor) : Scheduler :=
  mkScheduler (max_blocks w) (registry w) (total_count w) (<[p := sup]> (supervisors w)) (next_pid w)
    (run_queue w) (workers w) (next_worker w) (running w) (total_spawned w) (total_terminated w)
    (total_reductions w) (context_switches w) (store w) (next_msg w) (faulted w).
Definition set_run_queue (w : Scheduler) (q : list Z) : Scheduler :=
  mkScheduler (max_blocks w) (registry w) (total_count w) (supervisors w) (next_pid w) q (workers w)
    (next_worker w) (running w) (total_spawned w) (total_terminated w) (total_reductions w)
    (context_switches w) (store w) (next_msg w) (faulted w).
Definition set_workers (w : Scheduler) (ws : list (list Z)) (n : Z) : Scheduler :=
  mkScheduler (max_blocks w) (registry w) (total_count w) (supervisors w) (next_pid w) (run_queue w) ws
    n (running w) (total_spawned w) (total_terminated w) (total_reductions w)
    (context_switches w) (store w) (next_msg w) (faulted w).
Definition set_running (w : Scheduler) (r : bool) : Scheduler :=
  mkScheduler (max_blocks w) (registry w) (total_count w) (supervisors w) (next_pid w) (run_queue w) (workers w)
    (next_worker w) r (total_spawned w) (total_terminated w) (total_reductions w)
    (context_switches w) (store w) (next_msg w) (faulted w).
Definition add_stats (w : Scheduler) (spawned terminated reds switches : Z) : Scheduler :=
  mkScheduler (max_blocks w) (registry w) (total_count w) (supervisors w) (next_pid w) (run_queue w) (workers w)
    (next_worker w) (running w) (u64 (total_spawned w + spawned)) (u64 (total_terminated w + terminated))
    (u64 (total_reductions w + reds)) (u64 (context_switches w + switches)) (store w) (next_msg w) (faulted w).
Definition set_values (w : Scheduler) (st : Store) (m : ptr) : Scheduler :=
  mkScheduler (max_blocks w) (registry w) (total_count w) (supervisors w) (next_pid w) (run_queue w) (workers w)
    (next_worker w) (running w) (total_spawned w) (total_terminated w) (total_reductions w)
    (context_switches w) st m (faulted w).
Definition fault (w : Scheduler) : Scheduler :=
  mkScheduler (max_blocks w) (registry w) (total_count w) (supervisors w) (next_pid w) (run_queue w) (workers w)
    (next_worker w) (running w) (total_spawned w) (total_terminated w) (total_reductions w)
    (context_switches w) (store w) (next_msg w) true.

(** ** Life cycle *)

(** [worker_new] for [num_workers] workers. *)
Definition scheduler_new (max : Z) (num_workers : nat) (st : Store) (first_msg : ptr) : Scheduler :=
  mkScheduler max ∅ 0 ∅ 1 [] (replicate num_workers []) 0 false 0 0 0 0 st first_msg false.

(** ** Blocks and queues *)

Definition scheduler_get_block (w : Scheduler) (p : Z) : option Block :=
  if p =? PID_INVALID then None else registry w !! p.

Definition on_block (w : Scheduler) (p : Z) (f : Block -> Block) : Scheduler :=
  set_registry w (alter f p (registry w)).

Definition block_state_of (w : Scheduler) (p : Z) : BlockState := from_option state BLOCK_DEAD (registry w !! p).

Definition scheduler_enqueue (w : Scheduler) (p : Z) : Scheduler :=
  if decide (block_state_of w p = BLOCK_RUNNABLE) then set_run_queue w (run_queue w ++ [p]) else w.

Definition scheduler_dequeue (w : Scheduler) : option Z * Scheduler :=
  match run_queue w with
  | [] => (None, w)
  | p :: q => (Some p, set_run_queue w q)
  end.

Definition scheduler_queue_empty (w : Scheduler) : bool := bool_decide (run_queue w = []).

(** Unlinking a block that is not queued would clear the queue's head and tail. *)
Definition scheduler_runqueue_remove (w : Scheduler) (p : Z) : Scheduler :=
  match find_index (Z.eqb p) (run_queue w) with
  | Some i => set_run_queue w (delete i (run_queue w))
  | None => fault w
  end.

(** [worker_enqueue] on the next worker in turn. *)
Definition enqueue_on_worker (w : Scheduler) (p : Z) : Scheduler :=
  let i := Z.to_nat (next_worker w mod Z.of_nat (length (workers w))) in
  set_workers w (alter (fun q => q ++ [p]) i (workers w)) (u64 (next_worker w + 1)).

Definition multithreaded (w : Scheduler) : bool := (0 <? length (workers w))%nat.

Definition scheduler_wake_block (w : Scheduler) (p : Z) : Scheduler :=
  match registry w !! p with
  | None => w
  | Some b =>
      match block_try_transition b BLOCK_WAITING BLOCK_RUNNABLE with
      | (true, b) =>
          let w := set_registry w (<[p := b]> (registry w)) in
          if multithreaded w then enqueue_on_worker w p else scheduler_enqueue w p
      | (false, _) => w
      end
  end.

(** ** Spawning *)

Fixpoint string_of_bytes (l : list Z) : string :=
  match l with
  | [] => EmptyString
  | c :: l => String (Ascii.ascii_of_nat (Z.to_nat c)) (string_of_bytes l)
  end.

Definition scheduler_spawn_ex (w : Scheduler) (code : Z) (name : option (list Z)) (caps : Z)
    (limits : option BlockLimits) : Z * Scheduler :=
  let p := next_pid w in
  let w := set_admission w (registry w) (total_count w) (u64 (p + 1)) in
  let b := set_capabilities (block_new p (string_of_bytes <$> name) limits) caps in
  let b := (block_load b code).2 in
  (* register_block *)
  if total_count w <? max_blocks w then
    let w := set_admission w (<[p := b]> (registry w)) (u64 (total_count w + 1)) (next_pid w) in
    let w := if multithreaded w then enqueue_on_worker w p else scheduler_enqueue w p in
    (p, add_stats w 1 0 0 0)
  else (PID_INVALID, w).

Definition scheduler_spawn (w : Scheduler) (code : Z) (name : option (list Z)) : Z * Scheduler :=
  scheduler_spawn_ex w code name CAP_NONE None.

(** ** Messages about exits *)

Definition put_field (m : ptr) (key : string) (d : vdata ptr) : M ptr :=
  v ← value_new d; value_map_set true true allocs_ok m (bytes_of key) v.

(** The map [scheduler_propagate_exit] builds; it ignores what [map_set] returns. *)
Definition exit_message (p code : Z) (reason : option string) : M ptr :=
  m ← value_new (VMap map_new);
  put_field m "type" (VString (bytes_of "exit")) ;;
  put_field m "pid" (VPid p) ;;
  put_field m "code" (VInt code) ;;
  (match reason with
   | Some r => put_field m "reason" (VString (bytes_of r)) ;; mret tt
   | None => mret tt
   end) ;;
  mret m.

(** The map [scheduler_step] builds. *)
Definition step_message (kind : string) (p : Z) (reason : string) (code : Z) : M ptr :=
  m ← value_new (VMap map_new);
  m ← put_field m "type" (VString (bytes_of kind));
  m ← put_field m "pid" (VPid p);
  m ← put_field m "reason" (VString (bytes_of reason));
  put_field m "code" (VInt code).

(** The messages are maps of leaves: copying them needs no depth. *)
Definition send_depth : nat := 1.

Definition send_message (w : Scheduler) (target sender : Z) (build : M ptr) : bool * Scheduler :=
  match registry w !! target with
  | None => (false, w)
  | Some b =>
      match (v ← build; block_send send_depth (next_msg w) b sender v) (store w) with
      | Some ((r, b), st) =>
          (r, set_values (set_registry w (<[target := b]> (registry w))) st (next_msg w + 1))
      | None => (false, fault w)
      end
  end.

(** ** Exits *)

Definition is_abnormal (b : Block) : bool :=
  negb (exit_code b =? 0) || bool_decide (is_Some (exit_reason b)).

Definition linked_reason (p : Z) : string := "linked process " +:+ pretty p +:+ " crashed".

(** [block_crash] followed by the removal from the run queue of a block that is
    then found runnable. *)
Definition crash_and_unqueue (w : Scheduler) (p : Z) (reason : string) : Scheduler :=
  let w := on_block w p (fun b => block_crash b (Some reason)) in
  if decide (block_state_of w p = BLOCK_RUNNABLE) then scheduler_runqueue_remove w p else w.

Section exits.
(** The clock, as [supervisor_handle_exit] reads it three times. *)
Context (clock : Z * Z * Z).

Definition kill_with (propagate : Scheduler -> Z -> Scheduler) (w : Scheduler) (p : Z) : Scheduler :=
  match scheduler_get_block w p with
  | Some b =>
      if block_is_alive b then
        propagate (add_stats (crash_and_unqueue w p "killed") 0 1 0 0) p
      else w
  | None => w
  end.

(** The calls a supervisor makes while exits are propagated. *)
Definition ops_with (propagate : Scheduler -> Z -> Scheduler) : SchedulerOps Scheduler := {|
  spawn := scheduler_spawn;
  kill := kill_with propagate;
  get_block := scheduler_get_block;
  update_block := on_block;
  issued w := list_to_set ((fun n => Z.of_nat n + 1) <$> seq 0 (Z.to_nat (next_pid w - 1)))
|}.

(** The part of [scheduler_propagate_exit] that notifies a supervisor: that of
    the block that exited. *)
Definition notify_supervisor (propagate : Scheduler -> Z -> Scheduler) (w : Scheduler) (p : Z) : Scheduler :=
  match registry w !! p, supervisors w !! p with
  | Some b, Some sup =>
      if parent b =? PID_INVALID then w
      else match scheduler_get_block w (parent b) with
           | Some _ =>
               let '(_, sup, w) := @supervisor_handle_exit Scheduler (ops_with propagate)
                 clock.1.1 clock.1.2 clock.2 sup w (parent b) p
                 (if is_abnormal b then EXIT_CRASH else EXIT_NORMAL) in
               set_supervisor w p sup
           | None => w
           end
  | _, _ => w
  end.

(** One iteration of the loop over the links of the exited block [p]. *)
Definition exit_to_link (propagate : Scheduler -> Z -> Scheduler) (w : Scheduler) (p linked : Z) : Scheduler :=
  match registry w !! p, scheduler_get_block w linked with
  | Some b, Some lb =>
      if block_is_alive lb then
        let w := on_block w linked (fun lb => block_unlink lb p) in
        if block_has_cap lb CAP_TRAP_EXIT then
          let '(_, w) := send_message w linked p (exit_message p (exit_code b) (exit_reason b)) in
          if decide (block_state_of w linked = BLOCK_WAITING) then scheduler_wake_block w linked else w
        else if is_abnormal b then
          propagate (add_stats (crash_and_unqueue w linked (linked_reason p)) 0 1 0 0) linked
        else w
      else w
  | _, _ => w
  end.

(** [scheduler_propagate_exit] for the exited block [p]: from the start when [i]
    is [None], else its loop from the link at position [i] on.  The link array is
    read anew in every iteration. *)
Fixpoint propagate_from (fuel : nat) (w : Scheduler) (p : Z) (i : option nat) : Scheduler :=
  match fuel with
  | O => fault w
  | S fuel =>
      let propagate w q := propagate_from fuel w q None in
      match i with
      | None => propagate_from fuel (notify_supervisor propagate w p) p (Some 0%nat)
      | Some i =>
          match registry w !! p with
          | None => fault w
          | Some b =>
              match block_get_links b !! i with
              | None => w
              | Some linked => propagate_from fuel (exit_to_link propagate w p linked) p (Some (S i))
              end
          end
      end
  end.

(** Enough for the blocks there are, see [propagate_total]. *)
Definition link_weight (b : Block) : nat := S (S (length (block_get_links b))).
Definition exit_fuel (w : Scheduler) : nat :=
  S (S (sum_list_with (fun pb => link_weight pb.2) (map_to_list (registry w)))).

Definition scheduler_propagate_exit (w : Scheduler) (p : Z) : Scheduler := propagate_from (exit_fuel w) w p None.

Definition scheduler_kill (w : Scheduler) (p : Z) : Scheduler := kill_with scheduler_propagate_exit w p.

(** ** The run loop *)

(** What [vm_run] does to the scheduler when it runs the VM of block [p]. *)
Class SystemInterpreter := system_run : Scheduler -> Z -> VMResult * Scheduler.

Definition scheduler_block_run `{SystemInterpreter} (w : Scheduler) (p : Z) : BlockRunResult * Scheduler :=
  match registry w !! p with
  | None => (BLOCK_RUN_ERROR, w)
  | Some b =>
      match block_enter b with
      | inl (r, b) => (r, set_registry w (<[p := b]> (registry w)))
      | inr b =>
          let '(result, w) := system_run (set_registry w (<[p := b]> (registry w))) p in
          match registry w !! p with
          | None => (BLOCK_RUN_ERROR, w)
          | Some b => let (r, b) := block_leave result b in (r, set_registry w (<[p := b]> (registry w)))
          end
      end
  end.

Definition has_wakeable_waiting_blocks (w : Scheduler) : bool :=
  existsb (fun pb => bool_decide (state pb.2 = BLOCK_WAITING) && block_has_messages pb.2) (map_to_list (registry w)).

(** A message that wakes its receiver. *)
Definition send_and_wake (w : Scheduler) (target sender : Z) (build : M ptr) : Scheduler :=
  match send_message w target sender build with
  | (true, w) =>
      match registry w !! target with
      | Some b =>
          match block_try_transition b BLOCK_WAITING BLOCK_RUNNABLE with
          | (true, b) => scheduler_enqueue (set_registry w (<[target := b]> (registry w))) target
          | (false, _) => w
          end
      | None => w
      end
  | (false, w) => w
  end.

(** The body of the loop over the links of a block that has ended. *)
Definition notify_link (p : Z) (abnormal : bool) (reason : string) (code : Z) (w : Scheduler) (linked : Z) : Scheduler :=
  match scheduler_get_block w linked with
  | Some lb =>
      if block_is_alive lb then
        let w := if block_has_cap lb CAP_TRAP_EXIT
                 then send_and_wake w linked p (step_message "exit" p reason code)
                 else if abnormal then crash_and_unqueue w linked "linked process crashed" else w in
        on_block w linked (fun lb => block_unlink lb p)
      else w
  | None => w
  end.

(** The body of the loop over its monitors. *)
Definition notify_monitor (p : Z) (reason : string) (code : Z) (w : Scheduler) (monitor : Z) : Scheduler :=
  match scheduler_get_block w monitor with
  | Some mb =>
      if block_is_alive mb then
        let w := send_and_wake w monitor p (step_message "down" p reason code) in
        on_block w monitor (fun mb => block_demonitor mb p)
      else w
  | None => w
  end.

(** The case of [scheduler_step] for a block that has ended.  The loops do not
    change the arrays they run over: the block is dead, and only live blocks are
    written. *)
Definition finish_block (w : Scheduler) (p : Z) (is_error : bool) : Scheduler :=
  let w := add_stats w 0 1 0 0 in
  match registry w !! p with
  | None => w
  | Some b =>
      let reason := if is_error then default "error"%string (exit_reason b) else "normal"%string in
      let w := foldl (notify_link p is_error reason (exit_code b)) w (block_get_links b) in
      foldl (notify_monitor p reason (exit_code b)) w (items (monitored_by b))
  end.

Definition scheduler_step `{SystemInterpreter} (w : Scheduler) : bool * Scheduler :=
  match scheduler_dequeue w with
  | (None, w) => (has_wakeable_waiting_blocks w, w)
  | (Some p, w) =>
      let w := add_stats w 0 0 0 1 in
      let (result, w) := scheduler_block_run w p in
      let w := add_stats w 0 0 (from_option (fun b => reductions (counters b)) 0 (registry w !! p)) 0 in
      (true, match result with
             | BLOCK_RUN_YIELD => scheduler_enqueue w p
             | BLOCK_RUN_WAITING => w
             | BLOCK_RUN_OK | BLOCK_RUN_HALTED => finish_block w p false
             | BLOCK_RUN_ERROR => finish_block w p true
             end)
  end.

(** The loop of [scheduler_run] without workers; [None]: still running after
    [fuel] steps. *)
Fixpoint scheduler_loop `{SystemInterpreter} (fuel : nat) (w : Scheduler) : option Scheduler :=
  match fuel with
  | O => None
  | S fuel =>
      if running w then
        match scheduler_step w with
        | (true, w) => scheduler_loop fuel w
        | (false, w) => Some (set_running w false)
        end
      else Some (set_running w false)
  end.
Definition scheduler_run `{SystemInterpreter} (fuel : nat) (w : Scheduler) : option Scheduler :=
  scheduler_loop fuel (set_running w true).

Definition scheduler_stop (w : Scheduler) : Scheduler := set_running w false.

End exits.

(** ** Statistics and health *)

Record SchedulerStats := mkStats {
  blocks_total : Z; blocks_alive : Z; blocks_runnable : Z; blocks_waiting : Z; blocks_dead : Z;
  stats_reductions : Z; stats_switches : Z
}.

Definition count_block_states (s : SchedulerStats) (b : Block) : SchedulerStats :=
  match state b with
  | BLOCK_RUNNABLE | BLOCK_RUNNING =>
      mkStats (blocks_total s) (blocks_alive s + 1) (blocks_runnable s + 1) (blocks_waiting s) (blocks_dead s)
        (stats_reductions s) (stats_switches s)
  | BLOCK_WAITING =>
      mkStats (blocks_total s) (blocks_alive s + 1) (blocks_runnable s) (blocks_waiting s + 1) (blocks_dead s)
        (stats_reductions s) (stats_switches s)
  | BLOCK_DEAD =>
      mkStats (blocks_total s) (blocks_alive s) (blocks_runnable s) (blocks_waiting s) (blocks_dead s + 1)
        (stats_reductions s) (stats_switches s)
  end.

Definition scheduler_stats (w : Scheduler) : SchedulerStats :=
  foldl count_block_states (mkStats (total_spawned w) 0 0 0 0 (total_reductions w) (context_switches w))
    (map_to_list (registry w)).*2.

Inductive HealthState := HEALTH_OK | HEALTH_DEGRADED | HEALTH_UNHEALTHY.

Definition scheduler_health_check (w : Scheduler) : HealthState :=
  let stats := scheduler_stats w in
  let is_live := running w || (0 <? blocks_total stats) in
  let is_ready := running w && (blocks_alive stats <? max_blocks w) in
  if negb is_live then HEALTH_UNHEALTHY
  else if negb is_ready then HEALTH_DEGRADED
  else if (blocks_runnable stats =? 0) && (0 <? blocks_alive stats) then HEALTH_DEGRADED
  else HEALTH_OK.

Definition scheduler_is_live (w : Scheduler) : bool := running w || (0 <? total_count w).
Definition scheduler_is_ready (w : Scheduler) : bool := running w && (total_count w <? max_blocks w).
Definition scheduler_block_count (w : Scheduler) : Z := total_count w.

(** ** Messages can be built and sent *)

(** A cell as [value_new] makes it. *)
Definition fresh_cell (d : vdata ptr) : Value := mkValue d 1 (initial_flags d) 0.

Lemma value_new_wf st d :
  store_wf st -> store_wf (mkStore (<[next_addr st := fresh_cell d]> (cells st)) (next_addr st + 1) (current_heap st)).
Proof.
  intros [Hn Hw]. split; simpl; [lia|]. intros q c. rewrite lookup_insert. case_decide; [lia|].
  intros Hc%Hw. lia.
Qed.

Lemma barrier_young st w d item ci :
  cells st !! w = Some (fresh_cell d) -> cells st !! item = Some ci ->
  gc_write_barrier true w item st = Some (tt, st).
Proof.
  intros Hw Hi. unfold gc_write_barrier. mstep (eq_refl (Some (current_heap st, st))).
  destruct (current_heap st); [|done]. case_if_goal; [done|]. case_if_goal; [done|].
  mstep (load_run _ _ _ Hw). mstep (load_run _ _ _ Hi). done.
Qed.

(** Adding a new key to a map nobody else has. *)
Lemma put_field_run st m mp key d :
  store_wf st -> cells st !! m = Some (fresh_cell (VMap mp)) -> map_wf mp -> is_cstr (bytes_of key) ->
  to_gmap mp !! bytes_of key = None ->
  exists st' mp', put_field m key d st = Some (m, st') /\ store_wf st' /\
    cells st' !! m = Some (fresh_cell (VMap mp')) /\ map_wf mp' /\
    to_gmap mp' = <[bytes_of key := next_addr st]> (to_gmap mp).
Proof.
  intros Hwf Hm Hmp Hk Hnew. unfold put_field. set (v := next_addr st).
  set (st1 := mkStore (<[v := fresh_cell d]> (cells st)) (v + 1) (current_heap st)).
  assert (Hmv : m <> v) by (destruct Hwf as [_ Hw]; apply Hw in Hm; subst v; lia).
  assert (Hm1 : cells st1 !! m = Some (fresh_cell (VMap mp))) by (simpl; by rewrite lookup_insert_ne).
  assert (Hv1 : cells st1 !! v = Some (fresh_cell d)) by apply lookup_insert_eq.
  assert (Hwf1 : store_wf st1) by (by apply value_new_wf).
  mstep (eq_refl : value_new d st = Some (v, st1)).
  assert (Hf : find_entry_internal mp (bytes_of key) (key_hash (bytes_of key)) = None).
  { pose proof (find_entry_spec mp (bytes_of key) Hmp Hk) as Hs.
    destruct (find_entry_internal mp _ _) as [[i e]|]; [|done]. destruct Hs as (_ & e' & _ & _ & Hc). congruence. }
  destruct (map_set_fresh allocs_ok mp (bytes_of key) v Hmp Hk Hnew Hf) as [Hw' Hg'].
  unfold value_map_set, with_writable_map.
  mstep (load_map_hit st1 m _ mp Hwf1 Hm1 eq_refl).
  assert (Hens : map_ensure_writable true m st1 = Some (m, st1)).
  { unfold map_ensure_writable. mstep (load_map_hit st1 m _ mp Hwf1 Hm1 eq_refl).
    by mstep (needs_cow_hit st1 m _ Hwf1 Hm1). }
  mstep Hens. clear Hens. mstep (load_map_hit st1 m _ mp Hwf1 Hm1 eq_refl).
  assert (Hput : put_map m (map_set allocs_ok mp (bytes_of key) v) st1 =
    Some (tt, mkStore (<[m := fresh_cell (VMap (map_set allocs_ok mp (bytes_of key) v))]> (cells st1)) (next_addr st1) (current_heap st1))).
  { unfold put_map. mstep (load_run _ _ _ Hm1). by apply write_run with (c := fresh_cell (VMap mp)). }
  eexists _, (map_set allocs_ok mp (bytes_of key) v). split_and!.
  - assert (Hk' : (gc_write_barrier true m v ;;
      (match find_entry_internal mp (bytes_of key) (agim_hash_string (bytes_of key) (strlen (bytes_of key))) ≫= entry_at mp with
       | Some e => free_value (e_value e) | None => mret tt end) ;;
      put_map m (map_set allocs_ok mp (bytes_of key) v)) st1 = put_map m (map_set allocs_ok mp (bytes_of key) v) st1).
    { mstep (barrier_young st1 m _ v _ Hm1 Hv1). rewrite key_hash_string, Hf by done. done. }
    rewrite Hput in Hk'. mstep Hk'. reflexivity.
  - by eapply store_wf_insert.
  - apply lookup_insert_eq.
  - done.
  - done.
Qed.

(** A computation that always yields a new map. *)
Definition builds (build : M ptr) : Prop := forall st, store_wf st ->
  exists v st' mp, build st = Some (v, st') /\ store_wf st' /\ cells st' !! v = Some (fresh_cell (VMap mp)).

(** A map under construction: its keys so far. *)
Definition has_fields (st : Store) (m : ptr) (keys : list string) : Prop :=
  store_wf st /\ exists mp, cells st !! m = Some (fresh_cell (VMap mp)) /\ map_wf mp /\
    forall k, is_Some (to_gmap mp !! k) -> k ∈ bytes_of <$> keys.

Lemma new_map_fields st :
  store_wf st -> exists m st', value_new (VMap map_new) st = Some (m, st') /\ has_fields st' m [].
Proof.
  intros Hwf. eexists _, _. split; [done|]. split; [by apply value_new_wf|]. exists map_new.
  destruct (map_new_wf (A := ptr) 16) as [Hw Hg]. split_and!; [apply lookup_insert_eq|done|].
  intros k [v Hk]. unfold map_new in Hk. by rewrite Hg in Hk.
Qed.

Lemma put_field_fields st m keys key d :
  has_fields st m keys -> forallb (fun c => (0 <? c) && (c <? 256)) (bytes_of key) = true ->
  bool_decide (bytes_of key ∈ bytes_of <$> keys) = false ->
  exists st', put_field m key d st = Some (m, st') /\ has_fields st' m (key :: keys).
Proof.
  intros (Hwf & mp & Hm & Hmp & Hkeys) Hk%is_cstr_decide Hn%bool_decide_eq_false.
  assert (Hnew : to_gmap mp !! bytes_of key = None).
  { destruct (to_gmap mp !! bytes_of key) eqn:E; [|done]. destruct Hn. apply Hkeys. by rewrite E. }
  destruct (put_field_run st m mp key d Hwf Hm Hmp Hk Hnew) as (st' & mp' & Hr & Hwf' & Hm' & Hmp' & Hg).
  exists st'. split; [done|]. split; [done|]. exists mp'. split_and!; [done|done|].
  intros k. rewrite Hg, lookup_insert. case_decide; [subst; intros _; left|]. intros ?%Hkeys. by right.
Qed.

Lemma has_fields_cell st m keys : has_fields st m keys -> exists mp, cells st !! m = Some (fresh_cell (VMap mp)).
Proof. intros (_ & mp & H & _). eauto. Qed.

Lemma exit_message_builds p code reason : builds (exit_message p code reason).
Proof.
  intros st Hwf. destruct (new_map_fields st Hwf) as (m & st0 & E0 & H0). unfold exit_message. mstep E0.
  destruct (put_field_fields _ _ _ "type" (VString (bytes_of "exit")) H0 eq_refl eq_refl) as (st1 & E1 & H1). mstep E1.
  destruct (put_field_fields _ _ _ "pid" (VPid p) H1 eq_refl eq_refl) as (st2 & E2 & H2). mstep E2.
  destruct (put_field_fields _ _ _ "code" (VInt code) H2 eq_refl eq_refl) as (st3 & E3 & H3). mstep E3.
  destruct reason as [r|].
  - destruct (put_field_fields _ _ _ "reason" (VString (bytes_of r)) H3 eq_refl eq_refl) as (st4 & E4 & H4).
    destruct (has_fields_cell _ _ _ H4) as [mp Hmp]. exists m, st4, mp. split_and!; [|apply H4|done].
    assert (E : (put_field m "reason" (VString (bytes_of r)) ;; mret tt) st3 = Some (tt, st4)) by (by mstep E4).
    by mstep E.
  - destruct (has_fields_cell _ _ _ H3) as [mp Hmp]. exists m, st3, mp. split_and!; [done|apply H3|done].
Qed.

Lemma step_message_builds kind p reason code : builds (step_message kind p reason code).
Proof.
  intros st Hwf. destruct (new_map_fields st Hwf) as (m & st0 & E0 & H0). unfold step_message. mstep E0.
  destruct (put_field_fields _ _ _ "type" (VString (bytes_of kind)) H0 eq_refl eq_refl) as (st1 & E1 & H1). mstep E1.
  destruct (put_field_fields _ _ _ "pid" (VPid p) H1 eq_refl eq_refl) as (st2 & E2 & H2). mstep E2.
  destruct (put_field_fields _ _ _ "reason" (VString (bytes_of reason)) H2 eq_refl eq_refl) as (st3 & E3 & H3). mstep E3.
  destruct (put_field_fields _ _ _ "code" (VInt code) H3 eq_refl eq_refl) as (st4 & E4 & H4).
  destruct (has_fields_cell _ _ _ H4) as [mp Hmp]. exists m, st4, mp. split_and!; [done|apply H4|done].
Qed.

(** The fields of a block that exits and links depend on; sending changes only
    the mailbox and the counters. *)
Definition process_of (b : Block) : BlockState * Z * option string * Z * list Z * Z * list Z :=
  (state b, exit_code b, exit_reason b, capabilities b, block_get_links b, parent b, items (monitored_by b)).

Lemma block_send_total depth msg b sender v mp st :
  store_wf st -> cells st !! v = Some (fresh_cell (VMap mp)) ->
  exists r b' st', block_send depth msg b sender v st = Some ((r, b'), st') /\ store_wf st' /\ process_of b' = process_of b.
Proof.
  intros Hwf Hv. unfold block_send. case_if_goal; [by eexists _, _, _|].
  assert (Hvn : v <> NULL) by exact (v_not_null st v _ Hwf Hv).
  destruct (share_by_reference depth st v _ Hwf Hv eq_refl) as (c' & st1 & Hs & Hc1 & Hd & Hrc & Hnx);
    [simpl; unfold REFCOUNT_SATURATED, UINT32_MAX; lia|].
  mstep Hs. rewrite (proj2 (Z.eqb_neq _ _) Hvn). simpl in Hrc.
  assert (Hv1 : cells st1 !! v = Some c') by (by rewrite Hc1, lookup_insert_eq).
  assert (Hwf1 : store_wf st1).
  { split; [rewrite Hnx; apply Hwf|]. intros q c. rewrite Hc1, Hnx, lookup_insert. destruct Hwf as [_ Hw].
    case_decide; [subst; intros _; by eapply Hw|apply Hw]. }
  case_if_goal.
  - unfold value_release. rewrite (proj2 (Z.eqb_neq _ _) Hvn).
    assert (E : (c ← load v; write v (set_refcount c (release_count (refcount c)))) st1 =
      Some (tt, mkStore (<[v := set_refcount c' (release_count (refcount c'))]> (cells st1)) (next_addr st1) (current_heap st1))).
    { mstep (load_run _ _ _ Hv1). by rewrite (write_run _ _ _ _ Hv1). }
    mstep E. eexists _, _, _. split; [done|]. split; [by eapply store_wf_insert|done].
  - destruct (mailbox_push _ _ _ _) as [[|] mb] eqn:Ep.
    + by eexists _, _, _.
    + assert (E : value_free_all v st1 = _) by (apply (free_shared st1 v c' Hv1 Hvn); unfold REFCOUNT_SATURATED, UINT32_MAX; lia).
      mstep E. eexists _, _, _. split; [done|]. split; [by eapply store_wf_insert|done].
Qed.

Lemma send_message_spec w target sender build b :
  store_wf (store w) -> builds build -> registry w !! target = Some b ->
  exists r b' st', send_message w target sender build =
      (r, set_values (set_registry w (<[target := b']> (registry w))) st' (next_msg w + 1)) /\
    store_wf st' /\ process_of b' = process_of b.
Proof.
  intros Hwf Hb Ht. unfold send_message. rewrite Ht. destruct (Hb _ Hwf) as (v & st1 & mp & E & Hwf1 & Hv).
  destruct (block_send_total send_depth (next_msg w) b sender v mp st1 Hwf1 Hv) as (r & b' & st' & Es & Hwf' & Hp).
  exists r, b', st'. split; [|done].
  assert (Er : (v ← build; block_send send_depth (next_msg w) b sender v) (store w) = Some ((r, b'), st')) by (by mstep E).
  by rewrite Er.
Qed.

(** ** Sums over a registry *)

Section msum.
Context {A : Type} (f : A -> nat).

Definition msum (m : gmap Z A) : nat := sum_list_with (fun ka => f ka.2) (map_to_list m).

Lemma sum_list_with_perm {B} (g : B -> nat) (l l' : list B) :
  l ≡ₚ l' -> sum_list_with g l = sum_list_with g l'.
Proof. induction 1; simpl; lia. Qed.

Lemma msum_insert m k a : m !! k = None -> msum (<[k := a]> m) = (f a + msum m)%nat.
Proof. intros H. unfold msum. by rewrite (sum_list_with_perm _ _ _ (map_to_list_insert m k a H)). Qed.

Lemma msum_delete m k a : m !! k = Some a -> msum m = (f a + msum (delete k m))%nat.
Proof. intros H. rewrite <- (insert_delete_id m k a H) at 1. apply msum_insert, lookup_delete_eq. Qed.

Lemma msum_le m : forall m',
  (forall k a', m' !! k = Some a' -> exists a, m !! k = Some a /\ (f a' <= f a)%nat) -> (msum m' <= msum m)%nat.
Proof.
  induction m as [|k a m Hk IH] using map_ind; intros m' H.
  - assert (m' = ∅) as -> by (apply map_empty; intros k; destruct (m' !! k) eqn:E; [|done]; by destruct (H _ _ E) as (? & ? & _)).
    done.
  - rewrite (msum_insert m k a Hk). destruct (m' !! k) as [a'|] eqn:E.
    + rewrite (msum_delete m' k a' E). destruct (H _ _ E) as (a0 & Ha & Hle). rewrite lookup_insert_eq in Ha.
      injection Ha as <-. assert (msum (delete k m') <= msum m)%nat; [|lia]. apply IH.
      intros k' a'' [Hne Hd]%lookup_delete_Some. destruct (H _ _ Hd) as (a0 & Ha & Hl).
      rewrite lookup_insert_ne in Ha by done. eauto.
    + assert (msum m' <= msum m)%nat; [|lia]. apply IH. intros k' a'' Hd. destruct (H _ _ Hd) as (a0 & Ha & Hl).
      rewrite lookup_insert_ne in Ha by congruence. eauto.
Qed.

End msum.

(** ** Who dies when a block crashes *)

(** [q] would crash if it were linked to a block that exits abnormally. *)
Definition victim (w : Scheduler) (q : Z) : Prop :=
  exists b, scheduler_get_block w q = Some b /\ block_is_alive b = true /\ block_has_cap b CAP_TRAP_EXIT = false.

Definition linked_to (w : Scheduler) (p q : Z) : Prop :=
  exists b, registry w !! p = Some b /\ q ∈ block_get_links b.

(** The blocks a crash of [p] takes with it: reached over links, through blocks
    that crash themselves. *)
Inductive crashes (w : Scheduler) (p : Z) : Z -> Prop :=
  | crashes_direct q : linked_to w p q -> victim w q -> crashes w p q
  | crashes_step x q : crashes w p x -> linked_to w x q -> victim w q -> crashes w p q.

(** No supervisor has the block it runs in as a child. *)
Definition no_self_supervision (w : Scheduler) : Prop :=
  forall p sup c, supervisors w !! p = Some sup -> c ∈ children sup -> cs_pid c <> p.

Record good (w : Scheduler) : Prop := {
  g_fault : faulted w = false;
  g_store : store_wf (store w);
  g_self : no_self_supervision w;
  g_count : is_u64 (total_terminated w)
}.

Definition dead_in (w : Scheduler) (q : Z) : Prop := exists b, registry w !! q = Some b /\ block_is_alive b = false.

(** A block before and after exits have been propagated to the blocks [K]. *)
Record change (w' : Scheduler) (K : gset Z) (q : Z) (b b' : Block) : Prop := {
  ch_killed : q ∈ K -> block_is_alive b' = false /\ exit_code b' = -1;
  ch_alive : q ∉ K -> block_is_alive b' = block_is_alive b;
  ch_exit : q ∉ K -> exit_code b' = exit_code b /\ exit_reason b' = exit_reason b;
  ch_caps : capabilities b' = capabilities b;
  ch_parent : parent b' = parent b;
  ch_sub x : x ∈ block_get_links b' -> x ∈ block_get_links b;
  ch_removed x : x ∈ block_get_links b -> x ∈ block_get_links b' \/ dead_in w' x;
  ch_len : (length (block_get_links b') <= length (block_get_links b))%nat;
  ch_dead : block_is_alive b = false -> process_of b' = process_of b
}.

(** What the propagation of exits does not touch. *)
Definition fixed (w : Scheduler) : gmap Z Supervisor * (Z * Z * Z) := (supervisors w, (total_count w, next_pid w, max_blocks w)).

Record exited (w w' : Scheduler) (K : gset Z) : Prop := {
  ex_good : good w';
  ex_dom q : registry w !! q = None -> registry w' !! q = None;
  ex_block q b : registry w !! q = Some b -> exists b', registry w' !! q = Some b' /\ change w' K q b b';
  ex_victims q : q ∈ K -> victim w q;
  ex_count : total_terminated w' = u64 (total_terminated w + Z.of_nat (base.size K));
  ex_fixed : fixed w' = fixed w
}.

Lemma get_block_lookup w q b : scheduler_get_block w q = Some b -> registry w !! q = Some b.
Proof. unfold scheduler_get_block. by case_if. Qed.

Lemma exited_back w w' K q b' :
  exited w w' K -> registry w' !! q = Some b' -> exists b, registry w !! q = Some b /\ change w' K q b b'.
Proof.
  intros He Hb'. destruct (registry w !! q) as [b|] eqn:E.
  - destruct (ex_block _ _ _ He _ _ E) as (b'' & Hb'' & Hc). exists b. split; [done|]. congruence.
  - apply (ex_dom _ _ _ He) in E. congruence.
Qed.

Lemma exited_dead w w' K q : exited w w' K -> dead_in w q -> dead_in w' q.
Proof.
  intros He (b & Hb & Hd). destruct (ex_block _ _ _ He _ _ Hb) as (b' & Hb' & Hc). exists b'. split; [done|].
  destruct (decide (q ∈ K)) as [Hk|Hk]; [by apply (ch_killed _ _ _ _ _ Hc)|].
  by rewrite (ch_alive _ _ _ _ _ Hc Hk).
Qed.

(** A block that is still a victim was one before; one that was is dead or still one. *)
Lemma exited_victim w w' K q : exited w w' K -> (victim w' q <-> victim w q /\ q ∉ K).
Proof.
  intros He. unfold victim, scheduler_get_block. destruct (q =? PID_INVALID); [naive_solver|]. split.
  - intros (b' & Hb' & Ha & Ht). destruct (exited_back _ _ _ _ _ He Hb') as (b & Hb & Hc).
    assert (Hk : q ∉ K) by (intros Hk; destruct (ch_killed _ _ _ _ _ Hc Hk); congruence).
    split; [|done]. exists b. rewrite <- (ch_alive _ _ _ _ _ Hc Hk). unfold block_has_cap in *.
    by rewrite (ch_caps _ _ _ _ _ Hc) in Ht.
  - intros [(b & Hb & Ha & Ht) Hk]. destruct (ex_block _ _ _ He _ _ Hb) as (b' & Hb' & Hc). exists b'.
    rewrite (ch_alive _ _ _ _ _ Hc Hk). unfold block_has_cap in *. by rewrite (ch_caps _ _ _ _ _ Hc).
Qed.

Lemma victim_not_dead w q : victim w q -> ~ dead_in w q.
Proof. intros (b & Hb%get_block_lookup & Ha & _) (b' & Hb' & Hd). congruence. Qed.

Lemma change_refl w' (K : gset Z) q b : q ∉ K -> change w' K q b b.
Proof. intros Hq. split; auto; done. Qed.

Lemma exited_refl w : good w -> exited w w ∅.
Proof.
  intros Hg. split; [done|done| |set_solver| |done].
  - intros q b Hb. exists b. split; [done|]. apply change_refl. set_solver.
  - rewrite size_empty, Z.add_0_r. symmetry. apply u64_small, Hg.
Qed.

Lemma exited_trans w w1 w2 K1 K2 : exited w w1 K1 -> exited w1 w2 K2 -> exited w w2 (K1 ∪ K2).
Proof.
  intros H1 H2. assert (Hdisj : K1 ## K2).
  { intros q Hq1 Hq2. apply (ex_victims _ _ _ H2) in Hq2. apply (exited_victim _ _ _ _ H1) in Hq2. naive_solver. }
  split.
  - apply H2.
  - intros q Hq. by apply (ex_dom _ _ _ H2), (ex_dom _ _ _ H1).
  - intros q b Hb. destruct (ex_block _ _ _ H1 _ _ Hb) as (b1 & Hb1 & [A1 A2 A3 A4 A5 A6 A7 A8 A9]).
    destruct (ex_block _ _ _ H2 _ _ Hb1) as (b2 & Hb2 & [B1 B2 B3 B4 B5 B6 B7 B8 B9]).
    exists b2. split; [done|]. split.
    + intros [Hq|Hq]%elem_of_union; [|auto]. assert (q ∉ K2) by set_solver.
      destruct (A1 Hq). rewrite B2 by done. destruct (B3 ltac:(done)) as [-> _]. done.
    + intros [Hq1 Hq2]%not_elem_of_union. by rewrite B2, A2.
    + intros [Hq1 Hq2]%not_elem_of_union. destruct (B3 Hq2) as [-> ->]. auto.
    + congruence.
    + congruence.
    + auto.
    + intros x [Hx|Hx]%A7; [auto|]. right. by eapply exited_dead.
    + lia.
    + intros Hd. rewrite B9, A9; [done|done|]. pose proof (A9 Hd) as E. unfold process_of in E. injection E as E _.
      unfold block_is_alive in *. by rewrite E.
  - intros q [Hq|Hq]%elem_of_union; [by apply (ex_victims _ _ _ H1)|].
    by apply (exited_victim _ _ _ _ H1), (ex_victims _ _ _ H2).
  - rewrite (ex_count _ _ _ H2), (ex_count _ _ _ H1), size_union by done. unfold u64, wrap.
    rewrite Zplus_mod_idemp_l. f_equal. lia.
  - rewrite (ex_fixed _ _ _ H2). apply H1.
Qed.

(** A step that changes one block. *)
Lemma exited_one w w' l b b' (K : gset Z) :
  good w -> registry w !! l = Some b -> registry w' = <[l := b']> (registry w) ->
  faulted w' = false -> store_wf (store w') -> fixed w' = fixed w ->
  (forall q, q ∈ K -> q = l /\ victim w l) -> change w' K l b b' ->
  total_terminated w' = u64 (total_terminated w + Z.of_nat (base.size K)) ->
  exited w w' K.
Proof.
  intros Hg Hl Hr Hf Hs Hsup Hk Hc Hn. split; [split| | | |done|done].
  - done.
  - done.
  - intros p sup d. injection Hsup as -> _. apply (g_self _ Hg).
  - rewrite Hn. apply u64_range.
  - intros q Hq. rewrite Hr, lookup_insert_ne by congruence. done.
  - intros q c Hq. rewrite Hr, lookup_insert. destruct (decide (l = q)) as [<-|Hne].
    + exists b'. split; [done|]. congruence.
    + exists c. split; [done|]. apply change_refl. intros [-> _]%Hk. done.
  - intros q [-> ?]%Hk. done.
Qed.

Lemma unlink_links b p :
  (forall x, x ∈ block_get_links (block_unlink b p) -> x ∈ block_get_links b) /\
  (forall x, x ∈ block_get_links b -> x ∈ block_get_links (block_unlink b p) \/ x = p) /\
  (length (block_get_links (block_unlink b p)) <= length (block_get_links b))%nat.
Proof.
  unfold block_get_links, block_unlink, vec_remove. simpl.
  destruct (find_index (Z.eqb p) (items (links b))) as [i|] eqn:E; simpl; [|split_and!; auto].
  apply find_index_Some in E as (y & Hy & <-%Z.eqb_eq). pose proof (swap_remove_perm i _ _ Hy) as Hp.
  split_and!.
  - intros x Hx. rewrite Hp. by right.
  - intros x Hx. apply (elem_of_Permutation_proper x _ _ Hp), elem_of_cons in Hx. tauto.
  - rewrite length_swap_remove. lia.
Qed.

(** *** The linked block crashes *)

Lemma crash_state w p r : block_state_of (on_block w p (fun b => block_crash b r)) p = BLOCK_DEAD.
Proof. unfold block_state_of, on_block. simpl. rewrite lookup_alter_eq. by destruct (registry w !! p). Qed.

Lemma exited_crash w p l lb reason :
  good w -> dead_in w p -> registry w !! l = Some lb -> victim w l ->
  exited w (add_stats (crash_and_unqueue (on_block w l (fun lb => block_unlink lb p)) l reason) 0 1 0 0) {[l]}.
Proof.
  intros Hg Hp Hl Hv. destruct (unlink_links lb p) as (U1 & U2 & U3).
  assert (Hlp : l <> p) by (intros ->; by apply victim_not_dead in Hv).
  unfold crash_and_unqueue. rewrite decide_False by (by rewrite crash_state).
  eapply (exited_one w _ l lb (block_crash (block_unlink lb p) (Some reason))); try done; try apply Hg.
  - simpl. rewrite (alter_alt_Some _ _ _ _ Hl), alter_insert_eq. done.
  - intros q ->%elem_of_singleton. done.
  - split; try done.
    + intros []. by apply elem_of_singleton.
    + intros []. by apply elem_of_singleton.
    + intros x [Hx| ->]%U2; [by left|]. right. destruct Hp as (b & Hb & Hd). exists b. split; [|done].
      simpl. rewrite !lookup_alter_ne by done. done.
    + intros Hd. destruct Hv as (b & Hb%get_block_lookup & Ha & _). congruence.
  - rewrite size_singleton. done.
Qed.

(** *** The linked block traps exits *)

Lemma wake_spec w l b :
  registry w !! l = Some b -> state b = BLOCK_WAITING ->
  let w' := scheduler_wake_block w l in
  registry w' = <[l := set_state b BLOCK_RUNNABLE]> (registry w) /\ faulted w' = faulted w /\
  store w' = store w /\ fixed w' = fixed w /\ total_terminated w' = total_terminated w.
Proof.
  intros Hl Hs. unfold scheduler_wake_block. rewrite Hl. unfold block_try_transition. rewrite decide_True by done.
  cbv zeta. case_match; [done|]. unfold scheduler_enqueue. by case_decide.
Qed.

Lemma exited_trap w p l lb build :
  good w -> dead_in w p -> registry w !! l = Some lb -> block_is_alive lb = true -> builds build ->
  let w1 := on_block w l (fun lb => block_unlink lb p) in
  let w2 := (send_message w1 l p build).2 in
  exited w (if decide (block_state_of w2 l = BLOCK_WAITING) then scheduler_wake_block w2 l else w2) ∅.
Proof.
  intros Hg Hp Hl Ha Hb w1 w2. destruct (unlink_links lb p) as (U1 & U2 & U3).
  assert (Hl1 : registry w1 !! l = Some (block_unlink lb p)) by (simpl; by rewrite lookup_alter_eq, Hl).
  destruct (send_message_spec w1 l p build _ (g_store _ Hg) Hb Hl1) as (r & b' & st' & Es & Hst & Hproc).
  assert (Hr1 : <[l := b']> (registry w1) = <[l := b']> (registry w))
    by (simpl; by rewrite (alter_alt_Some _ _ _ _ Hl), insert_insert_eq).
  subst w2. rewrite Es. cbn [snd]. set (w2 := set_values _ _ _).
  assert (Hw2 : registry w2 = <[l := b']> (registry w)) by exact Hr1.
  assert (Hl2 : registry w2 !! l = Some b') by (by rewrite Hw2, lookup_insert_eq).
  unfold process_of in Hproc. injection Hproc as P1 P2 P3 P4 P5 P6 P7. simpl in P1, P2, P3, P4, P6, P7.
  assert (Hlp : l <> p) by (intros ->; destruct Hp as (b & ? & ?); congruence).
  assert (Hchange : forall w' b2, registry w' = <[l := b2]> (registry w) ->
    process_of (set_state b2 (state b')) = process_of b' -> block_is_alive b2 = true -> change w' ∅ l lb b2).
  { intros w' b2 Hw' Hb2 Ha2. unfold process_of in Hb2. injection Hb2 as Q2 Q3 Q4 Q5 Q6 _.
    change (block_get_links (set_state b2 (state b'))) with (block_get_links b2) in Q5. simpl in Q2, Q3, Q4, Q6.
    split.
    - by intros ?%not_elem_of_empty.
    - congruence.
    - intros _. split; congruence.
    - congruence.
    - congruence.
    - intros x. rewrite Q5, P5. apply U1.
    - intros x. rewrite Q5, P5. intros [?| ->]%U2; [by left|]. right.
      destruct Hp as (b & Hb' & Hd). exists b. rewrite Hw', lookup_insert_ne by done. done.
    - by rewrite Q5, P5.
    - congruence. }
  assert (Hcount : total_terminated w = u64 (total_terminated w + Z.of_nat (base.size (∅ : gset Z)))).
  { rewrite size_empty, Z.add_0_r. symmetry. apply u64_small, Hg. }
  case_decide as Ew.
  - unfold block_state_of in Ew. rewrite Hl2 in Ew. simpl in Ew.
    destruct (wake_spec w2 l b' Hl2 Ew) as (W1 & W2 & W3 & W4 & W5).
    rewrite Hw2, insert_insert_eq in W1.
    eapply (exited_one w _ l lb); [done|done|exact W1| | | |set_solver| |]; rewrite ?W2, ?W3, ?W4, ?W5; try done; try apply Hg.
    apply Hchange; [done| |done]. unfold process_of. simpl. by rewrite Ew.
  - eapply (exited_one w _ l lb); [done|done|exact Hw2|..]; try done; try apply Hg.
    apply Hchange; [done|by destruct b'|]. unfold block_is_alive in *. by rewrite P1.
Qed.

(** ** The propagation reaches exactly the blocks that crash *)

Definition live_weight (b : Block) : nat := if block_is_alive b then link_weight b else 0.
Definition weight (w : Scheduler) : nat := msum live_weight (registry w).

Lemma change_weight w' K q b b' : change w' K q b b' -> (live_weight b' <= live_weight b)%nat.
Proof.
  intros []. unfold live_weight, link_weight. destruct (decide (q ∈ K)) as [Hk|Hk].
  - by destruct (ch_killed0 Hk) as [-> _]; destruct (block_is_alive b); lia.
  - rewrite ch_alive0 by done. destruct (block_is_alive b); lia.
Qed.

Lemma exited_weight w w' K : exited w w' K -> (weight w' <= weight w)%nat.
Proof.
  intros He. apply msum_le. intros q b' Hb'. destruct (exited_back _ _ _ _ _ He Hb') as (b & Hb & Hc).
  exists b. split; [done|]. by eapply change_weight.
Qed.

Lemma exited_weight_killed w w' K l lb :
  exited w w' K -> l ∈ K -> registry w !! l = Some lb -> (weight w' + link_weight lb <= weight w)%nat.
Proof.
  intros He Hl Hlb. destruct (ex_block _ _ _ He _ _ Hlb) as (b' & Hb' & Hc). unfold weight.
  rewrite (msum_delete _ _ _ _ Hlb), (msum_delete _ _ _ _ Hb').
  assert (live_weight b' = 0%nat) as -> by (unfold live_weight; by destruct (ch_killed _ _ _ _ _ Hc Hl) as [-> _]).
  assert (live_weight lb = link_weight lb) as ->.
  { unfold live_weight. destruct (ex_victims _ _ _ He _ Hl) as (b & Hb%get_block_lookup & Ha & _).
    replace b with lb in Ha by congruence. by rewrite Ha. }
  assert (msum live_weight (delete l (registry w')) <= msum live_weight (delete l (registry w)))%nat; [|lia].
  apply msum_le. intros q c' [Hq Hc']%lookup_delete_Some. destruct (exited_back _ _ _ _ _ He Hc') as (c & Hcc & Hch).
  exists c. rewrite lookup_delete_ne by done. split; [done|]. by eapply change_weight.
Qed.

Definition closed (w : Scheduler) (K : gset Z) (q : Z) : Prop :=
  forall x, linked_to w q x -> victim w x -> x ∈ K.

(** The outcome of propagating the exit of [p] to the links [ls]. *)
Record outcome (w w' : Scheduler) (p : Z) (ls : list Z) (K : gset Z) : Prop := {
  o_exited : exited w w' K;
  o_closed q : q ∈ K -> closed w K q;
  o_links x : x ∈ ls -> victim w x -> x ∈ K;
  o_sound q : q ∈ K -> crashes w p q
}.

(** Later crashes were possible from the start. *)
Lemma linked_back w w' K p q : exited w w' K -> linked_to w' p q -> linked_to w p q.
Proof.
  intros He (b' & Hb' & Hq). destruct (exited_back _ _ _ _ _ He Hb') as (b & Hb & Hc).
  exists b. split; [done|]. by apply (ch_sub _ _ _ _ _ Hc).
Qed.

Lemma crashes_back w w' K p q : exited w w' K -> crashes w' p q -> crashes w p q.
Proof.
  intros He. induction 1 as [q H1 H2|x q _ IH H1 H2].
  - apply crashes_direct; [by eapply linked_back|]. by apply (exited_victim _ _ _ _ He) in H2 as [? _].
  - eapply crashes_step; [exact IH|by eapply linked_back|]. by apply (exited_victim _ _ _ _ He) in H2 as [? _].
Qed.

Lemma crashes_via w p l q : crashes w p l -> crashes w l q -> crashes w p q.
Proof. intros Hp. induction 1; eapply crashes_step; eauto. Qed.

(** A block that was not hit keeps its links to blocks that can still crash. *)
Lemma closed_trans w w1 K1 K2 q :
  exited w w1 K1 -> q ∉ K1 -> closed w1 K2 q -> closed w (K1 ∪ K2) q.
Proof.
  intros He Hq Hc x (b & Hb & Hx) Hv. apply elem_of_union.
  destruct (decide (x ∈ K1)) as [|Hk]; [by left|]. right.
  destruct (ex_block _ _ _ He _ _ Hb) as (b1 & Hb1 & Hch).
  assert (Hv1 : victim w1 x) by (by apply (exited_victim _ _ _ _ He)).
  destruct (ch_removed _ _ _ _ _ Hch _ Hx) as [Hx1|Hd]; [|by apply victim_not_dead in Hv1].
  apply Hc; [by exists b1|done].
Qed.

Lemma outcome_app w w1 w2 p ls1 ls2 K1 K2 :
  outcome w w1 p ls1 K1 -> outcome w1 w2 p ls2 K2 -> outcome w w2 p (ls1 ++ ls2) (K1 ∪ K2).
Proof.
  intros [E1 C1 L1 S1] [E2 C2 L2 S2]. split.
  - by eapply exited_trans.
  - intros q [Hq|Hq]%elem_of_union.
    + intros x Hl Hv. apply elem_of_union_l. by apply (C1 q Hq).
    + eapply closed_trans; [exact E1| |by apply C2].
      apply (ex_victims _ _ _ E2), (exited_victim _ _ _ _ E1) in Hq. tauto.
  - intros x [Hx|Hx]%elem_of_app Hv; apply elem_of_union; [left; auto|].
    destruct (decide (x ∈ K1)); [by left|]. right. apply L2; [done|]. by apply (exited_victim _ _ _ _ E1).
  - intros q [Hq|Hq]%elem_of_union; [auto|]. eapply crashes_back; [exact E1|auto].
Qed.

Lemma outcome_nothing w w' p l : exited w w' ∅ -> ~ victim w l -> outcome w w' p [l] ∅.
Proof.
  intros He Hl. split; [done|set_solver| |set_solver]. intros x ->%list_elem_of_singleton. done.
Qed.

Definition dies (b : Block) : Prop := block_is_alive b = false /\ is_abnormal b = true.

(** What a propagation from a crashed block has to do, with [n] steps. *)
Definition propagates (n : nat) (f : Scheduler -> Z -> Scheduler) : Prop :=
  forall w l b, good w -> registry w !! l = Some b -> dies b ->
    (weight w + length (block_get_links b) + 2 <= n)%nat ->
    exists K, outcome w (f w l) l (block_get_links b) K.

Lemma exit_to_link_spec n f w p b l :
  propagates n f -> good w -> registry w !! p = Some b -> dies b -> l ∈ block_get_links b ->
  (weight w <= n)%nat -> exists K, outcome w (exit_to_link f w p l) p [l] K.
Proof.
  intros Hf Hg Hp [Hd Hab] Hlink Hn. unfold exit_to_link. rewrite Hp.
  assert (Hdp : dead_in w p) by (by exists b).
  destruct (scheduler_get_block w l) as [lb|] eqn:El.
  2: { exists ∅. apply outcome_nothing; [by apply exited_refl|]. intros (b' & ? & _). congruence. }
  destruct (block_is_alive lb) eqn:Ea.
  2: { exists ∅. apply outcome_nothing; [by apply exited_refl|]. intros (b' & ? & ? & _). congruence. }
  pose proof (get_block_lookup _ _ _ El) as Hl. destruct (block_has_cap lb CAP_TRAP_EXIT) eqn:Et.
  - exists ∅. apply outcome_nothing; [|intros (b' & ? & _ & ?); congruence].
    pose proof (exited_trap w p l lb _ Hg Hdp Hl Ea (exit_message_builds p (exit_code b) (exit_reason b))) as He.
    cbv zeta in He. by destruct (send_message _ _ _ _) as [r w2].
  - rewrite Hab. assert (Hv : victim w l) by (by exists lb).
    pose proof (exited_crash w p l lb (linked_reason p) Hg Hdp Hl Hv) as He. set (wb := add_stats _ _ _ _ _) in *.
    pose proof (exited_weight_killed _ _ _ l lb He ltac:(set_solver) Hl) as Hw.
    destruct (ex_block _ _ _ He _ _ Hl) as (lb' & Hlb' & Hc).
    destruct (ch_killed _ _ _ _ _ Hc ltac:(set_solver)) as [Hd' Hx'].
    destruct (Hf wb l lb') as [K [E C L S]]; [apply He|done|split; [done|unfold is_abnormal; by rewrite Hx']| |].
    { unfold link_weight in Hw. pose proof (ch_len _ _ _ _ _ Hc). lia. }
    assert (Hpl : crashes w p l) by (apply crashes_direct; [by exists b|done]).
    exists ({[l]} ∪ K). split.
    + by eapply exited_trans.
    + intros q [->%elem_of_singleton|Hq]%elem_of_union.
      * intros x (b0 & Hb0 & Hx) Hvx. apply elem_of_union. destruct (decide (x = l)) as [->|Hne]; [left; set_solver|].
        right. assert (Hvx' : victim wb x) by (apply (exited_victim _ _ _ _ He); set_solver).
        replace b0 with lb in Hx by congruence.
        destruct (ch_removed _ _ _ _ _ Hc _ Hx) as [?|Hdx]; [by apply L|by apply victim_not_dead in Hvx'].
      * eapply closed_trans; [exact He| |by apply C].
        apply (ex_victims _ _ _ E), (exited_victim _ _ _ _ He) in Hq. tauto.
    + intros x ->%list_elem_of_singleton _. set_solver.
    + intros q [->%elem_of_singleton|Hq]%elem_of_union; [done|].
      eapply crashes_via; [exact Hpl|]. eapply crashes_back; [exact He|auto].
Qed.

(** The supervisor that is asked is the one the exited block itself runs, which does
    not know the block as a child. *)
Lemma notify_self clk f w p : no_self_supervision w -> notify_supervisor clk f w p = w.
Proof.
  intros Hs. unfold notify_supervisor. destruct (registry w !! p) as [b|]; [|done]. destruct (supervisors w !! p) as [sup|] eqn:Es; [|done].
  destruct (_ =? _); [done|]. destruct (scheduler_get_block w (parent b)); [|done].
  assert (Hset : set_supervisor w p sup = w) by (unfold set_supervisor; rewrite insert_id by done; by destruct w).
  unfold supervisor_handle_exit. destruct (shutting_down sup); [done|]. assert (find_child_index sup p = None) as ->; [|done].
  destruct (find_child_index sup p) as [i|] eqn:Ei; [|done]. apply find_index_Some in Ei as (c & Hc & Hp%Z.eqb_eq).
  destruct (Hs p sup c Es); [by eapply list_elem_of_lookup_2|done].
Qed.

Lemma process_dies b b' : process_of b' = process_of b -> dies b -> dies b' /\ block_get_links b' = block_get_links b.
Proof.
  unfold process_of, dies, is_abnormal, block_is_alive. intros [= -> -> -> _ -> _ _]. done.
Qed.

Definition propagation (clk : Z * Z * Z) (fuel : nat) : Prop := forall w p b i,
  good w -> registry w !! p = Some b -> dies b ->
  (weight w + (length (block_get_links b) - i) + 1 <= fuel)%nat ->
  exists K, outcome w (propagate_from clk fuel w p (Some i)) p (drop i (block_get_links b)) K.

Lemma propagation_propagates clk fuel :
  (forall n, (n < fuel)%nat -> propagation clk n) -> propagates fuel (fun w q => propagate_from clk fuel w q None).
Proof.
  intros H w l b Hg Hl Hd Hn. destruct fuel as [|fuel]; [lia|]. simpl.
  rewrite notify_self by apply Hg. apply (H fuel ltac:(lia) w l b 0%nat); [done..|lia].
Qed.

Lemma propagate_total clk fuel : propagation clk fuel.
Proof.
  induction fuel as [fuel IH] using lt_wf_ind. intros w p b i Hg Hp Hd Hn.
  destruct fuel as [|fuel]; [lia|]. simpl. rewrite Hp.
  destruct (block_get_links b !! i) as [l|] eqn:El.
  - assert (Hlt := lookup_lt_Some _ _ _ El). rewrite (drop_S _ _ _ El).
    set (f := fun w q => propagate_from clk fuel w q None).
    assert (Hf : propagates fuel f) by (apply propagation_propagates; intros n ?; apply IH; lia).
    destruct (exit_to_link_spec fuel f w p b l Hf Hg Hp Hd) as [K1 O1]; [by eapply list_elem_of_lookup_2|lia|].
    destruct (ex_block _ _ _ (o_exited _ _ _ _ _ O1) _ _ Hp) as (b1 & Hb1 & Hc1).
    destruct (process_dies b b1) as [Hd1 Hl1]; [by apply (ch_dead _ _ _ _ _ Hc1), Hd|done|].
    pose proof (exited_weight _ _ _ (o_exited _ _ _ _ _ O1)) as Hw.
    destruct (IH fuel ltac:(lia) (exit_to_link f w p l) p b1 (S i)) as [K2 O2];
      [apply O1|done|done|rewrite Hl1; lia|].
    exists (K1 ∪ K2). rewrite Hl1 in O2. exact (outcome_app _ _ _ _ [l] _ _ _ O1 O2).
  - exists ∅. apply lookup_ge_None in El. rewrite drop_ge by done. split; [by apply exited_refl|set_solver..].
Qed.

(** ** Killing a block *)

Lemma outcome_complete w w' p b K :
  registry w !! p = Some b -> outcome w w' p (block_get_links b) K -> forall q, crashes w p q -> q ∈ K.
Proof.
  intros Hp [E C L S] q. induction 1 as [q (b' & Hb' & Hq) Hv|x q _ IH Hl Hv].
  - apply L; [|done]. congruence.
  - by apply (C x IH).
Qed.

(** [scheduler_kill] up to the propagation of the exit. *)
Definition killed (w : Scheduler) (p : Z) : Scheduler :=
  add_stats (crash_and_unqueue w p "killed") 0 1 0 0.

Lemma killed_unfold w p :
  killed w p = add_stats (on_block w p (fun b => block_crash b (Some "killed"%string))) 0 1 0 0.
Proof. unfold killed, crash_and_unqueue. by rewrite decide_False by (by rewrite crash_state). Qed.

Lemma killed_lookup w p b q :
  registry w !! p = Some b ->
  registry (killed w p) !! q =
    if decide (q = p) then Some (block_crash b (Some "killed"%string)) else registry w !! q.
Proof.
  intros Hp. rewrite killed_unfold. simpl.
  destruct (decide (q = p)) as [->|Hq]; [by rewrite lookup_alter_eq, Hp|by rewrite lookup_alter_ne].
Qed.

Lemma killed_good w p : good w -> good (killed w p).
Proof.
  intros Hg. rewrite killed_unfold. split; try apply Hg. apply u64_range.
Qed.

Lemma killed_victim w p b x : registry w !! p = Some b -> (victim (killed w p) x <-> x <> p /\ victim w x).
Proof.
  intros Hp. unfold victim, scheduler_get_block. rewrite (killed_lookup w p b x Hp).
  destruct (decide (x = p)) as [->|Hx]; [|tauto]. split; [|tauto]. case_if; [naive_solver|].
  intros (c & [= <-] & ? & _). done.
Qed.

Lemma killed_linked w p b x y : registry w !! p = Some b -> (linked_to (killed w p) x y <-> linked_to w x y).
Proof.
  intros Hp. unfold linked_to. rewrite (killed_lookup w p b x Hp). destruct (decide (x = p)) as [->|]; [|done].
  naive_solver.
Qed.

Lemma killed_crashes w p b q :
  registry w !! p = Some b -> (crashes (killed w p) p q <-> q <> p /\ crashes w p q).
Proof.
  intros Hp. split.
  - induction 1 as [q H1 H2|x q _ IH H1 H2]; apply (killed_victim w p b) in H2 as [Hq Hv]; try done;
      apply (killed_linked w p b) in H1; try done; (split; [done|]).
    + by apply crashes_direct.
    + by eapply crashes_step; [apply IH|..].
  - intros [Hq H]. revert Hq. induction H as [q H1 H2|x q _ IH H1 H2]; intros Hq;
      apply (killed_linked w p b) in H1; try done;
      (assert (Hv : victim (killed w p) q) by (by apply (killed_victim w p b))).
    + by apply crashes_direct.
    + destruct (decide (x = p)) as [->|Hx]; [by apply crashes_direct|]. eapply crashes_step; eauto.
Qed.

Lemma exit_fuel_enough w p b :
  registry w !! p = Some b -> block_is_alive b = false ->
  (weight w + length (block_get_links b) + 2 <= exit_fuel w)%nat.
Proof.
  intros Hp Hd. change (exit_fuel w) with (S (S (msum link_weight (registry w)))). unfold weight.
  rewrite (msum_delete live_weight _ _ _ Hp), (msum_delete link_weight _ _ _ Hp).
  assert (live_weight b = 0%nat) as -> by (unfold live_weight; by rewrite Hd).
  assert (msum live_weight (delete p (registry w)) <= msum link_weight (delete p (registry w)))%nat.
  { unfold msum. induction (map_to_list (delete p (registry w))) as [|c l IH]; cbn [sum_list_with]; [done|].
    assert (live_weight c.2 <= link_weight c.2)%nat by (unfold live_weight; destruct (block_is_alive c.2); lia). lia. }
  unfold link_weight at 1. lia.
Qed.

(** C22: [scheduler_kill] of a live block, in a system where no supervisor has the
    block it runs in as a child (blocks with supervisors may have parents), ends: the
    fuel of the model is never used up, and no operation on the messages it sends is
    undefined.  It crashes exactly the block and the live blocks that do not trap
    exits and that are reached from it over links through such blocks; they all end
    with exit code -1.  Every other block stays alive or dead as it was, with its exit
    code and its reason, and no block appears or goes away.  [total_terminated] grows
    by the number of blocks that crashed.  No supervisor takes notice: the one that
    the code asks for each crashed block is the block's own, which does not know the
    block as a child and so does nothing. *)
Theorem scheduler_kill_exact clock w p b :
  good w -> scheduler_get_block w p = Some b -> block_is_alive b = true ->
  let w' := scheduler_kill clock w p in
  exists K : gset Z, (forall q, q ∈ K <-> q = p \/ crashes w p q) /\
    faulted w' = false /\
    total_terminated w' = u64 (total_terminated w + Z.of_nat (base.size K)) /\
    supervisors w' = supervisors w /\
    (forall q, is_Some (registry w' !! q) <-> is_Some (registry w !! q)) /\
    (forall q c c', registry w !! q = Some c -> registry w' !! q = Some c' ->
       if decide (q ∈ K) then block_is_alive c' = false /\ exit_code c' = -1
       else block_is_alive c' = block_is_alive c /\ exit_code c' = exit_code c /\ exit_reason c' = exit_reason c).
Proof.
  intros Hg Hp Ha w'. pose proof (get_block_lookup _ _ _ Hp) as Hpb. subst w'.
  unfold scheduler_kill, kill_with. rewrite Hp, Ha. fold (killed w p).
  pose proof (killed_lookup w p b p Hpb) as Hp1. rewrite decide_True in Hp1 by done.
  set (b1 := block_crash b (Some "killed"%string)) in *.
  destruct (propagation_propagates clock (exit_fuel (killed w p)) ltac:(intros; apply propagate_total) (killed w p) p b1)
    as [K HO]; [by apply killed_good|done|done|by apply (exit_fuel_enough _ p)|].
  pose proof (o_exited _ _ _ _ _ HO) as He. fold (scheduler_propagate_exit clock (killed w p) p) in *.
  set (w' := scheduler_propagate_exit clock (killed w p) p) in *.
  assert (HpK : p ∉ K) by (by intros [? _]%(ex_victims _ _ _ He)%(killed_victim w p b)).
  exists ({[p]} ∪ K). split_and!.
  - intros q. rewrite elem_of_union, elem_of_singleton. destruct (decide (q = p)) as [->|Hq]; [tauto|].
    pose proof (killed_crashes w p b q Hpb). pose proof (o_sound _ _ _ _ _ HO q).
    pose proof (outcome_complete _ _ _ _ _ Hp1 HO q). tauto.
  - apply He.
  - rewrite (ex_count _ _ _ He), size_union, size_singleton, killed_unfold by set_solver. simpl.
    unfold u64, wrap. rewrite Zplus_mod_idemp_l. f_equal. lia.
  - change (supervisors w') with (fixed w').1. rewrite (ex_fixed _ _ _ He). by rewrite killed_unfold.
  - intros q. transitivity (is_Some (registry (killed w p) !! q)).
    + split; [intros [c' Hc']; destruct (exited_back _ _ _ _ _ He Hc') as (c & Hc & _)
             |intros [c Hc]; destruct (ex_block _ _ _ He _ _ Hc) as (c' & Hc' & _)]; eauto.
    + rewrite (killed_lookup w p b q Hpb). destruct (decide (q = p)) as [->|]; [|done]. rewrite Hpb. by split; eauto.
  - intros q c c' Hc Hc'. destruct (exited_back _ _ _ _ _ He Hc') as (c1 & Hc1 & Hch).
    rewrite (killed_lookup w p b q Hpb) in Hc1. destruct (decide (q = p)) as [->|Hq].
    + rewrite decide_True by set_solver. injection Hc1 as <-. rewrite (ch_alive _ _ _ _ _ Hch HpK).
      destruct (ch_exit _ _ _ _ _ Hch HpK) as [-> _]. done.
    + assert (c1 = c) as -> by congruence. destruct (decide (q ∈ K)) as [Hk|Hk].
      * rewrite decide_True by set_solver. by apply (ch_killed _ _ _ _ _ Hch).
      * rewrite decide_False by set_solver. destruct (ch_exit _ _ _ _ _ Hch Hk) as [-> ->].
        by rewrite (ch_alive _ _ _ _ _ Hch Hk).
Qed.

(** ** Spawning *)

(** The registry holds the blocks that were admitted, under identifiers that
    have been handed out. *)
Record admitted (w : Scheduler) : Prop := {
  ad_count : total_count w = Z.of_nat (base.size (registry w));
  ad_max : total_count w <= max_blocks w <= UINT64_MAX;
  ad_next : 1 <= next_pid w;
  ad_pids p b : registry w !! p = Some b -> pid b = p /\ 1 <= p < next_pid w
}.

Lemma enqueue_registry w p : registry (scheduler_enqueue w p) = registry w.
Proof. unfold scheduler_enqueue. by case_decide. Qed.

Lemma block_load_spawned p name limits caps code :
  let b := (block_load (set_capabilities (block_new p name limits) caps) code).2 in
  pid b = p /\ state b = BLOCK_RUNNABLE /\ capabilities b = caps /\ Block.code b = Some code.
Proof. by destruct limits. Qed.

(** C34: [scheduler_spawn_ex] admits a block exactly while fewer than [max_blocks]
    are registered.  The new block is runnable, has the capabilities asked for
    and an identifier no registered block has; it goes to the end of the run
    queue, or to the end of the deque of the next worker in turn.  Every other
    block is untouched.  At the limit the call returns [PID_INVALID] and
    registers nothing.  The registry's invariant is kept as long as the 64-bit
    identifiers last. *)
Theorem scheduler_spawn_admits w code name caps limits :
  admitted w -> next_pid w < UINT64_MAX ->
  let '(p, w') := scheduler_spawn_ex w code name caps limits in
  admitted w' /\ next_pid w' = next_pid w + 1 /\
  if total_count w <? max_blocks w then
    p = next_pid w /\ registry w !! p = None /\
    (exists b, registry w' = <[p := b]> (registry w) /\
       state b = BLOCK_RUNNABLE /\ capabilities b = caps /\ Block.code b = Some code) /\
    (if multithreaded w
     then run_queue w' = run_queue w /\
          let i := Z.to_nat (next_worker w mod Z.of_nat (length (workers w))) in
          workers w' = alter (fun q => q ++ [p]) i (workers w) /\ is_Some (workers w !! i)
     else run_queue w' = run_queue w ++ [p] /\ workers w' = workers w)
  else p = PID_INVALID /\ registry w' = registry w /\ run_queue w' = run_queue w /\ workers w' = workers w.
Proof.
  intros [Hc Hm Hn Hp] Hlt. unfold scheduler_spawn_ex. cbv zeta.
  destruct (block_load_spawned (next_pid w) (string_of_bytes <$> name) limits caps code) as (B1 & B2 & B3 & B4).
  set (b := (block_load _ _).2) in *. clearbody b. simpl.
  assert (Hnext : u64 (next_pid w + 1) = next_pid w + 1) by (apply u64_small; unfold UINT64_MAX, is_u64 in *; lia).
  assert (Hnew : registry w !! next_pid w = None).
  { destruct (registry w !! next_pid w) eqn:E; [|done]. apply Hp in E. lia. }
  destruct (total_count w <? max_blocks w) eqn:El.
  2: { split_and!; try done. split; simpl; try done; rewrite ?Hnext; [lia|]. intros q c Hq. apply Hp in Hq. lia. }
  apply Z.ltb_lt in El.
  assert (Hcount : u64 (total_count w + 1) = total_count w + 1)
    by (apply u64_small; unfold UINT64_MAX, is_u64 in *; lia).
  assert (Had : forall w', registry w' = <[next_pid w := b]> (registry w) -> total_count w' = u64 (total_count w + 1) ->
    next_pid w' = u64 (next_pid w + 1) -> max_blocks w' = max_blocks w -> admitted w').
  { intros w' R C N M. split; rewrite ?R, ?C, ?N, ?M, ?Hcount, ?Hnext; [rewrite map_size_insert_None by done; lia|lia|lia|].
    intros q c. rewrite lookup_insert. case_decide; [intros [= <-]; subst q; split; [done|lia]|]. intros ?%Hp. lia. }
  unfold multithreaded. simpl. destruct (0 <? length (workers w))%nat eqn:Ew.
  - apply Nat.ltb_lt in Ew. split; [by apply Had|]. split; [done|]. split_and!; eauto.
    apply lookup_lt_is_Some_2. pose proof (Z.mod_pos_bound (next_worker w) (Z.of_nat (length (workers w)))). lia.
  - unfold scheduler_enqueue, block_state_of. simpl. rewrite lookup_insert_eq. cbn [from_option]. rewrite B2, decide_True by done.
    split; [by apply Had|]. split; [done|]. split_and!; eauto.
Qed.

(** ** What a supervisor relies on *)

(** Killing a block, whether it is alive, dead or unknown. *)
Lemma kill_exited clock w p : good w -> let w' := scheduler_kill clock w p in
  good w' /\ fixed w' = fixed w /\ (forall q, registry w !! q = None -> registry w' !! q = None) /\
  (forall q, dead_in w q -> dead_in w' q) /\ (is_Some (scheduler_get_block w p) -> dead_in w' p).
Proof.
  intros Hg. cbv zeta. unfold scheduler_kill, kill_with. destruct (scheduler_get_block w p) as [b|] eqn:Hp; [|by split_and!; [..|intros [? ?]]].
  pose proof (get_block_lookup _ _ _ Hp) as Hpb. destruct (block_is_alive b) eqn:Ha; [|by split_and!; [..|exists b]].
  fold (killed w p). pose proof (killed_lookup w p b p Hpb) as Hp1. rewrite decide_True in Hp1 by done.
  destruct (propagation_propagates clock (exit_fuel (killed w p)) ltac:(intros; apply propagate_total) (killed w p) p
    (block_crash b (Some "killed"%string))) as [K HO]; [by apply killed_good|done|done|by apply (exit_fuel_enough _ p)|].
  pose proof (o_exited _ _ _ _ _ HO) as He. fold (scheduler_propagate_exit clock (killed w p) p) in *.
  split_and!; [apply He|rewrite (ex_fixed _ _ _ He); by rewrite killed_unfold| | |].
  - intros q Hq. apply (ex_dom _ _ _ He). rewrite (killed_lookup w p b q Hpb). case_decide; [congruence|done].
  - intros q (c & Hc & Hd). eapply exited_dead; [exact He|]. unfold dead_in. rewrite (killed_lookup w p b q Hpb). case_decide; eauto.
  - intros _. eapply exited_dead; [exact He|]. unfold dead_in. rewrite Hp1. eauto.
Qed.

(** [n] identifiers are left, and the blocks have identifiers that were handed out. *)
Record numbered (n : nat) (w : Scheduler) : Prop := {
  nb_good : good w;
  nb_next : 1 <= next_pid w /\ next_pid w + Z.of_nat n < 2 ^ 64;
  nb_pids p b : registry w !! p = Some b -> p < next_pid w
}.
Definition has_room (n : nat) (w : Scheduler) : Prop := 0 <= total_count w /\ total_count w + Z.of_nat n <= max_blocks w < 2 ^ 64.

Lemma issued_below propagate w p : p ∈ @issued _ (ops_with propagate) w <-> 1 <= p < next_pid w.
Proof.
  unfold issued, ops_with. rewrite elem_of_list_to_set, list_elem_of_fmap. split.
  - intros (k & -> & Hk%elem_of_seq). lia.
  - intros Hp. exists (Z.to_nat (p - 1)). rewrite elem_of_seq. lia.
Qed.
Lemma stopped_dead propagate w q : @stopped _ (ops_with propagate) w q <-> (is_Some (scheduler_get_block w q) -> dead_in w q).
Proof.
  unfold stopped, dead_in. simpl. split.
  - intros H [b Hb]. exists b. split; [by apply get_block_lookup|by apply H].
  - intros H b Hb. destruct H as (b' & Hb' & Hd); [by exists b|]. apply get_block_lookup in Hb. congruence.
Qed.

(** Spawning while identifiers are left. *)
Lemma spawn_numbered n w code name : numbered (S n) w ->
  numbered n (scheduler_spawn w code name).2 /\ next_pid (scheduler_spawn w code name).2 = next_pid w + 1 /\
  (forall q, q <> next_pid w -> registry (scheduler_spawn w code name).2 !! q = registry w !! q) /\
  (((scheduler_spawn w code name).1 = PID_INVALID /\ max_blocks w <= total_count w) \/
   ((scheduler_spawn w code name).1 = next_pid w /\ is_Some (registry (scheduler_spawn w code name).2 !! next_pid w) /\
    max_blocks (scheduler_spawn w code name).2 = max_blocks w /\ total_count (scheduler_spawn w code name).2 = u64 (total_count w + 1))).
Proof.
  intros [[Gf Gs Gl Gc] [Hn1 Hn2] Hp]. assert (Hu : u64 (next_pid w + 1) = next_pid w + 1) by (apply u64_small; unfold is_u64; lia).
  unfold scheduler_spawn, scheduler_spawn_ex. cbv zeta. set (b := (block_load _ _).2). clearbody b. simpl. rewrite Hu.
  assert (Hbelow : forall q c, <[next_pid w := b]> (registry w) !! q = Some c -> q < next_pid w + 1).
  { intros q c [[<- _]|[_ Hc%Hp]]%lookup_insert_Some; lia. }
  destruct (total_count w <? max_blocks w) eqn:El; simpl.
  - assert (Hq : forall w1, registry w1 = <[next_pid w := b]> (registry w) -> next_pid w1 = next_pid w + 1 -> faulted w1 = faulted w ->
      store w1 = store w -> supervisors w1 = supervisors w -> max_blocks w1 = max_blocks w -> total_count w1 = u64 (total_count w + 1) ->
      numbered n (add_stats w1 1 0 0 0) /\ next_pid w1 = next_pid w + 1 /\ (forall q, q <> next_pid w -> registry w1 !! q = registry w !! q) /\
      (next_pid w = PID_INVALID /\ max_blocks w <= total_count w \/
       next_pid w = next_pid w /\ is_Some (registry w1 !! next_pid w) /\ max_blocks w1 = max_blocks w /\ total_count w1 = u64 (total_count w + 1))).
    { intros w1 R1 R2 R3 R4 R5 R6 R7. rewrite R1. split; [|split; [done|split]].
      - split; simpl; rewrite ?R1, ?R2; [split; simpl; rewrite ?R3, ?R4; try done; [|apply u64_range]|lia|done].
        intros q sup c. simpl. rewrite R5. apply Gl.
      - intros q Hq. by rewrite lookup_insert_ne.
      - right. rewrite lookup_insert_eq. eauto. }
    destruct (multithreaded _); [by apply Hq|]. unfold scheduler_enqueue. case_decide; by apply Hq.
  - apply Z.ltb_ge in El. split; [|auto]. split; [by split|simpl; lia|]. simpl. intros q c Hc%Hp. lia.
Qed.

Lemma kill_numbered clock n w p : numbered n w -> let w' := scheduler_kill clock w p in
  numbered n w' /\ next_pid w' = next_pid w /\ total_count w' = total_count w /\ max_blocks w' = max_blocks w.
Proof.
  intros [Hg Hn Hp]. destruct (kill_exited clock w p Hg) as (G & F & D & _). cbv zeta in *. injection F as _ F1 F2 F3.
  split_and!; try done. split; [done|by rewrite F2|]. intros q b Hb. rewrite F2. destruct (registry w !! q) eqn:E; [by eapply Hp|].
  apply D in E. congruence.
Qed.
Lemma kill_stays clock w p q : good w -> (is_Some (scheduler_get_block w q) -> dead_in w q) ->
  is_Some (scheduler_get_block (scheduler_kill clock w p) q) -> dead_in (scheduler_kill clock w p) q.
Proof.
  intros Hg Hq [b Hb]. destruct (kill_exited clock w p Hg) as (_ & _ & D & K & _). cbv zeta in *. apply K, Hq.
  unfold scheduler_get_block in *. destruct (q =? PID_INVALID); [done|]. destruct (registry w !! q) eqn:E; [done|]. apply D in E. congruence.
Qed.
Lemma kill_kills clock w p : good w -> is_Some (scheduler_get_block (scheduler_kill clock w p) p) -> dead_in (scheduler_kill clock w p) p.
Proof.
  intros Hg [b Hb]. destruct (kill_exited clock w p Hg) as (_ & _ & D & _ & K). cbv zeta in *. apply K.
  unfold scheduler_get_block in *. destruct (p =? PID_INVALID); [done|]. destruct (registry w !! p) eqn:E; [done|]. apply D in E. congruence.
Qed.
Lemma on_block_numbered n w p f : numbered n w -> numbered n (on_block w p f).
Proof. intros [[Gf Gs Gl Gc] Hn Hp]. split; [by split|done|]. intros q b. simpl. intros Hb. destruct (registry w !! q) eqn:E; [by eapply Hp|].
  assert (is_Some (alter f p (registry w) !! q)) as [? H]%lookup_alter_is_Some by (by eexists). congruence.
Qed.
Lemma get_on_block w p f q : scheduler_get_block (on_block w p f) q = if decide (p = q) then f <$> scheduler_get_block w q else scheduler_get_block w q.
Proof.
  unfold scheduler_get_block. simpl. destruct (q =? PID_INVALID); [by case_decide|].
  case_decide as E; [subst; apply lookup_alter_eq|by apply lookup_alter_ne].
Qed.

(** The scheduler keeps what supervisors rely on, as long as its 64-bit identifiers
    last and no supervisor has its own block as a child. *)
#[export] Instance scheduler_laws (clock : Z * Z * Z) : @SchedulerLaws Scheduler (ops_with (scheduler_propagate_exit clock)).
Proof.
  refine {| sane := numbered; roomy := has_room |}; unfold spawn, kill, update_block, get_block; cbn [ops_with].
  - intros n w [Hg Hn Hp]. split; [done|lia|done].
  - intros n w [H1 H2]. split; [done|lia].
  - intros n w code name Hs. by apply spawn_numbered.
  - intros n w p Hs. by apply (kill_numbered clock).
  - intros. by apply on_block_numbered.
  - intros n w code name Hs [R1 R2]. destruct (spawn_numbered n w code name Hs) as (_ & _ & _ & [[_ ?]|(E1 & E2 & E3 & E4)]); [lia|].
    pose proof (nb_next _ _ Hs) as Hn. assert (Hne : next_pid w =? PID_INVALID = false) by (apply Z.eqb_neq; unfold PID_INVALID; lia).
    rewrite E1. unfold scheduler_get_block. rewrite Hne. split_and!; [by apply Z.eqb_neq|done|].
    unfold has_room. rewrite E3, E4, u64_small by (unfold is_u64; lia). lia.
  - intros m n w p Hs R. destruct (kill_numbered clock m w p Hs) as (_ & _ & E1 & E2). change (has_room n (scheduler_kill clock w p)). unfold has_room. by rewrite E1, E2.
  - done.
  - intros n w code name p w' Hs E Hp. destruct (spawn_numbered n w code name Hs) as (_ & N & _ & H). rewrite E in N, H. simpl in N, H.
    pose proof (nb_next _ _ Hs). rewrite !issued_below. destruct H as [[? _]|(-> & _)]; [done|]. lia.
  - intros n w code name Hs q. destruct (spawn_numbered n w code name Hs) as (_ & N & _). rewrite !issued_below. lia.
  - intros n w p Hs q. destruct (kill_numbered clock n w p Hs) as (_ & N & _). rewrite !issued_below. fold (scheduler_kill clock w p). lia.
  - done.
  - intros n w p [Hg _ _]. apply stopped_dead. by apply kill_kills.
  - intros n w p q [Hg _ _] Hq. pose proof (proj1 (stopped_dead _ _ _) Hq) as Hq'. apply stopped_dead. by apply kill_stays.
  - intros n w code name q Hs Hi Hq. apply issued_below in Hi. pose proof (proj1 (stopped_dead _ _ _) Hq) as Hq'. apply stopped_dead.
    destruct (spawn_numbered n w code name Hs) as (_ & _ & R & _). unfold dead_in, scheduler_get_block in *. rewrite R by lia. done.
  - intros. apply get_on_block.
Defined.

(** ** The order of the run queue *)

(** From [w] to [w'] blocks were added to the run queue, none left it. *)
Definition queues (w w' : Scheduler) : Prop := run_queue w `prefix_of` run_queue w'.

#[export] Instance queues_preorder : PreOrder queues.
Proof. split; unfold queues; [intros w; done|intros w w1 w2 H1 H2; by transitivity (run_queue w1)]. Qed.

Lemma queues_same w w' : run_queue w' = run_queue w -> queues w w'.
Proof. intros H. unfold queues. by rewrite H. Qed.

Lemma enqueue_queues w p : queues w (scheduler_enqueue w p).
Proof. unfold scheduler_enqueue. case_decide; [by apply prefix_app_r|done]. Qed.

Lemma send_message_queue w t s build : run_queue (send_message w t s build).2 = run_queue w.
Proof. unfold send_message. case_match; [|done]. by repeat case_match. Qed.

Lemma send_and_wake_queues w t s build : queues w (send_and_wake w t s build).
Proof.
  unfold send_and_wake. pose proof (send_message_queue w t s build) as E. destruct (send_message w t s build) as [[|] w1]; simpl in E.
  - destruct (registry w1 !! t) as [b|]; [|by apply queues_same].
    destruct (block_try_transition b _ _) as [[|] b']; [|by apply queues_same].
    transitivity (set_registry w1 (<[t := b']> (registry w1))); [by apply queues_same|apply enqueue_queues].
  - by apply queues_same.
Qed.

Lemma crash_queue w p reason : run_queue (crash_and_unqueue w p reason) = run_queue w.
Proof. unfold crash_and_unqueue. by rewrite decide_False by (by rewrite crash_state). Qed.

Lemma notify_link_queues p ab reason code w l : queues w (notify_link p ab reason code w l).
Proof.
  unfold notify_link. case_match; [|done]. case_match; [|done]. case_match; [apply send_and_wake_queues|].
  apply queues_same. destruct ab; [apply crash_queue|done].
Qed.

Lemma notify_monitor_queues p reason code w m : queues w (notify_monitor p reason code w m).
Proof. unfold notify_monitor. case_match; [|done]. case_match; [|done]. apply send_and_wake_queues. Qed.

Lemma foldl_queues (f : Scheduler -> Z -> Scheduler) l :
  (forall w x, queues w (f w x)) -> forall w, queues w (foldl f w l).
Proof. intros Hf. induction l as [|x l IH]; intros w; simpl; [done|]. etransitivity; [apply Hf|apply IH]. Qed.

Lemma finish_block_queues w p e : queues w (finish_block w p e).
Proof.
  unfold finish_block. case_match; [|by apply queues_same].
  etransitivity; [|apply foldl_queues; intros; apply notify_monitor_queues].
  etransitivity; [|apply foldl_queues; intros; apply notify_link_queues]. by apply queues_same.
Qed.

(** ** What a program does to the system *)

(** The message is put into the mailbox of a live block; [block_send] on its own, as
    [procgroup_broadcast] and [OP_MONITOR] use it, does not wake the receiver. *)
Definition post (depth : nat) (w : Scheduler) (self target : Z) (v : ptr) : bool * Scheduler :=
  match scheduler_get_block w target with
  | None => (false, w)
  | Some b =>
      if negb (block_is_alive b) then (false, w)
      else match block_send depth (next_msg w) b self v (store w) with
           | Some ((r, b), st) => (r, set_values (set_registry w (<[target := b]> (registry w))) st (next_msg w + 1))
           | None => (false, fault w)
           end
  end.
Definition count_sent (b : Block) : Block :=
  let c := counters b in
  set_counters b (mkCounters (reductions c) (u64 (messages_sent c + 1)) (messages_received c) (gc_collections c) (gc_bytes_collected c)).
(** [OP_SEND] behind its checks of the operands. *)
Definition run_send (depth : nat) (w : Scheduler) (self target : Z) (v : ptr) : Scheduler :=
  match post depth w self target v with
  | (false, w) => w
  | (true, w) =>
      let w := on_block w self count_sent in
      if decide (block_state_of w target = BLOCK_WAITING)
      then scheduler_enqueue (on_block w target (fun b => set_state b BLOCK_RUNNABLE)) target else w
  end.
(** [OP_SPAWN] behind its checks of the operand; [code] stands for the copy of the
    function's code.  The child inherits the limits and the capabilities of the
    block, except for spawning. *)
Definition run_spawn (w : Scheduler) (self code : Z) : Z * Scheduler :=
  match registry w !! self with
  | None => (PID_INVALID, w)
  | Some b =>
      let name := bytes_of ("spawn_" +:+ pretty (next_pid w)) in
      let '(p, w) := scheduler_spawn_ex w code (Some name) (Z.land (capabilities b) (Z.lnot CAP_SPAWN)) (Some (limits b)) in
      if p =? PID_INVALID then (p, w)
      else (p, match scheduler_get_block w p with Some _ => on_block w p (fun c => set_parent c self) | None => w end)
  end.

(** The calls a program makes: messages with and without waking the receiver,
    spawning, its supervisor and its children, changes to blocks (its own state when it
    receives, links, monitors) and to the values. *)
Inductive system_call :=
  | Send (depth : nat) (target : Z) (v : ptr)
  | Post (depth : nat) (target : Z) (v : ptr)
  | Spawn (code : Z)
  | StartSupervisor (strategy : SupervisorStrategy)
  | AddChild (ok : bool) (now : Z) (name : option (list Z)) (code : Z) (restart : RestartStrategy)
  | RemoveChild (name : list Z)
  | Shutdown
  | UpdateBlock (q : Z) (f : Block -> Block)
  | SetValues (st : Store).

(** A call of block [p]; supervisor calls without a supervisor are errors of the
    program and change nothing. *)
Definition do_call (clk : Z * Z * Z) (p : Z) (w : Scheduler) (c : system_call) : Scheduler :=
  let ops := ops_with (scheduler_propagate_exit clk) in
  match c with
  | Send depth q v => run_send depth w p q v
  | Post depth q v => (post depth w p q v).2
  | Spawn code => (run_spawn w p code).2
  | StartSupervisor strategy =>
      match registry w !! p with
      | Some b => let '(b, sup) := supervisor_init_block b strategy in set_supervisor (set_registry w (<[p := b]> (registry w))) p sup
      | None => w
      end
  | AddChild ok now name code restart =>
      match supervisors w !! p with
      | Some sup => let '(_, sup, w) := @supervisor_add_child _ ops ok now sup w p name code restart in set_supervisor w p sup
      | None => w
      end
  | RemoveChild name =>
      match supervisors w !! p with
      | Some sup => let '(_, sup, w) := @supervisor_remove_child _ ops sup w name in set_supervisor w p sup
      | None => w
      end
  | Shutdown =>
      match supervisors w !! p with
      | Some sup => let '(sup, w) := @supervisor_shutdown _ ops sup w in set_supervisor w p sup
      | None => w
      end
  | UpdateBlock q f => on_block w q f
  | SetValues st => set_values w st (next_msg w)
  end.

(** A program decides on its calls and its result from the state it finds. *)
Definition Program : Type := Scheduler -> Z -> VMResult * list system_call.
#[export] Instance program_system (clk : Z * Z * Z) (program : Program) : SystemInterpreter := fun w p =>
  let '(r, calls) := program w p in (r, foldl (do_call clk p) w calls).

(** *** No call takes a block from the run queue *)

Lemma spawn_ex_queues w code name caps limits : queues w (scheduler_spawn_ex w code name caps limits).2.
Proof.
  unfold scheduler_spawn_ex. cbv zeta. destruct (_ <? _); [|by apply queues_same]. cbn [snd].
  match goal with |- queues _ (add_stats ?x _ _ _ _) => change (queues w x) end. destruct (multithreaded _); [by apply queues_same|].
  etransitivity; [|apply enqueue_queues]. by apply queues_same.
Qed.
Lemma wake_queues w p : queues w (scheduler_wake_block w p).
Proof.
  unfold scheduler_wake_block. case_match; [|done]. destruct (block_try_transition _ _ _) as [[|] b']; [|done]. cbv zeta.
  destruct (multithreaded _); [by apply queues_same|]. etransitivity; [|apply enqueue_queues]. by apply queues_same.
Qed.

(** Supervisors only use the calls of their interface. *)
Section supervisor_queues.
Context (ops : SchedulerOps Scheduler).
Context (Hspawn : forall w code name, queues w (spawn w code name).2) (Hkill : forall w p, queues w (kill w p)).
Context (Hupdate : forall w p f, queues w (update_block w p f)).

Lemma child_start_queues now c w p : queues w (child_spec_start now c w p).2.
Proof.
  unfold child_spec_start. case_match; [|done]. pose proof (Hspawn w z (cs_name c)) as Hs. destruct (spawn w z (cs_name c)) as [q w1]. simpl in Hs.
  destruct (_ =? _); [done|]. case_match; [|done]. simpl. etransitivity; [exact Hs|]. etransitivity; apply Hupdate.
Qed.
Lemma stop_queues sp cs : forall w, queues w (stop_children sp cs w).2.
Proof.
  induction cs as [|c cs IH]; intros w; simpl; [done|]. destruct (_ =? _).
  - specialize (IH w). by destruct (stop_children sp cs w).
  - specialize (IH (update_block (kill w (cs_pid c)) sp (fun b => block_unlink b (cs_pid c)))). destruct (stop_children sp cs _) as [cs' w'].
    simpl in *. etransitivity; [apply Hkill|]. etransitivity; [apply Hupdate|exact IH].
Qed.
Lemma start_queues now sp cs : forall w, queues w (start_children now sp cs w).2.
Proof.
  induction cs as [|c cs IH]; intros w; simpl; [done|]. pose proof (child_start_queues now c w sp) as H1. destruct (child_spec_start now c w sp) as [[q c'] w1].
  specialize (IH w1). destruct (start_children now sp cs w1) as [[ok cs'] w2]. simpl in *. by etransitivity.
Qed.
Lemma restart_queues now sp cs w : queues w (restart_children now sp cs w).2.
Proof.
  unfold restart_children. pose proof (stop_queues sp cs w) as H1. destruct (stop_children sp cs w) as [cs' w1]. simpl in H1.
  etransitivity; [exact H1|apply start_queues].
Qed.
Lemma handle_exit_queues t1 t2 t3 sup w sp p reason : queues w (supervisor_handle_exit t1 t2 t3 sup w sp p reason).2.
Proof.
  unfold supervisor_handle_exit. case_match; [done|]. case_match; [|done]. case_match; [|done]. cbv zeta.
  match goal with |- context[update_block w sp ?f] => pose proof (Hupdate w sp f) as Hw0; set (w0 := update_block w sp f) in * end.
  destruct (child_spec_can_restart _ _ _) as [can spec]. destruct can; simpl; [|by case_decide].
  destruct (renew_window _ _ _ _). destruct (supervisor_max_restarts_reached _); [done|]. simpl. etransitivity; [exact Hw0|]. destruct (strategy sup).
  - pose proof (child_start_queues t3 spec w0 sp) as Hw1. by destruct (child_spec_start t3 spec w0 sp) as [[q c'] w1].
  - unfold restart_all_children. simpl. pose proof (restart_queues t3 sp (<[n := spec]> (children sup)) w0) as Hw1.
    by destruct (restart_children t3 sp _ w0) as [[ok cs'] w1].
  - unfold restart_rest_for_one. simpl. pose proof (restart_queues t3 sp (drop n (<[n := spec]> (children sup))) w0) as Hw1.
    by destruct (restart_children t3 sp _ w0) as [[ok cs'] w1].
Qed.
Lemma kill_child_queues w c : queues w (kill_child w c).
Proof. unfold kill_child. by destruct (_ =? _). Qed.
Lemma add_child_queues ok now sup w p name code restart : queues w (supervisor_add_child ok now sup w p name code restart).2.
Proof.
  unfold supervisor_add_child, supervisor_add_child_ex. case_match; [|done]. cbv zeta.
  match goal with |- context[child_spec_start now ?c w p] => pose proof (child_start_queues now c w p) as H1; destruct (child_spec_start now c w p) as [[q c'] w1] end.
  by destruct (_ =? _).
Qed.
Lemma remove_child_queues sup w name : queues w (supervisor_remove_child sup w name).2.
Proof. unfold supervisor_remove_child. case_match; [|done]. simpl. case_match; [apply kill_child_queues|done]. Qed.
Lemma shutdown_queues sup w : queues w (supervisor_shutdown sup w).2.
Proof.
  unfold supervisor_shutdown. simpl. induction (children sup) as [|c cs IH]; simpl; [done|]. etransitivity; [exact IH|apply kill_child_queues].
Qed.
End supervisor_queues.

Lemma kill_with_queues propagate w p : (forall w q, queues w (propagate w q)) -> queues w (kill_with propagate w p).
Proof.
  intros Hp. unfold kill_with. case_match; [|done]. case_match; [|done]. etransitivity; [|apply Hp]. apply queues_same. apply crash_queue.
Qed.
Lemma exit_to_link_queues propagate w p l : (forall w q, queues w (propagate w q)) -> queues w (exit_to_link propagate w p l).
Proof.
  intros Hp. unfold exit_to_link. do 3 (case_match; [|done]). cbv zeta. set (w1 := on_block w l _). assert (Hw1 : queues w w1) by (by apply queues_same).
  destruct (block_has_cap _ _).
  - pose proof (send_message_queue w1 l p (exit_message p (exit_code b) (exit_reason b))) as Hw2. destruct (send_message w1 l p _) as [r w2]. simpl in Hw2.
    assert (Hw3 : queues w w2) by (etransitivity; [exact Hw1|by apply queues_same]). case_decide; [|done]. etransitivity; [exact Hw3|apply wake_queues].
  - destruct (is_abnormal b); [|done]. etransitivity; [|apply Hp]. apply queues_same. by etransitivity; [apply crash_queue|].
Qed.
Lemma propagate_queues clk fuel : forall w p i, queues w (propagate_from clk fuel w p i).
Proof.
  induction fuel as [|fuel IH]; intros w p i; simpl; [by apply queues_same|]. destruct i as [i|].
  - case_match; [|by apply queues_same]. case_match; [|done]. etransitivity; [|apply IH]. apply exit_to_link_queues. intros. apply IH.
  - etransitivity; [|apply IH]. unfold notify_supervisor. do 2 (case_match; [|done]). case_match; [done|]. case_match; [|done].
    match goal with |- context[@supervisor_handle_exit ?S ?o ?a ?b ?c ?s ?v ?x ?y ?z] =>
      set (r := @supervisor_handle_exit S o a b c s v x y z); assert (Hq : queues w r.2); [|by destruct r as [[? ?] ?]] end.
    apply handle_exit_queues; simpl; [intros; apply spawn_ex_queues|intros; apply kill_with_queues; intros; apply IH|intros; by apply queues_same].
Qed.

Lemma post_queue depth w p q v : run_queue (post depth w p q v).2 = run_queue w.
Proof. unfold post. case_match; [|done]. case_match; [done|]. by repeat case_match. Qed.
Lemma do_call_queues clk p w c : queues w (do_call clk p w c).
Proof.
  assert (Hk : forall w q, queues w (kill_with (scheduler_propagate_exit clk) w q)) by (intros; apply kill_with_queues; intros; apply propagate_queues).
  assert (Hs : forall w code name, queues w (scheduler_spawn w code name).2) by (intros; apply spawn_ex_queues).
  assert (Hu : forall w q f, queues w (on_block w q f)) by (intros; by apply queues_same).
  destruct c; simpl; try (by apply queues_same).
  - unfold run_send. pose proof (post_queue depth w p target v) as E. destruct (post depth w p target v) as [[|] w1]; simpl in E; [|by apply queues_same].
    cbv zeta. case_decide; [|by apply queues_same]. etransitivity; [|apply enqueue_queues]. by apply queues_same.
  - apply queues_same, post_queue.
  - unfold run_spawn. case_match; [|done]. cbv zeta. match goal with |- context[scheduler_spawn_ex ?a ?b ?c ?d ?e] => pose proof (spawn_ex_queues a b c d e) as Hw1;
      destruct (scheduler_spawn_ex a b c d e) as [q w1] end. simpl in Hw1. destruct (_ =? _); [done|]. by case_match.
  - case_match; [|done]. by apply queues_same.
  - case_match; [|done]. pose proof (add_child_queues (ops_with (scheduler_propagate_exit clk)) Hs Hu ok now s w p name code restart) as Hw1.
    destruct (@supervisor_add_child _ _ _ _ _ _ _ _ _ _) as [[? ?] ?]. exact Hw1.
  - case_match; [|done]. pose proof (remove_child_queues (ops_with (scheduler_propagate_exit clk)) Hk s w name) as Hw1.
    destruct (@supervisor_remove_child _ _ s w name) as [[? ?] ?]. exact Hw1.
  - case_match; [|done]. exact (shutdown_queues (ops_with (scheduler_propagate_exit clk)) Hk s w).
Qed.

(** What the run loop relies on: running a block makes blocks runnable, it takes none
    from the run queue. *)
Class SystemContract `{SystemInterpreter} : Prop :=
  run_only_queues w p : queues w (system_run w p).2.
#[export] Instance program_contract clk program : @SystemContract (program_system clk program).
Proof.
  intros w p. unfold system_run, program_system. destruct (program w p) as [r calls]. simpl. revert w.
  induction calls as [|c calls IH]; intros w; simpl; [done|]. etransitivity; [apply do_call_queues|apply IH].
Qed.

Section round_robin.
Context `{SystemContract}.

Lemma scheduler_block_run_queues w p : queues w (scheduler_block_run w p).2.
Proof.
  unfold scheduler_block_run. case_match; [|done]. destruct (block_enter _) as [[r b1]|b1]; [by apply queues_same|].
  pose proof (run_only_queues (set_registry w (<[p:=b1]> (registry w))) p) as Hq.
  destruct (system_run _ p) as [res w1]; simpl in *.
  case_match; [|done]. destruct (block_leave res _) as [r' b']. done.
Qed.

Lemma scheduler_step_serves w p q :
  run_queue w = p :: q -> (scheduler_step w).1 = true /\ q `prefix_of` run_queue (scheduler_step w).2.
Proof.
  intros Hq. unfold scheduler_step, scheduler_dequeue. rewrite Hq. cbv zeta.
  set (w0 := add_stats (set_run_queue w q) 0 0 0 1).
  pose proof (scheduler_block_run_queues w0 p) as Hr. destruct (scheduler_block_run w0 p) as [res w1]; simpl in Hr.
  split; [done|]. simpl. change q with (run_queue w0). set (w2 := add_stats w1 _ _ _ _).
  assert (Hr2 : queues w0 w2) by exact Hr.
  destruct res; simpl; try done; (etransitivity; [exact Hr2|]); first [apply finish_block_queues|apply enqueue_queues].
Qed.

(** [n] rounds of the loop of [scheduler_run]; the booleans the steps returned. *)
Fixpoint scheduler_steps (n : nat) (w : Scheduler) : list bool * Scheduler :=
  match n with
  | O => ([], w)
  | S n => let (r, w) := scheduler_step w in let (rs, w) := scheduler_steps n w in (r :: rs, w)
  end.

Lemma served_in_order w k :
  (k <= length (run_queue w))%nat ->
  let (rs, w') := scheduler_steps k w in
  rs = replicate k true /\ drop k (run_queue w) `prefix_of` run_queue w'.
Proof.
  revert w. induction k as [|k IH]; intros w Hk; simpl.
  - split; [done|]. by rewrite drop_0.
  - destruct (run_queue w) as [|p q] eqn:Hq; simpl in Hk; [lia|].
    destruct (scheduler_step_serves w p q Hq) as [Hr [e He]]. destruct (scheduler_step w) as [r w1]; simpl in *. subst r.
    specialize (IH w1). rewrite He, length_app in IH. destruct (scheduler_steps k w1) as [rs w2].
    destruct IH as [-> Hpre]; [lia|]. split; [done|]. simpl.
    transitivity (drop k (q ++ e)); [|done]. rewrite drop_app_le by lia. by apply prefix_app_r.
Qed.

Lemma scheduler_step_idle w :
  run_queue w = [] -> has_wakeable_waiting_blocks w = true -> scheduler_step w = (true, w).
Proof. intros Hq Hw. unfold scheduler_step, scheduler_dequeue. by rewrite Hq, Hw. Qed.

(** A block that is left with messages while it waits and the run queue is empty
    keeps the loop from ever ending. *)
Lemma scheduler_loop_hangs w fuel :
  run_queue w = [] -> has_wakeable_waiting_blocks w = true -> running w = true -> scheduler_loop fuel w = None.
Proof.
  intros Hq Hw Hr. induction fuel as [|fuel IH]; simpl; [done|]. by rewrite Hr, scheduler_step_idle.
Qed.

Lemma scheduler_run_hangs w fuel :
  run_queue w = [] -> has_wakeable_waiting_blocks w = true -> scheduler_run fuel w = None.
Proof. intros Hq Hw. by apply scheduler_loop_hangs. Qed.

End round_robin.

(** C28: the run loop serves the blocks of the run queue in their order, whatever the
    programs of the blocks do - a program is any choice of calls from the state it
    finds: sending, spawning, starting a supervisor, adding, removing and stopping
    its children, changing blocks and values, and a result (the calls by which
    src/src/vm/vm.c reaches the scheduler).  A block at position [k] is
    at the head after exactly [k] steps, every one of these steps returns [true] so
    the loop goes on, and the blocks behind it keep their order; blocks that become
    runnable in the meantime, and those that yield, queue behind all of them.  Killed
    blocks are not taken from the queue either. *)
Theorem scheduler_round_robin clk (program : Program) w k :
  (k <= length (run_queue w))%nat ->
  let (rs, w') := @scheduler_steps (program_system clk program) k w in
  rs = replicate k true /\ drop k (run_queue w) `prefix_of` run_queue w'.
Proof. apply (@served_in_order _ (program_contract clk program)). Qed.

(** ** Concrete systems *)

Definition sample_store : Store := mkStore ∅ 1 None.

(** [n] spawned blocks, numbered from 1. *)
Definition spawned (n : nat) : Scheduler :=
  Nat.iter n (fun w => (scheduler_spawn w 7 None).2) (scheduler_new 10 0 sample_store 100).

Definition link_both (w : Scheduler) (p q : Z) : Scheduler :=
  on_block (on_block w p (fun b => (block_link true b q).2)) q (fun b => (block_link true b p).2).

(** 1 - 2 - 3 - 4, where 3 traps exits. *)
Definition chain : Scheduler :=
  on_block (link_both (link_both (link_both (spawned 4) 1 2) 2 3) 3 4) 3 (fun b => block_grant b CAP_TRAP_EXIT).

Lemma supervisors_on_block w p f : supervisors (on_block w p f) = supervisors w.
Proof. done. Qed.

(** Block 2 was spawned by block 1 and supervises block 4. *)
Definition supervised_chain : Scheduler :=
  set_supervisor (on_block chain 2 (fun b => set_parent b 1)) 2
    (mkSupervisor SUP_ONE_FOR_ONE 5 60000 [mkChild None (Some 100) RESTART_PERMANENT 3 5000 4 0 0 0] 4 0 0 false).

Lemma good_sample w : faulted w = false -> store w = sample_store -> no_self_supervision w -> total_terminated w = 0 -> good w.
Proof.
  intros Hf Hs Hsup Hn. split; [done| |done|].
  - rewrite Hs. split; [done|]. intros p c. simpl; by rewrite lookup_empty.
  - by rewrite Hn.
Defined.
Lemma supervised_chain_good : good supervised_chain.
Proof.
  apply good_sample; [done|done| |done]. intros p sup c Hs Hc.
  assert (Hp : supervisors supervised_chain = {[2 := mkSupervisor SUP_ONE_FOR_ONE 5 60000 [mkChild None (Some 100) RESTART_PERMANENT 3 5000 4 0 0 0] 4 0 0 false]}) by reflexivity.
  rewrite Hp in Hs. apply lookup_singleton_Some in Hs as [<- <-]. by apply list_elem_of_singleton in Hc as ->.
Defined.

Lemma scheduler_kill_exact_witness : exists b, scheduler_get_block supervised_chain 1 = Some b /\
  (forall clock, exists K : gset Z, (forall q, q ∈ K <-> q = 1 \/ crashes supervised_chain 1 q) /\
     faulted (scheduler_kill clock supervised_chain 1) = false) /\
  (parent <$> registry supervised_chain !! 2) = Some 1 /\
  (state <$> registry (scheduler_kill (0, 0, 0) supervised_chain 1)) !! 2 = Some BLOCK_DEAD /\
  (state <$> registry (scheduler_kill (0, 0, 0) supervised_chain 1)) !! 3 = Some BLOCK_RUNNABLE.
Proof.
  eexists. split; [reflexivity|]. split; [|by vm_compute].
  intros clock. destruct (scheduler_kill_exact clock supervised_chain 1 _ supervised_chain_good eq_refl eq_refl)
    as (K & HK & HF & _). exists K. split; [exact HK|exact HF].
Defined.

Lemma scheduler_spawn_admits_witness :
  admitted (spawned 1) /\ (scheduler_spawn_ex (spawned 1) 7 None CAP_ALL None).1 = 2.
Proof.
  assert (Had : admitted (scheduler_new 10 0 sample_store 100)).
  { split; [reflexivity|split; intros ?; discriminate|intros ?; discriminate|].
    intros p b H. simpl in H. rewrite lookup_empty in H. discriminate H. }
  pose proof (scheduler_spawn_admits (scheduler_new 10 0 sample_store 100) 7 None CAP_NONE None Had eq_refl) as [Had1 _].
  split; [exact Had1|vm_compute; reflexivity].
Defined.

(** Every block uses up its reductions. *)
Definition yielding_system : SystemInterpreter := fun w p => (VM_YIELD, w).

(** Block 1 spawns a block and yields, the others wait. *)
Definition spawning_program : Program := fun w p =>
  if p =? 1 then (VM_YIELD, [Spawn 7]) else (VM_WAITING, [UpdateBlock p (fun b => set_state b BLOCK_WAITING)]).

Lemma scheduler_round_robin_witness :
  let (rs, w') := @scheduler_steps (program_system (0, 0, 0) spawning_program) 2 (spawned 3) in
  rs = [true; true] /\ run_queue w' = [3; 4; 1] /\ drop 2 (run_queue (spawned 3)) `prefix_of` run_queue w'.
Proof.
  pose proof (scheduler_round_robin (0, 0, 0) spawning_program (spawned 3) 2 ltac:(vm_compute; lia)) as H.
  assert (E : run_queue (@scheduler_steps (program_system (0, 0, 0) spawning_program) 2 (spawned 3)).2 = [3; 4; 1]) by (by vm_compute).
  destruct (@scheduler_steps (program_system (0, 0, 0) spawning_program) 2 (spawned 3)) as [rs w']. destruct H as [-> Hp].
  split; [reflexivity|]. split; [exact E|exact Hp].
Defined.

(** ** What killed and crashed blocks leave behind *)

(** Every block ends with an error. *)
Definition failing_system : SystemInterpreter := fun w p => (VM_ERROR_RUNTIME, w).
(** Every block waits for a message. *)
Definition waiting_system : SystemInterpreter := fun w p =>
  (VM_WAITING, on_block w p (fun b => set_state b BLOCK_WAITING)).

Definition states (w : Scheduler) (ps : list Z) : list (option BlockState) := (fun p => state <$> registry w !! p) <$> ps.

(** 1 - 2 - 3, none of which traps exits. *)
Definition trio : Scheduler := link_both (link_both (spawned 3) 1 2) 2 3.

(** The two ways a block can crash disagree.  Killing the first of three
    linked blocks crashes all three.  The same block failing inside
    [scheduler_step] crashes its neighbour only; the neighbour stays in the run
    queue, is served as if it had halted, and the third block, whose link it
    removes, runs on.  A killed block also stays in the run queue, so that it is
    counted as terminated a second time when it is served. *)
Theorem scheduler_exits_disagree :
  states (scheduler_kill (0, 0, 0) trio 1) [1; 2; 3] = [Some BLOCK_DEAD; Some BLOCK_DEAD; Some BLOCK_DEAD] /\
  (let w1 := (@scheduler_step failing_system trio).2 in
   let w2 := (@scheduler_step failing_system w1).2 in
   run_queue w1 = [2; 3] /\
   states w2 [1; 2; 3] = [Some BLOCK_DEAD; Some BLOCK_DEAD; Some BLOCK_RUNNABLE] /\
   (block_get_links <$> registry w2 !! 3) = Some []) /\
  (let w1 := scheduler_kill (0, 0, 0) (spawned 1) 1 in
   let w2 := (@scheduler_step yielding_system w1).2 in
   run_queue w1 = [1] /\ total_spawned w2 = 1 /\ total_terminated w1 = 1 /\ total_terminated w2 = 2).
Proof. vm_compute. repeat split.  Qed.

(** A block that waits, and a message that is sent to it without a wake-up, as
    [procgroup_broadcast] sends its messages. *)
Definition unwoken : Scheduler :=
  (send_message (@scheduler_step waiting_system (spawned 1)).2 1 1 (step_message "info" 1 "news" 0)).2.

(** After a message that does not wake its receiver, the run loop neither
    serves the receiver nor ends: [scheduler_step] finds the run queue empty and
    the waiting block with its message, returns [true] and changes nothing. *)
Theorem scheduler_run_livelock fuel :
  states unwoken [1] = [Some BLOCK_WAITING] /\ faulted unwoken = false /\
  @scheduler_step waiting_system unwoken = (true, unwoken) /\
  @scheduler_run waiting_system fuel unwoken = None.
Proof.
  assert (E : run_queue unwoken = [] /\ has_wakeable_waiting_blocks unwoken = true /\
    states unwoken [1] = [Some BLOCK_WAITING] /\ faulted unwoken = false) by (vm_compute; repeat split).
  destruct E as (Eq & Ew & Es & Ef). split; [exact Es|]. split; [exact Ef|]. split.
  - apply (@scheduler_step_idle waiting_system); [exact Eq|exact Ew].
  - apply (@scheduler_run_hangs waiting_system); [exact Eq|exact Ew].
Qed.
