(* ===== verification/Lexer.v ===== *)
(** * The lexer (src/lang/lexer.c, src/lang/token.h)

    A pointer into the source is the rest of the source from there on; the
    terminating zero is the end of the list.  [overrun] is set when a character is
    read behind it.  Error tokens carry their message, as in the code. *)

From Stdlib Require Import ZArith Lia String Ascii.
From stdpp Require Import base list numbers strings.
From S2P Require Import Prelude Hash.
Local Open Scope Z_scope.

Inductive TokenType :=
  | TOK_INT | TOK_FLOAT | TOK_STRING | TOK_TRUE | TOK_FALSE | TOK_NIL | TOK_IDENT | TOK_TOOL | TOK_FN
  | TOK_LET | TOK_MUT | TOK_CONST | TOK_IF | TOK_ELSE | TOK_FOR | TOK_WHILE | TOK_IN | TOK_RETURN | TOK_BREAK
  | TOK_CONTINUE | TOK_AND | TOK_OR | TOK_NOT | TOK_IMPORT | TOK_FROM | TOK_EXPORT | TOK_MATCH | TOK_OK
  | TOK_ERR | TOK_TRY | TOK_STRUCT | TOK_ENUM | TOK_ALIAS | TOK_SOME | TOK_NONE | TOK_TYPE_INT
  | TOK_TYPE_FLOAT | TOK_TYPE_STRING | TOK_TYPE_BOOL | TOK_TYPE_VOID | TOK_TYPE_BYTES | TOK_TYPE_OPTION
  | TOK_TYPE_RESULT | TOK_TYPE_MAP | TOK_TYPE_PID | TOK_PLUS | TOK_MINUS | TOK_STAR | TOK_SLASH | TOK_PERCENT
  | TOK_EQ | TOK_NE | TOK_LT | TOK_LE | TOK_GT | TOK_GE | TOK_ASSIGN | TOK_PLUS_ASSIGN | TOK_MINUS_ASSIGN
  | TOK_STAR_ASSIGN | TOK_SLASH_ASSIGN | TOK_LPAREN | TOK_RPAREN | TOK_LBRACE | TOK_RBRACE | TOK_LBRACKET
  | TOK_RBRACKET | TOK_COMMA | TOK_DOT | TOK_COLON | TOK_COLON_COLON | TOK_ARROW | TOK_QUESTION | TOK_RANGE
  | TOK_RANGE_INCL | TOK_SPREAD | TOK_AT | TOK_FAT_ARROW | TOK_SEMICOLON | TOK_NEWLINE | TOK_EOF | TOK_ERROR.

#[global] Instance TokenType_eq_dec : EqDecision TokenType.
Proof. solve_decision. Defined.

Definition ch (c : ascii) : Z := Z.of_nat (nat_of_ascii c).
Definition chars (s : string) : list Z := ch <$> String.list_ascii_of_string s.

(** A token's text is that from [start] on, [length] characters long. *)
Record Token := mkToken { type : TokenType; text : list Z; tok_line : Z; tok_column : Z }.

Definition keywords : list (string * TokenType) := [
  ("tool"%string, TOK_TOOL); ("fn"%string, TOK_FN); ("let"%string, TOK_LET); ("mut"%string, TOK_MUT);
  ("const"%string, TOK_CONST); ("if"%string, TOK_IF); ("else"%string, TOK_ELSE); ("for"%string, TOK_FOR);
  ("while"%string, TOK_WHILE); ("in"%string, TOK_IN); ("return"%string, TOK_RETURN);
  ("break"%string, TOK_BREAK); ("continue"%string, TOK_CONTINUE); ("true"%string, TOK_TRUE);
  ("false"%string, TOK_FALSE); ("nil"%string, TOK_NIL); ("and"%string, TOK_AND); ("or"%string, TOK_OR);
  ("not"%string, TOK_NOT); ("import"%string, TOK_IMPORT); ("from"%string, TOK_FROM);
  ("export"%string, TOK_EXPORT); ("match"%string, TOK_MATCH); ("ok"%string, TOK_OK); ("err"%string, TOK_ERR);
  ("try"%string, TOK_TRY); ("struct"%string, TOK_STRUCT); ("enum"%string, TOK_ENUM);
  ("alias"%string, TOK_ALIAS); ("some"%string, TOK_SOME); ("none"%string, TOK_NONE);
  ("int"%string, TOK_TYPE_INT); ("float"%string, TOK_TYPE_FLOAT); ("string"%string, TOK_TYPE_STRING);
  ("bool"%string, TOK_TYPE_BOOL); ("void"%string, TOK_TYPE_VOID); ("bytes"%string, TOK_TYPE_BYTES);
  ("Option"%string, TOK_TYPE_OPTION); ("Result"%string, TOK_TYPE_RESULT); ("map"%string, TOK_TYPE_MAP);
  ("Pid"%string, TOK_TYPE_PID)].

Definition token_type_name (t : TokenType) : string :=
  match t with
  | TOK_INT => "INT" | TOK_FLOAT => "FLOAT" | TOK_STRING => "STRING" | TOK_TRUE => "TRUE"
  | TOK_FALSE => "FALSE" | TOK_NIL => "NIL" | TOK_IDENT => "IDENT" | TOK_TOOL => "TOOL" | TOK_FN => "FN"
  | TOK_LET => "LET" | TOK_MUT => "MUT" | TOK_CONST => "CONST" | TOK_IF => "IF" | TOK_ELSE => "ELSE"
  | TOK_FOR => "FOR" | TOK_WHILE => "WHILE" | TOK_IN => "IN" | TOK_RETURN => "RETURN" | TOK_BREAK => "BREAK"
  | TOK_CONTINUE => "CONTINUE" | TOK_AND => "AND" | TOK_OR => "OR" | TOK_NOT => "NOT"
  | TOK_IMPORT => "IMPORT" | TOK_FROM => "FROM" | TOK_EXPORT => "EXPORT" | TOK_MATCH => "MATCH"
  | TOK_OK => "OK" | TOK_ERR => "ERR" | TOK_TRY => "TRY" | TOK_STRUCT => "STRUCT" | TOK_ENUM => "ENUM"
  | TOK_ALIAS => "ALIAS" | TOK_SOME => "SOME" | TOK_NONE => "NONE" | TOK_TYPE_INT => "TYPE_INT"
  | TOK_TYPE_FLOAT => "TYPE_FLOAT" | TOK_TYPE_STRING => "TYPE_STRING" | TOK_TYPE_BOOL => "TYPE_BOOL"
  | TOK_TYPE_VOID => "TYPE_VOID" | TOK_TYPE_BYTES => "TYPE_BYTES" | TOK_TYPE_OPTION => "TYPE_OPTION"
  | TOK_TYPE_RESULT => "TYPE_RESULT" | TOK_TYPE_MAP => "TYPE_MAP" | TOK_TYPE_PID => "TYPE_PID"
  | TOK_PLUS => "PLUS" | TOK_MINUS => "MINUS" | TOK_STAR => "STAR" | TOK_SLASH => "SLASH"
  | TOK_PERCENT => "PERCENT" | TOK_EQ => "EQ" | TOK_NE => "NE" | TOK_LT => "LT" | TOK_LE => "LE"
  | TOK_GT => "GT" | TOK_GE => "GE" | TOK_ASSIGN => "ASSIGN" | TOK_PLUS_ASSIGN => "PLUS_ASSIGN"
  | TOK_MINUS_ASSIGN => "MINUS_ASSIGN" | TOK_STAR_ASSIGN => "STAR_ASSIGN"
  | TOK_SLASH_ASSIGN => "SLASH_ASSIGN" | TOK_LPAREN => "LPAREN" | TOK_RPAREN => "RPAREN"
  | TOK_LBRACE => "LBRACE" | TOK_RBRACE => "RBRACE" | TOK_LBRACKET => "LBRACKET" | TOK_RBRACKET => "RBRACKET"
  | TOK_COMMA => "COMMA" | TOK_DOT => "DOT" | TOK_COLON => "COLON" | TOK_COLON_COLON => "COLON_COLON"
  | TOK_ARROW => "ARROW" | TOK_QUESTION => "QUESTION" | TOK_RANGE => "RANGE" | TOK_RANGE_INCL => "RANGE_INCL"
  | TOK_SPREAD => "SPREAD" | TOK_AT => "AT" | TOK_FAT_ARROW => "FAT_ARROW" | TOK_SEMICOLON => "SEMICOLON"
  | TOK_NEWLINE => "NEWLINE" | TOK_EOF => "EOF" | TOK_ERROR => "ERROR"
  end.

(** ** The lexer and its characters *)

Record Lexer := mkLexer {
  start : list Z;
  current : list Z;
  line : Z;
  column : Z;
  start_column : Z;
  peeked : option Token;     (** [peeked], when [has_peeked] *)
  overrun : bool
}.

Definition lexer_new (source : list Z) : Lexer := mkLexer source source 1 1 1 None false.
Definition lexer_line (lx : Lexer) : Z := line lx.
Definition lexer_column (lx : Lexer) : Z := column lx.

Definition set_peeked (lx : Lexer) (t : option Token) : Lexer :=
  mkLexer (start lx) (current lx) (line lx) (column lx) (start_column lx) t (overrun lx).
Definition set_position (lx : Lexer) (l c : Z) : Lexer :=
  mkLexer (start lx) (current lx) l c (start_column lx) (peeked lx) (overrun lx).
Definition begin_token (lx : Lexer) : Lexer :=
  mkLexer (current lx) (current lx) (line lx) (column lx) (column lx) (peeked lx) (overrun lx).

Definition peek_char (lx : Lexer) : Z := default 0 (head (current lx)).
Definition is_at_end (lx : Lexer) : bool := peek_char lx =? 0.
Definition peek_next (lx : Lexer) : Z :=
  if is_at_end lx then 0 else default 0 (head (tail (current lx))).

Definition advance (lx : Lexer) : Z * Lexer :=
  (peek_char lx,
   mkLexer (start lx) (tail (current lx)) (line lx) (column lx + 1) (start_column lx) (peeked lx)
     (overrun lx || is_at_end lx)).
Definition skip (lx : Lexer) : Lexer := (advance lx).2.

Definition lex_match (lx : Lexer) (expected : Z) : bool * Lexer :=
  if is_at_end lx then (false, lx)
  else if peek_char lx =? expected then (true, skip lx) else (false, lx).

(** ** Tokens *)

Definition token_text (lx : Lexer) : list Z := take (length (start lx) - length (current lx)) (start lx).

Definition make_token (lx : Lexer) (t : TokenType) : Token := mkToken t (token_text lx) (line lx) (start_column lx).
Definition error_token (lx : Lexer) (message : string) : Token :=
  mkToken TOK_ERROR (chars message) (line lx) (start_column lx).

(** ** White space and comments *)

(** The loops advance by at least one character a round: [length (current lx)]
    rounds are enough, see [skip_while_stops]. *)
Fixpoint skip_while (fuel : nat) (p : Z -> bool) (lx : Lexer) : Lexer :=
  match fuel with
  | O => lx
  | S fuel => if p (peek_char lx) then skip_while fuel p (skip lx) else lx
  end.
Definition skip_chars (p : Z -> bool) (lx : Lexer) : Lexer := skip_while (length (current lx)) p lx.

Definition newline : Z := 10.
Definition next_line (lx : Lexer) : Lexer :=
  if peek_char lx =? newline then set_position lx (line lx + 1) 0 else lx.

Fixpoint skip_block_comment (fuel : nat) (lx : Lexer) : Lexer :=
  match fuel with
  | O => lx
  | S fuel =>
      if is_at_end lx then lx
      else if (peek_char lx =? ch "*") && (peek_next lx =? ch "/") then skip (skip lx)
      else skip_block_comment fuel (skip (next_line lx))
  end.

Fixpoint skip_whitespace_loop (fuel : nat) (lx : Lexer) : Lexer :=
  match fuel with
  | O => lx
  | S fuel =>
      let c := peek_char lx in
      if (c =? ch " ") || (c =? 9) || (c =? 13) then skip_whitespace_loop fuel (skip lx)
      else if c =? ch "/" then
        if peek_next lx =? ch "/" then
          skip_whitespace_loop fuel (skip_chars (fun c => negb (c =? newline) && negb (c =? 0)) lx)
        else if peek_next lx =? ch "*" then
          let lx := skip (skip lx) in
          skip_whitespace_loop fuel (skip_block_comment (length (current lx)) lx)
        else lx
      else lx
  end.
Definition skip_whitespace (lx : Lexer) : Lexer := skip_whitespace_loop (length (current lx)) lx.

(** ** Numbers, strings, identifiers *)

Definition isdigit (c : Z) : bool := (48 <=? c) && (c <=? 57).
Definition digit_or_underscore (c : Z) : bool := isdigit c || (c =? ch "_").

(** The digits behind the point, if any; the flag is [is_float]. *)
Definition scan_fraction (lx : Lexer) : bool * Lexer :=
  if (peek_char lx =? ch ".") && isdigit (peek_next lx)
  then (true, skip_chars digit_or_underscore (skip lx)) else (false, lx).

Definition scan_sign (lx : Lexer) : Lexer :=
  if (peek_char lx =? ch "+") || (peek_char lx =? ch "-") then skip lx else lx.

Definition scan_exponent (r : bool * Lexer) : bool * Lexer :=
  let (is_float, lx) := r in
  if (peek_char lx =? ch "e") || (peek_char lx =? ch "E")
  then (true, skip_chars isdigit (scan_sign (skip lx))) else (is_float, lx).

Definition scan_number (lx : Lexer) : Token * Lexer :=
  let (is_float, lx) := scan_exponent (scan_fraction (skip_chars digit_or_underscore lx)) in
  (make_token lx (if is_float then TOK_FLOAT else TOK_INT), lx).

Definition quote : Z := 34.
Definition backslash : Z := 92.

Fixpoint skip_string (fuel : nat) (lx : Lexer) : Lexer :=
  match fuel with
  | O => lx
  | S fuel =>
      if negb (peek_char lx =? quote) && negb (is_at_end lx) then
        let lx := next_line lx in
        let lx := if (peek_char lx =? backslash) && negb (peek_next lx =? 0) then skip lx else lx in
        skip_string fuel (skip lx)
      else lx
  end.

Definition scan_string (lx : Lexer) : Token * Lexer :=
  let lx := skip_string (length (current lx)) lx in
  if is_at_end lx then (error_token lx "unterminated string", lx)
  else let lx := skip lx in (make_token lx TOK_STRING, lx).

Definition is_alpha (c : Z) : bool :=
  ((97 <=? c) && (c <=? 122)) || ((65 <=? c) && (c <=? 90)) || (c =? ch "_").
Definition is_alnum (c : Z) : bool := is_alpha c || isdigit c.

Fixpoint find_keyword (ks : list (string * TokenType)) (name : list Z) : TokenType :=
  match ks with
  | [] => TOK_IDENT
  | (k, t) :: ks => if decide (chars k = name) then t else find_keyword ks name
  end.
Definition check_keyword (lx : Lexer) : TokenType := find_keyword keywords (token_text lx).

Definition scan_identifier (lx : Lexer) : Token * Lexer :=
  let lx := skip_chars is_alnum lx in (make_token lx (check_keyword lx), lx).

(** ** The main function *)

Definition one (lx : Lexer) (t : TokenType) : Token * Lexer := (make_token lx t, lx).

(** [match(lexer, c) ? yes : no]. *)
Definition either (lx : Lexer) (c : Z) (yes no : TokenType) : Token * Lexer :=
  let (r, lx) := lex_match lx c in one lx (if r then yes else no).

(** The [switch] on the first character [c], already read. *)
Definition scan_operator (c : Z) (lx : Lexer) : Token * Lexer :=
  if c =? newline then one (set_position lx (line lx + 1) 1) TOK_NEWLINE
  else if c =? ch "(" then one lx TOK_LPAREN
  else if c =? ch ")" then one lx TOK_RPAREN
  else if c =? ch "{" then one lx TOK_LBRACE
  else if c =? ch "}" then one lx TOK_RBRACE
  else if c =? ch "[" then one lx TOK_LBRACKET
  else if c =? ch "]" then one lx TOK_RBRACKET
  else if c =? ch "," then one lx TOK_COMMA
  else if c =? ch ":" then either lx (ch ":") TOK_COLON_COLON TOK_COLON
  else if c =? ch "?" then one lx TOK_QUESTION
  else if c =? ch "%" then one lx TOK_PERCENT
  else if c =? ch "+" then either lx (ch "=") TOK_PLUS_ASSIGN TOK_PLUS
  else if c =? ch "-" then
    let (r, lx) := lex_match lx (ch ">") in
    if r then one lx TOK_ARROW else either lx (ch "=") TOK_MINUS_ASSIGN TOK_MINUS
  else if c =? ch "*" then either lx (ch "=") TOK_STAR_ASSIGN TOK_STAR
  else if c =? ch "/" then either lx (ch "=") TOK_SLASH_ASSIGN TOK_SLASH
  else if c =? ch "=" then
    let (r, lx) := lex_match lx (ch "=") in
    if r then one lx TOK_EQ else either lx (ch ">") TOK_FAT_ARROW TOK_ASSIGN
  else if c =? ch "!" then either lx (ch "=") TOK_NE TOK_NOT
  else if c =? ch "<" then either lx (ch "=") TOK_LE TOK_LT
  else if c =? ch ">" then either lx (ch "=") TOK_GE TOK_GT
  else if c =? ch "." then
    let (r, lx) := lex_match lx (ch ".") in
    if r then
      let (r, lx) := lex_match lx (ch ".") in
      if r then one lx TOK_SPREAD else either lx (ch "=") TOK_RANGE_INCL TOK_RANGE
    else one lx TOK_DOT
  else if c =? ch ";" then one lx TOK_SEMICOLON
  else if c =? quote then scan_string lx
  else if c =? ch "@" then one lx TOK_AT
  else (error_token lx "unexpected character", lx).

Definition scan_token (lx : Lexer) : Token * Lexer :=
  let lx := begin_token (skip_whitespace lx) in
  if is_at_end lx then one lx TOK_EOF
  else
    let (c, lx) := advance lx in
    if is_alpha c then scan_identifier lx
    else if isdigit c then scan_number lx
    else scan_operator c lx.

Definition lexer_next (lx : Lexer) : Token * Lexer :=
  match peeked lx with
  | Some t => (t, set_peeked lx None)
  | None => scan_token lx
  end.

Definition lexer_peek (lx : Lexer) : Token * Lexer :=
  match peeked lx with
  | Some t => (t, lx)
  | None => let (t, lx) := scan_token lx in (t, set_peeked lx (Some t))
  end.

(** All tokens up to the end of the source. *)
Fixpoint lex (fuel : nat) (lx : Lexer) : list Token :=
  match fuel with
  | O => []
  | S fuel => let (t, lx) := lexer_next lx in
              if decide (type t = TOK_EOF) then [t] else t :: lex fuel lx
  end.
Definition tokens (source : list Z) : list Token := lex (S (length source)) (lexer_new source).

Example lex1 : (fun t => (type t, tok_line t, tok_column t)) <$> tokens (chars "let x1 = 1_0.5e+3 // c"%string) =
  [(TOK_LET, 1, 1); (TOK_IDENT, 1, 5); (TOK_ASSIGN, 1, 8); (TOK_FLOAT, 1, 10); (TOK_EOF, 1, 23)].
Proof. reflexivity. Qed.

(** ** Consuming characters *)

(** Line and column behind a character. *)
Definition pos_after (p : Z * Z) (c : Z) : Z * Z := if c =? newline then (p.1 + 1, 1) else (p.1, p.2 + 1).
Definition position (lx : Lexer) : Z * Z := (line lx, column lx).

(** A line break behind a backslash. *)
Definition escaped (s : list Z) : Prop := exists a b, s = a ++ [backslash; newline] ++ b.

(** From [lx] to [lx'] the characters [s] were read. *)
Record steps (lx : Lexer) (s : list Z) (lx' : Lexer) : Prop := {
  st_current : current lx = s ++ current lx';
  st_start : start lx' = start lx;
  st_column : start_column lx' = start_column lx;
  st_peeked : peeked lx' = peeked lx;
  st_overrun : overrun lx' = overrun lx;
  st_position : escaped s \/ position lx' = foldl pos_after (position lx) s
}.

Lemma escaped_app s1 s2 : escaped s1 \/ escaped s2 -> escaped (s1 ++ s2).
Proof.
  intros [(a & b & ->)|(a & b & ->)].
  - exists a, (b ++ s2). by rewrite <- !(assoc_L (++)).
  - exists (s1 ++ a), b. by rewrite <- !(assoc_L (++)).
Qed.

Lemma steps_refl lx : steps lx [] lx.
Proof. split; try done. by right. Qed.

Lemma steps_trans lx s1 lx1 s2 lx2 : steps lx s1 lx1 -> steps lx1 s2 lx2 -> steps lx (s1 ++ s2) lx2.
Proof.
  intros [A1 A2 A3 A4 A5 A6] [B1 B2 B3 B4 B5 B6]. split; try congruence.
  - by rewrite A1, B1, (assoc_L (++)).
  - destruct A6 as [?|A6]; [left; apply escaped_app; auto|]. destruct B6 as [?|B6]; [left; apply escaped_app; auto|].
    right. by rewrite foldl_app, B6, A6.
Qed.

Lemma steps_cons lx c lx1 s lx2 : steps lx [c] lx1 -> steps lx1 s lx2 -> steps lx (c :: s) lx2.
Proof. apply (steps_trans lx [c]). Qed.

Lemma steps_text lx s lx' : steps lx s lx' -> is_cstr (current lx) -> is_cstr s /\ is_cstr (current lx').
Proof. intros H Ht. rewrite (st_current _ _ _ H) in Ht. by apply Forall_app in Ht. Qed.

Lemma steps_length lx s lx' : steps lx s lx' -> length (current lx) = (length s + length (current lx'))%nat.
Proof. intros H. by rewrite (st_current _ _ _ H), length_app. Qed.

Lemma peek_cons lx c r : current lx = c :: r -> peek_char lx = c.
Proof. unfold peek_char. by intros ->. Qed.

Lemma peek_nil lx : current lx = [] -> peek_char lx = 0.
Proof. unfold peek_char. by intros ->. Qed.

Lemma next_cons lx c d r : current lx = c :: d :: r -> c <> 0 -> peek_next lx = d.
Proof. intros H Hc. unfold peek_next, is_at_end. rewrite (peek_cons _ _ _ H), H. by rewrite (proj2 (Z.eqb_neq _ _) Hc). Qed.

Lemma at_end_spec lx : is_cstr (current lx) -> is_at_end lx = bool_decide (current lx = []).
Proof.
  intros Ht. unfold is_at_end, peek_char. destruct (current lx) as [|c r]; [done|].
  apply Forall_cons_1 in Ht as [? _]. rewrite bool_decide_eq_false_2 by done. apply Z.eqb_neq. simpl. lia.
Qed.

Lemma skip_steps lx c r : current lx = c :: r -> c <> 0 -> c <> newline -> steps lx [c] (skip lx).
Proof.
  intros H Hc Hn. split; simpl; try done.
  - by rewrite H.
  - unfold is_at_end. rewrite (peek_cons _ _ _ H), (proj2 (Z.eqb_neq _ _) Hc). apply orb_false_r.
  - right. unfold position, pos_after. simpl. by rewrite (proj2 (Z.eqb_neq _ _) Hn).
Qed.

Lemma skip2_steps lx c d r :
  current lx = c :: d :: r -> c <> 0 -> d <> 0 -> c <> newline -> d <> newline -> steps lx [c; d] (skip (skip lx)).
Proof.
  intros H ????. eapply steps_cons; [by apply skip_steps with (d :: r)|]. apply skip_steps with r; [|done..].
  simpl. by rewrite H.
Qed.

Lemma skip_line_steps lx c r : current lx = c :: r -> c <> 0 -> steps lx [c] (skip (next_line lx)).
Proof.
  intros H Hc. unfold next_line. rewrite (peek_cons _ _ _ H). destruct (c =? newline) eqn:E.
  - apply Z.eqb_eq in E as ->. split; simpl; try done; [by rewrite H| |by right].
    unfold is_at_end, peek_char. simpl. rewrite H. apply orb_false_r.
  - apply skip_steps with r; [done|done|]. by apply Z.eqb_neq.
Qed.

Lemma skip_while_steps p fuel : p newline = false -> forall lx,
  is_cstr (current lx) -> (length (current lx) <= fuel)%nat -> p 0 = false ->
  exists s, steps lx s (skip_while fuel p lx) /\ Forall (fun c => p c = true) s /\ p (peek_char (skip_while fuel p lx)) = false.
Proof.
  intros Hp. induction fuel as [|fuel IH]; intros lx Ht Hl Hp0; simpl.
  - exists []. destruct (current lx) eqn:E; [|simpl in Hl; lia]. split_and!; [apply steps_refl|done|by rewrite peek_nil].
  - destruct (p (peek_char lx)) eqn:Ep.
    + destruct (current lx) as [|c r] eqn:E; [rewrite peek_nil in Ep by done; congruence|].
      rewrite (peek_cons _ _ _ E) in Ep. pose proof Ht as Ht0. apply Forall_cons_1 in Ht0 as [Hc Hr].
      assert (S1 : steps lx [c] (skip lx)) by (apply skip_steps with r; [done|lia|intros ->; congruence]).
      destruct (IH (skip lx)) as (s & S2 & Hs & Hn).
      * simpl. by rewrite E.
      * simpl. rewrite E. simpl in *. lia.
      * done.
      * exists (c :: s). split_and!; [by eapply steps_cons|by constructor|done].
    + exists []. split_and!; [apply steps_refl|done|done].
Qed.

Lemma skip_chars_steps p lx :
  p newline = false -> p 0 = false -> is_cstr (current lx) ->
  exists s, steps lx s (skip_chars p lx) /\ Forall (fun c => p c = true) s /\ p (peek_char (skip_chars p lx)) = false.
Proof. intros. by apply skip_while_steps. Qed.

(** *** White space and comments *)

Definition blank (c : Z) : Prop := c = ch " " \/ c = 9 \/ c = 13.

Definition closes (body : list Z) : Prop := exists a b, body = a ++ chars "*/" ++ b.

(** What stands between tokens; an open comment runs to the end. *)
Inductive Trivia : list Z -> Prop :=
  | T_nil : Trivia []
  | T_blank c s : blank c -> Trivia s -> Trivia (c :: s)
  | T_line body s : Forall (fun c => c <> newline) body -> Trivia s -> Trivia (chars "//" ++ body ++ s)
  | T_block body s : ~ closes body -> Trivia s -> Trivia (chars "/*" ++ body ++ chars "*/" ++ s)
  | T_open body : ~ closes body -> Trivia (chars "/*" ++ body).

Lemma next_Some lx c : is_cstr (current lx) -> peek_next lx = c -> c <> 0 ->
  exists d r, current lx = d :: c :: r.
Proof.
  intros Ht. unfold peek_next. rewrite at_end_spec by done. case_bool_decide as E; [congruence|].
  destruct (current lx) as [|d [|e r]]; simpl; try congruence. intros -> _. by exists d, r.
Qed.

Lemma closes_nil : ~ closes [].
Proof. intros ([|] & b & ?); done. Qed.

Lemma closes_cons c body : closes (c :: body) -> closes body \/ (c = ch "*" /\ head body = Some (ch "/")).
Proof.
  intros ([|d a] & b & E); simpl in E.
  - right. by injection E as -> ->.
  - left. exists a, b. by injection E.
Qed.

Lemma skip_block_comment_steps fuel : forall lx,
  is_cstr (current lx) -> (length (current lx) <= fuel)%nat ->
  exists body, ~ closes body /\ let lx' := skip_block_comment fuel lx in
    (current lx' = [] /\ steps lx body lx') \/ steps lx (body ++ chars "*/") lx'.
Proof.
  induction fuel as [|fuel IH]; intros lx Ht Hl; simpl.
  - destruct (current lx) eqn:E; [|simpl in Hl; lia]. exists []. split; [apply closes_nil|]. left.
    split; [done|apply steps_refl].
  - rewrite at_end_spec by done. destruct (current lx) as [|c r] eqn:E; [rewrite bool_decide_eq_true_2 by done|].
    { exists []. split; [apply closes_nil|]. left. split; [done|apply steps_refl]. }
    rewrite bool_decide_eq_false_2 by done. pose proof Ht as Ht0. apply Forall_cons_1 in Ht0 as [Hc Hr].
    rewrite (peek_cons _ _ _ E). destruct ((c =? ch "*") && (peek_next lx =? ch "/")) eqn:Ep.
    + apply andb_prop in Ep as [->%Z.eqb_eq Hn%Z.eqb_eq]. rewrite <- E in Ht.
      destruct (next_Some _ _ Ht Hn ltac:(done)) as (d & r' & E'). rewrite E' in E. injection E as -> <-.
      exists []. split; [apply closes_nil|]. right. by apply skip2_steps with r'.
    + pose proof (skip_line_steps lx c r E ltac:(lia)) as S1.
      destruct (IH (skip (next_line lx))) as (body & Hcl & HS).
      * by apply (steps_text _ _ _ S1); rewrite E.
      * apply steps_length in S1. rewrite E in S1. simpl in *. lia.
      * exists (c :: body). split.
        -- intros [?|[-> Hh]]%closes_cons; [done|]. destruct body as [|d body]; [done|]. injection Hh as ->.
           assert (Er : exists r', r = ch "/" :: r').
           { apply st_current in S1. rewrite E in S1. injection S1 as S1.
             destruct HS as [[_ HS]|HS]; apply st_current in HS; simpl in HS; rewrite <- S1 in HS; rewrite HS; by eexists. }
           destruct Er as [r' ->]. by rewrite (next_cons _ _ _ _ E) in Ep.
        -- destruct HS as [[? S2]|S2]; [left; split; [done|]|right]; by eapply steps_cons.
Qed.

(** A token starts here, or the end is reached. *)
Definition token_start (lx : Lexer) : Prop :=
  ~ blank (peek_char lx) /\ ~ (peek_char lx = ch "/" /\ (peek_next lx = ch "/" \/ peek_next lx = ch "*")).

Lemma line_comment_steps lx :
  is_cstr (current lx) -> peek_char lx = ch "/" -> peek_next lx = ch "/" ->
  exists body, Forall (fun c => c <> newline) body /\
    steps lx (chars "//" ++ body) (skip_chars (fun c => negb (c =? newline) && negb (c =? 0)) lx).
Proof.
  intros Ht Es El. destruct (next_Some _ _ Ht El ltac:(done)) as (d & r & E).
  assert (d = ch "/") as -> by (rewrite <- (peek_cons _ _ _ E); done).
  set (p := fun c => negb (c =? newline) && negb (c =? 0)).
  destruct (skip_chars_steps p lx eq_refl eq_refl Ht) as (s & S1 & Hs & Hn).
  pose proof (st_current _ _ _ S1) as Ec. rewrite E in Ec. destruct s as [|a [|b s]]; simpl in Ec.
  - rewrite (peek_cons _ (ch "/") (ch "/" :: r)) in Hn by done. done.
  - injection Ec as _ Ec. rewrite (peek_cons _ (ch "/") r) in Hn by done. done.
  - injection Ec as <- <- _. exists s. split; [|done]. apply (Forall_app _ [_; _] s) in Hs as [_ Hs].
    eapply Forall_impl; [exact Hs|]. intros a Ha ->. done.
Qed.

(** The trivia ends with the comment only if the comment is open. *)
Lemma block_comment_steps lx :
  is_cstr (current lx) -> peek_char lx = ch "/" -> peek_next lx = ch "*" ->
  let lx1 := skip (skip lx) in let lx2 := skip_block_comment (length (current lx1)) lx1 in
  exists s, s <> [] /\ steps lx s lx2 /\ (current lx2 = [] /\ Trivia s \/ forall s', Trivia s' -> Trivia (s ++ s')).
Proof.
  intros Ht Es Ek lx1 lx2. destruct (next_Some _ _ Ht Ek ltac:(done)) as (d & r & E).
  assert (d = ch "/") as -> by (rewrite <- (peek_cons _ _ _ E); done).
  pose proof (skip2_steps lx _ _ r E ltac:(done) ltac:(done) ltac:(done) ltac:(done)) as S0. fold lx1 in S0.
  pose proof (proj2 (steps_text _ _ _ S0 Ht)) as Ht1.
  destruct (skip_block_comment_steps (length (current lx1)) lx1 Ht1 ltac:(done)) as (body & Hcl & HS).
  destruct HS as [[He S1]|S1]; (eexists; split_and!; [|by eapply steps_trans|]; [done|]).
  - left. split; [done|]. by apply T_open.
  - right. intros s' Hs'. change [ch "/"; ch "*"] with (chars "/*"). rewrite <- !(assoc_L (++)). by apply T_block.
Qed.

Lemma skip_whitespace_steps fuel : forall lx,
  is_cstr (current lx) -> (length (current lx) <= fuel)%nat ->
  exists s, steps lx s (skip_whitespace_loop fuel lx) /\ Trivia s /\ token_start (skip_whitespace_loop fuel lx).
Proof.
  induction fuel as [|fuel IH]; intros lx Ht Hl.
  { simpl. destruct (current lx) eqn:E; [|simpl in Hl; lia]. exists [].
    split_and!; [apply steps_refl|constructor|]. unfold token_start. rewrite peek_nil by done.
    split; [intros [|[]]; done|intros [? _]; done]. }
  assert (next : forall s lx', steps lx s lx' -> s <> [] ->
    exists s', steps lx (s ++ s') (skip_whitespace_loop fuel lx') /\ Trivia s' /\ token_start (skip_whitespace_loop fuel lx')).
  { intros s lx' S1 Hs. destruct (IH lx') as (s' & S2 & HT & HN).
    - by apply (steps_text _ _ _ S1).
    - apply steps_length in S1. destruct s; [done|]. simpl in S1. lia.
    - exists s'. split; [by eapply steps_trans|done]. }
  cbn [skip_whitespace_loop]. set (c := peek_char lx).
  destruct ((c =? ch " ") || (c =? 9) || (c =? 13)) eqn:Eb.
  { assert (Hb : blank c) by (unfold blank; rewrite !orb_true_iff, !Z.eqb_eq in Eb; tauto).
    destruct (current lx) as [|d r] eqn:E; [subst c; rewrite peek_nil in Hb by done; by destruct Hb as [|[]]|].
    assert (d = c) as -> by (subst c; by rewrite (peek_cons _ _ _ E)).
    destruct (next [c] (skip lx)) as (s' & S & HT & HN); [|done|].
    - by apply skip_steps with r; [exact E| |]; destruct Hb as [->|[->| ->]].
    - exists (c :: s'). split_and!; [done|by constructor|done]. }
  assert (Hnb : ~ blank c) by (rewrite !orb_false_iff, !Z.eqb_neq in Eb; unfold blank; tauto).
  destruct (c =? ch "/") eqn:Es; cycle 1.
  { exists []. apply Z.eqb_neq in Es. split_and!; [apply steps_refl|constructor|split; [done|tauto]]. }
  apply Z.eqb_eq in Es. destruct (peek_next lx =? ch "/") eqn:El; [|destruct (peek_next lx =? ch "*") eqn:Ek].
  - apply Z.eqb_eq in El. destruct (line_comment_steps lx Ht Es El) as (body & Hb & S1).
    destruct (next _ _ S1 ltac:(done)) as (s' & S & HT & HN). eexists. split_and!; [exact S| |done].
    rewrite <- (assoc_L (++)). by apply T_line.
  - apply Z.eqb_eq in Ek. destruct (block_comment_steps lx Ht Es Ek) as (s & Hs & S1 & HT1).
    set (lx2 := skip_block_comment _ _) in *. destruct (next _ _ S1 Hs) as (s' & S & HT & HN).
    exists (s ++ s'). split_and!; [done| |done]. destruct HT1 as [[He HT1]|HT1]; [|by apply HT1].
    apply st_current in S, S1. rewrite S1, He, app_nil_r in S. apply (f_equal length) in S. rewrite !length_app in S.
    destruct s'; [by rewrite app_nil_r|simpl in S; lia].
  - exists []. apply Z.eqb_neq in El, Ek. split_and!; [apply steps_refl|constructor|split; [done|tauto]].
Qed.

(** *** Tokens *)

Lemma token_text_steps lx s lx' :
  start lx = current lx -> steps lx s lx' -> token_text lx' = s.
Proof.
  intros Hs S. unfold token_text. rewrite (st_start _ _ _ S), Hs, (st_current _ _ _ S), length_app.
  replace (_ + _ - _)%nat with (length s) by lia. apply take_app_length.
Qed.

(** A scanner read the rest of the token and made a token of the whole text. *)
Definition scanned (lx : Lexer) (r : Token * Lexer) : Prop :=
  exists s, steps lx s r.2 /\ (type r.1 = TOK_ERROR \/ text r.1 = token_text r.2) /\ type r.1 <> TOK_EOF /\
    tok_line r.1 = line r.2 /\ tok_column r.1 = start_column r.2.

(** The same with the first characters [pre] of the token. *)
Definition scanned_from (lx : Lexer) (pre : list Z) (r : Token * Lexer) : Prop :=
  exists s, steps lx (pre ++ s) r.2 /\ (type r.1 = TOK_ERROR \/ text r.1 = token_text r.2) /\ type r.1 <> TOK_EOF /\
    tok_line r.1 = line r.2 /\ tok_column r.1 = start_column r.2.

Lemma scanned_after lx pre lx1 r : steps lx pre lx1 -> scanned lx1 r -> scanned_from lx pre r.
Proof. intros S (s' & S' & H). exists s'. split; [by eapply steps_trans|done]. Qed.

Lemma scanned_steps lx s lx1 r : steps lx s lx1 -> scanned lx1 r -> scanned lx r.
Proof. intros S (s' & S' & H). exists (s ++ s'). split; [by eapply steps_trans|done]. Qed.

Lemma scanned_one lx t : t <> TOK_EOF -> scanned lx (one lx t).
Proof. intros Ht. exists []. split; [apply steps_refl|]. simpl. by split_and!; [right|..]. Qed.

Lemma scanned_error lx m : scanned lx (error_token lx m, lx).
Proof. exists []. split; [apply steps_refl|]. simpl. by split_and!; [left|..]. Qed.

Lemma match_steps lx c : c <> 0 -> c <> newline -> exists s, steps lx s (lex_match lx c).2.
Proof.
  intros Hc Hn. unfold lex_match. destruct (is_at_end lx) eqn:Ee; [exists []; apply steps_refl|].
  destruct (peek_char lx =? c) eqn:E; [|exists []; apply steps_refl]. apply Z.eqb_eq in E. exists [c]. simpl.
  unfold peek_char in E. destruct (current lx) as [|d r] eqn:El; simpl in E; [congruence|]. subst d.
  by apply skip_steps with r.
Qed.

Lemma scanned_match lx c (f : bool -> Lexer -> Token * Lexer) :
  c <> 0 -> c <> newline -> (forall r lx', scanned lx' (f r lx')) ->
  scanned lx (let (r, lx') := lex_match lx c in f r lx').
Proof.
  intros Hc Hn Hf. destruct (match_steps lx c Hc Hn) as [s S]. destruct (lex_match lx c) as [r lx'].
  by eapply scanned_steps.
Qed.

Lemma scanned_either lx c yes no : c <> 0 -> c <> newline -> yes <> TOK_EOF -> no <> TOK_EOF -> scanned lx (either lx c yes no).
Proof. intros. apply scanned_match; [done..|]. intros [] lx'; by apply scanned_one. Qed.

Lemma find_keyword_spec ks name t :
  Forall (fun kt => kt.2 <> t) ks -> t <> TOK_IDENT -> find_keyword ks name <> t.
Proof. induction 1 as [|[k u] ks Hk _ IH]; intros Ht; simpl; [done|]. case_decide; auto. Qed.

Lemma scanned_identifier lx : is_cstr (current lx) -> scanned lx (scan_identifier lx).
Proof.
  intros Ht. destruct (skip_chars_steps is_alnum lx eq_refl eq_refl Ht) as (s & S & _). exists s. split; [done|].
  split_and!; [by right| |done..]. apply find_keyword_spec; [|done]. repeat constructor; done.
Qed.

(** A state that may have consumed something. *)
Definition reads (lx lx' : Lexer) : Prop := exists s, steps lx s lx'.

Lemma reads_trans lx lx1 lx2 : reads lx lx1 -> reads lx1 lx2 -> reads lx lx2.
Proof. intros [s1 S1] [s2 S2]. exists (s1 ++ s2). by eapply steps_trans. Qed.

Lemma reads_text lx lx' : reads lx lx' -> is_cstr (current lx) -> is_cstr (current lx').
Proof. intros [s S] H. by apply (steps_text _ _ _ S). Qed.

Lemma reads_refl lx : reads lx lx.
Proof. exists []. apply steps_refl. Qed.

Lemma reads_chars p lx : p newline = false -> p 0 = false -> is_cstr (current lx) -> reads lx (skip_chars p lx).
Proof. intros H1 H2 Ht. destruct (skip_chars_steps p lx H1 H2 Ht) as (s & S & _). by exists s. Qed.

Lemma reads_skip lx c : is_cstr (current lx) -> peek_char lx = c -> c <> 0 -> c <> newline -> reads lx (skip lx).
Proof.
  intros Ht Hp H0 Hn. exists [c]. unfold peek_char in Hp. destruct (current lx) as [|d r] eqn:E; simpl in Hp; [congruence|].
  subst d. by apply skip_steps with r.
Qed.

Lemma reads_fraction lx : is_cstr (current lx) -> reads lx (scan_fraction lx).2.
Proof.
  intros Ht. unfold scan_fraction. destruct (_ && _) eqn:E; [|apply reads_refl].
  apply andb_prop in E as [E%Z.eqb_eq _]. pose proof (reads_skip lx _ Ht E ltac:(done) ltac:(done)) as R.
  eapply reads_trans; [exact R|]. apply reads_chars; [done..|]. by apply (reads_text _ _ R).
Qed.

Lemma reads_either lx a b :
  is_cstr (current lx) -> a <> 0 -> a <> newline -> b <> 0 -> b <> newline ->
  (peek_char lx =? a) || (peek_char lx =? b) = true -> reads lx (skip lx).
Proof.
  intros Ht Ha1 Ha2 Hb1 Hb2 E. apply orb_true_iff in E. rewrite !Z.eqb_eq in E.
  destruct E as [E|E]; by eapply reads_skip.
Qed.

Lemma reads_exponent f lx : is_cstr (current lx) -> reads lx (scan_exponent (f, lx)).2.
Proof.
  intros Ht. simpl. destruct (_ || _) eqn:E; [|apply reads_refl]. apply reads_either in E; [|done..].
  eapply reads_trans; [exact E|]. pose proof (reads_text _ _ E Ht) as Ht1. set (lx1 := skip lx) in *.
  assert (R : reads lx1 (scan_sign lx1)).
  { unfold scan_sign. destruct (_ || _) eqn:E'; [|apply reads_refl]. by apply reads_either in E'. }
  eapply reads_trans; [exact R|]. apply reads_chars; [done..|]. by apply (reads_text _ _ R).
Qed.

Lemma scanned_number lx : is_cstr (current lx) -> scanned lx (scan_number lx).
Proof.
  intros Ht. unfold scan_number. pose proof (reads_chars digit_or_underscore lx eq_refl eq_refl Ht) as R1.
  set (lx1 := skip_chars _ lx) in *. pose proof (reads_text _ _ R1 Ht) as Ht1.
  pose proof (reads_fraction lx1 Ht1) as R2. destruct (scan_fraction lx1) as [f lx2]. simpl in R2.
  pose proof (reads_exponent f lx2 (reads_text _ _ R2 Ht1)) as R3. destruct (scan_exponent (f, lx2)) as [f' lx3].
  destruct (reads_trans _ _ _ R1 (reads_trans _ _ _ R2 R3)) as [s S]. exists s. split; [done|].
  split_and!; [by right|by destruct f'|done..].
Qed.

Lemma skip_string_reads fuel : forall lx,
  is_cstr (current lx) -> (length (current lx) <= fuel)%nat ->
  reads lx (skip_string fuel lx) /\ (peek_char (skip_string fuel lx) = quote \/ is_at_end (skip_string fuel lx) = true).
Proof.
  induction fuel as [|fuel IH]; intros lx Ht Hl; simpl.
  { split; [apply reads_refl|]. right. rewrite at_end_spec by done. destruct (current lx); [done|simpl in Hl; lia]. }
  destruct (negb (peek_char lx =? quote) && negb (is_at_end lx)) eqn:Ec.
  2: { split; [apply reads_refl|]. apply andb_false_iff in Ec. rewrite !negb_false_iff, Z.eqb_eq in Ec. done. }
  apply andb_prop in Ec as [Hq He]. apply negb_true_iff in He. rewrite at_end_spec in He by done.
  apply bool_decide_eq_false in He. destruct (current lx) as [|c r] eqn:E; [done|].
  pose proof Ht as Ht0. apply Forall_cons_1 in Ht0 as [Hc Hr]. set (lx1 := if _ && _ then _ else _).
  assert (R : exists s, steps lx s (skip lx1) /\ s <> []).
  { subst lx1. destruct (_ && _) eqn:Eb.
    - apply andb_prop in Eb as [Hb%Z.eqb_eq Hn%negb_true_iff].
      assert (Hnl : next_line lx = lx).
      { unfold next_line in *. rewrite (peek_cons _ _ _ E) in *. destruct (c =? newline) eqn:En; [|done].
        apply Z.eqb_eq in En as ->. unfold peek_char in Hb. simpl in Hb. by rewrite E in Hb. }
      rewrite Hnl, (peek_cons _ _ _ E) in Hb. subst c. rewrite Hnl in Hn. apply Z.eqb_neq in Hn.
      destruct (next_Some lx _ ltac:(by rewrite E) eq_refl Hn) as (d & r' & E'). rewrite E in E'. injection E' as <- ->.
      set (d := peek_next lx) in *. rewrite Hnl. exists [backslash; d]. split; [|done].
      destruct (decide (d = newline)) as [Hd|Hd]; [|by apply skip2_steps with r'].
      split; simpl; rewrite ?E; try done; [|left; rewrite Hd; by exists [], []].
      unfold is_at_end, peek_char. simpl. rewrite E. simpl. rewrite (proj2 (Z.eqb_neq _ _) Hn). by rewrite !orb_false_r.
    - exists [c]. split; [|done]. apply skip_line_steps with r; [done|lia]. }
  destruct R as (s & S & Hs). destruct (IH (skip lx1)) as [R2 H2].
  - apply (steps_text _ _ _ S). by rewrite E.
  - apply steps_length in S. rewrite E in S. destruct s; [done|]. simpl in S, Hl |- *. lia.
  - split; [|done]. eapply reads_trans; [by exists s|done].
Qed.

Lemma scanned_string lx : is_cstr (current lx) -> scanned lx (scan_string lx).
Proof.
  intros Ht. unfold scan_string. destruct (skip_string_reads _ lx Ht ltac:(done)) as [[s S] Hq].
  set (lx1 := skip_string _ lx) in *. pose proof (proj2 (steps_text _ _ _ S Ht)) as Ht1.
  destruct (is_at_end lx1) eqn:Ee; [by eapply scanned_steps, scanned_error|].
  destruct Hq as [Hq|?]; [|congruence]. destruct (reads_skip lx1 quote Ht1 Hq ltac:(done) ltac:(done)) as [s' S'].
  eapply scanned_steps; [by eapply steps_trans|]. apply scanned_one. done.
Qed.

(** The [switch]: [lx] stands at the first character of the token. *)
Lemma scanned_operator lx c r :
  is_cstr (current lx) -> current lx = c :: r -> scanned_from lx [c] (scan_operator c (skip lx)).
Proof.
  intros Ht E. pose proof Ht as Ht0. rewrite E in Ht0. apply Forall_cons_1 in Ht0 as [Hc Hr].
  unfold scan_operator. destruct (c =? newline) eqn:En.
  { apply Z.eqb_eq in En as ->. exists []. split; [|split_and!; [by right|done..]].
    split; simpl; try done; [by rewrite E| |by right]. unfold is_at_end, peek_char. rewrite E. apply orb_false_r. }
  apply Z.eqb_neq in En. pose proof (skip_steps lx c r E ltac:(lia) En) as S.
  assert (Ht1 : is_cstr (current (skip lx))) by (by apply (steps_text _ _ _ S)).
  eapply scanned_after; [exact S|]. set (lx1 := skip lx) in *.
  repeat (destruct (c =? _); [first
    [by apply scanned_one | by apply scanned_either | by apply scanned_string
    | apply scanned_match; [done..|]; intros [] lx'; first
      [ by apply scanned_one | by apply scanned_either
      | apply scanned_match; [done..|]; intros [] lx''; first [by apply scanned_one|by apply scanned_either] ]]|]).
  apply scanned_error.
Qed.

(** One token: what is skipped, what is read, where it stands. *)
Lemma scan_token_spec lx :
  is_cstr (current lx) -> let (t, lx') := scan_token lx in
  exists s w, steps (begin_token (skip_whitespace lx)) w lx' /\ steps lx s (skip_whitespace lx) /\ Trivia s /\
    current lx = s ++ w ++ current lx' /\
    (type t = TOK_ERROR \/ text t = w) /\ (type t = TOK_EOF <-> w = []) /\ (type t = TOK_EOF -> current lx' = []) /\
    tok_line t = line lx' /\ tok_column t = column (skip_whitespace lx).
Proof.
  intros Ht. unfold scan_token. destruct (skip_whitespace_steps _ lx Ht ltac:(done)) as (s & S & HT & HN).
  fold (skip_whitespace lx) in *. pose proof (proj2 (steps_text _ _ _ S Ht)) as Ht1.
  set (lx0 := skip_whitespace lx) in *. set (lx1 := begin_token lx0).
  assert (E1 : current lx1 = current lx0) by done. assert (E2 : start lx1 = current lx1) by done.
  rewrite at_end_spec by done. destruct (current lx1) as [|c r] eqn:E.
  { rewrite bool_decide_eq_true_2 by done. exists s, []. pose proof (st_current _ _ _ S) as Ec.
    rewrite <- E1, app_nil_r in Ec. split_and!; try done; [apply steps_refl|by rewrite E, !app_nil_r|].
    right. simpl. unfold token_text. rewrite E2. by destruct (_ - _)%nat. }
  rewrite bool_decide_eq_false_2 by done. unfold advance. rewrite (peek_cons _ _ _ E). fold (skip lx1).
  assert (Ht1' : is_cstr (current lx1)) by (by rewrite E, E1).
  assert (HS : scanned_from lx1 [c] (if is_alpha c then scan_identifier (skip lx1) else if isdigit c then scan_number (skip lx1)
    else scan_operator c (skip lx1))).
  { destruct (decide (c = newline)) as [->|Hn]; [by apply scanned_operator with r|].
    pose proof Ht1' as Ht2. rewrite E in Ht2. apply Forall_cons_1 in Ht2 as [Hc Hr].
    pose proof (skip_steps lx1 c r E ltac:(lia) Hn) as S1. pose proof (proj2 (steps_text _ _ _ S1 Ht1')) as Ht2.
    destruct (is_alpha c); [by eapply scanned_after, scanned_identifier|].
    destruct (isdigit c); [by eapply scanned_after, scanned_number|by apply scanned_operator with r]. }
  destruct (if is_alpha c then _ else _) as [t lx']. destruct HS as (w & S2 & H1 & H2 & H3 & H4). simpl in *.
  exists s, (c :: w). rewrite (st_column _ _ _ S2) in H4. split_and!; try done.
  - rewrite (st_current _ _ _ S). f_equal. change (current lx0) with (current lx1). apply (st_current _ _ _ S2).
  - destruct H1 as [?|H1]; [by left|right]. rewrite H1. apply (token_text_steps lx1); [|done]. done.
Qed.

(** ** The whole source *)

(** Tokens and the source they were read from: between them white space and
    comments, at the end the token [TOK_EOF]. *)
Inductive lexed : list Z -> list Token -> Prop :=
  | lexed_eof gap t : Trivia gap -> type t = TOK_EOF -> text t = [] -> lexed gap [t]
  | lexed_token gap w rest t ts :
      Trivia gap -> w <> [] -> type t <> TOK_EOF -> (type t = TOK_ERROR \/ text t = w) -> lexed rest ts ->
      lexed (gap ++ w ++ rest) (t :: ts).

(** The same for lines and columns, from the position [p] on: a token has the
    column it starts in and the line it ends in. *)
Inductive located : Z * Z -> list Z -> list Token -> Prop :=
  | located_eof p gap t :
      type t = TOK_EOF -> (tok_line t, tok_column t) = foldl pos_after p gap -> located p gap [t]
  | located_token p gap w rest t ts :
      w <> [] -> type t <> TOK_EOF -> tok_line t = (foldl pos_after p (gap ++ w)).1 ->
      tok_column t = (foldl pos_after p gap).2 -> located (foldl pos_after p (gap ++ w)) rest ts ->
      located p (gap ++ w ++ rest) (t :: ts).

Lemma scan_token_state lx : is_cstr (current lx) -> let (t, lx') := scan_token lx in
  is_cstr (current lx') /\ peeked lx' = peeked lx /\ overrun lx' = overrun lx /\
  (type t <> TOK_EOF -> (length (current lx') < length (current lx))%nat).
Proof.
  intros Ht. pose proof (scan_token_spec lx Ht) as H. destruct (scan_token lx) as [t lx'].
  destruct H as (s & w & S1 & S2 & _ & Ec & _ & Heof & _). split_and!.
  - rewrite Ec in Ht. by apply Forall_app in Ht as [_ [_ ?]%Forall_app].
  - rewrite (st_peeked _ _ _ S1). apply (st_peeked _ _ _ S2).
  - rewrite (st_overrun _ _ _ S1). apply (st_overrun _ _ _ S2).
  - intros Hne. rewrite Ec, !length_app. assert (w <> []) by (intros ->; tauto). destruct w; [done|]. simpl. lia.
Qed.

Lemma lex_lexed fuel : forall lx,
  is_cstr (current lx) -> peeked lx = None -> (length (current lx) < fuel)%nat -> lexed (current lx) (lex fuel lx).
Proof.
  induction fuel as [|fuel IH]; intros lx Ht Hp Hl; [lia|]. simpl. unfold lexer_next. rewrite Hp.
  pose proof (scan_token_spec lx Ht) as H. pose proof (scan_token_state lx Ht) as H'.
  destruct (scan_token lx) as [t lx']. destruct H as (s & w & S1 & S2 & HT & Ec & Htext & Heof & Hend & _).
  destruct H' as (Ht' & Hp' & _ & Hlt). rewrite Ec. case_decide as Et.
  - assert (w = []) as -> by tauto. rewrite (Hend Et), !app_nil_r. apply lexed_eof; [done|done|].
    destruct Htext; [congruence|done].
  - apply lexed_token; [done|tauto|done|done|]. apply IH; [done|congruence|]. specialize (Hlt Et). lia.
Qed.

(** C10: every source text is lexed to its end: the tokens, with white space and
    comments between them, are exactly the source, in order; each token's text is
    the piece of source it stands for (an error token has a message instead); the
    last token is [TOK_EOF], and no other is.  So no character is lost or read
    twice, and the lexer always reaches the end. *)
Theorem lexer_partition source : is_cstr source -> lexed source (tokens source).
Proof. intros Ht. apply (lex_lexed _ (lexer_new source)); [done|done|simpl; lia]. Qed.

(** The lexer never reads behind the terminating zero, and looking ahead does not
    change what is read next. *)
Lemma lexer_next_inside source n :
  is_cstr source -> let lx := Nat.iter n (fun lx => (lexer_next lx).2) (lexer_new source) in
  overrun lx = false /\ lexer_next (lexer_peek lx).2 = ((lexer_peek lx).1, (lexer_next lx).2).
Proof.
  intros Ht lx. assert (H : overrun lx = false /\ is_cstr (current lx) /\ peeked lx = None).
  { subst lx. induction n as [|n (IH1 & IH2 & IH3)]; simpl; [done|]. set (lx := Nat.iter n _ _) in *.
    unfold lexer_next. rewrite IH3. pose proof (scan_token_state lx IH2) as H. destruct (scan_token lx). simpl.
    destruct H as (H1 & H2 & H3 & _). rewrite H2, H3. done. }
  destruct H as (H1 & H2 & H3). split; [done|]. unfold lexer_next, lexer_peek. rewrite H3.
  pose proof (scan_token_state lx H2) as H. destruct (scan_token lx) as [t lx']. simpl. f_equal.
  destruct H as (_ & Hp & _). destruct lx'; simpl in *. unfold set_peeked. simpl. congruence.
Qed.

Lemma escaped_mono s1 s2 s3 : ~ escaped (s1 ++ s2 ++ s3) -> ~ escaped s1 /\ ~ escaped s2 /\ ~ escaped s3.
Proof. intros H. split_and!; intros He; apply H; apply escaped_app; auto; right; apply escaped_app; auto. Qed.

Lemma lex_located fuel : forall lx,
  is_cstr (current lx) -> peeked lx = None -> (length (current lx) < fuel)%nat -> ~ escaped (current lx) ->
  located (position lx) (current lx) (lex fuel lx).
Proof.
  induction fuel as [|fuel IH]; intros lx Ht Hp Hl He; [lia|]. simpl. unfold lexer_next. rewrite Hp.
  pose proof (scan_token_spec lx Ht) as H. pose proof (scan_token_state lx Ht) as H'.
  destruct (scan_token lx) as [t lx']. destruct H as (s & w & S1 & S2 & HT & Ec & _ & Heof & Hend & Hline & Hcol).
  destruct H' as (Ht' & Hp' & _ & Hlt). rewrite Ec in He |- *. apply escaped_mono in He as (He1 & He2 & He3).
  destruct (st_position _ _ _ S1) as [?|P1]; [done|]. destruct (st_position _ _ _ S2) as [?|P2]; [done|].
  change (position (begin_token (skip_whitespace lx))) with (position (skip_whitespace lx)) in P1. rewrite P2 in P1.
  rewrite <- foldl_app in P1. case_decide as Et.
  - assert (w = []) as -> by tauto. rewrite (Hend Et), !app_nil_r in *. apply located_eof; [done|].
    rewrite <- P2, Hline, Hcol. rewrite <- P2 in P1. unfold position in *. by injection P1 as -> _.
  - apply located_token; [tauto|done|by rewrite <- P1|by rewrite <- P2|]. rewrite <- P1.
    apply IH; [done|congruence| |done]. specialize (Hlt Et). lia.
Qed.

(** In a source without a line break behind a backslash, every token has the
    column it starts in and the line it ends in, lines and columns counted from 1.
    For a line break this is the line behind it. *)
Theorem lexer_positions source :
  is_cstr source -> ~ escaped source -> located (1, 1) source (tokens source).
Proof. intros Ht He. apply (lex_located _ (lexer_new source)); [done|done|simpl; lia|done]. Qed.

(** ** Printing tokens and lexing them again *)

Definition operators : list (string * TokenType) := [
  ("(", TOK_LPAREN); (")", TOK_RPAREN); ("{", TOK_LBRACE); ("}", TOK_RBRACE); ("[", TOK_LBRACKET);
  ("]", TOK_RBRACKET); (",", TOK_COMMA); ("::", TOK_COLON_COLON); (":", TOK_COLON); ("?", TOK_QUESTION);
  ("%", TOK_PERCENT); ("+=", TOK_PLUS_ASSIGN); ("+", TOK_PLUS); ("->", TOK_ARROW); ("-=", TOK_MINUS_ASSIGN);
  ("-", TOK_MINUS); ("*=", TOK_STAR_ASSIGN); ("*", TOK_STAR); ("/=", TOK_SLASH_ASSIGN); ("/", TOK_SLASH);
  ("==", TOK_EQ); ("=>", TOK_FAT_ARROW); ("=", TOK_ASSIGN); ("!=", TOK_NE); ("!", TOK_NOT); ("<=", TOK_LE);
  ("<", TOK_LT); (">=", TOK_GE); (">", TOK_GT); ("...", TOK_SPREAD); ("..=", TOK_RANGE_INCL); ("..", TOK_RANGE);
  (".", TOK_DOT); (";", TOK_SEMICOLON); ("@", TOK_AT)]%string.

(** The inside of a string literal. *)
Inductive string_body : list Z -> Prop :=
  | sb_nil : string_body []
  | sb_char c s : c <> quote -> c <> backslash -> string_body s -> string_body (c :: s)
  | sb_escape c s : string_body s -> string_body (backslash :: c :: s).

Inductive sign : list Z -> Prop := sign_none : sign [] | sign_plus : sign (chars "+") | sign_minus : sign (chars "-").

Definition all (p : Z -> bool) (s : list Z) : Prop := Forall (fun c => p c = true) s.

(** The digits of a number from the second on, up to its exponent. *)
Inductive mantissa : list Z -> TokenType -> Prop :=
  | m_int s : all digit_or_underscore s -> mantissa s TOK_INT
  | m_frac s d f : all digit_or_underscore s -> isdigit d = true -> all digit_or_underscore f ->
      mantissa (s ++ ch "." :: d :: f) TOK_FLOAT.

(** What the tokens look like. *)
Inductive Lexeme : list Z -> TokenType -> Prop :=
  | L_word c s : is_alpha c = true -> all is_alnum s -> Lexeme (c :: s) (find_keyword keywords (c :: s))
  | L_number c s t : isdigit c = true -> mantissa s t -> Lexeme (c :: s) t
  | L_exponent c s t e sg ds : isdigit c = true -> mantissa s t -> e = ch "e" \/ e = ch "E" -> sign sg ->
      all isdigit ds -> Lexeme (c :: s ++ e :: sg ++ ds) TOK_FLOAT
  | L_operator o t : (o, t) ∈ operators -> Lexeme (chars o) t
  | L_string s : string_body s -> Lexeme (quote :: s ++ [quote]) TOK_STRING.

Definition space : Z := 32.

(** Each token with a space behind it. *)
Definition print_tokens (ss : list (list Z)) : list Z := concat ((fun s => s ++ [space]) <$> ss).

Lemma steps_rest lx s lx' r : steps lx s lx' -> current lx = s ++ r -> current lx' = r.
Proof. intros S E. rewrite (st_current _ _ _ S) in E. by apply app_inv_head in E. Qed.

Lemma span_unique (p : Z -> bool) s a t b :
  s ++ a = t ++ b -> all p s -> all p t -> p (default 0 (head a)) = false -> p (default 0 (head b)) = false -> s = t.
Proof.
  revert t. induction s as [|c s IH]; intros [|d t] E Hs Ht Ha Hb; simpl in E; [done|..].
  - subst a. simpl in Ha. apply Forall_cons_1 in Ht as [? _]. congruence.
  - subst b. simpl in Hb. apply Forall_cons_1 in Hs as [? _]. congruence.
  - injection E as -> E. f_equal. apply Forall_cons_1 in Hs as [_ Hs]. apply Forall_cons_1 in Ht as [_ Ht]. by apply (IH t).
Qed.

Lemma skip_chars_exact p lx t r :
  p newline = false -> p 0 = false -> is_cstr (current lx) -> current lx = t ++ r -> all p t ->
  p (default 0 (head r)) = false -> steps lx t (skip_chars p lx).
Proof.
  intros H1 H2 Hc E Ht Hr. destruct (skip_chars_steps p lx H1 H2 Hc) as (s & S & Hs & Hn).
  replace t with s; [done|]. unfold peek_char in Hn. pose proof (st_current _ _ _ S) as E'. rewrite E in E'.
  by apply (span_unique p _ (current (skip_chars p lx)) _ r).
Qed.

Lemma skip_exact lx c r : is_cstr (current lx) -> current lx = c :: r -> c <> newline -> steps lx [c] (skip lx).
Proof. intros Hc E Hn. apply skip_steps with r; [done| |done]. rewrite E in Hc. apply Forall_cons_1 in Hc as [? _]. lia. Qed.

Lemma steps_cstr lx s lx' : steps lx s lx' -> is_cstr (current lx) -> is_cstr (current lx').
Proof. intros S H. by apply (steps_text _ _ _ S). Qed.

(** The scanner [f] reads the rest [s] of a token when a space follows. *)
Definition scans (f : Lexer -> Token * Lexer) (s : list Z) (t : Lexer -> TokenType) : Prop := forall lx r,
  is_cstr (current lx) -> current lx = s ++ space :: r ->
  exists lx', f lx = (make_token lx' (t lx'), lx') /\ steps lx s lx'.

Lemma identifier_scans s : all is_alnum s -> scans scan_identifier s check_keyword.
Proof.
  intros Hs lx r Hc E. eexists. split; [reflexivity|]. by apply skip_chars_exact with (space :: r).
Qed.

Lemma fraction_scans s t lx r :
  mantissa s t -> is_cstr (current lx) -> current lx = s ++ r ->
  digit_or_underscore (default 0 (head r)) = false -> default 0 (head r) <> ch "." ->
  let (f, lx') := scan_fraction (skip_chars digit_or_underscore lx) in
  steps lx s lx' /\ t = (if f then TOK_FLOAT else TOK_INT).
Proof.
  intros Hm Hc E Hr Hdot. destruct Hm as [s Hs|s d f Hs Hd Hf].
  - pose proof (skip_chars_exact _ lx s r eq_refl eq_refl Hc E Hs Hr) as S. set (lx1 := skip_chars _ lx) in *.
    unfold scan_fraction, peek_char. rewrite (steps_rest _ _ _ _ S E), (proj2 (Z.eqb_neq _ _) Hdot). done.
  - rewrite <- (assoc_L (++)) in E. simpl in E.
    pose proof (skip_chars_exact _ lx s _ eq_refl eq_refl Hc E Hs eq_refl) as S. set (lx1 := skip_chars _ lx) in *.
    pose proof (steps_rest _ _ _ _ S E) as E1. pose proof (steps_cstr _ _ _ S Hc) as Hc1.
    unfold scan_fraction. rewrite (peek_cons _ _ _ E1), (next_cons _ _ _ _ E1), Hd by done. simpl.
    pose proof (skip_exact _ _ _ Hc1 E1 ltac:(done)) as S1. pose proof (steps_rest _ _ _ _ S1 E1) as E2.
    pose proof (steps_cstr _ _ _ S1 Hc1) as Hc2. split; [|done]. eapply steps_trans; [exact S|].
    eapply steps_cons; [exact S1|]. apply skip_chars_exact with r; [done|done|done|exact E2| |done].
    constructor; [|done]. unfold digit_or_underscore. by rewrite Hd.
Qed.

Lemma number_scans s t : mantissa s t -> scans scan_number s (fun _ => t).
Proof.
  intros Hm lx r Hc E. pose proof (fraction_scans s t lx (space :: r) Hm Hc E eq_refl ltac:(done)) as H.
  unfold scan_number. destruct (scan_fraction _) as [f lx'] eqn:Ef. destruct H as [S ->].
  exists lx'. split; [|done]. simpl. by rewrite (peek_cons lx' _ _ (steps_rest _ _ _ _ S E)).
Qed.

Lemma sign_scans lx sg ds r : sign sg -> all isdigit ds -> is_cstr (current lx) -> current lx = sg ++ ds ++ space :: r ->
  steps lx sg (scan_sign lx).
Proof.
  intros Hsg Hds Hc E. unfold scan_sign. destruct Hsg; simpl in E.
  - assert (Hp : isdigit (peek_char lx) || (peek_char lx =? space) = true).
    { unfold peek_char. rewrite E. destruct Hds as [|c ds H _]; simpl; [done|]. by rewrite H. }
    destruct (_ || _) eqn:Eo in |- *; [|apply steps_refl]. apply orb_true_iff in Eo. rewrite !Z.eqb_eq in Eo.
    by destruct Eo as [Eo|Eo]; rewrite Eo in Hp.
  - rewrite (peek_cons _ _ _ E). simpl. by eapply skip_exact.
  - rewrite (peek_cons _ _ _ E). simpl. by eapply skip_exact.
Qed.

Lemma exponent_scans s t e sg ds :
  mantissa s t -> e = ch "e" \/ e = ch "E" -> sign sg -> all isdigit ds ->
  scans scan_number (s ++ e :: sg ++ ds) (fun _ => TOK_FLOAT).
Proof.
  intros Hm He Hsg Hds lx r Hc E. rewrite <- (assoc_L (++)) in E. simpl in E. rewrite <- (assoc_L (++)) in E.
  assert (Hen : e <> newline /\ digit_or_underscore e = false /\ e <> ch ".") by (by destruct He as [-> | ->]).
  destruct Hen as (He1 & He2 & He3). pose proof (fraction_scans s t lx _ Hm Hc E He2 He3) as H.
  unfold scan_number. destruct (scan_fraction _) as [f lx1]. destruct H as [S _].
  pose proof (steps_rest _ _ _ _ S E) as E1. pose proof (steps_cstr _ _ _ S Hc) as Hc1.
  pose proof (skip_exact _ _ _ Hc1 E1 He1) as S1. pose proof (steps_rest _ _ _ _ S1 E1) as E2.
  pose proof (steps_cstr _ _ _ S1 Hc1) as Hc2. pose proof (sign_scans _ _ _ _ Hsg Hds Hc2 E2) as S2.
  pose proof (steps_rest _ _ _ _ S2 E2) as E3. pose proof (steps_cstr _ _ _ S2 Hc2) as Hc3.
  pose proof (skip_chars_exact isdigit _ ds (space :: r) eq_refl eq_refl Hc3 E3 Hds eq_refl) as S3.
  eexists. split.
  - simpl. rewrite (peek_cons _ _ _ E1). by destruct He as [-> | ->].
  - eapply steps_trans; [exact S|]. eapply steps_cons; [exact S1|]. by eapply steps_trans.
Qed.

Lemma skip_string_exact s : string_body s -> forall fuel lx r,
  is_cstr (current lx) -> current lx = s ++ quote :: r -> (length s <= fuel)%nat -> steps lx s (skip_string fuel lx).
Proof.
  induction 1 as [|c s Hq Hb _ IH|c s _ IH]; intros fuel lx r Hc E Hl.
  - destruct fuel; simpl; [apply steps_refl|]. rewrite (peek_cons _ _ _ E). apply steps_refl.
  - destruct fuel as [|fuel]; simpl in Hl; [lia|]. simpl. pose proof Hc as Hc0. rewrite E in Hc0.
    apply Forall_cons_1 in Hc0 as [Hc0 _]. unfold is_at_end. rewrite (peek_cons _ _ _ E).
    rewrite (proj2 (Z.eqb_neq _ _) Hq), (proj2 (Z.eqb_neq c 0)) by lia. cbn [negb andb].
    assert (Hp : peek_char (next_line lx) =? backslash = false).
    { unfold next_line. rewrite (peek_cons _ _ _ E). apply Z.eqb_neq.
      destruct (c =? newline); [unfold peek_char; simpl; by rewrite E|by rewrite (peek_cons _ _ _ E)]. }
    rewrite Hp. cbn [andb]. pose proof (skip_line_steps lx c _ E ltac:(lia)) as S.
    eapply steps_cons; [exact S|]. apply IH with r; [by eapply steps_cstr|by eapply steps_rest|lia].
  - destruct fuel as [|fuel]; simpl in Hl; [lia|]. simpl. pose proof Hc as Hc0. rewrite E in Hc0.
    apply Forall_cons_1 in Hc0 as [_ [Hc1 _]%Forall_cons_1]. unfold is_at_end. rewrite (peek_cons _ _ _ E). cbn [negb andb].
    assert (Hnl : next_line lx = lx) by (unfold next_line; by rewrite (peek_cons _ _ _ E)). rewrite Hnl.
    rewrite (peek_cons _ _ _ E), (next_cons _ _ _ _ E), (proj2 (Z.eqb_neq c 0)) by first [done|lia]. cbn [negb andb].
    assert (S : steps lx [backslash; c] (skip (skip lx))).
    { destruct (decide (c = newline)) as [->|Hn]; [|apply skip2_steps with (s ++ quote :: r); [done|done|lia|done|done]].
      split; simpl; rewrite ?E; try done; [|left; by exists [], []].
      unfold is_at_end, peek_char. simpl. rewrite E. simpl. by rewrite !orb_false_r. }
    apply (steps_trans _ [backslash; c] _ _ _ S). apply IH with r; [by eapply steps_cstr|by eapply steps_rest|lia].
Qed.

Lemma string_scans s : string_body s -> scans scan_string (s ++ [quote]) (fun _ => TOK_STRING).
Proof.
  intros Hs lx r Hc E. rewrite <- (assoc_L (++)) in E. simpl in E.
  pose proof (skip_string_exact s Hs (length (current lx)) lx _ Hc E) as S.
  rewrite E, length_app in S at 1. specialize (S ltac:(lia)). unfold scan_string. set (lx1 := skip_string _ lx) in *.
  pose proof (steps_rest _ _ _ _ S E) as E1. unfold is_at_end. rewrite (peek_cons _ _ _ E1). simpl.
  eexists. split; [reflexivity|]. eapply steps_trans; [exact S|]. eapply skip_exact; [|exact E1|done]. by eapply steps_cstr.
Qed.

(** What follows the first character of a token. *)
Definition scan_rest (c : Z) (lx : Lexer) : Token * Lexer :=
  if is_alpha c then scan_identifier lx else if isdigit c then scan_number lx else scan_operator c lx.

Lemma operator_scans o t : (o, t) ∈ operators -> exists c s, chars o = c :: s /\
  c <> newline /\ ~ blank c /\ (c = ch "/" -> s = [] \/ s = chars "=") /\ scans (scan_rest c) s (fun _ => t).
Proof.
  intros Ho. unfold operators in Ho. rewrite !elem_of_cons, elem_of_nil in Ho.
  repeat match type of Ho with _ \/ _ => destruct Ho as [[= -> ->]|Ho] end; try done;
    (eexists _, _; split; [reflexivity|]; split_and!; [done|intros [|[]]; done|intros [=]; auto|]);
    intros [st cu li co sc pk ov] r Hc E; simpl in E; subst cu; (eexists; split; [reflexivity|]);
    (split; simpl; [done..|by rewrite ?orb_false_r|by right]).
Qed.

Lemma is_alpha_first c : is_alpha c = true -> c <> newline /\ ~ blank c /\ c <> ch "/".
Proof. intros H. split_and!; [intros ->|intros [->|[->| ->]]|intros ->]; done. Qed.

Lemma isdigit_first c : isdigit c = true -> c <> newline /\ ~ blank c /\ c <> ch "/" /\ is_alpha c = false.
Proof.
  intros H. split_and!; [intros ->; done|intros [->|[->| ->]]; done|intros ->; done|].
  unfold isdigit in H. bool_prop. unfold is_alpha. change (ch "_") with 95.
  rewrite !orb_false_iff, !andb_false_iff, !Z.leb_gt, Z.eqb_neq. lia.
Qed.

(** Every token is its first character and what a scanner reads behind it. *)
Lemma lexeme_scans w t : Lexeme w t -> exists c s f, w = c :: s /\
  c <> newline /\ ~ blank c /\ (c = ch "/" -> s = [] \/ s = chars "=") /\ scans (scan_rest c) s f /\
  (forall lx, token_text lx = w -> f lx = t).
Proof.
  destruct 1 as [c s Hc Hs|c s t Hc Hm|c s t e sg ds Hc Hm He Hsg Hds|o t Ho|s Hs].
  - exists c, s, check_keyword. destruct (is_alpha_first c Hc) as (? & ? & ?). split_and!; try done.
    + unfold scan_rest. rewrite Hc. by apply identifier_scans.
    + intros lx Ht. unfold check_keyword. by rewrite Ht.
  - exists c, s, (fun _ => t). destruct (isdigit_first c Hc) as (? & ? & ? & Ha). split_and!; try done.
    unfold scan_rest. rewrite Ha, Hc. by apply number_scans.
  - exists c, (s ++ e :: sg ++ ds), (fun _ => TOK_FLOAT). destruct (isdigit_first c Hc) as (? & ? & ? & Ha).
    split_and!; try done. unfold scan_rest. rewrite Ha, Hc. by eapply exponent_scans.
  - destruct (operator_scans o t Ho) as (c & s & E & H1 & H2 & H3 & H4). by exists c, s, (fun _ => t).
  - exists quote, (s ++ [quote]), (fun _ => TOK_STRING). split_and!; try done; [intros [|[]]; done|].
    exact (string_scans s Hs).
Qed.

Lemma skip_whitespace_stays fuel lx : token_start lx -> skip_whitespace_loop fuel lx = lx.
Proof.
  intros [Hb Hc]. destruct fuel; simpl; [done|]. set (c := peek_char lx) in *.
  destruct ((c =? ch " ") || (c =? 9) || (c =? 13)) eqn:E.
  { destruct Hb. rewrite !orb_true_iff, !Z.eqb_eq in E. unfold blank. tauto. }
  destruct (c =? ch "/") eqn:Es; [|done]. apply Z.eqb_eq in Es.
  destruct (peek_next lx =? ch "/") eqn:E1; [apply Z.eqb_eq in E1; tauto|].
  destruct (peek_next lx =? ch "*") eqn:E2; [apply Z.eqb_eq in E2; tauto|done].
Qed.

Lemma skip_whitespace_space fuel lx r :
  current lx = space :: r -> skip_whitespace_loop (S fuel) lx = skip_whitespace_loop fuel (skip lx).
Proof. intros E. cbn [skip_whitespace_loop]. by rewrite (peek_cons _ _ _ E). Qed.

Lemma advance_cons lx c r : current lx = c :: r -> advance lx = (c, skip lx).
Proof. intros E. unfold advance, skip. by rewrite (peek_cons _ _ _ E). Qed.

(** One printed token, with or without the space before it. *)
Lemma scan_lexeme lx gap w t r :
  Lexeme w t -> is_cstr (current lx) -> current lx = gap ++ w ++ space :: r -> gap = [] \/ gap = [space] ->
  exists k lx', scan_token lx = (k, lx') /\ type k = t /\ text k = w /\ current lx' = space :: r /\ peeked lx' = peeked lx.
Proof.
  intros HL Hc E Hgap. destruct (lexeme_scans w t HL) as (c & s & f & -> & Hn & Hb & Hs & Hsc & Hf).
  assert (Hw : exists lx1, skip_whitespace lx = lx1 /\ current lx1 = c :: s ++ space :: r /\ peeked lx1 = peeked lx).
  { assert (Hstart : forall lx1, is_cstr (current lx1) -> current lx1 = c :: s ++ space :: r -> token_start lx1).
    { intros lx1 Hc1 E1. unfold token_start. rewrite (peek_cons _ _ _ E1). split; [done|]. intros [Hsl Hnx].
      destruct (s ++ space :: r) as [|d r'] eqn:Es; [by destruct s|].
      rewrite (next_cons _ _ _ _ E1) in Hnx by (by subst c).
      destruct (Hs Hsl) as [-> | ->]; simpl in Es; injection Es as <- _; by destruct Hnx. }
    unfold skip_whitespace. destruct Hgap as [-> | ->]; simpl in E.
    - eexists. rewrite skip_whitespace_stays by (by apply Hstart). done.
    - pose proof (skip_exact _ _ _ Hc E ltac:(done)) as S. pose proof (steps_rest lx [space] _ _ S E) as E1.
      rewrite E. cbn [length]. rewrite (skip_whitespace_space _ _ _ E).
      eexists. rewrite skip_whitespace_stays; [by split_and!|]. apply Hstart; [by eapply steps_cstr|done]. }
  destruct Hw as (lx0 & Hw & E0 & Hp0). unfold scan_token. rewrite Hw. set (lx1 := begin_token lx0).
  assert (E1 : current lx1 = c :: s ++ space :: r) by done.
  assert (Hc1 : is_cstr (current lx1)).
  { rewrite E1. rewrite E in Hc. by apply Forall_app in Hc as [_ Hc]. }
  rewrite at_end_spec, E1, bool_decide_eq_false_2 by done. rewrite (advance_cons _ _ _ E1).
  fold (scan_rest c (skip lx1)). pose proof (skip_exact _ _ _ Hc1 E1 Hn) as S1.
  destruct (Hsc (skip lx1) r) as (lx' & -> & S2); [by eapply steps_cstr|by apply (steps_rest lx1 [c])|].
  pose proof (steps_cons _ _ _ _ _ S1 S2) as S. pose proof (token_text_steps lx1 _ _ eq_refl S) as Htext.
  eexists _, lx'. split; [reflexivity|]. simpl. split_and!; [by apply Hf|done| |].
  - by apply (steps_rest lx1 (c :: s)).
  - rewrite (st_peeked _ _ _ S). done.
Qed.

Lemma lexeme_not_eof w t : Lexeme w t -> t <> TOK_EOF.
Proof.
  destruct 1 as [c s _ _|c s t _ Hm|c s t e sg ds _ _ _ _ _|o t Ho|s _]; try done.
  - apply find_keyword_spec; [|done]. repeat constructor; done.
  - by destruct Hm.
  - assert (Hall : Forall (fun kt => kt.2 <> TOK_EOF) operators) by (repeat constructor; done).
    rewrite Forall_forall in Hall. by apply (Hall _ Ho).
Qed.

Lemma lex_printed ss ts : Forall2 Lexeme ss ts -> forall fuel lx gap,
  is_cstr (current lx) -> peeked lx = None -> current lx = gap ++ print_tokens ss -> gap = [] \/ gap = [space] ->
  (length ss < fuel)%nat -> (fun k => (type k, text k)) <$> lex fuel lx = zip ts ss ++ [(TOK_EOF, [])].
Proof.
  induction 1 as [|w t ss ts HL _ IH]; intros fuel lx gap Hc Hp E Hgap Hf; (destruct fuel as [|fuel]; [simpl in Hf; lia|]).
  - assert (He : exists lx', scan_token lx = one lx' TOK_EOF /\ token_text lx' = []).
    { rewrite app_nil_r in E. assert (Hw : current (skip_whitespace lx) = []).
      { unfold skip_whitespace. destruct Hgap as [-> | ->]; rewrite E; [done|]. cbn [length].
        rewrite (skip_whitespace_space _ _ _ E). simpl. by rewrite E. }
      unfold scan_token. eexists. unfold is_at_end, peek_char. simpl. rewrite Hw. split; [reflexivity|].
      unfold token_text. simpl. by rewrite Hw. }
    destruct He as (lx' & He & Ht). cbn [lex]. unfold lexer_next. rewrite Hp, He. simpl. by rewrite Ht.
  - unfold print_tokens in E. simpl in E. rewrite <- (assoc_L (++)) in E. simpl in E.
    destruct (scan_lexeme lx gap w t _ HL Hc E Hgap) as (k & lx' & Hsc & Hk & Htx & E' & Hp').
    pose proof (scan_token_state lx Hc) as Hst. rewrite Hsc in Hst. destruct Hst as (Hc' & _ & _ & _).
    assert (Hne : type k <> TOK_EOF) by (rewrite Hk; by eapply lexeme_not_eof).
    cbn [lex]. unfold lexer_next. rewrite Hp, Hsc, decide_False by done. simpl. rewrite Hk, Htx. f_equal.
    apply (IH fuel lx' [space]); [done|congruence|done|by right|simpl in Hf; lia].
Qed.

Lemma print_tokens_length ss : (length ss <= length (print_tokens ss))%nat.
Proof.
  induction ss as [|s ss IH]; [done|]. change (print_tokens (s :: ss)) with ((s ++ [space]) ++ print_tokens ss).
  rewrite !length_app. cbn [length]. lia.
Qed.

(** C12: printing tokens and lexing the text gives the tokens back: any sequence of
    words, numbers with fraction and exponent, operators and string literals, each
    printed with a space behind it, is read as the same texts with the types the
    keyword table, the number grammar and the operator table give them. *)
Theorem lexer_roundtrip ss ts :
  Forall is_cstr ss -> Forall2 Lexeme ss ts ->
  (fun k => (type k, text k)) <$> tokens (print_tokens ss) = zip ts ss ++ [(TOK_EOF, [])].
Proof.
  intros Hc HL. apply (lex_printed ss ts HL _ _ []); try done; [|by left|].
  - simpl. unfold print_tokens. clear HL. induction Hc as [|s ss Hs _ IH]; simpl; [constructor|].
    apply Forall_app. split; [|done]. apply Forall_app. split; [done|]. by constructor.
  - pose proof (print_tokens_length ss). lia.
Qed.

(** ** Concrete sources *)

Definition sample_source : list Z := chars "fn f(x) { x * 2.5e3 } /* a */ // b"%string.

Lemma lexer_partition_witness :
  lexed sample_source (tokens sample_source) /\ length (tokens sample_source) = 11%nat.
Proof. split; [apply lexer_partition; by apply is_cstr_decide|vm_compute; reflexivity]. Defined.

Definition no_escape (s : list Z) : bool :=
  forallb (fun cd => negb ((cd.1 =? backslash) && (cd.2 =? newline))) (zip s (tail s)).

Lemma no_escape_spec s : no_escape s = true -> ~ escaped s.
Proof.
  intros H (a & b & ->). induction a as [|c a IH]; [done|]. apply IH. unfold no_escape in *. simpl in H.
  destruct a as [|d a]; simpl in *; apply andb_prop in H as [_ H]; done.
Defined.

Lemma lexer_positions_witness : located (1, 1) sample_source (tokens sample_source).
Proof. apply lexer_positions; [by apply is_cstr_decide|by apply no_escape_spec]. Defined.

Definition sample_words : list (list Z) := [chars "while"%string; chars "x1"%string; chars "1_0.5"%string; chars "..="%string].

Lemma lexer_roundtrip_witness :
  (fun k => (type k, text k)) <$> tokens (print_tokens sample_words) =
    zip [TOK_WHILE; TOK_IDENT; TOK_FLOAT; TOK_RANGE_INCL] sample_words ++ [(TOK_EOF, [])].
Proof.
  apply lexer_roundtrip.
  - repeat (constructor; [by apply is_cstr_decide|]). constructor.
  - constructor; [exact (L_word 119 (chars "hile"%string) eq_refl ltac:(repeat constructor))|].
    constructor; [exact (L_word 120 (chars "1"%string) eq_refl ltac:(repeat constructor))|].
    constructor; [exact (L_number 49 _ _ eq_refl (m_frac (chars "_0"%string) 53 [] ltac:(repeat constructor) eq_refl ltac:(constructor)))|].
    constructor; [|constructor]. apply (L_operator "..="%string). apply (list_elem_of_lookup_2 _ 30). reflexivity.
Defined.

(** Line numbers go wrong behind strings with escaped line breaks: a string
    whose only line break stands behind a backslash leaves the line counter where
    it was, so the token on the second line is reported on line 1.  A number may
    end in a bare exponent mark, which is read as a floating-point literal. *)
Theorem lexer_escaped_newline :
  (fun k => (type k, tok_line k)) <$> tokens ([quote; backslash; newline; quote] ++ chars " x"%string) =
    [(TOK_STRING, 1); (TOK_IDENT, 1); (TOK_EOF, 1)] /\
  (fun k => (type k, tok_line k)) <$> tokens ([quote; newline; quote] ++ chars " x"%string) =
    [(TOK_STRING, 2); (TOK_IDENT, 2); (TOK_EOF, 2)] /\
  (fun k => (type k, text k)) <$> tokens (chars "1e x"%string) =
    [(TOK_FLOAT, chars "1e"%string); (TOK_IDENT, chars "x"%string); (TOK_EOF, [])].
Proof. vm_compute. done. Qed.
