(* ===== verification/Bytecode.v ===== *)
(** * Bytecode (src/vm/bytecode.c, src/vm/bytecode.h)

    Chunks of code with their constants and line numbers, the string table, and
    the file format.  A chunk's constants are of any type, so that the interpreter
    can use addresses; the file format is for constants as they are in the heap. *)

From Stdlib Require Import ZArith Lia String.
From stdpp Require Import base numbers list gmap strings.
From S2P Require Import Prelude Hash HashMap Value.
Local Open Scope Z_scope.
Local Open Scope agim_scope.

Inductive Opcode :=
  | OP_NOP | OP_POP | OP_DUP | OP_DUP2 | OP_SWAP | OP_CONST | OP_NIL | OP_TRUE | OP_FALSE | OP_ADD | OP_SUB
  | OP_MUL | OP_DIV | OP_MOD | OP_NEG | OP_EQ | OP_NE | OP_LT | OP_LE | OP_GT | OP_GE | OP_NOT | OP_AND
  | OP_OR | OP_GET_LOCAL | OP_SET_LOCAL | OP_GET_GLOBAL | OP_SET_GLOBAL | OP_JUMP | OP_JUMP_IF
  | OP_JUMP_UNLESS | OP_LOOP | OP_CALL | OP_RETURN | OP_CLOSURE | OP_ARRAY_NEW | OP_ARRAY_PUSH | OP_ARRAY_GET
  | OP_ARRAY_SET | OP_MAP_NEW | OP_MAP_GET | OP_MAP_SET | OP_MAP_GET_IC | OP_CONCAT | OP_SPAWN | OP_SEND
  | OP_RECEIVE | OP_RECEIVE_TIMEOUT | OP_SELF | OP_YIELD | OP_LINK | OP_UNLINK | OP_MONITOR | OP_DEMONITOR
  | OP_SUP_START | OP_SUP_ADD_CHILD | OP_SUP_REMOVE_CHILD | OP_SUP_WHICH_CHILDREN | OP_SUP_SHUTDOWN
  | OP_GROUP_JOIN | OP_GROUP_LEAVE | OP_GROUP_SEND | OP_GROUP_SEND_OTHERS | OP_GROUP_MEMBERS | OP_GROUP_LIST
  | OP_GET_STATS | OP_TRACE | OP_TRACE_OFF | OP_RECEIVE_MATCH | OP_INFER | OP_TOOL_CALL | OP_MEMORY_GET
  | OP_MEMORY_SET | OP_LEN | OP_TYPE | OP_KEYS | OP_PUSH | OP_POP_ARRAY | OP_SLICE | OP_TO_STRING | OP_TO_INT
  | OP_TO_FLOAT | OP_FILE_READ | OP_FILE_WRITE | OP_FILE_EXISTS | OP_FILE_LINES | OP_FILE_WRITE_BYTES
  | OP_HTTP_GET | OP_HTTP_POST | OP_HTTP_PUT | OP_HTTP_DELETE | OP_HTTP_PATCH | OP_HTTP_REQUEST | OP_SHELL
  | OP_JSON_PARSE | OP_JSON_ENCODE | OP_ENV_GET | OP_ENV_SET | OP_SLEEP | OP_TIME | OP_TIME_FORMAT
  | OP_RANDOM | OP_RANDOM_INT | OP_SPLIT | OP_JOIN | OP_TRIM | OP_REPLACE | OP_CONTAINS | OP_STARTS_WITH
  | OP_ENDS_WITH | OP_UPPER | OP_LOWER | OP_CHAR_AT | OP_INDEX_OF | OP_BASE64_ENCODE | OP_BASE64_DECODE
  | OP_READ_STDIN | OP_PRINT_ERR | OP_FLOOR | OP_CEIL | OP_ROUND | OP_ABS | OP_SQRT | OP_POW | OP_MIN
  | OP_MAX | OP_WS_CONNECT | OP_WS_SEND | OP_WS_RECV | OP_WS_CLOSE | OP_HTTP_STREAM | OP_STREAM_READ
  | OP_STREAM_CLOSE | OP_EXEC | OP_EXEC_ASYNC | OP_PROC_WRITE | OP_PROC_READ | OP_PROC_CLOSE | OP_UUID
  | OP_HASH_MD5 | OP_HASH_SHA256 | OP_PRINT | OP_RESULT_OK | OP_RESULT_ERR | OP_RESULT_IS_OK
  | OP_RESULT_IS_ERR | OP_RESULT_UNWRAP | OP_RESULT_UNWRAP_OR | OP_RESULT_MATCH | OP_LIST_TOOLS
  | OP_TOOL_SCHEMA | OP_SOME | OP_NONE | OP_IS_SOME | OP_IS_NONE | OP_UNWRAP_OPTION | OP_UNWRAP_OPTION_OR
  | OP_STRUCT_NEW | OP_STRUCT_GET | OP_STRUCT_SET | OP_STRUCT_GET_INDEX | OP_ENUM_NEW | OP_ENUM_IS
  | OP_ENUM_PAYLOAD | OP_HALT.

(** The numbers the compiler gives the enumeration. *)
Definition opcode_byte (op : Opcode) : Z :=
  match op with
  | OP_NOP => 0 | OP_POP => 1 | OP_DUP => 2 | OP_DUP2 => 3 | OP_SWAP => 4 | OP_CONST => 5 | OP_NIL => 6
  | OP_TRUE => 7 | OP_FALSE => 8 | OP_ADD => 9 | OP_SUB => 10 | OP_MUL => 11 | OP_DIV => 12 | OP_MOD => 13
  | OP_NEG => 14 | OP_EQ => 15 | OP_NE => 16 | OP_LT => 17 | OP_LE => 18 | OP_GT => 19 | OP_GE => 20
  | OP_NOT => 21 | OP_AND => 22 | OP_OR => 23 | OP_GET_LOCAL => 24 | OP_SET_LOCAL => 25 | OP_GET_GLOBAL => 26
  | OP_SET_GLOBAL => 27 | OP_JUMP => 28 | OP_JUMP_IF => 29 | OP_JUMP_UNLESS => 30 | OP_LOOP => 31
  | OP_CALL => 32 | OP_RETURN => 33 | OP_CLOSURE => 34 | OP_ARRAY_NEW => 35 | OP_ARRAY_PUSH => 36
  | OP_ARRAY_GET => 37 | OP_ARRAY_SET => 38 | OP_MAP_NEW => 39 | OP_MAP_GET => 40 | OP_MAP_SET => 41
  | OP_MAP_GET_IC => 42 | OP_CONCAT => 43 | OP_SPAWN => 44 | OP_SEND => 45 | OP_RECEIVE => 46
  | OP_RECEIVE_TIMEOUT => 47 | OP_SELF => 48 | OP_YIELD => 49 | OP_LINK => 50 | OP_UNLINK => 51
  | OP_MONITOR => 52 | OP_DEMONITOR => 53 | OP_SUP_START => 54 | OP_SUP_ADD_CHILD => 55
  | OP_SUP_REMOVE_CHILD => 56 | OP_SUP_WHICH_CHILDREN => 57 | OP_SUP_SHUTDOWN => 58 | OP_GROUP_JOIN => 59
  | OP_GROUP_LEAVE => 60 | OP_GROUP_SEND => 61 | OP_GROUP_SEND_OTHERS => 62 | OP_GROUP_MEMBERS => 63
  | OP_GROUP_LIST => 64 | OP_GET_STATS => 65 | OP_TRACE => 66 | OP_TRACE_OFF => 67 | OP_RECEIVE_MATCH => 68
  | OP_INFER => 69 | OP_TOOL_CALL => 70 | OP_MEMORY_GET => 71 | OP_MEMORY_SET => 72 | OP_LEN => 73
  | OP_TYPE => 74 | OP_KEYS => 75 | OP_PUSH => 76 | OP_POP_ARRAY => 77 | OP_SLICE => 78 | OP_TO_STRING => 79
  | OP_TO_INT => 80 | OP_TO_FLOAT => 81 | OP_FILE_READ => 82 | OP_FILE_WRITE => 83 | OP_FILE_EXISTS => 84
  | OP_FILE_LINES => 85 | OP_FILE_WRITE_BYTES => 86 | OP_HTTP_GET => 87 | OP_HTTP_POST => 88
  | OP_HTTP_PUT => 89 | OP_HTTP_DELETE => 90 | OP_HTTP_PATCH => 91 | OP_HTTP_REQUEST => 92 | OP_SHELL => 93
  | OP_JSON_PARSE => 94 | OP_JSON_ENCODE => 95 | OP_ENV_GET => 96 | OP_ENV_SET => 97 | OP_SLEEP => 98
  | OP_TIME => 99 | OP_TIME_FORMAT => 100 | OP_RANDOM => 101 | OP_RANDOM_INT => 102 | OP_SPLIT => 103
  | OP_JOIN => 104 | OP_TRIM => 105 | OP_REPLACE => 106 | OP_CONTAINS => 107 | OP_STARTS_WITH => 108
  | OP_ENDS_WITH => 109 | OP_UPPER => 110 | OP_LOWER => 111 | OP_CHAR_AT => 112 | OP_INDEX_OF => 113
  | OP_BASE64_ENCODE => 114 | OP_BASE64_DECODE => 115 | OP_READ_STDIN => 116 | OP_PRINT_ERR => 117
  | OP_FLOOR => 118 | OP_CEIL => 119 | OP_ROUND => 120 | OP_ABS => 121 | OP_SQRT => 122 | OP_POW => 123
  | OP_MIN => 124 | OP_MAX => 125 | OP_WS_CONNECT => 126 | OP_WS_SEND => 127 | OP_WS_RECV => 128
  | OP_WS_CLOSE => 129 | OP_HTTP_STREAM => 130 | OP_STREAM_READ => 131 | OP_STREAM_CLOSE => 132
  | OP_EXEC => 133 | OP_EXEC_ASYNC => 134 | OP_PROC_WRITE => 135 | OP_PROC_READ => 136 | OP_PROC_CLOSE => 137
  | OP_UUID => 138 | OP_HASH_MD5 => 139 | OP_HASH_SHA256 => 140 | OP_PRINT => 141 | OP_RESULT_OK => 142
  | OP_RESULT_ERR => 143 | OP_RESULT_IS_OK => 144 | OP_RESULT_IS_ERR => 145 | OP_RESULT_UNWRAP => 146
  | OP_RESULT_UNWRAP_OR => 147 | OP_RESULT_MATCH => 148 | OP_LIST_TOOLS => 149 | OP_TOOL_SCHEMA => 150
  | OP_SOME => 151 | OP_NONE => 152 | OP_IS_SOME => 153 | OP_IS_NONE => 154 | OP_UNWRAP_OPTION => 155
  | OP_UNWRAP_OPTION_OR => 156 | OP_STRUCT_NEW => 157 | OP_STRUCT_GET => 158 | OP_STRUCT_SET => 159
  | OP_STRUCT_GET_INDEX => 160 | OP_ENUM_NEW => 161 | OP_ENUM_IS => 162 | OP_ENUM_PAYLOAD => 163
  | OP_HALT => 164
  end.

Definition opcodes : list Opcode := [
  OP_NOP; OP_POP; OP_DUP; OP_DUP2; OP_SWAP; OP_CONST; OP_NIL; OP_TRUE; OP_FALSE; OP_ADD; OP_SUB; OP_MUL;
  OP_DIV; OP_MOD; OP_NEG; OP_EQ; OP_NE; OP_LT; OP_LE; OP_GT; OP_GE; OP_NOT; OP_AND; OP_OR; OP_GET_LOCAL;
  OP_SET_LOCAL; OP_GET_GLOBAL; OP_SET_GLOBAL; OP_JUMP; OP_JUMP_IF; OP_JUMP_UNLESS; OP_LOOP; OP_CALL;
  OP_RETURN; OP_CLOSURE; OP_ARRAY_NEW; OP_ARRAY_PUSH; OP_ARRAY_GET; OP_ARRAY_SET; OP_MAP_NEW; OP_MAP_GET;
  OP_MAP_SET; OP_MAP_GET_IC; OP_CONCAT; OP_SPAWN; OP_SEND; OP_RECEIVE; OP_RECEIVE_TIMEOUT; OP_SELF; OP_YIELD;
  OP_LINK; OP_UNLINK; OP_MONITOR; OP_DEMONITOR; OP_SUP_START; OP_SUP_ADD_CHILD; OP_SUP_REMOVE_CHILD;
  OP_SUP_WHICH_CHILDREN; OP_SUP_SHUTDOWN; OP_GROUP_JOIN; OP_GROUP_LEAVE; OP_GROUP_SEND; OP_GROUP_SEND_OTHERS;
  OP_GROUP_MEMBERS; OP_GROUP_LIST; OP_GET_STATS; OP_TRACE; OP_TRACE_OFF; OP_RECEIVE_MATCH; OP_INFER;
  OP_TOOL_CALL; OP_MEMORY_GET; OP_MEMORY_SET; OP_LEN; OP_TYPE; OP_KEYS; OP_PUSH; OP_POP_ARRAY; OP_SLICE;
  OP_TO_STRING; OP_TO_INT; OP_TO_FLOAT; OP_FILE_READ; OP_FILE_WRITE; OP_FILE_EXISTS; OP_FILE_LINES;
  OP_FILE_WRITE_BYTES; OP_HTTP_GET; OP_HTTP_POST; OP_HTTP_PUT; OP_HTTP_DELETE; OP_HTTP_PATCH;
  OP_HTTP_REQUEST; OP_SHELL; OP_JSON_PARSE; OP_JSON_ENCODE; OP_ENV_GET; OP_ENV_SET; OP_SLEEP; OP_TIME;
  OP_TIME_FORMAT; OP_RANDOM; OP_RANDOM_INT; OP_SPLIT; OP_JOIN; OP_TRIM; OP_REPLACE; OP_CONTAINS;
  OP_STARTS_WITH; OP_ENDS_WITH; OP_UPPER; OP_LOWER; OP_CHAR_AT; OP_INDEX_OF; OP_BASE64_ENCODE;
  OP_BASE64_DECODE; OP_READ_STDIN; OP_PRINT_ERR; OP_FLOOR; OP_CEIL; OP_ROUND; OP_ABS; OP_SQRT; OP_POW;
  OP_MIN; OP_MAX; OP_WS_CONNECT; OP_WS_SEND; OP_WS_RECV; OP_WS_CLOSE; OP_HTTP_STREAM; OP_STREAM_READ;
  OP_STREAM_CLOSE; OP_EXEC; OP_EXEC_ASYNC; OP_PROC_WRITE; OP_PROC_READ; OP_PROC_CLOSE; OP_UUID; OP_HASH_MD5;
  OP_HASH_SHA256; OP_PRINT; OP_RESULT_OK; OP_RESULT_ERR; OP_RESULT_IS_OK; OP_RESULT_IS_ERR; OP_RESULT_UNWRAP;
  OP_RESULT_UNWRAP_OR; OP_RESULT_MATCH; OP_LIST_TOOLS; OP_TOOL_SCHEMA; OP_SOME; OP_NONE; OP_IS_SOME;
  OP_IS_NONE; OP_UNWRAP_OPTION; OP_UNWRAP_OPTION_OR; OP_STRUCT_NEW; OP_STRUCT_GET; OP_STRUCT_SET;
  OP_STRUCT_GET_INDEX; OP_ENUM_NEW; OP_ENUM_IS; OP_ENUM_PAYLOAD; OP_HALT].

Definition opcode_of_byte (b : Z) : option Opcode := if b <? 0 then None else opcodes !! Z.to_nat b.

Lemma opcode_of_byte_byte op : opcode_of_byte (opcode_byte op) = Some op.
Proof. by destruct op. Qed.

#[global] Instance opcode_byte_inj : Inj (=) (=) opcode_byte.
Proof. intros a b H. apply (inj Some). by rewrite <- !opcode_of_byte_byte, H. Qed.

#[global] Instance Opcode_eq_dec : EqDecision Opcode := fun a b =>
  match decide (opcode_byte a = opcode_byte b) with
  | left H => left (inj opcode_byte a b H)
  | right H => right (fun E => H (f_equal opcode_byte E))
  end.

(** ** Chunks *)

Record Chunk (C : Type) := mkChunk {
  code : list Z;
  code_capacity : Z;
  constants : list C;
  constants_capacity : Z;
  ic_count : Z;
  ic_capacity : Z;
  lines : list Z;
  lines_capacity : Z
}.
Arguments mkChunk {C}. Arguments code {C}. Arguments code_capacity {C}. Arguments constants {C}.
Arguments constants_capacity {C}. Arguments ic_count {C}. Arguments ic_capacity {C}.
Arguments lines {C}. Arguments lines_capacity {C}.

Section chunks.
Context {C : Type}.
Implicit Types c : Chunk C.

Definition code_size c : nat := length (code c).

Definition chunk_new : Chunk C := mkChunk [] 256 [] 64 0 16 [] 256.

(** [if (size >= capacity) capacity *= 2]. *)
Definition grown (capacity : Z) (size : nat) : Z := if capacity <=? Z.of_nat size then u64 (capacity * 2) else capacity.

Definition chunk_write_byte c (byte line : Z) : Chunk C :=
  mkChunk (code c ++ [u8 byte]) (grown (code_capacity c) (code_size c)) (constants c) (constants_capacity c)
    (ic_count c) (ic_capacity c) (lines c ++ [line]) (grown (lines_capacity c) (code_size c)).

Definition chunk_write_opcode c (op : Opcode) (line : Z) : Chunk C := chunk_write_byte c (opcode_byte op) line.

Definition chunk_write_arg c (arg line : Z) : nat * Chunk C :=
  (code_size c,
   chunk_write_byte (chunk_write_byte c ((arg .>> 8) .& 0xFF) line) (arg .& 0xFF) line).

Definition chunk_write_jump c (op : Opcode) (line : Z) : nat * Chunk C :=
  let c := chunk_write_opcode c op line in
  (code_size c, chunk_write_byte (chunk_write_byte c 0xFF line) 0xFF line).

Definition set_chunk_code c (bs : list Z) : Chunk C :=
  mkChunk bs (code_capacity c) (constants c) (constants_capacity c) (ic_count c) (ic_capacity c) (lines c) (lines_capacity c).

Definition UINT16_MAX : Z := 2 ^ 16 - 1.

(** A jump that is too large is reported to the log and left as it was written. *)
Definition chunk_patch_jump c (offset : nat) : Chunk C :=
  let jump := u64 (Z.of_nat (code_size c) - Z.of_nat offset - 2) in
  if UINT16_MAX <? jump then c
  else set_chunk_code c (<[S offset := u8 (jump .& 0xFF)]> (<[offset := u8 ((jump .>> 8) .& 0xFF)]> (code c))).

Definition chunk_add_constant c (value : C) : nat * Chunk C :=
  (length (constants c),
   mkChunk (code c) (code_capacity c) (constants c ++ [value]) (grown (constants_capacity c) (length (constants c)))
     (ic_count c) (ic_capacity c) (lines c) (lines_capacity c)).

Definition chunk_alloc_ic c : Z * Chunk C :=
  (ic_count c,
   mkChunk (code c) (code_capacity c) (constants c) (constants_capacity c)
     (ic_count c + 1) (grown (ic_capacity c) (Z.to_nat (ic_count c))) (lines c) (lines_capacity c)).

Definition chunk_read_byte c (offset : nat) : Z := default 0 (code c !! offset).

(** [None]: the code ends before the argument does. *)
Definition chunk_read_arg c (offset : nat) : option Z :=
  hi ← code c !! offset; lo ← code c !! S offset; mret (u16 (hi .<< 8) .| lo).

End chunks.

(** ** Bytecode *)

Record ToolParamMeta := mkParam { tp_name : option (list Z); tp_type : option (list Z); tp_description : option (list Z) }.
Record ToolInfo := mkTool {
  tool_name : list Z; tool_description : option (list Z); tool_params : list ToolParamMeta;
  tool_return_type : option (list Z); tool_func_index : Z
}.

Record Bytecode (C : Type) := mkBytecode {
  refcount : Z;
  main : Chunk C;
  functions : list (Chunk C);
  strings : list (list Z);
  tools : list ToolInfo;
  version : Z
}.
Arguments mkBytecode {C}. Arguments refcount {C}. Arguments main {C}. Arguments functions {C}.
Arguments strings {C}. Arguments tools {C}. Arguments version {C}.

Definition AGIM_MAGIC : Z := 0x4147494D.
Definition AGIM_BYTECODE_VERSION : Z := 1.

Section bytecode.
Context {C : Type}.
Implicit Types bc : Bytecode C.

Definition bytecode_new : Bytecode C := mkBytecode 1 chunk_new [] [] [] AGIM_BYTECODE_VERSION.

Definition set_refcount bc (n : Z) : Bytecode C :=
  mkBytecode n (main bc) (functions bc) (strings bc) (tools bc) (version bc).
Definition set_main bc (c : Chunk C) : Bytecode C :=
  mkBytecode (refcount bc) c (functions bc) (strings bc) (tools bc) (version bc).
Definition set_functions bc (cs : list (Chunk C)) : Bytecode C :=
  mkBytecode (refcount bc) (main bc) cs (strings bc) (tools bc) (version bc).
Definition set_strings bc (ss : list (list Z)) : Bytecode C :=
  mkBytecode (refcount bc) (main bc) (functions bc) ss (tools bc) (version bc).

Definition bytecode_retain bc : Bytecode C := set_refcount bc (u32 (refcount bc + 1)).
(** [None]: the bytecode is freed. *)
Definition bytecode_release bc : option (Bytecode C) :=
  if refcount bc =? 1 then None else Some (set_refcount bc (u32 (refcount bc - 1))).

Definition bytecode_add_function bc (c : Chunk C) : nat * Bytecode C :=
  (length (functions bc), set_functions bc (functions bc ++ [c])).

Definition bytecode_add_string bc (str : list Z) : nat * Bytecode C :=
  match list_find (str =.) (strings bc) with
  | Some (i, _) => (i, bc)
  | None => (length (strings bc), set_strings bc (strings bc ++ [str]))
  end.
Definition bytecode_get_string bc (index : nat) : option (list Z) := strings bc !! index.

Definition bytecode_add_tool bc (t : ToolInfo) : nat * Bytecode C :=
  (length (tools bc), mkBytecode (refcount bc) (main bc) (functions bc) (strings bc) (tools bc ++ [t]) (version bc)).
Definition bytecode_find_tool bc (name : list Z) : option ToolInfo :=
  snd <$> list_find (fun t => tool_name t = name) (tools bc).

End bytecode.

(** ** The file format *)

(** The bytes of [v], most significant first, as the loops and shifts write them. *)
Fixpoint be_bytes (n : nat) (v : Z) : list Z :=
  match n with
  | O => []
  | S n => (v .>> (8 * Z.of_nat n)) .& 0xFF :: be_bytes n v
  end.
Definition write_u32 (val : Z) : list Z := be_bytes 4 (u32 val).

Definition value_type_byte (t : ValueType) : Z :=
  match t with
  | VAL_NIL => 0 | VAL_BOOL => 1 | VAL_INT => 2 | VAL_FLOAT => 3 | VAL_STRING => 4 | VAL_ARRAY => 5 | VAL_MAP => 6
  | VAL_PID => 7 | VAL_FUNCTION => 8 | VAL_BYTES => 9 | VAL_VECTOR => 10 | VAL_CLOSURE => 11 | VAL_RESULT => 12
  | VAL_OPTION => 13 | VAL_STRUCT => 14 | VAL_ENUM => 15
  end.

Definition constant : Type := vdata ptr.

(** [serialize_value]: values that are not scalars or strings leave their type only. *)
Definition serialize_constant (val : constant) : list Z :=
  value_type_byte (type_of val) ::
  match val with
  | VBool b => [if b then 1 else 0]
  | VInt i => be_bytes 8 (u64 i)
  | VFloat d => be_bytes 8 d
  | VString s => write_u32 (Z.of_nat (strlen s)) ++ cstr s
  | _ => []
  end.

Definition serialize_chunk (c : Chunk constant) : list Z :=
  write_u32 (Z.of_nat (code_size c)) ++ code c ++ concat (write_u32 <$> lines c) ++
  write_u32 (Z.of_nat (length (constants c))) ++ concat (serialize_constant <$> constants c).

(** The size of the buffer: 64 bytes for every constant. *)
Definition chunk_space (c : Chunk constant) : Z :=
  4 + Z.of_nat (code_size c) + Z.of_nat (code_size c) * 4 + 4 + Z.of_nat (length (constants c)) * 64.
Definition sum_Z {A} (f : A -> Z) (l : list A) : Z := foldr (fun x n => f x + n) 0 l.
Definition serialize_space (bc : Bytecode constant) : Z :=
  8 + chunk_space (main bc) + 4 + sum_Z chunk_space (functions bc) + 4 +
  sum_Z (fun s => 4 + Z.of_nat (strlen s) + 1) (strings bc).

Definition serialize_string (s : list Z) : list Z := write_u32 (Z.of_nat (strlen s)) ++ cstr s.

Definition serialized (bc : Bytecode constant) : list Z :=
  write_u32 AGIM_MAGIC ++ write_u32 (version bc) ++ serialize_chunk (main bc) ++
  write_u32 (Z.of_nat (length (functions bc))) ++ concat (serialize_chunk <$> functions bc) ++
  write_u32 (Z.of_nat (length (strings bc))) ++ concat (serialize_string <$> strings bc).

(** [None]: the bytes do not fit into the buffer and the writes leave it. *)
Definition bytecode_serialize (bc : Bytecode constant) : option (list Z) :=
  if Z.of_nat (length (serialized bc)) <=? serialize_space bc then Some (serialized bc) else None.

(** *** Reading *)

(** What a read yields: [RFault] is a read behind the end of the data. *)
Inductive rd_result (A : Type) := RFault | RError | ROk (x : A) (rest : list Z).
Arguments RFault {A}. Arguments RError {A}. Arguments ROk {A}.
Definition rd (A : Type) : Type := list Z -> rd_result A.

Definition rd_ret {A} (x : A) : rd A := fun l => ROk x l.
Definition rd_error {A} : rd A := fun _ => RError.
Definition rd_bind {A B} (r : rd A) (k : A -> rd B) : rd B := fun l =>
  match r l with
  | RFault => RFault
  | RError => RError
  | ROk x rest => k x rest
  end.
Notation "x <-- r ; k" := (rd_bind r (fun x => k)) (at level 100, r at next level, right associativity) : agim_scope.

(** The test that [n] more bytes are there. *)
Definition check (n : Z) : rd () := fun l => if Z.of_nat (length l) <? n then RError else ROk tt l.

(** [n] bytes, unchecked. *)
Definition take_bytes (n : Z) : rd (list Z) := fun l =>
  if Z.of_nat (length l) <? n then RFault else ROk (take (Z.to_nat n) l) (drop (Z.to_nat n) l).

Definition be_val (bs : list Z) : Z := foldl (fun v b => (v .<< 8) .| b) 0 bs.
Definition read_u32 : rd Z := bs <-- take_bytes 4; rd_ret (u32 (be_val bs)).
Definition read_u64 : rd Z := bs <-- take_bytes 8; rd_ret (u64 (be_val bs)).

Definition deserialize_constant : rd constant :=
  _ <-- check 1; bs <-- take_bytes 1;
  match bs with
  | [0] => rd_ret VNil
  | [1] => _ <-- check 1; bs <-- take_bytes 1; rd_ret (VBool (negb (be_val bs =? 0)))
  | [2] => _ <-- check 8; v <-- read_u64; rd_ret (VInt (s64 v))
  | [3] => _ <-- check 8; v <-- read_u64; rd_ret (VFloat v)
  | [4] => _ <-- check 4; len <-- read_u32; _ <-- check len; s <-- take_bytes len; rd_ret (VString (cstr s))
  | _ => rd_error
  end.

(** [n] rounds of a loop. *)
Fixpoint rd_repeat {A} (n : nat) (r : rd A) : rd (list A) :=
  match n with
  | O => rd_ret []
  | S n => x <-- r; xs <-- rd_repeat n r; rd_ret (x :: xs)
  end.

(** The capacity loop [while (capacity < size) capacity *= 2]; the size is at most
    16 MB, so 64 doublings are enough. *)
Definition capacity_for (cap size : Z) : Z := default cap (double_until 64 cap size).

Definition grown_by {A} (cap : Z) (l : list A) : Z := foldl grown cap (seq 0 (length l)).

Definition deserialize_chunk : rd (Chunk constant) :=
  _ <-- check 4; size <-- read_u32;
  _ <-- check size;
  if 16 * 1024 * 1024 <? size then rd_error else
  bytes <-- take_bytes size;
  _ <-- check (size * 4);
  ls <-- rd_repeat (Z.to_nat size) read_u32;
  _ <-- check 4; const_count <-- read_u32;
  if 1024 * 1024 <? const_count then rd_error else
  cs <-- rd_repeat (Z.to_nat const_count) deserialize_constant;
  rd_ret (mkChunk bytes (capacity_for 256 size) cs (grown_by 64 cs) 0 16 (s32 <$> ls) (capacity_for 256 size)).

Definition deserialize_string : rd (list Z) :=
  _ <-- check 4; len <-- read_u32; _ <-- check len; s <-- take_bytes len; rd_ret (cstr s).

(** The strings go through [bytecode_add_string]. *)
Definition add_strings (bc : Bytecode constant) (ss : list (list Z)) : Bytecode constant :=
  foldl (fun bc s => (bytecode_add_string bc s).2) bc ss.

Definition deserialize_all : rd (Bytecode constant) :=
  magic <-- read_u32;
  if negb (magic =? AGIM_MAGIC) then rd_error else
  v <-- read_u32;
  if AGIM_BYTECODE_VERSION <? v then rd_error else
  m <-- deserialize_chunk;
  _ <-- check 4; func_count <-- read_u32;
  fs <-- rd_repeat (Z.to_nat func_count) deserialize_chunk;
  _ <-- check 4; str_count <-- read_u32;
  ss <-- rd_repeat (Z.to_nat str_count) deserialize_string;
  rd_ret (add_strings (mkBytecode 1 m fs [] [] v) ss).

Definition bytecode_deserialize (data : list Z) : rd_result (Bytecode constant) :=
  if Z.of_nat (length data) <? 8 then RError else deserialize_all data.

(** ** Bytes and numbers *)

Lemma land_ff a : a .& 0xFF = a mod 2 ^ 8.
Proof. change 0xFF with (Z.ones 8). by apply Z.land_ones. Qed.

Lemma be_step v b : is_u8 b -> (v .<< 8) .| b = v * 2 ^ 8 + b.
Proof. intros Hb. by apply lor_shift_add. Qed.

Lemma be_val_fold bs v : Forall is_u8 bs ->
  foldl (fun v b => (v .<< 8) .| b) v bs = v * 2 ^ (8 * Z.of_nat (length bs)) + be_val bs.
Proof.
  unfold be_val. intros Hbs. revert v. induction Hbs as [|b bs Hb _ IH]; intros v; simpl length; [simpl; lia|].
  cbn [foldl]. rewrite (IH (_ .| _)), (IH (0 .<< 8 .| b)), !be_step by done. rewrite Nat2Z.inj_succ.
  replace (8 * Z.succ (Z.of_nat (length bs))) with (8 + 8 * Z.of_nat (length bs)) by lia. rewrite Z.pow_add_r by lia. lia.
Qed.

Lemma be_bytes_u8 n v : Forall is_u8 (be_bytes n v).
Proof.
  induction n as [|n IH]; simpl; constructor; [|done]. rewrite land_ff. unfold is_u8.
  apply Z.mod_pos_bound. lia.
Qed.

Lemma be_bytes_length n v : length (be_bytes n v) = n.
Proof. induction n; simpl; congruence. Qed.

Lemma be_val_bytes n v : be_val (be_bytes n v) = v mod 2 ^ (8 * Z.of_nat n).
Proof.
  induction n as [|n IH]; [simpl; by rewrite Z.mod_1_r|].
  assert (Hu : is_u8 (v .>> (8 * Z.of_nat n) .& 255)).
  { rewrite land_ff. unfold is_u8. apply Z.mod_pos_bound. lia. }
  change (be_bytes (S n) v) with (v .>> (8 * Z.of_nat n) .& 255 :: be_bytes n v). unfold be_val. cbn [foldl].
  rewrite be_val_fold, be_bytes_length, IH, be_step by (apply be_bytes_u8 || done).
  rewrite land_ff, Z.shiftr_div_pow2, Nat2Z.inj_succ by lia. set (k := 8 * Z.of_nat n).
  replace (8 * Z.succ (Z.of_nat n)) with (k + 8) by lia. rewrite Z.pow_add_r by lia.
  rewrite (Z.rem_mul_r v (2 ^ k) (2 ^ 8)) by lia. lia.
Qed.

(** ** Writing chunks *)

Section chunk_lemmas.
Context {C : Type}.
Implicit Types c : Chunk C.

(** Code and lines run in step, and every array has room for what it holds. *)
Record chunk_wf c : Prop := {
  cw_lines : length (lines c) = code_size c;
  cw_code_fits : Z.of_nat (code_size c) <= code_capacity c /\ 1 <= code_capacity c;
  cw_lines_fits : Z.of_nat (code_size c) <= lines_capacity c /\ 1 <= lines_capacity c;
  cw_constants_fits : Z.of_nat (length (constants c)) <= constants_capacity c /\ 1 <= constants_capacity c;
  cw_ic_fits : 0 <= ic_count c <= ic_capacity c /\ 1 <= ic_capacity c;
  cw_bytes : Forall is_u8 (code c)
}.

Lemma grown_fits cap size :
  Z.of_nat size <= cap -> 1 <= cap -> Z.of_nat size < 2 ^ 62 -> Z.of_nat (S size) <= grown cap size /\ cap <= grown cap size.
Proof.
  intros H1 H2 H3. unfold grown. case_if_goal; [|lia]. rewrite u64_small; [lia|]. unfold is_u64. lia.
Qed.

Lemma chunk_new_wf : chunk_wf (chunk_new (C := C)).
Proof. split; unfold code_size; simpl; try lia; constructor. Qed.

Lemma chunk_write_byte_wf c b line :
  chunk_wf c -> Z.of_nat (code_size c) < 2 ^ 62 -> chunk_wf (chunk_write_byte c b line).
Proof.
  intros [H1 [H2 H2'] [H3 H3'] H4 H5 H6] Hs. unfold chunk_write_byte, code_size in *.
  destruct (grown_fits _ _ H2 H2' Hs). destruct (grown_fits _ _ H3 H3' Hs).
  split; simpl; unfold code_size; simpl; rewrite ?length_app; simpl; try lia.
  apply Forall_app. split; [done|]. constructor; [apply u8_range|constructor].
Qed.

(** A 16-bit argument, as two bytes. *)
Definition arg_bytes (arg : Z) : list Z := [arg / 2 ^ 8; arg mod 2 ^ 8].

Lemma arg_byte_split arg : 0 <= arg <= UINT16_MAX ->
  u8 ((arg .>> 8) .& 0xFF) = arg / 2 ^ 8 /\ u8 (arg .& 0xFF) = arg mod 2 ^ 8.
Proof.
  intros H. unfold UINT16_MAX in H. rewrite !land_ff, Z.shiftr_div_pow2 by lia. unfold u8, wrap.
  rewrite !Z.mod_mod by lia. split; [|done]. apply Z.mod_small.
  split; [apply Z.div_pos; lia|]. apply Z.div_lt_upper_bound; lia.
Qed.

Lemma chunk_write_arg_code c arg line :
  0 <= arg <= UINT16_MAX -> code (chunk_write_arg c arg line).2 = code c ++ arg_bytes arg.
Proof.
  intros H. unfold chunk_write_arg. simpl. rewrite <- (assoc_L (++)). simpl.
  destruct (arg_byte_split arg H) as [-> ->]. done.
Qed.

Lemma chunk_read_arg_at c pre arg post :
  0 <= arg <= UINT16_MAX -> code c = pre ++ arg_bytes arg ++ post -> chunk_read_arg c (length pre) = Some arg.
Proof.
  intros H E. unfold chunk_read_arg. rewrite E.
  assert (E0 : (pre ++ arg_bytes arg ++ post) !! length pre = Some (arg / 2 ^ 8)).
  { by rewrite lookup_app_r, Nat.sub_diag by lia. }
  assert (E1 : (pre ++ arg_bytes arg ++ post) !! S (length pre) = Some (arg mod 2 ^ 8)).
  { rewrite lookup_app_r by lia. by replace (S (length pre) - length pre)%nat with 1%nat by lia. }
  rewrite E0, E1. cbn [mbind option_bind mret option_ret]. f_equal. unfold UINT16_MAX in H.
  assert (0 <= arg mod 2 ^ 8 < 2 ^ 8) by (apply Z.mod_pos_bound; lia).
  assert (0 <= arg / 2 ^ 8 < 2 ^ 8) by (split; [apply Z.div_pos; lia|apply Z.div_lt_upper_bound; lia]).
  unfold u16, wrap. rewrite Z.mod_small by (rewrite Z.shiftl_mul_pow2 by lia; lia).
  rewrite lor_shift_add by lia. rewrite (Z.div_mod arg (2 ^ 8)) at 3 by lia. lia.
Qed.

(** Patching a jump written before [body]. *)
Lemma chunk_patch_jump_code c pre x y body :
  code c = pre ++ [x; y] ++ body -> (Z.of_nat (length body) <= UINT16_MAX) ->
  code (chunk_patch_jump c (length pre)) = pre ++ arg_bytes (Z.of_nat (length body)) ++ body.
Proof.
  intros E H. unfold chunk_patch_jump, code_size. rewrite E, !length_app. simpl.
  assert (Hj : u64 (Z.of_nat (length pre + S (S (length body))) - Z.of_nat (length pre) - 2) = Z.of_nat (length body)).
  { rewrite u64_small; [lia|]. unfold is_u64, UINT16_MAX in *. lia. }
  rewrite Hj, (proj2 (Z.ltb_ge _ _) H). simpl. destruct (arg_byte_split (Z.of_nat (length body))) as [-> ->]; [lia|].
  rewrite insert_app_r_alt, Nat.sub_diag by lia. simpl. rewrite insert_app_r_alt by lia.
  by replace (S (length pre) - length pre)%nat with 1%nat by lia.
Qed.

Lemma chunk_patch_jump_too_large c pre x y body :
  code c = pre ++ [x; y] ++ body -> UINT16_MAX < Z.of_nat (length body) < 2 ^ 62 -> chunk_patch_jump c (length pre) = c.
Proof.
  intros E H. unfold chunk_patch_jump, code_size. rewrite E, !length_app. simpl. rewrite u64_small.
  - rewrite (proj2 (Z.ltb_lt _ _)) by lia. done.
  - unfold is_u64, UINT16_MAX in *. lia.
Qed.

Definition write_bytes c (bs : list Z) (line : Z) : Chunk C := foldl (fun c b => chunk_write_byte c b line) c bs.

Lemma write_bytes_code c bs line : Forall is_u8 bs -> code (write_bytes c bs line) = code c ++ bs.
Proof.
  intros Hbs. revert c. induction Hbs as [|b bs Hb _ IH]; intros c; simpl; [by rewrite app_nil_r|].
  rewrite IH. simpl. rewrite <- (assoc_L (++)). simpl. by rewrite u8_small.
Qed.

Lemma write_bytes_wf c bs line :
  chunk_wf c -> Z.of_nat (code_size c + length bs) < 2 ^ 62 -> chunk_wf (write_bytes c bs line).
Proof.
  revert c. induction bs as [|b bs IH]; intros c Hc Hs; simpl in *; [done|]. apply IH.
  - apply chunk_write_byte_wf; [done|lia].
  - unfold code_size in *. simpl. rewrite length_app. simpl. lia.
Qed.

Lemma set_chunk_code_wf c bs : chunk_wf c -> length bs = code_size c -> Forall is_u8 bs -> chunk_wf (set_chunk_code c bs).
Proof. intros [] Hl Hb. by split; unfold code_size in *; simpl; rewrite ?Hl. Qed.

Lemma chunk_patch_jump_wf c offset : chunk_wf c -> chunk_wf (chunk_patch_jump c offset).
Proof.
  intros Hc. unfold chunk_patch_jump. case_if_goal; [done|]. apply set_chunk_code_wf; [done|by rewrite !length_insert|].
  apply Forall_insert; [apply Forall_insert; [apply Hc|apply u8_range]|apply u8_range].
Qed.

Lemma opcode_byte_u8 op : is_u8 (opcode_byte op).
Proof. by destruct op. Qed.

(** C13: a jump that is written with a placeholder, followed by any code and then
    patched, has as its argument exactly the length of that code, so it lands
    behind it; the code before, the opcode and the code jumped over are unchanged,
    and the chunk's arrays keep their room.  Above 65535 bytes the patch does
    nothing, and the placeholder 0xFFFF stays. *)
Theorem chunk_patch_jump_lands c op body line :
  chunk_wf c -> Forall is_u8 body -> Z.of_nat (code_size c + length body) < 2 ^ 61 ->
  let (offset, c1) := chunk_write_jump c op line in
  let c' := chunk_patch_jump (write_bytes c1 body line) offset in
  chunk_wf c' /\
  code c' = code c ++ [opcode_byte op] ++
    arg_bytes (if Z.of_nat (length body) <=? UINT16_MAX then Z.of_nat (length body) else UINT16_MAX) ++ body /\
  chunk_read_arg c' offset = Some (if Z.of_nat (length body) <=? UINT16_MAX then Z.of_nat (length body) else UINT16_MAX) /\
  (Z.of_nat (length body) <= UINT16_MAX -> (offset + 2 + length body)%nat = code_size c').
Proof.
  intros Hc Hb Hs. unfold chunk_write_jump, chunk_write_opcode. set (c0 := chunk_write_byte c (opcode_byte op) line).
  set (c1 := chunk_write_byte _ 255 _). set (arg := if Z.of_nat (length body) <=? UINT16_MAX then Z.of_nat (length body) else UINT16_MAX). cbv zeta.
  assert (Hc0 : code c0 = code c ++ [opcode_byte op]) by (simpl; by rewrite u8_small by apply opcode_byte_u8).
  assert (Hsize : code_size c0 = S (code_size c)) by (unfold code_size; rewrite Hc0, length_app; simpl; lia).
  assert (E : code (write_bytes c1 body line) = code c0 ++ [255; 255] ++ body).
  { rewrite write_bytes_code by done. subst c1. simpl. by rewrite <- !(assoc_L (++)). }
  assert (Ec : code (chunk_patch_jump (write_bytes c1 body line) (code_size c0)) = code c0 ++ arg_bytes arg ++ body).
  { subst arg. destruct (Z.of_nat (length body) <=? UINT16_MAX) eqn:El; bool_prop.
    - by apply (chunk_patch_jump_code _ (code c0) 255 255).
    - unfold code_size at 1. rewrite (chunk_patch_jump_too_large _ (code c0) 255 255 body) by (done || lia). exact E. }
  assert (Ha : 0 <= arg <= UINT16_MAX) by (subst arg; unfold UINT16_MAX; case_if_goal; bool_prop; unfold UINT16_MAX in *; lia).
  split_and!.
  - apply chunk_patch_jump_wf, write_bytes_wf.
    + unfold code_size in *. repeat (apply chunk_write_byte_wf; [|unfold code_size; simpl; rewrite ?length_app; simpl; lia]). done.
    + unfold code_size in *. subst c1. simpl. rewrite !length_app. simpl. lia.
  - rewrite Ec, Hc0. by rewrite <- (assoc_L (++)).
  - by eapply (chunk_read_arg_at _ (code c0)).
  - intros Hl. unfold code_size at 2. rewrite Ec, !length_app, Hsize. unfold code_size in *. rewrite Hc0, length_app. simpl. lia.
Qed.

End chunk_lemmas.

Lemma chunk_patch_jump_lands_witness :
  let (offset, c1) := chunk_write_jump (chunk_new (C := ptr)) OP_JUMP 1 in
  chunk_read_arg (chunk_patch_jump (write_bytes c1 [1; 2; 3] 1) offset) offset = Some 3.
Proof.
  apply (chunk_patch_jump_lands (chunk_new (C := ptr)) OP_JUMP [1; 2; 3] 1).
  - apply chunk_new_wf.
  - by repeat constructor.
  - done.
Defined.

(** ** The string table *)

Section strings.
Context {C : Type}.
Implicit Types bc : Bytecode C.

(** The string table interns: adding a string gives an index that yields it,
    indices handed out before stay valid, a string is stored once, adding it again
    gives the same index, and nothing else of the bytecode changes. *)
Theorem bytecode_add_string_interns bc str :
  NoDup (strings bc) ->
  let (i, bc') := bytecode_add_string bc str in
  bytecode_get_string bc' i = Some str /\ NoDup (strings bc') /\
  (forall j s, bytecode_get_string bc j = Some s -> bytecode_get_string bc' j = Some s) /\
  (forall j, bytecode_get_string bc' j = Some str -> j = i) /\
  bytecode_add_string bc' str = (i, bc') /\
  main bc' = main bc /\ functions bc' = functions bc /\ tools bc' = tools bc.
Proof.
  intros Hn. unfold bytecode_add_string, bytecode_get_string.
  destruct (list_find (str =.) (strings bc)) as [[i s]|] eqn:Ef.
  - pose proof Ef as Ef'. apply list_find_Some in Ef as (Hi & <- & _). rewrite Ef'. split_and!; try done.
    intros j Hj. by eapply NoDup_lookup.
  - apply list_find_None in Ef. assert (Hnew : str ∉ strings bc).
    { intros [k Hk]%list_elem_of_lookup. rewrite Forall_lookup in Ef. by apply (Ef k str Hk). }
    cbn [strings set_strings]. assert (Hi : (strings bc ++ [str]) !! length (strings bc) = Some str)
      by (by rewrite lookup_app_r, Nat.sub_diag by lia).
    assert (Hn' : NoDup (strings bc ++ [str])).
    { apply NoDup_app. split_and!; [done| |apply NoDup_singleton]. by intros x Hx ->%list_elem_of_singleton. }
    split_and!; try done.
    + intros j s Hj. by apply lookup_app_l_Some.
    + intros j Hj. by eapply NoDup_lookup.
    + assert (Ef' : list_find (str =.) (strings bc ++ [str]) = Some (length (strings bc), str)).
      { apply list_find_Some. split_and!; [done|done|]. intros j y Hj Hlt. rewrite lookup_app_l in Hj by done.
        rewrite Forall_lookup in Ef. by apply (Ef j). }
      by rewrite Ef'.
Qed.

End strings.

Lemma bytecode_add_string_interns_witness :
  let (i, bc') := bytecode_add_string (bytecode_new (C := ptr)) [120] in
  bytecode_get_string bc' i = Some [120].
Proof.
  pose proof (bytecode_add_string_interns (bytecode_new (C := ptr)) [120] ltac:(constructor)) as H.
  destruct (bytecode_add_string (bytecode_new (C := ptr)) [120]). exact (proj1 H).
Defined.

(** ** Writing a file and reading it back *)

(** Reading [bs] gives [x], whatever follows. *)
Definition rd_reads {A} (r : rd A) (bs : list Z) (x : A) : Prop := forall rest, r (bs ++ rest) = ROk x rest.

Lemma rd_ret_reads {A} (x : A) : rd_reads (rd_ret x) [] x.
Proof. intros rest. done. Qed.

Lemma rd_bind_reads {A B} (r : rd A) (k : A -> rd B) bs1 bs2 x y :
  rd_reads r bs1 x -> rd_reads (k x) bs2 y -> rd_reads (rd_bind r k) (bs1 ++ bs2) y.
Proof. intros H1 H2 rest. unfold rd_bind. by rewrite <- (assoc_L (++)), H1, H2. Qed.

Lemma reads_check {B} n (k : () -> rd B) bs y :
  n <= Z.of_nat (length bs) -> rd_reads (k tt) bs y -> rd_reads (rd_bind (check n) k) bs y.
Proof.
  intros Hn Hk rest. unfold rd_bind, check. rewrite (proj2 (Z.ltb_ge _ _)); [apply Hk|]. rewrite length_app. lia.
Qed.

Lemma reads_take n bs : n = Z.of_nat (length bs) -> rd_reads (take_bytes n) bs bs.
Proof.
  intros -> rest. unfold take_bytes. rewrite (proj2 (Z.ltb_ge _ _)) by (rewrite length_app; lia).
  by rewrite Nat2Z.id, take_app_length, drop_app_length.
Qed.

Lemma write_u32_length v : length (write_u32 v) = 4%nat.
Proof. apply be_bytes_length. Qed.

Lemma rd_u32_reads v : rd_reads read_u32 (write_u32 v) (u32 v).
Proof.
  unfold read_u32. rewrite <- (app_nil_r (write_u32 v)).
  eapply rd_bind_reads; [apply reads_take; by rewrite write_u32_length|].
  intros rest. unfold rd_ret. f_equal. unfold write_u32. rewrite be_val_bytes. unfold u32, wrap.
  change (8 * Z.of_nat 4) with 32.  by rewrite !Z.mod_mod by lia.
Qed.

Lemma rd_u64_reads v : is_u64 v -> rd_reads read_u64 (be_bytes 8 v) v.
Proof.
  intros Hv. unfold read_u64. rewrite <- (app_nil_r (be_bytes 8 v)).
  eapply rd_bind_reads; [apply reads_take; by rewrite be_bytes_length|].
  intros rest. unfold rd_ret. do 2 f_equal. rewrite be_val_bytes. change (8 * Z.of_nat 8) with 64.
  change (u64 (u64 v) = v). by rewrite !u64_small by (done || apply u64_range).
Qed.

Lemma reads_repeat {A B} (r : rd A) (enc : B -> list Z) (view : B -> A) l :
  Forall (fun x => rd_reads r (enc x) (view x)) l -> rd_reads (rd_repeat (length l) r) (concat (enc <$> l)) (view <$> l).
Proof.
  induction 1 as [|x l Hx _ IH]; [apply rd_ret_reads|]. simpl. eapply rd_bind_reads; [exact Hx|].
  rewrite <- (app_nil_r (concat _)). eapply rd_bind_reads; [exact IH|]. apply rd_ret_reads.
Qed.

(** Constants the format can represent. *)
Definition portable_constant (v : constant) : Prop :=
  match v with
  | VNil | VBool _ => True
  | VInt i => is_s64 i
  | VFloat d => is_u64 d
  | VString s => is_cstr s /\ Z.of_nat (length s) < 2 ^ 32
  | _ => False
  end.

Lemma reads_counted s : is_cstr s -> Z.of_nat (length s) < 2 ^ 32 ->
  rd_reads (len <-- read_u32; _ <-- check len; s <-- take_bytes len; rd_ret (cstr s))
    (write_u32 (Z.of_nat (strlen s)) ++ cstr s) s.
Proof.
  intros Hc Hl. rewrite is_cstr_strlen, is_cstr_cstr by done.
  assert (Hu : u32 (Z.of_nat (length s)) = Z.of_nat (length s)) by (apply u32_small; unfold is_u32; lia).
  eapply rd_bind_reads; [apply rd_u32_reads|]. rewrite Hu. apply reads_check; [lia|].
  rewrite <- (app_nil_r s) at 2. eapply rd_bind_reads; [by apply reads_take|]. intros rest. by rewrite is_cstr_cstr.
Qed.

Lemma reads_constant v : portable_constant v -> rd_reads deserialize_constant (serialize_constant v) v.
Proof.
  intros Hv. unfold deserialize_constant, serialize_constant. apply reads_check; [simpl; lia|].
  change (?x :: ?l) with ([x] ++ l). eapply rd_bind_reads; [by apply reads_take|].
  destruct v; try done; cbn [value_type_byte type_of].
  - apply reads_check; [done|]. rewrite <- (app_nil_r [_]). eapply rd_bind_reads; [by apply reads_take|]. by destruct b.
  - apply reads_check; [by rewrite be_bytes_length|]. rewrite <- (app_nil_r (be_bytes _ _)).
    eapply rd_bind_reads; [apply rd_u64_reads, u64_range|]. intros rest. unfold rd_ret. by rewrite s64_u64.
  - apply reads_check; [by rewrite be_bytes_length|]. rewrite <- (app_nil_r (be_bytes _ _)).
    eapply rd_bind_reads; [by apply rd_u64_reads|]. apply rd_ret_reads.
  - destruct Hv as [Hc Hl]. apply reads_check; [rewrite length_app, write_u32_length; lia|].
    pose proof (reads_counted s Hc Hl) as H. intros rest. specialize (H rest).
    unfold rd_bind in *. repeat (case_match; try done). by injection H as -> ->.
Qed.

Definition portable_chunk (c : Chunk constant) : Prop :=
  length (lines c) = code_size c /\ Z.of_nat (code_size c) <= 16 * 1024 * 1024 /\
  Z.of_nat (length (constants c)) <= 1024 * 1024 /\
  Forall (fun l => - 2 ^ 31 <= l < 2 ^ 31) (lines c) /\ Forall portable_constant (constants c).

Lemma concat_u32_length (ls : list Z) : length (concat (write_u32 <$> ls)) = (length ls * 4)%nat.
Proof. induction ls as [|l ls IH]; [done|]. cbn [fmap list_fmap concat]. rewrite length_app, write_u32_length, IH. simpl. lia. Qed.

(** A chunk as it is read: the capacities depend on the sizes only. *)
Definition reloaded (c : Chunk constant) : Chunk constant :=
  let cap := capacity_for 256 (Z.of_nat (code_size c)) in
  mkChunk (code c) cap (constants c) (grown_by 64 (constants c)) 0 16 (lines c) cap.

Lemma reads_chunk c : portable_chunk c -> rd_reads deserialize_chunk (serialize_chunk c) (reloaded c).
Proof.
  intros (Hlen & Hsize & Hcount & Hlines & Hconst). unfold deserialize_chunk, serialize_chunk.
  assert (Hu : u32 (Z.of_nat (code_size c)) = Z.of_nat (code_size c)) by (apply u32_small; unfold is_u32; lia).
  assert (Hu' : u32 (Z.of_nat (length (constants c))) = Z.of_nat (length (constants c))) by (apply u32_small; unfold is_u32; lia).
  apply reads_check; [rewrite length_app, write_u32_length; lia|].
  eapply rd_bind_reads; [apply rd_u32_reads|]. rewrite Hu. apply reads_check; [rewrite length_app; unfold code_size; lia|].
  rewrite (proj2 (Z.ltb_ge _ _)) by done. eapply rd_bind_reads; [by apply reads_take|].
  apply reads_check; [rewrite length_app, concat_u32_length, Hlen; lia|].
  eapply rd_bind_reads.
  { rewrite Nat2Z.id, <- Hlen. apply (reads_repeat read_u32 write_u32 u32). apply Forall_true. apply rd_u32_reads. }
  apply reads_check; [rewrite length_app, write_u32_length; lia|].
  eapply rd_bind_reads; [apply rd_u32_reads|]. rewrite Hu', (proj2 (Z.ltb_ge _ _)) by done.
  rewrite <- (app_nil_r (concat (serialize_constant <$> constants c))). eapply rd_bind_reads.
  { rewrite Nat2Z.id. apply (reads_repeat deserialize_constant serialize_constant id).
    eapply Forall_impl; [exact Hconst|]. apply reads_constant. }
  intros rest. unfold rd_ret, reloaded. rewrite list_fmap_id. do 2 f_equal.
  rewrite <- list_fmap_compose. rewrite <- (list_fmap_id (lines c)) at 2. apply list_fmap_ext. intros i l Hl.
  rewrite Forall_lookup in Hlines. specialize (Hlines i l Hl). simpl. unfold s32, u32, wrap.
  rewrite Z.mod_mod by lia. change (s32 l = l). by apply s32_small.
Qed.

Lemma rd_string_reads s : is_cstr s -> Z.of_nat (length s) < 2 ^ 32 -> rd_reads deserialize_string (serialize_string s) s.
Proof.
  intros Hc Hl. unfold deserialize_string, serialize_string.
  apply reads_check; [rewrite length_app, write_u32_length; lia|]. by apply reads_counted.
Qed.

Lemma add_strings_spec bc ss :
  NoDup (strings bc ++ ss) -> strings (add_strings bc ss) = strings bc ++ ss /\
  main (add_strings bc ss) = main bc /\ functions (add_strings bc ss) = functions bc /\ version (add_strings bc ss) = version bc.
Proof.
  revert bc. induction ss as [|s ss IH]; intros bc Hn; [by rewrite app_nil_r|]. unfold add_strings. cbn [foldl].
  assert (Ha : bytecode_add_string bc s = (length (strings bc), set_strings bc (strings bc ++ [s]))).
  { unfold bytecode_add_string. destruct (list_find (s =.) (strings bc)) as [[i x]|] eqn:E; [|done].
    apply list_find_Some in E as (Hi & <- & _). apply NoDup_app in Hn as (_ & Hd & _).
    destruct (Hd s); [by eapply list_elem_of_lookup_2|by left]. }
  rewrite Ha. cbn [snd]. fold (add_strings (set_strings bc (strings bc ++ [s])) ss).
  specialize (IH (set_strings bc (strings bc ++ [s]))). cbn [strings set_strings main functions version] in IH.
  rewrite <- (assoc_L (++)) in IH. by apply IH.
Qed.

Record portable (bc : Bytecode constant) : Prop := {
  po_main : portable_chunk (main bc);
  po_functions : Forall portable_chunk (functions bc);
  po_version : 0 <= version bc <= AGIM_BYTECODE_VERSION;
  po_counts : Z.of_nat (length (functions bc)) < 2 ^ 32 /\ Z.of_nat (length (strings bc)) < 2 ^ 32;
  po_strings : NoDup (strings bc) /\ Forall (fun s => is_cstr s /\ Z.of_nat (length s) < 2 ^ 32) (strings bc)
}.

Lemma reads_bytecode bc : portable bc -> exists bc', rd_reads deserialize_all (serialized bc) bc' /\
  main bc' = reloaded (main bc) /\ functions bc' = reloaded <$> functions bc /\ strings bc' = strings bc /\
  version bc' = version bc.
Proof.
  intros [Hm Hf Hv [Hnf Hns] [Hnd Hs]]. pose proof (add_strings_spec (mkBytecode 1 (reloaded (main bc)) (reloaded <$> functions bc)
    [] [] (version bc)) (strings bc) Hnd) as (E1 & E2 & E3 & E4). eexists. split; [|by split_and!].
  unfold deserialize_all, serialized. eapply rd_bind_reads; [apply rd_u32_reads|]. cbn [negb Z.eqb].
  replace (u32 AGIM_MAGIC =? AGIM_MAGIC) with true by done. cbn [negb].
  unfold AGIM_BYTECODE_VERSION in *. eapply rd_bind_reads; [apply rd_u32_reads|].
  rewrite u32_small by (unfold is_u32; lia). rewrite (proj2 (Z.ltb_ge _ _)) by lia.
  eapply rd_bind_reads; [by apply reads_chunk|]. apply reads_check; [rewrite length_app, write_u32_length; lia|].
  eapply rd_bind_reads; [apply rd_u32_reads|]. rewrite u32_small by (unfold is_u32; lia). eapply rd_bind_reads.
  { rewrite Nat2Z.id. apply (reads_repeat deserialize_chunk serialize_chunk reloaded).
    eapply Forall_impl; [exact Hf|]. apply reads_chunk. }
  apply reads_check; [rewrite length_app, write_u32_length; lia|].
  eapply rd_bind_reads; [apply rd_u32_reads|]. rewrite u32_small by (unfold is_u32; lia).
  rewrite <- (app_nil_r (concat _)). eapply rd_bind_reads.
  { rewrite Nat2Z.id. apply (reads_repeat deserialize_string serialize_string id).
    eapply Forall_impl; [exact Hs|]. intros s [? ?]. by apply rd_string_reads. }
  rewrite list_fmap_id. apply rd_ret_reads.
Qed.

(** *** Room in the buffer *)

Definition constant_size (v : constant) : Z := Z.of_nat (length (serialize_constant v)).

Lemma sum_Z_app {A} (f : A -> Z) l1 l2 : sum_Z f (l1 ++ l2) = sum_Z f l1 + sum_Z f l2.
Proof. unfold sum_Z. induction l1 as [|x l1 IH]; simpl; lia. Qed.

Lemma sum_Z_le {A} (f g : A -> Z) l : Forall (fun x => f x <= g x) l -> sum_Z f l <= sum_Z g l.
Proof. unfold sum_Z. induction 1; simpl; lia. Qed.

Lemma sum_Z_const {A} (k : Z) (l : list A) : sum_Z (fun _ => k) l = k * Z.of_nat (length l).
Proof. unfold sum_Z. induction l as [|x l IH]; simpl length; [simpl; lia|]. simpl foldr. rewrite IH. lia. Qed.

Lemma concat_length_sum {A} (f : A -> list Z) l : Z.of_nat (length (concat (f <$> l))) = sum_Z (fun x => Z.of_nat (length (f x))) l.
Proof. induction l as [|x l IH]; [done|]. cbn [fmap list_fmap concat]. rewrite length_app, Nat2Z.inj_add, IH. done. Qed.

Lemma serialize_chunk_size c : length (lines c) = code_size c ->
  Z.of_nat (length (serialize_chunk c)) = chunk_space c - 64 * Z.of_nat (length (constants c)) + sum_Z constant_size (constants c).
Proof.
  intros Hl. unfold serialize_chunk, chunk_space.
  rewrite !length_app, !write_u32_length, concat_u32_length, Hl, !Nat2Z.inj_add, concat_length_sum. unfold code_size, constant_size. lia.
Qed.

Definition roomy (c : Chunk constant) : Prop := Forall (fun v => constant_size v <= 64) (constants c).

Lemma roomy_fits c : length (lines c) = code_size c -> roomy c -> Z.of_nat (length (serialize_chunk c)) <= chunk_space c.
Proof.
  intros Hl Hr. rewrite serialize_chunk_size by done. pose proof (sum_Z_le _ _ _ Hr) as H. rewrite sum_Z_const in H. lia.
Qed.

Lemma serialized_size bc :
  Z.of_nat (length (serialized bc)) = 16 + Z.of_nat (length (serialize_chunk (main bc))) +
    sum_Z (fun c => Z.of_nat (length (serialize_chunk c))) (functions bc) +
    sum_Z (fun s => Z.of_nat (length (serialize_string s))) (strings bc).
Proof. unfold serialized. rewrite !length_app, !write_u32_length, !Nat2Z.inj_add, !concat_length_sum. lia. Qed.

Lemma serialize_string_size s : is_cstr s -> Z.of_nat (length (serialize_string s)) <= 4 + Z.of_nat (strlen s) + 1.
Proof.
  intros Hs. unfold serialize_string. rewrite length_app, write_u32_length, is_cstr_strlen, is_cstr_cstr by done. lia.
Qed.


(** *** Reading any file *)

Definition safe_read {A} (r : rd A) : Prop := forall l, r l <> RFault.

Lemma safe_bind {A B} (r : rd A) (k : A -> rd B) : safe_read r -> (forall x, safe_read (k x)) -> safe_read (rd_bind r k).
Proof. intros Hr Hk l. unfold rd_bind. specialize (Hr l). destruct (r l); try done. apply Hk. Qed.

Lemma safe_ret {A} (x : A) : safe_read (rd_ret x).
Proof. done. Qed.
Lemma safe_error {A} : safe_read (@rd_error A).
Proof. done. Qed.

(** Reads that a check in front of them allows. *)
Definition safe_within {A} (n : Z) (r : rd A) : Prop := forall l, n <= Z.of_nat (length l) -> r l <> RFault.

Lemma safe_checked {B} n (k : rd B) : safe_within n k -> safe_read (rd_bind (check n) (fun _ => k)).
Proof. intros Hk l. unfold rd_bind, check. case_if_goal; [done|]. apply Hk. lia. Qed.

Lemma within_take {B} n m (k : list Z -> rd B) :
  m <= n -> (forall bs, safe_read (k bs)) -> safe_within n (rd_bind (take_bytes m) k).
Proof. intros Hm Hk l Hl. unfold rd_bind, take_bytes. rewrite (proj2 (Z.ltb_ge _ _)) by lia. apply Hk. Qed.

Lemma within_u32 {B} n (k : Z -> rd B) : 4 <= n -> (forall v, safe_within (n - 4) (k v)) -> safe_within n (rd_bind read_u32 k).
Proof.
  intros Hn Hk l Hl. unfold read_u32, rd_bind, take_bytes. rewrite (proj2 (Z.ltb_ge _ _)) by lia.
  unfold rd_ret. apply Hk. rewrite length_drop. lia.
Qed.

Lemma within_safe {A} n (r : rd A) : safe_read r -> safe_within n r.
Proof. intros Hr l _. apply Hr. Qed.

Lemma safe_repeat {A} n (r : rd A) : safe_read r -> safe_read (rd_repeat n r).
Proof. intros Hr. induction n; simpl; [done|]. apply safe_bind; [done|]. intros x. by apply safe_bind. Qed.

Lemma within_repeat_u32 {B} n (k : list Z -> rd B) : (forall x, safe_read (k x)) -> forall m, 4 * Z.of_nat n <= m ->
  safe_within m (rd_bind (rd_repeat n read_u32) k).
Proof.
  induction n as [|n IH] in k |- *; intros Hk m Hm l Hl.
  - apply Hk.
  - cbn [rd_repeat]. unfold rd_bind at 1 2, read_u32 at 1, rd_bind at 1, take_bytes.
    rewrite (proj2 (Z.ltb_ge _ _)) by lia. unfold rd_ret at 1.
    pose proof (IH (fun xs => k (u32 (be_val (take (Z.to_nat 4) l)) :: xs)) ltac:(intros; apply Hk) (4 * Z.of_nat n) ltac:(lia)
      (drop (Z.to_nat 4) l) ltac:(rewrite length_drop; lia)) as H.
    unfold rd_bind in H |- *. by destruct (rd_repeat n read_u32 _).
Qed.

Lemma safe_u64 {B} (k : Z -> rd B) : (forall v, safe_read (k v)) -> safe_within 8 (rd_bind read_u64 k).
Proof.
  intros Hk l Hl. unfold read_u64, rd_bind, take_bytes. rewrite (proj2 (Z.ltb_ge _ _)) by lia. apply Hk.
Qed.

Lemma safe_constant : safe_read deserialize_constant.
Proof.
  apply safe_checked, within_take; [done|]. intros bs. repeat (case_match; try apply safe_ret; try apply safe_error).
  - apply safe_checked, safe_u64. intros v. apply safe_ret.
  - apply safe_checked, within_u32; [done|]. intros len. apply within_safe, safe_checked, within_take; [done|]. intros s. apply safe_ret.
  - apply safe_checked, safe_u64. intros v. apply safe_ret.
  - apply safe_checked, within_take; [done|]. intros b. apply safe_ret.
Qed.

Lemma safe_chunk : safe_read deserialize_chunk.
Proof.
  apply safe_checked, within_u32; [done|]. intros size. apply within_safe, safe_checked. intros l Hl.
  destruct (16 * 1024 * 1024 <? size); [done|]. revert l Hl. apply within_take; [done|]. intros bytes.
  destruct (Z.lt_ge_cases size 0) as [Hneg|Hpos].
  - intros l. unfold rd_bind at 1, check at 1. case_if_goal; [done|]. replace (Z.to_nat size) with 0%nat by lia.
    simpl. unfold rd_bind at 1. cbn [rd_repeat]. unfold rd_ret at 1. apply safe_checked. apply within_u32; [done|].
    intros n. apply within_safe. case_if_goal; [apply safe_error|]. apply safe_bind; [apply safe_repeat, safe_constant|intros ?; apply safe_ret].
  - apply safe_checked. apply within_repeat_u32; [|lia]. intros ls. apply safe_checked, within_u32; [done|]. intros n.
    apply within_safe. case_if_goal; [apply safe_error|]. apply safe_bind; [apply safe_repeat, safe_constant|intros ?; apply safe_ret].
Qed.

Lemma safe_string : safe_read deserialize_string.
Proof.
  apply safe_checked, within_u32; [done|]. intros len. apply within_safe, safe_checked, within_take; [done|].
  intros s. apply safe_ret.
Qed.


(** *** What the format cannot hold *)

(** A program that is one instruction and one constant. *)
Definition one_constant (v : constant) : Bytecode constant :=
  set_main bytecode_new (mkChunk [opcode_byte OP_HALT] 256 [v] 64 0 16 [1] 256).

(** Two limits of the file format.  The buffer has 64 bytes for each constant,
    but a string takes all it needs: writing a program whose only constant is a
    string of 60 or more characters runs over the end of the buffer.  Functions
    are written as their type only, and a file with a function among its constants
    is rejected when it is read. *)
Theorem bytecode_file_limits :
  (forall s, is_cstr s -> 60 <= Z.of_nat (length s) -> bytecode_serialize (one_constant (VString s)) = None) /\
  (forall f, exists data, bytecode_serialize (one_constant (VFunction f)) = Some data /\ bytecode_deserialize data = RError).
Proof.
  split.
  - intros s Hc Hs. unfold bytecode_serialize. rewrite (proj2 (Z.leb_gt _ _)); [done|].
    rewrite serialized_size, serialize_chunk_size by done.
    change (constants (main (one_constant (VString s)))) with [@VString ptr s].
    change (sum_Z constant_size [@VString ptr s]) with (constant_size (VString s) + 0).
    assert (constant_size (VString s) = 5 + Z.of_nat (length s)) as ->.
    { unfold constant_size, serialize_constant. cbn [length].
      rewrite length_app, write_u32_length, is_cstr_cstr by done. lia. }
    unfold serialize_space, chunk_space. simpl. lia.
  - intros f. exists (serialized (one_constant (VFunction f))). split; vm_compute; reflexivity.
Qed.

Definition sample_bytecode : Bytecode constant :=
  (bytecode_add_function (bytecode_add_string (one_constant (VString [104; 105])) [120]).2
     (mkChunk [opcode_byte OP_RETURN] 256 [VInt (-5)] 64 0 16 [7] 256)).2.

