(* ===== verification/VM.v ===== *)
(** * The stack interpreter (src/vm/vm.c, src/vm/vm.h)

    The machine's stack is a buffer at an address, so that frames hold
    addresses into it as they do in the code; addresses are counted in slots.
    Reading a slot that was never written, or outside the buffer, is a fault,
    and so is every other undefined behaviour.  [vm_run] is the
    computed-goto loop: each instruction counts one reduction, the instructions
    of the fast path look at the limit every 64 reductions and the others every
    time.  Instructions that are not modelled here (input and output, messages,
    text and time functions) are an argument, [other]. *)

From Stdlib Require Import ZArith Lia String.
From stdpp Require Import base numbers list gmap.
From S2P Require Import Prelude Float64 Hash HashMap Nanbox Value Array MapValue Strings Block Bytecode.
Local Open Scope Z_scope.
Local Open Scope agim_scope.

(** ** State *)

Definition VM_STACK_INITIAL : Z := 64.
Definition VM_FRAMES_INITIAL : Z := 8.
Definition VM_STACK_MAX : Z := 1024.
Definition VM_FRAMES_MAX : Z := 256.
Definition REDUCTION_BATCH : Z := 64.

(** [chunk]: the main chunk or a function's; [ip] is an offset into its code and
    [slots] the address of the frame's first slot. *)
Record CallFrame := mkFrame { f_chunk : option nat; ip : Z; slots : ptr; f_function : option Function_ }.

(** [memory] holds the slots of the stack buffer, whose capacity is its length;
    the innermost frame comes first.  An open upvalue is its address and the
    slot it refers to. *)
Record VM := mkMachine {
  stack : ptr;
  memory : list (option NanValue);
  stack_top : ptr;
  frames : list CallFrame;
  frames_capacity : Z;
  initialized : bool;
  globals : ptr;
  bytecode : option (Bytecode ptr);
  open_upvalues : list (ptr * ptr);
  closed_upvalues : gmap Z NanValue;
  error : option string;
  error_line : Z;
  reductions : Z;
  reduction_limit : Z
}.

Definition stack_capacity (vm : VM) : Z := Z.of_nat (length (memory vm)).

Definition set_stack (vm : VM) (base : ptr) (mem : list (option NanValue)) (top : ptr) : VM :=
  mkMachine base mem top (frames vm) (frames_capacity vm) (initialized vm) (globals vm) (bytecode vm)
    (open_upvalues vm) (closed_upvalues vm) (error vm) (error_line vm) (reductions vm) (reduction_limit vm).
Definition set_top (vm : VM) (top : ptr) : VM := set_stack vm (stack vm) (memory vm) top.
Definition set_frames (vm : VM) (fs : list CallFrame) : VM :=
  mkMachine (stack vm) (memory vm) (stack_top vm) fs (frames_capacity vm) (initialized vm) (globals vm) (bytecode vm)
    (open_upvalues vm) (closed_upvalues vm) (error vm) (error_line vm) (reductions vm) (reduction_limit vm).
Definition set_frames_capacity (vm : VM) (n : Z) : VM :=
  mkMachine (stack vm) (memory vm) (stack_top vm) (frames vm) n (initialized vm) (globals vm) (bytecode vm)
    (open_upvalues vm) (closed_upvalues vm) (error vm) (error_line vm) (reductions vm) (reduction_limit vm).
Definition set_upvalues (vm : VM) (l : list (ptr * ptr)) (m : gmap Z NanValue) : VM :=
  mkMachine (stack vm) (memory vm) (stack_top vm) (frames vm) (frames_capacity vm) (initialized vm) (globals vm)
    (bytecode vm) l m (error vm) (error_line vm) (reductions vm) (reduction_limit vm).
Definition set_error_at (vm : VM) (e : option string) (line : Z) : VM :=
  mkMachine (stack vm) (memory vm) (stack_top vm) (frames vm) (frames_capacity vm) (initialized vm) (globals vm)
    (bytecode vm) (open_upvalues vm) (closed_upvalues vm) e line (reductions vm) (reduction_limit vm).
Definition set_reductions (vm : VM) (n : Z) : VM :=
  mkMachine (stack vm) (memory vm) (stack_top vm) (frames vm) (frames_capacity vm) (initialized vm) (globals vm)
    (bytecode vm) (open_upvalues vm) (closed_upvalues vm) (error vm) (error_line vm) n (reduction_limit vm).
Definition set_limit (vm : VM) (n : Z) : VM :=
  mkMachine (stack vm) (memory vm) (stack_top vm) (frames vm) (frames_capacity vm) (initialized vm) (globals vm)
    (bytecode vm) (open_upvalues vm) (closed_upvalues vm) (error vm) (error_line vm) (reductions vm) n.

(** ** Steps: a fault, a result of [vm_run], or a value and the next state *)

Inductive outcome (A : Type) :=
  | Fault
  | Return (r : VMResult) (vm : VM) (st : Store)
  | Next (x : A) (vm : VM) (st : Store).
Arguments Fault {A}. Arguments Return {A}. Arguments Next {A}.

Definition V (A : Type) : Type := VM -> Store -> outcome A.
#[global] Instance V_ret : MRet V := fun A x vm st => Next x vm st.
#[global] Instance V_bind : MBind V := fun A B k m vm st =>
  match m vm st with Next x vm' st' => k x vm' st' | Return r vm' st' => Return r vm' st' | Fault => Fault end.

Definition fault {A} : V A := fun _ _ => Fault.
Definition return_ {A} (r : VMResult) : V A := fun vm st => Return r vm st.
Definition get : V VM := fun vm st => Next vm vm st.
Definition put (vm : VM) : V unit := fun _ st => Next tt vm st.
(** Code on the shared store. *)
Definition lift {A} (m : M A) : V A := fun vm st =>
  match m st with Some (x, st') => Next x vm st' | None => Fault end.
Definition or_fault {A} (o : option A) : V A := match o with Some x => mret x | None => fault end.

(** The chunk of a frame. *)
Definition chunk_of (vm : VM) (f : CallFrame) : option (Chunk ptr) :=
  bc ← bytecode vm; match f_chunk f with None => Some (main bc) | Some i => functions bc !! i end.

Definition vm_set_error (message : string) : V unit := fun vm st =>
  match head (frames vm) with
  | None => Next tt (set_error_at vm (Some message) (error_line vm)) st
  | Some f =>
      match chunk_of vm f with
      | None => Fault
      | Some c =>
          let offset := u64 (ip f - 1) in
          let line := if offset <? Z.of_nat (code_size c) then default 0 (lines c !! Z.to_nat offset) else error_line vm in
          Next tt (set_error_at vm (Some message) line) st
      end
  end.

(** Sets the error and makes [vm_run] return. *)
Definition fail {A} (r : VMResult) (message : string) : V A := vm_set_error message ;; return_ r.

(** ** Life cycle *)

Definition vm_new : M VM := fun st =>
  match value_new (VMap map_new) st with
  | Some (g, st') => Some (mkMachine NULL [] NULL [] 0 false g None [] empty None 0 0 10000, st')
  | None => None
  end.

(** [new_stack] is the address [malloc] gives the stack; 0 is a failure (which
    leaves the capacity at 64 without a buffer, until the next attempt). *)
Definition vm_ensure_initialized (new_stack : ptr) (frames_ok : bool) (vm : VM) : bool * VM :=
  if initialized vm then (true, vm)
  else if new_stack =? NULL then (false, set_stack vm NULL [] (stack_top vm))
  else if negb frames_ok then (false, set_frames_capacity (set_stack vm NULL [] NULL) VM_FRAMES_INITIAL)
  else (true, mkMachine new_stack (replicate (Z.to_nat VM_STACK_INITIAL) None) new_stack [] VM_FRAMES_INITIAL true
                (globals vm) (bytecode vm) (open_upvalues vm) (closed_upvalues vm) (error vm) (error_line vm)
                (reductions vm) (reduction_limit vm)).

Definition vm_reset (vm : VM) : VM :=
  mkMachine (stack vm) (memory vm) (if stack vm =? NULL then stack_top vm else stack vm) [] (frames_capacity vm)
    (initialized vm) (globals vm) (bytecode vm) [] (closed_upvalues vm) None 0 0 (reduction_limit vm).

Definition vm_load (new_stack : ptr) (frames_ok : bool) (code : Bytecode ptr) (vm : VM) : VM :=
  match vm_ensure_initialized new_stack frames_ok vm with
  | (false, vm) => vm
  | (true, vm) =>
      let vm := vm_reset vm in
      mkMachine (stack vm) (memory vm) (stack_top vm) [mkFrame None 0 (stack vm) None] (frames_capacity vm)
        (initialized vm) (globals vm) (Some code) (open_upvalues vm) (closed_upvalues vm) (error vm) (error_line vm)
        (reductions vm) (reduction_limit vm)
  end.

Section interpreter.
(** The address [realloc] gives a stack of some capacity (0 is a failure),
    whether the frame array can grow, the allocations of array and map updates,
    and the instructions that are not modelled. *)
Context (realloc : ptr -> Z -> ptr) (frames_ok clone_ok grow_ok rem_ok : bool) (set_ok : set_allocs).
Context (other : Opcode -> V unit).

(** ** The stack *)

Definition grow_memory (mem : list (option NanValue)) (n : Z) : list (option NanValue) :=
  take (Z.to_nat n) mem ++ replicate (Z.to_nat n - length mem) None.

(** Doubled until it suffices, but never above the maximum. *)
Definition grown_capacity (capacity required : Z) : Z :=
  let start := if capacity =? 0 then VM_STACK_INITIAL else capacity in
  let new_capacity := default start (double_until 64 start required) in
  if VM_STACK_MAX * 4 <? new_capacity then VM_STACK_MAX * 4 else new_capacity.
#[global] Arguments grown_capacity : simpl never.

(** The frames' slots are moved by the distance of [slots - (stack - used)]
    computed with the new address of the stack. *)
Definition vm_ensure_stack (needed : Z) (vm : VM) : bool * VM :=
  let used := stack_top vm - stack vm in
  let required := used + needed in
  if required <=? stack_capacity vm then (true, vm)
  else
    let new_capacity := grown_capacity (stack_capacity vm) required in
    let new_stack := realloc (stack vm) new_capacity in
    if new_stack =? NULL then (false, vm)
    else
      let vm' := set_stack vm new_stack (grow_memory (memory vm) new_capacity) (new_stack + used) in
      (true, set_frames vm' ((fun f => mkFrame (f_chunk f) (ip f) (new_stack + (slots f - (new_stack - used))) (f_function f))
                             <$> frames vm')).

Definition vm_ensure_frames (vm : VM) : bool * VM :=
  if Z.of_nat (length (frames vm)) <? frames_capacity vm then (true, vm)
  else
    let new_capacity := if frames_capacity vm =? 0 then VM_FRAMES_INITIAL else frames_capacity vm * 2 in
    let new_capacity := if VM_FRAMES_MAX * 4 <? new_capacity then VM_FRAMES_MAX * 4 else new_capacity in
    if frames_ok then (true, set_frames_capacity vm new_capacity) else (false, vm).

(** The slot at an address of the stack buffer. *)
Definition slot_at (vm : VM) (a : ptr) : option nat :=
  if (stack vm <=? a) && (a <? stack vm + stack_capacity vm) then Some (Z.to_nat (a - stack vm)) else None.
Definition read_slot (a : ptr) : V NanValue :=
  vm ← get; or_fault (i ← slot_at vm a; v ← memory vm !! i; v).
Definition write_slot (a : ptr) (v : NanValue) : V unit :=
  vm ← get;
  match slot_at vm a with
  | Some i => put (set_stack vm (stack vm) (<[i := Some v]> (memory vm)) (stack_top vm))
  | None => fault
  end.

(** The result, which the interpreter's callers ignore. *)
Definition vm_push_nan (value : NanValue) : V VMResult :=
  vm ← get;
  let '(ok, vm') := if stack vm + stack_capacity vm <=? stack_top vm then vm_ensure_stack 1 vm else (true, vm) in
  put vm' ;;
  if negb ok then vm_set_error "stack overflow" ;; mret VM_ERROR_STACK_OVERFLOW
  else write_slot (stack_top vm') value ;;
       vm ← get; put (set_top vm (stack_top vm + 1)) ;; mret VM_OK.

Definition vm_pop_nan : V NanValue :=
  vm ← get;
  if stack_top vm <=? stack vm then vm_set_error "stack underflow" ;; mret NANBOX_NIL
  else put (set_top vm (stack_top vm - 1)) ;; read_slot (stack_top vm - 1).

Definition vm_peek_nan (distance : Z) : V NanValue :=
  vm ← get;
  if stack_top vm - distance <=? stack vm then mret NANBOX_NIL else read_slot (stack_top vm - 1 - distance).

Definition push (v : NanValue) : V unit := vm_push_nan v ;; mret tt.

(** *** Values: [nanbox_to_value] allocates a cell for a word that is not an object *)

Definition box (v : NanValue) : M ptr :=
  match nanbox_to_value v with
  | UNil => value_new VNil
  | UBool b => value_new (VBool b)
  | UInt i => value_new (VInt i)
  | UFloat d => value_new (VFloat d)
  | UPid p => value_new (VPid p)
  | UObj p => mret p
  end.
Definition unbox (val : ptr) : M NanValue :=
  if val =? NULL then mret NANBOX_NIL else c ← load val; mret (value_to_nanbox val (data c)).

Definition vm_push (value : ptr) : V unit := n ← lift (unbox value); push n.
Definition vm_pop : V ptr := v ← vm_pop_nan; lift (box v).
Definition vm_peek (distance : Z) : V ptr := v ← vm_peek_nan distance; lift (box v).

(** ** The current frame *)

Definition frame : V CallFrame := vm ← get; or_fault (head (frames vm)).
Definition set_ip (n : Z) : V unit :=
  vm ← get;
  match frames vm with
  | [] => fault
  | f :: fs => put (set_frames vm (mkFrame (f_chunk f) n (slots f) (f_function f) :: fs))
  end.
Definition current_chunk : V (Chunk ptr) := vm ← get; f ← frame; or_fault (chunk_of vm f).

(** Reading behind the end of the code is a fault. *)
Definition code_byte (c : Chunk ptr) (n : Z) : V Z := if n <? 0 then fault else or_fault (code c !! Z.to_nat n).
Definition read_byte : V Z :=
  f ← frame; c ← current_chunk; b ← code_byte c (ip f); set_ip (ip f + 1) ;; mret b.
Definition read_short : V Z :=
  f ← frame; c ← current_chunk; hi ← code_byte c (ip f); lo ← code_byte c (ip f + 1);
  set_ip (ip f + 2) ;; mret (u16 ((hi .<< 8) .| lo)).
Definition read_constant_nan : V NanValue :=
  index ← read_short; c ← current_chunk;
  if Z.of_nat (length (constants c)) <=? index then mret NANBOX_NIL
  else k ← or_fault (constants c !! Z.to_nat index); lift (unbox k).

Definition check_jump_forward (f : CallFrame) (c : Chunk ptr) (offset : Z) : bool := ip f + offset <=? Z.of_nat (code_size c).
Definition check_jump_backward (f : CallFrame) (offset : Z) : bool := offset <=? ip f.

(** ** Instructions of the fast path *)

(** A binary operator on numbers: on integers ([None] where [int64_t]
    overflows, which is undefined) and on doubles. *)
Record num_op := mkNumOp { on_ints : Z -> Z -> option Z; on_floats : f64 -> f64 -> f64 }.
Definition int64 (x : Z) : option Z := if (- 2 ^ 63 <=? x) && (x <? 2 ^ 63) then Some x else None.
Definition op_plus : num_op := mkNumOp (fun a b => int64 (a + b)) f64_add.
Definition op_minus : num_op := mkNumOp (fun a b => int64 (a - b)) f64_sub.
Definition op_times : num_op := mkNumOp (fun a b => int64 (a * b)) f64_mul.
Definition op_divide : num_op := mkNumOp (fun a b => if b =? 0 then None else int64 (Z.quot a b)) f64_div.

(** A comparison: on integers, doubles, and the sign of [strcmp]. *)
Record cmp_op := mkCmpOp { cmp_ints : Z -> Z -> bool; cmp_floats : f64 -> f64 -> bool }.
Definition op_lt : cmp_op := mkCmpOp Z.ltb f64_ltb.
Definition op_le : cmp_op := mkCmpOp Z.leb f64_leb.
Definition op_gt : cmp_op := mkCmpOp Z.gtb (fun a b => f64_ltb b a).
Definition op_ge : cmp_op := mkCmpOp Z.geb (fun a b => f64_leb b a).

Definition BINARY_OP_NUM_NAN (op : num_op) : V unit :=
  b ← vm_pop_nan; a ← vm_pop_nan;
  if nanbox_is_int a && nanbox_is_int b then
    r ← or_fault (on_ints op (nanbox_as_int a) (nanbox_as_int b)); push (nanbox_int r)
  else if nanbox_is_number a && nanbox_is_number b then
    push (nanbox_double (on_floats op (nanbox_to_float a) (nanbox_to_float b)))
  else fail VM_ERROR_TYPE "operands must be numbers".

(** [value_is_string] of an object word. *)
Definition object_string (v : NanValue) : M (option (list Z)) := load_string (nanbox_as_obj v).
Definition is_string_word (v : NanValue) : V bool :=
  if nanbox_is_obj v then s ← lift (object_string v); mret (bool_decide (is_Some s)) else mret false.

Definition BINARY_OP_CMP_NAN (op : cmp_op) : V unit :=
  b ← vm_pop_nan; a ← vm_pop_nan;
  if nanbox_is_int a && nanbox_is_int b then push (nanbox_bool (cmp_ints op (nanbox_as_int a) (nanbox_as_int b)))
  else if nanbox_is_number a && nanbox_is_number b then
    push (nanbox_bool (cmp_floats op (nanbox_to_float a) (nanbox_to_float b)))
  else if nanbox_is_obj a && nanbox_is_obj b then
    sa ← is_string_word a; sb ← is_string_word b;
    if sa && sb then
      cmp ← lift (string_compare (nanbox_as_obj a) (nanbox_as_obj b)); push (nanbox_bool (cmp_ints op cmp 0))
    else fail VM_ERROR_TYPE "cannot compare these types"
  else fail VM_ERROR_TYPE "cannot compare these types".

(** A string operand of [+]; nil stands for the empty string. *)
Definition string_operand (v : NanValue) : M ptr :=
  if nanbox_is_nil v then value_string [] else mret (nanbox_as_obj v).

Definition run_add : V unit :=
  b ← vm_peek_nan 0; a ← vm_peek_nan 1;
  sa ← is_string_word a; sb ← is_string_word b;
  if (nanbox_is_nil a || sa) && (nanbox_is_nil b || sb) then
    vm_pop_nan ;; vm_pop_nan ;;
    str_a ← lift (string_operand a); str_b ← lift (string_operand b);
    r ← lift (string_concat str_a str_b); vm_push r
  else BINARY_OP_NUM_NAN op_plus.

Definition run_div : V unit :=
  b ← vm_peek_nan 0;
  if nanbox_is_int b && (nanbox_as_int b =? 0) then fail VM_ERROR_DIVISION_BY_ZERO "division by zero"
  else if nanbox_is_double b && f64_eqb (nanbox_as_double b) f64_zero then fail VM_ERROR_DIVISION_BY_ZERO "division by zero"
  else BINARY_OP_NUM_NAN op_divide.

Definition run_mod : V unit :=
  b ← vm_pop_nan; a ← vm_pop_nan;
  if negb (nanbox_is_int a) || negb (nanbox_is_int b) then fail VM_ERROR_TYPE "modulo requires integers"
  else if nanbox_as_int b =? 0 then fail VM_ERROR_DIVISION_BY_ZERO "division by zero"
  else push (nanbox_int (Z.rem (nanbox_as_int a) (nanbox_as_int b))).

Definition run_neg : V unit :=
  v ← vm_pop_nan;
  if nanbox_is_int v then push (nanbox_int (- nanbox_as_int v))
  else if nanbox_is_double v then push (nanbox_double (f64_neg (nanbox_as_double v)))
  else fail VM_ERROR_TYPE "operand must be a number".

(** [value_equals]; the recursion is along references, with fuel for their depth
    (running out of it is the C stack running out). *)
Fixpoint value_equals (fuel : nat) (a b : ptr) : M bool :=
  match fuel with
  | O => ub
  | S fuel =>
      if (a =? NULL) || (b =? NULL) then mret false else
      ca ← load a; cb ← load b;
      match data ca, data cb with
      | VNil, VNil => mret true
      | VBool x, VBool y => mret (bool_decide (x = y))
      | VInt x, VInt y => mret (x =? y)
      | VFloat x, VFloat y => mret (f64_eqb x y)
      | VString _, VString _ => string_equals a b
      | VPid x, VPid y => mret (x =? y)
      | VArray _ xs, VArray _ ys =>
          if negb (length xs =? length ys)%nat then mret false else
          (fix items (xs ys : list ptr) : M bool :=
             match xs, ys with
             | x :: xs, y :: ys => r ← value_equals fuel x y; if negb r then mret false else items xs ys
             | _, _ => mret true
             end) xs ys
      | VMap x, VMap y =>
          if negb (size x =? size y)%nat then mret false else
          (fix entries (es : list (MapEntry ptr)) : M bool :=
             match es with
             | [] => mret true
             | e :: es =>
                 match map_get y (e_key e) with
                 | None => mret false
                 | Some q =>
                     if q =? NULL then mret false else
                     r ← value_equals fuel (e_value e) q; if negb r then mret false else entries es
                 end
             end) (concat (buckets x))
      | d, e => mret (bool_decide (type_of d = type_of e) && (a =? b))
      end
  end.
Definition equals (a b : ptr) : M bool := fun st => value_equals (S (base.size (cells st))) a b st.

Definition run_eq (negated : bool) : V unit :=
  b ← vm_pop_nan; a ← vm_pop_nan;
  r ← (if nanbox_is_obj a && nanbox_is_obj b then lift (equals (nanbox_as_obj a) (nanbox_as_obj b))
       else mret (nanbox_equal a b));
  push (nanbox_bool (if negated : bool then negb r else r)).

Definition run_dup : V unit :=
  vm ← get;
  if stack_top vm <=? stack vm then fail VM_ERROR_STACK_UNDERFLOW "stack underflow"
  else top ← vm_peek_nan 0; push top.

Definition run_swap : V unit :=
  vm ← get;
  if stack_top vm - stack vm <? 2 then fail VM_ERROR_STACK_UNDERFLOW "stack underflow"
  else a ← vm_pop_nan; b ← vm_pop_nan; push a ;; push b.

Definition run_get_local : V unit := slot ← read_short; f ← frame; v ← read_slot (slots f + slot); push v.
Definition run_set_local : V unit := slot ← read_short; v ← vm_peek_nan 0; f ← frame; write_slot (slots f + slot) v.

(** A name of the string table; using an index outside of it is a fault, as the
    map functions dereference the null name. *)
Definition string_at (index : Z) : V (option (list Z)) :=
  vm ← get; bc ← or_fault (bytecode vm); mret (bytecode_get_string bc (Z.to_nat index)).
Definition read_name : V (list Z) := index ← read_short; name ← string_at index; or_fault name.

Definition map_value_get (m : ptr) (key : list Z) : M ptr :=
  x ← load_map m; mret (match x with Some (_, mm) => default NULL (map_get mm key) | None => NULL end).

Definition run_get_global : V unit :=
  key ← read_name; vm ← get; value ← lift (map_value_get (globals vm) key);
  if value =? NULL then fail VM_ERROR_UNDEFINED_VARIABLE "undefined variable" else vm_push value.

(** The map that [map_set] returns is dropped. *)
Definition run_set_global : V unit :=
  key ← read_name; v ← vm_peek_nan 0; value ← lift (box v); vm ← get;
  lift (value_map_set clone_ok rem_ok set_ok (globals vm) key value) ;; mret tt.

Definition run_jump (taken : bool) (offset : Z) : V unit :=
  if negb taken then mret tt else
  f ← frame; c ← current_chunk;
  if check_jump_forward f c offset then set_ip (ip f + offset) else fail VM_ERROR_RUNTIME "jump out of bounds".

(** [jump_if] and [jump_unless], which leave the condition on the stack. *)
Definition run_branch (on : bool) : V unit :=
  offset ← read_short; v ← vm_peek_nan 0; run_jump (bool_decide (nanbox_is_truthy v = on)) offset.

Definition run_loop : V unit :=
  offset ← read_short; f ← frame;
  if check_jump_backward f offset then set_ip (ip f - offset) else fail VM_ERROR_RUNTIME "loop jump out of bounds".

(** The function of a callee, if it is one. *)
Definition callee_function (callee : NanValue) : M (option Function_) :=
  if negb (nanbox_is_obj callee) then mret None
  else if nanbox_as_obj callee =? NULL then mret None
  else c ← load (nanbox_as_obj callee);
       mret (match data c with
             | VFunction f => Some f
             | VClosure cl => Some (cl_function cl)
             | _ => None
             end).

(** The frame is written at [frames[frame_count]]: a fault when that is behind the
    array, which [vm_ensure_frames] does not let grow without bound. *)
Definition push_frame (f : CallFrame) : V unit :=
  vm ← get;
  if Z.of_nat (length (frames vm)) <? frames_capacity vm then put (set_frames vm (f :: frames vm)) else fault.

Definition run_call : V unit :=
  arg_count ← read_short; callee ← vm_peek_nan arg_count; fn ← lift (callee_function callee);
  match fn with
  | None => fail VM_ERROR_TYPE "can only call functions"
  | Some fn =>
      if negb (arg_count =? fn_arity fn) then fail VM_ERROR_ARITY "wrong number of arguments" else
      vm ← get;
      let '(ok, vm) := if frames_capacity vm <=? Z.of_nat (length (frames vm)) then vm_ensure_frames vm else (true, vm) in
      put vm ;;
      if negb ok then fail VM_ERROR_STACK_OVERFLOW "stack overflow (too many frames)" else
      bc ← or_fault (bytecode vm);
      or_fault (functions bc !! Z.to_nat (fn_code_offset fn)) ;;
      push_frame (mkFrame (Some (Z.to_nat (fn_code_offset fn))) 0 (stack_top vm - arg_count - 1) (Some fn))
  end.

(** Upvalues are kept with the highest slot first. *)
Fixpoint close_upvalues_loop (ups : list (ptr * ptr)) (last : ptr) : V unit :=
  match ups with
  | [] => mret tt
  | (u, loc) :: rest =>
      if last <=? loc then
        v ← read_slot loc; vm ← get; put (set_upvalues vm rest (<[u := v]> (closed_upvalues vm))) ;;
        close_upvalues_loop rest last
      else mret tt
  end.
Definition close_upvalues (last : ptr) : V unit := vm ← get; close_upvalues_loop (open_upvalues vm) last.

Definition run_return : V unit :=
  result ← vm_pop_nan; f ← frame; close_upvalues (slots f) ;;
  vm ← get; put (set_frames vm (tail (frames vm))) ;;
  if (length (tail (frames vm)) =? 0)%nat then vm_pop_nan ;; return_ VM_OK
  else vm ← get; put (set_top vm (slots f)) ;; push result.

(** ** Instructions of the slow path *)

Definition is_type (t : ValueType) (p : ptr) : M bool :=
  if p =? NULL then mret false else c ← load p; mret (bool_decide (type_of (data c) = t)).

Definition run_dup2 : V unit :=
  vm ← get;
  if stack_top vm - stack vm <? 2 then fail VM_ERROR_STACK_UNDERFLOW "stack underflow"
  else b ← vm_peek 0; a ← vm_peek 1; vm_push a ;; vm_push b.

Definition run_array_push (message : string) : V unit :=
  item ← vm_pop; arr ← vm_pop; is_arr ← lift (is_type VAL_ARRAY arr);
  if negb is_arr then fail VM_ERROR_TYPE message
  else r ← lift (array_push clone_ok grow_ok rem_ok arr item); vm_push r.

(** The item of a container, or nil. *)
Definition push_or_nil (item : ptr) : V unit :=
  if item =? NULL then v ← lift (value_new VNil); vm_push v else vm_push item.

(** What indexing needs: the kind of container and the index in range. *)
Inductive place := InArray (index : Z) | InMap (key : list Z) | BadPlace (r : VMResult) (message : string).
Definition find_place (container index : ptr) : M place :=
  if container =? NULL then mret (BadPlace VM_ERROR_TYPE "expected array or map") else
  c ← load container;
  match data c with
  | VArray _ items =>
      i ← (if index =? NULL then mret None else i ← load index; mret (Some (data i)));
      match i with
      | Some (VInt idx) =>
          if idx <? 0 then mret (BadPlace VM_ERROR_OUT_OF_BOUNDS "array index out of bounds (negative)")
          else if Z.of_nat (length items) <=? idx then mret (BadPlace VM_ERROR_OUT_OF_BOUNDS "array index out of bounds")
          else mret (InArray idx)
      | _ => mret (BadPlace VM_ERROR_TYPE "array index must be integer")
      end
  | VMap _ =>
      s ← load_string index;
      mret (match s with Some key => InMap (cstr key) | None => BadPlace VM_ERROR_TYPE "map key must be string" end)
  | _ => mret (BadPlace VM_ERROR_TYPE "expected array or map")
  end.

Definition run_array_get : V unit :=
  index ← vm_pop; container ← vm_pop; p ← lift (find_place container index);
  match p with
  | InArray idx => item ← lift (array_get container idx); push_or_nil item
  | InMap key => item ← lift (map_value_get container key); push_or_nil item
  | BadPlace r message => fail r message
  end.

Definition run_array_set : V unit :=
  value ← vm_pop; index ← vm_pop; container ← vm_pop; p ← lift (find_place container index);
  match p with
  | InArray idx => r ← lift (array_set clone_ok rem_ok container idx value); vm_push r
  | InMap key => r ← lift (value_map_set clone_ok rem_ok set_ok container key value); vm_push r
  | BadPlace r message => fail r message
  end.

(** [OP_MAP_GET] and [OP_MAP_SET] check the map before the key. *)
Definition map_place (m key : ptr) : M place :=
  is_map ← is_type VAL_MAP m;
  if negb is_map then mret (BadPlace VM_ERROR_TYPE "expected map") else
  s ← load_string key;
  mret (match s with Some k => InMap (cstr k) | None => BadPlace VM_ERROR_TYPE "map key must be string" end).

Definition run_map_get : V unit :=
  key ← vm_pop; m ← vm_pop; p ← lift (map_place m key);
  match p with
  | InMap k => item ← lift (map_value_get m k); push_or_nil item
  | BadPlace r message => fail r message
  | InArray _ => fault
  end.

Definition run_map_set : V unit :=
  val ← vm_pop; key ← vm_pop; m ← vm_pop; p ← lift (map_place m key);
  match p with
  | InMap k => r ← lift (value_map_set clone_ok rem_ok set_ok m k val); vm_push r
  | BadPlace r message => fail r message
  | InArray _ => fault
  end.

Definition run_concat : V unit :=
  b ← vm_pop; a ← vm_pop;
  if (a =? NULL) || (b =? NULL) then return_ VM_ERROR_STACK_UNDERFLOW else
  sa ← lift (is_type VAL_STRING a); sb ← lift (is_type VAL_STRING b);
  if negb sa || negb sb then fail VM_ERROR_TYPE "concat requires strings"
  else r ← lift (string_concat a b); vm_push r.

Definition length_of (v : ptr) : M (option Z) :=
  if v =? NULL then mret (Some 0) else
  c ← load v;
  mret (match data c with
        | VNil => Some 0
        | VArray _ items => Some (Z.of_nat (length items))
        | VString s => Some (Z.of_nat (strlen s))
        | VMap m => Some (Z.of_nat (size m))
        | _ => None
        end).

Definition run_len : V unit :=
  v ← vm_peek 0; n ← lift (length_of v);
  match n with
  | None => fail VM_ERROR_TYPE "len() requires array, string, or map"
  | Some n => vm_pop ;; r ← lift (value_new (VInt n)); vm_push r
  end.

(** Results and options: pops a value that must not be null. *)
Definition pop_value : V ptr := v ← vm_pop; if v =? NULL then return_ VM_ERROR_STACK_UNDERFLOW else mret v.
Definition push_bool (b : bool) : V unit := r ← lift (value_new (VBool b)); vm_push r.
Definition data_at (v : ptr) : V (vdata ptr) := c ← lift (load v); mret (data c).

Definition run_wrap (wrap : ptr -> M ptr) : V unit := v ← pop_value; r ← lift (wrap v); vm_push r.
Definition run_test (test : vdata ptr -> bool) : V unit := v ← pop_value; d ← data_at v; push_bool (test d).

Definition run_result_unwrap : V unit :=
  v ← pop_value; d ← data_at v;
  match type_of d with
  | VAL_OPTION =>
      let inner := value_option_unwrap d in
      if inner =? NULL then fail VM_ERROR_RUNTIME "unwrap on None value" else vm_push inner
  | VAL_RESULT =>
      let inner := value_result_unwrap d in
      if inner =? NULL then push_or_nil (value_result_unwrap_err d) else vm_push inner
  | _ => fail VM_ERROR_TYPE "unwrap on non-Result/Option value"
  end.

(** Both operands are popped before either is checked. *)
Definition pop_two : V (ptr * ptr) :=
  b ← vm_pop; a ← vm_pop;
  if (a =? NULL) || (b =? NULL) then return_ VM_ERROR_STACK_UNDERFLOW else mret (a, b).

Definition run_result_unwrap_or : V unit :=
  '(v, dflt) ← pop_two; d ← data_at v;
  vm_push (match type_of d with VAL_OPTION => value_option_unwrap_or d dflt | _ => value_result_unwrap_or d dflt end).

Definition run_unwrap_option : V unit :=
  v ← pop_value; d ← data_at v;
  match type_of d with
  | VAL_OPTION =>
      let inner := value_option_unwrap d in
      if inner =? NULL then fail VM_ERROR_RUNTIME "unwrap on None value" else vm_push inner
  | _ => fail VM_ERROR_TYPE "unwrap on non-Option value"
  end.

Definition run_unwrap_option_or : V unit :=
  '(v, dflt) ← pop_two; d ← data_at v; vm_push (value_option_unwrap_or d dflt).

(** ** Dispatch *)

(** How the dispatch table treats an opcode; [Missing] entries are null. *)
Inductive path := Fast | Slow | Missing.
#[global] Instance path_eq_dec : EqDecision path.
Proof. solve_decision. Defined.
Definition dispatch (op : Opcode) : path :=
  match op with
  | OP_NOP | OP_POP | OP_DUP | OP_SWAP | OP_CONST | OP_NIL | OP_TRUE | OP_FALSE | OP_ADD | OP_SUB | OP_MUL | OP_DIV
  | OP_MOD | OP_NEG | OP_EQ | OP_NE | OP_LT | OP_LE | OP_GT | OP_GE | OP_NOT | OP_AND | OP_OR | OP_GET_LOCAL
  | OP_SET_LOCAL | OP_GET_GLOBAL | OP_SET_GLOBAL | OP_JUMP | OP_JUMP_IF | OP_JUMP_UNLESS | OP_LOOP | OP_CALL
  | OP_RETURN | OP_HALT | OP_MAP_GET_IC => Fast
  | OP_LINK | OP_UNLINK | OP_MONITOR | OP_DEMONITOR | OP_SUP_START | OP_SUP_ADD_CHILD | OP_SUP_REMOVE_CHILD
  | OP_SUP_WHICH_CHILDREN | OP_SUP_SHUTDOWN | OP_RECEIVE_TIMEOUT | OP_GROUP_JOIN | OP_GROUP_LEAVE | OP_GROUP_SEND
  | OP_GROUP_SEND_OTHERS | OP_GROUP_MEMBERS | OP_GROUP_LIST | OP_GET_STATS | OP_TRACE | OP_TRACE_OFF
  | OP_RECEIVE_MATCH => Missing
  | _ => Slow
  end.

(** The body of an instruction, behind its opcode. *)
Definition execute (op : Opcode) : V unit :=
  match op with
  | OP_NOP | OP_AND | OP_OR => mret tt
  | OP_POP => vm_pop_nan ;; mret tt
  | OP_DUP => run_dup
  | OP_SWAP => run_swap
  | OP_CONST => k ← read_constant_nan; push k
  | OP_NIL => push NANBOX_NIL
  | OP_TRUE => push NANBOX_TRUE
  | OP_FALSE => push NANBOX_FALSE
  | OP_ADD => run_add
  | OP_SUB => BINARY_OP_NUM_NAN op_minus
  | OP_MUL => BINARY_OP_NUM_NAN op_times
  | OP_DIV => run_div
  | OP_MOD => run_mod
  | OP_NEG => run_neg
  | OP_EQ => run_eq false
  | OP_NE => run_eq true
  | OP_LT => BINARY_OP_CMP_NAN op_lt
  | OP_LE => BINARY_OP_CMP_NAN op_le
  | OP_GT => BINARY_OP_CMP_NAN op_gt
  | OP_GE => BINARY_OP_CMP_NAN op_ge
  | OP_NOT => v ← vm_pop_nan; push (nanbox_bool (negb (nanbox_is_truthy v)))
  | OP_GET_LOCAL => run_get_local
  | OP_SET_LOCAL => run_set_local
  | OP_GET_GLOBAL => run_get_global
  | OP_SET_GLOBAL => run_set_global
  | OP_JUMP => offset ← read_short; run_jump true offset
  | OP_JUMP_IF => run_branch true
  | OP_JUMP_UNLESS => run_branch false
  | OP_LOOP => run_loop
  | OP_CALL => run_call
  | OP_RETURN => run_return
  | OP_HALT => return_ VM_HALT
  | OP_DUP2 => run_dup2
  | OP_ARRAY_NEW => a ← lift (value_array true); vm_push a
  | OP_ARRAY_PUSH => run_array_push "expected array"
  | OP_PUSH => run_array_push "push() requires array"
  | OP_ARRAY_GET => run_array_get
  | OP_ARRAY_SET => run_array_set
  | OP_MAP_NEW => m ← lift (value_new (VMap map_new)); vm_push m
  | OP_MAP_GET => run_map_get
  | OP_MAP_SET => run_map_set
  | OP_CONCAT => run_concat
  | OP_LEN => run_len
  | OP_RESULT_OK => run_wrap value_result_ok
  | OP_RESULT_ERR => run_wrap value_result_err
  | OP_RESULT_IS_OK => run_test value_result_is_ok
  | OP_RESULT_IS_ERR => run_test value_result_is_err
  | OP_RESULT_UNWRAP => run_result_unwrap
  | OP_RESULT_UNWRAP_OR => run_result_unwrap_or
  | OP_RESULT_MATCH => fail VM_ERROR_RUNTIME "OP_RESULT_MATCH not implemented"
  | OP_SOME => run_wrap value_some
  | OP_NONE => r ← lift value_none; vm_push r
  | OP_IS_SOME => run_test value_option_is_some
  | OP_IS_NONE => run_test value_option_is_none
  | OP_UNWRAP_OPTION => run_unwrap_option
  | OP_UNWRAP_OPTION_OR => run_unwrap_option_or
  | OP_YIELD => return_ VM_YIELD
  | _ => other op
  end.

(** One instruction: its opcode byte and its body.  The result says which path
    it took. *)
Definition fetch : V Opcode := b ← read_byte; or_fault (opcode_of_byte b).
Definition instruction : V path :=
  op ← fetch;
  match dispatch op with
  | Missing => fault
  | p => execute op ;; mret p
  end.

(** Counting a reduction; [true] when the time slice is over. *)
Definition count_reduction : V Z :=
  vm ← get; let n := u64 (reductions vm + 1) in put (set_reductions vm n) ;; mret n.
Definition dispatch_check : V unit :=
  n ← count_reduction; vm ← get;
  if (n .& (REDUCTION_BATCH - 1) =? 0) && (reduction_limit vm <=? n) then return_ VM_YIELD else mret tt.
Definition slow_check : V unit :=
  n ← count_reduction; vm ← get; if reduction_limit vm <=? n then return_ VM_YIELD else mret tt.

(** The loop of [vm_run] with fuel for its instructions; [None] is running out of
    it. *)
Fixpoint run_instructions (fuel : nat) (vm : VM) (st : Store) : option (outcome unit) :=
  match fuel with
  | O => None
  | S fuel =>
      match (p ← instruction; match p with Slow => slow_check | _ => dispatch_check end) vm st with
      | Next _ vm st => run_instructions fuel vm st
      | r => Some r
      end
  end.

Definition vm_run (fuel : nat) (new_stack : ptr) (new_frames_ok : bool) (vm : VM) (st : Store) : option (outcome unit) :=
  match vm_ensure_initialized new_stack new_frames_ok vm with
  | (false, vm) => Some ((vm_set_error "failed to initialize VM" ;; return_ VM_ERROR_RUNTIME) vm st)
  | (true, vm) =>
      if (length (frames vm) =? 0)%nat then Some ((vm_set_error "no code loaded" ;; return_ VM_ERROR_RUNTIME) vm st)
      else match dispatch_check vm st with
           | Next _ vm st => run_instructions fuel vm st
           | r => Some r
           end
  end.

(** [vm_step] runs with a limit of one reduction. *)
Definition vm_step (fuel : nat) (new_stack : ptr) (new_frames_ok : bool) (vm : VM) (st : Store) : option (outcome unit) :=
  match vm_run fuel new_stack new_frames_ok (set_limit vm 1) st with
  | Some (Return r vm' st') => Some (Return r (set_limit vm' (reduction_limit vm)) st')
  | o => o
  end.

End interpreter.

(** ** Counters do not matter to instructions *)

Definition with_counters (r l : Z) (vm : VM) : VM := set_limit (set_reductions vm r) l.
Definition map_vm {A} (g : VM -> VM) (o : outcome A) : outcome A :=
  match o with Fault => Fault | Return r vm st => Return r (g vm) st | Next x vm st => Next x (g vm) st end.

(** An action that neither reads nor writes the counters. *)
Definition blind {A} (m : V A) : Prop := forall r l vm st, m (with_counters r l vm) st = map_vm (with_counters r l) (m vm st).

Create HintDb vm_blind.

Lemma blind_ret {A} (x : A) : blind (mret x).
Proof. done. Qed.
Lemma blind_fault {A} : blind (@fault A).
Proof. done. Qed.
Lemma blind_return {A} r : blind (@return_ A r).
Proof. done. Qed.
Lemma blind_bind {A B} (m : V A) (k : A -> V B) : blind m -> (forall x, blind (k x)) -> blind (m ≫= k).
Proof.
  intros Hm Hk r l vm st. unfold mbind, V_bind. rewrite Hm. destruct (m vm st); simpl; [done|done|]. apply Hk.
Qed.
Lemma blind_lift {A} (m : M A) : blind (lift m).
Proof. intros r l vm st. unfold lift. by destruct (m st) as [[]|]. Qed.
Lemma blind_or_fault {A} (o : option A) : blind (or_fault o).
Proof. by destruct o. Qed.
Lemma blind_if {A} (b : bool) (m1 m2 : V A) : blind m1 -> blind m2 -> blind (if b then m1 else m2).
Proof. by destruct b. Qed.
(** An action that looks at the machine: only at what the counters leave alone. *)
Lemma blind_get {A} (k : VM -> V A) :
  (forall r l vm st, k (with_counters r l vm) (with_counters r l vm) st = map_vm (with_counters r l) (k vm vm st)) ->
  blind (vm ← get; k vm).
Proof. intros H r l vm st. apply H. Qed.
Lemma blind_look {A} (k : VM -> V A) :
  (forall r l vm, k (with_counters r l vm) = k vm) -> (forall vm, blind (k vm)) -> blind (vm ← get; k vm).
Proof. intros H Hk. apply blind_get. intros. rewrite H. apply Hk. Qed.
Lemma get_bind {B} vm st (k : VM -> V B) : (vm ← get; k vm) vm st = k vm vm st.
Proof. done. Qed.
Lemma put_bind {B} vm0 vm st (m : V B) : (put vm ;; m) vm0 st = m vm st.
Proof. done. Qed.
#[export] Hint Resolve blind_ret blind_fault blind_return blind_lift blind_or_fault : vm_blind.

(** Goals of [blind_get] whose action does not use the counters. *)
Ltac blind_here := intros ?r ?l ?vm ?st; cbv beta;
  repeat (unfold mbind, V_bind, mret, V_ret, get, put, fault, return_, or_fault; simpl);
  repeat (case_match; simpl in *; simplify_eq/=; try done).
Ltac blind_auto := repeat first
  [ solve [auto with vm_blind]
  | apply blind_bind; [|intros ?]
  | apply blind_if
  | case_match ].

Lemma blind_set_error message : blind (vm_set_error message).
Proof.
  intros r l vm st. unfold vm_set_error. simpl. destruct (head (frames vm)) as [f|]; [|done].
  change (chunk_of (with_counters r l vm) f) with (chunk_of vm f). by destruct (chunk_of vm f).
Qed.
#[export] Hint Resolve blind_set_error : vm_blind.
Lemma blind_fail {A} r message : blind (@fail A r message).
Proof. unfold fail. blind_auto. Qed.
#[export] Hint Resolve blind_fail : vm_blind.

Lemma blind_read_slot a : blind (read_slot a).
Proof. apply blind_get. intros. simpl. by apply blind_or_fault. Qed.
Lemma blind_write_slot a v : blind (write_slot a v).
Proof.
  apply blind_get. intros. change (slot_at (with_counters r l vm) a) with (slot_at vm a). by destruct (slot_at vm a).
Qed.
Lemma blind_frame : blind frame.
Proof. apply blind_get. intros. simpl. by apply blind_or_fault. Qed.
Lemma blind_set_ip n : blind (set_ip n).
Proof. apply blind_get. intros. simpl. by destruct (frames vm). Qed.
Lemma blind_string_at i : blind (string_at i).
Proof. apply blind_get. intros. unfold mbind, V_bind, or_fault. simpl. by destruct (bytecode vm). Qed.
#[export] Hint Resolve blind_read_slot blind_write_slot blind_frame blind_set_ip blind_string_at : vm_blind.

Lemma blind_current_chunk : blind current_chunk.
Proof.
  apply blind_get. intros. unfold mbind, V_bind, frame, get. unfold mbind, V_bind, or_fault. simpl.
  destruct (head (frames vm)) as [f|]; [|done]. simpl.
  change (chunk_of (with_counters r l vm) f) with (chunk_of vm f). by destruct (chunk_of vm f).
Qed.
Lemma blind_push_frame f : blind (push_frame f).
Proof. apply blind_get. intros. simpl. by destruct (_ <? _). Qed.
Lemma blind_peek d : blind (vm_peek_nan d).
Proof. apply blind_get. intros. simpl. by destruct (_ <=? _); [|apply blind_read_slot]. Qed.
Lemma blind_pop : blind vm_pop_nan.
Proof.
  apply blind_get. intros. simpl. destruct (_ <=? _).
  - apply (blind_bind _ _ (blind_set_error _)). intros. apply blind_ret.
  - apply (blind_read_slot (stack_top vm - 1) r l (set_top vm (stack_top vm - 1))).
Qed.
#[export] Hint Resolve blind_current_chunk blind_push_frame blind_peek blind_pop : vm_blind.

Section blind_instructions.
Context (realloc : ptr -> Z -> ptr) (frames_ok clone_ok grow_ok rem_ok : bool) (set_ok : set_allocs).
Context (other : Opcode -> V unit) (Hother : forall op, blind (other op)).

Lemma ensure_stack_counters n r l vm :
  vm_ensure_stack realloc n (with_counters r l vm) =
  (fun p => (p.1, with_counters r l p.2)) (vm_ensure_stack realloc n vm).
Proof.
  unfold vm_ensure_stack, stack_capacity. simpl. destruct (_ <=? _); [done|]. cbv zeta. simpl. by destruct (_ =? NULL).
Qed.

Lemma blind_push_nan v : blind (vm_push_nan realloc v).
Proof.
  apply blind_get. intros. cbv zeta.
  set (e := fun vm => if stack vm + stack_capacity vm <=? stack_top vm then vm_ensure_stack realloc 1 vm else (true, vm)).
  change (if stack (with_counters r l vm) + _ <=? _ then _ else _) with (e (with_counters r l vm)).
  fold (e vm). assert (e (with_counters r l vm) = (fun p => (p.1, with_counters r l p.2)) (e vm)) as ->.
  { unfold e, stack_capacity. simpl. rewrite ensure_stack_counters. by destruct (_ <=? _). }
  destruct (e vm) as [ok vm']. cbn [fst snd]. rewrite !put_bind.
  assert (H : blind (if negb ok then vm_set_error "stack overflow" ;; mret VM_ERROR_STACK_OVERFLOW
    else write_slot (stack_top vm') v ;; vm0 ← get; put (set_top vm0 (stack_top vm0 + 1)) ;; mret VM_OK)).
  { apply blind_if; [blind_auto|]. apply blind_bind; [blind_auto|]. intros _. by apply blind_get. }
  exact (H r l vm' st).
Qed.
Lemma blind_push v : blind (push realloc v).
Proof. apply blind_bind; [apply blind_push_nan|blind_auto]. Qed.
#[local] Hint Resolve blind_push : vm_blind.

Lemma blind_vm_push v : blind (vm_push realloc v).
Proof. unfold vm_push. blind_auto. Qed.
Lemma blind_vm_pop : blind vm_pop.
Proof. unfold vm_pop. blind_auto. Qed.
Lemma blind_vm_peek d : blind (vm_peek d).
Proof. unfold vm_peek. blind_auto. Qed.
Lemma blind_code_byte c n : blind (code_byte c n).
Proof. unfold code_byte. blind_auto. Qed.
#[local] Hint Resolve blind_vm_push blind_vm_pop blind_vm_peek blind_code_byte : vm_blind.
Lemma blind_read_byte : blind read_byte.
Proof. unfold read_byte. blind_auto. Qed.
Lemma blind_read_short : blind read_short.
Proof. unfold read_short. blind_auto. Qed.
#[local] Hint Resolve blind_read_byte blind_read_short : vm_blind.
Lemma blind_num op : blind (BINARY_OP_NUM_NAN realloc op).
Proof. unfold BINARY_OP_NUM_NAN. blind_auto. Qed.
Lemma blind_is_string v : blind (is_string_word v).
Proof. unfold is_string_word. blind_auto. Qed.
Lemma blind_run_jump taken n : blind (run_jump taken n).
Proof. unfold run_jump. blind_auto. Qed.
#[local] Hint Resolve blind_num blind_is_string blind_run_jump : vm_blind.
Lemma blind_cmp op : blind (BINARY_OP_CMP_NAN realloc op).
Proof. unfold BINARY_OP_CMP_NAN. blind_auto. Qed.

Lemma blind_close ups last : blind (close_upvalues_loop ups last).
Proof.
  induction ups as [|[u loc] ups IH]; simpl; [apply blind_ret|]. apply blind_if; [|apply blind_ret].
  apply blind_bind; [apply blind_read_slot|]. intros v. apply blind_get. intros. rewrite !put_bind.
  exact (IH r l (set_upvalues vm ups (<[u:=v]> (closed_upvalues vm))) st).
Qed.

Lemma blind_run_call : blind (run_call frames_ok).
Proof.
  unfold run_call. apply blind_bind; [blind_auto|]. intros n. apply blind_bind; [blind_auto|]. intros callee.
  apply blind_bind; [blind_auto|]. intros [fn|]; [|blind_auto]. apply blind_if; [blind_auto|].
  apply blind_get. intros. cbv zeta.
  set (e := fun vm => if frames_capacity vm <=? Z.of_nat (length (frames vm)) then vm_ensure_frames frames_ok vm else (true, vm)).
  change (if frames_capacity (with_counters r l vm) <=? _ then _ else _) with (e (with_counters r l vm)).
  fold (e vm). assert (e (with_counters r l vm) = (fun p => (p.1, with_counters r l p.2)) (e vm)) as ->.
  { unfold e, vm_ensure_frames. simpl. destruct (_ <=? _); [|done]. destruct (_ <? _); [done|]. by destruct frames_ok. }
  destruct (e vm) as [ok vm']. cbn [fst snd]. rewrite !put_bind.
  match goal with |- ?a _ st = map_vm _ (?b _ st) => assert (H : blind b) by (blind_auto) end.
  exact (H r l vm' st).
Qed.

Lemma blind_run_return : blind (run_return realloc).
Proof.
  unfold run_return. apply blind_bind; [blind_auto|]. intros result. apply blind_bind; [blind_auto|]. intros f.
  apply blind_bind; [apply blind_get; intros; apply blind_close|]. intros _. apply blind_get. intros. rewrite !put_bind.
  change (frames (with_counters r l vm)) with (frames vm). destruct (_ =? _)%nat.
  - match goal with |- ?b _ st = _ => assert (H : blind b) by (blind_auto) end. exact (H r l (set_frames vm (tail (frames vm))) st).
  - exact (blind_push result r l (set_top (set_frames vm (tail (frames vm))) (slots f)) st).
Qed.
#[local] Hint Resolve blind_cmp blind_run_call blind_run_return : vm_blind.

Lemma blind_execute op : blind (execute realloc frames_ok clone_ok grow_ok rem_ok set_ok other op).
Proof.
  destruct op; unfold execute; try apply Hother;
    unfold run_add, run_div, run_mod, run_neg, run_eq, run_get_local, run_set_local, run_branch, run_loop, run_concat,
      run_len, run_array_push, run_array_get, run_array_set, run_map_get, run_map_set, push_or_nil, run_wrap, run_test,
      run_result_unwrap, run_result_unwrap_or, run_unwrap_option, run_unwrap_option_or, pop_value, pop_two, push_bool,
      data_at, read_constant_nan, read_name; try solve [blind_auto].
  1-3: apply blind_look; [done|intros]; blind_auto.
  1,2: apply blind_bind; [blind_auto|intros].
  - apply blind_look; [done|intros]. blind_auto.
  - do 2 (apply blind_bind; [blind_auto|intros]). apply blind_look; [done|intros]. blind_auto.
Qed.

Lemma blind_instruction : blind (instruction realloc frames_ok clone_ok grow_ok rem_ok set_ok other).
Proof.
  unfold instruction, fetch. apply blind_bind; [blind_auto|]. intros op. destruct (dispatch op); [| |apply blind_fault].
  all: apply blind_bind; [apply blind_execute|blind_auto].
Qed.
End blind_instructions.

(** ** The machine stays ready to run *)

Definition ready (vm : VM) : Prop := initialized vm = true /\ frames vm <> [].

(** An action that leaves a ready machine ready, unless it ends the program. *)
Definition keeps {A} (m : V A) : Prop := forall vm st, ready vm ->
  match m vm st with
  | Fault => True
  | Return r vm' _ => r = VM_YIELD -> ready vm'
  | Next _ vm' _ => ready vm'
  end.

Create HintDb vm_keeps.
Lemma keeps_ret {A} (x : A) : keeps (mret x).
Proof. intros vm st H. exact H. Qed.
Lemma keeps_fault {A} : keeps (@fault A).
Proof. by intros vm st H. Qed.
Lemma keeps_return {A} r : keeps (@return_ A r).
Proof. intros vm st H _. exact H. Qed.
Lemma keeps_bind {A B} (m : V A) (k : A -> V B) : keeps m -> (forall x, keeps (k x)) -> keeps (m ≫= k).
Proof.
  intros Hm Hk vm st H. unfold mbind, V_bind. specialize (Hm vm st H).
  destruct (m vm st); [done|done|]. by apply Hk.
Qed.
Lemma keeps_lift {A} (m : M A) : keeps (lift m).
Proof. intros vm st H. unfold lift. by destruct (m st) as [[]|]. Qed.
Lemma keeps_or_fault {A} (o : option A) : keeps (or_fault o).
Proof. destruct o; [apply keeps_ret|apply keeps_fault]. Qed.
Lemma keeps_if {A} (b : bool) (m1 m2 : V A) : keeps m1 -> keeps m2 -> keeps (if b then m1 else m2).
Proof. by destruct b. Qed.
Lemma keeps_get {A} (k : VM -> V A) : (forall vm, ready vm -> keeps (k vm)) -> keeps (vm ← get; k vm).
Proof. intros H vm st Hr. by apply (H vm Hr vm st). Qed.
Lemma keeps_put vm : ready vm -> keeps (put vm).
Proof. by intros H vm0 st _. Qed.
#[export] Hint Resolve keeps_ret keeps_fault keeps_return keeps_lift keeps_or_fault : vm_keeps.

Ltac keeps_auto := repeat first
  [ solve [auto with vm_keeps]
  | lazymatch goal with
    | |- keeps (get ≫= _) => apply keeps_get; intros
    | |- keeps (_ ≫= _) => apply keeps_bind; [|intros ?]
    end
  | apply keeps_put; solve [by split]
  | apply keeps_if
  | case_match ].

Lemma keeps_set_error message : keeps (vm_set_error message).
Proof. intros vm st [Hi Hf]. unfold vm_set_error. simpl. destruct (head (frames vm)); [|by split]. by destruct (chunk_of vm c); [split|]. Qed.
#[export] Hint Resolve keeps_set_error : vm_keeps.
Lemma keeps_fail {A} r message : keeps (@fail A r message).
Proof. unfold fail. keeps_auto. Qed.
Lemma keeps_read_slot a : keeps (read_slot a).
Proof. unfold read_slot. keeps_auto. Qed.
Lemma keeps_write_slot a v : keeps (write_slot a v).
Proof. unfold write_slot. apply keeps_get. intros vm [Hi Hf]. keeps_auto. Qed.
Lemma keeps_frame : keeps frame.
Proof. unfold frame. keeps_auto. Qed.
Lemma keeps_set_ip n : keeps (set_ip n).
Proof. unfold set_ip. apply keeps_get. intros vm [Hi Hf]. keeps_auto. Qed.
Lemma keeps_string_at i : keeps (string_at i).
Proof. unfold string_at. keeps_auto. Qed.
Lemma keeps_push_frame f : keeps (push_frame f).
Proof. unfold push_frame. apply keeps_get. intros vm [Hi Hf]. keeps_auto. Qed.
#[export] Hint Resolve keeps_fail keeps_read_slot keeps_write_slot keeps_frame keeps_set_ip keeps_string_at keeps_push_frame : vm_keeps.
Lemma keeps_current_chunk : keeps current_chunk.
Proof. unfold current_chunk. keeps_auto. Qed.
Lemma keeps_peek d : keeps (vm_peek_nan d).
Proof. unfold vm_peek_nan. keeps_auto. Qed.
Lemma keeps_pop : keeps vm_pop_nan.
Proof. unfold vm_pop_nan. apply keeps_get. intros vm [Hi Hf]. keeps_auto. Qed.
#[export] Hint Resolve keeps_current_chunk keeps_peek keeps_pop : vm_keeps.

Section ready_instructions.
Context (realloc : ptr -> Z -> ptr) (frames_ok clone_ok grow_ok rem_ok : bool) (set_ok : set_allocs).
Context (other : Opcode -> V unit) (Hother : forall op, keeps (other op)).

Lemma ensure_stack_ready n vm : ready vm -> ready (vm_ensure_stack realloc n vm).2.
Proof.
  intros [Hi Hf]. unfold vm_ensure_stack. destruct (_ <=? _); [done|]. cbv zeta. destruct (_ =? NULL); [done|].
  split; [done|]. simpl. by destruct (frames vm).
Qed.

Lemma keeps_push v : keeps (push realloc v).
Proof.
  unfold push, vm_push_nan. apply keeps_bind; [|keeps_auto]. apply keeps_get. intros vm Hr. cbv zeta.
  set (e := if stack vm + _ <=? _ then _ else _). assert (ready e.2) as He.
  { subst e. destruct (_ <=? _); [by apply ensure_stack_ready|done]. }
  destruct e as [ok vm']. simpl in He. apply keeps_bind; [by apply keeps_put|]. intros _.
  apply keeps_if; [keeps_auto|]. apply keeps_bind; [keeps_auto|]. intros _. apply keeps_get. intros vm1 [Hi Hf]. keeps_auto.
Qed.
#[local] Hint Resolve keeps_push : vm_keeps.

Lemma keeps_vm_push v : keeps (vm_push realloc v).
Proof. unfold vm_push. keeps_auto. Qed.
Lemma keeps_vm_pop : keeps vm_pop.
Proof. unfold vm_pop. keeps_auto. Qed.
Lemma keeps_vm_peek d : keeps (vm_peek d).
Proof. unfold vm_peek. keeps_auto. Qed.
Lemma keeps_code_byte c n : keeps (code_byte c n).
Proof. unfold code_byte. keeps_auto. Qed.
#[local] Hint Resolve keeps_vm_push keeps_vm_pop keeps_vm_peek keeps_code_byte : vm_keeps.
Lemma keeps_read_byte : keeps read_byte.
Proof. unfold read_byte. keeps_auto. Qed.
Lemma keeps_read_short : keeps read_short.
Proof. unfold read_short. keeps_auto. Qed.
#[local] Hint Resolve keeps_read_byte keeps_read_short : vm_keeps.
Lemma keeps_is_string v : keeps (is_string_word v).
Proof. unfold is_string_word. keeps_auto. Qed.
Lemma keeps_close ups last : keeps (close_upvalues_loop ups last).
Proof.
  induction ups as [|[u loc] ups IH]; simpl; [keeps_auto|]. apply keeps_if; [|keeps_auto].
  apply keeps_bind; [keeps_auto|]. intros v. apply keeps_get. intros vm [Hi Hf]. keeps_auto.
Qed.
#[local] Hint Resolve keeps_is_string keeps_close : vm_keeps.

Lemma keeps_run_call : keeps (run_call frames_ok).
Proof.
  unfold run_call. apply keeps_bind; [keeps_auto|]. intros n. apply keeps_bind; [keeps_auto|]. intros callee.
  apply keeps_bind; [keeps_auto|]. intros [fn|]; [|keeps_auto]. apply keeps_if; [keeps_auto|].
  apply keeps_get. intros vm [Hi Hf]. cbv zeta. set (e := if frames_capacity vm <=? _ then _ else _).
  assert (ready e.2) as He.
  { subst e. unfold vm_ensure_frames. repeat case_match; by split. }
  destruct e as [ok vm']. simpl in He. apply keeps_bind; [by apply keeps_put|]. intros _. keeps_auto.
Qed.

Lemma pop_does_not_return vm st r vm' st' : vm_pop_nan vm st <> Return r vm' st'.
Proof.
  unfold vm_pop_nan. rewrite get_bind. destruct (_ <=? _).
  - unfold mbind, V_bind, vm_set_error. by repeat case_match.
  - rewrite put_bind. unfold read_slot. rewrite get_bind. by destruct (slot_at _ _ ≫= _).
Qed.

Lemma keeps_run_return : keeps (run_return realloc).
Proof.
  unfold run_return. apply keeps_bind; [keeps_auto|]. intros result. apply keeps_bind; [keeps_auto|]. intros f.
  apply keeps_bind; [unfold close_upvalues; keeps_auto|]. intros _. intros vm st [Hi Hf].
  rewrite get_bind, put_bind. destruct (frames vm) as [|f1 [|f2 fs]] eqn:Ef; [done| |].
  - simpl. unfold mbind, V_bind. pose proof (pop_does_not_return (set_frames vm []) st) as Hp.
    destruct (vm_pop_nan _ st); [done| |done]. by destruct (Hp r vm0 st0).
  - simpl. rewrite get_bind, put_bind. by apply keeps_push.
Qed.
#[local] Hint Resolve keeps_run_call keeps_run_return : vm_keeps.

Lemma keeps_execute op : keeps (execute realloc frames_ok clone_ok grow_ok rem_ok set_ok other op).
Proof.
  destruct op; unfold execute; try apply Hother;
    unfold run_add, run_div, run_mod, run_neg, run_eq, run_get_local, run_set_local, run_branch, run_loop, run_concat,
      run_len, run_array_push, run_array_get, run_array_set, run_map_get, run_map_set, push_or_nil, run_wrap, run_test,
      run_result_unwrap, run_result_unwrap_or, run_unwrap_option, run_unwrap_option_or, pop_value, pop_two, push_bool,
      data_at, read_constant_nan, run_dup, run_dup2, run_swap, run_get_global, run_set_global, run_jump,
      BINARY_OP_NUM_NAN, BINARY_OP_CMP_NAN; unfold read_name; keeps_auto.
Qed.

Lemma keeps_instruction : keeps (instruction realloc frames_ok clone_ok grow_ok rem_ok set_ok other).
Proof.
  unfold instruction, fetch. apply keeps_bind; [keeps_auto|]. intros op. destruct (dispatch op); [| |apply keeps_fault].
  all: apply keeps_bind; [apply keeps_execute|keeps_auto].
Qed.
End ready_instructions.

(** ** Time slices *)

(** What is assumed of the instructions that are not modelled: they leave the
    counters alone and the machine ready. *)
Class OtherInstructions (other : Opcode -> V unit) : Prop := {
  other_blind : forall op, blind (other op);
  other_keeps : forall op, keeps (other op)
}.

Section slices.
Context (realloc : ptr -> Z -> ptr) (frames_ok clone_ok grow_ok rem_ok : bool) (set_ok : set_allocs).
Context (other : Opcode -> V unit) `{Hother : !OtherInstructions other}.
Local Abbreviation step := (instruction realloc frames_ok clone_ok grow_ok rem_ok set_ok other).
Local Abbreviation loop := (run_instructions realloc frames_ok clone_ok grow_ok rem_ok set_ok other).
Local Abbreviation run := (vm_run realloc frames_ok clone_ok grow_ok rem_ok set_ok other).

Lemma with_own_counters vm : with_counters (reductions vm) (reduction_limit vm) vm = vm.
Proof. by destruct vm. Qed.

Lemma blind_counters {A} (m : V A) vm st : blind m ->
  match m vm st with
  | Fault => True
  | Return _ vm' _ | Next _ vm' _ => reductions vm' = reductions vm /\ reduction_limit vm' = reduction_limit vm
  end.
Proof.
  intros H. specialize (H (reductions vm) (reduction_limit vm) vm st). rewrite with_own_counters in H.
  destruct (m vm st); simpl in H; [done|by injection H as ->|by injection H as ->].
Qed.

(** The reductions a slice is over at: the first multiple of 64 that reaches the
    limit. *)
Definition slice_end (limit : Z) : Z := REDUCTION_BATCH * Z.max 1 ((limit + REDUCTION_BATCH - 1) / REDUCTION_BATCH).

Lemma slice_end_spec limit : 0 <= limit ->
  64 <= slice_end limit /\ (limit <= slice_end limit < limit + 64 \/ (limit = 0 /\ slice_end limit = 64)).
Proof.
  intros H. unfold slice_end, REDUCTION_BATCH. pose proof (Z.div_mod (limit + 64 - 1) 64 ltac:(lia)).
  pose proof (Z.mod_pos_bound (limit + 64 - 1) 64 ltac:(lia)).
  destruct (decide (limit = 0)) as [->|]; [split; [done|right; by vm_compute]|split; [lia|left; lia]].
Qed.

Lemma slice_end_batch limit : slice_end limit .& (REDUCTION_BATCH - 1) =? 0 = true.
Proof.
  unfold slice_end, REDUCTION_BATCH. change (64 - 1) with (Z.ones 6). rewrite Z.land_ones by lia.
  change 64 with (2 ^ 6) at 1. rewrite Z.mul_comm, Z.mod_mul; [done|lia].
Qed.

(** The check behind an instruction, on either path. *)
Definition check_after (p : path) : V unit := match p with Slow => slow_check | _ => dispatch_check end.

Lemma check_after_spec p vm st :
  let n := u64 (reductions vm + 1) in
  check_after p vm st = Next tt (set_reductions vm n) st \/
  (check_after p vm st = Return VM_YIELD (set_reductions vm n) st /\ reduction_limit vm <= n).
Proof.
  intros n. assert (Hd : dispatch_check vm st = Next tt (set_reductions vm n) st \/
    (dispatch_check vm st = Return VM_YIELD (set_reductions vm n) st /\ reduction_limit vm <= n)).
  { unfold dispatch_check, count_reduction, mbind, V_bind. cbn. fold n.
    destruct (_ =? 0); simpl; [|by left]. destruct (Z.leb_spec (reduction_limit vm) n); [by right|by left]. }
  destruct p; simpl; [done| |done]. unfold slow_check, count_reduction, mbind, V_bind. cbn. fold n.
  destruct (Z.leb_spec (reduction_limit vm) n); [by right|by left].
Qed.

Lemma check_after_end p vm st :
  0 <= reduction_limit vm -> slice_end (reduction_limit vm) < 2 ^ 64 ->
  reductions vm + 1 = slice_end (reduction_limit vm) ->
  check_after p vm st = Return VM_YIELD (set_reductions vm (slice_end (reduction_limit vm))) st.
Proof.
  intros Hl Hb Hr. pose proof (slice_end_spec _ Hl) as Hs.
  assert (Hu : u64 (reductions vm + 1) = slice_end (reduction_limit vm)) by (rewrite Hr; apply u64_small; unfold is_u64; lia).
  destruct p; simpl; unfold slow_check, dispatch_check, count_reduction, mbind, V_bind; cbn; rewrite Hu;
    try rewrite slice_end_batch; simpl; destruct (Z.leb_spec (reduction_limit vm) (slice_end (reduction_limit vm))); try done; lia.
Qed.

(** The end of a slice: [vm_run] has returned with no more reductions than the
    bound, or the behaviour is undefined. *)
Definition counted (o : outcome unit) (bound : Z) : Prop :=
  match o with Return _ vm _ => reductions vm <= bound | Fault => True | Next _ _ _ => False end.

Lemma loop_preempts fuel : forall vm st,
  0 <= reduction_limit vm -> slice_end (reduction_limit vm) < 2 ^ 64 ->
  0 <= reductions vm < slice_end (reduction_limit vm) ->
  slice_end (reduction_limit vm) - reductions vm <= Z.of_nat fuel ->
  exists o, loop fuel vm st = Some o /\ counted o (slice_end (reduction_limit vm)).
Proof.
  induction fuel as [|fuel IH]; intros vm st Hl Hb Hr Hf; [lia|]. simpl. unfold mbind at 1, V_bind at 1.
  pose proof (blind_counters step vm st (blind_instruction _ _ _ _ _ _ _ other_blind)) as Hc.
  destruct (step vm st) as [|r vm' st'|p vm' st']; [by eexists| |].
  - eexists. split; [done|]. simpl. destruct Hc as [-> _]. lia.
  - destruct Hc as [Hc1 Hc2]. change (match p with Slow => slow_check | _ => dispatch_check end) with (check_after p).
    destruct (decide (reductions vm + 1 = slice_end (reduction_limit vm))) as [He|Hne].
    { rewrite check_after_end; rewrite ?Hc1, ?Hc2; try done. eexists. split; [done|]. simpl. lia. }
    assert (Hu : u64 (reductions vm' + 1) = reductions vm + 1) by (rewrite Hc1; apply u64_small; unfold is_u64; lia).
    destruct (check_after_spec p vm' st') as [->|[-> _]]; rewrite Hu.
    + rewrite <- Hc2 in *. apply (IH (set_reductions vm' (reductions vm + 1)) st'); simpl; lia.
    + eexists. split; [done|]. simpl. lia.
Qed.

Lemma run_preempts new_stack new_frames_ok vm st fuel :
  reductions vm = 0 -> 0 <= reduction_limit vm < 2 ^ 63 -> slice_end (reduction_limit vm) <= Z.of_nat fuel ->
  exists o, run fuel new_stack new_frames_ok vm st = Some o /\ counted o (slice_end (reduction_limit vm)).
Proof.
  intros Hr Hl Hf. pose proof (slice_end_spec (reduction_limit vm) ltac:(lia)) as Hs.
  unfold vm_run. assert (Hi : exists b vm0, vm_ensure_initialized new_stack new_frames_ok vm = (b, vm0) /\
    reductions vm0 = 0 /\ reduction_limit vm0 = reduction_limit vm).
  { unfold vm_ensure_initialized. repeat case_match; eauto. }
  destruct Hi as (b & vm0 & -> & Hr0 & Hl0). rewrite <- Hl0 in *. assert (Herr : forall msg, exists o,
    Some ((vm_set_error msg ;; return_ VM_ERROR_RUNTIME) vm0 st) = Some o /\ counted o (slice_end (reduction_limit vm0))).
  { intros msg. eexists. split; [done|].
    pose proof (blind_counters (vm_set_error msg ;; @return_ unit VM_ERROR_RUNTIME) vm0 st ltac:(blind_auto)) as Hc.
    unfold counted. destruct ((vm_set_error msg ;; @return_ unit VM_ERROR_RUNTIME) vm0 st) eqn:E; [done| |by unfold mbind, V_bind, vm_set_error in E; repeat case_match].
    destruct Hc as [-> _]. lia. }
  destruct b; [|apply Herr]. destruct (_ =? _)%nat; [apply Herr|].
  destruct (check_after_spec Fast vm0 st) as [E|[E _]]; simpl in E; rewrite E, Hr0; change (u64 (0 + 1)) with 1.
  - apply (loop_preempts fuel (set_reductions vm0 1) st); simpl; lia.
  - eexists. split; [done|]. simpl. lia.
Qed.

(** *** Slicing changes nothing *)

Definition erase : VM -> VM := with_counters 0 0.

(** How a program ends that is never interrupted: instruction after
    instruction, an explicit yield being no more than a pause; with the number of
    instructions. *)
Inductive finishes : nat -> VM -> Store -> outcome unit -> Prop :=
  | finishes_fault vm st : step vm st = Fault -> finishes 1 vm st Fault
  | finishes_return vm st r vm' st' : step vm st = Return r vm' st' -> r <> VM_YIELD -> finishes 1 vm st (Return r vm' st')
  | finishes_yield n vm st vm' st' o : step vm st = Return VM_YIELD vm' st' -> finishes n vm' st' o -> finishes (S n) vm st o
  | finishes_next n vm st p vm' st' o : step vm st = Next p vm' st' -> finishes n vm' st' o -> finishes (S n) vm st o.

(** How it ends when [block_run] runs it in slices of [limit] reductions. *)
Inductive sliced (limit : Z) : VM -> Store -> outcome unit -> Prop :=
  | sliced_last fuel vm st o : run fuel NULL true (with_counters 0 limit vm) st = Some o ->
      (forall vm' st', o <> Return VM_YIELD vm' st') -> sliced limit vm st o
  | sliced_slice fuel vm st vm' st' o : run fuel NULL true (with_counters 0 limit vm) st = Some (Return VM_YIELD vm' st') ->
      sliced limit vm' st' o -> sliced limit vm st o.

Lemma step_erase vm st : step (erase vm) st = map_vm erase (step vm st).
Proof. apply blind_instruction, other_blind. Qed.

(** The [n]th instruction from here on is undefined. *)
Inductive faults : nat -> VM -> Store -> Prop :=
  | faults_now vm st : step vm st = Fault -> faults 1 vm st
  | faults_next n vm st p vm' st' : step vm st = Next p vm' st' -> faults n vm' st' -> faults (S n) vm st.

Lemma loop_faults fuel : forall vm st, loop fuel vm st = Some Fault -> exists n, (n <= fuel)%nat /\ faults n (erase vm) st.
Proof.
  induction fuel as [|fuel IH]; intros vm st; [done|]. simpl. unfold mbind at 1, V_bind at 1.
  pose proof (step_erase vm st) as He. destruct (step vm st) as [|r vm' st'|p vm' st']; [|done|]; simpl in He.
  - exists 1%nat. split; [lia|by constructor].
  - change (match p with Slow => slow_check | _ => dispatch_check end) with (check_after p).
    destruct (check_after_spec p vm' st') as [->|[-> _]]; [|done]. intros (n & Hn & Hf)%IH. exists (S n). split; [lia|].
    by eapply faults_next.
Qed.
Lemma loop_mono fuel fuel' vm st o : (fuel <= fuel')%nat -> loop fuel vm st = Some o -> loop fuel' vm st = Some o.
Proof.
  revert fuel' vm st. induction fuel as [|fuel IH]; intros [|fuel'] vm st Hle; try done; try lia. simpl.
  destruct ((step ≫= _) vm st); try done. apply IH. lia.
Qed.
Lemma run_faults new_stack new_frames_ok vm st fuel : ready vm -> run fuel new_stack new_frames_ok vm st = Some Fault ->
  exists n, (n <= fuel)%nat /\ faults n (erase vm) st.
Proof.
  intros [Hi Hf]. unfold vm_run, vm_ensure_initialized. rewrite Hi. destruct (Nat.eqb_spec (length (frames vm)) 0); [by destruct (frames vm)|].
  destruct (check_after_spec Fast vm st) as [E|[E _]]; simpl in E; rewrite E; [|done].
  intros H. exact (loop_faults _ _ _ H).
Qed.
Lemma run_mono new_stack new_frames_ok vm st fuel fuel' o : (fuel <= fuel')%nat ->
  run fuel new_stack new_frames_ok vm st = Some o -> run fuel' new_stack new_frames_ok vm st = Some o.
Proof.
  intros Hle. unfold vm_run. destruct (vm_ensure_initialized new_stack new_frames_ok vm) as [[] vm0]; [|done].
  destruct (_ =? _)%nat; [done|]. destruct (dispatch_check vm0 st); try done. by apply loop_mono.
Qed.


Lemma finishes_unique n vm st o : finishes n vm st o -> forall n' o', finishes n' vm st o' -> o = o'.
Proof.
  induction 1; intros n' o' H'; inversion H'; subst; try congruence; simplify_eq; eauto;
    match goal with H1 : step ?vm ?st = _, H2 : step ?vm ?st = _ |- _ => rewrite H1 in H2; simplify_eq; eauto end.
Qed.

(** What a slice that started in [vm] says about the rest of the program: it has
    run at least one instruction of it. *)
Definition slice_of (vm : VM) (st : Store) (o : outcome unit) : Prop :=
  match o with
  | Next _ _ _ => False
  | Return VM_YIELD vm' st' => ready vm' /\
      (forall n o', finishes n (erase vm') st' o' -> exists m, finishes m (erase vm) st o') /\
      (forall n o', finishes n (erase vm) st o' -> exists m, (m < n)%nat /\ finishes m (erase vm') st' o')
  | o => exists n, finishes n (erase vm) st (map_vm erase o)
  end.

Lemma slice_next vm st p vm1 st1 o : step (erase vm) st = Next p (erase vm1) st1 -> slice_of vm1 st1 o -> slice_of vm st o.
Proof.
  intros He. destruct o as [|r vm' st'|]; simpl; [intros [n Hn]; eexists; by eapply finishes_next| |done].
  destruct r; try (intros [n Hn]; eexists; by eapply finishes_next). intros (H1 & H2 & H3). split_and!; [done| |].
  - intros n o' Ho. destruct (H2 n o' Ho) as [m Hm]. eexists. by eapply finishes_next.
  - intros n o' Ho. inversion Ho; subst; simplify_eq/=; try congruence.
    match goal with H : step (erase vm) st = Next _ _ _ |- _ => rewrite He in H; simplify_eq end.
    edestruct H3 as (m & Hm & Hf); [done|]. exists m. split; [lia|done].
Qed.

Lemma loop_slice fuel : forall vm st o, ready vm -> loop fuel vm st = Some o -> slice_of vm st o.
Proof.
  induction fuel as [|fuel IH]; intros vm st o Hr; [done|]. simpl. unfold mbind at 1, V_bind at 1.
  pose proof (keeps_instruction realloc frames_ok clone_ok grow_ok rem_ok set_ok other other_keeps vm st Hr) as Hk.
  pose proof (step_erase vm st) as He. destruct (step vm st) as [|r vm' st'|p vm' st']; simpl in He.
  - intros [= <-]. eexists. by constructor.
  - intros [= <-]. destruct r; try (eexists; by apply finishes_return). split_and!; [by apply Hk| |].
    + intros n o' Ho. eexists. by eapply finishes_yield.
    + intros n o' Ho. inversion Ho; subst; simplify_eq/=; try congruence.
      match goal with H : step (erase vm) st = Return _ _ _ |- _ => rewrite He in H; simplify_eq end. eauto.
  - change (match p with Slow => slow_check | _ => dispatch_check end) with (check_after p).
    set (n := u64 (reductions vm' + 1)). destruct (check_after_spec p vm' st') as [->|[-> _]]; fold n.
    + intros Hl. apply (IH (set_reductions vm' n)) in Hl; [|done]. by apply (slice_next vm st p (set_reductions vm' n) st').
    + intros [= <-]. split_and!; [done| |].
      * intros m o' Ho. eexists. by eapply finishes_next.
      * intros m o' Ho. inversion Ho; subst; simplify_eq/=; try congruence.
        match goal with H : step (erase vm) st = Next _ _ _ |- _ => rewrite He in H; simplify_eq end. eauto.
Qed.

Lemma run_slice fuel limit vm st o :
  ready vm -> run fuel NULL true (with_counters 0 limit vm) st = Some o -> slice_of vm st o.
Proof.
  intros [Hi Hf]. unfold vm_run, vm_ensure_initialized. change (initialized (with_counters 0 limit vm)) with (initialized vm).
  rewrite Hi. change (frames (with_counters 0 limit vm)) with (frames vm). destruct (Nat.eqb_spec (length (frames vm)) 0) as [E|_].
  { by destruct (frames vm). }
  assert (E : dispatch_check (with_counters 0 limit vm) st = Next tt (with_counters 1 limit vm) st) by done.
  rewrite E. apply (loop_slice fuel (with_counters 1 limit vm) st o). by split.
Qed.

(** C14: preemption is invisible to programs.  A program run in time slices, of
    any length, ends exactly as it would without interruption - with the same
    result, stack, frames, error and store - and a program that ends does so in
    slices too.  Of the instructions that are not modelled it is assumed that they do
    not look at the counters of the slice and leave the machine with a frame
    ([OtherInstructions]). *)
Theorem vm_slices_transparent limit vm st :
  ready vm -> 0 <= limit < 2 ^ 63 ->
  (forall o, sliced limit vm st o -> exists n, finishes n (erase vm) st (map_vm erase o)) /\
  (forall n o, finishes n (erase vm) st o -> exists o', sliced limit vm st o' /\ map_vm erase o' = o).
Proof.
  intros Hr Hl. split.
  - intros o Hs. revert Hr. induction Hs as [fuel vm st o Hrun Hne|fuel vm st vm' st' o Hrun _ IH]; intros Hr.
    + apply run_slice in Hrun; [|done]. destruct o as [|r vm' st'|]; [done| |done].
      destruct r; try done. by destruct (Hne vm' st').
    + apply run_slice in Hrun; [|done]. destruct Hrun as (Hr' & H2 & _). destruct (IH Hr') as [n Hn]. eauto.
  - intros n. revert vm st Hr. induction (lt_wf n) as [n _ IH]. intros vm st Hr o Hf.
    destruct (run_preempts NULL true (with_counters 0 limit vm) st (Z.to_nat (slice_end limit))) as (o1 & Hrun & _);
      [done|done|pose proof (slice_end_spec limit ltac:(lia)); simpl; lia|].
    pose proof (run_slice _ _ _ _ _ Hr Hrun) as Hs.
    assert (Hlast : (exists m, finishes m (erase vm) st (map_vm erase o1)) -> (forall vm' st', o1 <> Return VM_YIELD vm' st') ->
      exists o', sliced limit vm st o' /\ map_vm erase o' = o).
    { intros [m Hm] Hne. exists o1. split; [by eapply sliced_last|]. by eapply finishes_unique. }
    destruct o1 as [|r vm' st'|]; [by apply Hlast| |done]. destruct r; try (apply Hlast; [done|naive_solver]).
    destruct Hs as (Hr' & _ & H3). destruct (H3 n o Hf) as (m & Hm & Hf').
    destruct (IH m Hm vm' st' Hr' o Hf') as (o' & Ho & He). exists o'. split; [by eapply sliced_slice|done].
Qed.

End slices.

(** ** What the stacks do at their limits *)

Lemma grown_capacity_fits c : 1 <= c < VM_STACK_MAX * 4 -> c < grown_capacity c (c + 1) <= VM_STACK_MAX * 4.
Proof.
  unfold grown_capacity, VM_STACK_MAX. intros Hc. destruct (Z.eqb_spec c 0); [lia|].
  destruct (double_until_total c (c + 1)) as (m & Hm & H1 & H2); [lia..|]. rewrite Hm.
  apply double_until_Some in Hm; [|lia]. simpl. case_if_goal; lia.
Qed.

Lemma grow_memory_lookup mem n i : (length mem <= Z.to_nat n)%nat -> (i < length mem)%nat -> grow_memory mem n !! i = mem !! i.
Proof. intros Hn Hi. unfold grow_memory. rewrite take_ge by lia. by rewrite lookup_app_l by lia. Qed.

Lemma slot_in vm a : stack vm <= a < stack vm + stack_capacity vm -> slot_at vm a = Some (Z.to_nat (a - stack vm)).
Proof. intros H. unfold slot_at. destruct (Z.leb_spec (stack vm) a), (Z.ltb_spec a (stack vm + stack_capacity vm)); try lia. done. Qed.

Lemma slot_out vm a : stack vm + stack_capacity vm <= a -> slot_at vm a = None.
Proof. intros H. unfold slot_at. destruct (Z.ltb_spec a (stack vm + stack_capacity vm)); [lia|]. by rewrite andb_false_r. Qed.

(** The machine with a value written at the top of its stack. *)
Definition pushed (vm : VM) (v : NanValue) : VM :=
  set_stack vm (stack vm) (<[Z.to_nat (stack_top vm - stack vm) := Some v]> (memory vm)) (stack_top vm + 1).

Lemma store_top vm st v :
  (write_slot (stack_top vm) v ;; vm ← get; put (set_top vm (stack_top vm + 1)) ;; mret VM_OK) vm st =
  match slot_at vm (stack_top vm) with Some _ => Next VM_OK (pushed vm v) st | None => Fault end.
Proof.
  unfold write_slot. unfold mbind at 1, V_bind at 1. rewrite get_bind. destruct (slot_at vm (stack_top vm)) as [i|] eqn:E; [|done].
  unfold slot_at in E. destruct (_ && _); [|done]. injection E as <-. done.
Qed.

Lemma push_room realloc vm st v :
  stack vm <= stack_top vm < stack vm + stack_capacity vm -> push realloc v vm st = Next tt (pushed vm v) st.
Proof.
  intros H. unfold push, vm_push_nan. unfold mbind at 1, V_bind at 1. rewrite get_bind.
  destruct (Z.leb_spec (stack vm + stack_capacity vm) (stack_top vm)); [lia|]. rewrite put_bind. cbn [negb].
  by rewrite store_top, slot_in.
Qed.

(** Pushing onto a full stack. *)
Lemma push_full realloc vm st v :
  let n := grown_capacity (stack_capacity vm) (stack_capacity vm + 1) in
  let vm' := set_frames (set_stack vm (realloc (stack vm) n) (grow_memory (memory vm) n) (realloc (stack vm) n + stack_capacity vm))
    ((fun f => mkFrame (f_chunk f) (ip f) (realloc (stack vm) n + (slots f - (realloc (stack vm) n - stack_capacity vm))) (f_function f))
     <$> frames vm) in
  stack_top vm = stack vm + stack_capacity vm -> realloc (stack vm) n <> NULL ->
  push realloc v vm st = match slot_at vm' (stack_top vm') with Some _ => Next tt (pushed vm' v) st | None => Fault end.
Proof.
  intros n vm' Htop Hn. unfold push, vm_push_nan. unfold mbind at 1, V_bind at 1. rewrite get_bind.
  destruct (Z.leb_spec (stack vm + stack_capacity vm) (stack_top vm)); [|lia]. unfold vm_ensure_stack.
  replace (stack_top vm - stack vm) with (stack_capacity vm) by lia.
  destruct (Z.leb_spec (stack_capacity vm + 1) (stack_capacity vm)); [lia|]. cbv zeta. fold n.
  destruct (Z.eqb_spec (realloc (stack vm) n) NULL); [done|]. rewrite put_bind. cbn [negb]. rewrite store_top.
  match goal with |- context [slot_at ?m _] => change m with vm' end. by destruct (slot_at vm' (stack_top vm')).
Qed.

(** The grown stack, where it is in place. *)
Lemma push_grows realloc vm st v :
  stack_top vm = stack vm + stack_capacity vm -> 1 <= stack_capacity vm < VM_STACK_MAX * 4 -> stack vm <> NULL ->
  realloc (stack vm) (grown_capacity (stack_capacity vm) (stack_capacity vm + 1)) = stack vm ->
  exists vm', push realloc v vm st = Next tt vm' st /\ stack vm' = stack vm /\
    slots <$> frames vm' = (fun a => a + stack_capacity vm) <$> (slots <$> frames vm) /\
    memory vm' !! length (memory vm) = Some (Some v) /\ stack_capacity vm < stack_capacity vm'.
Proof.
  intros Htop Hcap Hn Hre. pose proof (grown_capacity_fits _ Hcap) as Hg.
  rewrite push_full by (done || by rewrite Hre). rewrite Hre.
  set (n := grown_capacity (stack_capacity vm) (stack_capacity vm + 1)) in *.
  assert (Hl : length (grow_memory (memory vm) n) = Z.to_nat n).
  { unfold grow_memory. rewrite length_app, length_take, length_replicate. unfold stack_capacity in *. lia. }
  match goal with |- context [slot_at ?m _] => assert (Hc : stack_capacity m = n) end.
  { unfold stack_capacity at 1. cbn -[grow_memory]. rewrite Hl. lia. }
  rewrite slot_in by (rewrite Hc; cbn -[grow_memory]; lia).
  eexists. split; [done|]. cbn -[grow_memory]. split_and!; [done| | |].
  - rewrite <- !list_fmap_compose. apply list_fmap_ext. intros i f _. simpl. lia.
  - replace (Z.to_nat (stack vm + stack_capacity vm - stack vm)) with (length (memory vm)) by (unfold stack_capacity; lia).
    rewrite list_lookup_insert_eq; [done|]. rewrite Hl. unfold stack_capacity in *. lia.
  - unfold stack_capacity at 2. cbn -[grow_memory]. rewrite length_insert, Hl. lia.
Qed.

(** The stacks at their limits.  When the stack has to grow, every frame's
    slots are moved up by the number of values on the stack, even if the buffer
    stays where it is: the frame at the bottom of the stack finds the value
    just pushed where its first local was.  At its maximal size the stack does
    not overflow into an error but is written behind its end, and so is the
    array of frames. *)
Theorem vm_stacks_at_limits realloc vm st v :
  stack_top vm = stack vm + stack_capacity vm -> stack vm <> NULL ->
  (1 <= stack_capacity vm < VM_STACK_MAX * 4 ->
   realloc (stack vm) (grown_capacity (stack_capacity vm) (stack_capacity vm + 1)) = stack vm ->
   exists vm', push realloc v vm st = Next tt vm' st /\
     (forall f, head (frames vm) = Some f -> slots f = stack vm -> exists f', head (frames vm') = Some f' /\
        slots f' <> slots f /\ forall st, read_slot (slots f') vm' st = Next v vm' st)) /\
  (stack_capacity vm = VM_STACK_MAX * 4 -> realloc (stack vm) (VM_STACK_MAX * 4) <> NULL -> push realloc v vm st = Fault) /\
  (forall f, frames_capacity vm = VM_FRAMES_MAX * 4 -> Z.of_nat (length (frames vm)) = VM_FRAMES_MAX * 4 ->
   (vm_ensure_frames true vm).1 = true /\ push_frame f (vm_ensure_frames true vm).2 st = Fault).
Proof.
  intros Htop Hn. split_and!.
  - intros Hcap Hre. destruct (push_grows realloc vm st v Htop Hcap Hn Hre) as (vm' & Hp & Hs & Hf & Hv & Hc).
    exists vm'. split; [done|]. intros f Hh Hsl. destruct (frames vm) as [|f0 fs]; [done|]. injection Hh as ->.
    destruct (frames vm') as [|f' fs']; [done|]. injection Hf as Hf' _. exists f'. split_and!; [done|lia|]. intros st1.
    unfold read_slot. rewrite get_bind, Hf', Hsl, slot_in by (rewrite Hs; lia). rewrite Hs. simpl.
    replace (Z.to_nat (stack vm + stack_capacity vm - stack vm)) with (length (memory vm)) by (unfold stack_capacity; lia).
    by rewrite Hv.
  - intros Hcap Hre. rewrite push_full; [|done|by rewrite Hcap]. rewrite Hcap.
    change (grown_capacity (VM_STACK_MAX * 4) (VM_STACK_MAX * 4 + 1)) with (VM_STACK_MAX * 4).
    match goal with |- context [slot_at ?m _] => assert (Hc : stack_capacity m = VM_STACK_MAX * 4) end.
    { unfold stack_capacity in *. cbn [memory set_frames set_stack]. unfold grow_memory, VM_STACK_MAX in *.
      rewrite length_app, length_take, length_replicate. lia. }
    rewrite slot_out; [done|]. rewrite Hc. cbn -[grow_memory Z.mul]. lia.
  - intros f Hcap Hlen. unfold vm_ensure_frames. rewrite Hcap, Hlen.
    change (VM_FRAMES_MAX * 4 <? VM_FRAMES_MAX * 4) with false. cbv iota zeta. cbn [fst snd]. split; [done|].
    unfold push_frame. rewrite get_bind. cbn [frames frames_capacity set_frames_capacity]. by rewrite Hlen.
Qed.

(** ** Instances *)

(** No further instructions. *)
Definition no_other : Opcode -> V unit := fun _ => fault.
#[global] Instance no_other_ok : OtherInstructions no_other.
Proof. split; intros op; [apply blind_fault|apply keeps_fault]. Defined.

Definition bytecode_of (bytes : list Z) : Bytecode ptr :=
  mkBytecode 1 (mkChunk bytes 256 [] 64 0 16 (replicate (length bytes) 1) 256) [] [] [] 1.
Definition fresh_vm : VM := mkMachine NULL [] NULL [] 0 false 1 None [] empty None 0 0 10000.
Definition loaded (bytes : list Z) : VM := vm_load 1000 true (bytecode_of bytes) fresh_vm.
Definition globals_store : Store := mkStore {[ 1 := mkValue (VMap map_new) 1 0 0 ]} 2 None.
Definition in_place : ptr -> Z -> ptr := fun p _ => p.


(** [nil; yield; halt] in slices of one reduction. *)
Lemma vm_slices_transparent_witness : exists o',
  sliced in_place true true true true allocs_ok no_other 1 (loaded (opcode_byte <$> [OP_NIL; OP_YIELD; OP_HALT])) globals_store o' /\
  exists vm st, map_vm erase o' = Return VM_HALT vm st.
Proof.
  set (vm := loaded (opcode_byte <$> [OP_NIL; OP_YIELD; OP_HALT])).
  assert (Hr : ready vm) by (split; [reflexivity|discriminate]).
  assert (Hf : exists vm' st', finishes in_place true true true true allocs_ok no_other 3 (erase vm) globals_store (Return VM_HALT vm' st')).
  { eexists _, _. eapply finishes_next; [vm_compute; reflexivity|].
    eapply finishes_yield; [vm_compute; reflexivity|]. eapply finishes_return; [vm_compute; reflexivity|discriminate]. }
  destruct Hf as (vm' & st' & Hf).
  destruct (proj2 (vm_slices_transparent in_place true true true true allocs_ok no_other 1 vm globals_store Hr ltac:(lia)) 3%nat _ Hf)
    as (o' & H1 & H2).
  exists o'. split; [exact H1|]. by exists vm', st'.
Defined.

(** A stack of one slot whose bottom frame has a local in it. *)
Definition full_vm : VM :=
  mkMachine 1000 [Some (nanbox_int 5)] 1001 [mkFrame None 0 1000 None] 8 true 1 (Some (bytecode_of [])) [] empty None 0 0 10000.
Lemma vm_stacks_at_limits_witness : exists vm',
  push in_place (nanbox_int 7) full_vm globals_store = Next tt vm' globals_store /\
  exists f', head (frames vm') = Some f' /\ read_slot (slots f') vm' globals_store = Next (nanbox_int 7) vm' globals_store.
Proof.
  destruct (vm_stacks_at_limits in_place full_vm globals_store (nanbox_int 7) eq_refl ltac:(discriminate)) as [H _].
  destruct (H ltac:(vm_compute; split; [discriminate|reflexivity]) eq_refl) as (vm' & Hp & Hf).
  destruct (Hf (mkFrame None 0 1000 None) eq_refl eq_refl) as (f' & Hh & _ & Hs).
  exists vm'. split; [exact Hp|]. exists f'. split; [exact Hh|apply Hs].
Defined.

(** [vm_step] with its limit of one reduction runs 63 instructions: the limit is
    only looked at every 64 reductions. *)
Example vm_step_runs_63 :
  match vm_step in_place true true true true allocs_ok no_other 100 NULL true (loaded (replicate 100 (opcode_byte OP_NOP))) globals_store with
  | Some (Return VM_YIELD vm _) => ip <$> head (frames vm) = Some 63
  | _ => False
  end.
Proof. vm_compute. reflexivity. Qed.

(** Linking, monitoring, supervising, groups, tracing and receiving with a
    timeout have no entry in the dispatch table. *)
Example dispatch_holes :
  filter (fun op => dispatch op = Missing) opcodes =
  [OP_RECEIVE_TIMEOUT; OP_LINK; OP_UNLINK; OP_MONITOR; OP_DEMONITOR; OP_SUP_START; OP_SUP_ADD_CHILD;
   OP_SUP_REMOVE_CHILD; OP_SUP_WHICH_CHILDREN; OP_SUP_SHUTDOWN; OP_GROUP_JOIN; OP_GROUP_LEAVE; OP_GROUP_SEND;
   OP_GROUP_SEND_OTHERS; OP_GROUP_MEMBERS; OP_GROUP_LIST; OP_GET_STATS; OP_TRACE; OP_TRACE_OFF; OP_RECEIVE_MATCH].
Proof. vm_compute. reflexivity. Qed.
