(* ===== verification/Gc.v ===== *)
(** * The garbage collector (src/vm/gc.c)

    A heap links the values it allocated in a list; a collection marks what the
    machine can reach and sweeps the list.  The cells are those of [Value]; the
    fields of the heap that the write barrier needs are the [current_heap] of the
    store, so that the barrier and the collector share them.  [None] is a read
    through a dangling pointer. *)

From Stdlib Require Import ZArith Lia SpecFloat.
From stdpp Require Import base numbers list gmap.
From S2P Require Import Prelude Float64 Hash HashMap Nanbox Array Bytecode VM Value.
Local Open Scope Z_scope.
Local Open Scope agim_scope.

(** ** The heap *)

Inductive GCPhase := GC_IDLE | GC_MARKING | GC_SWEEPING.

(** The counters that allocation and sweeping keep. *)
Record Counters := mkCounters {
  bytes_allocated : Z; young_count : Z; old_count : Z; young_bytes : Z; old_bytes : Z; total_allocated : Z; total_freed : Z
}.

(** The address of a link: of [heap->objects], or of the [next] of an object. *)
Inductive link := Head | After (obj : ptr).

Record Heap := mkHeap {
  objects : list ptr;
  counters : Counters;
  next_gc : Z;
  max_size : Z;
  gc_phase : GCPhase;
  mark_cursor : ptr;
  sweep_prev : link;
  step_budget : Z;
  gray_list : list ptr;
  gray_capacity : Z;
  promotion_threshold : Z;
  young_gc_threshold : Z;
  minor_gc_count : Z;
  major_gc_count : Z;
  gc_count : Z
}.

Record GCConfig := mkConfig { initial_heap_size : Z; max_heap_size : Z; incremental_step : Z; config_remember_size : Z }.
Definition gc_config_default : GCConfig := mkConfig (16 * 1024) (1 * 1024 * 1024) 100 1024.

Definition heap_new (config : option GCConfig) : Heap * GcHeap :=
  let c := default gc_config_default config in
  (mkHeap [] (mkCounters 0 0 0 0 0 0 0) (initial_heap_size c) (max_heap_size c) GC_IDLE NULL Head
     (match config with Some c => incremental_step c | None => 100 end) [] 0 2
     (match config with Some c => initial_heap_size c / 4 | None => 4096 end) 0 0 0,
   mkGcHeap true [] 0 (match config with Some c => config_remember_size c | None => 1024 end) false).

Definition set_objects (h : Heap) (l : list ptr) (k : Counters) : Heap :=
  mkHeap l k (next_gc h) (max_size h) (gc_phase h) (mark_cursor h) (sweep_prev h) (step_budget h) (gray_list h) (gray_capacity h)
    (promotion_threshold h) (young_gc_threshold h) (minor_gc_count h) (major_gc_count h) (gc_count h).
Definition set_next_gc (h : Heap) (n : Z) : Heap :=
  mkHeap (objects h) (counters h) n (max_size h) (gc_phase h) (mark_cursor h) (sweep_prev h) (step_budget h) (gray_list h)
    (gray_capacity h) (promotion_threshold h) (young_gc_threshold h) (minor_gc_count h) (major_gc_count h) (gc_count h).
Definition set_phase (h : Heap) (p : GCPhase) (cursor : ptr) (prev : link) : Heap :=
  mkHeap (objects h) (counters h) (next_gc h) (max_size h) p cursor prev (step_budget h) (gray_list h)
    (gray_capacity h) (promotion_threshold h) (young_gc_threshold h) (minor_gc_count h) (major_gc_count h) (gc_count h).
Definition set_gray (h : Heap) (l : list ptr) (cap : Z) : Heap :=
  mkHeap (objects h) (counters h) (next_gc h) (max_size h) (gc_phase h) (mark_cursor h) (sweep_prev h) (step_budget h) l
    cap (promotion_threshold h) (young_gc_threshold h) (minor_gc_count h) (major_gc_count h) (gc_count h).
Definition count_runs (h : Heap) (threshold minor major : Z) : Heap :=
  mkHeap (objects h) (counters h) (next_gc h) (max_size h) (gc_phase h) (mark_cursor h) (sweep_prev h) (step_budget h) (gray_list h)
    (gray_capacity h) (promotion_threshold h) threshold (u64 (minor_gc_count h + minor)) (u64 (major_gc_count h + major))
    (u64 (gc_count h + 1)).

(** The generational state of the heap. *)
Definition this_heap : M GcHeap := h ← get_heap; match h with Some g => mret g | None => ub end.
Definition gc_set_generational (enabled : bool) : M unit :=
  g ← this_heap;
  put_heap (mkGcHeap enabled (remember_set g) (remember_capacity g) (max_remember_size g) (needs_full_gc g)).

(** An action for each element of a list. *)
Fixpoint each {A} (f : A -> M unit) (l : list A) : M unit :=
  match l with [] => mret tt | x :: l => f x ;; each f l end.

(** Sizes on a 64-bit machine: [Value], and the headers of what it points to. *)
Definition value_size (t : ValueType) : Z :=
  match t with
  | VAL_STRING => 32 + 16
  | VAL_ARRAY => 32 + 24
  | VAL_MAP => 32 + 24
  | VAL_FUNCTION => 32 + 40
  | VAL_BYTES => 32 + 24
  | _ => 32
  end.

(** [(size_t)(n * factor)] in single precision. *)
Definition truncated (x : spec_float) : Z :=
  match x with
  | S754_finite false m e => if 0 <=? e then Z.pos m * 2 ^ e else Z.pos m / 2 ^ (- e)
  | _ => 0
  end.
Definition f32_scale (n : Z) (factor : spec_float) : Z := truncated (SFmul 24 128 (binary_normalize 24 128 n 0 false) factor).
Definition one_and_a_half : spec_float := S754_finite false 12582912 (-23).
Definition two : spec_float := S754_finite false 8388608 (-22).

(** ** Marking *)

Section marking.
(** [closed]: the upvalues that are not open, with their values. *)
Context (closed : gmap Z NanValue).

Definition nan_object (v : NanValue) : list ptr := if nanbox_is_obj v then [nanbox_as_obj v] else [].
Definition upvalue_object (u : ptr) : list ptr := match closed !! u with Some v => nan_object v | None => [] end.

(** The children that marking visits. *)
Definition traced (d : vdata ptr) : list ptr :=
  match d with
  | VArray _ items => items
  | VMap m => e_value <$> concat (buckets m)
  | VClosure c => concat (upvalue_object <$> cl_upvalues c)
  | _ => []
  end.

(** Each level marks one more cell, so the number of cells bounds the depth. *)
Fixpoint mark_value (fuel : nat) (v : ptr) : M unit :=
  if v =? NULL then mret tt else
  c ← load v;
  if value_is_marked c then mret tt
  else write v (value_set_marked c true) ;;
       match fuel with O => ub | S fuel => each (mark_value fuel) (traced (data c)) end.
Definition gc_mark_value (v : ptr) : M unit := fun st => mark_value (base.size (cells st)) v st.

(** The values that the machine refers to: its stack, the globals and the
    constants of its code.  The upvalues on its list are open: their values are
    on the stack. *)
Definition stack_slots (vm : VM) : list (option NanValue) :=
  let n := Z.to_nat (stack_top vm - stack vm) in take n (memory vm) ++ replicate (n - length (memory vm)) None.
Definition slot_object (slot : option NanValue) : M (list ptr) := match slot with Some v => mret (nan_object v) | None => ub end.
Definition code_constants (code : Bytecode ptr) : list ptr := constants (main code) ++ concat (constants <$> functions code).
End marking.

Definition gc_mark_nanvalue (closed : gmap Z NanValue) (slot : option NanValue) : M unit :=
  ps ← slot_object slot; each (gc_mark_value closed) ps.
Definition gc_mark_roots (vm : VM) : M unit :=
  each (gc_mark_nanvalue (closed_upvalues vm)) (stack_slots vm) ;;
  gc_mark_value (closed_upvalues vm) (globals vm) ;;
  match bytecode vm with Some code => each (gc_mark_value (closed_upvalues vm)) (code_constants code) | None => mret tt end.

(** ** Sweeping *)

Definition moved_to_old (size : Z) (k : Counters) : Counters :=
  mkCounters (bytes_allocated k) (u64 (young_count k - 1)) (u64 (old_count k + 1)) (u64 (young_bytes k - size)) (u64 (old_bytes k + size))
    (total_allocated k) (total_freed k).
Definition without (generational old : bool) (size : Z) (k : Counters) : Counters :=
  let young := generational && negb old in let old := generational && old in
  mkCounters (u64 (bytes_allocated k - size)) (if young then u64 (young_count k - 1) else young_count k)
    (if old then u64 (old_count k - 1) else old_count k) (if young then u64 (young_bytes k - size) else young_bytes k)
    (if old then u64 (old_bytes k - size) else old_bytes k) (total_allocated k) (u64 (total_freed k + size)).

(** A young object that survived; it may become old. *)
Definition survived (threshold : Z) (c : Value) (k : Counters) : Value * Counters :=
  let c := value_inc_survival c in
  if threshold <=? value_survival_count c then (value_set_old_gen c, moved_to_old (value_size (type_of (data c))) k) else (c, k).

(** An object that is not marked: kept while it has references.  Its count is
    0, and [REFCOUNT_FREEING] when [value_free] gets it. *)
Definition reclaim (generational : bool) (obj : ptr) (c : Value) (k : Counters) : M (bool * Counters) :=
  if negb (refcount c =? 0) then write obj (value_set_marked c false) ;; mret (true, k)
  else write obj (set_refcount c REFCOUNT_FREEING) ;; value_free_all obj ;;
       mret (false, without generational (value_is_old_gen c) (value_size (type_of (data c))) k).

(** Whether the object stays in the list. *)
Definition sweep_object (generational : bool) (threshold : Z) (obj : ptr) (k : Counters) : M (bool * Counters) :=
  c ← load obj;
  if value_is_marked c then
    let c := value_set_marked c false in
    let '(c, k) := if generational && negb (value_is_old_gen c) then survived threshold c k else (c, k) in
    write obj c ;; mret (true, k)
  else reclaim generational obj c k.
Definition sweep_young_object (threshold : Z) (obj : ptr) (k : Counters) : M (bool * Counters) :=
  c ← load obj;
  if value_is_old_gen c then mret (true, k)
  else if value_is_marked c then
    let '(c, k) := survived threshold (value_set_marked c false) k in
    write obj c ;; mret (true, k)
  else reclaim true obj c k.

Fixpoint sweep_list (visit : ptr -> Counters -> M (bool * Counters)) (l : list ptr) (k : Counters) : M (list ptr * Counters) :=
  match l with
  | [] => mret ([], k)
  | obj :: l =>
      r ← visit obj k; rest ← sweep_list visit l r.2;
      mret (if r.1 : bool then obj :: rest.1 else rest.1, rest.2)
  end.
Definition sweep (h : Heap) : M Heap :=
  g ← this_heap; r ← sweep_list (sweep_object (generational_enabled g) (promotion_threshold h)) (objects h) (counters h);
  mret (set_objects h r.1 r.2).
Definition sweep_young (h : Heap) : M Heap :=
  r ← sweep_list (sweep_young_object (promotion_threshold h)) (objects h) (counters h); mret (set_objects h r.1 r.2).

(** ** Collections *)

Definition remember_set_clear : M unit :=
  g ← this_heap;
  each (fun p => if p =? NULL then mret tt else c ← load p; write p (value_set_remembered c false)) (remember_set g) ;;
  put_heap (mkGcHeap (generational_enabled g) [] (remember_capacity g) (max_remember_size g) (needs_full_gc g)).

Definition resized (h : Heap) (factor : spec_float) : Heap :=
  set_next_gc h (Z.min (f32_scale (bytes_allocated (counters h)) factor) (max_size h)).

Definition gc_collect (h : Heap) (vm : VM) : M Heap :=
  gc_mark_roots vm ;; h ← sweep h; mret (count_runs (resized h two) (young_gc_threshold h) 0 0).

Definition gc_collect_full (h : Heap) (vm : VM) : M Heap :=
  gc_mark_roots vm ;; h ← sweep h; remember_set_clear ;; mret (count_runs (resized h two) (young_gc_threshold h) 0 1).

(** The roots, and the children of the remembered old objects. *)
Definition gc_mark_young (vm : VM) : M unit :=
  gc_mark_roots vm ;; g ← this_heap;
  each (fun p => if p =? NULL then mret tt
                 else c ← load p; each (gc_mark_value (closed_upvalues vm)) (traced (closed_upvalues vm) (data c))) (remember_set g).
Definition gc_collect_young (h : Heap) (vm : VM) : M Heap :=
  gc_mark_young vm ;; h ← sweep_young h; remember_set_clear ;;
  mret (count_runs h (Z.max (u64 (young_bytes (counters h) * 2)) 4096) 1 0).

(** ** Allocation *)

Definition initial_data (t : ValueType) : option (vdata ptr) :=
  match t with
  | VAL_NIL => Some VNil
  | VAL_BOOL => Some (VBool false)
  | VAL_INT => Some (VInt 0)
  | VAL_FLOAT => Some (VFloat f64_zero)
  | VAL_STRING => Some (VString [])
  | VAL_ARRAY => Some (VArray 8 [])
  | VAL_MAP => Some (VMap map_new)
  | VAL_PID => Some (VPid 0)
  | VAL_FUNCTION => Some (VFunction (mkFunction [] 0 0 0 0))
  | VAL_BYTES => Some (VBytes 64 [])
  | VAL_VECTOR => Some (VVector [f64_zero])
  | VAL_CLOSURE | VAL_RESULT | VAL_OPTION | VAL_STRUCT | VAL_ENUM => None
  end.

Definition allocated (generational : bool) (size : Z) (k : Counters) : Counters :=
  mkCounters (u64 (bytes_allocated k + size)) (if generational then u64 (young_count k + 1) else young_count k) (old_count k)
    (if generational then u64 (young_bytes k + size) else young_bytes k) (old_bytes k) (u64 (total_allocated k + size)) (total_freed k).

(** The value itself; [alloc_ok]: whether the allocations of the constructor succeed. *)
Definition heap_add (alloc_ok : bool) (h : Heap) (t : ValueType) : M (ptr * Heap) :=
  match initial_data t with
  | Some d =>
      if negb alloc_ok then mret (NULL, h) else
      v ← value_new d; g ← this_heap;
      mret (v, set_objects h (v :: objects h) (allocated (generational_enabled g) (value_size t) (counters h)))
  | None => mret (NULL, h)
  end.

(** More room, without a collection. *)
Definition raise_limit (h : Heap) : Heap :=
  if next_gc h <? max_size h then set_next_gc h (Z.min (f32_scale (next_gc h) one_and_a_half) (max_size h)) else h.
Definition exceeds (h : Heap) (size limit : Z) : bool := limit <? u64 (bytes_allocated (counters h) + size).

Definition heap_alloc (alloc_ok : bool) (h : Heap) (t : ValueType) : M (ptr * Heap) :=
  let size := value_size t in
  let h := if exceeds h size (next_gc h) then raise_limit h else h in
  if exceeds h size (max_size h) then mret (NULL, h) else heap_add alloc_ok h t.

Definition collect_any (h : Heap) (vm : VM) : M Heap :=
  g ← this_heap; if generational_enabled g then gc_collect_full h vm else gc_collect h vm.
Definition clear_needs_full_gc : M unit :=
  g ← this_heap;
  put_heap (mkGcHeap (generational_enabled g) (remember_set g) (remember_capacity g) (max_remember_size g) false).

(** The collections in front of an allocation. *)
Definition collect_before (h : Heap) (size : Z) (vm : VM) : M Heap :=
  g ← this_heap;
  h ← (if needs_full_gc g then h ← gc_collect_full h vm; clear_needs_full_gc ;; mret h else mret h);
  h ← (if generational_enabled g && (young_gc_threshold h <? u64 (young_bytes (counters h) + size)) then gc_collect_young h vm else mret h);
  h ← (if exceeds h size (next_gc h) then collect_any h vm else mret h);
  if exceeds h size (max_size h) then collect_any h vm else mret h.
Definition heap_alloc_with_gc (alloc_ok : bool) (h : Heap) (t : ValueType) (vm : option VM) : M (ptr * Heap) :=
  let size := value_size t in
  match vm with
  | None => heap_alloc alloc_ok h t
  | Some vm => h ← collect_before h size vm; if exceeds h size (max_size h) then mret (NULL, h) else heap_add alloc_ok h t
  end.

(** ** Incremental collections *)

(** The list from an object on; a cursor that is not in the list dangles. *)
Fixpoint from_object (p : ptr) (l : list ptr) : option (list ptr) :=
  match l with [] => None | x :: l' => if x =? p then Some l else from_object p l' end.
Definition from_cursor (p : ptr) (l : list ptr) : M (list ptr) :=
  if p =? NULL then mret [] else match from_object p l with Some l => mret l | None => ub end.
Definition cursor_of (l : list ptr) : ptr := default NULL (head l).

Definition gc_start_incremental (h : Heap) (vm : VM) : M (bool * Heap) :=
  match gc_phase h with
  | GC_IDLE => gc_mark_roots vm ;; mret (true, set_phase h GC_MARKING (cursor_of (objects h)) (sweep_prev h))
  | _ => mret (false, h)
  end.

(** The children of an array or a map. *)
Definition step_traced (d : vdata ptr) : list ptr := match d with VClosure _ => [] | _ => traced empty d end.
Fixpoint step_marking_loop (closed : gmap Z NanValue) (budget : nat) (l : list ptr) : M (list ptr) :=
  match budget, l with
  | S budget, obj :: l =>
      c ← load obj;
      (if value_is_marked c then each (gc_mark_value closed) (step_traced (data c)) else mret tt) ;;
      step_marking_loop closed budget l
  | _, _ => mret l
  end.
Definition gc_step_marking (h : Heap) (closed : gmap Z NanValue) : M (bool * Heap) :=
  l ← from_cursor (mark_cursor h) (objects h);
  rest ← step_marking_loop closed (Z.to_nat (step_budget h)) l;
  mret (negb (cursor_of rest =? NULL), set_phase h (gc_phase h) (cursor_of rest) (sweep_prev h)).

(** The objects in front of a link and those behind it. *)
Fixpoint split_after (p : ptr) (l : list ptr) : option (list ptr * list ptr) :=
  match l with
  | [] => None
  | x :: l => if x =? p then Some ([x], l) else '(pre, rest) ← split_after p l; Some (x :: pre, rest)
  end.
Definition split_link (k : link) (l : list ptr) : M (list ptr * list ptr) :=
  match k with Head => mret ([], l) | After p => match split_after p l with Some r => mret r | None => ub end end.
Definition link_behind (pre : list ptr) : link := match last pre with Some p => After p | None => Head end.

(** An object of an incremental sweep: its generation is left alone. *)
Definition step_sweep_object (obj : ptr) (k : Counters) : M (bool * Counters) :=
  c ← load obj;
  if value_is_marked c then write obj (value_set_marked c false) ;; mret (true, k) else reclaim false obj c k.
Fixpoint step_sweeping_loop (budget : nat) (pre l : list ptr) (k : Counters) : M (list ptr * list ptr * Counters) :=
  match budget, l with
  | S budget, obj :: l =>
      r ← step_sweep_object obj k;
      step_sweeping_loop budget (if r.1 : bool then pre ++ [obj] else pre) l r.2
  | _, _ => mret (pre, l, k)
  end.
Definition gc_step_sweeping (h : Heap) : M (bool * Heap) :=
  '(pre, l) ← split_link (sweep_prev h) (objects h);
  '(pre, l, k) ← step_sweeping_loop (Z.to_nat (step_budget h)) pre l (counters h);
  mret (negb (bool_decide (l = [])), set_phase (set_objects h (pre ++ l) k) (gc_phase h) (mark_cursor h) (link_behind pre)).

Definition gc_step (h : Heap) (vm : VM) : M (bool * Heap) :=
  match gc_phase h with
  | GC_IDLE => mret (false, h)
  | GC_MARKING =>
      '(more, h) ← gc_step_marking h (closed_upvalues vm);
      mret (true, if more : bool then h else set_phase h GC_SWEEPING (mark_cursor h) Head)
  | GC_SWEEPING =>
      '(more, h) ← gc_step_sweeping h;
      mret (if more : bool then (true, h)
            else (false, count_runs (resized (set_phase h GC_IDLE (mark_cursor h) (sweep_prev h)) one_and_a_half) (young_gc_threshold h) 0 0))
  end.
Definition gc_in_progress (h : Heap) : bool := match gc_phase h with GC_IDLE => false | _ => true end.

(** [None] when the fuel is used up. *)
Fixpoint gc_complete (fuel : nat) (h : Heap) (vm : VM) : M (option Heap) :=
  match fuel with
  | O => mret None
  | S fuel => '(more, h) ← gc_step h vm; if more : bool then gc_complete fuel h vm else mret (Some h)
  end.

(** ** The gray list *)

Definition gc_gray_push (realloc_ok : bool) (h : Heap) (value : ptr) : bool * Heap :=
  if value =? NULL then (false, h)
  else
    let full := gray_capacity h <=? Z.of_nat (length (gray_list h)) in
    if full && negb realloc_ok then (false, h)
    else (true, set_gray h (gray_list h ++ [value])
                  (if full then if gray_capacity h =? 0 then 64 else gray_capacity h * 2 else gray_capacity h)).
Definition gc_gray_pop (h : Heap) : ptr * Heap :=
  match last (gray_list h) with
  | Some p => (p, set_gray h (take (length (gray_list h) - 1) (gray_list h)) (gray_capacity h))
  | None => (NULL, h)
  end.

(** The children that are not marked yet are marked and become gray. *)
Fixpoint shade (realloc_ok : bool) (h : Heap) (children : list ptr) : M Heap :=
  match children with
  | [] => mret h
  | p :: ps =>
      if p =? NULL then shade realloc_ok h ps
      else c ← load p;
           if value_is_marked c then shade realloc_ok h ps
           else write p (value_set_marked c true) ;; shade realloc_ok (gc_gray_push realloc_ok h p).2 ps
  end.
(** Whether the gray list is empty; each round pops an object. *)
Fixpoint gc_mark_increment (fuel : nat) (realloc_ok : bool) (closed : gmap Z NanValue) (h : Heap) (max_objects : nat) : M (bool * Heap) :=
  match fuel, gray_list h, max_objects with
  | O, _, _ => ub
  | _, [], _ => mret (true, h)
  | _, _, O => mret (false, h)
  | S fuel, _, S more =>
      let '(obj, h) := gc_gray_pop h in
      if obj =? NULL then gc_mark_increment fuel realloc_ok closed h max_objects
      else c ← load obj;
           if negb (value_is_marked c) then gc_mark_increment fuel realloc_ok closed h max_objects
           else h ← shade realloc_ok h (traced closed (data c)); gc_mark_increment fuel realloc_ok closed h more
  end.

(** ** Statistics, and the end of a heap *)

Definition heap_used (h : Heap) : Z := bytes_allocated (counters h).
Record HeapStats := mkStats { st_allocated : Z; st_freed : Z; st_objects : Z; st_objects_freed : Z; st_runs : Z }.
Definition heap_stats (h : Heap) : HeapStats :=
  mkStats (bytes_allocated (counters h)) (total_freed (counters h)) (Z.of_nat (length (objects h))) 0 (gc_count h).
(** Each object is freed without its children. *)
Definition heap_free (h : Heap) : M unit := each dealloc (objects h).

(** ** Mark bits *)

Lemma marked_set c : value_is_marked (value_set_marked c true) = true.
Proof.
  unfold value_is_marked, value_set_marked, GC_MARKED. simpl. apply negb_true_iff, Z.eqb_neq.
  rewrite Z.land_lor_distr_l. intros H. by apply Z.lor_eq_0_iff in H as [_ H].
Qed.
Lemma marked_unset c : value_is_marked (value_set_marked c false) = false.
Proof.
  unfold value_is_marked, value_set_marked, GC_MARKED. simpl. apply negb_false_iff, Z.eqb_eq.
  rewrite <- Z.land_assoc. change (u8 (Z.lnot 1) .& 1) with 0. apply Z.land_0_r.
Qed.
Lemma old_set c b : value_is_old_gen (value_set_marked c b) = value_is_old_gen c.
Proof.
  unfold value_is_old_gen, value_set_marked, GC_MARKED, GC_OLD_GEN. destruct b; simpl.
  - rewrite Z.land_lor_distr_l. change (1 .& 2) with 0. by rewrite Z.lor_0_r.
  - rewrite <- Z.land_assoc. by change (u8 (Z.lnot 1) .& 2) with 2.
Qed.

(** ** Reachability *)

Definition marked (st : Store) (p : ptr) : Prop := exists c, cells st !! p = Some c /\ value_is_marked c = true.
#[global] Instance marked_dec st p : Decision (marked st p).
Proof.
  destruct (cells st !! p) as [c|] eqn:E; [|right; intros (c & H & _); congruence].
  destruct (value_is_marked c) eqn:Em; [left; by exists c|right; intros (c' & H & H'); congruence].
Defined.

Section reach.
Context (closed : gmap Z NanValue).

(** What a value refers to: the items of an array, the values of a map, the
    objects in the closed upvalues of a closure. *)
Inductive refers : vdata ptr -> ptr -> Prop :=
  | refers_item cap items i q : items !! i = Some q -> refers (VArray cap items) q
  | refers_entry m b e : b ∈ buckets m -> e ∈ b -> refers (VMap m) (e_value e)
  | refers_upvalue c u v : u ∈ cl_upvalues c -> closed !! u = Some v -> nanbox_is_obj v = true -> refers (VClosure c) (nanbox_as_obj v).
Definition edge (st : Store) (p q : ptr) : Prop := q <> NULL /\ exists c, cells st !! p = Some c /\ refers (data c) q.

Lemma refers_traced d q : refers d q <-> q ∈ traced closed d.
Proof.
  split.
  - intros [cap items i p H|m b e Hb He|c u v Hu Hv Ho]; simpl.
    + by eapply list_elem_of_lookup_2.
    + apply list_elem_of_fmap_2, list_elem_of_In, in_concat. exists b. by rewrite <- !list_elem_of_In.
    + apply list_elem_of_In, in_concat. exists (upvalue_object closed u). rewrite <- !list_elem_of_In. split; [by apply list_elem_of_fmap_2|].
      unfold upvalue_object, nan_object. rewrite Hv, Ho. by left.
  - destruct d; simpl; try (by intros ?%elem_of_nil).
    + intros [i Hi]%list_elem_of_lookup. by econstructor.
    + intros (e & -> & He)%list_elem_of_fmap. apply list_elem_of_In, in_concat in He as (b & Hb & He).
      econstructor; by apply list_elem_of_In.
    + intros Hq. apply list_elem_of_In, in_concat in Hq as (l & Hl & Hq). apply list_elem_of_In, list_elem_of_fmap in Hl as (u & -> & Hu).
      apply list_elem_of_In in Hq. unfold upvalue_object, nan_object in Hq. destruct (closed !! u) as [v|] eqn:Hv; [|by apply elem_of_nil in Hq].
      destruct (nanbox_is_obj v) eqn:Ho; [|by apply elem_of_nil in Hq]. apply list_elem_of_singleton in Hq as ->. by econstructor.
Qed.
Definition reachable (st : Store) (roots : list ptr) (p : ptr) : Prop := exists r, r ∈ roots /\ r <> NULL /\ rtc (edge st) r p.

(** A pointer that can be followed. *)
Definition valid (st : Store) (p : ptr) : Prop := p = NULL \/ is_Some (cells st !! p).
Definition no_dangling (st : Store) : Prop := forall p q, edge st p q -> is_Some (cells st !! q).

(** Only marks are added. *)
Definition only_marks (st st' : Store) : Prop :=
  next_addr st' = next_addr st /\ current_heap st' = current_heap st /\
  forall p, match cells st !! p with
            | Some c => cells st' !! p = Some c \/ cells st' !! p = Some (value_set_marked c true)
            | None => cells st' !! p = None
            end.

Lemma only_marks_refl st : only_marks st st.
Proof. split_and!; [done..|]. intros p. destruct (cells st !! p); auto. Qed.
Lemma only_marks_data st st' p : only_marks st st' -> data <$> cells st' !! p = data <$> cells st !! p.
Proof. intros (_ & _ & H). specialize (H p). destruct (cells st !! p); [destruct H as [-> | ->]; done|by rewrite H]. Qed.
Lemma set_marked_twice c : value_set_marked (value_set_marked c true) true = value_set_marked c true.
Proof. unfold value_set_marked, set_gc_state. simpl. by rewrite <- Z.lor_assoc. Qed.
Lemma only_marks_trans st1 st2 st3 : only_marks st1 st2 -> only_marks st2 st3 -> only_marks st1 st3.
Proof.
  intros (N1 & C1 & H1) (N2 & C2 & H2). split_and!; [congruence..|]. intros p. specialize (H1 p). specialize (H2 p).
  destruct (cells st1 !! p) as [c|]; [|by rewrite H1 in H2].
  destruct H1 as [E1|E1]; rewrite E1 in H2; [done|]. rewrite set_marked_twice in H2. by right; destruct H2.
Qed.
Lemma only_marks_edge st st' p q : only_marks st st' -> edge st' p q <-> edge st p q.
Proof.
  intros H. pose proof (only_marks_data _ _ p H) as E. unfold edge. destruct (cells st !! p) as [c|], (cells st' !! p) as [c'|]; try done.
  injection E as E. split; intros (? & c0 & [= <-] & Hq); split; eauto; eexists; (split; [done|]); by rewrite ?E, <- ?E in *.
Qed.
Lemma only_marks_some st st' p : only_marks st st' -> is_Some (cells st' !! p) <-> is_Some (cells st !! p).
Proof.
  intros (_ & _ & H). specialize (H p). destruct (cells st !! p); [destruct H as [-> | ->]; split; eauto|by rewrite H].
Qed.
Lemma only_marks_marked st st' p : only_marks st st' -> marked st p -> marked st' p.
Proof.
  intros (_ & _ & H) (c & E & Hm). specialize (H p). rewrite E in H. destruct H as [E'|E']; eexists; (split; [done|]); [done|].
  apply marked_set.
Qed.

(** Marking from the pointers [l]. *)
Record marking (st st' : Store) (l : list ptr) : Prop := {
  mk_only : only_marks st st';
  mk_roots : forall p, p ∈ l -> p <> NULL -> marked st' p;
  mk_reach : forall p, marked st' p -> ~ marked st p -> reachable st l p;
  mk_children : forall p q, marked st' p -> ~ marked st p -> edge st p q -> marked st' q
}.
(** An action that marks from [l], where nothing dangles. *)
Definition marks (m : M unit) (l : list ptr) : Prop :=
  forall st, no_dangling st -> (forall p, p ∈ l -> valid st p) -> exists st', m st = Some (tt, st') /\ marking st st' l.

Lemma reachable_weaken st l l' p : l ⊆ l' -> reachable st l p -> reachable st l' p.
Proof. intros Hl (r & Hr & H). exists r. split; [by apply Hl|done]. Qed.
Lemma only_marks_reachable st st' l p : only_marks st st' -> reachable st' l p -> reachable st l p.
Proof.
  intros H (r & Hr & Hn & Hp). exists r. split_and!; [done..|]. eapply rtc_subrel; [|exact Hp]. intros x y. by apply (only_marks_edge _ _ _ _ H).
Qed.

Lemma marking_nil st : marking st st [].
Proof. split; [apply only_marks_refl|by intros p ?%elem_of_nil|done|done]. Qed.
Lemma marking_app st1 st2 st3 l l' : marking st1 st2 l -> marking st2 st3 l' -> marking st1 st3 (l ++ l').
Proof.
  intros H1 H2. pose proof (mk_only _ _ _ H1) as O1. pose proof (mk_only _ _ _ H2) as O2. split.
  - by eapply only_marks_trans.
  - intros p [Hp|Hp]%elem_of_app Hn; [|by eapply mk_roots]. eapply only_marks_marked; [done|]. by eapply mk_roots.
  - intros p Hp Hn. destruct (decide (marked st2 p)).
    + eapply reachable_weaken; [|by eapply mk_reach]. set_solver.
    + eapply reachable_weaken, only_marks_reachable; [|done|by eapply mk_reach]. set_solver.
  - intros p q Hp Hn He. destruct (decide (marked st2 p)).
    + eapply only_marks_marked; [done|]. by eapply mk_children.
    + eapply (mk_children _ _ _ H2); [done..|]. by apply (only_marks_edge _ _ _ _ O1).
Qed.

Lemma only_marks_dangling st st' : only_marks st st' -> no_dangling st -> no_dangling st'.
Proof. intros H Hd p q He. apply (only_marks_some _ _ _ H), (Hd p q). by apply (only_marks_edge _ _ _ _ H). Qed.
Lemma only_marks_valid st st' p : only_marks st st' -> valid st p -> valid st' p.
Proof. intros H [-> | Hv]; [by left|right]. by apply (only_marks_some _ _ _ H). Qed.

Lemma marks_ret : marks (mret tt) [].
Proof. intros st _ _. exists st. split; [done|apply marking_nil]. Qed.
Lemma marks_seq m m' l l' : marks m l -> marks m' l' -> marks (m ;; m') (l ++ l').
Proof.
  intros H H' st Hd Hv. destruct (H st Hd) as (st1 & E1 & H1); [intros; apply Hv; set_solver|].
  pose proof (mk_only _ _ _ H1) as O.
  destruct (H' st1) as (st2 & E2 & H2).
  { by eapply only_marks_dangling. }
  { intros p Hp. eapply only_marks_valid; [done|]. apply Hv. set_solver. }
  exists st2. split; [by mstep E1|by eapply marking_app].
Qed.
Lemma marks_each {A} (f : A -> M unit) (g : A -> list ptr) l : (forall x, x ∈ l -> marks (f x) (g x)) -> marks (each f l) (concat (g <$> l)).
Proof.
  induction l as [|x l IH]; intros H; [apply marks_ret|]. simpl. apply marks_seq; [apply H; left|]. apply IH. intros. apply H. by right.
Qed.
End reach.

(** ** Marking terminates and marks what can be reached *)

Definition unmarked (st : Store) : gset Z := dom (filter (fun '(_, c) => value_is_marked c = false) (cells st)).

Lemma elem_of_unmarked st p : p ∈ unmarked st <-> exists c, cells st !! p = Some c /\ value_is_marked c = false.
Proof.
  unfold unmarked. rewrite elem_of_dom. split.
  - intros [c [E H]%map_lookup_filter_Some]. eauto.
  - intros (c & E & H). exists c. by apply map_lookup_filter_Some.
Qed.
Lemma unmarked_shrinks st st' : only_marks st st' -> unmarked st' ⊆ unmarked st.
Proof.
  intros (_ & _ & H) p (c & E & Hm)%elem_of_unmarked. apply elem_of_unmarked. specialize (H p).
  destruct (cells st !! p) as [c0|]; [|congruence]. destruct H as [H|H]; rewrite E in H; injection H as ->; [eauto|].
  by rewrite marked_set in Hm.
Qed.
Lemma unmarked_size st : (base.size (unmarked st) <= base.size (cells st))%nat.
Proof.
  unfold unmarked. rewrite <- (size_dom (D := gset Z) (cells st)). apply subseteq_size, dom_filter_subseteq.
Qed.

(** The store with one more mark. *)
Definition with_mark (st : Store) (p : ptr) (c : Value) : Store :=
  mkStore (<[p := value_set_marked c true]> (cells st)) (next_addr st) (current_heap st).

Lemma with_mark_only st p c : cells st !! p = Some c -> only_marks st (with_mark st p c).
Proof.
  intros E. split_and!; [done..|]. intros q. simpl. destruct (decide (q = p)) as [->|Hq].
  - rewrite E, lookup_insert_eq. by right.
  - rewrite lookup_insert_ne by done. destruct (cells st !! q); auto.
Qed.
Lemma with_mark_marked st p c q : marked (with_mark st p c) q <-> q = p \/ marked st q.
Proof.
  unfold marked. simpl. destruct (decide (q = p)) as [->|Hq].
  - rewrite lookup_insert_eq. split; [by left|]. intros _. eexists. split; [done|apply marked_set].
  - rewrite lookup_insert_ne by done. naive_solver.
Qed.
Lemma with_mark_unmarked st p c : cells st !! p = Some c -> value_is_marked c = false ->
  (base.size (unmarked (with_mark st p c)) < base.size (unmarked st))%nat.
Proof.
  intros E Hm. apply subset_size. split.
  - by apply unmarked_shrinks, with_mark_only.
  - intros H. assert (Hp : p ∈ unmarked st) by (apply elem_of_unmarked; eauto).
    apply H, elem_of_unmarked in Hp as (c' & E' & Hm'). simpl in E'. rewrite lookup_insert_eq in E'. injection E' as <-.
    by rewrite marked_set in Hm'.
Qed.

(** What marking the children of a fresh mark gives. *)
Lemma marking_node closed st st' p c : cells st !! p = Some c -> value_is_marked c = false -> p <> NULL ->
  marking closed (with_mark st p c) st' (traced closed (data c)) -> marking closed st st' [p].
Proof.
  intros E Hm Hn H. pose proof (with_mark_only _ _ _ E) as O. pose proof (mk_only _ _ _ _ H) as O'.
  assert (Hp : marked st' p) by (eapply only_marks_marked; [done|]; apply with_mark_marked; by left).
  split.
  - by eapply only_marks_trans.
  - intros q ->%list_elem_of_singleton _. done.
  - intros q Hq Hnq. exists p. split; [by apply list_elem_of_singleton|]. split; [done|].
    destruct (decide (q = p)) as [->|Hne]; [done|].
    assert (Hr : reachable closed (with_mark st p c) (traced closed (data c)) q).
    { eapply mk_reach; [done..|]. rewrite with_mark_marked. tauto. }
    apply (only_marks_reachable _ _ _ _ _ O) in Hr as (r & Hr & Hrn & Hrq). eapply rtc_l; [|done]. split; [done|]. exists c. split; [done|]. by apply refers_traced.
  - intros q q' Hq Hnq He. destruct (decide (q = p)) as [->|Hne].
    + destruct He as (Hn' & c' & E' & Hin%refers_traced). rewrite E in E'. injection E' as <-. by eapply mk_roots.
    + eapply (mk_children _ _ _ _ H); [done|rewrite with_mark_marked; tauto|]. by apply (only_marks_edge _ _ _ _ _ O).
Qed.

Lemma write_cell st p c c' : cells st !! p = Some c ->
  write p c' st = Some (tt, mkStore (<[p := c']> (cells st)) (next_addr st) (current_heap st)).
Proof. intros E. unfold write. by rewrite E. Qed.
Lemma load_cell st p c : cells st !! p = Some c -> load p st = Some (c, st).
Proof. intros E. unfold load. by rewrite E. Qed.

Lemma mark_value_marks closed n : forall v st, (base.size (unmarked st) <= n)%nat -> no_dangling closed st -> valid st v ->
  exists st', mark_value closed n v st = Some (tt, st') /\ marking closed st st' [v].
Proof.
  induction n as [|n IH]; intros v st Hn Hd Hv; simpl;
    (destruct (Z.eqb_spec v NULL) as [->|Hv0];
     [exists st; split; [done|split; [apply only_marks_refl|by intros p ->%list_elem_of_singleton|done|done]]|]);
    (destruct Hv as [|[c E]]; [done|]); mstep (load_cell _ _ _ E);
    (destruct (value_is_marked c) eqn:Hm;
     [exists st; split; [done|split; [apply only_marks_refl|intros p ->%list_elem_of_singleton _; by exists c|done|done]]|]);
    pose proof (with_mark_unmarked _ _ _ E Hm) as Hlt; [lia|].
  mstep (write_cell _ _ _ (value_set_marked c true) E). change (mkStore _ _ _) with (with_mark st v c).
  assert (Heach : forall l st1, (base.size (unmarked st1) <= n)%nat -> no_dangling closed st1 -> (forall q, q ∈ l -> valid st1 q) ->
    exists st2, each (mark_value closed n) l st1 = Some (tt, st2) /\ marking closed st1 st2 l).
  { clear -IH. induction l as [|q l IHl]; intros st1 Hn Hd Hv; [exists st1; split; [done|apply marking_nil]|].
    destruct (IH q st1 Hn Hd) as (st2 & E2 & H2); [apply Hv; left|]. pose proof (mk_only _ _ _ _ H2) as O.
    destruct (IHl st2) as (st3 & E3 & H3).
    - pose proof (subseteq_size _ _ (unmarked_shrinks _ _ O)). lia.
    - by eapply only_marks_dangling.
    - intros q' Hq'. eapply only_marks_valid; [done|]. apply Hv. by right.
    - exists st3. split; [simpl; by mstep E2|]. by apply (marking_app closed st1 st2 st3 [q] l). }
  destruct (Heach (traced closed (data c)) (with_mark st v c)) as (st' & E' & H'); [lia| | |].
  - by eapply only_marks_dangling, Hd; apply with_mark_only.
  - intros q Hq. destruct (decide (q = NULL)) as [->|Hq0]; [by left|right].
    apply (only_marks_some _ _ _ (with_mark_only _ _ _ E)), (Hd v q). split; [done|]. exists c. split; [done|]. by apply refers_traced.
  - exists st'. split; [done|]. by eapply marking_node.
Qed.

Lemma gc_mark_value_marks closed v : marks closed (gc_mark_value closed v) [v].
Proof. intros st Hd Hv. apply mark_value_marks; [apply unmarked_size|done|]. apply Hv. by left. Qed.

(** The pointers that [gc_mark_roots] starts from. *)
Definition slot_objects (slot : option NanValue) : list ptr := match slot with Some v => nan_object v | None => [] end.
Definition gc_roots (vm : VM) : list ptr :=
  concat (slot_objects <$> stack_slots vm) ++ [globals vm] ++ match bytecode vm with Some code => code_constants code | None => [] end.

Lemma concat_singletons (l : list ptr) : concat ((fun p => [p]) <$> l) = l.
Proof. induction l as [|p l IH]; [done|]. csimpl. by rewrite IH. Qed.
Lemma marks_all closed l : marks closed (each (gc_mark_value closed) l) l.
Proof. rewrite <- (concat_singletons l) at 2. apply marks_each. intros. apply gc_mark_value_marks. Qed.

Lemma gc_mark_roots_marks vm : Forall is_Some (stack_slots vm) -> marks (closed_upvalues vm) (gc_mark_roots vm) (gc_roots vm).
Proof.
  intros Hs. unfold gc_mark_roots, gc_roots. apply marks_seq.
  - apply marks_each. intros slot Hin. rewrite Forall_forall in Hs. apply Hs in Hin as [v ->]. apply marks_all.
  - apply marks_seq; [apply gc_mark_value_marks|]. destruct (bytecode vm); [apply marks_all|apply marks_ret].
Qed.

(** From a store without marks, exactly what can be reached is marked. *)
Lemma marking_exact closed st st' l : marking closed st st' l -> (forall p, ~ marked st p) ->
  forall p, marked st' p <-> reachable closed st l p.
Proof.
  intros H Hnone p. split; [intros Hp; by eapply mk_reach|]. intros (r & Hr & Hn & Hp).
  assert (Hrm : marked st' r) by (by eapply mk_roots). clear Hr Hn.
  induction Hp as [|x y z He Hp IH]; [done|]. apply IH. by eapply mk_children.
Qed.

(** ** Sweeping *)

(** The cell that [REFCOUNT_FREEING] protects: [value_free] returns at once. *)
Lemma value_free_freeing st p c : cells st !! p = Some c -> p <> NULL -> refcount c = REFCOUNT_FREEING ->
  value_free_all p st = Some (tt, st).
Proof.
  intros E Hn Hr. unfold value_free_all, free_fuel. simpl. rewrite (proj2 (Z.eqb_neq _ _) Hn). mstep (load_cell _ _ _ E). by rewrite Hr.
Qed.

(** What a visit does to the cell of an object and to the counters. *)
Record effect := mkEffect { keep : Value -> bool; after : Value -> Value; counted : Value -> Counters -> Counters }.
Definition visits (visit : ptr -> Counters -> M (bool * Counters)) (e : effect) : Prop :=
  forall p c k st, cells st !! p = Some c -> p <> NULL ->
  visit p k st = Some ((keep e c, counted e c k), mkStore (<[p := after e c]> (cells st)) (next_addr st) (current_heap st)).

Definition reclaimed (generational : bool) : effect :=
  mkEffect (fun c => negb (refcount c =? 0))
    (fun c => if negb (refcount c =? 0) then value_set_marked c false else set_refcount c REFCOUNT_FREEING)
    (fun c k => if negb (refcount c =? 0) then k else without generational (value_is_old_gen c) (value_size (type_of (data c))) k).
Lemma reclaim_visits generational p c k st : cells st !! p = Some c -> p <> NULL ->
  reclaim generational p c k st =
  Some ((keep (reclaimed generational) c, counted (reclaimed generational) c k),
        mkStore (<[p := after (reclaimed generational) c]> (cells st)) (next_addr st) (current_heap st)).
Proof.
  intros E Hn. unfold reclaim, reclaimed. simpl. destruct (negb (refcount c =? 0)).
  - by mstep (write_cell _ _ _ (value_set_marked c false) E).
  - mstep (write_cell _ _ _ (set_refcount c REFCOUNT_FREEING) E).
    rewrite (M_bind_run _ _ _ _ _ (value_free_freeing _ p (set_refcount c REFCOUNT_FREEING) (lookup_insert_eq _ _ _) Hn eq_refl)). done.
Qed.

(** Whether it was marked or has references. *)
Definition lives (c : Value) : bool := value_is_marked c || negb (refcount c =? 0).

Definition swept (generational : bool) (threshold : Z) : effect :=
  let aged c k := if generational && negb (value_is_old_gen c) then survived threshold (value_set_marked c false) k
                  else (value_set_marked c false, k) in
  mkEffect lives
    (fun c => if value_is_marked c then (aged c (mkCounters 0 0 0 0 0 0 0)).1 else after (reclaimed generational) c)
    (fun c k => if value_is_marked c then (aged c k).2 else counted (reclaimed generational) c k).
Lemma sweep_visits generational threshold : visits (sweep_object generational threshold) (swept generational threshold).
Proof.
  intros p c k st E Hn. unfold sweep_object, swept, lives. simpl. mstep (load_cell _ _ _ E).
  destruct (value_is_marked c) eqn:Hm; [|by apply reclaim_visits]. rewrite old_set.
  destruct (generational && negb (value_is_old_gen c)); simpl; [|by mstep (write_cell _ _ _ (value_set_marked c false) E)].
  unfold survived. destruct (_ <=? _); cbn [fst snd].
  - by mstep (write_cell _ _ _ (value_set_old_gen (value_inc_survival (value_set_marked c false))) E).
  - by mstep (write_cell _ _ _ (value_inc_survival (value_set_marked c false)) E).
Qed.

Definition kept (e : effect) (st : Store) (l : list ptr) : list ptr :=
  filter (fun p => match cells st !! p with Some c => keep e c | None => false end = true) l.
Definition counted_over (e : effect) (st : Store) (l : list ptr) (k : Counters) : Counters :=
  foldl (fun k p => match cells st !! p with Some c => counted e c k | None => k end) k l.
(** The store after visiting [l]. *)
Definition visited (e : effect) (l : list ptr) (st st' : Store) : Prop :=
  next_addr st' = next_addr st /\ current_heap st' = current_heap st /\
  forall p, cells st' !! p = (if decide (p ∈ l) then after e else id) <$> cells st !! p.

(** The objects of a heap: live cells, each of them once. *)
Definition list_ok (st : Store) (l : list ptr) : Prop := NoDup l /\ forall p, p ∈ l -> p <> NULL /\ is_Some (cells st !! p).

Lemma lookup_ext (e : effect) st st' l : (forall p, p ∈ l -> cells st' !! p = cells st !! p) ->
  kept e st' l = kept e st l /\ forall k, counted_over e st' l k = counted_over e st l k.
Proof.
  intros H. split.
  - unfold kept. induction l as [|p l IH]; [done|]. rewrite !filter_cons, H by left. rewrite IH; [done|]. intros. apply H. by right.
  - unfold counted_over. induction l as [|p l IH]; intros k; [done|]. simpl. rewrite H by left. apply IH. intros. apply H. by right.
Qed.

Lemma list_ok_step st p l c : list_ok st (p :: l) ->
  list_ok (mkStore (<[p := c]> (cells st)) (next_addr st) (current_heap st)) l.
Proof.
  intros [[Hp Hd]%NoDup_cons Hl]. split; [done|]. intros q Hq. split; [apply Hl; by right|]. simpl.
  rewrite lookup_insert_ne by (by intros ->). apply Hl. by right.
Qed.

Lemma sweep_list_visits visit e : visits visit e -> forall l k st, list_ok st l ->
  exists st', sweep_list visit l k st = Some ((kept e st l, counted_over e st l k), st') /\ visited e l st st'.
Proof.
  intros Hv. induction l as [|p l IH]; intros k st Hok.
  - exists st. split; [done|]. split_and!; [done..|]. intros p. simpl. by destruct (cells st !! p).
  - destruct (proj2 Hok p) as [Hn [c E]]; [left|]. pose proof Hok as [[Hp _]%NoDup_cons _].
    set (st1 := mkStore (<[p := after e c]> (cells st)) (next_addr st) (current_heap st)).
    destruct (IH (counted e c k) st1) as (st2 & E2 & N2 & C2 & H2); [by apply list_ok_step|].
    destruct (lookup_ext e st st1 l) as [Hk Hc]; [intros q Hq; apply lookup_insert_ne; by intros ->|]. rewrite Hk, Hc in E2.
    exists st2. split.
    + simpl. mstep (Hv p c k st E Hn). fold st1. cbn [fst snd]. mstep E2. unfold kept, counted_over. simpl. rewrite filter_cons, E.
      by destruct (keep e c).
    + split_and!; [done..|]. intros q. rewrite H2. simpl. destruct (decide (q = p)) as [->|Hq].
      * rewrite lookup_insert_eq, decide_False, (decide_True (P := p ∈ p :: l)), E by (done || left). done.
      * rewrite lookup_insert_ne by done. destruct (decide (q ∈ l)), (decide (q ∈ p :: l)) as [Hin|Hin]; try done;
          [by contradict Hin; right|]. apply elem_of_cons in Hin as [->|Hin]; done.
Qed.

(** *** The remembered set *)

(** Cells may lose their remembered bit. *)
Definition forgets (st st' : Store) : Prop :=
  next_addr st' = next_addr st /\
  forall p, match cells st !! p with
            | Some c => cells st' !! p = Some c \/ cells st' !! p = Some (value_set_remembered c false)
            | None => cells st' !! p = None
            end.

Lemma unremember_twice c : value_set_remembered (value_set_remembered c false) false = value_set_remembered c false.
Proof. unfold value_set_remembered, set_gc_state. simpl. by rewrite <- Z.land_assoc, Z.land_diag. Qed.
Lemma forgets_trans st1 st2 st3 : forgets st1 st2 -> forgets st2 st3 -> forgets st1 st3.
Proof.
  intros (N1 & H1) (N2 & H2). split; [congruence|]. intros p. specialize (H1 p). specialize (H2 p).
  destruct (cells st1 !! p) as [c|]; [|by rewrite H1 in H2].
  destruct H1 as [E1|E1]; rewrite E1 in H2; [done|]. rewrite unremember_twice in H2. by right; destruct H2.
Qed.
Lemma forgets_refl st : forgets st st.
Proof. split; [done|]. intros p. destruct (cells st !! p); auto. Qed.

Lemma each_forgets l : forall st, (forall p, p ∈ l -> valid st p) ->
  exists st', each (fun p => if p =? NULL then mret tt else c ← load p; write p (value_set_remembered c false)) l st = Some (tt, st') /\
    forgets st st' /\ current_heap st' = current_heap st.
Proof.
  induction l as [|p l IH]; intros st Hv; [exists st; split_and!; [done|apply forgets_refl|done]|].
  assert (exists st1, (if p =? NULL then mret tt else c ← load p; write p (value_set_remembered c false)) st = Some (tt, st1) /\
    forgets st st1 /\ current_heap st1 = current_heap st) as (st1 & E1 & H1 & C1).
  { destruct (Z.eqb_spec p NULL) as [->|Hn]; [exists st; split_and!; [done|apply forgets_refl|done]|].
    destruct (Hv p) as [|[c E]]; [left|done|]. mstep (load_cell _ _ _ E). rewrite (write_cell _ _ _ _ E). eexists. split_and!; [done| |done].
    split; [done|]. intros q. simpl. destruct (decide (q = p)) as [->|Hq]; [rewrite lookup_insert_eq, E; by right|].
    rewrite lookup_insert_ne by done. destruct (cells st !! q); auto. }
  destruct (IH st1) as (st2 & E2 & H2 & C2).
  { intros q Hq. destruct (Hv q) as [->|[c E]]; [by right|by left|right]. destruct H1 as [_ H1]. specialize (H1 q). rewrite E in H1.
    destruct H1 as [->| ->]; eauto. }
  exists st2. split_and!; [simpl; by mstep E1|by eapply forgets_trans|congruence].
Qed.

Lemma clear_forgets st g : current_heap st = Some g -> (forall p, p ∈ remember_set g -> valid st p) ->
  exists st', remember_set_clear st = Some (tt, st') /\ forgets st st' /\
    current_heap st' = Some (mkGcHeap (generational_enabled g) [] (remember_capacity g) (max_remember_size g) (needs_full_gc g)).
Proof.
  intros Hg Hv. destruct (each_forgets _ st Hv) as (st1 & E1 & H1 & C1). unfold remember_set_clear.
  assert (Et : this_heap st = Some (g, st)) by (unfold this_heap, get_heap, mbind, M_bind; by rewrite Hg).
  mstep Et. mstep E1. eexists. split_and!; [done| |done]. exact H1.
Qed.

(** The bits that a collection looks at survive. *)
Lemma marked_forget c : value_is_marked (value_set_remembered c false) = value_is_marked c.
Proof.
  unfold value_is_marked, value_set_remembered, GC_MARKED, GC_REMEMBERED. simpl. rewrite <- Z.land_assoc.
  by change (u8 (Z.lnot 32) .& 1) with 1.
Qed.
Lemma old_forget c : value_is_old_gen (value_set_remembered c false) = value_is_old_gen c.
Proof.
  unfold value_is_old_gen, value_set_remembered, GC_OLD_GEN, GC_REMEMBERED. simpl. rewrite <- Z.land_assoc.
  by change (u8 (Z.lnot 32) .& 2) with 2.
Qed.

(** ** Collections *)

(** A heap that can be collected: its objects are live and listed once, and
    neither the cells nor the machine nor the remembered set hold dangling pointers. *)
Record ready (vm : VM) (h : Heap) (g : GcHeap) (st : Store) : Prop := {
  rd_heap : current_heap st = Some g;
  rd_objects : list_ok st (objects h);
  rd_edges : no_dangling (closed_upvalues vm) st;
  rd_roots : forall p, p ∈ gc_roots vm -> valid st p;
  rd_slots : Forall is_Some (stack_slots vm);
  rd_remembered : forall p, p ∈ remember_set g -> valid st p
}.

Definition cleared (g : GcHeap) : GcHeap :=
  mkGcHeap (generational_enabled g) [] (remember_capacity g) (max_remember_size g) (needs_full_gc g).

Lemma this_heap_run st g : current_heap st = Some g -> this_heap st = Some (g, st).
Proof. intros H. unfold this_heap, get_heap, mbind, M_bind. by rewrite H. Qed.
Lemma list_ok_some st st' l : (forall p, is_Some (cells st !! p) -> is_Some (cells st' !! p)) -> list_ok st l -> list_ok st' l.
Proof. intros H [Hd Hl]. split; [done|]. intros p Hp. destruct (Hl p Hp). auto. Qed.
Lemma visited_some e l st st' p : visited e l st st' -> is_Some (cells st' !! p) <-> is_Some (cells st !! p).
Proof. intros (_ & _ & H). rewrite H. by rewrite fmap_is_Some. Qed.
Lemma forgets_some st st' p : forgets st st' -> is_Some (cells st' !! p) <-> is_Some (cells st !! p).
Proof. intros (_ & H). specialize (H p). destruct (cells st !! p); [destruct H as [-> | ->]; split; eauto|by rewrite H]. Qed.

(** The phases of a collection that starts with [mark] and sweeps with [visit]. *)
Definition phases (vm : VM) (h : Heap) (g : GcHeap) (l : list ptr) (e : effect) (st st1 st2 st3 : Store) : Prop :=
  marking (closed_upvalues vm) st st1 l /\ visited e (objects h) st1 st2 /\ forgets st2 st3 /\ current_heap st3 = Some (cleared g).

Lemma phases_run vm h g l visit e st st1 : ready vm h g st -> marking (closed_upvalues vm) st st1 l -> visits visit e ->
  exists st2 st3, phases vm h g l e st st1 st2 st3 /\
    sweep_list visit (objects h) (counters h) st1 = Some ((kept e st1 (objects h), counted_over e st1 (objects h) (counters h)), st2) /\
    remember_set_clear st2 = Some (tt, st3).
Proof.
  intros H H1 Hv. pose proof (mk_only _ _ _ _ H1) as O.
  destruct (sweep_list_visits visit e Hv (objects h) (counters h) st1) as (st2 & E2 & H2).
  { eapply list_ok_some, (rd_objects _ _ _ _ H). intros p. apply (only_marks_some _ _ _ O). }
  destruct (clear_forgets st2 g) as (st3 & E3 & H3 & C3).
  { rewrite (proj1 (proj2 H2)), (proj1 (proj2 O)). apply (rd_heap _ _ _ _ H). }
  { intros p Hp. destruct (rd_remembered _ _ _ _ H p Hp) as [->|Hs]; [by left|right].
    apply (visited_some _ _ _ _ _ H2), (only_marks_some _ _ _ O), Hs. }
  by exists st2, st3.
Qed.

Lemma full_run vm h g st : ready vm h g st -> let e := swept (generational_enabled g) (promotion_threshold h) in
  exists st1 st2 st3, phases vm h g (gc_roots vm) e st st1 st2 st3 /\
    gc_collect_full h vm st =
    Some (count_runs (resized (set_objects h (kept e st1 (objects h)) (counted_over e st1 (objects h) (counters h))) two) (young_gc_threshold h) 0 1, st3).
Proof.
  intros H e.
  destruct (gc_mark_roots_marks vm (rd_slots _ _ _ _ H) st (rd_edges _ _ _ _ H) (rd_roots _ _ _ _ H)) as (st1 & E1 & H1).
  destruct (phases_run vm h g (gc_roots vm) _ e st st1 H H1 (sweep_visits (generational_enabled g) (promotion_threshold h)))
    as (st2 & st3 & Hp & E2 & E3).
  exists st1, st2, st3. split; [done|]. unfold gc_collect_full. mstep E1.
  assert (Hg : current_heap st1 = Some g) by (rewrite (proj1 (proj2 (mk_only _ _ _ _ (proj1 Hp)))); apply (rd_heap _ _ _ _ H)).
  assert (Es : sweep h st1 = Some (set_objects h (kept e st1 (objects h)) (counted_over e st1 (objects h) (counters h)), st2)).
  { unfold sweep. mstep (this_heap_run _ _ Hg). by mstep E2. }
  mstep Es. by mstep E3.
Qed.

(** What a cell becomes. *)
Lemma after_swept_data gen thr c : data (after (swept gen thr) c) = data c.
Proof.
  unfold swept. simpl. repeat (case_match; simplify_eq; simpl; try done); unfold survived, value_inc_survival in *; repeat (case_match; simplify_eq; simpl; try done).
Qed.
Lemma marked_survival c : value_is_marked (value_inc_survival c) = value_is_marked c.
Proof.
  unfold value_is_marked, value_inc_survival, GC_MARKED, GC_SURVIVAL_MASK, GC_SURVIVAL_SHIFT. destruct (_ <? 7); [|done]. simpl.
  rewrite Z.land_lor_distr_l, <- Z.land_assoc. change (u8 (Z.lnot 28) .& 1) with 1.
  rewrite (Z.shiftl_mul_pow2 _ 2) by lia. change (2 ^ 2) with (2 * 2). rewrite Z.mul_assoc.
  change (((value_survival_count c + 1) * 2 * 2) .& 1) with (((value_survival_count c + 1) * 2 * 2) .& Z.ones 1).
  rewrite Z.land_ones by lia. change (2 ^ 1) with 2. by rewrite Z_mod_mult, Z.lor_0_r.
Qed.
Lemma marked_old c : value_is_marked (value_set_old_gen c) = value_is_marked c.
Proof.
  unfold value_is_marked, value_set_old_gen, GC_MARKED, GC_OLD_GEN. simpl. rewrite Z.land_lor_distr_l. change (2 .& 1) with 0.
  by rewrite Z.lor_0_r.
Qed.
Lemma survived_cell thr c k : let c' := (survived thr c k).1 in
  data c' = data c /\ refcount c' = refcount c /\ value_is_marked c' = value_is_marked c.
Proof.
  unfold survived. assert (H : data (value_inc_survival c) = data c /\ refcount (value_inc_survival c) = refcount c)
    by (unfold value_inc_survival; by destruct (_ <? 7)).
  destruct H as [H1 H2]. destruct (_ <=? _); simpl; rewrite ?marked_old, marked_survival; done.
Qed.

Lemma swept_cell gen thr c : let c' := after (swept gen thr) c in
  data c' = data c /\ value_is_marked c' = false /\ refcount c' = if lives c then refcount c else REFCOUNT_FREEING.
Proof.
  unfold swept, lives. simpl. destruct (value_is_marked c) eqn:Hm; simpl.
  - destruct (gen && negb (value_is_old_gen c)); simpl; [|by rewrite marked_unset].
    destruct (survived_cell thr (value_set_marked c false) (mkCounters 0 0 0 0 0 0 0)) as (-> & -> & ->). by rewrite marked_unset.
  - destruct (refcount c =? 0); simpl; [done|by rewrite marked_unset].
Qed.

(** A cell after marking from a store without marks. *)
Lemma marking_cell closed st st' l p c : marking closed st st' l -> (forall p, ~ marked st p) -> cells st !! p = Some c ->
  exists c', cells st' !! p = Some c' /\ data c' = data c /\ refcount c' = refcount c /\
    (lives c' = true <-> reachable closed st l p \/ exists c, cells st !! p = Some c /\ refcount c <> 0).
Proof.
  intros H Hnone E. pose proof (marking_exact _ _ _ _ H Hnone p) as Hm. destruct (mk_only _ _ _ _ H) as (_ & _ & O). specialize (O p).
  rewrite E in O. unfold marked in Hm. unfold lives. destruct O as [O|O]; rewrite O in Hm; (eexists; split; [done|]); split_and!; try done;
    rewrite <- Hm, orb_true_iff, negb_true_iff, Z.eqb_neq, E; naive_solver.
Qed.
Lemma forgets_cell st st' p c : forgets st st' -> cells st !! p = Some c ->
  exists c', cells st' !! p = Some c' /\ data c' = data c /\ refcount c' = refcount c /\ value_is_marked c' = value_is_marked c.
Proof.
  intros [_ H] E. specialize (H p). rewrite E in H. destruct H as [-> | ->]; eexists; (split; [done|]); [done|].
  by rewrite marked_forget.
Qed.

(** C18: what a full collection does.  On a heap none of whose values is marked, it
    removes from the list of objects exactly those that have no references and
    cannot be reached from the machine's stack, globals and constants through arrays,
    maps and closed upvalues.  Every value keeps its contents, every other value its
    count, no object is left marked; and no memory is given back: each cell is
    still there, since [value_free] refuses the values it gets. *)
Theorem gc_collect_full_exact vm h g st : ready vm h g st -> (forall p, ~ marked st p) ->
  exists h' st', gc_collect_full h vm st = Some (h', st') /\
    (forall p, p ∈ objects h' <->
       p ∈ objects h /\ (reachable (closed_upvalues vm) st (gc_roots vm) p \/ exists c, cells st !! p = Some c /\ refcount c <> 0)) /\
    (forall p c, cells st !! p = Some c -> exists c', cells st' !! p = Some c' /\ data c' = data c /\
       (p ∈ objects h -> value_is_marked c' = false) /\ (p ∈ objects h' \/ p ∉ objects h -> refcount c' = refcount c)).
Proof.
  intros H Hnone. destruct (full_run vm h g st H) as (st1 & st2 & st3 & (H1 & H2 & H3 & _) & E).
  eexists _, st3. split; [exact E|]. simpl.
  assert (Hin : forall p, p ∈ kept (swept (generational_enabled g) (promotion_threshold h)) st1 (objects h) <-> p ∈ objects h /\
    (reachable (closed_upvalues vm) st (gc_roots vm) p \/ exists c, cells st !! p = Some c /\ refcount c <> 0)).
  { intros p. unfold kept. rewrite list_elem_of_filter. split; [intros [Hl Hp]; split; [done|]|intros [Hp Hl]; split; [|done]];
      destruct (proj2 (rd_objects _ _ _ _ H) p Hp) as [_ [c Ec]];
      destruct (marking_cell _ _ _ _ _ _ H1 Hnone Ec) as (c1 & E1 & _ & _ & Hlives); rewrite E1 in *; by apply Hlives. }
  split; [exact Hin|]. intros p c Ec.
  destruct (marking_cell _ _ _ _ _ _ H1 Hnone Ec) as (c1 & E1 & Hd & Hr & Hm). destruct H2 as (_ & _ & H2). specialize (H2 p).
  rewrite E1 in H2. simpl in H2. destruct (forgets_cell _ _ _ _ H3 H2) as (c' & E' & Hd' & Hr' & Hm'). exists c'. split; [done|].
  destruct (decide (p ∈ objects h)) as [Hp|Hp]; [|simpl in *; rewrite Hd', Hr', Hd, Hr; split_and!; done].
  destruct (swept_cell (generational_enabled g) (promotion_threshold h) c1) as (Sd & Sm & Sr). simpl in *.
  rewrite Hd', Hm', Hr'. split_and!; [congruence|done|]. intros [Hk|]; [|done]. apply Hin in Hk as [_ Hk%Hm]. by rewrite Sr, Hk.
Qed.

(** ** Incremental collections *)

(** Every child of a marked object is marked: there is nothing left to mark. *)
Definition saturated (closed : gmap Z NanValue) (st : Store) : Prop := forall p q, marked st p -> edge closed st p q -> marked st q.

Lemma marking_saturates closed st st' l : marking closed st st' l -> (forall p, ~ marked st p) -> saturated closed st'.
Proof.
  intros H Hnone p q Hp He. eapply mk_children; [done..|apply Hnone|]. by apply (only_marks_edge _ _ _ _ _ (mk_only _ _ _ _ H)).
Qed.
Lemma gc_mark_marked closed st p : p = NULL \/ marked st p -> gc_mark_value closed p st = Some (tt, st).
Proof.
  intros H. unfold gc_mark_value. destruct (base.size (cells st)); simpl; (destruct (Z.eqb_spec p NULL) as [|Hn]; [done|]);
    (destruct H as [|(c & E & Hm)]; [done|]); mstep (load_cell _ _ _ E); by rewrite Hm.
Qed.
Lemma each_unchanged {A} (f : A -> M unit) l st : (forall x, x ∈ l -> f x st = Some (tt, st)) -> each f l st = Some (tt, st).
Proof.
  induction l as [|x l IH]; intros H; [done|]. simpl. mstep (H x ltac:(left)). apply IH. intros. apply H. by right.
Qed.

Lemma step_traced_traced closed d q : q ∈ step_traced d -> q ∈ traced closed d.
Proof. destruct d; simpl; try done. by intros ?%elem_of_nil. Qed.
Lemma step_marking_idle closed st : saturated closed st -> forall b l, list_ok st l ->
  step_marking_loop closed b l st = Some (drop b l, st).
Proof.
  intros Hs b. induction b as [|b IH]; intros [|p l] Hok; try done. simpl.
  destruct (proj2 Hok p ltac:(left)) as [Hn [c E]]. mstep (load_cell _ _ _ E).
  assert (Em : (if value_is_marked c then each (gc_mark_value closed) (step_traced (data c)) else mret tt) st = Some (tt, st)).
  { destruct (value_is_marked c) eqn:Hm; [|done]. apply each_unchanged. intros q Hq. apply gc_mark_marked.
    destruct (decide (q = NULL)); [by left|right]. apply (Hs p); [by exists c|]. split; [done|]. exists c. split; [done|].
    by apply refers_traced, step_traced_traced. }
  mstep Em. apply IH. split; [apply (NoDup_cons p l), Hok|]. intros q Hq. apply Hok. by right.
Qed.

Definition step_swept : effect :=
  mkEffect lives (fun c => if value_is_marked c then value_set_marked c false else after (reclaimed false) c)
    (fun c k => if value_is_marked c then k else counted (reclaimed false) c k).
Lemma step_sweep_visits : visits step_sweep_object step_swept.
Proof.
  intros p c k st E Hn. unfold step_sweep_object, step_swept, lives. simpl. mstep (load_cell _ _ _ E).
  destruct (value_is_marked c) eqn:Hm; [by mstep (write_cell _ _ _ (value_set_marked c false) E)|by apply reclaim_visits].
Qed.
Lemma step_sweeping_list b : forall pre l k st,
  step_sweeping_loop b pre l k st = (r ← sweep_list step_sweep_object (take b l) k; mret (pre ++ r.1, drop b l, r.2)) st.
Proof.
  induction b as [|b IH]; intros pre [|p l] k st; simpl; try (unfold mbind, M_bind; simpl; by rewrite app_nil_r).
  unfold mbind, M_bind. destruct (step_sweep_object p k st) as [[[keeps k'] st1]|]; [|done]. simpl. rewrite IH. unfold mbind, M_bind. simpl.
  destruct (sweep_list step_sweep_object (take b l) k' st1) as [[[l' k''] st2]|]; [|done]. simpl.
  destruct keeps; [by rewrite <- app_assoc|done].
Qed.

(** Finding the place again where the last step stopped. *)
Lemma from_cursor_suffix st a l : list_ok st (a ++ l) -> from_cursor (cursor_of l) (a ++ l) st = Some (l, st).
Proof.
  intros [Hd Hl]. unfold from_cursor, cursor_of. destruct l as [|p l]; [done|]. simpl.
  rewrite (proj2 (Z.eqb_neq p NULL)) by (apply Hl; set_solver).
  assert (E : from_object p (a ++ p :: l) = Some (p :: l)); [|by rewrite E].
  clear Hl. induction a as [|x a IH]; simpl in *; [by rewrite Z.eqb_refl|]. apply NoDup_cons in Hd as [Hx Hd].
  rewrite (proj2 (Z.eqb_neq x p)) by (intros ->; apply Hx; set_solver). auto.
Qed.
Lemma split_link_suffix st pre l : NoDup (pre ++ l) -> split_link (link_behind pre) (pre ++ l) st = Some ((pre, l), st).
Proof.
  intros Hd. unfold link_behind. destruct pre as [|x pre] using rev_ind; [done|]. rewrite last_snoc. simpl.
  assert (E : split_after x ((pre ++ [x]) ++ l) = Some (pre ++ [x], l)); [|by rewrite E]. clear IHpre.
  induction pre as [|y pre IH]; simpl in *; [by rewrite Z.eqb_refl|]. apply NoDup_cons in Hd as [Hy Hd].
  rewrite (proj2 (Z.eqb_neq y x)) by (intros ->; apply Hy; set_solver). rewrite IH by done. done.
Qed.

Lemma visited_app e l l' st1 st2 st3 : NoDup (l ++ l') -> visited e l st1 st2 -> visited e l' st2 st3 -> visited e (l ++ l') st1 st3.
Proof.
  intros (_ & Hd & _)%NoDup_app (N1 & C1 & H1) (N2 & C2 & H2). split_and!; [congruence..|]. intros p. rewrite H2, H1.
  destruct (cells st1 !! p) as [c|]; simpl; [|done].
  destruct (decide (p ∈ l)), (decide (p ∈ l')), (decide (p ∈ l ++ l')) as [Hin|Hin]; try done; try set_solver.
Qed.
Lemma visited_elsewhere e l st st' p : visited e l st st' -> p ∉ l -> cells st' !! p = cells st !! p.
Proof. intros (_ & _ & H) Hp. rewrite H, decide_False by done. by destruct (cells st !! p). Qed.

(** One step: the next [b] objects are swept. *)
Lemma sweeping_step h st pre l : let b := Z.to_nat (step_budget h) in
  objects h = pre ++ l -> sweep_prev h = link_behind pre -> NoDup (pre ++ l) -> list_ok st l ->
  exists st1 pre1, pre1 = pre ++ kept step_swept st (take b l) /\ visited step_swept (take b l) st st1 /\
    list_ok st1 (drop b l) /\ NoDup (pre1 ++ drop b l) /\ kept step_swept st1 (drop b l) = kept step_swept st (drop b l) /\
    gc_step_sweeping h st =
    Some ((negb (bool_decide (drop b l = [])),
           set_phase (set_objects h (pre1 ++ drop b l) (counted_over step_swept st (take b l) (counters h))) (gc_phase h) (mark_cursor h) (link_behind pre1)), st1).
Proof.
  intros b Ho Hs Hd Hok. assert (Hl : take b l ++ drop b l = l) by apply take_drop.
  assert (Hdl : NoDup (take b l ++ drop b l)) by (rewrite Hl; apply Hok). pose proof Hdl as (Hd1 & Hdis & Hd2)%NoDup_app.
  assert (Hok1 : list_ok st (take b l)) by (split; [done|]; intros p Hin; apply Hok; rewrite <- Hl; set_solver).
  destruct (sweep_list_visits _ _ step_sweep_visits (take b l) (counters h) st Hok1) as (st1 & E1 & H1).
  assert (Hsame : forall p, p ∈ drop b l -> cells st1 !! p = cells st !! p) by (intros p ?; eapply visited_elsewhere; [done|set_solver]).
  eexists st1, _. split; [done|]. split_and!; [done| | |by apply lookup_ext|].
  - split; [done|]. intros p Hin. rewrite Hsame by done. apply Hok. rewrite <- Hl. set_solver.
  - rewrite <- Hl, app_assoc in Hd. eapply sublist_NoDup; [exact Hd|]. apply sublist_app; [|done]. apply sublist_app; [done|].
    apply sublist_filter.
  - unfold gc_step_sweeping. rewrite Hs, Ho. mstep (split_link_suffix st pre l Hd). fold b.
    assert (E : step_sweeping_loop b pre l (counters h) st =
      Some ((pre ++ kept step_swept st (take b l), drop b l, counted_over step_swept st (take b l) (counters h)), st1)).
    { rewrite step_sweeping_list. by mstep E1. }
    by mstep E.
Qed.

Lemma complete_sweeping vm : forall fuel h st pre l, gc_phase h = GC_SWEEPING -> objects h = pre ++ l -> sweep_prev h = link_behind pre ->
  NoDup (pre ++ l) -> list_ok st l -> 0 < step_budget h -> (length l < fuel)%nat ->
  exists h' st', gc_complete fuel h vm st = Some (Some h', st') /\ objects h' = pre ++ kept step_swept st l /\ gc_phase h' = GC_IDLE /\
    visited step_swept l st st'.
Proof.
  induction fuel as [|fuel IH]; intros h st pre l Hp Ho Hs Hd Hok Hb Hf; [lia|].
  destruct (sweeping_step h st pre l Ho Hs Hd Hok) as (st1 & pre1 & -> & H1 & Hok1 & Hd1 & Hk1 & E2).
  set (b := Z.to_nat (step_budget h)) in *. assert (Hl : take b l ++ drop b l = l) by apply take_drop.
  assert (Hk : kept step_swept st l = kept step_swept st (take b l) ++ kept step_swept st (drop b l)) by (rewrite <- Hl at 1; apply filter_app).
  simpl gc_complete. unfold gc_step. rewrite Hp. unfold mbind at 1, M_bind at 1. mstep E2.
  destruct (decide (drop b l = [])) as [Er|Er].
  - rewrite bool_decide_true by done. eexists _, st1. split; [done|]. simpl.
    split_and!; [|done|by rewrite Er, app_nil_r in Hl; rewrite <- Hl]. rewrite Hk, Er. by rewrite !app_nil_r.
  - rewrite bool_decide_false by done. simpl.
    match goal with |- context [gc_complete fuel ?x vm st1] => set (h1 := x) end.
    assert (Hlen : (length (drop b l) < length l)%nat) by (rewrite length_drop; destruct l; [by rewrite drop_nil in Er|simpl; lia]).
    destruct (IH h1 st1 (pre ++ kept step_swept st (take b l)) (drop b l)) as (h' & st' & E & Ho' & Hp' & H'); [done..|lia|].
    exists h', st'. split; [done|]. split_and!; [|done|].
    + by rewrite Ho', Hk1, Hk, app_assoc.
    + rewrite <- Hl. eapply visited_app; [rewrite Hl; apply Hok|done..].
Qed.

Lemma complete_marking vm : forall fuel h st a l, gc_phase h = GC_MARKING -> objects h = a ++ l -> mark_cursor h = cursor_of l ->
  list_ok st (objects h) -> saturated (closed_upvalues vm) st -> 0 < step_budget h -> (length l + length (objects h) + 1 < fuel)%nat ->
  exists h' st', gc_complete fuel h vm st = Some (Some h', st') /\ objects h' = kept step_swept st (objects h) /\ gc_phase h' = GC_IDLE /\
    visited step_swept (objects h) st st'.
Proof.
  induction fuel as [|fuel IH]; intros h st a l Hp Ho Hc Hok Hs Hb Hf; [lia|].
  set (b := Z.to_nat (step_budget h)).
  assert (Hokl : list_ok st l).
  { rewrite Ho in Hok. destruct Hok as [(_ & _ & Hd)%NoDup_app Hl]. split; [done|]. intros p ?. apply Hl. set_solver. }
  assert (E : gc_step_marking h (closed_upvalues vm) st =
    Some ((negb (cursor_of (drop b l) =? NULL), set_phase h (gc_phase h) (cursor_of (drop b l)) (sweep_prev h)), st)).
  { unfold gc_step_marking. rewrite Hc, Ho. rewrite Ho in Hok. mstep (from_cursor_suffix st a l Hok).
    by mstep (step_marking_idle _ _ Hs b l Hokl). }
  simpl gc_complete. unfold gc_step. rewrite Hp. unfold mbind at 1, M_bind at 1. mstep E.
  assert (Hl : take b l ++ drop b l = l) by apply take_drop.
  destruct (drop b l) as [|x r] eqn:Er; unfold mret, M_ret.
  - change (negb (cursor_of [] =? NULL)) with false. cbv iota.
    match goal with |- context [gc_complete fuel ?x vm st] => set (h1 := x) end.
    destruct (complete_sweeping vm fuel h1 st [] (objects h)) as (h' & st' & R); [done|done|done|apply Hok|done|done|lia|]. eauto.
  - assert (Hx : x <> NULL) by (apply Hokl; rewrite <- Hl; set_solver). change (cursor_of (x :: r)) with x. rewrite (proj2 (Z.eqb_neq _ _) Hx). cbv iota beta.
    assert (Hlen : (length (x :: r) < length l)%nat) by (rewrite <- Er, length_drop; destruct l; [by rewrite drop_nil in Er|simpl; lia]).
    edestruct (IH (set_phase h (gc_phase h) (cursor_of (x :: r)) (sweep_prev h)) st (a ++ take b l) (x :: r)) as (h' & st' & R); eauto.
    + simpl. rewrite Ho, <- app_assoc. by rewrite Hl.
    + simpl in *. lia.
Qed.

Lemma step_swept_cell c : let c' := after step_swept c in
  data c' = data c /\ value_is_marked c' = false /\ refcount c' = if lives c then refcount c else REFCOUNT_FREEING.
Proof.
  unfold step_swept, lives. simpl. destruct (value_is_marked c) eqn:Hm; simpl; [by rewrite marked_unset|].
  destruct (refcount c =? 0); simpl; [done|by rewrite marked_unset].
Qed.

(** What a value is, apart from its age. *)
Definition content (c : Value) : vdata ptr * Z * bool := (data c, refcount c, value_is_marked c).

Lemma collect_run vm h g st : ready vm h g st -> let e := swept (generational_enabled g) (promotion_threshold h) in
  exists st1 st2, gc_mark_roots vm st = Some (tt, st1) /\ marking (closed_upvalues vm) st st1 (gc_roots vm) /\
    list_ok st1 (objects h) /\ visited e (objects h) st1 st2 /\
    gc_collect h vm st =
    Some (count_runs (resized (set_objects h (kept e st1 (objects h)) (counted_over e st1 (objects h) (counters h))) two) (young_gc_threshold h) 0 0, st2).
Proof.
  intros H e.
  destruct (gc_mark_roots_marks vm (rd_slots _ _ _ _ H) st (rd_edges _ _ _ _ H) (rd_roots _ _ _ _ H)) as (st1 & E1 & H1).
  pose proof (mk_only _ _ _ _ H1) as O.
  assert (Hok : list_ok st1 (objects h)) by (eapply list_ok_some, (rd_objects _ _ _ _ H); intros p; apply (only_marks_some _ _ _ O)).
  destruct (sweep_list_visits _ e (sweep_visits (generational_enabled g) (promotion_threshold h)) (objects h) (counters h) st1 Hok) as (st2 & E2 & H2).
  exists st1, st2. split_and!; [done..|]. unfold gc_collect. mstep E1.
  assert (Hg : current_heap st1 = Some g) by (rewrite (proj1 (proj2 O)); apply (rd_heap _ _ _ _ H)).
  assert (Es : sweep h st1 = Some (set_objects h (kept e st1 (objects h)) (counted_over e st1 (objects h) (counters h)), st2)).
  { unfold sweep. mstep (this_heap_run _ _ Hg). by mstep E2. }
  by mstep Es.
Qed.

(** C19: a collection in small steps is a collection.  On a heap none of whose
    values is marked, starting an incremental collection and stepping it to its end,
    with any budget per step but 0, takes at most two steps per object and two more,
    and leaves the same objects in the list as [gc_collect], and every value with
    the same contents, count and mark. *)
Theorem gc_incremental_equivalent vm h g st fuel : ready vm h g st -> (forall p, ~ marked st p) -> gc_phase h = GC_IDLE ->
  0 < step_budget h -> (2 * length (objects h) + 1 < fuel)%nat ->
  exists h1 st1 h2 st2 h3 st3,
    gc_start_incremental h vm st = Some ((true, h1), st1) /\ gc_complete fuel h1 vm st1 = Some (Some h2, st2) /\
    gc_collect h vm st = Some (h3, st3) /\ gc_phase h2 = GC_IDLE /\ objects h2 = objects h3 /\
    forall p, content <$> cells st2 !! p = content <$> cells st3 !! p.
Proof.
  intros H Hnone Hphase Hb Hf. destruct (collect_run vm h g st H) as (st1 & st3 & E1 & H1 & Hok & H3 & E3).
  set (h1 := set_phase h GC_MARKING (cursor_of (objects h)) (sweep_prev h)).
  destruct (complete_marking vm fuel h1 st1 [] (objects h)) as (h2 & st2 & E2 & Ho & Hp & H2); [done..|by eapply marking_saturates|done|simpl; lia|].
  eexists h1, st1, h2, st2, _, st3. split; [unfold gc_start_incremental; rewrite Hphase; by mstep E1|].
  split_and!; [done|exact E3|done|exact Ho|]. intros p. destruct H2 as (_ & _ & H2), H3 as (_ & _ & H3). rewrite H2, H3. change (objects h1) with (objects h).
  destruct (cells st1 !! p) as [c|]; [|done]. cbn [fmap option_fmap option_map]. destruct (decide (p ∈ objects h)); [|done]. unfold content.
  destruct (swept_cell (generational_enabled g) (promotion_threshold h) c) as (-> & -> & ->).
  by destruct (step_swept_cell c) as (-> & -> & ->).
Qed.

(** ** Accounting *)

Definition weigh (c : Value) : Counters :=
  let size := value_size (type_of (data c)) in
  if value_is_old_gen c then mkCounters size 0 1 0 size 0 0 else mkCounters size 1 0 size 0 0 0.
Definition fields : list (Counters -> Z) := [bytes_allocated; young_count; old_count; young_bytes; old_bytes].

Definition total (w : Value -> Z) (st : Store) (l : list ptr) : Z :=
  foldr (fun p acc => match cells st !! p with Some c => w c | None => 0 end + acc) 0 l.
(** The counters are those of the objects in the list (modulo the width of [size_t]). *)
Definition accounted (h : Heap) (st : Store) : Prop :=
  forall f, f ∈ fields -> f (counters h) = u64 (total (fun c => f (weigh c)) st (objects h)).

(** A visit counts what it does. *)
Definition balanced (e : effect) : Prop :=
  forall f c k, f ∈ fields -> f k = u64 (f k) ->
  f (counted e c k) = u64 (f k - f (weigh c) + if keep e c then f (weigh (after e c)) else 0).

Lemma u64_add_l a b : u64 (u64 a + b) = u64 (a + b).
Proof. unfold u64, wrap. by rewrite Zplus_mod_idemp_l. Qed.
Lemma u64_idem a : u64 (u64 a) = u64 a.
Proof. unfold u64, wrap. by rewrite Z.mod_mod. Qed.

Lemma old_survival c : value_is_old_gen (value_inc_survival c) = value_is_old_gen c.
Proof.
  unfold value_is_old_gen, value_inc_survival, GC_OLD_GEN, GC_SURVIVAL_MASK, GC_SURVIVAL_SHIFT. destruct (_ <? 7); [|done]. simpl.
  rewrite Z.land_lor_distr_l, <- Z.land_assoc. change (u8 (Z.lnot 28) .& 2) with 2.
  assert (E : (value_survival_count c + 1) .<< 2 .& 2 = 0); [|by rewrite E, Z.lor_0_r].
  apply Z.bits_inj'. intros i Hi. rewrite Z.land_spec, Z.bits_0. destruct (decide (i = 1)) as [->|].
  - by rewrite Z.shiftl_spec_low.
  - replace (Z.testbit 2 i) with false; [by rewrite andb_false_r|]. symmetry. apply (Z.pow2_bits_false 1). lia.
Qed.
Lemma old_old c : value_is_old_gen (value_set_old_gen c) = true.
Proof.
  unfold value_is_old_gen, value_set_old_gen, GC_OLD_GEN. simpl. apply negb_true_iff, Z.eqb_neq. rewrite Z.land_lor_distr_l.
  intros H. by apply Z.lor_eq_0_iff in H as [_ H].
Qed.

Ltac each_field H := repeat (apply elem_of_cons in H as [->|H]); [..|by apply elem_of_nil in H].

Lemma weigh_eq c c' : data c' = data c -> value_is_old_gen c' = value_is_old_gen c -> weigh c' = weigh c.
Proof. intros E1 E2. unfold weigh. by rewrite E1, E2. Qed.

Lemma survived_balanced thr c k0 f k : f ∈ fields -> f k = u64 (f k) -> value_is_old_gen c = false ->
  f (survived thr c k).2 = u64 (f k - f (weigh c) + f (weigh (survived thr c k0).1)).
Proof.
  intros Hf Hk Hold. unfold survived.
  assert (Hd : data (value_inc_survival c) = data c) by (unfold value_inc_survival; by destruct (_ <? 7)).
  assert (Hw : weigh (value_inc_survival c) = weigh c) by (apply weigh_eq; [done|apply old_survival]).
  destruct (_ <=? _); cbn [fst snd]; [|rewrite Hw; rewrite Hk; f_equal; lia].
  unfold weigh. rewrite old_old, Hold. change (data (value_set_old_gen ?x)) with (data x). rewrite Hd.
  unfold moved_to_old. each_field Hf; simpl in *; try (f_equal; lia). rewrite Hk. f_equal. lia.
Qed.
Lemma reclaimed_balanced f c k : f ∈ fields -> f k = u64 (f k) ->
  f (counted (reclaimed true) c k) = u64 (f k - f (weigh c) + if keep (reclaimed true) c then f (weigh (after (reclaimed true) c)) else 0).
Proof.
  intros Hf Hk. unfold reclaimed. simpl. destruct (negb (refcount c =? 0)).
  - rewrite (weigh_eq c (value_set_marked c false)) by (done || apply old_set). rewrite Hk. f_equal. lia.
  - unfold without, weigh. destruct (value_is_old_gen c); each_field Hf; simpl in *; try (f_equal; lia); rewrite Hk; f_equal; lia.
Qed.

Lemma swept_balanced thr : balanced (swept true thr).
Proof.
  intros f c k Hf Hk. unfold swept, lives. cbn [keep after counted]. destruct (value_is_marked c); simpl orb; cbv iota.
  - destruct (value_is_old_gen c) eqn:Ho; simpl.
    + rewrite (weigh_eq c (value_set_marked c false)) by (done || apply old_set). rewrite Hk. f_equal. lia.
    + rewrite <- (weigh_eq c (value_set_marked c false)) by (done || apply old_set). apply survived_balanced; [done..|by rewrite old_set].
  - by apply reclaimed_balanced.
Qed.

(** A minor collection leaves old objects alone. *)
Definition young_swept (threshold : Z) : effect :=
  let aged c k := survived threshold (value_set_marked c false) k in
  mkEffect (fun c => value_is_old_gen c || lives c)
    (fun c => if value_is_old_gen c then c else if value_is_marked c then (aged c (mkCounters 0 0 0 0 0 0 0)).1 else after (reclaimed true) c)
    (fun c k => if value_is_old_gen c then k else if value_is_marked c then (aged c k).2 else counted (reclaimed true) c k).
Lemma sweep_young_visits threshold : visits (sweep_young_object threshold) (young_swept threshold).
Proof.
  intros p c k st E Hn. unfold sweep_young_object, young_swept, lives. simpl. mstep (load_cell _ _ _ E).
  destruct (value_is_old_gen c) eqn:Ho; [rewrite insert_id by done; by destruct st|].
  destruct (value_is_marked c) eqn:Hm; [|rewrite (reclaim_visits _ _ _ _ _ E Hn); simpl; by rewrite Ho].
  unfold survived. destruct (_ <=? _); cbn [fst snd].
  - by mstep (write_cell _ _ _ (value_set_old_gen (value_inc_survival (value_set_marked c false))) E).
  - by mstep (write_cell _ _ _ (value_inc_survival (value_set_marked c false)) E).
Qed.
Lemma young_swept_balanced thr : balanced (young_swept thr).
Proof.
  intros f c k Hf Hk. unfold young_swept, lives. cbn [keep after counted]. destruct (value_is_old_gen c) eqn:Ho; simpl orb; cbv iota.
  - rewrite Hk. f_equal. lia.
  - destruct (value_is_marked c); simpl orb; cbv iota; [|by apply reclaimed_balanced].
    rewrite <- (weigh_eq c (value_set_marked c false)) by (done || apply old_set). apply survived_balanced; [done..|by rewrite old_set].
Qed.

Lemma total_cons w st p l : total w st (p :: l) = match cells st !! p with Some c => w c | None => 0 end + total w st l.
Proof. done. Qed.
Lemma total_ext w w' st st' l :
  (forall p, p ∈ l -> match cells st' !! p with Some c => w' c | None => 0 end = match cells st !! p with Some c => w c | None => 0 end) ->
  total w' st' l = total w st l.
Proof.
  intros H. unfold total. induction l as [|p l IH]; [done|]. simpl. rewrite H by left. rewrite IH; [done|]. intros. apply H. by right.
Qed.

Lemma counted_total e f st : balanced e -> f ∈ fields -> forall l k, f k = u64 (f k) ->
  f (counted_over e st l k) =
  u64 (f k - total (fun c => f (weigh c)) st l + total (fun c => if keep e c then f (weigh (after e c)) else 0) st l).
Proof.
  intros He Hf. induction l as [|p l IH]; intros k Hk; [simpl; rewrite Hk at 1; f_equal; lia|].
  change (counted_over e st (p :: l) k) with (counted_over e st l (match cells st !! p with Some c => counted e c k | None => k end)).
  simpl total. destruct (cells st !! p) as [c|]; [|rewrite IH by done; f_equal; lia].
  pose proof (He f c k Hf Hk) as E. rewrite IH by (by rewrite E, u64_idem). rewrite E.
  match goal with |- u64 (u64 ?a - ?b + ?c) = _ => replace (u64 a - b + c) with (u64 a + (c - b)) by lia end.
  rewrite u64_add_l. f_equal. lia.
Qed.
Lemma kept_total e f st st' l : list_ok st l -> visited e l st st' ->
  total (fun c => f (weigh c)) st' (kept e st l) = total (fun c => if keep e c then f (weigh (after e c)) else 0) st l.
Proof.
  intros [Hd _] (_ & _ & Hv). unfold kept.
  assert (Hsub : forall p, p ∈ l -> cells st' !! p = after e <$> cells st !! p) by (intros p Hp; by rewrite Hv, decide_True).
  clear Hv Hd. induction l as [|p l IH]; [done|]. rewrite filter_cons. simpl total at 2.
  assert (IH' := IH ltac:(intros; apply Hsub; by right)). pose proof (Hsub p ltac:(left)) as Hp.
  destruct (cells st !! p) as [c|]; simpl in Hp; [|by rewrite decide_False]. destruct (keep e c).
  - rewrite decide_True by done. simpl. rewrite Hp, IH'. done.
  - by rewrite decide_False.
Qed.

(** Sweeping keeps the accounts. *)
Lemma sweep_accounted e h st st' k : balanced e -> accounted h st -> list_ok st (objects h) -> visited e (objects h) st st' ->
  k = counted_over e st (objects h) (counters h) -> accounted (set_objects h (kept e st (objects h)) k) st'.
Proof.
  intros He Ha Hok Hv -> f Hf. simpl. rewrite (counted_total e f st He Hf) by (rewrite (Ha f Hf); by rewrite u64_idem).
  rewrite (kept_total e f st st' _ Hok Hv), (Ha f Hf).
  match goal with |- u64 (u64 ?a - ?b + ?c) = _ => replace (u64 a - b + c) with (u64 a + (c - b)) by lia end.
  rewrite u64_add_l. f_equal. lia.
Qed.

(** *** Minor collections *)

Lemma remembered_marks closed l : forall st, no_dangling closed st -> (forall p, p ∈ l -> valid st p) ->
  exists st' L, each (fun p => if p =? NULL then mret tt else c ← load p; each (gc_mark_value closed) (traced closed (data c))) l st = Some (tt, st') /\
    marking closed st st' L.
Proof.
  induction l as [|p l IH]; intros st Hd Hv; [exists st, []; split; [done|apply marking_nil]|].
  assert (exists st1 L, (if p =? NULL then mret tt else c ← load p; each (gc_mark_value closed) (traced closed (data c))) st = Some (tt, st1) /\
    marking closed st st1 L) as (st1 & L1 & E1 & H1).
  { destruct (Z.eqb_spec p NULL) as [->|Hn]; [exists st, []; split; [done|apply marking_nil]|].
    destruct (Hv p ltac:(left)) as [|[c E]]; [done|]. mstep (load_cell _ _ _ E).
    destruct (marks_all closed (traced closed (data c)) st Hd) as (st1 & E1 & H1); [|by exists st1, (traced closed (data c))].
    intros q Hq. destruct (decide (q = NULL)); [by left|right]. apply (Hd p). split; [done|]. exists c. split; [done|]. by apply refers_traced. }
  pose proof (mk_only _ _ _ _ H1) as O.
  destruct (IH st1) as (st2 & L2 & E2 & H2); [by eapply only_marks_dangling|intros; eapply only_marks_valid; [done|]; apply Hv; by right|].
  exists st2, (L1 ++ L2). split; [simpl; by mstep E1|by eapply marking_app].
Qed.

Lemma young_run vm h g st : ready vm h g st -> let e := young_swept (promotion_threshold h) in
  exists L st1 st2 st3, phases vm h g L e st st1 st2 st3 /\
    gc_collect_young h vm st =
    Some (let h1 := set_objects h (kept e st1 (objects h)) (counted_over e st1 (objects h) (counters h)) in
          count_runs h1 (Z.max (u64 (young_bytes (counters h1) * 2)) 4096) 1 0, st3).
Proof.
  intros H e.
  destruct (gc_mark_roots_marks vm (rd_slots _ _ _ _ H) st (rd_edges _ _ _ _ H) (rd_roots _ _ _ _ H)) as (st0 & E0 & H0).
  pose proof (mk_only _ _ _ _ H0) as O. assert (Hg : current_heap st0 = Some g) by (rewrite (proj1 (proj2 O)); apply (rd_heap _ _ _ _ H)).
  destruct (remembered_marks (closed_upvalues vm) (remember_set g) st0) as (st1 & L & E1 & H1).
  { by eapply only_marks_dangling, (rd_edges _ _ _ _ H). }
  { intros p Hp. by eapply only_marks_valid, (rd_remembered _ _ _ _ H). }
  pose proof (marking_app _ _ _ _ _ _ H0 H1) as Hm.
  destruct (phases_run vm h g _ _ e st st1 H Hm (sweep_young_visits (promotion_threshold h))) as (st2 & st3 & Hp & E2 & E3).
  eexists _, st1, st2, st3. split; [exact Hp|]. unfold gc_collect_young.
  assert (Ey : gc_mark_young vm st = Some (tt, st1)) by (unfold gc_mark_young; mstep E0; by mstep (this_heap_run _ _ Hg)).
  mstep Ey. assert (Es : sweep_young h st1 = Some (set_objects h (kept e st1 (objects h)) (counted_over e st1 (objects h) (counters h)), st2)).
  { unfold sweep_young. by mstep E2. }
  mstep Es. by mstep E3.
Qed.

(** *** The invariant of a generational heap *)

Record sane (vm : VM) (h : Heap) (g : GcHeap) (st : Store) : Prop := {
  sn_ready : ready vm h g st;
  sn_generational : generational_enabled g = true;
  sn_accounts : accounted h st;
  sn_fresh : 0 < next_addr st /\ forall p, next_addr st <= p -> cells st !! p = None
}.

Lemma accounted_ext h st st' : accounted h st ->
  (forall p, p ∈ objects h -> weigh <$> cells st' !! p = weigh <$> cells st !! p) -> accounted h st'.
Proof.
  intros Ha H f Hf. rewrite (Ha f Hf). f_equal. symmetry. apply total_ext. intros p Hp. specialize (H p Hp).
  destruct (cells st !! p), (cells st' !! p); simpl in H; try done. by injection H as ->.
Qed.
Lemma only_marks_weigh st st' p : only_marks st st' -> weigh <$> cells st' !! p = weigh <$> cells st !! p.
Proof.
  intros (_ & _ & H). specialize (H p). destruct (cells st !! p) as [c|]; [|by rewrite H]. destruct H as [-> | ->]; [done|].
  simpl. f_equal. apply weigh_eq; [done|apply old_set].
Qed.
Lemma forgets_weigh st st' p : forgets st st' -> weigh <$> cells st' !! p = weigh <$> cells st !! p.
Proof.
  intros (_ & H). specialize (H p). destruct (cells st !! p) as [c|]; [|by rewrite H]. destruct H as [-> | ->]; [done|].
  simpl. f_equal. apply weigh_eq; [done|apply old_forget].
Qed.

Lemma no_dangling_data closed st st' : (forall p, data <$> cells st' !! p = data <$> cells st !! p) -> no_dangling closed st -> no_dangling closed st'.
Proof.
  intros H Hd p q (Hq & c & E & Hin). assert (Hs : is_Some (cells st !! q)).
  { apply (Hd p). split; [done|]. specialize (H p). rewrite E in H. destruct (cells st !! p) as [c0|]; [|done]. exists c0. split; [done|].
    simpl in H. congruence. }
  specialize (H q). destruct Hs as [c' Ec']. rewrite Ec' in H. destruct (cells st' !! q); [eauto|done].
Qed.
Lemma phases_data vm h g L e st st1 st2 st3 p : phases vm h g L e st st1 st2 st3 -> (forall c, data (after e c) = data c) ->
  data <$> cells st3 !! p = data <$> cells st !! p.
Proof.
  intros (H1 & (_ & _ & H2) & H3 & _) He. rewrite <- (only_marks_data _ _ p (mk_only _ _ _ _ H1)).
  assert (E : data <$> cells st3 !! p = data <$> cells st2 !! p).
  { destruct H3 as [_ H3]. specialize (H3 p). destruct (cells st2 !! p); [by destruct H3 as [-> | ->]|by rewrite H3]. }
  rewrite E, H2. destruct (cells st1 !! p) as [c|]; [|done]. simpl. destruct (decide _); simpl; [by rewrite He|done].
Qed.

Lemma phases_next vm h g L e st st1 st2 st3 : phases vm h g L e st st1 st2 st3 -> next_addr st3 = next_addr st.
Proof. intros (H1 & H2 & H3 & _). rewrite (proj1 H3), (proj1 H2). apply (mk_only _ _ _ _ H1). Qed.
Lemma phases_sane vm h g L e st st1 st2 st3 h' : sane vm h g st -> phases vm h g L e st st1 st2 st3 -> balanced e ->
  (forall c, data (after e c) = data c) -> objects h' = kept e st1 (objects h) ->
  counters h' = counted_over e st1 (objects h) (counters h) -> sane vm h' (cleared g) st3.
Proof.
  intros [Hr Hg Ha Hf] Hp He Hdata Ho Hc. pose proof (fun p => phases_data _ _ _ _ _ _ _ _ _ p Hp Hdata) as Hd.
  assert (Hs : forall p, is_Some (cells st3 !! p) <-> is_Some (cells st !! p)).
  { intros p. specialize (Hd p). destruct (cells st3 !! p), (cells st !! p); try done; split; intros [? ?]; simplify_eq; eauto. }
  pose proof (phases_next _ _ _ _ _ _ _ _ _ Hp) as Hnext. destruct Hp as (H1 & H2 & H3 & H4). pose proof (mk_only _ _ _ _ H1) as O.
  split; [split| | |].
  - done.
  - rewrite Ho. destruct (rd_objects _ _ _ _ Hr) as [Hn Hl]. split; [by apply NoDup_filter|].
    intros p [_ Hin]%list_elem_of_filter. destruct (Hl p Hin). by rewrite Hs.
  - eapply no_dangling_data; [exact Hd|apply (rd_edges _ _ _ _ Hr)].
  - intros p Hin. destruct (rd_roots _ _ _ _ Hr p Hin); [by left|right; by apply Hs].
  - apply (rd_slots _ _ _ _ Hr).
  - by intros p ?%elem_of_nil.
  - done.
  - assert (Ha2 : accounted (set_objects h (objects h') (counters h')) st2).
    { rewrite Ho, Hc. eapply sweep_accounted; [done| | |done|done].
      - eapply accounted_ext; [done|]. intros p _. by apply only_marks_weigh.
      - eapply list_ok_some, (rd_objects _ _ _ _ Hr). intros p. apply (only_marks_some _ _ _ O). }
    intros f Hin. rewrite (accounted_ext _ _ st3 Ha2); [done| |done]. intros p _. by apply forgets_weigh.
  - rewrite Hnext. split; [apply Hf|]. intros p Hp. specialize (Hd p). rewrite (proj2 Hf p Hp) in Hd. by destruct (cells st3 !! p).
Qed.

Lemma full_sane vm h g st : sane vm h g st ->
  exists h' st', gc_collect_full h vm st = Some (h', st') /\ sane vm h' (cleared g) st' /\ max_size h' = max_size h /\ objects h' ⊆ objects h /\
    next_addr st' = next_addr st.
Proof.
  intros H. destruct (full_run vm h g st (sn_ready _ _ _ _ H)) as (st1 & st2 & st3 & Hp & E). eexists _, st3. split; [exact E|].
  split_and!; [|done|by intros p [_ ?]%list_elem_of_filter|by eapply phases_next]. rewrite (sn_generational _ _ _ _ H) in *.
  eapply phases_sane; [done..|apply swept_balanced|apply swept_cell|done|done].
Qed.
Lemma young_swept_data thr c : data (after (young_swept thr) c) = data c.
Proof.
  unfold young_swept. cbn [after]. destruct (value_is_old_gen c); [done|]. destruct (value_is_marked c).
  - apply (survived_cell thr (value_set_marked c false)).
  - simpl. by destruct (negb _).
Qed.
Lemma young_sane vm h g st : sane vm h g st ->
  exists h' st', gc_collect_young h vm st = Some (h', st') /\ sane vm h' (cleared g) st' /\ max_size h' = max_size h /\ objects h' ⊆ objects h /\
    next_addr st' = next_addr st.
Proof.
  intros H. destruct (young_run vm h g st (sn_ready _ _ _ _ H)) as (L & st1 & st2 & st3 & Hp & E). eexists _, st3. split; [exact E|].
  split_and!; [|done|by intros p [_ ?]%list_elem_of_filter|by eapply phases_next].
  eapply phases_sane; [done..|apply young_swept_balanced|apply young_swept_data|done|done].
Qed.

(** A collection before an allocation, or none. *)
Definition collects (vm : VM) (h : Heap) (m : M Heap) (st : Store) : Prop :=
  exists h' g' st', m st = Some (h', st') /\ sane vm h' g' st' /\ max_size h' = max_size h /\ objects h' ⊆ objects h /\
    next_addr st' = next_addr st.
Lemma collects_none vm h g st : sane vm h g st -> collects vm h (mret h) st.
Proof. intros H. by exists h, g, st. Qed.
Lemma collects_full vm h g st : sane vm h g st -> collects vm h (gc_collect_full h vm) st.
Proof. intros H. destruct (full_sane _ _ _ _ H) as (h' & st' & R). by exists h', (cleared g), st'. Qed.
Lemma collects_young vm h g st : sane vm h g st -> collects vm h (gc_collect_young h vm) st.
Proof. intros H. destruct (young_sane _ _ _ _ H) as (h' & st' & R). by exists h', (cleared g), st'. Qed.
Lemma collects_any vm h g st : sane vm h g st -> collects vm h (collect_any h vm) st.
Proof.
  intros H. destruct (collects_full _ _ _ _ H) as (h' & g' & st' & E & R). exists h', g', st'. split; [|done].
  unfold collect_any. mstep (this_heap_run _ _ (rd_heap _ _ _ _ (sn_ready _ _ _ _ H))). by rewrite (sn_generational _ _ _ _ H).
Qed.
(** Other generational state that leaves the remembered set alone. *)
Lemma sane_heap vm h g g' st : sane vm h g st -> generational_enabled g' = true -> remember_set g' = remember_set g ->
  sane vm h g' (mkStore (cells st) (next_addr st) (Some g')).
Proof.
  intros [[H1 H2 H3 H4 H5 H6] Hg Ha Hf] Hg' Hr. split; [split|..]; try done. by rewrite Hr.
Qed.
Lemma collects_clearing vm h g st : sane vm h g st ->
  collects vm h (h ← gc_collect_full h vm; clear_needs_full_gc ;; mret h) st.
Proof.
  intros H. destruct (collects_full _ _ _ _ H) as (h' & g' & st' & E & H' & R).
  set (g1 := mkGcHeap (generational_enabled g') (remember_set g') (remember_capacity g') (max_remember_size g') false).
  exists h', g1, (mkStore (cells st') (next_addr st') (Some g1)). split.
  - mstep E. assert (Ec : clear_needs_full_gc st' = Some (tt, mkStore (cells st') (next_addr st') (Some g1))); [|by mstep Ec].
    unfold clear_needs_full_gc. by mstep (this_heap_run _ _ (rd_heap _ _ _ _ (sn_ready _ _ _ _ H'))).
  - split; [|done]. by apply (sane_heap vm h' g'); [|apply (sn_generational _ _ _ _ H')|].
Qed.

Lemma initial_type t d : initial_data t = Some d -> type_of d = t.
Proof. by destruct t; intros [= <-]. Qed.
Lemma initial_traced closed t d : initial_data t = Some d -> traced closed d = [].
Proof. destruct t; intros [= <-]; done. Qed.

Lemma allocated_counts f t d k : f ∈ fields -> f k = u64 (f k) -> type_of d = t ->
  f (allocated true (value_size t) k) = u64 (f k + f (weigh (mkValue d 1 (initial_flags d) 0))).
Proof. intros Hf Hk <-. unfold allocated, weigh. each_field Hf; simpl in *; rewrite ?Z.add_0_r; done. Qed.
Lemma added_accounted h st v t d : accounted h st -> initial_data t = Some d -> (forall p, p ∈ objects h -> p <> v) ->
  accounted (set_objects h (v :: objects h) (allocated true (value_size t) (counters h)))
    (mkStore (<[v := mkValue d 1 (initial_flags d) 0]> (cells st)) (v + 1) (current_heap st)).
Proof.
  intros Ha Hd Hv f Hf. pose proof (Ha f Hf) as E. cbn [counters objects set_objects].
  rewrite (allocated_counts f t d) by (done || by rewrite E, u64_idem || by apply initial_type).
  rewrite total_cons, (total_ext (fun c => f (weigh c)) (fun c => f (weigh c)) st); simpl.
  - by rewrite lookup_insert_eq, E, u64_add_l, Z.add_comm.
  - intros p Hp. by rewrite lookup_insert_ne by (symmetry; auto).
Qed.

Lemma heap_add_sane vm h g st d t : sane vm h g st -> initial_data t = Some d ->
  let v := next_addr st in
  let h' := set_objects h (v :: objects h) (allocated true (value_size t) (counters h)) in
  let st' := mkStore (<[v := mkValue d 1 (initial_flags d) 0]> (cells st)) (v + 1) (current_heap st) in
  heap_add true h t st = Some ((v, h'), st') /\ sane vm h' g st'.
Proof.
  intros [Hr Hg Ha [Hn Hf]] Hd v h' st'. assert (Hv : cells st !! v = None) by (apply Hf; lia).
  assert (Hsome : forall p, is_Some (cells st !! p) -> p <> v /\ is_Some (cells st' !! p)).
  { intros p [c Hc]. assert (p <> v) by congruence. split; [done|]. simpl. rewrite lookup_insert_ne by done. eauto. }
  assert (Hvalid : forall p, valid st p -> valid st' p) by (intros p [->|Hp]; [by left|right; by apply Hsome]).
  split.
  - unfold heap_add. rewrite Hd. simpl.
    assert (Ev : value_new d st = Some (v, st')) by done. mstep Ev.
    mstep (this_heap_run st' g (rd_heap _ _ _ _ Hr)). by rewrite Hg.
  - destruct (rd_objects _ _ _ _ Hr) as [Hnd Hl]. split; [split|done| |].
    + apply (rd_heap _ _ _ _ Hr).
    + split; [apply NoDup_cons; split; [|done]|].
      * intros Hin. destruct (Hl v Hin) as [_ Hs]. rewrite Hv in Hs. by apply is_Some_None in Hs.
      * intros p [->|Hin]%elem_of_cons; [split; [unfold v, NULL; lia|simpl; rewrite lookup_insert_eq; eauto]|].
        destruct (Hl p Hin) as [? Hs]. split; [done|]. by apply Hsome.
    + intros p q (Hq & c & E & Hin). simpl in E. destruct (decide (p = v)) as [->|Hp].
      * rewrite lookup_insert_eq in E. injection E as <-. apply refers_traced in Hin. simpl in Hin.
        rewrite (initial_traced _ _ _ Hd) in Hin. by apply elem_of_nil in Hin.
      * rewrite lookup_insert_ne in E by done. apply Hsome, (rd_edges _ _ _ _ Hr p q). split; eauto.
    + intros p Hin. by apply Hvalid, (rd_roots _ _ _ _ Hr).
    + apply (rd_slots _ _ _ _ Hr).
    + intros p Hin. by apply Hvalid, (rd_remembered _ _ _ _ Hr).
    + apply added_accounted; [done..|]. intros p Hin. destruct (Hl p Hin) as [_ Hs]. by apply Hsome.
    + simpl. split; [lia|]. intros p Hp. rewrite lookup_insert_ne by (unfold v; lia). apply Hf. lia.
Qed.

Lemma collects_if vm h g st (b : bool) m : sane vm h g st -> collects vm h m st -> collects vm h (if b then m else mret h) st.
Proof. intros H Hm. destruct b; [done|by eapply collects_none]. Qed.
Lemma collects_bind vm h m k st : collects vm h m st -> (forall h' g' st', sane vm h' g' st' -> collects vm h' (k h') st') ->
  collects vm h (h' ← m; k h') st.
Proof.
  intros (h1 & g1 & st1 & E1 & H1 & M1 & O1 & N1) Hk. destruct (Hk h1 g1 st1 H1) as (h2 & g2 & st2 & E2 & H2 & M2 & O2 & N2).
  exists h2, g2, st2. split; [by mstep E1|]. split_and!; [done|congruence|set_solver|congruence].
Qed.
Lemma collects_before vm h g st size : sane vm h g st -> collects vm h (collect_before h size vm) st.
Proof.
  intros H.
  assert (Hc : collects vm h (h ← (if needs_full_gc g then h ← gc_collect_full h vm; clear_needs_full_gc ;; mret h else mret h);
    h ← (if generational_enabled g && (young_gc_threshold h <? u64 (young_bytes (counters h) + size)) then gc_collect_young h vm else mret h);
    h ← (if exceeds h size (next_gc h) then collect_any h vm else mret h);
    if exceeds h size (max_size h) then collect_any h vm else mret h) st).
  { apply collects_bind; [eapply collects_if; [done|by eapply collects_clearing]|intros h1 g1 st1 H1].
    apply collects_bind; [eapply collects_if; [done|by eapply collects_young]|intros h2 g2 st2 H2].
    apply collects_bind; [eapply collects_if; [done|by eapply collects_any]|intros h3 g3 st3 H3].
    eapply collects_if; [done|by eapply collects_any]. }
  unfold collect_before. destruct Hc as (h' & g' & st' & E & R). exists h', g', st'. split; [|done].
  by mstep (this_heap_run _ _ (rd_heap _ _ _ _ (sn_ready _ _ _ _ H))).
Qed.

(** C20: allocation on a generational heap.  Start from a heap whose counters (bytes,
    objects and bytes of either generation) describe its list of objects, and which
    has no dangling pointers.  Whatever collections [heap_alloc_with_gc] decides to
    make, it returns, and the heap it leaves is such a heap again, no larger than
    its limit if a value was allocated.  The value is new, has the type asked for
    and one reference, and stands in front of objects that were there before.  It
    gives NULL only when memory ran out, the type cannot be allocated this way, or
    the heap is full even after a collection. *)
Theorem heap_alloc_with_gc_sane vm h g st alloc_ok t : sane vm h g st ->
  exists v h' g' st', heap_alloc_with_gc alloc_ok h t (Some vm) st = Some ((v, h'), st') /\ sane vm h' g' st' /\
    ((v = NULL /\ objects h' ⊆ objects h /\
      (alloc_ok = false \/ initial_data t = None \/ max_size h < u64 (bytes_allocated (counters h') + value_size t))) \/
     (exists l c, objects h' = v :: l /\ l ⊆ objects h /\ v ∉ objects h /\ v <> NULL /\ bytes_allocated (counters h') <= max_size h /\
      cells st' !! v = Some c /\ type_of (data c) = t /\ refcount c = 1)).
Proof.
  intros H. unfold heap_alloc_with_gc. destruct (collects_before vm h g st (value_size t) H) as (h4 & g4 & st4 & E4 & H4 & Hmax & Ho & Hn).
  mstep E4.
  destruct (exceeds h4 (value_size t) (max_size h4)) eqn:Ex.
  { exists NULL, h4, g4, st4. split_and!; [done..|]. left. split_and!; [done..|]. right. right. apply Z.ltb_lt in Ex. by rewrite <- Hmax. }
  destruct (initial_data t) as [d|] eqn:Hd; [destruct alloc_ok|].
  - destruct (heap_add_sane vm h4 g4 st4 d t H4 Hd) as [Ea Hs]. eexists _, _, g4, _. split; [exact Ea|]. split; [exact Hs|]. right.
    destruct (rd_objects _ _ _ _ (sn_ready _ _ _ _ Hs)) as [[Hv _]%NoDup_cons Hl].
    eexists (objects h4), _. split; [done|]. split_and!; [done| | | |simpl; by rewrite lookup_insert_eq|by apply initial_type|done].
    + intros Hin. destruct (proj2 (rd_objects _ _ _ _ (sn_ready _ _ _ _ H)) _ Hin) as [_ [c Hc]].
      rewrite (proj2 (sn_fresh _ _ _ _ H)) in Hc; [done|]. lia.
    + apply Hl. left.
    + simpl. apply Z.ltb_ge in Ex. by rewrite <- Hmax.
  - exists NULL, h4, g4, st4. split; [unfold heap_add; by rewrite Hd|]. split; [done|]. left. auto.
  - exists NULL, h4, g4, st4. split; [unfold heap_add; by rewrite Hd|]. split; [done|]. left. auto.
Qed.

(** ** Examples *)

(** Deciding the hypotheses of the theorems on a concrete store. *)
Lemma no_dangling_check closed st :
  map_Forall (fun _ c => Forall (fun q => q = NULL \/ is_Some (cells st !! q)) (traced closed (data c))) (cells st) -> no_dangling closed st.
Proof.
  intros H p q (Hq & c & E & Hin%refers_traced). specialize (H p c E). simpl in H. rewrite Forall_forall in H. by destruct (H q Hin).
Qed.
Lemma unmarked_check st : map_Forall (fun _ c => value_is_marked c = false) (cells st) -> forall p, ~ marked st p.
Proof. intros H p (c & E & Hm). specialize (H p c E). simpl in H. congruence. Qed.
Lemma valid_check st l : Forall (fun p => p = NULL \/ is_Some (cells st !! p)) l -> forall p, p ∈ l -> valid st p.
Proof. intros H p Hp. rewrite Forall_forall in H. by apply H. Qed.

(** A machine with one value on its stack, and a map of globals that was not
    allocated on the heap. *)
Definition machine_with (v : NanValue) : VM := mkMachine 1000 [Some v] 1001 [] 0 true 1 None [] empty None 0 0 10000.
Definition plain_value (d : vdata ptr) (count : Z) : Value := mkValue d count 0 0.

(** [2] is an array that holds [3]; [3] and [4] have no references of their own. *)
Definition sample_store : Store :=
  mkStore (<[1 := plain_value (VMap map_new) 1]> (<[2 := plain_value (VArray 8 [3]) 1]>
          (<[3 := plain_value (VString [97]) 0]> (<[4 := plain_value (VString [98]) 0]> empty)))) 5
    (Some (heap_new None).2).
Definition sample_heap : Heap := set_objects (heap_new None).1 [4; 3; 2] (mkCounters 152 3 0 152 0 152 0).
Definition sample_vm : VM := machine_with (nanbox_obj 2).

Lemma sample_ready : ready sample_vm sample_heap (heap_new None).2 sample_store.
Proof.
  split; [done| | | | |by intros p ?%elem_of_nil].
  - split; [by apply (bool_decide_unpack _); vm_compute|].
    assert (H : Forall (fun p => p <> NULL /\ is_Some (cells sample_store !! p)) (objects sample_heap)) by (apply (bool_decide_unpack _); by vm_compute).
    by rewrite Forall_forall in H.
  - apply no_dangling_check, (bool_decide_unpack _). by vm_compute.
  - apply valid_check, (bool_decide_unpack _). by vm_compute.
  - apply (bool_decide_unpack _). by vm_compute.
Qed.
Lemma sample_unmarked p : ~ marked sample_store p.
Proof. apply unmarked_check, (bool_decide_unpack _). by vm_compute. Qed.

Lemma gc_collect_full_exact_witness : exists h' st', gc_collect_full sample_heap sample_vm sample_store = Some (h', st') /\ 3 ∈ objects h'.
Proof.
  destruct (gc_collect_full_exact sample_vm sample_heap (heap_new None).2 sample_store sample_ready sample_unmarked) as (h' & st' & E & Ho & _).
  exists h', st'. split; [exact E|]. apply Ho. split; [set_solver|]. left. exists 2. split; [set_solver|]. split; [done|].
  apply rtc_once. split; [done|]. eexists. split; [vm_compute; reflexivity|]. by apply (refers_item _ _ _ 0).
Defined.
Lemma gc_incremental_equivalent_witness : exists h1 st1 h2 st2,
  gc_start_incremental sample_heap sample_vm sample_store = Some ((true, h1), st1) /\ gc_complete 8 h1 sample_vm st1 = Some (Some h2, st2).
Proof.
  destruct (gc_incremental_equivalent sample_vm sample_heap (heap_new None).2 sample_store 8 sample_ready sample_unmarked
    eq_refl ltac:(done) ltac:(simpl; lia)) as (h1 & st1 & h2 & st2 & h3 & st3 & E1 & E2 & _).
  exists h1, st1, h2, st2. split; [exact E1|exact E2].
Defined.

Lemma sample_sane : sane sample_vm sample_heap (heap_new None).2 sample_store.
Proof.
  split; [apply sample_ready|done| |split; [done|]].
  - intros f Hf. each_field Hf; by vm_compute.
  - intros p Hp. simpl. simpl in Hp. rewrite !lookup_insert_ne by lia. done.
Qed.
Lemma heap_alloc_with_gc_sane_witness : exists v h' st', heap_alloc_with_gc true sample_heap VAL_ARRAY (Some sample_vm) sample_store = Some ((v, h'), st') /\
  bytes_allocated (counters h') = 208.
Proof.
  destruct (heap_alloc_with_gc_sane sample_vm sample_heap (heap_new None).2 sample_store true VAL_ARRAY sample_sane) as (v & h' & g' & st' & E & _).
  exists v, h', st'. split; [exact E|]. vm_compute in E. injection E as _ <- _. reflexivity.
Defined.

(** Two minor collections, after a string was pushed to an old array on the stack. *)
Definition empty_store : Store := mkStore (<[1 := plain_value (VMap map_new) 1]> empty) 2 (Some (heap_new None).2).
Definition minor_twice : M (ptr * ptr * Heap * Heap) :=
  '(a, h) ← heap_alloc true (heap_new None).1 VAL_ARRAY;
  let vm := machine_with (nanbox_obj a) in
  h ← gc_collect_young h vm; h ← gc_collect_young h vm;
  '(s, h) ← heap_alloc true h VAL_STRING;
  array_push true true true a s ;; value_release s ;;
  h1 ← gc_collect_young h vm; h2 ← gc_collect_young h1 vm; mret (a, s, h1, h2).
(** Two full collections, of a heap with a string in the map of the globals. *)
Definition global_store : Store :=
  mkStore (<[1 := plain_value (VMap (map_set allocs_ok map_new [107] 2)) 1]> (<[2 := plain_value (VString [97]) 0]> empty)) 3
    (Some (heap_new None).2).
Definition full_twice : M (Heap * Heap) :=
  let vm := machine_with NANBOX_NIL in let h := set_objects (heap_new None).1 [2] (mkCounters 48 1 0 48 0 48 0) in
  h1 ← gc_collect_full h vm; h2 ← gc_collect_full h1 vm; mret (h1, h2).
(** A string in an option on the stack. *)
Definition option_store : Store :=
  mkStore (<[1 := plain_value (VMap map_new) 1]> (<[2 := plain_value (VOption true 3) 1]> (<[3 := plain_value (VString [97]) 0]> empty))) 4
    (Some (heap_new None).2).

(** How collections lose objects that are in use (and have no references of
    their own).  First: a minor collection leaves the marks of old objects, so that
    the next one does not look behind them; a string in an old array on the stack
    survives the first minor collection and not the second.  Second: the map of the
    globals is no object of the heap, so its mark is never removed; a string in it
    survives the first full collection and not the second.  Third: options (as
    results, structs and enums) are not traversed at all: a string in an option on
    the stack is lost at once. *)
Theorem gc_loses_objects :
  (exists a s h1 h2 st, minor_twice empty_store = Some ((a, s, h1, h2), st) /\
     gc_roots (machine_with (nanbox_obj a)) = [a; 1] /\ edge empty st a s /\ s ∈ objects h1 /\ s ∉ objects h2) /\
  (exists h1 h2 st, full_twice global_store = Some ((h1, h2), st) /\
     1 ∈ gc_roots (machine_with NANBOX_NIL) /\ edge empty st 1 2 /\ 2 ∈ objects h1 /\ 2 ∉ objects h2) /\
  (exists h st, gc_collect_full (set_objects (heap_new None).1 [3; 2] (mkCounters 80 2 0 80 0 80 0)) (machine_with (nanbox_obj 2)) option_store = Some (h, st) /\
     data <$> cells st !! 2 = Some (VOption true 3) /\ objects h = [2]).
Proof.
  split_and!.
  - eexists _, _, _, _, _. split; [vm_compute; reflexivity|]. split; [vm_compute; reflexivity|]. split.
    + split; [done|]. eexists. split; [vm_compute; reflexivity|]. by apply (refers_item _ _ _ 0).
    + split; simpl; set_solver.
  - eexists _, _, _. split; [vm_compute; reflexivity|]. split; [set_solver|]. split.
    + split; [done|]. eexists. split; [vm_compute; reflexivity|]. apply refers_traced, (bool_decide_unpack _). by vm_compute.
    + split; simpl; set_solver.
  - eexists _, _. split; [vm_compute; reflexivity|]. split; vm_compute; reflexivity.
Qed.
