(* ===== verification/Ast.v ===== *)
(** * Syntax trees (src/lang/ast.h)

    A node's constructor carries its line and the fields of the union that its
    type uses; names and texts are byte lists.  The body of a function is a
    block. *)

From Stdlib Require Import ZArith.
From stdpp Require Import base list.
From S2P Require Import Prelude Float64 Lexer.
Local Open Scope Z_scope.

Inductive MatchPattern :=
  | MATCH_PATTERN_OK | MATCH_PATTERN_ERR | MATCH_PATTERN_SOME | MATCH_PATTERN_NONE | MATCH_PATTERN_ENUM.

#[global] Instance MatchPattern_eq_dec : EqDecision MatchPattern.
Proof. solve_decision. Defined.

Inductive AstNode :=
  (* Declarations *)
  | NODE_PROGRAM (line : Z) (decls : list AstNode)
  | NODE_TOOL_DECL (line : Z) (name : list Z) (params : list AstNode) (return_type : option AstNode) (body : AstNode)
      (description : option (list Z)) (params_map : option AstNode)
  | NODE_FN_DECL (line : Z) (name : list Z) (params : list AstNode) (return_type : option AstNode) (body : AstNode)
      (description : option (list Z)) (params_map : option AstNode)
  | NODE_PARAM (line : Z) (name : list Z) (type_ann : option AstNode)
  | NODE_IMPORT (line : Z) (path : list Z)
  | NODE_IMPORT_FROM (line : Z) (names : list (list Z)) (path : list Z)
  | NODE_EXPORT (line : Z) (decl : AstNode)
  | NODE_STRUCT_DECL (line : Z) (name : list Z) (fields : list AstNode)
  | NODE_STRUCT_FIELD (line : Z) (name : list Z) (type_ann : option AstNode)
  | NODE_ENUM_DECL (line : Z) (name : list Z) (variants : list AstNode)
  | NODE_ENUM_VARIANT (line : Z) (name : list Z) (payload_type : option AstNode)
  | NODE_TYPE_ALIAS (line : Z) (name : list Z) (aliased : option AstNode)
  (* Statements *)
  | NODE_BLOCK (line : Z) (stmts : list AstNode)
  | NODE_LET (line : Z) (name : list Z) (type_ann : option AstNode) (value : AstNode) (is_mutable : bool)
  | NODE_CONST (line : Z) (name : list Z) (type_ann : option AstNode) (value : AstNode) (is_mutable : bool)
  | NODE_IF (line : Z) (cond then_block : AstNode) (else_block : option AstNode)
  | NODE_FOR (line : Z) (var : list Z) (index_var : option (list Z)) (iterable body : AstNode)
  | NODE_WHILE (line : Z) (cond body : AstNode)
  | NODE_RETURN (line : Z) (value : option AstNode)
  | NODE_BREAK (line : Z)
  | NODE_CONTINUE (line : Z)
  | NODE_EXPR_STMT (line : Z) (value : AstNode)
  (* Type expressions *)
  | NODE_TYPE_NAME (line : Z) (name : list Z)
  | NODE_TYPE_GENERIC (line : Z) (name : list Z) (type_args : list AstNode)
  | NODE_TYPE_ARRAY (line : Z) (elem_type : AstNode)
  | NODE_TYPE_MAP (line : Z) (key_type value_type : AstNode)
  | NODE_TYPE_FUNC (line : Z) (param_types : list AstNode) (return_type : option AstNode)
  (* Expressions *)
  | NODE_BINARY (line : Z) (op : TokenType) (left right : AstNode)
  | NODE_UNARY (line : Z) (op : TokenType) (operand : AstNode)
  | NODE_CALL (line : Z) (callee : AstNode) (args : list AstNode)
  | NODE_MEMBER (line : Z) (object : AstNode) (field : list Z)
  | NODE_INDEX (line : Z) (object index : AstNode)
  | NODE_TERNARY (line : Z) (cond then_expr else_expr : AstNode)
  | NODE_ASSIGN (line : Z) (target : AstNode) (op : TokenType) (value : AstNode)
  | NODE_IDENT (line : Z) (name : list Z)
  | NODE_INT (line : Z) (int_val : Z)
  | NODE_FLOAT (line : Z) (float_val : f64)
  | NODE_STRING (line : Z) (string_val : list Z)
  | NODE_BOOL (line : Z) (bool_val : bool)
  | NODE_NIL (line : Z)
  | NODE_ARRAY (line : Z) (elements : list AstNode)
  | NODE_MAP (line : Z) (keys : list (list Z)) (values : list AstNode)
  | NODE_MATCH (line : Z) (expr : AstNode) (arms : list AstNode)
  | NODE_MATCH_ARM (line : Z) (pattern_kind : MatchPattern) (binding_name variant_name : option (list Z)) (body : AstNode)
  | NODE_RESULT_OK (line : Z) (value : AstNode)
  | NODE_RESULT_ERR (line : Z) (value : AstNode)
  | NODE_TRY (line : Z) (expr : AstNode)
  | NODE_SOME (line : Z) (value : AstNode)
  | NODE_NONE (line : Z)
  | NODE_STRUCT_INIT (line : Z) (type_name : list Z) (field_names : list (list Z)) (field_values : list AstNode)
      (spread : option AstNode)
  | NODE_SPREAD (line : Z) (expr : AstNode)
  | NODE_ENUM_EXPR (line : Z) (enum_type variant_name : list Z) (payload : option AstNode)
  | NODE_RANGE (line : Z) (start end_ : AstNode) (inclusive : bool).

(** [node->line]. *)
Definition node_line (node : AstNode) : Z :=
  match node with
  | NODE_PROGRAM l _ | NODE_TOOL_DECL l _ _ _ _ _ _ | NODE_FN_DECL l _ _ _ _ _ _ | NODE_PARAM l _ _ | NODE_IMPORT l _
  | NODE_IMPORT_FROM l _ _ | NODE_EXPORT l _ | NODE_STRUCT_DECL l _ _ | NODE_STRUCT_FIELD l _ _ | NODE_ENUM_DECL l _ _
  | NODE_ENUM_VARIANT l _ _ | NODE_TYPE_ALIAS l _ _ | NODE_BLOCK l _ | NODE_LET l _ _ _ _ | NODE_CONST l _ _ _ _
  | NODE_IF l _ _ _ | NODE_FOR l _ _ _ _ | NODE_WHILE l _ _ | NODE_RETURN l _ | NODE_BREAK l | NODE_CONTINUE l
  | NODE_EXPR_STMT l _ | NODE_TYPE_NAME l _ | NODE_TYPE_GENERIC l _ _ | NODE_TYPE_ARRAY l _ | NODE_TYPE_MAP l _ _
  | NODE_TYPE_FUNC l _ _ | NODE_BINARY l _ _ _ | NODE_UNARY l _ _ | NODE_CALL l _ _ | NODE_MEMBER l _ _ | NODE_INDEX l _ _
  | NODE_TERNARY l _ _ _ | NODE_ASSIGN l _ _ _ | NODE_IDENT l _ | NODE_INT l _ | NODE_FLOAT l _ | NODE_STRING l _
  | NODE_BOOL l _ | NODE_NIL l | NODE_ARRAY l _ | NODE_MAP l _ _ | NODE_MATCH l _ _ | NODE_MATCH_ARM l _ _ _ _
  | NODE_RESULT_OK l _ | NODE_RESULT_ERR l _ | NODE_TRY l _ | NODE_SOME l _ | NODE_NONE l | NODE_STRUCT_INIT l _ _ _ _
  | NODE_SPREAD l _ | NODE_ENUM_EXPR l _ _ _ | NODE_RANGE l _ _ _ => l
  end.
