(* ===== verification/Modules.v ===== *)
(** * Modules (src/lang/module.c)

    Resolving an import's path, the cache of loaded modules and their exports.
    The file system, the current directory and the parser are arguments. *)

From Stdlib Require Import ZArith Lia String Ascii.
From stdpp Require Import base list numbers strings.
From S2P Require Import Prelude Hash Strings Lexer Ast.
Local Open Scope string_scope.
Local Open Scope list_scope.
Local Open Scope Z_scope.

Record Module_ := mkModule {
  mod_path : list Z; mod_source : list Z; mod_ast : AstNode; mod_exports : list (list Z); is_compiled : bool
}.
Record ModuleCache := mkCache { modules : list Module_; loading : list (list Z) }.

Definition module_cache_new : ModuleCache := mkCache [] [].
Definition module_cache_find (cache : ModuleCache) (path : list Z) : option Module_ :=
  snd <$> list_find (fun m => mod_path m = path) (modules cache).
Definition module_cache_add (cache : ModuleCache) (m : Module_) : ModuleCache :=
  mkCache (modules cache ++ [m]) (loading cache).
Definition module_is_loading (cache : ModuleCache) (path : list Z) : bool :=
  match list_find (fun p => p = path) (loading cache) with Some _ => true | None => false end.
Definition module_loading_push (cache : ModuleCache) (path : list Z) : ModuleCache :=
  mkCache (modules cache) (loading cache ++ [path]).
Definition module_loading_pop (cache : ModuleCache) : ModuleCache :=
  mkCache (modules cache) (take (length (loading cache) - 1) (loading cache)).

(** [mod->is_compiled = true] on the cached module of a path. *)
Definition mark_compiled (cache : ModuleCache) (path : list Z) : ModuleCache :=
  mkCache ((fun m => if bool_decide (mod_path m = path)
                     then mkModule (mod_path m) (mod_source m) (mod_ast m) (mod_exports m) true else m) <$> modules cache)
    (loading cache).

(** ** Paths *)

Definition slash : Z := ch "/"%char.

(** [strrchr(s, c)] and what is before and at it: the rest is cut off. *)
Fixpoint up_to_last (c : Z) (s : list Z) : option (list Z) :=
  match s with
  | [] => None
  | x :: s => match up_to_last c s with
              | Some p => Some (x :: p)
              | None => if x =? c then Some [x] else None
              end
  end.

(** The resolved path; [None] is the null pointer returned for a rejected path. *)
Definition module_resolve_path (cwd : option (list Z)) (path : list Z) (base_path : option (list Z)) : option (list Z) :=
  if strstr path (chars "..") then None
  else if (default 0 (path !! 0%nat) =? slash) || ((1 <? length path)%nat && (default 0 (path !! 1%nat) =? ch ":"%char)) then None
  else match base_path with
       | None | Some [] => match cwd with None => Some path | Some dir => Some (dir ++ [slash] ++ path) end
       | Some base => match up_to_last slash base with None => Some path | Some dir => Some (dir ++ path) end
       end.

(** ** Exports *)

Definition fn_decl_name (decl : AstNode) : option (list Z) :=
  match decl with NODE_FN_DECL _ n _ _ _ _ _ | NODE_TOOL_DECL _ n _ _ _ _ _ => Some n | _ => None end.
Definition exported_name (decl : AstNode) : option (list Z) :=
  match decl with
  | NODE_EXPORT _ inner =>
      match inner with NODE_LET _ n _ _ _ | NODE_CONST _ n _ _ _ => Some n | _ => fn_decl_name inner end
  | _ => None
  end.
Definition is_export (decl : AstNode) : bool := match decl with NODE_EXPORT _ _ => true | _ => false end.

(** Without an export all functions and tools are exported. *)
Definition collect_exports (ast : AstNode) : list (list Z) :=
  match ast with
  | NODE_PROGRAM _ decls => if existsb is_export decls then omap exported_name decls else omap fn_decl_name decls
  | _ => []
  end.

(** ** Loading *)

(** [LoadCrash]: the null pointer of a rejected path is used. *)
Inductive LoadResult := LoadCrash | LoadError (message : list Z) | Loaded (m : Module_).

Section loading.
Context (cwd : option (list Z)) (read_file : list Z -> list Z + list Z) (parse : list Z -> list Z + AstNode).

Definition module_load (path : list Z) (base_path : option (list Z)) (cache : ModuleCache) : LoadResult * ModuleCache :=
  match module_resolve_path cwd path base_path with
  | None => (LoadCrash, cache)
  | Some resolved =>
      match module_cache_find cache resolved with
      | Some m => (Loaded m, cache)
      | None =>
          if module_is_loading cache resolved then (LoadError (chars "circular import detected: " ++ resolved), cache)
          else
            let cache := module_loading_push cache resolved in
            match read_file resolved with
            | inl error => (LoadError error, module_loading_pop cache)
            | inr source =>
                match parse source with
                | inl error => (LoadError (resolved ++ chars ": " ++ error), module_loading_pop cache)
                | inr ast =>
                    let m := mkModule resolved source ast (collect_exports ast) false in
                    (Loaded m, module_loading_pop (module_cache_add cache m))
                end
            end
      end
  end.

End loading.
