(* ===== verification/Compiler.v ===== *)
(** * The compiler (src/lang/compiler.c)

    Code generation in one pass: each function appends to the chunk of the
    function being compiled, and forward jumps are patched once their target is
    known.  The compiler's state is threaded through a state monad; an error is
    recorded once and compilation goes on, as in the code, and its result is
    thrown away at the end.  The file system, the current directory and the
    parser, which importing a module uses, are arguments. *)

From Stdlib Require Import ZArith Lia String.
From stdpp Require Import base numbers list.
From S2P Require Import Prelude Float64 Hash HashMap Nanbox Value Bytecode Lexer Ast Modules.
Local Open Scope string_scope.
Local Open Scope list_scope.
Local Open Scope Z_scope.
Local Open Scope agim_scope.

(** ** State *)

Record Local_ := mkLocal { loc_name : list Z; loc_depth : Z; loc_const : bool }.

(** [breaks]: the offsets of the jumps to be patched at the end of the loop. *)
Record LoopContext := mkLoop { loop_start : nat; breaks : list nat; loop_scope : Z }.

(** [fc_chunk]: the main chunk or a function's; the innermost loop comes first. *)
Record FunctionContext := mkFunctionContext {
  fc_chunk : option nat; locals : list Local_; scope_depth : Z; loops : list LoopContext
}.

Record Compiler := mkCompiler {
  c_code : Bytecode constant;
  c_current : FunctionContext;
  c_error : option (Z * list Z);   (** the line and message of the first error *)
  had_error : bool;
  module_cache : ModuleCache;
  source_path : option (list Z);
  c_crashed : bool   (** a null pointer was used: the rest of the state means nothing *)
}.

Definition C (A : Type) : Type := Compiler -> A * Compiler.
#[global] Instance C_ret : MRet C := fun A x c => (x, c).
#[global] Instance C_bind : MBind C := fun A B k m c => let (x, c') := m c in k x c'.

Definition gets {A} (f : Compiler -> A) : C A := fun c => (f c, c).
Definition set_code (c : Compiler) (code : Bytecode constant) : Compiler :=
  mkCompiler code (c_current c) (c_error c) (had_error c) (module_cache c) (source_path c) (c_crashed c).
Definition set_current (c : Compiler) (fc : FunctionContext) : Compiler :=
  mkCompiler (c_code c) fc (c_error c) (had_error c) (module_cache c) (source_path c) (c_crashed c).
Definition modify_current (f : FunctionContext -> FunctionContext) : C unit := fun c => (tt, set_current c (f (c_current c))).

Definition set_modules (c : Compiler) (cache : ModuleCache) : Compiler :=
  mkCompiler (c_code c) (c_current c) (c_error c) (had_error c) cache (source_path c) (c_crashed c).
Definition set_source_path (path : option (list Z)) : C unit := fun c =>
  (tt, mkCompiler (c_code c) (c_current c) (c_error c) (had_error c) (module_cache c) path (c_crashed c)).
Definition crash : C unit := fun c =>
  (tt, mkCompiler (c_code c) (c_current c) (c_error c) (had_error c) (module_cache c) (source_path c) true).

Definition report (line : Z) (message : list Z) : C unit := fun c =>
  (tt, if had_error c then c
       else mkCompiler (c_code c) (c_current c) (Some (line, message)) true (module_cache c) (source_path c) (c_crashed c)).
Definition compile_error (line : Z) (message : string) : C unit := report line (chars message).

(** ** Emitting code *)

Definition current_chunk (c : Compiler) : Chunk constant :=
  match fc_chunk (c_current c) with
  | None => main (c_code c)
  | Some i => default chunk_new (functions (c_code c) !! i)
  end.
Definition set_chunk (c : Compiler) (ch : Chunk constant) : Compiler :=
  set_code c (match fc_chunk (c_current c) with
              | None => set_main (c_code c) ch
              | Some i => set_functions (c_code c) (<[i := ch]> (functions (c_code c)))
              end).
Definition on_chunk {A} (f : Chunk constant -> A * Chunk constant) : C A := fun c =>
  let (x, ch) := f (current_chunk c) in (x, set_chunk c ch).

Definition emit_byte (byte line : Z) : C unit := on_chunk (fun ch => (tt, chunk_write_byte ch byte line)).
Definition emit_op (op : Opcode) (line : Z) : C unit := on_chunk (fun ch => (tt, chunk_write_opcode ch op line)).
(** [emit_byte(c, (n >> 8) & 0xFF, line); emit_byte(c, n & 0xFF, line)]. *)
Definition emit_short (n line : Z) : C unit := emit_byte ((n .>> 8) .& 0xFF) line ;; emit_byte (n .& 0xFF) line.

Definition emit_jump (op : Opcode) (line : Z) : C nat :=
  emit_op op line ;; emit_byte 0xFF line ;; emit_byte 0xFF line ;; gets (fun c => code_size (current_chunk c) - 2)%nat.
Definition patch_jump (offset : nat) : C unit := on_chunk (fun ch => (tt, chunk_patch_jump ch offset)).

Definition emit_loop (start : nat) (line : Z) : C unit :=
  emit_op OP_LOOP line ;;
  size ← gets (fun c => code_size (current_chunk c));
  let offset := u64 (Z.of_nat size - Z.of_nat start + 2) in
  if 0xFFFF <? offset then compile_error line "loop body too large" else emit_short offset line.

Definition emit_constant (value : constant) (line : Z) : C unit :=
  index ← on_chunk (fun ch => chunk_add_constant ch value);
  if 0xFFFF <? Z.of_nat index then compile_error line "too many constants"
  else emit_op OP_CONST line ;; emit_short (Z.of_nat index) line.

Definition add_string (str : list Z) : C Z := fun c =>
  let (i, code) := bytecode_add_string (c_code c) str in (Z.of_nat i, set_code c code).

(** ** Scopes *)

Definition set_locals (fc : FunctionContext) (ls : list Local_) : FunctionContext :=
  mkFunctionContext (fc_chunk fc) ls (scope_depth fc) (loops fc).
Definition set_depth (fc : FunctionContext) (d : Z) : FunctionContext :=
  mkFunctionContext (fc_chunk fc) (locals fc) d (loops fc).
Definition set_loops (fc : FunctionContext) (ls : list LoopContext) : FunctionContext :=
  mkFunctionContext (fc_chunk fc) (locals fc) (scope_depth fc) ls.

Definition begin_scope : C unit := modify_current (fun fc => set_depth fc (scope_depth fc + 1)).

(** The locals declared last that are deeper than [depth]. *)
Fixpoint count_deeper (depth : Z) (newest_first : list Local_) : nat :=
  match newest_first with
  | l :: ls => if depth <? loc_depth l then S (count_deeper depth ls) else O
  | [] => O
  end.
Definition locals_above (depth : Z) (c : Compiler) : nat := count_deeper depth (rev (locals (c_current c))).

Fixpoint repeat_emit (n : nat) (op : Opcode) (line : Z) : C unit :=
  match n with O => mret tt | S n => emit_op op line ;; repeat_emit n op line end.

Definition end_scope (line : Z) : C unit :=
  modify_current (fun fc => set_depth fc (scope_depth fc - 1)) ;;
  depth ← gets (fun c => scope_depth (c_current c));
  n ← gets (locals_above depth);
  repeat_emit n OP_POP line ;;
  modify_current (fun fc => set_locals fc (take (length (locals fc) - n) (locals fc))).

(** A local of the same name in the current scope; [newest_first]. *)
Fixpoint declared_here (depth : Z) (name : list Z) (newest_first : list Local_) : bool :=
  match newest_first with
  | l :: ls => if loc_depth l <? depth then false else bool_decide (loc_name l = name) || declared_here depth name ls
  | [] => false
  end.

Definition add_local (name : list Z) (is_const : bool) (line : Z) : C unit :=
  fc ← gets c_current;
  if (256 <=? length (locals fc))%nat then compile_error line "too many local variables"
  else if declared_here (scope_depth fc) name (rev (locals fc)) then
    compile_error line "variable already declared in this scope"
  else modify_current (fun fc => set_locals fc (locals fc ++ [mkLocal name (scope_depth fc) is_const])).

(** The index of the innermost local of a name; [None] is -1. *)
Fixpoint find_local (name : list Z) (newest_first : list Local_) : option nat :=
  match newest_first with
  | l :: ls => if bool_decide (loc_name l = name) then Some (length ls) else find_local name ls
  | [] => None
  end.
Definition resolve_local (c : Compiler) (name : list Z) : option nat := find_local name (rev (locals (c_current c))).

(** The slot number the code computes with. *)
Definition slot_number (slot : option nat) : Z := match slot with Some i => Z.of_nat i | None => -1 end.

(** ** Loops *)

Definition begin_loop (start : nat) : C unit :=
  fc ← gets c_current;
  if (32 <=? length (loops fc))%nat then compile_error 0 "too many nested loops"
  else modify_current (fun fc => set_loops fc (mkLoop start [] (scope_depth fc) :: loops fc)).

Fixpoint patch_all (offsets : list nat) : C unit :=
  match offsets with [] => mret tt | o :: os => patch_jump o ;; patch_all os end.

Definition end_loop : C unit :=
  fc ← gets c_current;
  match loops fc with
  | [] => mret tt
  | loop :: rest => modify_current (fun fc => set_loops fc rest) ;; patch_all (breaks loop)
  end.

Definition emit_break (line : Z) : C unit :=
  fc ← gets c_current;
  match loops fc with
  | [] => compile_error line "break outside of loop"
  | loop :: rest =>
      n ← gets (locals_above (loop_scope loop));
      repeat_emit n OP_POP line ;;
      jump ← emit_jump OP_JUMP line;
      modify_current (fun fc => set_loops fc (mkLoop (loop_start loop) (breaks loop ++ [jump]) (loop_scope loop) :: rest))
  end.

Definition emit_continue (line : Z) : C unit :=
  fc ← gets c_current;
  match loops fc with
  | [] => compile_error line "continue outside of loop"
  | loop :: _ =>
      n ← gets (locals_above (loop_scope loop));
      repeat_emit n OP_POP line ;; emit_loop (loop_start loop) line
  end.

(** ** Builtin functions *)

(** A builtin that compiles its arguments in order and emits its instructions. *)
Record builtin := mkBuiltin { b_name : string; b_arity : nat; b_message : string; b_ops : list Opcode }.

Definition http_methods : list builtin := [
  mkBuiltin "get" 1 "http.get() takes exactly 1 argument" [OP_HTTP_GET];
  mkBuiltin "post" 2 "http.post() takes exactly 2 arguments" [OP_HTTP_POST];
  mkBuiltin "put" 2 "http.put() takes exactly 2 arguments" [OP_HTTP_PUT];
  mkBuiltin "delete" 1 "http.delete() takes exactly 1 argument" [OP_HTTP_DELETE];
  mkBuiltin "patch" 2 "http.patch() takes exactly 2 arguments" [OP_HTTP_PATCH];
  mkBuiltin "request" 4 "http.request() takes 4 arguments: method, url, body, headers" [OP_HTTP_REQUEST];
  mkBuiltin "stream" 1 "http.stream() takes exactly 1 argument" [OP_HTTP_STREAM]].
Definition ws_methods : list builtin := [
  mkBuiltin "connect" 1 "ws.connect() takes exactly 1 argument" [OP_WS_CONNECT];
  mkBuiltin "send" 2 "ws.send() takes exactly 2 arguments" [OP_WS_SEND];
  mkBuiltin "close" 1 "ws.close() takes exactly 1 argument" [OP_WS_CLOSE]].
Definition fs_methods : list builtin := [
  mkBuiltin "read" 1 "fs.read() takes exactly 1 argument" [OP_FILE_READ];
  mkBuiltin "write" 2 "fs.write() takes exactly 2 arguments" [OP_FILE_WRITE];
  mkBuiltin "exists" 1 "fs.exists() takes exactly 1 argument" [OP_FILE_EXISTS];
  mkBuiltin "lines" 1 "fs.lines() takes exactly 1 argument" [OP_FILE_LINES];
  mkBuiltin "write_bytes" 2 "fs.write_bytes() takes exactly 2 arguments" [OP_FILE_WRITE_BYTES]].
Definition json_methods : list builtin := [
  mkBuiltin "parse" 1 "json.parse() takes exactly 1 argument" [OP_JSON_PARSE];
  mkBuiltin "encode" 1 "json.encode() takes exactly 1 argument" [OP_JSON_ENCODE]].
Definition env_methods : list builtin := [
  mkBuiltin "get" 1 "env.get() takes exactly 1 argument" [OP_ENV_GET];
  mkBuiltin "set" 2 "env.set() takes exactly 2 arguments" [OP_ENV_SET]].
Definition stream_methods : list builtin := [
  mkBuiltin "read" 1 "stream.read() takes exactly 1 argument" [OP_STREAM_READ];
  mkBuiltin "close" 1 "stream.close() takes exactly 1 argument" [OP_STREAM_CLOSE]].
Definition value_builtins : list builtin := [
  mkBuiltin "print" 1 "print() takes exactly 1 argument" [OP_PRINT; OP_NIL];
  mkBuiltin "len" 1 "len() takes exactly 1 argument" [OP_LEN];
  mkBuiltin "type" 1 "type() takes exactly 1 argument" [OP_TYPE];
  mkBuiltin "keys" 1 "keys() takes exactly 1 argument" [OP_KEYS];
  mkBuiltin "slice" 3 "slice() takes exactly 3 arguments" [OP_SLICE];
  mkBuiltin "str" 1 "str() takes exactly 1 argument" [OP_TO_STRING];
  mkBuiltin "int" 1 "int() takes exactly 1 argument" [OP_TO_INT];
  mkBuiltin "float" 1 "float() takes exactly 1 argument" [OP_TO_FLOAT];
  mkBuiltin "shell" 1 "shell() takes exactly 1 argument" [OP_SHELL]].
Definition process_builtins : list builtin := [
  mkBuiltin "spawn" 1 "spawn() takes exactly 1 argument" [OP_SPAWN];
  mkBuiltin "send" 2 "send() takes exactly 2 arguments" [OP_SEND];
  mkBuiltin "receive" 0 "receive() takes no arguments" [OP_RECEIVE];
  mkBuiltin "self" 0 "self() takes no arguments" [OP_SELF];
  mkBuiltin "yield" 0 "yield() takes no arguments" [OP_YIELD; OP_NIL];
  mkBuiltin "link" 1 "link() takes exactly 1 argument" [OP_LINK];
  mkBuiltin "unlink" 1 "unlink() takes exactly 1 argument" [OP_UNLINK];
  mkBuiltin "monitor" 1 "monitor() takes exactly 1 argument" [OP_MONITOR];
  mkBuiltin "demonitor" 1 "demonitor() takes exactly 1 argument" [OP_DEMONITOR]].
Definition supervisor_builtins : list builtin := [
  mkBuiltin "supervisor_start" 1 "supervisor_start() takes exactly 1 argument" [OP_SUP_START];
  mkBuiltin "supervisor_add_child" 3 "supervisor_add_child() takes exactly 3 arguments" [OP_SUP_ADD_CHILD];
  mkBuiltin "supervisor_remove_child" 1 "supervisor_remove_child() takes exactly 1 argument" [OP_SUP_REMOVE_CHILD];
  mkBuiltin "supervisor_which_children" 0 "supervisor_which_children() takes no arguments" [OP_SUP_WHICH_CHILDREN];
  mkBuiltin "supervisor_shutdown" 0 "supervisor_shutdown() takes no arguments" [OP_SUP_SHUTDOWN]].
Definition group_builtins : list builtin := [
  mkBuiltin "group_join" 1 "group_join() takes exactly 1 argument" [OP_GROUP_JOIN];
  mkBuiltin "group_leave" 1 "group_leave() takes exactly 1 argument" [OP_GROUP_LEAVE];
  mkBuiltin "group_send" 2 "group_send() takes exactly 2 arguments" [OP_GROUP_SEND];
  mkBuiltin "group_send_others" 2 "group_send_others() takes exactly 2 arguments" [OP_GROUP_SEND_OTHERS];
  mkBuiltin "group_members" 1 "group_members() takes exactly 1 argument" [OP_GROUP_MEMBERS];
  mkBuiltin "group_list" 0 "group_list() takes no arguments" [OP_GROUP_LIST]].
Definition trace_builtins : list builtin := [
  mkBuiltin "trace" 2 "trace() takes exactly 2 arguments" [OP_TRACE];
  mkBuiltin "trace_off" 1 "trace_off() takes exactly 1 argument" [OP_TRACE_OFF];
  mkBuiltin "receive_match" 1 "receive_match() takes exactly 1 argument" [OP_RECEIVE_MATCH]].
Definition time_builtins : list builtin := [
  mkBuiltin "sleep" 1 "sleep() takes exactly 1 argument" [OP_SLEEP];
  mkBuiltin "time" 0 "time() takes no arguments" [OP_TIME];
  mkBuiltin "time_format" 2 "time_format() takes exactly 2 arguments" [OP_TIME_FORMAT];
  mkBuiltin "random" 0 "random() takes no arguments" [OP_RANDOM];
  mkBuiltin "random_int" 2 "random_int() takes exactly 2 arguments" [OP_RANDOM_INT]].
Definition string_builtins : list builtin := [
  mkBuiltin "split" 2 "split() takes exactly 2 arguments" [OP_SPLIT];
  mkBuiltin "join" 2 "join() takes exactly 2 arguments" [OP_JOIN];
  mkBuiltin "trim" 1 "trim() takes exactly 1 argument" [OP_TRIM];
  mkBuiltin "replace" 3 "replace() takes exactly 3 arguments" [OP_REPLACE];
  mkBuiltin "contains" 2 "contains() takes exactly 2 arguments" [OP_CONTAINS];
  mkBuiltin "starts_with" 2 "starts_with() takes exactly 2 arguments" [OP_STARTS_WITH];
  mkBuiltin "ends_with" 2 "ends_with() takes exactly 2 arguments" [OP_ENDS_WITH];
  mkBuiltin "upper" 1 "upper() takes exactly 1 argument" [OP_UPPER];
  mkBuiltin "lower" 1 "lower() takes exactly 1 argument" [OP_LOWER];
  mkBuiltin "char_at" 2 "char_at() takes exactly 2 arguments" [OP_CHAR_AT];
  mkBuiltin "index_of" 2 "index_of() takes exactly 2 arguments" [OP_INDEX_OF]].
Definition input_builtins : list builtin := [
  mkBuiltin "base64_encode" 1 "base64_encode() takes exactly 1 argument" [OP_BASE64_ENCODE];
  mkBuiltin "base64_decode" 1 "base64_decode() takes exactly 1 argument" [OP_BASE64_DECODE];
  mkBuiltin "read_stdin" 0 "read_stdin() takes no arguments" [OP_READ_STDIN];
  mkBuiltin "print_err" 1 "print_err() takes exactly 1 argument" [OP_PRINT_ERR]].
Definition math_builtins : list builtin := [
  mkBuiltin "floor" 1 "floor() takes exactly 1 argument" [OP_FLOOR];
  mkBuiltin "ceil" 1 "ceil() takes exactly 1 argument" [OP_CEIL];
  mkBuiltin "round" 1 "round() takes exactly 1 argument" [OP_ROUND];
  mkBuiltin "abs" 1 "abs() takes exactly 1 argument" [OP_ABS];
  mkBuiltin "sqrt" 1 "sqrt() takes exactly 1 argument" [OP_SQRT];
  mkBuiltin "pow" 2 "pow() takes exactly 2 arguments" [OP_POW];
  mkBuiltin "min" 2 "min() takes exactly 2 arguments" [OP_MIN];
  mkBuiltin "max" 2 "max() takes exactly 2 arguments" [OP_MAX]].
Definition exec_builtins : list builtin := [
  mkBuiltin "exec" 2 "exec() takes exactly 2 arguments" [OP_EXEC];
  mkBuiltin "exec_async" 1 "exec_async() takes exactly 1 argument" [OP_EXEC_ASYNC];
  mkBuiltin "proc_write" 2 "proc_write() takes exactly 2 arguments" [OP_PROC_WRITE];
  mkBuiltin "proc_read" 1 "proc_read() takes exactly 1 argument" [OP_PROC_READ];
  mkBuiltin "proc_close" 1 "proc_close() takes exactly 1 argument" [OP_PROC_CLOSE]].
Definition hash_builtins : list builtin := [
  mkBuiltin "uuid" 0 "uuid() takes no arguments" [OP_UUID];
  mkBuiltin "hash_md5" 1 "hash_md5() takes exactly 1 argument" [OP_HASH_MD5];
  mkBuiltin "hash_sha256" 1 "hash_sha256() takes exactly 1 argument" [OP_HASH_SHA256]].
Definition result_builtins : list builtin := [
  mkBuiltin "is_ok" 1 "is_ok() takes exactly 1 argument" [OP_RESULT_IS_OK];
  mkBuiltin "is_err" 1 "is_err() takes exactly 1 argument" [OP_RESULT_IS_ERR];
  mkBuiltin "unwrap" 1 "unwrap() takes exactly 1 argument" [OP_RESULT_UNWRAP];
  mkBuiltin "unwrap_or" 2 "unwrap_or() takes exactly 2 arguments" [OP_RESULT_UNWRAP_OR]].
Definition option_builtins : list builtin := [
  mkBuiltin "is_some" 1 "is_some() takes exactly 1 argument" [OP_IS_SOME];
  mkBuiltin "is_none" 1 "is_none() takes exactly 1 argument" [OP_IS_NONE];
  mkBuiltin "unwrap_option" 1 "unwrap_option() takes exactly 1 argument" [OP_UNWRAP_OPTION];
  mkBuiltin "unwrap_option_or" 2 "unwrap_option_or() takes exactly 2 arguments" [OP_UNWRAP_OPTION_OR]].
Definition tool_builtins : list builtin := [
  mkBuiltin "list_tools" 0 "list_tools() takes no arguments" [OP_LIST_TOOLS];
  mkBuiltin "tool_schema" 1 "tool_schema() takes exactly 1 argument" [OP_TOOL_SCHEMA]].
Definition builtin_functions : list builtin :=
  value_builtins ++ process_builtins ++ supervisor_builtins ++ group_builtins ++ trace_builtins ++
  time_builtins ++ string_builtins ++ input_builtins ++ math_builtins ++ exec_builtins ++
  hash_builtins ++ result_builtins ++ option_builtins ++ tool_builtins.

Fixpoint find_builtin (bs : list builtin) (name : list Z) : option builtin :=
  match bs with
  | [] => None
  | b :: bs => if bool_decide (chars (b_name b) = name) then Some b else find_builtin bs name
  end.

(** The module of a call like [http.get(..)] and the message for an unknown method. *)
Definition builtin_modules : list (string * (list builtin * string)) := [
  ("http", (http_methods, "unknown http method")); ("ws", (ws_methods, "unknown ws method"));
  ("fs", (fs_methods, "unknown fs method")); ("json", (json_methods, "unknown json method"));
  ("env", (env_methods, "unknown env method")); ("stream", (stream_methods, "unknown stream method"))].
Fixpoint find_module (ms : list (string * (list builtin * string))) (name : list Z) : option (list builtin * string) :=
  match ms with
  | [] => None
  | (m, r) :: ms => if bool_decide (chars m = name) then Some r else find_module ms name
  end.

(** ** Expressions

    Each function takes the functions that compile the node's children: as an
    expression, a statement, the rest of an else-if chain, or a block with a
    value. *)

Definition emit_ops (ops : list Opcode) (line : Z) : C unit :=
  (fix go ops := match ops with [] => mret tt | op :: ops => emit_op op line ;; go ops end) ops.

Definition compile_literal (node : AstNode) : C unit :=
  match node with
  | NODE_NIL line => emit_op OP_NIL line
  | NODE_BOOL line b => emit_op (if b then OP_TRUE else OP_FALSE) line
  | NODE_INT line i => emit_constant (VInt i) line
  | NODE_FLOAT line d => emit_constant (VFloat d) line
  | NODE_STRING line s => emit_constant (VString (cstr s)) line
  | _ => mret tt
  end.

(** An access to a variable: a local's slot or a global's name. *)
Definition emit_variable (local global : Opcode) (name : list Z) (line : Z) : C unit :=
  slot ← gets (fun c => resolve_local c name);
  match slot with
  | Some i => emit_op local line ;; emit_short (Z.of_nat i) line
  | None => index ← add_string name; emit_op global line ;; emit_short index line
  end.
Definition compile_ident (name : list Z) (line : Z) : C unit := emit_variable OP_GET_LOCAL OP_GET_GLOBAL name line.

Definition binary_op (op : TokenType) : option Opcode :=
  match op with
  | TOK_PLUS => Some OP_ADD | TOK_MINUS => Some OP_SUB | TOK_STAR => Some OP_MUL | TOK_SLASH => Some OP_DIV
  | TOK_PERCENT => Some OP_MOD | TOK_EQ => Some OP_EQ | TOK_NE => Some OP_NE | TOK_LT => Some OP_LT
  | TOK_LE => Some OP_LE | TOK_GT => Some OP_GT | TOK_GE => Some OP_GE
  | _ => None
  end.

(** The operator of a compound assignment; other tokens emit nothing. *)
Definition assign_op (op : TokenType) : list Opcode :=
  match op with
  | TOK_PLUS_ASSIGN => [OP_ADD] | TOK_MINUS_ASSIGN => [OP_SUB] | TOK_STAR_ASSIGN => [OP_MUL] | TOK_SLASH_ASSIGN => [OP_DIV]
  | _ => []
  end.
Definition is_plain_assign (op : TokenType) : bool := match op with TOK_ASSIGN => true | _ => false end.

Section nodes.
Context (compile_expr compile_stmt compile_if compile_block_expr : AstNode -> C unit).

Definition compile_all : list AstNode -> C unit :=
  fix go nodes := match nodes with [] => mret tt | n :: ns => compile_expr n ;; go ns end.

Definition compile_binary (line : Z) (op : TokenType) (left right : AstNode) : C unit :=
  match op with
  | TOK_AND =>
      compile_expr left ;; end_jump ← emit_jump OP_JUMP_UNLESS line;
      emit_op OP_POP line ;; compile_expr right ;; patch_jump end_jump
  | TOK_OR =>
      compile_expr left ;; else_jump ← emit_jump OP_JUMP_UNLESS line; end_jump ← emit_jump OP_JUMP line;
      patch_jump else_jump ;; emit_op OP_POP line ;; compile_expr right ;; patch_jump end_jump
  | _ =>
      compile_expr left ;; compile_expr right ;;
      match binary_op op with Some o => emit_op o line | None => compile_error line "unknown binary operator" end
  end.

Definition compile_unary (line : Z) (op : TokenType) (operand : AstNode) : C unit :=
  compile_expr operand ;;
  match op with
  | TOK_MINUS => emit_op OP_NEG line
  | TOK_NOT => emit_op OP_NOT line
  | _ => compile_error line "unknown unary operator"
  end.

(** *** Calls *)

Definition compile_builtin (b : builtin) (line : Z) (args : list AstNode) : C unit :=
  if negb (length args =? b_arity b)%nat then compile_error line (b_message b)
  else compile_all args ;; emit_ops (b_ops b) line.

(** [push] and [pop] write the changed array back to a variable. *)
Definition store_back (arr_arg : AstNode) (line : Z) : C unit :=
  match arr_arg with NODE_IDENT _ name => emit_variable OP_SET_LOCAL OP_SET_GLOBAL name line | _ => mret tt end.

Definition compile_push (line : Z) (args : list AstNode) : C unit :=
  match args with
  | [arr; item] =>
      compile_expr arr ;; compile_expr item ;; emit_op OP_PUSH line ;; store_back arr line ;;
      emit_op OP_POP line ;; emit_op OP_NIL line
  | _ => compile_error line "push() takes exactly 2 arguments"
  end.
Definition compile_pop (line : Z) (args : list AstNode) : C unit :=
  match args with
  | [arr] => compile_expr arr ;; emit_op OP_POP_ARRAY line ;; store_back arr line ;; emit_op OP_POP line
  | _ => compile_error line "pop() takes exactly 1 argument"
  end.
Definition compile_get_stats (line : Z) (args : list AstNode) : C unit :=
  match args with
  | [] => emit_op OP_NIL line ;; emit_op OP_GET_STATS line
  | [pid] => compile_expr pid ;; emit_op OP_GET_STATS line
  | _ => compile_error line "get_stats() takes 0 or 1 argument"
  end.
(** [ws.recv]: without a timeout it waits for ever. *)
Definition compile_ws_recv (line : Z) (args : list AstNode) : C unit :=
  match args with
  | [socket] => compile_expr socket ;; emit_constant (VInt (-1)) line ;; emit_op OP_WS_RECV line
  | [socket; timeout] => compile_expr socket ;; compile_expr timeout ;; emit_op OP_WS_RECV line
  | _ => compile_error line "ws.recv() takes 1 or 2 arguments"
  end.

Definition compile_regular_call (line : Z) (callee : AstNode) (args : list AstNode) : C unit :=
  compile_expr callee ;; compile_all args ;; emit_op OP_CALL line ;; emit_short (Z.of_nat (length args)) line.

Definition named (name : list Z) (s : string) : bool := bool_decide (chars s = name).

Definition compile_call (line : Z) (callee : AstNode) (args : list AstNode) : C unit :=
  match callee with
  | NODE_MEMBER _ (NODE_IDENT _ obj) method =>
      match find_module builtin_modules obj with
      | Some (methods, message) =>
          if named obj "ws" && named method "recv" then compile_ws_recv line args
          else match find_builtin methods method with
               | Some b => compile_builtin b line args
               | None => compile_error line message
               end
      | None => compile_regular_call line callee args
      end
  | NODE_IDENT _ name =>
      if named name "push" then compile_push line args
      else if named name "pop" then compile_pop line args
      else if named name "get_stats" then compile_get_stats line args
      else match find_builtin builtin_functions name with
           | Some b => compile_builtin b line args
           | None => compile_regular_call line callee args
           end
  | _ => compile_regular_call line callee args
  end.

(** *** Other expressions *)

Definition compile_member (line : Z) (object : AstNode) (field : list Z) : C unit :=
  compile_expr object ;; key_idx ← add_string field; ic_slot ← on_chunk chunk_alloc_ic;
  emit_op OP_MAP_GET_IC line ;; emit_short key_idx line ;; emit_short ic_slot line.

Definition compile_index (line : Z) (object index : AstNode) : C unit :=
  compile_expr object ;; compile_expr index ;; emit_op OP_ARRAY_GET line.

Definition compile_ternary (line : Z) (cond then_expr else_expr : AstNode) : C unit :=
  compile_expr cond ;; else_jump ← emit_jump OP_JUMP_UNLESS line; emit_op OP_POP line ;; compile_expr then_expr ;;
  end_jump ← emit_jump OP_JUMP line; patch_jump else_jump ;; emit_op OP_POP line ;; compile_expr else_expr ;;
  patch_jump end_jump.

Definition is_const_slot (slot : nat) (c : Compiler) : bool :=
  default false (loc_const <$> locals (c_current c) !! slot).

(** The value an element assignment stores, behind the container and the key. *)
Definition compile_element_value (get : Opcode) (line : Z) (op : TokenType) (value : AstNode) : C unit :=
  if is_plain_assign op then compile_expr value
  else emit_op OP_DUP2 line ;; emit_op get line ;; compile_expr value ;; emit_ops (assign_op op) line.

Definition compile_assign (line : Z) (target : AstNode) (op : TokenType) (value : AstNode) : C unit :=
  match target with
  | NODE_IDENT _ name =>
      (if is_plain_assign op then compile_expr value
       else compile_expr target ;; compile_expr value ;; emit_ops (assign_op op) line) ;;
      slot ← gets (fun c => resolve_local c name);
      match slot with
      | Some i =>
          const ← gets (is_const_slot i);
          if const : bool then compile_error line "cannot assign to constant"
          else emit_op OP_SET_LOCAL line ;; emit_short (Z.of_nat i) line
      | None => index ← add_string name; emit_op OP_SET_GLOBAL line ;; emit_short index line
      end
  | NODE_INDEX _ object index =>
      compile_expr object ;; compile_expr index ;; compile_element_value OP_ARRAY_GET line op value ;; emit_op OP_ARRAY_SET line
  | NODE_MEMBER _ object field =>
      compile_expr object ;; emit_constant (VString (cstr field)) line ;;
      compile_element_value OP_MAP_GET line op value ;; emit_op OP_MAP_SET line
  | _ => compile_error line "invalid assignment target"
  end.

Definition compile_array (line : Z) (elements : list AstNode) : C unit :=
  emit_op OP_ARRAY_NEW line ;;
  (fix go es := match es with [] => mret tt | e :: es => compile_expr e ;; emit_op OP_ARRAY_PUSH line ;; go es end) elements.

Definition compile_map (line : Z) (keys : list (list Z)) (values : list AstNode) : C unit :=
  emit_op OP_MAP_NEW line ;;
  (fix go vs keys :=
     match vs, keys with
     | v :: vs, k :: ks => emit_constant (VString (cstr k)) line ;; compile_expr v ;; emit_op OP_MAP_SET line ;; go vs ks
     | _, _ => mret tt
     end) values keys.

Fixpoint emit_names (names : list (list Z)) (line : Z) : C unit :=
  match names with [] => mret tt | n :: ns => index ← add_string n; emit_short index line ;; emit_names ns line end.

Definition compile_struct_init (line : Z) (type_name : list Z) (names : list (list Z)) (values : list AstNode) : C unit :=
  compile_all values ;; type_idx ← add_string type_name; emit_op OP_STRUCT_NEW line ;; emit_short type_idx line ;;
  emit_byte (u8 (Z.of_nat (length values))) line ;; emit_names (rev names) line.

Definition compile_enum_expr (line : Z) (enum_type variant_name : list Z) (payload : option AstNode) : C unit :=
  (match payload with Some p => compile_expr p | None => mret tt end) ;;
  type_idx ← add_string enum_type; variant_idx ← add_string variant_name;
  emit_op OP_ENUM_NEW line ;; emit_short type_idx line ;; emit_short variant_idx line ;;
  emit_byte (if payload then 1 else 0) line.

Definition compile_try (line : Z) (expr : AstNode) : C unit :=
  compile_expr expr ;; emit_op OP_DUP line ;; emit_op OP_RESULT_IS_ERR line ;; end_jump ← emit_jump OP_JUMP_UNLESS line;
  emit_op OP_POP line ;; emit_op OP_RETURN line ;; patch_jump end_jump ;; emit_op OP_POP line ;; emit_op OP_RESULT_UNWRAP line.

Definition compile_return (line : Z) (value : option AstNode) : C unit :=
  (match value with Some v => compile_expr v | None => emit_op OP_NIL line end) ;; emit_op OP_RETURN line.

(** *** Match *)

Fixpoint is_return_statement (node : AstNode) : bool :=
  match node with
  | NODE_RETURN _ _ => true
  | NODE_BLOCK _ stmts =>
      (fix last_returns stmts := match stmts with [] => false | [s] => is_return_statement s | _ :: stmts => last_returns stmts end)
        stmts
  | _ => false
  end.

Definition compile_match_arm_body (line : Z) (body : AstNode) (has_binding : bool) : C unit :=
  let remove_binding := if has_binding then emit_op OP_SWAP line ;; emit_op OP_POP line else mret tt in
  if is_return_statement body then
    match body with NODE_RETURN l v => compile_return l v | _ => compile_block_expr body end
  else match body with
       | NODE_BLOCK _ _ => compile_block_expr body ;; remove_binding
       | _ => compile_expr body ;; remove_binding
       end.

(** An arm, with what compiles its body. *)
Record arm := mkArm {
  arm_line : Z; arm_kind : MatchPattern; arm_binding : option (list Z); arm_variant : option (list Z); arm_body : bool -> C unit
}.
Definition arm_of (node : AstNode) : arm :=
  match node with
  | NODE_MATCH_ARM line kind binding variant body => mkArm line kind binding variant (compile_match_arm_body line body)
  | _ => mkArm (node_line node) MATCH_PATTERN_NONE None None (fun _ => mret tt)
  end.

(** The last arm of a kind. *)
Definition find_arm (kind : MatchPattern) (arms : list arm) : option arm :=
  foldl (fun found a => if bool_decide (arm_kind a = kind) then Some a else found) None arms.

(** An arm that binds the unwrapped value: the local is dropped by hand, its
    value by the body. *)
Definition compile_binding_arm (a : arm) : C unit :=
  begin_scope ;; add_local (default [] (arm_binding a)) true (arm_line a) ;; arm_body a true ;;
  modify_current (fun fc => set_depth (set_locals fc (take (length (locals fc) - 1) (locals fc))) (scope_depth fc - 1)).

Definition compile_result_match (line : Z) (ok_arm err_arm : arm) : C unit :=
  emit_op OP_DUP line ;; emit_op OP_RESULT_IS_OK line ;; err_jump ← emit_jump OP_JUMP_UNLESS line;
  emit_op OP_POP line ;; emit_op OP_RESULT_UNWRAP line ;; compile_binding_arm ok_arm ;;
  end_jump ← emit_jump OP_JUMP line; patch_jump err_jump ;;
  emit_op OP_POP line ;; emit_op OP_RESULT_UNWRAP line ;; compile_binding_arm err_arm ;;
  patch_jump end_jump.

Definition compile_option_match (line : Z) (some_arm none_arm : arm) : C unit :=
  emit_op OP_DUP line ;; emit_op OP_IS_SOME line ;; none_jump ← emit_jump OP_JUMP_UNLESS line;
  emit_op OP_POP line ;; emit_op OP_UNWRAP_OPTION line ;; compile_binding_arm some_arm ;;
  end_jump ← emit_jump OP_JUMP line; patch_jump none_jump ;;
  emit_op OP_POP line ;; emit_op OP_POP line ;; arm_body none_arm false ;;
  patch_jump end_jump.

(** The jumps to the end, one for each arm. *)
Fixpoint compile_enum_arms (line : Z) (arms : list arm) : C (list nat) :=
  match arms with
  | [] => mret []
  | a :: arms =>
      match arm_kind a with
      | MATCH_PATTERN_ENUM =>
          variant_idx ← add_string (default [] (arm_variant a));
          emit_op OP_DUP line ;; emit_op OP_ENUM_IS line ;; emit_short variant_idx line ;;
          next_arm_jump ← emit_jump OP_JUMP_UNLESS line;
          emit_op OP_POP line ;;
          match arm_binding a with
          | Some _ => emit_op OP_ENUM_PAYLOAD line ;; compile_binding_arm a
          | None => emit_op OP_POP line ;; arm_body a false
          end ;;
          end_jump ← emit_jump OP_JUMP line;
          patch_jump next_arm_jump ;; emit_op OP_POP line ;;
          end_jumps ← compile_enum_arms line arms;
          mret (end_jump :: end_jumps)
      | _ => compile_enum_arms line arms
      end
  end.
Definition compile_enum_match (line : Z) (arms : list arm) : C unit :=
  end_jumps ← compile_enum_arms line arms; emit_op OP_POP line ;; emit_op OP_NIL line ;; patch_all end_jumps.

Definition is_some {A} (x : option A) : bool := match x with Some _ => true | None => false end.

Definition compile_arms (line : Z) (arms : list arm) : C unit :=
  let ok_arm := find_arm MATCH_PATTERN_OK arms in let err_arm := find_arm MATCH_PATTERN_ERR arms in
  let some_arm := find_arm MATCH_PATTERN_SOME arms in let none_arm := find_arm MATCH_PATTERN_NONE arms in
  let has_enum_arms := is_some (find_arm MATCH_PATTERN_ENUM arms) in
  let is_result_match := is_some ok_arm || is_some err_arm in
  let is_option_match := is_some some_arm || is_some none_arm in
  if (is_result_match && is_option_match) || (is_result_match && has_enum_arms) || (is_option_match && has_enum_arms) then
    compile_error line "cannot mix different pattern types in match"
  else if is_result_match then
    match ok_arm, err_arm with
    | Some o, Some e => compile_result_match line o e
    | _, _ => compile_error line "match expression must have both ok and err arms"
    end
  else if is_option_match then
    match some_arm, none_arm with
    | Some s, Some n => compile_option_match line s n
    | _, _ => compile_error line "match expression must have both some and none arms"
    end
  else if has_enum_arms then compile_enum_match line arms
  else compile_error line "match expression must have ok/err, some/none, or enum variant arms".
Definition compile_match (line : Z) (expr : AstNode) (arms : list AstNode) : C unit :=
  compile_expr expr ;; compile_arms line (map arm_of arms).

(** ** Statements *)

Definition compile_each : list AstNode -> C unit :=
  fix go stmts := match stmts with [] => mret tt | s :: ss => compile_stmt s ;; go ss end.
Definition compile_block (line : Z) (stmts : list AstNode) : C unit := begin_scope ;; compile_each stmts ;; end_scope line.

(** The last expression is kept, or else nil. *)
Definition compile_keeping_last (line : Z) : list AstNode -> C unit :=
  fix go stmts :=
    match stmts with
    | [] => emit_op OP_NIL line
    | s :: ss =>
        match ss, s with
        | [], NODE_EXPR_STMT _ value => compile_expr value
        | _, _ => compile_stmt s ;; go ss
        end
    end.
Definition compile_block_value (line : Z) (stmts : list AstNode) : C unit :=
  begin_scope ;; compile_keeping_last line stmts ;; end_scope line.

Definition compile_let (line : Z) (name : list Z) (value : AstNode) (is_const : bool) : C unit :=
  compile_expr value ;;
  depth ← gets (fun c => scope_depth (c_current c));
  if 0 <? depth then add_local name is_const line
  else index ← add_string name; emit_op OP_SET_GLOBAL line ;; emit_short index line ;; emit_op OP_POP line.

Definition compile_if_node (line : Z) (cond then_block : AstNode) (else_block : option AstNode) : C unit :=
  compile_expr cond ;; else_jump ← emit_jump OP_JUMP_UNLESS line; emit_op OP_POP line ;;
  match then_block with NODE_BLOCK _ _ => compile_block_expr then_block | _ => compile_expr then_block end ;;
  end_jump ← emit_jump OP_JUMP line; patch_jump else_jump ;; emit_op OP_POP line ;;
  match else_block with
  | Some block =>
      match block with
      | NODE_BLOCK _ _ => compile_block_expr block
      | NODE_IF _ _ _ _ => compile_if block
      | _ => compile_expr block
      end
  | None => emit_op OP_NIL line
  end ;;
  patch_jump end_jump.

Definition here : C nat := gets (fun c => code_size (current_chunk c)).

Definition compile_while (line : Z) (cond body : AstNode) : C unit :=
  start ← here; begin_loop start ;; compile_expr cond ;; exit_jump ← emit_jump OP_JUMP_UNLESS line; emit_op OP_POP line ;;
  compile_stmt body ;; emit_loop start line ;; patch_jump exit_jump ;; emit_op OP_POP line ;; end_loop.

Definition local_slot (name : list Z) : C Z := gets (fun c => slot_number (resolve_local c name)).
Definition emit_get_local (slot line : Z) : C unit := emit_op OP_GET_LOCAL line ;; emit_short slot line.
Definition emit_set_local (slot line : Z) : C unit := emit_op OP_SET_LOCAL line ;; emit_short slot line.
(** [slot = slot + 1]. *)
Definition emit_increment (slot line : Z) : C unit :=
  emit_get_local slot line ;; emit_constant (VInt 1) line ;; emit_op OP_ADD line ;;
  emit_set_local slot line ;; emit_op OP_POP line.

Definition compile_for_range (line : Z) (var : list Z) (first last : AstNode) (inclusive : bool) (body : AstNode) : C unit :=
  begin_scope ;; compile_expr last ;; add_local (chars "__end") true line ;; end_slot ← local_slot (chars "__end");
  compile_expr first ;; add_local var false line ;; var_slot ← local_slot var;
  start ← here; begin_loop start ;;
  emit_get_local var_slot line ;; emit_get_local end_slot line ;; emit_op (if inclusive then OP_LE else OP_LT) line ;;
  exit_jump ← emit_jump OP_JUMP_UNLESS line; emit_op OP_POP line ;;
  compile_stmt body ;; emit_increment var_slot line ;; emit_loop start line ;;
  patch_jump exit_jump ;; emit_op OP_POP line ;; end_loop ;; end_scope line.

Definition compile_for_each (line : Z) (var : list Z) (iterable body : AstNode) : C unit :=
  begin_scope ;; compile_expr iterable ;; add_local (chars "__iter") true line ;; iter_slot ← local_slot (chars "__iter");
  emit_constant (VInt 0) line ;; add_local (chars "__idx") false line ;; idx_slot ← local_slot (chars "__idx");
  start ← here; begin_loop start ;;
  emit_get_local idx_slot line ;; emit_get_local iter_slot line ;; emit_op OP_LEN line ;; emit_op OP_LT line ;;
  exit_jump ← emit_jump OP_JUMP_UNLESS line; emit_op OP_POP line ;;
  begin_scope ;; emit_get_local iter_slot line ;; emit_get_local idx_slot line ;; emit_op OP_ARRAY_GET line ;;
  add_local var true line ;; compile_stmt body ;; end_scope line ;;
  emit_increment idx_slot line ;; emit_loop start line ;;
  patch_jump exit_jump ;; emit_op OP_POP line ;; end_loop ;; end_scope line.

Definition compile_for (line : Z) (var : list Z) (iterable body : AstNode) : C unit :=
  match iterable with
  | NODE_RANGE _ first last inclusive => compile_for_range line var first last inclusive body
  | _ => compile_for_each line var iterable body
  end.

(** *** By node *)

Definition compile_expr_node (node : AstNode) : C unit :=
  match node with
  | NODE_NIL _ | NODE_BOOL _ _ | NODE_INT _ _ | NODE_FLOAT _ _ | NODE_STRING _ _ => compile_literal node
  | NODE_IDENT line name => compile_ident name line
  | NODE_BINARY line op l r => compile_binary line op l r
  | NODE_UNARY line op e => compile_unary line op e
  | NODE_CALL line callee args => compile_call line callee args
  | NODE_MEMBER line object field => compile_member line object field
  | NODE_INDEX line object index => compile_index line object index
  | NODE_TERNARY line c t e => compile_ternary line c t e
  | NODE_ASSIGN line target op value => compile_assign line target op value
  | NODE_ARRAY line elements => compile_array line elements
  | NODE_MAP line keys values => compile_map line keys values
  | NODE_RESULT_OK line v => compile_expr v ;; emit_op OP_RESULT_OK line
  | NODE_RESULT_ERR line v => compile_expr v ;; emit_op OP_RESULT_ERR line
  | NODE_SOME line v => compile_expr v ;; emit_op OP_SOME line
  | NODE_NONE line => emit_op OP_NONE line
  | NODE_TRY line e => compile_try line e
  | NODE_MATCH line e arms => compile_match line e arms
  | NODE_STRUCT_INIT line t names values _ => compile_struct_init line t names values
  | NODE_ENUM_EXPR line t v payload => compile_enum_expr line t v payload
  | _ => compile_error (node_line node) "unexpected expression type"
  end.

Definition compile_stmt_node (node : AstNode) : C unit :=
  match node with
  | NODE_BLOCK line stmts => compile_block line stmts
  | NODE_LET line name _ value _ => compile_let line name value false
  | NODE_CONST line name _ value _ => compile_let line name value true
  | NODE_IF line c t e => compile_if_node line c t e ;; emit_op OP_POP line
  | NODE_WHILE line c b => compile_while line c b
  | NODE_FOR line var _ iterable body => compile_for line var iterable body
  | NODE_RETURN line v => compile_return line v
  | NODE_BREAK line => emit_break line
  | NODE_CONTINUE line => emit_continue line
  | NODE_EXPR_STMT line v => compile_expr v ;; emit_op OP_POP line
  | _ => compile_error (node_line node) "unexpected statement type"
  end.

End nodes.

Inductive mode := AsExpr | AsStmt | AsIf | AsBlockExpr.

Definition unless_error (m : C unit) : C unit := fun c => if had_error c then (tt, c) else m c.

(** [compile_expr], [compile_stmt], [compile_if] and [compile_block_expr]. *)
Fixpoint compile (m : mode) (node : AstNode) : C unit :=
  match m with
  | AsExpr => unless_error (compile_expr_node (compile AsExpr) (compile AsBlockExpr) node)
  | AsStmt =>
      unless_error (compile_stmt_node (compile AsExpr) (compile AsStmt) (compile AsIf) (compile AsBlockExpr) node)
  | AsIf =>
      match node with
      | NODE_IF line c t e => compile_if_node (compile AsExpr) (compile AsIf) (compile AsBlockExpr) line c t e
      | _ => mret tt
      end
  | AsBlockExpr =>
      match node with
      | NODE_BLOCK line stmts => compile_block_value (compile AsExpr) (compile AsStmt) line stmts
      | _ => mret tt
      end
  end.
Notation compile_expr := (compile AsExpr).
Notation compile_stmt := (compile AsStmt).
Notation compile_if := (compile AsIf).

(** ** Declarations *)

(** The context of a function: slot 0 is the function itself. *)
Definition function_context (fn_index : nat) : FunctionContext := mkFunctionContext (Some fn_index) [] 0 [].

Fixpoint add_params (params : list AstNode) : C unit :=
  match params with
  | NODE_PARAM l name _ :: ps => add_local name false l ;; add_params ps
  | _ :: ps => add_params ps
  | [] => mret tt
  end.

Definition block_stmts (body : AstNode) : list AstNode := match body with NODE_BLOCK _ stmts => stmts | _ => [] end.

(** The body of a function, in its own chunk. *)
Definition compile_fn_body (line : Z) (fn_index : nat) (params : list AstNode) (body : AstNode) : C unit :=
  enclosing ← gets c_current;
  modify_current (fun _ => function_context fn_index) ;;
  begin_scope ;; add_local [] true line ;; add_params params ;; compile_each compile_stmt (block_stmts body) ;;
  emit_op OP_NIL line ;; emit_op OP_RETURN line ;;
  modify_current (fun _ => enclosing).

Definition type_name_of (type_ann : option AstNode) : option (list Z) :=
  match type_ann with Some (NODE_TYPE_NAME _ n) => Some n | _ => None end.

(** The description of a parameter: the first entry of its name counts. *)
Fixpoint find_description (keys : list (list Z)) (values : list AstNode) (name : list Z) : option (list Z) :=
  match keys, values with
  | k :: ks, v :: vs =>
      if bool_decide (k = name) then match v with NODE_STRING _ s => Some s | _ => None end
      else find_description ks vs name
  | _, _ => None
  end.
Definition param_description (params_map : option AstNode) (name : list Z) : option (list Z) :=
  match params_map with Some (NODE_MAP _ keys values) => find_description keys values name | _ => None end.
Definition param_meta (params_map : option AstNode) (param : AstNode) : ToolParamMeta :=
  match param with
  | NODE_PARAM _ name type_ann => mkParam (Some name) (type_name_of type_ann) (param_description params_map name)
  | _ => mkParam None None None
  end.

Definition add_function : C nat := fun c => let (i, code) := bytecode_add_function (c_code c) chunk_new in (i, set_code c code).
Definition add_tool (t : ToolInfo) : C unit := fun c => (tt, set_code c (bytecode_add_tool (c_code c) t).2).

(** The function's value, stored in the global of its name. *)
Definition store_function (line : Z) (name : list Z) (param_count : nat) (fn_index : nat) : C unit :=
  const_idx ← on_chunk (fun ch => chunk_add_constant ch
    (VFunction (mkFunction name (Z.of_nat param_count) (Z.of_nat fn_index) 0 0)));
  emit_op OP_CONST line ;; emit_short (Z.of_nat const_idx) line ;;
  name_idx ← add_string name;
  emit_op OP_SET_GLOBAL line ;; emit_short name_idx line ;; emit_op OP_POP line.

Definition compile_fn (is_tool : bool) (line : Z) (name : list Z) (params : list AstNode) (return_type : option AstNode)
    (body : AstNode) (description : option (list Z)) (params_map : option AstNode) : C unit :=
  fn_index ← add_function;
  compile_fn_body line fn_index params body ;;
  store_function line name (length params) fn_index ;;
  if is_tool then
    add_tool (mkTool name description (param_meta params_map <$> params) (type_name_of return_type) (Z.of_nat fn_index))
  else mret tt.

Section imports.
Context (cwd : option (list Z)) (read_file : list Z -> list Z + list Z) (parse : list Z -> list Z + AstNode).

Definition load_module (path : list Z) : C LoadResult := fun c =>
  let (r, cache) := module_load cwd read_file parse path (source_path c) (module_cache c) in (r, set_modules c cache).

(** A name that the module does not export. *)
Definition missing_export (exports names : list (list Z)) : option (list Z) :=
  snd <$> list_find (fun n => n ∉ exports) names.

Definition not_exported (name : list Z) : list Z :=
  take 255 (chars "'" ++ name ++ chars "' is not exported from module").

(** Importing a module compiles its declarations once; [compile_decls] compiles
    those of the module. *)
Definition import_module (compile_decls : list AstNode -> C unit) (line : Z) (path : list Z) : C (option Module_) :=
  r ← load_module path;
  match r with
  | LoadCrash => crash ;; mret None
  | LoadError message => report line message ;; mret None
  | Loaded m =>
      (if is_compiled m then mret tt
       else (fun c => (tt, set_modules c (mark_compiled (module_cache c) (mod_path m)))) ;;
            match mod_ast m with
            | NODE_PROGRAM _ decls =>
                saved ← gets source_path;
                set_source_path (Some (mod_path m)) ;; compile_decls decls ;; set_source_path saved
            | _ => mret tt
            end) ;;
      mret (Some m)
  end.
Definition compile_import_from (compile_decls : list AstNode -> C unit) (line : Z) (names : list (list Z)) (path : list Z) :
    C unit :=
  r ← import_module compile_decls line path;
  match r with
  | Some m => match missing_export (mod_exports m) names with
              | Some name => report line (not_exported name)
              | None => mret tt
              end
  | None => mret tt
  end.

(** A declaration; [fuel] bounds the depth of the imports, behind which the
    process is out of stack. *)
Section decls.
Context (compile_decls : list AstNode -> C unit).

Fixpoint compile_decl (node : AstNode) : C unit :=
  unless_error
    match node with
    | NODE_TOOL_DECL line name params ret body description params_map =>
        compile_fn true line name params ret body description params_map
    | NODE_FN_DECL line name params ret body description params_map =>
        compile_fn false line name params ret body description params_map
    | NODE_IMPORT line path => import_module compile_decls line path ;; mret tt
    | NODE_IMPORT_FROM line names path => compile_import_from compile_decls line names path
    | NODE_EXPORT _ decl => compile_decl decl
    | NODE_STRUCT_DECL _ _ _ | NODE_ENUM_DECL _ _ _ => mret tt
    | _ => compile_stmt node
    end.

(** The declarations of a module, up to the first error. *)
Fixpoint compile_module_decls (decls : list AstNode) : C unit :=
  match decls with
  | [] => mret tt
  | d :: ds =>
      compile_decl (match d with NODE_EXPORT _ inner => inner | _ => d end) ;;
      failed ← gets had_error;
      if failed : bool then mret tt else compile_module_decls ds
  end.
End decls.

Fixpoint module_decls (fuel : nat) : list AstNode -> C unit :=
  match fuel with
  | O => fun _ => crash
  | S fuel => compile_module_decls (module_decls fuel)
  end.

(** The last declaration leaves its value on the stack if it has one. *)
Fixpoint program_decls (fuel : nat) (decls : list AstNode) : C unit :=
  match decls with
  | [] => mret tt
  | d :: ds =>
      match ds, d with
      | [], NODE_EXPR_STMT _ value => compile_expr value
      | [], NODE_IF _ _ _ _ => compile_if d
      | _, _ => compile_decl (module_decls fuel) d ;; program_decls fuel ds
      end
  end.
Definition compile_program (fuel : nat) (line : Z) (decls : list AstNode) : C unit :=
  program_decls fuel decls ;; emit_op OP_HALT line.

Inductive CompileResult := CompileCrash | CompileFailed (line : Z) (message : list Z) | Compiled (code : Bytecode constant).

Definition compiler_new : Compiler :=
  mkCompiler bytecode_new (mkFunctionContext None [] 0 []) None false module_cache_new None false.
Definition compiler_set_source_path (c : Compiler) (path : option (list Z)) : Compiler := (set_source_path path c).2.

Definition compiler_compile (fuel : nat) (c : Compiler) (ast : AstNode) : CompileResult :=
  let c := mkCompiler bytecode_new (mkFunctionContext None [] 0 []) (c_error c) false (module_cache c) (source_path c)
             (c_crashed c) in
  let c := (match ast with NODE_PROGRAM line decls => compile_program fuel line decls | _ => mret tt end c).2 in
  if c_crashed c then CompileCrash
  else if had_error c then CompileFailed (default 0 (fst <$> c_error c)) (default [] (snd <$> c_error c))
  else Compiled (c_code c).

End imports.
