(* ===== verification/Semantics.v ===== *)
(** * A reference semantics of functions

    What functions of numbers, truth values and other functions mean, as an
    evaluator over syntax trees that knows nothing of code, frames or slots:
    variables are looked up by name, a block ends by forgetting what it declared,
    and [break], [continue] and [return] are signals.  The compiler and the
    interpreter are proved against it.  The heap is only read: strings, arrays
    and maps, assignments to globals and builtin functions are outside of it, as is
    a computation that needs more than [room] slots of the stack or 1024 frames. *)

From Stdlib Require Import ZArith Lia String.
From stdpp Require Import base numbers list.
From S2P Require Import Prelude Float64 Hash HashMap Nanbox Value Array MapValue Strings Block Lexer Ast.
Local Open Scope string_scope.
Local Open Scope list_scope.
Local Open Scope Z_scope.

(** [Unknown]: outside of this semantics, or the fuel is used up; [Undefined]:
    undefined behaviour; [Failed]: a run-time error. *)
Inductive answer (A : Type) := Unknown | Undefined | Failed (r : VMResult) (message : string) | Done (x : A).
Arguments Unknown {A}. Arguments Undefined {A}. Arguments Failed {A}. Arguments Done {A}.

#[global] Instance answer_ret : MRet answer := fun A x => Done x.
#[global] Instance answer_bind : MBind answer := fun A B k m =>
  match m with Done x => k x | Failed r e => Failed r e | Undefined => Undefined | Unknown => Unknown end.

(** ** Operators on boxed values *)

Definition in_int64 (x : Z) : answer Z := if (- 2 ^ 63 <=? x) && (x <? 2 ^ 63) then Done x else Undefined.

Definition arithmetic (ints : Z -> Z -> answer Z) (floats : f64 -> f64 -> f64) (a b : NanValue) : answer NanValue :=
  if nanbox_is_int a && nanbox_is_int b then r ← ints (nanbox_as_int a) (nanbox_as_int b); Done (nanbox_int r)
  else if nanbox_is_number a && nanbox_is_number b then Done (nanbox_double (floats (nanbox_to_float a) (nanbox_to_float b)))
  else Failed VM_ERROR_TYPE "operands must be numbers".

(** On two objects [+] and the comparisons are about strings. *)
Definition comparison (ints : Z -> Z -> bool) (floats : f64 -> f64 -> bool) (a b : NanValue) : answer NanValue :=
  if nanbox_is_int a && nanbox_is_int b then Done (nanbox_bool (ints (nanbox_as_int a) (nanbox_as_int b)))
  else if nanbox_is_number a && nanbox_is_number b then Done (nanbox_bool (floats (nanbox_to_float a) (nanbox_to_float b)))
  else if nanbox_is_obj a && nanbox_is_obj b then Unknown
  else Failed VM_ERROR_TYPE "cannot compare these types".

Definition addition (a b : NanValue) : answer NanValue :=
  if nanbox_is_obj a || nanbox_is_obj b || (nanbox_is_nil a && nanbox_is_nil b) then Unknown
  else arithmetic (fun x y => in_int64 (x + y)) f64_add a b.

Definition division (a b : NanValue) : answer NanValue :=
  if (nanbox_is_int b && (nanbox_as_int b =? 0)) || (nanbox_is_double b && f64_eqb (nanbox_as_double b) f64_zero)
  then Failed VM_ERROR_DIVISION_BY_ZERO "division by zero"
  else arithmetic (fun x y => if y =? 0 then Undefined else in_int64 (Z.quot x y)) f64_div a b.

Definition modulo (a b : NanValue) : answer NanValue :=
  if negb (nanbox_is_int a) || negb (nanbox_is_int b) then Failed VM_ERROR_TYPE "modulo requires integers"
  else if nanbox_as_int b =? 0 then Failed VM_ERROR_DIVISION_BY_ZERO "division by zero"
  else Done (nanbox_int (Z.rem (nanbox_as_int a) (nanbox_as_int b))).

Definition equality (a b : NanValue) : answer bool :=
  if nanbox_is_obj a && nanbox_is_obj b then Unknown else Done (nanbox_equal a b).

Definition binary (op : TokenType) (a b : NanValue) : answer NanValue :=
  match op with
  | TOK_PLUS => addition a b
  | TOK_MINUS => arithmetic (fun x y => in_int64 (x - y)) f64_sub a b
  | TOK_STAR => arithmetic (fun x y => in_int64 (x * y)) f64_mul a b
  | TOK_SLASH => division a b
  | TOK_PERCENT => modulo a b
  | TOK_EQ => r ← equality a b; Done (nanbox_bool r)
  | TOK_NE => r ← equality a b; Done (nanbox_bool (negb r))
  | TOK_LT => comparison Z.ltb f64_ltb a b
  | TOK_LE => comparison Z.leb f64_leb a b
  | TOK_GT => comparison Z.gtb (fun x y => f64_ltb y x) a b
  | TOK_GE => comparison Z.geb (fun x y => f64_leb y x) a b
  | _ => Unknown
  end.

Definition unary (op : TokenType) (a : NanValue) : answer NanValue :=
  match op with
  | TOK_MINUS =>
      if nanbox_is_int a then Done (nanbox_int (- nanbox_as_int a))
      else if nanbox_is_double a then Done (nanbox_double (f64_neg (nanbox_as_double a)))
      else Failed VM_ERROR_TYPE "operand must be a number"
  | TOK_NOT => Done (nanbox_bool (negb (nanbox_is_truthy a)))
  | _ => Unknown
  end.

(** The operator of a compound assignment. *)
Definition compound (op : TokenType) : option TokenType :=
  match op with
  | TOK_PLUS_ASSIGN => Some TOK_PLUS | TOK_MINUS_ASSIGN => Some TOK_MINUS
  | TOK_STAR_ASSIGN => Some TOK_STAR | TOK_SLASH_ASSIGN => Some TOK_SLASH
  | _ => None
  end.

(** ** Environments, the oldest variable first *)

Definition env : Type := list (list Z * NanValue).

(** The position of the newest variable of a name. *)
Fixpoint position_of (name : list Z) (newest_first : list (list Z)) : option nat :=
  match newest_first with
  | n :: ns => if bool_decide (n = name) then Some (length ns) else position_of name ns
  | [] => None
  end.
Definition variable (ρ : env) (name : list Z) : option nat := position_of name (rev ρ.*1).
Definition assign (ρ : env) (i : nat) (w : NanValue) : env := alter (fun x => (x.1, w)) i ρ.

Inductive signal := Go | Break | Continue | Returned (w : NanValue).

(** ** Functions *)

(** A function of the program: its parameters and the statements of its body. *)
Record fn_def := mkFnDef { fd_params : list (list Z); fd_body : list AstNode }.

Section semantics.
(** The slots of the stack, the global variables, the function a value is, and
    the functions by their index. *)
Context (room : nat) (global : list Z -> answer NanValue) (callee : NanValue -> answer (option Function_)).
Context (program : nat -> option fn_def).

(** The value, if a slot is free for it. *)
Definition fits {A} (height : nat) (x : A) : answer A := if (height <? room)%nat then Done x else Unknown.

(** [eval] gives the value and the changed variables; [base] slots are below the
    function's variables and [t] temporaries above them; [depth] frames are in
    use. *)
Fixpoint eval (fuel : nat) (depth base t : nat) (ρ : env) (e : AstNode) {struct fuel} : answer (NanValue * env) :=
  match fuel with
  | O => Unknown
  | S fuel =>
      let put w := fits (base + length ρ + t) (w, ρ) in
      match e with
      | NODE_NIL _ => put NANBOX_NIL
      | NODE_BOOL _ b => put (nanbox_bool b)
      | NODE_INT _ i => put (nanbox_int i)
      | NODE_FLOAT _ d => put (nanbox_double d)
      | NODE_IDENT _ name =>
          match variable ρ name with
          | Some i => match ρ !! i with Some x => put x.2 | None => Unknown end
          | None => w ← global name; put w
          end
      | NODE_BINARY _ TOK_AND l r =>
          a ← eval fuel depth base t ρ l;
          if nanbox_is_truthy a.1 then eval fuel depth base t a.2 r else Done a
      | NODE_BINARY _ TOK_OR l r =>
          a ← eval fuel depth base t ρ l;
          if nanbox_is_truthy a.1 then Done a else eval fuel depth base t a.2 r
      | NODE_BINARY _ op l r =>
          a ← eval fuel depth base t ρ l; b ← eval fuel depth base (S t) a.2 r;
          w ← binary op a.1 b.1; Done (w, b.2)
      | NODE_UNARY _ op x => a ← eval fuel depth base t ρ x; w ← unary op a.1; Done (w, a.2)
      | NODE_TERNARY _ c x y =>
          a ← eval fuel depth base t ρ c;
          if nanbox_is_truthy a.1 then eval fuel depth base t a.2 x else eval fuel depth base t a.2 y
      | NODE_ASSIGN _ (NODE_IDENT l name) TOK_ASSIGN v =>
          a ← eval fuel depth base t ρ v;
          match variable ρ name with Some i => Done (a.1, assign a.2 i a.1) | None => Unknown end
      | NODE_ASSIGN _ (NODE_IDENT l name) op v =>
          old ← eval fuel depth base t ρ (NODE_IDENT l name); a ← eval fuel depth base (S t) old.2 v;
          match variable ρ name, compound op with
          | Some i, Some o => w ← binary o old.1 a.1; Done (w, assign a.2 i w)
          | _, _ => Unknown
          end
      | NODE_CALL _ f args =>
          g ← eval fuel depth base t ρ f; ws ← eval_args fuel depth base (S t) g.2 args;
          w ← call fuel depth (base + length ρ + t) g.1 ws.1; Done (w, ws.2)
      | _ => Unknown
      end
  end
with eval_args (fuel : nat) (depth base t : nat) (ρ : env) (es : list AstNode) {struct fuel} : answer (list NanValue * env) :=
  match fuel with
  | O => Unknown
  | S fuel =>
      match es with
      | [] => Done ([], ρ)
      | e :: es =>
          a ← eval fuel depth base t ρ e; ws ← eval_args fuel depth base (S t) a.2 es; Done (a.1 :: ws.1, ws.2)
      end
  end
(** A call: [base] slots are below the callee. *)
with call (fuel : nat) (depth base : nat) (f : NanValue) (args : list NanValue) {struct fuel} : answer NanValue :=
  match fuel with
  | O => Unknown
  | S fuel =>
      fn ← callee f;
      match fn with
      | None => Failed VM_ERROR_TYPE "can only call functions"
      | Some fn =>
          if negb (Z.of_nat (length args) =? fn_arity fn) then Failed VM_ERROR_ARITY "wrong number of arguments"
          else if (1024 <=? depth)%nat then Unknown
          else match program (Z.to_nat (fn_code_offset fn)) with
               | None => Unknown
               | Some d =>
                   if negb (length (fd_params d) =? length args)%nat then Unknown else
                   r ← exec_list fuel (S depth) base (([], f) :: zip (fd_params d) args) (fd_body d);
                   match r.1 with
                   | Returned w => Done w
                   | Go => fits (base + length r.2) NANBOX_NIL
                   | _ => Unknown
                   end
               end
      end
  end
with exec (fuel : nat) (depth base : nat) (ρ : env) (s : AstNode) {struct fuel} : answer (signal * env) :=
  match fuel with
  | O => Unknown
  | S fuel =>
      match s with
      | NODE_EXPR_STMT _ e => a ← eval fuel depth base 0 ρ e; Done (Go, a.2)
      | NODE_LET _ name _ e _ | NODE_CONST _ name _ e _ => a ← eval fuel depth base 0 ρ e; Done (Go, a.2 ++ [(name, a.1)])
      | NODE_BLOCK _ ss => exec_block fuel depth base ρ ss
      | NODE_IF _ c x y =>
          a ← eval fuel depth base 0 ρ c;
          if nanbox_is_truthy a.1 then exec_branch fuel depth base a.2 (Some x) else exec_branch fuel depth base a.2 y
      | NODE_WHILE _ c (NODE_BLOCK _ ss) =>
          a ← eval fuel depth base 0 ρ c;
          if nanbox_is_truthy a.1 then
            r ← exec_block fuel depth base a.2 ss;
            match r.1 with
            | Go | Continue => exec fuel depth base (take (length ρ) r.2) s
            | Break => Done (Go, take (length ρ) r.2)
            | Returned w => Done r
            end
          else Done (Go, a.2)
      | NODE_FOR _ x _ (NODE_RANGE _ first last inclusive) (NODE_BLOCK _ ss) =>
          b ← eval fuel depth base 0 ρ last;
          a ← eval fuel depth base 0 (b.2 ++ [(chars "__end", b.1)]) first;
          r ← exec_range fuel depth base inclusive ss (a.2 ++ [(x, a.1)]);
          match r.1 with Returned w => Done r | _ => Done (Go, take (length ρ) r.2) end
      | NODE_RETURN _ None => w ← fits (base + length ρ) NANBOX_NIL; Done (Returned w, ρ)
      | NODE_RETURN _ (Some e) => a ← eval fuel depth base 0 ρ e; Done (Returned a.1, a.2)
      | NODE_BREAK _ => Done (Break, ρ)
      | NODE_CONTINUE _ => Done (Continue, ρ)
      | _ => Unknown
      end
  end
with exec_list (fuel : nat) (depth base : nat) (ρ : env) (ss : list AstNode) {struct fuel} : answer (signal * env) :=
  match fuel with
  | O => Unknown
  | S fuel =>
      match ss with
      | [] => Done (Go, ρ)
      | s :: ss =>
          r ← exec fuel depth base ρ s;
          match r.1 with Go => exec_list fuel depth base r.2 ss | _ => Done r end
      end
  end
with exec_block (fuel : nat) (depth base : nat) (ρ : env) (ss : list AstNode) {struct fuel} : answer (signal * env) :=
  match fuel with
  | O => Unknown
  | S fuel =>
      r ← exec_list fuel depth base ρ ss;
      match r.1 with Go => Done (Go, take (length ρ) r.2) | _ => Done r end
  end
(** A branch, whose value is dropped; a missing one is nil. *)
with exec_branch (fuel : nat) (depth base : nat) (ρ : env) (s : option AstNode) {struct fuel} : answer (signal * env) :=
  match fuel with
  | O => Unknown
  | S fuel =>
      match s with
      | None => fits (base + length ρ) (Go, ρ)
      | Some (NODE_BLOCK _ ss) =>
          r ← exec_list fuel depth base ρ ss;
          match r.1 with Go => fits (base + length r.2) (Go, take (length ρ) r.2) | _ => Done r end
      | Some (NODE_IF l c x y) => exec fuel depth base ρ (NODE_IF l c x y)
      | _ => Unknown
      end
  end
(** The rounds of a loop over a range, whose variable and end are the newest two
    variables. *)
with exec_range (fuel : nat) (depth base : nat) (inclusive : bool) (ss : list AstNode) (ρ : env) {struct fuel} :
    answer (signal * env) :=
  match fuel with
  | O => Unknown
  | S fuel =>
      let n := (length ρ - 1)%nat in
      match ρ !! n, ρ !! (n - 1)%nat with
      | Some i, Some last =>
          fits (base + length ρ + 1) tt ;;
          more ← binary (if inclusive : bool then TOK_LE else TOK_LT) i.2 last.2;
          if nanbox_is_truthy more then
            r ← exec_block fuel depth base ρ ss;
            match r.1 with
            | Go =>
                match r.2 !! n with
                | Some i => w ← binary TOK_PLUS i.2 (nanbox_int 1); exec_range fuel depth base inclusive ss (assign r.2 n w)
                | None => Unknown
                end
            | Break => Done (Go, take (length ρ) r.2)
            | Continue => Unknown
            | Returned w => Done r
            end
          else Done (Go, ρ)
      | _, _ => Unknown
      end
  end.

End semantics.

(** Assignments keep the names. *)
Lemma names_assign (ρ : env) i w : (assign ρ i w).*1 = ρ.*1.
Proof.
  unfold assign. revert i. induction ρ as [|x ρ IH]; intros i; [done|]. destruct i as [|i]; simpl; [done|]. f_equal. apply IH.
Qed.
