(* ===== verification/TypeChecker.v ===== *)
(** * The type checker (src/lang/typechecker.c)

    A gradual type checker over syntax trees: what it cannot tell has the type
    [any].  Types are immutable values here; cloning and freeing them is left out
    but for [type_clone], which copies them.  Checking is an action on the state
    of the checker; after an error nothing more is looked at. *)

From Stdlib Require Import ZArith Lia String.
From stdpp Require Import base numbers list.
From S2P Require Import Prelude Float64 Nanbox Value Block Lexer Ast Semantics.
Local Open Scope string_scope.
Local Open Scope list_scope.
Local Open Scope Z_scope.

(** ** Types *)

Inductive Type_ :=
  | TYPE_INT | TYPE_FLOAT | TYPE_STRING | TYPE_BOOL | TYPE_VOID | TYPE_BYTES | TYPE_NIL
  | TYPE_ARRAY (elem_type : Type_)
  | TYPE_MAP (key_type value_type : Type_)
  | TYPE_OPTION (inner_type : Type_)
  | TYPE_RESULT (ok_type err_type : Type_)
  | TYPE_STRUCT (name : list Z) (fields : list (list Z * Type_))
  | TYPE_ENUM (name : list Z) (variants : list (list Z * Type_))
  | TYPE_FUNCTION (param_types : list Type_) (return_type : Type_)
  | TYPE_ANY | TYPE_UNKNOWN | TYPE_PID.

Fixpoint type_clone (t : Type_) : Type_ :=
  match t with
  | TYPE_ARRAY e => TYPE_ARRAY (type_clone e)
  | TYPE_MAP k v => TYPE_MAP (type_clone k) (type_clone v)
  | TYPE_OPTION i => TYPE_OPTION (type_clone i)
  | TYPE_RESULT o e => TYPE_RESULT (type_clone o) (type_clone e)
  | TYPE_STRUCT name fs => TYPE_STRUCT name (map (fun '(n, t) => (n, type_clone t)) fs)
  | TYPE_ENUM name vs => TYPE_ENUM name (map (fun '(n, t) => (n, type_clone t)) vs)
  | TYPE_FUNCTION ps r => TYPE_FUNCTION (map type_clone ps) (type_clone r)
  | _ => t
  end.

Fixpoint forall2b {A} (f : A -> A -> bool) (l l' : list A) : bool :=
  match l, l' with
  | [], [] => true
  | x :: l, y :: l' => f x y && forall2b f l l'
  | _, _ => false
  end.

(** Structs and enums are compared by name. *)
Fixpoint type_equals (a b : Type_) : bool :=
  match a, b with
  | TYPE_ARRAY x, TYPE_ARRAY y => type_equals x y
  | TYPE_MAP k v, TYPE_MAP k' v' => type_equals k k' && type_equals v v'
  | TYPE_OPTION x, TYPE_OPTION y => type_equals x y
  | TYPE_RESULT o e, TYPE_RESULT o' e' => type_equals o o' && type_equals e e'
  | TYPE_STRUCT n _, TYPE_STRUCT n' _ => bool_decide (n = n')
  | TYPE_ENUM n _, TYPE_ENUM n' _ => bool_decide (n = n')
  | TYPE_FUNCTION ps r, TYPE_FUNCTION ps' r' => forall2b type_equals ps ps' && type_equals r r'
  | TYPE_INT, TYPE_INT | TYPE_FLOAT, TYPE_FLOAT | TYPE_STRING, TYPE_STRING | TYPE_BOOL, TYPE_BOOL | TYPE_VOID, TYPE_VOID
  | TYPE_BYTES, TYPE_BYTES | TYPE_NIL, TYPE_NIL | TYPE_ANY, TYPE_ANY | TYPE_UNKNOWN, TYPE_UNKNOWN | TYPE_PID, TYPE_PID => true
  | _, _ => false
  end.

Definition type_assignable (to from : Type_) : bool :=
  match to, from with
  | TYPE_ANY, _ | _, TYPE_ANY => true
  | TYPE_OPTION _, TYPE_NIL => true
  | _, _ => type_equals to from
  end.

Definition separated (ts : list (list Z)) : list (list Z) := match ts with [a; b] => [a; chars ", "; b] | _ => ts end.
(** The text of a type, and whether it lies in the buffer that all calls share.
    [None] where the result is undefined: a part's text is read from the buffer
    while the whole is written there.  The buffer has room for 255 characters. *)
Definition in_buffer (parts : list (option (list Z * bool))) (render : list (list Z) -> list Z) : option (list Z * bool) :=
  texts ← mapM (fun p => '(text, shared) ← p; if shared : bool then None else Some text) parts;
  Some (take 255 (render texts), true).
Fixpoint type_to_string (t : Type_) : option (list Z * bool) :=
  let constant s := Some (chars s, false) in
  match t with
  | TYPE_INT => constant "int"
  | TYPE_FLOAT => constant "float"
  | TYPE_STRING => constant "string"
  | TYPE_BOOL => constant "bool"
  | TYPE_VOID => constant "void"
  | TYPE_BYTES => constant "bytes"
  | TYPE_NIL => constant "nil"
  | TYPE_ANY => constant "any"
  | TYPE_PID => constant "Pid"
  | TYPE_UNKNOWN => constant "?"
  | TYPE_ARRAY e => in_buffer [type_to_string e] (fun ts => chars "[" ++ concat ts ++ chars "]")
  | TYPE_MAP k v => in_buffer [type_to_string k; type_to_string v] (fun ts => chars "map<" ++ concat (separated ts) ++ chars ">")
  | TYPE_OPTION i => in_buffer [type_to_string i] (fun ts => chars "Option<" ++ concat ts ++ chars ">")
  | TYPE_RESULT o e => in_buffer [type_to_string o; type_to_string e] (fun ts => chars "Result<" ++ concat (separated ts) ++ chars ">")
  | TYPE_STRUCT name _ | TYPE_ENUM name _ => Some (name, false)
  | TYPE_FUNCTION _ r => in_buffer [type_to_string r] (fun ts => chars "fn(...) -> " ++ concat ts)
  end.
(** The message of a failed assignment; the texts of both types are taken before
    either is printed, so that two in the buffer are the same one, that of the
    type that was printed last.  Which it is the language leaves open. *)
Definition assign_message (value target : Type_) : option (list (list Z)) :=
  '(v, v_shared) ← type_to_string value; '(t, t_shared) ← type_to_string target;
  let message v t := take 511 (chars "cannot assign '" ++ v ++ chars "' to '" ++ t ++ chars "'") in
  Some (if v_shared && t_shared then [message v v; message t t] else [message v t]).

(** ** Environments *)

Record VarEntry := mkVar { ve_name : list Z; ve_type : Type_; ve_mutable : bool }.
(** The newest variable of a scope comes first. *)
Definition Scope : Type := list VarEntry.

(** The scopes from the current one outwards; there is always one. *)
Record TypeEnv := mkTypeEnv {
  current : Scope;
  parents : list Scope;
  structs : list (list Z * Type_);
  enums : list (list Z * Type_);
  funcs : list (list Z * Type_)
}.

Definition type_env_new : TypeEnv := mkTypeEnv [] [] [] [] [].
Definition type_env_push_scope (env : TypeEnv) : TypeEnv :=
  mkTypeEnv [] (current env :: parents env) (structs env) (enums env) (funcs env).
Definition type_env_pop_scope (env : TypeEnv) : TypeEnv :=
  match parents env with [] => env | s :: ps => mkTypeEnv s ps (structs env) (enums env) (funcs env) end.
Definition type_env_define (env : TypeEnv) (name : list Z) (t : Type_) (is_mutable : bool) : TypeEnv :=
  mkTypeEnv (mkVar name t is_mutable :: current env) (parents env) (structs env) (enums env) (funcs env).

Fixpoint find_var (name : list Z) (vars : list VarEntry) : option VarEntry :=
  match vars with [] => None | v :: vs => if bool_decide (ve_name v = name) then Some v else find_var name vs end.
Fixpoint find_in_scopes (name : list Z) (scopes : list Scope) : option VarEntry :=
  match scopes with
  | [] => None
  | s :: ss => match find_var name s with Some v => Some v | None => find_in_scopes name ss end
  end.
Definition type_env_lookup (env : TypeEnv) (name : list Z) : option Type_ :=
  ve_type <$> find_in_scopes name (current env :: parents env).
Definition type_env_is_mutable (env : TypeEnv) (name : list Z) : bool :=
  match find_in_scopes name (current env :: parents env) with Some v => ve_mutable v | None => false end.

Fixpoint find_type (name : list Z) (entries : list (list Z * Type_)) : option Type_ :=
  match entries with [] => None | (n, t) :: es => if bool_decide (n = name) then Some t else find_type name es end.
Definition type_env_define_struct (env : TypeEnv) (name : list Z) (t : Type_) : TypeEnv :=
  mkTypeEnv (current env) (parents env) ((name, t) :: structs env) (enums env) (funcs env).
Definition type_env_define_enum (env : TypeEnv) (name : list Z) (t : Type_) : TypeEnv :=
  mkTypeEnv (current env) (parents env) (structs env) ((name, t) :: enums env) (funcs env).
Definition type_env_define_func (env : TypeEnv) (name : list Z) (t : Type_) : TypeEnv :=
  mkTypeEnv (current env) (parents env) (structs env) (enums env) ((name, t) :: funcs env).
Definition type_env_lookup_struct (env : TypeEnv) (name : list Z) : option Type_ := find_type name (structs env).
Definition type_env_lookup_enum (env : TypeEnv) (name : list Z) : option Type_ := find_type name (enums env).
Definition type_env_lookup_func (env : TypeEnv) (name : list Z) : option Type_ := find_type name (funcs env).

(** ** Type annotations *)

Definition basic_types : list (string * Type_) :=
  [("int", TYPE_INT); ("float", TYPE_FLOAT); ("string", TYPE_STRING); ("bool", TYPE_BOOL); ("void", TYPE_VOID); ("bytes", TYPE_BYTES);
   ("Pid", TYPE_PID)].
(** A type by its name; a name that is not known means any type. *)
Definition named_type (env : TypeEnv) (name : list Z) : Type_ :=
  match find_type name ((fun '(s, t) => (chars s, t)) <$> basic_types) with
  | Some t => t
  | None =>
      match type_env_lookup_struct env name with
      | Some t => type_clone t
      | None => match type_env_lookup_enum env name with Some t => type_clone t | None => TYPE_ANY end
      end
  end.
Fixpoint type_from_node (env : TypeEnv) (node : AstNode) : Type_ :=
  match node with
  | NODE_TYPE_NAME _ name => named_type env name
  | NODE_TYPE_ARRAY _ e => TYPE_ARRAY (type_from_node env e)
  | NODE_TYPE_MAP _ k v => TYPE_MAP (type_from_node env k) (type_from_node env v)
  | NODE_TYPE_GENERIC _ name args =>
      match args with
      | [a] => if bool_decide (name = chars "Option") then TYPE_OPTION (type_from_node env a) else TYPE_ANY
      | [a; b] => if bool_decide (name = chars "Result") then TYPE_RESULT (type_from_node env a) (type_from_node env b) else TYPE_ANY
      | _ => TYPE_ANY
      end
  | NODE_TYPE_FUNC _ params ret =>
      TYPE_FUNCTION (map (type_from_node env) params) (match ret with Some r => type_from_node env r | None => TYPE_ANY end)
  | _ => TYPE_ANY
  end.
Definition type_from_ast (env : TypeEnv) (node : option AstNode) : Type_ :=
  match node with Some n => type_from_node env n | None => TYPE_ANY end.

(** ** The checker *)

(** The error: which of the messages, with its parts. *)
Inductive TypeError :=
  | NoField (struct_name field : list Z)
  | Immutable (name : list Z)
  | NotAssignable (value target : Type_)
  | InvalidProgram.

Record TypeChecker := mkChecker { tc_env : TypeEnv; error : option (Z * TypeError) }.
Definition had_error (tc : TypeChecker) : bool := bool_decide (is_Some (error tc)).
Definition typechecker_new : TypeChecker := mkChecker type_env_new None.

(** Actions of the checker. *)
Definition T (A : Type) : Type := TypeChecker -> A * TypeChecker.
#[global] Instance T_ret : MRet T := fun A x tc => (x, tc).
#[global] Instance T_bind : MBind T := fun A B k m tc => let '(x, tc) := m tc in k x tc.

Definition with_env (f : TypeEnv -> TypeEnv) : T unit := fun tc => (tt, mkChecker (f (tc_env tc)) (error tc)).
Definition get_env : T TypeEnv := fun tc => (tc_env tc, tc).
Definition tc_error (line : Z) (e : TypeError) : T unit := fun tc =>
  (tt, if had_error tc then tc else mkChecker (tc_env tc) (Some (line, e))).
(** Nothing is checked after an error. *)
Definition unless_failed {A} (dflt : A) (m : T A) : T A := fun tc => if had_error tc then (dflt, tc) else m tc.

Definition is_comparison (op : TokenType) : bool :=
  match op with TOK_EQ | TOK_NE | TOK_LT | TOK_LE | TOK_GT | TOK_GE => true | _ => false end.
Definition is_logical (op : TokenType) : bool := match op with TOK_AND | TOK_OR => true | _ => false end.
Definition is_arithmetic (op : TokenType) : bool :=
  match op with TOK_PLUS | TOK_MINUS | TOK_STAR | TOK_SLASH | TOK_PERCENT => true | _ => false end.

Definition binary_type (op : TokenType) (left right : Type_) : Type_ :=
  if is_comparison op then TYPE_BOOL
  else if is_logical op then TYPE_BOOL
  else if is_arithmetic op then
    match op, left, right with
    | TOK_PLUS, TYPE_STRING, _ => TYPE_STRING
    | _, TYPE_FLOAT, _ | _, _, TYPE_FLOAT => TYPE_FLOAT
    | _, _, _ => TYPE_INT
    end
  else TYPE_ANY.

Section elements.
Context (check : AstNode -> T Type_).
(** The elements behind the first one, of type [t]; they are not checked any
    more behind one of another type. *)
Fixpoint check_elements (t : Type_) (es : list AstNode) : T (option Type_) :=
  match es with
  | [] => mret (Some t)
  | e :: es => t' ← check e; if type_equals t t' then check_elements t es else mret None
  end.
Definition common_type (es : list AstNode) : T Type_ :=
  match es with
  | [] => mret TYPE_ANY
  | e :: es => t ← check e; r ← check_elements t es; mret (match r with Some t => t | None => TYPE_ANY end)
  end.
Fixpoint check_all (es : list AstNode) : T unit :=
  match es with [] => mret tt | e :: es => check e ;; check_all es end.
(** The value of a match is that of its first arm. *)
Definition check_first_arm (arms : list AstNode) : T Type_ :=
  match arms with
  | NODE_MATCH_ARM _ _ _ _ body :: _ => check body
  | _ => mret TYPE_ANY
  end.
End elements.

Definition field_type (line : Z) (field : list Z) (object : Type_) : T Type_ :=
  match object with
  | TYPE_STRUCT name fields =>
      match find_type field fields with
      | Some t => mret (type_clone t)
      | None => tc_error line (NoField name field) ;; mret TYPE_ANY
      end
  | _ => mret TYPE_ANY
  end.
Definition index_type (object : Type_) : Type_ :=
  match object with TYPE_ARRAY e => type_clone e | TYPE_MAP _ v => type_clone v | _ => TYPE_ANY end.
Definition ident_type (env : TypeEnv) (name : list Z) : Type_ :=
  match type_env_lookup env name with
  | Some t => type_clone t
  | None => match type_env_lookup_func env name with Some t => type_clone t | None => TYPE_ANY end
  end.

Fixpoint check_expr (node : AstNode) : T Type_ :=
  unless_failed TYPE_ANY
    match node with
    | NODE_INT _ _ => mret TYPE_INT
    | NODE_FLOAT _ _ => mret TYPE_FLOAT
    | NODE_STRING _ _ => mret TYPE_STRING
    | NODE_BOOL _ _ => mret TYPE_BOOL
    | NODE_NIL _ => mret TYPE_NIL
    | NODE_NONE _ => mret (TYPE_OPTION TYPE_ANY)
    | NODE_SOME _ v => t ← check_expr v; mret (TYPE_OPTION t)
    | NODE_IDENT _ name => env ← get_env; mret (ident_type env name)
    | NODE_ARRAY _ es => t ← common_type check_expr es; mret (TYPE_ARRAY t)
    | NODE_MAP _ _ vs => t ← common_type check_expr vs; mret (TYPE_MAP TYPE_STRING t)
    | NODE_BINARY _ op l r => a ← check_expr l; b ← check_expr r; mret (binary_type op a b)
    | NODE_UNARY _ op x => t ← check_expr x; mret (match op with TOK_NOT => TYPE_BOOL | _ => t end)
    | NODE_CALL _ f args =>
        t ← check_expr f; check_all check_expr args ;;
        mret (match t with TYPE_FUNCTION _ r => type_clone r | _ => TYPE_ANY end)
    | NODE_MEMBER line o field => t ← check_expr o; field_type line field t
    | NODE_INDEX _ o i => t ← check_expr o; check_expr i ;; mret (index_type t)
    | NODE_TERNARY _ c x y =>
        check_expr c ;; a ← check_expr x; b ← check_expr y; mret (if type_equals a b then a else TYPE_ANY)
    | NODE_RESULT_OK _ v => t ← check_expr v; mret (TYPE_RESULT t TYPE_ANY)
    | NODE_RESULT_ERR _ v => t ← check_expr v; mret (TYPE_RESULT TYPE_ANY t)
    | NODE_TRY _ e => t ← check_expr e; mret (match t with TYPE_RESULT ok _ => type_clone ok | _ => TYPE_ANY end)
    | NODE_MATCH _ e arms => check_expr e ;; check_first_arm check_expr arms
    | NODE_ASSIGN line target _ v =>
        to ← check_expr target; from ← check_expr v; env ← get_env;
        match target with
        | NODE_IDENT _ name => if type_env_is_mutable env name then mret tt else tc_error line (Immutable name)
        | _ => mret tt
        end ;;
        (if type_assignable to from then mret tt else tc_error line (NotAssignable from to)) ;; mret from
    | _ => mret TYPE_ANY
    end.

Definition scoped (m : T unit) : T unit := with_env type_env_push_scope ;; m ;; with_env type_env_pop_scope.
Definition define (name : list Z) (t : Type_) (is_mutable : bool) : T unit :=
  with_env (fun env => type_env_define env name t is_mutable).

(** [let] and [const]; [is_mutable] only counts for the former. *)
Definition check_var_decl (line : Z) (name : list Z) (type_ann : option AstNode) (value : AstNode) (is_mutable : bool) : T unit :=
  env ← get_env; from ← check_expr value;
  match type_ann with
  | Some ann =>
      let to := type_from_node env ann in
      (if type_assignable to from then mret tt else tc_error line (NotAssignable from to)) ;; define name to is_mutable
  | None => define name from is_mutable
  end.

Section statements.
Context (check : AstNode -> T unit).
Fixpoint check_each (ss : list AstNode) : T unit := match ss with [] => mret tt | s :: ss => check s ;; check_each ss end.
End statements.

Fixpoint check_stmt (node : AstNode) : T unit :=
  unless_failed tt
    match node with
    | NODE_LET line name ann v m => check_var_decl line name ann v m
    | NODE_CONST line name ann v _ => check_var_decl line name ann v false
    | NODE_IF _ c x y =>
        check_expr c ;; scoped (check_stmt x) ;; match y with Some y => scoped (check_stmt y) | None => mret tt end
    | NODE_WHILE _ c b => check_expr c ;; scoped (check_stmt b)
    | NODE_FOR _ var index_var it b =>
        scoped (t ← check_expr it; define var (match t with TYPE_ARRAY e => type_clone e | _ => TYPE_ANY end) false ;;
                match index_var with Some i => define i TYPE_INT false | None => mret tt end ;; check_stmt b)
    | NODE_RETURN _ (Some v) => check_expr v ;; mret tt
    | NODE_BLOCK _ ss => check_each check_stmt ss
    | NODE_EXPR_STMT _ e => check_expr e ;; mret tt
    | _ => mret tt
    end.

(** ** Declarations *)

Definition field_entry (env : TypeEnv) (node : AstNode) : list Z * Type_ :=
  match node with
  | NODE_STRUCT_FIELD _ name ann | NODE_ENUM_VARIANT _ name ann | NODE_PARAM _ name ann => (name, type_from_ast env ann)
  | _ => ([], TYPE_ANY)
  end.
Definition check_fn (name : list Z) (params : list AstNode) (ret : option AstNode) (body : AstNode) : T unit :=
  env ← get_env;
  with_env (fun e => type_env_define_func e name (TYPE_FUNCTION (map (fun p => (field_entry env p).2) params) (type_from_ast env ret))) ;;
  scoped (check_each (fun p => env ← get_env; let '(n, t) := field_entry env p in define n t false) params ;; check_stmt body).

Fixpoint check_decl (node : AstNode) : T unit :=
  unless_failed tt
    match node with
    | NODE_STRUCT_DECL _ name fields => with_env (fun env => type_env_define_struct env name (TYPE_STRUCT name (field_entry env <$> fields)))
    | NODE_ENUM_DECL _ name variants => with_env (fun env => type_env_define_enum env name (TYPE_ENUM name (field_entry env <$> variants)))
    | NODE_TYPE_ALIAS _ _ _ => mret tt
    | NODE_FN_DECL _ name params ret body _ _ | NODE_TOOL_DECL _ name params ret body _ _ => check_fn name params ret body
    | NODE_EXPORT _ d => check_decl d
    | NODE_IMPORT _ _ | NODE_IMPORT_FROM _ _ _ => mret tt
    | _ => check_stmt node
    end.

Definition declares (node : AstNode) : bool :=
  match node with NODE_STRUCT_DECL _ _ _ | NODE_ENUM_DECL _ _ _ | NODE_FN_DECL _ _ _ _ _ _ _ | NODE_TOOL_DECL _ _ _ _ _ _ _ => true | _ => false end.
(** The declarations of the first pass, exported or not; the second pass takes
    everything that does not declare by itself, so exported ones again. *)
Definition first_pass (node : AstNode) : bool := declares node || match node with NODE_EXPORT _ d => declares d | _ => false end.
Definition succeeded : T bool := fun tc => (negb (had_error tc), tc).
Definition typechecker_check (program : AstNode) : T bool :=
  match program with
  | NODE_PROGRAM _ decls =>
      check_each check_decl (List.filter first_pass decls) ;; check_each check_decl (List.filter (fun d => negb (declares d)) decls) ;;
      succeeded
  | _ => tc_error 0 InvalidProgram ;; mret false
  end.
(** Whether a program is accepted. *)
Definition accepted (program : AstNode) : bool := (typechecker_check program typechecker_new).1.

(** ** Expressions leave the environment alone *)

Definition extends (tc tc' : TypeChecker) : Prop := tc_env tc' = tc_env tc /\ (error tc' = None -> error tc = None).
Definition extending {A} (m : T A) : Prop := forall tc, extends tc (m tc).2.
Create HintDb extending.

Lemma extending_ret {A} (x : A) : extending (mret x).
Proof. by intros tc. Qed.
Lemma extending_bind {A B} (m : T A) (k : A -> T B) : extending m -> (forall x, extending (k x)) -> extending (m ≫= k).
Proof.
  intros Hm Hk tc. unfold mbind, T_bind. specialize (Hm tc). destruct (m tc) as [x tc1]. specialize (Hk x tc1).
  destruct Hm as [E1 H1], Hk as [E2 H2]. split; [by rewrite E2|auto].
Qed.
Lemma extending_error line e : extending (tc_error line e).
Proof.
  intros tc. unfold tc_error, had_error. split; simpl; [by destruct (bool_decide _)|]. destruct (error tc) as [x|] eqn:E; [|done].
  by rewrite bool_decide_true, E by eauto.
Qed.
Lemma extending_unless {A} (x : A) m : extending m -> extending (unless_failed x m).
Proof. intros H tc. unfold unless_failed. destruct (had_error tc); [done|apply H]. Qed.
Lemma extending_get_env : extending get_env.
Proof. by intros tc. Qed.
#[export] Hint Resolve extending_ret extending_bind extending_error extending_unless extending_get_env : extending.

Lemma extending_elements check es : Forall (fun e => extending (check e)) es ->
  (forall t, extending (check_elements check t es)) /\ extending (check_all check es).
Proof.
  induction 1 as [|e es He Hes IH]; simpl; [auto with extending|]. destruct IH as [IH1 IH2].
  split; [intros t|]; apply extending_bind; auto. intros t'. destruct (type_equals t t'); auto with extending.
Qed.
Lemma extending_common check es : Forall (fun e => extending (check e)) es -> extending (common_type check es).
Proof.
  intros [|e es' He Hes]; simpl; [auto with extending|]. apply extending_bind; [done|]. intros t.
  apply extending_bind; [by apply extending_elements|auto with extending].
Qed.

Lemma check_expr_extends : forall e, extending (check_expr e).
Proof.
  fix IH 1. intros e. assert (IHs : forall es : list AstNode, Forall (fun e => extending (check_expr e)) es) by (induction es; constructor; auto).
  destruct e; simpl; apply extending_unless; auto with extending;
    try (apply extending_bind; [auto|]; intros; auto with extending; fail).
  - apply extending_bind; [auto|intros t]. apply extending_bind; [by apply extending_elements|auto with extending].
  - apply extending_bind; [auto|intros t]. unfold field_type. destruct t; auto with extending. destruct (find_type _ _); auto with extending.
  - apply extending_bind; [auto|intros to]. apply extending_bind; [auto|intros from]. apply extending_bind; [auto with extending|intros env].
    apply extending_bind; [destruct e1; auto with extending; destruct (type_env_is_mutable _ _); auto with extending|intros _].
    apply extending_bind; [destruct (type_assignable _ _); auto with extending|auto with extending].
  - apply extending_bind; [by apply extending_common|auto with extending].
  - apply extending_bind; [by apply extending_common|auto with extending].
  - apply extending_bind; [auto|intros _]. destruct arms as [|[]]; simpl; auto with extending.
Qed.

(** ** Soundness

    [infers env e t]: without an error, [e] has the type [t]. *)
Definition infers (env : TypeEnv) (e : AstNode) (t : Type_) : Prop := check_expr e (mkChecker env None) = (t, mkChecker env None).

(** Running the parts of a check that ends without an error. *)
Lemma ran_bind {A B} (m : T A) (k : A -> T B) env y : extending m -> (forall x, extending (k x)) ->
  (m ≫= k) (mkChecker env None) = (y, mkChecker env None) ->
  exists x, m (mkChecker env None) = (x, mkChecker env None) /\ k x (mkChecker env None) = (y, mkChecker env None).
Proof.
  intros Hm Hk. unfold mbind, T_bind. specialize (Hm (mkChecker env None)). destruct (m (mkChecker env None)) as [x [env1 err1]].
  destruct Hm as [E1 _]. simpl in E1. subst env1. intros E. specialize (Hk x (mkChecker env err1)). rewrite E in Hk.
  destruct Hk as [_ H]. simpl in H. rewrite (H eq_refl) in *. by exists x.
Qed.

(** What the checker knows about a value of a type; it promises nothing about
    values whose type is not one of these. *)
Definition has_type (w : NanValue) (t : Type_) : Prop :=
  match t with
  | TYPE_INT => nanbox_is_int w = true
  | TYPE_BOOL => nanbox_is_bool w = true
  | TYPE_NIL => nanbox_is_nil w = true
  | _ => True
  end.

Definition numeric (t : Type_) : bool := match t with TYPE_INT | TYPE_FLOAT => true | _ => false end.
Definition is_bool (t : Type_) : bool := match t with TYPE_BOOL => true | _ => false end.
Definition is_any (t : Type_) : bool := match t with TYPE_ANY => true | _ => false end.
Definition type_in (env : TypeEnv) (e : AstNode) : Type_ := (check_expr e (mkChecker env None)).1.

Lemma is_bool_eq t : is_bool t = true -> t = TYPE_BOOL.
Proof. by destruct t. Qed.

(** The expressions for which the checker keeps its promise: literals, variables,
    [not] and minus, comparisons, arithmetic on operands of type int or float, [and]
    and [or] of operands of type bool, conditional expressions, assignments to a
    variable of a value whose type is not any (both of type int or float for a
    compound assignment), and calls whose type is any. *)
Fixpoint definite (env : TypeEnv) (e : AstNode) : bool :=
  match e with
  | NODE_INT _ _ | NODE_FLOAT _ _ | NODE_BOOL _ _ | NODE_NIL _ | NODE_IDENT _ _ => true
  | NODE_BINARY _ op l r =>
      definite env l && definite env r &&
      (if is_arithmetic op then numeric (type_in env l) && numeric (type_in env r)
       else if is_logical op then is_bool (type_in env l) && is_bool (type_in env r) else true)
  | NODE_UNARY _ _ x => definite env x
  | NODE_TERNARY _ c x y => definite env c && definite env x && definite env y
  | NODE_ASSIGN _ (NODE_IDENT l name) op v =>
      definite env v && negb (is_any (type_in env v)) &&
      match op with TOK_ASSIGN => true | _ => numeric (ident_type env name) && numeric (type_in env v) end
  | NODE_CALL _ f args => definite env f && forallb (definite env) args && is_any (type_in env e)
  | _ => false
  end.

(** *** Operators *)

Lemma int_boxed i : nanbox_is_int (nanbox_int i) = true.
Proof.
  rewrite is_int_tag, nanbox_int_word; [|unfold is_u64; rewrite nanbox_int_word]; pose proof (Z.mod_pos_bound i (2 ^ 48) ltac:(lia)); dlia.
Qed.
Lemma bool_boxed b : nanbox_is_bool (nanbox_bool b) = true.
Proof. by destruct b. Qed.

Lemma arithmetic_int ints floats a b w : nanbox_is_int a = true -> nanbox_is_int b = true ->
  arithmetic ints floats a b = Done w -> nanbox_is_int w = true.
Proof.
  intros Ha Hb. unfold arithmetic. rewrite Ha, Hb. simpl. unfold mbind, answer_bind. destruct (ints _ _); intros [= <-]. apply int_boxed.
Qed.
Lemma comparison_bool ints floats a b w : comparison ints floats a b = Done w -> nanbox_is_bool w = true.
Proof. unfold comparison. repeat case_match; intros [= <-]; apply bool_boxed. Qed.

Lemma binary_sound op a b w ta tb : binary op a b = Done w -> has_type a ta -> has_type b tb -> is_logical op = false ->
  (is_arithmetic op = true -> numeric ta = true /\ numeric tb = true) -> has_type w (binary_type op ta tb).
Proof.
  intros E Ha Hb Hl Hn. destruct op; try discriminate Hl; simpl in E; try discriminate E.
  all: try (unfold equality, mbind, answer_bind in E; repeat case_match; simplify_eq; apply bool_boxed).
  all: try (apply (comparison_bool _ _ _ _ _ E)).
  all: destruct (Hn eq_refl) as [Hta Htb]; destruct ta; try discriminate Hta; destruct tb; try discriminate Htb; simpl; try done; simpl in Ha, Hb.
  - unfold addition in E. case_match; [discriminate E|]. by apply (arithmetic_int _ _ _ _ _ Ha Hb E).
  - by apply (arithmetic_int _ _ _ _ _ Ha Hb E).
  - by apply (arithmetic_int _ _ _ _ _ Ha Hb E).
  - unfold division in E. case_match; [discriminate E|]. by apply (arithmetic_int _ _ _ _ _ Ha Hb E).
  - unfold modulo in E. repeat case_match; simplify_eq. apply int_boxed.
Qed.
Lemma unary_sound op a w t : unary op a = Done w -> has_type a t -> has_type w (match op with TOK_NOT => TYPE_BOOL | _ => t end).
Proof.
  intros E Ha. destruct op; simpl in E; try discriminate E; [by injection E as <-; apply bool_boxed|].
  destruct t; try done; simpl in *.
  - rewrite Ha in E. injection E as <-. apply int_boxed.
  - unfold nanbox_is_bool in Ha. apply orb_true_iff in Ha as [Ha%Z.eqb_eq|Ha%Z.eqb_eq]; by rewrite Ha in E.
  - unfold nanbox_is_nil in Ha. apply Z.eqb_eq in Ha. by rewrite Ha in E.
Qed.

(** *** Expressions *)

Section soundness.
Context (room : nat) (global : list Z -> answer NanValue) (callee : NanValue -> answer (option Function_)) (program : nat -> option fn_def).
Context (Γ : TypeEnv).

(** The variables, local and global, have the types that the checker takes
    them to have. *)
Definition agrees (ρ : env) : Prop := forall name,
  match variable ρ name with
  | Some i => forall x, ρ !! i = Some x -> has_type x.2 (ident_type Γ name)
  | None => forall w, global name = Done w -> has_type w (ident_type Γ name)
  end.

Lemma lookup_assign (ρ : env) i w j : assign ρ i w !! j = if decide (i = j) then (fun x => (x.1, w)) <$> ρ !! j else ρ !! j.
Proof. unfold assign. case_decide as H; [rewrite <- H; apply list_lookup_alter_eq|by apply list_lookup_alter_ne]. Qed.
Lemma variable_names (ρ ρ' : env) name : ρ'.*1 = ρ.*1 -> variable ρ' name = variable ρ name.
Proof. intros H. unfold variable. by rewrite H. Qed.
(** Different names are different variables. *)
Lemma position_name ns : forall name i, position_of name ns = Some i -> rev ns !! i = Some name.
Proof.
  induction ns as [|n ns IH]; intros name i; simpl; [done|]. case_bool_decide as Hn.
  - intros [= <-]. subst. rewrite lookup_app_r by (rewrite length_rev; lia). by rewrite length_rev, Nat.sub_diag.
  - intros E%IH. by apply lookup_app_l_Some.
Qed.
Lemma variable_name (ρ : env) name i : variable ρ name = Some i -> ρ.*1 !! i = Some name.
Proof. intros E%position_name. by rewrite rev_involutive in E. Qed.

Lemma agrees_assign ρ i w name : agrees ρ -> variable ρ name = Some i -> has_type w (ident_type Γ name) -> agrees (assign ρ i w).
Proof.
  intros H Hi Hw n. specialize (H n). rewrite (variable_names _ (assign ρ i w)) by apply names_assign.
  destruct (variable ρ n) as [j|] eqn:Hj; [|done]. intros x. rewrite lookup_assign. destruct (decide (i = j)) as [<-|Hij]; [|apply H].
  destruct (ρ !! i); intros [= <-]. simpl. apply variable_name in Hi. apply variable_name in Hj. rewrite Hi in Hj. by injection Hj as <-.
Qed.

Lemma has_type_equals w a b : type_equals a b = true -> has_type w b -> has_type w a.
Proof. by destruct a, b. Qed.
Lemma has_type_assignable w to from : type_assignable to from = true -> is_any from = false -> has_type w from -> has_type w to.
Proof. destruct to; try done; destruct from; done. Qed.

Notation start := (mkChecker Γ None).
Lemma unless_ok {A} (x : A) m : unless_failed x m start = m start.
Proof. done. Qed.
Ltac inverted H := unfold infers in H; simpl in H; rewrite unless_ok in H.

Lemma infers_binary l op x y t : infers Γ (NODE_BINARY l op x y) t ->
  exists a b, infers Γ x a /\ infers Γ y b /\ t = binary_type op a b /\ type_in Γ x = a /\ type_in Γ y = b.
Proof.
  intros H. inverted H. apply ran_bind in H as (a & Ea & H); [|apply check_expr_extends|intros; auto using check_expr_extends with extending].
  apply ran_bind in H as (b & Eb & H); [|apply check_expr_extends|intros; auto with extending]. injection H as <-.
  exists a, b. unfold type_in. by rewrite Ea, Eb.
Qed.
Lemma infers_unary l op x t : infers Γ (NODE_UNARY l op x) t -> exists a, infers Γ x a /\ t = match op with TOK_NOT => TYPE_BOOL | _ => a end.
Proof.
  intros H. inverted H. apply ran_bind in H as (a & Ea & H); [|apply check_expr_extends|intros; auto with extending]. injection H as <-. by exists a.
Qed.
Lemma infers_ternary l c x y t : infers Γ (NODE_TERNARY l c x y) t ->
  exists a b, (exists tc, infers Γ c tc) /\ infers Γ x a /\ infers Γ y b /\ t = if type_equals a b then a else TYPE_ANY.
Proof.
  intros H. inverted H. apply ran_bind in H as (tc & Ec & H); [|apply check_expr_extends|intros; auto using check_expr_extends with extending].
  apply ran_bind in H as (a & Ea & H); [|apply check_expr_extends|intros; auto using check_expr_extends with extending].
  apply ran_bind in H as (b & Eb & H); [|apply check_expr_extends|intros; auto with extending]. injection H as <-.
  exists a, b. by split_and!; [exists tc|..].
Qed.
Lemma infers_assign l l' name op v t : infers Γ (NODE_ASSIGN l (NODE_IDENT l' name) op v) t ->
  infers Γ v t /\ type_in Γ v = t /\ type_assignable (ident_type Γ name) t = true.
Proof.
  intros H. inverted H.
  apply ran_bind in H as (to & Eto & H); [|auto with extending|intros; repeat (apply extending_bind; [auto using check_expr_extends with extending|intros]);
    repeat case_match; auto with extending].
  rewrite unless_ok in Eto. injection Eto as <-.
  apply ran_bind in H as (from & Ev & H); [|apply check_expr_extends|intros; repeat (apply extending_bind; [auto with extending; repeat case_match; auto with extending|intros]);
    auto with extending].
  assert (Hr : t = from /\ type_assignable (ident_type Γ name) from = true).
  { apply ran_bind in H as (env & E & H); [|auto with extending|intros; repeat (apply extending_bind; [repeat case_match; auto with extending|intros]); auto with extending].
    injection E as <-. apply ran_bind in H as (? & _ & H);
      [|repeat case_match; auto with extending|intros; repeat (apply extending_bind; [repeat case_match; auto with extending|intros]); auto with extending].
    apply ran_bind in H as (? & E & H); [|repeat case_match; auto with extending|intros; auto with extending]. injection H as <-.
    split; [done|]. destruct (type_assignable (ident_type Γ name) from); [done|]. discriminate E. }
  destruct Hr as [-> Ha]. split_and!; [done| |done]. unfold type_in. by rewrite Ev.
Qed.
Lemma infers_all es u : check_all check_expr es start = (u, start) -> Forall (fun e => exists t, infers Γ e t) es.
Proof.
  revert u. induction es as [|e es IH]; intros u H; [constructor|]. simpl in H.
  apply ran_bind in H as (t & Et & H); [|apply check_expr_extends|intros; apply extending_elements, Forall_true, check_expr_extends].
  constructor; [by exists t|by eapply IH].
Qed.
Lemma infers_call l f args t : infers Γ (NODE_CALL l f args) t -> (exists tf, infers Γ f tf) /\ Forall (fun e => exists t, infers Γ e t) args.
Proof.
  intros H. inverted H. pose proof (fun es => proj2 (extending_elements check_expr es (Forall_true _ _ check_expr_extends))) as Hall.
  apply ran_bind in H as (tf & Ef & H); [|apply check_expr_extends|intros; auto with extending].
  apply ran_bind in H as (u & Eu & H); [|auto|intros; auto with extending]. split; [by exists tf|by eapply infers_all].
Qed.

(** What an evaluation does: a value of the type, and variables that agree. *)
Definition sound_result (ρ : env) (t : Type_) (r : NanValue * env) : Prop := has_type r.1 t /\ agrees r.2 /\ r.2.*1 = ρ.*1.
Definition sound_at (fuel : nat) : Prop :=
  (forall depth base n ρ e t r, definite Γ e = true -> infers Γ e t -> agrees ρ ->
     eval room global callee program fuel depth base n ρ e = Done r -> sound_result ρ t r) /\
  (forall depth base n ρ es r, forallb (definite Γ) es = true -> Forall (fun e => exists t, infers Γ e t) es -> agrees ρ ->
     eval_args room global callee program fuel depth base n ρ es = Done r -> agrees r.2 /\ r.2.*1 = ρ.*1).

Lemma done_bind {A B} (m : answer A) (k : A -> answer B) y : (m ≫= k) = Done y -> exists x, m = Done x /\ k x = Done y.
Proof. destruct m; simpl; try done. eauto. Qed.
Lemma fits_done {A} n (x y : A) : fits room n x = Done y -> y = x.
Proof. unfold fits. case_match; by intros [= <-]. Qed.

Section cases.
Context (fuel depth base n : nat) (IH : sound_at fuel).
Notation eval_S := (eval room global callee program (S fuel) depth base n).

Lemma sound_binary l op x y t ρ r : definite Γ (NODE_BINARY l op x y) = true -> infers Γ (NODE_BINARY l op x y) t -> agrees ρ ->
  eval_S ρ (NODE_BINARY l op x y) = Done r -> sound_result ρ t r.
Proof.
  destruct IH as [IHe _]. intros Hdef Hi Ha E. destruct (infers_binary _ _ _ _ _ Hi) as (a & b & Hx & Hy & -> & Tx & Ty).
  simpl in Hdef. apply andb_true_iff in Hdef as [[Dx Dy]%andb_true_iff Hop]. rewrite Tx, Ty in Hop.
  destruct (is_logical op) eqn:Hl.
  - assert (Hb : a = TYPE_BOOL /\ b = TYPE_BOOL /\ binary_type op a b = TYPE_BOOL).
    { destruct op; try discriminate Hl; apply andb_true_iff in Hop as [->%is_bool_eq ->%is_bool_eq]; done. }
    destruct Hb as (-> & -> & ->).
    destruct op; try discriminate Hl; simpl in E; apply done_bind in E as (w & Ew & E);
      destruct (IHe _ _ _ _ _ _ _ Dx Hx Ha Ew) as (Hw & Hwa & Hwn); destruct (nanbox_is_truthy w.1);
      try (injection E as <-; by split_and!); destruct (IHe _ _ _ _ _ _ _ Dy Hy Hwa E) as (H1 & H2 & H3); (split_and!; [done|done|congruence]).
  - assert (E' : (w ← eval room global callee program fuel depth base n ρ x;
                  v ← eval room global callee program fuel depth base (S n) w.2 y; u ← binary op w.1 v.1; Done (u, v.2)) = Done r)
      by (destruct op; try discriminate Hl; exact E).
    apply done_bind in E' as (w & Ew & E'). destruct (IHe _ _ _ _ _ _ _ Dx Hx Ha Ew) as (Hw & Hwa & Hwn).
    apply done_bind in E' as (v & Ev & E'). destruct (IHe _ _ _ _ _ _ _ Dy Hy Hwa Ev) as (Hv & Hva & Hvn).
    apply done_bind in E' as (u & Eu & E'). injection E' as <-. split_and!; [|done|simpl; congruence]. simpl.
    eapply binary_sound; [done..|]. intros Har. rewrite Har in Hop. by apply andb_true_iff in Hop.
Qed.

Lemma sound_unary l op x t ρ r : definite Γ (NODE_UNARY l op x) = true -> infers Γ (NODE_UNARY l op x) t -> agrees ρ ->
  eval_S ρ (NODE_UNARY l op x) = Done r -> sound_result ρ t r.
Proof.
  destruct IH as [IHe _]. intros Hdef Hi Ha E. destruct (infers_unary _ _ _ _ Hi) as (a & Hx & ->). simpl in E, Hdef.
  apply done_bind in E as (w & Ew & E). destruct (IHe _ _ _ _ _ _ _ Hdef Hx Ha Ew) as (Hw & Hwa & Hwn).
  apply done_bind in E as (u & Eu & E). injection E as <-. split_and!; [|done|done]. by eapply unary_sound.
Qed.

Lemma sound_ternary l c x y t ρ r : definite Γ (NODE_TERNARY l c x y) = true -> infers Γ (NODE_TERNARY l c x y) t -> agrees ρ ->
  eval_S ρ (NODE_TERNARY l c x y) = Done r -> sound_result ρ t r.
Proof.
  destruct IH as [IHe _]. intros Hdef Hi Ha E. destruct (infers_ternary _ _ _ _ _ Hi) as (a & b & (tc & Hc) & Hx & Hy & ->).
  simpl in Hdef. apply andb_true_iff in Hdef as [[Dc Dx]%andb_true_iff Dy]. simpl in E.
  apply done_bind in E as (w & Ew & E). destruct (IHe _ _ _ _ _ _ _ Dc Hc Ha Ew) as (_ & Hwa & Hwn).
  destruct (nanbox_is_truthy w.1).
  - destruct (IHe _ _ _ _ _ _ _ Dx Hx Hwa E) as (H1 & H2 & H3). split_and!; [by destruct (type_equals a b)|done|congruence].
  - destruct (IHe _ _ _ _ _ _ _ Dy Hy Hwa E) as (H1 & H2 & H3). split_and!; [|done|congruence].
    destruct (type_equals a b) eqn:Et; [by eapply has_type_equals|done].
Qed.

Lemma sound_ident l name t ρ r : infers Γ (NODE_IDENT l name) t -> agrees ρ -> eval_S ρ (NODE_IDENT l name) = Done r -> sound_result ρ t r.
Proof.
  intros Hi Ha E. assert (t = ident_type Γ name) as -> by (inverted Hi; by injection Hi as <-). pose proof (Ha name) as Hn. simpl in E.
  destruct (variable ρ name) as [i|].
  - destruct (ρ !! i) as [x|] eqn:Hx; [|done]. apply fits_done in E as ->. split_and!; [by apply Hn|done|done].
  - apply done_bind in E as (w & Ew & E). apply fits_done in E as ->. split_and!; [by apply Hn|done|done].
Qed.

Lemma sound_call l f args t ρ r : definite Γ (NODE_CALL l f args) = true -> infers Γ (NODE_CALL l f args) t -> agrees ρ ->
  eval_S ρ (NODE_CALL l f args) = Done r -> sound_result ρ t r.
Proof.
  destruct IH as [IHe IHa]. intros Hdef Hi Ha E. destruct (infers_call _ _ _ _ Hi) as [[tf Hf] Hargs].
  cbn [definite] in Hdef. apply andb_true_iff in Hdef as [[Df Dargs]%andb_true_iff Hany].
  unfold type_in in Hany. rewrite Hi in Hany. simpl in Hany. cbn [eval] in E.
  apply done_bind in E as (g & Eg & E). destruct (IHe _ _ _ _ _ _ _ Df Hf Ha Eg) as (_ & Hga & Hgn).
  apply done_bind in E as (ws & Ews & E). destruct (IHa _ _ _ _ _ _ Dargs Hargs Hga Ews) as (Hwa & Hwn).
  apply done_bind in E as (w & Ew & E). injection E as <-. split_and!; [by destruct t|done|simpl; congruence].
Qed.

(** Whatever is assigned has the type of the variable. *)
Lemma sound_store l l' name op v t ρ ρ' i w : infers Γ (NODE_ASSIGN l (NODE_IDENT l' name) op v) t -> is_any t = false ->
  has_type w t -> agrees ρ' -> ρ'.*1 = ρ.*1 -> variable ρ name = Some i -> sound_result ρ t (w, assign ρ' i w).
Proof.
  intros Hi Hany Hw Ha Hn Hv. destruct (infers_assign _ _ _ _ _ _ Hi) as (_ & _ & Hass). split_and!; [done| |simpl; by rewrite names_assign].
  eapply agrees_assign; [done|by rewrite (variable_names ρ)|]. by eapply has_type_assignable.
Qed.

Lemma compound_type op o t : compound op = Some o -> numeric t = true -> binary_type o t t = t /\ is_logical o = false /\ op <> TOK_ASSIGN.
Proof. destruct op; intros [= <-]; by destruct t. Qed.
Lemma numeric_assignable t t' : type_assignable t t' = true -> numeric t = true -> numeric t' = true -> t' = t.
Proof. by destruct t, t'. Qed.

Lemma sound_assign l l' name op v t ρ r : definite Γ (NODE_ASSIGN l (NODE_IDENT l' name) op v) = true ->
  infers Γ (NODE_ASSIGN l (NODE_IDENT l' name) op v) t -> agrees ρ -> eval_S ρ (NODE_ASSIGN l (NODE_IDENT l' name) op v) = Done r -> sound_result ρ t r.
Proof.
  destruct IH as [IHe _]. intros Hdef Hi Ha E. destruct (infers_assign _ _ _ _ _ _ Hi) as (Hv & Tv & Hass).
  simpl in Hdef. rewrite Tv in Hdef. apply andb_true_iff in Hdef as [[Dv Hany%negb_true_iff]%andb_true_iff Hop].
  destruct (decide (op = TOK_ASSIGN)) as [->|Hne].
  - simpl in E. apply done_bind in E as (w & Ew & E). destruct (IHe _ _ _ _ _ _ _ Dv Hv Ha Ew) as (Hw & Hwa & Hwn).
    destruct (variable ρ name) as [i|] eqn:Hi'; [|done]. injection E as <-. by eapply sound_store.
  - assert (E' : (old ← eval room global callee program fuel depth base n ρ (NODE_IDENT l' name);
                  a ← eval room global callee program fuel depth base (S n) old.2 v;
                  match variable ρ name, compound op with
                  | Some i, Some o => w ← binary o old.1 a.1; Done (w, assign a.2 i w)
                  | _, _ => Unknown
                  end) = Done r) by (destruct op; try done; exact E).
    assert (Hnum : numeric (ident_type Γ name) = true /\ numeric t = true) by (apply andb_true_iff; destruct op; done).
    destruct Hnum as [Hn1 Hn2]. pose proof (numeric_assignable _ _ Hass Hn1 Hn2) as ->.
    apply done_bind in E' as (old & Eo & E'). destruct (IHe _ _ _ _ (NODE_IDENT l' name) (ident_type Γ name) _ eq_refl eq_refl Ha Eo) as (Ho & Hoa & Hon).
    apply done_bind in E' as (a & Ea & E'). destruct (IHe _ _ _ _ _ _ _ Dv Hv Hoa Ea) as (Hw & Hwa & Hwn).
    destruct (variable ρ name) as [i|] eqn:Hi'; [|done]. destruct (compound op) as [o|] eqn:Hc; [|done].
    apply done_bind in E' as (w & Ew & E'). injection E' as <-. destruct (compound_type _ _ _ Hc Hn1) as (Ht & Hl & _).
    eapply sound_store; [done..| |done|congruence|done]. rewrite <- Ht. by eapply binary_sound.
Qed.
End cases.

Lemma eval_sound fuel : sound_at fuel.
Proof.
  induction fuel as [|fuel IH]; [done|]. split.
  - intros depth base n ρ e t r Hdef Hi Ha E. destruct e; try discriminate Hdef.
    + by eapply sound_binary.
    + by eapply sound_unary.
    + by eapply sound_call.
    + by eapply sound_ternary.
    + destruct e1; try discriminate Hdef. by eapply sound_assign.
    + by eapply sound_ident.
    + inverted Hi. injection Hi as <-. apply fits_done in E as ->. split_and!; [apply int_boxed|done|done].
    + inverted Hi. injection Hi as <-. apply fits_done in E as ->. by split_and!.
    + inverted Hi. injection Hi as <-. apply fits_done in E as ->. split_and!; [apply bool_boxed|done|done].
    + inverted Hi. injection Hi as <-. apply fits_done in E as ->. by split_and!.
  - destruct IH as [IHe IHa]. intros depth base n ρ [|e es] r Hdef Hi Ha E; simpl in E; [by injection E as <-|].
    simpl in Hdef. apply andb_true_iff in Hdef as [De Des]. apply Forall_cons in Hi as [[t Ht] Hes].
    apply done_bind in E as (a & Ea & E). destruct (IHe _ _ _ _ _ _ _ De Ht Ha Ea) as (_ & Haa & Han).
    apply done_bind in E as (ws & Ews & E). injection E as <-. destruct (IHa _ _ _ _ _ _ Des Hes Haa Ews) as (Hwa & Hwn).
    simpl. split; [done|congruence].
Qed.
End soundness.

(** C16: soundness of the inferred types, for the expressions in which the checker can
    be trusted ([definite]): literals, variables, [not], minus and comparisons;
    arithmetic only on operands of type int or float; [and] and [or] only on operands
    of type bool (the checker gives them the type bool whatever the operands are,
    [logical_types_unsound]); conditional expressions; assignments to a variable of a
    value whose type is not any, with types int or float if compound; calls only where
    their type is any.  If the checker accepts such an expression with some type, in an
    environment that describes the variables, and the reference semantics gives it a
    value, then a type of int, bool or nil tells what the value is, and the variables,
    which the expression may have changed, still have the types of the environment. *)
Theorem check_expr_sound room global callee program fuel depth base n Γ ρ e t w ρ' :
  check_expr e (mkChecker Γ None) = (t, mkChecker Γ None) -> definite Γ e = true -> agrees global Γ ρ ->
  eval room global callee program fuel depth base n ρ e = Done (w, ρ') ->
  (t = TYPE_INT -> nanbox_is_int w = true) /\ (t = TYPE_BOOL -> nanbox_is_bool w = true) /\ (t = TYPE_NIL -> nanbox_is_nil w = true) /\
  agrees global Γ ρ' /\ ρ'.*1 = ρ.*1.
Proof.
  intros Hi Hdef Ha E. destruct (proj1 (eval_sound room global callee program Γ fuel) _ _ _ _ _ _ _ Hdef Hi Ha E) as (Ht & Ha' & Hn).
  split_and!; [by intros ->..|done|done].
Qed.

(** [x += y ? 2 : 3], where [x] is a mutable int and [y] a bool. *)
Definition sample_types : TypeEnv := type_env_define (type_env_define type_env_new (chars "x") TYPE_INT true) (chars "y") TYPE_BOOL false.
Definition sample_values : env := [(chars "x", nanbox_int 40); (chars "y", nanbox_bool true)].
Definition sample_expr : AstNode :=
  NODE_ASSIGN 1 (NODE_IDENT 1 (chars "x")) TOK_PLUS_ASSIGN (NODE_TERNARY 1 (NODE_IDENT 1 (chars "y")) (NODE_INT 1 2) (NODE_INT 1 3)).
Lemma sample_agrees : agrees (fun _ => Unknown) sample_types sample_values.
Proof.
  intros name. unfold variable, sample_values. simpl. case_bool_decide as H1; [subst name|case_bool_decide as H2; [subst name|done]];
    intros x [= <-]; vm_compute; reflexivity.
Qed.
Lemma check_expr_sound_witness : exists w ρ',
  eval 64 (fun _ => Unknown) (fun _ => Unknown) (fun _ => None) 5 0 0 0 sample_values sample_expr = Done (w, ρ') /\ nanbox_is_int w = true.
Proof.
  eexists _, _. split; [vm_compute; reflexivity|].
  refine (proj1 (check_expr_sound 64 (fun _ => Unknown) (fun _ => Unknown) (fun _ => None) 5 0 0 0 sample_types sample_values sample_expr
    TYPE_INT _ _ _ _ sample_agrees _) eq_refl); vm_compute; reflexivity.
Defined.

(** ** Types as a relation *)

Lemma type_equals_refl : forall t, type_equals t t = true.
Proof.
  fix IH 1. intros []; simpl; try done; rewrite ?IH; try (by apply bool_decide_true); try done.
  assert (H : forall2b type_equals param_types param_types = true); [|by rewrite H].
  induction param_types as [|p ps IHp]; [done|]. simpl. by rewrite IH, IHp.
Qed.
Lemma type_equals_sym : forall a b, type_equals a b = true -> type_equals b a = true.
Proof.
  fix IH 1. intros [] []; simpl; intros H; try done; repeat (apply andb_true_iff in H as [H ?]); rewrite ?bool_decide_eq_true in *; subst;
    rewrite ?andb_true_iff, ?bool_decide_eq_true; auto.
  split; [|by apply IH]. revert param_types0 H. induction param_types as [|p ps IHp]; intros [|q qs] H; try done. simpl in *.
  apply andb_true_iff in H as [H1 H2]. apply andb_true_iff. split; [by apply IH|by apply IHp].
Qed.
Lemma type_equals_trans : forall a b c, type_equals a b = true -> type_equals b c = true -> type_equals a c = true.
Proof.
  fix IH 1. intros [] [] c H H'; try discriminate H; destruct c; try discriminate H'; simpl in *; try done;
    repeat match goal with H : _ && _ = true |- _ => apply andb_true_iff in H as [? ?] end;
    rewrite ?bool_decide_eq_true in *; subst; rewrite ?andb_true_iff, ?bool_decide_eq_true; eauto.
  split; [|by eapply IH]. clear H2 H1. revert param_types0 param_types1 H H0.
  induction param_types as [|p ps IHp]; intros [|q qs] [|r rs] H H'; try done. simpl in *.
  apply andb_true_iff in H as [H1 H2]. apply andb_true_iff in H' as [H3 H4]. apply andb_true_iff. split; [by eapply IH|by eapply IHp].
Qed.
Lemma type_clone_id : forall t, type_clone t = t.
Proof.
  fix IH 1. intros []; simpl; rewrite ?IH; try done; f_equal.
  - induction fields as [|[n t] fs IHf]; [done|]. simpl. by rewrite IH, IHf.
  - induction variants as [|[n t] vs IHv]; [done|]. simpl. by rewrite IH, IHv.
  - induction param_types as [|p ps IHp]; [done|]. simpl. by rewrite IH, IHp.
Qed.

Lemma type_equals_any t : type_equals TYPE_ANY t = true <-> t = TYPE_ANY.
Proof. by destruct t. Qed.

(** ** What the checker gets wrong *)

Definition type_named (name : string) : AstNode := NODE_TYPE_NAME 1 (chars name).
(** [let x: Option<int> = none] *)
Definition none_for_option : AstNode :=
  NODE_PROGRAM 1 [NODE_LET 1 (chars "x") (Some (NODE_TYPE_GENERIC 1 (chars "Option") [type_named "int"])) (NODE_NONE 1) false].
(** [fn f(a: int) -> int { return true }], [let y: int = f("1")] *)
Definition wrong_return : AstNode :=
  NODE_PROGRAM 1
    [NODE_FN_DECL 1 (chars "f") [NODE_PARAM 1 (chars "a") (Some (type_named "int"))] (Some (type_named "int"))
       (NODE_BLOCK 1 [NODE_RETURN 1 (Some (NODE_BOOL 1 true))]) None None;
     NODE_LET 2 (chars "y") (Some (type_named "int")) (NODE_CALL 2 (NODE_IDENT 2 (chars "f")) [NODE_STRING 2 (chars "1")]) false].
Definition one_half : f64 := 0x3FE0000000000000.
(** [x + 1] for an [x] the checker knows nothing of. *)
Definition unknown_plus_one : AstNode := NODE_BINARY 1 TOK_PLUS (NODE_IDENT 1 (chars "x")) (NODE_INT 1 1).

(** [and] and [or] are given the type bool, but their value is that of an operand:
    for integers it is an integer. *)
Lemma logical_types_unsound a b : nanbox_is_truthy (nanbox_int a) = true ->
  let e := NODE_BINARY 1 TOK_AND (NODE_INT 1 a) (NODE_INT 1 b) in
  check_expr e typechecker_new = (TYPE_BOOL, typechecker_new) /\
  eval 64 (fun _ => Unknown) (fun _ => Unknown) (fun _ => None) 3 0 0 0 [] e = Done (nanbox_int b, []) /\
  nanbox_is_int (nanbox_int b) = true.
Proof. intros Ha e. split_and!; [done| |apply int_boxed]. simpl. by rewrite Ha. Qed.

(** Where the checker fails.  The type any equals only itself, whatever the other
    one is, so that [none] is refused for every annotated [Option] but
    [Option] of any, here [let x: Option<int> = none]; a function that returns a bool
    where an int is declared, called with a string for an int, is accepted; an
    unknown variable plus one has the type int and can be a float; the name of an
    array of arrays is undefined, and in the message for an array assigned to
    another both types have the same name. *)
Theorem typechecker_flaws :
  (forall t, type_equals TYPE_ANY t = true <-> t = TYPE_ANY) /\
  (forall t, type_assignable (TYPE_OPTION t) (TYPE_OPTION TYPE_ANY) = true <-> t = TYPE_ANY) /\
  accepted none_for_option = false /\
  accepted wrong_return = true /\
  (check_expr unknown_plus_one typechecker_new = (TYPE_INT, typechecker_new) /\
   exists w, eval 64 (fun _ => Unknown) (fun _ => Unknown) (fun _ => None) 3 0 0 0 [(chars "x", nanbox_double one_half)] unknown_plus_one =
       Done (w, [(chars "x", nanbox_double one_half)]) /\ nanbox_is_int w = false) /\
  (forall t, type_to_string (TYPE_ARRAY (TYPE_ARRAY t)) = None) /\
  assign_message (TYPE_ARRAY TYPE_INT) (TYPE_ARRAY TYPE_BOOL) =
    Some [chars "cannot assign '[int]' to '[int]'"; chars "cannot assign '[bool]' to '[bool]'"].
Proof.
  split_and!; [apply type_equals_any|by intros []|by vm_compute..| | |by vm_compute].
  - exists 0x3FF8000000000000. by split; vm_compute.
  - intros t. cbn. destruct (type_to_string t) as [[? []]|]; reflexivity.
Qed.
