(* ===== verification/Codegen.v ===== *)
(** * The code of functions

    What the code of a statement looks like in a finished chunk, jumps included,
    and that the compiler, which emits code in one pass and patches jumps as it
    goes, produces it: a function's body without strings, arrays, maps, builtin
    functions and [match] is laid out as [code_stmts] says. *)

From Stdlib Require Import ZArith Lia String.
From stdpp Require Import base numbers list.
From S2P Require Import Prelude Float64 Hash HashMap Nanbox Value Bytecode Lexer Ast Modules Compiler Semantics.
Local Open Scope string_scope.
Local Open Scope list_scope.
Local Open Scope Z_scope.
Local Open Scope agim_scope.

(** ** The layout of code *)

(** A finished chunk: its code, its constants and the names it refers to. *)
Record image := mkImage { im_code : list Z; im_consts : list constant; im_strings : list (list Z) }.

Section layout.
Context (K : image).

Definition op_at (pc : nat) (op : Opcode) : Prop := im_code K !! pc = Some (opcode_byte op).
Definition short_at (pc : nat) (n : Z) : Prop :=
  0 <= n <= 0xFFFF /\ im_code K !! pc = Some (n / 2 ^ 8) /\ im_code K !! S pc = Some (n mod 2 ^ 8).
Definition arg_at (pc : nat) (op : Opcode) (n : Z) : Prop := op_at pc op /\ short_at (S pc) n.
Definition jump_at (pc : nat) (op : Opcode) (target : nat) : Prop :=
  (pc + 3 <= target)%nat /\ arg_at pc op (Z.of_nat (target - (pc + 3))).
Definition loop_at (pc target : nat) : Prop := (target <= pc + 3)%nat /\ arg_at pc OP_LOOP (Z.of_nat (pc + 3 - target)).
Definition pops_at (pc n : nat) : Prop := forall k, (k < n)%nat -> op_at (pc + k) OP_POP.

(** An access to a variable: the slot of a local of [Γ], or the name of a global. *)
Definition access_at (Γ : list (list Z)) (pc : nat) (local global : Opcode) (name : list Z) : Prop :=
  match position_of name (rev Γ) with
  | Some i => arg_at pc local (Z.of_nat i)
  | None => exists i, arg_at pc global (Z.of_nat i) /\ im_strings K !! i = Some name
  end.

Definition literal (e : AstNode) : option constant :=
  match e with NODE_INT _ i => Some (VInt i) | NODE_FLOAT _ d => Some (VFloat d) | _ => None end.
Definition unary_op (op : TokenType) : option Opcode :=
  match op with TOK_MINUS => Some OP_NEG | TOK_NOT => Some OP_NOT | _ => None end.

(** The code of [e] between two offsets. *)
Inductive code_expr (Γ : list (list Z)) : nat -> AstNode -> nat -> Prop :=
  | code_nil l pc : op_at pc OP_NIL -> code_expr Γ pc (NODE_NIL l) (pc + 1)
  | code_bool l (b : bool) pc : op_at pc (if b then OP_TRUE else OP_FALSE) -> code_expr Γ pc (NODE_BOOL l b) (pc + 1)
  | code_literal e d i pc : literal e = Some d -> arg_at pc OP_CONST (Z.of_nat i) -> im_consts K !! i = Some d ->
      code_expr Γ pc e (pc + 3)
  | code_ident l name pc : access_at Γ pc OP_GET_LOCAL OP_GET_GLOBAL name -> code_expr Γ pc (NODE_IDENT l name) (pc + 3)
  | code_and l x y pc p1 pc' : code_expr Γ pc x p1 -> jump_at p1 OP_JUMP_UNLESS pc' -> op_at (p1 + 3) OP_POP ->
      code_expr Γ (p1 + 4) y pc' -> code_expr Γ pc (NODE_BINARY l TOK_AND x y) pc'
  | code_or l x y pc p1 pc' : code_expr Γ pc x p1 -> jump_at p1 OP_JUMP_UNLESS (p1 + 6) -> jump_at (p1 + 3) OP_JUMP pc' ->
      op_at (p1 + 6) OP_POP -> code_expr Γ (p1 + 7) y pc' -> code_expr Γ pc (NODE_BINARY l TOK_OR x y) pc'
  | code_binary l op o x y pc p1 p2 : binary_op op = Some o -> code_expr Γ pc x p1 -> code_expr Γ p1 y p2 -> op_at p2 o ->
      code_expr Γ pc (NODE_BINARY l op x y) (p2 + 1)
  | code_unary l op o x pc p1 : unary_op op = Some o -> code_expr Γ pc x p1 -> op_at p1 o ->
      code_expr Γ pc (NODE_UNARY l op x) (p1 + 1)
  | code_ternary l c x y pc p1 p2 pc' : code_expr Γ pc c p1 -> jump_at p1 OP_JUMP_UNLESS (p2 + 3) -> op_at (p1 + 3) OP_POP ->
      code_expr Γ (p1 + 4) x p2 -> jump_at p2 OP_JUMP pc' -> op_at (p2 + 3) OP_POP -> code_expr Γ (p2 + 4) y pc' ->
      code_expr Γ pc (NODE_TERNARY l c x y) pc'
  | code_assign l l' name v pc p1 : code_expr Γ pc v p1 -> access_at Γ p1 OP_SET_LOCAL OP_SET_GLOBAL name ->
      code_expr Γ pc (NODE_ASSIGN l (NODE_IDENT l' name) TOK_ASSIGN v) (p1 + 3)
  | code_compound l l' name op o b v pc p1 p2 : compound op = Some b -> binary_op b = Some o ->
      code_expr Γ pc (NODE_IDENT l' name) p1 -> code_expr Γ p1 v p2 -> op_at p2 o ->
      access_at Γ (p2 + 1) OP_SET_LOCAL OP_SET_GLOBAL name ->
      code_expr Γ pc (NODE_ASSIGN l (NODE_IDENT l' name) op v) (p2 + 4)
  | code_call l f args pc p1 p2 : code_expr Γ pc f p1 -> code_args Γ p1 args p2 ->
      arg_at p2 OP_CALL (Z.of_nat (length args)) -> code_expr Γ pc (NODE_CALL l f args) (p2 + 3)
with code_args (Γ : list (list Z)) : nat -> list AstNode -> nat -> Prop :=
  | code_args_nil pc : code_args Γ pc [] pc
  | code_args_cons e es pc p1 p2 : code_expr Γ pc e p1 -> code_args Γ p1 es p2 -> code_args Γ pc (e :: es) p2.

(** The innermost loop: where it starts, the variables there are at its start,
    and where [break] goes. *)
Record target := mkTarget { t_start : nat; t_vars : nat; t_end : nat }.

(** The code of [s] between two offsets, and the variables in scope behind it. *)
Inductive code_stmt (L : option target) (Γ : list (list Z)) : nat -> AstNode -> nat -> list (list Z) -> Prop :=
  | code_expr_stmt l e pc p1 : code_expr Γ pc e p1 -> op_at p1 OP_POP -> code_stmt L Γ pc (NODE_EXPR_STMT l e) (p1 + 1) Γ
  | code_let l name ty e mut pc p1 : code_expr Γ pc e p1 -> code_stmt L Γ pc (NODE_LET l name ty e mut) p1 (Γ ++ [name])
  | code_const l name ty e mut pc p1 : code_expr Γ pc e p1 -> code_stmt L Γ pc (NODE_CONST l name ty e mut) p1 (Γ ++ [name])
  | code_block_stmt l ss pc p1 : code_block L Γ pc ss p1 -> code_stmt L Γ pc (NODE_BLOCK l ss) p1 Γ
  | code_if_stmt l c x y pc p1 : code_if L Γ pc (NODE_IF l c x y) p1 -> op_at p1 OP_POP ->
      code_stmt L Γ pc (NODE_IF l c x y) (p1 + 1) Γ
  | code_while l l' c ss pc p1 p2 : code_expr Γ pc c p1 -> jump_at p1 OP_JUMP_UNLESS (p2 + 3) -> op_at (p1 + 3) OP_POP ->
      code_block (Some (mkTarget pc (length Γ) (p2 + 4))) Γ (p1 + 4) ss p2 -> loop_at p2 pc -> op_at (p2 + 3) OP_POP ->
      code_stmt L Γ pc (NODE_WHILE l c (NODE_BLOCK l' ss)) (p2 + 4) Γ
  | code_range l x ix l' first last (incl : bool) l'' ss pc p1 p2 p3 i pc' :
      let Γ' := Γ ++ [chars "__end"; x] in let n := Z.of_nat (length Γ) in
      code_expr Γ pc last p1 -> code_expr (Γ ++ [chars "__end"]) p1 first p2 ->
      arg_at p2 OP_GET_LOCAL (n + 1) -> arg_at (p2 + 3) OP_GET_LOCAL n -> op_at (p2 + 6) (if incl then OP_LE else OP_LT) ->
      jump_at (p2 + 7) OP_JUMP_UNLESS (p3 + 14) -> op_at (p2 + 10) OP_POP ->
      code_block (Some (mkTarget p2 (length Γ') (p3 + 15))) Γ' (p2 + 11) ss p3 ->
      arg_at p3 OP_GET_LOCAL (n + 1) -> arg_at (p3 + 3) OP_CONST (Z.of_nat i) -> im_consts K !! i = Some (VInt 1) ->
      op_at (p3 + 6) OP_ADD -> arg_at (p3 + 7) OP_SET_LOCAL (n + 1) -> op_at (p3 + 10) OP_POP -> loop_at (p3 + 11) p2 ->
      op_at (p3 + 14) OP_POP -> pops_at (p3 + 15) 2 -> pc' = (p3 + 17)%nat ->
      code_stmt L Γ pc (NODE_FOR l x ix (NODE_RANGE l' first last incl) (NODE_BLOCK l'' ss)) pc' Γ
  | code_return l pc : op_at pc OP_NIL -> op_at (pc + 1) OP_RETURN -> code_stmt L Γ pc (NODE_RETURN l None) (pc + 2) Γ
  | code_return_value l e pc p1 : code_expr Γ pc e p1 -> op_at p1 OP_RETURN ->
      code_stmt L Γ pc (NODE_RETURN l (Some e)) (p1 + 1) Γ
  | code_break l t n pc : L = Some t -> length Γ = (t_vars t + n)%nat -> pops_at pc n -> jump_at (pc + n) OP_JUMP (t_end t) ->
      code_stmt L Γ pc (NODE_BREAK l) (pc + n + 3) Γ
  | code_continue l t n pc : L = Some t -> length Γ = (t_vars t + n)%nat -> pops_at pc n -> loop_at (pc + n) (t_start t) ->
      code_stmt L Γ pc (NODE_CONTINUE l) (pc + n + 3) Γ
with code_stmts (L : option target) (Γ : list (list Z)) : nat -> list AstNode -> nat -> list (list Z) -> Prop :=
  | code_stmts_nil pc : code_stmts L Γ pc [] pc Γ
  | code_stmts_cons s ss pc p1 p2 Γ1 Γ2 : code_stmt L Γ pc s p1 Γ1 -> code_stmts L Γ1 p1 ss p2 Γ2 ->
      code_stmts L Γ pc (s :: ss) p2 Γ2
with code_block (L : option target) (Γ : list (list Z)) : nat -> list AstNode -> nat -> Prop :=
  | code_block_intro ss pc p1 Γ1 n : code_stmts L Γ pc ss p1 Γ1 -> length Γ1 = (length Γ + n)%nat -> pops_at p1 n ->
      code_block L Γ pc ss (p1 + n)
(** A block with a value: the end of the scope pops as many words as the block
    has variables, the value first. *)
with code_value (L : option target) (Γ : list (list Z)) : nat -> list AstNode -> nat -> list (list Z) -> Prop :=
  | code_value_nil pc : op_at pc OP_NIL -> code_value L Γ pc [] (pc + 1) Γ
  | code_value_last l e pc p1 : code_expr Γ pc e p1 -> code_value L Γ pc [NODE_EXPR_STMT l e] p1 Γ
  | code_value_cons s ss pc p1 p2 Γ1 Γ2 : code_stmt L Γ pc s p1 Γ1 -> code_value L Γ1 p1 ss p2 Γ2 ->
      code_value L Γ pc (s :: ss) p2 Γ2
with code_branch (L : option target) (Γ : list (list Z)) : nat -> option AstNode -> nat -> Prop :=
  | code_branch_none pc : op_at pc OP_NIL -> code_branch L Γ pc None (pc + 1)
  | code_branch_block l ss pc p1 Γ1 n : code_value L Γ pc ss p1 Γ1 -> length Γ1 = (length Γ + n)%nat -> pops_at p1 n ->
      code_branch L Γ pc (Some (NODE_BLOCK l ss)) (p1 + n)
  | code_branch_if l c x y pc p1 : code_if L Γ pc (NODE_IF l c x y) p1 -> code_branch L Γ pc (Some (NODE_IF l c x y)) p1
with code_if (L : option target) (Γ : list (list Z)) : nat -> AstNode -> nat -> Prop :=
  | code_if_intro l c x y pc p1 p2 pc' : code_expr Γ pc c p1 -> jump_at p1 OP_JUMP_UNLESS (p2 + 3) -> op_at (p1 + 3) OP_POP ->
      code_branch L Γ (p1 + 4) (Some x) p2 -> jump_at p2 OP_JUMP pc' -> op_at (p2 + 3) OP_POP ->
      code_branch L Γ (p2 + 4) y pc' -> code_if L Γ pc (NODE_IF l c x y) pc'.

(** The code of a function's body in a chunk of its own. *)
Definition code_function (d : fn_def) : Prop := exists pc Γ,
  code_stmts None ([] :: fd_params d) 0 (fd_body d) pc Γ /\ op_at pc OP_NIL /\ op_at (pc + 1) OP_RETURN.

End layout.

Scheme code_expr_rec := Minimality for code_expr Sort Prop
  with code_args_rec := Minimality for code_args Sort Prop.
Combined Scheme code_expr_ind2 from code_expr_rec, code_args_rec.

Lemma op_at_lt K pc op : op_at K pc op -> (pc < length (im_code K))%nat.
Proof. apply lookup_lt_Some. Qed.
Lemma arg_at_lt K pc op n : arg_at K pc op n -> (pc + 3 <= length (im_code K))%nat.
Proof. intros (_ & _ & _ & H). apply lookup_lt_Some in H. lia. Qed.

(** Code ends inside of the chunk. *)
Lemma code_expr_end K Γ :
  (forall pc e pc', code_expr K Γ pc e pc' -> (pc' <= length (im_code K))%nat) /\
  (forall pc es pc', code_args K Γ pc es pc' -> (pc <= length (im_code K))%nat -> (pc' <= length (im_code K))%nat).
Proof.
  apply code_expr_ind2; intros; try done; try lia; auto;
    repeat match goal with
    | H : op_at _ _ _ |- _ => apply op_at_lt in H
    | H : arg_at _ _ _ _ |- _ => apply arg_at_lt in H
    | H : access_at _ _ _ _ _ _ |- _ => unfold access_at in H; destruct (position_of _ _); [|destruct H as (? & H & _)]
    end; lia.
Qed.

(** ** The fragment *)

Definition simple_call (name : list Z) : bool :=
  negb (named name "push") && negb (named name "pop") && negb (named name "get_stats") &&
  negb (is_some (find_builtin builtin_functions name)).

Inductive frag_expr : AstNode -> Prop :=
  | frag_nil l : frag_expr (NODE_NIL l)
  | frag_bool l b : frag_expr (NODE_BOOL l b)
  | frag_int l i : frag_expr (NODE_INT l i)
  | frag_float l d : frag_expr (NODE_FLOAT l d)
  | frag_ident l name : frag_expr (NODE_IDENT l name)
  | frag_binary l op x y : frag_expr x -> frag_expr y -> frag_expr (NODE_BINARY l op x y)
  | frag_unary l op x : frag_expr x -> frag_expr (NODE_UNARY l op x)
  | frag_ternary l c x y : frag_expr c -> frag_expr x -> frag_expr y -> frag_expr (NODE_TERNARY l c x y)
  | frag_assign l l' name v : frag_expr v -> frag_expr (NODE_ASSIGN l (NODE_IDENT l' name) TOK_ASSIGN v)
  | frag_compound l l' name op b v : compound op = Some b -> frag_expr v -> frag_expr (NODE_ASSIGN l (NODE_IDENT l' name) op v)
  | frag_call l l' name args : simple_call name = true -> (length args <= 255)%nat -> frag_args args ->
      frag_expr (NODE_CALL l (NODE_IDENT l' name) args)
with frag_args : list AstNode -> Prop :=
  | frag_args_nil : frag_args []
  | frag_args_cons e es : frag_expr e -> frag_args es -> frag_args (e :: es).

Inductive frag_stmt : AstNode -> Prop :=
  | frag_expr_stmt l e : frag_expr e -> frag_stmt (NODE_EXPR_STMT l e)
  | frag_let l name ty e mut : frag_expr e -> frag_stmt (NODE_LET l name ty e mut)
  | frag_const l name ty e mut : frag_expr e -> frag_stmt (NODE_CONST l name ty e mut)
  | frag_block l ss : frag_stmts ss -> frag_stmt (NODE_BLOCK l ss)
  | frag_if_stmt l c x y : frag_if (NODE_IF l c x y) -> frag_stmt (NODE_IF l c x y)
  | frag_while l l' c ss : frag_expr c -> frag_stmts ss -> frag_stmt (NODE_WHILE l c (NODE_BLOCK l' ss))
  | frag_range l x ix l' first last incl l'' ss : frag_expr first -> frag_expr last -> frag_stmts ss ->
      frag_stmt (NODE_FOR l x ix (NODE_RANGE l' first last incl) (NODE_BLOCK l'' ss))
  | frag_return l : frag_stmt (NODE_RETURN l None)
  | frag_return_value l e : frag_expr e -> frag_stmt (NODE_RETURN l (Some e))
  | frag_break l : frag_stmt (NODE_BREAK l)
  | frag_continue l : frag_stmt (NODE_CONTINUE l)
with frag_stmts : list AstNode -> Prop :=
  | frag_stmts_nil : frag_stmts []
  | frag_stmts_cons s ss : frag_stmt s -> frag_stmts ss -> frag_stmts (s :: ss)
with frag_branch : option AstNode -> Prop :=
  | frag_branch_none : frag_branch None
  | frag_branch_block l ss : frag_stmts ss -> frag_branch (Some (NODE_BLOCK l ss))
  | frag_branch_if l c x y : frag_if (NODE_IF l c x y) -> frag_branch (Some (NODE_IF l c x y))
with frag_if : AstNode -> Prop :=
  | frag_if_intro l l' c ss y : frag_expr c -> frag_stmts ss -> frag_branch y -> frag_if (NODE_IF l c (NODE_BLOCK l' ss) y).

Scheme frag_expr_rec := Induction for frag_expr Sort Prop
  with frag_args_rec := Induction for frag_args Sort Prop.
Combined Scheme frag_expr_ind2 from frag_expr_rec, frag_args_rec.
Scheme frag_stmt_rec := Induction for frag_stmt Sort Prop
  with frag_stmts_rec := Induction for frag_stmts Sort Prop
  with frag_branch_rec := Induction for frag_branch Sort Prop
  with frag_if_rec := Induction for frag_if Sort Prop.
Combined Scheme frag_stmt_ind2 from frag_stmt_rec, frag_stmts_rec, frag_branch_rec, frag_if_rec.

(** ** States of the compiler *)

Definition code_of (c : Compiler) : list Z := code (current_chunk c).
Definition consts_of (c : Compiler) : list constant := constants (current_chunk c).
Definition csize (c : Compiler) : nat := code_size (current_chunk c).
Definition locals_of (c : Compiler) : list Local_ := locals (c_current c).
Definition names_of (c : Compiler) : list (list Z) := loc_name <$> locals_of c.
Definition depth_of (c : Compiler) : Z := scope_depth (c_current c).

Record valid (c : Compiler) : Prop := {
  valid_chunk : match fc_chunk (c_current c) with None => True | Some i => (i < length (functions (c_code c)))%nat end;
  valid_locals : (length (locals_of c) <= 256)%nat
}.

Lemma current_set_chunk c ch : valid c -> current_chunk (set_chunk c ch) = ch.
Proof.
  intros [Hc _]. unfold current_chunk, set_chunk. simpl. destruct (fc_chunk (c_current c)) as [i|]; simpl; [|done].
  by rewrite list_lookup_insert_eq.
Qed.
Lemma valid_set_chunk c ch : valid c -> valid (set_chunk c ch).
Proof.
  intros [Hc Hl]. split; [|done]. unfold set_chunk. simpl. destruct (fc_chunk (c_current c)) as [i|]; simpl; [|done].
  by rewrite length_insert.
Qed.

(** A state that differs in the code, the constants and the names only; the code
    below [n] is untouched. *)
Record grows (n : nat) (c c' : Compiler) : Prop := {
  g_valid : valid c';
  g_current : c_current c' = c_current c;
  g_error : had_error c' = had_error c;
  g_size : (csize c <= csize c')%nat;
  g_code : forall i, (i < n)%nat -> code_of c' !! i = code_of c !! i;
  g_consts : consts_of c `prefix_of` consts_of c';
  g_strings : strings (c_code c) `prefix_of` strings (c_code c')
}.

Lemma bind_inv {A B} (m : C A) (k : A -> C B) c r : (m ≫= k) c = r -> exists x c1, m c = (x, c1) /\ k x c1 = r.
Proof. unfold mbind, C_bind. destruct (m c) as [x c1]. eauto. Qed.

(** *** Errors stay *)

Definition mono {A} (m : C A) : Prop := forall c, had_error c = true -> had_error (m c).2 = true.
Create HintDb compiler_mono.

Lemma mono_ret {A} (x : A) : mono (mret x).
Proof. by intros c. Qed.
Lemma mono_bind {A B} (m : C A) (k : A -> C B) : mono m -> (forall x, mono (k x)) -> mono (m ≫= k).
Proof. intros Hm Hk c Hc. unfold mbind, C_bind. specialize (Hm c Hc). destruct (m c) as [x c1]. by apply Hk. Qed.
Lemma mono_gets {A} (f : Compiler -> A) : mono (gets f).
Proof. by intros c. Qed.
Lemma mono_modify f : mono (modify_current f).
Proof. by intros c. Qed.
Lemma mono_chunk {A} (f : Chunk constant -> A * Chunk constant) : mono (on_chunk f).
Proof. intros c Hc. unfold on_chunk. by destruct (f (current_chunk c)). Qed.
Lemma mono_report l msg : mono (report l msg).
Proof. intros c Hc. unfold report. by rewrite Hc. Qed.
Lemma mono_add_string s : mono (add_string s).
Proof. intros c Hc. unfold add_string. by destruct (bytecode_add_string _ _). Qed.
Lemma mono_unless m : mono (unless_error m).
Proof. intros c Hc. unfold unless_error. by rewrite Hc. Qed.
#[export] Hint Resolve mono_ret mono_gets mono_modify mono_chunk mono_report mono_add_string mono_unless : compiler_mono.

Ltac mono_auto := repeat first
  [ solve [auto with compiler_mono]
  | apply mono_bind; [|intros ?]
  | case_match ].

Lemma mono_emit_op op l : mono (emit_op op l).
Proof. apply mono_chunk. Qed.
Lemma mono_emit_byte b l : mono (emit_byte b l).
Proof. apply mono_chunk. Qed.
Lemma mono_patch o : mono (patch_jump o).
Proof. apply mono_chunk. Qed.
Lemma mono_error l msg : mono (compile_error l msg).
Proof. apply mono_report. Qed.
#[export] Hint Resolve mono_emit_op mono_emit_byte mono_patch mono_error : compiler_mono.
Lemma mono_emit_short n l : mono (emit_short n l).
Proof. unfold emit_short. mono_auto. Qed.
Lemma mono_emit_jump op l : mono (emit_jump op l).
Proof. unfold emit_jump. mono_auto. Qed.
#[export] Hint Resolve mono_emit_short mono_emit_jump : compiler_mono.
Lemma mono_emit_loop n l : mono (emit_loop n l).
Proof. unfold emit_loop. mono_auto. Qed.
Lemma mono_emit_constant v l : mono (emit_constant v l).
Proof. unfold emit_constant. mono_auto. Qed.
Lemma mono_repeat_emit n op l : mono (repeat_emit n op l).
Proof. induction n; simpl; mono_auto. Qed.
Lemma mono_patch_all os : mono (patch_all os).
Proof. induction os; simpl; mono_auto. Qed.
#[export] Hint Resolve mono_emit_loop mono_emit_constant mono_repeat_emit mono_patch_all : compiler_mono.
Lemma mono_end_scope l : mono (end_scope l).
Proof. unfold end_scope. mono_auto. Qed.
Lemma mono_begin_scope : mono begin_scope.
Proof. apply mono_modify. Qed.
Lemma mono_add_local n b l : mono (add_local n b l).
Proof. unfold add_local. mono_auto. Qed.
Lemma mono_begin_loop n : mono (begin_loop n).
Proof. unfold begin_loop. mono_auto. Qed.
Lemma mono_end_loop : mono end_loop.
Proof. unfold end_loop. mono_auto. Qed.
Lemma mono_emit_variable a b n l : mono (emit_variable a b n l).
Proof. unfold emit_variable. mono_auto. Qed.
Lemma mono_emit_ops ops l : mono (emit_ops ops l).
Proof. unfold emit_ops. induction ops; simpl; mono_auto. Qed.
#[export] Hint Resolve mono_end_scope mono_begin_scope mono_add_local mono_begin_loop mono_end_loop mono_emit_variable
  mono_emit_ops : compiler_mono.
Lemma mono_expr e : mono (compile AsExpr e).
Proof. destruct e; apply mono_unless. Qed.
Lemma mono_stmt s : mono (compile AsStmt s).
Proof. destruct s; apply mono_unless. Qed.
#[export] Hint Resolve mono_expr mono_stmt : compiler_mono.

(** The state before the last action of a sequence without an error. *)
Lemma mono_before {A} (m : C A) c x c' : mono m -> m c = (x, c') -> had_error c' = false -> had_error c = false.
Proof. intros Hm E He. destruct (had_error c) eqn:H; [|done]. specialize (Hm c H). rewrite E in Hm. simpl in Hm. congruence. Qed.

(** *** Emitting *)

(** [bs] is appended to the code. *)
Record emits (c c' : Compiler) (bs : list Z) : Prop := {
  e_valid : valid c';
  e_current : c_current c' = c_current c;
  e_error : had_error c' = had_error c;
  e_code : code_of c' = code_of c ++ bs;
  e_consts : consts_of c' = consts_of c;
  e_code_rest : strings (c_code c') = strings (c_code c)
}.

Lemma emits_trans c1 c2 c3 a b : emits c1 c2 a -> emits c2 c3 b -> emits c1 c3 (a ++ b).
Proof. intros [] []. split; try congruence. rewrite app_assoc. congruence. Qed.

Lemma strings_set_chunk c ch : strings (c_code (set_chunk c ch)) = strings (c_code c).
Proof. unfold set_chunk. simpl. by destruct (fc_chunk (c_current c)). Qed.

Lemma emit_byte_emits b l c c' x : valid c -> emit_byte b l c = (x, c') -> emits c c' [u8 b].
Proof.
  intros Hv [= _ <-]. split; unfold code_of, consts_of; rewrite ?current_set_chunk, ?strings_set_chunk by done; try done.
  by apply valid_set_chunk.
Qed.
Lemma emit_op_emits op l c c' x : valid c -> emit_op op l c = (x, c') -> emits c c' [opcode_byte op].
Proof. intros Hv E. assert (H : u8 (opcode_byte op) = opcode_byte op) by by destruct op.
  rewrite <- H. by apply (emit_byte_emits (opcode_byte op) l c c' x).
Qed.
Lemma emit_short_emits n l c c' x : valid c -> 0 <= n <= 0xFFFF -> emit_short n l c = (x, c') -> emits c c' (arg_bytes n).
Proof.
  intros Hv Hn E. apply bind_inv in E as (? & c1 & E1 & E2).
  apply emit_byte_emits in E1; [|done]. apply emit_byte_emits in E2; [|apply E1].
  pose proof (emits_trans _ _ _ _ _ E1 E2) as E. replace (arg_bytes n) with ([u8 ((n .>> 8) .& 255)] ++ [u8 (n .& 255)]); [done|].
  destruct (arg_byte_split n Hn) as [-> ->]. done.
Qed.
Lemma emit_arg_emits op n l c c' x : valid c -> 0 <= n <= 0xFFFF -> (emit_op op l ;; emit_short n l) c = (x, c') ->
  emits c c' (opcode_byte op :: arg_bytes n).
Proof.
  intros Hv Hn E. apply bind_inv in E as (? & c1 & E1 & E2). apply emit_op_emits in E1; [|done].
  apply emit_short_emits in E2; [|apply E1|done]. apply (emits_trans _ _ _ _ _ E1 E2).
Qed.
Lemma emit_jump_emits op l c c' o : valid c -> emit_jump op l c = (o, c') ->
  emits c c' [opcode_byte op; 0xFF; 0xFF] /\ o = S (csize c).
Proof.
  intros Hv E. apply bind_inv in E as (? & c1 & E1 & E). apply bind_inv in E as (? & c2 & E2 & E).
  apply bind_inv in E as (? & c3 & E3 & E). apply emit_op_emits in E1; [|done]. apply emit_byte_emits in E2; [|apply E1].
  apply emit_byte_emits in E3; [|apply E2]. injection E as <- <-.
  pose proof (emits_trans _ _ _ _ _ E1 (emits_trans _ _ _ _ _ E2 E3)) as H. split; [exact H|].
  unfold code_size. fold (code_of c3). rewrite (e_code _ _ _ H). unfold csize, code_size, code_of. rewrite length_app. simpl. lia.
Qed.
Lemma repeat_emit_emits n op l c c' x : valid c -> repeat_emit n op l c = (x, c') -> emits c c' (replicate n (opcode_byte op)).
Proof.
  revert c. induction n as [|n IH]; intros c Hv E.
  - injection E as _ <-. split; try done. by rewrite app_nil_r.
  - apply bind_inv in E as (? & c1 & E1 & E2). apply emit_op_emits in E1; [|done]. apply IH in E2; [|apply E1].
    apply (emits_trans _ _ _ _ _ E1 E2).
Qed.

Lemma emits_size c c' bs : emits c c' bs -> csize c' = (csize c + length bs)%nat.
Proof. intros H. unfold csize, code_size. fold (code_of c') (code_of c). rewrite (e_code _ _ _ H), length_app. done. Qed.
Lemma emits_below c c' bs : emits c c' bs -> forall i, (i < csize c)%nat -> code_of c' !! i = code_of c !! i.
Proof. intros H i Hi. rewrite (e_code _ _ _ H). by rewrite lookup_app_l. Qed.
Lemma emits_at c c' bs k : emits c c' bs -> code_of c' !! (csize c + k)%nat = bs !! k.
Proof. intros H. rewrite (e_code _ _ _ H). rewrite lookup_app_r by (unfold csize, code_size, code_of; lia). f_equal.
  unfold csize, code_size, code_of. lia.
Qed.
Lemma emits_grows c c' bs : emits c c' bs -> grows (csize c) c c'.
Proof.
  intros H. pose proof (emits_below _ _ _ H). pose proof (emits_size _ _ _ H). destruct H.
  split; try done; [lia|by rewrite e_consts0|by rewrite e_code_rest0].
Qed.
Lemma grows_trans n m c1 c2 c3 : grows n c1 c2 -> grows m c2 c3 -> (n <= m)%nat -> grows n c1 c3.
Proof.
  intros [] [] Hn. split; try congruence; try lia; try (by etrans).
  intros i Hi. rewrite g_code1 by lia. auto.
Qed.
Lemma grows_refl n c : valid c -> grows n c c.
Proof. by split. Qed.
Lemma grows_names n c c' : grows n c c' -> names_of c' = names_of c.
Proof. intros []. unfold names_of, locals_of. congruence. Qed.

(** *** Patching *)

Record patches (o : nat) (c c' : Compiler) : Prop := {
  p_grows : grows o c c';
  p_size : csize c' = csize c;
  p_code : forall i, i <> o -> i <> S o -> code_of c' !! i = code_of c !! i;
  p_arg : (S o < csize c)%nat -> Z.of_nat (csize c) <= 0xFFFF ->
    code_of c' !! o = Some (Z.of_nat (csize c - (o + 2)) / 2 ^ 8) /\
    code_of c' !! S o = Some (Z.of_nat (csize c - (o + 2)) mod 2 ^ 8)
}.

Lemma patch_jump_patches o c c' x : valid c -> patch_jump o c = (x, c') -> patches o c c'.
Proof.
  intros Hv [= _ <-]. set (ch := chunk_patch_jump (current_chunk c) o).
  assert (Hl : length (code ch) = csize c).
  { subst ch. unfold chunk_patch_jump. case_if_goal; [done|]. simpl. by rewrite !length_insert. }
  assert (Hk : constants ch = consts_of c) by (subst ch; unfold chunk_patch_jump; by case_if_goal).
  assert (Hc : forall i, i <> o -> i <> S o -> code ch !! i = code_of c !! i).
  { intros i H1 H2. subst ch. unfold chunk_patch_jump. case_if_goal; [done|]. simpl. by rewrite !list_lookup_insert_ne by lia. }
  split; [split| |..]; unfold csize, code_of, consts_of, code_size in *; rewrite ?current_set_chunk, ?strings_set_chunk by done;
    try done; try lia.
  - by apply valid_set_chunk.
  - intros i Hi. apply Hc; lia.
  - by rewrite Hk.
  - intros H1 H2. subst ch. unfold chunk_patch_jump, UINT16_MAX, code_size. rewrite u64_small by (unfold is_u64; lia).
    case_if_goal; [lia|]. simpl.
    destruct (arg_byte_split (Z.of_nat (length (code (current_chunk c))) - Z.of_nat o - 2)) as [-> ->]; [unfold UINT16_MAX; lia|].
    replace (Z.of_nat (length (code (current_chunk c)) - (o + 2))) with (Z.of_nat (length (code (current_chunk c))) - Z.of_nat o - 2) by lia.
    split.
    + rewrite list_lookup_insert_ne by lia. apply list_lookup_insert_eq. lia.
    + apply list_lookup_insert_eq. rewrite length_insert. lia.
Qed.

(** *** The finished chunk *)

(** [K] is what the chunk of [c] becomes, as far as the code from [lo] up to [hi]
    goes, except for the jumps at [holes], which are still to be patched. *)
Record shows (K : image) (c : Compiler) (lo hi : nat) (holes : list nat) : Prop := {
  sh_code : forall i, (lo <= i < hi)%nat -> (forall b, b ∈ holes -> i <> b /\ i <> S b) -> im_code K !! i = code_of c !! i;
  sh_end : (hi <= length (im_code K))%nat;
  sh_size : Z.of_nat (length (im_code K)) <= 0xFFFF;
  sh_consts : consts_of c `prefix_of` im_consts K;
  sh_strings : strings (c_code c) `prefix_of` im_strings K;
  sh_names : Z.of_nat (length (im_strings K)) <= 0x10000
}.

(** What an earlier state shows. *)
Lemma shows_before K c c' lo hi holes lo' hi' holes' :
  shows K c' lo hi holes -> (lo <= lo')%nat -> (hi' <= hi)%nat ->
  (forall i, (lo' <= i < hi')%nat -> (forall b, b ∈ holes' -> i <> b /\ i <> S b) ->
     (forall b, b ∈ holes -> i <> b /\ i <> S b) /\ code_of c' !! i = code_of c !! i) ->
  consts_of c `prefix_of` consts_of c' -> strings (c_code c) `prefix_of` strings (c_code c') ->
  shows K c lo' hi' holes'.
Proof.
  intros [Hc He Hs Hk Hn Hl] H1 H2 Hcode Hk' Hn'. split; [|lia|done|by etrans|by etrans|done].
  intros i Hi Hb. destruct (Hcode i Hi Hb) as [Hh <-]. apply Hc; [lia|done].
Qed.

Lemma add_string_grows s c c' i : valid c -> add_string s c = (i, c') ->
  grows (csize c) c c' /\ csize c' = csize c /\ code_of c' = code_of c /\
  exists n, i = Z.of_nat n /\ strings (c_code c') !! n = Some s.
Proof.
  unfold add_string, bytecode_add_string. intros Hv. destruct (list_find (s =.) (strings (c_code c))) as [[n y]|] eqn:F.
  - intros [= <- <-]. apply list_find_Some in F as (F & -> & _). assert (E : set_code c (c_code c) = c) by by destruct c.
    rewrite E. split_and!; [by apply grows_refl|done|done|]. eauto.
  - intros [= <- <-].
    assert (E : current_chunk (set_code c (set_strings (c_code c) (strings (c_code c) ++ [s]))) = current_chunk c) by done.
    assert (Es : code_of (set_code c (set_strings (c_code c) (strings (c_code c) ++ [s]))) = code_of c) by done.
    split_and!; [|done|done|].
    + split; try done; [by destruct Hv|]. simpl. by exists [s].
    + exists (length (strings (c_code c))). split; [done|]. simpl. by rewrite lookup_app_r, Nat.sub_diag by lia.
Qed.

Lemma add_constant_grows v c c' i : valid c -> on_chunk (fun ch => chunk_add_constant ch v) c = (i, c') ->
  grows (csize c) c c' /\ csize c' = csize c /\ code_of c' = code_of c /\ consts_of c' !! i = Some v.
Proof.
  intros Hv [= <- <-]. assert (Hc : valid (set_chunk c (chunk_add_constant (current_chunk c) v).2)) by by apply valid_set_chunk.
  split_and!; [split|..]; unfold csize, code_of, consts_of in *; rewrite ?current_set_chunk, ?strings_set_chunk by done; try done.
  - simpl. by eexists.
  - simpl. by rewrite lookup_app_r, Nat.sub_diag by lia.
Qed.

(** An instruction with a 16-bit argument, in the finished chunk. *)
Lemma shows_op K c c' c2 bs lo hi holes k op :
  emits c c' bs -> shows K c2 lo hi holes -> (lo <= csize c + k < hi)%nat ->
  (forall b, b ∈ holes -> (csize c + k)%nat <> b /\ (csize c + k)%nat <> S b) ->
  code_of c2 !! (csize c + k)%nat = code_of c' !! (csize c + k)%nat -> bs !! k = Some (opcode_byte op) ->
  op_at K (csize c + k) op.
Proof.
  intros He Hs Hk Hb E1 E2. unfold op_at. rewrite (sh_code _ _ _ _ _ Hs) by done. rewrite E1. by rewrite (emits_at _ _ _ k He).
Qed.

Lemma is_err_report l msg c c' x : report l msg c = (x, c') -> had_error c' = true.
Proof. unfold report. intros [= _ <-]. by destruct (had_error c) eqn:E. Qed.

(** *** What an action adds to the code *)

Definition add_breaks (nb : list nat) (ls : list LoopContext) : list LoopContext :=
  match ls with [] => [] | L :: rest => mkLoop (loop_start L) (breaks L ++ nb) (loop_scope L) :: rest end.

(** Offsets from [lo] up to [hi] whose two bytes do not overlap. *)
Fixpoint spaced (lo hi : nat) (nb : list nat) : Prop :=
  match nb with [] => (lo <= hi)%nat | b :: nb => (lo <= b)%nat /\ spaced (b + 2) hi nb end.

(** New locals and jumps of [break]; everything else of the state stays. *)
Record changes (c c' : Compiler) (new : list Local_) (nb : list nat) : Prop := {
  ch_valid : valid c';
  ch_chunk : fc_chunk (c_current c') = fc_chunk (c_current c);
  ch_locals : locals_of c' = locals_of c ++ new;
  ch_new : Forall (fun l => loc_depth l = depth_of c) new;
  ch_depth : depth_of c' = depth_of c;
  ch_loops : loops (c_current c') = add_breaks nb (loops (c_current c));
  ch_breaks : spaced (csize c) (csize c') nb;
  ch_inside : loops (c_current c) = [] -> nb = [];
  ch_code : forall i, (i < csize c)%nat -> code_of c' !! i = code_of c !! i;
  ch_consts : consts_of c `prefix_of` consts_of c';
  ch_strings : strings (c_code c) `prefix_of` strings (c_code c')
}.

(** Locals are not deeper than the scope, and the scope is inside of the innermost
    loop; [strict] is for statements, which may declare locals. *)
Definition scoped (strict : bool) (c : Compiler) : Prop :=
  ((if strict then 0 < depth_of c else 0 <= depth_of c) /\ Forall (fun l => loc_depth l <= depth_of c) (locals_of c)) /\
  match loops (c_current c) with
  | [] => True
  | L :: _ =>
      (loop_start L <= csize c)%nat /\ if strict then loop_scope L < depth_of c else loop_scope L <= depth_of c
  end.

(** The loop that [break] and [continue] are about. *)
Definition target_of (c : Compiler) (t_end : nat) : option target :=
  match loops (c_current c) with
  | [] => None
  | L :: _ => Some (mkTarget (loop_start L) (length (locals_of c) - locals_above (loop_scope L) c) t_end)
  end.

(** The jumps of [break] go to [t_end]. *)
Definition filled (K : image) (nb : list nat) (t_end : nat) : Prop :=
  forall b, b ∈ nb -> (b + 2 <= t_end)%nat /\ short_at K b (Z.of_nat (t_end - (b + 2))).

Definition layout : Type := image -> option target -> list (list Z) -> nat -> nat -> list (list Z) -> Prop.

(** The action appends code that is laid out as [P] says, whatever the breaks
    in it will be patched with; it declares locals if it is [open]. *)
Definition spec (strict open : bool) (m : C unit) (P : layout) : Prop := forall c c',
  valid c -> scoped strict c -> m c = (tt, c') -> had_error c' = false ->
  exists new nb, changes c c' new nb /\ (open = false -> new = []) /\
    forall K t_end, shows K c' (csize c) (csize c') nb -> filled K nb t_end ->
      P K (target_of c t_end) (names_of c) (csize c) (csize c') (names_of c ++ (loc_name <$> new)).

Definition then_ (P Q : layout) : layout := fun K L Γ a b Γ' =>
  exists p Γ1, P K L Γ a p Γ1 /\ Q K L Γ1 p b Γ' /\ (a <= p <= b)%nat.

Lemma spaced_le lo hi nb : spaced lo hi nb -> (lo <= hi)%nat.
Proof. revert lo. induction nb as [|b nb IH]; simpl; [done|]. intros lo [H1 H2]. apply IH in H2. lia. Qed.
Lemma spaced_in lo hi nb b : spaced lo hi nb -> b ∈ nb -> (lo <= b)%nat /\ (b + 2 <= hi)%nat.
Proof.
  revert lo. induction nb as [|x nb IH]; simpl; intros lo H Hb; [by apply not_elem_of_nil in Hb|].
  destruct H as [H1 H2]. apply elem_of_cons in Hb as [->|Hb]; [apply spaced_le in H2; lia|]. destruct (IH _ H2 Hb). lia.
Qed.
Lemma spaced_app lo mid hi a b : spaced lo mid a -> spaced mid hi b -> spaced lo hi (a ++ b).
Proof.
  revert lo. induction a as [|x a IH]; simpl; intros lo.
  - intros H1. revert H1. destruct b as [|y b]; simpl; [lia|]. intros ? [? ?]. split; [lia|done].
  - intros [H1 H2] H3. split; [done|]. by apply IH.
Qed.
Lemma add_breaks_app a b ls : add_breaks b (add_breaks a ls) = add_breaks (a ++ b) ls.
Proof. destruct ls; simpl; [done|]. by rewrite app_assoc. Qed.

Lemma changes_trans c1 c2 c3 new1 new2 nb1 nb2 :
  changes c1 c2 new1 nb1 -> changes c2 c3 new2 nb2 -> changes c1 c3 (new1 ++ new2) (nb1 ++ nb2).
Proof.
  intros H1 H2. pose proof (spaced_le _ _ _ (ch_breaks _ _ _ _ H1)). pose proof (ch_code _ _ _ _ H2) as Hcode.
  destruct H1, H2. split; try congruence.
  - rewrite app_assoc. congruence.
  - apply Forall_app. split; [done|]. by rewrite <- ch_depth0.
  - rewrite ch_loops1, ch_loops0. apply add_breaks_app.
  - by eapply spaced_app.
  - intros H1. rewrite ch_inside0, ch_inside1; [done| |done]. by rewrite ch_loops0, H1.
  - intros i Hi. rewrite Hcode by lia. auto.
  - by etrans.
  - by etrans.
Qed.

Lemma count_deeper_app d l new : Forall (fun x => d < loc_depth x) new ->
  count_deeper d (rev (l ++ new)) = (length new + count_deeper d (rev l))%nat.
Proof.
  intros H. rewrite rev_app_distr. apply Forall_rev in H. rewrite <- (length_rev new).
  induction (rev new) as [|x xs IH]; simpl; [done|]. apply Forall_cons in H as [H1 H2].
  destruct (Z.ltb_spec d (loc_depth x)); [|lia]. by rewrite IH.
Qed.
Lemma count_deeper_none d l : Forall (fun x => loc_depth x <= d) l -> count_deeper d (rev l) = 0%nat.
Proof.
  intros H. apply Forall_rev in H. destruct (rev l) as [|x xs]; simpl; [done|]. apply Forall_cons in H as [H _].
  destruct (Z.ltb_spec d (loc_depth x)); [lia|done].
Qed.
Lemma count_deeper_le d l : (count_deeper d l <= length l)%nat.
Proof. induction l as [|x l IH]; simpl; [lia|]. destruct (_ <? _); simpl; lia. Qed.

Lemma scoped_after strict c c' new nb : changes c c' new nb -> scoped strict c -> scoped strict c'.
Proof.
  intros H [[H0 H1] H2]. pose proof (spaced_le _ _ _ (ch_breaks _ _ _ _ H)). destruct H. split.
  - rewrite ch_locals0, ch_depth0. split; [done|]. apply Forall_app. split; [done|]. eapply Forall_impl; [exact ch_new0|]. simpl. lia.
  - rewrite ch_loops0, ch_depth0. revert H2. destruct (loops (c_current c)); simpl; [done|]. intros [? ?]. split; [lia|done].
Qed.

Lemma target_after strict c c' new nb t_end : changes c c' new nb -> scoped strict c -> (strict = true \/ new = []) ->
  target_of c' t_end = target_of c t_end.
Proof.
  intros [] [_ H] Hn. unfold target_of, locals_above. rewrite ch_loops0. fold (locals_of c') (locals_of c).
  destruct (loops (c_current c)) as [|L rest]; [done|]. simpl. do 2 f_equal. rewrite ch_locals0. destruct Hn as [->| ->].
  - rewrite count_deeper_app, length_app by (eapply Forall_impl; [exact ch_new0|]; simpl; lia). lia.
  - by rewrite app_nil_r.
Qed.

Lemma spec_ext strict o m m' P : (forall c, m c = m' c) -> spec strict o m P -> spec strict o m' P.
Proof. intros E H c c' Hv Hs Hm. apply H; [done..|]. by rewrite E. Qed.
Lemma spec_weaken strict strict' o o' m (P Q : layout) :
  spec strict o m P -> (forall c, scoped strict' c -> scoped strict c) -> (o' = false -> o = false) ->
  (forall K L Γ a b Γ', P K L Γ a b Γ' -> (a <= b)%nat -> Q K L Γ a b Γ') -> spec strict' o' m Q.
Proof.
  intros H Hs Ho HPQ c c' Hv Hsc Hm He. destruct (H c c' Hv (Hs c Hsc) Hm He) as (new & nb & Hch & Hnew & HK).
  exists new, nb. split_and!; [done|auto|]. intros K t_end H1 H2. apply HPQ; [by apply HK|].
  eapply spaced_le, Hch.
Qed.
Lemma scoped_weaken c : scoped true c -> scoped false c.
Proof. intros [[H0 H1] H2]. split; [split; [lia|done]|]. destruct (loops (c_current c)); [done|]. split; [|lia]. by destruct H2. Qed.

(** The finished chunk, seen from the state between two actions. *)
Lemma shows_first K c c1 c' new1 nb1 new2 nb2 :
  changes c c1 new1 nb1 -> changes c1 c' new2 nb2 -> shows K c' (csize c) (csize c') (nb1 ++ nb2) ->
  shows K c1 (csize c) (csize c1) nb1 /\ shows K c' (csize c1) (csize c') nb2.
Proof.
  intros H1 H2 Hs. pose proof (spaced_le _ _ _ (ch_breaks _ _ _ _ H1)). pose proof (spaced_le _ _ _ (ch_breaks _ _ _ _ H2)).
  split; (eapply shows_before; [exact Hs|lia|lia| | |]); try apply H2; try done.
  - intros i Hi Hb. split; [|apply (ch_code _ _ _ _ H2); lia]. intros b [Hb1|Hb2]%elem_of_app; [auto|].
    destruct (spaced_in _ _ _ _ (ch_breaks _ _ _ _ H2) Hb2). lia.
  - intros i Hi Hb. split; [|done]. intros b [Hb1|Hb2]%elem_of_app; [|auto].
    destruct (spaced_in _ _ _ _ (ch_breaks _ _ _ _ H1) Hb1). lia.
Qed.
Lemma filled_app K a b t_end : filled K (a ++ b) t_end -> filled K a t_end /\ filled K b t_end.
Proof. intros H. split; intros x Hx; apply H, elem_of_app; auto. Qed.
Lemma names_after c c' new nb : changes c c' new nb -> names_of c' = names_of c ++ (loc_name <$> new).
Proof. intros []. unfold names_of. by rewrite ch_locals0, fmap_app. Qed.

Lemma spec_seq strict o1 o2 m1 m2 P Q : spec strict o1 m1 P -> spec strict o2 m2 Q -> mono m2 -> strict || negb o1 = true ->
  spec strict (o1 || o2) (m1 ;; m2) (then_ P Q).
Proof.
  intros H1 H2 Hm Ho c c' Hv Hs E He. apply bind_inv in E as ([] & c1 & E1 & E2).
  destruct (H1 c c1 Hv Hs E1 (mono_before _ _ _ _ Hm E2 He)) as (new1 & nb1 & C1 & N1 & K1).
  destruct (H2 c1 c' (ch_valid _ _ _ _ C1) (scoped_after _ _ _ _ _ C1 Hs) E2 He) as (new2 & nb2 & C2 & N2 & K2).
  exists (new1 ++ new2), (nb1 ++ nb2). split_and!; [by eapply changes_trans| |].
  { intros [-> ->]%orb_false_iff. by rewrite N1, N2. }
  intros K t_end HK Hf. destruct (shows_first _ _ _ _ _ _ _ _ C1 C2 HK) as [HK1 HK2]. apply filled_app in Hf as [Hf1 Hf2].
  exists (csize c1), (names_of c1). split_and!;
    [|..|eapply spaced_le, (ch_breaks _ _ _ _ C1)|eapply spaced_le, (ch_breaks _ _ _ _ C2)].
  - rewrite (names_after _ _ _ _ C1). by apply K1.
  - rewrite fmap_app, app_assoc, <- (names_after _ _ _ _ C1).
    rewrite <- (target_after strict c c1 new1 nb1 t_end C1 Hs); [by apply K2|].
    destruct strict; [by left|right]. destruct o1; [done|]. auto.
Qed.

(** *** Single instructions *)

(** Layouts that leave the variables alone. *)
Definition plain (P : image -> list (list Z) -> nat -> nat -> Prop) : layout := fun K L Γ a b Γ' => Γ' = Γ /\ P K Γ a b.

Lemma changes_of_grows c c' : grows (csize c) c c' -> changes c c' [] [].
Proof.
  intros []. split; unfold locals_of, depth_of; rewrite ?g_current0, ?app_nil_r; try done.
  destruct (loops (c_current c)) as [|[]]; simpl; [done|]. by rewrite app_nil_r.
Qed.

Lemma spec_plain (m : C unit) P :
  (forall c c', valid c -> m c = (tt, c') -> had_error c' = false ->
     grows (csize c) c c' /\ forall K, shows K c' (csize c) (csize c') [] -> P K (names_of c) (csize c) (csize c')) ->
  spec false false m (plain P).
Proof.
  intros H c c' Hv _ E He. destruct (H c c' Hv E He) as [Hg HK]. exists [], []. split_and!; [by apply changes_of_grows|done|].
  intros K t_end Hs _. split; [by rewrite app_nil_r|]. by apply HK.
Qed.

Lemma shows_at K c c' bs k b : emits c c' bs -> shows K c' (csize c) (csize c') [] -> bs !! k = Some b ->
  im_code K !! (csize c + k)%nat = Some b.
Proof.
  intros He Hs Hk. rewrite (sh_code _ _ _ _ _ Hs), (emits_at _ _ _ k He); [done| |by intros ? ?%not_elem_of_nil].
  rewrite (emits_size _ _ _ He). apply lookup_lt_Some in Hk. lia.
Qed.
Lemma shows_arg K c c' op n : emits c c' (opcode_byte op :: arg_bytes n) -> shows K c' (csize c) (csize c') [] ->
  0 <= n <= 0xFFFF -> arg_at K (csize c) op n /\ csize c' = (csize c + 3)%nat.
Proof.
  intros He Hs Hn. split; [|by rewrite (emits_size _ _ _ He)]. pose proof (shows_at _ _ _ _ 0 _ He Hs eq_refl) as H0.
  pose proof (shows_at _ _ _ _ 1 _ He Hs eq_refl) as H1. pose proof (shows_at _ _ _ _ 2 _ He Hs eq_refl) as H2.
  rewrite Nat.add_0_r in H0. split; [done|]. split_and!; [lia|lia|by rewrite <- Nat.add_1_r|].
  by replace (S (S (csize c))) with (csize c + 2)%nat by lia.
Qed.

Lemma spec_op op l : spec false false (emit_op op l) (plain (fun K Γ a b => op_at K a op /\ b = (a + 1)%nat)).
Proof.
  apply spec_plain. intros c c' Hv E _. apply emit_op_emits in E; [|done]. split; [by eapply emits_grows|].
  intros K Hs. pose proof (shows_at _ _ _ _ 0 _ E Hs eq_refl) as H0. rewrite Nat.add_0_r in H0.
  split; [done|]. by rewrite (emits_size _ _ _ E).
Qed.
Lemma spec_arg op n l : 0 <= n <= 0xFFFF ->
  spec false false (emit_op op l ;; emit_short n l) (plain (fun K Γ a b => arg_at K a op n /\ b = (a + 3)%nat)).
Proof.
  intros Hn. apply spec_plain. intros c c' Hv E _. apply emit_arg_emits in E; [|done..]. split; [by eapply emits_grows|].
  intros K Hs. by apply (shows_arg _ _ _ _ _ E).
Qed.
(** The same, for code behind a change of the tables. *)
Lemma grows_then_arg c c1 c' op n : grows (csize c) c c1 -> csize c1 = csize c -> emits c1 c' (opcode_byte op :: arg_bytes n) ->
  grows (csize c) c c' /\ (forall K, shows K c' (csize c) (csize c') [] -> 0 <= n <= 0xFFFF ->
    arg_at K (csize c) op n /\ csize c' = (csize c + 3)%nat).
Proof.
  intros H1 Hc H2. split; [eapply grows_trans; [exact H1|by eapply emits_grows|lia]|]. rewrite <- Hc. intros K Hs Hn. by apply (shows_arg _ _ _ _ _ H2).
Qed.

Lemma spec_constant v l : spec false false (emit_constant v l) (plain (fun K Γ a b => exists i,
  arg_at K a OP_CONST (Z.of_nat i) /\ im_consts K !! i = Some v /\ b = (a + 3)%nat)).
Proof.
  apply spec_plain. intros c c' Hv E He. apply bind_inv in E as (i & c1 & E1 & E2).
  destruct (Z.ltb_spec 0xFFFF (Z.of_nat i)); [apply is_err_report in E2; congruence|].
  apply add_constant_grows in E1 as (G1 & S1 & _ & I1); [|done]. apply emit_arg_emits in E2; [|apply G1|lia].
  destruct (grows_then_arg c c1 c' OP_CONST (Z.of_nat i) G1 S1 E2) as [G HK]. split; [done|]. intros K Hs.
  destruct (HK K Hs ltac:(lia)) as [H1 H2]. exists i. split_and!; [done| |done].
  eapply prefix_lookup_Some; [|apply Hs]. by rewrite (e_consts _ _ _ E2).
Qed.

Lemma resolve_position c name : resolve_local c name = position_of name (rev (names_of c)).
Proof.
  unfold resolve_local, names_of. fold (locals_of c). change (loc_name <$> locals_of c) with (map loc_name (locals_of c)). rewrite <- map_rev.
  induction (rev (locals_of c)) as [|l ls IH]; simpl; [done|]. case_bool_decide; [|done]. by rewrite length_map.
Qed.
Lemma position_lt name ns i : position_of name (rev ns) = Some i -> ns !! i = Some name.
Proof.
  induction ns as [|n ns IH] using rev_ind; [done|]. rewrite rev_unit. simpl. case_bool_decide as E.
  - intros [= <-]. by rewrite length_rev, lookup_app_r, Nat.sub_diag, E by lia.
  - intros H. apply IH in H. by apply lookup_app_l_Some.
Qed.

(** The instruction that [emit_variable] and an assignment end with. *)
Lemma spec_variable local global name l : spec false false (emit_variable local global name l)
  (plain (fun K Γ a b => access_at K Γ a local global name /\ b = (a + 3)%nat)).
Proof.
  apply spec_plain. intros c c' Hv E He. apply bind_inv in E as (slot & c1 & [= <- <-] & E2). unfold access_at.
  rewrite resolve_position in E2. destruct (position_of name (rev (names_of c))) as [i|] eqn:Hi.
  - apply position_lt, lookup_lt_Some in Hi. unfold names_of in Hi. rewrite length_fmap in Hi. pose proof (valid_locals _ Hv).
    apply emit_arg_emits in E2; [|done|lia]. split; [by eapply emits_grows|]. intros K Hs. apply (shows_arg _ _ _ _ _ E2); [done|lia].
  - apply bind_inv in E2 as (i & c1 & E1 & E2). apply add_string_grows in E1 as (G1 & S1 & _ & n & -> & Hn); [|done].
    assert (Hg : exists bs, emits c1 c' bs).
    { apply bind_inv in E2 as (? & c2 & E2 & E3). apply emit_op_emits in E2; [|apply G1].
      apply bind_inv in E3 as (? & c3 & E3 & E4). apply emit_byte_emits in E3; [|apply E2].
      apply emit_byte_emits in E4; [|apply E3]. eexists. eapply emits_trans, emits_trans; eassumption. }
    destruct Hg as [bs Hg]. split; [eapply grows_trans; [exact G1|by eapply emits_grows|lia]|]. intros K Hs.
    assert (Hl : Z.of_nat n <= 0xFFFF).
    { assert (HK : im_strings K !! n = Some name) by (eapply prefix_lookup_Some; [|apply Hs]; by rewrite (e_code_rest _ _ _ Hg)).
      apply lookup_lt_Some in HK. pose proof (sh_names _ _ _ _ _ Hs). lia. }
    apply emit_arg_emits in E2; [|apply G1|lia]. destruct (grows_then_arg c c1 c' _ _ G1 S1 E2) as [_ HK].
    destruct (HK K Hs ltac:(lia)) as [H1 H2]. split; [|done]. exists n. split; [done|].
    eapply prefix_lookup_Some; [|apply Hs]. by rewrite (e_code_rest _ _ _ E2).
Qed.

(** *** Jumps *)

Lemma changes_patch c c2 c' new nb o : changes c c2 new nb -> patches o c2 c' -> (csize c <= o)%nat -> changes c c' new nb.
Proof.
  intros H [[] Hs Hc _] Ho. pose proof (spaced_le _ _ _ (ch_breaks _ _ _ _ H)). destruct H.
  split; unfold locals_of, depth_of in *; rewrite ?g_current0, ?Hs; try done; try (by etrans).
  intros i Hi. rewrite Hc by lia. auto.
Qed.

(** A jump that has been patched at [c2], in the finished chunk. *)
Lemma shows_jump K op c c1 c2 c3 c' lo hi holes :
  emits c c1 [opcode_byte op; 0xFF; 0xFF] -> patches (S (csize c)) c2 c3 -> (csize c1 <= csize c2)%nat ->
  code_of c2 !! csize c = code_of c1 !! csize c -> shows K c' lo hi holes -> (lo <= csize c)%nat -> (csize c2 <= hi)%nat ->
  (forall i, (csize c <= i < csize c + 3)%nat ->
     (forall b, b ∈ holes -> i <> b /\ i <> S b) /\ code_of c' !! i = code_of c3 !! i) ->
  jump_at K (csize c) op (csize c2).
Proof.
  intros He [_ _ Hc Harg] H12 E2 Hs Hlo Hhi Hi. pose proof (emits_size _ _ _ He) as S1. simpl in S1.
  pose proof (sh_size _ _ _ _ _ Hs). pose proof (sh_end _ _ _ _ _ Hs). destruct Harg as [A1 A2]; [lia|lia|].
  assert (HK : forall i, (csize c <= i < csize c + 3)%nat -> im_code K !! i = code_of c3 !! i).
  { intros i Hi'. destruct (Hi i Hi') as [Hb E]. rewrite (sh_code _ _ _ _ _ Hs) by (done || lia). done. }
  split; [lia|]. split; [|split_and!; [lia|lia|..]].
  - unfold op_at. rewrite HK by lia. rewrite Hc by lia. rewrite E2. pose proof (emits_at _ _ _ 0 He) as E0. rewrite Nat.add_0_r in E0. done.
  - rewrite HK by lia. by replace (csize c2 - (csize c + 3))%nat with (csize c2 - (S (csize c) + 2))%nat by lia.
  - rewrite HK by lia. by replace (csize c2 - (csize c + 3))%nat with (csize c2 - (S (csize c) + 2))%nat by lia.
Qed.

Lemma spec_skip strict o op l m P : spec strict o m P ->
  spec strict o (j ← emit_jump op l; m ;; patch_jump j) (fun K L Γ a b Γ' => jump_at K a op b /\ P K L Γ (a + 3)%nat b Γ').
Proof.
  intros Hm c c' Hv Hs E He. apply bind_inv in E as (j & c1 & E1 & E). apply emit_jump_emits in E1 as [E1 ->]; [|done].
  apply bind_inv in E as ([] & c2 & E2 & E3). pose proof (mono_before _ _ _ _ (mono_patch _) E3 He) as He2.
  pose proof (changes_of_grows _ _ (emits_grows _ _ _ E1)) as C1. pose proof (emits_size _ _ _ E1) as S1. simpl in S1.
  destruct (Hm c1 c2 (e_valid _ _ _ E1) (scoped_after _ _ _ _ _ C1 Hs) E2 He2) as (new & nb & C2 & N2 & K2).
  apply patch_jump_patches in E3; [|apply C2]. pose proof (spaced_le _ _ _ (ch_breaks _ _ _ _ C2)).
  exists new, nb. split_and!; [apply (changes_patch _ _ _ _ _ _ (changes_trans _ _ _ _ _ _ _ C1 C2) E3); lia|done|].
  pose proof (p_size _ _ _ E3) as S3. intros K t_end HK Hf. split.
  - rewrite S3. apply (shows_jump K op c c1 c2 c' c' (csize c) (csize c') nb); try done; try lia.
    + apply (ch_code _ _ _ _ C2). lia.
    + intros i Hi. split; [|done]. intros b Hb. destruct (spaced_in _ _ _ _ (ch_breaks _ _ _ _ C2) Hb). lia.
  - rewrite <- S1, S3, <- (target_after strict c c1 [] [] t_end C1 Hs) by by right.
    assert (Hn : names_of c1 = names_of c) by (unfold names_of, locals_of; by rewrite (e_current _ _ _ E1)). rewrite <- Hn.
    apply K2; [|done]. apply (shows_before K c2 c' (csize c) (csize c') nb); try lia; try done; try apply (p_grows _ _ _ E3).
    intros i Hi Hb. split; [done|]. apply (p_code _ _ _ E3); lia.
Qed.

Lemma closed_names c c' nb : changes c c' [] nb -> names_of c' = names_of c.
Proof. intros H. rewrite (names_after _ _ _ _ H). apply app_nil_r. Qed.

(** Two branches: the jump over the first one lands in the second, the jump
    at the end of the first one behind the second. *)
Lemma spec_either strict op1 op2 l m1 m2 P Q : spec strict false m1 P -> spec strict false m2 Q -> mono m2 ->
  spec strict false (j1 ← emit_jump op1 l; m1 ;; j2 ← emit_jump op2 l; patch_jump j1 ;; m2 ;; patch_jump j2)
    (fun K L Γ a b Γ' => Γ' = Γ /\ exists p, jump_at K a op1 (p + 3)%nat /\ P K L Γ (a + 3)%nat p Γ /\
       jump_at K p op2 b /\ Q K L Γ (p + 3)%nat b Γ).
Proof.
  intros H1 H2 Hm2 c c' Hv Hs E He. apply bind_inv in E as (j1 & c1 & E1 & E). apply emit_jump_emits in E1 as [E1 ->]; [|done].
  apply bind_inv in E as ([] & c2 & E2 & E). apply bind_inv in E as (j2 & c3 & E3 & E). apply bind_inv in E as ([] & c4 & E4 & E).
  apply bind_inv in E as ([] & c5 & E5 & E6). pose proof (mono_before _ _ _ _ (mono_patch _) E6 He) as He5.
  pose proof (mono_before _ _ _ _ Hm2 E5 He5) as He4. pose proof (mono_before _ _ _ _ (mono_patch _) E4 He4) as He3.
  pose proof (mono_before _ _ _ _ (mono_emit_jump _ _) E3 He3) as He2.
  pose proof (changes_of_grows _ _ (emits_grows _ _ _ E1)) as C1. pose proof (emits_size _ _ _ E1) as S1. simpl in S1.
  destruct (H1 c1 c2 (e_valid _ _ _ E1) (scoped_after _ _ _ _ _ C1 Hs) E2 He2) as (new1 & nb1 & C2 & N1 & K1).
  rewrite N1 in * by done. apply emit_jump_emits in E3 as [E3 ->]; [|apply C2].
  pose proof (changes_of_grows _ _ (emits_grows _ _ _ E3)) as C3. pose proof (emits_size _ _ _ E3) as S3. simpl in S3.
  apply patch_jump_patches in E4; [|apply C3]. pose proof (p_size _ _ _ E4) as S4.
  pose proof (spaced_le _ _ _ (ch_breaks _ _ _ _ C2)). pose proof (ch_breaks _ _ _ _ C2) as B1.
  pose proof (changes_trans _ _ _ _ _ _ _ C1 (changes_trans _ _ _ _ _ _ _ C2 C3)) as C13.
  pose proof (changes_patch _ _ _ _ _ _ C13 E4 ltac:(lia)) as C4. simpl in C4. rewrite app_nil_r in C4.
  destruct (H2 c4 c5 (ch_valid _ _ _ _ C4) (scoped_after _ _ _ _ _ C4 Hs) E5 He5) as (new2 & nb2 & C5 & N2 & K2).
  rewrite N2 in * by done. apply patch_jump_patches in E6; [|apply C5]. pose proof (p_size _ _ _ E6) as S6.
  pose proof (spaced_le _ _ _ (ch_breaks _ _ _ _ C5)). pose proof (ch_breaks _ _ _ _ C5) as B2.
  pose proof (changes_patch _ _ _ _ _ _ (changes_trans _ _ _ _ _ _ _ C4 C5) E6 ltac:(lia)) as C6. simpl in C6.
  assert (Hn1 : names_of c1 = names_of c) by by eapply closed_names.
  assert (Hn4 : names_of c4 = names_of c) by by eapply closed_names.
  exists [], (nb1 ++ nb2). split_and!; [done|done|]. intros K t_end HK Hf. apply filled_app in Hf as [Hf1 Hf2].
  split; [by rewrite app_nil_r|]. exists (csize c2).
  assert (Hh : forall i, (i < csize c1 \/ csize c2 <= i < csize c4)%nat -> forall b, b ∈ nb1 ++ nb2 -> i <> b /\ i <> S b).
  { intros i Hi b [Hb|Hb]%elem_of_app; [destruct (spaced_in _ _ _ _ B1 Hb)|destruct (spaced_in _ _ _ _ B2 Hb)]; lia. }
  assert (Hl : forall i, (i < csize c4)%nat -> i <> S (csize c2) -> i <> S (S (csize c2)) -> code_of c' !! i = code_of c4 !! i).
  { intros i Hi Hne1 Hne2. rewrite (p_code _ _ _ E6) by done. by apply (ch_code _ _ _ _ C5). }
  split_and!.
  - replace (csize c2 + 3)%nat with (csize c3) by lia.
    apply (shows_jump K op1 c c1 c3 c4 c' (csize c) (csize c') (nb1 ++ nb2)); try done; try lia.
    + rewrite (ch_code _ _ _ _ C3) by lia. apply (ch_code _ _ _ _ C2). lia.
    + intros i Hi. split; [apply Hh; lia|]. apply Hl; lia.
  - rewrite <- S1, <- Hn1, <- (target_after strict c c1 [] [] t_end C1 Hs) by by right.
    rewrite <- (app_nil_r (names_of c1)) at 2. change (@nil (list Z)) with (loc_name <$> []). apply K1; [|done].
    apply (shows_before K c2 c' (csize c) (csize c') (nb1 ++ nb2)); try lia; try done.
    + intros i Hi Hb. split.
      * intros b [Hb1|Hb2]%elem_of_app; [auto|]. destruct (spaced_in _ _ _ _ B2 Hb2). lia.
      * rewrite Hl by lia. rewrite (p_code _ _ _ E4) by lia. apply (ch_code _ _ _ _ C3). lia.
    + etrans; [apply C3|]. etrans; [apply (p_grows _ _ _ E4)|]. etrans; [apply C5|apply (p_grows _ _ _ E6)].
    + etrans; [apply C3|]. etrans; [apply (p_grows _ _ _ E4)|]. etrans; [apply C5|apply (p_grows _ _ _ E6)].
  - rewrite S6. apply (shows_jump K op2 c2 c3 c5 c' c' (csize c) (csize c') (nb1 ++ nb2)); try done; try lia.
    + rewrite (ch_code _ _ _ _ C5) by lia. apply (p_code _ _ _ E4); lia.
    + intros i Hi. split; [apply Hh; lia|done].
  - replace (csize c2 + 3)%nat with (csize c4) by lia. rewrite S6, <- Hn4, <- (target_after strict c c4 [] nb1 t_end C4 Hs) by by right.
    rewrite <- (app_nil_r (names_of c4)) at 2. change (@nil (list Z)) with (loc_name <$> []). apply K2; [|done].
    apply (shows_before K c5 c' (csize c) (csize c') (nb1 ++ nb2)); try lia; try done; try apply (p_grows _ _ _ E6).
    intros i Hi Hb. split; [|apply (p_code _ _ _ E6); lia].
    intros b [Hb1|Hb2]%elem_of_app; [|auto]. destruct (spaced_in _ _ _ _ B1 Hb1). lia.
Qed.

(** ** Expressions *)

Lemma spec_unless strict o m P : spec strict o m P -> spec strict o (unless_error m) P.
Proof.
  intros H c c' Hv Hs E He. unfold unless_error in E. destruct (had_error c) eqn:Hc; [|by apply H]. injection E as <-. congruence.
Qed.
Lemma compile_expr_eq e : compile AsExpr e = unless_error (compile_expr_node (compile AsExpr) (compile AsBlockExpr) e).
Proof. by destruct e. Qed.
Lemma spec_error l msg : spec false false (compile_error l msg) (fun _ _ _ _ _ _ => False).
Proof. intros c c' _ _ E He. apply is_err_report in E. congruence. Qed.

Lemma mono_compile_all es : mono (compile_all (compile AsExpr) es).
Proof. induction es; simpl; mono_auto. Qed.
#[export] Hint Resolve mono_compile_all : compiler_mono.

Definition expr_code (e : AstNode) : layout := plain (fun K Γ a b => code_expr K Γ a e b).
Definition args_code (es : list AstNode) : layout := plain (fun K Γ a b => code_args K Γ a es b).

(** Sequences of actions that leave the variables alone. *)
Ltac spec_parts := repeat first
  [ eassumption | apply spec_op | apply spec_constant | apply spec_variable | apply spec_error
  | eapply (spec_seq false false); [| |solve [mono_auto]|done] ].
(** What they add up to. *)
Ltac layout_parts := intros; unfold expr_code, args_code, then_, plain in *;
  repeat match goal with H : exists _, _ |- _ => destruct H | H : _ /\ _ |- _ => destruct H end; subst;
  repeat rewrite <- Nat.add_assoc in *; cbn [Nat.add] in *.

Lemma spec_ret : spec false false (mret tt) (plain (fun K Γ a b => b = a)).
Proof. apply spec_plain. intros c c' Hv [= <-] _. split; [by apply grows_refl|done]. Qed.

Lemma spec_call_regular l f args : spec false false (compile AsExpr f) (expr_code f) ->
  spec false false (compile_all (compile AsExpr) args) (args_code args) -> (length args <= 255)%nat ->
  spec false false (compile_regular_call (compile AsExpr) l f args) (expr_code (NODE_CALL l f args)).
Proof.
  intros Hf Ha Hl. eapply spec_weaken.
  - eapply spec_seq; [exact Hf| |mono_auto|done]. eapply spec_seq; [exact Ha| |mono_auto|done]. apply spec_arg. lia.
  - done.
  - done.
  - intros K L Γ a b Γ' (p & ? & [-> H1] & (q & ? & [-> H2] & (-> & H3 & ->) & _) & _) _. split; [done|]. by econstructor.
Qed.

Lemma compile_simple_call l l' name args : simple_call name = true ->
  compile_call (compile AsExpr) l (NODE_IDENT l' name) args = compile_regular_call (compile AsExpr) l (NODE_IDENT l' name) args.
Proof.
  unfold simple_call, compile_call. destruct (named name "push"), (named name "pop"), (named name "get_stats"); try done.
  destruct (find_builtin builtin_functions name); done.
Qed.

Lemma spec_set_variable l name : spec false false
  (slot ← gets (fun c => resolve_local c name);
   match slot with
   | Some i =>
       const ← gets (is_const_slot i);
       if const : bool then compile_error l "cannot assign to constant" else emit_op OP_SET_LOCAL l ;; emit_short (Z.of_nat i) l
   | None => index ← add_string name; emit_op OP_SET_GLOBAL l ;; emit_short index l
   end)
  (plain (fun K Γ a b => access_at K Γ a OP_SET_LOCAL OP_SET_GLOBAL name /\ b = (a + 3)%nat)).
Proof.
  intros c c' Hv Hs E He. apply (spec_variable OP_SET_LOCAL OP_SET_GLOBAL name l c c' Hv Hs); [|done].
  unfold emit_variable, mbind, C_bind, gets in *. destruct (resolve_local c name) as [i|]; [|done].
  destruct (is_const_slot i c); [|done]. apply is_err_report in E. congruence.
Qed.

Lemma assign_op_compound op b : compound op = Some b -> exists o, assign_op op = [o] /\ binary_op b = Some o /\ is_plain_assign op = false.
Proof. destruct op; intros [= <-]; eexists; done. Qed.

Lemma regroup_skip (e : C nat) (a b : C unit) (k : nat -> C unit) c :
  (j ← e; (a ;; b) ;; k j) c = (j ← e; a ;; b ;; k j) c.
Proof. unfold mbind, C_bind. destruct (e c) as [j c1]. by destruct (a c1) as [[] c2]. Qed.
Lemma regroup_either (e1 e2 : C nat) (a b x y : C unit) (p k : nat -> C unit) c :
  (j1 ← e1; (a ;; b) ;; j2 ← e2; p j1 ;; (x ;; y) ;; k j2) c = (j1 ← e1; a ;; b ;; j2 ← e2; p j1 ;; x ;; y ;; k j2) c.
Proof.
  unfold mbind, C_bind. destruct (e1 c) as [j c1]. destruct (a c1) as [[] c2]. destruct (b c2) as [[] c3].
  destruct (e2 c3) as [j2 c4]. destruct (p j c4) as [[] c5]. by destruct (x c5).
Qed.

Theorem compile_expr_layout :
  (forall e, frag_expr e -> spec false false (compile AsExpr e) (expr_code e)) /\
  (forall es, frag_args es -> spec false false (compile_all (compile AsExpr) es) (args_code es)).
Proof.
  apply frag_expr_ind2.
  - intros l. apply spec_unless. eapply spec_weaken; [apply spec_op|done..|]. layout_parts. split; [done|by constructor].
  - intros l b. apply spec_unless. eapply spec_weaken; [apply spec_op|done..|]. layout_parts. split; [done|by constructor].
  - intros l i. apply spec_unless. eapply spec_weaken; [apply spec_constant|done..|]. layout_parts. split; [done|by econstructor].
  - intros l d. apply spec_unless. eapply spec_weaken; [apply spec_constant|done..|]. layout_parts. split; [done|by econstructor].
  - intros l name. apply spec_unless. eapply spec_weaken; [apply spec_variable|done..|]. layout_parts. split; [done|by constructor].
  - intros l op x y _ Hx _ Hy. rewrite compile_expr_eq. apply spec_unless. destruct (decide (op = TOK_AND)) as [->|Hand]; [|destruct (decide (op = TOK_OR)) as [->|Hor]].
    + eapply spec_weaken; [eapply spec_seq; [exact Hx| |unfold emit_jump; mono_auto|done]| | |].
      * eapply spec_ext, (spec_skip false false OP_JUMP_UNLESS l (emit_op OP_POP l ;; compile AsExpr y)); [|spec_parts].
        intros c. apply regroup_skip.
      * done.
      * done.
      * layout_parts. split; [done|]. by eapply code_and.
    + eapply spec_weaken; [eapply spec_seq; [exact Hx| |unfold emit_jump; mono_auto|done]| | |].
      * eapply spec_ext, (spec_either false OP_JUMP_UNLESS OP_JUMP l (mret tt) (emit_op OP_POP l ;; compile AsExpr y));
          [|apply spec_ret|spec_parts|mono_auto]. intros c.
        exact (regroup_either (emit_jump OP_JUMP_UNLESS l) (emit_jump OP_JUMP l) (mret tt) (mret tt) (emit_op OP_POP l) (compile AsExpr y)
          patch_jump patch_jump c).
      * done.
      * done.
      * layout_parts. split; [done|]. by eapply code_or.
    + assert (E : compile_expr_node (compile AsExpr) (compile AsBlockExpr) (NODE_BINARY l op x y) =
        (compile AsExpr x ;; compile AsExpr y ;;
         match binary_op op with Some o => emit_op o l | None => compile_error l "unknown binary operator" end)) by by destruct op.
      rewrite E. destruct (binary_op op) as [o|] eqn:Ho; (eapply spec_weaken; [spec_parts|done..|]); layout_parts; [|done].
      split; [done|]. by eapply code_binary.
  - intros l op x _ Hx. rewrite compile_expr_eq. apply spec_unless. cbn [compile_expr_node]. unfold compile_unary.
    destruct (unary_op op) as [o|] eqn:Ho; destruct op; try done; simplify_eq/=; (eapply spec_weaken; [spec_parts|done..|]);
      layout_parts; try done; split; try done; by eapply code_unary.
  - intros l c x y _ Hc _ Hx _ Hy. apply spec_unless. eapply spec_weaken; [eapply spec_seq; [exact Hc| |unfold emit_jump; mono_auto|done]| | |].
    + eapply spec_ext, (spec_either false OP_JUMP_UNLESS OP_JUMP l (emit_op OP_POP l ;; compile AsExpr x) (emit_op OP_POP l ;; compile AsExpr y));
        [|spec_parts|spec_parts|mono_auto]. intros c'. apply regroup_either.
    + done.
    + done.
    + layout_parts. split; [done|]. by eapply code_ternary.
  - intros l l' name v _ Hv. apply spec_unless. simpl.
    eapply spec_weaken; [eapply spec_seq; [exact Hv|apply spec_set_variable|mono_auto|done]|done..|].
    layout_parts. split; [done|]. by eapply code_assign.
  - intros l l' name op b v Hop _ Hv. apply spec_unless. simpl. destruct (assign_op_compound op b Hop) as (o & Eo & Hb & ->). rewrite Eo.
    eapply spec_weaken; [eapply (spec_seq false false); [|apply spec_set_variable|mono_auto|done]| | |].
    + eapply (spec_seq false false false); [apply spec_unless, spec_variable| |mono_auto|done].
      eapply (spec_seq false false false); [exact Hv| |mono_auto|done]. eapply (spec_seq false false false); [apply spec_op|apply spec_ret|mono_auto|done].
    + done.
    + done.
    + layout_parts. split; [done|]. eapply code_compound; try done. by constructor.
  - intros l l' name args Hc Hl _ Ha. apply spec_unless. cbn [compile_expr_node]. rewrite compile_simple_call by done.
    apply spec_call_regular; [|done|done]. apply spec_unless. eapply spec_weaken; [apply spec_variable|done..|].
    layout_parts. split; [done|by constructor].
  - eapply spec_weaken; [apply spec_ret|done..|]. layout_parts. split; [done|constructor].
  - intros e es _ He _ Hes. eapply spec_weaken; [spec_parts|done..|]. layout_parts. split; [done|by econstructor].
Qed.

(** ** Scopes and loops *)

Lemma spec_loosen strict o m P : spec false o m P -> spec strict o m P.
Proof. intros H. eapply spec_weaken; [exact H| |done|done]. destruct strict; [apply scoped_weaken|done]. Qed.

(** Reading the state does not change it. *)
Lemma spec_gets {A} strict o (f : Compiler -> A) (F : list (list Z) -> nat -> A) (k : A -> C unit) (Q : A -> layout) :
  (forall c, f c = F (names_of c) (csize c)) -> (forall v, spec strict o (k v) (Q v)) ->
  spec strict o (x ← gets f; k x) (fun K L Γ a b Γ' => Q (F Γ a) K L Γ a b Γ').
Proof. intros Hf Hk c c' Hv Hs E He. rewrite <- Hf. by apply (Hk (f c) c c' Hv Hs). Qed.

(** An instruction whose argument may be out of range. *)
Lemma spec_arg_any op n l : spec false false (emit_op op l ;; emit_short n l)
  (plain (fun K Γ a b => (0 <= n <= 0xFFFF -> arg_at K a op n) /\ b = (a + 3)%nat)).
Proof.
  apply spec_plain. intros c c' Hv E _. assert (Hg : exists x y, emits c c' [opcode_byte op; x; y]).
  { apply bind_inv in E as (? & c2 & E2 & E3). apply emit_op_emits in E2; [|done].
    apply bind_inv in E3 as (? & c3 & E3 & E4). apply emit_byte_emits in E3; [|apply E2].
    apply emit_byte_emits in E4; [|apply E3]. eexists _, _. exact (emits_trans _ _ _ _ _ E2 (emits_trans _ _ _ _ _ E3 E4)). }
  destruct Hg as (x & y & Hg). split; [by eapply emits_grows|]. intros K Hs. split; [|by rewrite (emits_size _ _ _ Hg)].
  intros Hn. apply emit_arg_emits in E; [|done..]. by apply (shows_arg _ _ _ _ _ E).
Qed.

Lemma spec_pops n l : spec false false (repeat_emit n OP_POP l) (plain (fun K Γ a b => pops_at K a n /\ b = (a + n)%nat)).
Proof.
  apply spec_plain. intros c c' Hv E _. apply repeat_emit_emits in E; [|done]. split; [by eapply emits_grows|].
  intros K Hs. split; [|by rewrite (emits_size _ _ _ E), length_replicate].
  intros k Hk. eapply shows_at; [done|done|]. by apply lookup_replicate_2.
Qed.

Lemma spec_emit_loop start l : spec false false (emit_loop start l)
  (plain (fun K Γ a b => ((start <= a)%nat -> loop_at K a start) /\ b = (a + 3)%nat)).
Proof.
  apply spec_plain. intros c c' Hv E He. apply bind_inv in E as ([] & c1 & E1 & E).
  apply bind_inv in E as (n & ? & [= <- <-] & E). cbv zeta in E. pose proof E1 as E1'. apply emit_op_emits in E1; [|done].
  pose proof (emits_size _ _ _ E1) as S1. simpl in S1. change (code_size (current_chunk c1)) with (csize c1) in E.
  set (off := u64 (Z.of_nat (csize c1) - Z.of_nat start + 2)) in E.
  destruct (Z.ltb_spec 0xFFFF off); [apply is_err_report in E; congruence|].
  assert (0 <= off) by apply u64_range.
  assert (E' : (emit_op OP_LOOP l ;; emit_short off l) c = (tt, c')) by (unfold mbind, C_bind; by rewrite E1').
  apply emit_arg_emits in E'; [|done|lia]. split; [by eapply emits_grows|]. intros K Hs.
  destruct (shows_arg _ _ _ _ _ E' Hs ltac:(lia)) as [H1 H2]. split; [|done]. intros Hle. split; [lia|].
  replace (Z.of_nat (csize c + 3 - start)) with off; [done|]. subst off. rewrite u64_small; [lia|].
  pose proof (sh_size _ _ _ _ _ Hs). pose proof (sh_end _ _ _ _ _ Hs). unfold is_u64. lia.
Qed.

Lemma spec_add_local name const l : spec true true (add_local name const l)
  (fun K L Γ a b Γ' => Γ' = Γ ++ [name] /\ b = a /\ (length Γ < 256)%nat).
Proof.
  intros c c' Hv Hs E He. unfold add_local in E. apply bind_inv in E as (fc & ? & [= <- <-] & E).
  destruct (Nat.leb_spec 256 (length (locals (c_current c)))); [apply is_err_report in E; congruence|].
  destruct (declared_here _ _ _) eqn:Hd; [apply is_err_report in E; congruence|]. injection E as <-.
  exists [mkLocal name (depth_of c) const], []. split_and!; [|done|].
  - split; try done.
    + split; [apply Hv|]. unfold locals_of. simpl. rewrite length_app. simpl. lia.
    + repeat constructor.
    + simpl. destruct (loops (c_current c)) as [|[]]; simpl; [done|]. by rewrite app_nil_r.
    + apply le_n.
  - intros K t_end _ _. split_and!; [done|done|]. unfold names_of. by rewrite length_fmap.
Qed.

(** The end of a scope that has declared [new]: they are popped and forgotten. *)
Lemma end_scope_emits base new d l c c' x : valid c -> locals_of c = base ++ new -> depth_of c = d + 1 ->
  Forall (fun y => loc_depth y <= d) base -> Forall (fun y => loc_depth y = d + 1) new -> end_scope l c = (x, c') ->
  (exists c4, emits (set_current c (set_depth (c_current c) d)) c4 (replicate (length new) (opcode_byte OP_POP)) /\
    c' = set_current c4 (set_locals (c_current c4) base)).
Proof.
  intros Hv Hl Hd Hb Hn E. unfold end_scope in E. apply bind_inv in E as (? & c3 & E3 & E).
  apply bind_inv in E as (d' & ? & E5 & E). apply bind_inv in E as (n & ? & E6 & E). apply bind_inv in E as (? & c4 & E4 & E).
  injection E3 as _ <-. injection E5 as <- <-. injection E6 as <- <-. injection E as _ <-. unfold depth_of in Hd.
  simpl in E4. replace (scope_depth (c_current c) - 1) with d in * by lia. set (c3 := set_current c _) in *.
  assert (En : locals_above d c3 = length new).
  { unfold locals_above. change (locals (c_current c3)) with (locals_of c). rewrite Hl, count_deeper_app.
    - rewrite count_deeper_none by done. lia.
    - eapply Forall_impl; [exact Hn|]. simpl. lia. }
  rewrite En in E4. apply repeat_emit_emits in E4; [|by destruct Hv]. exists c4. split; [done|]. simpl.
  replace (scope_depth (c_current c) - 1) with d in * by lia. fold c3. rewrite En. f_equal. f_equal. rewrite (e_current _ _ _ E4). simpl.
  change (locals (c_current c)) with (locals_of c). rewrite Hl, length_app, Nat.add_sub. by rewrite take_app_length.
Qed.

(** Entering a scope, its contents, and leaving it. *)
Definition entered (c : Compiler) : Compiler := set_current c (set_depth (c_current c) (scope_depth (c_current c) + 1)).
Lemma scoped_entered c : scoped false c -> scoped true (entered c).
Proof.
  intros [[Hs0 Hs1] Hs2]. unfold depth_of in *. split; [split; [unfold depth_of; simpl; lia|]|].
  - eapply Forall_impl; [exact Hs1|]. intros x Hx. unfold depth_of. simpl in *. lia.
  - simpl. change (csize (entered c)) with (csize c). unfold depth_of. simpl. destruct (loops (c_current c)); [done|]. lia.
Qed.

Lemma scope_changes c c2 c' c4 new nb d :
  valid c -> changes (entered c) c2 new nb -> d = depth_of c ->
  emits (set_current c2 (set_depth (c_current c2) d)) c4 (replicate (length new) (opcode_byte OP_POP)) ->
  c' = set_current c4 (set_locals (c_current c4) (locals_of c)) ->
  changes c c' [] nb.
Proof.
  intros Hv C2 -> E4 ->. pose proof (emits_size _ _ _ E4) as S4. rewrite length_replicate in S4. set (c3 := set_current c2 _) in *.
  change (csize c3) with (csize c2) in S4. pose proof (spaced_le _ _ _ (ch_breaks _ _ _ _ C2)).
  set (c' := set_current c4 _). pose proof (ch_breaks _ _ _ _ C2) as B2. split.
  - split; [|apply Hv]. exact (valid_chunk _ (e_valid _ _ _ E4)).
  - simpl. rewrite (e_current _ _ _ E4). apply (ch_chunk _ _ _ _ C2).
  - unfold locals_of. simpl. by rewrite app_nil_r.
  - done.
  - unfold depth_of. simpl. by rewrite (e_current _ _ _ E4).
  - simpl. rewrite (e_current _ _ _ E4). apply (ch_loops _ _ _ _ C2).
  - change (csize c') with (csize c4). rewrite S4. change (csize (entered c)) with (csize c) in B2.
    rewrite <- (app_nil_r nb). apply (spaced_app _ (csize c2)); [exact B2|simpl; lia].
  - apply (ch_inside _ _ _ _ C2).
  - intros i Hi. change (csize c) with (csize (entered c)) in Hi. change (code_of c') with (code_of c4).
    rewrite (emits_below _ _ _ E4) by (change (csize c3) with (csize c2); lia). apply (ch_code _ _ _ _ C2). lia.
  - etrans; [apply (ch_consts _ _ _ _ C2)|]. change (consts_of c') with (consts_of c4). by rewrite (e_consts _ _ _ E4).
  - etrans; [apply (ch_strings _ _ _ _ C2)|]. change (strings (c_code c')) with (strings (c_code c4)).
    by rewrite (e_code_rest _ _ _ E4).
Qed.

(** A scope: what it declares is popped at its end. *)
Lemma spec_scope o m P l : spec true o m P ->
  spec false false (begin_scope ;; m ;; end_scope l) (fun K L Γ a b Γ' => Γ' = Γ /\ exists p Γ1 n,
    P K L Γ a p Γ1 /\ length Γ1 = (length Γ + n)%nat /\ pops_at K p n /\ b = (p + n)%nat).
Proof.
  intros Hm c c' Hv Hs E He. apply bind_inv in E as ([] & c1 & E1 & E). apply bind_inv in E as ([] & c2 & E2 & E).
  injection E1 as <-. pose proof (mono_before _ _ _ _ (mono_end_scope _) E He) as He2.
  destruct (Hm (entered c) c2 ltac:(by destruct Hv) (scoped_entered c Hs) E2 He2) as (new & nb & C2 & _ & K2).
  apply (end_scope_emits (locals_of c) new (depth_of c)) in E as (c4 & E4 & Ec');
    [|apply C2|apply (ch_locals _ _ _ _ C2)|apply (ch_depth _ _ _ _ C2)|apply Hs|apply (ch_new _ _ _ _ C2)].
  pose proof (scope_changes c c2 c' c4 new nb _ Hv C2 eq_refl E4 Ec') as Ch.
  pose proof (emits_size _ _ _ E4) as S4. rewrite length_replicate in S4. set (c3 := set_current c2 _) in *.
  change (csize c3) with (csize c2) in S4. pose proof (spaced_le _ _ _ (ch_breaks _ _ _ _ C2)). pose proof (ch_breaks _ _ _ _ C2) as B2.
  assert (Hcode : forall i, (i < csize c2)%nat -> code_of c' !! i = code_of c2 !! i) by (rewrite Ec'; apply (emits_below _ _ _ E4)).
  assert (Hsz : csize c' = csize c4) by by rewrite Ec'. assert (Hco : code_of c' = code_of c4) by by rewrite Ec'.
  exists [], nb. split_and!; [done|done|]. intros K t_end HK Hf. split; [by rewrite app_nil_r|].
  exists (csize c2), (names_of c ++ (loc_name <$> new)), (length new). split_and!.
  - change (target_of c t_end) with (target_of (entered c) t_end). apply K2; [|done].
    apply (shows_before K c2 c' (csize c) (csize c') nb); try done; try lia.
    + intros i Hi Hb. split; [done|]. apply Hcode. lia.
    + rewrite Ec'. change (consts_of _) with (consts_of c4) at 2. by rewrite (e_consts _ _ _ E4).
    + rewrite Ec'. change (strings (c_code (set_current c4 _))) with (strings (c_code c4)). by rewrite (e_code_rest _ _ _ E4).
  - by rewrite length_app, length_fmap.
  - intros k Hk. unfold op_at. rewrite (sh_code _ _ _ _ _ HK).
    + rewrite Hco. change (csize c2) with (csize c3). rewrite (emits_at _ _ _ k E4). by apply lookup_replicate_2.
    + change (csize (entered c)) with (csize c) in *. lia.
    + intros b Hb. destruct (spaced_in _ _ _ _ B2 Hb). lia.
  - lia.
Qed.

Lemma grows_weaken n m c c' : grows n c c' -> (m <= n)%nat -> grows m c c'.
Proof. intros [] H. split; try done. intros i Hi. apply g_code0. lia. Qed.

(** All the jumps of [break] are patched to the end of the code. *)
Record patched (lo : nat) (nb : list nat) (c c' : Compiler) : Prop := {
  pa_grows : grows lo c c';
  pa_size : csize c' = csize c;
  pa_code : forall i, (forall b, b ∈ nb -> i <> b /\ i <> S b) -> code_of c' !! i = code_of c !! i;
  pa_args : Z.of_nat (csize c) <= 0xFFFF -> forall b, b ∈ nb ->
    code_of c' !! b = Some (Z.of_nat (csize c - (b + 2)) / 2 ^ 8) /\
    code_of c' !! S b = Some (Z.of_nat (csize c - (b + 2)) mod 2 ^ 8)
}.

Lemma patch_all_patched nb : forall lo c c' x, valid c -> spaced lo (csize c) nb -> patch_all nb c = (x, c') -> patched lo nb c c'.
Proof.
  induction nb as [|b nb IH]; intros lo c c' x Hv Hs E.
  - injection E as _ <-. split; [by apply grows_refl|done|done|]. intros _ b Hb. by apply not_elem_of_nil in Hb.
  - destruct Hs as [H1 H2]. apply bind_inv in E as ([] & c1 & E1 & E2). apply patch_jump_patches in E1; [|done].
    pose proof (p_size _ _ _ E1) as S1. rewrite <- S1 in H2. apply (IH (b + 2)%nat) in E2 as [G2 S2 C2 A2]; [|apply E1|done].
    split.
    + eapply (grows_trans lo (b + 2)); [eapply grows_weaken; [apply E1|done]|exact G2|lia].
    + lia.
    + intros i Hi. rewrite C2 by (intros b' Hb'; apply Hi; by apply elem_of_cons; right).
      destruct (Hi b) as [Hi1 Hi2]; [by apply elem_of_cons; left|]. by apply (p_code _ _ _ E1).
    + intros Hsz b' [->|Hb']%elem_of_cons; [|rewrite <- S1; apply A2; [lia|done]].
      pose proof (spaced_le _ _ _ H2). destruct (p_arg _ _ _ E1) as [A B]; [lia|done|].
      rewrite !C2; [done|..]; intros y Hy; destruct (spaced_in _ _ _ _ H2 Hy); lia.
Qed.

Lemma end_loop_patched c c' x L rest lo : valid c -> loops (c_current c) = L :: rest -> spaced lo (csize c) (breaks L) ->
  end_loop c = (x, c') -> patched lo (breaks L) (set_current c (set_loops (c_current c) rest)) c'.
Proof.
  intros Hv Hl Hs E. unfold end_loop in E. apply bind_inv in E as (fc & ? & [= <- <-] & E). rewrite Hl in E.
  apply bind_inv in E as (? & c1 & E1 & E). injection E1 as _ <-. eapply patch_all_patched; [by destruct Hv|done|done].
Qed.

(** The state at the start of a loop's body. *)
Definition looping (c : Compiler) : Compiler :=
  set_current c (set_loops (c_current c) (mkLoop (csize c) [] (depth_of c) :: loops (c_current c))).
Lemma scoped_looping c : scoped false c -> scoped false (looping c).
Proof. intros [Hs _]. split; [exact Hs|]. simpl. split; [done|]. unfold depth_of. simpl. lia. Qed.
Lemma target_looping c t_end : scoped false c -> target_of (looping c) t_end = Some (mkTarget (csize c) (length (names_of c)) t_end).
Proof.
  intros [[_ Hs] _]. unfold target_of, names_of. simpl. rewrite length_fmap. do 2 f_equal. unfold locals_above.
  change (locals (c_current (looping c))) with (locals_of c). rewrite count_deeper_none by done.
  change (locals_of (looping c)) with (locals_of c). lia.
Qed.

Lemma loop_changes c c2 c' nb : valid c -> changes (looping c) c2 [] nb ->
  patched (csize c) nb (set_current c2 (set_loops (c_current c2) (loops (c_current c)))) c' -> changes c c' [] [].
Proof.
  intros Hv C2 [G S _ _]. pose proof (spaced_le _ _ _ (ch_breaks _ _ _ _ C2)) as Hle. change (csize (looping c)) with (csize c) in Hle.
  pose proof (ch_locals _ _ _ _ C2) as L2. pose proof (ch_depth _ _ _ _ C2) as D2. unfold locals_of, depth_of in L2, D2.
  change (csize c' = csize c2) in S. destruct G as [G1 G2 _ _ G4 G5 G6]. split; try done.
  - rewrite G2. apply (ch_chunk _ _ _ _ C2).
  - unfold locals_of. rewrite G2. simpl. by rewrite L2.
  - unfold depth_of. rewrite G2. simpl. by rewrite D2.
  - rewrite G2. simpl. destruct (loops (c_current c)) as [|[]]; simpl; [done|]. by rewrite app_nil_r.
  - simpl. lia.
  - intros i Hi. rewrite G4 by done. apply (ch_code _ _ _ _ C2). done.
  - etrans; [apply (ch_consts _ _ _ _ C2)|exact G5].
  - etrans; [apply (ch_strings _ _ _ _ C2)|exact G6].
Qed.

(** A loop: its body knows where it starts and, in the end, where it ends. *)
Lemma spec_loop (M : nat -> C unit) (Q : nat -> layout) :
  (forall start, spec false false (M start) (Q start)) -> (forall start, mono (M start)) ->
  spec false false (start ← here; begin_loop start ;; M start ;; end_loop)
    (fun K L Γ a b Γ' => Γ' = Γ /\ Q a K (Some (mkTarget a (length Γ) b)) Γ a b Γ).
Proof.
  intros HM Hmono c c' Hv Hs E He. apply bind_inv in E as (start & ? & [= <- <-] & E). change (code_size (current_chunk c)) with (csize c) in E.
  apply bind_inv in E as ([] & c1 & E1 & E). apply bind_inv in E as ([] & c2 & E2 & E3).
  pose proof (mono_before _ _ _ _ mono_end_loop E3 He) as He2. pose proof (mono_before _ _ _ _ (Hmono _) E2 He2) as He1.
  unfold begin_loop in E1. apply bind_inv in E1 as (fc & ? & [= <- <-] & E1).
  destruct (Nat.leb_spec 32 (length (loops (c_current c)))) as [|_]; [apply is_err_report in E1; congruence|].
  injection E1 as <-. destruct (HM (csize c) (looping c) c2 ltac:(by destruct Hv) (scoped_looping c Hs) E2 He2) as (new & nb & C2 & N2 & K2).
  rewrite N2 in * by done. pose proof (ch_breaks _ _ _ _ C2) as B2. change (csize (looping c)) with (csize c) in B2.
  apply (end_loop_patched _ _ _ (mkLoop (csize c) nb (depth_of c)) (loops (c_current c)) (csize c)) in E3;
    [|apply C2|apply (ch_loops _ _ _ _ C2)|done]. exists [], []. split_and!; [by eapply loop_changes|done|].
  intros K t_end HK _. split; [by rewrite app_nil_r|]. rewrite <- (target_looping c) by done. destruct E3 as [G S Hcode Hargs].
  set (c3 := set_current c2 _) in *. change (csize c3) with (csize c2) in *. rewrite S.
  pose proof (spaced_le _ _ _ B2) as Hle. simpl in Hcode, Hargs.
  assert (HK2 : forall i, (csize c <= i < csize c2)%nat -> im_code K !! i = code_of c' !! i).
  { intros i Hi. apply (sh_code _ _ _ _ _ HK); [lia|]. by intros ? ?%not_elem_of_nil. }
  pose proof (sh_size _ _ _ _ _ HK). pose proof (sh_end _ _ _ _ _ HK).
  rewrite <- (app_nil_r (names_of c)) at 2. change (@nil (list Z)) with (loc_name <$> @nil Local_). apply K2.
  - apply (shows_before K c2 c' (csize c) (csize c') []); try done; try lia; try apply G.
    intros i Hi Hb. split; [by intros ? ?%not_elem_of_nil|]. by apply Hcode.
  - intros b Hb. destruct (spaced_in _ _ _ _ B2 Hb). split; [lia|]. destruct (Hargs ltac:(lia) b Hb) as [A1 A2].
    split_and!; [lia|lia|..]; rewrite HK2 by lia; done.
Qed.

(** *** Break and continue *)

(** The instructions that leave the scopes inside of the loop. *)
Lemma loop_pops L rest c e : loops (c_current c) = L :: rest -> exists t,
  target_of c e = Some t /\ t_start t = loop_start L /\ e = t_end t /\
  length (names_of c) = (t_vars t + locals_above (loop_scope L) c)%nat.
Proof.
  intros HL. unfold target_of. rewrite HL. eexists. split_and!; [done..|]. simpl. unfold names_of. rewrite length_fmap.
  pose proof (count_deeper_le (loop_scope L) (rev (locals_of c))) as H. rewrite length_rev in H. unfold locals_above.
  fold (locals_of c). lia.
Qed.

Definition break_code : layout := fun K L Γ a b Γ' => Γ' = Γ /\ exists t n, L = Some t /\
  length Γ = (t_vars t + n)%nat /\ pops_at K a n /\ jump_at K (a + n) OP_JUMP (t_end t) /\ b = (a + n + 3)%nat.
Definition continue_code : layout := fun K L Γ a b Γ' => Γ' = Γ /\ exists t n, L = Some t /\
  length Γ = (t_vars t + n)%nat /\ pops_at K a n /\ loop_at K (a + n) (t_start t) /\ b = (a + n + 3)%nat.

Lemma spec_continue l : spec false false (emit_continue l) continue_code.
Proof.
  intros c c' Hv Hs E He. unfold emit_continue in E. apply bind_inv in E as (fc & ? & [= <- <-] & E).
  destruct (loops (c_current c)) as [|L rest] eqn:HL; [apply is_err_report in E; congruence|].
  apply bind_inv in E as (n & ? & [= <- <-] & E). set (n := locals_above (loop_scope L) c) in E.
  assert (Hm : spec false false (repeat_emit n OP_POP l ;; emit_loop (loop_start L) l) (then_
    (plain (fun K Γ a b => pops_at K a n /\ b = (a + n)%nat))
    (plain (fun K Γ a b => ((loop_start L <= a)%nat -> loop_at K a (loop_start L)) /\ b = (a + 3)%nat)))).
  { eapply (spec_seq false false false); [apply spec_pops|apply spec_emit_loop|mono_auto|done]. }
  destruct (Hm c c' Hv Hs E He) as (new & nb & C & N & HK). exists new, nb. split_and!; [done|done|].
  intros K t_end H1 H2. destruct (HK K t_end H1 H2) as (p & Γ1 & [-> [Hp ->]] & [-> [Hl ->]] & _). split; [done|].
  destruct (loop_pops L rest c t_end HL) as (t & Ht & Hst & _ & Hlen). exists t, n. split_and!; try done.
  rewrite Hst. apply Hl. destruct Hs as [_ Hs]. rewrite HL in Hs. lia.
Qed.

Lemma spec_break l : spec false false (emit_break l) break_code.
Proof.
  intros c c' Hv Hs E He. unfold emit_break in E. apply bind_inv in E as (fc & ? & [= <- <-] & E).
  destruct (loops (c_current c)) as [|L rest] eqn:HL; [apply is_err_report in E; congruence|].
  apply bind_inv in E as (n & ? & [= <- <-] & E). set (n := locals_above (loop_scope L) c) in E.
  apply bind_inv in E as ([] & c1 & E1 & E). apply bind_inv in E as (j & c2 & E2 & E). injection E as <-.
  apply repeat_emit_emits in E1; [|done]. apply emit_jump_emits in E2 as [E2 ->]; [|apply E1].
  pose proof (emits_trans _ _ _ _ _ E1 E2) as E12. set (c' := set_current c2 _) in *.
  pose proof (emits_size _ _ _ E1) as S1. rewrite length_replicate in S1. pose proof (emits_size _ _ _ E2) as S2. simpl in S2.
  pose proof (emits_grows _ _ _ E12) as G. pose proof (g_current _ _ _ G) as Hcur.
  change (csize c') with (csize c2) in *. exists [], [S (csize c1)]. split_and!; [|done|].
  - split; try apply G.
    + destruct (g_valid _ _ _ G). split; [done|]. unfold locals_of, c' in *. simpl. by rewrite Hcur in *.
    + simpl. by rewrite Hcur.
    + unfold locals_of, c'. simpl. by rewrite Hcur, app_nil_r.
    + done.
    + unfold depth_of, c'. simpl. by rewrite Hcur.
    + simpl. by rewrite HL.
    + change (csize c') with (csize c2). simpl. lia.
    + by rewrite HL.
  - intros K t_end HK Hf. split; [by rewrite app_nil_r|].
    destruct (loop_pops L rest c t_end HL) as (t & Ht & Hst & -> & Hlen). exists t, n.
    assert (Hat : forall k b, (k <= n)%nat -> (replicate n (opcode_byte OP_POP) ++ [opcode_byte OP_JUMP; 255; 255]) !! k = Some b ->
      im_code K !! (csize c + k)%nat = Some b).
    { intros k b Hk Hb. rewrite (sh_code _ _ _ _ _ HK).
      - change (code_of c') with (code_of c2). by rewrite (emits_at _ _ _ k E12).
      - change (csize c') with (csize c2). lia.
      - intros b' ->%list_elem_of_singleton. lia. }
    destruct (Hf (S (csize c1))) as [Hf1 Hf2]; [by apply list_elem_of_singleton|]. split_and!; [done|done| | |].
    + intros k Hk. apply Hat; [lia|]. rewrite lookup_app_l by (rewrite length_replicate; lia). by apply lookup_replicate_2.
    + split; [lia|]. split.
      * apply Hat; [done|]. by rewrite lookup_app_r, length_replicate, Nat.sub_diag by (rewrite length_replicate; lia).
      * rewrite <- S1. by replace (t_end t - (csize c1 + 3))%nat with (t_end t - (S (csize c1) + 2))%nat by lia.
    + change (csize c') with (csize c2). lia.
Qed.

(** ** Statements *)

Lemma compile_stmt_eq s : compile AsStmt s =
  unless_error (compile_stmt_node (compile AsExpr) (compile AsStmt) (compile AsIf) (compile AsBlockExpr) s).
Proof. by destruct s. Qed.

Definition each_stmt : list AstNode -> C unit := compile_each (compile AsStmt).
Definition keeping_last (l : Z) : list AstNode -> C unit := compile_keeping_last (compile AsExpr) (compile AsStmt) l.
(** A branch of an [if]. *)
Definition compile_branch (l : Z) (y : option AstNode) : C unit :=
  match y with
  | Some block =>
      match block with
      | NODE_BLOCK _ _ => compile AsBlockExpr block
      | NODE_IF _ _ _ _ => compile AsIf block
      | _ => compile AsExpr block
      end
  | None => emit_op OP_NIL l
  end.

Lemma mono_each ss : mono (each_stmt ss).
Proof. induction ss; simpl; mono_auto. Qed.
Lemma mono_keeping_last l ss : mono (keeping_last l ss).
Proof.
  induction ss as [|s ss IH]; simpl; [mono_auto|]. assert (mono (compile AsStmt s ;; keeping_last l ss)) by mono_auto.
  destruct ss; [|done]. destruct s; try done. apply mono_expr.
Qed.
#[export] Hint Resolve mono_each mono_keeping_last : compiler_mono.
Lemma mono_block_value l ss : mono (compile AsBlockExpr (NODE_BLOCK l ss)).
Proof. simpl. unfold compile_block_value. fold (keeping_last l). mono_auto. Qed.
#[export] Hint Resolve mono_block_value : compiler_mono.

Definition stmt_code (s : AstNode) : layout := fun K L Γ a b Γ' => code_stmt K L Γ a s b Γ'.
Definition stmts_code (ss : list AstNode) : layout := fun K L Γ a b Γ' => code_stmts K L Γ a ss b Γ'.
Definition value_code (ss : list AstNode) : layout := fun K L Γ a b Γ' => code_value K L Γ a ss b Γ'.
Definition branch_code (y : option AstNode) : layout := fun K L Γ a b Γ' => Γ' = Γ /\ code_branch K L Γ a y b.
Definition if_code (n : AstNode) : layout := fun K L Γ a b Γ' => Γ' = Γ /\ code_if K L Γ a n b.

Lemma spec_block l ss : spec true true (each_stmt ss) (stmts_code ss) ->
  spec false false (compile_block (compile AsStmt) l ss) (fun K L Γ a b Γ' => Γ' = Γ /\ code_block K L Γ a ss b).
Proof.
  intros H. eapply spec_weaken; [by apply (spec_scope true (each_stmt ss))|done..|].
  intros K L Γ a b Γ' (-> & p & Γ1 & n & H1 & H2 & H3 & ->) _. split; [done|]. by econstructor.
Qed.

Lemma regroup_while (h e : C nat) (bl lp k : nat -> C unit) (x a b z en : C unit) c0 :
  (s ← h; bl s ;; (x ;; (j ← e; (a ;; b ;; lp s) ;; k j) ;; z) ;; en) c0 =
  (s ← h; bl s ;; x ;; j ← e; a ;; b ;; lp s ;; k j ;; z ;; en) c0.
Proof.
  unfold mbind, C_bind. destruct (h c0) as [s c1]. destruct (bl s c1) as [[] c2]. destruct (x c2) as [[] c3].
  destruct (e c3) as [j c4]. destruct (a c4) as [[] c5]. destruct (b c5) as [[] c6]. destruct (lp s c6) as [[] c7].
  by destruct (k j c7) as [[] c8].
Qed.

Lemma spec_while l l' c ss : spec false false (compile AsExpr c) (expr_code c) -> spec true true (each_stmt ss) (stmts_code ss) ->
  spec false false (compile_while (compile AsExpr) (compile AsStmt) l c (NODE_BLOCK l' ss)) (stmt_code (NODE_WHILE l c (NODE_BLOCK l' ss))).
Proof.
  intros Hc Hss. set (M := fun start => compile AsExpr c ;;
    (j ← emit_jump OP_JUMP_UNLESS l; (emit_op OP_POP l ;; compile AsStmt (NODE_BLOCK l' ss) ;; emit_loop start l) ;; patch_jump j) ;;
    emit_op OP_POP l).
  assert (HM : forall start, spec false false (M start) (then_ (expr_code c) (then_ (fun K L Γ a b Γ' =>
    jump_at K a OP_JUMP_UNLESS b /\ then_ (plain (fun K Γ a b => op_at K a OP_POP /\ b = (a + 1)%nat))
      (then_ (fun K L Γ a b Γ' => Γ' = Γ /\ code_block K L Γ a ss b)
        (plain (fun K Γ a b => ((start <= a)%nat -> loop_at K a start) /\ b = (a + 3)%nat))) K L Γ (a + 3)%nat b Γ')
    (plain (fun K Γ a b => op_at K a OP_POP /\ b = (a + 1)%nat))))).
  { intros start. eapply (spec_seq false false false); [done| |mono_auto|done].
    eapply (spec_seq false false false); [|apply spec_op|mono_auto|done]. apply spec_skip.
    eapply (spec_seq false false false); [apply spec_op| |mono_auto|done].
    eapply (spec_seq false false false); [|apply spec_emit_loop|mono_auto|done].
    rewrite compile_stmt_eq. apply spec_unless. by apply spec_block. }
  eapply spec_weaken; [eapply spec_ext, (spec_loop M _ HM)|done..|].
  - intros c0. exact (regroup_while here (emit_jump OP_JUMP_UNLESS l) begin_loop (fun start => emit_loop start l) patch_jump
      (compile AsExpr c) (emit_op OP_POP l) (compile AsStmt (NODE_BLOCK l' ss)) (emit_op OP_POP l) end_loop c0).
  - intros start. subst M. cbv beta. mono_auto.
  - layout_parts. unfold stmt_code. eapply code_while; try done.
    match goal with H : _ -> loop_at _ _ _ |- _ => apply H; lia end.
Qed.

(** *** Loops over ranges *)

Lemma position_last name Γ : position_of name (rev (Γ ++ [name])) = Some (length Γ).
Proof. rewrite rev_unit. simpl. rewrite bool_decide_true by done. by rewrite length_rev. Qed.

Definition increment_code (slot : Z) : layout := plain (fun K Γ a b => b = (a + 11)%nat /\ (0 <= slot <= 0xFFFF ->
  arg_at K a OP_GET_LOCAL slot /\ (exists i, arg_at K (a + 3) OP_CONST (Z.of_nat i) /\ im_consts K !! i = Some (VInt 1)) /\
  op_at K (a + 6) OP_ADD /\ arg_at K (a + 7) OP_SET_LOCAL slot /\ op_at K (a + 10) OP_POP)).

Lemma spec_increment slot l : spec false false (emit_increment slot l) (increment_code slot).
Proof.
  eapply spec_weaken.
  - eapply (spec_seq false false false); [apply spec_arg_any| |unfold emit_set_local; mono_auto|done].
    eapply (spec_seq false false false); [apply spec_constant| |unfold emit_set_local; mono_auto|done].
    eapply (spec_seq false false false); [apply spec_op| |unfold emit_set_local; mono_auto|done].
    eapply (spec_seq false false false); [apply spec_arg_any|apply spec_op|mono_auto|done].
  - done.
  - done.
  - layout_parts. unfold increment_code, plain. split; [done|]. split; [done|]. intros Hs. split_and!; eauto.
Qed.

Lemma mono_increment slot l : mono (emit_increment slot l).
Proof. unfold emit_increment, emit_get_local, emit_set_local. mono_auto. Qed.
Lemma mono_get_local slot l : mono (emit_get_local slot l).
Proof. unfold emit_get_local. mono_auto. Qed.
#[export] Hint Resolve mono_increment mono_get_local : compiler_mono.

(** The rounds of the loop, between the declarations and the end of the scope. *)
Definition range_rounds (l : Z) (incl : bool) (body : AstNode) (end_slot var_slot : Z) (start : nat) : C unit :=
  emit_get_local var_slot l ;; emit_get_local end_slot l ;; emit_op (if incl then OP_LE else OP_LT) l ;;
  (j ← emit_jump OP_JUMP_UNLESS l; (emit_op OP_POP l ;; compile AsStmt body ;; emit_increment var_slot l ;; emit_loop start l) ;; patch_jump j) ;;
  emit_op OP_POP l.
Definition range_loop (l : Z) (incl : bool) (body : AstNode) (end_slot var_slot : Z) : C unit :=
  start ← here; begin_loop start ;; range_rounds l incl body end_slot var_slot start ;; end_loop.

Lemma regroup_range (h e : C nat) (bl lp k : nat -> C unit) (a1 a2 i : Z -> C unit) (a3 p body z en sc x1 d1 x2 d2 fin : C unit)
    (g1 g2 : C Z) c0 :
  (sc ;; (x1 ;; d1 ;; s1 ← g1; x2 ;; d2 ;; s2 ← g2;
     (s ← h; bl s ;; (a2 s2 ;; a1 s1 ;; a3 ;; (j ← e; (p ;; body ;; i s2 ;; lp s) ;; k j) ;; z) ;; en)) ;; fin) c0 =
  (sc ;; x1 ;; d1 ;; s1 ← g1; x2 ;; d2 ;; s2 ← g2;
     s ← h; bl s ;; a2 s2 ;; a1 s1 ;; a3 ;; j ← e; p ;; body ;; i s2 ;; lp s ;; k j ;; z ;; en ;; fin) c0.
Proof.
  unfold mbind, C_bind. destruct (sc c0) as [[] c1]. destruct (x1 c1) as [[] c2]. destruct (d1 c2) as [[] c3].
  destruct (g1 c3) as [s1 c4]. destruct (x2 c4) as [[] c5]. destruct (d2 c5) as [[] c6]. destruct (g2 c6) as [s2 c7].
  destruct (h c7) as [s c8]. destruct (bl s c8) as [[] c9]. destruct (a2 s2 c9) as [[] c10]. destruct (a1 s1 c10) as [[] c11].
  destruct (a3 c11) as [[] c12]. destruct (e c12) as [j c13]. destruct (p c13) as [[] c14]. destruct (body c14) as [[] c15].
  destruct (i s2 c15) as [[] c16]. destruct (lp s c16) as [[] c17]. destruct (k j c17) as [[] c18]. destruct (z c18) as [[] c19].
  by destruct (en c19) as [[] c20].
Qed.

Lemma compile_range_eq l x first last incl l' ss c0 :
  (begin_scope ;;
   (compile AsExpr last ;; add_local (chars "__end") true l ;; s1 ← local_slot (chars "__end");
    compile AsExpr first ;; add_local x false l ;; s2 ← local_slot x; range_loop l incl (NODE_BLOCK l' ss) s1 s2) ;;
   end_scope l) c0 =
  compile_for_range (compile AsExpr) (compile AsStmt) l x first last incl (NODE_BLOCK l' ss) c0.
Proof.
  exact (regroup_range here (emit_jump OP_JUMP_UNLESS l) begin_loop (fun start => emit_loop start l) patch_jump
    (fun s => emit_get_local s l) (fun s => emit_get_local s l) (fun s => emit_increment s l)
    (emit_op (if incl then OP_LE else OP_LT) l) (emit_op OP_POP l) (compile AsStmt (NODE_BLOCK l' ss)) (emit_op OP_POP l) end_loop
    begin_scope (compile AsExpr last) (add_local (chars "__end") true l) (compile AsExpr first) (add_local x false l) (end_scope l)
    (local_slot (chars "__end")) (local_slot x) c0).
Qed.

Definition rounds_code (incl : bool) (ss : list AstNode) (end_slot var_slot : Z) (start : nat) : layout :=
  then_ (plain (fun K Γ a b => (0 <= var_slot <= 0xFFFF -> arg_at K a OP_GET_LOCAL var_slot) /\ b = (a + 3)%nat))
  (then_ (plain (fun K Γ a b => (0 <= end_slot <= 0xFFFF -> arg_at K a OP_GET_LOCAL end_slot) /\ b = (a + 3)%nat))
  (then_ (plain (fun K Γ a b => op_at K a (if incl then OP_LE else OP_LT) /\ b = (a + 1)%nat))
  (then_ (fun K L Γ a b Γ' => jump_at K a OP_JUMP_UNLESS b /\
      then_ (plain (fun K Γ a b => op_at K a OP_POP /\ b = (a + 1)%nat))
      (then_ (fun K L Γ a b Γ' => Γ' = Γ /\ code_block K L Γ a ss b)
      (then_ (increment_code var_slot)
         (plain (fun K Γ a b => ((start <= a)%nat -> loop_at K a start) /\ b = (a + 3)%nat)))) K L Γ (a + 3)%nat b Γ')
  (plain (fun K Γ a b => op_at K a OP_POP /\ b = (a + 1)%nat))))).

Lemma mono_rounds l incl body s1 s2 start : mono (range_rounds l incl body s1 s2 start).
Proof. unfold range_rounds. mono_auto. Qed.

Lemma spec_rounds l incl l' ss s1 s2 start : spec true true (each_stmt ss) (stmts_code ss) ->
  spec false false (range_rounds l incl (NODE_BLOCK l' ss) s1 s2 start) (rounds_code incl ss s1 s2 start).
Proof.
  intros Hss. eapply (spec_seq false false false); [apply spec_arg_any| |mono_auto|done].
  eapply (spec_seq false false false); [apply spec_arg_any| |mono_auto|done].
  eapply (spec_seq false false false); [apply spec_op| |mono_auto|done].
  eapply (spec_seq false false false); [|apply spec_op|mono_auto|done]. apply spec_skip.
  eapply (spec_seq false false false); [apply spec_op| |mono_auto|done].
  eapply (spec_seq false false false); [| |mono_auto|done]; [rewrite compile_stmt_eq; apply spec_unless; by apply spec_block|].
  eapply (spec_seq false false false); [apply spec_increment|apply spec_emit_loop|mono_auto|done].
Qed.

(** The declarations of the loop and its rounds. *)
Definition range_code (x : list Z) (first last : AstNode) (incl : bool) (ss : list AstNode) : layout := fun K L Γ a b Γ' =>
  exists p1 p2, code_expr K Γ a last p1 /\ code_expr K (Γ ++ [chars "__end"]) p1 first p2 /\ Γ' = Γ ++ [chars "__end"; x] /\
    (length Γ <= 255)%nat /\
    rounds_code incl ss (Z.of_nat (length Γ)) (Z.of_nat (length Γ) + 1) p2 K (Some (mkTarget p2 (length Γ') b)) Γ' p2 b Γ'.

Lemma spec_range_body l x first last incl l' ss :
  spec false false (compile AsExpr first) (expr_code first) -> spec false false (compile AsExpr last) (expr_code last) ->
  spec true true (each_stmt ss) (stmts_code ss) ->
  spec true true (compile AsExpr last ;; add_local (chars "__end") true l ;; s1 ← local_slot (chars "__end");
    compile AsExpr first ;; add_local x false l ;; s2 ← local_slot x; range_loop l incl (NODE_BLOCK l' ss) s1 s2)
    (range_code x first last incl ss).
Proof.
  intros Hf Hl Hss. assert (Hloop : forall s1 s2, mono (range_loop l incl (NODE_BLOCK l' ss) s1 s2)).
  { intros. unfold range_loop, here. pose proof mono_rounds. mono_auto. }
  eapply spec_weaken.
  - eapply (spec_seq true false true); [by apply spec_loosen| |unfold local_slot; mono_auto|done].
    eapply (spec_seq true true true); [apply spec_add_local| |unfold local_slot; mono_auto|done].
    apply (spec_gets true true (fun c => slot_number (resolve_local c (chars "__end")))
      (fun Γ _ => slot_number (position_of (chars "__end") (rev Γ)))); [intros c; by rewrite resolve_position|].
    intros s1. eapply (spec_seq true false true); [by apply spec_loosen| |unfold local_slot; mono_auto|done].
    eapply (spec_seq true true false); [apply spec_add_local| |unfold local_slot; mono_auto|done].
    apply (spec_gets true false (fun c => slot_number (resolve_local c x))
      (fun Γ _ => slot_number (position_of x (rev Γ)))); [intros c; by rewrite resolve_position|].
    intros s2. apply spec_loosen, spec_loop; [|intros; apply mono_rounds]. intros start. by apply spec_rounds.
  - done.
  - done.
  - intros K L Γ a b Γ' (p1 & ? & [-> H1] & (p2 & Γ1 & (-> & -> & Hl1) & (p3 & ? & [-> H2] & H3 & _) & _) & _) _.
    destruct H3 as (p4 & Γ2 & (-> & -> & Hl2) & [-> H3] & _). rewrite !position_last, length_app in *. simpl in *.
    exists p1, p3. rewrite <- !app_assoc in *. simpl in *. split_and!; try done; [lia|].
    by replace (Z.of_nat (length Γ) + 1) with (Z.of_nat (length Γ + 1)) by lia.
Qed.

Lemma spec_range l x ix l0 first last incl l' ss :
  spec false false (compile AsExpr first) (expr_code first) -> spec false false (compile AsExpr last) (expr_code last) ->
  spec true true (each_stmt ss) (stmts_code ss) ->
  spec false false (compile_for_range (compile AsExpr) (compile AsStmt) l x first last incl (NODE_BLOCK l' ss))
    (stmt_code (NODE_FOR l x ix (NODE_RANGE l0 first last incl) (NODE_BLOCK l' ss))).
Proof.
  intros Hf Hl Hss. eapply spec_ext; [apply compile_range_eq|].
  eapply spec_weaken; [by eapply spec_scope, spec_range_body|done..|].
  intros K L Γ a b Γ' (-> & p & Γ1 & n & (p1 & p2 & H1 & H2 & -> & Hlen & H3) & Hn & H4 & ->) _.
  rewrite length_app in Hn. simpl in Hn. assert (n = 2%nat) as -> by lia. unfold rounds_code, increment_code in H3. layout_parts.
  match goal with H : 0 <= Z.of_nat (length Γ) + 1 <= _ -> _ /\ _ |- _ => destruct H as (I1 & (i & I2 & I3) & I4 & I5 & I6); [lia|] end.
  unfold stmt_code. eapply code_range; try done; try eassumption;
    match goal with H : _ -> ?P |- ?P => apply H; lia end.
Qed.

(** *** All statements *)

Lemma spec_value_block l ss : spec true true (keeping_last l ss) (value_code ss) ->
  spec true false (compile AsBlockExpr (NODE_BLOCK l ss)) (branch_code (Some (NODE_BLOCK l ss))).
Proof.
  intros Hv. apply spec_loosen. eapply spec_weaken; [by apply (spec_scope true (keeping_last l ss))|done..|].
  intros K L Γ a b Γ' (-> & p & Γ1 & n & H1 & H2 & H3 & ->) _. split; [done|]. by econstructor.
Qed.

Lemma spec_if l l' c ss y :
  spec false false (compile AsExpr c) (expr_code c) -> spec true true (keeping_last l' ss) (value_code ss) ->
  spec true false (compile_branch l y) (branch_code y) -> mono (compile_branch l y) ->
  spec true false (compile AsIf (NODE_IF l c (NODE_BLOCK l' ss) y)) (if_code (NODE_IF l c (NODE_BLOCK l' ss) y)) /\
  mono (compile AsIf (NODE_IF l c (NODE_BLOCK l' ss) y)).
Proof.
  intros Hc Hv Hy Hm.
  pose proof (spec_value_block l' ss Hv) as Hb.
  change (compile AsIf (NODE_IF l c (NODE_BLOCK l' ss) y)) with
    (compile AsExpr c ;; j1 ← emit_jump OP_JUMP_UNLESS l; emit_op OP_POP l ;; compile AsBlockExpr (NODE_BLOCK l' ss) ;;
     j2 ← emit_jump OP_JUMP l; patch_jump j1 ;; emit_op OP_POP l ;; compile_branch l y ;; patch_jump j2).
  split; [|mono_auto].
  eapply spec_weaken; [eapply (spec_seq true false false); [by apply spec_loosen| |mono_auto|done]| | |].
  - eapply spec_ext, (spec_either true OP_JUMP_UNLESS OP_JUMP l (emit_op OP_POP l ;; compile AsBlockExpr (NODE_BLOCK l' ss))
      (emit_op OP_POP l ;; compile_branch l y)); [intros c0; apply regroup_either| | |mono_auto].
    + eapply (spec_seq true false false); [apply spec_loosen, spec_op|exact Hb|mono_auto|done].
    + eapply (spec_seq true false false); [apply spec_loosen, spec_op|exact Hy|mono_auto|done].
  - done.
  - done.
  - unfold if_code, branch_code. layout_parts. split; [done|]. by eapply code_if_intro.
Qed.

Lemma spec_any m P : spec false false m P -> spec true true m P.
Proof. intros H. by eapply spec_weaken; [exact H|apply scoped_weaken|..]. Qed.

(** A statement that declares nothing. *)
Lemma spec_stmt s : spec false false (compile_stmt_node (compile AsExpr) (compile AsStmt) (compile AsIf) (compile AsBlockExpr) s) (stmt_code s) ->
  spec true true (compile AsStmt s) (stmt_code s).
Proof. intros H. rewrite compile_stmt_eq. by apply spec_unless, spec_any. Qed.

Lemma spec_expr_stmt l e : spec false false (compile AsExpr e) (expr_code e) ->
  spec false false (compile AsExpr e ;; emit_op OP_POP l) (stmt_code (NODE_EXPR_STMT l e)).
Proof. intros He. eapply spec_weaken; [spec_parts|done..|]. layout_parts. by constructor. Qed.

Lemma spec_let l name e const : spec false false (compile AsExpr e) (expr_code e) ->
  spec true true (compile_let (compile AsExpr) l name e const) (fun K L Γ a b Γ' => code_expr K Γ a e b /\ Γ' = Γ ++ [name]).
Proof.
  intros He. assert (H : spec true true (compile AsExpr e ;; add_local name const l)
    (fun K L Γ a b Γ' => code_expr K Γ a e b /\ Γ' = Γ ++ [name])).
  { eapply spec_weaken; [eapply (spec_seq true false true); [by apply spec_loosen|apply spec_add_local|mono_auto|done]|done..|].
    layout_parts. done. }
  intros c c' Hv Hs E Herr. apply (H c c' Hv Hs); [|done]. apply bind_inv in E as ([] & c1 & E1 & E).
  apply bind_inv in E as (d & ? & [= <- <-] & E). unfold mbind, C_bind. rewrite E1.
  assert (Hm : mono (if 0 <? depth_of c1 then add_local name const l else index ← add_string name;
    emit_op OP_SET_GLOBAL l ;; emit_short index l ;; emit_op OP_POP l)) by mono_auto.
  destruct (He c c1 Hv (scoped_weaken _ Hs) E1 (mono_before _ _ _ _ Hm E Herr)) as (new & nb & C1 & _ & _).
  pose proof (ch_depth _ _ _ _ C1) as D. destruct Hs as [[Hd _] _]. fold (depth_of c1) in E. rewrite D in E.
  by rewrite (proj2 (Z.ltb_lt 0 (depth_of c)) Hd) in E.
Qed.

Lemma compile_stmt_layouts :
  (forall s, frag_stmt s -> spec true true (compile AsStmt s) (stmt_code s)) /\
  (forall ss, frag_stmts ss -> spec true true (each_stmt ss) (stmts_code ss) /\
     forall l, spec true true (keeping_last l ss) (value_code ss)) /\
  (forall y, frag_branch y -> forall l, spec true false (compile_branch l y) (branch_code y) /\ mono (compile_branch l y)) /\
  (forall n, frag_if n -> spec true false (compile AsIf n) (if_code n) /\ mono (compile AsIf n)).
Proof.
  pose proof (proj1 compile_expr_layout) as Hexpr. apply frag_stmt_ind2.
  - intros l e He. by apply spec_stmt, spec_expr_stmt, Hexpr.
  - intros l name ty e mut He. rewrite compile_stmt_eq. apply spec_unless.
    eapply spec_weaken; [apply (spec_let l name e false (Hexpr e He))|done..|]. intros K L Γ a b Γ' [H ->] _. by constructor.
  - intros l name ty e mut He. rewrite compile_stmt_eq. apply spec_unless.
    eapply spec_weaken; [apply (spec_let l name e true (Hexpr e He))|done..|]. intros K L Γ a b Γ' [H ->] _. by constructor.
  - intros l ss _ [Hss _]. apply spec_stmt. eapply spec_weaken; [by apply spec_block|done..|].
    intros K L Γ a b Γ' [-> H] _. by constructor.
  - intros l c x y _ [Hif Hm]. rewrite compile_stmt_eq. apply spec_unless. eapply spec_weaken.
    + eapply (spec_seq true false false); [exact Hif|apply spec_loosen, (spec_op OP_POP l)|mono_auto|done].
    + done.
    + done.
    + unfold if_code. layout_parts. by apply code_if_stmt.
  - intros l l' c ss Hc _ [Hss _]. apply spec_stmt. apply spec_while; [by apply Hexpr|done].
  - intros l x ix l' first last incl l'' ss Hf Hl _ [Hss _]. apply spec_stmt. apply spec_range; [by apply Hexpr|by apply Hexpr|done].
  - intros l. apply spec_stmt. eapply spec_weaken; [spec_parts|done..|]. layout_parts. by constructor.
  - intros l e He%Hexpr. apply spec_stmt. eapply spec_weaken; [spec_parts|done..|]. layout_parts. by constructor.
  - intros l. apply spec_stmt. eapply spec_weaken; [apply spec_break|done..|].
    intros K L Γ a b Γ' (-> & t & n & H1 & H2 & H3 & H4 & ->) _. by eapply code_break.
  - intros l. apply spec_stmt. eapply spec_weaken; [apply spec_continue|done..|].
    intros K L Γ a b Γ' (-> & t & n & H1 & H2 & H3 & H4 & ->) _. by eapply code_continue.
  - split; [|intros l]; apply spec_any.
    + eapply spec_weaken; [apply spec_ret|done..|]. layout_parts. constructor.
    + eapply spec_weaken; [apply (spec_op OP_NIL l)|done..|]. layout_parts. by constructor.
  - intros s ss Hfs Hs _ [Hss Hv]. split; [|intros l].
    + eapply spec_weaken; [eapply (spec_seq true true true); [exact Hs|exact Hss|mono_auto|done]|done..|].
      intros K L Γ a b Γ' (p & Γ1 & H1 & H2 & _) _. by econstructor.
    + assert (Hseq : spec true true (compile AsStmt s ;; keeping_last l ss) (value_code (s :: ss))).
      { eapply spec_weaken; [eapply (spec_seq true true true); [exact Hs|apply Hv|mono_auto|done]|done..|].
        intros K L Γ a b Γ' (p & Γ1 & H1 & H2 & _) _. by econstructor. }
      destruct ss; [|done]. destruct s; try done. apply spec_any. inversion Hfs as [? ? He| | | | | | | | | |]; subst.
      eapply spec_weaken; [by apply Hexpr|done..|]. intros K L Γ a b Γ' [-> H] _. by constructor.
  - intros l. split; [|apply mono_emit_op]. apply spec_loosen. eapply spec_weaken; [apply spec_op|done..|].
    layout_parts. split; [done|by constructor].
  - intros l ss _ [_ Hv] l0. split; [|apply mono_block_value]. by apply spec_value_block.
  - intros l c x y _ [Hif Hm] l0. split; [|done]. eapply spec_weaken; [exact Hif|done..|].
    intros K L Γ a b Γ' [-> H] _. split; [done|by constructor].
  - intros l l' c ss y Hc _ [_ Hv] _ Hy. apply spec_if; [by apply Hexpr|apply Hv|apply Hy|apply Hy].
Qed.
