(* ===== verification/Simulation.v ===== *)
(** * Compiled functions compute what they mean

    The stack interpreter, run on code that is laid out as [Codegen] says, does
    what the reference semantics says: the same result, the same run-time error,
    or undefined behaviour where the semantics has it.  Below the function's
    variables the stack is untouched, and the caller's frames are as they were. *)

From Stdlib Require Import ZArith Lia String.
From stdpp Require Import base numbers list gmap.
From S2P Require Import Prelude Float64 Hash HashMap Nanbox Value Array MapValue Strings Block Bytecode Lexer Ast Modules Semantics Compiler Codegen VM.
Local Open Scope Z_scope.
Local Open Scope agim_scope.

(** ** Actions that only look at the store *)

Definition reads_only {A} (m : M A) : Prop := forall st x st', m st = Some (x, st') -> st' = st.
Lemma looks_ret {A} (x : A) : reads_only (mret x).
Proof. by intros st y st' [= _ <-]. Qed.
Lemma reads_load p : reads_only (load p).
Proof. intros st x st'. unfold load. destruct (cells st !! p); simpl; [by intros [= _ <-]|done]. Qed.
Lemma looks_bind {A B} (m : M A) (k : A -> M B) : reads_only m -> (forall x, reads_only (k x)) -> reads_only (m ≫= k).
Proof.
  intros Hm Hk st x st'. unfold mbind, M_bind. destruct (m st) as [[y st1]|] eqn:E; [|done]. intros H.
  apply Hm in E as ->. by eapply Hk.
Qed.
Lemma reads_map_get p key : reads_only (map_value_get p key).
Proof.
  unfold map_value_get, load_map. apply looks_bind; [|intros; apply looks_ret]. destruct (p =? NULL); [apply looks_ret|].
  apply looks_bind; [apply reads_load|]. intros; apply looks_ret.
Qed.
Lemma reads_unbox p : reads_only (unbox p).
Proof. unfold unbox. destruct (p =? NULL); [apply looks_ret|]. apply looks_bind; [apply reads_load|]. intros; apply looks_ret. Qed.
Lemma reads_callee w : reads_only (callee_function w).
Proof.
  unfold callee_function. destruct (negb _); [apply looks_ret|]. destruct (_ =? NULL); [apply looks_ret|].
  apply looks_bind; [apply reads_load|]. intros; apply looks_ret.
Qed.

Section simulation.
(** Allocation of frames succeeds; the stack never grows, so that [realloc] does
    not matter. *)
Context (realloc : ptr -> Z -> ptr) (clone_ok grow_ok rem_ok : bool) (set_ok : set_allocs) (other : Opcode -> V unit).
(** The store, which functions of this kind do not change, the address of the
    stack and its capacity, the globals and the loaded code. *)
Context (st : Store) (sb : ptr) (room : nat) (g : ptr) (bc : Bytecode ptr).

Notation step := (instruction realloc true clone_ok grow_ok rem_ok set_ok other).
Notation execute := (execute realloc true clone_ok grow_ok rem_ok set_ok other).

(** What globals and callees mean in this store. *)
Definition read_global (name : list Z) : answer NanValue :=
  match map_value_get g name st with
  | None => Undefined
  | Some (p, _) =>
      if p =? NULL then Failed VM_ERROR_UNDEFINED_VARIABLE "undefined variable"
      else match unbox p st with Some (w, _) => Done w | None => Undefined end
  end.
Definition read_callee (w : NanValue) : answer (option Function_) :=
  match callee_function w st with Some (fn, _) => Done fn | None => Undefined end.

(** ** Machines *)

(** A machine whose stack holds [ws], the first word at the bottom. *)
Record machine (vm : VM) (ws : list NanValue) (fs : list CallFrame) : Prop := {
  m_stack : stack vm = sb;
  m_memory : forall i w, ws !! i = Some w -> memory vm !! i = Some (Some w);
  m_top : stack_top vm = sb + Z.of_nat (length ws);
  m_room : length (memory vm) = room;
  m_frames : frames vm = fs;
  m_capacity : Z.of_nat (length fs) <= frames_capacity vm /\ 8 <= frames_capacity vm <= 1024;
  m_globals : globals vm = g;
  m_bytecode : bytecode vm = Some bc;
  m_upvalues : open_upvalues vm = []
}.

Lemma machine_fits vm ws fs : machine vm ws fs -> (length ws <= room)%nat.
Proof.
  intros H. destruct ws as [|w ws] using rev_ind; [simpl; lia|]. clear IHws.
  pose proof (m_memory _ _ _ H (length ws) w) as Hm. rewrite lookup_app_r, Nat.sub_diag in Hm by lia.
  specialize (Hm eq_refl). apply lookup_lt_Some in Hm. rewrite (m_room _ _ _ H) in Hm. rewrite length_app. simpl. lia.
Qed.

Lemma machine_slot vm ws fs i : machine vm ws fs -> (i < room)%nat -> slot_at vm (sb + Z.of_nat i) = Some i.
Proof.
  intros H Hi. rewrite slot_in.
  - rewrite (m_stack _ _ _ H). f_equal. lia.
  - unfold stack_capacity. rewrite (m_stack _ _ _ H), (m_room _ _ _ H). lia.
Qed.

Lemma bind_next {A B} (m : V A) (k : A -> V B) vm x vm1 : m vm st = Next x vm1 st -> (m ≫= k) vm st = k x vm1 st.
Proof. intros H. unfold mbind, V_bind. by rewrite H. Qed.

Lemma read_slot_word vm ws fs i w : machine vm ws fs -> ws !! i = Some w -> read_slot (sb + Z.of_nat i) vm st = Next w vm st.
Proof.
  intros H Hw. pose proof (m_memory _ _ _ H i w Hw) as Hm. pose proof (machine_fits _ _ _ H). apply lookup_lt_Some in Hw.
  unfold read_slot. rewrite get_bind. rewrite (machine_slot _ _ _ i H) by lia. simpl. by rewrite Hm.
Qed.

Lemma pop_word vm ws fs w : machine vm (ws ++ [w]) fs -> exists vm', vm_pop_nan vm st = Next w vm' st /\ machine vm' ws fs.
Proof.
  intros H. exists (set_top vm (stack_top vm - 1)). pose proof (m_top _ _ _ H) as Ht. rewrite length_app in Ht. simpl in Ht. split.
  - unfold vm_pop_nan. rewrite get_bind. rewrite (m_stack _ _ _ H). destruct (Z.leb_spec (stack_top vm) sb); [lia|]. rewrite put_bind.
    replace (stack_top vm - 1) with (sb + Z.of_nat (length ws)) by lia.
    assert (H' : machine (set_top vm (sb + Z.of_nat (length ws))) ws fs).
    { destruct H. split; try done. intros i x Hi. apply m_memory0. by apply lookup_app_l_Some. }
    pose proof (m_memory _ _ _ H (length ws) w) as Hm. rewrite lookup_app_r, Nat.sub_diag in Hm by lia.
    pose proof (machine_fits _ _ _ H) as Hr. rewrite length_app in Hr. simpl in Hr.
    unfold read_slot. rewrite get_bind. rewrite (machine_slot _ _ _ (length ws) H') by lia. simpl. by rewrite Hm.
  - destruct H. split; try done; [|simpl; lia]. intros i x Hi. apply m_memory0. by apply lookup_app_l_Some.
Qed.

Lemma push_word vm ws fs w : machine vm ws fs -> (length ws < room)%nat ->
  exists vm', push realloc w vm st = Next tt vm' st /\ machine vm' (ws ++ [w]) fs.
Proof.
  intros H Hr. exists (pushed vm w). split.
  - apply push_room. unfold stack_capacity. rewrite (m_stack _ _ _ H), (m_room _ _ _ H), (m_top _ _ _ H). lia.
  - unfold pushed. rewrite (m_stack _ _ _ H). rewrite (m_top _ _ _ H).
    replace (Z.to_nat (sb + Z.of_nat (length ws) - sb)) with (length ws) by lia. destruct H. split; simpl; try done.
    + intros i x Hi. destruct (decide (i = length ws)) as [->|Hne].
      * rewrite lookup_app_r, Nat.sub_diag in Hi by lia. injection Hi as <-. apply list_lookup_insert_eq. lia.
      * rewrite list_lookup_insert_ne by done. apply m_memory0. apply lookup_app_Some in Hi as [|[Hi1 Hi2]]; [done|].
        apply lookup_lt_Some in Hi2. simpl in Hi2. lia.
    + rewrite length_app. simpl. lia.
    + by rewrite length_insert.
Qed.

Lemma peek_word vm ws fs k w : machine vm ws fs -> (k < length ws)%nat -> ws !! (length ws - 1 - k)%nat = Some w ->
  vm_peek_nan (Z.of_nat k) vm st = Next w vm st.
Proof.
  intros H Hk Hw. unfold vm_peek_nan. rewrite get_bind. rewrite (m_stack _ _ _ H), (m_top _ _ _ H).
  destruct (Z.leb_spec (sb + Z.of_nat (length ws) - Z.of_nat k) sb); [lia|].
  replace (sb + Z.of_nat (length ws) - 1 - Z.of_nat k) with (sb + Z.of_nat (length ws - 1 - k)) by lia. by eapply read_slot_word.
Qed.
Lemma peek_top vm ws fs w : machine vm (ws ++ [w]) fs -> vm_peek_nan 0 vm st = Next w vm st.
Proof.
  intros H. apply (peek_word vm (ws ++ [w]) fs 0); [done|rewrite length_app; simpl; lia|].
  rewrite length_app. simpl. rewrite lookup_app_r by lia. by replace (length ws + 1 - 1 - 0 - length ws)%nat with 0%nat by lia.
Qed.

Lemma write_word vm ws fs i w : machine vm ws fs -> (i < length ws)%nat ->
  exists vm', write_slot (sb + Z.of_nat i) w vm st = Next tt vm' st /\ machine vm' (<[i := w]> ws) fs.
Proof.
  intros H Hi. pose proof (machine_fits _ _ _ H). unfold write_slot. rewrite get_bind. rewrite (machine_slot _ _ _ i H) by lia.
  eexists. split; [done|]. destruct H. split; simpl; try done.
  - intros j x Hj. destruct (decide (j = i)) as [->|Hne].
    + rewrite list_lookup_insert_eq in Hj by done. injection Hj as <-. apply list_lookup_insert_eq. lia.
    + rewrite list_lookup_insert_ne in Hj by done. rewrite list_lookup_insert_ne by done. by apply m_memory0.
  - by rewrite length_insert.
  - by rewrite length_insert.
Qed.

(** ** What an answer of the semantics asks of the machine *)

(** Of one action. *)
Definition meets {A} (ans : answer A) (Q : A -> VM -> Prop) (o : outcome unit) : Prop :=
  match ans with
  | Unknown => True
  | Undefined => o = Fault
  | Failed r message => exists vm', o = Return r vm' st /\ error vm' = Some message
  | Done x => exists vm', o = Next tt vm' st /\ Q x vm'
  end.

Inductive reaches : VM -> VM -> Prop :=
  | reaches_refl vm : reaches vm vm
  | reaches_step vm p vm1 vm2 : step vm st = Next p vm1 st -> reaches vm1 vm2 -> reaches vm vm2.

(** Of a run of instructions. *)
Definition leads {A} (vm : VM) (ans : answer A) (Q : A -> VM -> Prop) : Prop :=
  match ans with
  | Unknown => True
  | Undefined => exists vm1, reaches vm vm1 /\ step vm1 st = Fault
  | Failed r message => exists vm1 vm', reaches vm vm1 /\ step vm1 st = Return r vm' st /\ error vm' = Some message
  | Done x => exists vm', reaches vm vm' /\ Q x vm'
  end.

Lemma reaches_trans vm1 vm2 vm3 : reaches vm1 vm2 -> reaches vm2 vm3 -> reaches vm1 vm3.
Proof. induction 1; [done|]. intros. econstructor; [done|]. auto. Qed.
Lemma leads_reaches {A} vm vm1 (ans : answer A) Q : reaches vm vm1 -> leads vm1 ans Q -> leads vm ans Q.
Proof.
  intros H. destruct ans; simpl; [done|..].
  - intros (v & H1 & H2). exists v. split; [by eapply reaches_trans|done].
  - intros (v & v' & H1 & H2 & H3). exists v, v'. split; [by eapply reaches_trans|done].
  - intros (v & H1 & H2). exists v. split; [by eapply reaches_trans|done].
Qed.
Lemma leads_bind {A B} vm (m : answer A) (k : A -> answer B) P Q :
  leads vm m P -> (forall x vm1, P x vm1 -> leads vm1 (k x) Q) -> leads vm (m ≫= k) Q.
Proof. destruct m; simpl; try done. intros (v & H1 & H2) H. eapply leads_reaches; [done|]. by apply H. Qed.
Lemma leads_weaken {A} vm (m : answer A) (P Q : A -> VM -> Prop) :
  leads vm m P -> (forall x vm1, P x vm1 -> Q x vm1) -> leads vm m Q.
Proof. intros H1 H2. destruct m; simpl in *; try done. destruct H1 as (v & Hv & HP). eauto. Qed.
Lemma leads_done {A} vm (x : A) (Q : A -> VM -> Prop) : Q x vm -> leads vm (Done x) Q.
Proof. intros H. exists vm. split; [constructor|done]. Qed.

(** ** Operators *)

Definition chunk_in (F : CallFrame) (ch : Chunk ptr) : Prop :=
  match f_chunk F with None => Some (main bc) | Some i => functions bc !! i end = Some ch.

Lemma chunk_of_in vm ws F fs ch : machine vm ws (F :: fs) -> chunk_in F ch -> chunk_of vm F = Some ch.
Proof. intros H Hc. unfold chunk_of. rewrite (m_bytecode _ _ _ H). exact Hc. Qed.

Lemma fail_error {A} vm ws F fs ch r message : machine vm ws (F :: fs) -> chunk_in F ch ->
  exists vm', @fail A r message vm st = Return r vm' st /\ error vm' = Some message.
Proof.
  intros H Hc. unfold fail, vm_set_error, mbind, V_bind. rewrite (m_frames _ _ _ H). simpl.
  rewrite (chunk_of_in _ _ _ _ _ H Hc). by eexists.
Qed.

Section operators.
Context (vm : VM) (ws : list NanValue) (F : CallFrame) (fs : list CallFrame) (ch : Chunk ptr) (Hch : chunk_in F ch).

(** The machine with a word on top of [ws]. *)
Definition gives (w : NanValue) (vm' : VM) : Prop := machine vm' (ws ++ [w]) (F :: fs).

Lemma push_gives vm1 w : machine vm1 ws (F :: fs) -> (length ws < room)%nat -> meets (Done w) gives (push realloc w vm1 st).
Proof. apply push_word. Qed.
Lemma fail_meets {A} vm1 ws1 r message (Q : A -> VM -> Prop) : machine vm1 ws1 (F :: fs) ->
  meets (Failed r message) Q (fail r message vm1 st).
Proof. intros H. by eapply fail_error. Qed.

Lemma pop_two_words a b : machine vm (ws ++ [a; b]) (F :: fs) -> exists vm1 vm2,
  vm_pop_nan vm st = Next b vm1 st /\ vm_pop_nan vm1 st = Next a vm2 st /\ machine vm2 ws (F :: fs) /\ (length ws < room)%nat.
Proof.
  intros H. pose proof (machine_fits _ _ _ H) as Hr. rewrite length_app in Hr. simpl in Hr.
  change [a; b] with ([a] ++ [b]) in H. rewrite app_assoc in H. destruct (pop_word _ _ _ _ H) as (vm1 & E1 & H1).
  destruct (pop_word _ _ _ _ H1) as (vm2 & E2 & H2). exists vm1, vm2. split_and!; try done. lia.
Qed.

Lemma num_meets op ints floats a b : machine vm (ws ++ [a; b]) (F :: fs) ->
  (forall x y, ints x y = match on_ints op x y with Some r => Done r | None => Undefined end) -> (forall x y, floats x y = on_floats op x y) ->
  meets (arithmetic ints floats a b) gives (BINARY_OP_NUM_NAN realloc op vm st).
Proof.
  intros H Hi Hf. destruct (pop_two_words a b H) as (vm1 & vm2 & E1 & E2 & H2 & Hr).
  unfold BINARY_OP_NUM_NAN, arithmetic. rewrite (bind_next _ _ _ _ _ E1), (bind_next _ _ _ _ _ E2).
  destruct (nanbox_is_int a && nanbox_is_int b).
  - rewrite Hi. destruct (on_ints op _ _) as [r|]; simpl; [|done]. by apply push_gives.
  - destruct (nanbox_is_number a && nanbox_is_number b); [|by eapply fail_meets]. rewrite Hf. by apply push_gives.
Qed.

Lemma cmp_meets op ints floats a b : machine vm (ws ++ [a; b]) (F :: fs) ->
  (forall x y, ints x y = cmp_ints op x y) -> (forall x y, floats x y = cmp_floats op x y) ->
  meets (comparison ints floats a b) gives (BINARY_OP_CMP_NAN realloc op vm st).
Proof.
  intros H Hi Hf. destruct (pop_two_words a b H) as (vm1 & vm2 & E1 & E2 & H2 & Hr).
  unfold BINARY_OP_CMP_NAN, comparison. rewrite (bind_next _ _ _ _ _ E1), (bind_next _ _ _ _ _ E2).
  destruct (nanbox_is_int a && nanbox_is_int b); [rewrite Hi; by apply push_gives|].
  destruct (nanbox_is_number a && nanbox_is_number b); [rewrite Hf; by apply push_gives|].
  destruct (nanbox_is_obj a && nanbox_is_obj b); [done|by eapply fail_meets].
Qed.

Lemma not_string v : nanbox_is_obj v = false -> forall vm1, is_string_word v vm1 st = Next false vm1 st.
Proof. intros H vm1. unfold is_string_word. by rewrite H. Qed.

Lemma peek_two_words a b : machine vm (ws ++ [a; b]) (F :: fs) ->
  vm_peek_nan 0 vm st = Next b vm st /\ vm_peek_nan 1 vm st = Next a vm st.
Proof.
  intros H. split.
  - change [a; b] with ([a] ++ [b]) in H. rewrite app_assoc in H. by eapply peek_top.
  - apply (peek_word vm (ws ++ [a; b]) (F :: fs) 1); [done|rewrite length_app; simpl; lia|].
    rewrite length_app. simpl. rewrite lookup_app_r by lia. by replace (length ws + 2 - 1 - 1 - length ws)%nat with 0%nat by lia.
Qed.

Lemma int64_meets x : (match int64 x with Some r => Done r | None => Undefined end) = in_int64 x.
Proof. unfold int64, in_int64. by destruct (_ && _). Qed.

Lemma add_meets a b : machine vm (ws ++ [a; b]) (F :: fs) -> meets (addition a b) gives (run_add realloc vm st).
Proof.
  intros H. unfold addition. destruct (nanbox_is_obj a) eqn:Ha; [done|]. destruct (nanbox_is_obj b) eqn:Hb; [done|]. simpl.
  destruct (peek_two_words a b H) as [P0 P1]. unfold run_add. rewrite (bind_next _ _ _ _ _ P0), (bind_next _ _ _ _ _ P1).
  rewrite (bind_next _ _ _ _ _ (not_string a Ha vm)), (bind_next _ _ _ _ _ (not_string b Hb vm)). rewrite !orb_false_r.
  destruct (nanbox_is_nil a && nanbox_is_nil b); [done|]. apply num_meets; [done| |done]. intros x y. by rewrite <- int64_meets.
Qed.

Lemma div_meets a b : machine vm (ws ++ [a; b]) (F :: fs) -> meets (division a b) gives (run_div realloc vm st).
Proof.
  intros H. destruct (peek_two_words a b H) as [P0 _]. unfold run_div, division. rewrite (bind_next _ _ _ _ _ P0).
  destruct (nanbox_is_int b && (nanbox_as_int b =? 0)); cbn [orb]; [by eapply fail_meets|].
  destruct (nanbox_is_double b && f64_eqb (nanbox_as_double b) f64_zero); [by eapply fail_meets|].
  apply num_meets; [done| |done]. intros x y. unfold op_divide. simpl. destruct (y =? 0); [done|]. by rewrite <- int64_meets.
Qed.

Lemma mod_meets a b : machine vm (ws ++ [a; b]) (F :: fs) -> meets (modulo a b) gives (run_mod realloc vm st).
Proof.
  intros H. destruct (pop_two_words a b H) as (vm1 & vm2 & E1 & E2 & H2 & Hr). unfold run_mod, modulo.
  rewrite (bind_next _ _ _ _ _ E1), (bind_next _ _ _ _ _ E2). destruct (negb _ || negb _); [by eapply fail_meets|].
  destruct (_ =? 0); [by eapply fail_meets|]. by apply push_gives.
Qed.

Lemma eq_meets neg a b : machine vm (ws ++ [a; b]) (F :: fs) ->
  meets (r ← equality a b; Done (nanbox_bool (if neg : bool then negb r else r))) gives (run_eq realloc neg vm st).
Proof.
  intros H. destruct (pop_two_words a b H) as (vm1 & vm2 & E1 & E2 & H2 & Hr). unfold run_eq, equality.
  rewrite (bind_next _ _ _ _ _ E1), (bind_next _ _ _ _ _ E2). destruct (nanbox_is_obj a && nanbox_is_obj b); [done|].
  change (meets (Done (nanbox_bool (if neg then negb (nanbox_equal a b) else nanbox_equal a b))) gives
    (push realloc (nanbox_bool (if neg then negb (nanbox_equal a b) else nanbox_equal a b)) vm2 st)). by apply push_gives.
Qed.

Lemma binary_meets op o a b : binary_op op = Some o -> machine vm (ws ++ [a; b]) (F :: fs) ->
  meets (binary op a b) gives (execute o vm st).
Proof.
  intros Ho H. destruct op; simplify_eq/=; try (by apply (cmp_meets _ _ _ a b H)).
  - by apply add_meets.
  - apply num_meets; [done| |done]. intros x y. by rewrite <- int64_meets.
  - apply num_meets; [done| |done]. intros x y. by rewrite <- int64_meets.
  - by apply div_meets.
  - by apply mod_meets.
  - by apply (eq_meets false).
  - by apply (eq_meets true).
Qed.

Lemma unary_meets op o a : unary_op op = Some o -> machine vm (ws ++ [a]) (F :: fs) -> meets (unary op a) gives (execute o vm st).
Proof.
  intros Ho H. pose proof (machine_fits _ _ _ H) as Hr. rewrite length_app in Hr. simpl in Hr.
  destruct (pop_word _ _ _ _ H) as (vm1 & E1 & H1). destruct op; try done; injection Ho as <-; cbn [unary VM.execute].
  - rewrite (bind_next _ _ _ _ _ E1). apply push_word; [done|lia].
  - unfold run_neg. rewrite (bind_next _ _ _ _ _ E1). destruct (nanbox_is_int a); [apply push_gives; [done|lia]|].
    destruct (nanbox_is_double a); [apply push_gives; [done|lia]|by eapply fail_meets].
Qed.
End operators.

(** ** Instructions *)

Definition frame_at (F : CallFrame) (pc : nat) : CallFrame := mkFrame (f_chunk F) (Z.of_nat pc) (slots F) (f_function F).

(** A constant of a loaded chunk. *)
Definition holds (p : ptr) (d : constant) : Prop := p <> NULL /\ exists c, cells st !! p = Some c /\ data c = d.

(** The frame runs the chunk [K] is the image of. *)
Definition runs (F : CallFrame) (K : image) : Prop := exists ch, chunk_in F ch /\ code ch = im_code K /\
  Forall2 holds (constants ch) (im_consts K) /\ strings bc = im_strings K.

Lemma set_ip_at vm ws F fs pc n : machine vm ws (frame_at F pc :: fs) ->
  exists vm1, set_ip (Z.of_nat n) vm st = Next tt vm1 st /\ machine vm1 ws (frame_at F n :: fs).
Proof.
  intros H. unfold set_ip. rewrite get_bind. rewrite (m_frames _ _ _ H). eexists. split; [done|]. destruct H. by split.
Qed.
Lemma frame_next vm ws F fs : machine vm ws (F :: fs) -> frame vm st = Next F vm st.
Proof. intros H. unfold frame. rewrite get_bind. by rewrite (m_frames _ _ _ H). Qed.
Lemma current_chunk_next vm ws F fs ch : machine vm ws (F :: fs) -> chunk_in F ch -> current_chunk vm st = Next ch vm st.
Proof.
  intros H Hc. unfold current_chunk. rewrite get_bind. rewrite (bind_next _ _ _ _ _ (frame_next _ _ _ _ H)).
  by rewrite (chunk_of_in _ _ _ _ _ H Hc).
Qed.
Lemma code_byte_next ch K pc b vm : code ch = im_code K -> im_code K !! pc = Some b -> code_byte ch (Z.of_nat pc) vm st = Next b vm st.
Proof. intros Hc Hb. unfold code_byte. destruct (Z.ltb_spec (Z.of_nat pc) 0); [lia|]. by rewrite Nat2Z.id, Hc, Hb. Qed.

Lemma fetch_op vm ws F fs K pc op : machine vm ws (frame_at F pc :: fs) -> runs F K -> op_at K pc op ->
  exists vm1, fetch vm st = Next op vm1 st /\ machine vm1 ws (frame_at F (pc + 1) :: fs).
Proof.
  intros H (ch & Hc & Hcode & _) Hop. destruct (set_ip_at vm ws F fs pc (pc + 1) H) as (vm1 & E & H1). exists vm1. split; [|done].
  unfold fetch. assert (Er : read_byte vm st = Next (opcode_byte op) vm1 st).
  { unfold read_byte. rewrite (bind_next _ _ _ _ _ (frame_next _ _ _ _ H)). rewrite (bind_next _ _ _ _ _ (current_chunk_next _ _ _ _ ch H Hc)).
    simpl ip. rewrite (bind_next _ _ _ _ _ (code_byte_next _ _ _ _ vm Hcode Hop)).
    replace (Z.of_nat pc + 1) with (Z.of_nat (pc + 1)) by lia. by rewrite (bind_next _ _ _ _ _ E). }
  rewrite (bind_next _ _ _ _ _ Er). by rewrite opcode_of_byte_byte.
Qed.

Lemma read_short_at vm ws F fs K pc n : machine vm ws (frame_at F pc :: fs) -> runs F K -> short_at K pc n ->
  exists vm1, read_short vm st = Next n vm1 st /\ machine vm1 ws (frame_at F (pc + 2) :: fs).
Proof.
  intros H (ch & Hc & Hcode & _) (Hn & H1 & H2). destruct (set_ip_at vm ws F fs pc (pc + 2) H) as (vm1 & E & HM). exists vm1. split; [|done].
  unfold read_short. rewrite (bind_next _ _ _ _ _ (frame_next _ _ _ _ H)). rewrite (bind_next _ _ _ _ _ (current_chunk_next _ _ _ _ ch H Hc)).
  simpl ip. rewrite (bind_next _ _ _ _ _ (code_byte_next _ _ _ _ vm Hcode H1)).
  replace (Z.of_nat pc + 1) with (Z.of_nat (S pc)) by lia. rewrite (bind_next _ _ _ _ _ (code_byte_next _ _ _ _ vm Hcode H2)).
  replace (Z.of_nat pc + 2) with (Z.of_nat (pc + 2)) by lia. rewrite (bind_next _ _ _ _ _ E). unfold mret, V_ret. f_equal.
  assert (0 <= n mod 2 ^ 8 < 2 ^ 8) by (apply Z.mod_pos_bound; lia).
  assert (0 <= n / 2 ^ 8 < 2 ^ 8) by (split; [apply Z.div_pos; lia|apply Z.div_lt_upper_bound; lia]).
  rewrite lor_shift_add by lia. replace (n / 2 ^ 8 * 2 ^ 8 + n mod 2 ^ 8) with n by (rewrite (Z.div_mod n (2 ^ 8)) at 1 by lia; lia).
  unfold u16, wrap. apply Z.mod_small. lia.
Qed.

(** One instruction without and with an argument. *)
Lemma leads_op {A} vm ws F fs K pc op (ans : answer A) Q :
  machine vm ws (frame_at F pc :: fs) -> runs F K -> op_at K pc op -> dispatch op <> Missing ->
  (forall vm1, machine vm1 ws (frame_at F (pc + 1) :: fs) -> meets ans Q (execute op vm1 st)) -> leads vm ans Q.
Proof.
  intros H HK Hop Hd Hm. destruct (fetch_op _ _ _ _ _ _ _ H HK Hop) as (vm1 & E & H1). specialize (Hm vm1 H1).
  assert (Es : step vm st = (execute op ;; mret (dispatch op)) vm1 st).
  { unfold instruction. rewrite (bind_next _ _ _ _ _ E). by destruct (dispatch op). }
  unfold mbind, V_bind in Es. destruct ans; simpl in *.
  - done.
  - exists vm. split; [constructor|]. by rewrite Es, Hm.
  - destruct Hm as (vm' & Hm & He). exists vm, vm'. split_and!; [constructor| |done]. by rewrite Es, Hm.
  - destruct Hm as (vm' & Hm & HQ). exists vm'. split; [|done]. rewrite Hm in Es. econstructor; [exact Es|constructor].
Qed.
Lemma leads_arg {A} vm ws F fs K pc op n (k : Z -> V unit) (ans : answer A) Q :
  machine vm ws (frame_at F pc :: fs) -> runs F K -> arg_at K pc op n -> dispatch op <> Missing -> execute op = (x ← read_short; k x) ->
  (forall vm1, machine vm1 ws (frame_at F (pc + 3) :: fs) -> meets ans Q (k n vm1 st)) -> leads vm ans Q.
Proof.
  intros H HK [Hop Hs] Hd He Hm. eapply leads_op; [done..|]. intros vm1 H1. rewrite He. rewrite <- Nat.add_1_r in Hs.
  destruct (read_short_at _ _ _ _ _ _ _ H1 HK Hs) as (vm2 & E2 & H2). rewrite (bind_next _ _ _ _ _ E2).
  apply Hm. by replace (pc + 3)%nat with (pc + 1 + 2)%nat by lia.
Qed.

(** Instructions that cannot fail. *)
Definition moves (vm : VM) (ws : list NanValue) (fs : list CallFrame) : Prop := exists vm', reaches vm vm' /\ machine vm' ws fs.
Lemma leads_moves {A} vm ws fs (ans : answer A) Q : moves vm ws fs -> (forall vm1, machine vm1 ws fs -> leads vm1 ans Q) -> leads vm ans Q.
Proof. intros (vm' & H1 & H2) H. eapply leads_reaches; [done|]. by apply H. Qed.
Lemma moves_leads vm ws fs : leads vm (Done tt) (fun _ vm' => machine vm' ws fs) -> moves vm ws fs.
Proof. done. Qed.
Lemma moves_trans vm ws fs ws' fs' : moves vm ws fs -> (forall vm1, machine vm1 ws fs -> moves vm1 ws' fs') -> moves vm ws' fs'.
Proof. intros (vm1 & H1 & H2) H. destruct (H vm1 H2) as (vm2 & H3 & H4). exists vm2. split; [by eapply reaches_trans|done]. Qed.

Section frames.
Context (F : CallFrame) (fs : list CallFrame) (K : image) (HK : runs F K).
Notation at_pc pc := (frame_at F pc :: fs).

Lemma moves_pop vm ws w pc : machine vm (ws ++ [w]) (at_pc pc) -> op_at K pc OP_POP -> moves vm ws (at_pc (pc + 1)).
Proof.
  intros H Hop. apply moves_leads. eapply leads_op; [done..|]. intros vm1 H1. destruct (pop_word _ _ _ _ H1) as (vm2 & E & H2).
  exists vm2. split; [|done]. simpl. by rewrite (bind_next _ _ _ _ _ E).
Qed.

Lemma moves_pops n : forall vm ws xs pc, length xs = n -> machine vm (ws ++ xs) (at_pc pc) -> pops_at K pc n -> moves vm ws (at_pc (pc + n)).
Proof.
  induction n as [|n IH]; intros vm ws xs pc Hl H Hp.
  - destruct xs; [|done]. rewrite app_nil_r in H. rewrite Nat.add_0_r. exists vm. split; [constructor|done].
  - destruct xs as [|x xs _] using rev_ind; [done|]. rewrite length_app in Hl. simpl in Hl. rewrite app_assoc in H.
    eapply moves_trans; [eapply moves_pop; [done|]; specialize (Hp 0%nat ltac:(lia)); by rewrite Nat.add_0_r in Hp|].
    intros vm1 H1. replace (pc + S n)%nat with (pc + 1 + n)%nat by lia. apply (IH vm1 ws xs); [lia|done|].
    intros k Hk. specialize (Hp (S k) ltac:(lia)). by replace (pc + 1 + k)%nat with (pc + S k)%nat by lia.
Qed.

Lemma jump_meets vm ws pc target op : machine vm ws (at_pc (pc + 3)) -> jump_at K pc op target ->
  (target <= length (im_code K))%nat ->
  exists vm', run_jump true (Z.of_nat (target - (pc + 3))) vm st = Next tt vm' st /\ machine vm' ws (at_pc target).
Proof.
  intros H [Hle _] Hin. destruct HK as (ch & Hc & Hcode & _). destruct (set_ip_at vm ws F fs (pc + 3) target H) as (vm' & E & H').
  exists vm'. split; [|done]. unfold run_jump. cbn [negb]. rewrite (bind_next _ _ _ _ _ (frame_next _ _ _ _ H)).
  rewrite (bind_next _ _ _ _ _ (current_chunk_next _ _ _ _ ch H Hc)). unfold check_jump_forward, code_size. rewrite Hcode. change (ip (frame_at F (pc + 3))) with (Z.of_nat (pc + 3)).
  replace (Z.of_nat (pc + 3) + Z.of_nat (target - (pc + 3))) with (Z.of_nat target) by lia.
  destruct (Z.leb_spec (Z.of_nat target) (Z.of_nat (length (im_code K)))); [done|lia].
Qed.

Lemma moves_jump vm ws pc target : machine vm ws (at_pc pc) -> jump_at K pc OP_JUMP target -> (target <= length (im_code K))%nat ->
  moves vm ws (at_pc target).
Proof.
  intros H Hj Hin. apply moves_leads. eapply leads_arg; [done|done|apply Hj|done|reflexivity|]. intros vm1 H1. by eapply jump_meets.
Qed.

(** [jump_unless], which leaves the condition on the stack. *)
Lemma moves_unless vm ws w pc target : machine vm (ws ++ [w]) (at_pc pc) -> jump_at K pc OP_JUMP_UNLESS target ->
  (target <= length (im_code K))%nat -> moves vm (ws ++ [w]) (at_pc (if nanbox_is_truthy w then pc + 3 else target)).
Proof.
  intros H Hj Hin. apply moves_leads. eapply leads_arg; [done|done|apply Hj|done|reflexivity|]. intros vm1 H1. cbv beta.
  rewrite (bind_next _ _ _ _ _ (peek_top _ _ _ _ H1)). destruct (nanbox_is_truthy w) eqn:E.
  - rewrite bool_decide_false by done. by exists vm1.
  - rewrite bool_decide_true by done. by eapply jump_meets.
Qed.

Lemma moves_loop vm ws pc target : machine vm ws (at_pc pc) -> loop_at K pc target -> moves vm ws (at_pc target).
Proof.
  intros H [Hle Ha]. apply moves_leads. eapply leads_arg; [done|done|apply Ha|done|reflexivity|]. intros vm1 H1. cbv beta.
  destruct (set_ip_at vm1 ws F fs (pc + 3) target H1) as (vm' & E & H'). exists vm'. split; [|done].
  rewrite (bind_next _ _ _ _ _ (frame_next _ _ _ _ H1)). unfold check_jump_backward. change (ip (frame_at F (pc + 3))) with (Z.of_nat (pc + 3)).
  destruct (Z.leb_spec (Z.of_nat (pc + 3 - target)) (Z.of_nat (pc + 3))); [|lia].
  by replace (Z.of_nat (pc + 3) - Z.of_nat (pc + 3 - target)) with (Z.of_nat target) by lia.
Qed.

(** The value is pushed if there is room for it. *)
Definition pushes (ws : list NanValue) (pc : nat) (w : NanValue) (vm' : VM) : Prop := machine vm' (ws ++ [w]) (at_pc pc).

Lemma push_meets {A} vm ws pc (x : A) w (Q : A -> VM -> Prop) : machine vm ws (at_pc pc) ->
  (forall vm', pushes ws pc w vm' -> Q x vm') -> meets (fits room (length ws) x) Q (push realloc w vm st).
Proof.
  intros H HQ. unfold fits. destruct (Nat.ltb_spec (length ws) room); [|done].
  destruct (push_word _ _ _ w H ltac:(lia)) as (vm' & E & H'). exists vm'. split; [done|]. by apply HQ.
Qed.

Lemma leads_push {A} vm ws pc op w (x : A) (Q : A -> VM -> Prop) : machine vm ws (at_pc pc) -> op_at K pc op -> dispatch op <> Missing ->
  execute op = push realloc w -> (forall vm', pushes ws (pc + 1) w vm' -> Q x vm') -> leads vm (fits room (length ws) x) Q.
Proof. intros H Hop Hd He HQ. eapply leads_op; [done..|]. intros vm1 H1. rewrite He. by apply (push_meets _ _ (pc + 1)). Qed.

Lemma leads_const {A} vm ws pc i d w (x : A) (Q : A -> VM -> Prop) : machine vm ws (at_pc pc) -> arg_at K pc OP_CONST (Z.of_nat i) ->
  im_consts K !! i = Some d -> (forall p, p <> NULL -> value_to_nanbox p d = w) ->
  (forall vm', pushes ws (pc + 3) w vm' -> Q x vm') -> leads vm (fits room (length ws) x) Q.
Proof.
  intros H [Hop Hs] Hd Hw HQ. eapply leads_op; [done..|]. intros vm1 H1. rewrite <- Nat.add_1_r in Hs.
  destruct (read_short_at _ _ _ _ _ _ _ H1 HK Hs) as (vm2 & E2 & H2). destruct HK as (ch & Hc & Hcode & Hcs & _).
  destruct (Forall2_lookup_r _ _ _ _ _ Hcs Hd) as (p & Hp & Hn & c & Hcell & Hdata).
  assert (Er : read_constant_nan vm1 st = Next w vm2 st).
  { unfold read_constant_nan. rewrite (bind_next _ _ _ _ _ E2), (bind_next _ _ _ _ _ (current_chunk_next _ _ _ _ ch H2 Hc)).
    pose proof (lookup_lt_Some _ _ _ Hp). destruct (Z.leb_spec (Z.of_nat (length (constants ch))) (Z.of_nat i)); [lia|].
    rewrite Nat2Z.id, Hp. unfold unbox. simpl. unfold mbind at 1, V_bind at 1, lift, mret at 1, V_ret at 1.
    destruct (Z.eqb_spec p NULL); [done|]. unfold mbind, M_bind, load. rewrite Hcell. simpl. by rewrite Hdata, Hw. }
  cbn [VM.execute]. rewrite (bind_next _ _ _ _ _ Er). eapply push_meets; [done|]. by replace (pc + 1 + 2)%nat with (pc + 3)%nat by lia.
Qed.

(** *** Variables *)

Lemma leads_get_global {A} vm ws pc i name (k : NanValue -> A) (Q : A -> VM -> Prop) : machine vm ws (at_pc pc) ->
  arg_at K pc OP_GET_GLOBAL (Z.of_nat i) -> im_strings K !! i = Some name ->
  (forall w vm', pushes ws (pc + 3) w vm' -> Q (k w) vm') ->
  leads vm (w ← read_global name; fits room (length ws) (k w)) Q.
Proof.
  intros H [Hop Hs] Hname HQ. eapply leads_op; [done..|]. intros vm1 H1. rewrite <- Nat.add_1_r in Hs.
  destruct (read_short_at _ _ _ _ _ _ _ H1 HK Hs) as (vm2 & E2 & H2). replace (pc + 1 + 2)%nat with (pc + 3)%nat in H2 by lia.
  pose proof HK as (ch & Hc & Hcode & _ & Hst).
  assert (Er : read_name vm1 st = Next name vm2 st).
  { unfold read_name. rewrite (bind_next _ _ _ _ _ E2). unfold string_at. unfold mbind at 1, V_bind at 1. rewrite get_bind.
    rewrite (m_bytecode _ _ _ H2). unfold bytecode_get_string. simpl. by rewrite Nat2Z.id, Hst, Hname. }
  cbn [VM.execute]. unfold run_get_global. rewrite (bind_next _ _ _ _ _ Er). rewrite get_bind. rewrite (m_globals _ _ _ H2).
  unfold read_global. destruct (map_value_get g name st) as [[p st1]|] eqn:Eg;
    [|by unfold mbind, V_bind, lift; rewrite Eg]. pose proof (reads_map_get _ _ _ _ _ Eg) as ->.
  assert (El : lift (map_value_get g name) vm2 st = Next p vm2 st) by (unfold lift; by rewrite Eg).
  rewrite (bind_next _ _ _ _ _ El). destruct (p =? NULL); [by eapply fail_error|].
  unfold vm_push. destruct (unbox p st) as [[w st1]|] eqn:Eu; [|by unfold mbind, V_bind, lift; rewrite Eu].
  pose proof (reads_unbox _ _ _ _ Eu) as ->. assert (El2 : lift (unbox p) vm2 st = Next w vm2 st) by (unfold lift; by rewrite Eu).
  rewrite (bind_next _ _ _ _ _ El2). eapply push_meets; [done|]. apply HQ.
Qed.

Context (base : nat) (Hslots : slots F = sb + Z.of_nat base).

Lemma leads_get_local {A} vm ws pc i w (x : A) (Q : A -> VM -> Prop) : machine vm ws (at_pc pc) ->
  arg_at K pc OP_GET_LOCAL (Z.of_nat i) -> ws !! (base + i)%nat = Some w ->
  (forall vm', pushes ws (pc + 3) w vm' -> Q x vm') -> leads vm (fits room (length ws) x) Q.
Proof.
  intros H Ha Hw HQ. eapply leads_arg; [done|done|exact Ha|done|reflexivity|]. intros vm1 H1. cbv beta.
  rewrite (bind_next _ _ _ _ _ (frame_next _ _ _ _ H1)). change (slots (frame_at F (pc + 3))) with (slots F). rewrite Hslots.
  replace (sb + Z.of_nat base + Z.of_nat i) with (sb + Z.of_nat (base + i)) by lia.
  rewrite (bind_next _ _ _ _ _ (read_slot_word _ _ _ _ _ H1 Hw)). by eapply push_meets.
Qed.

Lemma moves_set_local vm ws pc i w : machine vm (ws ++ [w]) (at_pc pc) -> arg_at K pc OP_SET_LOCAL (Z.of_nat i) ->
  (base + i < length ws)%nat -> moves vm (<[(base + i)%nat := w]> ws ++ [w]) (at_pc (pc + 3)).
Proof.
  intros H Ha Hi. apply moves_leads. eapply leads_arg; [done|done|exact Ha|done|reflexivity|]. intros vm1 H1. cbv beta.
  rewrite (bind_next _ _ _ _ _ (peek_top _ _ _ _ H1)). rewrite (bind_next _ _ _ _ _ (frame_next _ _ _ _ H1)).
  change (slots (frame_at F (pc + 3))) with (slots F). rewrite Hslots.
  replace (sb + Z.of_nat base + Z.of_nat i) with (sb + Z.of_nat (base + i)) by lia.
  destruct (write_word vm1 (ws ++ [w]) (at_pc (pc + 3)) (base + i) w H1) as (vm2 & E & H2); [rewrite length_app; lia|].
  exists vm2. split; [done|]. by rewrite insert_app_l in H2.
Qed.

(** *** Returning: the caller finds the result in place of the callee *)

Lemma moves_return vm below xs w pc : machine vm (below ++ xs ++ [w]) (at_pc pc) -> op_at K pc OP_RETURN ->
  length below = base -> fs <> [] -> moves vm (below ++ [w]) fs.
Proof.
  intros H Hop Hb Hfs. apply moves_leads. eapply leads_op; [done..|]. intros vm1 H1. rewrite app_assoc in H1.
  destruct (pop_word _ _ _ _ H1) as (vm2 & E2 & H2). pose proof (machine_fits _ _ _ H1) as Hr. rewrite !length_app in Hr. simpl in Hr.
  cbn [VM.execute]. unfold run_return. rewrite (bind_next _ _ _ _ _ E2). rewrite (bind_next _ _ _ _ _ (frame_next _ _ _ _ H2)).
  assert (Ec : close_upvalues (slots (frame_at F (pc + 1))) vm2 st = Next tt vm2 st).
  { unfold close_upvalues. rewrite get_bind. by rewrite (m_upvalues _ _ _ H2). }
  rewrite (bind_next _ _ _ _ _ Ec). rewrite get_bind. rewrite put_bind. rewrite (m_frames _ _ _ H2). cbn [tail].
  destruct (Nat.eqb_spec (length fs) 0) as [E0|_]; [by destruct fs|]. rewrite get_bind, put_bind.
  change (slots (frame_at F (pc + 1))) with (slots F). rewrite Hslots.
  apply (push_word (set_top (set_frames vm2 fs) (sb + Z.of_nat base)) below fs w); [|lia]. destruct H2. split; simpl; try done.
  - intros i x Hi. apply m_memory0. by apply lookup_app_l_Some.
  - by rewrite Hb.
  - simpl in *. lia.
Qed.
End frames.

#[local] Arguments leads : simpl never.

(** ** Expressions *)

Context (program : nat -> option fn_def).
(** The loaded code has the functions of the program. *)
Definition implements : Prop := forall i d, program i = Some d ->
  exists K, (forall F, f_chunk F = Some i -> runs F K) /\ code_function K d.

Notation eval := (eval room read_global read_callee program).
Notation eval_args := (eval_args room read_global read_callee program).
Notation call := (call room read_global read_callee program).
Notation exec := (exec room read_global read_callee program).
Notation exec_list := (exec_list room read_global read_callee program).
Notation exec_block := (exec_block room read_global read_callee program).
Notation exec_branch := (exec_branch room read_global read_callee program).
Notation exec_range := (exec_range room read_global read_callee program).

Definition words (ρ : env) : list NanValue := ρ.*2.

(** [F] runs the code [K] of a function whose variables start above [below],
    with [depth] frames; statements, which may return, need a caller. *)
Record at_frame (F : CallFrame) (fs : list CallFrame) (K : image) (depth : nat) (below : list NanValue) : Prop := {
  if_runs : runs F K;
  if_slots : slots F = sb + Z.of_nat (length below);
  if_depth : depth = S (length fs)
}.
Record in_frame (F : CallFrame) (fs : list CallFrame) (K : image) (depth : nat) (below : list NanValue) : Prop := {
  if_at :> at_frame F fs K depth below;
  if_caller : fs <> []
}.

Definition sim_eval (n : nat) : Prop := forall depth ρ e K F fs below temps pc pc' vm,
  at_frame F fs K depth below -> code_expr K ρ.*1 pc e pc' -> machine vm (below ++ words ρ ++ temps) (frame_at F pc :: fs) ->
  leads vm (eval n depth (length below) (length temps) ρ e)
    (fun r vm' => r.2.*1 = ρ.*1 /\ machine vm' (below ++ words r.2 ++ temps ++ [r.1]) (frame_at F pc' :: fs)).
Definition sim_args (n : nat) : Prop := forall depth ρ es K F fs below temps pc pc' vm,
  at_frame F fs K depth below -> code_args K ρ.*1 pc es pc' -> machine vm (below ++ words ρ ++ temps) (frame_at F pc :: fs) ->
  leads vm (eval_args n depth (length below) (length temps) ρ es)
    (fun r vm' => r.2.*1 = ρ.*1 /\ length r.1 = length es /\
       machine vm' (below ++ words r.2 ++ temps ++ r.1) (frame_at F pc' :: fs)).
Definition sim_call (n : nat) : Prop := forall depth f args K F fs ws pc vm,
  runs F K -> depth = S (length fs) -> arg_at K pc OP_CALL (Z.of_nat (length args)) ->
  machine vm (ws ++ f :: args) (frame_at F pc :: fs) ->
  leads vm (call n depth (length ws) f args) (fun w vm' => machine vm' (ws ++ [w]) (frame_at F (pc + 3) :: fs)).

Lemma position_find ρ name i : variable ρ name = Some i -> exists x, ρ !! i = Some x /\ x.1 = name.
Proof.
  unfold variable. intros H%position_lt. rewrite list_lookup_fmap in H. apply fmap_Some in H as (x & Hx & ->). eauto.
Qed.

Lemma words_lookup (ρ : env) i x : ρ !! i = Some x -> words ρ !! i = Some x.2.
Proof. intros H. unfold words. rewrite list_lookup_fmap. apply fmap_Some. by exists x. Qed.

Lemma sim_ident n depth ρ l name K F fs below temps pc vm :
  at_frame F fs K depth below -> access_at K ρ.*1 pc OP_GET_LOCAL OP_GET_GLOBAL name ->
  machine vm (below ++ words ρ ++ temps) (frame_at F pc :: fs) ->
  leads vm (eval (S n) depth (length below) (length temps) ρ (NODE_IDENT l name))
    (fun r vm' => r.2.*1 = ρ.*1 /\ machine vm' (below ++ words r.2 ++ temps ++ [r.1]) (frame_at F (pc + 3) :: fs)).
Proof.
  intros [HK Hs _] Ha H. unfold access_at in Ha. simpl. unfold variable.
  assert (El : (length below + length ρ + length temps = length (below ++ words ρ ++ temps))%nat).
  { rewrite !length_app. unfold words. rewrite length_fmap. lia. }
  rewrite El. destruct (position_of name (rev ρ.*1)) as [i|] eqn:Ei.
  - destruct (position_find ρ name i Ei) as (x & Hx & _). rewrite Hx. eapply (leads_get_local F fs K HK (length below) Hs); [exact H|exact Ha| |].
    + rewrite lookup_app_r, Nat.add_sub' by lia. apply lookup_app_l_Some. apply words_lookup. exact Hx.
    + intros vm' H'. split; [done|]. unfold pushes in H'. by rewrite <- !app_assoc in H'.
  - destruct Ha as (i & Ha & Hn). eapply (leads_get_global F fs K HK); [exact H|exact Ha|exact Hn|].
    intros w vm' H'. split; [done|]. unfold pushes in H'. by rewrite <- !app_assoc in H'.
Qed.

Lemma answer_bind_ret {A} (m : answer A) : (m ≫= Done) = m.
Proof. by destruct m. Qed.
Lemma snoc_length {A} (l : list A) x : length (l ++ [x]) = S (length l).
Proof. rewrite length_app. simpl. lia. Qed.

(** The equations of the evaluator that do not follow its case distinctions. *)
Lemma eval_binary n depth base t ρ l op x y o : binary_op op = Some o ->
  eval (S n) depth base t ρ (NODE_BINARY l op x y) =
  (a ← eval n depth base t ρ x; b ← eval n depth base (S t) a.2 y; w ← binary op a.1 b.1; Done (w, b.2)).
Proof. by destruct op. Qed.
Lemma eval_compound n depth base t ρ l l' name op b v : compound op = Some b ->
  eval (S n) depth base t ρ (NODE_ASSIGN l (NODE_IDENT l' name) op v) =
  (old ← eval n depth base t ρ (NODE_IDENT l' name); a ← eval n depth base (S t) old.2 v;
   match variable ρ name with Some i => w ← binary b old.1 a.1; Done (w, assign a.2 i w) | None => Unknown end).
Proof. destruct op; intros [= <-]; simpl; by destruct (variable ρ name). Qed.

Lemma words_assign (ρ : env) i w : words (assign ρ i w) = <[i := w]> (words ρ).
Proof.
  unfold assign, words. revert i. induction ρ as [|x ρ IH]; intros i; [done|]. destruct i as [|i]; simpl; [done|]. f_equal. apply IH.
Qed.

Definition evals (K : image) (F : CallFrame) (fs : list CallFrame) (below temps : list NanValue) (Γ : list (list Z)) (pc' : nat)
    (r : NanValue * env) (vm' : VM) : Prop :=
  r.2.*1 = Γ /\ machine vm' (below ++ words r.2 ++ temps ++ [r.1]) (frame_at F pc' :: fs).

Section expressions.
Context (depth : nat) (K : image) (F : CallFrame) (fs : list CallFrame) (below temps : list NanValue).
Context (HF : at_frame F fs K depth below).
Notation eval_at n ρ e := (eval n depth (length below) (length temps) ρ e).
Notation stack ρ := (below ++ words ρ ++ temps).

(** The temporaries with one more word. *)
Lemma stack_snoc ρ w : below ++ words ρ ++ temps ++ [w] = stack ρ ++ [w].
Proof. by rewrite !app_assoc. Qed.
Lemma stack_two ρ a b : below ++ words ρ ++ (temps ++ [a]) ++ [b] = stack ρ ++ [a; b].
Proof. by rewrite <- !app_assoc. Qed.
Lemma stack_length (ρ : env) : length (stack ρ) = (length below + length ρ + length temps)%nat.
Proof. rewrite !length_app. unfold words. rewrite length_fmap. lia. Qed.

(** A word that is pushed is the value. *)
Lemma leads_value vm ρ pc w (ans : answer (NanValue * env)) :
  ans = fits room (length (stack ρ)) (w, ρ) ->
  (forall Q : NanValue * env -> VM -> Prop, (forall vm', pushes F fs (stack ρ) pc w vm' -> Q (w, ρ) vm') ->
     leads vm (fits room (length (stack ρ)) (w, ρ)) Q) ->
  leads vm ans (evals K F fs below temps ρ.*1 pc).
Proof. intros -> H. apply H. intros vm' H'. split; [done|]. simpl. by rewrite stack_snoc. Qed.

(** Dropping a value, as the jumps leave it on the stack. *)
Lemma moves_drop vm ρ w pc : machine vm (below ++ words ρ ++ temps ++ [w]) (frame_at F pc :: fs) -> op_at K pc OP_POP ->
  moves vm (stack ρ) (frame_at F (pc + 1) :: fs).
Proof. rewrite stack_snoc. apply moves_pop, HF. Qed.

Lemma leads_branch vm ρ w p target (Q : NanValue * env -> VM -> Prop) ans1 ans2 :
  machine vm (below ++ words ρ ++ temps ++ [w]) (frame_at F p :: fs) -> jump_at K p OP_JUMP_UNLESS target ->
  (target <= length (im_code K))%nat ->
  (forall vm1, machine vm1 (below ++ words ρ ++ temps ++ [w]) (frame_at F (p + 3) :: fs) -> nanbox_is_truthy w = true -> leads vm1 ans1 Q) ->
  (forall vm1, machine vm1 (below ++ words ρ ++ temps ++ [w]) (frame_at F target :: fs) -> nanbox_is_truthy w = false -> leads vm1 ans2 Q) ->
  leads vm (if nanbox_is_truthy w then ans1 else ans2) Q.
Proof.
  intros H Hj Hin H1 H2. rewrite stack_snoc in *. eapply leads_moves; [eapply (moves_unless F fs K (if_runs _ _ _ _ _ HF)); done|].
  intros vm1 HM. destruct (nanbox_is_truthy w); auto.
Qed.

Lemma sim_and n l x y ρ pc p1 pc' vm : sim_eval n ->
  code_expr K ρ.*1 pc x p1 -> jump_at K p1 OP_JUMP_UNLESS pc' -> op_at K (p1 + 3) OP_POP -> code_expr K ρ.*1 (p1 + 4) y pc' ->
  machine vm (stack ρ) (frame_at F pc :: fs) ->
  leads vm (eval_at (S n) ρ (NODE_BINARY l TOK_AND x y)) (evals K F fs below temps ρ.*1 pc').
Proof.
  intros IH Hx Hj Hp Hy H. simpl. eapply leads_bind; [by eapply IH|]. intros [a ρ1] vm1 [Hn H1]. simpl in *.
  pose proof (proj1 (code_expr_end K ρ.*1) _ _ _ Hy) as Hend. eapply leads_branch; [exact H1|exact Hj|done|..].
  - intros vm2 H2 _. eapply leads_moves; [by eapply moves_drop|]. intros vm3 H3. rewrite <- Hn in *.
    replace (p1 + 3 + 1)%nat with (p1 + 4)%nat in H3 by lia. by eapply IH.
  - intros vm2 H2 _. by apply leads_done.
Qed.

Lemma sim_or n l x y ρ pc p1 pc' vm : sim_eval n ->
  code_expr K ρ.*1 pc x p1 -> jump_at K p1 OP_JUMP_UNLESS (p1 + 6) -> jump_at K (p1 + 3) OP_JUMP pc' -> op_at K (p1 + 6) OP_POP ->
  code_expr K ρ.*1 (p1 + 7) y pc' -> machine vm (stack ρ) (frame_at F pc :: fs) ->
  leads vm (eval_at (S n) ρ (NODE_BINARY l TOK_OR x y)) (evals K F fs below temps ρ.*1 pc').
Proof.
  intros IH Hx Hj Hj2 Hp Hy H. simpl. eapply leads_bind; [by eapply IH|]. intros [a ρ1] vm1 [Hn H1]. simpl in *.
  pose proof (proj1 (code_expr_end K ρ.*1) _ _ _ Hy) as Hend. pose proof (op_at_lt _ _ _ Hp) as Hlt.
  eapply leads_branch; [exact H1|exact Hj|lia|..].
  - intros vm2 H2 _. eapply leads_moves; [by eapply moves_jump; [apply HF|..]|]. intros vm3 H3. by apply leads_done.
  - intros vm2 H2 _. eapply leads_moves; [by eapply moves_drop|]. intros vm3 H3. rewrite <- Hn in *.
    replace (p1 + 6 + 1)%nat with (p1 + 7)%nat in H3 by lia. by eapply IH.
Qed.

Lemma sim_ternary n l c x y ρ pc p1 p2 pc' vm : sim_eval n ->
  code_expr K ρ.*1 pc c p1 -> jump_at K p1 OP_JUMP_UNLESS (p2 + 3) -> op_at K (p1 + 3) OP_POP -> code_expr K ρ.*1 (p1 + 4) x p2 ->
  jump_at K p2 OP_JUMP pc' -> op_at K (p2 + 3) OP_POP -> code_expr K ρ.*1 (p2 + 4) y pc' -> machine vm (stack ρ) (frame_at F pc :: fs) ->
  leads vm (eval_at (S n) ρ (NODE_TERNARY l c x y)) (evals K F fs below temps ρ.*1 pc').
Proof.
  intros IH Hc Hj Hp Hx Hj2 Hp2 Hy H. simpl. eapply leads_bind; [by eapply IH|]. intros [a ρ1] vm1 [Hn H1]. simpl in *.
  pose proof (proj1 (code_expr_end K ρ.*1) _ _ _ Hy) as Hend. pose proof (op_at_lt _ _ _ Hp2) as Hlt. rewrite <- Hn in *.
  eapply leads_branch; [exact H1|exact Hj|lia|..].
  - intros vm2 H2 _. eapply leads_moves; [by eapply moves_drop|]. intros vm3 H3. replace (p1 + 3 + 1)%nat with (p1 + 4)%nat in H3 by lia.
    rewrite <- (answer_bind_ret (eval_at n ρ1 x)). eapply leads_bind; [by eapply IH|]. intros [b ρ2] vm4 [Hn2 H4]. simpl in *.
    eapply leads_moves; [by eapply moves_jump; [apply HF|..]|]. intros vm5 H5. by apply leads_done.
  - intros vm2 H2 _. eapply leads_moves; [by eapply moves_drop|]. intros vm3 H3.
    replace (p2 + 3 + 1)%nat with (p2 + 4)%nat in H3 by lia. by eapply IH.
Qed.

Lemma sim_binary n l op o x y ρ pc p1 p2 vm : sim_eval n -> binary_op op = Some o ->
  code_expr K ρ.*1 pc x p1 -> code_expr K ρ.*1 p1 y p2 -> op_at K p2 o -> machine vm (stack ρ) (frame_at F pc :: fs) ->
  leads vm (eval_at (S n) ρ (NODE_BINARY l op x y)) (evals K F fs below temps ρ.*1 (p2 + 1)).
Proof.
  intros IH Ho Hx Hy Hop H. rewrite (eval_binary _ _ _ _ _ _ _ _ _ o Ho). eapply leads_bind; [by eapply IH|].
  intros [a ρ1] vm1 [Hn1 H1]. simpl in *. rewrite <- Hn1 in Hy. rewrite <- (snoc_length temps a).
  eapply leads_bind; [by eapply (IH depth ρ1 y K F fs below (temps ++ [a]))|].
  intros [b ρ2] vm2 [Hn2 H2]. simpl in *. rewrite stack_two in H2. destruct (if_runs _ _ _ _ _ HF) as (ch & Hch & _).
  eapply leads_bind; [eapply (leads_op vm2 (stack ρ2 ++ [a; b])); [exact H2|apply HF|exact Hop|by destruct op; simplify_eq/=|]|].
  - intros vm3 H3. exact (binary_meets vm3 (stack ρ2) (frame_at F (p2 + 1)) fs ch Hch op o a b Ho H3).
  - intros w vm3 H3. apply leads_done. split; [simpl; congruence|]. simpl. rewrite stack_snoc. exact H3.
Qed.

Lemma sim_unary n l op o x ρ pc p1 vm : sim_eval n -> unary_op op = Some o -> code_expr K ρ.*1 pc x p1 -> op_at K p1 o ->
  machine vm (stack ρ) (frame_at F pc :: fs) ->
  leads vm (eval_at (S n) ρ (NODE_UNARY l op x)) (evals K F fs below temps ρ.*1 (p1 + 1)).
Proof.
  intros IH Ho Hx Hop H. simpl. eapply leads_bind; [by eapply IH|]. intros [a ρ1] vm1 [Hn1 H1]. simpl in *. rewrite stack_snoc in H1.
  destruct (if_runs _ _ _ _ _ HF) as (ch & Hch & _).
  eapply leads_bind; [eapply (leads_op vm1 (stack ρ1 ++ [a])); [exact H1|apply HF|exact Hop|by destruct op; simplify_eq/=|]|].
  - intros vm3 H3. exact (unary_meets vm3 (stack ρ1) (frame_at F (p1 + 1)) fs ch Hch op o a Ho H3).
  - intros w vm3 H3. apply leads_done. split; [done|]. simpl. rewrite stack_snoc. exact H3.
Qed.

(** Storing the value on top in a variable. *)
Lemma moves_assign vm ρ i w pc : (i < length ρ)%nat -> machine vm (stack ρ ++ [w]) (frame_at F pc :: fs) ->
  arg_at K pc OP_SET_LOCAL (Z.of_nat i) -> moves vm (below ++ words (assign ρ i w) ++ temps ++ [w]) (frame_at F (pc + 3) :: fs).
Proof.
  intros Hi H Ha. destruct HF as [HK Hs _].
  pose proof (moves_set_local F fs K HK (length below) Hs vm (stack ρ) pc i w H Ha) as Hm.
  rewrite stack_length in Hm. specialize (Hm ltac:(lia)). rewrite insert_app_r_alt in Hm by lia.
  rewrite Nat.add_sub' in Hm. rewrite insert_app_l in Hm by (unfold words; rewrite length_fmap; lia).
  rewrite words_assign, <- !app_assoc in *. exact Hm.
Qed.

Lemma sim_assign n l l' name v ρ pc p1 vm : sim_eval n -> code_expr K ρ.*1 pc v p1 ->
  access_at K ρ.*1 p1 OP_SET_LOCAL OP_SET_GLOBAL name -> machine vm (stack ρ) (frame_at F pc :: fs) ->
  leads vm (eval_at (S n) ρ (NODE_ASSIGN l (NODE_IDENT l' name) TOK_ASSIGN v)) (evals K F fs below temps ρ.*1 (p1 + 3)).
Proof.
  intros IH Hv Ha H. simpl. eapply leads_bind; [by eapply IH|]. intros [a ρ1] vm1 [Hn1 H1]. simpl in *.
  destruct (variable ρ name) as [i|] eqn:Ei; [|done]. unfold access_at in Ha. unfold variable in Ei. rewrite Ei in Ha.
  apply position_lt, lookup_lt_Some in Ei. rewrite <- Hn1, length_fmap in Ei. rewrite stack_snoc in H1.
  eapply leads_moves; [by eapply moves_assign|]. intros vm2 H2. apply leads_done. split; [|done]. simpl. by rewrite names_assign.
Qed.

Lemma sim_compound n l l' name op b o v ρ pc p1 p2 vm : sim_eval n -> compound op = Some b -> binary_op b = Some o ->
  code_expr K ρ.*1 pc (NODE_IDENT l' name) p1 -> code_expr K ρ.*1 p1 v p2 -> op_at K p2 o ->
  access_at K ρ.*1 (p2 + 1) OP_SET_LOCAL OP_SET_GLOBAL name -> machine vm (stack ρ) (frame_at F pc :: fs) ->
  leads vm (eval_at (S n) ρ (NODE_ASSIGN l (NODE_IDENT l' name) op v)) (evals K F fs below temps ρ.*1 (p2 + 4)).
Proof.
  intros IH Hop Ho Hx Hy Hopc Ha H. rewrite (eval_compound _ _ _ _ _ _ _ _ _ b _ Hop). eapply leads_bind; [by eapply IH|].
  intros [a ρ1] vm1 [Hn1 H1]. simpl in *. rewrite <- Hn1 in Hy. rewrite <- (snoc_length temps a).
  eapply leads_bind; [by eapply (IH depth ρ1 v K F fs below (temps ++ [a]))|].
  intros [c ρ2] vm2 [Hn2 H2]. simpl in *. destruct (variable ρ name) as [i|] eqn:Ei; [|done]. unfold access_at in Ha. unfold variable in Ei.
  rewrite Ei in Ha. apply position_lt, lookup_lt_Some in Ei. rewrite <- Hn1, <- Hn2, length_fmap in Ei.
  rewrite stack_two in H2.
  destruct (if_runs _ _ _ _ _ HF) as (ch & Hch & _).
  eapply leads_bind; [eapply (leads_op vm2 (stack ρ2 ++ [a; c])); [exact H2|apply HF|exact Hopc|by destruct b; simplify_eq/=|]|].
  - intros vm3 H3. exact (binary_meets vm3 (stack ρ2) (frame_at F (p2 + 1)) fs ch Hch b o a c Ho H3).
  - intros w vm3 H3. eapply leads_moves; [by eapply moves_assign|]. intros vm4 H4. apply leads_done.
    split; [simpl; rewrite names_assign; congruence|]. simpl. by replace (p2 + 1 + 3)%nat with (p2 + 4)%nat in H4 by lia.
Qed.

Lemma sim_call_expr n l f args ρ pc p1 p2 vm : sim_eval n -> sim_args n -> sim_call n -> code_expr K ρ.*1 pc f p1 ->
  code_args K ρ.*1 p1 args p2 -> arg_at K p2 OP_CALL (Z.of_nat (length args)) -> machine vm (stack ρ) (frame_at F pc :: fs) ->
  leads vm (eval_at (S n) ρ (NODE_CALL l f args)) (evals K F fs below temps ρ.*1 (p2 + 3)).
Proof.
  intros IH IHa IHc Hf Hargs Ha H. simpl. eapply leads_bind; [by eapply IH|]. intros [a ρ1] vm1 [Hn1 H1]. simpl in *.
  rewrite <- Hn1 in Hargs. rewrite <- (snoc_length temps a).
  eapply leads_bind; [by eapply (IHa depth ρ1 args K F fs below (temps ++ [a]))|].
  intros [ws ρ2] vm2 (Hn2 & Hl & H2). simpl in *. rewrite <- Hl in Ha.
  assert (El : (length below + length ρ + length temps)%nat = length (stack ρ2)).
  { rewrite stack_length. rewrite <- (length_fmap fst ρ), <- Hn1, <- Hn2, length_fmap. lia. }
  rewrite El. eapply leads_bind.
  - eapply (IHc depth a ws K F fs (stack ρ2)); [apply HF|apply HF|done|].
    rewrite <- !app_assoc in H2. simpl in H2. rewrite <- !app_assoc. exact H2.
  - intros w vm3 H3. apply leads_done. split; [simpl; congruence|]. simpl. by rewrite stack_snoc.
Qed.
End expressions.

Lemma sim_eval_step n : sim_eval n -> sim_args n -> sim_call n -> sim_eval (S n).
Proof.
  intros IH IHa IHc depth ρ e K F fs below temps pc pc' vm HF Hcode H. pose proof (if_runs _ _ _ _ _ HF) as HK.
  change (leads vm (eval (S n) depth (length below) (length temps) ρ e) (evals K F fs below temps ρ.*1 pc')).
  inversion Hcode; subst.
  - apply (leads_value K F fs below temps vm ρ _ NANBOX_NIL); [by rewrite stack_length|]. intros Q HQ.
    by eapply (leads_push F fs K HK vm (below ++ words ρ ++ temps) pc OP_NIL).
  - apply (leads_value K F fs below temps vm ρ _ (nanbox_bool b)); [by rewrite stack_length|]. intros Q HQ.
    by eapply (leads_push F fs K HK vm (below ++ words ρ ++ temps) pc (if b then OP_TRUE else OP_FALSE)); try done; destruct b.
  - destruct e; simplify_eq/=; (eapply (leads_value K F fs below temps vm ρ); [by rewrite stack_length|]); intros Q HQ; eapply (leads_const F fs K HK); try done;
      intros p Hp; unfold value_to_nanbox; destruct (Z.eqb_spec p NULL); try done.
  - by eapply sim_ident.
  - by eapply sim_and.
  - by eapply sim_or.
  - by eapply sim_binary.
  - by eapply sim_unary.
  - by eapply sim_ternary.
  - by eapply sim_assign.
  - by eapply sim_compound.
  - by eapply sim_call_expr.
Qed.

Lemma sim_args_step n : sim_eval n -> sim_args n -> sim_args (S n).
Proof.
  intros IH IHa depth ρ es K F fs below temps pc pc' vm HF Hcode H. inversion Hcode as [|e es' ? p1 ? He Hes]; subst; simpl.
  - apply leads_done. split_and!; [done|done|]. simpl. by rewrite app_nil_r.
  - eapply leads_bind; [by eapply IH|]. intros [a ρ1] vm1 [Hn1 H1]. simpl in *. rewrite <- Hn1 in Hes. rewrite <- (snoc_length temps a).
    eapply leads_bind; [by eapply (IHa depth ρ1 es' K F fs below (temps ++ [a]))|].
    intros [ws ρ2] vm2 (Hn2 & Hl & H2). simpl in *. apply leads_done. split_and!; [simpl; congruence|simpl; by rewrite Hl|].
    simpl. by rewrite <- app_assoc in H2.
Qed.

(** ** Statements *)

(** Where the machine is after a statement: behind it, at the end or the start of
    the loop, or back in the caller. *)
Definition after (L : option target) (Γ : list (list Z)) (F : CallFrame) (fs : list CallFrame) (below : list NanValue)
    (go : env -> VM -> Prop) (r : signal * env) (vm' : VM) : Prop :=
  let at_loop where_ := exists t, L = Some t /\ (take (t_vars t) r.2).*1 = take (t_vars t) Γ /\
    machine vm' (below ++ words (take (t_vars t) r.2)) (frame_at F (where_ t) :: fs) in
  match r.1 with
  | Go => go r.2 vm'
  | Break => at_loop t_end
  | Continue => at_loop t_start
  | Returned w => machine vm' (below ++ [w]) fs
  end.
Definition behind (F : CallFrame) (fs : list CallFrame) (below : list NanValue) (pc' : nat) (Γ' : list (list Z)) (ρ' : env) (vm' : VM) : Prop :=
  ρ'.*1 = Γ' /\ machine vm' (below ++ words ρ') (frame_at F pc' :: fs).
(** The same, with the value of a block on the stack, whatever it is. *)
Definition behind_value (F : CallFrame) (fs : list CallFrame) (below : list NanValue) (pc' : nat) (Γ' : list (list Z)) (ρ' : env) (vm' : VM) : Prop :=
  ρ'.*1 = Γ' /\ exists w, machine vm' (below ++ words ρ' ++ [w]) (frame_at F pc' :: fs).

(** The loop a statement is in. *)
Definition loop_ok (K : image) (L : option target) (ρ : env) : Prop := forall t, L = Some t ->
  (t_vars t <= length ρ)%nat /\ (t_end t <= length (im_code K))%nat.

Definition sim_exec (n : nat) : Prop := forall depth L ρ s K F fs below pc pc' Γ' vm,
  in_frame F fs K depth below -> code_stmt K L ρ.*1 pc s pc' Γ' -> loop_ok K L ρ ->
  machine vm (below ++ words ρ) (frame_at F pc :: fs) ->
  leads vm (exec n depth (length below) ρ s) (after L ρ.*1 F fs below (behind F fs below pc' Γ')).
Definition sim_list (n : nat) : Prop := forall depth L ρ ss K F fs below pc pc' Γ' vm,
  in_frame F fs K depth below -> code_stmts K L ρ.*1 pc ss pc' Γ' -> loop_ok K L ρ ->
  machine vm (below ++ words ρ) (frame_at F pc :: fs) ->
  leads vm (exec_list n depth (length below) ρ ss) (after L ρ.*1 F fs below (behind F fs below pc' Γ')).
(** A list of statements whose last value is kept: there is room for it. *)
Definition sim_value (n : nat) : Prop := forall depth L ρ ss K F fs below pc pc' Γ' vm,
  in_frame F fs K depth below -> code_value K L ρ.*1 pc ss pc' Γ' -> loop_ok K L ρ ->
  machine vm (below ++ words ρ) (frame_at F pc :: fs) ->
  leads vm (r ← exec_list n depth (length below) ρ ss;
            match r.1 with Go => fits room (length below + length r.2) (Go, r.2) | _ => Done r end)
    (after L ρ.*1 F fs below (behind_value F fs below pc' Γ')).
Definition sim_block (n : nat) : Prop := forall depth L ρ ss K F fs below pc pc' vm,
  in_frame F fs K depth below -> code_block K L ρ.*1 pc ss pc' -> loop_ok K L ρ ->
  machine vm (below ++ words ρ) (frame_at F pc :: fs) ->
  leads vm (exec_block n depth (length below) ρ ss) (after L ρ.*1 F fs below (behind F fs below pc' ρ.*1)).
Definition sim_branch (n : nat) : Prop := forall depth L ρ y K F fs below pc pc' vm,
  in_frame F fs K depth below -> code_branch K L ρ.*1 pc y pc' -> loop_ok K L ρ -> (pc' <= length (im_code K))%nat ->
  machine vm (below ++ words ρ) (frame_at F pc :: fs) ->
  leads vm (exec_branch n depth (length below) ρ y) (after L ρ.*1 F fs below (behind_value F fs below pc' ρ.*1)).
Definition sim_if (n : nat) : Prop := forall depth L ρ l c x y K F fs below pc pc' vm,
  in_frame F fs K depth below -> code_if K L ρ.*1 pc (NODE_IF l c x y) pc' -> loop_ok K L ρ -> (pc' <= length (im_code K))%nat ->
  machine vm (below ++ words ρ) (frame_at F pc :: fs) ->
  leads vm (exec n depth (length below) ρ (NODE_IF l c x y)) (after L ρ.*1 F fs below (behind_value F fs below pc' ρ.*1)).

(** A statement that gives its signal on. *)
Lemma leads_signal vm L Γ F fs below (m : answer (signal * env)) (k : env -> answer (signal * env)) go go' :
  leads vm m (after L Γ F fs below go) ->
  (forall ρ1 vm1, go ρ1 vm1 -> leads vm1 (k ρ1) (after L Γ F fs below go')) ->
  leads vm (r ← m; match r.1 with Go => k r.2 | _ => Done r end) (after L Γ F fs below go').
Proof.
  intros Hm Hk. eapply leads_bind; [exact Hm|]. intros [sg ρ1] vm1 H1. destruct sg; simpl in *; [by apply Hk|..]; by apply leads_done.
Qed.

Lemma after_weaken L Γ Γ0 F fs below (go go' : env -> VM -> Prop) r vm : (forall ρ vm, go ρ vm -> go' ρ vm) ->
  (forall t, L = Some t -> take (t_vars t) Γ0 = take (t_vars t) Γ) ->
  after L Γ0 F fs below go r vm -> after L Γ F fs below go' r vm.
Proof.
  intros Hg HΓ. unfold after. destruct r as [[] ρ]; simpl; [apply Hg|..|done];
    intros (t & Ht & Hn & Hm); exists t; (split_and!; [done| |done]); by rewrite Hn, (HΓ t Ht).
Qed.

Lemma code_stmt_prefix K L Γ pc s pc' Γ' : code_stmt K L Γ pc s pc' Γ' -> Γ `prefix_of` Γ'.
Proof. destruct 1; try done; by eexists. Qed.
Lemma take_prefix {A} (l l' : list A) n : l `prefix_of` l' -> (n <= length l)%nat -> take n l' = take n l.
Proof. intros [k ->] Hn. by rewrite take_app_le. Qed.

Lemma sim_list_step n : sim_exec n -> sim_list n -> sim_list (S n).
Proof.
  intros IH IHl depth L ρ ss K F fs below pc pc' Γ' vm HF Hcode HL H.
  inversion Hcode as [|s ss' ? p1 ? Γ1 ? Hs Hss]; subst; simpl; [by apply leads_done|].
  pose proof (code_stmt_prefix _ _ _ _ _ _ _ Hs) as Hp. 
  eapply (leads_signal vm L _ F fs below _ (fun ρ1 => exec_list n depth (length below) ρ1 ss')); [by eapply IH|].
  intros ρ1 vm1 [Hn1 H1]. subst Γ1.
  assert (Hle : (length ρ <= length ρ1)%nat) by (apply prefix_length in Hp; by rewrite !length_fmap in Hp).
  eapply leads_weaken; [eapply (IHl depth L ρ1); [done|exact Hss| |done]|].
  - intros t Ht. destruct (HL t Ht). split; [lia|done].
  - intros r vm2. apply after_weaken; [done|]. intros t Ht. destruct (HL t Ht). apply take_prefix; [done|]. by rewrite length_fmap.
Qed.

Lemma answer_bind_assoc {A B D} (m : answer A) (f : A -> answer B) (h : B -> answer D) :
  ((m ≫= f) ≫= h) = (m ≫= (fun x => f x ≫= h)).
Proof. by destruct m. Qed.
Lemma signal_id (m : answer (signal * env)) : m = (r ← m; match r.1 with Go => Done (Go, r.2) | _ => Done r end).
Proof. by destruct m as [| | |[[] ρ]]. Qed.

Lemma words_length (ρ : env) : length (words ρ) = length ρ.
Proof. unfold words. by rewrite length_fmap. Qed.
Lemma machine_room vm (below : list NanValue) (ρ : env) w fs : machine vm (below ++ words ρ ++ [w]) fs ->
  (length below + length ρ < room)%nat.
Proof. intros H%machine_fits. rewrite !length_app, words_length in H. simpl in H. lia. Qed.
Lemma fits_room {A} h (x : A) : (h < room)%nat -> fits room h x = Done x.
Proof. intros H. unfold fits. by destruct (Nat.ltb_spec h room); [|lia]. Qed.

(** An expression in a statement: there are no temporaries. *)
Lemma sim_eval_stmt n depth ρ e K F fs below pc pc' vm : sim_eval n -> in_frame F fs K depth below ->
  code_expr K ρ.*1 pc e pc' -> machine vm (below ++ words ρ) (frame_at F pc :: fs) ->
  leads vm (eval n depth (length below) 0 ρ e)
    (fun r vm' => r.2.*1 = ρ.*1 /\ machine vm' (below ++ words r.2 ++ [r.1]) (frame_at F pc' :: fs)).
Proof. intros IH HF Hc H. eapply (IH depth ρ e K F fs below []); [apply HF|done|]. by rewrite app_nil_r. Qed.

Lemma sim_value_step n : (forall m, (m <= n)%nat -> sim_eval m) -> sim_exec n -> sim_value n -> sim_value (S n).
Proof.
  intros IHe IH IHv depth L ρ ss K F fs below pc pc' Γ' vm HF Hcode HL H. pose proof (if_runs _ _ _ _ _ HF) as HK.
  inversion Hcode as [? Hop|l e ? ? He|s ss' ? p1 ? Γ1 ? Hs Hss]; subst.
  - change (leads vm (fits room (length below + length ρ) (Go, ρ)) (after L ρ.*1 F fs below (behind_value F fs below (pc + 1) ρ.*1))).
    rewrite <- words_length, <- length_app. eapply (leads_push F fs K HK); [exact H|exact Hop|done|reflexivity|].
    intros vm' H'. split; [done|]. exists NANBOX_NIL. unfold pushes in H'. by rewrite <- app_assoc in H'.
  - destruct n as [|n]; [done|]. simpl. rewrite !answer_bind_assoc.
    eapply leads_bind; [eapply (sim_eval_stmt n); [apply IHe; lia|done..]|]. intros [a ρ1] vm1 [Hn1 H1]. simpl in *.
    rewrite fits_room by (by eapply machine_room). apply leads_done. split; [done|]. by exists a.
  - simpl. pose proof (code_stmt_prefix _ _ _ _ _ _ _ Hs) as Hp. rewrite answer_bind_assoc. eapply leads_bind; [by eapply IH|].
    intros [sg ρ1] vm1 H1. destruct sg; simpl in H1; try (by apply leads_done). destruct H1 as [Hn1 H1]. subst Γ1. cbn [fst snd].
    assert (Hle : (length ρ <= length ρ1)%nat) by (apply prefix_length in Hp; by rewrite !length_fmap in Hp).
    eapply leads_weaken; [eapply (IHv depth L ρ1); [done|exact Hss| |done]|].
    + intros t Ht. destruct (HL t Ht). split; [lia|done].
    + intros r vm2. apply after_weaken; [done|]. intros t Ht. destruct (HL t Ht). apply take_prefix; [done|]. by rewrite length_fmap.
Qed.

(** What a block leaves behind when its variables are popped. *)
Lemma env_split (ρ1 : env) (n m : nat) : length ρ1 = (n + m)%nat -> exists xs, words ρ1 = words (take n ρ1) ++ xs /\ length xs = m.
Proof.
  intros Hl. exists (words (drop n ρ1)). split.
  - unfold words. rewrite <- fmap_app. by rewrite take_drop.
  - rewrite words_length, length_drop. lia.
Qed.
Lemma names_take (ρ1 : env) Γ n : ρ1.*1 = Γ -> (take n ρ1).*1 = take n Γ.
Proof. intros <-. unfold env in *. by rewrite fmap_take. Qed.

Lemma names_length (ρ ρ' : env) : ρ.*1 = ρ'.*1 -> length ρ = length ρ'.
Proof. intros H. by rewrite <- (length_fmap fst ρ), H, length_fmap. Qed.

(** The variables of a block's start are there again at its end. *)
Lemma names_restored (ρ ρ1 : env) Γ1 : ρ1.*1 = Γ1 -> ρ.*1 `prefix_of` Γ1 -> (take (length ρ) ρ1).*1 = ρ.*1.
Proof.
  intros Hn Hp. etrans; [exact (names_take _ _ _ Hn)|]. rewrite (take_prefix _ _ _ Hp) by (by rewrite length_fmap).
  rewrite <- (length_fmap fst ρ). apply firstn_all.
Qed.

Lemma code_stmts_prefix K L ss : forall Γ pc pc' Γ', code_stmts K L Γ pc ss pc' Γ' -> Γ `prefix_of` Γ'.
Proof.
  induction ss as [|s ss IH]; intros Γ pc pc' Γ' H; inversion H; subst; [done|].
  etrans; [by eapply code_stmt_prefix|by eapply IH].
Qed.
Lemma code_value_prefix K L ss : forall Γ pc pc' Γ', code_value K L Γ pc ss pc' Γ' -> Γ `prefix_of` Γ'.
Proof.
  induction ss as [|s ss IH]; intros Γ pc pc' Γ' H; inversion H; subst; try done.
  etrans; [by eapply code_stmt_prefix|by eapply IH].
Qed.

Lemma sim_block_step n : sim_list n -> sim_block (S n).
Proof.
  intros IH depth L ρ ss K F fs below pc pc' vm HF Hcode HL H. inversion Hcode as [? ? p1 Γ1 m Hss Hl Hp]; subst. simpl.
  eapply (leads_signal vm L _ F fs below _ (fun ρ1 => Done (Go, take (length ρ) ρ1))); [by eapply IH|].
  intros ρ1 vm1 [Hn1 H1]. pose proof (code_stmts_prefix _ _ _ _ _ _ _ Hss) as Hpre. rewrite <- Hn1, !length_fmap in Hl.
  destruct (env_split ρ1 (length ρ) m Hl) as (xs & Ews & Hxs). rewrite Ews, app_assoc in H1.
  eapply leads_moves; [eapply (moves_pops F fs K (if_runs _ _ _ _ _ HF) m); done|]. intros vm2 H2. apply leads_done. split; [|done].
  by eapply names_restored.
Qed.

Lemma branch_answer (m : answer (signal * env)) (h : env -> nat) k :
  (r ← m; match r.1 with Go => fits room (h r.2) (Go, take k r.2) | _ => Done r end) =
  (r ← (r ← m; match r.1 with Go => fits room (h r.2) (Go, r.2) | _ => Done r end);
   match r.1 with Go => Done (Go, take k r.2) | _ => Done r end).
Proof. destruct m as [| | |[[] ρ]]; try done. simpl. unfold fits. by destruct (h ρ <? room)%nat. Qed.

Lemma sim_branch_step n : sim_value n -> sim_if n -> sim_branch (S n).
Proof.
  intros IHv IHi depth L ρ y K F fs below pc pc' vm HF Hcode HL Hend H. pose proof (if_runs _ _ _ _ _ HF) as HK.
  inversion Hcode as [? Hop|l ss ? p1 Γ1 m Hss Hl Hp|l c x y' ? ? Hif]; subst.
  - simpl. rewrite <- words_length, <- length_app. eapply (leads_push F fs K HK); [exact H|exact Hop|done|reflexivity|].
    intros vm' H'. split; [done|]. exists NANBOX_NIL. unfold pushes in H'. by rewrite <- app_assoc in H'.
  - simpl. rewrite (branch_answer _ (fun r => (length below + length r)%nat)).
    eapply (leads_signal vm L _ F fs below _ (fun ρ1 => Done (Go, take (length ρ) ρ1))); [by eapply IHv|].
    intros ρ1 vm1 (Hn1 & w & H1). pose proof (code_value_prefix _ _ _ _ _ _ _ Hss) as Hpre. rewrite <- Hn1, !length_fmap in Hl.
    destruct (env_split ρ1 (length ρ) m Hl) as (xs & Ews & Hxs). rewrite Ews in H1.
    assert (Hx : exists u us, xs ++ [w] = u :: us /\ length us = m).
    { destruct xs as [|u us]; [by exists w, []|]. exists u, (us ++ [w]). rewrite snoc_length. done. }
    destruct Hx as (u & us & Ex & Hus). rewrite <- app_assoc, Ex in H1. change (u :: us) with ([u] ++ us) in H1. rewrite !app_assoc in H1.
    eapply leads_moves; [eapply (moves_pops F fs K HK m); done|]. intros vm2 H2. apply leads_done.
    split; [by eapply names_restored|]. exists u. by rewrite <- app_assoc in H2.
  - by eapply (IHi depth L ρ).
Qed.

Lemma exec_if n depth base ρ l c x y : exec (S n) depth base ρ (NODE_IF l c x y) =
  (a ← eval n depth base 0 ρ c;
   if nanbox_is_truthy a.1 then exec_branch n depth base a.2 (Some x) else exec_branch n depth base a.2 y).
Proof. done. Qed.
Lemma exec_while n depth base ρ l l' c ss : exec (S n) depth base ρ (NODE_WHILE l c (NODE_BLOCK l' ss)) =
  (a ← eval n depth base 0 ρ c;
   if nanbox_is_truthy a.1 then
     r ← exec_block n depth base a.2 ss;
     match r.1 with
     | Go | Continue => exec n depth base (take (length ρ) r.2) (NODE_WHILE l c (NODE_BLOCK l' ss))
     | Break => Done (Go, take (length ρ) r.2)
     | Returned w => Done r
     end
   else Done (Go, a.2)).
Proof. done. Qed.

Lemma sim_if_step n : sim_eval n -> sim_branch n -> sim_if (S n).
Proof.
  intros IHe IHb depth L ρ l c x y K F fs below pc pc' vm HF Hcode HL Hend H. pose proof (if_runs _ _ _ _ _ HF) as HK.
  inversion Hcode as [? ? ? ? ? p1 p2 ? Hc Hj Hp Hx Hj2 Hp2 Hy]; subst. rewrite exec_if.
  eapply leads_bind; [by eapply sim_eval_stmt|]. intros [a ρ1] vm1 [Hn1 H1]. cbn [fst snd] in *. rewrite <- Hn1 in *.
  pose proof (op_at_lt _ _ _ Hp2) as Hlt. rewrite app_assoc in H1.
  assert (HL1 : loop_ok K L ρ1).
  { intros t Ht. destruct (HL t Ht) as [HL1 HL2]. split; [|done]. by rewrite (names_length _ _ Hn1). }
  eapply leads_moves; [eapply (moves_unless F fs K HK); [exact H1|exact Hj|lia]|]. intros vm2 H2. destruct (nanbox_is_truthy a).
  - eapply leads_moves; [by eapply (moves_pop F fs K HK)|]. intros vm3 H3. replace (p1 + 3 + 1)%nat with (p1 + 4)%nat in H3 by lia.
    rewrite (signal_id (exec_branch _ _ _ _ _)). eapply (leads_signal vm3 L _ F fs below _ (fun ρ2 => Done (Go, ρ2)));
      [eapply (IHb depth L ρ1); [done|exact Hx|done|lia|done]|].
    intros ρ2 vm4 (Hn2 & w & H4). eapply leads_moves; [by eapply (moves_jump F fs K HK)|]. intros vm5 H5. apply leads_done.
    split; [done|]. by exists w.
  - eapply leads_moves; [by eapply (moves_pop F fs K HK)|]. intros vm3 H3. replace (p2 + 3 + 1)%nat with (p2 + 4)%nat in H3 by lia.
    by eapply (IHb depth L ρ1).
Qed.

(** *** Loops *)

(** The names behind an inner loop are those in front of it. *)
Lemma sim_while_step n l l' c ss depth L ρ K F fs below pc p1 p2 vm :
  sim_eval n -> sim_block n -> sim_exec n -> in_frame F fs K depth below ->
  code_stmt K L ρ.*1 pc (NODE_WHILE l c (NODE_BLOCK l' ss)) (p2 + 4) ρ.*1 -> loop_ok K L ρ ->
  code_expr K ρ.*1 pc c p1 -> jump_at K p1 OP_JUMP_UNLESS (p2 + 3) -> op_at K (p1 + 3) OP_POP ->
  code_block K (Some (mkTarget pc (length ρ.*1) (p2 + 4))) ρ.*1 (p1 + 4) ss p2 -> loop_at K p2 pc -> op_at K (p2 + 3) OP_POP ->
  machine vm (below ++ words ρ) (frame_at F pc :: fs) ->
  leads vm (exec (S n) depth (length below) ρ (NODE_WHILE l c (NODE_BLOCK l' ss)))
    (after L ρ.*1 F fs below (behind F fs below (p2 + 4) ρ.*1)).
Proof.
  intros IHe IHb IH HF Hcode HL Hc Hj Hp Hb Hl Hp2 H. pose proof (if_runs _ _ _ _ _ HF) as HK. rewrite exec_while.
  eapply leads_bind; [by eapply sim_eval_stmt|]. intros [a ρ1] vm1 [Hn1 H1]. cbn [fst snd] in *.
  pose proof (op_at_lt _ _ _ Hp2) as Hlt. rewrite app_assoc in H1.
  pose proof (names_length _ _ Hn1) as Hlen.
  eapply leads_moves; [eapply (moves_unless F fs K HK); [exact H1|exact Hj|lia]|]. intros vm2 H2. destruct (nanbox_is_truthy a).
  2:{ eapply leads_moves; [by eapply (moves_pop F fs K HK)|]. intros vm3 H3. replace (p2 + 3 + 1)%nat with (p2 + 4)%nat in H3 by lia.
      by apply leads_done. }
  eapply leads_moves; [by eapply (moves_pop F fs K HK)|]. intros vm3 H3. replace (p1 + 3 + 1)%nat with (p1 + 4)%nat in H3 by lia.
  rewrite <- Hn1 in Hb. eapply leads_bind.
  { eapply (IHb depth _ ρ1); [done|exact Hb| |done]. intros t [= <-]. simpl. rewrite length_fmap. lia. }
  assert (Hagain : forall ρ2 vm4, ρ2.*1 = ρ.*1 -> machine vm4 (below ++ words ρ2) (frame_at F pc :: fs) ->
    leads vm4 (exec n depth (length below) ρ2 (NODE_WHILE l c (NODE_BLOCK l' ss))) (after L ρ.*1 F fs below (behind F fs below (p2 + 4) ρ.*1))).
  { intros ρ2 vm4 Hn2 H4. rewrite <- Hn2 in *. eapply (IH depth L ρ2); [done|exact Hcode| |done].
    intros t Ht. destruct (HL t Ht). by rewrite (names_length _ _ Hn2). }
  intros [sg ρ2] vm4 H4. destruct sg; cbn [fst snd] in *.
  - destruct H4 as [Hn2 H4]. cbn [fst snd] in Hn2, H4. rewrite Hn1 in Hn2. assert (E : take (length ρ) ρ2 = ρ2).
    { apply take_ge. by rewrite (names_length _ _ Hn2). }
    rewrite E. eapply leads_moves; [by eapply (moves_loop F fs K HK)|]. intros vm5 H5. by apply Hagain.
  - destruct H4 as (t & [= <-] & Hn2 & H4). simpl in *. rewrite length_fmap, Hlen in *. apply leads_done. split; [|done].
    etrans; [exact Hn2|]. rewrite Hn1. apply take_ge. by rewrite length_fmap.
  - destruct H4 as (t & [= <-] & Hn2 & H4). simpl in *. rewrite length_fmap, Hlen in *. apply Hagain; [|done].
    etrans; [exact Hn2|]. rewrite Hn1. apply take_ge. by rewrite length_fmap.
  - by apply leads_done.
Qed.

Lemma leads_binary vm ws op o a b F fs K pc : runs F K -> binary_op op = Some o -> op_at K pc o ->
  machine vm (ws ++ [a; b]) (frame_at F pc :: fs) ->
  leads vm (binary op a b) (fun w vm' => machine vm' (ws ++ [w]) (frame_at F (pc + 1) :: fs)).
Proof.
  intros HK Ho Hop H. pose proof HK as (ch & Hch & _).
  eapply (leads_op vm (ws ++ [a; b])); [exact H|exact HK|exact Hop|by destruct op; simplify_eq/=|].
  intros vm3 H3. exact (binary_meets vm3 ws (frame_at F (pc + 1)) fs ch Hch op o a b Ho H3).
Qed.

Lemma moves_get_local F fs K base vm ws pc i w : runs F K -> slots F = sb + Z.of_nat base -> machine vm ws (frame_at F pc :: fs) ->
  arg_at K pc OP_GET_LOCAL (Z.of_nat i) -> ws !! (base + i)%nat = Some w -> (length ws < room)%nat ->
  moves vm (ws ++ [w]) (frame_at F (pc + 3) :: fs).
Proof.
  intros HK Hs H Ha Hw Hr. apply moves_leads. rewrite <- (fits_room (length ws) tt Hr).
  by eapply (leads_get_local F fs K HK base Hs).
Qed.
Lemma moves_const F fs K vm ws pc i d w : runs F K -> machine vm ws (frame_at F pc :: fs) -> arg_at K pc OP_CONST (Z.of_nat i) ->
  im_consts K !! i = Some d -> (forall p, p <> NULL -> value_to_nanbox p d = w) -> (length ws < room)%nat ->
  moves vm (ws ++ [w]) (frame_at F (pc + 3) :: fs).
Proof.
  intros HK H Ha Hd Hw Hr. apply moves_leads. rewrite <- (fits_room (length ws) tt Hr). by eapply (leads_const F fs K HK).
Qed.

Section range.
Context (depth : nat) (K : image) (F : CallFrame) (fs : list CallFrame) (below : list NanValue) (HF : in_frame F fs K depth below).
Context (Γ : list (list Z)) (m : nat) (HΓ : length Γ = S (S m)) (incl : bool) (ss : list AstNode) (p2 p3 i : nat).
(** The code of the rounds, from [p2] on. *)
Context (Hvar : arg_at K p2 OP_GET_LOCAL (Z.of_nat (S m))) (Hlast : arg_at K (p2 + 3) OP_GET_LOCAL (Z.of_nat m)).
Context (Hcmp : op_at K (p2 + 6) (if incl then OP_LE else OP_LT)) (Hexit : jump_at K (p2 + 7) OP_JUMP_UNLESS (p3 + 14)).
Context (Hpop : op_at K (p2 + 10) OP_POP) (Hbody : code_block K (Some (mkTarget p2 (length Γ) (p3 + 15))) Γ (p2 + 11) ss p3).
Context (Hvar' : arg_at K p3 OP_GET_LOCAL (Z.of_nat (S m))) (Hone : arg_at K (p3 + 3) OP_CONST (Z.of_nat i)).
Context (Hi : im_consts K !! i = Some (VInt 1)) (Hadd : op_at K (p3 + 6) OP_ADD) (Hset : arg_at K (p3 + 7) OP_SET_LOCAL (Z.of_nat (S m))).
Context (Hpop' : op_at K (p3 + 10) OP_POP) (Hloop : loop_at K (p3 + 11) p2) (Hdrop : op_at K (p3 + 14) OP_POP).

Lemma word_at (ρ : env) j x : ρ !! j = Some x -> (below ++ words ρ) !! (length below + j)%nat = Some x.2.
Proof. intros H. rewrite lookup_app_r, Nat.add_sub' by lia. by apply words_lookup. Qed.
Lemma height (ρ : env) : length (below ++ words ρ) = (length below + length ρ)%nat.
Proof. by rewrite length_app, words_length. Qed.

(** The comparison of the loop variable with the end. *)
Lemma range_test vm ρ x y : (length below + length ρ + 1 < room)%nat -> ρ !! S m = Some x -> ρ !! m = Some y ->
  machine vm (below ++ words ρ) (frame_at F p2 :: fs) ->
  leads vm (binary (if incl then TOK_LE else TOK_LT) x.2 y.2) (fun w vm' => machine vm' ((below ++ words ρ) ++ [w]) (frame_at F (p2 + 7) :: fs)).
Proof.
  intros Hr Hx Hy H. pose proof (if_runs _ _ _ _ _ HF) as HK. pose proof (if_slots _ _ _ _ _ HF) as Hs.
  eapply leads_moves; [eapply moves_get_local; [exact HK|exact Hs|exact H|exact Hvar|by apply word_at|rewrite height; lia]|]. intros vm1 H1.
  eapply leads_moves; [eapply moves_get_local; [exact HK|exact Hs|exact H1|exact Hlast| |rewrite length_app, height; simpl; lia]|].
  { apply lookup_app_l_Some. by apply word_at. }
  intros vm2 H2. rewrite <- app_assoc in H2. replace (p2 + 3 + 3)%nat with (p2 + 6)%nat in H2 by lia.
  replace (p2 + 7)%nat with (p2 + 6 + 1)%nat by lia. eapply leads_binary; [exact HK| |exact Hcmp|exact H2]. by destruct incl.
Qed.

(** The increment of the loop variable. *)
Lemma range_increment vm ρ x : (length below + length ρ + 1 < room)%nat -> ρ !! S m = Some x ->
  machine vm (below ++ words ρ) (frame_at F p3 :: fs) ->
  leads vm (binary TOK_PLUS x.2 (nanbox_int 1))
    (fun w vm' => machine vm' (below ++ words (assign ρ (S m) w)) (frame_at F p2 :: fs)).
Proof.
  intros Hr Hx H. pose proof (if_runs _ _ _ _ _ HF) as HK. pose proof (if_slots _ _ _ _ _ HF) as Hs.
  pose proof (lookup_lt_Some _ _ _ Hx) as Hlt.
  eapply leads_moves; [eapply moves_get_local; [exact HK|exact Hs|exact H|exact Hvar'|by apply word_at|rewrite height; lia]|]. intros vm1 H1.
  eapply leads_moves; [eapply (moves_const _ _ _ _ _ _ _ _ (nanbox_int 1)); [exact HK|exact H1|exact Hone|exact Hi|intros p Hp; unfold value_to_nanbox; by destruct (Z.eqb_spec p NULL)|rewrite length_app, height; simpl; lia]|].
  intros vm2 H2. rewrite <- app_assoc in H2. replace (p3 + 3 + 3)%nat with (p3 + 6)%nat in H2 by lia.
  rewrite <- (answer_bind_ret (binary _ _ _)). eapply leads_bind; [eapply leads_binary; [exact HK|reflexivity|exact Hadd|exact H2]|].
  intros w vm3 H3. cbv beta in H3. replace (p3 + 6 + 1)%nat with (p3 + 7)%nat in H3 by lia.
  eapply leads_moves; [eapply (moves_assign depth K F fs below [] HF vm3 ρ (S m) w); [exact Hlt|by rewrite app_nil_r|exact Hset]|].
  intros vm4 H4. rewrite app_nil_l, app_assoc in H4. replace (p3 + 7 + 3)%nat with (p3 + 10)%nat in H4 by lia.
  eapply leads_moves; [by eapply (moves_pop F fs K HK)|]. intros vm5 H5. replace (p3 + 10 + 1)%nat with (p3 + 11)%nat in H5 by lia.
  eapply leads_moves; [by eapply (moves_loop F fs K HK)|]. intros vm6 H6. by apply leads_done.
Qed.

Lemma exec_range_step n base (ρ : env) : exec_range (S n) depth base incl ss ρ =
  match ρ !! (length ρ - 1)%nat, ρ !! (length ρ - 1 - 1)%nat with
  | Some x, Some y =>
      fits room (base + length ρ + 1) tt ;;
      more ← binary (if incl then TOK_LE else TOK_LT) x.2 y.2;
      if nanbox_is_truthy more then
        r ← exec_block n depth base ρ ss;
        match r.1 with
        | Go => match r.2 !! (length ρ - 1)%nat with
                | Some x => w ← binary TOK_PLUS x.2 (nanbox_int 1); exec_range n depth base incl ss (assign r.2 (length ρ - 1) w)
                | None => Unknown
                end
        | Break => Done (Go, take (length ρ) r.2)
        | Continue => Unknown
        | Returned w => Done r
        end
      else Done (Go, ρ)
  | _, _ => Unknown
  end.
Proof. done. Qed.

Lemma sim_range n : (forall k, (k < n)%nat -> sim_block k) -> forall (ρ : env) vm, ρ.*1 = Γ -> machine vm (below ++ words ρ) (frame_at F p2 :: fs) ->
  leads vm (exec_range n depth (length below) incl ss ρ) (after None Γ F fs below (behind F fs below (p3 + 15) Γ)).
Proof.
  induction n as [|n IH]; intros IHb ρ vm Hn H; [done|]. rewrite exec_range_step. pose proof (if_runs _ _ _ _ _ HF) as HK.
  assert (Hlen : length ρ = S (S m)) by (by rewrite <- (length_fmap fst ρ), Hn). rewrite Hlen.
  change (S (S m) - 1)%nat with (S m - 0)%nat. rewrite Nat.sub_0_r. change (S m - 1)%nat with (m - 0)%nat. rewrite Nat.sub_0_r.
  destruct (ρ !! S m) as [x|] eqn:Ex; [|done]. destruct (ρ !! m) as [y|] eqn:Ey; [|done]. unfold fits.
  destruct (Nat.ltb_spec (length below + S (S m) + 1) room) as [Hr|]; [|done]. rewrite <- Hlen in Hr.
  eapply leads_bind; [by apply leads_done with (Q := fun _ vm' => machine vm' (below ++ words ρ) (frame_at F p2 :: fs))|].
  intros [] vm0 H0. eapply leads_bind; [by apply range_test|]. intros w vm1 H1. cbv beta in H1.
  pose proof (op_at_lt _ _ _ Hdrop) as Hlt. eapply leads_moves; [eapply (moves_unless F fs K HK); [exact H1|exact Hexit|lia]|].
  intros vm2 H2. destruct (nanbox_is_truthy w).
  2:{ eapply leads_moves; [by eapply (moves_pop F fs K HK)|]. intros vm3 H3. replace (p3 + 14 + 1)%nat with (p3 + 15)%nat in H3 by lia.
      by apply leads_done. }
  replace (p2 + 7 + 3)%nat with (p2 + 10)%nat in H2 by lia. eapply leads_moves; [by eapply (moves_pop F fs K HK)|]. intros vm3 H3.
  replace (p2 + 10 + 1)%nat with (p2 + 11)%nat in H3 by lia. rewrite <- Hn in Hbody. eapply leads_bind.
  { eapply (IHb n ltac:(lia) depth _ ρ); [done|exact Hbody| |done]. intros t [= <-]. simpl. rewrite length_fmap. lia. }
  intros [sg ρ2] vm4 H4. destruct sg; cbn [fst snd] in *.
  - destruct H4 as [Hn2 H4]. cbn [fst snd] in Hn2, H4. destruct (ρ2 !! S m) as [z|] eqn:Ez; [|done].
    eapply leads_bind; [apply range_increment; [by rewrite (names_length _ _ Hn2)|done|done]|]. intros u vm5 H5.
    apply IH; [intros; apply IHb; lia| |done]. by rewrite names_assign, Hn2.
  - destruct H4 as (t & [= <-] & Hn2 & H4). cbn [fst snd t_vars t_end] in *. rewrite length_fmap, Hlen in *. apply leads_done. split; [|done].
    etrans; [exact Hn2|]. rewrite Hn. apply take_ge. lia.
  - done.
  - by apply leads_done.
Qed.
End range.

(** *** Statements *)

Lemma words_snoc (ρ : env) x : words (ρ ++ [x]) = words ρ ++ [x.2].
Proof. unfold words. by rewrite fmap_app. Qed.
Lemma names_snoc (ρ : env) x : (ρ ++ [x]).*1 = ρ.*1 ++ [x.1].
Proof. by rewrite fmap_app. Qed.

Section statements.
Context (depth : nat) (L : option target) (K : image) (F : CallFrame) (fs : list CallFrame) (below : list NanValue).
Context (HF : in_frame F fs K depth below).
Notation exec_at n ρ s := (exec n depth (length below) ρ s).
Notation finishes ρ pc' Γ' := (after L ρ.*1 F fs below (behind F fs below pc' Γ')).

Lemma sim_expr_stmt n l e ρ pc p1 vm : sim_eval n -> code_expr K ρ.*1 pc e p1 -> op_at K p1 OP_POP ->
  machine vm (below ++ words ρ) (frame_at F pc :: fs) -> leads vm (exec_at (S n) ρ (NODE_EXPR_STMT l e)) (finishes ρ (p1 + 1)%nat ρ.*1).
Proof.
  intros IH Hc Hp H. change (leads vm (a ← eval n depth (length below) 0 ρ e; Done (Go, a.2)) (finishes ρ (p1 + 1)%nat ρ.*1)).
  eapply leads_bind; [by eapply sim_eval_stmt|]. intros [a ρ1] vm1 [Hn1 H1]. cbn [fst snd] in *. rewrite app_assoc in H1.
  eapply leads_moves; [by eapply moves_pop; [apply HF|..]|]. intros vm2 H2. by apply leads_done.
Qed.

Lemma sim_declare n e name ρ pc p1 vm : sim_eval n -> code_expr K ρ.*1 pc e p1 -> machine vm (below ++ words ρ) (frame_at F pc :: fs) ->
  leads vm (a ← eval n depth (length below) 0 ρ e; Done (Go, a.2 ++ [(name, a.1)])) (finishes ρ p1 (ρ.*1 ++ [name])).
Proof.
  intros IH Hc H. eapply leads_bind; [by eapply sim_eval_stmt|]. intros [a ρ1] vm1 [Hn1 H1]. cbn [fst snd] in *. apply leads_done.
  split; cbn [fst snd]; [by rewrite names_snoc, Hn1|by rewrite words_snoc].
Qed.

Lemma sim_if_stmt n l c x y ρ pc p1 vm : sim_if n -> code_if K L ρ.*1 pc (NODE_IF l c x y) p1 -> op_at K p1 OP_POP -> loop_ok K L ρ ->
  machine vm (below ++ words ρ) (frame_at F pc :: fs) -> leads vm (exec_at n ρ (NODE_IF l c x y)) (finishes ρ (p1 + 1)%nat ρ.*1).
Proof.
  intros IH Hc Hp HL H. rewrite (signal_id (exec_at _ _ _)). pose proof (op_at_lt _ _ _ Hp) as Hlt.
  eapply (leads_signal vm L _ F fs below _ (fun ρ1 => Done (Go, ρ1))); [eapply IH; [done|exact Hc|done|lia|done]|].
  intros ρ1 vm1 (Hn1 & w & H1). rewrite app_assoc in H1.
  eapply leads_moves; [by eapply moves_pop; [apply HF|..]|]. intros vm2 H2. by apply leads_done.
Qed.

Lemma sim_return n l ρ pc vm : op_at K pc OP_NIL -> op_at K (pc + 1) OP_RETURN -> machine vm (below ++ words ρ) (frame_at F pc :: fs) ->
  leads vm (exec_at (S n) ρ (NODE_RETURN l None)) (finishes ρ (pc + 2)%nat ρ.*1).
Proof.
  intros Hop Hret H. pose proof (if_runs _ _ _ _ _ HF) as HK.
  change (leads vm (w ← fits room (length below + length ρ) NANBOX_NIL; Done (Returned w, ρ)) (finishes ρ (pc + 2)%nat ρ.*1)).
  rewrite <- (height below ρ).
  eapply leads_bind; [eapply (leads_push F fs K HK) with (Q := pushes F fs (below ++ words ρ) (pc + 1)); [exact H|exact Hop|done|reflexivity|done]|].
  intros w vm1 H1. unfold pushes in H1. rewrite <- app_assoc in H1.
  eapply leads_moves; [eapply (moves_return F fs K HK); [apply HF|done|done|done|apply HF]|]. intros vm2 H2. by apply leads_done.
Qed.

Lemma sim_return_value n l e ρ pc p1 vm : sim_eval n -> code_expr K ρ.*1 pc e p1 -> op_at K p1 OP_RETURN ->
  machine vm (below ++ words ρ) (frame_at F pc :: fs) ->
  leads vm (exec_at (S n) ρ (NODE_RETURN l (Some e))) (finishes ρ (p1 + 1)%nat ρ.*1).
Proof.
  intros IH Hc Hret H. pose proof (if_runs _ _ _ _ _ HF) as HK.
  change (leads vm (a ← eval n depth (length below) 0 ρ e; Done (Returned a.1, a.2)) (finishes ρ (p1 + 1)%nat ρ.*1)).
  eapply leads_bind; [by eapply sim_eval_stmt|]. intros [a ρ1] vm1 [Hn1 H1]. cbn [fst snd] in *.
  eapply leads_moves; [eapply (moves_return F fs K HK); [apply HF|done|done|done|apply HF]|]. intros vm2 H2. by apply leads_done.
Qed.

(** [break] and [continue] drop the variables of the loop's body. *)
Lemma moves_unwind ρ t n vm pc : length ρ.*1 = (t + n)%nat -> pops_at K pc n -> machine vm (below ++ words ρ) (frame_at F pc :: fs) ->
  moves vm (below ++ words (take t ρ)) (frame_at F (pc + n) :: fs).
Proof.
  intros Hl Hp H. rewrite length_fmap in Hl. destruct (env_split ρ t n Hl) as (xs & Ews & Hxs). rewrite Ews, app_assoc in H.
  by eapply (moves_pops F fs K (if_runs _ _ _ _ _ HF) n).
Qed.

Lemma sim_break n l t k ρ pc vm : L = Some t -> loop_ok K L ρ -> length ρ.*1 = (t_vars t + k)%nat -> pops_at K pc k ->
  jump_at K (pc + k) OP_JUMP (t_end t) -> machine vm (below ++ words ρ) (frame_at F pc :: fs) ->
  leads vm (exec_at (S n) ρ (NODE_BREAK l)) (finishes ρ (pc + k + 3)%nat ρ.*1).
Proof.
  intros HLt HL Hl Hp Hj H. pose proof (if_runs _ _ _ _ _ HF) as HK. destruct (HL t HLt) as [_ Hin].
  eapply leads_moves; [by eapply moves_unwind|]. intros vm1 H1. eapply leads_moves; [by eapply (moves_jump F fs K HK)|]. intros vm2 H2.
  change (leads vm2 (Done (Break, ρ)) (finishes ρ (pc + k + 3)%nat ρ.*1)). apply leads_done. exists t. split; [done|]. split; [|done].
  by apply names_take.
Qed.
Lemma sim_continue n l t k ρ pc vm : L = Some t -> length ρ.*1 = (t_vars t + k)%nat -> pops_at K pc k ->
  loop_at K (pc + k) (t_start t) -> machine vm (below ++ words ρ) (frame_at F pc :: fs) ->
  leads vm (exec_at (S n) ρ (NODE_CONTINUE l)) (finishes ρ (pc + k + 3)%nat ρ.*1).
Proof.
  intros HLt Hl Hp Hj H. pose proof (if_runs _ _ _ _ _ HF) as HK.
  eapply leads_moves; [by eapply moves_unwind|]. intros vm1 H1. eapply leads_moves; [by eapply (moves_loop F fs K HK)|]. intros vm2 H2.
  change (leads vm2 (Done (Continue, ρ)) (finishes ρ (pc + k + 3)%nat ρ.*1)). apply leads_done. exists t. split; [done|]. split; [|done].
  by apply names_take.
Qed.
End statements.

Lemma sim_for n l x ix l' first last incl l'' ss depth L ρ K F fs below pc pc' Γ' vm :
  (forall k, (k <= n)%nat -> sim_eval k) -> (forall k, (k < n)%nat -> sim_block k) -> in_frame F fs K depth below ->
  code_stmt K L ρ.*1 pc (NODE_FOR l x ix (NODE_RANGE l' first last incl) (NODE_BLOCK l'' ss)) pc' Γ' ->
  machine vm (below ++ words ρ) (frame_at F pc :: fs) ->
  leads vm (exec (S n) depth (length below) ρ (NODE_FOR l x ix (NODE_RANGE l' first last incl) (NODE_BLOCK l'' ss)))
    (after L ρ.*1 F fs below (behind F fs below pc' Γ')).
Proof.
  intros IHe IHb HF Hcode H. inversion Hcode as [| | | | | |? ? ? ? ? ? ? ? ? ? p1 p2 p3 i ? Γ1 m Hlast Hfirst A1 A2 A3 A4 A5 Hb A6 A7 A8 A9 A10 A11 A12 A13 Hp E| | | |]; subst.
  clear Hcode.
  change (leads vm (b ← eval n depth (length below) 0 ρ last; a ← eval n depth (length below) 0 (b.2 ++ [(chars "__end", b.1)]) first;
    r ← exec_range n depth (length below) incl ss (a.2 ++ [(x, a.1)]);
    match r.1 with Returned w => Done r | _ => Done (Go, take (length ρ) r.2) end) (after L ρ.*1 F fs below (behind F fs below (p3 + 17) ρ.*1))).
  eapply leads_bind; [eapply (sim_eval_stmt n); [by apply IHe|done..]|]. intros [b ρ1] vm1 [Hn1 H1]. cbn [fst snd] in *.
  set (ρ2 := ρ1 ++ [(chars "__end", b)]). assert (Hn2 : ρ2.*1 = ρ.*1 ++ [chars "__end"]) by (unfold ρ2; by rewrite names_snoc, Hn1).
  eapply leads_bind.
  { eapply (sim_eval_stmt n depth ρ2); [by apply IHe|done|rewrite Hn2; exact Hfirst|]. unfold ρ2. by rewrite words_snoc. }
  intros [a ρ3] vm2 [Hn3 H2]. cbn [fst snd] in *. set (ρ4 := ρ3 ++ [(x, a)]).
  assert (Hn4 : ρ4.*1 = Γ1) by (unfold ρ4, Γ1; rewrite names_snoc, Hn3, Hn2; by rewrite <- app_assoc).
  assert (HΓ : length Γ1 = S (S (length ρ.*1))) by (unfold Γ1; rewrite length_app; simpl; lia).
  replace (m + 1) with (Z.of_nat (S (length ρ.*1))) in * by (unfold m; lia).
  eapply leads_bind; [eapply (sim_range depth K F fs below HF Γ1 (length ρ.*1) HΓ incl ss p2 p3 i); [done..|exact IHb|exact Hn4|]|].
  { unfold ρ4. by rewrite words_snoc. }
  intros [sg ρ5] vm3 H3. destruct sg; cbn [fst snd] in *; try (by destruct H3 as (? & ? & _)); [|by apply leads_done].
  destruct H3 as [Hn5 H3]. cbn [fst snd] in *. assert (Hl : length ρ5.*1 = (length ρ + 2)%nat) by (rewrite Hn5, HΓ, length_fmap; lia).
  eapply leads_moves; [by eapply (moves_unwind depth K F fs below HF ρ5 (length ρ) 2)|]. intros vm4 H4.
  replace (p3 + 15 + 2)%nat with (p3 + 17)%nat in H4 by lia. apply leads_done. split; [|done]. cbn [fst snd].
  eapply names_restored; [exact Hn5|by eexists].
Qed.

Lemma sim_exec_step n : (forall k, (k <= n)%nat -> sim_eval k) -> (forall k, (k <= n)%nat -> sim_block k) -> sim_exec n -> sim_if (S n) ->
  sim_exec (S n).
Proof.
  intros IHe IHb IH IHi depth L ρ s K F fs below pc pc' Γ' vm HF Hcode HL H. pose proof (IHe n ltac:(lia)) as He.
  pose proof Hcode as Hcopy. destruct Hcode.
  - by eapply sim_expr_stmt.
  - by apply (sim_declare depth L K F fs below HF n e name ρ pc p1 vm).
  - by apply (sim_declare depth L K F fs below HF n e name ρ pc p1 vm).
  - by eapply (IHb n).
  - by eapply sim_if_stmt.
  - eapply sim_while_step; try done. by apply IHb.
  - eapply sim_for; try done. intros k Hk. apply IHb. lia.
  - by eapply sim_return.
  - by eapply sim_return_value.
  - by eapply sim_break.
  - by eapply sim_continue.
Qed.

(** ** Calls *)

Lemma ensure_frames_room vm ws fs : machine vm ws fs -> (length fs < 1024)%nat -> exists vm1,
  (if frames_capacity vm <=? Z.of_nat (length (frames vm)) then vm_ensure_frames true vm else (true, vm)) = (true, vm1) /\
  machine vm1 ws fs /\ Z.of_nat (length fs) < frames_capacity vm1.
Proof.
  intros H Hd. pose proof (m_capacity _ _ _ H) as [Hc1 Hc2]. unfold vm_ensure_frames. rewrite (m_frames _ _ _ H).
  destruct (Z.leb_spec (frames_capacity vm) (Z.of_nat (length fs))); [|by exists vm].
  destruct (Z.ltb_spec (Z.of_nat (length fs)) (frames_capacity vm)); [by exists vm|].
  destruct (Z.eqb_spec (frames_capacity vm) 0); [lia|]. unfold VM_FRAMES_MAX. eexists. split; [done|].
  destruct (Z.ltb_spec (256 * 4) (frames_capacity vm * 2)); (split; [|simpl; lia]); destruct H; split; try done; simpl; lia.
Qed.

(** The callee's frame is on top when the instruction is done. *)
Definition entered (fs : list CallFrame) (ws : list NanValue) (fn : Function_) (base : nat) (vm' : VM) : Prop :=
  machine vm' ws (mkFrame (Some (Z.to_nat (fn_code_offset fn))) 0 (sb + Z.of_nat base) (Some fn) :: fs).

Lemma push_frame_next vm ws fs f : machine vm ws fs -> (Z.of_nat (length fs) < frames_capacity vm) ->
  exists vm', push_frame f vm st = Next tt vm' st /\ machine vm' ws (f :: fs).
Proof.
  intros H Hl. unfold push_frame. rewrite get_bind. rewrite (m_frames _ _ _ H). destruct (Z.ltb_spec (Z.of_nat (length fs)) (frames_capacity vm)); [|lia].
  eexists. split; [done|]. destruct H. split; try done. simpl. lia.
Qed.

Lemma callee_peek (ws : list NanValue) f args : (ws ++ f :: args) !! (length (ws ++ f :: args) - 1 - length args)%nat = Some f.
Proof. rewrite length_app. simpl. rewrite lookup_app_r by lia. by replace (_ - _)%nat with 0%nat by lia. Qed.

Lemma sim_enter vm ws f args F fs K pc : runs F K -> arg_at K pc OP_CALL (Z.of_nat (length args)) ->
  machine vm (ws ++ f :: args) (frame_at F pc :: fs) ->
  leads vm (fn ← read_callee f;
            match fn with
            | None => Failed VM_ERROR_TYPE "can only call functions"
            | Some fn =>
                if negb (Z.of_nat (length args) =? fn_arity fn) then Failed VM_ERROR_ARITY "wrong number of arguments"
                else if (1024 <=? S (length fs))%nat then Unknown
                else match functions bc !! Z.to_nat (fn_code_offset fn) with Some _ => Done fn | None => Undefined end
            end)
    (fun fn => entered (frame_at F (pc + 3) :: fs) (ws ++ f :: args) fn (length ws)).
Proof.
  intros HK Ha H. pose proof HK as (ch & Hch & _). eapply leads_arg; [exact H|exact HK|exact Ha|done|reflexivity|]. intros vm1 H1. cbv beta.
  rewrite (bind_next _ _ _ _ _ (peek_word _ _ _ (length args) f H1 ltac:(rewrite length_app; simpl; lia) (callee_peek ws f args))).
  unfold read_callee. destruct (callee_function f st) as [[fn st1]|] eqn:Ec; [|unfold mbind, V_bind, lift; by rewrite Ec].
  pose proof (reads_callee _ _ _ _ Ec) as ->. assert (El : lift (callee_function f) vm1 st = Next fn vm1 st) by (unfold lift; by rewrite Ec).
  rewrite (bind_next _ _ _ _ _ El). cbn [mbind answer_bind]. destruct fn as [fn|]; [|by eapply fail_error].
  destruct (Z.eqb_spec (Z.of_nat (length args)) (fn_arity fn)); cbn [negb]; [|by eapply fail_error].
  destruct (Nat.leb_spec 1024 (S (length fs))) as [|Hd]; [done|]. rewrite get_bind.
  destruct (ensure_frames_room vm1 _ _ H1 ltac:(simpl; lia)) as (vm2 & E2 & H2 & Hc2). rewrite E2, put_bind. cbn [negb]. rewrite (m_bytecode _ _ _ H2).
  unfold or_fault at 1. change (mbind (M := V) ?k (mret bc)) with (k bc). unfold mbind at 1, V_bind at 1, or_fault at 1, mret at 1, V_ret at 1.
  destruct (functions bc !! Z.to_nat (fn_code_offset fn)) eqn:Ef; cbn [meets]; [|by unfold mbind, V_bind].
  unfold mbind at 1, V_bind at 1. cbn. rewrite (m_top _ _ _ H2), length_app. cbn [length].
  replace (sb + Z.of_nat (length ws + S (length args)) - Z.of_nat (length args) - 1) with (sb + Z.of_nat (length ws)) by lia.
  by eapply push_frame_next.
Qed.

Lemma call_step n depth base f args : call (S n) depth base f args =
  (fn ← read_callee f;
   match fn with
   | None => Failed VM_ERROR_TYPE "can only call functions"
   | Some fn =>
       if negb (Z.of_nat (length args) =? fn_arity fn) then Failed VM_ERROR_ARITY "wrong number of arguments"
       else if (1024 <=? depth)%nat then Unknown
       else match program (Z.to_nat (fn_code_offset fn)) with
            | None => Unknown
            | Some d =>
                if negb (length (fd_params d) =? length args)%nat then Unknown else
                r ← exec_list n (S depth) base (([], f) :: zip (fd_params d) args) (fd_body d);
                match r.1 with Returned w => Done w | Go => fits room (base + length r.2) NANBOX_NIL | _ => Unknown end
            end
   end).
Proof. done. Qed.

Lemma words_params f (params : list (list Z)) (args : list NanValue) : length params = length args ->
  words (([], f) :: zip params args) = f :: args.
Proof. intros H. unfold words. simpl. f_equal. apply snd_zip. lia. Qed.
Lemma names_params f (params : list (list Z)) (args : list NanValue) : length params = length args ->
  (([], f) :: zip params args : env).*1 = [] :: params.
Proof. intros H. simpl. f_equal. apply fst_zip. lia. Qed.

(** The body of a function, from the start of its chunk. *)
Lemma sim_body n K d depth F fs below f args vm : sim_list n -> in_frame F fs K depth below -> code_function K d ->
  length (fd_params d) = length args -> machine vm (below ++ f :: args) (frame_at F 0 :: fs) ->
  leads vm (r ← exec_list n depth (length below) (([], f) :: zip (fd_params d) args) (fd_body d);
            match r.1 with Returned w => Done w | Go => fits room (length below + length r.2) NANBOX_NIL | _ => Unknown end)
    (fun w vm' => machine vm' (below ++ [w]) fs).
Proof.
  intros IH HF (pc & Γ & Hb & Hnil & Hret) Hp H. pose proof (if_runs _ _ _ _ _ HF) as HK. eapply leads_bind.
  { eapply (IH depth None); [done|rewrite names_params by done; exact Hb|done|by rewrite words_params]. }
  intros [sg ρ1] vm1 H1. destruct sg; cbn [fst snd] in *; [|done|done|by apply leads_done]. destruct H1 as [Hn1 H1]. cbn [fst snd] in *.
  rewrite <- (height below ρ1), <- (answer_bind_ret (fits _ _ _)).
  eapply leads_bind; [eapply (leads_push F fs K HK) with (Q := pushes F fs (below ++ words ρ1) (pc + 1)); [exact H1|exact Hnil|done|reflexivity|done]|].
  intros w vm2 H2. unfold pushes in H2. rewrite <- app_assoc in H2.
  eapply leads_moves; [eapply (moves_return F fs K HK); [apply HF|done|done|done|apply HF]|]. intros vm3 H3. by apply leads_done.
Qed.

Context (Himpl : implements).

Lemma sim_call_step n : sim_list n -> sim_call (S n).
Proof.
  intros IH depth f args K F fs ws pc vm HK -> Ha H. rewrite call_step. pose proof (sim_enter vm ws f args F fs K pc HK Ha H) as He.
  destruct (read_callee f) as [| | |fn]; [done|done|done|]. cbn [mbind answer_bind] in *. destruct fn as [fn|]; [|done].
  destruct (negb _); [done|]. destruct (1024 <=? S (length fs))%nat; [done|].
  destruct (program (Z.to_nat (fn_code_offset fn))) as [d|] eqn:Ed; [|done].
  destruct (Nat.eqb_spec (length (fd_params d)) (length args)) as [El|]; [|done]. cbn [negb].
  destruct (Himpl _ _ Ed) as (K' & HK' & Hcode).
  set (F' := mkFrame (Some (Z.to_nat (fn_code_offset fn))) 0 (sb + Z.of_nat (length ws)) (Some fn)).
  destruct (HK' F' eq_refl) as (ch & Hch & _). unfold chunk_in in Hch. simpl in Hch. rewrite Hch in He.
  destruct He as (vm1 & Hr & H1). eapply leads_reaches; [exact Hr|].
  apply (sim_body n K' d _ F' (frame_at F (pc + 3) :: fs) ws f args); [done| |done..]. by split; [split; [apply HK'|..]|].
Qed.

Lemma sims n : sim_eval n /\ sim_args n /\ sim_call n /\ (sim_exec n /\ sim_list n /\ sim_value n) /\ sim_block n /\ sim_branch n /\ sim_if n.
Proof.
  induction n as [n IH] using lt_wf_ind. destruct n as [|n]; [by repeat split|].
  assert (He : forall k, (k <= n)%nat -> sim_eval k) by (intros; apply IH; lia).
  assert (Hb : forall k, (k <= n)%nat -> sim_block k) by (intros; apply IH; lia).
  destruct (IH n ltac:(lia)) as (H1 & H2 & H3 & (H4 & H5 & H6) & H7 & H8 & H9).
  assert (Hi : sim_if (S n)) by (by apply sim_if_step).
  split_and!; [by apply sim_eval_step|by apply sim_args_step|by apply sim_call_step|by apply sim_exec_step|by apply sim_list_step|
    by apply sim_value_step|by apply sim_block_step|by apply sim_branch_step|done].
Qed.

(** A call of a function, whatever it is called from. *)
Lemma call_simulated n depth f args K F fs ws pc vm : runs F K -> depth = S (length fs) -> arg_at K pc OP_CALL (Z.of_nat (length args)) ->
  machine vm (ws ++ f :: args) (frame_at F pc :: fs) ->
  leads vm (call n depth (length ws) f args) (fun w vm' => machine vm' (ws ++ [w]) (frame_at F (pc + 3) :: fs)).
Proof. apply (sims n). Qed.
(** An expression, in any frame. *)
Lemma eval_simulated n : sim_eval n.
Proof. apply (sims n). Qed.
End simulation.
