(* ===== verification/Programs.v ===== *)
(** * Compiled programs

    Compiling a declaration only adds to the code: the functions compiled before
    it stay as they are.  So each function of a program that lies in the fragment
    of [Codegen] is laid out as there, and with [Simulation] a call of it does what
    the reference semantics says. *)

From Stdlib Require Import ZArith Lia String.
From stdpp Require Import base numbers list gmap.
From S2P Require Import Prelude Float64 Hash HashMap Nanbox Value Array MapValue Strings Block Bytecode Lexer Ast Modules Semantics VM Compiler Codegen Simulation.
Local Open Scope Z_scope.
Local Open Scope agim_scope.

(** ** What compiling leaves alone *)

Record elsewhere (c c' : Compiler) : Prop := {
  el_chunk : fc_chunk (c_current c') = fc_chunk (c_current c);
  el_functions : forall j, fc_chunk (c_current c) <> Some j -> functions (c_code c') !! j = functions (c_code c) !! j;
  el_length : length (functions (c_code c')) = length (functions (c_code c));
  el_strings : strings (c_code c) `prefix_of` strings (c_code c');
  el_error : had_error c = true -> had_error c' = true
}.
Definition framed {A} (m : C A) : Prop := forall c, elsewhere c (m c).2.
Create HintDb compiler_framed.

Lemma elsewhere_refl c : elsewhere c c.
Proof. by split. Qed.
Lemma elsewhere_trans c1 c2 c3 : elsewhere c1 c2 -> elsewhere c2 c3 -> elsewhere c1 c3.
Proof.
  intros [] []. split; try congruence; [|by etrans|auto]. intros j Hj. rewrite el_functions1 by congruence. auto.
Qed.

Lemma framed_ret {A} (x : A) : framed (mret x).
Proof. intros c. apply elsewhere_refl. Qed.
Lemma framed_gets {A} (f : Compiler -> A) : framed (gets f).
Proof. intros c. apply elsewhere_refl. Qed.
Lemma framed_bind {A B} (m : C A) (k : A -> C B) : framed m -> (forall x, framed (k x)) -> framed (m ≫= k).
Proof.
  intros Hm Hk c. unfold mbind, C_bind. specialize (Hm c). destruct (m c) as [x c1]. eapply elsewhere_trans; [exact Hm|]. apply Hk.
Qed.
Lemma framed_modify f : (forall fc, fc_chunk (f fc) = fc_chunk fc) -> framed (modify_current f).
Proof. intros H c. by split; simpl. Qed.
Lemma framed_chunk {A} (f : Chunk constant -> A * Chunk constant) : framed (on_chunk f).
Proof.
  intros c. unfold on_chunk. destruct (f (current_chunk c)) as [x ch]. unfold set_chunk. simpl.
  destruct (fc_chunk (c_current c)) as [i|] eqn:E; split; simpl; try done; try congruence.
  - intros j Hj. apply list_lookup_insert_ne. congruence.
  - apply length_insert.
Qed.
Lemma framed_report l msg : framed (report l msg).
Proof. intros c. unfold report. simpl. by destruct (had_error c) eqn:E; split. Qed.
Lemma framed_add_string s : framed (add_string s).
Proof.
  intros c. unfold add_string, bytecode_add_string. destruct (list_find _ _) as [[]|]; split; simpl; try done. by eexists.
Qed.
Lemma framed_unless m : framed m -> framed (unless_error m).
Proof. intros H c. unfold unless_error. destruct (had_error c); [apply elsewhere_refl|apply H]. Qed.
#[export] Hint Resolve framed_ret framed_gets framed_chunk framed_report framed_add_string framed_unless : compiler_framed.
#[export] Hint Extern 1 (framed (modify_current _)) => (apply framed_modify; done) : compiler_framed.
#[export] Hint Extern 1 (framed (emit_op _ _)) => apply framed_chunk : compiler_framed.
#[export] Hint Extern 1 (framed (emit_byte _ _)) => apply framed_chunk : compiler_framed.
#[export] Hint Extern 1 (framed (patch_jump _)) => apply framed_chunk : compiler_framed.
#[export] Hint Extern 1 (framed (compile_error _ _)) => apply framed_report : compiler_framed.
#[export] Hint Extern 1 (framed begin_scope) => (apply framed_modify; done) : compiler_framed.
#[export] Hint Extern 1 (framed here) => apply framed_gets : compiler_framed.
#[export] Hint Extern 1 (framed (local_slot _)) => apply framed_gets : compiler_framed.

Ltac framed_auto := repeat first
  [ solve [auto with compiler_framed]
  | apply framed_bind; [|intros ?]
  | case_match ].

Lemma framed_emit_short n l : framed (emit_short n l).
Proof. unfold emit_short. framed_auto. Qed.
Lemma framed_emit_jump op l : framed (emit_jump op l).
Proof. unfold emit_jump. framed_auto. Qed.
#[export] Hint Resolve framed_emit_short framed_emit_jump : compiler_framed.
Lemma framed_emit_loop n l : framed (emit_loop n l).
Proof. unfold emit_loop. framed_auto. Qed.
Lemma framed_emit_constant v l : framed (emit_constant v l).
Proof. unfold emit_constant. framed_auto. Qed.
Lemma framed_repeat_emit n op l : framed (repeat_emit n op l).
Proof. induction n; simpl; framed_auto. Qed.
Lemma framed_patch_all os : framed (patch_all os).
Proof. induction os; simpl; framed_auto. Qed.
Lemma framed_emit_ops ops l : framed (emit_ops ops l).
Proof. unfold emit_ops. induction ops; simpl; framed_auto. Qed.
Lemma framed_emit_names names l : framed (emit_names names l).
Proof. induction names; simpl; framed_auto. Qed.
#[export] Hint Resolve framed_emit_loop framed_emit_constant framed_repeat_emit framed_patch_all framed_emit_ops framed_emit_names
  : compiler_framed.
Lemma framed_end_scope l : framed (end_scope l).
Proof. unfold end_scope. framed_auto. Qed.
Lemma framed_add_local name const l : framed (add_local name const l).
Proof. unfold add_local. framed_auto. Qed.
Lemma framed_begin_loop n : framed (begin_loop n).
Proof. unfold begin_loop. framed_auto. Qed.
Lemma framed_end_loop : framed end_loop.
Proof. unfold end_loop. framed_auto. Qed.
Lemma framed_emit_break l : framed (emit_break l).
Proof. unfold emit_break. framed_auto. Qed.
Lemma framed_emit_continue l : framed (emit_continue l).
Proof. unfold emit_continue. framed_auto. Qed.
Lemma framed_emit_variable a b n l : framed (emit_variable a b n l).
Proof. unfold emit_variable. framed_auto. Qed.
Lemma framed_emit_increment s l : framed (emit_increment s l).
Proof. unfold emit_increment, emit_get_local, emit_set_local. framed_auto. Qed.
#[export] Hint Resolve framed_end_scope framed_add_local framed_begin_loop framed_end_loop framed_emit_break framed_emit_continue
  framed_emit_variable framed_emit_increment : compiler_framed.

(** *** All nodes, by their size *)

Fixpoint ast_size (e : AstNode) : nat :=
  let sizes es := foldr (fun e n => ast_size e + n)%nat 0%nat es in
  let opt o := match o with Some e => ast_size e | None => 0%nat end in
  S match e with
    | NODE_BLOCK _ es | NODE_ARRAY _ es | NODE_MAP _ _ es | NODE_STRUCT_INIT _ _ _ es _ => sizes es
    | NODE_LET _ _ _ e _ | NODE_CONST _ _ _ e _ | NODE_EXPR_STMT _ e | NODE_UNARY _ _ e | NODE_MEMBER _ e _
    | NODE_RESULT_OK _ e | NODE_RESULT_ERR _ e | NODE_TRY _ e | NODE_SOME _ e | NODE_MATCH_ARM _ _ _ _ e => ast_size e
    | NODE_FOR _ _ _ a b | NODE_WHILE _ a b | NODE_BINARY _ _ a b | NODE_INDEX _ a b | NODE_ASSIGN _ a _ b | NODE_RANGE _ a b _ =>
        ast_size a + ast_size b
    | NODE_IF _ c x y => ast_size c + ast_size x + opt y
    | NODE_TERNARY _ c x y => ast_size c + ast_size x + ast_size y
    | NODE_RETURN _ o | NODE_ENUM_EXPR _ _ _ o => opt o
    | NODE_CALL _ f es | NODE_MATCH _ f es => ast_size f + sizes es
    | _ => 0
    end%nat.
Notation ast_sizes es := (foldr (fun e n => ast_size e + n)%nat 0%nat es).

Section nodes.
(** The functions that compile the children are framed on nodes smaller than [n]. *)
Context (n : nat) (compile_expr compile_stmt compile_if compile_block_expr : AstNode -> C unit).
Context (He : forall x, (ast_size x < n)%nat -> framed (compile_expr x)) (Hs : forall x, (ast_size x < n)%nat -> framed (compile_stmt x)).
Context (Hi : forall x, (ast_size x < n)%nat -> framed (compile_if x)) (Hb : forall x, (ast_size x < n)%nat -> framed (compile_block_expr x)).

Ltac node_auto := simpl in *; repeat first
  [ solve [auto with compiler_framed]
  | solve [first [apply He | apply Hs | apply Hi | apply Hb]; simpl in *; lia]
  | apply framed_bind; [|intros ?]
  | case_match; simplify_eq/= ].

Lemma framed_all es : (ast_sizes es < n)%nat -> framed (compile_all compile_expr es).
Proof. induction es as [|e es IH]; simpl; intros H; [apply framed_ret|]. apply framed_bind; [apply He; lia|intros _; apply IH; lia]. Qed.
Lemma framed_each es : (ast_sizes es < n)%nat -> framed (compile_each compile_stmt es).
Proof. induction es as [|e es IH]; simpl; intros H; [apply framed_ret|]. apply framed_bind; [apply Hs; lia|intros _; apply IH; lia]. Qed.
Lemma framed_keeping_last l es : (ast_sizes es < n)%nat -> framed (compile_keeping_last compile_expr compile_stmt l es).
Proof.
  induction es as [|e es IH]; intros H; [node_auto|]. simpl in H.
  assert (framed (compile_stmt e ;; compile_keeping_last compile_expr compile_stmt l es)) by
    (apply framed_bind; [apply Hs; lia|intros _; apply IH; lia]).
  destruct es as [|e' es]; [|done]. destruct e; try done. apply He. simpl in H. lia.
Qed.

Lemma framed_binary l op x y : (ast_size x + ast_size y < n)%nat -> framed (compile_binary compile_expr l op x y).
Proof. intros H. unfold compile_binary. node_auto. Qed.
Lemma framed_unary l op x : (ast_size x < n)%nat -> framed (compile_unary compile_expr l op x).
Proof. intros H. unfold compile_unary. node_auto. Qed.

Lemma framed_builtin b l args : (ast_sizes args < n)%nat -> framed (compile_builtin compile_expr b l args).
Proof. intros H. pose proof (framed_all args H). unfold compile_builtin. node_auto. Qed.
Lemma framed_store_back e l : framed (store_back e l).
Proof. unfold store_back. framed_auto. Qed.
Lemma framed_push l args : (ast_sizes args < n)%nat -> framed (compile_push compile_expr l args).
Proof. intros H. pose proof framed_store_back. unfold compile_push. node_auto. Qed.
Lemma framed_pop l args : (ast_sizes args < n)%nat -> framed (compile_pop compile_expr l args).
Proof. intros H. pose proof framed_store_back. unfold compile_pop. node_auto. Qed.
Lemma framed_get_stats l args : (ast_sizes args < n)%nat -> framed (compile_get_stats compile_expr l args).
Proof. intros H. unfold compile_get_stats. node_auto. Qed.
Lemma framed_ws_recv l args : (ast_sizes args < n)%nat -> framed (compile_ws_recv compile_expr l args).
Proof. intros H. unfold compile_ws_recv. node_auto. Qed.
Lemma framed_regular_call l f args : (ast_size f + ast_sizes args < n)%nat -> framed (compile_regular_call compile_expr l f args).
Proof. intros H. pose proof (framed_all args ltac:(lia)). unfold compile_regular_call. node_auto. Qed.
Lemma framed_call l f args : (ast_size f + ast_sizes args < n)%nat -> framed (compile_call compile_expr l f args).
Proof.
  intros H. unfold compile_call.
  repeat (case_match || apply framed_regular_call || apply framed_push || apply framed_pop || apply framed_get_stats ||
          apply framed_ws_recv || apply framed_builtin || apply framed_report); simplify_eq/=; lia.
Qed.

Lemma framed_element get l op v : (ast_size v < n)%nat -> framed (compile_element_value compile_expr get l op v).
Proof. intros H. unfold compile_element_value. node_auto. Qed.
Lemma framed_assign l x op v : (ast_size x + ast_size v < n)%nat -> framed (compile_assign compile_expr l x op v).
Proof. intros H. pose proof (fun g => framed_element g l op v ltac:(lia)). unfold compile_assign. node_auto. Qed.
Lemma framed_array l es : (ast_sizes es < n)%nat -> framed (compile_array compile_expr l es).
Proof.
  intros H. unfold compile_array. apply framed_bind; [node_auto|intros _]. induction es as [|e es IH]; [node_auto|]. simpl in *.
  apply framed_bind; [apply He; lia|intros _]. apply framed_bind; [node_auto|intros _]. apply IH. lia.
Qed.
Lemma framed_map l keys vs : (ast_sizes vs < n)%nat -> framed (compile_map compile_expr l keys vs).
Proof.
  intros H. unfold compile_map. apply framed_bind; [node_auto|intros _]. revert keys. induction vs as [|v vs IH]; intros [|k keys]; try node_auto.
  apply IH. lia.
Qed.
Lemma framed_struct_init l t names vs : (ast_sizes vs < n)%nat -> framed (compile_struct_init compile_expr l t names vs).
Proof. intros H. pose proof (framed_all vs H). unfold compile_struct_init. node_auto. Qed.
Lemma framed_enum_expr l t v p : (match p with Some e => ast_size e | None => 0 end < n)%nat -> framed (compile_enum_expr compile_expr l t v p).
Proof. intros H. unfold compile_enum_expr. node_auto. Qed.
Lemma framed_try l e : (ast_size e < n)%nat -> framed (compile_try compile_expr l e).
Proof. intros H. unfold compile_try. node_auto. Qed.
Lemma framed_return l v : (match v with Some e => ast_size e | None => 0 end < n)%nat -> framed (compile_return compile_expr l v).
Proof. intros H. unfold compile_return. node_auto. Qed.

(** Arms whose bodies are framed. *)
Definition framed_arm (a : arm) : Prop := forall b, framed (arm_body a b).

Lemma framed_arm_body l body b : (ast_size body < n)%nat -> framed (compile_match_arm_body compile_expr compile_block_expr l body b).
Proof.
  intros H. unfold compile_match_arm_body. case_match; [|node_auto].
  destruct body; try (apply Hb; lia). apply framed_return. simpl in *. lia.
Qed.
Lemma framed_arms arms : (ast_sizes arms < n)%nat -> Forall framed_arm (map (arm_of compile_expr compile_block_expr) arms).
Proof.
  induction arms as [|a arms IH]; intros H; simpl in *; constructor; [|apply IH; lia]. destruct a; simpl in *;
    try (intros b; apply framed_ret). intros b. apply framed_arm_body. lia.
Qed.
Lemma find_arm_framed kind arms a : Forall framed_arm arms -> find_arm kind arms = Some a -> framed_arm a.
Proof.
  unfold find_arm. assert (Hf : forall found : option arm, (forall x, found = Some x -> framed_arm x) -> Forall framed_arm arms ->
    foldl (fun found a => if bool_decide (arm_kind a = kind) then Some a else found) found arms = Some a -> framed_arm a).
  { induction arms as [|b arms IH]; intros found Hfound Ha; simpl; [auto|]. inversion Ha; subst. apply IH; [|done].
    intros x. case_bool_decide; [by intros [= <-]|auto]. }
  intros Ha. by apply Hf.
Qed.
Lemma framed_binding_arm a : framed_arm a -> framed (compile_binding_arm a).
Proof. intros H. unfold compile_binding_arm. specialize (H true). framed_auto. Qed.
Lemma framed_result_match l a b : framed_arm a -> framed_arm b -> framed (compile_result_match l a b).
Proof. intros Ha%framed_binding_arm Hb'%framed_binding_arm. unfold compile_result_match. framed_auto. Qed.
Lemma framed_option_match l a b : framed_arm a -> framed_arm b -> framed (compile_option_match l a b).
Proof. intros Ha%framed_binding_arm Hb'. specialize (Hb' false). unfold compile_option_match. framed_auto. Qed.
Lemma framed_enum_match l arms : Forall framed_arm arms -> framed (compile_enum_match l arms).
Proof.
  intros Ha. unfold compile_enum_match. apply framed_bind; [|intros x; framed_auto].
  induction Ha as [|a arms Ha _ IH]; simpl; [apply framed_ret|]. pose proof (framed_binding_arm a Ha). specialize (Ha false). framed_auto.
Qed.
Lemma framed_compile_arms l arms : Forall framed_arm arms -> framed (compile_arms l arms).
Proof.
  intros Ha. unfold compile_arms. repeat case_match; try apply framed_report;
    [eapply framed_result_match|eapply framed_option_match|by apply framed_enum_match]; by eapply find_arm_framed.
Qed.
Lemma framed_match l e arms : (ast_size e + ast_sizes arms < n)%nat -> framed (compile_match compile_expr compile_block_expr l e arms).
Proof.
  intros H. unfold compile_match. apply framed_bind; [apply He; lia|intros _]. apply framed_compile_arms, framed_arms. lia.
Qed.

Lemma framed_if l c x y : (ast_size c + ast_size x + match y with Some e => ast_size e | None => 0 end < n)%nat ->
  framed (compile_if_node compile_expr compile_if compile_block_expr l c x y).
Proof.
  intros H. assert (Hx : framed (match x with NODE_BLOCK _ _ => compile_block_expr x | _ => compile_expr x end)) by
    (destruct x; first [apply He; lia | apply Hb; lia]).
  unfold compile_if_node. destruct y as [y|].
  - assert (Hy : framed (match y with NODE_BLOCK _ _ => compile_block_expr y | NODE_IF _ _ _ _ => compile_if y | _ => compile_expr y end)) by
      (destruct y; first [apply He; lia | apply Hb; lia | apply Hi; lia]).
    repeat first [solve [auto with compiler_framed] | solve [apply He; lia] | apply framed_bind; [|intros ?]].
  - repeat first [solve [auto with compiler_framed] | solve [apply He; lia] | apply framed_bind; [|intros ?]].
Qed.
Lemma framed_while l c b : (ast_size c + ast_size b < n)%nat -> framed (compile_while compile_expr compile_stmt l c b).
Proof. intros H. unfold compile_while. node_auto. Qed.
Lemma framed_for l x it b : (ast_size it + ast_size b < n)%nat -> framed (compile_for compile_expr compile_stmt l x it b).
Proof.
  intros H. unfold compile_for. destruct it; unfold compile_for_range, compile_for_each, emit_get_local; node_auto.
Qed.
Lemma framed_let l name v const : (ast_size v < n)%nat -> framed (compile_let compile_expr l name v const).
Proof. intros H. unfold compile_let. node_auto. Qed.

Lemma framed_expr_node e : (ast_size e <= n)%nat -> framed (compile_expr_node compile_expr compile_block_expr e).
Proof.
  intros H. destruct e; simpl in *; try apply framed_report; try (unfold compile_literal; framed_auto; fail);
    try (apply framed_bind; [apply He; lia|intros _; framed_auto; fail]).
  all: lazymatch goal with
       | |- framed (compile_binary _ _ _ _ _) => apply framed_binary
       | |- framed (compile_unary _ _ _ _) => apply framed_unary
       | |- framed (compile_call _ _ _ _) => apply framed_call
       | |- framed (compile_assign _ _ _ _ _) => apply framed_assign
       | |- framed (compile_array _ _ _) => apply framed_array
       | |- framed (compile_map _ _ _ _) => apply framed_map
       | |- framed (compile_match _ _ _ _ _) => apply framed_match
       | |- framed (compile_try _ _ _) => apply framed_try
       | |- framed (compile_struct_init _ _ _ _ _) => apply framed_struct_init
       | |- framed (compile_enum_expr _ _ _ _ _) => apply framed_enum_expr
       | _ => unfold compile_member, compile_index, compile_ternary, compile_ident; node_auto
       end; try case_match; lia.
Qed.
Lemma framed_stmt_node s : (ast_size s <= n)%nat ->
  framed (compile_stmt_node compile_expr compile_stmt compile_if compile_block_expr s).
Proof.
  intros H. destruct s; simpl in *; try apply framed_report; try (framed_auto; fail).
  all: lazymatch goal with
       | |- framed (compile_block _ _ ?ss) => unfold compile_block; pose proof (framed_each ss ltac:(lia)); framed_auto
       | |- framed (compile_let _ _ _ _ _) => apply framed_let
       | |- framed (compile_for _ _ _ _ _ _) => apply framed_for
       | |- framed (compile_while _ _ _ _ _) => apply framed_while
       | |- framed (compile_return _ _ _) => apply framed_return
       | _ => apply framed_bind; [first [apply framed_if | apply He]|intros _; framed_auto]
       end; try case_match; lia.
Qed.
End nodes.

Lemma framed_compile_sized n : forall m node, (ast_size node < n)%nat -> framed (compile m node).
Proof.
  induction n as [|n IH]; intros m node H; [lia|]. destruct m.
  - rewrite compile_expr_eq. apply framed_unless, (framed_expr_node n); [auto|auto|lia].
  - rewrite compile_stmt_eq. apply framed_unless, (framed_stmt_node n); auto. lia.
  - destruct node; try apply framed_ret. apply (framed_if n); auto. simpl in H. destruct else_block; lia.
  - destruct node; try apply framed_ret. simpl in H. apply framed_bind; [framed_auto|intros _].
    apply framed_bind; [|intros _; framed_auto]. apply (framed_keeping_last n); [auto|auto|lia].
Qed.
Lemma framed_compile m node : framed (compile m node).
Proof. apply (framed_compile_sized (S (ast_size node))). lia. Qed.
#[export] Hint Resolve framed_compile : compiler_framed.

(** ** Functions of a program *)

Definition param_name (p : AstNode) : option (list Z) := match p with NODE_PARAM _ name _ => Some name | _ => None end.

(** The function a declaration declares. *)
Fixpoint declared_fn (d : AstNode) : option fn_def :=
  match d with
  | NODE_FN_DECL _ _ params _ body _ _ | NODE_TOOL_DECL _ _ params _ body _ _ =>
      Some (mkFnDef (omap param_name params) (block_stmts body))
  | NODE_EXPORT _ d => declared_fn d
  | _ => None
  end.
Fixpoint imports (d : AstNode) : bool :=
  match d with NODE_IMPORT _ _ | NODE_IMPORT_FROM _ _ _ => true | NODE_EXPORT _ d => imports d | _ => false end.

(** The chunk of a function has its code, if the chunk and the names of the
    finished program are small enough for 16-bit offsets and indices. *)
Definition laid (names : list (list Z)) (ch : Chunk constant) (d : fn_def) : Prop := forall strs,
  names `prefix_of` strs -> Z.of_nat (length (code ch)) <= 0xFFFF -> Z.of_nat (length strs) <= 0x10000 -> frag_stmts (fd_body d) ->
  code_function (mkImage (code ch) (constants ch) strs) d.

Lemma laid_prefix names names' ch d : names `prefix_of` names' -> laid names ch d -> laid names' ch d.
Proof. intros Hp H strs Hs. apply H. by etrans. Qed.

(** *** A function's body *)

Definition params_code (names : list (list Z)) : layout := fun K L Γ a b Γ' => Γ' = Γ ++ names /\ b = a.

Lemma mono_add_params ps : mono (add_params ps).
Proof. induction ps as [|[] ps IH]; simpl; mono_auto. Qed.
Lemma spec_add_params ps : spec true true (add_params ps) (params_code (omap param_name ps)).
Proof.
  induction ps as [|p ps IH].
  - apply spec_any. eapply spec_weaken; [apply spec_ret|done..|]. layout_parts. split; [|done]. by rewrite app_nil_r.
  - destruct p; try exact IH. simpl. pose proof (mono_add_params ps).
    eapply spec_weaken; [eapply (spec_seq true true true); [apply spec_add_local|exact IH|mono_auto|done]|done..|].
    intros K L Γ a b Γ' (p & Γ1 & (-> & -> & _) & (-> & ->) & _) _. split; [|done]. by rewrite <- app_assoc.
Qed.

Definition body_code (params : list (list Z)) (ss : list AstNode) : layout := fun K L Γ a b Γ' => exists p Γ1,
  code_stmts K L ((Γ ++ [[]]) ++ params) a ss p Γ1 /\ op_at K p OP_NIL /\ op_at K (p + 1) OP_RETURN.

Lemma spec_fn_body l ps ss : frag_stmts ss ->
  spec true true (add_local [] true l ;; add_params ps ;; each_stmt ss ;; emit_op OP_NIL l ;; emit_op OP_RETURN l)
    (body_code (omap param_name ps) ss).
Proof.
  intros Hss. pose proof (mono_add_params ps). pose proof (proj1 (proj1 (proj2 compile_stmt_layouts) ss Hss)) as Hspec.
  assert (mono (each_stmt ss)) by (clear; induction ss; simpl; mono_auto).
  eapply spec_weaken.
  - eapply (spec_seq true true true); [apply spec_add_local| |mono_auto|done].
    eapply (spec_seq true true true); [apply spec_add_params| |mono_auto|done].
    eapply (spec_seq true true false); [exact Hspec| |mono_auto|done].
    eapply (spec_seq true false false); [apply spec_loosen, spec_op|apply spec_loosen, spec_op|mono_auto|done].
  - done.
  - done.
  - intros K L Γ a b Γ' (p & Γ1 & (-> & -> & _) & (p2 & Γ2 & (-> & ->) & (p3 & Γ3 & H1 & H2 & _) & _) & _) _.
    unfold stmts_code in H1. layout_parts. exists p3, Γ3. split_and!; [exact H1|done|done].
Qed.

(** The body is compiled into a chunk of its own. *)
Lemma framed_fn_body l ps ss :
  framed (begin_scope ;; add_local [] true l ;; add_params ps ;; each_stmt ss ;; emit_op OP_NIL l ;; emit_op OP_RETURN l).
Proof.
  assert (framed (each_stmt ss)) by (induction ss; simpl; framed_auto).
  assert (framed (add_params ps)) by (induction ps as [|[] ps IH]; simpl; framed_auto). framed_auto.
Qed.

Lemma fn_body_laid l ps ss c c' : fc_chunk (c_current c) = Some (length (functions (c_code c)) - 1)%nat ->
  (0 < length (functions (c_code c)))%nat -> current_chunk c = chunk_new ->
  locals (c_current c) = [] -> loops (c_current c) = [] -> scope_depth (c_current c) = 0 ->
  (begin_scope ;; add_local [] true l ;; add_params ps ;; each_stmt ss ;; emit_op OP_NIL l ;; emit_op OP_RETURN l) c = (tt, c') ->
  had_error c' = false -> laid (strings (c_code c')) (current_chunk c') (mkFnDef (omap param_name ps) ss).
Proof.
  intros Hc H0 Hch Hlo Hlp Hd E He strs Hstr Hsz Hn Hfrag. apply bind_inv in E as ([] & c1 & [= <-] & E).
  match type of E with _ ?c1 = _ => destruct (spec_fn_body l ps ss Hfrag c1 c') as (new & nb & Hchg & _ & HK); [| |exact E|done|] end.
  - split; [simpl; rewrite Hc; lia|]. unfold locals_of. simpl. rewrite Hlo. simpl. lia.
  - split; [unfold depth_of, locals_of; simpl; rewrite Hd, Hlo; split; [lia|constructor]|]. simpl. by rewrite Hlp.
  - set (c1 := set_current c _) in *. assert (Hs0 : csize c1 = 0%nat) by (unfold csize; change (current_chunk c1) with (current_chunk c); by rewrite Hch).
    assert (Hnb : nb = []) by (apply (ch_inside _ _ _ _ Hchg); done). subst nb.
    destruct (HK (mkImage (code (current_chunk c')) (constants (current_chunk c')) strs) 0%nat) as (p & Γ1 & H1 & H2 & H3).
    + split; try done.
    + intros b Hb. by apply not_elem_of_nil in Hb.
    + unfold target_of in H1. simpl in H1. rewrite Hlp in H1. unfold names_of, locals_of in H1. simpl in H1. rewrite Hlo, Hs0 in H1.
      by exists p, Γ1.
Qed.

(** [c'] has one more function than [c], and the same current chunk. *)
Record adds (c c' : Compiler) (new : list (Chunk constant)) : Prop := {
  ad_chunk : fc_chunk (c_current c) = None /\ fc_chunk (c_current c') = None;
  ad_functions : functions (c_code c') = functions (c_code c) ++ new;
  ad_strings : strings (c_code c) `prefix_of` strings (c_code c')
}.

Lemma elsewhere_adds c c' : elsewhere c c' -> fc_chunk (c_current c) = None -> adds c c' [].
Proof.
  intros [] H. split; [split; congruence| |done]. rewrite app_nil_r. apply list_eq. intros j. apply el_functions0. congruence.
Qed.
Lemma adds_trans c1 c2 c3 a b : adds c1 c2 a -> adds c2 c3 b -> adds c1 c3 (a ++ b).
Proof. intros [] []. split; [tauto|by rewrite app_assoc; congruence|by etrans]. Qed.

Lemma last_function c c' : elsewhere c c' -> fc_chunk (c_current c) = Some (length (functions (c_code c)) - 1)%nat ->
  (0 < length (functions (c_code c)))%nat ->
  functions (c_code c') = take (length (functions (c_code c)) - 1) (functions (c_code c)) ++ [current_chunk c'].
Proof.
  intros [] Hc H0. apply list_eq. intros j. set (k := (length (functions (c_code c)) - 1)%nat) in *.
  unfold current_chunk. rewrite el_chunk0, Hc. destruct (lt_eq_lt_dec j k) as [[Hj| ->]|Hj].
  - rewrite lookup_app_l by (rewrite length_take; lia). rewrite lookup_take_lt by lia. apply el_functions0. rewrite Hc. intros [= E]. lia.
  - rewrite lookup_app_r by (rewrite length_take; lia). rewrite length_take, Nat.min_l, Nat.sub_diag by lia. simpl.
    destruct (functions (c_code c') !! k) eqn:E; [done|]. apply lookup_ge_None in E. lia.
  - rewrite lookup_ge_None_2 by lia. symmetry. apply lookup_ge_None. rewrite length_app, length_take. simpl. lia.
Qed.

Lemma framed_store_function l name n i : framed (store_function l name n i).
Proof. unfold store_function. framed_auto. Qed.
Lemma framed_add_tool t : framed (add_tool t).
Proof. intros c. by split. Qed.
#[export] Hint Resolve framed_store_function framed_add_tool : compiler_framed.

Lemma framed_before {A} (m : C A) c x c' : framed m -> m c = (x, c') -> had_error c' = false -> had_error c = false /\ elsewhere c c'.
Proof.
  intros Hm E He. specialize (Hm c). rewrite E in Hm. split; [|done]. destruct (had_error c) eqn:H; [|done].
  pose proof (el_error _ _ Hm H) as Hx. simpl in Hx. congruence.
Qed.

Lemma bind_run {A B} (m : C A) (k : A -> C B) c x c1 : m c = (x, c1) -> (m ≫= k) c = k x c1.
Proof. intros E. unfold mbind, C_bind. by rewrite E. Qed.

Lemma compile_fn_adds tool line name params ret body description params_map c c' :
  compile_fn tool line name params ret body description params_map c = (tt, c') -> had_error c' = false ->
  fc_chunk (c_current c) = None ->
  exists ch, adds c c' [ch] /\ laid (strings (c_code c')) ch (mkFnDef (omap param_name params) (block_stmts body)).
Proof.
  intros E He Hc. unfold compile_fn in E. apply bind_inv in E as (i & c1 & [= <- <-] & E). set (c1 := set_code c _) in *.
  apply bind_inv in E as ([] & c3 & E1 & E3).
  match type of E3 with ?m _ = _ => assert (Hm : framed m) by framed_auto end.
  destruct (framed_before _ _ _ _ Hm E3 He) as [He3 El3]. clear Hm E3.
  apply bind_inv in E1 as (enc & ? & [= <- <-] & E1). apply bind_inv in E1 as ([] & c2 & [= <-] & E1). set (c2 := set_current c1 _) in *.
  assert (Er : exists c2', (begin_scope ;; add_local [] true line ;; add_params params ;; each_stmt (block_stmts body) ;;
      emit_op OP_NIL line ;; emit_op OP_RETURN line) c2 = (tt, c2') /\ c3 = set_current c2' (c_current c1)).
  { repeat (apply bind_inv in E1 as ([] & ? & ? & E1)). injection E1 as <-. eexists. split; [|done].
    repeat (etrans; [apply bind_run; eassumption|]; cbv beta). eassumption. }
  destruct Er as (c2' & E2 & ->). pose proof (framed_before _ _ _ _ (framed_fn_body _ _ _) E2 He3) as [_ El2].
  assert (Hi : fc_chunk (c_current c2) = Some (length (functions (c_code c2)) - 1)%nat).
  { simpl. rewrite length_app. simpl. f_equal. lia. }
  assert (H0 : (0 < length (functions (c_code c2)))%nat) by (simpl; rewrite length_app; simpl; lia).
  exists (current_chunk c2'). split.
  - assert (A : adds c (set_current c2' (c_current c1)) [current_chunk c2']).
    { split; [done| |].
      - change (functions (c_code c2') = functions (c_code c) ++ [current_chunk c2']).
        rewrite (last_function c2 c2' El2 Hi H0). simpl. rewrite length_app, Nat.add_sub, take_app_length. done.
      - simpl. etrans; [|apply (el_strings _ _ El2)]. done. }
    pose proof (adds_trans _ _ _ _ _ A (elsewhere_adds _ _ El3 Hc)) as H. by rewrite app_nil_r in H.
  - eapply laid_prefix; [apply (el_strings _ _ El3)|]. eapply (fn_body_laid line params (block_stmts body) c2 c2'); try done.
    unfold current_chunk. simpl. rewrite lookup_app_r by lia. by rewrite Nat.sub_diag.
Qed.

Section programs.
Context (cwd : option (list Z)) (read_file : list Z -> list Z + list Z) (parse : list Z -> list Z + AstNode).
Notation compile_decl := (compile_decl cwd read_file parse).

Lemma unless_runs m c c' : unless_error m c = (tt, c') -> had_error c' = false -> m c = (tt, c').
Proof. unfold unless_error. destruct (had_error c) eqn:H; [|done]. intros [= <-]. congruence. Qed.

Lemma compile_decl_adds k d : imports d = false -> forall c c', compile_decl k d c = (tt, c') -> had_error c' = false ->
  fc_chunk (c_current c) = None -> exists new, adds c c' new /\ Forall2 (laid (strings (c_code c'))) new (option_list (declared_fn d)).
Proof.
  assert (Hskip : forall m c c', framed m -> m c = (tt, c') -> had_error c' = false -> fc_chunk (c_current c) = None ->
    exists new, adds c c' new /\ Forall2 (laid (strings (c_code c'))) new []).
  { intros m c c' Hm E He Hc. exists []. destruct (framed_before _ _ _ _ Hm E He). split; [by apply elsewhere_adds|constructor]. }
  induction d; intros Hi c c' E He Hc; try done; apply unless_runs in E; try done;
    try (by eapply Hskip; [apply framed_compile|..]); try (by eapply Hskip; [apply framed_ret|..]).
  - destruct (compile_fn_adds _ _ _ _ _ _ _ _ _ _ E He Hc) as (ch & Ha & Hl). exists [ch]. split; [done|by repeat constructor].
  - destruct (compile_fn_adds _ _ _ _ _ _ _ _ _ _ E He Hc) as (ch & Ha & Hl). exists [ch]. split; [done|by repeat constructor].
  - by apply IHd.
Qed.

Definition functions_of (decls : list AstNode) : list fn_def := omap declared_fn decls.

Notation program_decls := (program_decls cwd read_file parse).

Lemma mono_program_decls fuel ds : mono (program_decls fuel ds).
Proof.
  induction ds as [|d ds IH]; [apply mono_ret|].
  assert (Hseq : mono (compile_decl (module_decls cwd read_file parse fuel) d ;; program_decls fuel ds)).
  { apply mono_bind; [destruct d; apply mono_unless|done]. }
  destruct ds; [|done]. destruct d; try done; intros c Hc; by apply (framed_compile _ _ c).
Qed.

Lemma adds_laid c c1 c' a b fa fb : adds c c1 a -> Forall2 (laid (strings (c_code c1))) a fa ->
  adds c1 c' b -> Forall2 (laid (strings (c_code c'))) b fb ->
  adds c c' (a ++ b) /\ Forall2 (laid (strings (c_code c'))) (a ++ b) (fa ++ fb).
Proof.
  intros A1 L1 A2 L2. split; [by eapply adds_trans|]. apply Forall2_app; [|done]. eapply Forall2_impl; [exact L1|].
  intros ch d. apply laid_prefix, (ad_strings _ _ _ A2).
Qed.

Lemma program_decls_adds fuel ds : Forall (fun d => imports d = false) ds -> forall c c', program_decls fuel ds c = (tt, c') ->
  had_error c' = false -> fc_chunk (c_current c) = None ->
  exists new, adds c c' new /\ Forall2 (laid (strings (c_code c'))) new (functions_of ds).
Proof.
  induction 1 as [|d ds Hd Hds IH]; intros c c' E He Hc.
  - injection E as <-. exists []. split; [by apply elsewhere_adds; [apply elsewhere_refl|]|constructor].
  - assert (Hseq : (compile_decl (module_decls cwd read_file parse fuel) d ;; program_decls fuel ds) c = (tt, c') ->
      exists new, adds c c' new /\ Forall2 (laid (strings (c_code c'))) new (functions_of (d :: ds))).
    { intros E'. apply bind_inv in E' as ([] & c1 & E1 & E2).
      destruct (compile_decl_adds _ d Hd c c1 E1 (mono_before _ _ _ _ (mono_program_decls _ _) E2 He) Hc) as (a & A1 & L1).
      destruct (IH c1 c' E2 He (proj2 (ad_chunk _ _ _ A1))) as (b & A2 & L2). exists (a ++ b).
      unfold functions_of. simpl. destruct (adds_laid _ _ _ _ _ _ _ A1 L1 A2 L2) as [A3 L3]. split; [done|].
      by destruct (declared_fn d). }
    destruct ds; [|by apply Hseq]. destruct d; try (by apply Hseq);
      (exists []; destruct (framed_before _ _ _ _ (framed_compile _ _) E He); split; [by apply elsewhere_adds|constructor]).
Qed.

(** Every function of a program without imports that compiles is laid out in the
    chunk of its index. *)
Lemma compile_functions fuel l decls bc : Forall (fun d => imports d = false) decls ->
  compiler_compile cwd read_file parse fuel compiler_new (NODE_PROGRAM l decls) = Compiled bc ->
  Forall2 (laid (strings bc)) (functions bc) (functions_of decls).
Proof.
  intros Hi E. unfold compiler_compile in E. set (c0 := mkCompiler _ _ _ _ _ _ _) in E. unfold compile_program in E.
  destruct ((program_decls fuel decls ;; emit_op OP_HALT l) c0) as [[] c'] eqn:Ec. simpl in E. destruct (c_crashed c'); [done|].
  destruct (had_error c') eqn:He; [done|]. injection E as <-. apply bind_inv in Ec as ([] & c1 & E1 & E2).
  assert (Hm : framed (emit_op OP_HALT l)) by framed_auto. destruct (framed_before _ _ _ _ Hm E2 He) as [He1 El].
  destruct (program_decls_adds fuel decls Hi c0 c1 E1 He1 eq_refl) as (new & A & L).
  pose proof (elsewhere_adds _ _ El (proj2 (ad_chunk _ _ _ A))) as A2.
  destruct (adds_laid _ _ _ _ _ _ _ A L A2 (List.Forall2_nil _)) as [[_ -> _] L3]. rewrite !app_nil_r in *. exact L3.
Qed.
End programs.

(** ** Calls of compiled functions *)

(** The constants of a chunk, as values in the store. *)
Definition chunk_installed (st : Store) (ch : Chunk ptr) (k : Chunk constant) : Prop :=
  code ch = code k /\ Forall2 (holds st) (constants ch) (constants k).
Record installed (st : Store) (bc : Bytecode ptr) (k : Bytecode constant) : Prop := {
  in_main : chunk_installed st (main bc) (main k);
  in_functions : Forall2 (chunk_installed st) (functions bc) (functions k);
  in_strings : strings bc = strings k
}.
(** Offsets and indices fit in 16 bits: beyond that the compiler writes other ones. *)
Definition in_limits (k : Bytecode constant) : Prop :=
  Forall (fun ch => Z.of_nat (length (code ch)) <= 0xFFFF) (functions k) /\ Z.of_nat (length (strings k)) <= 0x10000.

Definition image_of (k : Bytecode constant) (ch : Chunk constant) : image := mkImage (code ch) (constants ch) (strings k).
Definition frame_chunk (k : Bytecode constant) (F : CallFrame) : option (Chunk constant) :=
  match f_chunk F with None => Some (main k) | Some i => functions k !! i end.

Lemma installed_runs st bc k F ch : installed st bc k -> frame_chunk k F = Some ch -> runs st bc F (image_of k ch).
Proof.
  intros [[Hm1 Hm2] Hf Hs]. unfold frame_chunk, runs, chunk_in. destruct (f_chunk F) as [i|].
  - intros Hi. destruct (Forall2_lookup_r _ _ _ _ _ Hf Hi) as (ch' & Hch & H1 & H2). by exists ch'.
  - intros [= <-]. by exists (main bc).
Qed.

Lemma compiled_implements cwd read_file parse fuel l decls k st bc program : Forall (fun d => imports d = false) decls ->
  compiler_compile cwd read_file parse fuel compiler_new (NODE_PROGRAM l decls) = Compiled k -> in_limits k -> installed st bc k ->
  (forall i d, program i = Some d -> functions_of decls !! i = Some d /\ frag_stmts (fd_body d)) ->
  implements st bc program.
Proof.
  intros Hi Hc [Hl1 Hl2] Hld Hp i d Hd. apply Hp in Hd as [Hd Hfrag]. pose proof (compile_functions _ _ _ _ _ _ _ Hi Hc) as Hall.
  destruct (Forall2_lookup_r _ _ _ _ _ Hall Hd) as (ch & Hch & Hlaid). exists (image_of k ch). split.
  - intros F HF. apply installed_runs; [done|]. unfold frame_chunk. by rewrite HF.
  - apply Hlaid; [done| |done|done]. by apply (Forall_lookup_1 _ _ _ _ Hl1 Hch).
Qed.

(** Values are allocated for the constants, as the compiler does while it adds them. *)
Definition install_chunk (k : Chunk constant) : M (Chunk ptr) :=
  ps ← mapM value_new (constants k);
  mret (mkChunk (code k) (code_capacity k) ps (constants_capacity k) (ic_count k) (ic_capacity k) (lines k) (lines_capacity k)).
Definition install (k : Bytecode constant) : M (Bytecode ptr) :=
  m ← install_chunk (main k); fs ← mapM install_chunk (functions k);
  mret (mkBytecode (refcount k) m fs (strings k) (tools k) (version k)).

(** C1: a call of a compiled function does what the reference semantics says.  The
    program has no imports and compiles to [k], whose chunks and names fit in 16
    bits; its code is loaded with the constants in the store; [program] is any of
    its functions whose statements are in the fragment of [Codegen].  At a call
    instruction in any chunk, with the callee and the arguments on the stack, the
    interpreter reaches a state with the result in place of both when the
    semantics gives a result [w]; it stops with the same error and message when
    the semantics fails; and it runs into undefined behaviour when the semantics
    does.  Frames can be allocated, up to 1024, and no upvalue is open. *)
Theorem compiled_calls_refine cwd read_file parse fuel l decls k program
    realloc clone_ok grow_ok rem_ok set_ok other st sb room g bc n f args F ch fs ws pc vm :
  Forall (fun d => imports d = false) decls ->
  compiler_compile cwd read_file parse fuel compiler_new (NODE_PROGRAM l decls) = Compiled k -> in_limits k ->
  (forall i d, program i = Some d -> functions_of decls !! i = Some d /\ frag_stmts (fd_body d)) ->
  installed st bc k -> frame_chunk k F = Some ch -> arg_at (image_of k ch) pc OP_CALL (Z.of_nat (length args)) ->
  machine sb room g bc vm (ws ++ f :: args) (frame_at F pc :: fs) ->
  leads realloc clone_ok grow_ok rem_ok set_ok other st vm
    (call room (read_global st g) (read_callee st) program n (S (length fs)) (length ws) f args)
    (fun w vm' => machine sb room g bc vm' (ws ++ [w]) (frame_at F (pc + 3) :: fs)).
Proof.
  intros Hi Hc Hl Hp Hld HF Ha H. eapply call_simulated; [by eapply compiled_implements|by eapply installed_runs|done|exact Ha|done].
Qed.

(** *** An example *)

(** [fn fact(n) { if n < 2 { return 1 } return n * fact(n - 1) } fact(5)] *)
Definition fact_program : list AstNode :=
  let n := NODE_IDENT 1 (chars "n") in let fact := NODE_IDENT 1 (chars "fact") in
  [NODE_FN_DECL 1 (chars "fact") [NODE_PARAM 1 (chars "n") None] None
     (NODE_BLOCK 1 [NODE_IF 1 (NODE_BINARY 1 TOK_LT n (NODE_INT 1 2)) (NODE_BLOCK 1 [NODE_RETURN 1 (Some (NODE_INT 1 1))]) None;
                    NODE_RETURN 1 (Some (NODE_BINARY 1 TOK_STAR n (NODE_CALL 1 fact [NODE_BINARY 1 TOK_MINUS n (NODE_INT 1 1)])))])
     None None;
   NODE_EXPR_STMT 1 (NODE_CALL 1 fact [NODE_INT 1 5])].
Definition compiled (decls : list AstNode) : option (Bytecode constant) :=
  match compiler_compile None (fun _ => inl []) (fun _ => inl []) 0 compiler_new (NODE_PROGRAM 1 decls) with
  | Compiled k => Some k
  | _ => None
  end.

(** [n] instructions. *)
Fixpoint steps (n : nat) (vm : VM) (st : Store) : option (VM * Store) :=
  match n with
  | O => Some (vm, st)
  | S n => match instruction in_place true true true true allocs_ok no_other vm st with
           | Next _ vm st => steps n vm st
           | _ => None
           end
  end.
Definition initial (decls : list AstNode) : option (VM * Store) :=
  k ← compiled decls; '(bc, st) ← install k globals_store; Some (vm_load 1000 true bc fresh_vm, st).
Definition started (decls : list AstNode) (n : nat) : option (VM * Store) := '(vm, st) ← initial decls; steps n vm st.

Definition fact_code : Bytecode constant := default bytecode_new (compiled fact_program).
Definition fact_loaded : Bytecode ptr := default (bytecode_of []) (fst <$> install fact_code globals_store).
(** At the call of the last line. *)
Definition fact_vm : VM := default fresh_vm (fst <$> started fact_program 5).
Definition fact_store : Store := default globals_store (snd <$> started fact_program 5).
Definition fact_function (i : nat) : option fn_def := functions_of fact_program !! i.

Lemma holds_at p d v : p <> NULL -> cells fact_store !! p = Some v -> data v = d -> holds fact_store p d.
Proof. intros Hp Hv Hd. exact (conj Hp (ex_intro _ v (conj Hv Hd))). Qed.
Lemma fact_installed : installed fact_store fact_loaded fact_code.
Proof.
  split; [| |vm_compute; reflexivity].
  - split; [vm_compute; reflexivity|]. replace (constants (main fact_loaded)) with [2; 3] by (vm_compute; reflexivity).
    replace (constants (main fact_code)) with [VFunction (mkFunction (chars "fact") 1 0 0 0); VInt 5 : constant] by (vm_compute; reflexivity).
    repeat constructor; eapply holds_at; (discriminate || vm_compute; reflexivity).
  - replace (functions fact_code) with [default chunk_new (functions fact_code !! 0%nat)] by (vm_compute; reflexivity).
    replace (functions fact_loaded) with [default (main fact_loaded) (functions fact_loaded !! 0%nat)] by (vm_compute; reflexivity).
    constructor; [|constructor]. split; [vm_compute; reflexivity|].
    replace (constants _) with [4; 5; 6] by (vm_compute; reflexivity).
    replace (constants (default chunk_new _)) with [VInt 2; VInt 1; VInt 1 : constant] by (vm_compute; reflexivity).
    repeat constructor; eapply holds_at; (discriminate || vm_compute; reflexivity).
Qed.
Lemma fact_machine : machine 1000 64 1 fact_loaded fact_vm ([] ++ nanbox_obj 2 :: [nanbox_int 5]) (frame_at (mkFrame None 0 1000 None) 13 :: []).
Proof.
  split; try (vm_compute; reflexivity).
  - intros [|[|i]] w Hw; [| |done]; simpl in Hw; injection Hw as <-; vm_compute; reflexivity.
  - split; [vm_compute; discriminate|]. split; vm_compute; discriminate.
Qed.
Lemma fact_frag i d : fact_function i = Some d -> functions_of fact_program !! i = Some d /\ frag_stmts (fd_body d).
Proof. destruct i; [|discriminate]. intros H. split; [exact H|]. injection H as <-. repeat first [(vm_compute; reflexivity) | constructor]. Qed.

Lemma compiled_calls_refine_witness : exists vm',
  reaches in_place true true true allocs_ok no_other fact_store fact_vm vm' /\
  machine 1000 64 1 fact_loaded vm' [nanbox_int 120] [frame_at (mkFrame None 0 1000 None) 16].
Proof.
  assert (E : call 64 (read_global fact_store 1) (read_callee fact_store) fact_function 40 1 0 (nanbox_obj 2) [nanbox_int 5]
    = Done (nanbox_int 120)) by (vm_compute; reflexivity).
  pose proof (compiled_calls_refine None (fun _ => inl []) (fun _ => inl []) 0 1 fact_program fact_code fact_function
    in_place true true true allocs_ok no_other fact_store 1000 64 1 fact_loaded 40 (nanbox_obj 2) [nanbox_int 5]
    (mkFrame None 0 1000 None) (main fact_code) [] [] 13 fact_vm) as H.
  cbn [length] in H. rewrite E in H. apply H.
  - repeat constructor.
  - vm_compute. reflexivity.
  - split; [replace (functions fact_code) with [default chunk_new (functions fact_code !! 0%nat)] by (vm_compute; reflexivity)|];
      [repeat constructor|]; vm_compute; discriminate.
  - exact fact_frag.
  - exact fact_installed.
  - reflexivity.
  - repeat first [apply conj | (vm_compute; reflexivity) | (vm_compute; discriminate)].
  - exact fact_machine.
Defined.

(** ** Where the compiled code differs from what the program means *)

(** [for i in 0..2 { continue }] *)
Definition continue_program : list AstNode :=
  [NODE_FOR 1 (chars "i") None (NODE_RANGE 1 (NODE_INT 1 0) (NODE_INT 1 2) false) (NODE_BLOCK 1 [NODE_CONTINUE 1])].

Lemma steps_add n m vm st : steps (n + m) vm st = ('(vm, st) ← steps n vm st; steps m vm st).
Proof. revert vm st. induction n as [|n IH]; intros vm st; simpl; [done|]. by destruct (instruction _ _ _ _ _ _ _ _ _). Qed.
Lemma steps_earlier n m vm st : (n <= m)%nat -> is_Some (steps m vm st) -> is_Some (steps n vm st).
Proof. intros Hn [x Hx]. replace m with (n + (m - n))%nat in Hx by lia. rewrite steps_add in Hx. by destruct (steps n vm st). Qed.
(** A state that comes back after [p] instructions is left for ever. *)
Lemma steps_cycle n p vm0 st0 vm st : steps n vm0 st0 = Some (vm, st) -> (0 < p)%nat -> steps p vm st = Some (vm, st) ->
  forall m, is_Some (steps m vm0 st0).
Proof.
  intros Hn Hp Hc m. apply (steps_earlier _ (n + m * p)); [nia|]. rewrite steps_add, Hn. simpl. clear Hn.
  induction m as [|m IH]; simpl; [by eexists|]. by rewrite steps_add, Hc.
Qed.

(** The loop with [continue] comes back to the same state. *)
Lemma continue_never_ends : forall n, is_Some (started continue_program n).
Proof.
  intros n. unfold started. destruct (initial continue_program) as [[vm st]|] eqn:E; [|by vm_compute in E].
  vm_compute in E. injection E as <- <-. eapply (steps_cycle 8 6); [vm_compute; reflexivity|lia|vm_compute; reflexivity].
Qed.

(** The value of a program: on top of the stack when it halts, after [n]
    instructions. *)
Definition run_value (decls : list AstNode) (n : nat) : option NanValue :=
  '(vm, st) ← started decls n;
  match instruction in_place true true true true allocs_ok no_other vm st with
  | Return VM_HALT vm st => match vm_peek_nan 0 vm st with Next w _ _ => Some w | _ => None end
  | _ => None
  end.

(** [if true { let x = 1; x + 2 }] *)
Definition block_program : list AstNode :=
  [NODE_IF 1 (NODE_BOOL 1 true) (NODE_BLOCK 1 [NODE_LET 1 (chars "x") None (NODE_INT 1 1) false;
     NODE_EXPR_STMT 1 (NODE_BINARY 1 TOK_PLUS (NODE_IDENT 1 (chars "x")) (NODE_INT 1 2))]) None].
(** [1 + match some(5) { some(v) => v, none => 0 }] *)
Definition match_program : list AstNode :=
  [NODE_EXPR_STMT 1 (NODE_BINARY 1 TOK_PLUS (NODE_INT 1 1)
     (NODE_MATCH 1 (NODE_SOME 1 (NODE_INT 1 5))
       [NODE_MATCH_ARM 1 MATCH_PATTERN_SOME (Some (chars "v")) None (NODE_IDENT 1 (chars "v"));
        NODE_MATCH_ARM 1 MATCH_PATTERN_NONE None None (NODE_INT 1 0)]))].

(** Three programs that do something else than they mean.  [continue] in a
    loop over a range jumps behind the increment of the loop variable, so the
    interpreter runs [for i in 0..2 { continue }] for ever.  The end of a block's
    scope pops the block's value and leaves its variable:
    [if true { let x = 1; x + 2 }] is 1.  The variable of a match arm is looked up in
    a slot that does not count the values below it on the stack:
    [1 + match some(5) { some(v) => v, none => 0 }] is 2. *)
Theorem compiled_meaning_differs :
  (forall n, is_Some (started continue_program n)) /\
  run_value block_program 9 = Some (nanbox_int 1) /\ run_value match_program 13 = Some (nanbox_int 2).
Proof. split; [apply continue_never_ends|]. split; vm_compute; reflexivity. Qed.
