(* ===== verification/Parser.v ===== *)
(** * The parser (src/lang/parser.c)

    A recursive-descent parser with precedence climbing.  The lexer is seen
    through the tokens it gives, the last of which, the end of the source, it
    gives again and again ([Lexer.tokens]).  A parse function is an action on the
    parser's state; it can run out of fuel, which stands for a parser that does
    not return, or crash.  A missing subtree (NULL) only occurs next to an error,
    after which the whole tree is dropped. *)

From Stdlib Require Import ZArith Lia String Ascii SpecFloat.
From stdpp Require Import base numbers list.
From S2P Require Import Prelude Float64 Lexer Ast.
Local Open Scope string_scope.
Local Open Scope list_scope.
Local Open Scope Z_scope.

(** ** The state *)

Definition MAX_PARSE_DEPTH : Z := 256.

(** The parts of the message that [error_at] formats. *)
Record ParseError := mkError { pe_line : Z; pe_token : Token; pe_message : list Z }.

Record Parser := mkParser {
  lexer : list Token;
  cur : Token;
  previous : Token;
  error_text : option ParseError;
  parse_failed : bool;       (** [had_error] *)
  panic_mode : bool;
  depth : Z
}.

Definition set_tokens (p : Parser) (ts : list Token) (c prev : Token) : Parser :=
  mkParser ts c prev (error_text p) (parse_failed p) (panic_mode p) (depth p).
Definition set_panic (p : Parser) (b : bool) : Parser :=
  mkParser (lexer p) (cur p) (previous p) (error_text p) (parse_failed p) b (depth p).
Definition add_depth (p : Parser) (n : Z) : Parser :=
  mkParser (lexer p) (cur p) (previous p) (error_text p) (parse_failed p) (panic_mode p) (depth p + n).

(** [Stuck]: out of fuel; [Crashed]: undefined behaviour. *)
Inductive parsed (A : Type) := Parsed (x : A) (p : Parser) | Stuck | Crashed.
Arguments Parsed {A}. Arguments Stuck {A}. Arguments Crashed {A}.

Definition P (A : Type) : Type := Parser -> parsed A.
#[global] Instance P_ret : MRet P := fun A x p => Parsed x p.
#[global] Instance P_bind : MBind P := fun A B k m p =>
  match m p with Parsed x p => k x p | Stuck => Stuck | Crashed => Crashed end.

Definition looks {A} (f : Parser -> A) : P A := fun p => Parsed (f p) p.
Definition changes (f : Parser -> Parser) : P unit := fun p => Parsed tt (f p).
Definition stuck {A} : P A := fun _ => Stuck.
Definition crash {A} : P A := fun _ => Crashed.

(** Rounds of a loop: [inl] goes on. *)
Fixpoint iterate {A B} (fuel : nat) (round : A -> P (A + B)) (x : A) : P B :=
  match fuel with
  | O => stuck
  | S fuel => r ← round x; match r with inl x => iterate fuel round x | inr y => mret y end
  end.

(** ** Errors *)

Definition failing (t : Token) (message : list Z) (p : Parser) : Parser :=
  if panic_mode p then p
  else mkParser (lexer p) (cur p) (previous p) (Some (mkError (tok_line t) t message)) true true (depth p).
Definition error (message : string) : P unit := changes (fun p => failing (previous p) (chars message) p).
Definition error_at_current (message : string) : P unit := changes (fun p => failing (cur p) (chars message) p).

(** ** Tokens *)

(** The tokens in front of the next one that is not an error, that one, and the
    rest. *)
Fixpoint pull (last : Token) (ts : list Token) : list Token * Token * list Token :=
  match ts with
  | [] => ([], last, [])
  | t :: ts =>
      match type t with
      | TOK_ERROR => let '(es, u, rest) := pull last ts in (t :: es, u, rest)
      | TOK_EOF => ([], t, [t])
      | _ => ([], t, ts)
      end
  end.

Definition advance : P unit := changes (fun p =>
  let '(errors, t, rest) := pull (cur p) (lexer p) in
  foldl (fun p e => failing e (text e) p) (set_tokens p rest t (cur p)) errors).

Definition at_token (p : Parser) (t : TokenType) : bool := bool_decide (type (cur p) = t).
Definition check (t : TokenType) : P bool := looks (fun p => at_token p t).
Definition match_ (t : TokenType) : P bool := fun p => if at_token p t then (advance ;; mret true) p else Parsed false p.
Definition consume (t : TokenType) (message : string) : P unit := fun p =>
  if at_token p t then advance p else error_at_current message p.

Fixpoint skip_newlines_loop (fuel : nat) : P unit :=
  match fuel with
  | O => mret tt
  | S fuel => m ← match_ TOK_NEWLINE; if m : bool then skip_newlines_loop fuel else mret tt
  end.
Definition skip_newlines : P unit := n ← looks (fun p => length (lexer p)); skip_newlines_loop (S n).

Definition starts_statement (t : TokenType) : bool :=
  match t with
  | TOK_TOOL | TOK_FN | TOK_LET | TOK_CONST | TOK_IF | TOK_WHILE | TOK_FOR | TOK_RETURN | TOK_IMPORT | TOK_EXPORT
  | TOK_MATCH | TOK_STRUCT | TOK_ENUM | TOK_ALIAS => true
  | _ => false
  end.
Fixpoint synchronize_loop (fuel : nat) : P unit := fun p =>
  match fuel with
  | O => Parsed tt p
  | S fuel =>
      if at_token p TOK_EOF || bool_decide (type (previous p) = TOK_NEWLINE) || starts_statement (type (cur p)) then Parsed tt p
      else (advance ;; synchronize_loop fuel) p
  end.
Definition synchronize : P unit :=
  changes (fun p => set_panic p false) ;; n ← looks (fun p => length (lexer p)); synchronize_loop (S n).

Definition prev : P Token := looks previous.
Definition prev_line : P Z := looks (fun p => tok_line (previous p)).
(** The text of the token consumed last, or its first 255 bytes. *)
Definition prev_text : P (list Z) := looks (fun p => text (previous p)).
Definition prev_name : P (list Z) := looks (fun p => take 255 (text (previous p))).
(** The text between quotes: [length - 2] bytes, which wraps around for a token
    that is shorter. *)
Definition unquoted (t : Token) : list Z := take (length (text t) - 2) (drop 1 (text t)).
Definition prev_unquoted : P (list Z) := fun p =>
  if (length (text (previous p)) <? 2)%nat then Crashed else Parsed (unquoted (previous p)) p.

(** ** Precedence *)

Definition PREC_NONE : Z := 0.
Definition PREC_ASSIGNMENT : Z := 1.
Definition PREC_RANGE : Z := 2.
Definition PREC_TERNARY : Z := 3.
Definition PREC_OR : Z := 4.
Definition PREC_AND : Z := 5.
Definition PREC_EQUALITY : Z := 6.
Definition PREC_COMPARISON : Z := 7.
Definition PREC_TERM : Z := 8.
Definition PREC_FACTOR : Z := 9.
Definition PREC_UNARY : Z := 10.
Definition PREC_CALL : Z := 11.

Definition get_precedence (t : TokenType) : Z :=
  match t with
  | TOK_ASSIGN | TOK_PLUS_ASSIGN | TOK_MINUS_ASSIGN | TOK_STAR_ASSIGN | TOK_SLASH_ASSIGN => PREC_ASSIGNMENT
  | TOK_QUESTION => PREC_TERNARY
  | TOK_OR => PREC_OR
  | TOK_AND => PREC_AND
  | TOK_EQ | TOK_NE => PREC_EQUALITY
  | TOK_LT | TOK_LE | TOK_GT | TOK_GE => PREC_COMPARISON
  | TOK_PLUS | TOK_MINUS => PREC_TERM
  | TOK_STAR | TOK_SLASH | TOK_PERCENT => PREC_FACTOR
  | TOK_RANGE | TOK_RANGE_INCL => PREC_RANGE
  | TOK_LPAREN | TOK_DOT | TOK_LBRACKET | TOK_LBRACE => PREC_CALL
  | _ => PREC_NONE
  end.

(** ** Literals *)

Definition digit (c : Z) : Z := c - 48.
(** The leading digits of a text, as a number and how many there are. *)
Fixpoint digits (acc : Z) (n : Z) (s : list Z) : Z * Z * list Z :=
  match s with
  | c :: s' => if isdigit c then digits (10 * acc + digit c) (n + 1) s' else (acc, n, s)
  | [] => (acc, n, [])
  end.
(** [strtoll(s, NULL, 10)] of a text without a sign. *)
Definition strtoll (s : list Z) : Z := Z.min (digits 0 0 s).1.1 (2 ^ 63 - 1).

(** [n / d], rounded to nearest. *)
Definition f64_ratio (n d : Z) : f64 :=
  match n, d with
  | Zpos n, Zpos d => f64_encode (SFdiv 53 1024 (S754_finite false n 0) (S754_finite false d 0))
  | _, _ => f64_zero
  end.
Definition exponent_of (s : list Z) : Z :=
  match s with
  | e :: s =>
      if (e =? ch "e") || (e =? ch "E") then
        match s with
        | c :: s' =>
            if c =? ch "-" then - (digits 0 0 s').1.1
            else if c =? ch "+" then (digits 0 0 s').1.1 else (digits 0 0 s).1.1
        | [] => 0
        end
      else 0
  | [] => 0
  end.
(** [strtod(s, NULL)] of a text that starts with a digit. *)
Definition strtod (s : list Z) : f64 :=
  let '(whole, _, rest) := digits 0 0 s in
  let '(mantissa, places, rest) :=
    match rest with c :: r => if c =? ch "." then digits whole 0 r else (whole, 0, rest) | [] => (whole, 0, []) end in
  let e := exponent_of rest - places in
  if 0 <=? e then f64_ratio (mantissa * 10 ^ e) 1 else f64_ratio mantissa (10 ^ (- e)).

(** The number without underscores, cut off after 63 characters. *)
Definition number_text (t : Token) : list Z := take 63 (filter (fun c => c <> ch "_") (text t)).

Definition parse_number : P (option AstNode) :=
  t ← prev;
  mret (Some match type t with
             | TOK_FLOAT => NODE_FLOAT (tok_line t) (strtod (number_text t))
             | _ => NODE_INT (tok_line t) (strtoll (number_text t))
             end).

Definition unescape_char (c : Z) : Z :=
  if c =? ch "n" then 10 else if c =? ch "t" then 9 else if c =? ch "r" then 13 else c.
(** [ast_string]: a backslash at the very end stays. *)
Fixpoint unescape (s : list Z) : list Z :=
  match s with
  | c :: s' =>
      if c =? backslash then
        match s' with
        | d :: s'' => unescape_char d :: unescape s''
        | [] => [c]
        end
      else c :: unescape s'
  | [] => []
  end.
Definition parse_string : P (option AstNode) :=
  t ← prev; s ← prev_unquoted; mret (Some (NODE_STRING (tok_line t) (unescape s))).

(** ** The grammar *)

(** A subtree; a missing one stands in a tree that is dropped. *)
Definition child (node : option AstNode) : AstNode := default (NODE_NIL 0) node.

(** What a recursive call parses. *)
Inductive task := Precedence (min_prec : Z) | Type_ | Block_ | Statement | IfStmt | MatchExpr | ReturnStmt.

Definition type_names : list (TokenType * string) :=
  [(TOK_TYPE_INT, "int"); (TOK_TYPE_FLOAT, "float"); (TOK_TYPE_STRING, "string"); (TOK_TYPE_BOOL, "bool"); (TOK_TYPE_VOID, "void");
   (TOK_TYPE_BYTES, "bytes"); (TOK_TYPE_PID, "Pid")].
Fixpoint type_name (ts : list (TokenType * string)) (t : TokenType) : option (list Z) :=
  match ts with [] => None | (u, s) :: ts => if bool_decide (t = u) then Some (chars s) else type_name ts t end.

Section grammar.
Context (fuel : nat) (parse : task -> P (option AstNode)).

Definition parse_expression : P (option AstNode) := parse (Precedence PREC_ASSIGNMENT).

(** A do-while loop that goes on behind a comma. *)
Definition comma_separated {A} (item : A -> P A) (x : A) : P A :=
  iterate fuel (fun x => x ← item x; m ← match_ TOK_COMMA; mret (if m : bool then inl x else inr x)) x.

Definition parse_identifier : P (option AstNode) :=
  t ← prev;
  enum ← match_ TOK_COLON_COLON;
  if enum : bool then
    consume TOK_IDENT "expected variant name after '::'" ;; variant ← prev_name;
    has ← match_ TOK_LPAREN;
    payload ← (if has : bool then e ← parse_expression; consume TOK_RPAREN "expected ')' after enum payload" ;; mret e else mret None);
    mret (Some (NODE_ENUM_EXPR (tok_line t) (take 255 (text t)) variant payload))
  else mret (Some (NODE_IDENT (tok_line t) (text t))).

Definition parse_grouping : P (option AstNode) :=
  e ← parse_expression; consume TOK_RPAREN "expected ')' after expression" ;; mret e.

Definition parse_unary : P (option AstNode) :=
  t ← prev; e ← parse (Precedence PREC_UNARY); mret (Some (NODE_UNARY (tok_line t) (type t) (child e))).

Definition parse_array_literal : P (option AstNode) :=
  line ← prev_line; skip_newlines ;; empty ← check TOK_RBRACKET;
  es ← (if empty : bool then mret []
        else iterate fuel (fun es =>
          skip_newlines ;; last ← check TOK_RBRACKET;
          if last : bool then mret (inr es)
          else e ← parse_expression; skip_newlines ;; m ← match_ TOK_COMMA;
               mret (if m : bool then inl (es ++ [child e]) else inr (es ++ [child e]))) []);
  skip_newlines ;; consume TOK_RBRACKET "expected ']' after array elements" ;; mret (Some (NODE_ARRAY line es)).

(** A key: [None] after an error. *)
Definition parse_map_key : P (option (list Z)) :=
  name ← match_ TOK_IDENT;
  if name : bool then s ← prev_text; mret (Some s)
  else str ← match_ TOK_STRING;
       if str : bool then s ← prev_unquoted; mret (Some s)
       else error "expected map key" ;; mret None.
Definition parse_map_literal : P (option AstNode) :=
  line ← prev_line; skip_newlines ;; empty ← check TOK_RBRACE;
  es ← (if empty : bool then mret (Some [])
        else iterate fuel (fun es =>
          skip_newlines ;; last ← check TOK_RBRACE;
          if last : bool then mret (inr (Some es))
          else key ← parse_map_key;
               match key with
               | None => mret (inr None)
               | Some key =>
                   consume TOK_COLON "expected ':' after map key" ;; skip_newlines ;; v ← parse_expression;
                   skip_newlines ;; m ← match_ TOK_COMMA;
                   mret (if m : bool then inl (es ++ [(key, child v)]) else inr (Some (es ++ [(key, child v)])))
               end) []);
  match es with
  | None => mret None
  | Some es =>
      skip_newlines ;; consume TOK_RBRACE "expected '}' after map entries" ;; mret (Some (NODE_MAP line es.*1 es.*2))
  end.

(** [ok(..)], [err(..)] and [some(..)]. *)
Definition parse_wrapped (opening closing : string) (node : Z -> AstNode -> AstNode) : P (option AstNode) :=
  line ← prev_line; consume TOK_LPAREN opening ;; e ← parse_expression; consume TOK_RPAREN closing ;;
  mret (Some (node line (child e))).
Definition parse_ok_expr : P (option AstNode) := parse_wrapped "expected '(' after 'ok'" "expected ')' after ok value" NODE_RESULT_OK.
Definition parse_err_expr : P (option AstNode) := parse_wrapped "expected '(' after 'err'" "expected ')' after err value" NODE_RESULT_ERR.
Definition parse_some_expr : P (option AstNode) := parse_wrapped "expected '(' after 'some'" "expected ')' after some value" NODE_SOME.
Definition parse_try_expr : P (option AstNode) := line ← prev_line; e ← parse_expression; mret (Some (NODE_TRY line (child e))).

Definition parse_primary : P (option AstNode) :=
  t ← looks (fun p => type (cur p));
  let taken (k : P (option AstNode)) : P (option AstNode) := advance ;; k in
  match t with
  | TOK_TRUE => taken (l ← prev_line; mret (Some (NODE_BOOL l true)))
  | TOK_FALSE => taken (l ← prev_line; mret (Some (NODE_BOOL l false)))
  | TOK_NIL => taken (l ← prev_line; mret (Some (NODE_NIL l)))
  | TOK_INT | TOK_FLOAT => taken parse_number
  | TOK_STRING => taken parse_string
  | TOK_IDENT => taken parse_identifier
  | TOK_LPAREN => taken parse_grouping
  | TOK_LBRACKET => taken parse_array_literal
  | TOK_LBRACE => taken parse_map_literal
  | TOK_NOT | TOK_MINUS => taken parse_unary
  | TOK_MATCH => taken (parse MatchExpr)
  | TOK_TRY => taken parse_try_expr
  | TOK_OK => taken parse_ok_expr
  | TOK_ERR => taken parse_err_expr
  | TOK_SOME => taken parse_some_expr
  | TOK_NONE => taken (l ← prev_line; mret (Some (NODE_NONE l)))
  | TOK_SPREAD => taken (l ← prev_line; e ← parse (Precedence PREC_UNARY); mret (Some (NODE_SPREAD l (child e))))
  | _ => error_at_current "expected expression" ;; mret None
  end.

Definition parse_call (callee : AstNode) : P (option AstNode) :=
  line ← prev_line; skip_newlines ;; empty ← check TOK_RPAREN;
  args ← (if empty : bool then mret []
          else comma_separated (fun es => skip_newlines ;; e ← parse_expression; skip_newlines ;; mret (es ++ [child e])) []);
  consume TOK_RPAREN "expected ')' after arguments" ;; mret (Some (NODE_CALL line callee args)).

Definition parse_member (object : AstNode) : P (option AstNode) :=
  line ← prev_line; consume TOK_IDENT "expected property name after '.'" ;; field ← prev_text;
  mret (Some (NODE_MEMBER line object field)).

Definition parse_index (object : AstNode) : P (option AstNode) :=
  line ← prev_line; index ← parse_expression; consume TOK_RBRACKET "expected ']' after index" ;;
  mret (Some (NODE_INDEX line object (child index))).

Definition parse_struct_init (name : list Z) : P (option AstNode) :=
  line ← prev_line; skip_newlines ;;
  fields ← iterate fuel (fun '(names, values, spread) =>
    p ← looks id;
    if at_token p TOK_RBRACE || at_token p TOK_EOF then mret (inr (names, values, spread))
    else skip_newlines ;; last ← check TOK_RBRACE;
         if last : bool then mret (inr (names, values, spread))
         else dots ← match_ TOK_SPREAD;
              if dots : bool then
                e ← parse_expression; skip_newlines ;; last ← check TOK_RBRACE;
                (if last : bool then mret false else match_ TOK_COMMA) ;; mret (inl (names, values, e))
              else
                consume TOK_IDENT "expected field name" ;; field ← prev_name; consume TOK_COLON "expected ':' after field name" ;;
                skip_newlines ;; v ← parse_expression; skip_newlines ;; last ← check TOK_RBRACE;
                (if last : bool then mret tt
                 else m ← match_ TOK_COMMA; if m : bool then mret tt else skip_newlines) ;;
                mret (inl (names ++ [field], values ++ [child v], spread))) ([], [], None);
  consume TOK_RBRACE "expected '}' after struct fields" ;;
  mret (Some (NODE_STRUCT_INIT line (take 255 name) fields.1.1 fields.1.2 fields.2)).

Definition parse_infix (left : AstNode) (op : TokenType) : P (option AstNode) :=
  line ← prev_line;
  let prec := get_precedence op in
  match op with
  | TOK_ASSIGN | TOK_PLUS_ASSIGN | TOK_MINUS_ASSIGN | TOK_STAR_ASSIGN | TOK_SLASH_ASSIGN =>
      v ← parse (Precedence prec); mret (Some (NODE_ASSIGN line left op (child v)))
  | TOK_QUESTION =>
      x ← parse_expression; consume TOK_COLON "expected ':' in ternary expression" ;; y ← parse (Precedence prec);
      mret (Some (NODE_TERNARY line left (child x) (child y)))
  | TOK_RANGE | TOK_RANGE_INCL =>
      e ← parse (Precedence (prec + 1)); mret (Some (NODE_RANGE line left (child e) (bool_decide (op = TOK_RANGE_INCL))))
  | _ => r ← parse (Precedence (prec + 1)); mret (Some (NODE_BINARY line op left (child r)))
  end.

(** A name that starts a struct: [{] behind anything else starts a block. *)
Definition starts_struct (left : AstNode) : option (list Z) :=
  match left with
  | NODE_IDENT _ name =>
      let c := default 0 (head name) in if (c <? ch "A") || (ch "Z" <? c) then None else Some name
  | _ => None
  end.

(** What follows an operand. *)
Definition parse_postfix (left : AstNode) (op : TokenType) : P (option AstNode) :=
  match op with
  | TOK_LPAREN => parse_call left
  | TOK_DOT => parse_member left
  | TOK_LBRACKET => parse_index left
  | TOK_LBRACE => match starts_struct left with Some name => parse_struct_init name | None => mret None end
  | _ => parse_infix left op
  end.

(** A round of the loop over operators. *)
Definition parse_operator (min_prec : Z) (left : AstNode) : P (AstNode + option AstNode) :=
  p ← looks id;
  let op := type (cur p) in
  if parse_failed p || (get_precedence op <? min_prec) ||
     (bool_decide (op = TOK_LBRACE) && negb (bool_decide (is_Some (starts_struct left))))
  then mret (inr (Some left))
  else advance ;; e ← parse_postfix left op; mret (match e with Some e => inl e | None => inr None end).
Definition parse_operators (min_prec : Z) (left : AstNode) : P (option AstNode) := iterate fuel (parse_operator min_prec) left.

Definition parse_precedence (min_prec : Z) : P (option AstNode) :=
  changes (fun p => add_depth p 1) ;; d ← looks depth;
  if MAX_PARSE_DEPTH <? d then error "expression too deeply nested" ;; changes (fun p => add_depth p (-1)) ;; mret None
  else first ← parse_primary;
       e ← match first with Some e => parse_operators min_prec e | None => mret None end;
       changes (fun p => add_depth p (-1)) ;; mret e.

(** ** Types *)

(** A generic type: [None] after an error. *)
Definition parse_type_args (message : string) (k : P (option AstNode)) : P (option AstNode) :=
  m ← match_ TOK_LT; if m : bool then k else error message ;; mret None.
Definition parse_two_types (comma closing : string) (node : AstNode -> AstNode -> AstNode) : P (option AstNode) :=
  a ← parse Type_; consume TOK_COMMA comma ;; b ← parse Type_; consume TOK_GT closing ;; mret (Some (node (child a) (child b))).
Definition type_list : P (list AstNode) := comma_separated (fun ts => t ← parse Type_; mret (ts ++ [child t])) [].

Definition parse_array_type (line : Z) : P (option AstNode) :=
  e ← parse Type_; consume TOK_RBRACKET "expected ']' after array element type" ;; mret (Some (NODE_TYPE_ARRAY line (child e))).
Definition parse_fn_type (line : Z) : P (option AstNode) :=
  consume TOK_LPAREN "expected '(' in function type" ;; empty ← check TOK_RPAREN;
  params ← (if empty : bool then mret [] else type_list);
  consume TOK_RPAREN "expected ')' after function parameter types" ;; arrow ← match_ TOK_ARROW;
  ret ← (if arrow : bool then parse Type_ else mret None);
  mret (Some (NODE_TYPE_FUNC line params ret)).
Definition parse_named_type (line : Z) : P (option AstNode) :=
  name ← prev_text; generic ← match_ TOK_LT;
  if generic : bool then
    args ← type_list; consume TOK_GT "expected '>' after generic type parameters" ;; mret (Some (NODE_TYPE_GENERIC line name args))
  else mret (Some (NODE_TYPE_NAME line name)).

Definition parse_type_body : P (option AstNode) :=
  line ← looks (fun p => tok_line (cur p)); t ← looks (fun p => type (cur p));
  match t with
  | TOK_LBRACKET => advance ;; parse_array_type line
  | TOK_FN => advance ;; parse_fn_type line
  | TOK_TYPE_OPTION =>
      advance ;; parse_type_args "expected '<' after Option"
        (e ← parse Type_; consume TOK_GT "expected '>' after Option type parameter" ;;
         mret (Some (NODE_TYPE_GENERIC line (chars "Option") [child e])))
  | TOK_TYPE_RESULT =>
      advance ;; parse_type_args "expected '<' after Result"
        (parse_two_types "expected ',' in Result<T, E>" "expected '>' after Result type parameters"
           (fun a b => NODE_TYPE_GENERIC line (chars "Result") [a; b]))
  | TOK_TYPE_MAP =>
      advance ;; parse_type_args "expected '<' after map"
        (parse_two_types "expected ',' in map<K, V>" "expected '>' after map type parameters" (NODE_TYPE_MAP line))
  | TOK_IDENT => advance ;; parse_named_type line
  | _ =>
      match type_name type_names t with
      | Some name => advance ;; mret (Some (NODE_TYPE_NAME line name))
      | None => error_at_current "expected type" ;; mret None
      end
  end.
Definition parse_type : P (option AstNode) :=
  changes (fun p => add_depth p 1) ;; d ← looks depth;
  if MAX_PARSE_DEPTH <? d then error "type nesting too deep" ;; changes (fun p => add_depth p (-1)) ;; mret None
  else e ← parse_type_body; changes (fun p => add_depth p (-1)) ;; mret e.
Definition parse_annotation : P (option AstNode) :=
  m ← match_ TOK_COLON; if m : bool then parse Type_ else mret None.

(** ** Statements *)

Definition parse_let_stmt (is_const : bool) : P (option AstNode) :=
  line ← prev_line;
  is_mutable ← (if is_const then mret false else match_ TOK_MUT);
  consume TOK_IDENT "expected variable name" ;; name ← prev_text; type_ann ← parse_annotation;
  consume TOK_ASSIGN "expected '=' after variable name" ;; v ← parse_expression;
  mret (Some (if is_const then NODE_CONST line name type_ann (child v) is_mutable
              else NODE_LET line name type_ann (child v) is_mutable)).

Definition parse_if_stmt : P (option AstNode) :=
  line ← prev_line; c ← parse_expression; x ← parse Block_; skip_newlines ;;
  has_else ← match_ TOK_ELSE;
  y ← (if has_else : bool then
         skip_newlines ;; chain ← match_ TOK_IF;
         e ← (if chain : bool then parse IfStmt else parse Block_); mret (Some (child e))
       else mret None);
  mret (Some (NODE_IF line (child c) (child x) y)).

Definition parse_while_stmt : P (option AstNode) :=
  line ← prev_line; c ← parse_expression; b ← parse Block_; mret (Some (NODE_WHILE line (child c) (child b))).

Definition parse_for_stmt : P (option AstNode) :=
  line ← prev_line; consume TOK_IDENT "expected variable name" ;; var ← prev_text;
  m ← match_ TOK_COMMA;
  index_var ← (if m : bool then consume TOK_IDENT "expected index variable name" ;; s ← prev_text; mret (Some s) else mret None);
  consume TOK_IN "expected 'in' after variable" ;; it ← parse_expression; b ← parse Block_;
  mret (Some (NODE_FOR line var index_var (child it) (child b))).

Definition parse_return_stmt : P (option AstNode) :=
  line ← prev_line; p ← looks id;
  v ← (if at_token p TOK_NEWLINE || at_token p TOK_RBRACE || at_token p TOK_EOF then mret None
       else e ← parse_expression; mret (Some (child e)));
  mret (Some (NODE_RETURN line v)).

(** A loop up to a closing brace or the end of the source. *)
Definition until_brace {A} (item : A -> P A) (x : A) : P A :=
  iterate fuel (fun x =>
    p ← looks id;
    if at_token p TOK_RBRACE || at_token p TOK_EOF then mret (inr x) else y ← item x; mret (inl y)) x.

Definition parse_block : P (option AstNode) :=
  skip_newlines ;; consume TOK_LBRACE "expected '{'" ;; skip_newlines ;; line ← prev_line;
  ss ← until_brace (fun ss => s ← parse Statement; skip_newlines ;; mret (ss ++ option_list s)) [];
  consume TOK_RBRACE "expected '}'" ;; mret (Some (NODE_BLOCK line ss)).

(** [(name)] behind a pattern. *)
Definition parse_binding : P (option (list Z)) :=
  consume TOK_IDENT "expected binding name" ;; s ← prev_text; consume TOK_RPAREN "expected ')' after binding name" ;; mret (Some s).
(** The kind of a pattern, its variable and its variant; [None] after an error. *)
Definition parse_pattern : P (option (MatchPattern * option (list Z) * option (list Z))) :=
  t ← looks (fun p => type (cur p));
  let bound kind : P (option (MatchPattern * option (list Z) * option (list Z))) :=
    advance ;; consume TOK_LPAREN "expected '(' after pattern keyword" ;; b ← parse_binding; mret (Some (kind, b, None)) in
  match t with
  | TOK_OK => bound MATCH_PATTERN_OK
  | TOK_ERR => bound MATCH_PATTERN_ERR
  | TOK_SOME => bound MATCH_PATTERN_SOME
  | TOK_NONE => advance ;; mret (Some (MATCH_PATTERN_NONE, None, None))
  | TOK_IDENT =>
      advance ;; variant ← prev_text; m ← match_ TOK_LPAREN;
      b ← (if m : bool then parse_binding else mret None); mret (Some (MATCH_PATTERN_ENUM, b, Some variant))
  | _ => error_at_current "expected pattern in match arm" ;; mret None
  end.
Definition parse_arm_body : P (option AstNode) :=
  m ← match_ TOK_RETURN;
  if m : bool then parse ReturnStmt
  else b ← check TOK_LBRACE; if b : bool then parse Block_ else parse_expression.

Definition parse_match_expr : P (option AstNode) :=
  line ← prev_line; e ← parse_expression; skip_newlines ;;
  consume TOK_LBRACE "expected '{' after match expression" ;; skip_newlines ;;
  arms ← iterate fuel (fun arms =>
    p ← looks id;
    if at_token p TOK_RBRACE || at_token p TOK_EOF then mret (inr (Some arms))
    else skip_newlines ;; last ← check TOK_RBRACE;
         if last : bool then mret (inr (Some arms))
         else arm_line ← looks (fun p => tok_line (cur p)); pattern ← parse_pattern;
              match pattern with
              | None => mret (inr None)
              | Some (kind, binding, variant) =>
                  consume TOK_FAT_ARROW "expected '=>' after pattern" ;; body ← parse_arm_body;
                  skip_newlines ;; match_ TOK_COMMA ;; skip_newlines ;;
                  mret (inl (arms ++ [NODE_MATCH_ARM arm_line kind binding variant (child body)]))
              end) [];
  match arms with
  | None => mret None
  | Some arms => consume TOK_RBRACE "expected '}' after match arms" ;; mret (Some (NODE_MATCH line (child e) arms))
  end.

Definition parse_statement : P (option AstNode) :=
  skip_newlines ;; t ← looks (fun p => type (cur p));
  match t with
  | TOK_LET => advance ;; parse_let_stmt false
  | TOK_CONST => advance ;; parse_let_stmt true
  | TOK_IF => advance ;; parse IfStmt
  | TOK_WHILE => advance ;; parse_while_stmt
  | TOK_FOR => advance ;; parse_for_stmt
  | TOK_RETURN => advance ;; parse ReturnStmt
  | TOK_BREAK => advance ;; l ← prev_line; mret (Some (NODE_BREAK l))
  | TOK_CONTINUE => advance ;; l ← prev_line; mret (Some (NODE_CONTINUE l))
  | _ => e ← parse_expression; mret (match e with Some e => Some (NODE_EXPR_STMT (node_line e) e) | None => None end)
  end.

Definition run_task (t : task) : P (option AstNode) :=
  match t with
  | Precedence n => parse_precedence n
  | Type_ => parse_type
  | Block_ => parse_block
  | Statement => parse_statement
  | IfStmt => parse_if_stmt
  | MatchExpr => parse_match_expr
  | ReturnStmt => parse_return_stmt
  end.
End grammar.

(** The recursive calls; a loop inside of them may make as many rounds. *)
Fixpoint parse (fuel : nat) (t : task) : P (option AstNode) :=
  match fuel with O => stuck | S fuel => run_task fuel (parse fuel) t end.

(** ** Declarations *)

Section declarations.
Context (fuel : nat).
Notation type_ := (parse fuel Type_).
Notation expression := (parse_expression (parse fuel)).

Definition parse_struct_decl : P (option AstNode) :=
  line ← prev_line; consume TOK_IDENT "expected struct name" ;; name ← prev_name;
  skip_newlines ;; consume TOK_LBRACE "expected '{' after struct name" ;; skip_newlines ;;
  fields ← until_brace fuel (fun fs =>
    consume TOK_IDENT "expected field name" ;; field ← prev_name; consume TOK_COLON "expected ':' after field name" ;;
    t ← type_; l ← prev_line; skip_newlines ;; last ← check TOK_RBRACE;
    (if last : bool then mret tt else match_ TOK_COMMA ;; skip_newlines) ;;
    mret (fs ++ [NODE_STRUCT_FIELD l field t])) [];
  consume TOK_RBRACE "expected '}' after struct fields" ;; mret (Some (NODE_STRUCT_DECL line name fields)).

Definition parse_enum_decl : P (option AstNode) :=
  line ← prev_line; consume TOK_IDENT "expected enum name" ;; name ← prev_name;
  skip_newlines ;; consume TOK_LBRACE "expected '{' after enum name" ;; skip_newlines ;;
  variants ← iterate fuel (fun vs =>
    p ← looks id;
    if at_token p TOK_RBRACE || at_token p TOK_EOF || parse_failed p then mret (inr vs)
    else consume TOK_IDENT "expected variant name" ;; failed ← looks parse_failed;
         if failed : bool then mret (inr vs)
         else variant ← prev_name; m ← match_ TOK_LPAREN;
              payload ← (if m : bool then t ← type_; consume TOK_RPAREN "expected ')' after variant payload type" ;; mret t else mret None);
              l ← prev_line; skip_newlines ;; last ← check TOK_RBRACE;
              (if last : bool then mret tt else match_ TOK_COMMA ;; skip_newlines) ;;
              mret (inl (vs ++ [NODE_ENUM_VARIANT l variant payload]))) [];
  consume TOK_RBRACE "expected '}' after enum variants" ;; mret (Some (NODE_ENUM_DECL line name variants)).

Definition parse_type_alias : P (option AstNode) :=
  line ← prev_line; consume TOK_IDENT "expected type alias name" ;; name ← prev_name;
  consume TOK_ASSIGN "expected '=' after type alias name" ;; t ← type_; mret (Some (NODE_TYPE_ALIAS line name t)).

Definition parse_import : P (option AstNode) :=
  line ← prev_line; selective ← check TOK_LBRACE;
  if selective : bool then
    advance ;;
    names ← iterate fuel (fun ns =>
      skip_newlines ;; last ← check TOK_RBRACE;
      if last : bool then mret (inr ns)
      else consume TOK_IDENT "expected identifier in import list" ;; n ← prev_text; skip_newlines ;; m ← match_ TOK_COMMA;
           mret (if m : bool then inl (ns ++ [n]) else inr (ns ++ [n]))) [];
    consume TOK_RBRACE "expected '}' after import names" ;; consume TOK_FROM "expected 'from' after import names" ;;
    consume TOK_STRING "expected module path string" ;; path ← prev_unquoted; mret (Some (NODE_IMPORT_FROM line names path))
  else consume TOK_STRING "expected module path string" ;; path ← prev_unquoted; mret (Some (NODE_IMPORT line path)).

Definition parse_param : P AstNode :=
  consume TOK_IDENT "expected parameter name" ;; l ← prev_line; name ← prev_text; t ← parse_annotation (parse fuel);
  mret (NODE_PARAM l name t).

Definition parse_fn_decl (is_tool : bool) : P (option AstNode) :=
  line ← prev_line; consume TOK_IDENT "expected function name" ;; name ← prev_text;
  consume TOK_LPAREN "expected '(' after function name" ;; empty ← check TOK_RPAREN;
  params ← (if empty : bool then mret [] else comma_separated fuel (fun ps => q ← parse_param; mret (ps ++ [q])) []);
  consume TOK_RPAREN "expected ')' after parameters" ;; arrow ← match_ TOK_ARROW;
  ret ← (if arrow : bool then type_ else mret None);
  body ← parse fuel Block_;
  mret (Some (if is_tool then NODE_TOOL_DECL line name params ret (child body) None None
              else NODE_FN_DECL line name params ret (child body) None None)).

(** [@tool(description: .., params: ..)]: a description that is not a string
    takes [length - 2] bytes of the token in front of it. *)
Definition parse_decorator_args : P (option (list Z) * option AstNode) :=
  iterate fuel (fun '(description, params_map) =>
    p ← looks id;
    if at_token p TOK_RPAREN || at_token p TOK_EOF then mret (inr (description, params_map))
    else consume TOK_IDENT "expected decorator key" ;; key ← prev_text;
         consume TOK_COLON "expected ':' after decorator key" ;; skip_newlines ;;
         r ← (if bool_decide (key = chars "description") then
                consume TOK_STRING "expected string for description" ;; s ← prev_unquoted; mret (Some s, params_map)
              else e ← expression; mret (description, if bool_decide (key = chars "params") then e else params_map));
         skip_newlines ;; m ← match_ TOK_COMMA;
         if m : bool then skip_newlines ;; mret (inl r) else mret (inr r)) (None, None).
Definition decorate (fn : AstNode) (description : option (list Z)) (params_map : option AstNode) : AstNode :=
  match fn with
  | NODE_TOOL_DECL line name params ret body _ _ => NODE_TOOL_DECL line name params ret body description params_map
  | _ => fn
  end.
Definition parse_tool_decorator : P (option AstNode) :=
  m ← match_ TOK_LPAREN;
  r ← (if m : bool then
         skip_newlines ;; r ← parse_decorator_args; consume TOK_RPAREN "expected ')' after decorator arguments" ;; mret r
       else mret (None, None));
  skip_newlines ;; f ← match_ TOK_FN;
  if f : bool then fn ← parse_fn_decl true; mret (match fn with Some fn => Some (decorate fn r.1 r.2) | None => None end)
  else error_at_current "expected 'fn' after @tool decorator" ;; mret None.

Definition parse_export : P (option AstNode) :=
  line ← prev_line; t ← looks (fun p => type (cur p));
  let exported (k : P (option AstNode)) : P (option AstNode) := advance ;; d ← k; mret (Some (NODE_EXPORT line (child d))) in
  match t with
  | TOK_FN => exported (parse_fn_decl false)
  | TOK_TOOL => exported (parse_fn_decl true)
  | TOK_LET => exported (parse_let_stmt (parse fuel) false)
  | TOK_CONST => exported (parse_let_stmt (parse fuel) true)
  | TOK_STRUCT => exported parse_struct_decl
  | TOK_ENUM => exported parse_enum_decl
  | TOK_ALIAS => exported parse_type_alias
  | _ => error_at_current "expected declaration after 'export'" ;; mret None
  end.

Definition parse_declaration : P (option AstNode) :=
  skip_newlines ;; t ← looks (fun p => type (cur p));
  match t with
  | TOK_AT =>
      advance ;; m ← match_ TOK_TOOL;
      if m : bool then parse_tool_decorator else error_at_current "expected 'tool' after '@'" ;; mret None
  | TOK_IMPORT => advance ;; parse_import
  | TOK_EXPORT => advance ;; parse_export
  | TOK_TOOL => advance ;; parse_fn_decl true
  | TOK_FN => advance ;; parse_fn_decl false
  | TOK_STRUCT => advance ;; parse_struct_decl
  | TOK_ENUM => advance ;; parse_enum_decl
  | TOK_ALIAS => advance ;; parse_type_alias
  | _ => parse fuel Statement
  end.

(** ** The whole source *)

Definition parse_decls : P (list AstNode) :=
  iterate fuel (fun ds =>
    eof ← check TOK_EOF;
    if eof : bool then mret (inr ds)
    else d ← parse_declaration; panicking ← looks panic_mode; (if panicking : bool then synchronize else mret tt) ;;
         skip_newlines ;; mret (inl (ds ++ option_list d))) [].

(** [None] after an error. *)
Definition parser_parse : P (option AstNode) :=
  skip_newlines ;; ds ← parse_decls; failed ← looks parse_failed;
  mret (if failed : bool then None else Some (NODE_PROGRAM 1 ds)).
End declarations.

(** [garbage] is what the token in front of the first one happens to be. *)
Definition parser_new (garbage : Token) (ts : list Token) : Parser :=
  match advance (mkParser ts garbage garbage None false false 0) with Parsed _ p => p | _ => mkParser ts garbage garbage None false false 0 end.

Inductive ParseResult := Tree (ast : AstNode) | SyntaxError (e : option ParseError) | NoResult | ParserCrash.
Definition parse_source (fuel : nat) (garbage : Token) (source : list Z) : ParseResult :=
  match parser_parse fuel (parser_new garbage (tokens source)) with
  | Parsed (Some ast) _ => Tree ast
  | Parsed None p => SyntaxError (error_text p)
  | Stuck => NoResult
  | Crashed => ParserCrash
  end.

Definition no_token : Token := mkToken TOK_ERROR [] 0 0.

(** ** Expressions: what is written is read

    [written m r d s e ts]: the tokens [ts] are a way to write the expression [e].
    Its operators outside of brackets bind at least as tightly as [m]; an operator
    behind it that binds less tightly than [r] is not taken for a part of its last
    operand; [d] is how deep it nests; [s] counts the operators from its first operand on. *)

Definition assigns (op : TokenType) : bool :=
  match op with TOK_ASSIGN | TOK_PLUS_ASSIGN | TOK_MINUS_ASSIGN | TOK_STAR_ASSIGN | TOK_SLASH_ASSIGN => true | _ => false end.
Definition is_binary (op : TokenType) : bool :=
  match op with
  | TOK_OR | TOK_AND | TOK_EQ | TOK_NE | TOK_LT | TOK_LE | TOK_GT | TOK_GE | TOK_PLUS | TOK_MINUS | TOK_STAR | TOK_SLASH
  | TOK_PERCENT => true
  | _ => false
  end.

(** The node of an infix operator and the level of its right operand. *)
Definition infix_node (op : Token) (x y : AstNode) : option (AstNode * Z) :=
  let t := type op in let l := tok_line op in
  if assigns t then Some (NODE_ASSIGN l x t y, get_precedence t)
  else if is_binary t then Some (NODE_BINARY l t x y, get_precedence t + 1)
  else match t with
       | TOK_RANGE => Some (NODE_RANGE l x y false, get_precedence t + 1)
       | TOK_RANGE_INCL => Some (NODE_RANGE l x y true, get_precedence t + 1)
       | _ => None
       end.

(** The node of an operand of one token. *)
Definition atom_node (t : Token) : option AstNode :=
  match type t with
  | TOK_TRUE => Some (NODE_BOOL (tok_line t) true)
  | TOK_FALSE => Some (NODE_BOOL (tok_line t) false)
  | TOK_NIL => Some (NODE_NIL (tok_line t))
  | TOK_NONE => Some (NODE_NONE (tok_line t))
  | TOK_INT => Some (NODE_INT (tok_line t) (strtoll (number_text t)))
  | TOK_FLOAT => Some (NODE_FLOAT (tok_line t) (strtod (number_text t)))
  | TOK_IDENT => Some (NODE_IDENT (tok_line t) (text t))
  | TOK_STRING => if (length (text t) <? 2)%nat then None else Some (NODE_STRING (tok_line t) (unescape (unquoted t)))
  | _ => None
  end.

Inductive written : Z -> Z -> Z -> nat -> AstNode -> list Token -> Prop :=
  | written_atom t e : atom_node t = Some e -> written 12 12 0 0 e [t]
  | written_group a b m r d s e ts : type a = TOK_LPAREN -> type b = TOK_RPAREN -> 1 <= m -> 1 <= r ->
      written m r d s e ts -> written 12 12 (d + 1) 0 e (a :: ts ++ [b])
  | written_unary a m r d s e ts : type a = TOK_MINUS \/ type a = TOK_NOT -> 10 <= m -> written m r d s e ts ->
      written 12 (Z.min 10 r) (d + 1) 0 (NODE_UNARY (tok_line a) (type a) e) (a :: ts)
  | written_infix a k mx rx dx sx x tx my ry dy sy y ty e : infix_node a x y = Some (e, k) ->
      written mx rx dx sx x tx -> get_precedence (type a) <= mx -> get_precedence (type a) < rx ->
      written my ry dy sy y ty -> k <= my ->
      written (get_precedence (type a)) (Z.min k ry) (Z.max dx (dy + 1)) (S sx) e (tx ++ a :: ty)
  | written_ternary a c mx rx dx sx x tx my ry dy sy y ty mz rz dz sz z tz : type a = TOK_QUESTION -> type c = TOK_COLON ->
      written mx rx dx sx x tx -> 3 <= mx -> 3 < rx -> written my ry dy sy y ty -> 1 <= my -> 1 <= ry ->
      written mz rz dz sz z tz -> 3 <= mz ->
      written 3 (Z.min 3 rz) (Z.max dx (Z.max (dy + 1) (dz + 1))) (S sx) (NODE_TERNARY (tok_line a) x y z) (tx ++ a :: ty ++ c :: tz)
  | written_member a b mx rx dx sx x tx : type a = TOK_DOT -> type b = TOK_IDENT ->
      written mx rx dx sx x tx -> 11 <= mx -> 11 < rx ->
      written 11 12 dx (S sx) (NODE_MEMBER (tok_line a) x (text b)) (tx ++ [a; b])
  | written_index a b mx rx dx sx x tx my ry dy sy y ty : type a = TOK_LBRACKET -> type b = TOK_RBRACKET ->
      written mx rx dx sx x tx -> 11 <= mx -> 11 < rx -> written my ry dy sy y ty -> 1 <= my -> 1 <= ry ->
      written 11 12 (Z.max dx (dy + 1)) (S sx) (NODE_INDEX (tok_line a) x y) (tx ++ a :: ty ++ [b])
  | written_call a b mx rx dx sx x tx da args ta : type a = TOK_LPAREN -> type b = TOK_RPAREN ->
      written mx rx dx sx x tx -> 11 <= mx -> 11 < rx -> written_args da args ta ->
      written 11 12 (Z.max dx (da + 1)) (S sx) (NODE_CALL (tok_line a) x args) (tx ++ a :: ta ++ [b])
(** Arguments, with commas between them. *)
with written_args : Z -> list AstNode -> list Token -> Prop :=
  | written_no_args : written_args 0 [] []
  | written_some_args m r d s e ts dr es tr : written m r d s e ts -> 1 <= m -> 1 <= r -> written_more dr es tr ->
      written_args (Z.max d dr) (e :: es) (ts ++ tr)
with written_more : Z -> list AstNode -> list Token -> Prop :=
  | written_last : written_more 0 [] []
  | written_next c m r d s e ts dr es tr : type c = TOK_COMMA -> written m r d s e ts -> 1 <= m -> 1 <= r -> written_more dr es tr ->
      written_more (Z.max d dr) (e :: es) (c :: ts ++ tr).

Scheme written_rec := Minimality for written Sort Prop
  with written_args_rec := Minimality for written_args Sort Prop
  with written_more_rec := Minimality for written_more Sort Prop.
Combined Scheme written_ind3 from written_rec, written_args_rec, written_more_rec.

(** *** States that are about to read given tokens *)

Record reading (d : Z) (p : Parser) (ts : list Token) : Prop := {
  rd_cur : exists t rest, ts = t :: rest /\ cur p = t /\ (type t = TOK_EOF \/ lexer p = rest);
  rd_ok : parse_failed p = false /\ panic_mode p = false;
  rd_depth : depth p = d
}.

Definition begins (ts : list Token) : Prop := exists t rest, ts = t :: rest /\ type t <> TOK_ERROR.

Lemma advance_reads d p a ts : reading d p (a :: ts) -> type a <> TOK_EOF -> begins ts ->
  exists p', advance p = Parsed tt p' /\ reading d p' ts /\ previous p' = a.
Proof.
  intros [(t & r & [= <- <-] & Hc & Hl) Hok Hd] Ha (b & rest & -> & Hb). destruct Hl as [|Hl]; [done|].
  unfold advance, changes. rewrite Hl.
  assert (Hp : pull (cur p) (b :: rest) = ([], b, match type b with TOK_EOF => [b] | _ => rest end)) by (simpl; by destruct (type b)).
  rewrite Hp. simpl. eexists. split; [done|]. split; [|done]. split; simpl; [|done|done].
  exists b, rest. split_and!; [done..|]. destruct (type b); auto.
Qed.

Lemma reading_token d p a rest t : reading d p (a :: rest) -> at_token p t = bool_decide (type a = t).
Proof. intros [(u & r & [= <- <-] & Hc & _) _ _]. unfold at_token. by rewrite Hc. Qed.
Lemma reading_cur d p a rest : reading d p (a :: rest) -> cur p = a.
Proof. intros [(u & r & [= <- <-] & Hc & _) _ _]. done. Qed.

Lemma consume_reads d p a ts t msg : reading d p (a :: ts) -> type a = t -> t <> TOK_EOF -> begins ts ->
  exists p', consume t msg p = Parsed tt p' /\ reading d p' ts /\ previous p' = a.
Proof.
  intros H <- Ht Hb. unfold consume. rewrite (reading_token _ _ _ _ _ H), bool_decide_true by done. by eapply advance_reads.
Qed.
Lemma match_reads d p a ts t : reading d p (a :: ts) -> type a = t -> t <> TOK_EOF -> begins ts ->
  exists p', match_ t p = Parsed true p' /\ reading d p' ts /\ previous p' = a.
Proof.
  intros H <- Ht Hb. unfold match_. rewrite (reading_token _ _ _ _ _ H), bool_decide_true by done.
  destruct (advance_reads _ _ _ _ H Ht Hb) as (p' & E & H'). exists p'. split; [|done]. unfold mbind, P_bind. by rewrite E.
Qed.
Lemma match_other d p a rest t : reading d p (a :: rest) -> type a <> t -> match_ t p = Parsed false p.
Proof. intros H Ht. unfold match_. by rewrite (reading_token _ _ _ _ _ H), bool_decide_false. Qed.
Lemma skip_other p : type (cur p) <> TOK_NEWLINE -> skip_newlines p = Parsed tt p.
Proof.
  intros Ht. assert (E : match_ TOK_NEWLINE p = Parsed false p) by (unfold match_, at_token; by rewrite bool_decide_false).
  unfold skip_newlines, mbind, P_bind, looks. simpl. unfold mbind, P_bind. by rewrite E.
Qed.
Lemma skip_none d p a rest : reading d p (a :: rest) -> type a <> TOK_NEWLINE -> skip_newlines p = Parsed tt p.
Proof. intros H Ht. apply skip_other. by rewrite (reading_cur _ _ _ _ H). Qed.
Lemma skip_one d p a b rest : reading d p (a :: b :: rest) -> type a = TOK_NEWLINE -> type b <> TOK_ERROR -> type b <> TOK_NEWLINE ->
  exists p', skip_newlines p = Parsed tt p' /\ reading d p' (b :: rest) /\ previous p' = a.
Proof.
  intros H Ha Hb Hb'. destruct (match_reads _ _ _ _ TOK_NEWLINE H Ha ltac:(done)) as (p' & E & H' & Hp); [by exists b, rest|].
  exists p'. split_and!; [|done..]. assert (Hl : lexer p = b :: rest).
  { destruct H as [(t & r & [= <- <-] & _ & [He | Hl]) _ _]; [by rewrite Ha in He|done]. }
  unfold skip_newlines, mbind, P_bind, looks. rewrite Hl. simpl. unfold mbind, P_bind. rewrite E. by rewrite (match_other _ _ _ _ _ H' Hb').
Qed.
Lemma skip_step d p a ts : reading d p (a :: ts) -> type a = TOK_NEWLINE -> begins ts ->
  exists p', skip_newlines p = skip_newlines p' /\ reading d p' ts /\ previous p' = a.
Proof.
  intros H Ha Hb. destruct (match_reads _ _ _ _ TOK_NEWLINE H Ha ltac:(done) Hb) as (p' & E & H' & Hp).
  exists p'. split_and!; [|done..]. assert (Hl : lexer p = ts).
  { destruct H as [(t & r & [= <- <-] & _ & [He | Hl]) _ _]; [by rewrite Ha in He|done]. }
  assert (Es : skip_newlines p = skip_newlines_loop (length ts) p').
  { unfold skip_newlines, mbind, P_bind, looks. rewrite Hl. simpl. unfold mbind, P_bind. by rewrite E. }
  rewrite Es. destruct (rd_cur _ _ _ H') as (b & rest & -> & Hc & [Heof|Hl']).
  - rewrite (skip_none _ _ _ _ H') by (by rewrite Heof). simpl. unfold mbind, P_bind. rewrite (match_other _ _ _ _ _ H') by (by rewrite Heof). done.
  - unfold skip_newlines, mbind, P_bind, looks. by rewrite Hl'.
Qed.
Lemma bind_parsed {A B} (m : P A) (k : A -> P B) p x p' : m p = Parsed x p' -> (m ≫= k) p = k x p'.
Proof. intros E. unfold mbind, P_bind. by rewrite E. Qed.

(** The token behind an expression. *)
Definition follows (t : Token) : Prop := type t <> TOK_ERROR /\ type t <> TOK_COLON_COLON /\ type t <> TOK_LBRACE.

#[local] Opaque advance match_ consume skip_newlines parse iterate.
Ltac runs := unfold mbind, P_bind, mret, P_ret, looks, changes, prev_line, prev_text, check in *; simpl.

Lemma primary_atom n prs d p t e u rest : reading d p (t :: u :: rest) -> atom_node t = Some e -> follows u ->
  exists p', parse_primary n prs p = Parsed (Some e) p' /\ reading d p' (u :: rest).
Proof.
  intros H He (Hu & Hc & _).
  assert (Ht : type t <> TOK_EOF) by (intros E; unfold atom_node in He; by rewrite E in He).
  destruct (advance_reads _ _ _ _ H Ht) as (p1 & E1 & H1 & Hp); [by exists u, rest|]. exists p1. split; [|done].
  unfold parse_primary. runs. rewrite (reading_cur _ _ _ _ H).
  unfold atom_node in He; destruct (type t) eqn:Et; try discriminate He; rewrite E1; runs; try (rewrite Hp; by injection He as <-).
  - unfold parse_number, prev. runs. rewrite Hp, Et. by injection He as <-.
  - unfold parse_number, prev. runs. rewrite Hp, Et. by injection He as <-.
  - unfold parse_string, prev, prev_unquoted. runs. rewrite Hp.
    destruct (length (text t) <? 2)%nat; [done|]. by injection He as <-.
  - unfold parse_identifier, prev. runs. rewrite (match_other _ _ _ _ _ H1 Hc), Hp. by injection He as <-.
Qed.

(** *** Precedence climbing *)

Definition resumed (n : nat) (k : Z) (j : nat) (first : option AstNode) : P (option AstNode) :=
  match first with Some e => iterate j (parse_operator n (parse n) k) e | None => mret None end.

(** Read from the start of [ts], an operand and then [s] operators give [e]. *)
Definition climbs (m r d : Z) (s : nat) (e : AstNode) (ts : list Token) : Prop :=
  forall n k D p t rest j, (length ts <= n)%nat -> k <= m -> D + d <= MAX_PARSE_DEPTH -> reading D p (ts ++ t :: rest) ->
  follows t -> get_precedence (type t) < r ->
  exists p', (parse_primary n (parse n) ≫= resumed n k (s + j)) p = iterate j (parse_operator n (parse n) k) e p' /\
    reading D p' (t :: rest).

(** The state of a parser one level deeper. *)
Lemma reading_deeper d p ts n : reading d p ts -> reading (d + n) (add_depth p n) ts.
Proof. intros [Hc Hok Hd]. split; [done|done|]. simpl. by rewrite Hd. Qed.

Lemma operator_stops n prs k e d p t rest : reading d p (t :: rest) -> get_precedence (type t) < k ->
  parse_operator n prs k e p = Parsed (inr (Some e)) p.
Proof.
  intros H Hk. unfold parse_operator. runs. rewrite (reading_cur _ _ _ _ H). apply Z.ltb_lt in Hk. rewrite Hk.
  by rewrite orb_true_r.
Qed.
Lemma operator_takes n prs k e d p a ts : reading d p (a :: ts) -> type a <> TOK_EOF -> type a <> TOK_LBRACE ->
  k <= get_precedence (type a) -> begins ts ->
  exists p', reading d p' ts /\ previous p' = a /\
    parse_operator n prs k e p = (r ← parse_postfix n prs e (type a); mret (match r with Some e => inl e | None => inr None end)) p'.
Proof.
  intros H He Hb Hk Hn. destruct (advance_reads _ _ _ _ H He Hn) as (p' & E & H' & Hp). exists p'. split_and!; [done..|].
  unfold parse_operator. runs. rewrite (reading_cur _ _ _ _ H), (bool_decide_false (type a = TOK_LBRACE)) by done.
  destruct (rd_ok _ _ _ H) as [-> _]. rewrite (proj2 (Z.ltb_ge _ _) Hk). simpl. by rewrite E.
Qed.

Lemma iterate_S {A B} n (round : A -> P (A + B)) x p :
  iterate (S n) round x p =
  match round x p with
  | Parsed (inl x) p => iterate n round x p | Parsed (inr y) p => Parsed y p | Stuck => Stuck | Crashed => Crashed
  end.
Proof. Transparent iterate. simpl. runs. by destruct (round x p) as [[]| |]. Qed.
#[local] Opaque iterate.

(** An operand, up to a token that binds less tightly. *)
Lemma climbs_operand m r d s e ts n k D p t rest : climbs m r d s e ts -> (s < length ts)%nat -> (length ts <= n)%nat -> k <= m ->
  D + (d + 1) <= MAX_PARSE_DEPTH -> 0 <= d -> reading D p (ts ++ t :: rest) -> follows t -> get_precedence (type t) < Z.min k r ->
  exists p', parse (S n) (Precedence k) p = Parsed (Some e) p' /\ reading D p' (t :: rest).
Proof.
  intros Hc Hs Hn Hk Hd Hd0 H Hf Ht.
  destruct (Hc n k (D + 1) (add_depth p 1) t rest (n - s)%nat) as (p' & E & H'); [lia..|by apply reading_deeper|done|lia|].
  exists (add_depth p' (-1)). split; [|by replace D with (D + 1 + -1) by lia; apply reading_deeper].
  change (parse (S n) (Precedence k) p) with (parse_precedence n (parse n) k p). unfold parse_precedence.
  assert (Hdep : MAX_PARSE_DEPTH <? depth p + 1 = false) by (rewrite (rd_depth _ _ _ H); apply Z.ltb_ge; lia).
  runs. rewrite Hdep. replace (s + (n - s))%nat with n in E by lia.
  destruct (parse_primary n (parse n) (add_depth p 1)) as [[x|] q| |]; simpl in E; unfold parse_operators.
  all: destruct (n - s)%nat as [|j] eqn:Ej; [lia|];
    rewrite iterate_S, (operator_stops _ _ _ _ _ _ _ _ H') in E by lia; simpl in E; try discriminate E; by rewrite E.
Qed.

(** The first token of an expression. *)
Definition starts_operand (t : TokenType) : bool :=
  match t with
  | TOK_TRUE | TOK_FALSE | TOK_NIL | TOK_NONE | TOK_INT | TOK_FLOAT | TOK_STRING | TOK_IDENT | TOK_LPAREN | TOK_MINUS | TOK_NOT => true
  | _ => false
  end.
Definition starts (t : TokenType) : Prop :=
  t <> TOK_ERROR /\ t <> TOK_NEWLINE /\ t <> TOK_EOF /\ t <> TOK_RPAREN /\ starts_operand t = true.
Lemma starts_intro t : starts_operand t = true -> starts t.
Proof. unfold starts. by destruct t. Qed.

Lemma written_shape : 
  (forall m r d s e ts, written m r d s e ts -> (s < length ts)%nat /\ 0 <= d /\ exists t ts', ts = t :: ts' /\ starts (type t)) /\
  (forall d es ts, written_args d es ts -> 0 <= d /\ (es = [] /\ ts = [] \/ exists t ts', ts = t :: ts' /\ starts (type t))) /\
  (forall d es ts, written_more d es ts -> 0 <= d).
Proof.
  apply written_ind3; intros; repeat first [progress destruct_and? | progress destruct_or? | match goal with H : exists _, _ |- _ => destruct H end];
    subst; simpl in *; rewrite ?length_app; simpl; split_and?; try lia; eauto 12; try right;
    do 2 eexists; (split; [done|]); try done; apply starts_intro;
    match goal with H : type _ = _ |- _ => by rewrite H | _ => idtac end.
  unfold atom_node in *. by destruct (type t).
Qed.

Lemma begins_cons t rest : type t <> TOK_ERROR -> begins (t :: rest).
Proof. by exists t, rest. Qed.
Lemma begins_written m r d s e ts rest : written m r d s e ts -> begins (ts ++ rest).
Proof. intros H. destruct (proj1 written_shape _ _ _ _ _ _ H) as (_ & _ & t & ts' & -> & Ht & _). by exists t, (ts' ++ rest). Qed.

(** The right-hand side of an operator. *)
Lemma infix_reads n prs x a y e k p p' : infix_node a x y = Some (e, k) -> previous p = a ->
  prs (Precedence k) p = Parsed (Some y) p' -> parse_postfix n prs x (type a) p = Parsed (Some e) p'.
Proof.
  intros He Hp E. unfold infix_node in He. unfold parse_postfix, parse_infix.
  destruct (type a) eqn:Ha; simpl in He; try discriminate He; injection He as <- <-; runs; rewrite Hp; by rewrite E.
Qed.

(** [sound e]: its tokens climb to it, with what [written_shape] says of them. *)
Definition sound (m r d : Z) (s : nat) (e : AstNode) (ts : list Token) : Prop :=
  written m r d s e ts /\ climbs m r d s e ts.

Lemma sound_operand m r d s e ts n k D p t rest : sound m r d s e ts -> reading D p (ts ++ t :: rest) ->
  (length ts < n)%nat -> k <= m -> D + (d + 1) <= MAX_PARSE_DEPTH -> follows t -> get_precedence (type t) < Z.min k r ->
  exists p', parse n (Precedence k) p = Parsed (Some e) p' /\ reading D p' (t :: rest).
Proof.
  intros [Hw Hc] Hr Hn. destruct (proj1 written_shape _ _ _ _ _ _ Hw) as (Hs & Hd & _). destruct n as [|n]; [lia|]. intros.
  eapply climbs_operand; eauto. lia.
Qed.

(** An operand that is read whole: no operators follow from its first token on. *)
Lemma climbs_primary m r d e ts :
  (forall n D p t rest, (length ts <= n)%nat -> D + d <= MAX_PARSE_DEPTH -> reading D p (ts ++ t :: rest) -> follows t ->
    get_precedence (type t) < r -> exists p', parse_primary n (parse n) p = Parsed (Some e) p' /\ reading D p' (t :: rest)) ->
  climbs m r d 0 e ts.
Proof.
  intros H n k D p t rest j Hn _ Hd Hr Hf Ht. destruct (H n D p t rest Hn Hd Hr Hf Ht) as (p' & E & H'). exists p'.
  split; [|done]. by rewrite (bind_parsed _ _ _ _ _ E).
Qed.

Lemma climbs_atom t e : atom_node t = Some e -> climbs 12 12 0 0 e [t].
Proof. intros He. apply climbs_primary. intros n D p u rest _ _ H Hf _. by eapply primary_atom. Qed.

Lemma follows_closing t : type t = TOK_RPAREN \/ type t = TOK_RBRACKET \/ type t = TOK_COLON \/ type t = TOK_COMMA ->
  follows t /\ get_precedence (type t) = 0.
Proof. unfold follows. intros [-> | [-> | [-> | ->]]]; done. Qed.

(** An expression in front of a closing token. *)
Lemma sound_closed m r d s e ts n D p t rest : sound m r d s e ts -> reading D p (ts ++ t :: rest) -> (length ts < n)%nat -> 1 <= m -> 1 <= r ->
  D + (d + 1) <= MAX_PARSE_DEPTH -> type t = TOK_RPAREN \/ type t = TOK_RBRACKET \/ type t = TOK_COLON \/ type t = TOK_COMMA ->
  exists p', parse_expression (parse n) p = Parsed (Some e) p' /\ reading D p' (t :: rest).
Proof.
  intros. destruct (follows_closing t) as [Ft Pt]; [done|]. eapply sound_operand; eauto. rewrite Pt. unfold PREC_ASSIGNMENT. lia.
Qed.

Lemma climbs_group a b m r d s e ts : type a = TOK_LPAREN -> type b = TOK_RPAREN -> 1 <= m -> 1 <= r -> sound m r d s e ts ->
  climbs 12 12 (d + 1) 0 e (a :: ts ++ [b]).
Proof.
  intros Ha Hb Hm Hr Hs. apply climbs_primary. intros n D p t rest Hn Hd H Hf _. simpl in H, Hn. rewrite <- app_assoc in H.
  rewrite length_app in Hn. simpl in Hn.
  destruct (advance_reads _ _ _ _ H) as (p1 & E1 & H1 & _); [by rewrite Ha|by eapply begins_written, (proj1 Hs)|].
  destruct (sound_closed _ _ _ _ _ _ n _ _ _ _ Hs H1) as (p2 & E2 & H2); [lia|lia|lia|lia|auto|].
  destruct (consume_reads _ _ _ _ TOK_RPAREN "expected ')' after expression" H2 Hb ltac:(done)) as (p3 & E3 & H3 & _).
  { apply begins_cons, (proj1 Hf). }
  exists p3. split; [|done]. unfold parse_primary. runs. rewrite (reading_cur _ _ _ _ H), Ha, E1.
  unfold parse_grouping. runs. by rewrite E2, E3.
Qed.

Lemma climbs_unary a m r d s e ts : type a = TOK_MINUS \/ type a = TOK_NOT -> 10 <= m -> sound m r d s e ts ->
  climbs 12 (Z.min 10 r) (d + 1) 0 (NODE_UNARY (tok_line a) (type a) e) (a :: ts).
Proof.
  intros Ha Hm Hs. apply climbs_primary. intros n D p t rest Hn Hd H Hf Ht. simpl in H, Hn.
  destruct (advance_reads _ _ _ _ H) as (p1 & E1 & H1 & Hp); [by destruct Ha as [-> | ->]|by eapply begins_written, (proj1 Hs)|].
  destruct (sound_operand _ _ _ _ _ _ n PREC_UNARY _ _ _ _ Hs H1 ltac:(lia) ltac:(done) Hd Hf ltac:(done)) as (p2 & E2 & H2).
  exists p2. split; [|done]. unfold parse_primary. runs. rewrite (reading_cur _ _ _ _ H).
  destruct Ha as [Ha|Ha]; rewrite Ha, E1; unfold parse_unary, prev; runs; by rewrite E2, Hp, Ha.
Qed.

(** An operator [a] behind an operand, and what is read behind it. *)
Lemma climbs_operator m r dr a mx rx dx sx x tx e ta : m = get_precedence (type a) -> 1 <= m ->
  sound mx rx dx sx x tx -> m <= mx -> m < rx -> follows a -> (forall t rest, follows t -> begins (ta ++ t :: rest)) ->
  (forall n D p t rest, (length ta < n)%nat -> D + dr <= MAX_PARSE_DEPTH -> reading D p (ta ++ t :: rest) -> previous p = a ->
    follows t -> get_precedence (type t) < r ->
    exists p', parse_postfix n (parse n) x (type a) p = Parsed (Some e) p' /\ reading D p' (t :: rest)) ->
  climbs m r (Z.max dx dr) (S sx) e (tx ++ a :: ta).
Proof.
  intros -> Hm [_ Hx] Hmx Hrx Ha Hb Hright n k D p t rest j Hn Hk Hd H Hf Ht.
  rewrite length_app in Hn. simpl in Hn. rewrite <- app_assoc in H. simpl in H.
  destruct (Hx n k D p a (ta ++ t :: rest) (S j) ltac:(lia) ltac:(lia) ltac:(lia) H Ha ltac:(lia)) as (p1 & E1 & H1).
  destruct (operator_takes n (parse n) k x _ _ _ _ H1) as (p2 & H2 & Hp & E2);
    [intros E; rewrite E in Hm; done|apply Ha|done|by apply Hb|].
  destruct (Hright n D p2 t rest ltac:(lia) ltac:(lia) H2 Hp Hf Ht) as (p3 & E3 & H3).
  exists p3. split; [|done]. replace (S sx + j)%nat with (sx + S j)%nat by lia. rewrite E1, iterate_S, E2.
  by rewrite (bind_parsed _ _ _ _ _ E3).
Qed.

Lemma infix_follows a x y e k : infix_node a x y = Some (e, k) -> follows a /\ 1 <= get_precedence (type a).
Proof. unfold infix_node, follows. by destruct (type a). Qed.

Lemma climbs_infix a k mx rx dx sx x tx my ry dy sy y ty e : infix_node a x y = Some (e, k) ->
  sound mx rx dx sx x tx -> get_precedence (type a) <= mx -> get_precedence (type a) < rx -> sound my ry dy sy y ty -> k <= my ->
  climbs (get_precedence (type a)) (Z.min k ry) (Z.max dx (dy + 1)) (S sx) e (tx ++ a :: ty).
Proof.
  intros He Hx Hmx Hrx Hy Hk. destruct (infix_follows _ _ _ _ _ He) as [Fa Pa].
  eapply climbs_operator; eauto; [intros; by eapply begins_written, (proj1 Hy)|].
  intros n D p t rest Hn Hd H Hp Hf Ht.
  destruct (sound_operand _ _ _ _ _ _ n k _ _ _ _ Hy H Hn Hk Hd Hf Ht) as (p' & E & H').
  exists p'. split; [|done]. by eapply infix_reads.
Qed.

Lemma climbs_ternary a c mx rx dx sx x tx my ry dy sy y ty mz rz dz sz z tz : type a = TOK_QUESTION -> type c = TOK_COLON ->
  sound mx rx dx sx x tx -> 3 <= mx -> 3 < rx -> sound my ry dy sy y ty -> 1 <= my -> 1 <= ry -> sound mz rz dz sz z tz -> 3 <= mz ->
  climbs 3 (Z.min 3 rz) (Z.max dx (Z.max (dy + 1) (dz + 1))) (S sx) (NODE_TERNARY (tok_line a) x y z) (tx ++ a :: ty ++ c :: tz).
Proof.
  intros Ha Hc Hx Hmx Hrx Hy Hmy Hry Hz Hmz.
  eapply climbs_operator; eauto; rewrite ?Ha; try done; [unfold follows; by rewrite Ha| |].
  { intros. rewrite <- app_assoc. by eapply begins_written, (proj1 Hy). }
  intros n D p t rest Hn Hd H Hp Hf Ht. rewrite <- app_assoc in H. simpl in H. rewrite length_app in Hn. simpl in Hn.
  destruct (sound_closed _ _ _ _ _ _ n _ _ _ _ Hy H) as (p1 & E1 & H1); [lia|lia|lia|lia|auto|].
  destruct (consume_reads _ _ _ _ TOK_COLON "expected ':' in ternary expression" H1 Hc ltac:(done)) as (p2 & E2 & H2 & _).
  { by eapply begins_written, (proj1 Hz). }
  destruct (sound_operand _ _ _ _ _ _ n PREC_TERNARY _ _ _ _ Hz H2 ltac:(lia) Hmz ltac:(lia) Hf Ht) as (p3 & E3 & H3).
  exists p3. split; [|done]. unfold parse_postfix, parse_infix. runs. by rewrite E1, E2, E3, Hp.
Qed.

Lemma climbs_member a b mx rx dx sx x tx : type a = TOK_DOT -> type b = TOK_IDENT -> sound mx rx dx sx x tx -> 11 <= mx -> 11 < rx ->
  climbs 11 12 dx (S sx) (NODE_MEMBER (tok_line a) x (text b)) (tx ++ [a; b]).
Proof.
  intros Ha Hb Hx Hmx Hrx. destruct (proj1 written_shape _ _ _ _ _ _ (proj1 Hx)) as (_ & Hd0 & _).
  replace dx with (Z.max dx 0) by lia.
  eapply climbs_operator; eauto; rewrite ?Ha; try done; [unfold follows; by rewrite Ha|intros; apply begins_cons; by rewrite Hb|].
  intros n D p t rest Hn Hd H Hp Hf Ht.
  destruct (consume_reads _ _ _ _ TOK_IDENT "expected property name after '.'" H Hb ltac:(done)) as (p1 & E1 & H1 & Hp1).
  { apply begins_cons, (proj1 Hf). }
  exists p1. split; [|done]. unfold parse_postfix, parse_member. runs. by rewrite E1, Hp, Hp1.
Qed.

Lemma climbs_index a b mx rx dx sx x tx my ry dy sy y ty : type a = TOK_LBRACKET -> type b = TOK_RBRACKET ->
  sound mx rx dx sx x tx -> 11 <= mx -> 11 < rx -> sound my ry dy sy y ty -> 1 <= my -> 1 <= ry ->
  climbs 11 12 (Z.max dx (dy + 1)) (S sx) (NODE_INDEX (tok_line a) x y) (tx ++ a :: ty ++ [b]).
Proof.
  intros Ha Hb Hx Hmx Hrx Hy Hmy Hry.
  eapply climbs_operator; eauto; rewrite ?Ha; try done; [unfold follows; by rewrite Ha| |].
  { intros. rewrite <- app_assoc. by eapply begins_written, (proj1 Hy). }
  intros n D p t rest Hn Hd H Hp Hf Ht. rewrite <- app_assoc in H. simpl in H. rewrite length_app in Hn. simpl in Hn.
  destruct (sound_closed _ _ _ _ _ _ n _ _ _ _ Hy H) as (p1 & E1 & H1); [lia|lia|lia|lia|auto|].
  destruct (consume_reads _ _ _ _ TOK_RBRACKET "expected ']' after index" H1 Hb ltac:(done)) as (p2 & E2 & H2 & _).
  { apply begins_cons, (proj1 Hf). }
  exists p2. split; [|done]. unfold parse_postfix, parse_index. runs. by rewrite E1, E2, Hp.
Qed.

(** Arguments: an item of the list and the rest of it. *)
Definition parse_arg (n : nat) (es : list AstNode) : P (list AstNode) :=
  skip_newlines ;; e ← parse_expression (parse n); skip_newlines ;; mret (es ++ [child e]).

Lemma arg_reads m r d s e ts n D p t rest acc : sound m r d s e ts -> reading D p (ts ++ t :: rest) -> (length ts < n)%nat ->
  1 <= m -> 1 <= r -> D + (d + 1) <= MAX_PARSE_DEPTH -> type t = TOK_RPAREN \/ type t = TOK_COMMA ->
  exists p', parse_arg n acc p = Parsed (acc ++ [e]) p' /\ reading D p' (t :: rest).
Proof.
  intros Hs H Hn Hm Hr Hd Ht. destruct (sound_closed _ _ _ _ _ _ n _ _ _ _ Hs H) as (p' & E & H'); [lia..|tauto|].
  exists p'. split; [|done]. unfold parse_arg.
  destruct (proj1 written_shape _ _ _ _ _ _ (proj1 Hs)) as (_ & _ & b & ts' & -> & _ & Hb & _).
  runs. rewrite (skip_none _ _ _ _ H Hb), E, (skip_none _ _ _ _ H'); [done|]. by destruct Ht as [-> | ->].
Qed.

(** The arguments behind one that was read. *)
Definition more_read (d : Z) (es : list AstNode) (ts : list Token) : Prop :=
  forall n j D p b rest acc, (length ts <= j)%nat -> (length ts < n)%nat -> D + (d + 1) <= MAX_PARSE_DEPTH ->
  reading D p (ts ++ b :: rest) -> type b = TOK_RPAREN ->
  exists p', reading D p' (b :: rest) /\
    (m ← match_ TOK_COMMA;
     if m : bool then iterate j (fun x => x ← parse_arg n x; m ← match_ TOK_COMMA; mret (if m : bool then inl x else inr x)) acc
     else mret acc) p = Parsed (acc ++ es) p'.
Definition more_starts (ts : list Token) : Prop := ts = [] \/ exists c ts', ts = c :: ts' /\ type c = TOK_COMMA.

Lemma more_last : more_read 0 [] [].
Proof.
  intros n j D p b rest acc _ _ _ H Hb. exists p. split; [done|]. simpl in H. runs.
  rewrite (match_other _ _ _ _ _ H) by (by rewrite Hb). by rewrite app_nil_r.
Qed.

Lemma one_arg m r d s e ts dr es tr n j D p b rest acc : sound m r d s e ts -> 1 <= m -> 1 <= r -> more_read dr es tr -> more_starts tr ->
  (length tr <= j)%nat -> (length (ts ++ tr) < n)%nat -> D + (Z.max d dr + 1) <= MAX_PARSE_DEPTH ->
  reading D p (ts ++ tr ++ b :: rest) -> type b = TOK_RPAREN ->
  exists p', reading D p' (b :: rest) /\
    iterate (S j) (fun x => x ← parse_arg n x; m ← match_ TOK_COMMA; mret (if m : bool then inl x else inr x)) acc p =
    Parsed (acc ++ e :: es) p'.
Proof.
  intros Hs Hm Hr Hmore Hst Hj Hn Hd H Hb. rewrite length_app in Hn.
  assert (exists t rest', tr ++ b :: rest = t :: rest' /\ (type t = TOK_RPAREN \/ type t = TOK_COMMA)) as (t & rest' & Et & Ht).
  { destruct Hst as [-> | (c & ts' & -> & Hc)]; simpl; eauto. }
  rewrite Et in H. destruct (arg_reads _ _ _ _ _ _ n _ _ _ _ acc Hs H) as (p1 & E1 & H1); [lia..|done|].
  rewrite <- Et in H1. destruct (Hmore n j D p1 b rest (acc ++ [e])) as (p2 & H2 & E2); [lia..|done|done|].
  exists p2. split; [done|]. rewrite <- app_assoc in E2. simpl in E2. rewrite <- E2, iterate_S.
  runs. rewrite E1. by destruct (match_ TOK_COMMA p1) as [[]| |].
Qed.

Lemma more_next c m r d s e ts dr es tr : type c = TOK_COMMA -> sound m r d s e ts -> 1 <= m -> 1 <= r -> more_read dr es tr ->
  more_starts tr -> more_read (Z.max d dr) (e :: es) (c :: ts ++ tr).
Proof.
  intros Hc Hs Hm Hr Hmore Hst n j D p b rest acc Hj Hn Hd H Hb. simpl in *. rewrite length_app in *. rewrite <- app_assoc in H.
  destruct (match_reads _ _ _ _ TOK_COMMA H Hc ltac:(done)) as (p1 & E1 & H1 & _); [by eapply begins_written, (proj1 Hs)|].
  destruct j as [|j]; [lia|].
  destruct (one_arg _ _ _ _ _ _ _ _ _ n j D p1 b rest acc Hs Hm Hr Hmore Hst) as (p2 & H2 & E2); rewrite ?length_app; try lia; try done.
  exists p2. split; [done|]. by rewrite (bind_parsed _ _ _ _ _ E1).
Qed.

Definition args_read (d : Z) (es : list AstNode) (ts : list Token) : Prop :=
  forall n D p b rest, (length ts < n)%nat -> D + (d + 1) <= MAX_PARSE_DEPTH -> reading D p (ts ++ b :: rest) -> type b = TOK_RPAREN ->
  begins (ts ++ b :: rest) /\
  exists p', reading D p' (b :: rest) /\
    (skip_newlines ;; empty ← check TOK_RPAREN; if empty : bool then mret [] else comma_separated n (parse_arg n) []) p = Parsed es p'.

Lemma args_none : args_read 0 [] [].
Proof.
  intros n D p b rest _ _ H Hb. simpl in *. split; [apply begins_cons; by rewrite Hb|]. exists p. split; [done|].
  runs. by rewrite (skip_none _ _ _ _ H), (reading_token _ _ _ _ _ H), Hb by (by rewrite Hb).
Qed.
Lemma args_some m r d s e ts dr es tr : sound m r d s e ts -> 1 <= m -> 1 <= r -> more_read dr es tr -> more_starts tr ->
  args_read (Z.max d dr) (e :: es) (ts ++ tr).
Proof.
  intros Hs Hm Hr Hmore Hst n D p b rest Hn Hd H Hb. rewrite <- app_assoc in *.
  split; [by eapply begins_written, (proj1 Hs)|]. destruct n as [|n]; [lia|].
  destruct (one_arg _ _ _ _ _ _ _ _ _ (S n) n D p b rest [] Hs Hm Hr Hmore Hst) as (p1 & H1 & E1); try lia; try done.
  { rewrite length_app in Hn. lia. }
  exists p1. split; [done|].
  destruct (proj1 written_shape _ _ _ _ _ _ (proj1 Hs)) as (_ & _ & a & ts' & Ets & _ & Ha & _ & Ha' & _).
  rewrite Ets in H. runs. rewrite (skip_none _ _ _ _ H Ha), (reading_token _ _ _ _ _ H), bool_decide_false by done. apply E1.
Qed.

Lemma climbs_call a b mx rx dx sx x tx da args ta : type a = TOK_LPAREN -> type b = TOK_RPAREN -> sound mx rx dx sx x tx -> 11 <= mx -> 11 < rx ->
  args_read da args ta -> (ta = [] \/ begins ta) ->
  climbs 11 12 (Z.max dx (da + 1)) (S sx) (NODE_CALL (tok_line a) x args) (tx ++ a :: ta ++ [b]).
Proof.
  intros Ha Hb Hx Hmx Hrx Hargs Hbegin.
  eapply climbs_operator; eauto; rewrite ?Ha; try done; [unfold follows; by rewrite Ha| |].
  { intros. rewrite <- app_assoc. destruct Hbegin as [-> | (c & ta' & -> & Hc)]; apply begins_cons; [by rewrite Hb|done]. }
  intros n D p t rest Hn Hd H Hp Hf Ht. rewrite <- app_assoc in H. simpl in H. rewrite length_app in Hn. simpl in Hn.
  destruct (Hargs n D p b (t :: rest)) as (_ & p1 & H1 & E1); [lia..|done|done|].
  destruct (consume_reads _ _ _ _ TOK_RPAREN "expected ')' after arguments" H1 Hb ltac:(done)) as (p2 & E2 & H2 & _).
  { apply begins_cons, (proj1 Hf). }
  exists p2. split; [|done]. unfold parse_postfix, parse_call, parse_arg in *. runs. rewrite Hp.
  destruct (skip_newlines p) as [u q| |]; try discriminate E1. simpl in *.
  destruct (at_token q TOK_RPAREN); rewrite ?E1 in *; [injection E1 as <- <-|]; by rewrite E2.
Qed.

Lemma args_begins d es ts : written_args d es ts -> ts = [] \/ begins ts.
Proof.
  intros H. destruct (proj1 (proj2 written_shape) _ _ _ H) as (_ & [[_ ->] | (t & ts' & -> & Ht & _)]); [by left|right].
  by exists t, ts'.
Qed.

Ltac by_sound := try match goal with |- sound _ _ _ _ _ _ => eassumption end; eauto.

(** Whatever is written is read. *)
Lemma written_climbs :
  (forall m r d s e ts, written m r d s e ts -> climbs m r d s e ts) /\
  (forall d es ts, written_args d es ts -> args_read d es ts) /\
  (forall d es ts, written_more d es ts -> more_read d es ts /\ more_starts ts).
Proof.
  apply written_ind3; intros; destruct_and?;
    repeat match goal with H : written _ _ _ _ _ _, H' : climbs _ _ _ _ _ _ |- _ => pose proof (conj H H' : sound _ _ _ _ _ _); clear H H' end.
  - by apply climbs_atom.
  - eapply climbs_group; by_sound.
  - eapply climbs_unary; by_sound.
  - eapply climbs_infix; by_sound.
  - eapply climbs_ternary; by_sound.
  - eapply climbs_member; by_sound.
  - eapply climbs_index; by_sound.
  - eapply climbs_call; by_sound. by eapply args_begins.
  - apply args_none.
  - eapply args_some; by_sound.
  - split; [apply more_last|by left].
  - split; [eapply more_next; by_sound|]. right. by exists c, (ts ++ tr).
Qed.

(** *** A source that is an expression *)

Lemma declaration_reads n d p t ts : reading d p (t :: ts) -> starts (type t) ->
  parse_declaration (S n) p = (e ← parse n (Precedence PREC_ASSIGNMENT);
                               mret (match e with Some e => Some (NODE_EXPR_STMT (node_line e) e) | None => None end)) p.
Proof.
  intros H Hs. destruct Hs as (_ & Hn & _ & _ & Hs).
  assert (E : parse_declaration (S n) p = parse (S n) Statement p).
  { unfold parse_declaration. runs. rewrite (skip_none _ _ _ _ H Hn), (reading_cur _ _ _ _ H). by destruct (type t). }
  rewrite E. change (parse (S n) Statement p) with (parse_statement (parse n) p). unfold parse_statement. runs.
  rewrite (skip_none _ _ _ _ H Hn), (reading_cur _ _ _ _ H). by destruct (type t).
Qed.

Lemma new_reads garbage ts : begins ts -> reading 0 (parser_new garbage ts) ts.
Proof.
  intros (t & rest & -> & Ht). Transparent advance. unfold parser_new, advance, changes. simpl.
  destruct (type t) eqn:E; try done; (split; [|done|done]); exists t, rest; simpl; auto.
Qed.
#[local] Opaque advance.

Lemma written_parses n garbage source m r d s e ts eof : tokens source = ts ++ [eof] -> type eof = TOK_EOF ->
  written m r d s e ts -> 1 <= m -> 1 <= r -> d < MAX_PARSE_DEPTH -> (length ts + 1 < n)%nat ->
  parse_source n garbage source = Tree (NODE_PROGRAM 1 [NODE_EXPR_STMT (node_line e) e]).
Proof.
  intros Hts Heof Hw Hm Hr Hd Hn. pose proof (conj Hw (proj1 written_climbs _ _ _ _ _ _ Hw) : sound _ _ _ _ _ _) as Hs.
  assert (Hb : begins (ts ++ [eof])) by by eapply begins_written.
  pose proof (new_reads garbage _ Hb) as H. unfold parse_source. rewrite Hts. set (p := parser_new _ _) in *. clearbody p.
  destruct n as [|[|n]]; [lia..|].
  destruct (sound_operand _ _ _ _ _ _ (S n) PREC_ASSIGNMENT _ _ _ _ Hs H) as (p' & E & H');
    [lia|done|lia|unfold follows; by rewrite Heof|rewrite Heof; unfold PREC_ASSIGNMENT; simpl; unfold PREC_NONE; lia|].
  destruct (proj1 written_shape _ _ _ _ _ _ Hw) as (_ & _ & t & ts' & -> & Ht). simpl in H.
  unfold parser_parse, parse_decls. runs. rewrite (skip_none _ _ _ _ H) by apply Ht.
  rewrite iterate_S. runs. rewrite (reading_token _ _ _ _ _ H), bool_decide_false by apply Ht.
  rewrite (declaration_reads _ _ _ _ _ H Ht). runs. rewrite E. destruct (rd_ok _ _ _ H') as [Hok Hpanic]. rewrite Hpanic.
  rewrite (skip_none _ _ _ _ H') by (by rewrite Heof). rewrite iterate_S. runs.
  by rewrite (reading_token _ _ _ _ _ H'), bool_decide_true, Hok.
Qed.

(** C5: reading back what was written.  Take any expression tree built from
    literals, names, unary and binary operators, assignments, ranges, conditionals,
    members, indices, calls and grouping, and any way to write it down that brackets
    an operand where the precedence and associativity of the operators ask for it
    (and possibly elsewhere), nested less than [MAX_PARSE_DEPTH] deep.  If the
    lexer gives these tokens for a source, the parser returns the program that
    consists of exactly this tree; its fuel only has to exceed the number of tokens,
    so it terminates. *)
Theorem parse_written n garbage source m r d s e ts eof : tokens source = ts ++ [eof] -> type eof = TOK_EOF ->
  written m r d s e ts -> 1 <= m -> 1 <= r -> d < MAX_PARSE_DEPTH -> (length ts + 1 < n)%nat ->
  parse_source n garbage source = Tree (NODE_PROGRAM 1 [NODE_EXPR_STMT (node_line e) e]).
Proof. apply written_parses. Qed.

(** [x = f(a, -1) * (b - c - 2)] *)
Definition written_source : list Z := chars "x = f(a, -1) * (b - c - 2)".
Definition written_tokens : list Token :=
  (fun '(t, s, column) => mkToken t (chars s) 1 column) <$>
  [(TOK_IDENT, "x", 1); (TOK_ASSIGN, "=", 3); (TOK_IDENT, "f", 5); (TOK_LPAREN, "(", 6); (TOK_IDENT, "a", 7); (TOK_COMMA, ",", 8); (TOK_MINUS, "-", 10); (TOK_INT, "1", 11); (TOK_RPAREN, ")", 12); (TOK_STAR, "*", 14); (TOK_LPAREN, "(", 16); (TOK_IDENT, "b", 17); (TOK_MINUS, "-", 19); (TOK_IDENT, "c", 21); (TOK_MINUS, "-", 23); (TOK_INT, "2", 25); (TOK_RPAREN, ")", 26); (TOK_EOF, "", 27)].
Definition written_tree : AstNode :=
  NODE_ASSIGN 1 (NODE_IDENT 1 (chars "x")) TOK_ASSIGN
    (NODE_BINARY 1 TOK_STAR
       (NODE_CALL 1 (NODE_IDENT 1 (chars "f")) [NODE_IDENT 1 (chars "a"); NODE_UNARY 1 TOK_MINUS (NODE_INT 1 1)])
       (NODE_BINARY 1 TOK_MINUS (NODE_BINARY 1 TOK_MINUS (NODE_IDENT 1 (chars "b")) (NODE_IDENT 1 (chars "c"))) (NODE_INT 1 2))).
Lemma parse_written_witness :
  parse_source 19 no_token written_source = Tree (NODE_PROGRAM 1 [NODE_EXPR_STMT 1 written_tree]).
Proof.
  set (T i := nth i written_tokens no_token).
  pose proof (written_atom (T 4%nat) _ eq_refl) as A.
  pose proof (written_unary (T 6%nat) 12 _ _ _ _ _ (or_introl eq_refl) ltac:(done) (written_atom (T 7%nat) _ eq_refl)) as N.
  pose proof (written_some_args _ _ _ _ _ _ _ _ _ A ltac:(done) ltac:(done)
    (written_next (T 5%nat) _ _ _ _ _ _ _ _ _ eq_refl N ltac:(done) ltac:(done) written_last)) as Args.
  pose proof (written_call (T 3%nat) (T 8%nat) _ _ _ _ _ _ _ _ _ eq_refl eq_refl (written_atom (T 2%nat) _ eq_refl)
    ltac:(done) ltac:(done) Args) as Call.
  pose proof (written_infix (T 12%nat) _ _ _ _ _ _ _ _ _ _ _ _ _ _ eq_refl (written_atom (T 11%nat) _ eq_refl) ltac:(done) ltac:(done)
    (written_atom (T 13%nat) _ eq_refl) ltac:(done)) as Sub.
  pose proof (written_infix (T 14%nat) _ _ _ _ _ _ _ _ _ _ _ _ _ _ eq_refl Sub ltac:(done) ltac:(done)
    (written_atom (T 15%nat) _ eq_refl) ltac:(done)) as Sub2.
  pose proof (written_group (T 10%nat) (T 16%nat) 8 9 _ _ _ _ eq_refl eq_refl ltac:(done) ltac:(done) Sub2) as Group.
  pose proof (written_infix (T 9%nat) _ _ _ _ _ _ _ _ _ _ _ _ _ _ eq_refl Call ltac:(done) ltac:(done) Group ltac:(done)) as Mul.
  pose proof (written_infix (T 1%nat) _ _ _ _ _ _ _ _ _ _ _ _ _ _ eq_refl (written_atom (T 0%nat) _ eq_refl) ltac:(done) ltac:(done)
    Mul ltac:(done)) as All.
  refine (parse_written 19 no_token written_source _ _ _ _ _ _ (T 17%nat) _ eq_refl All _ _ _ _).
  all: vm_compute; first [reflexivity | done | lia].
Defined.

(** ** Sources that the parser does not get through *)

(** Tokens that start no declaration, statement or operand. *)
Definition starts_nothing (t : TokenType) : bool :=
  match t with
  | TOK_AT | TOK_IMPORT | TOK_EXPORT | TOK_TOOL | TOK_FN | TOK_STRUCT | TOK_ENUM | TOK_ALIAS | TOK_LET | TOK_CONST | TOK_IF | TOK_WHILE
  | TOK_FOR | TOK_RETURN | TOK_BREAK | TOK_CONTINUE | TOK_TRUE | TOK_FALSE | TOK_NIL | TOK_INT | TOK_FLOAT | TOK_STRING | TOK_IDENT
  | TOK_LPAREN | TOK_LBRACKET | TOK_LBRACE | TOK_NOT | TOK_MINUS | TOK_MATCH | TOK_TRY | TOK_OK | TOK_ERR | TOK_SOME | TOK_NONE
  | TOK_SPREAD | TOK_NEWLINE | TOK_EOF | TOK_ERROR => false
  | _ => true
  end.

(** In front of such a token, behind the end of a line. *)
Definition blocked (p : Parser) : Prop := starts_nothing (type (cur p)) = true /\ type (previous p) = TOK_NEWLINE.

Lemma blocked_failing t message p : blocked p -> blocked (failing t message p).
Proof. unfold failing, blocked. by destruct (panic_mode p). Qed.
Lemma blocked_skip p : blocked p -> skip_newlines p = Parsed tt p.
Proof. intros [H _]. apply skip_other. intros E. by rewrite E in H. Qed.

Lemma blocked_primary n prs p : blocked p -> exists p', parse_primary n prs p = Parsed None p' /\ blocked p'.
Proof.
  intros Hb. pose proof (blocked_failing (cur p) (chars "expected expression") p Hb) as Hb'. destruct Hb as [H _].
  unfold parse_primary, error_at_current. runs. destruct (type (cur p)); try discriminate H; eauto.
Qed.

Lemma blocked_expression n p : blocked p ->
  parse n (Precedence PREC_ASSIGNMENT) p = Stuck \/ exists p', parse n (Precedence PREC_ASSIGNMENT) p = Parsed None p' /\ blocked p'.
Proof.
  intros Hb. destruct n as [|n]; [by left|right].
  change (parse (S n) (Precedence PREC_ASSIGNMENT) p) with (parse_precedence n (parse n) PREC_ASSIGNMENT p).
  unfold parse_precedence, error. runs.
  destruct (MAX_PARSE_DEPTH <? depth p + 1).
  - eexists. split; [done|]. by apply (blocked_failing _ _ (add_depth p 1)).
  - destruct (blocked_primary n (parse n) (add_depth p 1)) as (p' & -> & Hb'); eauto.
Qed.

Lemma blocked_declaration n p : blocked p ->
  parse_declaration n p = Stuck \/ exists p', parse_declaration n p = Parsed None p' /\ blocked p'.
Proof.
  intros Hb.
  assert (E : parse_declaration n p = parse n Statement p).
  { unfold parse_declaration. runs. rewrite (blocked_skip _ Hb). destruct Hb as [H _]. by destruct (type (cur p)). }
  rewrite E. destruct n as [|n]; [by left|].
  assert (E' : parse (S n) Statement p = (e ← parse n (Precedence PREC_ASSIGNMENT);
    mret (match e with Some e => Some (NODE_EXPR_STMT (node_line e) e) | None => None end)) p).
  { change (parse (S n) Statement p) with (parse_statement (parse n) p). unfold parse_statement. runs. rewrite (blocked_skip _ Hb).
    destruct Hb as [H _]. by destruct (type (cur p)). }
  rewrite E'. destruct (blocked_expression n p Hb) as [Hs | (p' & E1 & Hb')]; runs; [by rewrite Hs; left|rewrite E1; eauto].
Qed.

Lemma blocked_synchronize p : blocked p -> exists p', synchronize p = Parsed tt p' /\ blocked p'.
Proof.
  intros [H Hn]. exists (set_panic p false). split; [|done]. unfold synchronize. runs. rewrite Hn. by rewrite orb_true_r.
Qed.

(** The loop over declarations, from some of them on. *)
Definition decls_loop (n k : nat) (ds : list AstNode) : P (list AstNode) :=
  iterate k (fun ds =>
    eof ← check TOK_EOF;
    if eof : bool then mret (inr ds)
    else d ← parse_declaration n; panicking ← looks panic_mode; (if panicking : bool then synchronize else mret tt) ;;
         skip_newlines ;; mret (inl (ds ++ option_list d))) ds.

(** It makes no progress from there. *)
Lemma blocked_decls n k : forall p ds, blocked p -> decls_loop n k ds p = Stuck.
Proof.
  unfold decls_loop. induction k as [|k IH]; intros p ds Hb; [done|]. rewrite iterate_S. runs.
  assert (at_token p TOK_EOF = false) as -> by (destruct Hb as [H _]; unfold at_token; by destruct (type (cur p))).
  destruct (blocked_declaration n p Hb) as [-> | (p' & -> & Hb')]; [done|].
  destruct (blocked_synchronize p' Hb') as (p2 & E2 & Hb2).
  destruct (panic_mode p'); [rewrite E2, (blocked_skip _ Hb2)|rewrite (blocked_skip _ Hb')]; by apply IH.
Qed.

(** Lines that are empty or an expression each. *)
Inductive lines_of : list Token -> Prop :=
  | no_lines : lines_of []
  | empty_line nl ts : type nl = TOK_NEWLINE -> lines_of ts -> lines_of (nl :: ts)
  | expression_line m r d s e ts nl rest : written m r d s e ts -> 1 <= m -> 1 <= r -> d < MAX_PARSE_DEPTH -> type nl = TOK_NEWLINE ->
      lines_of rest -> lines_of (ts ++ nl :: rest).
Lemma lines_begin ls t rest : lines_of ls -> type t <> TOK_ERROR -> begins (ls ++ t :: rest).
Proof.
  intros H Ht. destruct H as [|nl ts Hnl H|m r d s e ts nl rest' Hw ? ? ? Hnl H]; [by apply begins_cons|apply begins_cons; by rewrite Hnl|].
  rewrite <- app_assoc. simpl. by eapply begins_written.
Qed.

Section stuck.
Context (n : nat) (t : Token) (rest : list Token) (Ht : starts_nothing (type t) = true).
(** Where the loop arrives in front of [ls] and then [t]. *)
Definition hangs (ls : list Token) : Prop := forall k p ds, reading 0 p (ls ++ t :: rest) ->
  (ls = [] -> type (previous p) = TOK_NEWLINE) -> (skip_newlines ;; decls_loop n k ds) p = Stuck.

Lemma hangs_here : hangs [].
Proof.
  intros k p ds H Hp. assert (Hb : blocked p) by (split; [by rewrite (reading_cur _ _ _ _ H)|by apply Hp]).
  by rewrite (bind_parsed _ _ _ _ _ (blocked_skip _ Hb)), blocked_decls.
Qed.
Lemma hangs_newline nl ts : type nl = TOK_NEWLINE -> lines_of ts -> hangs ts -> hangs (nl :: ts).
Proof.
  intros Hnl Hts IH k p ds H _. simpl in H.
  destruct (skip_step _ _ _ _ H Hnl) as (p' & E & H' & Hp); [apply lines_begin; [done|]; intros E; by rewrite E in Ht|].
  specialize (IH k p' ds H' ltac:(by rewrite Hp)). unfold mbind, P_bind in *. by rewrite E.
Qed.
Lemma hangs_expression m r d s e ts nl ls : written m r d s e ts -> 1 <= m -> 1 <= r -> d < MAX_PARSE_DEPTH -> type nl = TOK_NEWLINE ->
  (length ts + 1 < n)%nat -> hangs (nl :: ls) -> hangs (ts ++ nl :: ls).
Proof.
  intros Hw Hm Hr Hd Hnl Hn IH k p ds H _. rewrite <- app_assoc in H. simpl in H.
  pose proof (conj Hw (proj1 written_climbs _ _ _ _ _ _ Hw) : sound _ _ _ _ _ _) as Hs.
  assert (n = S (S (pred (pred n)))) as En by lia.
  destruct (sound_operand _ _ _ _ _ _ (S (pred (pred n))) PREC_ASSIGNMENT _ _ _ _ Hs H) as (p' & E & H');
    [lia|done|lia|unfold follows; by rewrite Hnl|rewrite Hnl; unfold PREC_ASSIGNMENT; simpl; unfold PREC_NONE; lia|].
  destruct (proj1 written_shape _ _ _ _ _ _ Hw) as (_ & _ & a & ts' & -> & Ha). simpl in H.
  assert (Hsk : skip_newlines p = Parsed tt p) by (eapply skip_none; [done|apply Ha]).
  rewrite (bind_parsed _ _ _ _ _ Hsk). destruct k as [|k]; [done|]. unfold decls_loop. rewrite iterate_S. runs.
  rewrite (reading_token _ _ _ _ _ H), bool_decide_false by apply Ha.
  rewrite En at 1. rewrite (declaration_reads _ _ _ _ _ H Ha). runs. rewrite E. destruct (rd_ok _ _ _ H') as [_ Hpanic]. rewrite Hpanic.
  specialize (IH k p' (ds ++ [NODE_EXPR_STMT (node_line e) e]) H' ltac:(done)). unfold decls_loop in IH. runs.
  destruct (skip_newlines p') as [[] p2| |]; [exact IH|done|done].
Qed.

Lemma lines_hang ls : lines_of ls -> (length ls + 1 < n)%nat -> hangs ls.
Proof.
  induction 1 as [|nl ts Hnl H IH|m r d s e ts nl ls Hw Hm Hr Hd Hnl H IH]; intros Hn; [apply hangs_here| |].
  - apply hangs_newline; [done..|]. apply IH. simpl in Hn. lia.
  - rewrite length_app in Hn. simpl in Hn. eapply hangs_expression; [done..|lia|]. apply hangs_newline; [done..|]. apply IH. lia.
Qed.
End stuck.

(** C40: a syntax error that is never reported.  Take a source that has, outside of
    blocks and brackets, one or more lines that are empty or an expression each
    ([lines_of]), and behind them a line whose first token starts no declaration,
    statement or operand (an operator such as [*], a closing bracket or brace, a
    comma, ...).  At that token the parser reports "expected expression",
    resynchronizes to where it is, because the token in front is the end of a line,
    and tries again without end: however much fuel it has, it does not return,
    whatever follows in the source. *)
Theorem parser_never_returns n garbage source ls t rest : tokens source = ls ++ t :: rest -> lines_of ls -> ls <> [] ->
  starts_nothing (type t) = true -> (length ls + 1 < n)%nat -> parse_source n garbage source = NoResult.
Proof.
  intros Hts Hls Hne Ht Hn. unfold parse_source. rewrite Hts.
  assert (Hr : reading 0 (parser_new garbage (ls ++ t :: rest)) (ls ++ t :: rest)).
  { apply new_reads, lines_begin; [done|]. intros E. by rewrite E in Ht. }
  assert (H : (skip_newlines ;; parse_decls n) (parser_new garbage (ls ++ t :: rest)) = Stuck).
  { exact (lines_hang n t rest Ht ls Hls Hn n _ [] Hr ltac:(done)). }
  unfold parser_parse, mbind, P_bind in *. destruct (skip_newlines _) as [[] p'| |]; [by rewrite H|done|done].
Qed.

(** [1], an empty line, [* 2] and [3] *)
Definition blocked_source : list Z := chars "1" ++ 10 :: 10 :: chars "* 2" ++ 10 :: chars "3".
Lemma parser_never_returns_witness : parse_source 100 no_token blocked_source = NoResult.
Proof.
  refine (parser_never_returns 100 no_token blocked_source ([mkToken TOK_INT (chars "1") 1 1] ++
            mkToken TOK_NEWLINE [10] 2 2 :: [mkToken TOK_NEWLINE [10] 3 1]) (mkToken TOK_STAR (chars "*") 3 1) _ _ _ _ eq_refl _).
  - vm_compute. reflexivity.
  - eapply expression_line; [by apply written_atom|done..|]. constructor; [done|constructor].
  - done.
  - vm_compute. lia.
Defined.

(** A block is not left either: [{ * }].  And the text of a description that is
    no string is [length - 2] bytes long, which wraps around. *)
Example block_never_returns : parse_source 60 no_token (chars "fn f() { * }") = NoResult.
Proof. vm_compute. reflexivity. Qed.
Example description_underflows : parse_source 60 no_token (chars "@tool(description: 5) fn f() { }") = ParserCrash.
Proof. vm_compute. reflexivity. Qed.
