(* ===== verification/Driver.v ===== *)
(** * From the text of a program to its result (src/lang/agim.c)

    The driver puts the parts of the language together: lexer and parser, the type
    checker in strict mode, the compiler, the interpreter.  For programs that
    consist of an expression the theorems of these parts compose to one about the
    driver: it returns what the reference semantics gives for the expression that
    is written in the source.

    Callers ask for the result and the error; without them the driver does the
    same. *)

From Stdlib Require Import ZArith Lia String.
From stdpp Require Import base numbers list gmap.
From S2P Require Import Prelude Float64 Hash HashMap Nanbox Lexer Ast TypeChecker Parser Value Array MapValue Strings Block Bytecode Modules Semantics VM Compiler Codegen Simulation Programs.
Local Open Scope Z_scope.
Local Open Scope agim_scope.

(** ** Compiling *)

Inductive FileError := CouldNotOpen | OutOfMemory | FailedToRead.
(** Why a source is rejected.  The driver makes one text of the parts. *)
Inductive CompileError :=
  | ParseFailed (e : option ParseError)
  | TypeFailed (e : option (Z * TypeError))
  | CompilerFailed (line : Z) (message : list Z)
  | FileFailed (e : FileError).
(** The parser may not return, and parser and compiler may crash. *)
Inductive CompileOutcome := Code (k : Bytecode constant) | Rejected (e : CompileError) | NoAnswer | Crash.

Section compile.
(** The working directory, the files, the parser for imported modules, the depth of
    imports; the parser's fuel and the token a new parser starts with. *)
Context (cwd : option (list Z)) (read_file : list Z -> list Z + list Z) (parse : list Z -> list Z + AstNode) (import_fuel : nat).
Context (parse_fuel : nat) (garbage : Token).

(** [strict] is [g_strict_types]. *)
Definition compile_source (strict : bool) (path : option (list Z)) (source : list Z) : CompileOutcome :=
  match parse_source parse_fuel garbage source with
  | SyntaxError e => Rejected (ParseFailed e)
  | NoResult => NoAnswer
  | ParserCrash => Crash
  | Tree ast =>
      let '(ok, tc) := if strict then typechecker_check ast typechecker_new else (true, typechecker_new) in
      if negb ok then Rejected (TypeFailed (TypeChecker.error tc)) else
      match compiler_compile cwd read_file parse import_fuel (compiler_set_source_path compiler_new path) ast with
      | CompileCrash => Crash
      | CompileFailed line message => Rejected (CompilerFailed line message)
      | Compiled k => Code k
      end
  end.
Definition agim_compile (strict : bool) (source : list Z) : CompileOutcome := compile_source strict None source.
(** [file]: what reading the file gives. *)
Definition agim_compile_file (strict : bool) (path : list Z) (file : FileError + list Z) : CompileOutcome :=
  match file with inl e => Rejected (FileFailed e) | inr source => compile_source strict (Some path) source end.
End compile.

(** Freeing an error: undefined for a message that was not allocated. *)
Definition agim_error_free (e : CompileError) : option unit :=
  match e with FileFailed (OutOfMemory | FailedToRead) => None | _ => Some tt end.

(** ** Running *)

Inductive AgimResult := AGIM_OK | AGIM_ERROR_COMPILE | AGIM_ERROR_TYPE | AGIM_ERROR_RUNTIME.
Inductive AgimError := CompileTime (e : CompileError) | RunTime (message : string).
(** What [agim_run_with_result] returns, with [*result] and [*error]; or it does not
    return, or is undefined. *)
Inductive RunOutcome :=
  | Finished (r : AgimResult) (result : option ptr) (e : option AgimError) (st : Store)
  | Forever
  | Undefined_.

Section driver.
(** As above, and the allocations of the interpreter and its other instructions, as in [VM]. *)
Context (cwd : option (list Z)) (read_file : list Z -> list Z + list Z) (parse : list Z -> list Z + AstNode) (import_fuel : nat).
Context (parse_fuel : nat) (garbage : Token).
Context (realloc : ptr -> Z -> ptr) (frames_ok clone_ok grow_ok rem_ok : bool) (set_ok : set_allocs) (other : Opcode -> V unit).
Context (new_stack : ptr) (new_frames_ok : bool) (run_fuel : nat).
Local Abbreviation run := (vm_run realloc frames_ok clone_ok grow_ok rem_ok set_ok other run_fuel new_stack new_frames_ok).

(** The compiler allocates the constants, [vm_new] the globals.  What is freed at
    the end is not modelled. *)
Definition load_program (k : Bytecode constant) : M VM :=
  bc ← install k; vm ← vm_new; mret (vm_load new_stack new_frames_ok bc vm).
Definition run_code (k : Bytecode constant) (st : Store) : RunOutcome :=
  match load_program k st with
  | None => Undefined_
  | Some (vm, st) =>
      match run vm st with
      | None => Forever
      | Some (Return r vm st) =>
          match r with
          | VM_OK | VM_HALT =>
              match vm_peek 0 vm st with Next p _ st => Finished AGIM_OK (Some p) None st | _ => Undefined_ end
          | _ => Finished AGIM_ERROR_RUNTIME None (RunTime <$> VM.error vm) st
          end
      | Some _ => Undefined_
      end
  end.
Definition agim_run_with_result (strict : bool) (source : list Z) (st : Store) : RunOutcome :=
  match agim_compile cwd read_file parse import_fuel parse_fuel garbage strict source with
  | Code k => run_code k st
  | Rejected e => Finished AGIM_ERROR_COMPILE None (Some (CompileTime e)) st
  | NoAnswer => Forever
  | Crash => Undefined_
  end.
Definition agim_run (strict : bool) (source : list Z) (st : Store) : option AgimResult :=
  match agim_run_with_result strict source st with Finished r _ _ _ => Some r | _ => None end.
End driver.

(** ** Loading *)

(** Allocation adds cells and keeps the others. *)
Record allocates (st st' : Store) : Prop := {
  al_wf : store_wf st';
  al_kept : forall p c, cells st !! p = Some c -> cells st' !! p = Some c
}.
Lemma allocates_refl st : store_wf st -> allocates st st.
Proof. by split. Qed.
Lemma allocates_trans st1 st2 st3 : allocates st1 st2 -> allocates st2 st3 -> allocates st1 st3.
Proof. intros [] []. split; auto. Qed.
Lemma holds_allocates st st' p d : allocates st st' -> holds st p d -> holds st' p d.
Proof. intros H (Hp & c & Hc & Hd). split; [done|]. exists c. split; [by apply (al_kept _ _ H)|done]. Qed.

Lemma value_new_allocates st d : store_wf st -> exists p st', value_new d st = Some (p, st') /\ allocates st st' /\ holds st' p d.
Proof.
  intros Hwf. pose proof (value_new_fresh st Hwf) as Hf. eexists _, _. split; [done|]. split.
  - split; [by eapply (value_new_keeps_wf st d)|]. intros p c Hp. simpl. rewrite lookup_insert_ne; [done|]. intros E. congruence.
  - split; [destruct Hwf; unfold NULL; lia|]. eexists. split; [apply lookup_insert_eq|done].
Qed.
Lemma bind_some {A B} (m : M A) (k : A -> M B) st x st' : m st = Some (x, st') -> (m ≫= k) st = k x st'.
Proof. intros E. unfold mbind, M_bind. by rewrite E. Qed.

Lemma constants_allocates cs : forall st, store_wf st ->
  exists ps st', mapM value_new cs st = Some (ps, st') /\ allocates st st' /\ Forall2 (holds st') ps cs.
Proof.
  induction cs as [|d cs IH]; intros st Hwf; [exists [], st; split_and!; [done|by apply allocates_refl|constructor]|].
  destruct (value_new_allocates st d Hwf) as (p & st1 & E1 & A1 & H1).
  destruct (IH st1 (al_wf _ _ A1)) as (ps & st2 & E2 & A2 & H2). exists (p :: ps), st2. split_and!.
  - simpl. rewrite (bind_some _ _ _ _ _ E1). by rewrite (bind_some _ _ _ _ _ E2).
  - by eapply allocates_trans.
  - constructor; [by eapply holds_allocates|done].
Qed.
Lemma installed_allocates st st' ch k : allocates st st' -> chunk_installed st ch k -> chunk_installed st' ch k.
Proof. intros A [H1 H2]. split; [done|]. eapply Forall2_impl; [exact H2|]. intros. by eapply holds_allocates. Qed.
Lemma install_chunk_allocates k st : store_wf st ->
  exists ch st', install_chunk k st = Some (ch, st') /\ allocates st st' /\ chunk_installed st' ch k.
Proof.
  intros Hwf. destruct (constants_allocates (constants k) st Hwf) as (ps & st' & E & A & H). unfold install_chunk.
  rewrite (bind_some _ _ _ _ _ E). eexists _, _. split; [done|]. split; [done|]. by split.
Qed.
Lemma install_chunks_allocates ks : forall st, store_wf st ->
  exists chs st', mapM install_chunk ks st = Some (chs, st') /\ allocates st st' /\ Forall2 (chunk_installed st') chs ks.
Proof.
  induction ks as [|k ks IH]; intros st Hwf; [exists [], st; split_and!; [done|by apply allocates_refl|constructor]|].
  destruct (install_chunk_allocates k st Hwf) as (ch & st1 & E1 & A1 & H1).
  destruct (IH st1 (al_wf _ _ A1)) as (chs & st2 & E2 & A2 & H2). exists (ch :: chs), st2. split_and!.
  - simpl. rewrite (bind_some _ _ _ _ _ E1). by rewrite (bind_some _ _ _ _ _ E2).
  - by eapply allocates_trans.
  - constructor; [by eapply installed_allocates|done].
Qed.
Lemma install_installs k st : store_wf st -> exists bc st', install k st = Some (bc, st') /\ allocates st st' /\ installed st' bc k.
Proof.
  intros Hwf. destruct (install_chunk_allocates (main k) st Hwf) as (ch & st1 & E1 & A1 & H1).
  destruct (install_chunks_allocates (functions k) st1 (al_wf _ _ A1)) as (chs & st2 & E2 & A2 & H2). unfold install.
  rewrite (bind_some _ _ _ _ _ E1), (bind_some _ _ _ _ _ E2). eexists _, _. split; [done|]. split; [by eapply allocates_trans|].
  split; [by eapply installed_allocates|done|done].
Qed.

Lemma map_new_get {A} key : map_get (map_new (A := A)) key = None.
Proof.
  assert (Hc : forall i, chain (map_new (A := A)) i = []).
  { intros i. unfold chain, map_new, map_with_capacity. cbn [buckets]. set (r := replicate _ _).
    destruct (r !! i) as [x|] eqn:E; [|done]. by apply lookup_replicate in E as [-> _]. }
  unfold map_get, map_find_entry, find_entry_internal. by rewrite Hc.
Qed.

Definition undefined_variable : list Z -> answer NanValue := fun _ => Failed VM_ERROR_UNDEFINED_VARIABLE "undefined variable".

(** A program as [vm_load] leaves it: nothing on the stack, one frame, no
    globals. *)
Record started_at (k : Bytecode constant) (new_stack : ptr) (bc : Bytecode ptr) (g : ptr) (vm : VM) (st : Store) : Prop := {
  sa_installed : installed st bc k;
  sa_machine : machine new_stack 64 g bc vm [] [frame_at (mkFrame None 0 new_stack None) 0];
  sa_counters : reductions vm = 0 /\ reduction_limit vm = 10000;
  sa_initialized : initialized vm = true;
  sa_error : VM.error vm = None;
  sa_globals : forall name, read_global st g name = undefined_variable name
}.

Lemma load_program_starts k new_stack st : store_wf st -> new_stack <> NULL ->
  exists vm st' bc g, load_program new_stack true k st = Some (vm, st') /\ started_at k new_stack bc g vm st'.
Proof.
  intros Hwf Hn. destruct (install_installs k st Hwf) as (bc & st1 & E1 & A1 & H1).
  destruct (value_new_allocates st1 (VMap map_new) (al_wf _ _ A1)) as (g & st2 & E2 & A2 & Hg & c & Hc & Hd).
  eexists _, st2, bc, g. split.
  - unfold load_program. rewrite (bind_some _ _ _ _ _ E1). unfold mbind, M_bind, vm_new. rewrite E2. done.
  - assert (Hst : (new_stack =? NULL) = false) by (by apply Z.eqb_neq).
    unfold vm_load, vm_ensure_initialized. rewrite Hst. cbn [initialized negb]. split; try done.
    + destruct H1 as [M1 F1 S1]. split; [by eapply installed_allocates| |done].
      eapply Forall2_impl; [exact F1|]. intros. by eapply installed_allocates.
    + unfold vm_reset. cbn [stack]. rewrite Hst. split; try done; simpl; unfold VM_FRAMES_INITIAL; lia.
    + intros name. unfold read_global. unfold map_value_get, load_map. rewrite (proj2 (Z.eqb_neq g NULL) Hg).
      assert (El : load g st2 = Some (c, st2)) by (unfold load; by rewrite Hc). unfold mbind, M_bind. rewrite El. simpl. rewrite Hd.
      by rewrite map_new_get.
Qed.

(** ** The code of an expression *)

Section code.
Context (cwd : option (list Z)) (read_file : list Z -> list Z + list Z) (parse : list Z -> list Z + AstNode) (import_fuel : nat).

Lemma expression_laid l l' e k : frag_expr e ->
  compiler_compile cwd read_file parse import_fuel compiler_new (NODE_PROGRAM l [NODE_EXPR_STMT l' e]) = Compiled k ->
  Z.of_nat (length (code (main k))) <= 0xFFFF -> Z.of_nat (length (strings k)) <= 0x10000 ->
  exists pc, code_expr (image_of k (main k)) [] 0 e pc /\ op_at (image_of k (main k)) pc OP_HALT.
Proof.
  intros Hf E Hl Hs. unfold compiler_compile in E. set (c0 := mkCompiler _ _ _ _ _ _ _) in E.
  change (compile_program cwd read_file parse import_fuel l [NODE_EXPR_STMT l' e]) with (compile AsExpr e ;; emit_op OP_HALT l) in E.
  destruct ((compile AsExpr e ;; emit_op OP_HALT l) c0) as [[] c'] eqn:Ec. simpl in E. destruct (c_crashed c'); [done|].
  destruct (had_error c') eqn:He; [done|]. injection E as <-.
  assert (Hspec : spec false false (compile AsExpr e ;; emit_op OP_HALT l)
    (then_ (expr_code e) (plain (fun K Γ a b => op_at K a OP_HALT /\ b = (a + 1)%nat)))).
  { apply (spec_seq false false false); [by apply compile_expr_layout|apply spec_op|mono_auto|done]. }
  destruct (Hspec c0 c') as (new & nb & Hch & Hnew & HK); [split; simpl; [done|lia]|split; [split; [done|constructor]|done]|done|done|].
  assert (Hmain : current_chunk c' = main (c_code c')) by (unfold current_chunk; by rewrite (ch_chunk _ _ _ _ Hch)).
  assert (Hnb : nb = []) by (by apply (ch_inside _ _ _ _ Hch)). subst nb.
  destruct (HK (image_of (c_code c') (main (c_code c'))) 0%nat) as (p & Γ1 & [-> H1] & [_ [H2 _]] & _).
  - unfold image_of. rewrite <- Hmain. split; try done. simpl. by rewrite Hmain.
  - by intros b Hb%not_elem_of_nil.
  - by exists p.
Qed.
End code.

(** ** Running instructions to the end of the program or of the time slice *)

Section slice.
Context (realloc : ptr -> Z -> ptr) (clone_ok grow_ok rem_ok : bool) (set_ok : set_allocs) (other : Opcode -> V unit).
Context `{Hother : !OtherInstructions other}.
Local Abbreviation step := (instruction realloc true clone_ok grow_ok rem_ok set_ok other).
Local Abbreviation loop := (run_instructions realloc true clone_ok grow_ok rem_ok set_ok other).
Local Abbreviation reaches := (reaches realloc clone_ok grow_ok rem_ok set_ok other).
Local Abbreviation run := (vm_run realloc true clone_ok grow_ok rem_ok set_ok other).

(** The end of the slice: at least as many instructions as the limit. *)
Definition yields (limit : Z) (o : outcome unit) (st : Store) : Prop := exists vm, o = Return VM_YIELD vm st /\ limit <= reductions vm.
(** The last instruction was the one of [vm1]; it does not lead to another one. *)
Definition ends (limit : Z) (vm1 : VM) (st : Store) (o : outcome unit) : Prop :=
  match step vm1 st with
  | Fault => o = Fault
  | Return r vm2 st2 => exists n, o = Return r (with_counters n limit vm2) st2
  | Next _ _ _ => True
  end.

Lemma step_counters n l vm st : step (with_counters n l vm) st = map_vm (with_counters n l) (step vm st).
Proof. apply blind_instruction, other_blind. Qed.

Lemma loop_ends st l vm vm1 : reaches st vm vm1 -> (forall p vm2 st2, step vm1 st <> Next p vm2 st2) ->
  forall fuel n o, loop fuel (with_counters n l vm) st = Some o -> ends l vm1 st o \/ yields l o st.
Proof.
  intros Hr Hend. induction Hr as [vm|vm p vm2 vm1 Hs Hr IH]; intros [|fuel] n o; [done| |done|]; simpl; unfold mbind at 1, V_bind at 1;
    rewrite step_counters.
  - intros E. left. unfold ends. destruct (step vm st) as [|r v s|p v s]; [|simpl in E; injection E as <-; by exists n|by edestruct Hend].
    by injection E.
  - rewrite Hs. cbn [map_vm]. change (match p with Slow => slow_check | _ => dispatch_check end) with (check_after p).
    set (k := u64 (n + 1)). destruct (check_after_spec p (with_counters n l vm2) st) as [E|[E Hl]]; rewrite E.
    + intros H. by apply (IH Hend fuel k o).
    + intros [= <-]. right. eexists. split; [done|]. exact Hl.
Qed.

(** A loaded program runs, in its one slice, to an end it reaches or to the end of
    the slice. *)
Lemma run_ends k new_stack bc g vm st vm1 fuel : started_at k new_stack bc g vm st -> reaches st vm vm1 ->
  (forall p vm2 st2, step vm1 st <> Next p vm2 st2) -> slice_end 10000 <= Z.of_nat fuel ->
  exists o, run fuel new_stack true vm st = Some o /\ (ends 10000 vm1 st o \/ yields 10000 o st).
Proof.
  intros [_ Hm [Hr Hl] Hi _ _] Hreach Hend Hf.
  destruct (run_preempts realloc true clone_ok grow_ok rem_ok set_ok other new_stack true vm st fuel) as (o & Ho & _);
    [done|lia|by rewrite Hl|]. exists o. split; [done|]. unfold vm_run, vm_ensure_initialized in Ho. rewrite Hi in Ho.
  rewrite (m_frames _ _ _ _ _ _ _ Hm) in Ho. simpl in Ho.
  assert (E : dispatch_check vm st = Next tt (with_counters 1 10000 vm) st).
  { rewrite <- (with_own_counters vm) at 1. rewrite Hr, Hl. done. }
  rewrite E in Ho. by eapply loop_ends.
Qed.
End slice.

(** ** The value of an expression *)

(** The value of an expression on its own: no variables, no functions; calls are
    left open. *)
Definition value_of (n : nat) (e : AstNode) : answer NanValue :=
  r ← eval 64 undefined_variable (fun _ => Unknown) (fun _ => None) n 1 0 0 [] e; Done r.1.

(** [a] is the answer [b] where it is one. *)
Definition approximates {A} (a b : answer A) : Prop := a = Unknown \/ a = b.
Lemma approximates_refl {A} (a : answer A) : approximates a a.
Proof. by right. Qed.
Lemma approximates_bind {A B} (m m' : answer A) (k k' : A -> answer B) :
  approximates m m' -> (forall x, approximates (k x) (k' x)) -> approximates (m ≫= k) (m' ≫= k').
Proof. intros [->| ->] Hk; [by left|]. destruct m'; simpl; try (by right). apply Hk. Qed.

Lemma eval_approximates global callee program : (forall name, global name = undefined_variable name) -> forall n,
  (forall depth base t ρ e, approximates (eval 64 undefined_variable (fun _ => Unknown) program n depth base t ρ e)
                                         (eval 64 global callee program n depth base t ρ e)) /\
  (forall depth base t ρ es, approximates (eval_args 64 undefined_variable (fun _ => Unknown) program n depth base t ρ es)
                                          (eval_args 64 global callee program n depth base t ρ es)).
Proof.
  intros Hg. induction n as [|n [IHe IHa]]; [by split; intros; left|].
  assert (IHc : forall d b f ws, approximates (call 64 undefined_variable (fun _ => Unknown) program n d b f ws)
    (call 64 global callee program n d b f ws)) by (intros; left; by destruct n).
  split.
  - intros depth base t ρ e. destruct e; simpl; try apply approximates_refl; try (by left); rewrite ?Hg.
    all: repeat first [apply approximates_refl | apply IHe | apply IHa | apply IHc | apply approximates_bind; [|intros ?] | case_match].
  - intros depth base t ρ [|e es]; simpl; [apply approximates_refl|].
    repeat first [apply approximates_refl | apply IHe | apply IHa | apply approximates_bind; [|intros ?]].
Qed.

(** A failure is an error of the interpreter. *)
Definition is_error (r : VMResult) : bool := match r with VM_OK | VM_HALT => false | _ => true end.
Definition fails_with_error {A} (a : answer A) : Prop := forall r message, a = Failed r message -> is_error r = true.
Lemma fails_bind {A B} (m : answer A) (k : A -> answer B) :
  fails_with_error m -> (forall x, fails_with_error (k x)) -> fails_with_error (m ≫= k).
Proof. intros Hm Hk r msg. destruct m; simpl; try done; [intros [= -> ->]; by eapply Hm|apply Hk]. Qed.
Create HintDb fails.
Lemma fails_done {A} (x : A) : fails_with_error (Done x).
Proof. done. Qed.
Lemma fails_unknown {A} : fails_with_error (@Unknown A).
Proof. done. Qed.
Lemma fails_undefined {A} : fails_with_error (@Undefined A).
Proof. done. Qed.
Lemma fails_failed {A} r message : is_error r = true -> fails_with_error (@Failed A r message).
Proof. by intros H r' m' [= <- _]. Qed.
#[export] Hint Resolve fails_done fails_unknown fails_undefined fails_bind : fails.
#[export] Hint Extern 1 (fails_with_error (Failed _ _)) => (apply fails_failed; reflexivity) : fails.
Ltac fails_auto := repeat first [solve [auto with fails] | apply fails_bind; [|intros ?] | case_match].

Lemma fails_in_int64 x : fails_with_error (in_int64 x).
Proof. unfold in_int64. fails_auto. Qed.
#[export] Hint Resolve fails_in_int64 : fails.
Lemma fails_binary op a b : fails_with_error (binary op a b).
Proof. unfold binary, addition, division, modulo, comparison, equality, arithmetic. destruct op; fails_auto. Qed.
Lemma fails_unary op a : fails_with_error (unary op a).
Proof. unfold unary. destruct op; fails_auto. Qed.
#[export] Hint Resolve fails_binary fails_unary : fails.

Lemma eval_fails program n :
  (forall depth base t ρ e, fails_with_error (eval 64 undefined_variable (fun _ => Unknown) program n depth base t ρ e)) /\
  (forall depth base t ρ es, fails_with_error (eval_args 64 undefined_variable (fun _ => Unknown) program n depth base t ρ es)).
Proof.
  induction n as [|n [IHe IHa]]; [by split|].
  assert (IHc : forall d b f ws, fails_with_error (call 64 undefined_variable (fun _ => Unknown) program n d b f ws)) by (intros; by destruct n).
  assert (Hf : forall h A (x : A), fails_with_error (fits 64 h x)) by (intros; unfold fits; fails_auto).
  split.
  - intros depth base t ρ e. destruct e; simpl; try apply fails_unknown; try apply Hf; unfold undefined_variable.
    all: repeat first [apply IHe | apply IHa | apply IHc | apply Hf | solve [auto with fails] | apply fails_bind; [|intros ?] | case_match].
  - intros depth base t ρ [|e es]; simpl; [apply fails_done|].
    repeat first [apply IHe | apply IHa | solve [auto with fails] | apply fails_bind; [|intros ?]].
Qed.
Lemma value_fails n e : fails_with_error (value_of n e).
Proof. apply fails_bind; [apply eval_fails|intros; apply fails_done]. Qed.

(** *** Which expressions have an answer *)

(** The operators that the parser puts into a [NODE_BINARY]. *)
Definition is_binary (op : TokenType) : bool :=
  match op with
  | TOK_AND | TOK_OR | TOK_PLUS | TOK_MINUS | TOK_STAR | TOK_SLASH | TOK_PERCENT
  | TOK_EQ | TOK_NE | TOK_LT | TOK_LE | TOK_GT | TOK_GE => true
  | _ => false
  end.
(** Expressions of truth values, integers and operators; a variable, a call by name
    and a compound assignment are in it, and fail since nothing is declared. *)
Fixpoint answered (e : AstNode) : bool :=
  match e with
  | NODE_BOOL _ _ | NODE_INT _ _ | NODE_IDENT _ _ => true
  | NODE_UNARY _ op x => match op with TOK_MINUS | TOK_NOT => answered x | _ => false end
  | NODE_BINARY _ op l r => is_binary op && answered l && answered r
  | NODE_TERNARY _ c x y => answered c && answered x && answered y
  | NODE_CALL _ (NODE_IDENT _ _) _ => true
  | NODE_ASSIGN _ (NODE_IDENT _ _) op _ => match op with TOK_ASSIGN => false | _ => true end
  | _ => false
  end.
(** The slots of the stack that the value of an expression takes to compute. *)
Fixpoint stack_need (e : AstNode) : nat :=
  match e with
  | NODE_UNARY _ _ x => stack_need x
  | NODE_BINARY _ TOK_AND l r | NODE_BINARY _ TOK_OR l r => stack_need l `max` stack_need r
  | NODE_BINARY _ _ l r => stack_need l `max` S (stack_need r)
  | NODE_TERNARY _ c x y => stack_need c `max` (stack_need x `max` stack_need y)
  | _ => 1
  end.
Fixpoint height (e : AstNode) : nat :=
  match e with
  | NODE_UNARY _ _ x => S (height x)
  | NODE_BINARY _ _ l r => S (height l `max` height r)
  | NODE_TERNARY _ c x y => S (height c `max` (height x `max` height y))
  | _ => 2
  end.

(** A word that is an integer or a truth value. *)
Definition small (w : NanValue) : bool := nanbox_is_int w || nanbox_is_bool w.
Lemma small_int i : small (nanbox_int i) = true.
Proof. unfold small. by rewrite int_boxed. Qed.
Lemma small_bool b : small (nanbox_bool b) = true.
Proof. by destruct b. Qed.
Lemma small_not_obj w : small w = true -> nanbox_is_obj w = false.
Proof.
  unfold small, nanbox_is_int, nanbox_is_bool, nanbox_is_obj. intros [->%Z.eqb_eq|[->%Z.eqb_eq| ->%Z.eqb_eq]%orb_true_iff]%orb_true_iff; done.
Qed.
Lemma small_not_nil w : small w = true -> nanbox_is_nil w = false.
Proof. unfold nanbox_is_nil. intros H. apply Z.eqb_neq. by intros ->. Qed.
Lemma small_not_double w : small w = true -> nanbox_is_number w = nanbox_is_int w.
Proof.
  unfold small, nanbox_is_number. intros [Hi|[->%Z.eqb_eq| ->%Z.eqb_eq]%orb_true_iff]%orb_true_iff; [|done|done].
  rewrite Hi. apply orb_true_r.
Qed.

(** The answer is one, and a value of it is small. *)
Definition small_answer (a : answer NanValue) : Prop := a <> Unknown /\ forall w, a = Done w -> small w = true.
Lemma small_done w : small w = true -> small_answer (Done w).
Proof. intros H. by split; [|intros ? [= <-]]. Qed.
Lemma small_failed r message : small_answer (Failed r message).
Proof. by split. Qed.
Lemma small_arithmetic ints floats a b : small a = true -> small b = true -> (forall x y, ints x y <> Unknown) ->
  small_answer (arithmetic ints floats a b).
Proof.
  intros Ha Hb Hi. unfold arithmetic. rewrite (small_not_double _ Ha), (small_not_double _ Hb). destruct (_ && _); [|apply small_failed].
  specialize (Hi (nanbox_as_int a) (nanbox_as_int b)). unfold mbind, answer_bind. destruct (ints _ _); try (by split). apply small_done, small_int.
Qed.
Lemma small_comparison ints floats a b : small a = true -> small b = true -> small_answer (comparison ints floats a b).
Proof.
  intros Ha Hb. unfold comparison. rewrite (small_not_obj _ Ha). simpl.
  repeat case_match; first [apply small_done, small_bool | apply small_failed].
Qed.
Lemma small_equality a b f : small a = true -> small (b : NanValue) = true -> small_answer (r ← equality a b; Done (nanbox_bool (f r))).
Proof. intros Ha Hb. unfold equality. rewrite (small_not_obj _ Ha). apply small_done, small_bool. Qed.
Lemma in_int64_known x : in_int64 x <> Unknown.
Proof. unfold in_int64. by case_match. Qed.

Lemma small_binary op a b : is_binary op = true -> op <> TOK_AND -> op <> TOK_OR -> small a = true -> small b = true ->
  small_answer (binary op a b).
Proof.
  intros Hop H1 H2 Ha Hb. destruct op; try done; simpl; try (by apply small_comparison).
  - unfold addition. rewrite (small_not_obj _ Ha), (small_not_obj _ Hb), (small_not_nil _ Ha).
    apply small_arithmetic; [done..|]. intros. apply in_int64_known.
  - apply small_arithmetic; [done..|]. intros. apply in_int64_known.
  - apply small_arithmetic; [done..|]. intros. apply in_int64_known.
  - unfold division. case_match; [apply small_failed|]. apply small_arithmetic; [done..|]. intros. case_match; [done|apply in_int64_known].
  - unfold modulo. repeat case_match; first [apply small_failed | apply small_done, small_int].
  - by apply (small_equality a b (fun r => r)).
  - by apply small_equality.
Qed.
Lemma small_unary op a : op = TOK_MINUS \/ op = TOK_NOT -> small a = true -> small_answer (unary op a).
Proof.
  intros [->| ->] Ha; simpl; [|apply small_done, small_bool]. pose proof (small_not_double _ Ha) as Hd. unfold nanbox_is_number in Hd.
  destruct (nanbox_is_int a); [apply small_done, small_int|]. destruct (nanbox_is_double a); [done|]. apply small_failed.
Qed.

(** With nothing declared the variables do not change. *)
Definition settled (a : answer (NanValue * env)) : Prop := a <> Unknown /\ forall r, a = Done r -> small r.1 = true /\ r.2 = [].
Lemma settled_bind m (k : NanValue * env -> answer (NanValue * env)) :
  settled m -> (forall w, small w = true -> settled (k (w, []))) -> settled (m ≫= k).
Proof.
  intros [Hm Hd] Hk. destruct m as [| |r msg|[w ρ]]; simpl; try (by split).
  destruct (Hd _ eq_refl) as [Hw Hρ]. simpl in Hw, Hρ. subst ρ. by apply Hk.
Qed.
Lemma settled_small m : small_answer m -> settled (w ← m; Done (w, [])).
Proof. intros [Hm Hd]. destruct m; simpl; try (by split). split; [done|]. intros ? [= <-]. split; [by apply Hd|done]. Qed.

Lemma eval_settled program n : forall t e, answered e = true -> (t + stack_need e <= 64)%nat -> (height e <= n)%nat ->
  settled (eval 64 undefined_variable (fun _ => Unknown) program n 1 0 t [] e).
Proof.
  induction n as [|n IH]; intros t e Ha Hs Hh; [destruct e; simpl in Hh; lia|].
  assert (Hput : forall w, small w = true -> (t < 64)%nat -> settled (fits 64 (0 + length ([] : env) + t) (w, []))).
  { intros w Hw Ht. unfold fits. rewrite (proj2 (Nat.ltb_lt _ _)) by (simpl; lia). split; [done|]. by intros ? [= <-]. }
  destruct e; try discriminate Ha.
  - cbn [answered] in Ha. apply andb_true_iff in Ha as [[Hop Hl]%andb_true_iff Hr]. cbn [height] in Hh.
    assert (Hcases : op = TOK_AND \/ op = TOK_OR \/ op <> TOK_AND /\ op <> TOK_OR) by (destruct op; tauto || (right; right; by split)).
    destruct Hcases as [->|[->|[H1 H2]]].
    + cbn [stack_need] in Hs. simpl. apply settled_bind; [apply IH; [done|lia..]|]. intros w Hw. simpl.
      destruct (nanbox_is_truthy w); [apply IH; [done|lia..]|]. split; [done|]. by intros ? [= <-].
    + cbn [stack_need] in Hs. simpl. apply settled_bind; [apply IH; [done|lia..]|]. intros w Hw. simpl.
      destruct (nanbox_is_truthy w); [|apply IH; [done|lia..]]. split; [done|]. by intros ? [= <-].
    + assert (Hs' : (t + (stack_need e1 `max` S (stack_need e2)) <= 64)%nat) by (destruct op; done).
      assert (E : settled (a ← eval 64 undefined_variable (fun _ => Unknown) program n 1 0 t [] e1;
        b ← eval 64 undefined_variable (fun _ => Unknown) program n 1 0 (S t) a.2 e2; w ← binary op a.1 b.1; Done (w, b.2)));
        [|by destruct op].
      apply settled_bind; [apply IH; [done|lia..]|]. intros a Ha. apply settled_bind; [apply IH; [done|simpl in *; lia..]|]. intros b Hb.
      by apply settled_small, small_binary.
  - simpl in *. apply settled_bind; [apply IH; [by destruct op|lia..]|]. intros a Hw.
    apply settled_small, small_unary; [destruct op; (by left) || (by right) || done|done].
  - simpl in Ha. destruct e; try discriminate Ha. simpl in Hh. destruct n; [lia|]. by split.
  - simpl in *. apply andb_true_iff in Ha as [[Hc Hx]%andb_true_iff Hy]. apply settled_bind; [apply IH; [done|lia..]|]. intros a Hw.
    simpl. destruct (nanbox_is_truthy a); apply IH; (done || lia).
  - simpl in Ha. destruct e1; try discriminate Ha. simpl in Hh. destruct n; [lia|]. destruct op; try discriminate Ha; by split.
  - by split.
  - apply Hput; [apply small_int|simpl in Hs; lia].
  - apply Hput; [apply small_bool|simpl in Hs; lia].
Qed.
(** Such an expression has an answer. *)
Lemma value_answered n e : answered e = true -> (stack_need e <= 64)%nat -> (height e <= n)%nat -> value_of n e <> Unknown.
Proof.
  intros Ha Hs Hh. destruct (eval_settled (fun _ => None) n 0 e Ha Hs Hh) as [H _]. unfold value_of.
  by destruct (eval _ _ _ _ _ _ _ _ _ _).
Qed.

(** ** The driver on expressions *)

Section expressions.
Context (cwd : option (list Z)) (read_file : list Z -> list Z + list Z) (parse : list Z -> list Z + AstNode) (import_fuel : nat).
Context (parse_fuel : nat) (garbage : Token).
Context (realloc : ptr -> Z -> ptr) (clone_ok grow_ok rem_ok : bool) (set_ok : set_allocs) (other : Opcode -> V unit).
Context `{Hother : !OtherInstructions other} (new_stack : ptr) (run_fuel : nat).
Local Abbreviation step := (instruction realloc true clone_ok grow_ok rem_ok set_ok other).
Local Abbreviation run := (vm_run realloc true clone_ok grow_ok rem_ok set_ok other run_fuel new_stack true).
Local Abbreviation leads := (leads realloc clone_ok grow_ok rem_ok set_ok other).
Local Abbreviation outcome_of := (run_code realloc true clone_ok grow_ok rem_ok set_ok other new_stack true run_fuel).

(** The program has counted 10000 reductions before its end. *)
Definition slice_over (k : Bytecode constant) (st : Store) : Prop := exists vm st1 vm2,
  load_program new_stack true k st = Some (vm, st1) /\ run vm st1 = Some (Return VM_YIELD vm2 st1) /\ 10000 <= reductions vm2.

(** What the driver has to return for an answer of the semantics. *)
Definition returns (ans : answer NanValue) (o : RunOutcome) : Prop :=
  match ans with
  | Unknown => False
  | Undefined => o = Undefined_
  | Failed _ message => exists st', o = Finished AGIM_ERROR_RUNTIME None (Some (RunTime message)) st'
  | Done w => exists p st1 st', box w st1 = Some (p, st') /\ o = Finished AGIM_OK (Some p) None st'
  end.

Lemma machine_counters sb room g bc vm ws fs n l : machine sb room g bc vm ws fs -> machine sb room g bc (with_counters n l vm) ws fs.
Proof. intros []. by split. Qed.

Lemma halts st sb room g bc F K vm ws fs pc : machine sb room g bc vm ws (frame_at F pc :: fs) -> runs st bc F K -> op_at K pc OP_HALT ->
  exists vm1, step vm st = Return VM_HALT vm1 st /\ machine sb room g bc vm1 ws (frame_at F (pc + 1) :: fs).
Proof.
  intros H HK Hop. destruct (fetch_op _ _ _ _ _ _ _ _ _ _ _ _ H HK Hop) as (vm1 & E & H1). exists vm1. split; [|done].
  unfold instruction. by rewrite (bind_next _ _ _ _ _ _ E).
Qed.

(** The code of an expression, from the start of the program on. *)
Lemma expression_leads k bc g vm st e pc n : started_at k new_stack bc g vm st -> code_expr (image_of k (main k)) [] 0 e pc ->
  leads st vm (value_of n e)
    (fun w vm' => machine new_stack 64 g bc vm' [w] [frame_at (mkFrame None 0 new_stack None) pc]).
Proof.
  intros [Hi Hm _ _ _ Hg] Hc. set (F := mkFrame None 0 new_stack None) in *.
  assert (HK : runs st bc F (image_of k (main k))) by by eapply installed_runs.
  assert (Himpl : implements st bc (fun _ => None)) by done.
  pose proof (eval_simulated realloc clone_ok grow_ok rem_ok set_ok other st new_stack 64 g bc (fun _ => None) Himpl n 1%nat [] e
    (image_of k (main k)) F [] [] [] 0%nat pc vm) as H. cbn [words app fmap list_fmap length] in H.
  unfold value_of. eapply leads_bind.
  - destruct (proj1 (eval_approximates (read_global st g) (read_callee st) (fun _ => None) Hg n) 1%nat 0%nat 0%nat [] e) as [->|E]; [done|].
    rewrite E. apply H; [|done|done]. by split; [|simpl; lia|].
  - intros [w ρ] vm1 [Hn H1]. destruct ρ; [|done]. by apply leads_done.
Qed.

Lemma run_code_returns k e pc n st : code_expr (image_of k (main k)) [] 0 e pc -> op_at (image_of k (main k)) pc OP_HALT ->
  store_wf st -> new_stack <> NULL -> slice_end 10000 <= Z.of_nat run_fuel -> value_of n e <> Unknown ->
  returns (value_of n e) (outcome_of k st) \/ slice_over k st.
Proof.
  intros Hc Hh Hwf Hn Hf Hans. destruct (load_program_starts k new_stack st Hwf Hn) as (vm & st1 & bc & g & El & Hs).
  pose proof (expression_leads k bc g vm st1 e pc n Hs Hc) as H. set (F := mkFrame None 0 new_stack None) in *.
  assert (Hrun : forall vm1, reaches realloc clone_ok grow_ok rem_ok set_ok other st1 vm vm1 ->
    (forall p vm2 st2, step vm1 st1 <> Next p vm2 st2) -> (forall o, run vm st1 = Some o ->
      ends realloc clone_ok grow_ok rem_ok set_ok other 10000 vm1 st1 o -> returns (value_of n e) (outcome_of k st)) ->
    returns (value_of n e) (outcome_of k st) \/ slice_over k st).
  { intros vm1 Hr Hend Hok. edestruct (run_ends realloc clone_ok grow_ok rem_ok set_ok other) as (o & Ho & [He|(vm2 & -> & Hl)]); [exact Hs|exact Hr|done|exact Hf|left; by eapply Hok|].
    right. exists vm, st1, vm2. by split_and!. }
  destruct (value_of n e) as [| |r msg|w] eqn:Ev; [done| | |].
  - destruct H as (vm1 & Hr & Hstep). apply (Hrun vm1 Hr); [by rewrite Hstep|]. intros o Ho He. unfold ends in He. rewrite Hstep in He. subst o.
    unfold returns, run_code. by rewrite El, Ho.
  - destruct H as (vm1 & vm2 & Hr & Hstep & Hmsg). apply (Hrun vm1 Hr); [by rewrite Hstep|]. intros o Ho He. unfold ends in He.
    rewrite Hstep in He. destruct He as [i ->]. exists st1. unfold run_code. rewrite El, Ho.
    pose proof (value_fails n e r msg Ev) as Hr'. change (VM.error (with_counters i 10000 vm2)) with (VM.error vm2). rewrite Hmsg. by destruct r.
  - destruct H as (vm1 & Hr & Hm). pose proof (sa_installed _ _ _ _ _ _ Hs) as Hi.
    destruct (halts st1 _ _ _ _ F (image_of k (main k)) _ _ _ _ Hm ltac:(by eapply installed_runs) Hh) as (vm2 & Hstep & Hm2).
    apply (Hrun vm1 Hr); [by rewrite Hstep|]. intros o Ho He. unfold ends in He. rewrite Hstep in He. destruct He as [i ->].
    unfold returns, run_code. rewrite El, Ho. unfold vm_peek.
    rewrite (bind_next _ _ _ _ _ _ (peek_top st1 _ _ _ _ _ [] _ w (machine_counters _ _ _ _ _ _ _ i 10000 Hm2))).
    unfold lift. assert (Hb : exists p st', box w st1 = Some (p, st')) by (unfold box; case_match; by eexists _, _).
    destruct Hb as (p & st' & Hb). rewrite Hb. by exists p, st1, st'.
Qed.

(** C2: the driver runs what is written.  Take an expression of nil, truth values,
    integers, floats, variables, operators, conditionals, assignments to variables and
    calls by name of what is not a builtin function (no string literals), nested less
    than [MAX_PARSE_DEPTH] deep, and any source, not in strict mode, that the lexer
    splits into a way to write it, with brackets where the precedence of the operators
    asks for them.  Let it compile, to code whose offsets and indices fit in 16 bits,
    and let the reference semantics have an answer for it, which it always has
    ([answered], with the height of the tree as fuel) when the literals are truth values and integers, at most 64 words of
    stack are needed and no variable is assigned with [=] (the other uses of a variable
    and the calls fail, since nothing is declared).  Then [agim_run_with_result],
    through lexer, parser, compiler and interpreter, returns [AGIM_OK] and the value of
    the semantics, or [AGIM_ERROR_RUNTIME] and the message of the semantics, or is
    undefined where the semantics is; or else the program had not ended when 10000
    reductions were counted.  The allocations of the stack and of the call frames
    succeed; of the instructions that are not modelled it is assumed that they do not
    look at the counters of the time slice ([OtherInstructions]). *)
Theorem agim_run_written source m r d s e ts eof k n st :
  tokens source = ts ++ [eof] -> type eof = TOK_EOF -> written m r d s e ts -> 1 <= m -> 1 <= r -> d < MAX_PARSE_DEPTH ->
  (length ts + 1 < parse_fuel)%nat -> frag_expr e ->
  agim_compile cwd read_file parse import_fuel parse_fuel garbage false source = Code k ->
  Z.of_nat (length (code (main k))) <= 0xFFFF -> Z.of_nat (length (strings k)) <= 0x10000 ->
  store_wf st -> new_stack <> NULL -> slice_end 10000 <= Z.of_nat run_fuel ->
  value_of n e <> Unknown \/ answered e = true /\ (stack_need e <= 64)%nat /\ (height e <= n)%nat ->
  returns (value_of n e)
    (agim_run_with_result cwd read_file parse import_fuel parse_fuel garbage realloc true clone_ok grow_ok rem_ok set_ok other
       new_stack true run_fuel false source st) \/
  slice_over k st.
Proof.
  intros Hts Heof Hw Hm Hr Hd Hn Hfrag Hk Hl1 Hl2 Hwf Hs Hf Hans.
  assert (Hknown : value_of n e <> Unknown) by (destruct Hans as [?|(? & ? & ?)]; [done|by apply value_answered]).
  unfold agim_run_with_result. rewrite Hk.
  unfold agim_compile, compile_source in Hk. rewrite (written_parses _ _ _ _ _ _ _ _ _ _ Hts Heof Hw Hm Hr Hd Hn) in Hk. simpl in Hk.
  change (compiler_set_source_path compiler_new None) with compiler_new in Hk.
  destruct (compiler_compile _ _ _ _ _ _) as [| |k'] eqn:Ek; try done. injection Hk as ->.
  destruct (expression_laid _ _ _ _ _ _ _ _ Hfrag Ek Hl1 Hl2) as (pc & Hc & Hh). by eapply run_code_returns.
Qed.
End expressions.

(** [(1 + 2) * 3 < 10 ? 7 : 8] *)
Definition sample_source : list Z := chars "(1 + 2) * 3 < 10 ? 7 : 8".
Definition no_files : list Z -> list Z + list Z := fun _ => inl [].
Definition no_modules : list Z -> list Z + AstNode := fun _ => inl [].
Definition empty_store : Store := mkStore empty 1 None.
Definition run_fuel : nat := Z.to_nat 10048.
Definition run_source (parse_fuel : nat) (source : list Z) : RunOutcome :=
  agim_run_with_result None no_files no_modules 0 parse_fuel no_token in_place true true true true allocs_ok no_other 1000 true run_fuel
    false source empty_store.
Definition compiled_source (parse_fuel : nat) (source : list Z) : CompileOutcome :=
  agim_compile None no_files no_modules 0 parse_fuel no_token false source.
Definition sample_code : Bytecode constant := match compiled_source 20 sample_source with Code k => k | _ => bytecode_new end.
Definition sample_tokens : list Token :=
  (fun '(t, s, column) => mkToken t (chars s) 1 column) <$>
  [(TOK_LPAREN, "(", 1); (TOK_INT, "1", 2); (TOK_PLUS, "+", 4); (TOK_INT, "2", 6); (TOK_RPAREN, ")", 7); (TOK_STAR, "*", 9);
   (TOK_INT, "3", 11); (TOK_LT, "<", 13); (TOK_INT, "10", 15); (TOK_QUESTION, "?", 18); (TOK_INT, "7", 20); (TOK_COLON, ":", 22);
   (TOK_INT, "8", 24); (TOK_EOF, "", 25)]%string.
Definition sample_tree : AstNode :=
  NODE_TERNARY 1 (NODE_BINARY 1 TOK_LT (NODE_BINARY 1 TOK_STAR (NODE_BINARY 1 TOK_PLUS (NODE_INT 1 1) (NODE_INT 1 2)) (NODE_INT 1 3)) (NODE_INT 1 10))
    (NODE_INT 1 7) (NODE_INT 1 8).

Lemma agim_run_written_witness :
  returns (Done (nanbox_int 7)) (run_source 20 sample_source) \/
  slice_over in_place true true true allocs_ok no_other 1000 run_fuel sample_code empty_store.
Proof.
  set (T i := nth i sample_tokens no_token).
  pose proof (written_infix (T 2%nat) _ _ _ _ _ _ _ _ _ _ _ _ _ _ eq_refl (written_atom (T 1%nat) _ eq_refl) ltac:(done) ltac:(done)
    (written_atom (T 3%nat) _ eq_refl) ltac:(done)) as Sum.
  pose proof (written_group (T 0%nat) (T 4%nat) 8 9 _ _ _ _ eq_refl eq_refl ltac:(done) ltac:(done) Sum) as Group.
  pose proof (written_infix (T 5%nat) _ _ _ _ _ _ _ _ _ _ _ _ _ _ eq_refl Group ltac:(done) ltac:(done)
    (written_atom (T 6%nat) _ eq_refl) ltac:(done)) as Mul.
  pose proof (written_infix (T 7%nat) _ _ _ _ _ _ _ _ _ _ _ _ _ _ eq_refl Mul ltac:(done) ltac:(done)
    (written_atom (T 8%nat) _ eq_refl) ltac:(done)) as Less.
  pose proof (written_ternary (T 9%nat) (T 11%nat) _ _ _ _ _ _ _ _ _ _ _ _ _ _ _ _ _ _ eq_refl eq_refl Less ltac:(done) ltac:(done)
    (written_atom (T 10%nat) _ eq_refl) ltac:(done) ltac:(done) (written_atom (T 12%nat) _ eq_refl) ltac:(done)) as All.
  refine (agim_run_written None no_files no_modules 0 20 no_token in_place true true true allocs_ok no_other 1000 run_fuel
    sample_source _ _ _ _ sample_tree _ (T 13%nat) sample_code 9 empty_store _ eq_refl All _ _ _ _ _ _ _ _ _ _ _ _).
  all: try (vm_compute; first [reflexivity | done | lia]).
  - repeat constructor.
Defined.

(** [fn fact(n) { if n < 2 { return 1 } return n * fact(n - 1) }] and its call. *)
Definition fact_source : list Z :=
  chars "fn fact(n) { if n < 2 { return 1 }" ++ 10 :: chars "return n * fact(n - 1) }" ++ 10 :: chars "fact(5)".
(** [let i = 0] and [while i < 3000 { i = i + 1 }]: more than 10000 instructions. *)
Definition long_source : list Z := chars "let i = 0" ++ 10 :: chars "while i < 3000 { i = i + 1 }" ++ [10].
Definition result_of (o : RunOutcome) : option (AgimResult * option (vdata ptr) * option AgimError) :=
  match o with
  | Finished r p e st => Some (r, p ← p; data_of st p, e)
  | _ => None
  end.

Example fact_source_runs : result_of (run_source 60 fact_source) = Some (AGIM_OK, Some (VInt 120), None).
Proof. vm_compute. reflexivity. Qed.

Lemma agim_run_no_type_error cwd read_file parse import_fuel parse_fuel garbage realloc frames_ok clone_ok grow_ok rem_ok set_ok other
    new_stack new_frames_ok fuel strict source st :
  agim_run cwd read_file parse import_fuel parse_fuel garbage realloc frames_ok clone_ok grow_ok rem_ok set_ok other new_stack new_frames_ok
    fuel strict source st <> Some AGIM_ERROR_TYPE.
Proof. unfold agim_run, agim_run_with_result, run_code. by repeat case_match; simplify_eq. Qed.

(** Where the driver fails.  A program that takes more than the 10000 reductions of
    one time slice, here a loop of 3000 rounds, is not resumed: it is reported as a
    runtime error without a message.  A type error in strict mode is reported as a
    compile error; nothing returns [AGIM_ERROR_TYPE].  The message of a file that could
    not be read to its end is a constant, which [agim_error_free] frees. *)
Theorem agim_run_flaws :
  result_of (run_source 60 long_source) = Some (AGIM_ERROR_RUNTIME, None, None) /\
  (forall cwd read_file parse import_fuel parse_fuel garbage realloc frames_ok clone_ok grow_ok rem_ok set_ok other new_stack new_frames_ok
      fuel strict source st,
    agim_run cwd read_file parse import_fuel parse_fuel garbage realloc frames_ok clone_ok grow_ok rem_ok set_ok other new_stack
      new_frames_ok fuel strict source st <> Some AGIM_ERROR_TYPE) /\
  (forall cwd read_file parse import_fuel parse_fuel garbage strict path, exists e,
    agim_compile_file cwd read_file parse import_fuel parse_fuel garbage strict path (inl FailedToRead) = Rejected e /\ agim_error_free e = None).
Proof. split_and!; [vm_compute; reflexivity|intros; apply agim_run_no_type_error|by eexists]. Qed.
